(* ===== verification/_CoqProject ===== *)
-Q . S2P
Prelude.v
Program.v
Io.v
Text.v
Bytes.v
Pace.v
Json.v
Task.v
GasMath.v
Abi.v
Cost.v
Reimbursement.v
Settlement.v
SettlementDecision.v
Hold.v
RpcWalk.v
Broadcast.v
Alchemy.v
Alert.v
Trusted.v
TrustedWalk.v
Prepared.v
Lifecycle.v
Vault.v
Signing.v
Simulation.v
Execution.v
ExecutionTriage.v
Tempo.v
ExecutionBundle.v
ExecutionPipeline.v
ExecutionSafety.v
ExecutionBatchSafety.v
ExecutionPayment.v
ExecutionRun.v
ExecutionProperties.v
ExecutionOutbox.v
TreasuryDo.v
Admission.v
RecordDo.v
AdmissionShell.v
AdmissionRace.v
Directory.v
Config.v
LaneDo.v
LaneSimulate.v
LaneArms.v
LaneSafety.v
LaneRace.v
JsonRpc.v
Multicall.v
Quote.v
Treasury.v
Revert.v
Estimate.v
EstimateGas.v
Market.v
Arms.v
Http.v
HttpSafety.v
ConfigSound.v
Queue.v
QueueSafety.v
Redis.v
RedisStore.v
RedisInbox.v
RedisCommands.v
RedisRecords.v
RedisSlots.v
RedisSchedule.v
Consumer.v
ConsumerSafety.v
IggyQueue.v
Routing.v
RedisOutbox.v
Engine.v
Deployer.v
EngineArms.v
EngineSafety.v
EngineRace.v
