(* ===== verification/Prelude.v ===== *)
(** * Vela Relay: a verification development

    Vela Relay is an ERC-4337 bundler that is paid in-band: a wallet signs a
    UserOperation whose calldata pays the relay, and the relay bundles it,
    checks the payment against the chain's price, signs [handleOps] with a
    pooled relayer key and follows it to a receipt.  The I/O-free decisions are
    the crate [src/vela-relay-core]; two shells run them, a Cloudflare Worker
    ([src/vela-relay-cf]) and a server ([src/src]).

    ** How the code is modelled

    A core program that asks its shell for one operation at a time (crux_core)
    is a tree of requests ([Program.prog], with the early settlement of a
    [Result] in [flow]), and its theorems hold for every sequence of answers.
    A shell function that awaits typed effects is an [Io.io], judged over every
    answer by a monitor.  A Durable Object is a state and a function on it
    ([RecordDo], [TreasuryDo]).  Concurrency is a step relation over any number
    of such programs ([AdmissionRace], [LaneRace], [EngineRace]).  Machine integers are [Z]
    with each check or wrap-around written out ([Prelude]); [str] is its UTF-8
    bytes ([Text]); slices are byte lists ([Bytes]); JSON is [Json.Value].

    ** The files

    Shared: [Prelude], [Program], [Io], [Text], [Bytes], [Json].

    Prices and money.  [GasMath] is [gas_math.rs]; [Cost] is [cost.rs];
    [Reimbursement], [Settlement] and [SettlementDecision] are
    [settlement.rs] - the calldata parser and the transfer-log check, prices
    and minimums, the fee a bundle is signed at; [Pace] is [pace.rs] with the
    constants of [tempo.rs], [Tempo] the rest of it; [Hold] is [hold.rs] and
    [funding.rs].

    Operations and records.  [Task] is [task.rs], the JSON its derives write,
    and [rejection.rs]; [Lifecycle] is [lifecycle.rs] and [nonce_slot.rs];
    [Prepared] and [Admission] are [admission.rs]; [Abi] is [abi.rs]; [Vault]
    and [Signing] are [vault.rs] and [signing.rs].

    Chain access.  [Simulation], [RpcWalk], [Alchemy] and [Alert] are the core
    files of those names; [Broadcast] is [broadcast.rs] and [receipt.rs],
    [Directory] is [chain_directory.rs] and [rpc_host.rs].

    The executor ([execution.rs]).  [Execution] has its data and pure
    decisions, [ExecutionTriage], [ExecutionBundle] and [ExecutionPipeline] the
    program [drive_batch] and all it calls; [ExecutionSafety], [ExecutionBatchSafety], [ExecutionPayment]
    and [ExecutionRun] prove triples for every function; [ExecutionProperties]
    states what holds of every run and [ExecutionOutbox] the refinement of an
    abstract outbox.

    What a client reads.  [JsonRpc] is [wire.rs]; [Multicall] and [Quote] are
    [quote.rs]; [Treasury] is [treasury.rs] and [account.rs]; [Revert],
    [Estimate] and [EstimateGas] are [estimate.rs].

    The Cloudflare shell.  [Config] is [config.rs] and [ConfigSound] what an
    accepted configuration guarantees; [Market] is [arms/market.rs] and
    [arms/rpc.rs], [Arms] the gas price and quote arms and the admission over
    the platform's effects, [Http] is [http.rs] with [fetch] of [shell.rs], and [HttpSafety] its theorems;
    [Queue] is the rest of [shell.rs], the two queue consumers, and
    [QueueSafety] their theorem.  [RecordDo] is [record_do.rs] and [proto.rs];
    [AdmissionShell] is [admission.rs] there, and [AdmissionRace] any number of
    admissions over one store; [TreasuryDo] is [treasury_do.rs]; [Trusted] and
    [TrustedWalk] are [arms/trusted.rs]; [LaneSimulate] is [arms/simulate.rs];
    [LaneDo] and [LaneArms] are [lane_do.rs], [LaneSafety] and [LaneRace] what
    every interleaving of one lane's programs keeps.

    The server's store ([user_operation_store.rs]).  [Redis] is the keyspace
    with the commands the scripts call, [RedisStore] the Lua scripts and the
    functions on records, [RedisInbox] those on leases, outboxes, nonce slots
    and the delayed inbox.  [RedisCommands] lists what may reach the server and
    the world it runs in; [RedisRecords], [RedisSlots], [RedisSchedule] and
    [RedisOutbox] prove what that world keeps of records, slots, the inbox and
    prepared bundles.

    The server's queue.  [IggyQueue] is [app/queue.rs] and [utils/iggy.rs], the
    producer of an admission; [Consumer] is [worker/consumer.rs], the
    dispatchers, sessions and lanes; [ConsumerSafety] is a stream's whole group
    of dispatchers; [Routing] follows an envelope from admission to the lane in
    both deployments.

    The server's executor ([worker/executor]).  [Engine] is the engine of
    [engine.rs] with the recovery of the outbox and the receipts; [Deployer] is
    [deployment.rs] and [simulation.rs]; [EngineArms] the rest of [engine.rs] -
    the arms that answer the core's program, the lease fence, the delayed
    inbox, the reconciler - with [alert.rs] and the market and directory reads
    of [utils].  [EngineSafety] proves what every run of its tasks keeps,
    [EngineRace] what any number of them keep over one Redis.

    ** What the theorems show

    - A lane drops a stored bundle only with evidence, and replaces one only
      where its own read of the slot failed; no lane broadcasts what it has not
      stored, and a durable result stands on evidence: [LaneRace],
      [ExecutionProperties], [ExecutionOutbox].
    - An accepted operation stays recorded and queued under any interleaving
      and any loss, and an account nonce has one live operation, within the
      assumptions below: [AdmissionRace], [Admission].
    - A record's status only follows the lifecycle table unless a storage read
      failed, and its JSON reads back: [RecordDo].  The treasury lease excludes,
      and at most one top-up is pending, again unless a read failed:
      [TreasuryDo].
    - No message of a stream is passed over before it is settled, an enqueue
      succeeds exactly if it was confirmed, and what was admitted is what is
      executed: [ConsumerSafety], [IggyQueue], [Routing].
    - The server's scripts keep the same rules under any order of commands and
      any lost reply: a record follows the table until it expires, a nonce slot
      is the core's, and nothing parked is lost: [RedisRecords], [RedisSlots],
      [RedisSchedule].
    - The server's executor broadcasts only what an outbox holds and settles
      only on evidence, makes no effect but bookkeeping once it has seen its
      lease lost, and keeps a prepared bundle until some task has the evidence
      to let it go: [EngineSafety], [EngineRace].
    - Only paid bundles are signed, at a cap the payments fund; the parser of a
      payment accepts exactly its encodings; the published price is accepted
      at settlement, and what an estimate publishes pays the executor's bill:
      [ExecutionProperties], [SettlementDecision], [Reimbursement],
      [Settlement], [EstimateGas], [GasMath], [Cost].
    - Only checked endpoints are asked, an answer is its own call's, and a
      rejection is unanimous: [TrustedWalk].  The default host rule keeps the
      relay out of its own network: [Directory].
    - A request reaches only the directory, the market and endpoints the host
      policy allows, and gets one answer: [HttpSafety].  A queue message is
      settled once, and acknowledged only with evidence: [QueueSafety].  The
      recipient wallets pay is the treasury the lanes spend from:
      [ConfigSound].
    - Codecs: [Signing], [Multicall], [Revert], [Reimbursement], [RecordDo].

    ** Parameters

    Code outside the repository enters as a class whose laws are its documented
    behaviour, each with an instance the witnesses run: [Hex] and [Keccak]
    (the hex crate, keccak256), [Alloy], [SolCalls] and [TokenCalls] (alloy's
    text parsers and ABI encoders), [HashText], [Curve] and [LocalSigner]
    (HKDF, secp256k1, alloy's signer), [LowerCase] (Unicode's table),
    [BigUintText] (num-bigint's texts), [UrlParser] (the url crate), [SerdeJson]
    (serde_json's parser and messages), [IggyText] (the iggy crate's texts and
    names), [LuaJson] (cjson's decoding and
    encoding), and [TargetWidth], the width of [usize].  The reader of a fee
    history's floats ([tip_window_of]), whether a text is a JSON object
    ([is_json_object]), the embedded simulations bytecode, the texts of the
    vendored artifacts and serde_json's writer of a dead letter
    ([json_to_vec]) are arguments.
    The Standard Library's own parsers (integers, [IpAddr], UTF-8) are
    modelled, and so are the Redis commands, which are the standard library of
    the server's Lua scripts: values with an expiry under one clock, each script
    run at once.

    ** Bounds and fuel

    A recursion that is not structural carries fuel, with a lemma that more
    fuel changes nothing or that the bound suffices: [Multicall.decode_entries]
    (a byte of the answer per turn), [Revert.decode_revert_with] (what is
    nested is shorter), [Reimbursement]'s walk of the calldata, [Hold]'s
    ladder and the derivation counter of [Vault].  The programs of the
    executor are total by construction: their loops are over lists.  A panic is
    a value ([None] of [ExecutionPipeline.drive_batch], where a bundle may hold
    no operation) or an effect that is never answered ([Engine.Panic]).  The
    loops of the consumer, of a lease's heartbeat and of the reconciler end with
    the process: the number of their turns is how long it lives, and the
    theorems hold for every number.

    ** Assumptions of the concurrent models

    [LaneRace]: while a program waits for the object's storage nothing else is
    delivered to it (the platform's input gate); a read of the slot is exact or
    fails, which the code takes for an empty slot.  [RecordDo] and [TreasuryDo]:
    a storage read is exact or fails, request by request; the theorems say what
    a failed read can break.  [AdmissionRace]: no record expires while the
    admissions race, the objects can read their storage for an admission
    and for the restoring of a record, and the executor sends records its own
    commands only; for one live operation per nonce also: the submissions are distinct, each admission finishes within
    [ADMISSION_GRACE_MS], and the clock does not go back.  Lost requests,
    answers and queue sends are all possible.  [ConsumerSafety]: a
    poll answers messages that follow the group's next offset, in order (Iggy's
    [next] strategy), and retention drops none that is unconsumed.
    [EngineRace]: the tasks share one operator secret, a script of the store
    runs at once, and only the executor's tasks ask for a bundle to be cleared.

    ** Not modelled

    [fee_contract.rs] holds tests; [lib.rs] declarations.  Console lines and
    log texts have no answer and are left out.  The server ([src/src]) runs the
    same core over Redis, Iggy and reqwest: its store, its queue and its
    executor are modelled; its client of the trusted endpoints
    ([executor/rpc.rs]), which repeats [Trusted]'s walks over reqwest and whose
    answers are arbitrary in [EngineCall], the HTTP handlers, the gas-price
    caches and the reading of the environment are not.  Of the Worker, the
    Telegram transport ([arms/telegram.rs]) is one HTTP request, the effect that
    answers whether it was delivered.  The deployment tool and the build scripts
    are operator tooling.

    This file is the shared prelude: checked machine integers, the error monad,
    and the tactics the components use. *)

From stdpp Require Export base tactics option list numbers strings pretty gmap sorting.
From Stdlib Require Export ZArith Lia.

#[global] Open Scope Z_scope.
#[global] Set Default Proof Using "Type".

Arguments Z.pow : simpl never.
Arguments Z.mul : simpl never.
Arguments Z.div : simpl never.
Arguments Z.modulo : simpl never.

(** ** The error monad

    Rust's [Result<A, E>]; the error type comes first so that [result E] is
    a monad for stdpp's bind notation. *)
Inductive result (E A : Type) : Type :=
  | Ok (a : A)
  | Err (e : E).
Arguments Ok {_ _} _.
Arguments Err {_ _} _.

#[export] Instance result_mret {E} : MRet (result E) := λ A a, Ok a.
#[export] Instance result_mbind {E} : MBind (result E) := λ A B f m,
  match m with Ok a => f a | Err e => Err e end.
#[export] Instance result_fmap {E} : FMap (result E) := λ A B f m,
  match m with Ok a => Ok (f a) | Err e => Err e end.

#[export] Instance result_eq_dec {E A} `{EqDecision E, EqDecision A} :
  EqDecision (result E A).
Proof. solve_decision. Defined.

(** [Option::ok_or], [Result::ok], [Result::map_err]. *)
Definition ok_or {E A} (o : option A) (e : E) : result E A :=
  match o with Some a => Ok a | None => Err e end.
Definition ok {E A} (r : result E A) : option A :=
  match r with Ok a => Some a | Err _ => None end.
Definition map_err {E F A} (f : E → F) (r : result E A) : result F A :=
  match r with Ok a => Ok a | Err e => Err (f e) end.

Lemma result_bind_Ok {E A B} (m : result E A) (f : A → result E B) b :
  m ≫= f = Ok b ↔ ∃ a, m = Ok a ∧ f a = Ok b.
Proof. destruct m; naive_solver. Qed.

Lemma ok_or_Ok {E A} (o : option A) (e : E) a : ok_or o e = Ok a ↔ o = Some a.
Proof. destruct o; naive_solver. Qed.

Lemma ok_or_Err {E A} (o : option A) (e e' : E) :
  ok_or o e = Err e' ↔ o = None ∧ e' = e.
Proof. destruct o; naive_solver. Qed.

Lemma map_err_Ok {E F A} (f : E → F) (r : result E A) a :
  map_err f r = Ok a ↔ r = Ok a.
Proof. destruct r; naive_solver. Qed.

(** ** Machine integers

    A [w]-bit unsigned integer is the [Z] it denotes; [fits w] is the range
    every value of that type has.  [checked w] is the outcome of the
    [checked_*] operations: the mathematical result when it fits. *)
Definition fits (w z : Z) : Prop := 0 ≤ z < 2 ^ w.
#[export] Instance fits_dec w z : Decision (fits w z).
Proof. unfold fits. apply _. Defined.

Definition checked (w z : Z) : option Z :=
  if decide (fits w z) then Some z else None.

Definition umax (w : Z) : Z := 2 ^ w - 1.

Definition saturating_add (w a b : Z) : Z := Z.min (a + b) (umax w).
Definition saturating_mul (w a b : Z) : Z := Z.min (a * b) (umax w).
Definition saturating_sub (a b : Z) : Z := Z.max 0 (a - b).

(** [wrapping_*], and the plain operators of a release build. *)
Definition wrapping (w z : Z) : Z := z mod 2 ^ w.

(** [Ord::clamp]. *)
Definition clamp (lo hi z : Z) : Z := Z.min (Z.max z lo) hi.

Lemma checked_Some w z r : checked w z = Some r ↔ r = z ∧ fits w z.
Proof. unfold checked. case_decide; naive_solver. Qed.

Lemma checked_fits w z : fits w z → checked w z = Some z.
Proof. intros H. by apply checked_Some. Qed.

Lemma wrapping_fits w z : fits w z → wrapping w z = z.
Proof. intros H. by apply Z.mod_small. Qed.

Lemma checked_None w z : checked w z = None ↔ ¬ fits w z.
Proof. unfold checked. case_decide; naive_solver. Qed.

Lemma fits_nonneg w z : fits w z → 0 ≤ z.
Proof. unfold fits. lia. Qed.

Lemma fits_le w a b : fits w b → 0 ≤ a ≤ b → fits w a.
Proof. unfold fits. lia. Qed.

Lemma fits_mono v w z : 0 ≤ v ≤ w → fits v z → fits w z.
Proof.
  unfold fits. intros [Hv Hle] [H0 Hz]. split; [done|].
  eapply Z.lt_le_trans; [exact Hz|]. apply Z.pow_le_mono_r; lia.
Qed.

Create HintDb relay.
#[export] Hint Resolve fits_nonneg checked_fits : relay.

(** ** Rounding division *)

(** [value / divisor] plus one when the division is not exact, the
    [u8::from(!remainder.is_zero())] idiom. *)
Definition ceil_quot (a b : Z) : Z := a / b + (if decide (a mod b = 0) then 0 else 1).

Arguments ceil_quot : simpl never.
Arguments checked : simpl never.

Lemma ceil_quot_spec a b : 0 < b → b * (ceil_quot a b - 1) < a ≤ b * ceil_quot a b.
Proof.
  intros Hb. unfold ceil_quot.
  pose proof (Z.div_mod a b ltac:(lia)). pose proof (Z.mod_pos_bound a b Hb).
  case_decide; nia.
Qed.

Lemma ceil_quot_le_iff a b q : 0 < b → ceil_quot a b ≤ q ↔ a ≤ b * q.
Proof. intros Hb. pose proof (ceil_quot_spec a b Hb). split; nia. Qed.

Lemma ceil_quot_nonneg a b : 0 < b → 0 ≤ a → 0 ≤ ceil_quot a b.
Proof. intros Hb Ha. pose proof (ceil_quot_spec a b Hb). nia. Qed.

Lemma ceil_quot_mono a a' b : 0 < b → a ≤ a' → ceil_quot a b ≤ ceil_quot a' b.
Proof.
  intros Hb Ha. apply ceil_quot_le_iff; [done|].
  pose proof (ceil_quot_spec a' b Hb). lia.
Qed.

Lemma ceil_quot_ge_div a b : 0 < b → a / b ≤ ceil_quot a b ≤ a / b + 1.
Proof. intros Hb. unfold ceil_quot. case_decide; lia. Qed.

(** ** Sums *)

Definition sumZ (l : list Z) : Z := foldr Z.add 0 l.

(** [iter().try_fold(ZERO, |sum, x| sum.checked_add(x))] *)
Definition checked_sum_from (w acc : Z) (l : list Z) : option Z :=
  foldl (λ o x, s ← o; checked w (s + x)) (Some acc) l.
Definition checked_sum (w : Z) (l : list Z) : option Z := checked_sum_from w 0 l.

Lemma sumZ_cons x l : sumZ (x :: l) = x + sumZ l.
Proof. done. Qed.

Lemma sumZ_app l k : sumZ (l ++ k) = sumZ l + sumZ k.
Proof. induction l; simpl; lia. Qed.

Lemma sumZ_nonneg l : Forall (λ x, 0 ≤ x) l → 0 ≤ sumZ l.
Proof. induction 1; simpl; lia. Qed.

Lemma foldl_bind_None {A B} (f : A → B → option A) l :
  foldl (λ o x, s ← o; f s x) None l = None.
Proof. induction l; simpl; auto. Qed.

Lemma checked_sum_from_Some w acc l r :
  fits w acc → Forall (λ x, 0 ≤ x) l →
  checked_sum_from w acc l = Some r ↔ r = acc + sumZ l ∧ fits w (acc + sumZ l).
Proof.
  unfold checked_sum_from. revert acc. induction l as [|x l IH]; intros acc Hacc Hl; simpl.
  - rewrite Z.add_0_r. naive_solver.
  - apply Forall_cons in Hl as [Hx Hl].
    replace (acc + (x + sumZ l)) with ((acc + x) + sumZ l) by lia.
    destruct (checked w (acc + x)) as [s|] eqn:E.
    + apply checked_Some in E as [-> E]. by apply IH.
    + apply checked_None in E. rewrite foldl_bind_None.
      pose proof (sumZ_nonneg l Hl). split; [done|]. intros [_ Hf].
      destruct E. unfold fits in *. lia.
Qed.

Lemma checked_sum_Some w l r :
  0 ≤ w → Forall (λ x, 0 ≤ x) l →
  checked_sum w l = Some r ↔ r = sumZ l ∧ fits w (sumZ l).
Proof.
  intros Hw Hl. unfold checked_sum. rewrite checked_sum_from_Some; [done| |done].
  split; [lia|]. apply Z.pow_pos_nonneg; lia.
Qed.

(** ** The last element *)

Lemma last_shift {A} (x : A) l d : List.last (x :: l) d = List.last l x.
Proof. revert x d. induction l as [|y l IH]; intros x d; [done|].
  rewrite (IH y x). exact (IH y d).
Qed.

(** ** Locating an element of a concatenation *)

Lemma split_after {A} (P : A → Prop) (a b pre : list A) x post :
  Forall P a → ¬ P x → a ++ b = pre ++ x :: post →
  ∃ pre', pre = a ++ pre' ∧ b = pre' ++ x :: post.
Proof.
  intros Ha Hx. revert pre. induction Ha as [|y a Hy Ha IH]; intros pre Heq; simpl in Heq.
  - exists pre. done.
  - destruct pre as [|z pre]; injection Heq as -> Heq; [done|].
    destruct (IH pre Heq) as (pre' & -> & ->). by exists pre'.
Qed.

Lemma split_before {A} (P : A → Prop) (a b pre : list A) x post :
  Forall P b → ¬ P x → a ++ b = pre ++ x :: post →
  ∃ post', post = post' ++ b ∧ a = pre ++ x :: post'.
Proof.
  intros Hb Hx. revert pre. induction a as [|y a IH]; intros pre Heq; simpl in Heq.
  - rewrite Heq in Hb. by apply Forall_app in Hb as [_ [? _]%Forall_cons].
  - destruct pre as [|z pre]; injection Heq as -> Heq; [by exists a; rewrite <-Heq|].
    destruct (IH pre Heq) as (post' & -> & ->). by exists post'.
Qed.

(** ** Tactics *)

(** Turn the [Some]/[Ok] equations a chain of checked operations leaves into
    equations and range facts. *)
Ltac inv_checked :=
  repeat match goal with
  | H : checked _ _ = Some _ |- _ => apply checked_Some in H as [? ?]; subst
  | H : checked _ _ = None |- _ => apply checked_None in H
  | H : ok_or _ _ = Ok _ |- _ => apply ok_or_Ok in H
  | H : ok_or _ _ = Err _ |- _ => apply ok_or_Err in H as [? ?]; subst
  | H : map_err _ _ = Ok _ |- _ => apply map_err_Ok in H
  | H : _ ≫= _ = Some _ |- _ => apply bind_Some in H as (? & ? & ?)
  | H : _ ≫= _ = Ok _ |- _ => apply result_bind_Ok in H as (? & ? & ?)
  | H : Some _ = Some _ |- _ => injection H as H; subst
  | H : mret _ = Some _ |- _ => injection H as H; subst
  | H : Ok _ = Ok _ |- _ => injection H as H; subst
  | H : None = Some _ |- _ => discriminate H
  | H : Err _ = Ok _ |- _ => discriminate H
  | H : Ok _ = Err _ |- _ => discriminate H
  end.

(** Split the innermost match of the goal or a hypothesis, keeping the
    equation, and discard the branches that contradict it. *)
Ltac split_match :=
  repeat (case_match; simplify_eq/=; try done).

(** [Forall] over a concrete list of integers. *)
Ltac forall_lia :=
  repeat first [apply Forall_nil_2 | apply Forall_cons_2; [unfold fits; lia|]].

(** ** Lists: the longest prefix that satisfies a test *)

Fixpoint take_while {A} (p : A → bool) (l : list A) : list A :=
  match l with
  | [] => []
  | x :: l => if p x then x :: take_while p l else []
  end.

Lemma take_while_Forall {A} (p : A → bool) l : Forall (λ x, p x = true) (take_while p l).
Proof. induction l as [|x l IH]; [constructor|]. cbn. destruct (p x) eqn:E; by constructor. Qed.
