(* ===== verification/Program.v ===== *)
(** * Program: the effectful programs of the core ([crux_core] commands)

    A core program asks its shell for one operation at a time and continues
    with the answer ([ctx.request_from_shell(op).await]).  [prog] is the tree
    of those requests; [flow] adds the early settlement of a [Result].  A run
    is judged against every answer a shell can give: [runs p trace a] relates
    a program to the requests it makes, the answers it gets and its value. *)

From S2P Require Export Prelude.

Section Program.
Context {Op Rep : Type}.

Inductive prog (A : Type) : Type :=
  | Ret (a : A)
  | Ask (op : Op) (k : Rep → prog A).
#[global] Arguments Ret {_} _.
#[global] Arguments Ask {_} _ _.

Fixpoint prog_bind {A B} (f : A → prog B) (p : prog A) : prog B :=
  match p with
  | Ret a => f a
  | Ask op k => Ask op (λ r, prog_bind f (k r))
  end.

(** One request and its answer. *)
Definition trace := list (Op * Rep).

Inductive runs {A} : prog A → trace → A → Prop :=
  | runs_ret a : runs (Ret a) [] a
  | runs_ask op k r t a : runs (k r) t a → runs (Ask op k) ((op, r) :: t) a.

Lemma runs_Ret {A} (a b : A) t : runs (Ret a) t b ↔ t = [] ∧ b = a.
Proof.
  split; [by inversion 1|]. intros [-> ->]. constructor.
Qed.

Lemma runs_Ask {A} op (k : Rep → prog A) t b :
  runs (Ask op k) t b ↔ ∃ r t', t = (op, r) :: t' ∧ runs (k r) t' b.
Proof.
  split; [inversion 1; eauto|]. intros (r & t' & -> & ?). by constructor.
Qed.

Lemma runs_prog_bind {A B} (f : A → prog B) p t b :
  runs (prog_bind f p) t b ↔ ∃ t1 a t2, t = t1 ++ t2 ∧ runs p t1 a ∧ runs (f a) t2 b.
Proof.
  revert t. induction p as [a|op k IH]; intros t; simpl.
  - setoid_rewrite runs_Ret. split.
    + intros Hr. exists [], a, t. done.
    + by intros (? & ? & t2 & -> & [-> ->] & ?).
  - rewrite runs_Ask. split.
    + intros (r & t' & -> & Hr). apply IH in Hr as (t1 & a & t2 & -> & H1 & H2).
      exists ((op, r) :: t1), a, t2. split; [done|]. split; [by constructor|done].
    + intros (t1 & a & t2 & -> & H1 & H2). apply runs_Ask in H1 as (r & t' & -> & H1).
      exists r, (t' ++ t2). split; [done|]. apply IH. eauto 10.
Qed.

(** A program driven by a shell with a state of its own. *)
Fixpoint execute {S A} (shell : S → Op → S * Rep) (s : S) (p : prog A) : S * (trace * A) :=
  match p with
  | Ret a => (s, ([], a))
  | Ask op k =>
      let '(s, r) := shell s op in
      let '(s, (t, a)) := execute shell s (k r) in (s, ((op, r) :: t, a))
  end.

(** Every program settles against every shell. *)
Lemma execute_runs {S A} (shell : S → Op → S * Rep) (s : S) (p : prog A) :
  runs p (execute shell s p).2.1 (execute shell s p).2.2.
Proof.
  revert s. induction p as [a|op k IH]; intros s; simpl; [constructor|].
  destruct (shell s op) as [s' r]. specialize (IH r s').
  destruct (execute shell s' (k r)) as [s'' [t a]]. by constructor.
Qed.

(** A program part of the way: what it has asked, and what is left of it. *)
Inductive follows {A} : prog A → trace → prog A → Prop :=
  | follows_start p : follows p [] p
  | follows_ask op k r t p : follows (k r) t p → follows (Ask op k) ((op, r) :: t) p.

Lemma follows_snoc {A} (p : prog A) t op k r :
  follows p t (Ask op k) → follows p (t ++ [(op, r)]) (k r).
Proof.
  intros Hf. remember (Ask op k) as q eqn:Hq. induction Hf; simpl; [subst; repeat constructor|].
  constructor. auto.
Qed.

Lemma follows_runs {A} (p q : prog A) t t' a : follows p t q → runs q t' a → runs p (t ++ t') a.
Proof. induction 1; simpl; [done|]. intros. constructor. auto. Qed.

(** Whatever is left of a program has some run. *)
Lemma follows_extends {A} (p q : prog A) t (r : Rep) : follows p t q → ∃ t' a, runs p (t ++ t') a.
Proof.
  intros Hf. eexists _, _. eapply follows_runs; [exact Hf|].
  apply (execute_runs (λ s (_ : Op), (s, r)) tt).
Qed.

(** Replay a program against a list of answers: its value when the list is
    exactly what it asks for. *)
Fixpoint replay {A} (p : prog A) (answers : list Rep) : option (trace * A) :=
  match p, answers with
  | Ret a, [] => Some ([], a)
  | Ask op k, r :: rest => '(t, a) ← replay (k r) rest; Some ((op, r) :: t, a)
  | _, _ => None
  end.

Lemma replay_runs {A} (p : prog A) answers t a : replay p answers = Some (t, a) → runs p t a.
Proof.
  revert answers t. induction p as [a'|op k IH]; intros [|r rest] t Hr; simpl in Hr; try done.
  - injection Hr as <- <-. constructor.
  - apply bind_Some in Hr as ([t' a'] & Hr & [= <- <-]). constructor. by eapply IH.
Qed.

(** ** Safety of every run

    [wp I p h Q]: a program begun after the history [h] makes only requests
    [I] allows at their point of the history, and ends with [Q]. *)
Section Wp.
Variable I : trace → Op → Prop.

Fixpoint wp {A} (p : prog A) (h : trace) (Q : trace → A → Prop) : Prop :=
  match p with
  | Ret a => Q h a
  | Ask op k => I h op ∧ ∀ r, wp (k r) (h ++ [(op, r)]) Q
  end.

Lemma wp_bind {A B} (f : A → prog B) p h Q :
  wp (prog_bind f p) h Q ↔ wp p h (λ h' a, wp (f a) h' Q).
Proof.
  revert h. induction p as [a|op k IH]; intros h; simpl; [done|].
  split; intros [HI Hk]; (split; [done|]; intros r; by apply IH).
Qed.

Lemma wp_mono {A} (p : prog A) h (Q Q' : trace → A → Prop) :
  (∀ t a, Q (h ++ t) a → Q' (h ++ t) a) → wp p h Q → wp p h Q'.
Proof.
  revert h. induction p as [a|op k IH]; intros h HQ; simpl.
  - intros HQa. specialize (HQ [] a). rewrite app_nil_r in HQ. by apply HQ.
  - intros [HI Hk]. split; [done|]. intros r. eapply IH, Hk.
    intros t a. rewrite <-app_assoc. apply HQ.
Qed.

(** Two specifications of one program. *)
Lemma wp_and {A} (p : prog A) h (Q Q' : trace → A → Prop) :
  wp p h Q → wp p h Q' → wp p h (λ h' a, Q h' a ∧ Q' h' a).
Proof.
  revert h. induction p as [a|op k IH]; intros h; simpl; [done|].
  intros [HI Hk] [_ Hk']. split; [done|]. intros r. by apply IH.
Qed.

Lemma wp_runs {A} (p : prog A) h Q t a :
  wp p h Q → runs p t a →
  Q (h ++ t) a ∧ ∀ before op r after, t = before ++ (op, r) :: after → I (h ++ before) op.
Proof.
  intros Hw Hr. revert h Hw. induction Hr as [a|op k r t a Hr IH]; intros h Hw; simpl in Hw.
  - rewrite app_nil_r. split; [done|]. by intros [|] ? ? ? ?.
  - destruct Hw as [HI Hk]. destruct (IH _ (Hk r)) as [HQ Hb]. rewrite <-app_assoc in HQ.
    split; [done|]. intros [|[op1 r1] before] op' r' after Heq.
    + injection Heq as <- <- <-. by rewrite app_nil_r.
    + injection Heq as <- <- Heq. specialize (Hb _ _ _ _ Heq). by rewrite <-app_assoc in Hb.
Qed.
End Wp.

End Program.

#[global] Arguments prog : clear implicits.
#[global] Arguments trace : clear implicits.

(** ** Programs that may settle early *)

Definition flow (Op Rep E A : Type) : Type := prog Op Rep (result E A).

#[export] Instance flow_mret {Op Rep E} : MRet (flow Op Rep E) := λ A a, Ret (Ok a).
#[export] Instance flow_mbind {Op Rep E} : MBind (flow Op Rep E) := λ A B f m,
  prog_bind (λ r, match r with Ok a => f a | Err e => Ret (Err e) end) m.

Definition settle {Op Rep E A} (e : E) : flow Op Rep E A := Ret (Err e).
Definition ask {Op Rep E} (op : Op) : flow Op Rep E Rep := Ask op (λ r, Ret (Ok r)).
Definition lift_result {Op Rep E A} (r : result E A) : flow Op Rep E A := Ret r.

Section FlowRuns.
Context {Op Rep E : Type}.
Implicit Types t : trace Op Rep.

Lemma runs_mret {A} (a : A) t r : runs (mret a : flow Op Rep E A) t r ↔ t = [] ∧ r = Ok a.
Proof. apply runs_Ret. Qed.

Lemma runs_settle {A} (e : E) t (r : result E A) : runs (settle e : flow Op Rep E A) t r ↔ t = [] ∧ r = Err e.
Proof. apply runs_Ret. Qed.

Lemma runs_lift {A} (x : result E A) t r : runs (lift_result x : flow Op Rep E A) t r ↔ t = [] ∧ r = x.
Proof. apply runs_Ret. Qed.

Lemma runs_ask_eq op t r :
  runs (ask op : flow Op Rep E Rep) t r ↔ ∃ reply, t = [(op, reply)] ∧ r = Ok reply.
Proof.
  unfold ask. rewrite runs_Ask. setoid_rewrite runs_Ret. naive_solver.
Qed.

Lemma runs_bind {A B} (m : flow Op Rep E A) (f : A → flow Op Rep E B) t r :
  runs (m ≫= f) t r ↔
    (∃ e, runs m t (Err e) ∧ r = Err e) ∨
    (∃ t1 a t2, t = t1 ++ t2 ∧ runs m t1 (Ok a) ∧ runs (f a) t2 r).
Proof.
  unfold mbind, flow_mbind. rewrite runs_prog_bind. split.
  - intros (t1 & [a|e] & t2 & -> & H1 & H2); [right; eauto 10|].
    apply runs_Ret in H2 as [-> ->]. rewrite app_nil_r. left. eauto.
  - intros [(e & H1 & ->)|(t1 & a & t2 & -> & H1 & H2)].
    + exists t, (Err e), []. rewrite app_nil_r. split; [done|]. split; [done|]. by apply runs_Ret.
    + exists t1, (Ok a), t2. done.
Qed.

Lemma runs_ask_bind {A} op (f : Rep → flow Op Rep E A) t r :
  runs (ask op ≫= f) t r ↔ ∃ reply t', t = (op, reply) :: t' ∧ runs (f reply) t' r.
Proof. unfold ask, mbind, flow_mbind. simpl. apply runs_Ask. Qed.

End FlowRuns.

(** ** Programs that carry a state through success and failure

    A function that takes [&mut S] and returns a [Result]: what it did to the
    state stands whether it returns [Ok] or [Err]. *)

Definition sflow (Op Rep S E A : Type) : Type := S → prog Op Rep (S * result E A).

#[export] Instance sflow_mret {Op Rep S E} : MRet (sflow Op Rep S E) := λ A a s, Ret (s, Ok a).
#[export] Instance sflow_mbind {Op Rep S E} : MBind (sflow Op Rep S E) := λ A B f m s,
  prog_bind (λ '(s, r), match r with Ok a => f a s | Err e => Ret (s, Err e) end) (m s).

Definition lift_flow {Op Rep S E A} (m : flow Op Rep E A) : sflow Op Rep S E A :=
  λ s, prog_bind (λ r, Ret (s, r)) m.
Definition modify {Op Rep S E} (f : S → S) : sflow Op Rep S E () := λ s, Ret (f s, Ok tt).

Section FlowWp.
Context {Op Rep E : Type}.
Implicit Types h : trace Op Rep.
Variable I : trace Op Rep → Op → Prop.

(** Safety of a program that may settle early. *)
Definition fwp {A} (m : flow Op Rep E A) h (Q : trace Op Rep → A → Prop)
    (QE : trace Op Rep → E → Prop) : Prop :=
  wp I m h (λ h' r, match r with Ok a => Q h' a | Err e => QE h' e end).

Lemma fwp_mret {A} (a : A) h Q QE : fwp (mret a) h Q QE ↔ Q h a.
Proof. done. Qed.
Lemma fwp_settle {A} (e : E) h (Q : trace Op Rep → A → Prop) QE : fwp (settle e) h Q QE ↔ QE h e.
Proof. done. Qed.
Lemma fwp_lift {A} (r : result E A) h Q QE :
  fwp (lift_result r) h Q QE ↔ match r with Ok a => Q h a | Err e => QE h e end.
Proof. done. Qed.
Lemma fwp_ask op h Q QE : fwp (ask op) h Q QE ↔ I h op ∧ ∀ r, Q (h ++ [(op, r)]) r.
Proof. done. Qed.

Lemma fwp_bind {A B} (m : flow Op Rep E A) (f : A → flow Op Rep E B) h Q QE :
  fwp (m ≫= f) h Q QE ↔ fwp m h (λ h' a, fwp (f a) h' Q QE) QE.
Proof.
  unfold fwp, mbind, flow_mbind. rewrite wp_bind. split; apply wp_mono; by intros t [a|e].
Qed.

Lemma fwp_mono {A} (m : flow Op Rep E A) h (Q Q' : trace Op Rep → A → Prop) (QE QE' : trace Op Rep → E → Prop) :
  (∀ t a, Q (h ++ t) a → Q' (h ++ t) a) → (∀ t e, QE (h ++ t) e → QE' (h ++ t) e) →
  fwp m h Q QE → fwp m h Q' QE'.
Proof. intros H1 H2. apply wp_mono. intros t [a|e]; auto. Qed.

(** The same for a program over a state. *)
Definition swp {S A} (m : sflow Op Rep S E A) (s : S) h (Q : trace Op Rep → S → A → Prop)
    (QE : trace Op Rep → S → E → Prop) : Prop :=
  wp I (m s) h (λ h' r, match r with (s', Ok a) => Q h' s' a | (s', Err e) => QE h' s' e end).

Lemma swp_mret {S A} (a : A) (s : S) h Q QE : swp (mret a) s h Q QE ↔ Q h s a.
Proof. done. Qed.
Lemma swp_modify {S} (f : S → S) s h Q QE : swp (modify f) s h Q QE ↔ Q h (f s) tt.
Proof. done. Qed.

Lemma swp_bind {S A B} (m : sflow Op Rep S E A) (f : A → sflow Op Rep S E B) s h Q QE :
  swp (m ≫= f) s h Q QE ↔ swp m s h (λ h' s' a, swp (f a) s' h' Q QE) QE.
Proof.
  unfold swp, mbind, sflow_mbind. rewrite wp_bind. split; apply wp_mono; by intros t [s' [a|e]].
Qed.

Lemma swp_lift {S A} (m : flow Op Rep E A) (s : S) h Q QE :
  swp (lift_flow m) s h Q QE ↔ fwp m h (λ h' a, Q h' s a) (λ h' e, QE h' s e).
Proof.
  unfold swp, fwp, lift_flow. rewrite wp_bind. split; apply wp_mono; by intros t [a|e].
Qed.

Lemma swp_mono {S A} (m : sflow Op Rep S E A) s h (Q Q' : trace Op Rep → S → A → Prop)
    (QE QE' : trace Op Rep → S → E → Prop) :
  (∀ t s' a, Q (h ++ t) s' a → Q' (h ++ t) s' a) → (∀ t s' e, QE (h ++ t) s' e → QE' (h ++ t) s' e) →
  swp m s h Q QE → swp m s h Q' QE'.
Proof. intros H1 H2. apply wp_mono. intros t [s' [a|e]]; auto. Qed.
End FlowWp.
