(* ===== verification/Io.v ===== *)
(** * Io: programs whose effects have typed answers

    The shells are asynchronous Rust: a function awaits one effect after
    another and each effect has its own answer type.  [io E A] is such a
    function that returns an [A]; an effect [e : E R] is answered by an [R].
    A run is judged against every answer; [ensures] is the safety of every
    run, stated with a monitor: a state that watches the effects and their
    answers, and says which effect may come next. *)

From S2P Require Export Program.
#[local] Open Scope list_scope.

Inductive io (E : Type → Type) (A : Type) : Type :=
  | Pure (a : A)
  | Vis {R : Type} (e : E R) (k : R → io E A).
Arguments Pure {_ _} _.
Arguments Vis {_ _ _} _ _.

Fixpoint io_bind {E A B} (f : A → io E B) (m : io E A) : io E B :=
  match m with
  | Pure a => f a
  | Vis e k => Vis e (λ r, io_bind f (k r))
  end.

#[export] Instance io_mret {E} : MRet (io E) := λ A a, Pure a.
#[export] Instance io_mbind {E} : MBind (io E) := λ A B f m, io_bind f m.

Definition perform {E R} (e : E R) : io E R := Vis e Pure.

(** A loop over a list with an accumulator; the body may end the loop. *)
Fixpoint io_for {E S A X} (body : X → S → io E (S + A)) (items : list X) (s : S) (finish : S → io E A) : io E A :=
  match items with
  | [] => finish s
  | x :: items =>
      step ← body x s;
      match step with
      | inl s => io_for body items s finish
      | inr a => mret a
      end
  end.

(** The question mark: a failure ends the function. *)
Definition io_try {E X A B} (f : A → io E (result X B)) (m : io E (result X A)) : io E (result X B) :=
  r ← m; match r with Ok a => f a | Err e => mret (Err e) end.

(** A loop whose body may fail. *)
Fixpoint io_each {E X S A} (body : A → S → io E (result X S)) (items : list A) (s : S) : io E (result X S) :=
  match items with
  | [] => mret (Ok s)
  | a :: items => io_try (io_each body items) (body a s)
  end.

(** [futures::join]: two programs at once; the scheduler says which goes on. *)
Fixpoint io_join {E : Type → Type} {A B : Type} (left_next : E bool) (p : io E A) : io E B → io E (A * B) :=
  fix go (q : io E B) : io E (A * B) :=
    match p, q with
    | Pure a, _ => b ← q; mret (a, b)
    | _, Pure b => a ← p; mret (a, b)
    | Vis e k, Vis f l =>
        Vis left_next (λ left : bool,
          if left then Vis e (λ r, io_join left_next (k r) q) else Vis f (λ r, go (l r)))
    end.

(** A program raced with a deadline, which may strike while any of its effects
    is under way: that answer is lost with the program. *)
Fixpoint io_within {E : Type → Type} {A : Type} (in_time : E bool) (p : io E A) : io E (option A) :=
  match p with
  | Pure a => Pure (Some a)
  | Vis e k => Vis e (λ r, Vis in_time (λ ok : bool, if ok then io_within in_time (k r) else Pure None))
  end.

(** One effect and its answer. *)
Definition Answered (E : Type → Type) : Type := { R : Type & (E R * R)%type }.
Definition answered {E : Type → Type} {R} (e : E R) (r : R) : Answered E := existT R (e, r).

Inductive io_runs {E A} : io E A → list (Answered E) → A → Prop :=
  | io_runs_pure a : io_runs (Pure a) [] a
  | io_runs_vis {R} (e : E R) k r t a : io_runs (k r) t a → io_runs (Vis e k) (answered e r :: t) a.

(** A program driven by a handler with a state of its own. *)
Fixpoint io_execute {E S A} (handle : S → ∀ R, E R → S * R) (s : S) (p : io E A) :
    S * (list (Answered E) * A) :=
  match p with
  | Pure a => (s, ([], a))
  | Vis e k =>
      let '(s, r) := handle s _ e in
      let '(s, (t, a)) := io_execute handle s (k r) in (s, (answered e r :: t, a))
  end.

Lemma io_execute_runs {E S A} (handle : S → ∀ R, E R → S * R) s (p : io E A) :
  io_runs p (io_execute handle s p).2.1 (io_execute handle s p).2.2.
Proof.
  revert s. induction p as [a|R e k IH]; intros s; cbn; [constructor|].
  destruct (handle s R e) as [s' r]. specialize (IH r s').
  destruct (io_execute handle s' (k r)) as [s'' [t a]]. by constructor.
Qed.

(** ** Monitors *)

Section Monitor.
Context {E : Type → Type} {G : Type}.
Variable permits : G → ∀ R, E R → Prop.
Variable observe : G → ∀ R, E R → R → G.

(** From the monitor state [g], the program makes only permitted effects,
    whatever the answers, and ends with [Q]. *)
Fixpoint ensures {A} (p : io E A) (g : G) (Q : G → A → Prop) : Prop :=
  match p with
  | Pure a => Q g a
  | Vis e k => permits g _ e ∧ ∀ r, ensures (k r) (observe g _ e r) Q
  end.

Fixpoint accepted (g : G) (t : list (Answered E)) : Prop :=
  match t with
  | [] => True
  | existT R (e, r) :: t => permits g R e ∧ accepted (observe g R e r) t
  end.

Definition observed_all (g : G) (t : list (Answered E)) : G :=
  foldl (λ g x, observe g (projT1 x) (projT2 x).1 (projT2 x).2) g t.

Lemma ensures_pure {A} (a : A) g Q : ensures (Pure a) g Q ↔ Q g a.
Proof. done. Qed.

Lemma ensures_perform {R} (e : E R) g Q :
  ensures (perform e) g Q ↔ permits g R e ∧ ∀ r, Q (observe g R e r) r.
Proof. done. Qed.

Lemma ensures_bind {A B} (f : A → io E B) (m : io E A) g Q :
  ensures (m ≫= f) g Q ↔ ensures m g (λ g' a, ensures (f a) g' Q).
Proof.
  revert g. induction m as [a|R e k IH]; intros g; [reflexivity|].
  split; intros [HI Hk]; (split; [exact HI|]; intros r; apply IH; exact (Hk r)).
Qed.

Lemma ensures_mono {A} (p : io E A) g (Q Q' : G → A → Prop) :
  ensures p g Q → (∀ g' a, Q g' a → Q' g' a) → ensures p g Q'.
Proof.
  intros Hp HQ. revert g Hp. induction p as [a|R e k IH]; intros g; cbn; [auto|].
  intros [HI Hk]. split; [done|]. intros r. by apply IH.
Qed.

(** A loop keeps an invariant. *)
Lemma ensures_for {S A X} (body : X → S → io E (S + A)) items s finish g (J : list X → G → S → Prop) Q :
  J items g s →
  (∀ x items g s, J (x :: items) g s →
     ensures (body x s) g (λ g' step, match step with inl s' => J items g' s' | inr a => Q g' a end)) →
  (∀ g s, J [] g s → ensures (finish s) g Q) →
  ensures (io_for body items s finish) g Q.
Proof.
  intros HJ Hb Hf. revert g s HJ. induction items as [|x items IH]; intros g s HJ; [by apply Hf|].
  apply ensures_bind. eapply ensures_mono; [by apply Hb|]. intros g' [s'|a] H; [by apply IH|done].
Qed.

Lemma ensures_runs {A} (p : io E A) g Q t a :
  ensures p g Q → io_runs p t a → accepted g t ∧ Q (observed_all g t) a.
Proof.
  intros Hp Hr. revert g Hp. induction Hr as [a|R e k r t a Hr IH]; intros g Hp; [done|].
  destruct Hp as [HI Hk]. destruct (IH _ (Hk r)) as [Ha HQ]. split; [split; assumption|exact HQ].
Qed.

(** ** Core programs answered by typed effects *)

Lemma ensures_try {X A B} (f : A → io E (result X B)) (m : io E (result X A)) g Q :
  ensures (io_try f m) g Q ↔
  ensures m g (λ g' r, match r with Ok a => ensures (f a) g' Q | Err e => Q g' (Err e) end).
Proof.
  unfold io_try. rewrite ensures_bind. split; intros H; (eapply ensures_mono; [exact H|]); by intros g' [a|e].
Qed.

Lemma ensures_each {X S A} (body : A → S → io E (result X S)) items s g (J : list A → G → S → Prop) Q :
  J items g s →
  (∀ a items g s, J (a :: items) g s →
     ensures (body a s) g (λ g' r, match r with Ok s' => J items g' s' | Err e => Q g' (Err e) end)) →
  (∀ g s, J [] g s → Q g (Ok s)) →
  ensures (io_each body items s) g Q.
Proof.
  intros HJ Hb Hf. revert g s HJ. induction items as [|a items IH]; intros g s HJ; [by apply Hf|].
  apply ensures_try. eapply ensures_mono; [by apply Hb|]. intros g' [s'|e] H; [by apply IH|done].
Qed.

Context {Op Rep L : Type}.
Variable arm : L → Op → io E (L * Rep).

(** The shell's loop: each request of the core is answered by its arm, which
    may keep a state of the batch. *)
Fixpoint drive {A} (l : L) (p : prog Op Rep A) : io E A :=
  match p with
  | Ret a => Pure a
  | Ask op k => io_bind (λ lr, drive lr.1 (k lr.2)) (arm l op)
  end.

(** A rule of the core program carries over when every arm keeps the relation
    between what the core has seen and what the monitor has seen. *)
Lemma ensures_drive {A} (I : trace Op Rep → Op → Prop) (Rel : trace Op Rep → G → Prop)
    (p : prog Op Rep A) l h g Q :
  wp I p h Q → Rel h g →
  (∀ l h g op, Rel h g → I h op → ensures (arm l op) g (λ g' lr, Rel (h ++ [(op, lr.2)]) g')) →
  ensures (drive l p) g (λ g' a, ∃ h', Rel h' g' ∧ Q h' a).
Proof.
  intros Hp HR Harm. revert l h g Hp HR. induction p as [a|op k IH]; intros l h g Hp HR.
  - exists h. done.
  - destruct Hp as [HI Hk]. change (ensures (arm l op ≫= λ lr, drive lr.1 (k lr.2)) g
      (λ g' a, ∃ h', Rel h' g' ∧ Q h' a)). rewrite ensures_bind.
    eapply ensures_mono; [by apply Harm|]. intros g' lr HR'. by eapply IH.
Qed.
End Monitor.

(** ** Rules that remember nothing *)

Section Yields.
Context {E : Type → Type}.
Variable P : ∀ R, E R → Prop.

(** Every effect of every run is one of [P], and it ends with [Q]. *)
Definition yields {A} (p : io E A) (Q : A → Prop) : Prop :=
  ensures (λ (_ : ()) R e, P R e) (λ g _ _ _, g) p tt (λ _ a, Q a).

Lemma yields_pure {A} (a : A) (Q : A → Prop) : yields (mret a) Q ↔ Q a.
Proof. reflexivity. Qed.

Lemma yields_perform {R} (e : E R) (Q : R → Prop) : yields (perform e) Q ↔ P R e ∧ ∀ r, Q r.
Proof. reflexivity. Qed.

Lemma yields_vis {R A} (e : E R) (k : R → io E A) Q : yields (Vis e k) Q ↔ P R e ∧ ∀ r, yields (k r) Q.
Proof. reflexivity. Qed.

Lemma yields_bind {A B} (f : A → io E B) (m : io E A) Q : yields (m ≫= f) Q ↔ yields m (λ a, yields (f a) Q).
Proof.
  unfold yields. rewrite ensures_bind. split; intros H; (eapply ensures_mono; [exact H|]); intros [] a Ha; exact Ha.
Qed.

Lemma yields_try {X A B} (f : A → io E (result X B)) (m : io E (result X A)) Q :
  yields (io_try f m) Q ↔ yields m (λ r, match r with Ok a => yields (f a) Q | Err e => Q (Err e) end).
Proof. unfold io_try. rewrite yields_bind. split; intros H; (eapply ensures_mono; [exact H|]); by intros [] [a|e]. Qed.

Lemma yields_mono {A} (p : io E A) (Q Q' : A → Prop) : yields p Q → (∀ a, Q a → Q' a) → yields p Q'.
Proof. intros Hp HQ. eapply ensures_mono; [exact Hp|]. intros [] a. apply HQ. Qed.

Lemma yields_for {S A X} (body : X → S → io E (S + A)) items s finish (J : S → Prop) Q :
  J s → (∀ x s, x ∈ items → J s → yields (body x s) (λ step, match step with inl s' => J s' | inr a => Q a end)) →
  (∀ s, J s → yields (finish s) Q) → yields (io_for body items s finish) Q.
Proof.
  intros HJ Hb Hf. revert s HJ Hb. induction items as [|x items IH]; intros s HJ Hb; [by apply Hf|].
  apply yields_bind. eapply yields_mono; [by apply Hb; [left|]|]. intros [s'|a] H; [|done].
  apply IH; [done|]. intros y s'' Hy. apply Hb. by right.
Qed.

Lemma yields_within {A} (in_time : E bool) (p : io E A) (Q : option A → Prop) :
  P bool in_time → Q None → yields p (λ a, Q (Some a)) → yields (io_within in_time p) Q.
Proof.
  intros Ht HN. induction p as [a|R e k IH]; intros Hp; [exact Hp|].
  destruct Hp as [He Hk]. split; [done|]. intros r. split; [done|]. intros [|]; [apply IH, Hk|exact HN].
Qed.

Lemma yields_join {A B} (left_next : E bool) (p : io E A) (q : io E B) (Q : A → Prop) (Q' : B → Prop) :
  P bool left_next → yields p Q → yields q Q' → yields (io_join left_next p q) (λ ab, Q ab.1 ∧ Q' ab.2).
Proof.
  intros Ht. revert q. induction p as [a|R e k IHp]; intros q Hp Hq.
  - assert (yields (b ← q; mret (a, b)) (λ ab, Q ab.1 ∧ Q' ab.2)) as H.
    { apply yields_bind. eapply yields_mono; [exact Hq|]. intros b Hb. exact (conj Hp Hb). }
    by destruct q.
  - induction q as [b|R' f l IHq].
    + apply (yields_bind (λ a, mret (a, b)) (Vis e k)). eapply yields_mono; [exact Hp|]. intros a Ha. exact (conj Ha Hq).
    + destruct Hp as [He Hk], Hq as [Hf Hl]. split; [done|]. intros [|]; (split; [done|]); intros r.
      * apply IHp; [apply Hk|by split].
      * apply IHq, Hl.
Qed.

Lemma yields_drive {Op Rep L A} (arm : L → Op → io E (L * Rep)) (l : L) (p : prog Op Rep A) :
  (∀ l op, yields (arm l op) (λ _, True)) → yields (drive arm l p) (λ _, True).
Proof.
  intros Harm. revert l. induction p as [a|op k IH]; intros l; [done|].
  apply (yields_bind (λ lr, drive arm lr.1 (k lr.2))). eapply yields_mono; [apply Harm|]. intros lr _. apply IH.
Qed.

(** In a run, every effect is one of [P]. *)
Lemma yields_runs {A} (p : io E A) Q t a :
  yields p Q → io_runs p t a → Forall (λ x, P (projT1 x) (projT2 x).1) t ∧ Q a.
Proof.
  intros Hp Hr. induction Hr as [a|R e k r t a Hr IH]; [done|].
  destruct Hp as [He Hk]. destruct (IH (Hk r)) as [Ht HQ]. by split; [constructor|].
Qed.
End Yields.

(** Every run of a program ends with [Q], whatever it does. *)
Abbreviation returns p Q := (yields (λ R (_ : _ R), True) p Q).

Lemma returns_any {E A} (p : io E A) : returns p (λ _, True).
Proof. induction p as [a|R e k IH]; [done|]. split; [done|exact IH]. Qed.

(** The first part may end as it likes. *)
Lemma returns_bind {E A B} (f : A → io E B) (m : io E A) Q :
  (∀ a, returns (f a) Q) → returns (m ≫= f) Q.
Proof. intros Hf. apply yields_bind. eapply yields_mono; [apply returns_any|]. intros a _. apply Hf. Qed.

Lemma returns_then {E A B} (f : A → io E B) (m : io E A) J Q :
  returns m J → (∀ a, J a → returns (f a) Q) → returns (m ≫= f) Q.
Proof. intros Hm Hf. apply yields_bind. by eapply yields_mono. Qed.

Notation "x ←? m ; k" := (io_try (λ x, k) m) (at level 20, m at level 100, k at level 200, right associativity,
  only parsing).

Notation "' x ←? m ; k" := (io_try (λ x : _, k) m)
  (at level 20, x pattern, m at level 100, k at level 200, right associativity, only parsing).

#[export] Hint Rewrite @ensures_pure @ensures_perform @ensures_bind @ensures_try : ensures.
