(* ===== verification/Text.v ===== *)
(** * Text: Rust strings as byte strings

    A Rust [str] is modelled by the Standard Library [string] of its UTF-8
    bytes, so [len] is [String.length], and the byte-wise operations of the
    standard library the source uses ([str_strip_prefix], [contains],
    [to_ascii_lowercase], [eq_ignore_ascii_case], [is_char_boundary],
    [char_indices], [from_str_radix], [to_string]) are executable functions. *)

From S2P Require Export Prelude.
From Stdlib Require Export Ascii.
From Stdlib Require String.
#[local] Open Scope string_scope.
#[local] Open Scope Z_scope.

(** [char::is_char_boundary]-level view of a byte. *)
Definition byte_of (a : ascii) : Z := Z.of_N (N_of_ascii a).
Definition is_continuation (a : ascii) : bool :=
  bool_decide (128 ≤ byte_of a < 192).

(** ** Prefixes and containment *)

Fixpoint str_strip_prefix (p s : string) : option string :=
  match p, s with
  | EmptyString, _ => Some s
  | String a p', String b s' => if decide (a = b) then str_strip_prefix p' s' else None
  | String _ _, EmptyString => None
  end.

Definition starts_with (p s : string) : bool :=
  match str_strip_prefix p s with Some _ => true | None => false end.

Fixpoint contains (needle s : string) : bool :=
  starts_with needle s ||
  match s with EmptyString => false | String _ s' => contains needle s' end.

Lemma str_app_nil (r : string) : (EmptyString +:+ r = r)%string.
Proof. reflexivity. Qed.

Lemma str_app_cons a (s r : string) : (String a s +:+ r = String a (s +:+ r))%string.
Proof. reflexivity. Qed.

#[export] Hint Rewrite str_app_nil str_app_cons : str.

Lemma str_strip_prefix_Some p s r : str_strip_prefix p s = Some r ↔ s = (p +:+ r)%string.
Proof.
  revert s. induction p as [|a p IH]; intros s; autorewrite with str; simpl.
  - split; congruence.
  - destruct s as [|b s]; simpl; [done|]. case_decide as Hab.
    + rewrite IH. subst. split; congruence.
    + split; [done|]. intros [= <- _]. done.
Qed.

Lemma str_strip_prefix_app p r : str_strip_prefix p (p +:+ r)%string = Some r.
Proof. by apply str_strip_prefix_Some. Qed.

Lemma contains_app_l p needle s : contains needle s = true → contains needle (p +:+ s)%string = true.
Proof.
  intros H. induction p as [|a p IH]; autorewrite with str; simpl; [done|].
  rewrite IH. apply orb_true_r.
Qed.

Lemma contains_app_r needle s r : contains needle s = true → contains needle (s +:+ r)%string = true.
Proof.
  induction s as [|a s IH]; autorewrite with str; simpl.
  - destruct needle; [|done]. intros _. destruct r; reflexivity.
  - rewrite !orb_true_iff. intros [H|H]; [|auto]. left.
    unfold starts_with in *. destruct (str_strip_prefix needle (String a s)) eqn:E; [|done].
    apply str_strip_prefix_Some in E.
    assert (String a (s +:+ r) = (needle +:+ (s0 +:+ r)))%string as ->.
    { change (String a (s +:+ r))%string with ((String a s) +:+ r)%string.
      rewrite E. clear. induction needle as [|c n IHn]; autorewrite with str; [done|].
      by rewrite IHn. }
    by rewrite str_strip_prefix_app.
Qed.

(** ** ASCII case *)

Definition ascii_lower (a : ascii) : ascii :=
  if decide (65 ≤ byte_of a ≤ 90) then ascii_of_N (N_of_ascii a + 32) else a.

Fixpoint to_ascii_lowercase (s : string) : string :=
  match s with
  | EmptyString => EmptyString
  | String a s' => String (ascii_lower a) (to_ascii_lowercase s')
  end.

Definition eq_ignore_ascii_case (a b : string) : bool :=
  bool_decide (to_ascii_lowercase a = to_ascii_lowercase b).

Lemma ascii_lower_idem a : ascii_lower (ascii_lower a) = ascii_lower a.
Proof. destruct a as [[] [] [] [] [] [] [] []]; vm_compute; reflexivity. Qed.

Lemma to_ascii_lowercase_idem s :
  to_ascii_lowercase (to_ascii_lowercase s) = to_ascii_lowercase s.
Proof. induction s; simpl; [done|]. by rewrite ascii_lower_idem, IHs. Qed.

Lemma to_ascii_lowercase_app a b :
  to_ascii_lowercase (a +:+ b)%string = (to_ascii_lowercase a +:+ to_ascii_lowercase b)%string.
Proof. induction a; autorewrite with str; simpl; [done|]. by rewrite IHa. Qed.

Lemma eq_ignore_ascii_case_true a b :
  eq_ignore_ascii_case a b = true ↔ to_ascii_lowercase a = to_ascii_lowercase b.
Proof. unfold eq_ignore_ascii_case. by rewrite bool_decide_eq_true. Qed.

Lemma eq_ignore_ascii_case_refl a : eq_ignore_ascii_case a a = true.
Proof. by apply eq_ignore_ascii_case_true. Qed.

Lemma eq_ignore_ascii_case_sym a b : eq_ignore_ascii_case a b = eq_ignore_ascii_case b a.
Proof. unfold eq_ignore_ascii_case. apply bool_decide_ext. naive_solver. Qed.

(** ** Slices and character boundaries *)

(** [&value[..n]] *)
Fixpoint str_take (n : nat) (s : string) : string :=
  match n, s with
  | O, _ | _, EmptyString => EmptyString
  | S n', String a s' => String a (str_take n' s')
  end.

(** [str::is_char_boundary] *)
Definition is_char_boundary (s : string) (i : nat) : bool :=
  match i with
  | O => true
  | S _ => match String.get i s with
           | Some a => negb (is_continuation a)
           | None => bool_decide (i = String.length s)
           end
  end.

(** [char::len_utf8] of the character a leading byte opens. *)
Definition len_utf8 (a : ascii) : nat :=
  if decide (byte_of a < 128) then 1
  else if decide (byte_of a < 224) then 2
  else if decide (byte_of a < 240) then 3 else 4.

(** [char_indices], as the pairs of a character's byte index and length:
    [skip] bytes of the current character are still to be passed over. *)
Fixpoint char_spans_from (index skip : nat) (s : string) : list (nat * nat) :=
  match s with
  | EmptyString => []
  | String a s' =>
      match skip with
      | S skip' => char_spans_from (S index) skip' s'
      | O => (index, len_utf8 a) :: char_spans_from (S index) (Nat.pred (len_utf8 a)) s'
      end
  end.
Definition char_indices (s : string) : list (nat * nat) := char_spans_from 0 0 s.

Lemma str_take_length n s : (String.length (str_take n s) = Nat.min n (String.length s))%nat.
Proof. revert s. induction n as [|n IH]; intros [|a s]; simpl; auto. Qed.

Lemma str_app_length a b : (String.length (a +:+ b) = String.length a + String.length b)%nat.
Proof. induction a; autorewrite with str; simpl; auto. Qed.

Lemma str_app_assoc (a b c : string) : ((a +:+ b) +:+ c = a +:+ (b +:+ c))%string.
Proof. induction a; autorewrite with str; congruence. Qed.

(** ** Numbers *)

Lemma str_app_empty s : (s +:+ EmptyString)%string = s.
Proof. induction s as [|a s IH]; autorewrite with str; congruence. Qed.

(** [u64::to_string] and [{}] of an unsigned integer. *)
Definition dec (z : Z) : string := pretty (Z.to_N z).

Lemma dec_inj a b : 0 ≤ a → 0 ≤ b → dec a = dec b → a = b.
Proof. unfold dec. intros Ha Hb H%(inj pretty). lia. Qed.

Definition hex_digit_value (a : ascii) : option Z :=
  let b := byte_of a in
  if decide (48 ≤ b ≤ 57) then Some (b - 48)
  else if decide (97 ≤ b ≤ 102) then Some (b - 87)
  else if decide (65 ≤ b ≤ 70) then Some (b - 55)
  else None.

Fixpoint radix16_digits (w acc : Z) (s : string) : option Z :=
  match s with
  | EmptyString => Some acc
  | String a s' =>
      d ← hex_digit_value a;
      acc' ← checked w (acc * 16 + d);
      radix16_digits w acc' s'
  end.

(** [uN::from_str_radix(value, 16)] of the standard library: an optional
    leading plus sign, then at least one digit; overflow is an error. *)
Definition from_str_radix16 (w : Z) (s : string) : option Z :=
  match s with
  | EmptyString => None
  | String "+" EmptyString => None
  | String "+" s' => radix16_digits w 0 s'
  | _ => radix16_digits w 0 s
  end.

Lemma radix16_digits_fits w acc s r :
  fits w acc → radix16_digits w acc s = Some r → fits w r.
Proof.
  revert acc. induction s as [|a s IH]; intros acc Hacc; simpl; [congruence|].
  intros H. inv_checked. eauto.
Qed.

Lemma from_str_radix16_fits w s r :
  0 ≤ w → from_str_radix16 w s = Some r → fits w r.
Proof.
  intros Hw. assert (H0 : fits w 0) by (split; [lia | apply Z.pow_pos_nonneg; lia]).
  unfold from_str_radix16. intros H.
  repeat case_match; try done; by eapply radix16_digits_fits.
Qed.

(** [uN::from_str], the standard library's decimal parser, and its errors. *)
Inductive ParseIntError : Type := IntEmpty | IntInvalidDigit | IntPosOverflow.

Definition parse_int_error_text (error : ParseIntError) : string :=
  match error with
  | IntEmpty => "cannot parse integer from empty string"
  | IntInvalidDigit => "invalid digit found in string"
  | IntPosOverflow => "number too large to fit in target type"
  end.

Definition decimal_digit (a : ascii) : option Z :=
  if decide (48 ≤ byte_of a ≤ 57) then Some (byte_of a - 48) else None.

Fixpoint decimal_digits (w acc : Z) (s : string) : result ParseIntError Z :=
  match s with
  | EmptyString => Ok acc
  | String a s =>
      d ← ok_or (decimal_digit a) IntInvalidDigit;
      scaled ← ok_or (checked w (acc * 10)) IntPosOverflow;
      acc ← ok_or (checked w (scaled + d)) IntPosOverflow;
      decimal_digits w acc s
  end.

Definition parse_uint (w : Z) (s : string) : result ParseIntError Z :=
  match s with
  | EmptyString => Err IntEmpty
  | String "+" EmptyString => Err IntInvalidDigit
  | String "+" s => decimal_digits w 0 s
  | _ => decimal_digits w 0 s
  end.

Lemma decimal_digits_fits w acc s z : fits w acc → decimal_digits w acc s = Ok z → fits w z.
Proof.
  revert acc. induction s as [|a s IH]; intros acc Hacc; cbn [decimal_digits]; [congruence|].
  intros (d & _ & H)%result_bind_Ok. apply result_bind_Ok in H as (m & _ & H).
  apply result_bind_Ok in H as (acc' & Ha & H). apply ok_or_Ok, checked_Some in Ha as [-> Ha].
  by apply (IH (m + d)).
Qed.

Lemma parse_uint_fits w s z : 0 ≤ w → parse_uint w s = Ok z → fits w z.
Proof.
  intros Hw. assert (fits w 0) by (split; [lia|apply Z.pow_pos_nonneg; lia]).
  unfold parse_uint. intros Hp. repeat case_match; try done; by eapply decimal_digits_fits.
Qed.

(** The unbounded value of a string of hexadecimal digits. *)
Fixpoint hex_value (acc : Z) (s : string) : option Z :=
  match s with
  | EmptyString => Some acc
  | String a s' => d ← hex_digit_value a; hex_value (acc * 16 + d) s'
  end.

Lemma hex_digit_value_range a d : hex_digit_value a = Some d → 0 ≤ d < 16.
Proof. unfold hex_digit_value. intros H. repeat case_decide; simplify_eq; lia. Qed.

Lemma hex_value_ge acc s v : 0 ≤ acc → hex_value acc s = Some v → acc ≤ v.
Proof.
  revert acc. induction s as [|a s IH]; intros acc Hacc; simpl; [intros [= ->]; lia|].
  intros (d & Hd & H)%bind_Some. apply hex_digit_value_range in Hd.
  apply IH in H; lia.
Qed.

(** The bounded parse is the unbounded value when that fits. *)
Lemma radix16_digits_value w acc s v :
  0 ≤ acc → hex_value acc s = Some v → fits w v → radix16_digits w acc s = Some v.
Proof.
  revert acc. induction s as [|a s IH]; intros acc Hacc; simpl; [done|].
  intros (d & Hd & H)%bind_Some Hv. rewrite Hd. simpl.
  pose proof (hex_digit_value_range _ _ Hd).
  rewrite checked_fits; simpl; [apply IH; [lia|done|done]|].
  apply hex_value_ge in H; [|lia]. unfold fits in *. lia.
Qed.

Lemma radix16_digits_hex_value w acc s v :
  radix16_digits w acc s = Some v → hex_value acc s = Some v.
Proof.
  revert acc. induction s as [|a s IH]; intros acc; simpl; [done|].
  intros (d & Hd & H)%bind_Some. rewrite Hd. simpl. inv_checked. eauto.
Qed.

Lemma hex_value_None s acc acc' : hex_value acc s = None → hex_value acc' s = None.
Proof.
  revert acc acc'. induction s as [|a s IH]; intros acc acc'; simpl; [done|].
  destruct (hex_digit_value a); simpl; eauto.
Qed.

Lemma hex_value_acc acc s v :
  hex_value 0 s = Some v → hex_value acc s = Some (acc * 16 ^ Z.of_nat (String.length s) + v).
Proof.
  revert acc v. induction s as [|a s IH]; intros acc v; cbn [hex_value String.length].
  - intros [= <-]. rewrite Z.pow_0_r. f_equal. lia.
  - intros (d & Hd & H)%bind_Some. rewrite Hd. simpl.
    destruct (hex_value 0 s) as [v0|] eqn:E; [|by rewrite (hex_value_None _ _ _ E) in H].
    rewrite (IH (0 * 16 + d) v0) in H by done. rewrite (IH (acc * 16 + d) v0) by done.
    injection H as <-. f_equal. rewrite Nat2Z.inj_succ, Z.pow_succ_r by lia. lia.
Qed.

Lemma hex_value_bound s v :
  hex_value 0 s = Some v → 0 ≤ v < 16 ^ Z.of_nat (String.length s).
Proof.
  revert v. induction s as [|a s IH]; intros v; cbn [hex_value String.length].
  - intros [= <-]. rewrite Z.pow_0_r. lia.
  - intros (d & Hd & H)%bind_Some. destruct (hex_value 0 s) as [v0|] eqn:E.
    + rewrite (hex_value_acc _ _ _ E) in H. injection H as <-.
      specialize (IH _ eq_refl). apply hex_digit_value_range in Hd.
      rewrite Nat2Z.inj_succ, Z.pow_succ_r by lia. nia.
    + by rewrite (hex_value_None _ _ _ E) in H.
Qed.

(** ** Trimming and splitting *)

Fixpoint of_codes (l : list N) : string :=
  match l with [] => EmptyString | c :: l' => String (ascii_of_N c) (of_codes l') end.

(** The UTF-8 encodings of the characters with the [White_Space] property,
    which [str::trim] removes. *)
Definition white_space : list string :=
  (map (λ c, of_codes [c]%N) [9; 10; 11; 12; 13; 32]%N ++
   map of_codes [[0xc2; 0x85]; [0xc2; 0xa0]; [0xe1; 0x9a; 0x80]]%N ++
   map (λ c, of_codes [0xe2; 0x80; c]%N)
     [0x80; 0x81; 0x82; 0x83; 0x84; 0x85; 0x86; 0x87; 0x88; 0x89; 0x8a; 0xa8; 0xa9; 0xaf]%N ++
   map of_codes [[0xe2; 0x81; 0x9f]; [0xe3; 0x80; 0x80]]%N)%list.

Fixpoint str_rev_onto (acc s : string) : string :=
  match s with EmptyString => acc | String a s' => str_rev_onto (String a acc) s' end.
Definition str_rev (s : string) : string := str_rev_onto EmptyString s.

Fixpoint strip_any (prefixes : list string) (s : string) : option string :=
  match prefixes with
  | [] => None
  | p :: ps => match str_strip_prefix p s with Some r => Some r | None => strip_any ps s end
  end.

Fixpoint strip_while (fuel : nat) (prefixes : list string) (s : string) : string :=
  match fuel with
  | O => s
  | S fuel => match strip_any prefixes s with
              | Some r => strip_while fuel prefixes r
              | None => s
              end
  end.

(** [str::trim]; every stripped encoding is not empty, so the length of the
    string is enough fuel. *)
Definition trim (s : string) : string :=
  let s := strip_while (String.length s) white_space s in
  str_rev (strip_while (String.length s) (map str_rev white_space) (str_rev s)).

(** [str::split] at a one-byte character, and [str::split_once]. *)
Fixpoint str_split (sep : ascii) (s : string) : list string :=
  match s with
  | EmptyString => [EmptyString]
  | String a s' =>
      if decide (a = sep) then EmptyString :: str_split sep s'
      else match str_split sep s' with
           | part :: parts => String a part :: parts
           | [] => [String a EmptyString]
           end
  end.

(** [trim_start_matches] of a prefix. *)
Fixpoint trim_start_char (c : ascii) (s : string) : string :=
  match s with
  | String a s' => if decide (a = c) then trim_start_char c s' else s
  | EmptyString => EmptyString
  end.
Fixpoint trim_start_0x (s : string) : string :=
  match s with
  | String "0" (String "x" s') => trim_start_0x s'
  | _ => s
  end.

(** [trim_end_matches] of a character. *)
Fixpoint trim_end_char (c : ascii) (s : string) : string :=
  match s with
  | EmptyString => EmptyString
  | String a s' =>
      match trim_end_char c s' with
      | EmptyString => if decide (a = c) then EmptyString else String a EmptyString
      | kept => String a kept
      end
  end.

Fixpoint str_drop (n : nat) (s : string) : string :=
  match n, s with
  | O, _ | _, EmptyString => s
  | S n', String _ s' => str_drop n' s'
  end.

Fixpoint all_chars (P : ascii → bool) (s : string) : bool :=
  match s with EmptyString => true | String a s' => P a && all_chars P s' end.

(** [u8::is_ascii_digit] *)
Definition is_ascii_digit (a : ascii) : bool := bool_decide (48 ≤ byte_of a ≤ 57).

(** [char::is_ascii_alphanumeric] and [str::to_ascii_uppercase] *)
Definition is_ascii_alphanumeric (a : ascii) : bool :=
  is_ascii_digit a || bool_decide (65 ≤ byte_of a ≤ 90) || bool_decide (97 ≤ byte_of a ≤ 122).

Definition ascii_upper (a : ascii) : ascii :=
  if decide (97 ≤ byte_of a ≤ 122) then ascii_of_N (N_of_ascii a - 32) else a.
Fixpoint to_ascii_uppercase (s : string) : string :=
  match s with EmptyString => EmptyString | String a s => String (ascii_upper a) (to_ascii_uppercase s) end.

(** The value of a string of decimal digits, read left to right. *)
Fixpoint dec_value (acc : Z) (s : string) : Z :=
  match s with EmptyString => acc | String a s' => dec_value (acc * 10 + (byte_of a - 48)) s' end.

Lemma dec_value_acc acc s :
  dec_value acc s = acc * 10 ^ Z.of_nat (String.length s) + dec_value 0 s.
Proof.
  revert acc. induction s as [|a s IH]; intros acc; cbn [dec_value String.length].
  - rewrite Z.pow_0_r. lia.
  - rewrite IH, (IH (0 * 10 + _)). rewrite Nat2Z.inj_succ, Z.pow_succ_r by lia. lia.
Qed.

Lemma dec_value_app s r :
  dec_value 0 (s +:+ r)%string = dec_value 0 s * 10 ^ Z.of_nat (String.length r) + dec_value 0 r.
Proof.
  rewrite <-dec_value_acc. generalize 0. induction s as [|a s IH]; intros acc;
    autorewrite with str; cbn [dec_value]; [done|apply IH].
Qed.

Lemma dec_value_range s :
  all_chars is_ascii_digit s = true → 0 ≤ dec_value 0 s < 10 ^ Z.of_nat (String.length s).
Proof.
  induction s as [|a s IH]; cbn [all_chars dec_value String.length]; [done|].
  rewrite andb_true_iff. unfold is_ascii_digit. rewrite bool_decide_eq_true.
  intros [Ha Hs]. rewrite dec_value_acc. rewrite Nat2Z.inj_succ, Z.pow_succ_r by lia.
  specialize (IH Hs). nia.
Qed.

Lemma str_take_drop n s : (str_take n s +:+ str_drop n s)%string = s.
Proof. revert s. induction n as [|n IH]; intros [|a s]; simpl; autorewrite with str; congruence. Qed.

Lemma str_drop_length n s : (String.length (str_drop n s) = String.length s - n)%nat.
Proof. revert s. induction n as [|n IH]; intros [|a s]; simpl; auto. Qed.

Lemma all_chars_app P a b : all_chars P (a +:+ b)%string = all_chars P a && all_chars P b.
Proof. induction a; autorewrite with str; simpl; [done|]. by rewrite IHa, andb_assoc. Qed.

Lemma str_split_none sep s :
  all_chars (λ a, negb (bool_decide (a = sep))) s = true → str_split sep s = [s].
Proof.
  induction s as [|a s IH]; cbn [all_chars str_split]; [done|].
  rewrite andb_true_iff, negb_true_iff, bool_decide_eq_false. intros [Ha Hs].
  by rewrite decide_False, IH.
Qed.

Lemma str_split_once sep w f :
  all_chars (λ a, negb (bool_decide (a = sep))) w = true →
  str_split sep (w +:+ String sep f)%string = w :: str_split sep f.
Proof.
  induction w as [|a w IH]; autorewrite with str; cbn [all_chars str_split].
  - by rewrite decide_True.
  - rewrite andb_true_iff, negb_true_iff, bool_decide_eq_false. intros [Ha Hw].
    by rewrite decide_False, IH.
Qed.

Lemma all_chars_impl (P Q : ascii → bool) s :
  (∀ a, P a = true → Q a = true) → all_chars P s = true → all_chars Q s = true.
Proof.
  intros H. induction s as [|a s IH]; cbn; [done|]. rewrite !andb_true_iff. naive_solver.
Qed.

Lemma dec_value_zero s :
  all_chars is_ascii_digit s = true →
  dec_value 0 s = 0 ↔ all_chars (λ a, bool_decide (a = "0"%char)) s = true.
Proof.
  induction s as [|a s IH]; cbn [all_chars dec_value]; [done|].
  rewrite !andb_true_iff. unfold is_ascii_digit. rewrite !bool_decide_eq_true.
  intros [Ha Hs]. rewrite dec_value_acc. pose proof (dec_value_range s Hs).
  pose proof (Z.pow_pos_nonneg 10 (Z.of_nat (String.length s)) ltac:(lia) ltac:(lia)).
  rewrite <-IH by done. split.
  - intros Hz. assert (byte_of a = 48) as Hb by nia. split; [|nia].
    unfold byte_of in Hb. rewrite <-(ascii_N_embedding a).
    by replace (N_of_ascii a) with 48%N by lia.
  - intros [-> ->]. change (byte_of "0"%char) with 48. lia.
Qed.

(** ** Hexadecimal printing *)

(** A lowercase digit. *)
Definition hex_char (z : Z) : ascii :=
  ascii_of_N (Z.to_N (if decide (z < 10) then 48 + z else 87 + z)).

Fixpoint lower_hex_onto (fuel : nat) (z : Z) (acc : string) : string :=
  match fuel with
  | O => acc
  | S fuel =>
      let acc := String (hex_char (z mod 16)) acc in
      if decide (z < 16) then acc else lower_hex_onto fuel (z / 16) acc
  end.

(** [{:x}] of an unsigned integer; a number has no more hexadecimal digits
    than binary ones. *)
Definition lower_hex (z : Z) : string := lower_hex_onto (S (Z.to_nat (Z.log2 z))) z EmptyString.

Lemma hex_char_value z : 0 ≤ z < 16 → hex_digit_value (hex_char z) = Some z.
Proof.
  intros Hz. assert (z ∈ seqZ 0 16) as Hin by (apply elem_of_seqZ; lia).
  vm_compute in Hin. repeat (apply elem_of_cons in Hin as [->|Hin]; [by vm_compute|]). set_solver.
Qed.

Lemma lower_hex_onto_value fuel z acc v k :
  0 ≤ z < 2 ^ Z.of_nat fuel → hex_value k acc = Some v →
  (∀ k', hex_value k' acc = Some (k' * 16 ^ Z.of_nat (String.length acc) + (v - k * 16 ^ Z.of_nat (String.length acc)))) →
  hex_value 0 (lower_hex_onto fuel z acc) =
    Some (z * 16 ^ Z.of_nat (String.length acc) + (v - k * 16 ^ Z.of_nat (String.length acc))).
Proof.
  revert z acc v k. induction fuel as [|fuel IH]; intros z acc v k Hz Hv Hall; cbn [lower_hex_onto].
  - cbn in Hz. assert (z = 0) as -> by lia. rewrite Hall. f_equal; lia.
  - pose proof (Z.mod_pos_bound z 16 ltac:(lia)) as Hm.
    assert (Hstep : ∀ k', hex_value k' (String (hex_char (z mod 16)) acc) =
      Some (k' * 16 ^ Z.of_nat (String.length (String (hex_char (z mod 16)) acc)) +
            (z mod 16 * 16 ^ Z.of_nat (String.length acc) +
             (v - k * 16 ^ Z.of_nat (String.length acc))))).
    { intros k'. cbn [hex_value]. rewrite hex_char_value by done. cbn [mbind option_bind].
      rewrite Hall. f_equal. cbn [String.length]. rewrite Nat2Z.inj_succ, Z.pow_succ_r by lia. lia. }
    case_decide as Hlt.
    + rewrite Hstep. rewrite Z.mod_small by lia. f_equal; lia.
    + rewrite Nat2Z.inj_succ, Z.pow_succ_r in Hz by lia.
      rewrite (IH (z / 16) _ _ 0 ltac:(split; [apply Z.div_pos|apply Z.div_lt_upper_bound]; lia) (Hstep 0)).
      * f_equal. cbn [String.length]. rewrite Nat2Z.inj_succ, Z.pow_succ_r by lia.
        pose proof (Z.div_mod z 16 ltac:(lia)) as Hd. rewrite Hd at 3. lia.
      * intros k'. rewrite Hstep. f_equal; lia.
Qed.

(** Printing and reading back. *)
Lemma lower_hex_value z : 0 ≤ z → hex_value 0 (lower_hex z) = Some z.
Proof.
  intros Hz. unfold lower_hex. erewrite (lower_hex_onto_value _ z EmptyString 0 0).
  - simpl. f_equal. change (16 ^ 0) with 1. lia.
  - split; [done|]. rewrite Nat2Z.inj_succ, Z2Nat.id by apply Z.log2_nonneg.
    destruct (decide (z = 0)) as [->|]; [done|].
    apply Z.log2_lt_pow2; [lia|]. lia.
  - done.
  - intros k'. simpl. change (16 ^ 0) with 1. f_equal; lia.
Qed.

(** ** Decimal numbers as prefixes *)

Lemma pretty_N_go_digits x s :
  all_chars is_ascii_digit s = true → all_chars is_ascii_digit (pretty_N_go x s) = true.
Proof.
  revert s. induction (N.lt_wf_0 x) as [x _ IH]; intros s Hs.
  destruct (decide (x = 0%N)) as [->|Hx]; [by rewrite pretty_N_go_0|].
  rewrite pretty_N_go_step by lia. apply IH; [apply N.div_lt; lia|].
  cbn [all_chars]. rewrite Hs, andb_true_r.
  unfold pretty_N_char. repeat case_match; reflexivity.
Qed.
Lemma dec_digits z : all_chars is_ascii_digit (dec z) = true.
Proof. unfold dec, pretty, pretty_N. case_decide; [done|]. by apply pretty_N_go_digits. Qed.
(** A decimal number ends at the first character that is no digit. *)
Lemma dec_prefix_inj a b sep x y :
  is_ascii_digit sep = false → 0 ≤ a → 0 ≤ b →
  dec a +:+ String sep x = dec b +:+ String sep y → a = b ∧ x = y.
Proof.
  intros Hsep Ha Hb Heq.
  assert (Hno : ∀ z, all_chars (λ c, negb (bool_decide (c = sep))) (dec z) = true).
  { intros z. eapply all_chars_impl; [|apply dec_digits]. intros c Hc. apply negb_true_iff, bool_decide_eq_false.
    intros ->. congruence. }
  assert (Hd : dec a = dec b).
  { apply (f_equal (str_split sep)) in Heq. rewrite !str_split_once in Heq by apply Hno. by injection Heq. }
  split; [by apply dec_inj|]. rewrite Hd in Heq. clear Hd. revert Heq. generalize (dec b) as p.
  induction p as [|c p IH]; rewrite ?str_app_nil, ?str_app_cons; [congruence|]. intros [=]. auto.
Qed.
