(* ===== verification/Bytes.v ===== *)
(** * Bytes: byte slices, big-endian words, and the codecs the relay calls

    A [Vec<u8>]/[&[u8]] is a [list byte].  [U256::from_be_slice],
    [Address::from_slice] and [to_be_bytes] are the big-endian value of a
    slice and its inverse.  The [hex] crate and [keccak256] are third-party
    code: they are the type classes [Hex] and [Keccak], whose laws state
    what those crates document.  Reference instances, used by the
    witnesses, show the laws can hold. *)

From S2P Require Export Text.
From Stdlib Require Export Strings.Byte.
#[local] Open Scope string_scope.
#[local] Open Scope Z_scope.

#[export] Instance byte_eq_dec : EqDecision byte := Byte.byte_eq_dec.

Definition byteZ (b : byte) : Z := Z.of_N (Byte.to_N b).
Definition Zbyte (z : Z) : byte :=
  match Byte.of_N (Z.to_N (z mod 256)) with Some b => b | None => x00 end.

Lemma byteZ_range b : 0 ≤ byteZ b < 256.
Proof. unfold byteZ. pose proof (Byte.to_N_bounded b). lia. Qed.

Lemma Zbyte_byteZ b : Zbyte (byteZ b) = b.
Proof.
  unfold Zbyte, byteZ. pose proof (byteZ_range b) as H. unfold byteZ in H.
  rewrite Z.mod_small by done. by rewrite N2Z.id, Byte.of_to_N.
Qed.

Lemma byteZ_Zbyte z : byteZ (Zbyte z) = z mod 256.
Proof.
  unfold Zbyte. pose proof (Z.mod_pos_bound z 256 ltac:(lia)) as Hm.
  destruct (Byte.of_N (Z.to_N (z mod 256))) as [b|] eqn:E.
  - apply Byte.to_of_N in E. unfold byteZ. lia.
  - apply Byte.of_N_None_iff in E. lia.
Qed.

(** ** Big-endian words *)

(** [from_be_bytes] / [from_be_slice] *)
Definition be_value_from (acc : Z) (l : list byte) : Z :=
  foldl (λ acc b, acc * 256 + byteZ b) acc l.
Definition be_value (l : list byte) : Z := be_value_from 0 l.

(** [to_be_bytes] of an [n]-byte integer *)
Fixpoint be_bytes (n : nat) (z : Z) : list byte :=
  match n with
  | O => []
  | S n' => be_bytes n' (z / 256) ++ [Zbyte z]
  end.

Lemma be_value_from_app acc l k :
  be_value_from acc (l ++ k) = be_value_from (be_value_from acc l) k.
Proof. apply foldl_app. Qed.

Lemma be_value_from_acc acc l :
  be_value_from acc l = acc * 256 ^ Z.of_nat (length l) + be_value l.
Proof.
  unfold be_value. revert acc. induction l as [|b l IH] using rev_ind; intros acc.
  - cbn. lia.
  - rewrite !be_value_from_app, length_app, Nat2Z.inj_add, Z.pow_add_r by lia.
    cbn. rewrite IH. cbn. change (256 ^ 1) with 256. lia.
Qed.

Lemma be_value_snoc l b : be_value (l ++ [b]) = be_value l * 256 + byteZ b.
Proof. unfold be_value. by rewrite be_value_from_app. Qed.

Lemma be_value_app l k :
  be_value (l ++ k) = be_value l * 256 ^ Z.of_nat (length k) + be_value k.
Proof. unfold be_value at 1. by rewrite be_value_from_app, be_value_from_acc. Qed.

Lemma be_value_range l : 0 ≤ be_value l < 256 ^ Z.of_nat (length l).
Proof.
  induction l as [|b l IH] using rev_ind; [cbn; lia|].
  rewrite be_value_snoc, length_app, Nat2Z.inj_add, Z.pow_add_r by lia.
  cbn. change (256 ^ 1) with 256. pose proof (byteZ_range b). nia.
Qed.

Lemma be_bytes_length n z : length (be_bytes n z) = n.
Proof. revert z. induction n; intros z; simpl; [done|]. rewrite length_app, IHn. simpl. lia. Qed.

Lemma be_value_be_bytes n z : be_value (be_bytes n z) = z mod 256 ^ Z.of_nat n.
Proof.
  revert z. induction n as [|n IH]; intros z; [cbn; by rewrite Z.mod_1_r|].
  simpl be_bytes. rewrite be_value_snoc, IH, byteZ_Zbyte.
  rewrite Nat2Z.inj_succ, Z.pow_succ_r by lia.
  rewrite Z.rem_mul_r by lia. lia.
Qed.

Lemma be_value_be_bytes_small n z :
  0 ≤ z < 256 ^ Z.of_nat n → be_value (be_bytes n z) = z.
Proof. intros H. by rewrite be_value_be_bytes, Z.mod_small. Qed.

Lemma be_bytes_be_value l : be_bytes (length l) (be_value l) = l.
Proof.
  induction l as [|b l IH] using rev_ind; [done|].
  rewrite length_app, Nat.add_comm. simpl. rewrite be_value_snoc.
  pose proof (byteZ_range b). rewrite Z.div_add_l by lia.
  rewrite (Z.div_small (byteZ b)) by lia. rewrite Z.add_0_r, IH. f_equal. f_equal.
  transitivity (Zbyte (byteZ b)); [|apply Zbyte_byteZ]. unfold Zbyte.
  by rewrite Z.add_comm, Z.mod_add by lia.
Qed.

Lemma be_bytes_value n l : length l = n → be_bytes n (be_value l) = l.
Proof. intros <-. apply be_bytes_be_value. Qed.

Lemma be_value_zeros n l : be_value (replicate n x00 ++ l) = be_value l.
Proof.
  unfold be_value. rewrite be_value_from_app.
  assert (be_value_from 0 (replicate n x00) = 0) as ->; [|done].
  induction n as [|n IH]; [done|exact IH].
Qed.

(** A slice's value at a wider width is the slice padded with zeros. *)
Lemma be_bytes_be_value_pad k l :
  be_bytes (k + length l) (be_value l) = (replicate k x00 ++ l)%list.
Proof.
  rewrite <-(be_value_zeros k l). apply be_bytes_value.
  by rewrite length_app, length_replicate.
Qed.

Lemma be_value_inj l k : length l = length k → be_value l = be_value k → l = k.
Proof.
  intros Hlen Hv. rewrite <-(be_bytes_be_value l), <-(be_bytes_be_value k). congruence.
Qed.

(** ** Slices *)

(** [data.get(start..end)]: [None] when the range leaves the slice. *)
Definition slice (data : list byte) (start stop : Z) : option (list byte) :=
  if decide (0 ≤ start ≤ stop ∧ stop ≤ Z.of_nat (length data))
  then Some (take (Z.to_nat (stop - start)) (drop (Z.to_nat start) data))
  else None.

Lemma slice_length data s e r :
  slice data s e = Some r → Z.of_nat (length r) = e - s ∧ 0 ≤ s ≤ e ∧ e ≤ Z.of_nat (length data).
Proof.
  unfold slice. case_decide; [|done]. intros [= <-].
  rewrite length_take, length_drop. lia.
Qed.

Lemma slice_mid (pre mid post : list byte) s e :
  s = Z.of_nat (length pre) → e = s + Z.of_nat (length mid) →
  slice (pre ++ mid ++ post) s e = Some mid.
Proof.
  intros -> ->. unfold slice. rewrite !length_app, decide_True by lia. f_equal.
  rewrite Nat2Z.id, drop_app_length. rewrite take_app_le by lia.
  rewrite take_ge; [done|lia].
Qed.

(** [str::as_bytes] *)
Definition str_bytes (s : string) : list byte := map byte_of_ascii (String.list_ascii_of_string s).

(** ** The [hex] crate *)

Class Hex := {
  hex_encode : list byte → string;
  hex_decode : string → option (list byte);
  hex_decode_encode bs : hex_decode (hex_encode bs) = Some bs;
  hex_encode_lower bs : to_ascii_lowercase (hex_encode bs) = hex_encode bs;
  hex_decode_case s : hex_decode (to_ascii_lowercase s) = hex_decode s;
  hex_decode_length s bs :
    hex_decode s = Some bs → String.length s = (2 * length bs)%nat;
  hex_decode_value s bs :
    hex_decode s = Some bs → hex_value 0 s = Some (be_value bs);
}.

Lemma hex_encode_length `{Hex} bs : String.length (hex_encode bs) = (2 * length bs)%nat.
Proof. apply hex_decode_length, hex_decode_encode. Qed.

Lemma hex_decode_empty `{Hex} : hex_decode EmptyString = Some [].
Proof.
  pose proof (hex_encode_length []) as Hl. simpl in Hl.
  destruct (hex_encode []) eqn:E; [|done]. by rewrite <-E, hex_decode_encode.
Qed.

Lemma hex_encode_inj `{Hex} a b : hex_encode a = hex_encode b → a = b.
Proof. intros E. apply (f_equal hex_decode) in E. rewrite !hex_decode_encode in E. congruence. Qed.

(** A reference codec. *)
Definition hex_digit (z : Z) : ascii :=
  ascii_of_N (Z.to_N (if decide (z < 10) then 48 + z else 87 + z)).

Fixpoint ref_hex_encode (l : list byte) : string :=
  match l with
  | [] => EmptyString
  | b :: l' => String (hex_digit (byteZ b / 16)) (String (hex_digit (byteZ b mod 16)) (ref_hex_encode l'))
  end.

Fixpoint ref_hex_decode (s : string) : option (list byte) :=
  match s with
  | EmptyString => Some []
  | String a (String b s') =>
      h ← hex_digit_value a; l ← hex_digit_value b; rest ← ref_hex_decode s';
      Some (Zbyte (h * 16 + l) :: rest)
  | _ => None
  end.

Lemma hex_digits_ok (b : byte) :
  hex_digit_value (hex_digit (byteZ b / 16)) = Some (byteZ b / 16) ∧
  hex_digit_value (hex_digit (byteZ b mod 16)) = Some (byteZ b mod 16) ∧
  ascii_lower (hex_digit (byteZ b / 16)) = hex_digit (byteZ b / 16) ∧
  ascii_lower (hex_digit (byteZ b mod 16)) = hex_digit (byteZ b mod 16).
Proof. destruct b; vm_compute; repeat split. Qed.

Lemma hex_digit_value_lower a : hex_digit_value (ascii_lower a) = hex_digit_value a.
Proof. destruct a as [[] [] [] [] [] [] [] []]; vm_compute; reflexivity. Qed.

Lemma string_pair_ind (P : string → Prop) :
  P EmptyString → (∀ a, P (String a EmptyString)) →
  (∀ a b s, P s → P (String a (String b s))) → ∀ s, P s.
Proof.
  intros H0 H1 H2. fix IH 1. intros [|a [|b s]]; [done|apply H1|]. apply H2, IH.
Qed.

Lemma ref_hex_decode_length s bs :
  ref_hex_decode s = Some bs → String.length s = (2 * length bs)%nat.
Proof.
  revert bs. induction s as [|a|a b s IH] using string_pair_ind; simpl; intros bs H.
  - by inv_checked.
  - done.
  - inv_checked. simpl. rewrite (IH _ ltac:(eassumption)). lia.
Qed.

Definition ref_hex : Hex.
Proof.
  refine {| hex_encode := ref_hex_encode; hex_decode := ref_hex_decode |}.
  - induction bs as [|b l IH]; simpl; [done|].
    destruct (hex_digits_ok b) as (-> & -> & _). simpl. rewrite IH. simpl. do 2 f_equal.
    replace (byteZ b / 16 * 16 + byteZ b mod 16) with (byteZ b).
    + apply Zbyte_byteZ.
    + pose proof (Z.div_mod (byteZ b) 16). lia.
  - induction bs as [|b l IH]; simpl; [done|].
    destruct (hex_digits_ok b) as (_ & _ & -> & ->). by rewrite IH.
  - intros s. induction s as [|a|a b s IH] using string_pair_ind; simpl; [done..|].
    by rewrite !hex_digit_value_lower, IH.
  - apply ref_hex_decode_length.
  - intros s. induction s as [|a|a b s IH] using string_pair_ind; simpl; intros bs H.
    + by inv_checked.
    + done.
    + inv_checked. rename select (hex_digit_value a = _) into Ha.
      rename select (hex_digit_value b = _) into Hb.
      rename select (ref_hex_decode s = _) into Hs. rewrite Ha. simpl. rewrite Hb. simpl.
      rewrite (hex_value_acc _ _ _ (IH _ Hs)). f_equal.
      apply hex_digit_value_range in Ha, Hb.
      change (Zbyte (?x * 16 + ?y) :: ?r) with ([Zbyte (x * 16 + y)] ++ r)%list.
      rewrite be_value_app. cbn [be_value be_value_from foldl].
      rewrite byteZ_Zbyte, Z.mod_small by lia.
      pose proof (ref_hex_decode_length _ _ Hs) as ->.
      rewrite Nat2Z.inj_mul, Z.pow_mul_r by lia. change (16 ^ Z.of_nat 2) with 256. lia.
Defined.

(** ** [alloy::primitives::keccak256] *)

Class Keccak := {
  keccak256 : list byte → list byte;
  keccak256_length bs : length (keccak256 bs) = 32%nat;
}.

(** A reference hash with the right shape: a rolling value of the input,
    folded into 32 bytes. *)
Definition ref_keccak : Keccak.
Proof.
  refine {| keccak256 l :=
    be_bytes 32 (foldl (λ acc b, Z.land (acc * 257 + byteZ b + 1) (2 ^ 256 - 1)) 0 l) |}.
  intros. apply be_bytes_length.
Defined.
