(* ===== verification/Pace.v ===== *)
(** * Pace: how fast a chain makes blocks ([vela-relay-core/src/pace.rs]) and
    the Tempo constants ([vela-relay-core/src/tempo.rs]) *)

From S2P Require Export Prelude.
#[local] Open Scope Z_scope.

Definition block_interval_ms (chain_id : Z) : option Z :=
  if decide (chain_id = 1) then Some 12000
  else if decide (chain_id = 10 ∨ chain_id = 8453) then Some 2000
  else if decide (chain_id = 56) then Some 450
  else if decide (chain_id = 100) then Some 5000
  else if decide (chain_id = 130) then Some 1000
  else if decide (chain_id = 137) then Some 2000
  else if decide (chain_id = 42161) then Some 250
  else if decide (chain_id = 43114) then Some 1000
  else None.

Definition DEFAULT_BLOCK_INTERVAL_MS : Z := 2000.
Definition TOP_UP_WAIT_MAX_MS : Z := 5000.
Definition TOP_UP_WAIT_MIN_MS : Z := 2000.

Record ReceiptWait : Type := { pause_ms : Z; polls : Z }.

Definition top_up_receipt_wait (chain_id : Z) : ReceiptWait :=
  let block := default DEFAULT_BLOCK_INTERVAL_MS (block_interval_ms chain_id) in
  let budget := clamp TOP_UP_WAIT_MIN_MS TOP_UP_WAIT_MAX_MS (saturating_mul 64 block 2) in
  let pause_ms := clamp 500 1000 (block / 2) in
  {| pause_ms := pause_ms; polls := default (umax 32) (checked 32 (budget / pause_ms)) |}.

Definition RECEIPT_PACE_FLOOR_MS : Z := 1000.

Definition receipt_pace_ms (chain_id configured_ms : Z) : Z :=
  match block_interval_ms chain_id with
  | Some block => Z.min (Z.max block RECEIPT_PACE_FLOOR_MS) configured_ms
  | None => configured_ms
  end.

(** ** Tempo *)

Definition is_tempo_chain (chain_id : Z) : bool :=
  bool_decide (chain_id = 4217 ∨ chain_id = 42431).
Definition PATH_USD_DECIMALS : Z := 6.
Definition PATH_USD_SYMBOL : string := "pathUSD".
Definition TEMPO_BASE_FEE_ATTO : Z := 20000000000.
Definition TEMPO_COST_BUFFER_GAS : Z := 80000.
Definition TEMPO_FLOAT_MIN : Z := 100000.
Definition TEMPO_FLOAT_TARGET : Z := 300000.
Definition TEMPO_TREASURY_FLOOR : Z := 200000.
(** [address!("20c0000000000000000000000000000000000000")], as its value. *)
Definition PATH_USD : Z := 0x20c0000000000000000000000000000000000000.
Definition TEMPO_TOP_UP_GAS_BUFFER_BPS : Z := 12000.

Definition buffered_top_up_gas_limit (estimated_gas : Z) : option Z :=
  v ← checked 64 (estimated_gas * TEMPO_TOP_UP_GAS_BUFFER_BPS); Some (v / 10000).

Definition tempo_outer_max_fee (base_fee_atto : Z) : result string Z :=
  fee ← ok_or (checked 256 (base_fee_atto + base_fee_atto / 2)) "Tempo outer fee overflow"%string;
  ok_or (checked 128 fee) "Tempo outer fee exceeds uint128"%string.

Definition tempo_cost_in_path_usd (gas price_atto : Z) : option Z :=
  n1 ← checked 256 (gas * price_atto);
  n ← checked 256 (n1 * 10 ^ PATH_USD_DECIMALS);
  checked 256 (ceil_quot n (10 ^ 18)).

(** The interval is one of the listed ones. *)
Lemma block_interval_range chain_id b :
  block_interval_ms chain_id = Some b → 250 ≤ b ≤ 12000.
Proof. unfold block_interval_ms. intros H. repeat case_decide; simplify_eq; lia. Qed.
