(* ===== verification/Json.v ===== *)
(** * Json: the [serde_json::Value]s the relay reads and writes

    Objects are association lists without duplicate keys; [obj_insert] is
    [Map::insert].  Numbers are the integers the relay exchanges (the one
    place that reads floats, [FeeHistory::mean_gas_used_ratio_bps], is not
    modelled).  The [req_*]/[opt_*] readers are the field rules of the serde
    derives: a required field must be present with its type, an [Option]
    field may be missing or [null]. *)

From S2P Require Export Bytes.
#[local] Open Scope string_scope.
#[local] Open Scope Z_scope.

Inductive Value : Type :=
  | VNull
  | VBool (b : bool)
  | VNumber (n : Z)
  | VString (s : string)
  | VArray (l : list Value)
  | VObject (o : list (string * Value)).

Definition obj := list (string * Value).

Fixpoint obj_get (k : string) (o : obj) : option Value :=
  match o with
  | [] => None
  | (k', v) :: o' => if String.eqb k k' then Some v else obj_get k o'
  end.

Fixpoint obj_insert (k : string) (v : Value) (o : obj) : obj :=
  match o with
  | [] => [(k, v)]
  | (k', v') :: o' => if String.eqb k k' then (k, v) :: o' else (k', v') :: obj_insert k v o'
  end.

(** [Value::get], [as_str], [as_array], [as_object]. *)
Definition get (k : string) (v : Value) : option Value :=
  match v with VObject o => obj_get k o | _ => None end.
Definition as_str (v : Value) : option string :=
  match v with VString s => Some s | _ => None end.
Definition as_array (v : Value) : option (list Value) :=
  match v with VArray l => Some l | _ => None end.
Definition as_object (v : Value) : option obj :=
  match v with VObject o => Some o | _ => None end.
Definition as_bool (v : Value) : option bool :=
  match v with VBool b => Some b | _ => None end.
Definition as_uint (w : Z) (v : Value) : option Z :=
  match v with VNumber n => checked w n | _ => None end.

Lemma obj_get_insert k v k' o :
  obj_get k (obj_insert k' v o) = if decide (k = k') then Some v else obj_get k o.
Proof.
  induction o as [|[k1 v1] o IH]; simpl.
  - destruct (String.eqb_spec k k'); case_decide; congruence.
  - destruct (String.eqb_spec k' k1); simpl.
    + destruct (String.eqb_spec k k'), (String.eqb_spec k k1); case_decide; congruence.
    + destruct (String.eqb_spec k k1); [|done]. case_decide; congruence.
Qed.

(** [PartialEq for Value]: the order of an object's fields is no part of it. *)
Fixpoint value_eqb (a b : Value) : bool :=
  match a, b with
  | VNull, VNull => true
  | VBool x, VBool y => Bool.eqb x y
  | VNumber x, VNumber y => Z.eqb x y
  | VString x, VString y => String.eqb x y
  | VArray l, VArray k =>
      (fix go (l k : list Value) : bool :=
         match l, k with
         | [], [] => true
         | x :: l, y :: k => value_eqb x y && go l k
         | _, _ => false
         end) l k
  | VObject o, VObject p =>
      Nat.eqb (length o) (length p) &&
      (fix go (o : obj) : bool :=
         match o with
         | [] => true
         | (k, v) :: o => match obj_get k p with Some v' => value_eqb v v' | None => false end && go o
         end) o
  | _, _ => false
  end.

(** ** Field readers of a serde derive *)

Definition req {A} (f : Value → option A) (k : string) (o : obj) : option A :=
  v ← obj_get k o; f v.
(** An [Option] field: missing and [null] both read as [None]. *)
Definition opt {A} (f : Value → option A) (k : string) (o : obj) : option (option A) :=
  match obj_get k o with
  | None | Some VNull => Some None
  | Some v => x ← f v; Some (Some x)
  end.
(** A [#[serde(default)]] field that is not an [Option]. *)
Definition defaulted {A} (d : A) (f : Value → option A) (k : string) (o : obj) : option A :=
  match obj_get k o with None => Some d | Some v => f v end.

(** The fields of a derived struct: an object's, or an array's in the order
    they are declared, of which those after the first [required] may be left
    out. *)
Definition struct_fields (names : list string) (required : nat) (v : Value) : option obj :=
  match v with
  | VObject o => Some o
  | VArray l => if decide (required ≤ length l ≤ length names)%nat then Some (zip names l) else None
  | _ => None
  end.

(** [#[serde(deny_unknown_fields)]] *)
Definition only_fields (known : list string) (o : obj) : bool :=
  forallb (λ kv, existsb (String.eqb kv.1) known) o.

(** ** serde_json *)

(** A parsed body: an object keeps the fields as they are written, repeated
    names included. *)
Class SerdeJson := {
  json_from_slice : list byte → result string Value;
  (** the message of a derive's [Deserialize] that refuses a value *)
  derive_error : string → Value → string;
}.

(** A text read as a [Value]: a name written again replaces what it had. *)
Fixpoint de_value (v : Value) : Value :=
  match v with
  | VArray l => VArray (map de_value l)
  | VObject o => VObject (foldl (λ m kv, obj_insert kv.1 (de_value kv.2) m) [] o)
  | v => v
  end.

(** A field that is written twice is refused while the text is read. *)
Definition fields_once (known : list string) (o : obj) : bool :=
  forallb (λ k, bool_decide (length (List.filter (λ kv, String.eqb k kv.1) o) ≤ 1)%nat) known.

(** A [BTreeMap<String, A>]: its entries in the order of their keys. *)
Fixpoint btree_insert {A} (k : string) (v : A) (m : list (string * A)) : list (string * A) :=
  match m with
  | [] => [(k, v)]
  | (k', v') :: m' =>
      match String.compare k k' with
      | Eq => (k, v) :: m'
      | Lt => (k, v) :: m
      | Gt => (k', v') :: btree_insert k v m'
      end
  end.

Definition de_btree {A} (f : Value → option A) (v : Value) : option (list (string * A)) :=
  o ← as_object v;
  foldl (λ acc kv, m ← acc; a ← f kv.2; Some (btree_insert kv.1 a m)) (Some []) o.

(** ** What a derive writes *)

(** An [Option] field written by the derive, and one under
    [skip_serializing_if = "Option::is_none"]. *)
Definition ser_opt {A} (f : A → Value) (x : option A) : Value :=
  match x with Some a => f a | None => VNull end.
Definition ser_skip {A} (k : string) (f : A → Value) (x : option A) : obj :=
  match x with Some a => [(k, f a)] | None => [] end.

Lemma as_str_VString s : as_str (VString s) = Some s.
Proof. reflexivity. Qed.
