(* ===== verification/Task.v ===== *)
(** * Task: the shared vocabulary of the two shells and the core
    ([vela-relay-core/src/task.rs] and [rejection.rs])

    The records, the JSON their derives write, and the reasons a record may
    carry. *)

From S2P Require Export Json.
#[local] Open Scope string_scope.
#[local] Open Scope Z_scope.

(** * Task: the shared business vocabulary ([vela-relay-core/src/task.rs])

    The UserOperation record, its status, the queue envelope and the durable
    intents, with the JSON the serde derives give the stored record; and the
    bounded diagnostic [truncate_diagnostic]. *)

Inductive UserOperationStatus : Type :=
  | NotFound | Queued | NotSubmitted | Submitted | Rejected | Included | Failed.

#[export] Instance UserOperationStatus_eq_dec : EqDecision UserOperationStatus.
Proof. solve_decision. Defined.

Definition is_terminal (s : UserOperationStatus) : bool :=
  match s with Rejected | Included | Failed => true | _ => false end.

Definition is_durable (s : UserOperationStatus) : bool :=
  match s with Submitted | Rejected | Included | Failed => true | _ => false end.

(** [#[serde(rename_all = "snake_case")]] *)
Definition status_name (s : UserOperationStatus) : string :=
  match s with
  | NotFound => "not_found" | Queued => "queued" | NotSubmitted => "not_submitted"
  | Submitted => "submitted" | Rejected => "rejected" | Included => "included"
  | Failed => "failed"
  end.
Definition all_statuses : list UserOperationStatus :=
  [NotFound; Queued; NotSubmitted; Submitted; Rejected; Included; Failed].
Definition de_status (v : Value) : option UserOperationStatus :=
  s ← as_str v; List.find (λ st, String.eqb (status_name st) s) all_statuses.

(** ** UserOperations *)

Record Eip7702Authorization : Type := {
  auth_chain_id : string; auth_address : string; auth_nonce : string;
  auth_y_parity : string; auth_r : string; auth_s : string }.

Record UserOperationV0_7 : Type := {
  sender : string; nonce : string;
  factory : option string; factory_data : option string;
  call_data : string;
  call_gas_limit : string; verification_gas_limit : string;
  pre_verification_gas : string;
  max_fee_per_gas : string; max_priority_fee_per_gas : string;
  paymaster : option string;
  paymaster_verification_gas_limit : option string;
  paymaster_post_op_gas_limit : option string;
  paymaster_data : option string;
  signature : string;
  eip7702_auth : option Eip7702Authorization;
  fee_token : option string }.

Record UserOperationV0_6 : Type := {
  sender_06 : string; nonce_06 : string; init_code_06 : string; call_data_06 : string;
  call_gas_limit_06 : string; verification_gas_limit_06 : string;
  pre_verification_gas_06 : string;
  max_fee_per_gas_06 : string; max_priority_fee_per_gas_06 : string;
  paymaster_and_data_06 : string; signature_06 : string }.

Inductive UserOperation : Type :=
  | V0_7 (op : UserOperationV0_7)
  | V0_6 (op : UserOperationV0_6).

Record UserOperationEvent : Type := {
  ev_user_operation_hash : string; ev_success : bool;
  ev_actual_gas_cost : string; ev_actual_gas_used : string }.

Record QueuedUserOperation : Type := {
  q_user_operation_hash : string; q_chain_id : Z; q_entry_point : string;
  q_user_operation : UserOperation }.

Record StoredUserOperation : Type := {
  status : UserOperationStatus;
  transaction_hash : option string;
  chain_id : Z;
  chain_id_text : string;
  entry_point : string;
  user_operation : UserOperation;
  admitted : bool;
  next_receipt_check_at_ms : Z;
  block_hash : option string;
  block_number : option string;
  receipt : option Value;
  event : option UserOperationEvent;
  last_executor_stage : option string;
  last_executor_error : option string;
  last_executor_attempt_at_ms : option Z;
  rejection_reason : option string }.

Record PreparedBundleIntent : Type := {
  bi_chain_id : Z; bi_lane : Z; bi_entry_point : string;
  bi_raw_transaction : string; bi_transaction_hash : string; bi_nonce : Z;
  bi_user_operation_hashes : list string;
  bi_billed_gas : option string; bi_billed_fee_per_gas : option string }.

Record PreparedFundingIntent : Type := {
  fi_chain_id : Z; fi_relayer : string; fi_amount_wei : Z;
  fi_raw_transaction : string; fi_transaction_hash : string; fi_nonce : Z }.

(** The initial stored record of a freshly queued operation. *)
Definition queued_record (operation : QueuedUserOperation) (admitted : bool) : StoredUserOperation :=
  {| status := Queued;
     transaction_hash := None;
     chain_id := q_chain_id operation;
     chain_id_text := dec (q_chain_id operation);
     entry_point := q_entry_point operation;
     user_operation := q_user_operation operation;
     admitted := admitted;
     next_receipt_check_at_ms := 0;
     block_hash := None; block_number := None;
     receipt := None; event := None;
     last_executor_stage := None; last_executor_error := None;
     last_executor_attempt_at_ms := None;
     rejection_reason := None |}.

(** ** Bounded diagnostics *)

Definition truncate_diagnostic (value : string) (limit : nat) : string :=
  if decide (String.length value ≤ limit)%nat then value
  else
    let fits_limit := λ span : nat * nat, bool_decide (span.1 + span.2 ≤ limit - 3)%nat in
    let stop := List.last (map (λ span, span.1 + span.2)%nat
                             (take_while fits_limit (char_indices value))) 0%nat in
    (str_take stop value +:+ "...")%string.

Lemma last_Forall {A} (P : A → Prop) l d : P d → Forall P l → P (List.last l d).
Proof. intros Hd. induction 1 as [|x [|y l] Hx _ IH]; auto. Qed.

Lemma truncate_diagnostic_cut value limit :
  ∃ stop, (stop ≤ limit - 3)%nat ∧
    truncate_diagnostic value limit =
      if decide (String.length value ≤ limit)%nat then value
      else (str_take stop value +:+ "...")%string.
Proof.
  unfold truncate_diagnostic.
  eexists. split; [|reflexivity].
  apply last_Forall with (P := λ n, (n ≤ limit - 3)%nat); [lia|].
  apply Forall_map. eapply Forall_impl; [apply take_while_Forall|].
  intros x. by rewrite bool_decide_eq_true.
Qed.

(** A stored diagnostic never exceeds its limit (once the limit holds the
    ellipsis at all). *)
Lemma truncate_diagnostic_length value limit :
  (String.length (truncate_diagnostic value limit) ≤ Nat.max limit 3)%nat.
Proof.
  destruct (truncate_diagnostic_cut value limit) as (stop & Hstop & ->).
  case_decide; [lia|]. rewrite str_app_length, str_take_length. simpl. lia.
Qed.

(** * RecordJson: the JSON of a stored record

    What the serde derives on [StoredUserOperation] and the types inside it
    ([vela-relay-core/src/task.rs]) write and read: camelCase names,
    [deny_unknown_fields] on the operations, the untagged [UserOperation]
    that tries v0.7 before v0.6, [default] and [skip_serializing_if].  The
    stores merge patches into this JSON, so its round trip is what keeps a
    record intact across a merge. *)

Definition ser_auth (a : Eip7702Authorization) : Value :=
  VObject [("chainId", VString (auth_chain_id a)); ("address", VString (auth_address a));
           ("nonce", VString (auth_nonce a)); ("yParity", VString (auth_y_parity a));
           ("r", VString (auth_r a)); ("s", VString (auth_s a))].

Definition auth_fields : list string := ["chainId"; "address"; "nonce"; "yParity"; "r"; "s"].

Definition de_auth (v : Value) : option Eip7702Authorization :=
  o ← struct_fields auth_fields 6 v;
  if only_fields auth_fields o then
    c ← req as_str "chainId" o; a ← req as_str "address" o; n ← req as_str "nonce" o;
    y ← req as_str "yParity" o; r ← req as_str "r" o; s ← req as_str "s" o;
    Some {| auth_chain_id := c; auth_address := a; auth_nonce := n;
            auth_y_parity := y; auth_r := r; auth_s := s |}
  else None.

Definition ser_v0_7 (u : UserOperationV0_7) : Value :=
  VObject ([("sender", VString (sender u)); ("nonce", VString (nonce u));
    ("factory", ser_opt VString (factory u));
    ("factoryData", ser_opt VString (factory_data u));
    ("callData", VString (call_data u));
    ("callGasLimit", VString (call_gas_limit u));
    ("verificationGasLimit", VString (verification_gas_limit u));
    ("preVerificationGas", VString (pre_verification_gas u));
    ("maxFeePerGas", VString (max_fee_per_gas u));
    ("maxPriorityFeePerGas", VString (max_priority_fee_per_gas u));
    ("paymaster", ser_opt VString (paymaster u));
    ("paymasterVerificationGasLimit", ser_opt VString (paymaster_verification_gas_limit u));
    ("paymasterPostOpGasLimit", ser_opt VString (paymaster_post_op_gas_limit u));
    ("paymasterData", ser_opt VString (paymaster_data u));
    ("signature", VString (signature u));
    ("eip7702Auth", ser_opt ser_auth (eip7702_auth u))]
    ++ ser_skip "feeToken" VString (fee_token u)).

Definition v0_7_fields : list string :=
  ["sender"; "nonce"; "factory"; "factoryData"; "callData"; "callGasLimit";
   "verificationGasLimit"; "preVerificationGas"; "maxFeePerGas"; "maxPriorityFeePerGas";
   "paymaster"; "paymasterVerificationGasLimit"; "paymasterPostOpGasLimit";
   "paymasterData"; "signature"; "eip7702Auth"; "feeToken"].

Definition de_v0_7 (v : Value) : option UserOperationV0_7 :=
  o ← struct_fields v0_7_fields 16 v;
  if only_fields v0_7_fields o then
    se ← req as_str "sender" o; no ← req as_str "nonce" o;
    fa ← opt as_str "factory" o; fd ← opt as_str "factoryData" o;
    cd ← req as_str "callData" o; cg ← req as_str "callGasLimit" o;
    vg ← req as_str "verificationGasLimit" o; pg ← req as_str "preVerificationGas" o;
    mf ← req as_str "maxFeePerGas" o; mp ← req as_str "maxPriorityFeePerGas" o;
    pm ← opt as_str "paymaster" o;
    pv ← opt as_str "paymasterVerificationGasLimit" o;
    pp ← opt as_str "paymasterPostOpGasLimit" o;
    pd ← opt as_str "paymasterData" o;
    si ← req as_str "signature" o; au ← opt de_auth "eip7702Auth" o;
    ft ← opt as_str "feeToken" o;
    Some {| sender := se; nonce := no; factory := fa; factory_data := fd; call_data := cd;
            call_gas_limit := cg; verification_gas_limit := vg; pre_verification_gas := pg;
            max_fee_per_gas := mf; max_priority_fee_per_gas := mp; paymaster := pm;
            paymaster_verification_gas_limit := pv; paymaster_post_op_gas_limit := pp;
            paymaster_data := pd; signature := si; eip7702_auth := au; fee_token := ft |}
  else None.

Definition ser_v0_6 (u : UserOperationV0_6) : Value :=
  VObject [("sender", VString (sender_06 u)); ("nonce", VString (nonce_06 u));
    ("initCode", VString (init_code_06 u)); ("callData", VString (call_data_06 u));
    ("callGasLimit", VString (call_gas_limit_06 u));
    ("verificationGasLimit", VString (verification_gas_limit_06 u));
    ("preVerificationGas", VString (pre_verification_gas_06 u));
    ("maxFeePerGas", VString (max_fee_per_gas_06 u));
    ("maxPriorityFeePerGas", VString (max_priority_fee_per_gas_06 u));
    ("paymasterAndData", VString (paymaster_and_data_06 u));
    ("signature", VString (signature_06 u))].

Definition v0_6_fields : list string :=
  ["sender"; "nonce"; "initCode"; "callData"; "callGasLimit"; "verificationGasLimit";
   "preVerificationGas"; "maxFeePerGas"; "maxPriorityFeePerGas"; "paymasterAndData"; "signature"].

Definition de_v0_6 (v : Value) : option UserOperationV0_6 :=
  o ← struct_fields v0_6_fields 11 v;
  if only_fields v0_6_fields o then
    se ← req as_str "sender" o; no ← req as_str "nonce" o; ic ← req as_str "initCode" o;
    cd ← req as_str "callData" o; cg ← req as_str "callGasLimit" o;
    vg ← req as_str "verificationGasLimit" o; pg ← req as_str "preVerificationGas" o;
    mf ← req as_str "maxFeePerGas" o; mp ← req as_str "maxPriorityFeePerGas" o;
    pd ← req as_str "paymasterAndData" o; si ← req as_str "signature" o;
    Some {| sender_06 := se; nonce_06 := no; init_code_06 := ic; call_data_06 := cd;
            call_gas_limit_06 := cg; verification_gas_limit_06 := vg;
            pre_verification_gas_06 := pg; max_fee_per_gas_06 := mf;
            max_priority_fee_per_gas_06 := mp; paymaster_and_data_06 := pd;
            signature_06 := si |}
  else None.

(** [#[serde(untagged)]]: the first variant that reads wins. *)
Definition ser_user_operation (u : UserOperation) : Value :=
  match u with V0_7 op => ser_v0_7 op | V0_6 op => ser_v0_6 op end.
Definition de_user_operation (v : Value) : option UserOperation :=
  match de_v0_7 v with
  | Some op => Some (V0_7 op)
  | None => op ← de_v0_6 v; Some (V0_6 op)
  end.

Definition ser_event (e : UserOperationEvent) : Value :=
  VObject [("userOperationHash", VString (ev_user_operation_hash e));
           ("success", VBool (ev_success e));
           ("actualGasCost", VString (ev_actual_gas_cost e));
           ("actualGasUsed", VString (ev_actual_gas_used e))].
Definition de_event (v : Value) : option UserOperationEvent :=
  o ← as_object v;
  h ← req as_str "userOperationHash" o; s ← req as_bool "success" o;
  c ← req as_str "actualGasCost" o; u ← req as_str "actualGasUsed" o;
  Some {| ev_user_operation_hash := h; ev_success := s;
          ev_actual_gas_cost := c; ev_actual_gas_used := u |}.

Definition record_fields (r : StoredUserOperation) : obj :=
  ([("status", VString (status_name (status r)));
   ("transactionHash", ser_opt VString (transaction_hash r));
   ("chainId", VNumber (chain_id r));
   ("chainIdText", VString (chain_id_text r));
   ("entryPoint", VString (entry_point r));
   ("userOperation", ser_user_operation (user_operation r));
   ("admitted", VBool (admitted r));
   ("nextReceiptCheckAtMs", VNumber (next_receipt_check_at_ms r));
   ("blockHash", ser_opt VString (block_hash r));
   ("blockNumber", ser_opt VString (block_number r));
   ("receipt", ser_opt id (receipt r));
   ("event", ser_opt ser_event (event r));
   ("lastExecutorStage", ser_opt VString (last_executor_stage r));
   ("lastExecutorError", ser_opt VString (last_executor_error r));
   ("lastExecutorAttemptAtMs", ser_opt VNumber (last_executor_attempt_at_ms r))]
  ++ ser_skip "rejectionReason" VString (rejection_reason r))%list.

Definition de_record_fields (o : obj) : option StoredUserOperation :=
  st ← req de_status "status" o;
  th ← opt as_str "transactionHash" o;
  ci ← req (as_uint 64) "chainId" o;
  ct ← defaulted "" as_str "chainIdText" o;
  ep ← req as_str "entryPoint" o;
  uo ← req de_user_operation "userOperation" o;
  ad ← req as_bool "admitted" o;
  nr ← defaulted 0 (as_uint 64) "nextReceiptCheckAtMs" o;
  bh ← opt as_str "blockHash" o; bn ← opt as_str "blockNumber" o;
  re ← opt Some "receipt" o; ev ← opt de_event "event" o;
  ls ← opt as_str "lastExecutorStage" o; le ← opt as_str "lastExecutorError" o;
  la ← opt (as_uint 64) "lastExecutorAttemptAtMs" o;
  rr ← opt as_str "rejectionReason" o;
  Some {| status := st; transaction_hash := th; chain_id := ci; chain_id_text := ct;
          entry_point := ep; user_operation := uo; admitted := ad;
          next_receipt_check_at_ms := nr; block_hash := bh; block_number := bn;
          receipt := re; event := ev; last_executor_stage := ls;
          last_executor_error := le; last_executor_attempt_at_ms := la;
          rejection_reason := rr |}.

(** The type invariant of a record: its integers are [u64]s, and its receipt
    is not JSON [null], which serde reads back as [None]. *)
Definition record_wf (r : StoredUserOperation) : Prop :=
  fits 64 (chain_id r) ∧ fits 64 (next_receipt_check_at_ms r) ∧
  (∀ t, last_executor_attempt_at_ms r = Some t → fits 64 t) ∧
  receipt r ≠ Some VNull.

(** ** Round trips *)

Lemma opt_ser {A} (f : A → Value) (g : Value → option A) k o x :
  obj_get k o = Some (ser_opt f x) →
  (∀ a, x = Some a → f a ≠ VNull ∧ g (f a) = Some a) →
  opt g k o = Some x.
Proof.
  unfold opt. intros -> H. destruct x as [a|]; [|done].
  destruct (H a eq_refl) as [Hn Hg]. simpl. rewrite Hg.
  destruct (f a); naive_solver.
Qed.

Lemma opt_missing {A} (g : Value → option A) k o :
  obj_get k o = None → opt g k o = Some None.
Proof. unfold opt. by intros ->. Qed.

Lemma de_ser_auth a : de_auth (ser_auth a) = Some a.
Proof. by destruct a. Qed.

Lemma de_ser_v0_7 u : de_v0_7 (ser_v0_7 u) = Some u.
Proof.
  destruct u as [? ? fa fd ? ? ? ? ? ? pm pv pp pd ? au ft].
  destruct fa, fd, pm, pv, pp, pd, au as [[]|], ft; reflexivity.
Qed.

Lemma de_ser_v0_6 u : de_v0_6 (ser_v0_6 u) = Some u.
Proof. by destruct u. Qed.

Lemma de_ser_user_operation u : de_user_operation (ser_user_operation u) = Some u.
Proof.
  unfold de_user_operation. destruct u as [op|op]; simpl.
  - by rewrite de_ser_v0_7.
  - by destruct op.
Qed.

Lemma de_ser_event e : de_event (ser_event e) = Some e.
Proof. by destruct e. Qed.

Lemma de_status_name s : de_status (VString (status_name s)) = Some s.
Proof. by destruct s. Qed.

Lemma opt_as_str_ser k o x :
  obj_get k o = Some (ser_opt VString x) → opt as_str k o = Some x.
Proof. intros H. eapply opt_ser; [exact H|]. by intros a ->. Qed.

Lemma opt_uint_ser k o x :
  obj_get k o = Some (ser_opt VNumber x) → (∀ t, x = Some t → fits 64 t) →
  opt (as_uint 64) k o = Some x.
Proof.
  intros H Hx. eapply opt_ser; [exact H|]. intros a ->. split; [done|].
  simpl. apply checked_fits. auto.
Qed.

Lemma opt_skip_str k o x :
  obj_get k (o ++ ser_skip k VString x)%list = VString <$> x →
  opt as_str k (o ++ ser_skip k VString x)%list = Some x.
Proof. unfold opt. intros ->. by destruct x. Qed.

Lemma de_record_fields_ser r :
  record_wf r → de_record_fields (record_fields r) = Some r.
Proof.
  intros (Hc & Hn & Hl & Hr).
  unfold de_record_fields.
  assert (Hst : req de_status "status" (record_fields r) = Some (status r))
    by apply de_status_name.
  assert (Hci : req (as_uint 64) "chainId" (record_fields r) = Some (chain_id r))
    by apply (checked_fits _ _ Hc).
  assert (Hnr : defaulted 0 (as_uint 64) "nextReceiptCheckAtMs" (record_fields r)
    = Some (next_receipt_check_at_ms r)) by apply (checked_fits _ _ Hn).
  assert (Huo : req de_user_operation "userOperation" (record_fields r)
    = Some (user_operation r)) by apply de_ser_user_operation.
  assert (Hre : opt Some "receipt" (record_fields r) = Some (receipt r)).
  { eapply opt_ser; [reflexivity|]. intros a E. split; [|done]. unfold id. congruence. }
  assert (Hev : opt de_event "event" (record_fields r) = Some (event r)).
  { eapply opt_ser; [reflexivity|]. intros a _. split; [done|]. apply de_ser_event. }
  assert (Hrr : opt as_str "rejectionReason" (record_fields r) = Some (rejection_reason r)).
  { apply opt_skip_str. by destruct (rejection_reason r). }
  rewrite Hst, Hci, Hnr, Huo, Hre, Hev, Hrr.
  rewrite (opt_as_str_ser "transactionHash" _ (transaction_hash r)) by reflexivity.
  rewrite (opt_as_str_ser "blockHash" _ (block_hash r)) by reflexivity.
  rewrite (opt_as_str_ser "blockNumber" _ (block_number r)) by reflexivity.
  rewrite (opt_as_str_ser "lastExecutorStage" _ (last_executor_stage r)) by reflexivity.
  rewrite (opt_as_str_ser "lastExecutorError" _ (last_executor_error r)) by reflexivity.
  rewrite (opt_uint_ser "lastExecutorAttemptAtMs" _ (last_executor_attempt_at_ms r)) by done.
  by destruct r.
Qed.

(** ** What is read is well formed *)

Lemma as_uint_fits w v z : as_uint w v = Some z → fits w z.
Proof. destruct v; try done. simpl. intros H. by inv_checked. Qed.

Lemma de_record_fields_wf o r : de_record_fields o = Some r → record_wf r.
Proof.
  unfold de_record_fields. intros H. inv_checked. split; [|split; [|split]]; cbn.
  - rename select (req (as_uint 64) "chainId" o = _) into Hc. unfold req in Hc.
    apply bind_Some in Hc as (v & _ & Hc). by eapply as_uint_fits.
  - rename select (defaulted 0 (as_uint 64) "nextReceiptCheckAtMs" o = _) into Hn. unfold defaulted in Hn.
    destruct (obj_get _ _); [by eapply as_uint_fits|]. injection Hn as <-. by split.
  - intros t ->. rename select (opt (as_uint 64) _ o = _) into Hl. unfold opt in Hl.
    destruct (obj_get _ _) as [[]|]; try discriminate Hl; inv_checked. by eapply as_uint_fits.
  - intros ->. rename select (opt Some "receipt" o = _) into Hr. unfold opt in Hr.
    destruct (obj_get _ _) as [[]|]; discriminate Hr.
Qed.

(** * Rejection: why an operation did not go through
    ([vela-relay-core/src/rejection.rs]) *)

Inductive RejectionReason : Type :=
  | NonceInFlight | FeeBelowMarket | FeeBelowMinimum | FeePaymentInvalid | NonceUsed
  | SimulationFailed | InvalidOperation | UnsupportedFeeToken | RelayGaveUp
  | RevertedOnchain | BundleFailed | Unknown.

#[export] Instance RejectionReason_eq_dec : EqDecision RejectionReason.
Proof. solve_decision. Defined.

Definition ALL : list RejectionReason :=
  [NonceInFlight; FeeBelowMarket; FeeBelowMinimum; FeePaymentInvalid; NonceUsed;
   SimulationFailed; InvalidOperation; UnsupportedFeeToken; RelayGaveUp;
   RevertedOnchain; BundleFailed; Unknown].

Definition as_reason_str (r : RejectionReason) : string :=
  match r with
  | NonceInFlight => "nonce_in_flight"
  | FeeBelowMarket => "fee_below_market"
  | FeeBelowMinimum => "fee_below_minimum"
  | FeePaymentInvalid => "fee_payment_invalid"
  | NonceUsed => "nonce_used"
  | SimulationFailed => "simulation_failed"
  | InvalidOperation => "invalid_operation"
  | UnsupportedFeeToken => "unsupported_fee_token"
  | RelayGaveUp => "relay_gave_up"
  | RevertedOnchain => "reverted_onchain"
  | BundleFailed => "bundle_failed"
  | Unknown => "unknown"
  end.

Definition parse_reason (value : string) : RejectionReason :=
  default Unknown (List.find (λ r, String.eqb (as_reason_str r) value) ALL).

(** [crate::lifecycle::DEAD_LETTER_STAGE] *)
Definition DEAD_LETTER_STAGE : string := "dead_letter".

Definition of_stage (stage : option string) : RejectionReason :=
  match stage with
  | Some s =>
      if String.eqb s "nonce" then NonceUsed
      else if String.eqb s "simulation" then SimulationFailed
      else if String.eqb s DEAD_LETTER_STAGE then RelayGaveUp
      else if String.eqb s "queue" then InvalidOperation
      else if String.eqb s "tempo_fee_token" then UnsupportedFeeToken
      else if String.eqb s "in_band_settlement" then FeeBelowMarket
      else Unknown
  | None => Unknown
  end.

Definition of_record (record : StoredUserOperation) : option RejectionReason :=
  match status record with
  | Failed => Some BundleFailed
  | Rejected =>
      Some (match rejection_reason record with
            | Some code => parse_reason code
            | None =>
                match receipt record, event record with
                | None, None => of_stage (last_executor_stage record)
                | _, _ => RevertedOnchain
                end
            end)
  | _ => None
  end.

Lemma parse_as_str r : parse_reason (as_reason_str r) = r.
Proof. by destruct r. Qed.

Lemma as_str_parse_known s r :
  parse_reason s = r → r ≠ Unknown → s = as_reason_str r.
Proof.
  unfold parse_reason. intros H Hr.
  destruct (List.find _ ALL) as [x|] eqn:E; simpl in H; [|congruence].
  apply List.find_some in E as [_ E]. apply String.eqb_eq in E. congruence.
Qed.

(** A record says why exactly when its operation was rejected or failed; a
    stored code is believed before any guess from the stage. *)
Lemma of_record_is_Some record :
  is_Some (of_record record) ↔ status record = Rejected ∨ status record = Failed.
Proof. unfold of_record. destruct (status record); naive_solver. Qed.
