(* ===== verification/GasMath.v ===== *)
(** * GasMath: EIP-1559 price arithmetic
    ([vela-relay-core/src/gas_math.rs])

    The tip every tier signs with, the fee pair a tier asks for, and the
    quote derived from it.  The mean [gasUsedRatio] is read from floating
    point numbers; it enters as the [option Z] the source's function
    returns. *)

From S2P Require Export Json Pace.
From stdpp Require Export sorting.
#[local] Open Scope string_scope.
#[local] Open Scope Z_scope.

(** ** Submission tiers *)

Inductive SubmissionTier : Type := Slow | Standard | Fast.

#[export] Instance SubmissionTier_eq_dec : EqDecision SubmissionTier.
Proof. solve_decision. Defined.

(** The derived order [Slow < Standard < Fast]. *)
Definition tier_index (t : SubmissionTier) : Z :=
  match t with Slow => 0 | Standard => 1 | Fast => 2 end.

Definition base_fee_bps (t : SubmissionTier) : Z :=
  match t with Slow => 15000 | Standard => 15000 | Fast => 17500 end.
Definition legacy_base_fee_bps (t : SubmissionTier) : Z :=
  match t with Slow => 15000 | Standard => 20000 | Fast => 30000 end.
Definition legacy_tip_bps (t : SubmissionTier) : Z :=
  match t with Slow => 10000 | Standard => 12500 | Fast => 20000 end.
Definition REIMBURSEMENT_BASIS_BPS : Z := 6000.
Definition network_fee_bps (t : SubmissionTier) : Z :=
  legacy_base_fee_bps t * REIMBURSEMENT_BASIS_BPS / 10000.
Definition tier_as_str (t : SubmissionTier) : string :=
  match t with Slow => "slow" | Standard => "standard" | Fast => "fast" end.

Definition TIP_WINDOW_BLOCKS : Z := 20.
Definition TIP_WINDOW_MS : Z := 60000.
Definition TIP_WINDOW_MAX_BLOCKS : Z := 256.

Definition tip_window_blocks (chain_id : Z) : Z :=
  let interval := Z.max (default DEFAULT_BLOCK_INTERVAL_MS (block_interval_ms chain_id)) 1 in
  clamp TIP_WINDOW_BLOCKS TIP_WINDOW_MAX_BLOCKS (ceil_quot TIP_WINDOW_MS interval).

Definition UNCONGESTED_GAS_USED_RATIO_BPS : Z := 3000.
Definition NEAR_UNCONGESTED_GAS_USED_RATIO_BPS : Z := 4000.
Definition TIP_REWARD_PERCENTILES : list Z := [25; 50; 70].

Definition tip_history_params (chain_id : Z) : Value :=
  VArray [VString ("0x" +:+ lower_hex (tip_window_blocks chain_id)); VString "latest";
          VArray (map VNumber TIP_REWARD_PERCENTILES)].

Definition MIN_POSITIVE_TIP : Z := 1000000.
Definition IN_BAND_DRIFT_BPS : Z := 10000.

(** The market tip scaled by the legacy table, rounded up. *)
Definition scaled_market_tip (tier : SubmissionTier) (market_tip : Z) : option Z :=
  product ← checked 256 (market_tip * legacy_tip_bps tier);
  checked 128 (ceil_quot product 10000).

Record TierTips : Type := { tip_slow : Z; tip_standard : Z; tip_fast : Z; tip_floor : Z }.

Definition tips_of (t : TierTips) (tier : SubmissionTier) : Z :=
  match tier with Slow => tip_slow t | Standard => tip_standard t | Fast => tip_fast t end.

Record TipWindow : Type := {
  rewards : list (list Z);
  gas_used_ratio_bps : option Z }.

(** The median of a sorted copy; of an even number of values, the mean of the
    two middle ones rounded up. *)
Definition median (values : list Z) : Z :=
  let values := merge_sort Z.le values in
  let middle := (length values / 2)%nat in
  if Nat.odd (length values) then values !!! middle
  else
    let low := values !!! (middle - 1)%nat in
    let high := values !!! middle in
    low + ceil_quot (high - low) 2.

Definition from_window (window : TipWindow) (market_tip : Z) : option TierTips :=
  let rewards := filter (λ row : list Z, length row = length TIP_REWARD_PERCENTILES)
                   (rewards window) in
  match rewards with
  | [] => None
  | _ =>
      let column := λ c : nat, median (map (λ row : list Z, row !!! c) rewards) in
      let paid_any := existsb (existsb (λ reward, bool_decide (0 < reward))) rewards in
      let least := if paid_any then MIN_POSITIVE_TIP else 0 in
      let evidence := bool_decide (0 < column 1%nat) in
      let node := if negb evidence || bool_decide (market_tip ≤ column 1%nat)
                  then Some market_tip else None in
      let rewarded := Z.max (column 0%nat) least in
      let quiet_slow := match node with Some tip => Z.max tip least | None => rewarded end in
      let proven := if evidence then rewarded else quiet_slow in
      let below := λ bound, match gas_used_ratio_bps window with
                            | Some ratio => bool_decide (ratio < bound)
                            | None => false
                            end in
      if below UNCONGESTED_GAS_USED_RATIO_BPS then
        scaled_standard ← scaled_market_tip Standard quiet_slow;
        let standard := Z.max (Z.min scaled_standard (column 1%nat)) quiet_slow in
        scaled_fast ← scaled_market_tip Fast quiet_slow;
        let fast := Z.max (Z.min scaled_fast (column 2%nat)) standard in
        Some {| tip_slow := quiet_slow; tip_standard := standard; tip_fast := fast;
                tip_floor := Z.min quiet_slow proven |}
      else
        let slow := Z.max rewarded (default 0 node) in
        let standard := Z.max (column 1%nat) slow in
        let fast := Z.max (column 2%nat) standard in
        let floor := if below NEAR_UNCONGESTED_GAS_USED_RATIO_BPS
                     then Z.min proven quiet_slow else proven in
        Some {| tip_slow := slow; tip_standard := standard; tip_fast := fast;
                tip_floor := floor |}
  end.

Definition from_rewards (rewards : list (list Z)) (market_tip : Z) : option TierTips :=
  from_window {| rewards := rewards; gas_used_ratio_bps := None |} market_tip.

Definition scaled (market_tip : Z) : option TierTips :=
  slow ← scaled_market_tip Slow market_tip;
  standard ← scaled_market_tip Standard market_tip;
  fast ← scaled_market_tip Fast market_tip;
  Some {| tip_slow := slow; tip_standard := standard; tip_fast := fast; tip_floor := market_tip |}.

Definition resolve (window : option TipWindow) (market_tip : Z) : option TierTips :=
  match (w ← window; from_window w market_tip) with
  | Some t => Some t
  | None => scaled market_tip
  end.

(** ** Fee pairs and quotes *)

Record OuterFee : Type := { outer_max_fee : Z; outer_max_priority_fee : Z }.

#[export] Instance OuterFee_eq_dec : EqDecision OuterFee.
Proof. solve_decision. Defined.

Definition effective_tip_at (o : OuterFee) (base_fee_per_gas : Z) : Z :=
  let headroom := saturating_sub (outer_max_fee o) base_fee_per_gas in
  if decide (headroom < outer_max_priority_fee o) then headroom else outer_max_priority_fee o.

Definition delivers_full_tip_at (o : OuterFee) (base_fee_per_gas : Z) : bool :=
  bool_decide (effective_tip_at o base_fee_per_gas = outer_max_priority_fee o).

Definition tier_outer_fee (tier : SubmissionTier) (base_fee_per_gas : Z) (tips : TierTips) :
    option OuterFee :=
  let tip := tips_of tips tier in
  product ← checked 256 (base_fee_per_gas * base_fee_bps tier);
  scaled ← checked 128 (product / 10000);
  cap ← checked 128 (scaled + tip);
  Some {| outer_max_fee := cap; outer_max_priority_fee := tip |}.

Definition tier_network_fee (tier : SubmissionTier) (base_fee_per_gas market_tip : Z) : option Z :=
  product ← checked 256 (base_fee_per_gas * network_fee_bps tier);
  scaled ← checked 128 (ceil_quot product 10000);
  tip ← scaled_market_tip tier market_tip;
  checked 128 (scaled + tip).

Record GasPrice : Type := {
  gp_max_fee_per_gas : Z; gp_max_priority_fee_per_gas : Z;
  gp_network_fee_per_gas : Z; gp_relayer_fee_per_gas : Z }.

Definition tier_price (tier : SubmissionTier) (base_fee_per_gas : Z) (tips : TierTips)
    (market_tip : Z) : option GasPrice :=
  outer ← tier_outer_fee tier base_fee_per_gas tips;
  network_fee_per_gas ← tier_network_fee tier base_fee_per_gas market_tip;
  Some {| gp_max_fee_per_gas := outer_max_fee outer;
          gp_max_priority_fee_per_gas := outer_max_priority_fee outer;
          gp_network_fee_per_gas := network_fee_per_gas;
          gp_relayer_fee_per_gas := saturating_sub (outer_max_fee outer) network_fee_per_gas |}.

Record NetworkGasPrice : Type := {
  np_base_fee_per_gas : Z; np_max_priority_fee_per_gas : Z; np_tier_tips : TierTips }.

Record GasPriceTiers : Type := { price_slow : GasPrice; price_standard : GasPrice; price_fast : GasPrice }.

Inductive GasPriceError : Type :=
  | NoPriceAvailable | InvalidUpstreamResponse | GasArithmeticOverflow | ResponseDeadlineExceeded.

Definition tiers (network_price : NetworkGasPrice) : result GasPriceError GasPriceTiers :=
  let price := λ tier,
    ok_or (tier_price tier (np_base_fee_per_gas network_price) (np_tier_tips network_price)
             (np_max_priority_fee_per_gas network_price)) GasArithmeticOverflow in
  s ← price Slow; m ← price Standard; f ← price Fast;
  Ok {| price_slow := s; price_standard := m; price_fast := f |}.

Definition quoted_outer_fee (base_fee_per_gas max_priority_fee_per_gas : Z) : option Z :=
  twice ← checked 128 (base_fee_per_gas * 2);
  checked 128 (twice + max_priority_fee_per_gas).

Definition in_band_fee_per_gas (max_fee_per_gas settlement_markup_bps : Z) : option Z :=
  p1 ← checked 256 (max_fee_per_gas * settlement_markup_bps);
  product ← checked 256 (p1 * IN_BAND_DRIFT_BPS);
  rounded ← checked 256 (ceil_quot product 100000000);
  checked 128 rounded.

Definition tip_from_legacy_gas_price (gas_price base_fee : Z) : option Z :=
  checked 256 (gas_price - base_fee).

Definition market_tip (max_priority_fee_per_gas legacy_gas_price : option Z)
    (latest_block_base_fee : Z) : option Z :=
  match max_priority_fee_per_gas with
  | Some tip => Some tip
  | None => gp ← legacy_gas_price; tip_from_legacy_gas_price gp latest_block_base_fee
  end.

Definition fallback_priority_fee (base_fee priority_fee_divisor : Z) : Z :=
  Z.max (ceil_quot base_fee priority_fee_divisor) 1.

(** ** Fee history *)

Definition parse_quantity (value : string) : result GasPriceError Z :=
  match str_strip_prefix "0x" value with
  | None => Err InvalidUpstreamResponse
  | Some EmptyString => Err InvalidUpstreamResponse
  | Some digits => ok_or (from_str_radix16 128 digits) InvalidUpstreamResponse
  end.

Record FeeHistory : Type := {
  fh_base_fee_per_gas : list string;
  fh_reward : option (list (list string));
  (** the outcome of [mean_gas_used_ratio_bps] *)
  fh_mean_gas_used_ratio_bps : option Z }.

Definition fh_rewards (h : FeeHistory) : option (list (list Z)) :=
  rows ← fh_reward h;
  rows ← mapM (mapM (λ v, ok (parse_quantity v))) rows;
  match rows with [] => None | _ => Some rows end.

Definition fh_window (h : FeeHistory) : option TipWindow :=
  r ← fh_rewards h;
  Some {| rewards := r; gas_used_ratio_bps := fh_mean_gas_used_ratio_bps h |}.

Definition next_block_base_fee (h : FeeHistory) : result GasPriceError Z :=
  v ← ok_or (last (fh_base_fee_per_gas h)) InvalidUpstreamResponse;
  parse_quantity v.

Definition latest_block_base_fee (h : FeeHistory) : result GasPriceError Z :=
  let entries := fh_base_fee_per_gas h in
  let second_to_last :=
    if decide (2 ≤ length entries)%nat then entries !! (length entries - 2)%nat else None in
  v ← ok_or (match second_to_last with Some v => Some v | None => last entries end)
        InvalidUpstreamResponse;
  parse_quantity v.

Definition price_from_fee_history (h : FeeHistory) (priority_fee : Z) :
    result GasPriceError NetworkGasPrice :=
  base ← next_block_base_fee h;
  tips ← ok_or (resolve (fh_window h) priority_fee) GasArithmeticOverflow;
  Ok {| np_base_fee_per_gas := base; np_max_priority_fee_per_gas := priority_fee;
        np_tier_tips := tips |}.

Definition quote_market_tip (h : FeeHistory)
    (max_priority_fee_per_gas legacy_gas_price : option Z) (priority_fee_divisor : Z) :
    result GasPriceError Z :=
  latest ← latest_block_base_fee h;
  match (tip ← market_tip max_priority_fee_per_gas legacy_gas_price latest; checked 128 tip) with
  | Some tip => Ok tip
  | None =>
      next ← next_block_base_fee h;
      Ok (fallback_priority_fee next priority_fee_divisor)
  end.

Definition legacy_price_from_result (v : Value) : result GasPriceError NetworkGasPrice :=
  s ← ok_or (as_str v) InvalidUpstreamResponse;
  value ← parse_quantity s;
  tips ← ok_or (scaled value) GasArithmeticOverflow;
  Ok {| np_base_fee_per_gas := 0; np_max_priority_fee_per_gas := value; np_tier_tips := tips |}.

(** ** The median *)

#[local] Instance Zle_total : Total Z.le.
Proof. intros x y. lia. Qed.

Lemma merge_sort_sorted (l : list Z) : StronglySorted Z.le (merge_sort Z.le l).
Proof. apply StronglySorted_merge_sort; apply _. Qed.

Lemma merge_sort_perm_eq (l k : list Z) :
  l ≡ₚ k → merge_sort Z.le l = merge_sort Z.le k.
Proof.
  intros Hp. apply (StronglySorted_unique Z.le); [apply merge_sort_sorted..|].
  by rewrite !merge_sort_Permutation.
Qed.

Lemma median_perm l k : l ≡ₚ k → median l = median k.
Proof.
  intros Hp. unfold median. by rewrite (merge_sort_perm_eq l k Hp).
Qed.

Lemma sorted_le (l : list Z) i j x y :
  StronglySorted Z.le l → (i ≤ j)%nat → l !! i = Some x → l !! j = Some y → x ≤ y.
Proof.
  intros Hs. revert i j. induction Hs as [|a l Hs IH Ha]; intros i j Hij Hi Hj; [done|].
  destruct i as [|i], j as [|j]; simplify_eq/=; try lia; [|eapply IH; [|done..]; lia].
  rewrite Forall_forall in Ha. apply Ha. by eapply list_elem_of_lookup_2.
Qed.

(** How many values satisfy a test. *)
Definition count (P : Z → bool) (l : list Z) : nat := length (List.filter P l).

Lemma count_perm P l k : l ≡ₚ k → count P l = count P k.
Proof. unfold count. induction 1; simpl; repeat case_match; simpl; congruence. Qed.

Lemma count_cons P a l : count P (a :: l) = ((if P a then 1 else 0) + count P l)%nat.
Proof. unfold count. simpl. by destruct (P a). Qed.

Lemma count_app P l k : count P (l ++ k) = (count P l + count P k)%nat.
Proof. unfold count. by rewrite List.filter_app, length_app. Qed.

Lemma count_le_length P l : (count P l ≤ length l)%nat.
Proof. apply List.filter_length_le. Qed.

Lemma count_all P l : (∀ x, x ∈ l → P x = true) → count P l = length l.
Proof.
  induction l as [|a l IH]; intros H; [done|]. rewrite count_cons, (H a) by set_solver.
  simpl. f_equal. apply IH. set_solver.
Qed.

Lemma count_disjoint P Q l :
  (∀ x, P x = true → Q x = false) → (count P l + count Q l ≤ length l)%nat.
Proof.
  intros Hd. induction l as [|a l IH]; [done|]. rewrite !count_cons. simpl.
  specialize (Hd a). destruct (P a), (Q a); try lia; naive_solver.
Qed.

(** In a sorted list, the value at [i] bounds from below everything at or
    after it, and from above everything up to it. *)
Lemma sorted_count_below l i x c :
  StronglySorted Z.le l → l !! i = Some x → x < c →
  (i < count (λ y, bool_decide (y < c)%Z) l)%nat.
Proof.
  intros Hs Hi Hx. rewrite <-(take_drop (S i) l), count_app.
  rewrite (count_all _ (take (S i) l)).
  - rewrite length_take. apply lookup_lt_Some in Hi. lia.
  - intros y (j & Hj)%list_elem_of_lookup. rewrite lookup_take_Some in Hj.
    destruct Hj as [Hj ?]. apply bool_decide_eq_true.
    pose proof (sorted_le l j i y x Hs ltac:(lia) Hj Hi). lia.
Qed.

Lemma sorted_count_above l i x c :
  StronglySorted Z.le l → l !! i = Some x → c < x →
  (length l - i ≤ count (λ y, bool_decide (c < y)%Z) l)%nat.
Proof.
  intros Hs Hi Hx. rewrite <-(take_drop i l) at 2. rewrite count_app.
  rewrite (count_all _ (drop i l)); [rewrite length_drop; lia|].
  intros y (j & Hj)%list_elem_of_lookup. rewrite lookup_drop in Hj.
  apply bool_decide_eq_true.
  pose proof (sorted_le l i (i + j)%nat x y Hs ltac:(lia) Hi Hj). lia.
Qed.

(** The sorted values at the middle lie where a strict majority lies. *)
Lemma sorted_majority l lo hi i :
  StronglySorted Z.le l →
  (length l < 2 * count (λ x, bool_decide (lo ≤ x ≤ hi)%Z) l)%nat →
  (length l - 1 ≤ 2 * i + 1)%nat → (2 * i ≤ length l)%nat → (i < length l)%nat →
  lo ≤ l !!! i ≤ hi.
Proof.
  intros Hs Hm H1 H2 Hi.
  destruct (lookup_lt_is_Some_2 l i Hi) as [x Hx].
  rewrite (list_lookup_total_correct _ _ _ Hx). split; apply Z.le_ngt; intros Hc.
  - pose proof (sorted_count_below l i x lo Hs Hx Hc).
    pose proof (count_disjoint (λ y, bool_decide (y < lo)) (λ x, bool_decide (lo ≤ x ≤ hi)) l
      ltac:(intros ? ?%bool_decide_eq_true; apply bool_decide_eq_false; lia)). lia.
  - pose proof (sorted_count_above l i x hi Hs Hx Hc).
    pose proof (count_disjoint (λ y, bool_decide (hi < y)) (λ x, bool_decide (lo ≤ x ≤ hi)) l
      ltac:(intros ? ?%bool_decide_eq_true; apply bool_decide_eq_false; lia)). lia.
Qed.

Lemma median_majority l lo hi :
  (length l < 2 * count (λ x, bool_decide (lo ≤ x ≤ hi)%Z) l)%nat →
  lo ≤ median l ≤ hi.
Proof.
  intros Hm. pose proof (merge_sort_Permutation Z.le l) as Hp. symmetry in Hp.
  rewrite (count_perm _ _ _ Hp), (Permutation_length Hp) in Hm.
  unfold median. pose proof (merge_sort_sorted l) as Hs.
  set (s := merge_sort Z.le l) in *.
  pose proof (count_le_length (λ x, bool_decide (lo ≤ x ≤ hi)) s).
  pose proof (Nat.div_mod_eq (length s) 2) as Hdm.
  destruct (Nat.odd (length s)) eqn:Hodd.
  - apply Nat.odd_spec in Hodd as [k Hk]. rewrite Hk in Hdm |- *.
    replace ((2 * k + 1) / 2)%nat with k by (apply (Nat.div_unique _ 2 k 1); lia). apply sorted_majority; lia || done.
  - rewrite <-Nat.negb_even in Hodd. apply negb_false_iff, Nat.even_spec in Hodd as [k Hk].
    assert ((length s / 2)%nat = k) as -> by (rewrite Hk, Nat.mul_comm; by apply Nat.div_mul).
    pose proof (sorted_majority s lo hi (k - 1) Hs Hm ltac:(lia) ltac:(lia) ltac:(lia)).
    pose proof (sorted_majority s lo hi k Hs Hm ltac:(lia) ltac:(lia) ltac:(lia)).
    assert (s !!! (k - 1)%nat ≤ s !!! k).
    { eapply sorted_le; [done| |apply list_lookup_lookup_total_lt; lia..]. lia. }
    pose proof (ceil_quot_spec (s !!! k - s !!! (k - 1)%nat) 2 ltac:(lia)). lia.
Qed.

Lemma median_in_range l lo hi :
  l ≠ [] → Forall (λ x, lo ≤ x ≤ hi) l → lo ≤ median l ≤ hi.
Proof.
  intros Hne Hl. apply median_majority. rewrite count_all; [by destruct l; simpl; [|lia]|].
  intros x Hx. rewrite Forall_forall in Hl. by apply bool_decide_eq_true, Hl.
Qed.

(** ** The tier tips *)

Lemma scaled_market_tip_eq tier tip t :
  scaled_market_tip tier tip = Some t → t = ceil_quot (tip * legacy_tip_bps tier) 10000.
Proof. unfold scaled_market_tip. intros H. by inv_checked. Qed.

Lemma scaled_market_tip_ge tier tip t :
  0 ≤ tip → scaled_market_tip tier tip = Some t → tip ≤ t.
Proof.
  intros Htip ->%scaled_market_tip_eq.
  pose proof (ceil_quot_spec (tip * legacy_tip_bps tier) 10000 ltac:(lia)).
  destruct tier; simpl in *; lia.
Qed.

Lemma scaled_market_tip_mono t1 t2 tip s1 s2 :
  0 ≤ tip → tier_index t1 ≤ tier_index t2 →
  scaled_market_tip t1 tip = Some s1 → scaled_market_tip t2 tip = Some s2 → s1 ≤ s2.
Proof.
  intros Htip Ht ->%scaled_market_tip_eq ->%scaled_market_tip_eq.
  apply ceil_quot_mono; [lia|]. destruct t1, t2; simpl in *; lia.
Qed.

(** The order every reading keeps: each faster tier bids at least as much. *)
Definition tips_ordered (t : TierTips) : Prop :=
  0 ≤ tip_floor t ∧ tip_floor t ≤ tip_slow t ∧ tip_slow t ≤ tip_standard t ∧
  tip_standard t ≤ tip_fast t ∧ tip_fast t < 2 ^ 128.

Definition window_wf (w : TipWindow) : Prop :=
  Forall (Forall (λ r, fits 128 r)) (rewards w).

(** The rows a window's columns are read from. *)
Definition full_rows (w : TipWindow) : list (list Z) :=
  filter (λ row : list Z, length row = length TIP_REWARD_PERCENTILES) (rewards w).
Definition column (w : TipWindow) (c : nat) : Z :=
  median (map (λ row : list Z, row !!! c) (full_rows w)).

Lemma column_fits w c :
  window_wf w → full_rows w ≠ [] → (c < 3)%nat → fits 128 (column w c).
Proof.
  intros Hwf Hne Hc. unfold fits.
  enough (0 ≤ column w c ≤ 2 ^ 128 - 1) by lia.
  apply median_in_range; [by destruct (full_rows w)|].
  apply Forall_forall. intros x Hx. apply list_elem_of_fmap in Hx as (row & -> & Hrow).
  unfold full_rows in Hrow. apply list_elem_of_filter in Hrow as [Hlen Hrow].
  unfold window_wf in Hwf. rewrite Forall_forall in Hwf. specialize (Hwf _ Hrow).
  rewrite Forall_lookup in Hwf.
  enough (fits 128 (row !!! c)) by (unfold fits in *; lia).
  apply (Hwf c), list_lookup_lookup_total_lt. rewrite Hlen. done.
Qed.

Lemma scaled_ordered tip t : 0 ≤ tip → scaled tip = Some t → tips_ordered t.
Proof.
  unfold scaled. intros Htip H. inv_checked. unfold tips_ordered; simpl.
  assert (fits 128 x1) by (unfold scaled_market_tip in *; by inv_checked).
  pose proof (scaled_market_tip_ge Slow tip x ltac:(done) ltac:(done)).
  pose proof (scaled_market_tip_mono Slow Standard tip x x0 Htip ltac:(done) ltac:(done) ltac:(done)).
  pose proof (scaled_market_tip_mono Standard Fast tip x0 x1 Htip ltac:(done) ltac:(done) ltac:(done)).
  unfold fits in *. lia.
Qed.

(** What [from_window] computes once the columns are read. *)
Definition read_columns (c0 c1 c2 least tip : Z) (quiet near : bool) : option TierTips :=
  let evidence := bool_decide (0 < c1) in
  let node := if negb evidence || bool_decide (tip ≤ c1) then Some tip else None in
  let rewarded := Z.max c0 least in
  let quiet_slow := match node with Some tip => Z.max tip least | None => rewarded end in
  let proven := if evidence then rewarded else quiet_slow in
  if quiet then
    s ← scaled_market_tip Standard quiet_slow;
    f ← scaled_market_tip Fast quiet_slow;
    let standard := Z.max (Z.min s c1) quiet_slow in
    Some {| tip_slow := quiet_slow; tip_standard := standard;
            tip_fast := Z.max (Z.min f c2) standard; tip_floor := Z.min quiet_slow proven |}
  else
    let slow := Z.max rewarded (default 0 node) in
    let standard := Z.max c1 slow in
    Some {| tip_slow := slow; tip_standard := standard; tip_fast := Z.max c2 standard;
            tip_floor := if near then Z.min proven quiet_slow else proven |}.

Definition ratio_below (w : TipWindow) (bound : Z) : bool :=
  match gas_used_ratio_bps w with Some r => bool_decide (r < bound) | None => false end.

(** Whether any block of the window paid any tip. *)
Definition least_tip (w : TipWindow) : Z :=
  if existsb (existsb (λ reward, bool_decide (0 < reward))) (full_rows w)
  then MIN_POSITIVE_TIP else 0.

Lemma from_window_eq w tip :
  from_window w tip =
  if decide (full_rows w = []) then None
  else read_columns (column w 0) (column w 1) (column w 2) (least_tip w) tip
         (ratio_below w UNCONGESTED_GAS_USED_RATIO_BPS)
         (ratio_below w NEAR_UNCONGESTED_GAS_USED_RATIO_BPS).
Proof.
  unfold from_window, column, least_tip, ratio_below, read_columns.
  fold (full_rows w). destruct (full_rows w) as [|row rows]; [done|].
  rewrite decide_False by done. cbv zeta. case_match; [|done].
  unfold mbind, option_bind. destruct (scaled_market_tip Standard _); [|done].
  by destruct (scaled_market_tip Fast _).
Qed.

Lemma read_columns_ordered c0 c1 c2 least tip quiet near t :
  fits 128 c0 → fits 128 c1 → fits 128 c2 → fits 128 least → fits 128 tip →
  read_columns c0 c1 c2 least tip quiet near = Some t → tips_ordered t.
Proof.
  unfold fits, read_columns, tips_ordered. intros H0 H1 H2 Hl Ht H.
  destruct quiet; inv_checked; simpl; repeat case_match; try case_bool_decide;
    simpl in *; repeat case_bool_decide; simplify_eq/=; lia.
Qed.

Lemma from_window_ordered w tip t :
  window_wf w → fits 128 tip → from_window w tip = Some t → tips_ordered t.
Proof.
  rewrite from_window_eq. intros Hwf Htip H. case_decide; [done|].
  eapply read_columns_ordered; [..|exact H];
    try (apply column_fits; [done|done|lia]); [|done].
  unfold least_tip, MIN_POSITIVE_TIP. by case_match.
Qed.

Lemma full_rows_perm w w' :
  rewards w ≡ₚ rewards w' → full_rows w ≡ₚ full_rows w'.
Proof. intros H. unfold full_rows. by rewrite H. Qed.

Lemma column_perm w w' c : rewards w ≡ₚ rewards w' → column w c = column w' c.
Proof. intros H. apply median_perm. by rewrite (full_rows_perm _ _ H). Qed.

Lemma existsb_perm {A} (f : A → bool) l k : l ≡ₚ k → existsb f l = existsb f k.
Proof.
  intros H. apply eq_true_iff_eq. rewrite !existsb_exists.
  setoid_rewrite <-list_elem_of_In. by setoid_rewrite H.
Qed.

Lemma length_filter_map {A} (f : A → Z) (P : Z → bool) l :
  count P (map f l) = length (List.filter (λ x, P (f x)) l).
Proof. unfold count. induction l as [|a l IH]; [done|]. simpl. destruct (P (f a)); simpl; lia. Qed.

Lemma length_filter_le {A} (P Q : A → bool) l :
  (∀ x, P x = true → Q x = true) →
  (length (List.filter P l) ≤ length (List.filter Q l))%nat.
Proof.
  intros H. induction l as [|a l IH]; [done|]. simpl. specialize (H a).
  destruct (P a), (Q a); simpl; try lia; naive_solver.
Qed.

(** How many of the blocks a window is read from have the reward row [r]. *)
Definition rows_equal_to (r : list Z) (w : TipWindow) : nat :=
  length (List.filter (λ row, bool_decide (row = r)) (full_rows w)).

Lemma column_of_majority w r c :
  (length (full_rows w) < 2 * rows_equal_to r w)%nat → column w c = r !!! c.
Proof.
  intros Hm. enough (r !!! c ≤ column w c ≤ r !!! c) by lia.
  apply median_majority. rewrite length_filter_map, length_map.
  eapply Nat.lt_le_trans; [exact Hm|]. apply Nat.mul_le_mono_l, length_filter_le.
  intros row ->%bool_decide_eq_true. apply bool_decide_eq_true. lia.
Qed.

(** ** The claims *)

(** Whatever the fee history says, the tips the quote and the executor
    share are ordered: a faster tier never bids less than a slower one, the
    floor a payment may be shaved to is never above [slow], and every one of
    them is a 128-bit amount. *)
Theorem tier_tips_ordered window tip t :
  (∀ w, window = Some w → window_wf w) → fits 128 tip →
  resolve window tip = Some t → tips_ordered t.
Proof.
  unfold resolve. intros Hwf Htip H.
  destruct (w ← window; from_window w tip) eqn:E.
  - inv_checked. eapply from_window_ordered; eauto.
  - apply (scaled_ordered tip); [by apply (fits_nonneg 128)|done].
Qed.

Definition sample_window : TipWindow :=
  {| rewards := [[1; 2000000; 30000000]; [5; 7000000; 9000000]; []; [0; 3000000; 8000000]];
     gas_used_ratio_bps := Some 5000 |}.

Lemma tier_tips_ordered_witness :
  tips_ordered {| tip_slow := 2500000; tip_standard := 3000000; tip_fast := 9000000; tip_floor := 1000000 |}.
Proof.
  apply (tier_tips_ordered (Some sample_window) 2500000); [|by split|by vm_compute].
  intros w [= <-]. unfold window_wf. simpl. repeat constructor; done.
Defined.

(** The node's own tip is a floor exactly where the blocks do not
    contradict it.  Where the median block paid at least the node's answer, or
    paid nothing, every tier signs at least that answer (a chain's enforced
    minimum is cleared); where it is above what the median block paid, it has
    no influence at all: any two such answers give the same tips. *)
Theorem node_tip_floor_unless_contradicted w tip tip' t :
  from_window w tip = Some t →
  (column w 1 ≤ 0 ∨ tip ≤ column w 1 → tip ≤ tip_slow t) ∧
  (0 < column w 1 < tip → column w 1 < tip' → from_window w tip' = Some t).
Proof.
  rewrite !from_window_eq. case_decide as Hrows; [done|]. intros H. split.
  - intros Hn. unfold read_columns in H. cbv zeta in H.
    replace (negb (bool_decide (0 < column w 1)) || bool_decide (tip ≤ column w 1)) with true in H
      by (symmetry; apply orb_true_iff; rewrite negb_true_iff, bool_decide_eq_false, bool_decide_eq_true; lia).
    destruct (ratio_below w UNCONGESTED_GAS_USED_RATIO_BPS); inv_checked; simpl; lia.
  - intros Hc Ht. rewrite <-H. unfold read_columns.
    rewrite !(bool_decide_eq_false_2 (_ ≤ column w 1)) by lia.
    by rewrite (bool_decide_eq_true_2 (0 < column w 1)) by lia.
Qed.

Lemma node_tip_floor_unless_contradicted_witness :
  let t := {| tip_slow := 1000000; tip_standard := 3000000; tip_fast := 9000000; tip_floor := 1000000 |} in
  (column sample_window 1 ≤ 0 ∨ 3000001 ≤ column sample_window 1 → 3000001 ≤ tip_slow t) ∧
  (0 < column sample_window 1 < 3000001 → column sample_window 1 < 5000000000 →
   from_window sample_window 5000000000 = Some t).
Proof. apply node_tip_floor_unless_contradicted. by vm_compute. Defined.

(** One odd block moves nothing.  The order of the blocks is irrelevant;
    and when a strict majority of a window's blocks show the same rewards,
    paying some tip, the tips are those rewards' own, whatever the other
    blocks bid. *)
Theorem tips_follow_the_majority_of_blocks w tip :
  (∀ w', rewards w ≡ₚ rewards w' → gas_used_ratio_bps w = gas_used_ratio_bps w' →
     from_window w tip = from_window w' tip) ∧
  (∀ r, length r = length TIP_REWARD_PERCENTILES → Exists (λ x, 0 < x) r →
     (length (full_rows w) < 2 * rows_equal_to r w)%nat →
     from_window w tip =
     from_window {| rewards := [r]; gas_used_ratio_bps := gas_used_ratio_bps w |} tip).
Proof.
  split.
  - intros w' Hp Hr. rewrite !from_window_eq.
    rewrite (column_perm w w' 0 Hp), (column_perm w w' 1 Hp), (column_perm w w' 2 Hp).
    apply full_rows_perm in Hp. unfold least_tip, ratio_below.
    rewrite Hr, (existsb_perm _ _ _ Hp).
    repeat case_decide; try done; exfalso.
    + rewrite H in Hp. by apply Permutation_nil_l in Hp.
    + rewrite H0 in Hp. by apply Permutation_nil_r in Hp.
  - intros r Hlen Hpos Hm. set (w1 := {| rewards := [r]; gas_used_ratio_bps := _ |}).
    assert (full_rows w1 = [r]) as H1.
    { unfold full_rows. simpl. by rewrite filter_cons_True. }
    assert (length (full_rows w1) < 2 * rows_equal_to r w1)%nat as Hm1.
    { unfold rows_equal_to. rewrite H1. simpl. case_bool_decide; [simpl; lia|done]. }
    assert (existsb (λ reward, bool_decide (0 < reward)) r = true) as Hr.
    { apply existsb_exists. apply Exists_exists in Hpos as (x & Hx & ?).
      exists x. split; [by apply list_elem_of_In|by apply bool_decide_eq_true]. }
    assert (r ∈ full_rows w) as Hin.
    { unfold rows_equal_to in Hm.
      destruct (List.filter _ (full_rows w)) as [|y k] eqn:E; simpl in Hm; [lia|].
      assert (In y (y :: k)) as Hy by by left. rewrite <-E in Hy.
      apply List.filter_In in Hy as [Hy ->%bool_decide_eq_true].
      by apply list_elem_of_In. }
    rewrite !from_window_eq. rewrite !(column_of_majority w r) by done.
    rewrite !(column_of_majority w1 r) by done.
    rewrite (decide_False (P:=full_rows w = [])) by (intros E; rewrite E in Hin; set_solver).
    rewrite (decide_False (P:=full_rows w1 = [])) by by rewrite H1.
    assert (least_tip w = least_tip w1) as ->; [|done].
    unfold least_tip. rewrite H1. simpl. rewrite Hr.
    rewrite (proj2 (existsb_exists _ (full_rows w))); [done|].
    exists r. split; [by apply list_elem_of_In|done].
Qed.

Definition outlier_window : TipWindow :=
  {| rewards := [[2000000; 3000000; 4000000]; [900; 800; 70000000000]; [2000000; 3000000; 4000000];
                 [2000000; 3000000; 4000000]; [0; 0; 0]];
     gas_used_ratio_bps := Some 5000 |}.

Lemma tips_follow_the_majority_of_blocks_witness :
  from_window outlier_window 1000000 =
  from_window {| rewards := [[2000000; 3000000; 4000000]]; gas_used_ratio_bps := Some 5000 |} 1000000.
Proof.
  apply (tips_follow_the_majority_of_blocks outlier_window 1000000).
  - done.
  - by constructor.
  - vm_compute. lia.
Defined.

(** The pair a tier is signed with, in closed form. *)
Lemma tier_outer_fee_Some tier base tips o :
  tier_outer_fee tier base tips = Some o →
  outer_max_priority_fee o = tips_of tips tier ∧
  outer_max_fee o = base * base_fee_bps tier / 10000 + tips_of tips tier.
Proof. unfold tier_outer_fee. intros H. inv_checked. done. Qed.

Lemma base_fee_bps_covers tier base : 0 ≤ base → base ≤ base * base_fee_bps tier / 10000.
Proof. intros Hb. apply Z.div_le_lower_bound; [lia|]. destruct tier; simpl; lia. Qed.

Lemma delivers_full_tip o base :
  base + outer_max_priority_fee o ≤ outer_max_fee o → 0 ≤ outer_max_priority_fee o →
  delivers_full_tip_at o base = true.
Proof.
  intros H Ht. apply bool_decide_eq_true. unfold effective_tip_at, saturating_sub.
  case_decide; lia.
Qed.

Lemma tips_of_nonneg tips tier : tips_ordered tips → 0 ≤ tips_of tips tier.
Proof. unfold tips_ordered. destruct tier; simpl; lia. Qed.

Lemma tips_of_mono tips t1 t2 :
  tips_ordered tips → tier_index t1 ≤ tier_index t2 → tips_of tips t1 ≤ tips_of tips t2.
Proof. unfold tips_ordered. destruct t1, t2; simpl; lia. Qed.

Lemma base_fee_bps_mono t1 t2 :
  tier_index t1 ≤ tier_index t2 → base_fee_bps t1 ≤ base_fee_bps t2.
Proof. destruct t1, t2; simpl; lia. Qed.

Definition price_of (p : GasPriceTiers) (tier : SubmissionTier) : GasPrice :=
  match tier with Slow => price_slow p | Standard => price_standard p | Fast => price_fast p end.

Lemma tiers_Ok np p tier :
  tiers np = Ok p →
  tier_price tier (np_base_fee_per_gas np) (np_tier_tips np) (np_max_priority_fee_per_gas np)
  = Some (price_of p tier).
Proof. unfold tiers. intros H. inv_checked. by destruct tier. Qed.

(** What is quoted is what is signed.  The reported cap and tip of every
    tier are exactly the pair [tier_outer_fee] gives the executor; the pair
    always delivers its whole tip at the base fee it was read with; and the
    cap, the tip and the reimbursement basis never decrease with speed. *)
Theorem quoted_price_is_executed_price np p :
  0 ≤ np_base_fee_per_gas np → 0 ≤ np_max_priority_fee_per_gas np →
  tips_ordered (np_tier_tips np) → tiers np = Ok p →
  (∀ tier, ∃ o, tier_outer_fee tier (np_base_fee_per_gas np) (np_tier_tips np) = Some o ∧
     gp_max_fee_per_gas (price_of p tier) = outer_max_fee o ∧
     gp_max_priority_fee_per_gas (price_of p tier) = outer_max_priority_fee o ∧
     outer_max_priority_fee o = tips_of (np_tier_tips np) tier ∧
     delivers_full_tip_at o (np_base_fee_per_gas np) = true ∧
     gp_relayer_fee_per_gas (price_of p tier) =
       Z.max 0 (gp_max_fee_per_gas (price_of p tier) - gp_network_fee_per_gas (price_of p tier))) ∧
  (∀ t1 t2, tier_index t1 ≤ tier_index t2 →
     gp_max_fee_per_gas (price_of p t1) ≤ gp_max_fee_per_gas (price_of p t2) ∧
     gp_max_priority_fee_per_gas (price_of p t1) ≤ gp_max_priority_fee_per_gas (price_of p t2) ∧
     gp_network_fee_per_gas (price_of p t1) ≤ gp_network_fee_per_gas (price_of p t2)).
Proof.
  intros Hb Ht Hord Hp. split.
  - intros tier. pose proof (tiers_Ok np p tier Hp) as Hprice. unfold tier_price in Hprice.
    inv_checked. destruct (price_of p tier); simplify_eq/=.
    match goal with H : tier_outer_fee _ _ _ = Some ?o |- _ =>
      exists o; pose proof (tier_outer_fee_Some _ _ _ _ H) as [H1 H2] end.
    repeat split; try done. apply delivers_full_tip; [|rewrite H1; by apply tips_of_nonneg].
    rewrite H1, H2. pose proof (base_fee_bps_covers tier _ Hb). lia.
  - intros t1 t2 Hle.
    pose proof (tiers_Ok np p t1 Hp) as H1. pose proof (tiers_Ok np p t2 Hp) as H2.
    unfold tier_price, tier_network_fee in H1, H2. inv_checked.
    destruct (price_of p t1), (price_of p t2); simplify_eq/=.
    repeat match goal with H : tier_outer_fee _ _ _ = Some _ |- _ =>
      apply tier_outer_fee_Some in H as [-> ->] end.
    pose proof (tips_of_mono _ t1 t2 Hord Hle). pose proof (base_fee_bps_mono t1 t2 Hle).
    repeat split; [|done|].
    + apply Z.add_le_mono; [|done]. apply Z.div_le_mono; nia.
    + apply Z.add_le_mono; [|by eapply (scaled_market_tip_mono t1 t2)].
      apply ceil_quot_mono; [lia|]. destruct t1, t2; vm_compute in Hle; try done;
        apply Z.mul_le_mono_nonneg_l; vm_compute; done.
Qed.

Definition sample_market : NetworkGasPrice :=
  {| np_base_fee_per_gas := 7; np_max_priority_fee_per_gas := 3;
     np_tier_tips := {| tip_slow := 3; tip_standard := 4; tip_fast := 6; tip_floor := 3 |} |}.

Lemma quoted_price_is_executed_price_witness :
  ∃ p, tiers sample_market = Ok p ∧
    gp_max_fee_per_gas (price_of p Slow) ≤ gp_max_fee_per_gas (price_of p Fast).
Proof.
  eexists. split; [vm_compute; reflexivity|].
  refine (proj1 (proj2 (quoted_price_is_executed_price sample_market _ _ _ _ _) Slow Fast _));
    by vm_compute.
Defined.

(** The quote's market tip does not depend on which of the two questions
    the node answers.  [eth_maxPriorityFeePerGas] is taken as it is, zero
    included; a node that only answers [eth_gasPrice], built as the head
    block's base fee plus the tip, yields the same tip; and a node that
    answers neither, or a gas price below that base fee, yields a positive
    last resort derived from the next block's base fee. *)
Theorem quote_market_tip_sources h latest next tip divisor :
  latest_block_base_fee h = Ok latest → next_block_base_fee h = Ok next →
  0 ≤ latest → fits 128 (latest + tip) → 0 ≤ tip →
  (∀ legacy, quote_market_tip h (Some tip) legacy divisor = Ok tip) ∧
  quote_market_tip h None (Some (latest + tip)) divisor = Ok tip ∧
  (∀ legacy, (∀ p, legacy = Some p → p < latest) →
     quote_market_tip h None legacy divisor = Ok (fallback_priority_fee next divisor) ∧
     1 ≤ fallback_priority_fee next divisor).
Proof.
  intros Hl Hn Hpos Hfit Htip.
  assert (fits 128 tip) as Ht by (unfold fits in *; lia).
  assert (fits 256 tip) as Ht' by (eapply fits_mono; [|done]; lia).
  unfold quote_market_tip. rewrite Hl. unfold mbind, result_mbind. split; [|split].
  - intros legacy. simpl. by rewrite (checked_fits _ _ Ht).
  - simpl. unfold tip_from_legacy_gas_price. replace (latest + tip - latest) with tip by lia.
    rewrite (checked_fits _ _ Ht'). simpl. by rewrite (checked_fits _ _ Ht).
  - intros legacy Hlow. split; [|unfold fallback_priority_fee; lia].
    destruct legacy as [p|]; simpl; [|by rewrite Hn].
    unfold tip_from_legacy_gas_price.
    destruct (checked 256 (p - latest)) eqn:E; [|by simpl; rewrite Hn].
    apply checked_Some in E as [-> E]. specialize (Hlow p eq_refl). unfold fits in E. lia.
Qed.

Definition sample_history : FeeHistory :=
  {| fh_base_fee_per_gas := ["0x64"; "0x6e"]; fh_reward := None; fh_mean_gas_used_ratio_bps := None |}.

Lemma quote_market_tip_sources_witness :
  quote_market_tip sample_history None (Some (100 + 30)) 200 = Ok 30.
Proof.
  refine (proj1 (proj2 (quote_market_tip_sources sample_history 100 110 30 200 _ _ _ _ _)));
    try done; by vm_compute.
Defined.

(** A tip window spans at least a minute of the chain's blocks, unless the
    256 blocks every endpoint answers do not; it is never below 20 blocks and
    never longer than it needs to be. *)
Theorem tip_window_spans_a_minute chain_id :
  let interval := Z.max (default DEFAULT_BLOCK_INTERVAL_MS (block_interval_ms chain_id)) 1 in
  let n := tip_window_blocks chain_id in
  TIP_WINDOW_BLOCKS ≤ n ≤ TIP_WINDOW_MAX_BLOCKS ∧
  (TIP_WINDOW_MS ≤ n * interval ∨ n = TIP_WINDOW_MAX_BLOCKS) ∧
  (n = TIP_WINDOW_BLOCKS ∨ (n - 1) * interval < TIP_WINDOW_MS).
Proof.
  intros interval n. assert (0 < interval) as Hi by lia.
  subst n. unfold tip_window_blocks, clamp. fold interval.
  pose proof (ceil_quot_spec TIP_WINDOW_MS interval Hi) as Hq.
  set (q := ceil_quot TIP_WINDOW_MS interval) in *. clearbody q. clearbody interval.
  unfold TIP_WINDOW_BLOCKS, TIP_WINDOW_MAX_BLOCKS, TIP_WINDOW_MS in *. nia.
Qed.

Lemma in_band_fee_eq cap markup_bps price :
  in_band_fee_per_gas cap markup_bps = Some price →
  price = ceil_quot (cap * markup_bps) 10000.
Proof.
  unfold in_band_fee_per_gas, IN_BAND_DRIFT_BPS. intros H. inv_checked.
  set (x := cap * markup_bps) in *.
  pose proof (ceil_quot_spec x 10000 ltac:(lia)).
  pose proof (ceil_quot_spec (x * 10000) 100000000 ltac:(lia)). lia.
Qed.

(** What a client pays per unit of settlement gas is the least price that
    funds the executor's whole requirement at the tier's own cap, whatever the
    gas. *)
Theorem in_band_fee_is_least_sufficient cap markup_bps price :
  0 ≤ cap → 0 ≤ markup_bps → in_band_fee_per_gas cap markup_bps = Some price →
  (∀ gas, 0 ≤ gas → ceil_quot (markup_bps * gas * cap) 10000 ≤ price * gas) ∧
  (∀ price', (∀ gas, 0 ≤ gas → ceil_quot (markup_bps * gas * cap) 10000 ≤ price' * gas) →
     price ≤ price').
Proof.
  intros Hc Hm ->%in_band_fee_eq. set (x := cap * markup_bps) in *.
  pose proof (ceil_quot_spec x 10000 ltac:(lia)) as Hq. split.
  - intros gas Hg. apply ceil_quot_le_iff; [lia|]. subst x. nia.
  - intros p' Hp. specialize (Hp 10000 ltac:(lia)).
    rewrite ceil_quot_le_iff in Hp by lia. apply ceil_quot_le_iff; [lia|]. subst x. nia.
Qed.

Lemma in_band_fee_is_least_sufficient_witness :
  ceil_quot (16000 * 210000 * 45000000007) 10000 ≤ 72000000012 * 210000.
Proof.
  refine (proj1 (in_band_fee_is_least_sufficient 45000000007 16000 72000000012 _ _ _) 210000 _);
    try lia; by vm_compute.
Defined.

(** [u128::from_str_radix] takes a sign, so a signed quantity is read as one. *)
Lemma parse_quantity_accepts_a_sign : parse_quantity "0x+5" = Ok 5.
Proof. by vm_compute. Qed.
