(* ===== verification/Abi.v ===== *)
(** * Abi: ERC-4337 packing and the EntryPoint hash
    ([vela-relay-core/src/abi.rs])

    An [Address] is its 160-bit value and a [U256] its value; [B256] and
    [Bytes] stay byte lists.  [alloy]'s text parsers and its ABI encoder are
    the class [Alloy]. *)

From S2P Require Export Task Pace.
#[local] Open Scope string_scope.
#[local] Open Scope Z_scope.

Class Alloy `{Hex} := {
  (** [Address::from_str] *)
  address_from_str : string → option Z;
  (** [U256::from_str_radix(_, 16)] *)
  u256_from_str_radix16 : string → option Z;
  (** [SolValue::abi_encode] of a tuple of static 32-byte values *)
  abi_encode_words : list (list byte) → list byte;
  (** [Display for Address]: the EIP-55 checksum casing *)
  address_to_string : Z → string;
  address_from_str_range s a : address_from_str s = Some a → fits 160 a;
  address_from_str_hex s bs :
    hex_decode s = Some bs → length bs = 20%nat →
    address_from_str ("0x" +:+ s) = Some (be_value bs);
  u256_from_str_radix16_range s v : u256_from_str_radix16 s = Some v → fits 256 v;
  u256_from_str_radix16_digits s v :
    s ≠ EmptyString → hex_value 0 s = Some v → fits 256 v →
    u256_from_str_radix16 s = Some v;
  abi_encode_words_concat ws : abi_encode_words ws = concat ws;
  address_to_string_case a :
    fits 160 a → to_ascii_lowercase (address_to_string a) = "0x" +:+ hex_encode (be_bytes 20 a);
}.

(** A reference instance. *)
Definition ref_alloy : @Alloy ref_hex.
Proof.
  refine (@Build_Alloy ref_hex
    (λ s, h ← str_strip_prefix "0x" s; bs ← ref_hex_decode h;
          if decide (length bs = 20%nat) then Some (be_value bs) else None)
    (λ s, if decide (s = EmptyString) then None else radix16_digits 256 0 s)
    (λ ws, concat ws) (λ a, "0x" +:+ ref_hex_encode (be_bytes 20 a)) _ _ _ _ _ _).
  - intros s a H. apply bind_Some in H as (h & _ & H). apply bind_Some in H as (bs & _ & H).
    case_decide as Hl; [|done]. injection H as <-. pose proof (be_value_range bs) as Hr.
    rewrite Hl in Hr. exact Hr.
  - intros s bs Hd Hl. simpl in Hd. rewrite str_strip_prefix_app. simpl. rewrite Hd. simpl.
    by rewrite decide_True.
  - intros s v H. case_decide; [done|].
    apply radix16_digits_fits in H; [done|]. split; [lia | apply Z.pow_pos_nonneg; lia].
  - intros s v Hs Hv Hf. rewrite decide_False by done. by apply radix16_digits_value.
  - done.
  - intros a _. rewrite to_ascii_lowercase_app. simpl. exact (f_equal (λ s, "0x" +:+ s) (@hex_encode_lower ref_hex (be_bytes 20 a))).
Defined.

Record PackedUserOperation : Type := {
  p_sender : Z; p_nonce : Z; p_initCode : list byte; p_callData : list byte;
  p_accountGasLimits : list byte; p_preVerificationGas : Z; p_gasFees : list byte;
  p_paymasterAndData : list byte; p_signature : list byte }.

Record PackedOperation : Type := {
  packed : PackedUserOperation;
  po_sender : Z;
  po_call_data : list byte;
  has_eip7702_authorization : bool;
  po_fee_token : option Z }.

(** The call encoders [alloy]'s [sol!] generates. *)
Class SolCalls := {
  encode_handle_ops : list PackedUserOperation → Z → list byte;
  encode_simulate_handle_op : Z → Z → PackedUserOperation → list byte;
}.

(** The pathUSD calls [alloy]'s [sol!] encodes, and the EntryPoint's selector. *)
Class TokenCalls := {
  encode_balance_of : Z → list byte;
  encode_transfer : Z → Z → list byte;
  get_nonce_selector : list byte;
}.

Definition handle_ops_calldata `{SolCalls} (operations : list PackedUserOperation) (beneficiary : Z) :
    list byte :=
  encode_handle_ops operations beneficiary.

Section Abi.
Context `{HA : Alloy} {HK : Keccak}.

Definition abi_parse_address (value : string) : result string Z :=
  ok_or (address_from_str value) "invalid address in UserOperation".

Definition abi_parse_bytes (value : string) : result string (list byte) :=
  value ← ok_or (str_strip_prefix "0x" value) "UserOperation bytes must be 0x-prefixed";
  if negb (Nat.even (String.length value))
  then Err "UserOperation bytes have an odd hex length"
  else ok_or (hex_decode value) "invalid hex bytes in UserOperation".

Definition abi_parse_u128 (value : string) : result string Z :=
  value ← ok_or (str_strip_prefix "0x" value) "UserOperation quantity must be 0x-prefixed";
  if decide (value = EmptyString ∨ 32 < String.length value)%nat
  then Err "UserOperation quantity does not fit uint128"
  else ok_or (from_str_radix16 128 value) "invalid uint128 quantity in UserOperation".

Definition abi_parse_u256 (value : string) : result string Z :=
  value ← ok_or (str_strip_prefix "0x" value) "UserOperation quantity must be 0x-prefixed";
  if decide (value = EmptyString ∨ 64 < String.length value)%nat
  then Err "UserOperation quantity does not fit uint256"
  else ok_or (u256_from_str_radix16 value) "invalid uint256 quantity in UserOperation".

Definition pack_init_code (op : UserOperationV0_7) : result string (list byte) :=
  match factory op, factory_data op with
  | None, None => Ok []
  | Some factory, fd =>
      a ← abi_parse_address factory;
      match fd with
      | Some fd => d ← abi_parse_bytes fd; Ok (be_bytes 20 a ++ d)%list
      | None => Ok (be_bytes 20 a)
      end
  | None, Some _ => Err "factoryData requires factory"
  end.

Definition pack_paymaster_and_data (op : UserOperationV0_7) : result string (list byte) :=
  match paymaster op with
  | None =>
      match paymaster_verification_gas_limit op, paymaster_post_op_gas_limit op,
            paymaster_data op with
      | None, None, None => Ok []
      | _, _, _ => Err "paymaster gas and data require paymaster"
      end
  | Some pm =>
      a ← abi_parse_address pm;
      vg ← ok_or (paymaster_verification_gas_limit op)
             "paymasterVerificationGasLimit is required";
      v ← abi_parse_u128 vg;
      pg ← ok_or (paymaster_post_op_gas_limit op) "paymasterPostOpGasLimit is required";
      p ← abi_parse_u128 pg;
      d ← match paymaster_data op with Some d => abi_parse_bytes d | None => Ok [] end;
      Ok (be_bytes 20 a ++ be_bytes 16 v ++ be_bytes 16 p ++ d)%list
  end.

(** [TryFrom<&UserOperationV0_7> for PackedOperation] *)
Definition pack_v0_7 (op : UserOperationV0_7) : result string PackedOperation :=
  se ← abi_parse_address (sender op);
  init_code ← pack_init_code op;
  cd ← abi_parse_bytes (call_data op);
  vg ← abi_parse_u128 (verification_gas_limit op);
  cg ← abi_parse_u128 (call_gas_limit op);
  mp ← abi_parse_u128 (max_priority_fee_per_gas op);
  mf ← abi_parse_u128 (max_fee_per_gas op);
  pd ← pack_paymaster_and_data op;
  no ← abi_parse_u256 (nonce op);
  pg ← abi_parse_u256 (pre_verification_gas op);
  si ← abi_parse_bytes (signature op);
  ft ← match fee_token op with
       | Some t => a ← abi_parse_address t; Ok (Some a)
       | None => Ok None
       end;
  Ok {| packed := {|
          p_sender := se; p_nonce := no; p_initCode := init_code; p_callData := cd;
          p_accountGasLimits := (be_bytes 16 vg ++ be_bytes 16 cg)%list;
          p_preVerificationGas := pg;
          p_gasFees := (be_bytes 16 mp ++ be_bytes 16 mf)%list;
          p_paymasterAndData := pd; p_signature := si |};
        po_sender := se; po_call_data := cd;
        has_eip7702_authorization :=
          match eip7702_auth op with Some _ => true | None => false end;
        po_fee_token := ft |}.

(** [TryFrom<&UserOperation> for PackedOperation] *)
Definition pack (op : UserOperation) : result string PackedOperation :=
  match op with
  | V0_7 op => pack_v0_7 op
  | V0_6 _ => Err "only EntryPoint v0.7 UserOperations are executable"
  end.

Definition user_operation_hash (operation : PackedOperation) (entry_point : Z)
    (chain_id : Z) : list byte :=
  let p := packed operation in
  let packed_hash := keccak256 (abi_encode_words
    [be_bytes 32 (p_sender p); be_bytes 32 (p_nonce p);
     keccak256 (p_initCode p); keccak256 (p_callData p);
     p_accountGasLimits p; be_bytes 32 (p_preVerificationGas p);
     p_gasFees p; keccak256 (p_paymasterAndData p)]) in
  keccak256 (abi_encode_words [packed_hash; be_bytes 32 entry_point; be_bytes 32 chain_id]).

(** The keyed nonce's key: everything above the 64-bit sequence. *)
Definition nonce_key (user_operation_nonce : Z) : Z := Z.shiftr user_operation_nonce 64.

Definition get_nonce_calldata (selector : list byte) (sender user_operation_nonce : Z) : list byte :=
  (selector ++ replicate 12 x00 ++ be_bytes 20 sender
   ++ be_bytes 32 (nonce_key user_operation_nonce))%list.
End Abi.
