(* ===== verification/Cost.v ===== *)
(** * Cost: deterministic bundle gas allocation and native cost
    ([vela-relay-core/src/cost.rs]) *)

From S2P Require Export Abi.
#[local] Open Scope Z_scope.

(** ** Definitions *)

Definition ceil_div (value divisor : Z) : option Z :=
  if decide (divisor = 0) then None else checked 256 (ceil_quot value divisor).

Definition bool_to_Z (b : bool) : Z := if b then 1 else 0.

Definition allocate_bundle_gas (simulated_outer_gas estimated_outer_gas : Z)
    (per_operation_gas : list Z) (buffer_bps fixed_buffer : Z) : option (list Z) :=
  match per_operation_gas with
  | [] => Some []
  | _ =>
      direct ← checked_sum 256 per_operation_gas;
      let metered := Z.max (Z.max simulated_outer_gas estimated_outer_gas) direct in
      scaled ← checked 256 (metered * buffer_bps);
      proportional_buffer ← ceil_div scaled 10000;
      t ← checked 256 (metered + proportional_buffer);
      total ← checked 256 (t + fixed_buffer);
      shared ← checked 256 (total - direct);
      let count := Z.of_nat (length per_operation_gas) in
      let per_operation_shared := shared / count in
      let remainder := shared mod count in
      mapM (λ '(index, gas),
        a ← checked 256 (gas + per_operation_shared);
        checked 256 (a + bool_to_Z (bool_decide (Z.of_nat index < remainder))))
        (zip (seq 0 (length per_operation_gas)) per_operation_gas)
  end.

Definition PER_OPERATION_OVERHEAD : Z := 50000.
Definition BUNDLE_OVERHEAD : Z := 60000.

Definition declared_limits (operations : list PackedOperation) : option Z :=
  foldl (λ o operation,
    total ← o;
    let limits := p_accountGasLimits (packed operation) in
    let paymaster := p_paymasterAndData (packed operation) in
    let '(paymaster_verification, paymaster_post_op) :=
      if decide (52 ≤ Z.of_nat (length paymaster))
      then (be_value (take 16 (drop 20 paymaster)), be_value (take 16 (drop 36 paymaster)))
      else (0, 0) in
    t1 ← checked 256 (total + be_value (take 16 limits));
    t2 ← checked 256 (t1 + be_value (drop 16 limits));
    t3 ← checked 256 (t2 + paymaster_verification);
    t4 ← checked 256 (t3 + paymaster_post_op);
    checked 256 (t4 + p_preVerificationGas (packed operation)))
    (Some 0) operations.

Definition declared_bundle_gas (operations : list PackedOperation) : option Z :=
  limits ← declared_limits operations;
  scaled ← checked 256 (limits * 64);
  overhead ← checked 256 (Z.of_nat (length operations) * PER_OPERATION_OVERHEAD);
  t ← checked 256 (scaled / 63 + overhead);
  checked 256 (t + BUNDLE_OVERHEAD).

Definition credible_simulated_gas (simulated estimated : Z) (declared : option Z) : Z :=
  match declared with
  | Some declared => Z.min simulated (Z.max estimated declared)
  | None => simulated
  end.

Definition DEFAULT_GAS_BUFFER_BPS : Z := 1500.
Definition DEFAULT_FIXED_GAS_BUFFER : Z := 30000.

Record BillingTerms : Type := {
  bt_settlement_markup_bps : Z; bt_gas_buffer_bps : Z; bt_fixed_gas_buffer : Z }.

Inductive SettlementGasRule : Type := Measured | MeasuredAtLeastHalfTheLimit | OuterLimit.

#[export] Instance SettlementGasRule_eq_dec : EqDecision SettlementGasRule.
Proof. solve_decision. Defined.

Definition settlement_gas_rule (chain_id : Z) : SettlementGasRule :=
  if decide (chain_id ∈ [1; 11155111; 17000; 560048; 100; 10200; 137; 80002; 56; 97])
  then Measured
  else if decide (chain_id ∈ [43114; 43113]) then MeasuredAtLeastHalfTheLimit
  else OuterLimit.

Definition buffered_gas (gas buffer_bps fixed_buffer : Z) : option Z :=
  scaled ← checked 256 (gas * buffer_bps);
  buffer ← ceil_div scaled 10000;
  t ← checked 256 (gas + buffer);
  checked 256 (t + fixed_buffer).

Definition billed_gas (used : Z) (declared : option Z) (buffer_bps fixed_buffer : Z) : option Z :=
  buffered ← buffered_gas used buffer_bps fixed_buffer;
  Some (match declared with
        | Some declared => Z.min buffered (Z.max declared used)
        | None => buffered
        end).

(** The remainder, one wei to each of the first shares. *)
Fixpoint distribute (remainder : Z) (shares : list Z) : list Z :=
  match shares with
  | [] => []
  | share :: shares' =>
      let extra := if decide (remainder = 0) then 0 else 1 in
      (share + extra) :: distribute (remainder - extra) shares'
  end.

(** The second half of [settlement_gas_allocations]: the total in proportion
    to the operations' own gas. *)
Definition split_by_weight (total : Z) (per_operation_gas : list Z) : option (list Z) :=
  weights ← checked_sum 256 per_operation_gas;
  let count := Z.of_nat (length per_operation_gas) in
  shares ← mapM (λ gas,
    if decide (weights = 0) then Some (total / count)
    else scaled ← checked 256 (total * gas); Some (scaled / weights)) per_operation_gas;
  assigned ← checked_sum 256 shares;
  remainder ← checked 256 (total - assigned);
  Some (distribute remainder shares).

Definition settlement_gas_allocations (rule : SettlementGasRule)
    (measured_outer_gas : option Z) (limit_allocations per_operation_gas : list Z)
    (declared : option Z) (buffer_bps fixed_buffer : Z) : option (list Z) :=
  match rule, measured_outer_gas with
  | OuterLimit, _ | _, None => Some limit_allocations
  | _, Some measured =>
      if negb (bool_decide (length limit_allocations = length per_operation_gas)) then None
      else match limit_allocations with
      | [] => Some []
      | _ =>
          limit ← checked_sum 256 limit_allocations;
          billed ← billed_gas measured declared buffer_bps fixed_buffer;
          let total := Z.min billed limit in
          total ← (if decide (rule = MeasuredAtLeastHalfTheLimit)
                   then half ← ceil_div limit 2; Some (Z.max total half)
                   else Some total);
          split_by_weight total per_operation_gas
      end
  end.

Definition native_cost (gas max_fee_per_gas : Z) : option Z := checked 256 (gas * max_fee_per_gas).

(** ** Lemmas *)

Lemma distribute_length r l : length (distribute r l) = length l.
Proof. revert r. induction l; intros r; simpl; auto. Qed.

Lemma distribute_sum r l :
  0 ≤ r ≤ Z.of_nat (length l) → sumZ (distribute r l) = sumZ l + r.
Proof.
  revert r. induction l as [|x l IH]; intros r Hr; simpl in *; [lia|].
  case_decide; rewrite IH; lia.
Qed.

(** Each share is below its neighbour-to-the-left's by no more than the one
    unit of remainder. *)
Lemma distribute_lookup r l i x :
  0 ≤ r → l !! i = Some x →
  distribute r l !! i = Some (x + bool_to_Z (bool_decide (Z.of_nat i < r))).
Proof.
  revert r i. induction l as [|y l IH]; intros r i Hr H; [done|]. simpl.
  destruct i as [|i]; simpl in *.
  - injection H as ->. do 2 f_equal. unfold bool_to_Z.
    case_bool_decide; case_decide; lia.
  - rewrite IH by (done || case_decide; lia). do 2 f_equal. unfold bool_to_Z.
    case_decide; repeat case_bool_decide; lia.
Qed.

Lemma floor_shares (T W : Z) (l : list Z) :
  0 < W → Forall (λ g, 0 ≤ g) l → 0 ≤ T →
  W * sumZ (map (λ g, T * g / W) l) ≤ T * sumZ l ∧
  (l ≠ [] → T * sumZ l < W * (sumZ (map (λ g, T * g / W) l) + Z.of_nat (length l))).
Proof.
  intros HW Hl HT. induction Hl as [|g l Hg Hl IH]; simpl; [split; [lia|done]|].
  destruct IH as [IH1 IH2].
  pose proof (Z.div_mod (T * g) W ltac:(lia)). pose proof (Z.mod_pos_bound (T * g) W HW).
  split; [nia|]. intros _. destruct l as [|g' l'].
  - simpl in *. nia.
  - specialize (IH2 ltac:(done)). rewrite Nat2Z.inj_succ. nia.
Qed.

Lemma ceil_div_Some a b r : 0 < b → 0 ≤ a → ceil_div a b = Some r ↔ r = ceil_quot a b ∧ fits 256 r.
Proof.
  intros Hb Ha. unfold ceil_div. rewrite decide_False by lia.
  rewrite checked_Some. naive_solver.
Qed.

Lemma buffered_gas_Some gas bps fixed r :
  buffered_gas gas bps fixed = Some r → 0 ≤ gas → 0 ≤ bps →
  r = gas + ceil_quot (gas * bps) 10000 + fixed ∧ fits 256 r.
Proof.
  unfold buffered_gas. intros H Hg Hb. inv_checked.
  rename select (ceil_div _ _ = _) into Hc.
  apply ceil_div_Some in Hc as [-> _]; [|lia|nia]. done.
Qed.

Lemma billed_gas_bounds used declared bps fixed r :
  billed_gas used declared bps fixed = Some r → 0 ≤ used → 0 ≤ bps → 0 ≤ fixed →
  used ≤ r ≤ used + ceil_quot (used * bps) 10000 + fixed ∧
  (∀ d, declared = Some d → r ≤ Z.max d used).
Proof.
  unfold billed_gas. intros H Hu Hb Hf. inv_checked.
  rename select (buffered_gas _ _ _ = _) into Hbuf.
  apply buffered_gas_Some in Hbuf as [-> _]; [|done..].
  pose proof (ceil_quot_nonneg (used * bps) 10000 ltac:(lia) ltac:(nia)).
  destruct declared as [d|]; split; try lia.
  - intros d' [= <-]. lia.
  - done.
Qed.

(** What [allocate_bundle_gas] allocates in total. *)
Definition metered_gas (simulated estimated : Z) (per_operation_gas : list Z) : Z :=
  Z.max (Z.max simulated estimated) (sumZ per_operation_gas).
Definition outer_gas_total (simulated estimated : Z) (per_operation_gas : list Z)
    (buffer_bps fixed_buffer : Z) : Z :=
  let metered := metered_gas simulated estimated per_operation_gas in
  metered + ceil_quot (metered * buffer_bps) 10000 + fixed_buffer.

Lemma mapM_indexed (f : nat → Z → option Z) (g : nat → Z → Z) l k start :
  (∀ i x r, f i x = Some r → r = g i x) →
  mapM (λ '(i, x), f i x) (zip (seq start (length l)) l) = Some k →
  k = imap (λ i x, g (start + i)%nat x) l.
Proof.
  intros Hf. revert start k. induction l as [|x l IH]; intros start k; simpl.
  - intros [= <-]. done.
  - intros H. apply bind_Some in H as (y & Hy & H). apply bind_Some in H as (ys & Hys & [= <-]).
    apply Hf in Hy as ->. rewrite (IH _ _ Hys). f_equal; [f_equal; lia|].
    apply imap_ext. intros i z _. simpl. f_equal. lia.
Qed.

Lemma sumZ_imap_add (f : nat → Z) l :
  sumZ (imap (λ i x, x + f i) l) = sumZ l + sumZ (imap (λ i _, f i) l).
Proof.
  revert f. induction l as [|x l IH]; intros f; simpl; [done|].
  unfold compose. rewrite (IH (λ i, f (S i))). lia.
Qed.

Lemma sumZ_imap_threshold (q r : Z) (l : list Z) :
  0 ≤ r ≤ Z.of_nat (length l) →
  sumZ (imap (λ i _, q + bool_to_Z (bool_decide (Z.of_nat i < r))) l)
  = q * Z.of_nat (length l) + r.
Proof.
  revert r. induction l as [|x l IH]; intros r Hr; [simpl in *; lia|].
  simpl length in *. simpl imap. cbn [sumZ foldr].
  rewrite (imap_ext _ (λ i _, q + bool_to_Z (bool_decide (Z.of_nat i < Z.max 0 (r - 1))))).
  2:{ intros i y _. simpl. unfold bool_to_Z. repeat case_bool_decide; lia. }
  change (foldr Z.add 0 ?k) with (sumZ k). rewrite IH by lia.
  unfold bool_to_Z. case_bool_decide; lia.
Qed.

(** The allocation, in closed form. *)
Definition even_split (extra : Z) (l : list Z) : list Z :=
  let count := Z.of_nat (length l) in
  imap (λ i x, x + (extra / count + bool_to_Z (bool_decide (Z.of_nat i < extra mod count)))) l.

Lemma even_split_sum extra l : l ≠ [] → sumZ (even_split extra l) = sumZ l + extra.
Proof.
  intros Hl. unfold even_split.
  assert (0 < Z.of_nat (length l)) as Hc by (destruct l; [done|simpl; lia]).
  rewrite sumZ_imap_add, sumZ_imap_threshold.
  - pose proof (Z.div_mod extra (Z.of_nat (length l)) ltac:(lia)). lia.
  - pose proof (Z.mod_pos_bound extra (Z.of_nat (length l)) Hc). lia.
Qed.

Lemma sumZ_elem l x : Forall (λ g, 0 ≤ g) l → x ∈ l → x ≤ sumZ l.
Proof.
  induction 1 as [|y l Hy Hl IH]; intros Hx; [by apply elem_of_nil in Hx|].
  pose proof (sumZ_nonneg l Hl). simpl. apply elem_of_cons in Hx as [->|Hx]; [lia|].
  specialize (IH Hx). lia.
Qed.

Lemma allocate_bundle_gas_Some sim est per bps fixed l :
  per ≠ [] → Forall (λ g, 0 ≤ g) per → 0 ≤ bps →
  allocate_bundle_gas sim est per bps fixed = Some l →
  l = even_split (outer_gas_total sim est per bps fixed - sumZ per) per ∧
  fits 256 (outer_gas_total sim est per bps fixed) ∧
  0 ≤ outer_gas_total sim est per bps fixed - sumZ per.
Proof.
  intros Hne Hper Hbps. unfold allocate_bundle_gas.
  destruct per as [|g0 per0]; [done|]. set (per := g0 :: per0) in *. intros H. inv_checked.
  rename select (checked_sum _ _ = _) into Hs. apply checked_sum_Some in Hs as [-> _]; [|lia|done].
  rename select (ceil_div _ _ = _) into Hc.
  fold (metered_gas sim est per) in *.
  assert (0 ≤ metered_gas sim est per) by (unfold metered_gas; pose proof (sumZ_nonneg _ Hper); lia).
  apply ceil_div_Some in Hc as [-> _]; [|lia|nia].
  fold (outer_gas_total sim est per bps fixed) in *.
  rename select (mapM _ _ = _) into Hm.
  eapply (mapM_indexed (λ i x, a ← checked 256 (x + _); checked 256 (a + bool_to_Z (bool_decide (Z.of_nat i < _)))))
    in Hm; [| intros i x r Hr; inv_checked; reflexivity].
  split_and!; [|done|unfold fits in *; lia].
  rewrite Hm. unfold even_split. apply imap_ext. intros i x _. simpl. lia.
Qed.

Lemma allocate_bundle_gas_is_Some sim est per bps fixed :
  per ≠ [] → Forall (fits 256) per → 0 ≤ bps → 0 ≤ fixed →
  fits 256 (metered_gas sim est per * bps) → fits 256 (outer_gas_total sim est per bps fixed) →
  is_Some (allocate_bundle_gas sim est per bps fixed).
Proof.
  intros Hne Hper Hbps Hfix Hscaled Htotal.
  assert (Hnn : Forall (λ g, 0 ≤ g) per) by (eapply Forall_impl; [exact Hper|unfold fits; lia]).
  pose proof (sumZ_nonneg _ Hnn) as Hsum.
  assert (Hmet : sumZ per ≤ metered_gas sim est per) by (unfold metered_gas; lia).
  pose proof (ceil_quot_nonneg (metered_gas sim est per * bps) 10000 ltac:(lia) ltac:(nia)) as Hcq.
  unfold outer_gas_total in Htotal.
  unfold allocate_bundle_gas. destruct per as [|g0 per0]; [done|]. set (per := g0 :: per0) in *.
  rewrite (proj2 (checked_sum_Some 256 per (sumZ per) ltac:(lia) Hnn)).
  2:{ split; [done|]. unfold fits in *. lia. }
  cbn -[per seq]. fold (metered_gas sim est per).
  rewrite (checked_fits _ _ Hscaled). cbn -[per seq].
  assert (ceil_div (metered_gas sim est per * bps) 10000
    = Some (ceil_quot (metered_gas sim est per * bps) 10000)) as ->.
  { apply ceil_div_Some; [lia|unfold fits in *; lia|]. split; [done|unfold fits in *; lia]. }
  cbn -[per seq]. rewrite checked_fits by (unfold fits in *; lia).
  cbn -[per seq]. rewrite checked_fits by (unfold fits in *; lia).
  cbn -[per seq]. rewrite checked_fits by (unfold fits in *; lia). cbn -[per seq].
  set (shared := _ - sumZ per).
  apply mapM_is_Some, Forall_forall. intros [i g] Hig. cbn -[per].
  apply elem_of_zip_r in Hig. pose proof (sumZ_elem _ _ Hnn Hig) as Hle.
  assert (0 ≤ g) by (eapply Forall_forall in Hnn; eauto).
  assert (Hc : 0 < Z.of_nat (length per)) by (unfold per; simpl; lia).
  assert (Hsh : 0 ≤ shared) by (unfold shared, fits in *; lia).
  pose proof (Z.div_mod shared (Z.of_nat (length per)) ltac:(lia)) as Hdm.
  pose proof (Z.mod_pos_bound shared (Z.of_nat (length per)) Hc) as Hmb.
  pose proof (Z.div_pos shared (Z.of_nat (length per)) Hsh Hc) as Hq.
  assert (shared / Z.of_nat (length per) + shared mod Z.of_nat (length per) ≤ shared) by nia.
  assert (Hlt : 0 ≤ shared + sumZ per < 2 ^ 256) by (unfold shared, fits in *; lia).
  clearbody shared.
  assert (Hb : ∀ b : bool, b = bool_decide (Z.of_nat i < shared mod Z.of_nat (length per)) →
     fits 256 (g + shared / Z.of_nat (length per) + bool_to_Z b)).
  { intros b ->. unfold bool_to_Z, fits. case_bool_decide; lia. }
  rewrite checked_fits by (unfold fits; lia). cbn -[per].
  rewrite checked_fits by (by apply Hb). eauto.
Qed.


Lemma mapM_map {A B} (f : A → option B) (g : A → B) l k :
  (∀ x r, f x = Some r → r = g x) → mapM f l = Some k → k = map g l.
Proof.
  intros Hf. revert k. induction l as [|x l IH]; intros k H; simpl in *; [by injection H as <-|].
  inv_checked. simpl. f_equal; eauto.
Qed.

(** A split pays the whole total out, each share within one unit of its exact
    proportion. *)
Lemma split_by_weight_Some total per l :
  per ≠ [] → Forall (λ g, 0 ≤ g) per → 0 ≤ total → split_by_weight total per = Some l →
  length l = length per ∧ sumZ l = total ∧
  (0 < sumZ per → ∀ i g a, per !! i = Some g → l !! i = Some a →
     total * g / sumZ per ≤ a ≤ total * g / sumZ per + 1).
Proof.
  intros Hne Hper Ht H. unfold split_by_weight in H. inv_checked.
  rename select (checked_sum _ per = _) into Hw. apply checked_sum_Some in Hw as [-> _]; [|lia|done].
  rename select (mapM _ _ = _) into Hm. rename select (checked_sum _ _ = _) into Ha.
  set (share g := if decide (sumZ per = 0) then total / Z.of_nat (length per) else total * g / sumZ per).
  apply (mapM_map _ share) in Hm as ->.
  2:{ intros g r Hr. unfold share. case_decide; inv_checked; done. }
  pose proof (sumZ_nonneg _ Hper) as Hs.
  assert (Hc : 0 < Z.of_nat (length per)) by (destruct per; [done|simpl; lia]).
  assert (Hnn : Forall (λ g, 0 ≤ g) (map share per)).
  { apply Forall_map. eapply Forall_impl; [exact Hper|]. intros g Hg. unfold share. simpl.
    case_decide; [apply Z.div_pos; lia | apply Z.div_pos; [by apply Z.mul_nonneg_nonneg|lia]]. }
  apply checked_sum_Some in Ha as [-> _]; [|lia|done].
  assert (Hrem : 0 ≤ total - sumZ (map share per) ≤ Z.of_nat (length per)).
  { unfold share. case_decide as Hz.
    - replace (sumZ (map _ per)) with (Z.of_nat (length per) * (total / Z.of_nat (length per))).
      2:{ clear. generalize (total / Z.of_nat (length per)). induction per as [|g per IH]; intros z.
          - done.
          - cbn [map sumZ foldr length]. change (foldr Z.add 0 ?k) with (sumZ k).
            rewrite <-IH. lia. }
      pose proof (Z.div_mod total (Z.of_nat (length per)) ltac:(lia)).
      pose proof (Z.mod_pos_bound total (Z.of_nat (length per)) Hc). lia.
    - destruct (floor_shares total (sumZ per) per ltac:(lia) Hper Ht) as [H1 H2].
      specialize (H2 Hne). nia. }
  split_and!.
  - by rewrite distribute_length, length_map.
  - rewrite distribute_sum; [lia|]. by rewrite length_map.
  - intros Hpos i g a Hg Hla.
    rewrite (distribute_lookup _ _ _ (share g)) in Hla; [|lia|].
    2:{ change (map share per) with (share <$> per). by rewrite list_lookup_fmap, Hg. }
    injection Hla as <-. unfold share, bool_to_Z. rewrite decide_False by lia.
    case_bool_decide; lia.
Qed.

Lemma settlement_total_spec rule measured lim per declared bps fixed l :
  rule ≠ OuterLimit → lim ≠ [] → Forall (λ g, 0 ≤ g) lim → Forall (λ g, 0 ≤ g) per →
  0 ≤ measured → 0 ≤ bps → 0 ≤ fixed →
  settlement_gas_allocations rule (Some measured) lim per declared bps fixed = Some l →
  ∃ billed total, billed_gas measured declared bps fixed = Some billed ∧
    total = Z.max (Z.min billed (sumZ lim))
              (if decide (rule = MeasuredAtLeastHalfTheLimit) then ceil_quot (sumZ lim) 2 else 0) ∧
    length lim = length per ∧ 0 ≤ total ∧ split_by_weight total per = Some l.
Proof.
  intros Hrule Hlim Hnl Hnp Hm Hb Hf H.
  assert (∃ lm billed total, length lim = length per ∧ checked_sum 256 lim = Some lm ∧
    billed_gas measured declared bps fixed = Some billed ∧
    (if decide (rule = MeasuredAtLeastHalfTheLimit)
     then half ← ceil_div lm 2; Some (Z.max (Z.min billed lm) half)
     else Some (Z.min billed lm)) = Some total ∧ split_by_weight total per = Some l)
    as (lm & billed & total & Hlen & Hs & Hbill & Htot & Hsp).
  { unfold settlement_gas_allocations in H. destruct rule; [| |done].
    all: case_bool_decide as Hlen; [|done]; cbn [negb] in H; destruct lim as [|x0 lim0]; [done|].
    all: apply bind_Some in H as (lm & ? & H); apply bind_Some in H as (billed & ? & H);
         apply bind_Some in H as (total & ? & H);
         exists lm, billed, total; split_and!; assumption. }
  apply checked_sum_Some in Hs as [-> _]; [|lia|done].
  pose proof (sumZ_nonneg _ Hnl). pose proof (billed_gas_bounds _ _ _ _ _ Hbill Hm Hb Hf) as [Hbb _].
  exists billed, total. split_and!; [done| |done| |done].
  - case_decide; inv_checked; [|lia].
    rename select (ceil_div _ _ = _) into Hc. apply ceil_div_Some in Hc as [-> _]; lia.
  - case_decide; inv_checked; lia.
Qed.

(** ** Properties *)

(** The outer gas limit is allocated exactly: the shares add up to the
    metered gas plus the proportional buffer (rounded up) plus the fixed
    buffer, no operation is allocated less than its own gas, and the shared
    part of any two operations differs by at most one unit, so none rides on
    another.  It is defined whenever those totals are U256s. *)
Theorem allocate_bundle_gas_exact sim est per bps fixed :
  per ≠ [] → Forall (fits 256) per → 0 ≤ bps → 0 ≤ fixed →
  (fits 256 (metered_gas sim est per * bps) → fits 256 (outer_gas_total sim est per bps fixed) →
     is_Some (allocate_bundle_gas sim est per bps fixed)) ∧
  ∀ l, allocate_bundle_gas sim est per bps fixed = Some l →
    length l = length per ∧
    sumZ l = outer_gas_total sim est per bps fixed ∧
    ∀ i j gi gj ai aj,
      per !! i = Some gi → per !! j = Some gj → l !! i = Some ai → l !! j = Some aj →
      gi ≤ ai ∧ Z.abs ((ai - gi) - (aj - gj)) ≤ 1.
Proof.
  intros Hne Hper Hb Hf. split; [by apply allocate_bundle_gas_is_Some|].
  assert (Hnn : Forall (λ g, 0 ≤ g) per) by (eapply Forall_impl; [exact Hper|unfold fits; lia]).
  intros l Hl. destruct (allocate_bundle_gas_Some _ _ _ _ _ _ Hne Hnn Hb Hl) as (-> & _ & Hx).
  rewrite even_split_sum by done. unfold even_split.
  split_and!; [by rewrite length_imap|lia|].
  assert (Hc : 0 < Z.of_nat (length per)) by (destruct per; [done|simpl; lia]).
  pose proof (Z.div_pos _ _ Hx Hc).
  intros i j gi gj ai aj Hi Hj. rewrite !list_lookup_imap, Hi, Hj. simpl.
  intros [= <-] [= <-]. unfold bool_to_Z. repeat case_bool_decide; lia.
Qed.

Lemma allocate_bundle_gas_exact_witness :
  sumZ [70834; 60833] = outer_gas_total 100000 90000 [50000; 40000] 1500 16667.
Proof.
  apply (proj2 (allocate_bundle_gas_exact 100000 90000 [50000; 40000] 1500 16667
    ltac:(discriminate) ltac:(forall_lia) ltac:(lia) ltac:(lia))
    [70834; 60833]).
  vm_compute. reflexivity.
Defined.

Lemma settlement_gas_rule_table chain_id :
  (settlement_gas_rule chain_id = Measured ↔
     chain_id ∈ [1; 11155111; 17000; 560048; 100; 10200; 137; 80002; 56; 97]) ∧
  (settlement_gas_rule chain_id = MeasuredAtLeastHalfTheLimit ↔
     chain_id = 43114 ∨ chain_id = 43113).
Proof.
  unfold settlement_gas_rule. split.
  - case_decide; [done|]. by case_decide.
  - case_decide as H1.
    + split; [done|]. rewrite !elem_of_cons, elem_of_nil in H1. lia.
    + case_decide as H2; rewrite !elem_of_cons, elem_of_nil in H2; naive_solver.
Qed.

Lemma billed_gas_value used declared bps fixed r :
  billed_gas used declared bps fixed = Some r → 0 ≤ used → 0 ≤ bps →
  r = let buffered := used + ceil_quot (used * bps) 10000 + fixed in
      match declared with Some d => Z.min buffered (Z.max d used) | None => buffered end.
Proof.
  unfold billed_gas. intros H Hu Hb. inv_checked.
  rename select (buffered_gas _ _ _ = _) into Hbuf.
  by apply buffered_gas_Some in Hbuf as [-> _].
Qed.

(** C36: what the settlement shares of one bundle add up to, on every chain.
    With a measurement, [billed_gas] is the measured gas plus its
    proportional buffer (rounded up) plus the fixed buffer, capped by the
    larger of the declared limits and the measurement; a chain billed by
    measured gas is billed exactly that or the signed limit, whichever is
    less, Avalanche exactly the same but never less than half its signed
    limit (rounded up), every other chain exactly its limit allocations.
    Each share is within one unit of its proportion of the total. *)
Theorem settlement_allocations_exact chain_id measured lim per declared bps fixed l :
  let rule := settlement_gas_rule chain_id in
  lim ≠ [] → Forall (λ g, 0 ≤ g) lim → Forall (λ g, 0 ≤ g) per →
  0 ≤ measured → 0 ≤ bps → 0 ≤ fixed →
  settlement_gas_allocations rule (Some measured) lim per declared bps fixed = Some l →
  (rule = OuterLimit → l = lim) ∧
  (rule ≠ OuterLimit →
     (∃ billed, billed_gas measured declared bps fixed = Some billed ∧
        billed = (let buffered := measured + ceil_quot (measured * bps) 10000 + fixed in
                  match declared with
                  | Some d => Z.min buffered (Z.max d measured)
                  | None => buffered
                  end) ∧
        (rule = Measured → sumZ l = Z.min billed (sumZ lim)) ∧
        (chain_id = 43114 ∨ chain_id = 43113 →
           sumZ l = Z.max (Z.min billed (sumZ lim)) (ceil_quot (sumZ lim) 2))) ∧
     length l = length per ∧
     (0 < sumZ per → ∀ i g a, per !! i = Some g → l !! i = Some a →
        sumZ l * g / sumZ per ≤ a ≤ sumZ l * g / sumZ per + 1)).
Proof.
  intros rule Hlim Hnl Hnp Hm Hb Hf H.
  destruct (decide (rule = OuterLimit)) as [Hr|Hr].
  { rewrite Hr in H. injection H as <-. done. }
  destruct (settlement_total_spec _ _ _ _ _ _ _ _ Hr Hlim Hnl Hnp Hm Hb Hf H)
    as (billed & total & Hbill & Htot & Hlen & Ht0 & Hsp).
  destruct (split_by_weight_Some total per l) as (Hl & Hsum & Hshare); [by destruct per, lim|done..|].
  pose proof (billed_gas_value _ _ _ _ _ Hbill Hm Hb) as Hval. cbv zeta in Hval.
  pose proof (billed_gas_bounds _ _ _ _ _ Hbill Hm Hb Hf) as [Hbb _].
  pose proof (sumZ_nonneg _ Hnl).
  rewrite Hsum. split; [done|]. intros _. split_and!; [|done|done].
  exists billed. split_and!; [done|done| |].
  - intros Hr'. rewrite Hr', decide_False in Htot by done. lia.
  - intros Hc. apply settlement_gas_rule_table in Hc. fold rule in Hc.
    by rewrite Hc, decide_True in Htot by done.
Qed.

Lemma settlement_allocations_exact_witness :
  settlement_gas_rule 43114 ≠ OuterLimit ∧
  ∃ billed, billed_gas 146824 (Some 900000) 1500 30000 = Some billed ∧ billed = 198848.
Proof.
  split; [by vm_compute|].
  destruct (settlement_allocations_exact 43114 146824 [322000; 322000]
    [100000; 102033] (Some 900000) 1500 30000 [159380; 162620]) as [_ Hbill].
  all: try first [ discriminate | lia | solve [forall_lia] | (vm_compute; reflexivity) ].
  destruct Hbill as [(billed & Hb & Hv & _) _]; [by vm_compute|].
  exists billed. split; [exact Hb|]. rewrite Hv. reflexivity.
Defined.

(** The two ends of the fee contract bill one rule.  When the outer limit
    is allocated from the same measurement and buffers, the limit never
    binds: an operation bundle is billed exactly [billed_gas], the figure
    [settlementGas] promises. *)
Theorem limit_allocation_never_binds measured estimated per lim declared bps fixed l :
  per ≠ [] → Forall (λ g, 0 ≤ g) per → 0 ≤ measured → 0 ≤ bps → 0 ≤ fixed →
  allocate_bundle_gas measured estimated per bps fixed = Some lim →
  settlement_gas_allocations Measured (Some measured) lim per declared bps fixed = Some l →
  billed_gas measured declared bps fixed = Some (sumZ l).
Proof.
  intros Hne Hper Hm Hb Hf Hal Hset.
  destruct (allocate_bundle_gas_Some _ _ _ _ _ _ Hne Hper Hb Hal) as (Hlim & _ & Hx).
  assert (Hsum : sumZ lim = outer_gas_total measured estimated per bps fixed).
  { rewrite Hlim, even_split_sum by done. lia. }
  assert (Hc : 0 < Z.of_nat (length per)) by (destruct per; [done|simpl; lia]).
  assert (Hnl : Forall (λ g, 0 ≤ g) lim).
  { rewrite Hlim. unfold even_split. apply Forall_lookup_2. intros i x.
    rewrite list_lookup_imap. intros (g & Hg & ->)%fmap_Some.
    eapply Forall_lookup_1 in Hper; [|exact Hg]. pose proof (Z.div_pos _ _ Hx Hc).
    unfold bool_to_Z. case_bool_decide; simpl; lia. }
  destruct (settlement_total_spec Measured measured lim per declared bps fixed l)
    as (billed & total & Hbill & Htot & Hlen & Ht0 & Hsp); try done.
  { intros ->. by destruct per. }
  destruct (split_by_weight_Some total per l) as (_ & -> & _); [done..|].
  rewrite Hbill, Htot. f_equal. rewrite decide_False by done.
  pose proof (billed_gas_bounds _ _ _ _ _ Hbill Hm Hb Hf) as [Hbb _].
  assert (measured ≤ metered_gas measured estimated per) by (unfold metered_gas; lia).
  assert (billed ≤ sumZ lim); [|lia]. rewrite Hsum. unfold outer_gas_total.
  pose proof (ceil_quot_mono (measured * bps) (metered_gas measured estimated per * bps) 10000
    ltac:(lia) ltac:(nia)). lia.
Qed.

Lemma limit_allocation_never_binds_witness :
  billed_gas 146824 (Some 900000) 1500 30000 = Some (sumZ [198848]).
Proof.
  refine (limit_allocation_never_binds 146824 322000 [100000] [400300] (Some 900000) 1500 30000
    [198848] _ _ _ _ _ _ _).
  all: first [ discriminate | lia | solve [forall_lia] | (vm_compute; reflexivity) ].
Defined.
