(* ===== verification/Reimbursement.v ===== *)
(** * Reimbursement: what a signed operation pays the relay
    ([vela-relay-core/src/settlement.rs], the calldata parser and the
    transfer-log check)

    The parser walks the Safe's [executeUserOp -> MultiSend] calldata.  Its
    only machine-dependent reading is [usize], 32 bits wide in the Worker and
    64 in the server: the width is the class [TargetWidth], and
    [parse_reimbursement_exact] shows the result does not depend on it. *)

From S2P Require Export Bytes.
From stdpp Require Export gmap.
#[local] Open Scope Z_scope.

(** [usize::BITS] of the target. *)
Class TargetWidth := usize_bits : Z.
Definition wasm32 : TargetWidth := 32.
Definition x86_64 : TargetWidth := 64.

(** ** Definitions *)

Definition EXECUTE_USER_OP_SELECTOR : list byte := [x7b; xb3; x74; x28].
Definition MULTISEND_SELECTOR : list byte := [x8d; x80; xff; x0a].
Definition ERC20_TRANSFER_SELECTOR : list byte := [xa9; x05; x9c; xbb].
Definition TRUSTED_MULTISEND : Z := 0x38869bf66a61cf6bdb996a6ae40d5853fd43b526.

(** An [Address] is its 160-bit value, a [BTreeMap<Address, _>] a [gmap]. *)
Record Reimbursement : Type := {
  native : Z;
  stablecoins : gmap Z Z }.

#[export] Instance Reimbursement_eq_dec : EqDecision Reimbursement.
Proof. solve_decision. Defined.

Definition default_reimbursement : Reimbursement := {| native := 0; stablecoins := ∅ |}.

Inductive ReimbursementParseError : Type := MalformedCallData | ParseOverflow.

#[export] Instance ReimbursementParseError_eq_dec : EqDecision ReimbursementParseError.
Proof. solve_decision. Defined.

Section Parser.
Context `{W : TargetWidth}.

Definition read_u256_word (data : list byte) (offset : Z) : option Z :=
  stop ← checked usize_bits (offset + 32);
  word ← slice data offset stop;
  Some (be_value word).

Definition read_usize_word (data : list byte) (offset : Z) : option Z :=
  value ← read_u256_word data offset;
  if decide (umax usize_bits < value) then None else Some value.

Definition read_address_word (data : list byte) (offset : Z) : option Z :=
  stop ← checked usize_bits (offset + 32);
  word ← slice data offset stop;
  if existsb (λ b, negb (bool_decide (b = x00))) (take 12 word) then None
  else Some (be_value (drop 12 word)).

Definition read_packed_address (data : list byte) (offset : Z) : option Z :=
  stop ← checked usize_bits (offset + 20);
  bytes ← slice data offset stop;
  Some (be_value bytes).

Definition read_dynamic_bytes (data : list byte) (offset : Z) : option (list byte) :=
  if negb (bool_decide (offset mod 32 = 0)) then None
  else
    length ← read_usize_word data offset;
    start ← checked usize_bits (offset + 32);
    stop ← checked usize_bits (start + length);
    slice data start stop.

Definition decode_multisend_transactions (call_data : list byte) : option (list byte) :=
  selector ← slice call_data 0 4;
  if negb (bool_decide (selector = EXECUTE_USER_OP_SELECTOR)) then None
  else
    let args := drop 4 call_data in
    target ← read_address_word args 0;
    data_offset ← read_usize_word args 64;
    operation ← read_u256_word args 96;
    if negb (bool_decide (target = TRUSTED_MULTISEND)) || negb (bool_decide (operation = 1))
    then None
    else
      inner_data ← read_dynamic_bytes args data_offset;
      inner_selector ← slice inner_data 0 4;
      if negb (bool_decide (inner_selector = MULTISEND_SELECTOR)) then None
      else
        let inner_args := drop 4 inner_data in
        transaction_offset ← read_usize_word inner_args 0;
        read_dynamic_bytes inner_args transaction_offset.

Definition decode_erc20_transfer (data : list byte) : option (Z * Z) :=
  if negb (bool_decide (length data = 68%nat)) then None
  else
    selector ← slice data 0 4;
    if negb (bool_decide (selector = ERC20_TRANSFER_SELECTOR)) then None
    else
      transfer_recipient ← read_address_word data 4;
      amount ← read_u256_word data 36;
      Some (transfer_recipient, amount).

(** One entry of the packed MultiSend payload: what [parse_reimbursement]
    reads at [offset], and the offset after it. *)
Record Transaction : Type := {
  tx_operation : byte; tx_to : Z; tx_value : Z; tx_data : list byte }.

Definition read_transaction (transactions : list byte) (offset : Z) :
    option (Transaction * Z) :=
  operation ← transactions !! Z.to_nat offset;
  to ← read_packed_address transactions (offset + 1);
  value ← read_u256_word transactions (offset + 21);
  data_length ← read_usize_word transactions (offset + 53);
  data_start ← checked usize_bits (offset + 85);
  data_end ← checked usize_bits (data_start + data_length);
  data ← slice transactions data_start data_end;
  Some ({| tx_operation := operation; tx_to := to; tx_value := value; tx_data := data |},
        data_end).

(** The part of the loop body that credits a [CALL]. *)
Definition credit_transaction (recipient : Z) (allowlist : gset Z) (t : Transaction)
    (r : Reimbursement) : result ReimbursementParseError Reimbursement :=
  if decide (tx_operation t = x00) then
    r ← (if decide (tx_to t = recipient ∧ tx_value t ≠ 0) then
           total ← ok_or (checked 256 (native r + tx_value t)) ParseOverflow;
           Ok {| native := total; stablecoins := stablecoins r |}
         else Ok r);
    match (if decide (tx_to t ∈ allowlist) then decode_erc20_transfer (tx_data t) else None) with
    | Some (transfer_recipient, amount) =>
        if decide (transfer_recipient = recipient ∧ amount ≠ 0) then
          total ← ok_or (checked 256 (default 0 (stablecoins r !! tx_to t) + amount)) ParseOverflow;
          Ok {| native := native r; stablecoins := <[tx_to t := total]> (stablecoins r) |}
        else Ok r
    | None => Ok r
    end
  else Ok r.

(** The [while offset < transactions.len()] loop; [None] is out of fuel. *)
Fixpoint parse_loop (fuel : nat) (recipient : Z) (allowlist : gset Z)
    (transactions : list byte) (offset : Z) (r : Reimbursement) :
    option (result ReimbursementParseError Reimbursement) :=
  match fuel with
  | O => None
  | S fuel =>
      if decide (offset < Z.of_nat (length transactions)) then
        match read_transaction transactions offset with
        | None => Some (Err MalformedCallData)
        | Some (t, data_end) =>
            match credit_transaction recipient allowlist t r with
            | Ok r => parse_loop fuel recipient allowlist transactions data_end r
            | Err e => Some (Err e)
            end
        end
      else Some (Ok r)
  end.

(** Every entry is at least 85 bytes long, so one unit of fuel per byte and
    one for the last test are enough ([parse_loop_total]); the default is
    never taken. *)
Definition parse_reimbursement (call_data : list byte) (recipient : Z) (allowlist : gset Z) :
    result ReimbursementParseError Reimbursement :=
  transactions ← ok_or (decode_multisend_transactions call_data) MalformedCallData;
  default (Err MalformedCallData)
    (parse_loop (S (length transactions)) recipient allowlist transactions 0 default_reimbursement).

End Parser.

(** ** Transfer logs *)

Record SettlementLog : Type := {
  log_address : Z; log_topics : list (list byte); log_data : list byte }.

Definition address_word (address : Z) : list byte := replicate 12 x00 ++ be_bytes 20 address.

Section Logs.
Context `{K : Keccak}.

Definition transfer_signature : list byte :=
  keccak256 (str_bytes "Transfer(address,address,uint256)"%string).

Definition log_counts (sender recipient token : Z) (log : SettlementLog) : bool :=
  bool_decide (log_address log = token) &&
  bool_decide (length (log_topics log) = 3%nat) &&
  bool_decide (log_topics log !! 0%nat = Some transfer_signature) &&
  bool_decide (log_topics log !! 1%nat = Some (address_word sender)) &&
  bool_decide (log_topics log !! 2%nat = Some (address_word recipient)) &&
  bool_decide (length (log_data log) = 32%nat).

(** The inner loop: [None] is its early [return false]. *)
Definition add_log (sender recipient token : Z) (actual : option Z) (log : SettlementLog) :
    option Z :=
  actual ← actual;
  if log_counts sender recipient token log
  then checked 256 (actual + be_value (log_data log)) else Some actual.

Definition verify_stable_transfer_logs (reimbursement : Reimbursement) (sender recipient : Z)
    (logs : list SettlementLog) : bool :=
  forallb (λ '(token, expected),
    match foldl (add_log sender recipient token) (Some 0) logs with
    | Some actual => bool_decide (expected ≤ actual)
    | None => false
    end) (map_to_list (stablecoins reimbursement)).

End Logs.

#[local] Arguments be_bytes : simpl never.
#[local] Arguments be_value : simpl never.

(** ** Slices *)

Lemma slice_Some data s e m :
  slice data s e = Some m ↔
  ∃ pre post, data = pre ++ m ++ post ∧ s = Z.of_nat (length pre) ∧
    e = s + Z.of_nat (length m).
Proof.
  split.
  - intros H. pose proof (slice_length _ _ _ _ H) as (Hl & ? & ?).
    unfold slice in H. rewrite decide_True in H by lia. injection H as <-.
    exists (take (Z.to_nat s) data), (drop (Z.to_nat (e - s)) (drop (Z.to_nat s) data)).
    rewrite take_drop, take_drop, length_take, length_take, length_drop. repeat split; lia.
  - intros (pre & post & -> & Hs & He). by apply slice_mid.
Qed.

Lemma slice_join data a b c x y :
  slice data a b = Some x → slice data b c = Some y → slice data a c = Some (x ++ y).
Proof.
  rewrite !slice_Some. intros (p1 & q1 & H1 & -> & ->) (p2 & q2 & H2 & Hp & ->).
  exists p1, q2. rewrite length_app. split; [|lia]. rewrite H1 in H2 |- *.
  rewrite (assoc_L (++)) in H2. apply app_inj_1 in H2 as [<- ->].
  - by rewrite <-!(assoc_L (++)).
  - rewrite length_app. lia.
Qed.

Lemma slice_split data a c x y :
  slice data a c = Some (x ++ y) →
  slice data a (a + Z.of_nat (length x)) = Some x ∧
  slice data (a + Z.of_nat (length x)) c = Some y.
Proof.
  rewrite !slice_Some. intros (p & q & -> & -> & ->). rewrite length_app. split.
  - exists p, (y ++ q). by rewrite <-(assoc_L (++)).
  - exists (p ++ x), q. rewrite length_app, <-!(assoc_L (++)). repeat split; lia.
Qed.

Lemma slice_all data : slice data 0 (Z.of_nat (length data)) = Some data.
Proof. apply slice_Some. exists [], []. by rewrite app_nil_r. Qed.

Lemma slice_det data a b c x y :
  slice data a b = Some x → slice data a c = Some y → length x = length y → x = y ∧ b = c.
Proof.
  intros H1 H2 Hl. pose proof (slice_length _ _ _ _ H1). pose proof (slice_length _ _ _ _ H2).
  assert (b = c) as -> by lia. rewrite H1 in H2. by injection H2.
Qed.

Lemma slice_one (data : list byte) a b :
  0 ≤ a → data !! Z.to_nat a = Some b ↔ slice data a (a + 1) = Some [b].
Proof.
  intros Ha. rewrite slice_Some. split.
  - intros H. exists (take (Z.to_nat a) data), (drop (S (Z.to_nat a)) data).
    pose proof (lookup_lt_Some _ _ _ H). rewrite length_take. simpl.
    split; [by rewrite (take_drop_middle _ _ _ H)|lia].
  - intros (pre & post & -> & -> & _). rewrite Nat2Z.id.
    by rewrite lookup_app_r, Nat.sub_diag by lia.
Qed.

(** ** The packed payload *)

Definition pack_transaction (t : Transaction) : list byte :=
  tx_operation t :: be_bytes 20 (tx_to t) ++ be_bytes 32 (tx_value t) ++
  be_bytes 32 (Z.of_nat (length (tx_data t))) ++ tx_data t.

Definition pack_transactions (txs : list Transaction) : list byte :=
  concat (map pack_transaction txs).

Definition tx_wf (t : Transaction) : Prop :=
  fits 160 (tx_to t) ∧ fits 256 (tx_value t) ∧ fits 256 (Z.of_nat (length (tx_data t))).

Lemma pack_transaction_length t :
  Z.of_nat (length (pack_transaction t)) = 85 + Z.of_nat (length (tx_data t)).
Proof.
  unfold pack_transaction. cbn [length]. rewrite !length_app, !be_bytes_length. lia.
Qed.

Lemma be_value_fits n (l : list byte) : length l = n → fits (8 * Z.of_nat n) (be_value l).
Proof.
  intros <-. unfold fits. pose proof (be_value_range l).
  replace (2 ^ (8 * Z.of_nat (length l))) with (256 ^ Z.of_nat (length l)); [done|].
  change 256 with (2 ^ 8). by rewrite <-Z.pow_mul_r by lia.
Qed.

Lemma be_value_160 l : length l = 20%nat → fits 160 (be_value l).
Proof. intros H. by apply (be_value_fits 20). Qed.
Lemma be_value_256 l : length l = 32%nat → fits 256 (be_value l).
Proof. intros H. by apply (be_value_fits 32). Qed.

Lemma be_value_bytes_fits n z :
  fits (8 * Z.of_nat n) z → be_value (be_bytes n z) = z.
Proof.
  intros H. apply be_value_be_bytes_small. unfold fits in H.
  change 256 with (2 ^ 8). by rewrite <-Z.pow_mul_r by lia.
Qed.

Section ParserLemmas.
Context `{W : TargetWidth}.

(** A slice the target can hold: its length is a [usize]. *)
Definition addressable (data : list byte) : Prop :=
  Z.of_nat (length data) ≤ umax usize_bits.

Lemma addressable_le d k :
  addressable d → (length k ≤ length d)%nat → addressable k.
Proof. unfold addressable. lia. Qed.

(** Overflow of an end offset is a slice out of range: the width shows
    nowhere else. *)
Lemma checked_slice data s e :
  addressable data → (stop ← checked usize_bits e; slice data s stop) = slice data s e.
Proof.
  intros Ha. destruct (checked usize_bits e) as [z|] eqn:E; simpl.
  - by apply checked_Some in E as [-> _].
  - apply checked_None in E. symmetry. unfold slice. rewrite decide_False; [done|].
    intros [? ?]. apply E. unfold addressable, umax, fits in *. lia.
Qed.

Lemma bind_bind {A B C} (m : option A) (f : A → option B) (g : B → option C) :
  (x ← m; y ← f x; g y) = (y ← (x ← m; f x); g y).
Proof. by destruct m. Qed.

Lemma read_u256_word_eq data off :
  addressable data → read_u256_word data off = be_value <$> slice data off (off + 32).
Proof.
  intros Ha. unfold read_u256_word. rewrite bind_bind, checked_slice by done.
  by destruct (slice _ _ _).
Qed.

Lemma read_packed_address_eq data off :
  addressable data → read_packed_address data off = be_value <$> slice data off (off + 20).
Proof.
  intros Ha. unfold read_packed_address. rewrite bind_bind, checked_slice by done.
  by destruct (slice _ _ _).
Qed.

Lemma read_usize_word_Some data off v :
  addressable data →
  read_usize_word data off = Some v ↔
  (∃ w, slice data off (off + 32) = Some w ∧ v = be_value w) ∧ v ≤ umax usize_bits.
Proof.
  intros Ha. unfold read_usize_word. rewrite read_u256_word_eq by done.
  destruct (slice data off (off + 32)); simpl; [|naive_solver].
  case_decide; naive_solver lia.
Qed.

(** Reading at an offset is recognising one packed entry there. *)
Lemma read_transaction_Some data off t stop :
  addressable data → 0 ≤ off →
  read_transaction data off = Some (t, stop) ↔
  tx_wf t ∧ slice data off stop = Some (pack_transaction t).
Proof.
  intros Ha Hoff. unfold read_transaction. split.
  - intros H. rewrite read_packed_address_eq, read_u256_word_eq in H by done.
    apply bind_Some in H as (op & Hop & H). apply bind_Some in H as (to & Hto & H).
    apply bind_Some in H as (v & Hv & H). apply bind_Some in H as (n & Hn & H).
    apply bind_Some in H as (s & Hs & H). apply bind_Some in H as (e & He & H).
    apply bind_Some in H as (d & Hd & [= <- <-]).
    apply fmap_Some in Hto as (lto & Hto & ->). apply fmap_Some in Hv as (lv & Hv & ->).
    apply read_usize_word_Some in Hn as [(ln & Hn & ->) _]; [|done].
    apply checked_Some in Hs as [-> _]. apply checked_Some in He as [-> _].
    apply slice_one in Hop; [|done].
    pose proof (slice_length _ _ _ _ Hto). pose proof (slice_length _ _ _ _ Hv).
    pose proof (slice_length _ _ _ _ Hn). pose proof (slice_length _ _ _ _ Hd).
    assert (Hd' : Z.of_nat (length d) = be_value ln) by lia.
    split; [unfold tx_wf; cbn [tx_to tx_value tx_data]; rewrite Hd';
      split; [|split]; (apply be_value_160 || apply be_value_256); lia|].
    unfold pack_transaction; cbn [tx_operation tx_to tx_value tx_data]. rewrite Hd'.
    rewrite !be_bytes_value by lia.
    replace (off + 1 + 20) with (off + 21) in Hto by lia.
    replace (off + 21 + 32) with (off + 53) in Hv by lia.
    replace (off + 53 + 32) with (off + 85) in Hn by lia.
    apply (slice_join _ _ _ _ [op] _ Hop), (slice_join _ _ _ _ _ _ Hto).
    apply (slice_join _ _ _ _ _ _ Hv), (slice_join _ _ _ _ _ _ Hn Hd).
  - intros [(Ht & Hv & Hlen) H]. pose proof (slice_length _ _ _ _ H) as (Hl & Hle & Hb).
    rewrite pack_transaction_length in Hl.
    assert (Hmax : stop ≤ umax usize_bits) by (unfold addressable in Ha; lia).
    unfold pack_transaction in H.
    change (tx_operation t :: ?l) with ([tx_operation t] ++ l) in H.
    apply slice_split in H as [Hop H]. apply slice_split in H as [Hto H].
    apply slice_split in H as [Hval H]. apply slice_split in H as [Hn Hd].
    rewrite !be_bytes_length in *. cbn [length] in *.
    change (Z.of_nat 1) with 1 in *. change (Z.of_nat 20) with 20 in *.
    change (Z.of_nat 32) with 32 in *.
    rewrite (proj2 (slice_one _ _ _ Hoff) Hop). cbn -[Z.add].
    rewrite read_packed_address_eq, read_u256_word_eq by done.
    replace (off + 21) with (off + 1 + 20) by lia.
    rewrite Hto, Hval. cbn -[Z.add].
    rewrite (be_value_bytes_fits 20), (be_value_bytes_fits 32) by done.
    replace (off + 53) with (off + 1 + 20 + 32) by lia.
    pose proof (proj2 (read_usize_word_Some data (off + 1 + 20 + 32)
      (Z.of_nat (length (tx_data t))) Ha)) as ->; cbn -[Z.add].
    + replace (off + 85) with (off + 1 + 20 + 32 + 32) by lia.
      rewrite !checked_fits by (unfold fits, umax in *; lia). cbn -[Z.add].
      replace (off + 1 + 20 + 32 + 32 + Z.of_nat (length (tx_data t))) with stop by lia.
      rewrite checked_fits by (unfold fits, umax in *; lia). cbn -[Z.add].
      rewrite Hd. cbn. by destruct t.
    + split; [|lia]. eexists. split; [exact Hn|]. by rewrite (be_value_bytes_fits 32).
Qed.

Fixpoint credit_all (recipient : Z) (allowlist : gset Z) (txs : list Transaction)
    (r : Reimbursement) : result ReimbursementParseError Reimbursement :=
  match txs with
  | [] => Ok r
  | t :: txs => r ← credit_transaction recipient allowlist t r; credit_all recipient allowlist txs r
  end.

Lemma read_transaction_advances data off t stop :
  addressable data → 0 ≤ off → read_transaction data off = Some (t, stop) →
  off + 85 ≤ stop ≤ Z.of_nat (length data).
Proof.
  intros Ha Hoff H. apply read_transaction_Some in H as [_ H]; [|done..].
  pose proof (slice_length _ _ _ _ H) as (Hl & _ & ?).
  rewrite pack_transaction_length in Hl. lia.
Qed.

(** The loop ends with the fuel it is given. *)
Lemma parse_loop_total fuel recipient allowlist data off r :
  addressable data → 0 ≤ off ≤ Z.of_nat (length data) →
  Z.of_nat (length data) - off < Z.of_nat fuel →
  is_Some (parse_loop fuel recipient allowlist data off r).
Proof.
  intros Ha. revert off r. induction fuel as [|fuel IH]; intros off r Hoff Hf; cbn [parse_loop].
  - lia.
  - case_decide; [|eauto].
    destruct (read_transaction data off) as [[t stop]|] eqn:E; [|eauto].
    apply read_transaction_advances in E; [|done|lia].
    destruct (credit_transaction _ _ _ _); [|eauto]. apply IH; lia.
Qed.

Lemma parse_loop_packed fuel recipient allowlist data off txs r :
  addressable data → 0 ≤ off → Z.of_nat (length data) - off < Z.of_nat fuel →
  Forall tx_wf txs →
  slice data off (Z.of_nat (length data)) = Some (pack_transactions txs) →
  parse_loop fuel recipient allowlist data off r = Some (credit_all recipient allowlist txs r).
Proof.
  intros Ha. revert off txs r.
  induction fuel as [|fuel IH]; intros off txs r Hoff Hf Hwf Hs; cbn [parse_loop].
  - pose proof (slice_length _ _ _ _ Hs). lia.
  - pose proof (slice_length _ _ _ _ Hs) as (Hl & _ & _).
    destruct Hwf as [|t txs Ht Hwf]; cbn [pack_transactions map concat length] in Hs, Hl.
    + rewrite decide_False by (cbn in Hl; lia). done.
    + rewrite length_app in Hl. pose proof (pack_transaction_length t).
      rewrite decide_True by lia. apply slice_split in Hs as [Hs1 Hs2].
      pose proof (proj2 (read_transaction_Some data off t _ Ha Hoff) (conj Ht Hs1)) as ->.
      cbn [credit_all]. destruct (credit_transaction _ _ _ _); cbn; [|done].
      apply IH; [lia..|done|done].
Qed.

Lemma parse_loop_sound fuel recipient allowlist data off r r' :
  addressable data → 0 ≤ off ≤ Z.of_nat (length data) →
  parse_loop fuel recipient allowlist data off r = Some (Ok r') →
  ∃ txs, Forall tx_wf txs ∧
    slice data off (Z.of_nat (length data)) = Some (pack_transactions txs) ∧
    credit_all recipient allowlist txs r = Ok r'.
Proof.
  intros Ha. revert off r. induction fuel as [|fuel IH]; intros off r Hoff H; [done|].
  cbn [parse_loop] in H. case_decide as Hlt.
  - destruct (read_transaction data off) as [[t stop]|] eqn:E; [|done].
    pose proof (read_transaction_advances _ _ _ _ Ha (proj1 Hoff) E).
    apply read_transaction_Some in E as [Ht E]; [|done|lia].
    destruct (credit_transaction _ _ _ _) as [r1|] eqn:Ec; [|done].
    apply IH in H as (txs & Hwf & Hs & Hc); [|lia].
    exists (t :: txs). split; [by constructor|]. split.
    + by apply (slice_join _ _ _ _ _ _ E).
    + cbn [credit_all]. rewrite Ec. done.
  - injection H as <-. exists []. split; [done|]. split; [|done].
    apply slice_Some. exists data, []. cbn. rewrite app_nil_r. repeat split; lia.
Qed.

(** ** What the entries are worth *)

(** The amount of an ERC-20 [transfer(recipient, amount)] call, 0 for any
    other calldata. *)
Definition transfer_amount (recipient : Z) (data : list byte) : Z :=
  if decide (length data = 68%nat ∧
             take 36 data = [xa9; x05; x9c; xbb] ++ be_bytes 32 recipient)
  then be_value (drop 36 data) else 0.

Definition native_credit (recipient : Z) (t : Transaction) : Z :=
  if decide (tx_operation t = x00 ∧ tx_to t = recipient) then tx_value t else 0.

Definition stable_credit (recipient : Z) (allowlist : gset Z) (token : Z) (t : Transaction) : Z :=
  if decide (tx_operation t = x00 ∧ tx_to t = token ∧ token ∈ allowlist)
  then transfer_amount recipient (tx_data t) else 0.

Definition stable_of (r : Reimbursement) (token : Z) : Z := default 0 (stablecoins r !! token).

Definition reimbursement_wf (r : Reimbursement) : Prop :=
  fits 256 (native r) ∧ ∀ token v, stablecoins r !! token = Some v → 0 < v ∧ fits 256 v.

Lemma zero_prefix (l : list byte) :
  existsb (λ b, negb (bool_decide (b = x00))) l = false → l = replicate (length l) x00.
Proof.
  induction l as [|b l IH]; [done|]. simpl. intros [Hb Hl]%orb_false_iff.
  case_bool_decide; [|done]. subst. f_equal. auto.
Qed.

Lemma address_word_bytes a : fits 160 a → be_bytes 32 a = replicate 12 x00 ++ be_bytes 20 a.
Proof.
  intros Ha. apply be_value_inj; [by rewrite length_app, !be_bytes_length|].
  rewrite be_value_zeros, (be_value_bytes_fits 20) by done.
  apply (be_value_bytes_fits 32). eapply fits_mono; [|done]. lia.
Qed.

(** Only allowlisted tokens are ever credited. *)
Definition allowlisted (allowlist : gset Z) (r : Reimbursement) : Prop :=
  ∀ token, is_Some (stablecoins r !! token) → token ∈ allowlist.

Lemma credit_transaction_allowlisted recipient allowlist t r r' :
  allowlisted allowlist r → credit_transaction recipient allowlist t r = Ok r' →
  allowlisted allowlist r'.
Proof.
  unfold credit_transaction. intros Hr Hc. case_decide; [|by inv_checked].
  apply result_bind_Ok in Hc as (r1 & H1 & Hc).
  assert (allowlisted allowlist r1) as Hr1 by (clear Hc; case_decide; inv_checked; exact Hr).
  case_decide as Hin; [|by inv_checked].
  destruct (decode_erc20_transfer _) as [[to amount]|]; [|by inv_checked].
  case_decide; [|by inv_checked]. inv_checked. intros token. simpl.
  destruct (decide (token = tx_to t)) as [->|]; [done|]. rewrite lookup_insert_ne by done. apply Hr1.
Qed.

Lemma parse_loop_allowlisted fuel recipient allowlist data off r r' :
  allowlisted allowlist r → parse_loop fuel recipient allowlist data off r = Some (Ok r') →
  allowlisted allowlist r'.
Proof.
  revert off r. induction fuel as [|fuel IH]; intros off r Hr Hp; cbn [parse_loop] in Hp; [done|].
  case_decide; [|by simplify_eq]. destruct (read_transaction data off) as [[t stop]|]; [|done].
  destruct (credit_transaction recipient allowlist t r) eqn:Hc; [|done].
  eapply IH; [|done]. by eapply credit_transaction_allowlisted.
Qed.

Lemma parse_reimbursement_allowlisted cd recipient allowlist r :
  parse_reimbursement cd recipient allowlist = Ok r → allowlisted allowlist r.
Proof.
  unfold parse_reimbursement. intros Hp. inv_checked.
  destruct (parse_loop _ _ _ _ _ _) as [[]|] eqn:Hl; cbn [default id] in *; simplify_eq.
  eapply parse_loop_allowlisted; [|exact Hl]. intros token. simpl. rewrite lookup_empty. by intros [].
Qed.

Hypothesis word_bits : 16 ≤ usize_bits.

Lemma small_addressable data : (length data ≤ 100)%nat → addressable data.
Proof using W word_bits.
  unfold addressable, umax. intros Hl.
  pose proof (Z.pow_le_mono_r 2 16 usize_bits ltac:(lia) word_bits).
  change (2 ^ 16) with 65536 in *. lia.
Qed.

Lemma decode_erc20_transfer_Some data recipient :
  fits 160 recipient →
  transfer_amount recipient data =
    match decode_erc20_transfer data with
    | Some (to, amount) => if decide (to = recipient) then amount else 0
    | None => 0
    end.
Proof using W word_bits.
  intros Hr. unfold transfer_amount, decode_erc20_transfer.
  case_bool_decide as Hl; simpl; [|by rewrite decide_False by naive_solver].
  assert (Ha : addressable data) by (apply small_addressable; lia).
  assert (∃ s z a w, data = s ++ z ++ a ++ w ∧ length s = 4%nat ∧ length z = 12%nat ∧
            length a = 20%nat ∧ length w = 32%nat) as (s & z & a & w & -> & Hs & Hz & Ha' & Hw).
  { exists (take 4 data), (take 12 (drop 4 data)), (take 20 (drop 16 data)), (drop 36 data).
    rewrite !length_take, !length_drop. split; [|lia].
    change 36%nat with (16 + 20)%nat. rewrite <-drop_drop, take_drop.
    change 16%nat with (4 + 12)%nat at 1. rewrite <-drop_drop, take_drop. by rewrite take_drop. }
  pose proof (slice_mid [] s (z ++ a ++ w) 0 4 eq_refl ltac:(lia)) as H1.
  pose proof (slice_mid s (z ++ a) w 4 (4 + 32) ltac:(lia) ltac:(rewrite length_app; lia)) as H2.
  pose proof (slice_mid (s ++ z ++ a) w [] 36 (36 + 32)
    ltac:(rewrite !length_app; lia) ltac:(lia)) as H3.
  rewrite app_nil_r, <-!app_assoc in H3. rewrite <-!app_assoc in H2. simpl in H1.
  rewrite H1. cbn -[take drop]. unfold read_address_word.
  rewrite bind_bind, checked_slice, read_u256_word_eq, H2, H3 by done. cbn -[take drop].
  rewrite (take_app_length' z a 12), (drop_app_length' z a 12) by done.
  rewrite (assoc_L (++) z a w), (assoc_L (++) s (z ++ a) w).
  rewrite take_app_length', drop_app_length' by (rewrite !length_app; lia).
  rewrite (address_word_bytes recipient Hr).
  destruct (decide (s = ERC20_TRANSFER_SELECTOR)) as [->|Hne].
  - rewrite (bool_decide_eq_true_2 (_ = _)) by done. cbn -[take drop be_bytes].
    destruct (existsb _ z) eqn:Ez; cbn -[take drop].
    + rewrite decide_False; [done|]. intros [_ H]. injection H as H.
      change (z ++ a = replicate 12 x00 ++ be_bytes 20 recipient) in H.
      apply app_inj_1 in H as [-> _]; [done|by rewrite length_replicate].
    + apply zero_prefix in Ez. rewrite Hz in Ez. subst z.
      destruct (decide (be_value a = recipient)) as [<-|Hrec].
      * rewrite decide_True; [done|]. rewrite be_bytes_value by done.
        split; [rewrite !length_app; lia|done].
      * rewrite decide_False; [done|]. intros [_ H].
        injection H as ->.
        apply Hrec. by apply (be_value_bytes_fits 20).
  - rewrite (bool_decide_eq_false_2 (_ = _)) by done. cbn -[take drop].
    rewrite decide_False; [done|]. intros [_ H].
    change (s ++ z ++ a = ERC20_TRANSFER_SELECTOR ++ replicate 12 x00 ++ be_bytes 20 recipient) in H.
    apply app_inj_1 in H as [? _]; done.
Qed.

Lemma transfer_amount_fits recipient data : fits 256 (transfer_amount recipient data).
Proof.
  unfold transfer_amount. case_decide as H; [|done].
  apply be_value_256. rewrite length_drop. lia.
Qed.

Lemma stable_credit_fits recipient allowlist a t : fits 256 (stable_credit recipient allowlist a t).
Proof. unfold stable_credit. case_decide; [apply transfer_amount_fits|done]. Qed.

Lemma native_credit_fits recipient t : tx_wf t → fits 256 (native_credit recipient t).
Proof. intros (_ & ? & _). unfold native_credit. by case_decide. Qed.

(** The reimbursement after one entry. *)
Definition credited (recipient : Z) (allowlist : gset Z) (t : Transaction) (r : Reimbursement) :
    Reimbursement :=
  let sc := stable_credit recipient allowlist (tx_to t) t in
  {| native := native r + native_credit recipient t;
     stablecoins := if decide (sc = 0) then stablecoins r
                    else <[tx_to t := stable_of r (tx_to t) + sc]> (stablecoins r) |}.

Lemma credit_native_eq (to value recipient : Z) (r : Reimbursement) :
  fits 256 (native r) →
  (if decide (to = recipient ∧ value ≠ 0) then
     total ← ok_or (checked 256 (native r + value)) ParseOverflow;
     Ok {| native := total; stablecoins := stablecoins r |}
   else Ok r) =
  let nc := if decide (to = recipient) then value else 0 in
  if decide (fits 256 (native r + nc))
  then Ok {| native := native r + nc; stablecoins := stablecoins r |} else Err ParseOverflow.
Proof.
  intros Hn. destruct (decide (to = recipient)); cbn zeta.
  - destruct (decide (value = 0)) as [->|].
    + rewrite decide_False, Z.add_0_r, decide_True by naive_solver. by destruct r.
    + rewrite decide_True by done. unfold checked. by case_decide.
  - rewrite decide_False, Z.add_0_r, decide_True by naive_solver. by destruct r.
Qed.

Lemma credit_stable_eq (to recipient : Z) (allowlist : gset Z) (data : list byte) (r : Reimbursement) :
  fits 160 recipient → fits 256 (stable_of r to) →
  match (if decide (to ∈ allowlist) then decode_erc20_transfer data else None) with
  | Some (transfer_recipient, amount) =>
      if decide (transfer_recipient = recipient ∧ amount ≠ 0) then
        total ← ok_or (checked 256 (default 0 (stablecoins r !! to) + amount)) ParseOverflow;
        Ok {| native := native r; stablecoins := <[to := total]> (stablecoins r) |}
      else Ok r
  | None => Ok r
  end =
  let sc := if decide (to ∈ allowlist) then transfer_amount recipient data else 0 in
  if decide (fits 256 (stable_of r to + sc))
  then Ok {| native := native r;
             stablecoins := if decide (sc = 0) then stablecoins r
                            else <[to := stable_of r to + sc]> (stablecoins r) |}
  else Err ParseOverflow.
Proof using W word_bits.
  intros Hrec Hst.
  assert (Hz : Ok r = if decide (fits 256 (stable_of r to + 0))
    then Ok {| native := native r;
               stablecoins := if decide (0 = 0) then stablecoins r
                              else <[to := stable_of r to + 0]> (stablecoins r) |}
    else @Err ReimbursementParseError Reimbursement ParseOverflow).
  { rewrite Z.add_0_r, !decide_True by done. by destruct r. }
  destruct (decide (to ∈ allowlist)); cbn zeta; [|exact Hz].
  rewrite (decode_erc20_transfer_Some data recipient Hrec).
  destruct (decode_erc20_transfer data) as [[to' amount]|]; [|exact Hz].
  destruct (decide (to' = recipient)) as [Heq|Hne].
  - destruct (decide (amount = 0)) as [->|Hnz].
    + rewrite decide_False by naive_solver. exact Hz.
    + rewrite decide_True by done.
      clear Hz. unfold stable_of, checked. by case_decide.
  - rewrite decide_False by naive_solver. exact Hz.
Qed.

Lemma credit_transaction_eq recipient allowlist t r :
  fits 160 recipient → reimbursement_wf r →
  credit_transaction recipient allowlist t r =
    if decide (fits 256 (native r + native_credit recipient t) ∧
               fits 256 (stable_of r (tx_to t) + stable_credit recipient allowlist (tx_to t) t))
    then Ok (credited recipient allowlist t r) else Err ParseOverflow.
Proof using W word_bits.
  intros Hrec [Hn Hs]. unfold credit_transaction, credited.
  assert (Hst : fits 256 (stable_of r (tx_to t))).
  { unfold stable_of. destruct (_ !! _) eqn:E; [by apply Hs in E as [_ E]|done]. }
  unfold native_credit, stable_credit.
  destruct (decide (tx_operation t = x00)) as [Hop|Hop].
  - rewrite credit_native_eq by done. cbn zeta.
    rewrite (decide_ext (tx_operation t = x00 ∧ tx_to t = recipient) (tx_to t = recipient))
      by naive_solver.
    rewrite !(decide_ext (tx_operation t = x00 ∧ tx_to t = tx_to t ∧ tx_to t ∈ allowlist)
                        (tx_to t ∈ allowlist)) by naive_solver.
    set (nc := if decide (tx_to t = recipient) then tx_value t else 0).
    destruct (decide (fits 256 (native r + nc))) as [Hf|Hf].
    + cbn -[decide].
      pose proof (credit_stable_eq (tx_to t) recipient allowlist (tx_data t)
        {| native := native r + nc; stablecoins := stablecoins r |} Hrec Hst) as He.
      cbn -[decide] in He. rewrite He. unfold stable_of; cbn -[decide].
      destruct (decide (fits 256 (default 0 _ + _))) as [Hf2|Hf2].
      * by rewrite (decide_True (P := _ ∧ _)) by done.
      * by rewrite (decide_False (P := _ ∧ _)) by naive_solver.
    + cbn -[decide]. by rewrite decide_False by naive_solver.
  - rewrite !(decide_False (P := tx_operation t = x00 ∧ _)) by naive_solver.
    rewrite !Z.add_0_r, !decide_True by done. by destruct r.
Qed.

Lemma stable_of_credited recipient allowlist t r token :
  stable_of (credited recipient allowlist t r) token =
  stable_of r token + stable_credit recipient allowlist token t.
Proof.
  unfold stable_of at 1, credited; cbn -[decide].
  destruct (decide (token = tx_to t)) as [->|Hne].
  - destruct (decide (stable_credit _ _ _ _ = 0)) as [->|].
    + unfold stable_of. lia.
    + by rewrite lookup_insert_eq.
  - assert (stable_credit recipient allowlist token t = 0) as ->.
    { unfold stable_credit. by rewrite decide_False by naive_solver. }
    rewrite Z.add_0_r. case_decide; [done|]. by rewrite lookup_insert_ne.
Qed.

Lemma credited_wf recipient allowlist t r :
  reimbursement_wf r → fits 256 (native r + native_credit recipient t) →
  fits 256 (stable_of r (tx_to t) + stable_credit recipient allowlist (tx_to t) t) →
  reimbursement_wf (credited recipient allowlist t r).
Proof.
  intros [Hn Hs] H1 H2. split; [done|]. intros token v. unfold credited; cbn -[decide].
  case_decide as Hz; [apply Hs|].
  rewrite lookup_insert_Some. intros [[<- <-]|[_ ?]]; [|by eapply Hs].
  pose proof (stable_credit_fits recipient allowlist (tx_to t) t).
  assert (0 ≤ stable_of r (tx_to t)).
  { unfold stable_of. destruct (_ !! _) eqn:E; simpl; [apply Hs in E; lia|lia]. }
  unfold fits in *. lia.
Qed.

Lemma reimbursement_ext r r' :
  reimbursement_wf r → reimbursement_wf r' → native r = native r' →
  (∀ token, stable_of r token = stable_of r' token) → r = r'.
Proof.
  destruct r as [n s], r' as [n' s']. intros [_ Hs] [_ Hs'] Hn Heq. simpl in *. subst. f_equal.
  apply map_eq. intros token. specialize (Heq token). unfold stable_of in Heq. simpl in Heq.
  destruct (s !! token) eqn:E, (s' !! token) eqn:E'; simpl in *; subst;
    try (apply Hs in E; lia); try (apply Hs' in E'; lia); done.
Qed.

(** The total of the entries, when every total fits a [U256]. *)
Definition totals_fit (recipient : Z) (allowlist : gset Z) (txs : list Transaction)
    (r : Reimbursement) : Prop :=
  fits 256 (native r + sumZ (map (native_credit recipient) txs)) ∧
  ∀ token, fits 256 (stable_of r token + sumZ (map (stable_credit recipient allowlist token) txs)).

Lemma credits_nonneg {A} (f : A → Z) txs : Forall (λ t, fits 256 (f t)) txs → 0 ≤ sumZ (map f txs).
Proof.
  intros H. apply sumZ_nonneg, Forall_map. eapply Forall_impl; [exact H|].
  intros t Ht. by apply (fits_nonneg 256).
Qed.

Lemma credit_all_totals recipient allowlist txs r :
  fits 160 recipient → Forall tx_wf txs → reimbursement_wf r →
  (totals_fit recipient allowlist txs r →
   ∃ r', credit_all recipient allowlist txs r = Ok r' ∧ reimbursement_wf r' ∧
     native r' = native r + sumZ (map (native_credit recipient) txs) ∧
     ∀ token, stable_of r' token =
       stable_of r token + sumZ (map (stable_credit recipient allowlist token) txs)) ∧
  (∀ r', credit_all recipient allowlist txs r = Ok r' → totals_fit recipient allowlist txs r).
Proof using W word_bits.
  intros Hrec Hwf. revert r. induction Hwf as [|t txs Ht Hwf IH]; intros r Hr.
  - unfold totals_fit. simpl. setoid_rewrite Z.add_0_r. split.
    + intros _. exists r. done.
    + intros _ _. destruct Hr as [Hn Hs]. split; [done|].
      intros token. unfold stable_of. destruct (_ !! _) eqn:E; simpl; [by apply Hs in E as [_ E]|done].
  - cbn [credit_all map]. setoid_rewrite sumZ_cons. rewrite credit_transaction_eq by done.
    assert (Hn : 0 ≤ sumZ (map (native_credit recipient) txs)).
    { apply credits_nonneg. eapply Forall_impl; [exact Hwf|]. apply native_credit_fits. }
    assert (Hst : ∀ token, 0 ≤ sumZ (map (stable_credit recipient allowlist token) txs)).
    { intros token. apply credits_nonneg, Forall_true. intros. apply stable_credit_fits. }
    assert (Hr0 : 0 ≤ native r ∧ ∀ token, 0 ≤ stable_of r token).
    { destruct Hr as [[Hr _] Hs]. split; [done|]. intros token. unfold stable_of.
      destruct (_ !! _) eqn:E; simpl; [apply Hs in E; lia|lia]. }
    pose proof (native_credit_fits recipient t Ht) as Hnc.
    case_decide as Hd.
    + destruct Hd as [Hd1 Hd2]. specialize (IH _ (credited_wf _ _ _ _ Hr Hd1 Hd2)).
      cbn [mbind result_mbind].
      assert (Hiff : totals_fit recipient allowlist (t :: txs) r ↔
                totals_fit recipient allowlist txs (credited recipient allowlist t r)).
      { unfold totals_fit. cbn [credited native map]. setoid_rewrite sumZ_cons.
        setoid_rewrite stable_of_credited.
        setoid_rewrite Z.add_assoc. done. }
      destruct IH as [IH1 IH2]. split; [|intros r' H; apply Hiff; by eapply IH2].
      intros H. apply Hiff in H. destruct (IH1 H) as (r' & H1 & H2 & H3 & H4). exists r'.
      split; [done|]. split; [done|]. split; [rewrite H3; cbn [credited native]; lia|].
      intros token. rewrite H4, stable_of_credited. lia.
    + split; [|done]. intros [H1 H2]. exfalso. apply Hd.
      pose proof (stable_credit_fits recipient allowlist (tx_to t) t).
      specialize (H2 (tx_to t)). cbn [map] in H1, H2.
      rewrite sumZ_cons in H1, H2.
      pose proof (Hst (tx_to t)). destruct Hr0 as [? Hr0]. specialize (Hr0 (tx_to t)).
      unfold fits in *. lia.
Qed.

End ParserLemmas.

(** ** Reading words laid out at an offset *)

Section Words.
Context `{W : TargetWidth}.

Lemma slice_is_no_longer data s e r : slice data s e = Some r → (length r ≤ length data)%nat.
Proof. intros H%slice_length. lia. Qed.

Lemma read_dynamic_bytes_Some data off r :
  addressable data →
  read_dynamic_bytes data off = Some r ↔
  off mod 32 = 0 ∧
  ∃ w, slice data off (off + 32) = Some w ∧
       slice data (off + 32) (off + 32 + be_value w) = Some r.
Proof.
  intros Ha. unfold read_dynamic_bytes. case_bool_decide as Hm; simpl; [|naive_solver]. split.
  - intros (n & Hn & H)%bind_Some.
    apply read_usize_word_Some in Hn as [(w & Hw & ->) _]; [|done].
    inv_checked. split; [done|]. by exists w.
  - intros [_ (w & Hw & Hr)].
    pose proof (slice_length _ _ _ _ Hw). pose proof (slice_length _ _ _ _ Hr).
    pose proof (be_value_range w). unfold addressable, umax in Ha.
    rewrite (proj2 (read_usize_word_Some data off (be_value w) ltac:(done)));
      [|split; [by exists w|unfold umax; lia]]. simpl.
    rewrite (checked_fits _ (off + 32)) by (unfold fits; lia). simpl.
    by rewrite checked_fits by (unfold fits; lia).
Qed.

Lemma read_dynamic_bytes_mid data pre body post off :
  addressable data → data = pre ++ be_bytes 32 (Z.of_nat (length body)) ++ body ++ post →
  off = Z.of_nat (length pre) → off mod 32 = 0 → fits 256 (Z.of_nat (length body)) →
  read_dynamic_bytes data off = Some body.
Proof.
  intros Ha -> -> Hm Hf. apply read_dynamic_bytes_Some; [done|]. split; [done|].
  exists (be_bytes 32 (Z.of_nat (length body))). split.
  - apply slice_mid; [done|]. by rewrite be_bytes_length.
  - rewrite (be_value_bytes_fits 32) by done. rewrite (assoc_L (++) pre).
    apply slice_mid; [|done]. rewrite length_app, be_bytes_length. lia.
Qed.

Lemma read_address_word_mid data pre a post off :
  addressable data → data = pre ++ be_bytes 32 a ++ post → off = Z.of_nat (length pre) →
  fits 160 a → read_address_word data off = Some a.
Proof.
  intros Ha -> -> Hf. unfold read_address_word. rewrite bind_bind, checked_slice by done.
  rewrite (slice_mid pre (be_bytes 32 a) post) by (rewrite ?be_bytes_length; done).
  rewrite (address_word_bytes a Hf). cbn -[take drop replicate].
  rewrite take_app_length', drop_app_length' by by rewrite length_replicate.
  replace (existsb _ _) with false by by vm_compute.
  by rewrite (be_value_bytes_fits 20).
Qed.

Lemma read_word_mid data pre v post off :
  addressable data → data = pre ++ be_bytes 32 v ++ post → off = Z.of_nat (length pre) →
  fits 256 v → read_u256_word data off = Some v.
Proof.
  intros Ha -> -> Hf. rewrite read_u256_word_eq by done.
  rewrite (slice_mid pre (be_bytes 32 v) post) by (rewrite ?be_bytes_length; done).
  simpl. by rewrite (be_value_bytes_fits 32).
Qed.

Lemma read_usize_mid data pre v post off :
  addressable data → data = pre ++ be_bytes 32 v ++ post → off = Z.of_nat (length pre) →
  fits 256 v → v ≤ umax usize_bits → read_usize_word data off = Some v.
Proof.
  intros Ha Hd Ho Hf Hv. unfold read_usize_word.
  rewrite (read_word_mid data pre v post) by done. simpl. by rewrite decide_False by lia.
Qed.

End Words.

(** ** The Safe's calldata *)

(** The ABI layout, without the parser's readers: a word, and a dynamic byte
    string at a word boundary, laid out at an offset. *)
Definition word_at (data : list byte) (offset v : Z) : Prop :=
  fits 256 v ∧ ∃ pre post, data = pre ++ be_bytes 32 v ++ post ∧ offset = Z.of_nat (length pre).

Definition bytes_at (data : list byte) (offset : Z) (body : list byte) : Prop :=
  fits 256 (Z.of_nat (length body)) ∧ offset mod 32 = 0 ∧ ∃ pre post,
    data = pre ++ be_bytes 32 (Z.of_nat (length body)) ++ body ++ post ∧
    offset = Z.of_nat (length pre).

(** What the Safe executes: [executeUserOp(to, value, data, operation)] where
    [to] is the trusted MultiSend contract, [operation] is 1 (a DELEGATECALL)
    and [data] is [multiSend(payload)]. *)
Definition executes_multi_send (call_data payload : list byte) : Prop :=
  ∃ args data_offset inner inner_args transactions_offset,
    call_data = [x7b; xb3; x74; x28] ++ args ∧
    word_at args 0 0x38869bf66a61cf6bdb996a6ae40d5853fd43b526 ∧
    word_at args 64 data_offset ∧ word_at args 96 1 ∧
    bytes_at args data_offset inner ∧
    inner = [x8d; x80; xff; x0a] ++ inner_args ∧
    word_at inner_args 0 transactions_offset ∧
    bytes_at inner_args transactions_offset payload.

Section Layout.
Context `{W : TargetWidth}.

Lemma read_u256_word_at data off v :
  addressable data → read_u256_word data off = Some v ↔ word_at data off v.
Proof.
  intros Ha. rewrite read_u256_word_eq by done. split.
  - intros (w & Hw & ->)%fmap_Some. apply slice_Some in Hw as (pre & post & -> & -> & Hl).
    assert (length w = 32%nat) as Hw by lia. split; [by apply be_value_256|].
    exists pre, post. by rewrite be_bytes_value.
  - intros [Hv (pre & post & -> & ->)]. apply fmap_Some. exists (be_bytes 32 v).
    split; [|by rewrite (be_value_bytes_fits 32)].
    apply slice_mid; [done|]. by rewrite be_bytes_length.
Qed.

Lemma read_usize_word_at data off v :
  addressable data → read_usize_word data off = Some v ↔ word_at data off v ∧ v ≤ umax usize_bits.
Proof.
  intros Ha. rewrite <-read_u256_word_at by done. unfold read_usize_word.
  destruct (read_u256_word data off); simpl; [case_decide|]; naive_solver lia.
Qed.

Lemma read_address_word_at data off v :
  addressable data → read_address_word data off = Some v ↔ word_at data off v ∧ fits 160 v.
Proof.
  intros Ha. split.
  - unfold read_address_word. rewrite bind_bind, checked_slice by done.
    intros H. apply bind_Some in H as (w & Hw & H). case_match eqn:Hz; [done|]. injection H as <-.
    apply slice_Some in Hw as (pre & post & -> & -> & Hl). assert (length w = 32%nat) as Hw by lia.
    assert (length (drop 12 w) = 20%nat) as Hd by (rewrite length_drop; lia).
    assert (fits 160 (be_value (drop 12 w))) as Hf by by apply be_value_160.
    split; [|done]. split; [eapply fits_mono; [|exact Hf]; lia|].
    exists pre, post. split; [|done]. rewrite (address_word_bytes _ Hf), (be_bytes_value 20) by done.
    apply zero_prefix in Hz. rewrite length_take_le in Hz by lia. by rewrite <-Hz, take_drop.
  - intros [[_ (pre & post & -> & ->)] Hf]. by eapply read_address_word_mid.
Qed.

Lemma read_dynamic_bytes_at data off body :
  addressable data → read_dynamic_bytes data off = Some body ↔ bytes_at data off body.
Proof.
  intros Ha. split.
  - rewrite read_dynamic_bytes_Some by done. intros [Hm (w & Hw & Hb)].
    pose proof (slice_join _ _ _ _ _ _ Hw Hb) as Hj. apply slice_length in Hw, Hb.
    assert (length w = 32%nat) as Hl by lia. assert (Z.of_nat (length body) = be_value w) as Hv by lia.
    apply slice_Some in Hj as (pre & post & -> & -> & _).
    split; [rewrite Hv; by apply be_value_256|]. split; [done|].
    exists pre, post. rewrite Hv, be_bytes_value by done. by rewrite <-(assoc_L (++)).
  - intros (Hf & Hm & pre & post & -> & ->). by eapply read_dynamic_bytes_mid.
Qed.

Lemma bytes_at_offset data off body :
  addressable data → bytes_at data off body → off ≤ umax usize_bits.
Proof.
  unfold addressable. intros Ha (_ & _ & pre & post & -> & ->).
  rewrite length_app in Ha. lia.
Qed.

Lemma selector_slice (l s : list byte) :
  length s = 4%nat → slice l 0 4 = Some s ↔ l = s ++ drop 4 l.
Proof.
  intros Hs. rewrite slice_Some. split.
  - intros (pre & post & -> & Hp & _). destruct pre; [|simpl in Hp; lia]. simpl.
    by rewrite drop_app_length'.
  - intros Hl. exists [], (drop 4 l). simpl. split; [done|]. lia.
Qed.

(** The decoder accepts exactly the calldata with which the Safe executes a
    MultiSend. *)
Lemma decode_multisend_iff cd payload :
  addressable cd →
  decode_multisend_transactions cd = Some payload ↔ executes_multi_send cd payload.
Proof.
  intros Ha.
  assert (Haa : addressable (drop 4 cd)) by (eapply addressable_le; [exact Ha|rewrite length_drop; lia]).
  unfold decode_multisend_transactions. split.
  - intros H. apply bind_Some in H as (s1 & Hs1 & H). case_bool_decide as H1; [subst s1|done]. cbn [negb] in H.
    apply bind_Some in H as (tg & Htg & H). apply bind_Some in H as (o & Ho & H).
    apply bind_Some in H as (op & Hop & H). do 2 (case_bool_decide; [|done]). subst. cbn [negb orb] in H.
    apply bind_Some in H as (inner & Hin & H). apply bind_Some in H as (s2 & Hs2 & H).
    case_bool_decide; [subst s2|done]. cbn [negb] in H. apply bind_Some in H as (o2 & Ho2 & H).
    apply selector_slice in Hs1; [|done]. apply selector_slice in Hs2; [|done].
    apply read_address_word_at in Htg as [Htg _]; [|done].
    apply read_usize_word_at in Ho as [Ho _]; [|done]. apply read_u256_word_at in Hop; [|done].
    assert (Hai : addressable (drop 4 inner)).
    { eapply addressable_le; [exact Haa|]. rewrite length_drop.
      apply read_dynamic_bytes_at in Hin as (_ & _ & pre & post & -> & _); [|done].
      rewrite !length_app. lia. }
    apply read_dynamic_bytes_at in Hin; [|done]. apply read_usize_word_at in Ho2 as [Ho2 _]; [|done].
    apply read_dynamic_bytes_at in H; [|done].
    by exists (drop 4 cd), o, inner, (drop 4 inner), o2.
  - intros (args & o & inner & iargs & o2 & -> & Htg & Ho & Hop & Hin & -> & Ho2 & Hp).
    change (drop 4 (_ ++ args)) with args in *.
    assert (Hai : addressable iargs).
    { eapply addressable_le; [exact Haa|]. destruct Hin as (_ & _ & pre & post & -> & _).
      rewrite !length_app. lia. }
    rewrite (proj2 (selector_slice _ EXECUTE_USER_OP_SELECTOR eq_refl)) by done. cbn [mbind option_bind].
    rewrite bool_decide_eq_true_2 by done. cbn [negb].
    change (drop 4 ([x7b; xb3; x74; x28] ++ args)) with args.
    rewrite (proj2 (read_address_word_at _ _ TRUSTED_MULTISEND Haa)) by done. cbn [mbind option_bind].
    rewrite (proj2 (read_usize_word_at _ _ o Haa))
      by (split; [done|exact (bytes_at_offset _ _ _ Haa Hin)]).
    cbn [mbind option_bind].
    rewrite (proj2 (read_u256_word_at _ _ 1 Haa)) by done. cbn [mbind option_bind].
    rewrite !bool_decide_eq_true_2 by done. cbn [negb orb].
    rewrite (proj2 (read_dynamic_bytes_at _ _ _ Haa) Hin). cbn [mbind option_bind].
    rewrite (proj2 (selector_slice _ MULTISEND_SELECTOR eq_refl)) by done. cbn [mbind option_bind].
    rewrite bool_decide_eq_true_2 by done. cbn [negb].
    change (drop 4 ([x8d; x80; xff; x0a] ++ iargs)) with iargs.
    rewrite (proj2 (read_usize_word_at _ _ o2 Hai))
      by (split; [done|exact (bytes_at_offset _ _ _ Hai Hp)]).
    cbn [mbind option_bind]. by apply read_dynamic_bytes_at.
Qed.

End Layout.

(** [multiSend(bytes)]: selector, offset 32, length, payload, padding. *)
Definition multi_send_call (txs : list Transaction) (padding : list byte) : list byte :=
  MULTISEND_SELECTOR ++ be_bytes 32 32 ++
  be_bytes 32 (Z.of_nat (length (pack_transactions txs))) ++ pack_transactions txs ++ padding.

(** [executeUserOp(to, value, data, operation)] of a DELEGATECALL to
    MultiSend. *)
Definition execute_user_op_call (value : Z) (txs : list Transaction)
    (inner_padding padding : list byte) : list byte :=
  let inner := multi_send_call txs inner_padding in
  EXECUTE_USER_OP_SELECTOR ++ be_bytes 32 TRUSTED_MULTISEND ++ be_bytes 32 value ++
  be_bytes 32 128 ++ be_bytes 32 1 ++ be_bytes 32 (Z.of_nat (length inner)) ++ inner ++ padding.

Section ParserClaims.
Context `{W : TargetWidth}.
Hypothesis word_bits : 16 ≤ usize_bits.

Lemma addressable_256 (data k : list byte) :
  usize_bits ≤ 256 → addressable data → (length k ≤ length data)%nat → fits 256 (Z.of_nat (length k)).
Proof using W word_bits.
  unfold addressable, umax, fits. intros Hb Ha Hk.
  pose proof (Z.pow_le_mono_r 2 usize_bits 256 ltac:(lia) Hb). lia.
Qed.

Lemma small_usize v : 0 ≤ v ≤ 1000 → v ≤ umax usize_bits.
Proof using W word_bits.
  intros Hv. unfold umax. pose proof (Z.pow_le_mono_r 2 16 usize_bits ltac:(lia) word_bits).
  change (2 ^ 16) with 65536 in *. lia.
Qed.

Lemma decode_execute_user_op value txs inner_padding padding :
  usize_bits ≤ 256 → fits 256 value →
  addressable (execute_user_op_call value txs inner_padding padding) →
  decode_multisend_transactions (execute_user_op_call value txs inner_padding padding)
    = Some (pack_transactions txs).
Proof using W word_bits.
  intros Hb Hv Ha. set (cd := execute_user_op_call _ _ _ _) in *.
  set (inner := multi_send_call txs inner_padding).
  set (args := be_bytes 32 TRUSTED_MULTISEND ++ be_bytes 32 value ++ be_bytes 32 128 ++
    be_bytes 32 1 ++ be_bytes 32 (Z.of_nat (length inner)) ++ inner ++ padding).
  assert (Hcd : cd = EXECUTE_USER_OP_SELECTOR ++ args) by done.
  set (inner_args := be_bytes 32 32 ++
    be_bytes 32 (Z.of_nat (length (pack_transactions txs))) ++ pack_transactions txs ++ inner_padding).
  assert (Hin : inner = MULTISEND_SELECTOR ++ inner_args) by done.
  assert (Hla : (length args ≤ length cd)%nat) by (rewrite Hcd, length_app; lia).
  assert (Hli : (length inner ≤ length args)%nat) by (unfold args; rewrite !length_app; lia).
  assert (Hlj : (length inner_args ≤ length inner)%nat) by (rewrite Hin, length_app; lia).
  assert (Hlp : (length (pack_transactions txs) ≤ length inner_args)%nat)
    by (unfold inner_args; rewrite !length_app; lia).
  assert (Haa : addressable args) by (by eapply addressable_le).
  assert (Hai : addressable inner_args) by (eapply addressable_le; [exact Ha|lia]).
  pose proof (slice_mid [] EXECUTE_USER_OP_SELECTOR args 0 4 eq_refl eq_refl
    : slice cd 0 4 = Some EXECUTE_USER_OP_SELECTOR) as H1.
  pose proof (slice_mid [] MULTISEND_SELECTOR inner_args 0 4 eq_refl eq_refl
    : slice inner 0 4 = Some MULTISEND_SELECTOR) as H2.
  assert (Hd : drop 4 cd = args) by by rewrite Hcd.
  assert (Hd' : drop 4 inner = inner_args) by by rewrite Hin.
  clearbody cd inner.
  unfold decode_multisend_transactions. rewrite H1. cbn -[drop].
  rewrite Hd, bool_decide_eq_true_2 by done. cbn -[drop].
  rewrite (read_address_word_mid args [] TRUSTED_MULTISEND _ 0 Haa eq_refl) by done.
  cbn -[drop].
  rewrite (read_usize_mid args (be_bytes 32 TRUSTED_MULTISEND ++ be_bytes 32 value) 128 _ 64 Haa)
    by (apply small_usize; lia) || (by rewrite <-?(assoc_L (++))).
  cbn -[drop].
  rewrite (read_word_mid args (be_bytes 32 TRUSTED_MULTISEND ++ be_bytes 32 value ++ be_bytes 32 128)
    1 (be_bytes 32 (Z.of_nat (length inner)) ++ inner ++ padding) 96 Haa)
    by (by rewrite <-?(assoc_L (++))).
  cbn -[drop]. rewrite !bool_decide_eq_true_2 by done. cbn -[drop].
  rewrite (read_dynamic_bytes_mid args (be_bytes 32 TRUSTED_MULTISEND ++ be_bytes 32 value ++
    be_bytes 32 128 ++ be_bytes 32 1) inner padding 128 Haa).
  2:{ by rewrite <-!(assoc_L (++)). }
  2:{ by rewrite !length_app, !be_bytes_length. }
  2:{ done. }
  2:{ apply (addressable_256 cd); [done..|lia]. }
  cbn -[drop]. rewrite H2. cbn -[drop]. rewrite bool_decide_eq_true_2, Hd' by done. cbn -[drop].
  rewrite (read_usize_mid inner_args [] 32 _ 0 Hai eq_refl) by (done || (apply small_usize; lia)).
  cbn -[drop]. eapply (read_dynamic_bytes_mid inner_args (be_bytes 32 32)); try done.
  apply (addressable_256 cd); [done..|lia].
Qed.

Lemma decode_shorter cd t : decode_multisend_transactions cd = Some t → (length t ≤ length cd)%nat.
Proof using W.
  clear word_bits. unfold decode_multisend_transactions. intros H.
  apply bind_Some in H as (s1 & _ & H). case_match; [done|].
  apply bind_Some in H as (tg & _ & H). apply bind_Some in H as (o & _ & H).
  apply bind_Some in H as (op & _ & H). case_match; [done|].
  apply bind_Some in H as (inner & Hi & H). apply bind_Some in H as (s2 & _ & H).
  case_match; [done|]. apply bind_Some in H as (o2 & _ & H).
  assert (Hdyn : ∀ d o r, read_dynamic_bytes d o = Some r → (length r ≤ length d)%nat).
  { intros d o' r Hr. unfold read_dynamic_bytes in Hr. case_match; [done|]. inv_checked.
    by eapply slice_is_no_longer. }
  apply Hdyn in Hi, H. rewrite !length_drop in *. lia.
Qed.

(** The reimbursement a list of entries adds up to. *)
Definition reimburses (recipient : Z) (allowlist : gset Z) (txs : list Transaction)
    (r : Reimbursement) : Prop :=
  native r = sumZ (map (native_credit recipient) txs) ∧
  (∀ token, stable_of r token = sumZ (map (stable_credit recipient allowlist token) txs)) ∧
  reimbursement_wf r.

Lemma default_wf : reimbursement_wf default_reimbursement.
Proof. split; [done|]. intros token v. unfold default_reimbursement. simpl. by rewrite lookup_empty. Qed.

Lemma stable_of_default token : stable_of default_reimbursement token = 0.
Proof. unfold stable_of. simpl. by rewrite lookup_empty. Qed.

(** The parser on a payload that packs [txs]. *)
Lemma parse_reimbursement_packed cd recipient allowlist txs :
  addressable cd → fits 160 recipient → Forall tx_wf txs →
  decode_multisend_transactions cd = Some (pack_transactions txs) →
  parse_reimbursement cd recipient allowlist =
  credit_all recipient allowlist txs default_reimbursement.
Proof using W.
  clear word_bits. intros Ha Hrec Hwf Hd. unfold parse_reimbursement. rewrite Hd. cbn [mbind result_mbind ok_or].
  pose proof (decode_shorter _ _ Hd).
  rewrite (parse_loop_packed _ _ _ _ _ txs); [done|by eapply addressable_le|lia|lia|done|].
  apply slice_all.
Qed.

(** C24: The parser credits exactly what the Safe executes.  On any calldata
    it succeeds with [r] if and only if the calldata lays out, at the ABI's
    offsets, an [executeUserOp] whose target is the trusted MultiSend
    contract, whose operation is 1 (a DELEGATECALL) and whose data is
    [multiSend] of the packed bytes of some list of entries; every total of
    those entries fits a [U256]; and [r] adds up their [CALL]s: the native
    values sent to the recipient, and per allowlisted token the amounts of
    exact ERC-20 transfers to it.  Nothing is credited for a DELEGATECALL,
    another recipient or another token; a MultiSend whose totals overflow is
    not parsed at all. *)
Theorem parse_reimbursement_exact cd recipient allowlist r :
  addressable cd → fits 160 recipient →
  parse_reimbursement cd recipient allowlist = Ok r ↔
  ∃ txs, executes_multi_send cd (pack_transactions txs) ∧
    Forall tx_wf txs ∧ totals_fit recipient allowlist txs default_reimbursement ∧
    reimburses recipient allowlist txs r.
Proof using W word_bits.
  intros Ha Hrec. split.
  - unfold parse_reimbursement. intros H. inv_checked.
    match goal with H : decode_multisend_transactions cd = Some ?t |- _ =>
      rename H into Hd; rename t into b end.
    pose proof (decode_shorter _ _ Hd) as Hle.
    assert (Hb : addressable b) by by eapply addressable_le.
    destruct (parse_loop_total (S (length b)) recipient allowlist b 0 default_reimbursement
      Hb ltac:(lia) ltac:(lia)) as [res Hres]. rewrite Hres in H0. simpl in H0. subst res.
    apply parse_loop_sound in Hres as (txs & Hwf & Hs & Hc); [|done|lia].
    rewrite slice_all in Hs. injection Hs as ->. exists txs.
    split; [by apply decode_multisend_iff|]. split; [done|].
    destruct (credit_all_totals word_bits recipient allowlist txs default_reimbursement Hrec Hwf default_wf)
      as [H1 H2]. specialize (H2 r Hc). split; [exact H2|].
    destruct (H1 H2) as (r' & Hc' & Hw & Hn & Hst). rewrite Hc in Hc'. injection Hc' as <-.
    split; [exact Hn|]. split; [|exact Hw]. intros token. by rewrite Hst, stable_of_default.
  - intros (txs & Hd%decode_multisend_iff & Hwf & Hfit & Hn & Hs & Hw); [|done].
    rewrite (parse_reimbursement_packed cd recipient allowlist txs) by done.
    destruct (credit_all_totals word_bits recipient allowlist txs default_reimbursement Hrec Hwf default_wf)
      as [H1 _]. destruct (H1 Hfit) as (r' & -> & Hw' & Hn' & Hs'). f_equal.
    apply reimbursement_ext; [done|done| |].
    + rewrite Hn', Hn. done.
    + intros token. rewrite Hs', Hs, stable_of_default. done.
Qed.

Lemma credit_all_Err recipient allowlist txs r e :
  fits 160 recipient → Forall tx_wf txs → reimbursement_wf r →
  credit_all recipient allowlist txs r = Err e → e = ParseOverflow.
Proof using W word_bits.
  intros Hrec Hwf. revert r. induction Hwf as [|t txs Ht Hwf IH]; intros r Hr; [done|].
  cbn [credit_all]. rewrite credit_transaction_eq by done.
  case_decide as Hd; cbn [mbind result_mbind]; [|by intros [= <-]].
  destruct Hd. by apply IH, credited_wf.
Qed.

(** Paying in-band round trips.  For the calldata a Safe signs to send
    any list of calls through MultiSend, whatever the padding, the relay reads
    back exactly the sum of the calls that pay it, and reports an arithmetic
    overflow, never a smaller sum, when a total exceeds a [U256]. *)
Theorem reimbursement_round_trip value txs inner_padding padding recipient allowlist :
  usize_bits ≤ 256 → fits 256 value → fits 160 recipient → Forall tx_wf txs →
  addressable (execute_user_op_call value txs inner_padding padding) →
  (totals_fit recipient allowlist txs default_reimbursement →
   ∃ r, parse_reimbursement (execute_user_op_call value txs inner_padding padding)
          recipient allowlist = Ok r ∧ reimburses recipient allowlist txs r) ∧
  (¬ totals_fit recipient allowlist txs default_reimbursement →
   parse_reimbursement (execute_user_op_call value txs inner_padding padding)
     recipient allowlist = Err ParseOverflow).
Proof using W word_bits.
  intros Hb Hv Hrec Hwf Ha.
  rewrite (parse_reimbursement_packed _ recipient allowlist txs);
    [|done..|by apply decode_execute_user_op].
  destruct (credit_all_totals word_bits recipient allowlist txs default_reimbursement Hrec Hwf default_wf)
    as [H1 H2]. split.
  - intros Hfit. destruct (H1 Hfit) as (r & Hc & Hw & Hn & Hs). exists r. split; [done|].
    split; [exact Hn|]. split; [|done]. intros token. by rewrite Hs, stable_of_default.
  - intros Hno. destruct (credit_all _ _ _ _) as [r|e] eqn:E; [by destruct Hno; eapply H2|].
    f_equal. by apply (credit_all_Err recipient allowlist txs default_reimbursement).
Qed.

End ParserClaims.

(** ** Concrete calldata *)

Definition sample_recipient : Z := 0xfee0000000000000000000000000000000000001.
Definition sample_token : Z := 0x70ce0000000000000000000000000000000000d6.

Definition erc20_transfer_call (to amount : Z) : list byte :=
  ERC20_TRANSFER_SELECTOR ++ be_bytes 32 to ++ be_bytes 32 amount.

(** A CALL paying 1000 wei, a CALL paying 25 token units, and a DELEGATECALL
    that only looks like a payment. *)
Definition sample_txs : list Transaction :=
  [ {| tx_operation := x00; tx_to := sample_recipient; tx_value := 1000; tx_data := [] |};
    {| tx_operation := x00; tx_to := sample_token; tx_value := 0;
       tx_data := erc20_transfer_call sample_recipient 25 |};
    {| tx_operation := x01; tx_to := sample_recipient; tx_value := 7; tx_data := [x00] |} ].

Definition sample_call : list byte := execute_user_op_call 0 sample_txs [] [].
Definition sample_paid : Reimbursement := {| native := 1000; stablecoins := {[ sample_token := 25 ]} |}.

Lemma sample_paid_wf : reimbursement_wf sample_paid.
Proof.
  split; [done|]. intros token v. simpl. rewrite lookup_singleton_Some. intros [_ <-]. done.
Qed.

Lemma sample_stable token :
  sumZ (map (stable_credit sample_recipient {[sample_token]} token) sample_txs) =
  if decide (token = sample_token) then 25 else 0.
Proof.
  case_decide as H; [subst; by vm_compute|]. unfold stable_credit; simpl.
  rewrite !decide_False; [done|..]; try naive_solver.
Qed.

Lemma sample_totals : totals_fit sample_recipient {[sample_token]} sample_txs default_reimbursement.
Proof.
  split; [by vm_compute|]. intros token. rewrite stable_of_default, sample_stable.
  by case_decide.
Qed.

Lemma sample_reimburses :
  reimburses sample_recipient {[sample_token]} sample_txs sample_paid.
Proof.
  split; [by vm_compute|]. split; [|apply sample_paid_wf]. intros token.
  rewrite sample_stable. unfold stable_of. simpl. case_decide as H.
  - subst. by rewrite lookup_singleton_eq.
  - by rewrite lookup_singleton_ne.
Qed.

Lemma sample_wf : Forall tx_wf sample_txs.
Proof. repeat constructor; by vm_compute. Qed.

Lemma sample_executes : executes_multi_send sample_call (pack_transactions sample_txs).
Proof. apply (@decode_multisend_iff x86_64); by vm_compute. Qed.

Lemma parse_reimbursement_exact_witness :
  @parse_reimbursement x86_64 sample_call sample_recipient {[sample_token]} = Ok sample_paid.
Proof.
  refine (proj2 (@parse_reimbursement_exact x86_64 _ sample_call sample_recipient _ _ _ _) _);
    [by vm_compute..|].
  exists sample_txs. split; [exact sample_executes|]. split; [apply sample_wf|].
  split; [apply sample_totals|apply sample_reimburses].
Defined.

Lemma reimbursement_round_trip_witness :
  ∃ r, @parse_reimbursement wasm32 sample_call sample_recipient {[sample_token]} = Ok r ∧
    reimburses sample_recipient {[sample_token]} sample_txs r.
Proof.
  refine (proj1 (@reimbursement_round_trip wasm32 _ 0 sample_txs [] [] sample_recipient _ _ _ _ _ _) _);
    [by vm_compute..|apply sample_wf|by vm_compute|apply sample_totals].
Defined.

(** ** The target's width *)

Section Widths.
Context (W1 W2 : TargetWidth).

Lemma read_address_word_width d o :
  @addressable W1 d → @addressable W2 d → @read_address_word W1 d o = @read_address_word W2 d o.
Proof. intros H1 H2. unfold read_address_word. by rewrite !bind_bind, !checked_slice. Qed.

Lemma read_u256_word_width d o :
  @addressable W1 d → @addressable W2 d → @read_u256_word W1 d o = @read_u256_word W2 d o.
Proof. intros H1 H2. by rewrite !read_u256_word_eq. Qed.

(** An offset that is then read at is below the slice's length. *)
Lemma read_at_width d o off r :
  @addressable W1 d → @addressable W2 d →
  @read_usize_word W1 d o = Some off → @read_dynamic_bytes W1 d off = Some r →
  @read_usize_word W2 d o = Some off ∧ @read_dynamic_bytes W2 d off = Some r.
Proof.
  intros H1 H2 Ho Hr. apply read_dynamic_bytes_Some in Hr as [Hm (w & Hw & Hr)]; [|done].
  apply read_usize_word_Some in Ho as [Ho _]; [|done]. split.
  - apply read_usize_word_Some; [done|]. split; [done|].
    apply slice_length in Hw. unfold addressable in H2. lia.
  - apply read_dynamic_bytes_Some; [done|]. split; [done|]. by exists w.
Qed.

Lemma decode_multisend_width cd t :
  @addressable W1 cd → @addressable W2 cd →
  @decode_multisend_transactions W1 cd = Some t → @decode_multisend_transactions W2 cd = Some t.
Proof.
  intros H1 H2. unfold decode_multisend_transactions.
  destruct (slice cd 0 4) as [sel|]; [|done]. cbn -[drop].
  case_match; [done|].
  assert (Ha1 : @addressable W1 (drop 4 cd)) by (eapply addressable_le; [done|rewrite length_drop; lia]).
  assert (Ha2 : @addressable W2 (drop 4 cd)) by (eapply addressable_le; [done|rewrite length_drop; lia]).
  rewrite (read_address_word_width (drop 4 cd) 0), (read_u256_word_width (drop 4 cd) 96) by done.
  destruct (@read_address_word W2 _ _) as [tg|]; [|done]. cbn -[drop].
  intros (off & Hoff & H')%bind_Some. revert H'.
  destruct (@read_u256_word W2 _ _) as [op|] eqn:Eop; [|done]. cbn -[drop].
  case_match eqn:Echk; [done|]. intros (inner & Hin & H')%bind_Some. revert H'.
  destruct (read_at_width _ _ _ _ Ha1 Ha2 Hoff Hin) as [-> Hin2]. cbn -[drop].
  rewrite ?Eop. cbn -[drop]. rewrite ?Echk, Hin2. cbn -[drop].
  destruct (slice inner 0 4) as [s2|]; [|done]. cbn -[drop]. case_match; [done|].
  assert (Hlen : (length inner ≤ length (drop 4 cd))%nat).
  { apply read_dynamic_bytes_Some in Hin as [_ (w & _ & Hs)]; [|done].
    by eapply slice_is_no_longer. }
  intros (o2 & Ho2 & Hr)%bind_Some.
  destruct (read_at_width (drop 4 inner) 0 o2 t) as [-> Hr2]; [| |done..|exact Hr2].
  all: eapply addressable_le; [exact Ha1 || exact Ha2|rewrite !length_drop in *; lia].
Qed.

Lemma read_transaction_width d o :
  0 ≤ o → @addressable W1 d → @addressable W2 d →
  @read_transaction W1 d o = @read_transaction W2 d o.
Proof.
  intros Ho H1 H2. apply option_eq. intros [t stop].
  by rewrite !read_transaction_Some.
Qed.

Hypothesis bits1 : 16 ≤ @usize_bits W1.
Hypothesis bits2 : 16 ≤ @usize_bits W2.

Lemma decode_erc20_transfer_width d :
  @decode_erc20_transfer W1 d = @decode_erc20_transfer W2 d.
Proof using bits1 bits2.
  unfold decode_erc20_transfer. case_bool_decide as Hl; [|done]. cbn -[drop].
  assert (H1 : @addressable W1 d) by (apply small_addressable; [done|lia]).
  assert (H2 : @addressable W2 d) by (apply small_addressable; [done|lia]).
  by rewrite read_address_word_width, read_u256_word_width.
Qed.

Lemma parse_loop_width fuel recipient allowlist d o r :
  0 ≤ o → @addressable W1 d → @addressable W2 d →
  @parse_loop W1 fuel recipient allowlist d o r = @parse_loop W2 fuel recipient allowlist d o r.
Proof using bits1 bits2.
  intros Ho H1 H2. revert o r Ho. induction fuel as [|fuel IH]; intros o r Ho; [done|].
  cbn [parse_loop]. case_decide; [|done].
  rewrite (read_transaction_width d o) by done.
  destruct (@read_transaction W2 d o) as [[t stop]|] eqn:E; [|done].
  apply read_transaction_advances in E; [|done..].
  assert (@credit_transaction W1 recipient allowlist t r =
          @credit_transaction W2 recipient allowlist t r) as ->.
  { unfold credit_transaction. by rewrite decode_erc20_transfer_width. }
  case_match; [|done]. apply IH. lia.
Qed.

Lemma parse_reimbursement_width cd recipient allowlist :
  @addressable W1 cd → @addressable W2 cd →
  @parse_reimbursement W1 cd recipient allowlist = @parse_reimbursement W2 cd recipient allowlist ∨
  @decode_multisend_transactions W1 cd ≠ @decode_multisend_transactions W2 cd.
Proof using bits1 bits2.
  intros H1 H2.
  destruct (decide (@decode_multisend_transactions W1 cd = @decode_multisend_transactions W2 cd))
    as [He|]; [left|by right].
  unfold parse_reimbursement. rewrite He.
  destruct (@decode_multisend_transactions W2 cd) as [b|] eqn:E; [|done].
  cbn [ok_or mbind result_mbind]. pose proof (decode_shorter _ _ E).
  rewrite parse_loop_width; [done|lia|by eapply addressable_le..].
Qed.
End Widths.

(** The Worker and the server read the same payment.  On calldata of any
    size a 32-bit target can hold, the parser's verdict, errors included, is
    the same with 32-bit and 64-bit offsets. *)
Theorem parse_reimbursement_portable cd recipient allowlist :
  Z.of_nat (length cd) < 2 ^ 32 →
  @parse_reimbursement wasm32 cd recipient allowlist =
  @parse_reimbursement x86_64 cd recipient allowlist.
Proof.
  intros Hlen.
  assert (H1 : @addressable wasm32 cd) by (unfold addressable, umax, usize_bits, wasm32; lia).
  assert (H2 : @addressable x86_64 cd) by (unfold addressable, umax, usize_bits, x86_64; lia).
  destruct (parse_reimbursement_width wasm32 x86_64 ltac:(done) ltac:(done) cd recipient allowlist H1 H2)
    as [?|Hne]; [done|]. destruct Hne. apply option_eq. intros t.
  split; by apply decode_multisend_width.
Qed.

Lemma parse_reimbursement_portable_witness :
  @parse_reimbursement wasm32 sample_call sample_recipient {[sample_token]} =
  @parse_reimbursement x86_64 sample_call sample_recipient {[sample_token]}.
Proof. apply parse_reimbursement_portable. by vm_compute. Defined.

(** ** Transfer logs *)

Section LogClaims.
Context `{K : Keccak}.

Definition counted_amount (sender recipient token : Z) (log : SettlementLog) : Z :=
  if log_counts sender recipient token log then be_value (log_data log) else 0.

Lemma log_counts_true sender recipient token log :
  log_counts sender recipient token log = true ↔
  log_address log = token ∧
  log_topics log = [transfer_signature; address_word sender; address_word recipient] ∧
  length (log_data log) = 32%nat.
Proof.
  unfold log_counts. rewrite !andb_true_iff, !bool_decide_eq_true.
  destruct (log_topics log) as [|a [|b [|c [|d l]]]]; simpl; naive_solver.
Qed.

Lemma add_logs_eq sender recipient token logs acc :
  fits 256 acc →
  foldl (add_log sender recipient token) (Some acc) logs =
  checked 256 (acc + sumZ (map (counted_amount sender recipient token) logs)).
Proof.
  revert acc. induction logs as [|log logs IH]; intros acc Hacc; cbn [map foldl].
  - cbn. by rewrite Z.add_0_r, checked_fits.
  - rewrite sumZ_cons. cbn [add_log mbind option_bind]. unfold counted_amount at 1.
    assert (Hnn : 0 ≤ sumZ (map (counted_amount sender recipient token) logs)).
    { apply sumZ_nonneg, Forall_map, Forall_true. intros l. unfold counted_amount. simpl.
      case_match; [apply be_value_range|lia]. }
    destruct (log_counts sender recipient token log) eqn:E.
    + destruct (checked 256 (acc + be_value (log_data log))) as [s|] eqn:Ec.
      * apply checked_Some in Ec as [-> Ec]. rewrite IH by done. f_equal. lia.
      * assert (foldl (add_log sender recipient token) None logs = None) as ->
          by (clear; induction logs; simpl; auto).
        symmetry. apply checked_None. apply checked_None in Ec.
        pose proof (be_value_range (log_data log)). unfold fits in *. lia.
    + rewrite IH by done. f_equal; lia.
Qed.

(** A stablecoin payment is proven only by its own logs: the check passes
    exactly when, for every token the calldata credits, the [Transfer] logs of
    that very token from the operation's sender to the recipient add up to at
    least the credited amount without overflowing a [U256].  No log of another
    token, sender or recipient, or of another shape, counts. *)
Theorem transfer_logs_prove_payment r sender recipient logs :
  verify_stable_transfer_logs r sender recipient logs = true ↔
  ∀ token expected, stablecoins r !! token = Some expected →
    let proven := List.filter (λ log, bool_decide (log_address log = token ∧
        log_topics log = [transfer_signature; address_word sender; address_word recipient] ∧
        length (log_data log) = 32%nat)) logs in
    expected ≤ sumZ (map (λ log, be_value (log_data log)) proven) ∧
    fits 256 (sumZ (map (λ log, be_value (log_data log)) proven)).
Proof.
  assert (Hsum : ∀ token,
    sumZ (map (λ log, be_value (log_data log))
      (List.filter (λ log, bool_decide (log_address log = token ∧
        log_topics log = [transfer_signature; address_word sender; address_word recipient] ∧
        length (log_data log) = 32%nat)) logs)) =
    sumZ (map (counted_amount sender recipient token) logs)).
  { intros token. induction logs as [|log logs IH]; [done|]. cbn [List.filter map].
    rewrite sumZ_cons. unfold counted_amount at 1.
    destruct (log_counts sender recipient token log) eqn:E.
    - rewrite bool_decide_eq_true_2 by by apply log_counts_true. cbn [map].
      rewrite sumZ_cons. lia.
    - rewrite bool_decide_eq_false_2; [lia|]. intros H%log_counts_true. congruence. }
  unfold verify_stable_transfer_logs. rewrite forallb_forall. split.
  - intros H token expected Ht. cbn zeta. rewrite Hsum.
    specialize (H (token, expected)). rewrite <-list_elem_of_In, elem_of_map_to_list in H.
    specialize (H Ht). cbn -[foldl] in H. rewrite add_logs_eq in H by done.
    destruct (checked _ _) as [s|] eqn:E; [|done]. apply checked_Some in E as [-> E].
    apply bool_decide_eq_true in H. by rewrite Z.add_0_l in *.
  - intros H [token expected] Hin. apply list_elem_of_In, elem_of_map_to_list in Hin.
    specialize (H _ _ Hin). cbn zeta in H. rewrite Hsum in H. destruct H as [H1 H2].
    rewrite add_logs_eq by done. rewrite Z.add_0_l, checked_fits by done.
    by apply bool_decide_eq_true.
Qed.

End LogClaims.

Definition sample_log (amount : Z) : SettlementLog :=
  {| log_address := sample_token;
     log_topics := [@transfer_signature ref_keccak; address_word 5; address_word sample_recipient];
     log_data := be_bytes 32 amount |}.

Lemma transfer_logs_prove_payment_witness :
  @verify_stable_transfer_logs ref_keccak sample_paid 5 sample_recipient
    [sample_log 20; sample_log 5] = true.
Proof.
  apply (@transfer_logs_prove_payment ref_keccak). intros token expected Ht.
  simpl in Ht. apply lookup_singleton_Some in Ht as [<- <-]. by vm_compute.
Defined.
