(* ===== verification/Settlement.v ===== *)
(** * Settlement: what each operation must pay, and whether it did
    ([vela-relay-core/src/settlement.rs], prices, minimums and evaluation)

    Amounts are [U256]; the products that need more room are [U512] in the
    source and [checked 512] here. *)

From S2P Require Export Reimbursement Cost Task GasMath.
From S2P Require Import Pace.
#[local] Open Scope string_scope.
#[local] Open Scope Z_scope.

(** ** Reasons *)

Definition settlement_hold_reason (paid required attempt max_attempts : Z) : string :=
  "waiting for network fees to fit the signed in-band reimbursement: paid=" +:+ dec paid +:+
  ", required=" +:+ dec required +:+ ", shortfall=" +:+ dec (saturating_sub required paid) +:+
  ", attempt=" +:+ dec attempt +:+ "/" +:+ dec max_attempts.

Definition settlement_rejection_reason (paid required : Z) (stable_logs_valid : bool) : string :=
  if decide (paid < required) then
    "in-band reimbursement is below the required amount: paid=" +:+ dec paid +:+
    ", required=" +:+ dec required +:+ ", shortfall=" +:+ dec (saturating_sub required paid)
  else if negb stable_logs_valid then
    "in-band reimbursement transfer logs do not prove payment to the settlement recipient"
  else "in-band reimbursement was rejected".

(** ** Constants *)

Definition DEFAULT_SETTLEMENT_MARKUP_BPS : Z := 11000.
Definition DEFAULT_SETTLEMENT_INCLUSION_FLOOR_BPS : Z := 12500.
Definition MIN_NATIVE_FRACTION_DECIMALS : Z := 6.
Definition MIN_STABLE_FRACTION_DECIMALS : Z := 2.
Definition USD_PRICE_DECIMALS : Z := 8.
Definition USD_PRICE_SCALE : Z := 100000000.
Definition MINIMUM_FEE_USD : Z := USD_PRICE_SCALE / 100.
Definition MINIMUM_FEE_ACCEPTANCE_BPS : Z := 9000.

(** ** Fixed-point arithmetic *)

Inductive SettlementError : Type :=
  | InvalidConfiguration (message : string)
  | ArithmeticOverflow
  | MissingNativeUsdPrice.

#[export] Instance SettlementError_eq_dec : EqDecision SettlementError.
Proof. solve_decision. Defined.

(** The multiply-by-ten loop, [exponent] times. *)
Fixpoint pow10_loop (w : Z) (n : nat) (value : Z) : option Z :=
  match n with
  | O => Some value
  | S n => value ← checked w (value * 10); pow10_loop w n value
  end.
Definition checked_pow10 (exponent : Z) : option Z := pow10_loop 256 (Z.to_nat exponent) 1.
Definition checked_pow10_u512 (exponent : Z) : option Z := pow10_loop 512 (Z.to_nat exponent) 1.

Definition narrow_u512 (value : Z) : result SettlementError Z :=
  ok_or (checked 256 value) ArithmeticOverflow.

(** [numerator / denominator], one more when the division leaves a rest. *)
Definition round_up_u512 (numerator denominator : Z) : result SettlementError Z :=
  let quotient := numerator / denominator in
  if decide (numerator mod denominator = 0) then Ok quotient
  else ok_or (checked 512 (quotient + 1)) ArithmeticOverflow.

Definition native_amount_for_usd_ceil (usd native_decimals native_usd_price : Z) :
    result SettlementError Z :=
  if decide (native_usd_price = 0) then Err ArithmeticOverflow
  else
    scale ← ok_or (checked_pow10 native_decimals) ArithmeticOverflow;
    numerator ← ok_or (checked 512 (usd * scale)) ArithmeticOverflow;
    rounded ← round_up_u512 numerator native_usd_price;
    narrow_u512 rounded.

Definition minimum_amount (decimals fraction_decimals : Z) : result SettlementError Z :=
  exponent ← ok_or (checked 32 (decimals - fraction_decimals))
               (InvalidConfiguration "asset decimals are below the settlement floor");
  ok_or (checked_pow10 exponent)
    (InvalidConfiguration "asset decimals exceed U256 settlement arithmetic").

Definition native_minimum_at (native_decimals : Z) (native_usd_price : option Z) (share_bps : Z) :
    result SettlementError Z :=
  safety ← minimum_amount native_decimals MIN_NATIVE_FRACTION_DECIMALS;
  match native_usd_price with
  | Some price =>
      if decide (price = 0) then Ok safety
      else
        let usd := MINIMUM_FEE_USD * share_bps / 10000 in
        amount ← native_amount_for_usd_ceil usd native_decimals price;
        Ok (Z.max amount safety)
  | None => Ok safety
  end.

Definition published_native_minimum (native_decimals : Z) (native_usd_price : option Z) :
    result SettlementError Z := native_minimum_at native_decimals native_usd_price 10000.

Definition enforced_native_minimum (native_decimals : Z) (native_usd_price : option Z) :
    result SettlementError Z :=
  native_minimum_at native_decimals native_usd_price MINIMUM_FEE_ACCEPTANCE_BPS.

Definition native_to_usd_stable_ceil
    (native_amount native_decimals native_usd_price stable_decimals : Z) :
    result SettlementError Z :=
  if decide (native_usd_price = 0) then Err ArithmeticOverflow
  else
    denominator_exponent ← ok_or (checked 32 (native_decimals + USD_PRICE_DECIMALS)) ArithmeticOverflow;
    numerator_scale ← ok_or (checked_pow10_u512 stable_decimals) ArithmeticOverflow;
    denominator ← ok_or (checked_pow10_u512 denominator_exponent) ArithmeticOverflow;
    product ← ok_or (checked 512 (native_amount * native_usd_price)) ArithmeticOverflow;
    numerator ← ok_or (checked 512 (product * numerator_scale)) ArithmeticOverflow;
    if decide (denominator = 0) then Err ArithmeticOverflow
    else
      rounded ← round_up_u512 numerator denominator;
      narrow_u512 rounded.

Definition mul_div_ceil (left right denominator : Z) : result SettlementError Z :=
  if decide (denominator = 0) then Err ArithmeticOverflow
  else
    let product := wrapping 512 (left * right) in
    rounded ← round_up_u512 product denominator;
    narrow_u512 rounded.

(** ** Market prices *)

Definition GNOSIS_CHAIN_ID : Z := 100.
Definition is_gnosis_chain (chain_id : Z) : bool := bool_decide (chain_id = GNOSIS_CHAIN_ID).
Definition ARC_CHAIN_ID : Z := 5042.
Definition ARC_TESTNET_CHAIN_ID : Z := 5042002.
Definition is_arc_chain (chain_id : Z) : bool :=
  bool_decide (chain_id = ARC_CHAIN_ID) || bool_decide (chain_id = ARC_TESTNET_CHAIN_ID).
Definition STABLE_CHAIN_ID : Z := 988.

Definition pegged_native_usd_price (chain_id : Z) : option Z :=
  if is_gnosis_chain chain_id || is_arc_chain chain_id || bool_decide (chain_id = STABLE_CHAIN_ID)
  then Some USD_PRICE_SCALE else None.

Definition parse_market_usd_price (value : string) : option Z :=
  let value := trim value in
  match str_split "." value with
  | whole :: rest =>
      let fraction := default "" (head rest) in
      if bool_decide (2 ≤ length rest)%nat || bool_decide (whole = "") ||
         negb (all_chars is_ascii_digit whole) || negb (all_chars is_ascii_digit fraction)
      then None
      else
        whole ← checked 256 (dec_value 0 whole);
        whole ← checked 256 (whole * USD_PRICE_SCALE);
        let kept := str_take (Z.to_nat USD_PRICE_DECIMALS) fraction in
        fraction_value ←
          (if bool_decide (kept = "") then Some 0
           else
             digits ← checked 256 (dec_value 0 kept);
             checked 256 (digits * 10 ^ (USD_PRICE_DECIMALS - Z.of_nat (String.length kept))));
        price ← checked 256 (whole + fraction_value);
        price ←
          (if bool_decide (USD_PRICE_DECIMALS < Z.of_nat (String.length fraction)) &&
              negb (all_chars (λ a, bool_decide (a = "0"%char))
                      (str_drop (Z.to_nat USD_PRICE_DECIMALS) fraction))
           then checked 256 (price + 1) else Some price);
        if decide (price = 0) then None else Some price
  | [] => None
  end.

Definition marked_tempo_cost (cost markup_bps : Z) : option Z :=
  numerator ← checked 256 (cost * markup_bps);
  marked ← checked 256 (ceil_quot numerator 10000);
  Some (Z.max marked (10 ^ (PATH_USD_DECIMALS - 2))).

(** ** Evaluation *)

Record StablecoinConfig : Type := { coin_symbol : string; coin_decimals : Z }.

Record ChainAssetConfig : Type := {
  native_decimals : Z;
  settlement_markup_bps : Z;
  config_stablecoins : gmap Z StablecoinConfig }.

Record SettlementInput : Type := { call_data : list byte; gas_native_cost : Z }.

Inductive SettlementRejection : Type :=
  | RejectMalformedCallData | RejectArithmeticOverflow
  | UnsupportedPaymentCombination | InsufficientPayment.

#[export] Instance SettlementRejection_eq_dec : EqDecision SettlementRejection.
Proof. solve_decision. Defined.

Record SettlementEvaluation : Type := {
  ev_reimbursement : Reimbursement;
  ev_gas_native_cost : Z;
  payment_asset : option Z;
  paid_amount : Z;
  required_amount : Z;
  ev_minimum_amount : Z;
  rejection : option SettlementRejection }.

#[export] Instance SettlementEvaluation_eq_dec : EqDecision SettlementEvaluation.
Proof. solve_decision. Defined.

Definition accepted (e : SettlementEvaluation) : bool :=
  match rejection e with None => true | Some _ => false end.
Definition is_shortfall (e : SettlementEvaluation) : bool :=
  match rejection e with Some InsufficientPayment => true | _ => false end.

Definition settlement_rejection_code (evaluation : SettlementEvaluation) (stable_logs_valid : bool) :
    RejectionReason :=
  if negb stable_logs_valid || negb (is_shortfall evaluation) ||
     bool_decide (paid_amount evaluation = 0) then FeePaymentInvalid
  else if decide (paid_amount evaluation < ev_minimum_amount evaluation) then FeeBelowMinimum
  else FeeBelowMarket.

Definition paid_ratio_bps (e : SettlementEvaluation) : Z :=
  if decide (required_amount e = 0) then 10000
  else
    let scaled := wrapping 512 (paid_amount e * 10000) in
    default (umax 64) (checked 64 (scaled / required_amount e)).

Definition rejected_parse (gas_native_cost marked_cost native_floor : Z)
    (error : ReimbursementParseError) : SettlementEvaluation :=
  {| ev_reimbursement := default_reimbursement; ev_gas_native_cost := gas_native_cost;
     payment_asset := None; paid_amount := 0;
     required_amount := Z.max marked_cost native_floor; ev_minimum_amount := native_floor;
     rejection := Some (match error with
                        | MalformedCallData => RejectMalformedCallData
                        | ParseOverflow => RejectArithmeticOverflow
                        end) |}.

(** [BTreeMap::values]: in key order. *)
Definition key_le {A} (x y : Z * A) : Prop := x.1 ≤ y.1.
#[export] Instance key_le_dec {A} : RelDecision (@key_le A).
Proof. intros x y. unfold key_le. apply _. Defined.

(** The entries of a [BTreeMap] in key order. *)
Definition btree_entries {A} (m : gmap Z A) : list (Z * A) := merge_sort key_le (map_to_list m).
Definition btree_values {A} (m : gmap Z A) : list A := snd <$> btree_entries m.

Fixpoint check_stablecoins (assets : list StablecoinConfig) : result SettlementError () :=
  match assets with
  | [] => Ok ()
  | asset :: assets =>
      minimum_amount (coin_decimals asset) MIN_STABLE_FRACTION_DECIMALS ≫= λ _,
      if decide (trim (coin_symbol asset) = "")
      then Err (InvalidConfiguration "stablecoin symbol cannot be empty")
      else check_stablecoins assets
  end.

Definition validate_config (config : ChainAssetConfig) : result SettlementError () :=
  if decide (settlement_markup_bps config < 10000)
  then Err (InvalidConfiguration "settlement markup cannot be below 10_000 bps")
  else
    minimum_amount (native_decimals config) MIN_NATIVE_FRACTION_DECIMALS ≫= λ _,
    check_stablecoins (btree_values (config_stablecoins config)).

Definition evaluate_one (reimbursement : Reimbursement)
    (gas_native_cost marked_cost native_floor : Z) (config : ChainAssetConfig)
    (native_usd_price : option Z) : result SettlementError SettlementEvaluation :=
  let evaluation := λ asset paid required minimum rejection,
    {| ev_reimbursement := reimbursement; ev_gas_native_cost := gas_native_cost;
       payment_asset := asset; paid_amount := paid; required_amount := required;
       ev_minimum_amount := minimum; rejection := rejection |} in
  let shortfall := λ paid required,
    if decide (paid < required) then Some InsufficientPayment else None in
  match bool_decide (native reimbursement ≠ 0), map_to_list (stablecoins reimbursement) with
  | true, [] =>
      let required := Z.max marked_cost native_floor in
      Ok (evaluation None (native reimbursement) required native_floor
            (shortfall (native reimbursement) required))
  | false, [(token, paid)] =>
      asset ← ok_or (config_stablecoins config !! token)
                (InvalidConfiguration "parsed stablecoin is not in the trusted asset policy");
      price ← ok_or native_usd_price MissingNativeUsdPrice;
      converted ← native_to_usd_stable_ceil marked_cost (native_decimals config) price
                    (coin_decimals asset);
      stable_floor ← minimum_amount (coin_decimals asset) MIN_STABLE_FRACTION_DECIMALS;
      let required := Z.max converted stable_floor in
      Ok (evaluation (Some token) paid required stable_floor (shortfall paid required))
  | false, [] =>
      Ok (evaluation None 0 (Z.max marked_cost native_floor) native_floor (Some InsufficientPayment))
  | _, _ =>
      Ok (evaluation None 0 (Z.max marked_cost native_floor) native_floor
            (Some UnsupportedPaymentCombination))
  end.

Definition allowlist_of (config : ChainAssetConfig) : gset Z := dom (config_stablecoins config).

Section Batch.
Context `{W : TargetWidth}.

(** The body of [evaluate_batch]'s loop. *)
Definition evaluate_input (recipient : Z) (config : ChainAssetConfig) (native_usd_price : option Z)
    (native_floor : Z) (input : SettlementInput) : result SettlementError SettlementEvaluation :=
  marked_cost ← mul_div_ceil (gas_native_cost input) (settlement_markup_bps config) 10000;
  match parse_reimbursement (call_data input) recipient (allowlist_of config) with
  | Err error => Ok (rejected_parse (gas_native_cost input) marked_cost native_floor error)
  | Ok reimbursement =>
      match evaluate_one reimbursement (gas_native_cost input) marked_cost native_floor config
              native_usd_price with
      | Ok evaluation => Ok evaluation
      | Err ArithmeticOverflow =>
          Ok {| ev_reimbursement := default_reimbursement;
                ev_gas_native_cost := gas_native_cost input;
                payment_asset := None; paid_amount := 0;
                required_amount := Z.max marked_cost native_floor;
                ev_minimum_amount := native_floor;
                rejection := Some RejectArithmeticOverflow |}
      | Err error => Err error
      end
  end.

Definition evaluate_batch (recipient : Z) (config : ChainAssetConfig)
    (inputs : list SettlementInput) (native_usd_price : option Z) :
    result SettlementError (list SettlementEvaluation) :=
  validate_config config ≫= λ _,
  native_floor ← enforced_native_minimum (native_decimals config) native_usd_price;
  foldl (λ operations input,
      operations ← operations;
      evaluation ← evaluate_input recipient config native_usd_price native_floor input;
      Ok (operations ++ [evaluation])%list)
    (Ok []) inputs.

Definition all_accepted (operations : list SettlementEvaluation) : bool :=
  forallb accepted operations.

Definition has_stablecoin_payment (recipient : Z) (chain_assets : ChainAssetConfig)
    (call_datas : list (list byte)) : bool :=
  existsb (λ call_data,
    match parse_reimbursement call_data recipient (allowlist_of chain_assets) with
    | Ok reimbursement => negb (bool_decide (stablecoins reimbursement = ∅))
    | Err _ => false
    end) call_datas.

End Batch.

(** ** Fixed-point lemmas *)

Lemma pow10_loop_eq w n v : fits w v → pow10_loop w n v = checked w (v * 10 ^ Z.of_nat n).
Proof.
  revert v. induction n as [|n IH]; intros v Hv; cbn [pow10_loop].
  - rewrite Z.pow_0_r, Z.mul_1_r. by rewrite checked_fits.
  - rewrite Nat2Z.inj_succ, Z.pow_succ_r by lia.
    replace (v * (10 * 10 ^ Z.of_nat n)) with (v * 10 * 10 ^ Z.of_nat n) by lia.
    destruct (checked w (v * 10)) as [x|] eqn:E; simpl.
    + apply checked_Some in E as [-> E]. by apply IH.
    + symmetry. apply checked_None. apply checked_None in E.
      pose proof (Z.pow_pos_nonneg 10 (Z.of_nat n) ltac:(lia) ltac:(lia)).
      unfold fits in *. nia.
Qed.

Lemma checked_pow10_Some e r : 0 ≤ e → checked_pow10 e = Some r ↔ r = 10 ^ e ∧ fits 256 (10 ^ e).
Proof.
  intros He. unfold checked_pow10. rewrite pow10_loop_eq by done.
  by rewrite Z.mul_1_l, Z2Nat.id, checked_Some.
Qed.

Lemma checked_pow10_u512_Some e r :
  0 ≤ e → checked_pow10_u512 e = Some r ↔ r = 10 ^ e ∧ fits 512 (10 ^ e).
Proof.
  intros He. unfold checked_pow10_u512. rewrite pow10_loop_eq by done.
  by rewrite Z.mul_1_l, Z2Nat.id, checked_Some.
Qed.

Lemma round_up_u512_eq n d : 0 < d → fits 512 n → round_up_u512 n d = Ok (ceil_quot n d).
Proof.
  intros Hd Hn. unfold round_up_u512, ceil_quot. case_decide as Hm; [by rewrite Z.add_0_r|].
  rewrite checked_fits; [done|]. unfold fits in *.
  pose proof (Z.div_mod n d ltac:(lia)). pose proof (Z.mod_pos_bound n d Hd).
  assert (d ≠ 1) by (intros ->; by rewrite Z.mod_1_r in Hm).
  pose proof (Z.div_pos n d ltac:(lia) Hd). nia.
Qed.

Lemma narrow_u512_Ok v r : narrow_u512 v = Ok r ↔ r = v ∧ fits 256 v.
Proof. unfold narrow_u512. rewrite ok_or_Ok. apply checked_Some. Qed.

Lemma mul_div_ceil_eq l r d :
  fits 256 l → fits 256 r → 0 < d → mul_div_ceil l r d = narrow_u512 (ceil_quot (l * r) d).
Proof.
  intros Hl Hr Hd. unfold mul_div_ceil. rewrite decide_False by lia.
  assert (fits 512 (l * r)).
  { unfold fits in *. change (2 ^ 512) with (2 ^ 256 * 2 ^ 256). nia. }
  unfold wrapping. rewrite Z.mod_small by done. by rewrite round_up_u512_eq.
Qed.

Lemma native_amount_for_usd_ceil_Ok usd d price r :
  0 ≤ usd → 0 ≤ d → 0 ≤ price → native_amount_for_usd_ceil usd d price = Ok r →
  0 < price ∧ r = ceil_quot (usd * 10 ^ d) price ∧ fits 256 r.
Proof.
  unfold native_amount_for_usd_ceil. intros Hu Hd Hp. case_decide; [done|]. intros H'.
  inv_checked. rename select (checked_pow10 d = _) into Hs.
  apply checked_pow10_Some in Hs as [-> _]; [|done].
  rewrite round_up_u512_eq in * by (done || lia). inv_checked.
  rename select (narrow_u512 _ = _) into Hn. apply narrow_u512_Ok in Hn as [-> ?].
  split; [lia|]. done.
Qed.

Lemma minimum_amount_Ok d f r :
  minimum_amount d f = Ok r → f ≤ d ∧ r = 10 ^ (d - f) ∧ fits 256 r.
Proof.
  unfold minimum_amount. intros H. inv_checked.
  rename select (fits 32 _) into Hf. unfold fits in Hf.
  rename select (checked_pow10 _ = _) into Hs.
  apply checked_pow10_Some in Hs as [-> ?]; [|lia]. split; [lia|]. done.
Qed.

Lemma minimum_amount_pos d f r : minimum_amount d f = Ok r → 0 < r.
Proof. intros (? & -> & _)%minimum_amount_Ok. apply Z.pow_pos_nonneg; lia. Qed.

Lemma native_to_usd_stable_ceil_eq amount nd price sd :
  0 ≤ amount → 0 < price → 0 ≤ nd → 0 ≤ sd →
  native_to_usd_stable_ceil amount nd price sd =
  if decide (fits 32 (nd + 8) ∧ fits 512 (10 ^ sd) ∧ fits 512 (10 ^ (nd + 8)) ∧
             fits 512 (amount * price) ∧ fits 512 (amount * price * 10 ^ sd))
  then narrow_u512 (ceil_quot (amount * price * 10 ^ sd) (10 ^ (nd + 8)))
  else Err ArithmeticOverflow.
Proof.
  intros Ha Hp Hnd Hsd. unfold native_to_usd_stable_ceil, USD_PRICE_DECIMALS.
  rewrite decide_False by lia.
  destruct (checked 32 (nd + 8)) as [x|] eqn:E1; cbn [ok_or mbind result_mbind].
  2:{ apply checked_None in E1. by rewrite decide_False by naive_solver. }
  apply checked_Some in E1 as [-> E1].
  destruct (checked_pow10_u512 sd) as [x|] eqn:E2; cbn [ok_or mbind result_mbind].
  2:{ rewrite decide_False; [done|]. intros (_ & Hf & _).
      by rewrite (proj2 (checked_pow10_u512_Some sd _ Hsd) (conj eq_refl Hf)) in E2. }
  apply checked_pow10_u512_Some in E2 as [-> E2]; [|done].
  destruct (checked_pow10_u512 (nd + 8)) as [x|] eqn:E3; cbn [ok_or mbind result_mbind].
  2:{ rewrite decide_False; [done|]. intros (_ & _ & Hf & _).
      by rewrite (proj2 (checked_pow10_u512_Some (nd + 8) _ ltac:(lia)) (conj eq_refl Hf)) in E3. }
  apply checked_pow10_u512_Some in E3 as [-> E3]; [|lia].
  destruct (checked 512 (amount * price)) as [x|] eqn:E4; cbn [ok_or mbind result_mbind].
  2:{ apply checked_None in E4. by rewrite decide_False by naive_solver. }
  apply checked_Some in E4 as [-> E4].
  destruct (checked 512 (amount * price * 10 ^ sd)) as [x|] eqn:E5; cbn [ok_or mbind result_mbind].
  2:{ apply checked_None in E5. by rewrite decide_False by naive_solver. }
  apply checked_Some in E5 as [-> E5].
  pose proof (Z.pow_pos_nonneg 10 (nd + 8) ltac:(lia) ltac:(lia)).
  rewrite decide_False by lia. rewrite decide_True by done.
  by rewrite round_up_u512_eq.
Qed.

Lemma native_minimum_at_Ok d price share m :
  0 ≤ d → (∀ p, price = Some p → 0 ≤ p) → 0 ≤ share → native_minimum_at d price share = Ok m →
  6 ≤ d ∧
  m = Z.max (match price with
             | Some p => if decide (p = 0) then 0
                         else ceil_quot (MINIMUM_FEE_USD * share / 10000 * 10 ^ d) p
             | None => 0 end) (10 ^ (d - 6)) ∧ fits 256 m.
Proof.
  unfold native_minimum_at. intros Hd Hp Hs H'. inv_checked.
  rename select (minimum_amount _ _ = _) into Hm. apply minimum_amount_Ok in Hm as (H6 & -> & Hf).
  unfold MIN_NATIVE_FRACTION_DECIMALS in *.
  pose proof (Z.pow_pos_nonneg 10 (d - 6) ltac:(lia) ltac:(lia)).
  split; [done|]. destruct price as [p|]; [|inv_checked; rewrite Z.max_r by lia; done].
  case_decide; [inv_checked; rewrite Z.max_r by lia; done|]. inv_checked.
  rename select (native_amount_for_usd_ceil _ _ _ = _) into Ha.
  apply native_amount_for_usd_ceil_Ok in Ha as (_ & -> & Ha); 
    [|apply Z.div_pos; change MINIMUM_FEE_USD with 1000000; lia|done|by apply Hp].
  split; [done|]. destruct (Z.max_spec (ceil_quot (MINIMUM_FEE_USD * share / 10000 * 10 ^ d) p)
    (10 ^ (d - 6))) as [[_ ->]|[_ ->]]; done.
Qed.

(** ** The minimum fee *)

Lemma enforced_le_published d price price' published enforced :
  0 ≤ d → 0 < price → (∀ p', price' = Some p' → 9000 * price ≤ 10000 * p') →
  published_native_minimum d (Some price) = Ok published →
  enforced_native_minimum d price' = Ok enforced →
  enforced ≤ published.
Proof.
  unfold published_native_minimum, enforced_native_minimum, MINIMUM_FEE_ACCEPTANCE_BPS.
  intros Hd Hp Hp' H1 H2.
  apply native_minimum_at_Ok in H1 as (_ & -> & _); [|done|intros ? [= <-]; lia|lia].
  apply native_minimum_at_Ok in H2 as (_ & -> & _);
    [|done|intros p' Hq; specialize (Hp' p' Hq); lia|lia].
  rewrite decide_False by lia.
  pose proof (Z.pow_pos_nonneg 10 d ltac:(lia) Hd) as Hpow.
  change (MINIMUM_FEE_USD * 10000 / 10000) with 1000000.
  change (MINIMUM_FEE_USD * 9000 / 10000) with 900000.
  pose proof (ceil_quot_nonneg (1000000 * 10 ^ d) price Hp ltac:(lia)).
  apply Z.max_le_compat_r. destruct price' as [p'|]; [|done].
  specialize (Hp' p' eq_refl). case_decide; [lia|].
  apply ceil_quot_le_iff; [lia|].
  pose proof (ceil_quot_spec (1000000 * 10 ^ d) price Hp) as [_ Hq].
  set (q := ceil_quot _ _) in *. set (x := 10 ^ d) in *. clearbody q x. nia.
Qed.

(** Paying the published minimum is enough.  A native payment of the
    minimum a quote published is at or above the minimum the executor later
    enforces: at every price no more than 10% below the quote's, and when the
    executor has no price at all.  At one and the same price the enforced
    minimum is never above the published one. *)
Theorem published_minimum_is_enough d price price' published enforced :
  0 ≤ d → 0 < price → (∀ p', price' = Some p' → 9000 * price ≤ 10000 * p') →
  published_native_minimum d (Some price) = Ok published →
  enforced_native_minimum d price' = Ok enforced →
  enforced ≤ published.
Proof. apply enforced_le_published. Qed.

(** Ether at 2,500 USD when quoted, 2,300 USD when settled. *)
Lemma published_minimum_is_enough_witness :
  3913043478261 ≤ 4000000000000.
Proof.
  apply (published_minimum_is_enough 18 250000000000 (Some 230000000000)); try lia.
  - intros p' [= <-]. lia.
  - by vm_compute.
  - by vm_compute.
Defined.

(** ** Evaluation lemmas *)

Lemma map_to_list_one {A} (m : gmap Z A) k v : map_to_list m = [(k, v)] ↔ m = {[k := v]}.
Proof.
  split; [|intros ->; apply map_to_list_singleton]. intros H.
  rewrite <-(list_to_map_to_list m), H. done.
Qed.

(** What it takes to be accepted: one asset, and enough of it. *)
Definition pays_enough (r : Reimbursement) (marked_cost native_floor : Z)
    (config : ChainAssetConfig) (price : option Z) : Prop :=
  (native r ≠ 0 ∧ stablecoins r = ∅ ∧ Z.max marked_cost native_floor ≤ native r) ∨
  (native r = 0 ∧ ∃ token paid asset p converted floor,
     stablecoins r = {[token := paid]} ∧ config_stablecoins config !! token = Some asset ∧
     price = Some p ∧
     native_to_usd_stable_ceil marked_cost (native_decimals config) p (coin_decimals asset)
       = Ok converted ∧
     minimum_amount (coin_decimals asset) MIN_STABLE_FRACTION_DECIMALS = Ok floor ∧
     Z.max converted floor ≤ paid).

Lemma evaluate_one_accepted r cost marked floor config price e :
  evaluate_one r cost marked floor config price = Ok e →
  accepted e = true ↔ pays_enough r marked floor config price.
Proof.
  unfold evaluate_one, pays_enough. intros H.
  destruct (bool_decide (native r ≠ 0)) eqn:En;
    [apply bool_decide_eq_true in En|apply bool_decide_eq_false in En];
    destruct (map_to_list (stablecoins r)) as [|[token paid] [|kv l]] eqn:Es.
  - apply map_to_list_empty_iff in Es. injection H as <-. unfold accepted. simpl.
    case_decide; naive_solver lia.
  - injection H as <-. simpl. apply map_to_list_one in Es. split; [done|].
    intros [(_ & He & _)|(? & _)]; [|done]. rewrite Es in He. by apply map_non_empty_singleton in He.
  - injection H as <-. simpl. split; [done|].
    intros [(_ & He & _)|(? & _)]; [|done]. by rewrite He, map_to_list_empty in Es.
  - apply map_to_list_empty_iff in Es. injection H as <-. simpl. split; [done|].
    intros [(? & _)|(_ & t & p & a & q & c & m & Hs & _)]; [done|].
    rewrite Es in Hs. symmetry in Hs. by apply map_non_empty_singleton in Hs.
  - apply map_to_list_one in Es. inv_checked. unfold accepted. simpl.
    split.
    + case_decide; [done|]. intros _. right. split; [by apply dec_stable|].
      do 6 eexists. do 2 (split; [eassumption|]). split; [done|]. do 2 (split; [eassumption|]). lia.
    + intros [(? & _)|(_ & t & p & a & q & c & m & Hs & Ha & Hq & Hc & Hm & Hle)]; [done|].
      rewrite Es in Hs. apply map_singleton_inj in Hs as [<- <-].
      simplify_eq. rewrite Hc in *. rewrite Hm in *. simplify_eq. by rewrite decide_False by lia.
  - injection H as <-. simpl. split; [done|].
    intros [(? & _)|(_ & t & p & a & q & c & m & Hs & _)]; [done|].
    by rewrite Hs, map_to_list_singleton in Es.
Qed.

Lemma evaluate_one_pays r cost marked floor config price :
  pays_enough r marked floor config price →
  ∃ e, evaluate_one r cost marked floor config price = Ok e ∧ accepted e = true.
Proof.
  intros Hp. assert (∃ e, evaluate_one r cost marked floor config price = Ok e) as [e He].
  { unfold evaluate_one.
    destruct Hp as [(Hn & Hs & _)|(Hn & t & p & a & q & c & m & Hs & Ha & -> & Hc & Hm & _)].
    - rewrite bool_decide_eq_true_2, Hs, map_to_list_empty by done. eauto.
    - rewrite bool_decide_eq_false_2, Hs, map_to_list_singleton by (rewrite Hn; auto).
      rewrite Ha. simpl. rewrite Hc. simpl. rewrite Hm. simpl. eauto. }
  exists e. split; [done|]. by eapply evaluate_one_accepted.
Qed.

Section BatchLemmas.
Context `{W : TargetWidth}.

(** What one operation's own calldata and cost must show. *)
Definition input_pays (recipient : Z) (config : ChainAssetConfig) (price : option Z)
    (floor : Z) (input : SettlementInput) : Prop :=
  ∃ marked r,
    mul_div_ceil (gas_native_cost input) (settlement_markup_bps config) 10000 = Ok marked ∧
    parse_reimbursement (call_data input) recipient (allowlist_of config) = Ok r ∧
    pays_enough r marked floor config price.

Lemma evaluate_input_accepted recipient config price floor input e :
  evaluate_input recipient config price floor input = Ok e →
  accepted e = true ↔ input_pays recipient config price floor input.
Proof.
  unfold evaluate_input, input_pays. intros H. apply result_bind_Ok in H as (marked & Hm & H).
  destruct (parse_reimbursement _ _ _) as [r|pe] eqn:Ep.
  - destruct (evaluate_one _ _ _ _ _ _) as [e'|se] eqn:Ee.
    + injection H as ->. rewrite (evaluate_one_accepted _ _ _ _ _ _ _ Ee).
      split; [by exists marked, r|]. intros (m' & r' & Hm' & Hr' & Hp).
      rewrite Hm in Hm'. injection Hm' as <-. by injection Hr' as <-.
    + assert (accepted e = false) as ->
        by (destruct se; [done|by injection H as <-|done]). split; [done|].
      intros (m' & r' & Hm' & Hr' & Hp). rewrite Hm in Hm'. injection Hm' as <-.
      injection Hr' as <-.
      apply (evaluate_one_pays _ (gas_native_cost input)) in Hp as (? & Hp & _). congruence.
  - injection H as <-. split; [done|]. intros (? & ? & _ & ? & _). done.
Qed.

(** An accepted evaluation keeps the payments it was judged on. *)
Lemma accepted_reimbursement recipient config price floor input e :
  evaluate_input recipient config price floor input = Ok e → accepted e = true →
  parse_reimbursement (call_data input) recipient (allowlist_of config) = Ok (ev_reimbursement e).
Proof.
  unfold evaluate_input. intros H Hacc. apply result_bind_Ok in H as (marked & _ & H).
  destruct (parse_reimbursement _ _ _) as [r|pe]; [|by injection H as <-].
  f_equal. destruct (evaluate_one _ _ _ _ _ _) as [e'|[]] eqn:Ee; try discriminate H; injection H as <-;
    [|discriminate Hacc].
  unfold evaluate_one in Ee.
  destruct (bool_decide _), (map_to_list _) as [|[] []]; inv_checked; done.
Qed.

Lemma evaluate_input_pays recipient config price floor input :
  input_pays recipient config price floor input →
  ∃ e, evaluate_input recipient config price floor input = Ok e ∧ accepted e = true.
Proof.
  intros (marked & r & Hm & Hr & Hp).
  destruct (evaluate_one_pays _ (gas_native_cost input) _ _ _ _ Hp) as (e & He & Ha).
  exists e. unfold evaluate_input. rewrite Hm. simpl. rewrite Hr, He. done.
Qed.

Lemma evaluate_fold recipient config price floor inputs acc ops :
  foldl (λ operations input,
      operations ← operations;
      evaluation ← evaluate_input recipient config price floor input;
      Ok (operations ++ [evaluation])%list) (Ok acc) inputs = Ok ops ↔
  ∃ es, ops = (acc ++ es)%list ∧
    Forall2 (λ input e, evaluate_input recipient config price floor input = Ok e) inputs es.
Proof.
  revert acc. induction inputs as [|input inputs IH]; intros acc; cbn [foldl].
  - split.
    + intros [= <-]. exists []. by rewrite app_nil_r.
    + intros (es & -> & Hf). inversion Hf. by rewrite app_nil_r.
  - cbn [mbind result_mbind]. destruct (evaluate_input _ _ _ _ input) as [e|er] eqn:E;
      cbn [mbind result_mbind].
    + rewrite IH. split.
      * intros (es & -> & Hf). exists (e :: es). rewrite <-app_assoc. split; [done|by constructor].
      * intros (es & -> & Hf). inversion Hf as [|? e' ? es' He Hf']; subst.
        rewrite E in He. injection He as <-. exists es'. by rewrite <-app_assoc.
    + split.
      * assert (foldl (λ operations input,
          operations ← operations;
          evaluation ← evaluate_input recipient config price floor input;
          Ok (operations ++ [evaluation])%list) (Err er) inputs = Err er) as ->; [|done].
        clear. induction inputs; simpl; auto.
      * intros (es & _ & Hf). inversion Hf; subst. congruence.
Qed.

Lemma evaluate_batch_Ok recipient config inputs price ops :
  evaluate_batch recipient config inputs price = Ok ops ↔
  validate_config config = Ok () ∧
  ∃ floor, enforced_native_minimum (native_decimals config) price = Ok floor ∧
    Forall2 (λ input e, evaluate_input recipient config price floor input = Ok e) inputs ops.
Proof.
  unfold evaluate_batch. rewrite result_bind_Ok. split.
  - intros ([] & Hv & H). apply result_bind_Ok in H as (floor & Hf & H).
    apply evaluate_fold in H as (es & -> & H). split; [done|]. by exists floor.
  - intros (Hv & floor & Hf & H). exists (). split; [done|]. rewrite result_bind_Ok.
    exists floor. split; [done|]. apply evaluate_fold. eauto.
Qed.

(** Amounts the source's types hold. *)
Definition config_typed (config : ChainAssetConfig) : Prop :=
  fits 32 (native_decimals config) ∧ fits 64 (settlement_markup_bps config) ∧
  ∀ token asset, config_stablecoins config !! token = Some asset → fits 32 (coin_decimals asset).

Definition price_typed (price : option Z) : Prop := ∀ p, price = Some p → fits 256 p.

Lemma validate_config_markup config : validate_config config = Ok () → 10000 ≤ settlement_markup_bps config.
Proof. unfold validate_config. case_decide; [done|]. lia. Qed.

Lemma native_to_usd_stable_ceil_mono amount amount' nd p sd c :
  0 ≤ amount' ≤ amount → fits 256 p → 0 ≤ nd → 0 ≤ sd →
  native_to_usd_stable_ceil amount nd p sd = Ok c →
  ∃ c', native_to_usd_stable_ceil amount' nd p sd = Ok c' ∧ c' ≤ c.
Proof.
  intros Ha Hp Hnd Hsd H.
  assert (0 < p) as Hp0.
  { unfold native_to_usd_stable_ceil in H. case_decide; [done|]. unfold fits in Hp. lia. }
  rewrite native_to_usd_stable_ceil_eq in * by lia. case_decide as Hd; [|done].
  pose proof (Z.pow_pos_nonneg 10 (nd + 8) ltac:(lia) ltac:(lia)) as Hpow.
  pose proof (Z.pow_pos_nonneg 10 sd ltac:(lia) ltac:(lia)) as Hpow2.
  destruct Hd as (H1 & H2 & H3 & H4 & H5).
  assert (amount' * p ≤ amount * p) by nia.
  assert (0 ≤ amount' * p * 10 ^ sd ≤ amount * p * 10 ^ sd) by nia.
  rewrite decide_True by (split; [done|]; split; [done|]; split; [done|];
    split; (eapply fits_le; [eassumption|nia])).
  apply narrow_u512_Ok in H as [-> H].
  exists (ceil_quot (amount' * p * 10 ^ sd) (10 ^ (nd + 8))).
  assert (0 ≤ ceil_quot (amount' * p * 10 ^ sd) (10 ^ (nd + 8)) ≤
          ceil_quot (amount * p * 10 ^ sd) (10 ^ (nd + 8))).
  { split; [apply ceil_quot_nonneg; lia|apply ceil_quot_mono; lia]. }
  split; [|lia]. apply narrow_u512_Ok. split; [done|]. by eapply fits_le.
Qed.

(** A cheaper operation is paid for by whatever paid for it before. *)
Lemma pays_enough_mono r marked marked' floor config price :
  config_typed config → price_typed price → 0 ≤ marked' ≤ marked →
  pays_enough r marked floor config price → pays_enough r marked' floor config price.
Proof.
  intros (Hnd & _ & Hsd) Hpt Hm [(Hn & Hs & Hle)|(Hn & t & p & a & q & c & m & Hs & Ha & Hq & Hc & Hmin & Hle)].
  - left. split; [done|]. split; [done|]. lia.
  - right. split; [done|].
    destruct (native_to_usd_stable_ceil_mono marked marked' (native_decimals config) q
      (coin_decimals a) c) as (c' & Hc' & Hcle); [lia|by apply Hpt|by apply (fits_nonneg 32)| |done|].
    { apply (fits_nonneg 32). by eapply Hsd. }
    exists t, p, a, q, c', m. do 5 (split; [done|]). lia.
Qed.

Lemma mul_div_ceil_mono cost cost' markup marked :
  fits 256 cost → 0 ≤ cost' ≤ cost → fits 64 markup →
  mul_div_ceil cost markup 10000 = Ok marked →
  ∃ marked', mul_div_ceil cost' markup 10000 = Ok marked' ∧ 0 ≤ marked' ≤ marked.
Proof.
  intros Hc Hc' Hm. assert (fits 256 markup) by (eapply fits_mono; [|done]; lia).
  rewrite (mul_div_ceil_eq cost) by (done || lia).
  rewrite (mul_div_ceil_eq cost') by (done || lia || by apply (fits_le 256 cost' cost)).
  intros [-> Hf]%narrow_u512_Ok. unfold fits in Hm.
  exists (ceil_quot (cost' * markup) 10000).
  assert (0 ≤ ceil_quot (cost' * markup) 10000 ≤ ceil_quot (cost * markup) 10000).
  { split; [apply ceil_quot_nonneg; nia|apply ceil_quot_mono; nia]. }
  split; [|done]. apply narrow_u512_Ok. split; [done|]. by eapply fits_le.
Qed.

Lemma input_pays_mono recipient config price floor input input' :
  config_typed config → price_typed price → fits 256 (gas_native_cost input) →
  call_data input' = call_data input → 0 ≤ gas_native_cost input' ≤ gas_native_cost input →
  input_pays recipient config price floor input → input_pays recipient config price floor input'.
Proof.
  intros Hct Hpt Hf Hcd Hc (marked & r & Hm & Hr & Hp).
  destruct (mul_div_ceil_mono _ _ _ _ Hf Hc (proj1 (proj2 Hct)) Hm) as (marked' & Hm' & Hle).
  exists marked', r. rewrite Hcd. split; [done|]. split; [done|].
  by eapply pays_enough_mono.
Qed.

Lemma all_accepted_lookup ops :
  all_accepted ops = true ↔ ∀ i e, ops !! i = Some e → accepted e = true.
Proof.
  unfold all_accepted. rewrite forallb_forall. split.
  - intros H i e He. apply H, list_elem_of_In. by eapply list_elem_of_lookup_2.
  - intros H e [i Hi]%list_elem_of_In%list_elem_of_lookup. eauto.
Qed.

(** ** The evaluation claims *)

(** Operations are judged alone.  A batch evaluation has one verdict per
    operation, and each verdict is the one the operation gets in a batch of
    its own: no surplus of a neighbour subsidises it, no shortfall of a
    neighbour hurts it, and their order is irrelevant. *)
Theorem settlement_judges_each_alone recipient config inputs price ops :
  evaluate_batch recipient config inputs price = Ok ops →
  length ops = length inputs ∧
  ∀ i input e, inputs !! i = Some input → ops !! i = Some e →
    evaluate_batch recipient config [input] price = Ok [e].
Proof.
  intros (Hv & floor & Hf & H)%evaluate_batch_Ok.
  split; [by symmetry; eapply Forall2_length|]. intros i input e Hi He.
  apply evaluate_batch_Ok. split; [done|]. exists floor. split; [done|].
  constructor; [|constructor]. exact (Forall2_lookup_lr _ inputs ops i _ _ H Hi He).
Qed.

(** The payment [r] covers [cost] marked up, in one asset: in the native coin
    at least [markup × cost] and the safety floor, or in one allowlisted
    stablecoin at least the USD value of [markup × cost] at the price used,
    and one hundredth of the coin. *)
Definition covers_cost (config : ChainAssetConfig) (price : option Z) (cost : Z)
    (r : Reimbursement) : Prop :=
  (stablecoins r = ∅ ∧
   settlement_markup_bps config * cost ≤ 10000 * native r ∧
   cost ≤ native r ∧ 10 ^ (native_decimals config - 6) ≤ native r) ∨
  (native r = 0 ∧ ∃ token paid asset p,
     stablecoins r = {[token := paid]} ∧ config_stablecoins config !! token = Some asset ∧
     price = Some p ∧
     settlement_markup_bps config * cost * p * 10 ^ coin_decimals asset
       ≤ 10000 * paid * 10 ^ (native_decimals config + 8) ∧
     10 ^ (coin_decimals asset - 2) ≤ paid).

Lemma accepted_covers recipient config inputs price ops i input e :
  config_typed config → price_typed price → fits 256 (gas_native_cost input) →
  evaluate_batch recipient config inputs price = Ok ops →
  inputs !! i = Some input → ops !! i = Some e → accepted e = true →
  ∃ r, parse_reimbursement (call_data input) recipient (allowlist_of config) = Ok r ∧
    covers_cost config price (gas_native_cost input) r.
Proof.
  intros Hct Hpt Hcost (Hv & floor & Hfl & HF)%evaluate_batch_Ok Hi He Hacc.
  pose proof (Forall2_lookup_lr _ inputs ops i _ _ HF Hi He) as Hev.
  apply (evaluate_input_accepted _ _ _ _ _ _ Hev) in Hacc as (marked & r & Hm & Hr & Hp).
  exists r. split; [done|]. destruct Hct as (Hnd & Hmk & Hsd).
  pose proof (validate_config_markup _ Hv) as Hmk2.
  rewrite mul_div_ceil_eq in Hm by (done || lia || (eapply fits_mono; [|done]; lia)).
  apply narrow_u512_Ok in Hm as [-> Hm].
  pose proof (ceil_quot_spec (gas_native_cost input * settlement_markup_bps config) 10000
    ltac:(lia)) as [_ Hq].
  set (marked := ceil_quot _ _) in *.
  pose proof (fits_nonneg 256 _ Hm) as Hm0. unfold fits in Hcost.
  destruct Hp as [(Hn & Hs & Hle)|(Hn & t & p & a & q & c & m & Hs & Ha & Hq' & Hc & Hmin & Hle)].
  - left. apply native_minimum_at_Ok in Hfl as (_ & -> & _);
      [|by apply (fits_nonneg 32)|intros p Hp; by apply (fits_nonneg 256), Hpt|done].
    split; [done|]. nia.
  - right. split; [done|]. exists t, p, a, q. do 3 (split; [done|]).
    apply minimum_amount_Ok in Hmin as (_ & -> & _). split; [|unfold MIN_STABLE_FRACTION_DECIMALS in Hle; lia].
    assert (0 < q) as Hq0.
    { unfold native_to_usd_stable_ceil in Hc. case_decide; [done|].
      pose proof (fits_nonneg 256 q (Hpt _ Hq')). lia. }
    specialize (Hsd _ _ Ha). apply fits_nonneg in Hnd, Hsd.
    rewrite native_to_usd_stable_ceil_eq in Hc by done.
    case_decide; [|done]. apply narrow_u512_Ok in Hc as [-> _].
    pose proof (Z.pow_pos_nonneg 10 (native_decimals config + 8) ltac:(lia) ltac:(lia)) as Hd.
    pose proof (ceil_quot_spec (marked * q * 10 ^ coin_decimals a)
      (10 ^ (native_decimals config + 8)) Hd) as [_ Hcq].
    pose proof (Z.pow_pos_nonneg 10 (coin_decimals a) ltac:(lia) ltac:(lia)) as Hd2.
    set (x := 10 ^ coin_decimals a) in *. set (y := 10 ^ (native_decimals config + 8)) in *.
    set (cc := ceil_quot (marked * q * x) y) in *.
    assert (settlement_markup_bps config * gas_native_cost input * (q * x) ≤ 10000 * marked * (q * x))
      by (apply Z.mul_le_mono_nonneg_r; [apply Z.mul_nonneg_nonneg|]; lia).
    assert (y * cc ≤ y * p) by (apply Z.mul_le_mono_nonneg_l; lia). lia.
Qed.

(** Never below cost.  An operation is accepted only if its own calldata
    pays the relay in exactly one asset, and that payment covers the whole
    marked-up cost: in the native coin at least [markup × cost] and the
    safety floor, in one allowlisted stablecoin at least the USD value of
    [markup × cost] at the price used, and one hundredth of the coin. *)
Theorem accepted_payment_covers_cost recipient config inputs price ops i input e :
  config_typed config → price_typed price → fits 256 (gas_native_cost input) →
  evaluate_batch recipient config inputs price = Ok ops →
  inputs !! i = Some input → ops !! i = Some e → accepted e = true →
  ∃ r, parse_reimbursement (call_data input) recipient (allowlist_of config) = Ok r ∧
    covers_cost config price (gas_native_cost input) r.
Proof. apply accepted_covers. Qed.

(** Repricing down keeps every acceptance.  When all operations of a batch
    are accepted at some costs, then at costs that are nowhere higher the
    evaluation succeeds again, without any overflow, and accepts them all. *)
Theorem lower_costs_stay_accepted recipient config inputs inputs' price ops :
  config_typed config → price_typed price →
  Forall2 (λ input input', call_data input' = call_data input ∧
    fits 256 (gas_native_cost input) ∧
    0 ≤ gas_native_cost input' ≤ gas_native_cost input) inputs inputs' →
  evaluate_batch recipient config inputs price = Ok ops → all_accepted ops = true →
  ∃ ops', evaluate_batch recipient config inputs' price = Ok ops' ∧ all_accepted ops' = true.
Proof.
  intros Hct Hpt Hin (Hv & floor & Hfl & HF)%evaluate_batch_Ok Hacc.
  enough (∃ ops', Forall2 (λ input e, evaluate_input recipient config price floor input = Ok e)
            inputs' ops' ∧ all_accepted ops' = true) as (ops' & HF' & Hacc').
  { exists ops'. split; [|done]. apply evaluate_batch_Ok. split; [done|]. by exists floor. }
  clear Hv Hfl. revert ops HF Hacc.
  induction Hin as [|input input' inputs inputs' (Hcd & Hf & Hc) Hin IH]; intros ops HF Hacc.
  - exists []. by split; [constructor|].
  - inversion HF as [|? e ? es He HF']; subst. cbn in Hacc. apply andb_true_iff in Hacc as [Ha Hacc].
    destruct (IH es HF' Hacc) as (ops' & HF2 & Hacc2).
    apply (evaluate_input_accepted _ _ _ _ _ _ He) in Ha.
    apply (input_pays_mono _ _ _ _ _ input' Hct Hpt Hf Hcd Hc) in Ha.
    apply evaluate_input_pays in Ha as (e' & He' & Ha').
    exists (e' :: ops'). split; [by constructor|]. change (accepted e' && all_accepted ops' = true). by rewrite Ha', Hacc2.
Qed.

(** A quote that is paid is honoured.  An operation whose calldata pays
    the native coin, at least [inBandFeePerGas × gas] of the quoted cap and at
    least the minimum the quote published, is accepted by the executor at
    that gas and that cap, provided the coin has lost no more than 10% since,
    or the executor has no price. *)
Theorem quoted_payment_is_accepted recipient config cap gas unit_price price price' published enforced
    paid cd :
  config_typed config → price_typed price' → validate_config config = Ok () →
  0 ≤ cap → 0 ≤ gas → fits 256 (gas * cap) → fits 256 paid → 0 < paid →
  0 < price → (∀ p', price' = Some p' → 9000 * price ≤ 10000 * p') →
  in_band_fee_per_gas cap (settlement_markup_bps config) = Some unit_price →
  published_native_minimum (native_decimals config) (Some price) = Ok published →
  enforced_native_minimum (native_decimals config) price' = Ok enforced →
  parse_reimbursement cd recipient (allowlist_of config) = Ok {| native := paid; stablecoins := ∅ |} →
  Z.max (unit_price * gas) published ≤ paid →
  ∃ e, evaluate_batch recipient config [{| call_data := cd; gas_native_cost := gas * cap |}] price'
         = Ok [e] ∧ accepted e = true.
Proof.
  intros (Hnd & Hmk & _) Hpt Hv Hcap Hgas Hcost Hpaid Hpos Hp Hp' Hunit Hpub Henf Hparse Hpay.
  assert (Hmin : enforced ≤ published).
  { eapply enforced_le_published; [by apply (fits_nonneg 32)|exact Hp|exact Hp'|done..]. }
  apply in_band_fee_eq in Hunit as ->.
  set (unit_price := ceil_quot (cap * settlement_markup_bps config) 10000) in *.
  pose proof (ceil_quot_spec (cap * settlement_markup_bps config) 10000 ltac:(lia)) as [_ Hq].
  fold unit_price in Hq.
  pose proof (ceil_quot_spec (gas * cap * settlement_markup_bps config) 10000 ltac:(lia)) as Hm.
  assert (Hle : ceil_quot (gas * cap * settlement_markup_bps config) 10000 ≤ unit_price * gas).
  { apply ceil_quot_le_iff; [lia|]. nia. }
  assert (Hnn : 0 ≤ ceil_quot (gas * cap * settlement_markup_bps config) 10000).
  { apply ceil_quot_nonneg; [lia|]. apply fits_nonneg in Hcost, Hmk. nia. }
  destruct (evaluate_input_pays recipient config price' enforced
    {| call_data := cd; gas_native_cost := gas * cap |}) as (e & He & Ha).
  { eexists _, _. split; [|split; [exact Hparse|]].
    - rewrite mul_div_ceil_eq by (done || lia || (eapply fits_mono; [|done]; lia)).
      apply narrow_u512_Ok. split; [done|]. eapply fits_le; [exact Hpaid|]. simpl. lia.
    - left. simpl. split; [lia|]. split; [done|]. lia. }
  exists e. split; [|done]. apply evaluate_batch_Ok. split; [done|]. exists enforced.
  split; [done|]. by constructor.
Qed.

End BatchLemmas.

(** ** Market prices *)

Lemma ceil_quot_unique a b q : 0 < b → b * (q - 1) < a ≤ b * q → ceil_quot a b = q.
Proof. intros Hb H. pose proof (ceil_quot_spec a b Hb). nia. Qed.

(** A chain of checks whose last result is the largest is one check. *)
Lemma checked_chain x y z (f : Z → option Z) :
  0 ≤ x ≤ y → y ≤ z →
  (_ ← checked 256 x; _ ← checked 256 y; r ← checked 256 z; f r) = (r ← checked 256 z; f r).
Proof.
  intros Hx Hz. unfold checked. repeat (case_decide; simpl; try done);
    exfalso; unfold fits in *; lia.
Qed.

Lemma str_take_ge n s : (String.length s ≤ n)%nat → str_take n s = s.
Proof. revert s. induction n as [|n IH]; intros [|a s]; simpl; try lia; [done..|]. intros. by rewrite IH by lia. Qed.

Lemma str_drop_ge n s : (String.length s ≤ n)%nat → str_drop n s = "".
Proof. revert s. induction n as [|n IH]; intros [|a s]; simpl; try lia; auto with lia. Qed.

(** The fraction's part of a price, and whether digits beyond the eighth
    round it up. *)
Definition price_fraction (fraction : string) : Z :=
  let kept := str_take 8 fraction in
  dec_value 0 kept * 10 ^ (8 - Z.of_nat (String.length kept)) +
  (if decide (dec_value 0 (str_drop 8 fraction) = 0) then 0 else 1).

Lemma price_fraction_spec fraction W :
  all_chars is_ascii_digit fraction = true → 0 ≤ W →
  ceil_quot ((W * 10 ^ Z.of_nat (String.length fraction) + dec_value 0 fraction) * 10 ^ 8)
    (10 ^ Z.of_nat (String.length fraction)) = W * 10 ^ 8 + price_fraction fraction.
Proof.
  intros Hf HW. pose proof (dec_value_range fraction Hf) as HF. unfold price_fraction.
  set (k := Z.of_nat (String.length fraction)) in *.
  pose proof (Z.pow_pos_nonneg 10 k ltac:(lia) ltac:(lia)) as Hk.
  apply ceil_quot_unique; [done|].
  destruct (decide (String.length fraction ≤ 8)%nat) as [Hle|Hgt].
  - rewrite str_take_ge, str_drop_ge by done. fold k. rewrite decide_True by done.
    assert (10 ^ 8 = 10 ^ k * 10 ^ (8 - k)) as ->.
    { rewrite <-Z.pow_add_r by lia. f_equal. lia. }
    pose proof (Z.pow_pos_nonneg 10 (8 - k) ltac:(lia) ltac:(lia)).
    set (x := 10 ^ (8 - k)) in *. set (y := 10 ^ k) in *. nia.
  - rewrite str_take_length. replace (8 - Z.of_nat (Nat.min 8 (String.length fraction))) with 0 by lia.
    rewrite Z.pow_0_r, Z.mul_1_r.
    assert (dec_value 0 fraction = dec_value 0 (str_take 8 fraction) *
              10 ^ Z.of_nat (String.length fraction - 8) + dec_value 0 (str_drop 8 fraction)) as ->.
    { rewrite <-(str_take_drop 8 fraction) at 1. by rewrite dec_value_app, str_drop_length. }
    rewrite <-(str_take_drop 8 fraction), all_chars_app in Hf.
    apply andb_true_iff in Hf as [_ Hf2].
    pose proof (dec_value_range _ Hf2) as HR. rewrite str_drop_length in HR.
    assert (10 ^ k = 10 ^ 8 * 10 ^ Z.of_nat (String.length fraction - 8)) as ->.
    { rewrite <-Z.pow_add_r by lia. f_equal. lia. }
    set (t := 10 ^ Z.of_nat (String.length fraction - 8)) in *.
    set (K := dec_value 0 (str_take 8 fraction)) in *.
    set (R := dec_value 0 (str_drop 8 fraction)) in *. clearbody t K R.
    change (10 ^ 8) with 100000000 in *. clear HF. case_decide; lia.
Qed.

(** A market quote is never read below its value.  A decimal quote with
    any number of fraction digits is read as the least 8-decimal fixed-point
    price not below it, however long the fraction; it is refused only when
    that price is zero or exceeds a [U256]. *)
Theorem market_price_rounds_up value whole fraction :
  whole ≠ "" → all_chars is_ascii_digit whole = true → all_chars is_ascii_digit fraction = true →
  (trim value = whole +:+ "." +:+ fraction ∨ trim value = whole ∧ fraction = "") →
  parse_market_usd_price value =
    price ← checked 256 (ceil_quot (dec_value 0 (whole +:+ fraction) * USD_PRICE_SCALE)
                           (10 ^ Z.of_nat (String.length fraction)));
    if decide (price = 0) then None else Some price.
Proof.
  intros Hne Hw Hf Hv. unfold parse_market_usd_price.
  assert (Hnodot : ∀ s, all_chars is_ascii_digit s = true →
            all_chars (λ a, negb (bool_decide (a = "."%char))) s = true).
  { intros s. apply all_chars_impl. intros a. unfold is_ascii_digit.
    rewrite bool_decide_eq_true, negb_true_iff, bool_decide_eq_false.
    intros Ha ->. change (byte_of "."%char) with 46 in Ha. lia. }
  assert (Hparts : ∃ rest, str_split "." (trim value) = whole :: rest ∧
            default "" (head rest) = fraction ∧ (length rest ≤ 1)%nat).
  { destruct Hv as [->|[-> ->]].
    - exists [fraction]. change ("." +:+ fraction) with (String "." fraction).
      rewrite str_split_once, str_split_none by by apply Hnodot. by auto.
    - exists []. rewrite str_split_none by by apply Hnodot. by auto. }
  destruct Hparts as (rest & -> & Hrest & Hlen). rewrite Hrest.
  rewrite (bool_decide_eq_false_2 (2 ≤ _)%nat) by lia.
  rewrite (bool_decide_eq_false_2 (whole = "")) by done. rewrite Hw, Hf. cbn [negb orb].
  rewrite dec_value_app. change USD_PRICE_SCALE with (10 ^ 8).
  pose proof (dec_value_range whole Hw) as HW. set (W := dec_value 0 whole) in *.
  rewrite price_fraction_spec by (done || lia).
  change (Z.to_nat USD_PRICE_DECIMALS) with 8%nat. change USD_PRICE_DECIMALS with 8.
  unfold price_fraction. set (kept := str_take 8 fraction).
  assert (Hkept : all_chars is_ascii_digit kept = true ∧ (String.length kept ≤ 8)%nat).
  { subst kept. rewrite str_take_length. split; [|lia].
    rewrite <-(str_take_drop 8 fraction), all_chars_app in Hf.
    by apply andb_true_iff in Hf as [? _]. }
  destruct Hkept as [Hkd Hkl]. pose proof (dec_value_range kept Hkd) as Hkv.
  set (fv := dec_value 0 kept * 10 ^ (8 - Z.of_nat (String.length kept))).
  pose proof (Z.pow_pos_nonneg 10 (8 - Z.of_nat (String.length kept)) ltac:(lia) ltac:(lia)) as Hpos.
  assert (Hfv : 0 ≤ fv < 10 ^ 8).
  { assert (10 ^ 8 = 10 ^ Z.of_nat (String.length kept) * 10 ^ (8 - Z.of_nat (String.length kept))) as ->
      by (rewrite <-Z.pow_add_r by lia; f_equal; lia).
    subst fv. split; [nia|]. apply Z.mul_lt_mono_pos_r; [done|lia]. }
  assert (Hlt : 10 ^ 8 < 2 ^ 256) by done.
  replace (if bool_decide (kept = "") then Some 0 else _) with (Some fv).
  2:{ case_bool_decide as Hk; [by subst fv; rewrite Hk|].
      assert (dec_value 0 kept ≤ fv) by (subst fv; nia).
      rewrite checked_fits by (unfold fits; lia). simpl.
      by rewrite checked_fits by (unfold fits; fold fv; lia). }
  cbn [mbind option_bind].
  replace (bool_decide (8 < _) && _) with (negb (bool_decide (dec_value 0 (str_drop 8 fraction) = 0))).
  2:{ destruct (decide (String.length fraction ≤ 8)%nat) as [Hle|Hgt].
      - rewrite str_drop_ge by done. by rewrite (bool_decide_eq_false_2 (8 < _)) by lia.
      - rewrite (bool_decide_eq_true_2 (8 < _)) by lia. cbn [andb]. f_equal.
        assert (Hd : all_chars is_ascii_digit (str_drop 8 fraction) = true).
        { rewrite <-(str_take_drop 8 fraction), all_chars_app in Hf.
          by apply andb_true_iff in Hf as [_ ?]. }
        apply eq_true_iff_eq. by rewrite bool_decide_eq_true, dec_value_zero. }
  clear Hpos Hkv Hkd Hkl Hv Hrest. clearbody fv W. set (R := dec_value 0 (str_drop 8 fraction)).
  clearbody R. set (e8 := 10 ^ 8) in *. clearbody e8.
  destruct (decide (R = 0)) as [HR|HR];
    [rewrite bool_decide_eq_true_2 by done|rewrite bool_decide_eq_false_2 by done];
    cbn [negb]; rewrite ?Z.add_0_r, ?Z.add_assoc.
  - unfold checked. repeat (case_decide; simpl; try done); exfalso; unfold fits in *; nia.
  - unfold checked. repeat (case_decide; simpl; try done); exfalso; unfold fits in *; nia.
Qed.

(** ** Concrete evaluations *)

Definition sample_config : ChainAssetConfig :=
  {| native_decimals := 18; settlement_markup_bps := 11000;
     config_stablecoins := {[ sample_token := {| coin_symbol := "USDC"; coin_decimals := 6 |} ]} |}.

Lemma sample_config_typed : config_typed sample_config.
Proof.
  split; [done|]. split; [done|]. intros token asset. simpl.
  rewrite lookup_singleton_Some. intros [_ <-]. done.
Qed.

(** One operation pays 2 × 10^13 wei, the other 30,000 units of the token. *)
Definition native_call : list byte :=
  execute_user_op_call 0
    [{| tx_operation := x00; tx_to := sample_recipient; tx_value := 20000000000000; tx_data := [] |}] [] [].
Definition token_call : list byte :=
  execute_user_op_call 0
    [{| tx_operation := x00; tx_to := sample_token; tx_value := 0;
        tx_data := erc20_transfer_call sample_recipient 30000 |}] [] [].
Definition sample_inputs : list SettlementInput :=
  [ {| call_data := native_call; gas_native_cost := 18000000000000 |};
    {| call_data := token_call; gas_native_cost := 9000000000000 |} ].
Definition ether_price : option Z := Some 250000000000.

Lemma ether_price_typed : price_typed ether_price.
Proof. by intros p [= <-]. Qed.

Definition sample_ops : list SettlementEvaluation :=
  match @evaluate_batch x86_64 sample_recipient sample_config sample_inputs ether_price with
  | Ok ops => ops | Err _ => [] end.

Lemma settlement_judges_each_alone_witness :
  length sample_ops = length sample_inputs ∧
  ∀ i input e, sample_inputs !! i = Some input → sample_ops !! i = Some e →
    @evaluate_batch x86_64 sample_recipient sample_config [input] ether_price = Ok [e].
Proof.
  apply (@settlement_judges_each_alone x86_64 sample_recipient sample_config sample_inputs).
  by vm_compute.
Defined.

Lemma accepted_payment_covers_cost_witness :
  ∃ r, @parse_reimbursement x86_64 token_call sample_recipient (allowlist_of sample_config) = Ok r ∧
    covers_cost sample_config ether_price 9000000000000 r.
Proof.
  eapply (@accepted_payment_covers_cost x86_64 sample_recipient sample_config sample_inputs ether_price
    sample_ops 1 {| call_data := token_call; gas_native_cost := 9000000000000 |}).
  - apply sample_config_typed.
  - apply ether_price_typed.
  - done.
  - by vm_compute.
  - done.
  - vm_compute. reflexivity.
  - by vm_compute.
Defined.

Lemma lower_costs_stay_accepted_witness :
  ∃ ops', @evaluate_batch x86_64 sample_recipient sample_config
            [ {| call_data := native_call; gas_native_cost := 17000000000000 |};
              {| call_data := token_call; gas_native_cost := 1 |} ] ether_price = Ok ops' ∧
    all_accepted ops' = true.
Proof.
  apply (@lower_costs_stay_accepted x86_64 sample_recipient sample_config sample_inputs _ ether_price sample_ops).
  - apply sample_config_typed.
  - apply ether_price_typed.
  - repeat constructor; simpl; try done; lia.
  - by vm_compute.
  - by vm_compute.
Defined.

(** A cap of 90 wei at 200,000 gas; the minimum, 0.01 USD, is what binds. *)
Lemma quoted_payment_is_accepted_witness :
  ∃ e, @evaluate_batch x86_64 sample_recipient sample_config
         [{| call_data := native_call; gas_native_cost := 200000 * 90 |}] None = Ok [e] ∧
    accepted e = true.
Proof.
  apply (@quoted_payment_is_accepted x86_64 sample_recipient sample_config 90 200000 99
    250000000000 None 4000000000000 1000000000000 20000000000000);
    try apply sample_config_typed; try done; try lia; by vm_compute.
Defined.

Lemma market_price_rounds_up_witness :
  parse_market_usd_price " 2494.123456781 " = Some 249412345679.
Proof.
  rewrite (market_price_rounds_up _ "2494" "123456781"); [by vm_compute..|].
  left. by vm_compute.
Defined.
