(* ===== verification/SettlementDecision.v ===== *)
(** * SettlementDecision: the fee a bundle is signed at
    ([vela-relay-core/src/settlement.rs], fees and verdict)

    [decide_submission_fees] fits a named speed to what the weakest payer
    funds; [decide_settlement] keeps the quoted cap, reprices down into the
    signed payments, or reports that no includable cap is funded. *)

From S2P Require Export Settlement.
#[local] Open Scope Z_scope.

(** ** What a payment funds *)

(** [iter().min()] *)
Fixpoint list_min (l : list Z) : option Z :=
  match l with
  | [] => None
  | x :: l => Some (match list_min l with Some m => Z.min x m | None => x end)
  end.

Definition affordable_fee_per_gas (quoted_max_fee_per_gas : Z)
    (evaluations : list SettlementEvaluation) : option Z :=
  weakest ← list_min (map paid_ratio_bps evaluations);
  product ← checked 128 (quoted_max_fee_per_gas * Z.min weakest 10000);
  let affordable := product / 10000 in
  if decide (0 < affordable) then Some affordable else None.

Definition fundable_fee_per_gas (reference_fee_per_gas : Z)
    (evaluations : list SettlementEvaluation) : option Z :=
  weakest ← list_min (map paid_ratio_bps evaluations);
  Some (match checked 128 (reference_fee_per_gas * weakest) with
        | Some scaled => scaled / 10000
        | None => umax 128
        end).

Definition inclusion_floor_fee_per_gas
    (base_fee_per_gas max_priority_fee_per_gas floor_bps : Z) : option Z :=
  scaled ← checked 128 (base_fee_per_gas * floor_bps);
  checked 128 (scaled / 10000 + max_priority_fee_per_gas).

(** ** Inputs and verdicts *)

Record FeeContext : Type := {
  quoted_fee_per_gas : Z;
  fc_base_fee_per_gas : Z;
  fc_max_priority_fee_per_gas : Z;
  inclusion_floor_bps : Z;
  requested_tier : option SubmissionTier;
  fc_tier_tips : TierTips }.

Inductive SettlementDecision : Type :=
  | KeepQuote (evaluation : list SettlementEvaluation)
  | FloorUnfundable (evaluation : list SettlementEvaluation) (affordable floor : Z)
  | Reprice (fee_per_gas : Z) (evaluation : list SettlementEvaluation).

Inductive SettlementDecisionError : Type :=
  | CostOverflow
  | Evaluation (error : SettlementError).

(** [Display] of the errors *)
Definition settlement_error_text (error : SettlementError) : string :=
  match error with
  | InvalidConfiguration message => message
  | ArithmeticOverflow => "settlement arithmetic overflow"
  | MissingNativeUsdPrice => "missing Binance native USD price"
  end%string.
Definition settlement_decision_error_text (error : SettlementDecisionError) : string :=
  match error with
  | CostOverflow => "bundle native cost overflow"
  | Evaluation error => settlement_error_text error
  end%string.

Section Decisions.
Context `{W : TargetWidth}.

(** [costs_at] and [evaluate_at]. *)
Definition costs_at (allocations : list Z) (fee : Z) : result SettlementDecisionError (list Z) :=
  ok_or (mapM (λ gas, native_cost gas fee) allocations) CostOverflow.

Definition inputs_at (call_datas : list (list byte)) (costs : list Z) : list SettlementInput :=
  zip_with (λ cd cost, {| call_data := cd; gas_native_cost := cost |}) call_datas costs.

Definition evaluate_at (recipient : Z) (chain_assets : ChainAssetConfig)
    (call_datas : list (list byte)) (native_usd_price : option Z) (costs : list Z) :
    result SettlementDecisionError (list SettlementEvaluation) :=
  map_err Evaluation (evaluate_batch recipient chain_assets (inputs_at call_datas costs)
                        native_usd_price).

Definition decide_submission_fees (recipient : Z) (chain_assets : ChainAssetConfig)
    (call_datas : list (list byte)) (allocations : list Z) (native_usd_price : option Z)
    (fees : FeeContext) : result SettlementDecisionError (option OuterFee) :=
  match requested_tier fees with
  | None => Ok None
  | Some tier =>
      let base := fc_base_fee_per_gas fees in
      match tier_outer_fee tier base (fc_tier_tips fees) with
      | None => Ok None
      | Some requested =>
          let tip := outer_max_priority_fee requested in
          match inclusion_floor_fee_per_gas base 0 (inclusion_floor_bps fees) with
          | None => Ok (Some requested)
          | Some headroom =>
              let floor_with_tip := saturating_add 128 headroom tip in
              let reference := Z.max (outer_max_fee requested) floor_with_tip in
              costs ← costs_at allocations reference;
              evaluation ← evaluate_at recipient chain_assets call_datas native_usd_price costs;
              let fundable := default (outer_max_fee requested)
                                (fundable_fee_per_gas reference evaluation) in
              let slowest := Z.min (tip_floor (fc_tier_tips fees)) tip in
              let outer :=
                if decide (floor_with_tip ≤ fundable) then
                  {| outer_max_fee := Z.min (Z.max (outer_max_fee requested) floor_with_tip) fundable;
                     outer_max_priority_fee := tip |}
                else if decide (saturating_add 128 headroom slowest ≤ fundable) then
                  {| outer_max_fee := fundable;
                     outer_max_priority_fee := wrapping 128 (fundable - headroom) |}
                else
                  {| outer_max_fee := saturating_add 128 headroom slowest;
                     outer_max_priority_fee := slowest |} in
              Ok (Some {| outer_max_fee := Z.max (outer_max_fee outer)
                            (saturating_add 128 base (outer_max_priority_fee outer));
                          outer_max_priority_fee := outer_max_priority_fee outer |})
          end
      end
  end.

Definition decide_settlement (recipient : Z) (chain_assets : ChainAssetConfig)
    (call_datas : list (list byte)) (allocations : list Z) (native_usd_price : option Z)
    (fees : FeeContext) : result SettlementDecisionError SettlementDecision :=
  let evaluate_at := evaluate_at recipient chain_assets call_datas native_usd_price in
  costs ← costs_at allocations (quoted_fee_per_gas fees);
  settlement ← evaluate_at costs;
  if all_accepted settlement ||
     existsb (λ evaluation, negb (accepted evaluation) && negb (is_shortfall evaluation)) settlement
  then Ok (KeepQuote settlement)
  else
    match affordable_fee_per_gas (quoted_fee_per_gas fees) settlement with
    | None => Ok (KeepQuote settlement)
    | Some affordable =>
        match inclusion_floor_fee_per_gas (fc_base_fee_per_gas fees)
                (fc_max_priority_fee_per_gas fees) (inclusion_floor_bps fees) with
        | None => Ok (KeepQuote settlement)
        | Some floor =>
            if decide (affordable < floor ∨ quoted_fee_per_gas fees ≤ affordable)
            then Ok (FloorUnfundable settlement affordable floor)
            else
              costs ← costs_at allocations affordable;
              repriced ← evaluate_at costs;
              if negb (all_accepted repriced) then Ok (KeepQuote settlement)
              else Ok (Reprice affordable repriced)
        end
    end.

End Decisions.

(** ** Lemmas *)

Lemma list_min_Some l m : list_min l = Some m → m ∈ l ∧ ∀ x, x ∈ l → m ≤ x.
Proof.
  revert m. induction l as [|x l IH]; intros m; cbn [list_min]; [done|].
  destruct (list_min l) as [m'|] eqn:E; intros [= <-].
  - destruct (IH m' eq_refl) as [Hin Hle]. split.
    + destruct (Z.min_spec x m') as [[_ ->]|[_ ->]]; set_solver.
    + intros y [->|Hy]%elem_of_cons; [lia|]. specialize (Hle y Hy). lia.
  - destruct l as [|y l]; [|cbn in E; by destruct (list_min l)].
    split; [set_solver|]. intros y ->%list_elem_of_singleton. lia.
Qed.

Lemma list_min_None l : list_min l = None ↔ l = [].
Proof. destruct l; cbn; [done|]. split; [|done]. by destruct (list_min l). Qed.

Lemma affordable_Some quoted evals a :
  affordable_fee_per_gas quoted evals = Some a →
  ∃ weakest, list_min (map paid_ratio_bps evals) = Some weakest ∧
    a = quoted * Z.min weakest 10000 / 10000 ∧ fits 128 (quoted * Z.min weakest 10000) ∧ 0 < a.
Proof.
  unfold affordable_fee_per_gas. intros H. inv_checked. case_decide; [|done].
  inv_checked. eexists. split; [eassumption|]. done.
Qed.

Lemma inclusion_floor_Some base tip bps f :
  inclusion_floor_fee_per_gas base tip bps = Some f → f = base * bps / 10000 + tip ∧ fits 128 f.
Proof. unfold inclusion_floor_fee_per_gas. intros H. inv_checked. done. Qed.

Lemma costs_at_Ok allocations fee costs :
  costs_at allocations fee = Ok costs ↔
  costs = map (λ gas, gas * fee) allocations ∧ Forall (λ gas, fits 256 (gas * fee)) allocations.
Proof.
  unfold costs_at. rewrite ok_or_Ok, mapM_Some. unfold native_cost. split.
  - induction 1 as [|g c gs cs Hc H [-> IH]]; [done|].
    apply checked_Some in Hc as [-> Hc]. split; [done|by constructor].
  - intros [-> H]. induction H; constructor; [|done]. by apply checked_fits.
Qed.

Lemma costs_at_lower allocations fee fee' costs :
  costs_at allocations fee = Ok costs → Forall (λ gas, 0 ≤ gas) allocations → 0 ≤ fee' ≤ fee →
  costs_at allocations fee' = Ok (map (λ gas, gas * fee') allocations).
Proof.
  rewrite !costs_at_Ok. intros [-> H] Hg Hf. split; [done|].
  rewrite Forall_forall in *. intros g Hin. specialize (H g Hin). specialize (Hg g Hin).
  eapply fits_le; [exact H|]. nia.
Qed.

Section DecisionLemmas.
Context `{W : TargetWidth}.

Lemma inputs_at_lookup call_datas allocations fee i cd gas :
  call_datas !! i = Some cd → allocations !! i = Some gas →
  inputs_at call_datas (map (λ gas, gas * fee) allocations) !! i =
  Some {| call_data := cd; gas_native_cost := gas * fee |}.
Proof.
  intros Hc Hg. unfold inputs_at. rewrite lookup_zip_with, Hc. simpl.
  rewrite list_lookup_fmap, Hg. done.
Qed.

Lemma evaluate_at_Ok recipient config call_datas price costs ops :
  evaluate_at recipient config call_datas price costs = Ok ops ↔
  evaluate_batch recipient config (inputs_at call_datas costs) price = Ok ops.
Proof. unfold evaluate_at. apply map_err_Ok. Qed.

(** The cap and the evaluation a verdict leaves the bundle with. *)
Definition signed_fee (quoted : Z) (d : SettlementDecision) : Z :=
  match d with Reprice fee _ => fee | _ => quoted end.
Definition evaluation_of (d : SettlementDecision) : list SettlementEvaluation :=
  match d with KeepQuote e | FloorUnfundable e _ _ | Reprice _ e => e end.

Lemma decide_settlement_evaluates recipient config call_datas allocations price fees d :
  decide_settlement recipient config call_datas allocations price fees = Ok d →
  ∃ costs, costs_at allocations (signed_fee (quoted_fee_per_gas fees) d) = Ok costs ∧
    evaluate_at recipient config call_datas price costs = Ok (evaluation_of d).
Proof.
  unfold decide_settlement. intros H.
  apply result_bind_Ok in H as (costs & Hc & H). apply result_bind_Ok in H as (ev & He & H).
  case_match; [injection H as <-; simpl; eauto|].
  destruct (affordable_fee_per_gas _ _) as [a|]; [|injection H as <-; simpl; eauto].
  destruct (inclusion_floor_fee_per_gas _ _ _) as [floor|]; [|injection H as <-; simpl; eauto].
  case_decide; [injection H as <-; simpl; eauto|].
  apply result_bind_Ok in H as (costs' & Hc' & H). apply result_bind_Ok in H as (e1 & He1 & H).
  destruct (all_accepted e1); injection H as <-; simpl; eauto.
Qed.

(** A repriced verdict: a cap below the quote, at or above the floor, at which
    everything is accepted. *)
Lemma decide_settlement_reprices recipient config call_datas allocations price fees fee ev :
  decide_settlement recipient config call_datas allocations price fees = Ok (Reprice fee ev) →
  all_accepted ev = true ∧ 0 < fee < quoted_fee_per_gas fees ∧
  ∃ floor, inclusion_floor_fee_per_gas (fc_base_fee_per_gas fees)
             (fc_max_priority_fee_per_gas fees) (inclusion_floor_bps fees) = Some floor ∧
           floor ≤ fee.
Proof.
  unfold decide_settlement. intros H.
  apply result_bind_Ok in H as (costs & Hc & H). apply result_bind_Ok in H as (e0 & He & H).
  case_match; [done|].
  destruct (affordable_fee_per_gas _ _) as [a|] eqn:Ea; [|done].
  destruct (inclusion_floor_fee_per_gas _ _ _) as [floor|] eqn:Ef; [|done].
  case_decide as Hcmp; [done|].
  apply result_bind_Ok in H as (costs' & Hc' & H). apply result_bind_Ok in H as (e1 & He1 & H).
  destruct (all_accepted e1) eqn:Eacc; cbn [negb] in H; [|done]. injection H as -> ->.
  apply affordable_Some in Ea as (? & _ & _ & _ & ?).
  split; [done|]. split; [lia|]. exists floor. split; [done|]. lia.
Qed.

(** The payments an accepted operation of a verdict was judged on cover its
    gas at the cap the verdict leaves. *)
Lemma accepted_at_cap recipient config call_datas allocations price fees d i cd gas e :
  config_typed config → price_typed price →
  decide_settlement recipient config call_datas allocations price fees = Ok d →
  call_datas !! i = Some cd → allocations !! i = Some gas →
  evaluation_of d !! i = Some e → accepted e = true →
  parse_reimbursement cd recipient (allowlist_of config) = Ok (ev_reimbursement e) ∧
  covers_cost config price (gas * signed_fee (quoted_fee_per_gas fees) d) (ev_reimbursement e).
Proof.
  intros Hct Hpt H Hi Hgas He Hacc.
  apply decide_settlement_evaluates in H as (costs & Hc & Hev).
  apply costs_at_Ok in Hc as [-> Hfit]. apply evaluate_at_Ok in Hev.
  rewrite Forall_forall in Hfit. specialize (Hfit gas (list_elem_of_lookup_2 _ _ _ Hgas)).
  pose proof (inputs_at_lookup _ _ (signed_fee (quoted_fee_per_gas fees) d) _ _ _ Hi Hgas) as Hin.
  destruct (accepted_covers _ _ _ _ _ i {| call_data := cd; gas_native_cost := _ |} e
    Hct Hpt Hfit Hev Hin He Hacc) as (r & Hr & Hcov).
  apply evaluate_batch_Ok in Hev as (_ & floor & _ & HF).
  pose proof (Forall2_lookup_lr _ _ _ i _ _ HF Hin He) as Hone.
  pose proof (accepted_reimbursement _ _ _ _ _ _ Hone Hacc) as Hp.
  simpl in Hr, Hp. rewrite Hp in Hr. by injection Hr as <-.
Qed.

(** C31: What is signed is paid for.  Every verdict carries the evaluation of
    the bundle at the very cap it leaves the bundle with.  A repriced cap is
    below the quote and at or above the inclusion floor, and every operation
    is accepted at it; and whatever the verdict, each accepted operation's
    payment covers its gas at the signed cap with the whole markup, so the
    chain, which never charges more than the cap, cannot charge more than was
    paid for the gas billed. *)
Theorem signed_cap_is_paid_for recipient config call_datas allocations price fees d :
  config_typed config → price_typed price → Forall (λ gas, 0 ≤ gas) allocations →
  decide_settlement recipient config call_datas allocations price fees = Ok d →
  (∀ fee ev, d = Reprice fee ev →
     all_accepted ev = true ∧ 0 < fee < quoted_fee_per_gas fees ∧
     ∃ floor, inclusion_floor_fee_per_gas (fc_base_fee_per_gas fees)
                (fc_max_priority_fee_per_gas fees) (inclusion_floor_bps fees) = Some floor ∧
              floor ≤ fee) ∧
  (∀ i cd gas e, call_datas !! i = Some cd → allocations !! i = Some gas →
     evaluation_of d !! i = Some e → accepted e = true →
     ∃ r, parse_reimbursement cd recipient (allowlist_of config) = Ok r ∧
       covers_cost config price (gas * signed_fee (quoted_fee_per_gas fees) d) r).
Proof.
  intros Hct Hpt Hg H. split.
  - intros fee ev ->. by apply decide_settlement_reprices in H.
  - intros i cd gas e Hi Hgas He Hacc. eexists. by eapply accepted_at_cap.
Qed.

(** An operation that pays the native coin, and nothing else. *)
Definition pays_native (recipient : Z) (config : ChainAssetConfig) (minimum : Z) (cd : list byte)
    (paid : Z) : Prop :=
  parse_reimbursement cd recipient (allowlist_of config) =
    Ok {| native := paid; stablecoins := ∅ |} ∧ 0 < paid ∧ fits 256 paid ∧ minimum ≤ paid.

Lemma native_evaluation recipient config price floor cd cost paid e :
  pays_native recipient config floor cd paid →
  evaluate_input recipient config price floor {| call_data := cd; gas_native_cost := cost |} = Ok e →
  ∃ marked, mul_div_ceil cost (settlement_markup_bps config) 10000 = Ok marked ∧
    paid_amount e = paid ∧ required_amount e = Z.max marked floor ∧
    rejection e = (if decide (paid < Z.max marked floor) then Some InsufficientPayment else None).
Proof.
  intros (Hp & Hpos & _) H. unfold evaluate_input in H. apply result_bind_Ok in H as (m & Hm & H).
  exists m. split; [done|]. simpl in H. rewrite Hp in H. unfold evaluate_one in H. simpl in H.
  rewrite bool_decide_eq_true_2 in H by lia. injection H as <-. done.
Qed.

Lemma native_evaluation_cases recipient config price floor cd cost paid e :
  pays_native recipient config floor cd paid →
  evaluate_input recipient config price floor {| call_data := cd; gas_native_cost := cost |} = Ok e →
  (accepted e = true ∨ is_shortfall e = true) ∧
  (accepted e = false → 0 ≤ cost → fits 64 (settlement_markup_bps config) → fits 256 cost →
   paid_ratio_bps e < 10000).
Proof.
  intros Hp He. destruct (native_evaluation _ _ _ _ _ _ _ _ Hp He) as (m & Hm & H1 & H2 & H3).
  unfold accepted, is_shortfall. rewrite H3. split; [case_decide; auto|].
  case_decide as Hlt; [|done]. intros _ Hc Hmk Hcf. unfold paid_ratio_bps. rewrite H1, H2.
  destruct Hp as (_ & Hpos & Hfit & _).
  rewrite mul_div_ceil_eq in Hm by (done || lia || (eapply fits_mono; [|done]; lia)).
  apply narrow_u512_Ok in Hm as [-> Hm].
  assert (Hreq : 0 < Z.max (ceil_quot (cost * settlement_markup_bps config) 10000) floor) by lia.
  rewrite decide_False by lia.
  unfold wrapping. rewrite Z.mod_small.
  2:{ unfold fits in Hfit. change (2 ^ 512) with (2 ^ 256 * 2 ^ 256). nia. }
  set (req := Z.max _ _) in *.
  assert (paid * 10000 / req < 10000) by (apply Z.div_lt_upper_bound; lia).
  pose proof (Z.div_pos (paid * 10000) req ltac:(lia) Hreq).
  rewrite checked_fits by (unfold fits; lia). done.
Qed.

(** The requirement is linear in the cap: what falls short at the quoted cap
    is enough at the cap its ratio scales to. *)
Lemma native_affordable recipient config price floor cd gas quoted paid e a :
  pays_native recipient config floor cd paid → fits 64 (settlement_markup_bps config) →
  0 ≤ gas → 0 ≤ quoted → fits 256 (gas * quoted) →
  evaluate_input recipient config price floor
    {| call_data := cd; gas_native_cost := gas * quoted |} = Ok e →
  0 ≤ a → a * 10000 ≤ quoted * Z.min (paid_ratio_bps e) 10000 →
  input_pays recipient config price floor {| call_data := cd; gas_native_cost := gas * a |}.
Proof.
  intros Hp Hmk Hg Hq Hcf He Ha Hle.
  destruct (native_evaluation _ _ _ _ _ _ _ _ Hp He) as (m & Hm & H1 & H2 & _).
  destruct Hp as (Hparse & Hpos & Hfit & Hmin).
  assert (Hmk256 : fits 256 (settlement_markup_bps config)) by (eapply fits_mono; [|done]; lia).
  rewrite mul_div_ceil_eq in Hm by (done || lia).
  apply narrow_u512_Ok in Hm as [-> Hm]. unfold fits in Hmk.
  set (markup := settlement_markup_bps config) in *.
  pose proof (ceil_quot_spec (gas * quoted * markup) 10000 ltac:(lia)) as [_ Hs].
  pose proof (ceil_quot_nonneg (gas * quoted * markup) 10000 ltac:(lia)
    ltac:(apply Z.mul_nonneg_nonneg; [apply Z.mul_nonneg_nonneg|]; lia)) as Hnn.
  assert (Hgm : 0 ≤ gas * markup) by nia.
  assert (Hcover : gas * a * markup ≤ 10000 * paid).
  { unfold paid_ratio_bps in Hle. rewrite H1, H2 in Hle.
    set (marked := ceil_quot (gas * quoted * markup) 10000) in *.
    case_decide as Hz.
    - assert (marked = 0) as Hm0 by lia. rewrite Hm0 in Hs.
      assert (gas * markup * (a * 10000) ≤ gas * markup * (quoted * 10000))
        by (apply Z.mul_le_mono_nonneg_l; lia). lia.
    - assert (Hreq : 0 < Z.max marked floor) by lia.
      unfold wrapping in Hle. rewrite Z.mod_small in Hle.
      2:{ unfold fits in Hfit. change (2 ^ 512) with (2 ^ 256 * 2 ^ 256). nia. }
      set (req := Z.max marked floor) in *.
      pose proof (Z.mul_div_le (paid * 10000) req Hreq) as Hd.
      pose proof (Z.div_pos (paid * 10000) req ltac:(lia) Hreq) as Hd0.
      set (x := paid * 10000 / req) in *.
      assert (Hr : Z.min (default (umax 64) (checked 64 x)) 10000 ≤ x).
      { destruct (checked 64 x) as [y|] eqn:E; simpl; [apply checked_Some in E as [-> _]; lia|].
        apply checked_None in E. unfold fits in E. lia. }
      assert (Hr0 : 0 ≤ Z.min (default (umax 64) (checked 64 x)) 10000).
      { destruct (checked 64 x) as [y|] eqn:E; simpl; [apply checked_Some in E as [-> _]; lia|].
        unfold umax. lia. }
      set (ratio := Z.min _ 10000) in *. clearbody ratio x.
      assert (gas * markup * (a * 10000) ≤ gas * markup * (quoted * ratio))
        by (apply Z.mul_le_mono_nonneg_l; lia).
      assert (ratio * (gas * quoted * markup) ≤ ratio * (10000 * req))
        by (apply Z.mul_le_mono_nonneg_l; lia).
      assert (req * ratio ≤ req * x) by (apply Z.mul_le_mono_nonneg_l; lia).
      lia. }
  pose proof (ceil_quot_nonneg (gas * a * markup) 10000 ltac:(lia)
    ltac:(apply Z.mul_nonneg_nonneg; [apply Z.mul_nonneg_nonneg|]; lia)) as Hnn'.
  assert (Hc : ceil_quot (gas * a * markup) 10000 ≤ paid) by (apply ceil_quot_le_iff; lia).
  assert (quoted * Z.min (paid_ratio_bps e) 10000 ≤ quoted * 10000)
    by (apply Z.mul_le_mono_nonneg_l; lia).
  assert (Haq : a ≤ quoted) by lia.
  eexists _, _. split; [|split; [exact Hparse|left; simpl; split; [lia|split; [done|]]]].
  - simpl. rewrite mul_div_ceil_eq; [|eapply fits_le; [exact Hcf|nia]|done|lia].
    apply narrow_u512_Ok. split; [done|]. eapply fits_le; [exact Hfit|]. subst markup. lia.
  - subst markup. lia.
Qed.

Lemma evaluate_all_pay recipient config price floor inputs :
  validate_config config = Ok () →
  enforced_native_minimum (native_decimals config) price = Ok floor →
  Forall (input_pays recipient config price floor) inputs →
  ∃ ops, evaluate_batch recipient config inputs price = Ok ops ∧ all_accepted ops = true.
Proof.
  intros Hv Hf H. enough (∃ ops, Forall2 (λ input e,
    evaluate_input recipient config price floor input = Ok e) inputs ops ∧ all_accepted ops = true)
    as (ops & HF & Ha).
  { exists ops. split; [|done]. apply evaluate_batch_Ok. split; [done|]. by exists floor. }
  clear Hv Hf. induction H as [|input inputs Hi H (ops & HF & Ha)].
  - exists []. by split; [constructor|].
  - apply evaluate_input_pays in Hi as (e & He & Hacc). exists (e :: ops).
    split; [by constructor|]. change (accepted e && all_accepted ops = true). by rewrite Hacc, Ha.
Qed.

(** A good payment is not refused for the quoted headroom.  When every
    operation of a bundle pays the native coin, at least the enforced minimum,
    and the weakest payer falls short at the quoted cap but funds a cap at or
    above the inclusion floor, the verdict is to sign at that cap, with every
    operation accepted. *)
Theorem native_shortfall_is_repriced recipient config call_datas allocations price fees minimum
    costs evaluation affordable floor :
  config_typed config → 0 ≤ quoted_fee_per_gas fees →
  length call_datas = length allocations → Forall (λ gas, 0 ≤ gas) allocations →
  enforced_native_minimum (native_decimals config) price = Ok minimum →
  Forall (λ cd, ∃ paid, pays_native recipient config minimum cd paid) call_datas →
  costs_at allocations (quoted_fee_per_gas fees) = Ok costs →
  evaluate_at recipient config call_datas price costs = Ok evaluation →
  all_accepted evaluation = false →
  affordable_fee_per_gas (quoted_fee_per_gas fees) evaluation = Some affordable →
  inclusion_floor_fee_per_gas (fc_base_fee_per_gas fees) (fc_max_priority_fee_per_gas fees)
    (inclusion_floor_bps fees) = Some floor →
  floor ≤ affordable →
  ∃ repriced, decide_settlement recipient config call_datas allocations price fees
                = Ok (Reprice affordable repriced) ∧ all_accepted repriced = true.
Proof.
  intros Hct Hq Hlen Hg Hmin Hpay Hc He Hacc Ha Hf Hle.
  destruct Hct as (Hnd & Hmk & Hsd).
  pose proof Hc as Hc0. apply costs_at_Ok in Hc0 as [-> Hfit].
  pose proof He as He0. apply evaluate_at_Ok, evaluate_batch_Ok in He0 as (Hv & m & Hm & HF).
  rewrite Hmin in Hm. injection Hm as <-.
  pose proof (affordable_Some _ _ _ Ha) as (weakest & Hw & Haeq & Hwf & Hapos).
  apply list_min_Some in Hw as [Hwin Hwle].
  set (quoted := quoted_fee_per_gas fees) in *.
  assert (Hpos : ∀ i e, evaluation !! i = Some e → ∃ cd gas paid,
    call_datas !! i = Some cd ∧ allocations !! i = Some gas ∧
    pays_native recipient config minimum cd paid ∧ 0 ≤ gas ∧ fits 256 (gas * quoted) ∧
    evaluate_input recipient config price minimum
      {| call_data := cd; gas_native_cost := gas * quoted |} = Ok e).
  { intros i e Hie. destruct (Forall2_lookup_r _ _ _ _ _ HF Hie) as (input & Hin & Hev).
    unfold inputs_at in Hin. rewrite lookup_zip_with in Hin.
    destruct (call_datas !! i) as [cd|] eqn:Ecd; [|done]. simpl in Hin.
    rewrite list_lookup_fmap in Hin.
    destruct (allocations !! i) as [gas|] eqn:Egas; [|done]. injection Hin as <-.
    rewrite Forall_lookup in Hpay. rewrite Forall_lookup in Hg. rewrite Forall_lookup in Hfit. destruct (Hpay i cd Ecd) as [paid Hpaid].
    exists cd, gas, paid. eauto 10. }
  assert (Hratio : ∀ e, e ∈ evaluation → Z.min weakest 10000 ≤ Z.min (paid_ratio_bps e) 10000).
  { intros e Hin. enough (weakest ≤ paid_ratio_bps e) by lia. apply Hwle.
    by apply list_elem_of_fmap_2. }
  assert (Hlt : affordable < quoted).
  { enough (weakest < 10000) as Hlt.
    { rewrite Haeq. apply Z.div_lt_upper_bound; [lia|]. unfold fits in Hwf.
      assert (quoted ≠ 0) by (intros E; rewrite E in Haeq; vm_compute in Haeq; lia).
      rewrite Z.min_l by lia. nia. }
    destruct (existsb (λ e, negb (accepted e)) evaluation) eqn:Ex.
    - apply existsb_exists in Ex as (e & Hin & Hna). apply list_elem_of_In in Hin.
      pose proof (Hwle _ (list_elem_of_fmap_2 paid_ratio_bps _ _ Hin)).
      apply list_elem_of_lookup in Hin as [i Hi].
      destruct (Hpos i e Hi) as (cd & gas & paid & _ & _ & Hp & Hg0 & Hf0 & Hev).
      pose proof (proj2 (native_evaluation_cases _ _ _ _ _ _ _ _ Hp Hev)) as Hr.
      apply negb_true_iff in Hna. specialize (Hr Hna ltac:(nia) Hmk Hf0). lia.
    - exfalso. assert (all_accepted evaluation = true); [|congruence].
      apply all_accepted_lookup. intros i e Hi.
      destruct (accepted e) eqn:Eacc; [done|]. exfalso.
      assert (existsb (λ e, negb (accepted e)) evaluation = true); [|congruence].
      apply existsb_exists. exists e. rewrite Eacc. split; [|done].
      apply list_elem_of_In. by eapply list_elem_of_lookup_2. }
  unfold decide_settlement. fold quoted. rewrite Hc. cbn [mbind result_mbind]. rewrite He.
  cbn [mbind result_mbind]. rewrite Hacc. cbn [orb].
  replace (existsb _ evaluation) with false.
  2:{ symmetry. apply not_true_is_false. intros Ex.
      apply existsb_exists in Ex as (e & Hin & Hbad). apply list_elem_of_In in Hin.
      apply list_elem_of_lookup in Hin as [i Hi].
      destruct (Hpos i e Hi) as (cd & gas & paid & _ & _ & Hp & _ & _ & Hev).
      destruct (native_evaluation_cases _ _ _ _ _ _ _ _ Hp Hev) as [[Ht|Ht] _];
        rewrite Ht in Hbad; [done|]. by rewrite andb_false_r in Hbad. }
  rewrite Ha, Hf, decide_False by lia.
  rewrite (costs_at_lower _ _ affordable _ Hc Hg ltac:(lia)). cbn [mbind result_mbind].
  destruct (evaluate_all_pay recipient config price minimum
    (inputs_at call_datas (map (λ gas, gas * affordable) allocations)) Hv Hmin) as (ops & Hops & Hok).
  - apply Forall_lookup. intros i input Hin. unfold inputs_at in Hin.
    rewrite lookup_zip_with in Hin.
    destruct (call_datas !! i) as [cd|] eqn:Ecd; [|done]. simpl in Hin.
    rewrite list_lookup_fmap in Hin.
    destruct (allocations !! i) as [gas|] eqn:Egas; [|done]. injection Hin as <-.
    assert (∃ e, evaluation !! i = Some e) as [e Hi].
    { apply lookup_lt_is_Some_2. rewrite <-(Forall2_length _ _ _ HF). unfold inputs_at.
      rewrite length_zip_with, length_map. apply lookup_lt_Some in Ecd, Egas. lia. }
    destruct (Hpos i e Hi) as (cd' & gas' & paid & Hcd' & Hgas' & Hp & Hg0 & Hf0 & Hev).
    rewrite Ecd in Hcd'. injection Hcd' as <-. rewrite Egas in Hgas'. injection Hgas' as <-.
    apply (native_affordable recipient config price minimum cd gas quoted paid e affordable);
      [done..|lia|].
    pose proof (Hratio e (list_elem_of_lookup_2 _ _ _ Hi)).
    pose proof (Z.mul_div_le (quoted * Z.min weakest 10000) 10000 ltac:(lia)).
    assert (quoted * Z.min weakest 10000 ≤ quoted * Z.min (paid_ratio_bps e) 10000)
      by (apply Z.mul_le_mono_nonneg_l; lia). lia.
  - rewrite (proj2 (evaluate_at_Ok recipient config call_datas price _ ops) Hops).
    cbn [mbind result_mbind]. rewrite Hok. exists ops. done.
Qed.

Lemma fundable_range reference evaluation f :
  0 ≤ reference → Forall (λ e, 0 ≤ paid_ratio_bps e) evaluation →
  fundable_fee_per_gas reference evaluation = Some f → 0 ≤ f < 2 ^ 128.
Proof.
  intros Hr He H. unfold fundable_fee_per_gas in H. apply bind_Some in H as (w & Hw & [= <-]).
  apply list_min_Some in Hw as [Hw _]. apply list_elem_of_fmap in Hw as (e & -> & Hin).
  rewrite Forall_forall in He. specialize (He e Hin).
  destruct (checked 128 _) as [x|] eqn:E; [|unfold umax; lia].
  apply checked_Some in E as [-> E]. unfold fits in E. split; [apply Z.div_pos; lia|].
  apply Z.div_lt_upper_bound; lia.
Qed.

(** A named speed gives up headroom before priority, and priority before
    inclusion.  No speed named, or none that can be priced, leaves the relay's
    own pace.  Otherwise, with [funded] what the payments fund at the tier's
    own cap: a bundle that funds the floor with the whole tip is signed with
    the whole tip, at its tier's cap or what it funds; one that funds only the
    floor with the least proven tip has its tip shaved to what is left; any
    other gets the least includable pair.  Every pair delivers its whole tip at
    the base fee, and its cap is never above what the payments fund unless
    they do not fund the floor. *)
Theorem submission_fees_fit_the_payment recipient config call_datas allocations price fees tier
    requested headroom :
  let base := fc_base_fee_per_gas fees in
  let tip := outer_max_priority_fee requested in
  let slowest := Z.min (tip_floor (fc_tier_tips fees)) tip in
  let floor := headroom + tip in
  let reference := Z.max (outer_max_fee requested) floor in
  requested_tier fees = Some tier →
  tier_outer_fee tier base (fc_tier_tips fees) = Some requested →
  inclusion_floor_fee_per_gas base 0 (inclusion_floor_bps fees) = Some headroom →
  10000 ≤ inclusion_floor_bps fees → 0 ≤ base → tips_ordered (fc_tier_tips fees) →
  fits 128 (headroom + tip) →
  ∀ costs evaluation funded,
  costs_at allocations reference = Ok costs →
  evaluate_at recipient config call_datas price costs = Ok evaluation →
  fundable_fee_per_gas reference evaluation = Some funded → 0 ≤ funded < 2 ^ 128 →
  ∃ outer,
    decide_submission_fees recipient config call_datas allocations price fees = Ok (Some outer) ∧
    (floor ≤ funded →
       outer = {| outer_max_fee := Z.min reference funded; outer_max_priority_fee := tip |}) ∧
    (headroom + slowest ≤ funded < floor →
       outer = {| outer_max_fee := funded; outer_max_priority_fee := funded - headroom |}) ∧
    (funded < headroom + slowest →
       outer = {| outer_max_fee := headroom + slowest; outer_max_priority_fee := slowest |}) ∧
    delivers_full_tip_at outer base = true ∧
    slowest ≤ outer_max_priority_fee outer ≤ tip.
Proof.
  intros base tip slowest floor reference Htier Hreq Hhead Hbps Hbase Hord Hfit
    costs evaluation funded Hcosts Heval Hfund Hfr.
  pose proof (inclusion_floor_Some _ _ _ _ Hhead) as [Hh _].
  pose proof (tier_outer_fee_Some _ _ _ _ Hreq) as [Htip Hcap].
  pose proof (tips_of_nonneg _ tier Hord) as Htip0. fold tip in Htip.
  assert (Hb : base ≤ headroom).
  { rewrite Hh. rewrite Z.add_0_r. apply Z.div_le_lower_bound; [lia|]. fold base. nia. }
  assert (Hs : 0 ≤ slowest ≤ tip) by (unfold tips_ordered in Hord; unfold slowest; lia).
  assert (Hsat : ∀ x, 0 ≤ x ≤ tip → saturating_add 128 headroom x = headroom + x).
  { intros x Hx. unfold saturating_add, umax. unfold fits in Hfit. lia. }
  assert (Hsatb : ∀ x, 0 ≤ x ≤ tip → saturating_add 128 base x = base + x).
  { intros x Hx. unfold saturating_add, umax. unfold fits in Hfit. lia. }
  unfold decide_submission_fees. rewrite Htier. fold base. rewrite Hreq. fold tip. rewrite Hhead.
  rewrite (Hsat tip) by lia. fold floor. fold reference. rewrite Hcosts. cbn [mbind result_mbind].
  rewrite Heval. cbn [mbind result_mbind]. rewrite Hfund.
  change (default (outer_max_fee requested) (Some funded)) with funded. fold slowest.
  rewrite (Hsat slowest) by lia.
  destruct (decide (floor ≤ funded)) as [H1|H1]; [|destruct (decide (headroom + slowest ≤ funded)) as [H2|H2]];
    cbn [outer_max_fee outer_max_priority_fee].
  - eexists. split; [done|]. rewrite Hsatb by lia.
    rewrite (Z.max_l (Z.min reference funded)) by (unfold reference, floor in *; lia).
    split; [done|]. split; [unfold floor in *; lia|]. split; [unfold floor in *; lia|].
    split; [|cbn; lia]. apply delivers_full_tip; cbn; [|lia]. unfold reference, floor in *. lia.
  - unfold wrapping. rewrite Z.mod_small by lia. rewrite Hsatb by (unfold floor in *; lia).
    rewrite Z.max_l by lia. eexists. split; [done|]. split; [lia|]. split; [done|].
    split; [lia|]. split; [|cbn; unfold floor in *; lia].
    apply delivers_full_tip; cbn; lia.
  - rewrite Hsatb by lia. rewrite Z.max_l by lia. eexists. split; [done|].
    split; [unfold floor in *; lia|]. split; [lia|]. split; [done|]. split; [|cbn; lia].
    apply delivers_full_tip; cbn; lia.
Qed.

(** No line of the tier arithmetic runs for an operation that names no speed. *)
Lemma no_speed_no_tier recipient config call_datas allocations price fees :
  requested_tier fees = None →
  decide_submission_fees recipient config call_datas allocations price fees = Ok None.
Proof. unfold decide_submission_fees. by intros ->. Qed.

End DecisionLemmas.

(** ** Concrete bundles *)

(** 2 × 10^13 wei paid for 200,000 gas: 10^8 wei per gas before the markup. *)
Definition sample_fees (quoted : Z) (tier : option SubmissionTier) : FeeContext :=
  {| quoted_fee_per_gas := quoted; fc_base_fee_per_gas := 50000000;
     fc_max_priority_fee_per_gas := 1000000; inclusion_floor_bps := 12500;
     requested_tier := tier;
     fc_tier_tips := {| tip_slow := 1000000; tip_standard := 2000000; tip_fast := 40000000;
                        tip_floor := 1000000 |} |}.

Definition sample_decision (quoted : Z) : result SettlementDecisionError SettlementDecision :=
  @decide_settlement x86_64 sample_recipient sample_config [native_call] [200000] ether_price
    (sample_fees quoted None).

Lemma sample_decision_reprices :
  ∃ ev, sample_decision 101000000 = Ok (Reprice 90900000 ev) ∧ all_accepted ev = true.
Proof. eexists. split; vm_compute; reflexivity. Qed.

Definition sample_verdict : SettlementDecision :=
  match sample_decision 101000000 with Ok d => d | Err _ => KeepQuote [] end.

Lemma signed_cap_is_paid_for_witness :
  match sample_verdict with
  | Reprice fee ev => all_accepted ev = true ∧ 0 < fee < 101000000
  | _ => False
  end.
Proof.
  destruct (@signed_cap_is_paid_for x86_64 sample_recipient sample_config [native_call] [200000]
    ether_price (sample_fees 101000000 None) sample_verdict) as [H _].
  - apply sample_config_typed.
  - apply ether_price_typed.
  - repeat constructor; lia.
  - vm_compute. reflexivity.
  - assert (Hk : match sample_verdict with Reprice _ _ => true | _ => false end = true)
      by (vm_compute; reflexivity).
    destruct sample_verdict as [| |fee ev]; try discriminate Hk.
    destruct (H fee ev eq_refl) as (? & ? & _). by split.
Defined.

Lemma native_call_pays minimum :
  minimum ≤ 20000000000000 →
  @pays_native x86_64 sample_recipient sample_config minimum native_call 20000000000000.
Proof. intros H. split; [by vm_compute|]. split; [done|]. by split. Qed.

Lemma native_shortfall_is_repriced_witness :
  ∃ repriced, sample_decision 101000000 = Ok (Reprice 90900000 repriced) ∧
    all_accepted repriced = true.
Proof.
  eapply (@native_shortfall_is_repriced x86_64 sample_recipient sample_config [native_call] [200000]
    ether_price (sample_fees 101000000 None) 3600000000000 [20200000000000]).
  - apply sample_config_typed.
  - done.
  - done.
  - repeat constructor; lia.
  - by vm_compute.
  - constructor; [|constructor]. exists 20000000000000. by apply native_call_pays.
  - vm_compute. reflexivity.
  - vm_compute. reflexivity.
  - by vm_compute.
  - by vm_compute.
  - by vm_compute.
  - by vm_compute.
Defined.

(** A [fast] send whose payment funds the floor but not the whole fast tip. *)
Definition sample_tier_evaluation : list SettlementEvaluation :=
  match @evaluate_at x86_64 sample_recipient sample_config [native_call] ether_price
          [25500000000000] with Ok e => e | Err _ => [] end.

Lemma submission_fees_fit_the_payment_witness :
  ∃ outer,
    @decide_submission_fees x86_64 sample_recipient sample_config [native_call] [200000] ether_price
      (sample_fees 101000000 (Some Fast)) = Ok (Some outer) ∧
    outer = {| outer_max_fee := 90907500; outer_max_priority_fee := 28407500 |} ∧
    delivers_full_tip_at outer 50000000 = true.
Proof.
  destruct (fun H1 H2 H3 H4 H5 H6 H7 H8 H9 H10 H11 =>
    @submission_fees_fit_the_payment x86_64 sample_recipient sample_config [native_call]
    [200000] ether_price (sample_fees 101000000 (Some Fast)) Fast
    {| outer_max_fee := 127500000; outer_max_priority_fee := 40000000 |} 62500000
    H1 H2 H3 H4 H5 H6 H7 [25500000000000] sample_tier_evaluation 90907500 H8 H9 H10 H11)
    as (outer & H & _ & Hshave & _ & Hfull & _).
  1-5: by vm_compute.
  - unfold tips_ordered. simpl. lia.
  - by vm_compute.
  - vm_compute. reflexivity.
  - vm_compute. reflexivity.
  - vm_compute. reflexivity.
  - lia.
  - exists outer. split; [exact H|]. split; [|exact Hfull].
    apply Hshave. cbn [outer_max_priority_fee fc_tier_tips sample_fees tip_floor]. lia.
Defined.
