(* ===== verification/Hold.v ===== *)
(** * Hold: what an underpaid operation and a poor relayer wait for
    ([vela-relay-core/src/hold.rs] and [funding.rs]) *)

From S2P Require Export Settlement.
From S2P Require Import Pace.
#[local] Open Scope Z_scope.

(** * Hold: the delayed-inbox retry ladder and the hold budget
    ([vela-relay-core/src/hold.rs]) *)

(** ** Definitions *)

Definition DELAYED_RETRY_BASE_MS : Z := 5000.
Definition DELAYED_RETRY_MAX_MS : Z := 300000.
Definition FUNDING_WAIT_RETRY_MAX_MS : Z := 10000.

(** The [while] loop; [None] is out of fuel. *)
Fixpoint retry_loop (fuel : nat) (delay remaining : Z) : option Z :=
  match fuel with
  | O => None
  | S fuel =>
      if decide (1 < remaining ∧ delay < DELAYED_RETRY_MAX_MS)
      then retry_loop fuel (Z.min (delay * 2) DELAYED_RETRY_MAX_MS) (remaining - 1)
      else Some delay
  end.

(** Six doublings reach the cap from the base: eight rounds are enough for
    every attempt ([retry_loop_total]). *)
Definition LADDER_FUEL : nat := 8.
Definition retry_delay_ms (attempt : Z) : Z :=
  default 0 (retry_loop LADDER_FUEL DELAYED_RETRY_BASE_MS attempt).

Definition redelivery_delay_ms (age_ms : Z) (waiting_on_funding : bool) : Z :=
  let ceiling := if waiting_on_funding then FUNDING_WAIT_RETRY_MAX_MS else DELAYED_RETRY_MAX_MS in
  clamp DELAYED_RETRY_BASE_MS ceiling (age_ms / 2).

(** The [for attempt in 1..] loop; [None] is out of fuel. *)
Fixpoint schedule_loop (fuel : nat) (attempt : Z) (schedule : list Z) : option (list Z) :=
  match fuel with
  | O => None
  | S fuel =>
      let delay := retry_delay_ms attempt in
      let schedule := schedule ++ [delay] in
      if decide (DELAYED_RETRY_MAX_MS ≤ delay) then Some schedule
      else schedule_loop fuel (attempt + 1) schedule
  end.
Definition retry_delay_schedule_ms : list Z := default [] (schedule_loop LADDER_FUEL 1 []).

Inductive HoldDecision : Type :=
  | Hold (reason : string)
  | RejectBudgetExhausted.

Definition decide_hold (attempt max_attempts paid required : Z) : HoldDecision :=
  if decide (max_attempts < attempt) then RejectBudgetExhausted
  else Hold (settlement_hold_reason paid required attempt max_attempts).

(** ** Lemmas *)

Lemma retry_loop_step fuel delay remaining :
  retry_loop (S fuel) delay remaining =
  if decide (1 < remaining ∧ delay < DELAYED_RETRY_MAX_MS)
  then retry_loop fuel (Z.min (delay * 2) DELAYED_RETRY_MAX_MS) (remaining - 1) else Some delay.
Proof. done. Qed.

(** One loop from any delay on the ladder, with the fuel its distance from
    the cap asks for. *)
Lemma retry_loop_value fuel delay remaining :
  0 < delay ≤ DELAYED_RETRY_MAX_MS → DELAYED_RETRY_MAX_MS ≤ delay * 2 ^ Z.of_nat fuel →
  retry_loop (S fuel) delay remaining =
  Some (Z.min (delay * 2 ^ Z.max 0 (remaining - 1)) DELAYED_RETRY_MAX_MS).
Proof.
  revert delay remaining. induction fuel as [|fuel IH]; intros delay remaining Hd Hf;
    rewrite retry_loop_step; case_decide as Hc.
  - cbn in Hf. lia.
  - f_equal. destruct (decide (1 < remaining)).
    + assert (delay = DELAYED_RETRY_MAX_MS) as -> by lia.
      pose proof (Z.pow_pos_nonneg 2 (Z.max 0 (remaining - 1)) ltac:(lia) ltac:(lia)). nia.
    + rewrite Z.max_l by lia. rewrite Z.pow_0_r. lia.
  - rewrite Nat2Z.inj_succ, Z.pow_succ_r in Hf by lia.
    pose proof (Z.pow_pos_nonneg 2 (Z.of_nat fuel) ltac:(lia) ltac:(lia)).
    rewrite IH; [|lia|destruct (Z.min_spec (delay * 2) DELAYED_RETRY_MAX_MS) as [[_ ->]|[_ ->]]; nia].
    f_equal. rewrite !(Z.max_r 0) by lia.
    replace (remaining - 1) with (Z.succ (remaining - 1 - 1)) at 2 by lia.
    rewrite Z.pow_succ_r by lia.
    pose proof (Z.pow_pos_nonneg 2 (remaining - 1 - 1) ltac:(lia) ltac:(lia)).
    destruct (Z.min_spec (delay * 2) DELAYED_RETRY_MAX_MS) as [[_ ->]|[? ->]]; [f_equal; lia|nia].
  - f_equal. destruct (decide (1 < remaining)).
    + assert (delay = DELAYED_RETRY_MAX_MS) as -> by lia.
      pose proof (Z.pow_pos_nonneg 2 (Z.max 0 (remaining - 1)) ltac:(lia) ltac:(lia)). nia.
    + rewrite Z.max_l by lia. rewrite Z.pow_0_r. lia.
Qed.

Lemma retry_loop_total attempt : is_Some (retry_loop LADDER_FUEL DELAYED_RETRY_BASE_MS attempt).
Proof. unfold LADDER_FUEL. rewrite retry_loop_value; [by eexists|unfold DELAYED_RETRY_BASE_MS, DELAYED_RETRY_MAX_MS; lia|by vm_compute]. Qed.

Lemma retry_delay_value attempt :
  retry_delay_ms attempt =
  Z.min (DELAYED_RETRY_BASE_MS * 2 ^ Z.max 0 (attempt - 1)) DELAYED_RETRY_MAX_MS.
Proof. unfold retry_delay_ms, LADDER_FUEL. rewrite retry_loop_value; [done|unfold DELAYED_RETRY_BASE_MS, DELAYED_RETRY_MAX_MS; lia|by vm_compute]. Qed.

(** C38: The retry ladder.  The loop ends for every attempt and its delay is
    five seconds doubled per attempt up to five minutes; the schedule loop
    ends too, and the table it hands to the store, read at the attempt with
    its last entry repeated for ever, is that same function.  A hold is
    refused exactly when the attempt exceeds the budget. *)
Theorem retry_ladder attempt :
  is_Some (retry_loop LADDER_FUEL DELAYED_RETRY_BASE_MS attempt) ∧
  is_Some (schedule_loop LADDER_FUEL 1 []) ∧
  retry_delay_ms attempt =
    Z.min (DELAYED_RETRY_BASE_MS * 2 ^ Z.max 0 (attempt - 1)) DELAYED_RETRY_MAX_MS ∧
  (1 ≤ attempt →
   retry_delay_schedule_ms !!
     Nat.min (Z.to_nat (attempt - 1)) (length retry_delay_schedule_ms - 1)
   = Some (retry_delay_ms attempt)) ∧
  ∀ max_attempts paid required,
    decide_hold attempt max_attempts paid required = RejectBudgetExhausted ↔ max_attempts < attempt.
Proof.
  split; [apply retry_loop_total|]. split; [eexists; vm_compute; reflexivity|]. split; [apply retry_delay_value|].
  split.
  - intros Ha.
    assert (retry_delay_schedule_ms = [5000; 10000; 20000; 40000; 80000; 160000; 300000]) as ->
      by by vm_compute.
    rewrite retry_delay_value. rewrite Z.max_r by lia.
    destruct (decide (7 ≤ attempt)) as [Hge|Hlt].
    + rewrite Nat.min_r by (simpl; lia). simpl. f_equal. rewrite Z.min_r; [done|].
      pose proof (Z.pow_le_mono_r 2 6 (attempt - 1) ltac:(lia) ltac:(lia)).
      change (2 ^ 6) with 64 in *. unfold DELAYED_RETRY_BASE_MS, DELAYED_RETRY_MAX_MS. lia.
    + assert (attempt = 1 ∨ attempt = 2 ∨ attempt = 3 ∨ attempt = 4 ∨ attempt = 5 ∨ attempt = 6)
        as Hc by lia. by repeat destruct Hc as [->|Hc]; subst; vm_compute.
  - intros max_attempts paid required. unfold decide_hold. case_decide; naive_solver.
Qed.

Lemma retry_ladder_witness :
  retry_delay_schedule_ms !! Nat.min (Z.to_nat (4 - 1)) (length retry_delay_schedule_ms - 1)
   = Some (retry_delay_ms 4).
Proof. apply (retry_ladder 4). lia. Defined.

(** The age of a message after [n] redeliveries. *)
Fixpoint age_after (n : nat) (waiting_on_funding : bool) : Z :=
  match n with
  | O => 0
  | S n => let age := age_after n waiting_on_funding in
           age + redelivery_delay_ms age waiting_on_funding
  end.

Lemma redelivery_delay_bounds age waiting :
  DELAYED_RETRY_BASE_MS ≤ redelivery_delay_ms age waiting
    ≤ (if waiting then FUNDING_WAIT_RETRY_MAX_MS else DELAYED_RETRY_MAX_MS).
Proof.
  unfold redelivery_delay_ms, clamp, DELAYED_RETRY_BASE_MS, FUNDING_WAIT_RETRY_MAX_MS,
    DELAYED_RETRY_MAX_MS. destruct waiting; lia.
Qed.

(** The queue's hundred retries span between seven and eight hours. *)
Lemma hundred_retries : 7 * 3600000 ≤ age_after 100 false ≤ 8 * 3600000.
Proof. vm_compute. split; discriminate. Qed.

(** * Funding: relayer float and treasury top-ups
    ([vela-relay-core/src/funding.rs]) *)

(** ** Definitions *)

Definition TOP_UP_GAS_LIMIT : Z := 21000.
Definition TOP_UP_GAS_BUFFER_BPS : Z := 12000.
Definition NATIVE_TOP_UP_USD_CAP : Z := 20.

Inductive FundingPlanError : Type :=
  | TargetOverflow | AmountUnderflow | DeficitUnderflow
  | DeficitExceedsCap (deficit cap : Z)
  | GasCostOverflow | ReserveOverflow.

(** [Display for FundingPlanError] *)
Definition funding_plan_error_text (error : FundingPlanError) : string :=
  match error with
  | TargetOverflow => "relayer float target overflow"
  | AmountUnderflow => "relayer funding amount underflow"
  | DeficitUnderflow => "relayer funding deficit underflow"
  | DeficitExceedsCap deficit cap =>
      "current UserOperation prefund exceeds the per-transfer cap: deficit=" +:+ dec deficit +:+
      ", cap=" +:+ dec cap
  | GasCostOverflow => "top-up gas cost overflow"
  | ReserveOverflow => "treasury reserve requirement overflow"
  end%string.

Record NativeTopUpRequest : Type := { amount_capped : Z; deficit : Z }.

Definition plan_native_top_up (relayer_balance required_prefund float_cost_multiplier
    float_target_wei float_min_wei top_up_cap : Z) : result FundingPlanError NativeTopUpRequest :=
  target_from_cost ← ok_or (checked 256 (required_prefund * float_cost_multiplier)) TargetOverflow;
  let target := Z.max (Z.max target_from_cost float_target_wei) float_min_wei in
  desired_amount ← ok_or (checked 256 (target - relayer_balance)) AmountUnderflow;
  deficit ← ok_or (checked 256 (required_prefund - relayer_balance)) DeficitUnderflow;
  if decide (top_up_cap < deficit) then Err (DeficitExceedsCap deficit top_up_cap)
  else Ok {| amount_capped := Z.min desired_amount top_up_cap; deficit := deficit |}.

Definition native_top_up_gas_limit (raw_estimate : option Z) : Z :=
  match raw_estimate with
  | None => TOP_UP_GAS_LIMIT
  | Some gas => Z.max (saturating_mul 64 gas TOP_UP_GAS_BUFFER_BPS / 10000) TOP_UP_GAS_LIMIT
  end.

Definition native_top_up_reserve (gas_limit max_fee_per_gas treasury_floor_wei : Z) :
    result FundingPlanError Z :=
  cost ← ok_or (checked 256 (gas_limit * max_fee_per_gas)) GasCostOverflow;
  ok_or (checked 256 (cost + treasury_floor_wei)) ReserveOverflow.

Definition treasury_affordable_top_up
    (capped_amount deficit treasury_balance protected_treasury : Z) : option Z :=
  let amount := Z.min capped_amount (saturating_sub treasury_balance protected_treasury) in
  if decide (deficit ≤ amount) then Some amount else None.

Definition native_amount_for_usd_cap (native_decimals native_usd_price usd_cap : Z) : option Z :=
  if decide (native_usd_price = 0 ∨ 38 < native_decimals) then None
  else
    native_scale ← pow10_loop 256 (Z.to_nat native_decimals) 1;
    usd ← checked 256 (usd_cap * USD_PRICE_SCALE);
    numerator ← checked 256 (usd * native_scale);
    checked 256 (ceil_quot numerator native_usd_price).

Definition plan_tempo_top_up (relayer_balance required_prefund : Z) :
    result FundingPlanError (option Z) :=
  let target := Z.max required_prefund TEMPO_FLOAT_TARGET in
  amount ← ok_or (checked 256 (target - relayer_balance)) AmountUnderflow;
  Ok (if decide (amount = 0) then None else Some amount).

(** ** Claims *)

Lemma gas_limit_floor raw_estimate : TOP_UP_GAS_LIMIT ≤ native_top_up_gas_limit raw_estimate.
Proof. unfold native_top_up_gas_limit. destruct raw_estimate; lia. Qed.

(** A top-up funds its bundle without draining the treasury.  Whatever is
    planned for a relayer short of a bundle's prefund and found affordable
    covers the missing part, never exceeds the per-transfer cap, and leaves
    the treasury its own transfer gas and its floor; the plan is refused for
    its size exactly when the missing part alone exceeds the cap, and found
    unaffordable exactly when the treasury cannot spare the missing part. *)
Theorem top_up_funds_and_protects balance prefund multiplier target min cap gas fee floor
    treasury request reserve :
  0 ≤ balance < prefund → 1 ≤ multiplier → 0 ≤ cap → 0 ≤ gas → 0 ≤ fee → 0 ≤ floor →
  plan_native_top_up balance prefund multiplier target min cap = Ok request →
  native_top_up_reserve gas fee floor = Ok reserve →
  0 < deficit request ≤ cap ∧ balance + deficit request = prefund ∧
  (∀ amount,
     treasury_affordable_top_up (amount_capped request) (deficit request) treasury reserve
       = Some amount →
     prefund ≤ balance + amount ∧ amount ≤ cap ∧ gas * fee + floor ≤ treasury - amount) ∧
  (treasury_affordable_top_up (amount_capped request) (deficit request) treasury reserve = None ↔
   treasury - (gas * fee + floor) < deficit request).
Proof.
  unfold plan_native_top_up, native_top_up_reserve, treasury_affordable_top_up, saturating_sub.
  intros Hb Hm Hcap Hg Hf Hfl Hplan Hres. inv_checked. case_decide; [done|].
  inv_checked. cbn [deficit amount_capped].
  assert (prefund ≤ prefund * multiplier) by nia.
  split; [lia|]. split; [lia|]. split.
  - intros amount Ha. case_decide; [|done]. injection Ha as <-. lia.
  - case_decide; split; try done; lia.
Qed.

Lemma top_up_funds_and_protects_witness :
  ∃ amount, treasury_affordable_top_up 5000 700 9000 3100 = Some amount ∧
    1000 ≤ 300 + amount ∧ amount ≤ 5000 ∧ 21000 * 0 + 3100 ≤ 9000 - amount.
Proof.
  destruct (top_up_funds_and_protects 300 1000 8 0 0 5000 21000 0 3100 9000
    {| amount_capped := 5000; deficit := 700 |} 3100) as (_ & _ & H & _); try lia;
    [by vm_compute..|].
  exists 5000. split; [by vm_compute|]. apply H. by vm_compute.
Defined.

Lemma usd_cap_rounds_toward_the_relayer decimals price cap amount :
  0 ≤ decimals → 0 ≤ price → 0 ≤ cap →
  native_amount_for_usd_cap decimals price cap = Some amount →
  amount = ceil_quot (cap * USD_PRICE_SCALE * 10 ^ decimals) price ∧ decimals ≤ 38.
Proof.
  unfold native_amount_for_usd_cap. intros Hd Hp Hc H. case_decide as Hg; [done|].
  inv_checked. rename select (pow10_loop _ _ _ = _) into Hs.
  rewrite pow10_loop_eq in Hs by done. inv_checked. rewrite Z.mul_1_l, Z2Nat.id by done.
  split; [done|lia].
Qed.

Lemma tempo_plan balance prefund r :
  plan_tempo_top_up balance prefund = Ok r → 
  balance + default 0 r = Z.max prefund TEMPO_FLOAT_TARGET.
Proof. unfold plan_tempo_top_up. intros H. inv_checked. case_decide; simpl; lia. Qed.
