(* ===== verification/RpcWalk.v ===== *)
(** * RpcWalk: which endpoints a walk may skip
    ([vela-relay-core/src/rpc_walk.rs])

    Both memories are a map from (chain, endpoint) or (chain, method) to the
    time they last until; the shell supplies the clock. *)

From S2P Require Export Json.
From stdpp Require Export gmap strings.
#[local] Open Scope string_scope.
#[local] Open Scope Z_scope.

(** ** Definitions *)

Definition ENDPOINT_COOLDOWN_MS : Z := 3 * 60 * 1000.
Definition MISSING_METHOD_MEMORY_MS : Z := 10 * 60 * 1000.

Abbreviation Memory := (gmap (Z * string) Z).

(** [HashMap::retain(|_, until| *until > now_ms)] *)
Definition retain_after (now_ms : Z) (m : Memory) : Memory := filter (λ kv, now_ms < kv.2) m.

Record EndpointCooldowns : Type := { cooldown_until_ms : Memory }.

Definition cool (c : EndpointCooldowns) (chain_id : Z) (url : string) (now_ms : Z) : EndpointCooldowns :=
  {| cooldown_until_ms :=
       <[(chain_id, url) := saturating_add 64 now_ms ENDPOINT_COOLDOWN_MS]>
         (retain_after now_ms (cooldown_until_ms c)) |}.

Definition clear (c : EndpointCooldowns) (chain_id : Z) (url : string) : EndpointCooldowns :=
  {| cooldown_until_ms := delete (chain_id, url) (cooldown_until_ms c) |}.

Definition is_cooling (c : EndpointCooldowns) (chain_id : Z) (url : string) (now_ms : Z) : bool :=
  match cooldown_until_ms c !! (chain_id, url) with
  | Some until => bool_decide (now_ms < until)
  | None => false
  end.

Definition walkable (c : EndpointCooldowns) (chain_id : Z) (urls : list string) (now_ms : Z) :
    list string :=
  let warm := List.filter (λ url, negb (is_cooling c chain_id url now_ms)) urls in
  match warm with [] => urls | _ => warm end.

Definition batch_replies (body : Value) (calls_sent : Z) : option (list Value) :=
  match body with
  | VArray replies => Some replies
  | VObject _ => if decide (calls_sent = 1) then Some [body] else None
  | _ => None
  end.

Inductive MethodAnswer : Type := Served | Unsupported | Refused.

#[export] Instance MethodAnswer_eq_dec : EqDecision MethodAnswer.
Proof. solve_decision. Defined.

Definition method_error_answer (code : option Z) (message : string) : MethodAnswer :=
  if bool_decide (code = Some (-32601)) || bool_decide (code = Some (-32004)) then Unsupported
  else
    let message := to_ascii_lowercase message in
    let names_the_method := contains "method" message in
    let says_absent :=
      existsb (λ phrase, contains phrase message)
        ["not found"; "does not exist"; "not supported"; "unsupported"; "not available";
         "not allowed"; "invalid method"] in
    if names_the_method && says_absent then Unsupported else Refused.

Definition walk_proves_method_missing (answers : list MethodAnswer) : bool :=
  bool_decide (Unsupported ∈ answers) &&
  forallb (λ answer, bool_decide (answer = Unsupported)) answers.

Record MissingMethods : Type := { missing_until_ms : Memory }.

Definition note_walk (m : MissingMethods) (chain_id : Z) (method : string)
    (answers : list MethodAnswer) (now_ms : Z) : MissingMethods :=
  if walk_proves_method_missing answers then
    {| missing_until_ms :=
         <[(chain_id, method) := saturating_add 64 now_ms MISSING_METHOD_MEMORY_MS]>
           (retain_after now_ms (missing_until_ms m)) |}
  else if bool_decide (Served ∈ answers) then
    {| missing_until_ms := delete (chain_id, method) (missing_until_ms m) |}
  else m.

Definition lacks (m : MissingMethods) (chain_id : Z) (method : string) (now_ms : Z) : bool :=
  match missing_until_ms m !! (chain_id, method) with
  | Some until => bool_decide (now_ms < until)
  | None => false
  end.

(** ** A memory over time *)

(** What happens to a memory: a key is marked at a time, or forgotten. *)
Inductive Event : Type :=
  | Mark (key : Z * string) (at_ms : Z)
  | Forget (key : Z * string) (at_ms : Z).

Definition event_key (e : Event) : Z * string := match e with Mark k _ | Forget k _ => k end.
Definition event_time (e : Event) : Z := match e with Mark _ t | Forget _ t => t end.

Definition apply_event (span : Z) (m : Memory) (e : Event) : Memory :=
  match e with
  | Mark k t => <[k := saturating_add 64 t span]> (retain_after t m)
  | Forget k _ => delete k m
  end.

(** Whether the key's entry outlives [now]. *)
Definition live (m : Memory) (key : Z * string) (now : Z) : bool :=
  match m !! key with Some until => bool_decide (now < until) | None => false end.

(** The last event about a key. *)
Definition last_about (key : Z * string) (events : list Event) : option Event :=
  last (filter (λ e, event_key e = key) events).

Lemma live_retain m key t now : t ≤ now → live (retain_after t m) key now = live m key now.
Proof.
  intros Ht. unfold live, retain_after.
  destruct (filter _ m !! key) as [u|] eqn:E.
  - apply map_lookup_filter_Some in E as [-> _]. done.
  - apply map_lookup_filter_None in E as [->|E]; [done|].
    destruct (m !! key) as [u|] eqn:Eu; [|done].
    specialize (E u eq_refl). simpl in E. symmetry. apply bool_decide_eq_false. lia.
Qed.

Lemma live_event span m e key now :
  event_time e ≤ now →
  live (apply_event span m e) key now =
  if decide (event_key e = key)
  then match e with
       | Mark _ t => bool_decide (now < saturating_add 64 t span)
       | Forget _ _ => false
       end
  else live m key now.
Proof.
  intros Ht. destruct e as [k t|k t]; simpl in *.
  - case_decide as Hk; subst; unfold live at 1.
    + by rewrite lookup_insert_eq.
    + rewrite lookup_insert_ne by done. by apply live_retain.
  - case_decide as Hk; subst; unfold live at 1.
    + by rewrite lookup_delete_eq.
    + by rewrite lookup_delete_ne by done.
Qed.

Lemma live_history span events key now :
  Forall (λ e, event_time e ≤ now) events →
  live (foldl (apply_event span) ∅ events) key now =
  match last_about key events with
  | Some (Mark _ t) => bool_decide (now < saturating_add 64 t span)
  | _ => false
  end.
Proof.
  induction events as [|e events IH] using rev_ind; intros Ht.
  - unfold live. simpl. by rewrite lookup_empty.
  - apply Forall_app in Ht as [Ht He]. inversion He as [|? ? He1 _]; subst.
    rewrite foldl_app. cbn [foldl]. rewrite live_event by exact He1.
    unfold last_about in *. rewrite filter_app, filter_cons, filter_nil. case_decide.
    + rewrite last_snoc. by destruct e.
    + rewrite app_nil_r. by apply IH.
Qed.

(** ** Claims *)

(** The cooldown and the missing-method memories as event histories. *)
Definition cooldowns_after (events : list Event) : EndpointCooldowns :=
  foldl (λ c e, match e with
                | Mark (chain, url) t => cool c chain url t
                | Forget (chain, url) _ => clear c chain url
                end) {| cooldown_until_ms := ∅ |} events.

Lemma cooldowns_after_memory events :
  cooldown_until_ms (cooldowns_after events) = foldl (apply_event ENDPOINT_COOLDOWN_MS) ∅ events.
Proof.
  unfold cooldowns_after. change ∅ with (cooldown_until_ms {| cooldown_until_ms := ∅ |}) at 2.
  generalize {| cooldown_until_ms := ∅ |}. induction events as [|e events IH]; intros c; [done|].
  cbn [foldl]. rewrite IH. f_equal. by destruct e as [[? ?] ?|[? ?] ?].
Qed.

(** An endpoint is left out of a walk exactly while its last report was a
    failure less than three minutes ago, whatever was reported about the
    others; a walk asks the remaining endpoints in their order, every endpoint
    it skips is cooling, and it never has nothing to ask while there is an
    endpoint. *)
Theorem walks_skip_only_cooling events chain_id now_ms urls :
  Forall (λ e, event_time e ≤ now_ms) events →
  let c := cooldowns_after events in
  (∀ url, is_cooling c chain_id url now_ms = true ↔
     ∃ t, last_about (chain_id, url) events = Some (Mark (chain_id, url) t) ∧
          now_ms < saturating_add 64 t ENDPOINT_COOLDOWN_MS) ∧
  walkable c chain_id urls now_ms `sublist_of` urls ∧
  (∀ url, url ∈ urls → url ∉ walkable c chain_id urls now_ms →
     is_cooling c chain_id url now_ms = true) ∧
  (walkable c chain_id urls now_ms = [] → urls = []).
Proof.
  intros Ht c. split; [|split; [|split]].
  - intros url. change (is_cooling c chain_id url now_ms) with
      (live (cooldown_until_ms c) (chain_id, url) now_ms).
    unfold c. rewrite cooldowns_after_memory, live_history by done.
    destruct (last_about _ _) as [[k t|k t]|] eqn:E; [|naive_solver..].
    rewrite bool_decide_eq_true. split; [|naive_solver].
    intros H. exists t. split; [|done]. f_equal. f_equal.
    unfold last_about in E. apply last_Some_elem_of, list_elem_of_filter in E as [E _]. exact E.
  - unfold walkable. case_match; [done|]. rewrite <-H. clear H.
    induction urls as [|u urls IH]; simpl; [constructor|].
    destruct (negb (is_cooling _ _ _ _)); [by apply sublist_skip|by apply sublist_cons].
  - intros url Hin Hout. unfold walkable in Hout. case_match; [done|]. rewrite <-H in Hout.
    destruct (is_cooling c chain_id url now_ms) eqn:E; [done|]. destruct Hout.
    apply list_elem_of_In, List.filter_In. split; [by apply list_elem_of_In|]. by rewrite E.
  - unfold walkable. by case_match.
Qed.

Definition sample_events : list Event :=
  [Mark (43114, "https://a") 1000; Mark (43114, "https://b") 2000; Forget (43114, "https://a") 3000].

Lemma walks_skip_only_cooling_witness :
  walkable (cooldowns_after sample_events) 43114 ["https://a"; "https://b"] 4000 `sublist_of`
    ["https://a"; "https://b"].
Proof. apply walks_skip_only_cooling. repeat constructor; simpl; lia. Defined.

(** A method is believed missing only after a walk in which an endpoint said
    so and no endpoint said otherwise. *)
Lemma missing_needs_proof answers :
  walk_proves_method_missing answers = true ↔
  answers ≠ [] ∧ ∀ a, a ∈ answers → a = Unsupported.
Proof.
  unfold walk_proves_method_missing. rewrite andb_true_iff, bool_decide_eq_true, forallb_forall.
  setoid_rewrite bool_decide_eq_true. setoid_rewrite <-list_elem_of_In.
  split; [intros [H1 H2]; split; [intros ->; set_solver|done]|].
  intros [Hne H]. split; [|done]. destruct answers as [|a l]; [done|].
  rewrite <-(H a) at 1; set_solver.
Qed.
