(* ===== verification/Broadcast.v ===== *)
(** * Broadcast: what a node says of a transaction
    ([vela-relay-core/src/broadcast.rs] and [receipt.rs]) *)

From S2P Require Export Json Abi.
#[local] Open Scope string_scope.
#[local] Open Scope Z_scope.

(** * Broadcast: signed bytes before a broadcast, and what its answers mean
    ([vela-relay-core/src/broadcast.rs]) *)

(** [alloy]'s 32-byte hash: [B256::from_str] and its [Display]. *)
Class HashText `{Hex} := {
  b256_from_str : string → option (list byte);
  b256_to_string : list byte → string;
  b256_from_str_length s bs : b256_from_str s = Some bs → length bs = 32%nat;
  b256_from_str_hex bs : length bs = 32%nat → b256_from_str ("0x" +:+ hex_encode bs) = Some bs;
  b256_to_string_hex bs : length bs = 32%nat → b256_to_string bs = "0x" +:+ hex_encode bs;
}.

(** A reference instance. *)
Definition ref_hash_text : @HashText ref_hex.
Proof.
  refine (@Build_HashText ref_hex
    (λ s, h ← str_strip_prefix "0x" s; bs ← ref_hex_decode h;
          if decide (length bs = 32%nat) then Some bs else None)
    (λ bs, "0x" +:+ ref_hex_encode bs) _ _ _).
  - intros s bs H. inv_checked. case_decide; [|done]. by inv_checked.
  - intros bs Hl. rewrite str_strip_prefix_app. simpl.
    pose proof (@hex_decode_encode ref_hex bs) as E. simpl in E. rewrite E. simpl.
    by rewrite decide_True.
  - done.
Defined.

(** ** Diagnostics *)

Definition nonce_too_low (reason : string) : bool :=
  contains "nonce too low" (to_ascii_lowercase reason).

Definition is_executor_revert (code : option Z) (message : string) : bool :=
  let message := to_ascii_lowercase message in
  bool_decide (code = Some 3) || contains "execution reverted" message || contains "failedop" message.

Definition is_broadcast_already_known (message : string) : bool :=
  let message := to_ascii_lowercase message in
  contains "already known" message || contains "known transaction" message ||
  contains "already imported" message.

Definition is_broadcast_nonce_ambiguous (message : string) : bool :=
  let message := to_ascii_lowercase message in
  contains "nonce too low" message || contains "replacement transaction underpriced" message.

Definition zero_quantity (value : string) : bool :=
  match str_strip_prefix "0x" value with
  | Some digits => all_chars (λ a, bool_decide (a = "0"%char)) digits
  | None => false
  end.

Definition holds_transaction (answer : Value) (expected_hash : string) : bool :=
  match as_object answer with
  | None => false
  | Some transaction =>
      let text := λ key, v ← obj_get key transaction; as_str v in
      let is_some_and := λ (o : option string) p, match o with Some s => p s | None => false end in
      let hash_matches := is_some_and (text "hash") (λ hash, eq_ignore_ascii_case hash expected_hash) in
      let fabricated_block :=
        is_some_and (text "blockHash") zero_quantity || is_some_and (text "blockNumber") zero_quantity in
      hash_matches && negb fabricated_block
  end.

Definition is_definitive_broadcast_rejection (message : string) : bool :=
  let message := to_ascii_lowercase message in
  contains "insufficient funds" message || contains "intrinsic gas" message ||
  contains "fee cap" message || contains "max fee per gas" message ||
  contains "transaction type not supported" message.

(** The [while !is_char_boundary(end)] loop; index 0 is a boundary. *)
Fixpoint boundary_at_most (value : string) (stop : nat) : nat :=
  match stop with
  | O => O
  | S n => if is_char_boundary value stop then stop else boundary_at_most value n
  end.

(** The ellipsis is the three bytes of U+2026. *)
Definition ellipsis : string := of_codes [0xe2; 0x80; 0xa6]%N.

Definition truncate_rpc_diagnostic (value : string) (maximum : nat) : string :=
  if decide (String.length value ≤ maximum)%nat then value
  else str_take (boundary_at_most value maximum) value +:+ ellipsis.

Definition upstream_error_diagnostic (code : option Z) (message : option string) : string :=
  let code := match code with
              | Some code => pretty code
              | None => "unknown"
              end in
  let message := default "upstream error" message in
  "RPC code " +:+ code +:+ ": " +:+ truncate_rpc_diagnostic message 256.

Fixpoint str_join (sep : string) (l : list string) : string :=
  match l with
  | [] => EmptyString
  | [s] => s
  | s :: l => s +:+ sep +:+ str_join sep l
  end.

(** The loop that keeps the first of equal diagnostics. *)
Definition unique_in_order (diagnostics : list string) : list string :=
  foldl (λ unique d, if decide (d ∈ unique) then unique else unique ++ [d])%list [] diagnostics.

Definition join_broadcast_diagnostics (diagnostics : list string) : string :=
  truncate_rpc_diagnostic (str_join "; " (unique_in_order diagnostics)) 512.

Definition revert_data (value : option Value) : option string :=
  match value with
  | Some (VString value) => Some value
  | Some (VObject object) =>
      let text := λ key, v ← obj_get key object; as_str v in
      match text "data", text "result", text "returnData" with
      | Some s, _, _ => Some s
      | None, Some s, _ => Some s
      | None, None, r => r
      end
  | _ => None
  end.

(** ** Raw transactions *)

Inductive RawTransactionError : Type := InvalidBytes | UnsupportedType | InvalidHash | HashMismatch.

(** [Display for RawTransactionError] *)
Definition raw_transaction_error_text (error : RawTransactionError) : string :=
  match error with
  | InvalidBytes => "prepared raw transaction is invalid"
  | UnsupportedType => "prepared transaction is not a supported type 0x02 or Tempo type 0x76"
  | InvalidHash => "prepared transaction hash is invalid"
  | HashMismatch => "prepared transaction hash does not match raw bytes"
  end.

#[export] Instance RawTransactionError_eq_dec : EqDecision RawTransactionError.
Proof. solve_decision. Defined.

Inductive UnprovenBroadcast : Type := Confirmed | CheckStaleNonce | RetainOutbox.

Definition resolve_unproven_broadcast (reason : string) (transaction_known : bool) : UnprovenBroadcast :=
  if transaction_known then Confirmed
  else if nonce_too_low reason then CheckStaleNonce
  else RetainOutbox.

Section Raw.
Context `{HT : HashText} `{K : Keccak}.

Definition parse_hex_bytes (value : string) : option (list byte) :=
  digits ← str_strip_prefix "0x" value;
  if negb (Nat.even (String.length digits)) then None else hex_decode digits.

Definition validate_raw_transaction (raw_transaction transaction_hash : string) :
    result RawTransactionError (list byte) :=
  raw ← ok_or (raw ← parse_hex_bytes raw_transaction;
               if decide (raw = []) then None else Some raw) InvalidBytes;
  if negb (bool_decide (head raw = Some x02) || bool_decide (head raw = Some x76))
  then Err UnsupportedType
  else
    expected ← ok_or (b256_from_str transaction_hash) InvalidHash;
    if decide (keccak256 raw = expected) then Ok raw else Err HashMismatch.

(** ** Claims *)

Lemma parse_hex_bytes_encode bs : parse_hex_bytes ("0x" +:+ hex_encode bs) = Some bs.
Proof.
  unfold parse_hex_bytes. rewrite str_strip_prefix_app. simpl.
  rewrite hex_encode_length, Nat.even_mul. simpl. apply hex_decode_encode.
Qed.

(** What may be broadcast is what was recorded.  Bytes pass the check
    exactly when they are the non-empty hex text of a type 0x02 or Tempo 0x76
    transaction whose Keccak hash is the recorded one, so two intents that
    record the same hash can only broadcast bytes of that hash; and every
    transaction of a supported type passes under its own hash. *)
Theorem broadcast_bytes_match_hash raw_transaction transaction_hash raw :
  (validate_raw_transaction raw_transaction transaction_hash = Ok raw ↔
     parse_hex_bytes raw_transaction = Some raw ∧ raw ≠ [] ∧
     (head raw = Some x02 ∨ head raw = Some x76) ∧
     b256_from_str transaction_hash = Some (keccak256 raw)) ∧
  (head raw = Some x02 ∨ head raw = Some x76 →
   validate_raw_transaction ("0x" +:+ hex_encode raw) ("0x" +:+ hex_encode (keccak256 raw)) = Ok raw).
Proof.
  assert (Hiff : ∀ rt th r, validate_raw_transaction rt th = Ok r ↔
     parse_hex_bytes rt = Some r ∧ r ≠ [] ∧ (head r = Some x02 ∨ head r = Some x76) ∧
     b256_from_str th = Some (keccak256 r)).
  { intros rt th r. unfold validate_raw_transaction. split.
    - intros Hval. inv_checked. case_decide as Hne; [done|]. inv_checked.
      destruct (bool_decide _ || _) eqn:Et; cbn [negb] in *; [|done]. inv_checked.
      case_decide as Hk; [|done]. inv_checked.
      rewrite orb_true_iff, !bool_decide_eq_true in Et. naive_solver.
    - intros (-> & Hne & Ht & ->). simpl. rewrite decide_False by done. simpl.
      assert (bool_decide (head r = Some x02) || bool_decide (head r = Some x76) = true) as ->
        by (by rewrite orb_true_iff, !bool_decide_eq_true).
      simpl. by rewrite decide_True. }
  split; [apply Hiff|]. intros Ht. apply Hiff. split; [apply parse_hex_bytes_encode|].
  split; [by intros ->; destruct Ht|]. split; [done|].
  apply b256_from_str_hex, keccak256_length.
Qed.

End Raw.

Lemma broadcast_bytes_match_hash_witness :
  @validate_raw_transaction ref_hex ref_hash_text ref_keccak
    ("0x" +:+ @hex_encode ref_hex [x02; xc0])
    ("0x" +:+ @hex_encode ref_hex (@keccak256 ref_keccak [x02; xc0])) = Ok [x02; xc0].
Proof.
  apply (@broadcast_bytes_match_hash ref_hex ref_hash_text ref_keccak "" "" [x02; xc0]). by left.
Defined.

(** A truncated diagnostic is never longer than its bound and the ellipsis. *)
Lemma truncate_rpc_diagnostic_bound value maximum :
  (String.length (truncate_rpc_diagnostic value maximum) ≤ maximum + 3)%nat.
Proof.
  assert (Hb : ∀ n, (boundary_at_most value n ≤ n)%nat).
  { induction n as [|n IH]; cbn [boundary_at_most]; [done|]. case_match; lia. }
  unfold truncate_rpc_diagnostic. case_decide; [lia|].
  rewrite str_app_length, str_take_length. change (String.length ellipsis) with 3%nat.
  specialize (Hb maximum). lia.
Qed.

(** * Receipt: what a mined bundle's receipt proves
    ([vela-relay-core/src/receipt.rs]) *)

Section Receipt.
Context `{HA : Alloy} `{HT : !HashText} `{HK : Keccak}.

Definition receipt_parse_u256 (value : string) : option Z :=
  digits ← str_strip_prefix "0x" value; u256_from_str_radix16 digits.

Definition quantity (value : Z) : string := "0x" +:+ lower_hex value.

Definition parse_word (data : list byte) (index : Z) : option Z :=
  be_value <$> slice data (index * 32) (index * 32 + 32).

Definition receipt_succeeded (receipt : Value) : option bool :=
  status ← get "status" receipt;
  status ← as_str status;
  status ← receipt_parse_u256 status;
  if decide (1 < status) then None else Some (bool_decide (status = 1)).

Definition event_signature : list byte :=
  keccak256 (str_bytes
    "UserOperationEvent(bytes32,address,address,uint256,bool,uint256,uint256)").

(** One log of the receipt, [None] when it is not an event of the bundle. *)
Definition event_of_log (entry_point : Z) (membership : list (list byte)) (log : Value) :
    option UserOperationEvent :=
  address ← (v ← get "address" log; s ← as_str v; address_from_str s);
  if negb (bool_decide (address = entry_point)) then None
  else
    topics ← (v ← get "topics" log; as_array v);
    topic0 ← (v ← head topics; s ← as_str v; b256_from_str s);
    if negb (bool_decide (topic0 = event_signature)) then None
    else
      hash ← (v ← topics !! 1%nat; s ← as_str v; b256_from_str s);
      if negb (bool_decide (hash ∈ membership)) then None
      else
        data ← (v ← get "data" log; s ← as_str v; parse_hex_bytes s);
        success ← parse_word data 1;
        if decide (1 < success) then None
        else
          cost ← parse_word data 2;
          used ← parse_word data 3;
          Some {| ev_user_operation_hash := b256_to_string hash;
                  ev_success := bool_decide (success = 1);
                  ev_actual_gas_cost := quantity cost;
                  ev_actual_gas_used := quantity used |}.

Definition user_operation_events (receipt : Value) (entry_point : Z) (membership : list string) :
    list UserOperationEvent :=
  let membership := omap b256_from_str membership in
  omap (event_of_log entry_point membership)
    (default [] (v ← get "logs" receipt; as_array v)).

Record BundleBilling : Type := {
  bb_billed_gas : Z; bb_gas_used : Z; used_over_billed_bps : Z;
  billed_at_cap : Z; charged : option Z; under_billed : bool }.

Definition bundle_billing (intent : PreparedBundleIntent) (receipt : Value) : option BundleBilling :=
  billed_gas ← (s ← bi_billed_gas intent; receipt_parse_u256 s);
  billed_fee_per_gas ← (s ← bi_billed_fee_per_gas intent; receipt_parse_u256 s);
  gas_used ← (v ← get "gasUsed" receipt; s ← as_str v; receipt_parse_u256 s);
  let charged := v ← get "effectiveGasPrice" receipt; s ← as_str v;
                 price ← receipt_parse_u256 s; checked 256 (gas_used * price) in
  let used_over_billed_bps :=
    if decide (billed_gas = 0) then umax 64
    else default (umax 64) (checked 64 (saturating_mul 256 gas_used 10000 / billed_gas)) in
  Some {| bb_billed_gas := billed_gas; bb_gas_used := gas_used;
          used_over_billed_bps := used_over_billed_bps;
          billed_at_cap := saturating_mul 256 billed_gas billed_fee_per_gas;
          charged := charged; under_billed := bool_decide (billed_gas < gas_used) |}.

(** ** Lemmas *)

(** An event is reported only for a log the EntryPoint emitted under the
    event's signature, about an operation of the bundle. *)
Lemma event_of_log_member entry_point membership log e :
  event_of_log entry_point membership log = Some e →
  (∃ text, get "address" log = Some (VString text) ∧ address_from_str text = Some entry_point) ∧
  ∃ hash, hash ∈ membership ∧ ev_user_operation_hash e = b256_to_string hash.
Proof.
  unfold event_of_log. intros (a & Ha & Hl)%bind_Some.
  case_bool_decide as Hep; cbn [negb] in Hl; [subst a|done].
  apply bind_Some in Hl as (topics & _ & Hl). apply bind_Some in Hl as (t0 & _ & Hl).
  case_bool_decide; cbn [negb] in Hl; [|done].
  apply bind_Some in Hl as (hash & _ & Hl). case_bool_decide as Hin; cbn [negb] in Hl; [|done].
  apply bind_Some in Hl as (data & _ & Hl). apply bind_Some in Hl as (success & _ & Hl).
  case_decide; [done|].
  apply bind_Some in Hl as (cost & _ & Hl). apply bind_Some in Hl as (used & _ & Hl).
  injection Hl as <-. split; [|by exists hash].
  apply bind_Some in Ha as (v & Hv & Ha). apply bind_Some in Ha as (s & Hs & Ha).
  destruct v; simplify_eq/=. eauto.
Qed.

Lemma events_only_from_the_bundle receipt entry_point membership e :
  e ∈ user_operation_events receipt entry_point membership →
  ∃ text hash, text ∈ membership ∧ b256_from_str text = Some hash ∧
    ev_user_operation_hash e = b256_to_string hash.
Proof.
  unfold user_operation_events. rewrite list_elem_of_omap.
  intros (log & _ & (_ & hash & Hin & He)%event_of_log_member).
  apply list_elem_of_omap in Hin as (text & Ht & Hh). eauto.
Qed.

End Receipt.
