(* ===== verification/Alchemy.v ===== *)
(** * Alchemy: the networks Alchemy serves and their endpoints
    ([vela-relay-core/src/alchemy.rs]) *)

From S2P Require Export Text.
#[local] Open Scope string_scope.
#[local] Open Scope Z_scope.

Inductive NetworkProtocol : Type := Evm | NonEvm.

#[export] Instance NetworkProtocol_eq_dec : EqDecision NetworkProtocol.
Proof. solve_decision. Defined.

Record AlchemyNetwork : Type := {
  slug : string; an_chain_id : option Z; endpoint_base_url : string; protocol : NetworkProtocol }.

Definition evm (slug : string) (chain_id : Z) (endpoint_base_url : string) : AlchemyNetwork :=
  {| slug := slug; an_chain_id := Some chain_id; endpoint_base_url := endpoint_base_url; protocol := Evm |}.
Definition non_evm (slug endpoint_base_url : string) : AlchemyNetwork :=
  {| slug := slug; an_chain_id := None; endpoint_base_url := endpoint_base_url; protocol := NonEvm |}.
Definition non_evm_with_chain_id (slug : string) (chain_id : Z) (endpoint_base_url : string) : AlchemyNetwork :=
  {| slug := slug; an_chain_id := Some chain_id; endpoint_base_url := endpoint_base_url; protocol := NonEvm |}.

Definition ALCHEMY_NETWORKS : list AlchemyNetwork := [
  evm "abstract" 2741 "https://abstract-mainnet.g.alchemy.com/v2/";
  evm "adi" 36900 "https://adi-mainnet.g.alchemy.com/v2/";
  evm "anime" 69000 "https://anime-mainnet.g.alchemy.com/v2/";
  evm "apechain" 33139 "https://apechain-mainnet.g.alchemy.com/v2/";
  non_evm "aptos" "https://aptos-mainnet.g.alchemy.com/v2/";
  evm "arbitrum" 42161 "https://arb-mainnet.g.alchemy.com/v2/";
  evm "arc" 5042 "https://arc-mainnet.g.alchemy.com/v2/";
  evm "arc-testnet" 5042002 "https://arc-testnet.g.alchemy.com/v2/";
  evm "astar" 592 "https://astar-mainnet.g.alchemy.com/v2/";
  evm "avalanche" 43114 "https://avax-mainnet.g.alchemy.com/v2/";
  evm "base" 8453 "https://base-mainnet.g.alchemy.com/v2/";
  evm "berachain" 80094 "https://berachain-mainnet.g.alchemy.com/v2/";
  non_evm "bitcoin-cash" "https://bitcoincash-mainnet.g.alchemy.com/v2/";
  non_evm "bitcoin" "https://bitcoin-mainnet.g.alchemy.com/v2/";
  evm "blast" 81457 "https://blast-mainnet.g.alchemy.com/v2/";
  evm "bnb" 56 "https://bnb-mainnet.g.alchemy.com/v2/";
  evm "boba" 288 "https://boba-mainnet.g.alchemy.com/v2/";
  evm "bob" 60808 "https://bob-mainnet.g.alchemy.com/v2/";
  evm "botanix" 3637 "https://botanix-mainnet.g.alchemy.com/v2/";
  non_evm "celestiabridge" "https://celestiabridge-mainnet.g.alchemy.com/v2/";
  evm "celo" 42220 "https://celo-mainnet.g.alchemy.com/v2/";
  evm "citrea" 4114 "https://citrea-mainnet.g.alchemy.com/v2/";
  evm "cronos" 25 "https://cronos-mainnet.g.alchemy.com/v2/";
  evm "crossfi" 4158 "https://crossfi-mainnet.g.alchemy.com/v2/";
  evm "degen" 666666666 "https://degen-mainnet.g.alchemy.com/v2/";
  non_evm "dogecoin" "https://dogecoin-mainnet.g.alchemy.com/v2/";
  evm "ethereum" 1 "https://eth-mainnet.g.alchemy.com/v2/";
  evm "flow" 747 "https://flow-mainnet.g.alchemy.com/v2/";
  evm "frax" 252 "https://frax-mainnet.g.alchemy.com/v2/";
  evm "gensyn" 685689 "https://gensyn-mainnet.g.alchemy.com/v2/";
  evm "gnosis" 100 "https://gnosis-mainnet.g.alchemy.com/v2/";
  evm "humanity" 6985385 "https://humanity-mainnet.g.alchemy.com/v2/";
  evm "hyperliquid" 999 "https://hyperliquid-mainnet.g.alchemy.com/v2/";
  non_evm_with_chain_id "injective" 1776 "https://injective-mainnet.g.alchemy.com/v2/";
  evm "ink" 57073 "https://ink-mainnet.g.alchemy.com/v2/";
  evm "jovay" 5734951 "https://jovay-mainnet.g.alchemy.com/v2/";
  evm "kaia" 8217 "https://kaia-mainnet.g.alchemy.com/v2/";
  evm "katana" 747474 "https://katana-mainnet.g.alchemy.com/v2/";
  evm "lens" 232 "https://lens-mainnet.g.alchemy.com/v2/";
  evm "linea" 59144 "https://linea-mainnet.g.alchemy.com/v2/";
  non_evm "litecoin" "https://litecoin-mainnet.g.alchemy.com/v2/";
  evm "mantle" 5000 "https://mantle-mainnet.g.alchemy.com/v2/";
  evm "matic" 137 "https://polygon-mainnet.g.alchemy.com/v2/";
  evm "megaeth" 4326 "https://megaeth-mainnet.g.alchemy.com/v2/";
  evm "metis" 1088 "https://metis-mainnet.g.alchemy.com/v2/";
  evm "mode" 34443 "https://mode-mainnet.g.alchemy.com/v2/";
  evm "monad" 143 "https://monad-mainnet.g.alchemy.com/v2/";
  evm "moonbeam" 1284 "https://moonbeam-mainnet.g.alchemy.com/v2/";
  evm "mythos" 42018 "https://mythos-mainnet.g.alchemy.com/v2/";
  evm "opbnb" 204 "https://opbnb-mainnet.g.alchemy.com/v2/";
  evm "optimism" 10 "https://opt-mainnet.g.alchemy.com/v2/";
  evm "pharos" 1672 "https://pharos-mainnet.g.alchemy.com/v2/";
  evm "plasma" 9745 "https://plasma-mainnet.g.alchemy.com/v2/";
  evm "plume" 98866 "https://plume-mainnet.g.alchemy.com/v2/";
  evm "polygonzkevm" 1101 "https://polygonzkevm-mainnet.g.alchemy.com/v2/";
  evm "rise" 4153 "https://rise-mainnet.g.alchemy.com/v2/";
  evm "robinhood" 4663 "https://robinhood-mainnet.g.alchemy.com/v2/";
  evm "ronin" 2020 "https://ronin-mainnet.g.alchemy.com/v2/";
  evm "rootstock" 30 "https://rootstock-mainnet.g.alchemy.com/v2/";
  evm "scroll" 534352 "https://scroll-mainnet.g.alchemy.com/v2/";
  evm "sei" 1329 "https://sei-mainnet.g.alchemy.com/v2/";
  evm "settlus" 5371 "https://settlus-mainnet.g.alchemy.com/v2/";
  evm "shape" 360 "https://shape-mainnet.g.alchemy.com/v2/";
  non_evm "solana" "https://solana-mainnet.g.alchemy.com/v2/";
  evm "soneium" 1868 "https://soneium-mainnet.g.alchemy.com/v2/";
  evm "sonic" 146 "https://sonic-mainnet.g.alchemy.com/v2/";
  evm "stable" 988 "https://stable-mainnet.g.alchemy.com/v2/";
  non_evm_with_chain_id "starknet" 23448594291968336 "https://starknet-mainnet.g.alchemy.com/v2/";
  non_evm "stellar" "https://stellar-mainnet.g.alchemy.com/v2/";
  evm "story" 1514 "https://story-mainnet.g.alchemy.com/v2/";
  non_evm "sui" "https://sui-mainnet.g.alchemy.com/v2/";
  evm "superseed" 5330 "https://superseed-mainnet.g.alchemy.com/v2/";
  evm "tempo" 4217 "https://tempo-mainnet.g.alchemy.com/v2/";
  non_evm_with_chain_id "tron" 728126428 "https://tron-mainnet.g.alchemy.com/v2/";
  evm "unichain" 130 "https://unichain-mainnet.g.alchemy.com/v2/";
  evm "worldchain" 480 "https://worldchain-mainnet.g.alchemy.com/v2/";
  evm "worldmobilechain" 869 "https://worldmobilechain-mainnet.g.alchemy.com/v2/";
  evm "xlayer" 196 "https://xlayer-mainnet.g.alchemy.com/v2/";
  non_evm_with_chain_id "xmtp-ropsten" 351243127 "https://xmtp-ropsten.g.alchemy.com/v2/";
  evm "zetachain" 7000 "https://zetachain-mainnet.g.alchemy.com/v2/";
  evm "zksync" 324 "https://zksync-mainnet.g.alchemy.com/v2/";
  evm "zora" 7777777 "https://zora-mainnet.g.alchemy.com/v2/"].

Definition serves_chain (chain_id : Z) (network : AlchemyNetwork) : bool :=
  bool_decide (protocol network = Evm) && bool_decide (an_chain_id network = Some chain_id).

Definition rpc_url (chain_id : Z) (api_key : string) : option string :=
  (λ network, endpoint_base_url network +:+ api_key) <$> List.find (serves_chain chain_id) ALCHEMY_NETWORKS.

(** ** The table is a function of the chain *)

Definition same_chain (n m : AlchemyNetwork) : bool :=
  bool_decide (protocol n = Evm) && bool_decide (protocol m = Evm) &&
  bool_decide (an_chain_id n = an_chain_id m).

Lemma evm_chains_distinct n m chain_id :
  n ∈ ALCHEMY_NETWORKS → m ∈ ALCHEMY_NETWORKS → protocol n = Evm → protocol m = Evm →
  an_chain_id n = Some chain_id → an_chain_id m = Some chain_id → endpoint_base_url n = endpoint_base_url m.
Proof.
  assert (forallb (λ n, forallb (λ m, negb (same_chain n m) ||
            bool_decide (endpoint_base_url n = endpoint_base_url m)) ALCHEMY_NETWORKS) ALCHEMY_NETWORKS = true)
    as Hall by (vm_compute; reflexivity).
  intros Hn Hm Pn Pm Cn Cm. apply list_elem_of_In in Hn, Hm.
  rewrite forallb_forall in Hall. specialize (Hall n Hn). rewrite forallb_forall in Hall.
  specialize (Hall m Hm). unfold same_chain in Hall.
  rewrite !bool_decide_eq_true_2 in Hall by congruence. cbn in Hall.
  by rewrite bool_decide_eq_true in Hall.
Qed.

(** An endpoint is offered exactly for the EVM networks of the table, each
    under its own chain. *)
Lemma rpc_url_spec chain_id api_key url :
  rpc_url chain_id api_key = Some url ↔
  ∃ network, network ∈ ALCHEMY_NETWORKS ∧ protocol network = Evm ∧
    an_chain_id network = Some chain_id ∧ url = endpoint_base_url network +:+ api_key.
Proof.
  unfold rpc_url. split.
  - intros (n & Hf & Hu)%fmap_Some. apply List.find_some in Hf as [Hin Hs].
    apply andb_true_iff in Hs as [Hp Hc]. rewrite bool_decide_eq_true in Hp.
    rewrite bool_decide_eq_true in Hc. exists n. by rewrite list_elem_of_In.
  - intros (n & Hin & Hp & Hc & ->). destruct (List.find (serves_chain chain_id) ALCHEMY_NETWORKS) as [m|] eqn:Hf.
    + apply List.find_some in Hf as [Hm Hs]. apply andb_true_iff in Hs as [Hp' Hc'].
      rewrite bool_decide_eq_true in Hp'. rewrite bool_decide_eq_true in Hc'.
      cbn. do 2 f_equal. apply list_elem_of_In in Hm. by eapply evm_chains_distinct.
    + exfalso. assert (Hno := List.find_none _ _ Hf n). apply list_elem_of_In in Hin. specialize (Hno Hin).
      unfold serves_chain in Hno. by rewrite Hp, Hc, !bool_decide_eq_true_2 in Hno.
Qed.
