(* ===== verification/Alert.v ===== *)
(** * Alert: which executor alerts are the same
    ([vela-relay-core/src/alert.rs])

    Text is UTF-8; a [char] is its encoding.  The Unicode lower-case table is
    the class [LowerCase]. *)

From S2P Require Export Bytes.
#[local] Open Scope string_scope.
#[local] Open Scope list_scope.
#[local] Open Scope Z_scope.

(** [char::to_lowercase]: the characters a character's lower case has. *)
Class LowerCase := { char_to_lowercase : string → list string }.

Definition MAX_ALERT_REASON_BYTES : nat := 700.

Definition utf8_chars (s : string) : list string :=
  map (λ '(index, len), str_take len (str_drop index s)) (char_indices s).

Fixpoint hex_run (s : string) : nat :=
  match s with
  | String a s => if decide (is_Some (hex_digit_value a)) then S (hex_run s) else O
  | EmptyString => O
  end.

Definition opens_hex (s : string) : bool := starts_with "0x" s || starts_with "0X" s.

(** The byte loop; every turn takes at least one byte. *)
Fixpoint replace_hex_from (fuel : nat) (value : string) : string :=
  match fuel, value with
  | O, _ | _, EmptyString => value
  | S fuel, String a rest =>
      if opens_hex value then
        let n := (2 + hex_run (str_drop 2 value))%nat in
        (if decide (10 ≤ n)%nat then " <hex> " else str_take n value) +:+
        replace_hex_from fuel (str_drop n value)
      else String a (replace_hex_from fuel rest)
  end.
Definition replace_hex_literals (value : string) : string :=
  replace_hex_from (String.length value) value.

Definition is_digit_char (c : string) : bool :=
  match c with String a EmptyString => is_ascii_digit a | _ => false end.
Definition is_whitespace_char (c : string) : bool := bool_decide (c ∈ white_space).
Fixpoint ends_with_space (s : string) : bool :=
  match s with
  | EmptyString => false
  | String a EmptyString => bool_decide (a = " "%char)
  | String _ s => ends_with_space s
  end.

Definition normalize_char (state : string * bool) (c : string) : string * bool :=
  let '(normalized, in_number) := state in
  if is_digit_char c then ((if in_number : bool then normalized else normalized +:+ "#"), true)
  else if is_whitespace_char c
  then ((if ends_with_space normalized then normalized else normalized +:+ " "), false)
  else (normalized +:+ c, false).

(** [char::is_control]: the category Cc. *)
Definition is_control_char (c : string) : bool :=
  match c with
  | String a EmptyString => bool_decide (byte_of a < 32) || bool_decide (byte_of a = 127)
  | String a (String b EmptyString) => bool_decide (byte_of a = 0xc2) && bool_decide (byte_of b < 0xa0)
  | _ => false
  end.

Definition newline : string := String "010" EmptyString.
Definition str_concat (l : list string) : string := foldr (λ a b, a +:+ b) "" l.

Definition safe_alert_reason (reason : string) : string :=
  let filtered := str_concat (map (λ c, if is_control_char c then " " else c) (utf8_chars reason)) in
  if decide (String.length filtered ≤ MAX_ALERT_REASON_BYTES)%nat then filtered
  else
    let kept := take_while (λ '(index, len), bool_decide (index + len ≤ MAX_ALERT_REASON_BYTES - 3)%nat)
                  (char_indices filtered) in
    let stop := match last kept with Some (index, len) => (index + len)%nat | None => O end in
    str_take stop filtered +:+ "...".

Section Alert.
Context `{LC : LowerCase} `{HX : Hex} `{HK : Keccak}.

Definition normalize_reason (reason : string) : string :=
  let reason := replace_hex_literals reason in
  let chars := concat (map char_to_lowercase (utf8_chars reason)) in
  trim (foldl normalize_char ("", false) chars).1.

Definition alert_fingerprint (chain_id : Z) (stage reason : string) : string :=
  dec chain_id +:+ ":" +:+ stage +:+ ":" +:+
  hex_encode (take 16 (keccak256 (str_bytes (normalize_reason reason)))).

Definition executor_alert_text (chain_id : Z) (stage user_operation_hash reason : string) (cooldown_secs : Z) :
    string :=
  "Vela Relay executor issue" +:+ newline +:+ "chain: " +:+ dec chain_id +:+ newline +:+ "stage: " +:+ stage +:+
  newline +:+ "user operation: " +:+ user_operation_hash +:+ newline +:+ "reason: " +:+
  safe_alert_reason reason +:+ newline +:+ newline +:+
  "Identical chain/stage/reason alerts are suppressed for " +:+ dec cooldown_secs +:+ " seconds.".
End Alert.

(** The reason an alert carries is at most seven hundred bytes long. *)
Lemma safe_alert_reason_bounded reason :
  (String.length (safe_alert_reason reason) ≤ MAX_ALERT_REASON_BYTES)%nat.
Proof.
  unfold safe_alert_reason. set (filtered := str_concat _). case_decide as Hl; [done|].
  set (kept := take_while _ _). rewrite str_app_length, str_take_length.
  assert ((match last kept with Some (index, len) => index + len | None => 0 end)%nat
            ≤ MAX_ALERT_REASON_BYTES - 3)%nat as Hk.
  { destruct (last kept) as [[i n]|] eqn:E; [|unfold MAX_ALERT_REASON_BYTES; lia].
    apply last_Some_elem_of in E. eapply Forall_forall in E; [|apply take_while_Forall].
    by apply bool_decide_eq_true in E. }
  unfold MAX_ALERT_REASON_BYTES in *. cbn [String.length]. lia.
Qed.
