(* ===== verification/Trusted.v ===== *)
(** * Trusted: the executor's JSON-RPC transport
    ([vela-relay-cf/src/arms/trusted.rs])

    A client walks the chain's endpoints in order — the operator's own, then
    Alchemy's, then the directory's — and asks an endpoint only once it has
    reported the chain's id.  What the isolate shares between walks (validated
    endpoints, cooldowns, directory lists, request ids, missing methods) is
    reached through effects, so that walks may interleave.  A reply's text is
    the value it parses to, or [None] where it is not JSON. *)

From S2P Require Export Io Alchemy RpcWalk Broadcast.
#[local] Open Scope string_scope.
#[local] Open Scope list_scope.
#[local] Open Scope Z_scope.

(** ** Data *)

Record RpcBatchCall : Type := { bc_method : string; bc_params : Value }.

Inductive RpcError : Type :=
  | NoTrustedRpc (chain_id : Z)
  | WrongChain
  | Unavailable
  | Reverted (message : string) (data : option string)
  | InvalidResponse.

(** [Display for RpcError] *)
Definition rpc_error_text (error : RpcError) : string :=
  match error with
  | NoTrustedRpc chain_id => "no trusted executor RPC is available for chain " +:+ dec chain_id
  | WrongChain => "trusted RPC returned the wrong chain ID"
  | Unavailable => "trusted RPC is temporarily unavailable"
  | Reverted _ _ => "EVM execution reverted"
  | InvalidResponse => "trusted RPC returned an invalid response"
  end.

Inductive BroadcastOutcome : Type :=
  | BroadcastAccepted (hash : string)
  | BroadcastAmbiguous (reason : string)
  | BroadcastRejected (reason : string).

(** ** Upstream replies *)

Record UpstreamResponse : Type := { ur_id : Z; ur_fields : obj }.
Record UpstreamError : Type := {
  ue_code : option Z; ue_message : option string; ue_data : option Value }.

Definition as_i64 (v : Value) : option Z :=
  match v with VNumber n => if decide (- 2 ^ 63 ≤ n < 2 ^ 63) then Some n else None | _ => None end.

Definition de_upstream_response (v : Value) : option UpstreamResponse :=
  o ← as_object v;
  id ← defaulted 0 (as_uint 64) "id" o;
  Some {| ur_id := id; ur_fields := List.filter (λ kv, negb (String.eqb kv.1 "id")) o |}.

(** The derive reads the struct from an object, or from an array of its fields. *)
Definition de_upstream_error (v : Value) : option UpstreamError :=
  o ← match v with
      | VObject o => Some o
      | VArray [c; m; d] => Some [("code", c); ("message", m); ("data", d)]
      | _ => None
      end;
  code ← opt as_i64 "code" o; message ← opt as_str "message" o; data ← opt Some "data" o;
  Some {| ue_code := code; ue_message := message; ue_data := data |}.

Definition error_message (e : UpstreamError) : string := default "" (ue_message e).
Definition diagnostic (e : UpstreamError) : string := upstream_error_diagnostic (ue_code e) (ue_message e).
Definition is_execution_revert (e : UpstreamError) : bool := is_executor_revert (ue_code e) (error_message e).
Definition into_revert (e : UpstreamError) : RpcError := Reverted (error_message e) (revert_data (ue_data e)).
Definition is_already_known (e : UpstreamError) : bool := is_broadcast_already_known (error_message e).
Definition is_nonce_ambiguous (e : UpstreamError) : bool := is_broadcast_nonce_ambiguous (error_message e).
Definition is_definitive_rejection (e : UpstreamError) : bool :=
  is_definitive_broadcast_rejection (error_message e).

Definition method_answer (r : UpstreamResponse) : option MethodAnswer :=
  match obj_get "error" (ur_fields r) ≫= de_upstream_error with
  | Some e =>
      Some (if is_execution_revert e then Refused
            else method_error_answer (ue_code e) (error_message e))
  | None => match obj_get "result" (ur_fields r) with Some _ => Some Served | None => None end
  end.

Definition into_result_and_error (r : UpstreamResponse) : option Value * option UpstreamError :=
  (obj_get "result" (ur_fields r), obj_get "error" (ur_fields r) ≫= de_upstream_error).

Definition definitive_batch_result (r : UpstreamResponse) : option (result RpcError Value) :=
  match into_result_and_error r with
  | (Some result, None) => Some (Ok result)
  | (None, Some e) => if is_execution_revert e then Some (Err (into_revert e)) else None
  | _ => None
  end.

(** ** Effects *)

Inductive Posted : Type := TimedOut | NotPosted | Replied (body : option Value).

Inductive Wire : Type → Type :=
  | Now : Wire Z
  | NextRequestId (count : Z) : Wire Z
  | IsValidated (chain_id : Z) (url : string) : Wire bool
  | MarkValidated (chain_id : Z) (url : string) : Wire ()
  | ClearCooldown (chain_id : Z) (url : string) : Wire ()
  | CoolEndpoint (chain_id : Z) (url : string) (now : Z) : Wire ()
  | Walkable (chain_id : Z) (urls : list string) (now : Z) : Wire (list string)
  | CachedDirectory (chain_id : Z) : Wire (option (list string))
  | CacheDirectory (chain_id : Z) (urls : list string) : Wire ()
  | FallbackRpcUrls (chain_id : Z) : Wire (option (list string))
  | PostJson (chain_id : Z) (url : string) (payload : Value) : Wire Posted
  | LacksMethod (chain_id : Z) (method : string) (now : Z) : Wire bool
  | NoteMethodWalk (chain_id : Z) (method : string) (answers : list MethodAnswer) (now : Z) : Wire ().

(** ** The client *)

Record TrustedRpcClient : Type := {
  explicit_urls : gmap Z (list string); alchemy_api_key : option string }.

Definition append_unique_urls (urls candidates : list string) : list string :=
  foldl (λ urls url, if decide (url ∈ urls) then urls else urls ++ [url]) urls candidates.

Definition envelope (id : Z) (method : string) (params : Value) : Value :=
  VObject [("jsonrpc", VString "2.0"); ("id", VNumber id); ("method", VString method); ("params", params)].

(** [u64::from_str_radix(value.trim_start_matches("0x"), 16)] *)
Definition chain_id_of (value : string) : option Z :=
  from_str_radix16 64 (strip_while (String.length value) ["0x"] value).

Definition reported_chain (r : UpstreamResponse) (chain_id : Z) : result RpcError () :=
  let '(result, error) := into_result_and_error r in
  match error with
  | Some _ => Err InvalidResponse
  | None =>
      match v ← result; s ← as_str v; chain_id_of s with
      | None => Err InvalidResponse
      | Some returned => if decide (returned = chain_id) then Ok tt else Err WrongChain
      end
  end.

Section Client.
Context `{HX : Hex}.
Variable client : TrustedRpcClient.

Definition urls (chain_id : Z) : io Wire (list string) :=
  let urls := default [] (explicit_urls client !! chain_id) in
  let urls := match alchemy_api_key client ≫= rpc_url chain_id with
              | Some url => append_unique_urls urls [url]
              | None => urls
              end in
  cached ← perform (CachedDirectory chain_id);
  directory_urls ←
    match cached with
    | Some urls => mret urls
    | None =>
        fetched ← perform (FallbackRpcUrls chain_id);
        match fetched with
        | Some urls => _ ← perform (CacheDirectory chain_id urls); mret urls
        | None => mret []
        end
    end;
  mret (append_unique_urls urls directory_urls).

Definition urls_or_error (chain_id : Z) : io Wire (result RpcError (list string)) :=
  urls ← urls chain_id;
  now ← perform Now;
  urls ← perform (Walkable chain_id urls now);
  mret (if decide (urls = []) then Err (NoTrustedRpc chain_id) else Ok urls).

Definition supports_chain (chain_id : Z) : io Wire bool :=
  urls ← urls chain_id; mret (negb (bool_decide (urls = []))).

Definition cool (chain_id : Z) (url : string) : io Wire () :=
  if existsb (String.eqb url) (default [] (explicit_urls client !! chain_id)) then mret tt
  else now ← perform Now; perform (CoolEndpoint chain_id url now).

Definition post_json (chain_id : Z) (url : string) (payload : Value) : io Wire (option (option Value)) :=
  posted ← perform (PostJson chain_id url payload);
  match posted with
  | TimedOut => _ ← cool chain_id url; mret None
  | NotPosted => mret None
  | Replied body => mret (Some body)
  end.

Definition request_rpc (chain_id : Z) (url method : string) (params : Value) :
    io Wire (result RpcError UpstreamResponse) :=
  id ← perform (NextRequestId 1);
  body ← post_json chain_id url (envelope id method params);
  mret match body with
       | None => Err Unavailable
       | Some body => ok_or (body ≫= de_upstream_response) InvalidResponse
       end.

Definition check_chain (chain_id : Z) (url : string) : io Wire (result RpcError ()) :=
  response ← request_rpc chain_id url "eth_chainId" (VArray []);
  mret (r ← response; reported_chain r chain_id).

Definition validate_chain (chain_id : Z) (url : string) : io Wire (result RpcError ()) :=
  validated ← perform (IsValidated chain_id url);
  if validated : bool then mret (Ok tt)
  else
    checked ← check_chain chain_id url;
    _ ← match checked with
        | Ok _ => _ ← perform (MarkValidated chain_id url); perform (ClearCooldown chain_id url)
        | Err _ => cool chain_id url
        end;
    mret checked.

Definition note_answer (answers : list MethodAnswer) (r : UpstreamResponse) : list MethodAnswer :=
  answers ++ option_list (method_answer r).

(** One endpoint of a walk: [reply] of the answer of an endpoint that passed
    the chain check, or on to the next. *)
Definition ask_endpoint {S A} (chain_id : Z) (url method : string) (params : Value) (s : S)
    (reply : result RpcError UpstreamResponse → S + A) : io Wire (S + A) :=
  valid ← validate_chain chain_id url;
  match valid with
  | Err _ => mret (inl s)
  | Ok _ => response ← request_rpc chain_id url method params; mret (reply response)
  end.

Definition call_walk (chain_id : Z) (method : string) (params : Value) :
    io Wire (result RpcError Value * list MethodAnswer) :=
  urls ← urls_or_error chain_id;
  match urls with
  | Err error => mret (Err error, [])
  | Ok urls =>
      io_for (λ url answers,
        ask_endpoint chain_id url method params answers (λ response,
          match response with
          | Err _ => inl answers
          | Ok r =>
              let answers := note_answer answers r in
              match into_result_and_error r with
              | (Some result, None) => inr (Ok result, answers)
              | _ => inl answers
              end
          end)) urls [] (λ answers, mret (Err Unavailable, answers))
  end.

Definition call (chain_id : Z) (method : string) (params : Value) : io Wire (result RpcError Value) :=
  walk ← call_walk chain_id method params; mret walk.1.

Definition lacks_method (chain_id : Z) (method : string) : io Wire bool :=
  now ← perform Now; perform (LacksMethod chain_id method now).

Definition note_method_walk (chain_id : Z) (method : string) (answers : list MethodAnswer) : io Wire () :=
  now ← perform Now; perform (NoteMethodWalk chain_id method answers now).

Definition simulate (chain_id : Z) (method : string) (params : Value) : io Wire (result RpcError Value) :=
  urls ← urls_or_error chain_id;
  match urls with
  | Err error => mret (Err error)
  | Ok urls =>
      io_for (λ url (_ : ()),
        ask_endpoint chain_id url method params tt (λ response,
          match response with
          | Err _ => inl tt
          | Ok r =>
              match into_result_and_error r with
              | (Some result, None) => inr (Ok result)
              | (None, Some e) => if is_execution_revert e then inr (Err (into_revert e)) else inl tt
              | _ => inl tt
              end
          end)) urls tt (λ _, mret (Err Unavailable))
  end.

(** ** Batches *)

Record BatchWalk : Type := {
  bw_results : list (option (result RpcError Value));
  bw_unresolved : list nat;
  bw_saw_response : bool;
  bw_answers : list MethodAnswer }.

Definition batch_payload (first_id : Z) (calls : list RpcBatchCall) (unresolved : list nat) : Value :=
  let payload := omap (λ index : nat,
    c ← calls !! index;
    Some (envelope (wrapping 64 (first_id + Z.of_nat index)) (bc_method c) (bc_params c))) unresolved in
  match payload with
  | [lone] => lone
  | _ => VArray payload
  end.

(** The item a reply's id names, when it is one of those just asked for. *)
Definition reply_index (first_id : Z) (unresolved : list nat) (r : UpstreamResponse) : option nat :=
  if decide (first_id ≤ ur_id r) then
    let index := Z.to_nat (ur_id r - first_id) in
    if decide (index ∈ unresolved) then Some index else None
  else None.

Definition collect_reply (first_id : Z) (unresolved : list nat) (acc : gmap nat UpstreamResponse * list nat)
    (r : UpstreamResponse) : gmap nat UpstreamResponse * list nat :=
  match reply_index first_id unresolved r with
  | None => acc
  | Some index =>
      (<[index := r]> acc.1, if decide (is_Some (acc.1 !! index)) then index :: acc.2 else acc.2)
  end.

Definition collect_replies (first_id : Z) (unresolved : list nat) (replies : list UpstreamResponse) :
    gmap nat UpstreamResponse * list nat :=
  foldl (collect_reply first_id unresolved) (∅, []) replies.

(** The walk's state after one item of a batch reply; [retry] is kept in
    [bw_unresolved]. *)
Definition settle_item (by_index : gmap nat UpstreamResponse) (duplicates : list nat) (w : BatchWalk)
    (index : nat) : BatchWalk :=
  let retry := {| bw_results := bw_results w; bw_unresolved := bw_unresolved w ++ [index];
                  bw_saw_response := bw_saw_response w; bw_answers := bw_answers w |} in
  if decide (index ∈ duplicates) then retry
  else
    match by_index !! index with
    | None => retry
    | Some r =>
        let answers := note_answer (bw_answers w) r in
        match definitive_batch_result r with
        | Some result =>
            {| bw_results := <[index := Some result]> (bw_results w); bw_unresolved := bw_unresolved w;
               bw_saw_response := bw_saw_response w; bw_answers := answers |}
        | None =>
            {| bw_results := bw_results w; bw_unresolved := bw_unresolved w ++ [index];
               bw_saw_response := bw_saw_response w; bw_answers := answers |}
        end
    end.

(** The reply bodies that count as a batch response. *)
Definition read_replies (body : option Value) (sent : nat) : option (list UpstreamResponse) :=
  b ← body; replies ← batch_replies b (Z.of_nat sent); mapM de_upstream_response replies.

Definition settle_replies (first_id : Z) (w : BatchWalk) (replies : list UpstreamResponse) : BatchWalk :=
  let '(by_index, duplicates) := collect_replies first_id (bw_unresolved w) replies in
  foldl (settle_item by_index duplicates)
    {| bw_results := bw_results w; bw_unresolved := []; bw_saw_response := true;
       bw_answers := bw_answers w |} (bw_unresolved w).

(** [results.into_iter().map(Option::expect)]: [batch_reports_every_call] is
    the proof that no item is [None]. *)
Definition finish_batch (w : BatchWalk) : result RpcError (list (result RpcError Value)) * list MethodAnswer :=
  (if bw_saw_response w
   then Ok (omap id (foldl (λ results index, <[index := Some (Err InvalidResponse)]> results)
                       (bw_results w) (bw_unresolved w)))
   else Err Unavailable, bw_answers w).

Definition batch_endpoint (chain_id : Z) (first_id : Z) (calls : list RpcBatchCall) (url : string)
    (w : BatchWalk) :
    io Wire (BatchWalk + result RpcError (list (result RpcError Value)) * list MethodAnswer) :=
  valid ← validate_chain chain_id url;
  match valid with
  | Err _ => mret (inl w)
  | Ok _ =>
      body ← post_json chain_id url (batch_payload first_id calls (bw_unresolved w));
      mret match b ← body; read_replies b (length (bw_unresolved w)) with
           | None => inl w
           | Some replies =>
               let w := settle_replies first_id w replies in
               if decide (bw_unresolved w = []) then inr (finish_batch w) else inl w
           end
  end.

Definition batch_walk (chain_id : Z) (calls : list RpcBatchCall) :
    io Wire (result RpcError (list (result RpcError Value)) * list MethodAnswer) :=
  if decide (calls = []) then mret (Ok [], [])
  else
    urls ← urls_or_error chain_id;
    match urls with
    | Err error => mret (Err error, [])
    | Ok urls =>
        first_id ← perform (NextRequestId (Z.of_nat (length calls)));
        io_for (batch_endpoint chain_id first_id calls) urls
          {| bw_results := replicate (length calls) None; bw_unresolved := seq 0 (length calls);
             bw_saw_response := false; bw_answers := [] |}
          (λ w, mret (finish_batch w))
    end.

Definition batch (chain_id : Z) (calls : list RpcBatchCall) :
    io Wire (result RpcError (list (result RpcError Value))) :=
  walk ← batch_walk chain_id calls; mret walk.1.

(** ** Broadcasts *)

(** What one endpoint's answer to a broadcast says. *)
Definition broadcast_answer (response : result RpcError UpstreamResponse) : BroadcastOutcome :=
  match response with
  | Ok r =>
      match into_result_and_error r with
      | (Some (VString hash), None) => BroadcastAccepted hash
      | (None, Some e) =>
          if is_already_known e || is_nonce_ambiguous e then BroadcastAmbiguous (diagnostic e)
          else if is_definitive_rejection e then BroadcastRejected (diagnostic e)
          else BroadcastAmbiguous (diagnostic e)
      | _ => BroadcastAmbiguous "malformed RPC broadcast response"
      end
  | Err error => BroadcastAmbiguous (rpc_error_text error)
  end.

Definition finish_broadcast (diagnostics : list string * list string) : BroadcastOutcome :=
  let '(ambiguous, rejected) := diagnostics in
  if decide (ambiguous ≠ [] ∨ rejected = [])
  then BroadcastAmbiguous (join_broadcast_diagnostics ambiguous)
  else BroadcastRejected (join_broadcast_diagnostics rejected).

Definition broadcast_raw_transaction (chain_id : Z) (raw_transaction : list byte) :
    io Wire (result RpcError BroadcastOutcome) :=
  urls ← urls_or_error chain_id;
  match urls with
  | Err error => mret (Err error)
  | Ok urls =>
      io_for (λ url '(ambiguous, rejected),
        ask_endpoint chain_id url "eth_sendRawTransaction"
          (VArray [VString ("0x" +:+ hex_encode raw_transaction)]) (ambiguous, rejected)
          (λ response,
            match broadcast_answer response with
            | BroadcastAccepted hash => inr (Ok (BroadcastAccepted hash))
            | BroadcastAmbiguous d => inl (ambiguous ++ [d], rejected)
            | BroadcastRejected d => inl (ambiguous, rejected ++ [d])
            end)) urls ([], []) (λ diagnostics, mret (Ok (finish_broadcast diagnostics)))
  end.
End Client.

(** ** Reading a batch's answers *)

Definition response_value (responses : list (result RpcError Value)) (index : nat) (method : string) :
    result string Value :=
  match responses !! index with
  | Some (Ok value) => Ok value
  | Some (Err error) => Err (method +:+ " failed: " +:+ rpc_error_text error)
  | None => Err (method +:+ " is missing from the RPC batch response")
  end.

(** [parse_quantity] of this shell: no sign and no leading zeros. *)
Definition trusted_parse_quantity (value : string) : option Z :=
  digits ← str_strip_prefix "0x" value;
  if decide (digits = "") then None
  else if (bool_decide (1 < String.length digits)%nat && starts_with "0" digits) ||
          negb (all_chars (λ a, bool_decide (is_Some (hex_digit_value a))) digits) then None
  else from_str_radix16 256 digits.

Definition response_quantity (responses : list (result RpcError Value)) (index : nat) (method : string) :
    result string Z :=
  value ← response_value responses index method;
  ok_or (s ← as_str value; trusted_parse_quantity s) (method +:+ " returned an invalid quantity").

Definition response_abi_u256 `{Hex} (responses : list (result RpcError Value)) (index : nat)
    (method : string) : result string Z :=
  value ← response_value responses index method;
  bytes ← ok_or (s ← as_str value; bytes ← parse_hex_bytes s;
                 if decide (length bytes = 32%nat) then Some bytes else None)
                (method +:+ " returned invalid ABI data");
  Ok (be_value bytes).

Definition response_quantity_optional (responses : list (result RpcError Value)) (index : nat) : option Z :=
  match responses !! index with
  | Some (Ok value) => s ← as_str value; trusted_parse_quantity s
  | _ => None
  end.

(** ** The isolate's shared state *)

Record Isolate : Type := {
  directory_urls : gmap Z (list string);
  validated_urls : gset (Z * string);
  missing_methods : MissingMethods;
  cooldowns : EndpointCooldowns;
  request_id : Z }.

Definition new_isolate : Isolate :=
  {| directory_urls := ∅; validated_urls := ∅; missing_methods := {| missing_until_ms := ∅ |};
     cooldowns := {| cooldown_until_ms := ∅ |}; request_id := 1 |}.

Definition put_cooldowns (s : Isolate) (c : EndpointCooldowns) : Isolate :=
  {| directory_urls := directory_urls s; validated_urls := validated_urls s;
     missing_methods := missing_methods s; cooldowns := c; request_id := request_id s |}.

(** One effect over the isolate, the network, the directory and the clock. *)
Definition isolate_step (network : Z → string → Value → Posted) (directory : Z → option (list string))
    (now : Z) (s : Isolate) (R : Type) (e : Wire R) : Isolate * R :=
  match e in Wire R return Isolate * R with
  | Now => (s, now)
  | NextRequestId count =>
      ({| directory_urls := directory_urls s; validated_urls := validated_urls s;
          missing_methods := missing_methods s; cooldowns := cooldowns s;
          request_id := wrapping 64 (request_id s + count) |}, request_id s)
  | IsValidated chain_id url => (s, bool_decide ((chain_id, url) ∈ validated_urls s))
  | MarkValidated chain_id url =>
      ({| directory_urls := directory_urls s; validated_urls := {[(chain_id, url)]} ∪ validated_urls s;
          missing_methods := missing_methods s; cooldowns := cooldowns s; request_id := request_id s |}, tt)
  | ClearCooldown chain_id url => (put_cooldowns s (RpcWalk.clear (cooldowns s) chain_id url), tt)
  | CoolEndpoint chain_id url now => (put_cooldowns s (RpcWalk.cool (cooldowns s) chain_id url now), tt)
  | Walkable chain_id urls now => (s, walkable (cooldowns s) chain_id urls now)
  | CachedDirectory chain_id => (s, directory_urls s !! chain_id)
  | CacheDirectory chain_id urls =>
      ({| directory_urls := <[chain_id := urls]> (directory_urls s); validated_urls := validated_urls s;
          missing_methods := missing_methods s; cooldowns := cooldowns s; request_id := request_id s |}, tt)
  | FallbackRpcUrls chain_id => (s, directory chain_id)
  | PostJson chain_id url payload => (s, network chain_id url payload)
  | LacksMethod chain_id method now => (s, lacks (missing_methods s) chain_id method now)
  | NoteMethodWalk chain_id method answers now =>
      ({| directory_urls := directory_urls s; validated_urls := validated_urls s;
          missing_methods := note_walk (missing_methods s) chain_id method answers now;
          cooldowns := cooldowns s; request_id := request_id s |}, tt)
  end.
