(* ===== verification/TrustedWalk.v ===== *)
(** * TrustedWalk: what a walk over the trusted endpoints may be relied on for

    A monitor records the endpoints known to serve the chain and everything
    that was posted; the theorems hold for every answer of every endpoint and
    of the state the isolate shares between walks. *)

From S2P Require Export Trusted.
#[local] Open Scope string_scope.
#[local] Open Scope list_scope.
#[local] Open Scope Z_scope.

(** ** The monitor *)

Record Post : Type := { p_chain : Z; p_url : string; p_payload : Value; p_posted : Posted }.
Record Watch : Type := { w_validated : list (Z * string); w_posts : list Post }.

Definition is_method (method : string) (payload : Value) : Prop :=
  get "method" payload = Some (VString method).
#[export] Instance is_method_dec method payload : Decision (is_method method payload).
Proof.
  unfold is_method. destruct (get "method" payload) as [[| | |s| |]|]; try (right; congruence).
  destruct (decide (s = method)); [left|right]; congruence.
Defined.

(** What a post was answered, as [request] reads it. *)
Definition post_response (posted : Posted) : result RpcError UpstreamResponse :=
  match posted with
  | Replied body => ok_or (body ≫= de_upstream_response) InvalidResponse
  | _ => Err Unavailable
  end.

Definition validates (chain_id : Z) (payload : Value) (posted : Posted) : Prop :=
  is_method "eth_chainId" payload ∧
  (r ← post_response posted; reported_chain r chain_id) = Ok tt.
#[export] Instance validates_dec chain_id payload posted : Decision (validates chain_id payload posted).
Proof.
  apply and_dec; [apply _|]. destruct (r ← post_response posted; reported_chain r chain_id) as [[]|].
  - by left.
  - right. congruence.
Defined.

Definition posted (g : Watch) (chain_id : Z) (url : string) (payload : Value) (answer : Posted) : Watch :=
  {| w_validated := if decide (validates chain_id payload answer)
                    then (chain_id, url) :: w_validated g else w_validated g;
     w_posts := w_posts g ++ [{| p_chain := chain_id; p_url := url; p_payload := payload;
                                 p_posted := answer |}] |}.

Definition watch (g : Watch) (R : Type) (e : Wire R) : R → Watch :=
  match e in Wire R return R → Watch with
  | IsValidated chain_id url => λ valid : bool,
      if valid then {| w_validated := (chain_id, url) :: w_validated g; w_posts := w_posts g |} else g
  | PostJson chain_id url payload => posted g chain_id url payload
  | _ => λ _, g
  end.

(** An endpoint is asked only what its chain is until it has reported it, and
    only such an endpoint is recorded as validated. *)
Definition checked (g : Watch) (R : Type) (e : Wire R) : Prop :=
  match e with
  | PostJson chain_id url payload =>
      is_method "eth_chainId" payload ∨ (chain_id, url) ∈ w_validated g
  | MarkValidated chain_id url => (chain_id, url) ∈ w_validated g
  | _ => True
  end.

Definition unwatched : Watch := {| w_validated := []; w_posts := [] |}.
Definition posts (t : list (Answered Wire)) : list Post := w_posts (observed_all watch unwatched t).

Abbreviation walks := (ensures checked watch).

(** ** Triples of the client's steps *)

(** Between two points of a walk only chain checks were posted. *)
Definition only_checks (g g' : Watch) : Prop :=
  (∀ x, x ∈ w_validated g → x ∈ w_validated g') ∧
  ∃ extra, w_posts g' = w_posts g ++ extra ∧ Forall (λ p, is_method "eth_chainId" (p_payload p)) extra.

Lemma only_checks_refl g : only_checks g g.
Proof. split; [done|]. exists []. by rewrite app_nil_r. Qed.

Section Steps.
Context `{HX : Hex}.
Variable client : TrustedRpcClient.

Lemma cool_walks chain_id url g Q : Q g tt → walks (cool client chain_id url) g Q.
Proof.
  intros HQ. unfold cool. destruct (existsb _ _); [done|].
  apply ensures_bind, ensures_perform. split; [done|]. intros now.
  apply ensures_perform. split; [done|]. by intros [].
Qed.

Lemma post_json_walks chain_id url payload g Q :
  checked g _ (PostJson chain_id url payload) →
  (∀ answer, Q (posted g chain_id url payload answer)
               (match answer with Replied body => Some body | _ => None end)) →
  walks (post_json client chain_id url payload) g Q.
Proof.
  intros Hc HQ. unfold post_json. apply ensures_bind, ensures_perform. split; [done|].
  intros answer. specialize (HQ answer). destruct answer; cbn [watch]; [|done..].
  apply ensures_bind, cool_walks. exact HQ.
Qed.

Lemma request_rpc_walks chain_id url method params g Q :
  (method = "eth_chainId" ∨ (chain_id, url) ∈ w_validated g) →
  (∀ id answer, Q (posted g chain_id url (envelope id method params) answer) (post_response answer)) →
  walks (request_rpc client chain_id url method params) g Q.
Proof.
  intros Hc HQ. unfold request_rpc. apply ensures_bind, ensures_perform. split; [done|]. intros id.
  apply ensures_bind, post_json_walks.
  - cbn. destruct Hc as [->|Hc]; [by left|by right].
  - intros answer. specialize (HQ id answer). by destruct answer.
Qed.

Lemma posted_only_checks g chain_id url id params answer :
  only_checks g (posted g chain_id url (envelope id "eth_chainId" params) answer).
Proof.
  split.
  - intros x Hx. cbn. destruct (decide _); [by right|done].
  - eexists. split; [reflexivity|]. by repeat constructor.
Qed.

Lemma validate_chain_walks chain_id url g Q :
  (∀ g' r, only_checks g g' → (r = Ok tt → (chain_id, url) ∈ w_validated g') → Q g' r) →
  walks (validate_chain client chain_id url) g Q.
Proof.
  intros HQ. unfold validate_chain. apply ensures_bind, ensures_perform. split; [done|].
  intros [|]; cbn [watch].
  - apply HQ; [|by left]. split; [by right|]. exists []. by rewrite app_nil_r.
  - unfold check_chain. apply ensures_bind. apply ensures_bind, request_rpc_walks; [by left|].
    intros id answer. set (g' := posted g _ _ _ _). assert (only_checks g g') as Hg by apply posted_only_checks.
    cbn [ensures mret io_mret]. destruct (r ← post_response answer; reported_chain r chain_id) as [[]|error] eqn:E.
    + assert ((chain_id, url) ∈ w_validated g') as Hv.
      { subst g'. cbn. rewrite decide_True; [by left|]. by split. }
      apply ensures_bind, ensures_bind, ensures_perform. split; [done|]. intros [].
      apply ensures_perform. split; [done|]. intros []. by apply HQ.
    + apply ensures_bind, cool_walks. by apply HQ.
Qed.

Lemma ask_endpoint_walks {S A} chain_id url method params (s : S) (reply : _ → S + A) g Q :
  (∀ g', only_checks g g' → Q g' (inl s)) →
  (∀ g' id answer, only_checks g g' → (chain_id, url) ∈ w_validated g' →
     Q (posted g' chain_id url (envelope id method params) answer) (reply (post_response answer))) →
  walks (ask_endpoint client chain_id url method params s reply) g Q.
Proof.
  intros H1 H2. unfold ask_endpoint. apply ensures_bind, validate_chain_walks. intros g' [[]|e] Hg Hv.
  - apply ensures_bind, request_rpc_walks; [right; by apply Hv|]. intros id answer. apply H2; auto.
  - by apply H1.
Qed.

Lemma urls_walks chain_id g Q : (∀ l, Q g l) → walks (urls client chain_id) g Q.
Proof.
  intros HQ. unfold urls. apply ensures_bind, ensures_perform. split; [done|]. intros [l|]; cbn [watch].
  - apply ensures_bind. apply HQ.
  - apply ensures_bind, ensures_bind, ensures_perform. split; [done|]. intros [l|]; cbn [watch]; [|apply HQ].
    apply ensures_bind, ensures_perform. split; [done|]. intros []. apply HQ.
Qed.

Lemma urls_or_error_walks chain_id g (Q : Watch → result RpcError (list string) → Prop) :
  (∀ r, Q g r) → walks (urls_or_error client chain_id) g Q.
Proof.
  intros HQ. unfold urls_or_error. apply ensures_bind, urls_walks. intros l.
  apply ensures_bind, ensures_perform. split; [done|]. intros now.
  apply ensures_bind, ensures_perform. split; [done|]. intros l'. apply HQ.
Qed.
End Steps.

(** ** Calls *)

(** An endpoint answered this call with this value. *)
Definition served (l : list Post) (chain_id : Z) (method : string) (params v : Value) : Prop :=
  ∃ p id r, p ∈ l ∧ p_chain p = chain_id ∧ p_payload p = envelope id method params ∧
    post_response (p_posted p) = Ok r ∧ into_result_and_error r = (Some v, None).

Lemma served_posted g chain_id url method params id answer r v :
  post_response answer = Ok r → into_result_and_error r = (Some v, None) →
  served (w_posts (posted g chain_id url (envelope id method params) answer)) chain_id method params v.
Proof.
  intros Hr Hv. eexists _, id, r. split; [apply elem_of_app; right; by left|]. done.
Qed.

Section Calls.
Context `{HX : Hex}.
Variable client : TrustedRpcClient.

Lemma call_walks chain_id method params g :
  walks (call client chain_id method params) g
    (λ g' r, ∀ v, r = Ok v → served (w_posts g') chain_id method params v).
Proof.
  unfold call, call_walk. apply ensures_bind, ensures_bind, urls_or_error_walks. intros [urls|error]; [|done].
  apply ensures_for with (J := λ _ _ _, True); [done| |done].
  intros url rest g1 answers _. apply ask_endpoint_walks; [done|]. intros g2 id answer Hg Hv.
  destruct (post_response answer) as [r|] eqn:Er; [|done].
  destruct (into_result_and_error r) as [[v|] [e|]] eqn:Ei; try done.
  intros v' [= <-]. by eapply served_posted.
Qed.

Lemma simulate_walks chain_id method params g :
  walks (simulate client chain_id method params) g
    (λ g' r, ∀ v, r = Ok v → served (w_posts g') chain_id method params v).
Proof.
  unfold simulate. apply ensures_bind, urls_or_error_walks. intros [urls|error]; [|done].
  apply ensures_for with (J := λ _ _ _, True); [done| |done].
  intros url rest g1 [] _. apply ask_endpoint_walks; [done|]. intros g2 id answer Hg Hv.
  destruct (post_response answer) as [r|] eqn:Er; [|done].
  destruct (into_result_and_error r) as [[v|] [e|]] eqn:Ei; try done.
  - intros v' [= <-]. by eapply served_posted.
  - by destruct (is_execution_revert e).
Qed.
End Calls.

(** ** Broadcasts *)

Definition is_send (p : Post) : bool :=
  match get "method" (p_payload p) with
  | Some (VString method) => String.eqb method "eth_sendRawTransaction"
  | _ => false
  end.
Definition sends (l : list Post) : list Post := List.filter is_send l.

Definition ambiguous_of (p : Post) : option string :=
  match broadcast_answer (post_response (p_posted p)) with BroadcastAmbiguous d => Some d | _ => None end.
Definition rejected_of (p : Post) : option string :=
  match broadcast_answer (post_response (p_posted p)) with BroadcastRejected d => Some d | _ => None end.

Lemma sends_only_checks g g' : only_checks g g' → sends (w_posts g') = sends (w_posts g).
Proof.
  intros (_ & extra & -> & Hx). unfold sends. rewrite List.filter_app.
  replace (List.filter is_send extra) with (@nil Post); [by rewrite app_nil_r|].
  induction Hx as [|p extra Hp Hx IH]; [done|]. cbn. unfold is_method in Hp. unfold is_send at 1. by rewrite Hp.
Qed.

Section Broadcast.
Context `{HX : Hex}.
Variable client : TrustedRpcClient.

Definition raw_params (raw : list byte) : Value := VArray [VString ("0x" +:+ hex_encode raw)].

(** What the diagnostics of a broadcast are made of. *)
Definition tallied (l : list Post) (diagnostics : list string * list string) : Prop :=
  diagnostics = (omap ambiguous_of (sends l), omap rejected_of (sends l)) ∧
  Forall (λ p, is_Some (ambiguous_of p) ∨ is_Some (rejected_of p)) (sends l).

Lemma tallied_posted g chain_id url id raw answer a r :
  tallied (w_posts g) (a, r) →
  let p := {| p_chain := chain_id; p_url := url;
              p_payload := envelope id "eth_sendRawTransaction" (raw_params raw); p_posted := answer |} in
  is_Some (ambiguous_of p) ∨ is_Some (rejected_of p) →
  tallied (w_posts (posted g chain_id url (p_payload p) answer))
    (a ++ option_list (ambiguous_of p), r ++ option_list (rejected_of p)).
Proof.
  intros [[= -> ->] Hall] p Hp. unfold tallied. cbn [posted w_posts p_payload p].
  unfold sends in *. rewrite List.filter_app. cbn. fold p. rewrite !omap_app. cbn.
  split; [|apply Forall_app; split; [done|by constructor]].
  by destruct (ambiguous_of p), (rejected_of p).
Qed.

(** Every send of the walk carries the raw transaction. *)
Definition sends_raw (raw : list byte) (l : list Post) : Prop :=
  Forall (λ p, ∃ id, p_payload p = envelope id "eth_sendRawTransaction" (raw_params raw)) (sends l).

Definition broadcast_verdict (l : list Post) (outcome : BroadcastOutcome) : Prop :=
  match outcome with
  | BroadcastAccepted hash =>
      ∃ p, p ∈ sends l ∧ broadcast_answer (post_response (p_posted p)) = BroadcastAccepted hash
  | BroadcastAmbiguous _ => Forall (λ p, is_Some (ambiguous_of p) ∨ is_Some (rejected_of p)) (sends l)
  | BroadcastRejected _ => sends l ≠ [] ∧ Forall (λ p, is_Some (rejected_of p)) (sends l)
  end.

Lemma finish_broadcast_verdict l diagnostics :
  tallied l diagnostics → broadcast_verdict l (finish_broadcast diagnostics).
Proof.
  intros [-> Hall]. unfold finish_broadcast. case_decide as Hd; [done|].
  assert (omap ambiguous_of (sends l) = []) as Ha.
  { destruct (omap ambiguous_of (sends l)); [done|]. destruct Hd. by left. }
  cbn. split.
  - intros E. destruct Hd. right. by rewrite E.
  - apply Forall_forall. intros p Hp. rewrite Forall_forall in Hall.
    destruct (Hall p Hp) as [[d Ed]|]; [|done].
    assert (d ∈ omap ambiguous_of (sends l)) as Hin by (apply list_elem_of_omap; eauto).
    rewrite Ha in Hin. by apply elem_of_nil in Hin.
Qed.

Lemma broadcast_walks chain_id raw g :
  sends (w_posts g) = [] →
  walks (broadcast_raw_transaction client chain_id raw) g
    (λ g' r, sends_raw raw (w_posts g') ∧ ∀ outcome, r = Ok outcome → broadcast_verdict (w_posts g') outcome).
Proof.
  intros H0. unfold broadcast_raw_transaction. apply ensures_bind, urls_or_error_walks.
  intros [urls|error]; [|by split; [unfold sends_raw; rewrite H0|]].
  apply ensures_for with (J := λ _ g d, sends_raw raw (w_posts g) ∧ tallied (w_posts g) d).
  - unfold sends_raw, tallied. rewrite H0. by repeat split.
  - intros url rest g1 [a r] [Hraw Ht]. apply ask_endpoint_walks.
    + intros g2 Hg. unfold sends_raw, tallied. by rewrite (sends_only_checks _ _ Hg).
    + intros g2 id answer Hg Hv.
      assert (sends_raw raw (w_posts g2) ∧ tallied (w_posts g2) (a, r)) as [Hraw2 Ht2]
        by (unfold sends_raw, tallied; by rewrite (sends_only_checks _ _ Hg)).
      pose proof (tallied_posted g2 chain_id url id raw answer a r Ht2) as Htally.
      assert (sends_raw raw (w_posts (posted g2 chain_id url
                (envelope id "eth_sendRawTransaction" (raw_params raw)) answer))) as Hraw'.
      { unfold sends_raw, sends in *. cbn [posted w_posts]. rewrite List.filter_app. cbn.
        apply Forall_app. split; [done|]. repeat constructor. by exists id. }
      revert Htally. unfold ambiguous_of, rejected_of. cbn [p_posted p_payload option_list].
      destruct (broadcast_answer (post_response answer)) as [hash|d|d] eqn:Ea; intros Htally.
      * split; [done|]. intros outcome [= <-]. cbn [broadcast_verdict posted w_posts]. unfold sends.
        eexists. rewrite List.filter_app, elem_of_app. split; [right; cbn; by left|done].
      * split; [done|]. rewrite app_nil_r in Htally. by apply Htally; left.
      * split; [done|]. rewrite app_nil_r in Htally. by apply Htally; right.
  - intros g1 d [Hraw Ht]. split; [done|]. intros outcome [= <-]. by apply finish_broadcast_verdict.
Qed.
End Broadcast.

(** ** Batches: collecting one endpoint's replies *)

Definition collected (first_id : Z) (unresolved : list nat) (replies : list UpstreamResponse) (k : nat)
    (acc : gmap nat UpstreamResponse * list nat) : Prop :=
  match List.filter (λ r, bool_decide (reply_index first_id unresolved r = Some k)) replies with
  | [] => acc.1 !! k = None ∧ k ∉ acc.2
  | [r] => acc.1 !! k = Some r ∧ k ∉ acc.2
  | _ => is_Some (acc.1 !! k) ∧ k ∈ acc.2
  end.

Lemma collect_replies_spec first_id unresolved replies k :
  collected first_id unresolved replies k (collect_replies first_id unresolved replies).
Proof.
  unfold collected, collect_replies. induction replies as [|r replies IH] using rev_ind.
  { split; [apply lookup_empty|apply not_elem_of_nil]. }
  rewrite foldl_app, List.filter_app. cbn [foldl List.filter].
  set (acc := foldl _ _ replies) in *. unfold collect_reply.
  destruct (reply_index first_id unresolved r) as [j|] eqn:Ej;
    [|rewrite bool_decide_eq_false_2 by done; by rewrite app_nil_r].
  destruct (decide (j = k)) as [->|Hne].
  - rewrite bool_decide_eq_true_2 by done. cbn [fst snd]. rewrite lookup_insert_eq.
    destruct (List.filter _ replies) as [|r1 [|r2 rs]]; cbn [app].
    + destruct IH as [IH1 IH2]. rewrite decide_False; [done|]. rewrite IH1. by intros [? ?].
    + destruct IH as [IH1 IH2]. rewrite decide_True; [|by rewrite IH1]. split; [done|by left].
    + destruct IH as [IH1 IH2]. rewrite decide_True by done. split; [done|by right].
  - rewrite bool_decide_eq_false_2 by congruence. rewrite app_nil_r. cbn [fst snd].
    rewrite lookup_insert_ne by done.
    assert (∀ l : list nat, k ∈ (if decide (is_Some (acc.1 !! j)) then j :: l else l) ↔ k ∈ l) as Hk.
    { intros l. case_decide; [|done]. rewrite elem_of_cons. naive_solver. }
    destruct (List.filter _ replies) as [|r1 [|r2 rs]]; by rewrite Hk.
Qed.

(** The one reply of an endpoint that names the item, if there is just one. *)
Lemma collected_one first_id unresolved replies k r :
  let acc := collect_replies first_id unresolved replies in
  acc.1 !! k = Some r → k ∉ acc.2 →
  List.filter (λ r, bool_decide (reply_index first_id unresolved r = Some k)) replies = [r].
Proof.
  intros acc Hr Hk. pose proof (collect_replies_spec first_id unresolved replies k) as Hc.
  unfold collected in Hc. fold acc in Hc. rewrite Hr in Hc.
  destruct (List.filter _ replies) as [|r1 [|r2 rs]]; naive_solver.
Qed.

Section Items.
Variables (by_index : gmap nat UpstreamResponse) (duplicates : list nat).
#[local] Abbreviation walk_items := (foldl (settle_item by_index duplicates)).

Lemma settle_item_length w k : length (bw_results (settle_item by_index duplicates w k)) = length (bw_results w).
Proof. unfold settle_item. repeat case_match; cbn; rewrite ?length_insert; done. Qed.

Lemma walk_items_length items w : length (bw_results (walk_items w items)) = length (bw_results w).
Proof.
  revert w. induction items as [|i items IH]; intros w; [done|]. cbn.
  by rewrite IH, settle_item_length.
Qed.

Lemma walk_items_saw items w : bw_saw_response (walk_items w items) = bw_saw_response w.
Proof.
  revert w. induction items as [|i items IH]; intros w; [done|]. cbn.
  rewrite IH. unfold settle_item. by repeat case_match.
Qed.

Definition item_answer (k : nat) : option (result RpcError Value) :=
  if decide (k ∈ duplicates) then None else by_index !! k ≫= definitive_batch_result.

(** One item: settled when its answer is definitive, to be retried otherwise. *)
Lemma settle_item_spec w i :
  settle_item by_index duplicates w i =
  {| bw_results := match item_answer i with Some r => <[i := Some r]> (bw_results w) | None => bw_results w end;
     bw_unresolved := match item_answer i with Some _ => bw_unresolved w | None => bw_unresolved w ++ [i] end;
     bw_saw_response := bw_saw_response w;
     bw_answers := bw_answers (settle_item by_index duplicates w i) |}.
Proof.
  unfold settle_item, item_answer. case_decide; [done|].
  destruct (by_index !! i) as [r|]; [|done]. cbn [mbind option_bind].
  destruct (definitive_batch_result r); reflexivity.
Qed.

Lemma walk_items_results items w k res :
  bw_results (walk_items w items) !! k = Some (Some res) →
  bw_results w !! k = Some (Some res) ∨ (k ∈ items ∧ item_answer k = Some res).
Proof.
  revert w. induction items as [|i items IH]; intros w; [by left|]. cbn. intros Hk.
  destruct (IH _ Hk) as [Hw|[Hin Ha]]; [|right; split; [by right|done]].
  rewrite settle_item_spec in Hw. cbn in Hw.
  destruct (item_answer i) as [r|] eqn:Ei; [|by left].
  destruct (decide (i = k)) as [->|Hne].
  - assert (k < length (bw_results w))%nat.
    { apply lookup_lt_Some in Hw. by rewrite length_insert in Hw. }
    rewrite list_lookup_insert_eq in Hw by done. injection Hw as ->. right. split; [by left|done].
  - left. by rewrite list_lookup_insert_ne in Hw.
Qed.

Lemma walk_items_settled items w k res :
  bw_results w !! k = Some (Some res) → ∃ res', bw_results (walk_items w items) !! k = Some (Some res').
Proof.
  revert w res. induction items as [|i items IH]; intros w res Hk; [eauto|]. cbn.
  assert (∃ res', bw_results (settle_item by_index duplicates w i) !! k = Some (Some res')) as [res' Hk'].
  { rewrite settle_item_spec. cbn. destruct (item_answer i); [|eauto].
    destruct (decide (i = k)) as [->|]; [|rewrite list_lookup_insert_ne by done; eauto].
    rewrite list_lookup_insert_eq by (by eapply lookup_lt_Some). eauto. }
  by eapply IH.
Qed.

Lemma walk_items_unresolved items w k :
  k ∈ bw_unresolved (walk_items w items) ↔ k ∈ bw_unresolved w ∨ (k ∈ items ∧ item_answer k = None).
Proof.
  revert w. induction items as [|i items IH]; intros w; cbn.
  { rewrite elem_of_nil. naive_solver. }
  rewrite IH, settle_item_spec. cbn. rewrite elem_of_cons.
  destruct (item_answer i) as [r|] eqn:Ei; [|rewrite elem_of_app, list_elem_of_singleton].
  - split; [naive_solver|]. intros [H|[H H']]; [naive_solver|]. destruct H as [->|H]; [congruence|naive_solver].
  - split; [|naive_solver]. intros [H|H]; [destruct H as [H| ->]|]; naive_solver.
Qed.

Lemma walk_items_done items w k :
  (k < length (bw_results w))%nat → k ∈ items → item_answer k ≠ None →
  ∃ res, bw_results (walk_items w items) !! k = Some (Some res).
Proof.
  revert w. induction items as [|i items IH]; intros w Hl Hk Ha; [by apply elem_of_nil in Hk|]. cbn.
  apply elem_of_cons in Hk as [<-|Hk].
  - destruct (item_answer k) as [r|] eqn:Er; [|done].
    eapply walk_items_settled with (res := r). rewrite settle_item_spec. cbn. rewrite Er.
    by apply list_lookup_insert_eq.
  - apply IH; [by rewrite settle_item_length|done|done].
Qed.
End Items.

(** ** Batches: the walk *)

(** Some endpoint was asked the [k]-th call under its own id, and the one
    reply it gave to that id settles the call as [res]. *)
Definition carried (l : list Post) (chain_id first_id : Z) (calls : list RpcBatchCall) (k : nat)
    (res : result RpcError Value) : Prop :=
  ∃ p unresolved body replies r,
    p ∈ l ∧ p_chain p = chain_id ∧ p_payload p = batch_payload first_id calls unresolved ∧
    k ∈ unresolved ∧ p_posted p = Replied body ∧ read_replies body (length unresolved) = Some replies ∧
    List.filter (λ r, bool_decide (ur_id r = first_id + Z.of_nat k)) replies = [r] ∧
    definitive_batch_result r = Some res.

Lemma reply_index_names first_id unresolved r k :
  k ∈ unresolved → reply_index first_id unresolved r = Some k ↔ ur_id r = first_id + Z.of_nat k.
Proof.
  intros Hk. unfold reply_index. split.
  - repeat case_decide; intros E; simplify_eq. lia.
  - intros ->. rewrite decide_True by lia. replace (Z.to_nat _) with k by lia. by rewrite decide_True.
Qed.

Lemma item_answer_carried first_id unresolved replies k res :
  let acc := collect_replies first_id unresolved replies in
  k ∈ unresolved → item_answer acc.1 acc.2 k = Some res →
  ∃ r, List.filter (λ r, bool_decide (ur_id r = first_id + Z.of_nat k)) replies = [r] ∧
       definitive_batch_result r = Some res.
Proof.
  intros acc Hk. unfold item_answer. case_decide as Hd; [done|]. intros Hr.
  apply bind_Some in Hr as (r & Hr & Hres). exists r. split; [|done].
  rewrite <-(collected_one first_id unresolved replies k r Hr Hd). apply List.filter_ext. intros r'.
  apply bool_decide_ext. by rewrite reply_index_names.
Qed.

(** The state of a walk over [n] calls. *)
Record batch_invariant (chain_id first_id : Z) (calls : list RpcBatchCall) (g : Watch) (w : BatchWalk) : Prop := {
  bi_length : length (bw_results w) = length calls;
  bi_unresolved : Forall (λ k, k < length calls)%nat (bw_unresolved w);
  bi_carried k res : bw_results w !! k = Some (Some res) → carried (w_posts g) chain_id first_id calls k res;
  bi_open k : (k < length calls)%nat → k ∈ bw_unresolved w ∨ ∃ res, bw_results w !! k = Some (Some res) }.

Lemma carried_mono l l' chain_id first_id calls k res :
  (∀ p, p ∈ l → p ∈ l') → carried l chain_id first_id calls k res → carried l' chain_id first_id calls k res.
Proof. unfold carried. naive_solver. Qed.

Lemma batch_invariant_mono chain_id first_id calls g g' w :
  (∀ p, p ∈ w_posts g → p ∈ w_posts g') → batch_invariant chain_id first_id calls g w →
  batch_invariant chain_id first_id calls g' w.
Proof. intros Hg []. constructor; try done. eauto using carried_mono. Qed.

Lemma posted_mono g chain_id url payload answer p :
  p ∈ w_posts g → p ∈ w_posts (posted g chain_id url payload answer).
Proof. intros Hp. apply elem_of_app. by left. Qed.

Lemma only_checks_mono g g' p : only_checks g g' → p ∈ w_posts g → p ∈ w_posts g'.
Proof. intros (_ & extra & -> & _) Hp. apply elem_of_app. by left. Qed.

Lemma settle_replies_invariant chain_id first_id calls g w url body replies :
  batch_invariant chain_id first_id calls g w →
  read_replies body (length (bw_unresolved w)) = Some replies →
  let g' := posted g chain_id url (batch_payload first_id calls (bw_unresolved w)) (Replied body) in
  batch_invariant chain_id first_id calls g' (settle_replies first_id w replies) ∧
  bw_saw_response (settle_replies first_id w replies) = true.
Proof.
  intros [Hl Hu Hc Ho] Hr g'. unfold settle_replies.
  pose proof (item_answer_carried first_id (bw_unresolved w) replies) as Hitem.
  destruct (collect_replies first_id (bw_unresolved w) replies) as [by_index duplicates]. cbn [fst snd] in Hitem.
  set (w0 := {| bw_results := bw_results w; bw_unresolved := []; bw_saw_response := true;
                bw_answers := bw_answers w |}).
  split; [|by rewrite walk_items_saw]. constructor.
  - by rewrite walk_items_length.
  - apply Forall_forall. intros k Hk. apply walk_items_unresolved in Hk as [Hk|[Hk _]].
    + by apply elem_of_nil in Hk.
    + by eapply Forall_forall in Hu.
  - intros k res Hk. apply walk_items_results in Hk as [Hk|[Hk Ha]].
    + eapply carried_mono; [intros p; apply posted_mono|]. by apply Hc.
    + destruct (Hitem k res Hk Ha) as (r & Hf & Hd).
      eexists _, (bw_unresolved w), body, replies, r. split; [apply elem_of_app; right; by left|]. done.
  - intros k Hk. destruct (item_answer by_index duplicates k) eqn:Ea.
    + right. destruct (Ho k Hk) as [Hin|[res Hres]].
      * apply walk_items_done; [cbn; lia|done|congruence].
      * by apply walk_items_settled with (res := res).
    + destruct (Ho k Hk) as [Hin|[res Hres]].
      * left. apply walk_items_unresolved. by right.
      * right. by apply walk_items_settled with (res := res).
Qed.

(** The loop that marks what no endpoint settled. *)
Lemma mark_invalid_lookup (items : list nat) (results : list (option (result RpcError Value))) k :
  foldl (λ results index, <[index := Some (Err InvalidResponse)]> results) results items !! k =
  if decide (k ∈ items) then (λ _, Some (Err InvalidResponse)) <$> results !! k else results !! k.
Proof.
  revert results. induction items as [|i items IH]; intros results; cbn.
  { by rewrite decide_False by apply not_elem_of_nil. }
  rewrite IH. destruct (decide (i = k)) as [->|Hne].
  - rewrite (decide_True (P := k ∈ k :: items)) by (by left).
    destruct (results !! k) as [x|] eqn:Ex.
    + rewrite list_lookup_insert_eq by (by eapply lookup_lt_Some). by case_decide.
    + rewrite list_insert_ge by (by apply lookup_ge_None). rewrite Ex. by case_decide.
  - rewrite list_lookup_insert_ne by done.
    destruct (decide (k ∈ items)); [rewrite decide_True by (by right); done|].
    rewrite decide_False; [done|]. rewrite elem_of_cons. naive_solver.
Qed.

Lemma mark_invalid_length (items : list nat) (results : list (option (result RpcError Value))) :
  length (foldl (λ results index, <[index := Some (Err InvalidResponse)]> results) results items) =
  length results.
Proof.
  revert results. induction items as [|i items IH]; intros results; [done|]. cbn.
  by rewrite IH, length_insert.
Qed.

Lemma omap_id_lookup {A} (l : list (option A)) k :
  Forall (λ x, is_Some x) l → omap id l !! k = mjoin (l !! k) ∧ length (omap id l) = length l.
Proof.
  intros Hl. revert k. induction Hl as [|x l [a ->] Hl IH]; intros k; [done|].
  cbn. destruct k; [split; [done|]|split; [apply IH|]]; f_equal; apply (IH 0%nat).
Qed.

(** Every call of a batch gets an answer: its own or [InvalidResponse]. *)
Lemma finish_batch_answers chain_id first_id calls g w results :
  batch_invariant chain_id first_id calls g w → (finish_batch w).1 = Ok results →
  length results = length calls ∧
  ∀ k res, results !! k = Some res → res = Err InvalidResponse ∨ carried (w_posts g) chain_id first_id calls k res.
Proof.
  intros [Hl Hu Hc Ho]. unfold finish_batch. cbn. destruct (bw_saw_response w); [|done]. intros [= <-].
  set (all := foldl _ _ _).
  assert (∀ k, all !! k = if decide (k ∈ bw_unresolved w)
                          then (λ _, Some (Err InvalidResponse)) <$> bw_results w !! k
                          else bw_results w !! k) as Hall by (intros k; apply mark_invalid_lookup).
  assert (length all = length calls) as Hlen.
  { rewrite <-Hl. apply mark_invalid_length. }
  assert (Forall (λ x, is_Some x) all) as Hsome.
  { apply Forall_lookup. intros k x Hx. rewrite Hall in Hx. case_decide as Hd.
    - apply fmap_Some in Hx as (? & _ & ->). by eexists.
    - assert (k < length calls)%nat as Hk by (apply lookup_lt_Some in Hx; lia).
      destruct (Ho k Hk) as [|[res Hres]]; [done|]. exists res. congruence. }
  split; [by rewrite (proj2 (omap_id_lookup all 0 Hsome))|].
  intros k res. rewrite (proj1 (omap_id_lookup all k Hsome)), Hall. case_decide.
  - destruct (bw_results w !! k) as [x|]; cbn; [|done]. intros [= <-]. by left.
  - destruct (bw_results w !! k) as [x|] eqn:Ex; cbn; [|done]. intros ->. right. by apply Hc.
Qed.

Section Batch.
Context `{HX : Hex}.
Variable client : TrustedRpcClient.

Definition batch_answered (l : list Post) (chain_id : Z) (calls : list RpcBatchCall)
    (results : list (result RpcError Value)) : Prop :=
  length results = length calls ∧
  ∃ first_id, ∀ k res, results !! k = Some res →
    res = Err InvalidResponse ∨ carried l chain_id first_id calls k res.

Lemma initial_batch chain_id first_id calls g :
  batch_invariant chain_id first_id calls g
    {| bw_results := replicate (length calls) None; bw_unresolved := seq 0 (length calls);
       bw_saw_response := false; bw_answers := [] |}.
Proof.
  constructor; cbn.
  - apply length_replicate.
  - apply Forall_forall. intros k Hk%elem_of_seq. lia.
  - intros k res Hk. by apply lookup_replicate in Hk as [[=] _].
  - intros k Hk. left. apply elem_of_seq. lia.
Qed.

Lemma batch_walks chain_id calls g :
  walks (batch client chain_id calls) g
    (λ g' r, ∀ results, r = Ok results → batch_answered (w_posts g') chain_id calls results).
Proof.
  unfold batch, batch_walk. apply ensures_bind. case_decide as Hn.
  { intros results [= <-]. subst. split; [done|]. exists 0. intros k res. by rewrite lookup_nil. }
  apply ensures_bind, urls_or_error_walks. intros [urls|error]; [|done].
  apply ensures_bind, ensures_perform. split; [done|]. intros first_id.
  apply ensures_for with (J := λ _ g w, batch_invariant chain_id first_id calls g w).
  - apply initial_batch.
  - intros url rest g1 w Hw. unfold batch_endpoint. apply ensures_bind, validate_chain_walks.
    intros g2 [[]|e] Hg Hv; [|by eapply batch_invariant_mono; [intros p; by eapply only_checks_mono|]].
    assert (batch_invariant chain_id first_id calls g2 w) as Hw2
      by (eapply batch_invariant_mono; [intros p; by eapply only_checks_mono|done]).
    apply ensures_bind, post_json_walks; [right; by apply Hv|]. intros answer.
    assert (batch_invariant chain_id first_id calls
              (posted g2 chain_id url (batch_payload first_id calls (bw_unresolved w)) answer) w) as Hw3
      by (eapply batch_invariant_mono; [intros p; apply posted_mono|done]).
    destruct answer as [| |body]; [exact Hw3..|]. cbn [mbind option_bind ensures mret io_mret].
    destruct (read_replies body (length (bw_unresolved w))) as [replies|] eqn:Er; [|exact Hw3].
    destruct (settle_replies_invariant chain_id first_id calls g2 w url body replies Hw2 Er) as [Hs _].
    case_decide; [|exact Hs]. intros results Hres.
    destruct (finish_batch_answers _ _ _ _ _ _ Hs Hres). split; [done|]. by exists first_id.
  - intros g1 w Hw results Hres.
    destruct (finish_batch_answers _ _ _ _ _ _ Hw Hres). split; [done|]. by exists first_id.
Qed.
End Batch.

(** ** Claims *)

Section Claims.
Context `{HX : Hex}.
Variable client : TrustedRpcClient.

(** The transport's four requests. *)
Inductive TrustedRequest : Type :=
  | TrustedCall (method : string) (params : Value)
  | TrustedSimulate (method : string) (params : Value)
  | TrustedBatch (calls : list RpcBatchCall)
  | TrustedBroadcast (raw : list byte).

(** The effects a request makes, its answer aside. *)
Definition make_request (chain_id : Z) (request : TrustedRequest) : io Wire () :=
  match request with
  | TrustedCall method params => _ ← call client chain_id method params; mret tt
  | TrustedSimulate method params => _ ← simulate client chain_id method params; mret tt
  | TrustedBatch calls => _ ← batch client chain_id calls; mret tt
  | TrustedBroadcast raw => _ ← broadcast_raw_transaction client chain_id raw; mret tt
  end.

Lemma make_request_walks chain_id request : walks (make_request chain_id request) unwatched (λ _ _, True).
Proof.
  destruct request; apply ensures_bind; eapply ensures_mono.
  1: apply call_walks. 2: apply simulate_walks. 3: apply batch_walks. 4: by apply broadcast_walks.
  all: done.
Qed.

(** C28: Only endpoints that serve the chain are asked.  In every run of a
    call, a simulation, a batch or a broadcast, whatever the endpoints answer,
    an endpoint is posted nothing but the question for its chain id until it
    has answered with this chain's id (or was found validated by an earlier
    walk), and only such an endpoint is recorded as validated. *)
Theorem only_checked_endpoints_are_asked chain_id request t :
  io_runs (make_request chain_id request) t tt → accepted checked watch unwatched t.
Proof.
  intros Hr. exact (proj1 (ensures_runs _ _ _ _ _ _ _ (make_request_walks chain_id request) Hr)).
Qed.

(** C26: The answers of a batch are those of its calls.  When a batch settles
    with results there is one for each call, in order, and each is either
    [InvalidResponse] or the reading of the one reply that an endpoint, asked
    that call under its own id, gave to that id: no reply settles another
    call, and two replies to one id settle none. *)
Theorem batch_answers_are_its_own chain_id calls t results :
  io_runs (batch client chain_id calls) t (Ok results) →
  length results = length calls ∧
  ∃ first_id, ∀ k res, results !! k = Some res →
    res = Err InvalidResponse ∨ carried (posts t) chain_id first_id calls k res.
Proof.
  intros Hr. destruct (ensures_runs _ _ _ unwatched _ _ _ (batch_walks client chain_id calls unwatched) Hr)
    as [_ Hq]. by apply Hq.
Qed.

(** C27: A broadcast is called rejected only unanimously.  It is accepted
    under a hash an endpoint returned for it; it is rejected only when an
    endpoint was asked and every endpoint asked gave a definitive rejection,
    so one ambiguous or unreadable answer keeps it ambiguous; and whatever is
    sent is exactly the raw transaction. *)
Theorem broadcast_rejected_unanimously chain_id raw t outcome :
  io_runs (broadcast_raw_transaction client chain_id raw) t (Ok outcome) →
  sends_raw raw (posts t) ∧ broadcast_verdict (posts t) outcome.
Proof.
  intros Hr.
  destruct (ensures_runs _ _ _ unwatched _ _ _ (broadcast_walks client chain_id raw unwatched eq_refl) Hr)
    as [_ [Hs Hq]]. split; [done|]. by apply Hq.
Qed.
End Claims.

(** ** A concrete walk

    Two endpoints: the first reports another chain; the second answers a
    batch out of order and one of its calls twice. *)

Definition reply (id : Z) (field : string) (v : Value) : Value := VObject [("id", VNumber id); (field, v)].

Definition sample_network (chain_id : Z) (url : string) (payload : Value) : Posted :=
  match payload with
  | VArray _ => Replied (Some (VArray
      [reply 2 "result" (VString "0x2"); reply 1 "result" (VString "0x1"); reply 3 "result" VNull;
       reply 3 "result" (VString "0x3")]))
  | _ =>
      match get "method" payload with
      | Some (VString "eth_chainId") =>
          Replied (Some (reply 1 "result" (VString (if String.eqb url "https://a" then "0x2" else "0x1"))))
      | _ => Replied (Some (reply 1 "error" (VObject [("message", VString "insufficient funds")])))
      end
  end.

Definition sample_client : TrustedRpcClient := {| explicit_urls := ∅; alchemy_api_key := None |}.
Definition sample_directory (chain_id : Z) : option (list string) := Some ["https://a"; "https://b"].
Definition sample_calls : list RpcBatchCall :=
  map (λ m, {| bc_method := m; bc_params := VArray [] |}) ["eth_gasPrice"; "eth_blockNumber"; "eth_syncing"].

Definition sample_batch : Isolate * (list (Answered Wire) * result RpcError (list (result RpcError Value))) :=
  io_execute (isolate_step sample_network sample_directory 0) new_isolate (batch sample_client 1 sample_calls).
Definition sample_broadcast : Isolate * (list (Answered Wire) * result RpcError BroadcastOutcome) :=
  io_execute (isolate_step sample_network sample_directory 0) new_isolate
    (@broadcast_raw_transaction ref_hex sample_client 1 [x02]).

Lemma only_checked_endpoints_are_asked_witness :
  accepted checked watch unwatched
    (io_execute (isolate_step sample_network sample_directory 0) new_isolate
       (@make_request ref_hex sample_client 1 (TrustedBroadcast [x02]))).2.1.
Proof.
  apply (@only_checked_endpoints_are_asked ref_hex sample_client 1 (TrustedBroadcast [x02])).
  exact (io_execute_runs (isolate_step sample_network sample_directory 0) new_isolate
           (@make_request ref_hex sample_client 1 (TrustedBroadcast [x02]))).
Defined.

Lemma batch_answers_are_its_own_witness :
  sample_batch.2.2 = Ok [Ok (VString "0x1"); Ok (VString "0x2"); Err InvalidResponse] ∧
  ∃ first_id, carried (posts sample_batch.2.1) 1 first_id sample_calls 1 (Ok (VString "0x2")).
Proof.
  assert (sample_batch.2.2 = Ok [Ok (VString "0x1"); Ok (VString "0x2"); Err InvalidResponse]) as E
    by (vm_compute; reflexivity).
  split; [exact E|].
  pose proof (io_execute_runs (isolate_step sample_network sample_directory 0) new_isolate
                (batch sample_client 1 sample_calls)) as Hr.
  fold sample_batch in Hr. rewrite E in Hr.
  destruct (batch_answers_are_its_own sample_client 1 sample_calls _ _ Hr) as [_ (first_id & Hk)].
  exists first_id. destruct (Hk 1%nat (Ok (VString "0x2")) eq_refl) as [[=]|H]. exact H.
Defined.

Lemma broadcast_rejected_unanimously_witness :
  sample_broadcast.2.2 = Ok (BroadcastRejected "RPC code unknown: insufficient funds") ∧
  length (sends (posts sample_broadcast.2.1)) = 1%nat ∧
  broadcast_verdict (posts sample_broadcast.2.1) (BroadcastRejected "RPC code unknown: insufficient funds").
Proof.
  assert (sample_broadcast.2.2 = Ok (BroadcastRejected "RPC code unknown: insufficient funds")) as E
    by (vm_compute; reflexivity).
  split; [exact E|]. split; [vm_compute; reflexivity|].
  pose proof (io_execute_runs (isolate_step sample_network sample_directory 0) new_isolate
                (@broadcast_raw_transaction ref_hex sample_client 1 [x02])) as Hr.
  fold sample_broadcast in Hr. rewrite E in Hr.
  exact (proj2 (@broadcast_rejected_unanimously ref_hex sample_client 1 [x02] _ _ Hr)).
Defined.
