(* ===== verification/Prepared.v ===== *)
(** * Prepared: structural validation of a submitted UserOperation
    ([vela-relay-core/src/admission.rs], [PreparedUserOperation] and its
    field parsers)

    A [[u8; N]] is a byte list; the hash an admission names an operation by
    is proved equal to the one the executor computes from its own packing
    ([Abi.user_operation_hash]). *)

From S2P Require Export Abi Broadcast.
#[local] Open Scope string_scope.
#[local] Open Scope Z_scope.

(** ** Field parsers *)

Definition SUPPORTED_ENTRY_POINTS : list string := ["0x0000000071727De22E5E9d8BAf0edAc6f37da032"].

Definition entry_point_is_supported (entry_point : string) : bool :=
  existsb (λ supported, eq_ignore_ascii_case supported entry_point) SUPPORTED_ENTRY_POINTS.

Definition ZERO_GAS_FEE : Z := 0.

Section Prepared.
Context `{HX : Hex} `{HK : Keccak}.

Definition parse_raw_address (value : string) : result () (list byte) :=
  value ← ok_or (str_strip_prefix "0x" value) ();
  if negb (bool_decide (String.length value = 40%nat)) then Err ()
  else
    bytes ← ok_or (parse_hex_bytes ("0x" +:+ value)) ();
    if decide (length bytes = 20%nat) then Ok bytes else Err ().

Definition parse_address_field (value field : string) : result string (list byte) :=
  map_err (λ _, field +:+ " must be a 20-byte address") (parse_raw_address value).

Definition bytes_field (value field : string) : result string (list byte) :=
  ok_or (parse_hex_bytes value) (field +:+ " must be 0x-prefixed hex data").

Definition adm_quantity (value field : string) : result string Z :=
  value ← ok_or (str_strip_prefix "0x" value) (field +:+ " must be a 0x-prefixed quantity");
  if decide (value = EmptyString ∨ 32 < String.length value)%nat then Err ("invalid " +:+ field)
  else ok_or (from_str_radix16 128 value) ("invalid " +:+ field).

Definition nonzero_uint128 (value field : string) : result string Z :=
  value ← adm_quantity value field;
  if decide (value = 0) then Err (field +:+ " must be greater than zero") else Ok value.

(** The word the bytes are copied to the end of; no more than 32 bytes are
    ever given. *)
Definition right_aligned (bytes : list byte) : list byte :=
  (replicate (32 - length bytes) x00 ++ bytes)%list.

Definition uint256 (value field : string) : result string (list byte) :=
  value ← ok_or (str_strip_prefix "0x" value) (field +:+ " must be a 0x-prefixed quantity");
  if decide (value = EmptyString ∨ 64 < String.length value)%nat then Err ("invalid " +:+ field)
  else
    let padded := if Nat.even (String.length value) then value else "0" +:+ value in
    bytes ← ok_or (parse_hex_bytes ("0x" +:+ padded)) ("invalid " +:+ field);
    Ok (right_aligned bytes).

Definition nonzero_uint256 (value field : string) : result string (list byte) :=
  value ← uint256 value field;
  if existsb (λ b, negb (bool_decide (b = x00))) value then Ok value
  else Err (field +:+ " must be greater than zero").

Definition packed_uint128 (high low : Z) : list byte := (be_bytes 16 high ++ be_bytes 16 low)%list.

Definition adm_address_word (value : list byte) : list byte := (replicate 12 x00 ++ value)%list.

Definition uint256_from_u64 (value : Z) : list byte := (replicate 24 x00 ++ be_bytes 8 value)%list.

Definition paymaster_and_data (op : UserOperationV0_7) : result string (list byte) :=
  match paymaster op with
  | None =>
      let named := match paymaster_verification_gas_limit op, paymaster_post_op_gas_limit op with
                   | None, None => false | _, _ => true end in
      let data := match paymaster_data op with
                  | Some data => negb (bool_decide (data = "0x")) | None => false end in
      if named || data then Err "paymaster fields require paymaster" else Ok []
  | Some paymaster =>
      verification_gas_limit ← ok_or (paymaster_verification_gas_limit op)
        "paymasterVerificationGasLimit is required when paymaster is set";
      verification_gas_limit ← adm_quantity verification_gas_limit "paymasterVerificationGasLimit";
      post_op_gas_limit ← match paymaster_post_op_gas_limit op with
                          | Some value => adm_quantity value "paymasterPostOpGasLimit"
                          | None => Ok 0
                          end;
      address ← parse_address_field paymaster "paymaster";
      data ← bytes_field (default "0x" (paymaster_data op)) "paymasterData";
      Ok (address ++ be_bytes 16 verification_gas_limit ++ be_bytes 16 post_op_gas_limit ++ data)%list
  end.

(** ** The prepared operation *)

Record PreparedUserOperation : Type := {
  prep_operation : UserOperation;
  prep_sender : list byte; prep_nonce : list byte; prep_init_code : list byte;
  prep_call_data : list byte; prep_account_gas_limits : list byte;
  prep_pre_verification_gas : list byte; prep_gas_fees : list byte;
  prep_paymaster_and_data : list byte }.

Definition prepare_init_code (op : UserOperationV0_7) : result string (list byte) :=
  match factory op, factory_data op with
  | Some factory, factory_data =>
      address ← parse_address_field factory "factory";
      data ← bytes_field (default "0x" factory_data) "factoryData";
      Ok (address ++ data)%list
  | None, Some factory_data =>
      if negb (bool_decide (factory_data = "0x")) then Err "factoryData requires factory" else Ok []
  | None, None => Ok []
  end.

Definition from_v0_7 (op : UserOperationV0_7) : result string PreparedUserOperation :=
  match eip7702_auth op with
  | Some _ => Err "eip7702Auth is not enabled for in-band UserOperations"
  | None =>
      sender ← parse_address_field (sender op) "sender";
      nonce ← uint256 (nonce op) "nonce";
      call_data ← bytes_field (call_data op) "callData";
      signature ← bytes_field (signature op) "signature";
      if decide (signature = []) then Err "signature is required"
      else
        init_code ← prepare_init_code op;
        call_gas_limit ← nonzero_uint128 (call_gas_limit op) "callGasLimit";
        verification_gas_limit ← nonzero_uint128 (verification_gas_limit op) "verificationGasLimit";
        pre_verification_gas ← nonzero_uint256 (pre_verification_gas op) "preVerificationGas";
        max_fee_per_gas ← adm_quantity (max_fee_per_gas op) "maxFeePerGas";
        max_priority_fee_per_gas ← adm_quantity (max_priority_fee_per_gas op) "maxPriorityFeePerGas";
        if decide (max_fee_per_gas ≠ ZERO_GAS_FEE ∨ max_priority_fee_per_gas ≠ ZERO_GAS_FEE)
        then Err "in-band UserOperations must set maxFeePerGas and maxPriorityFeePerGas to 0x0"
        else
          paymaster_and_data ← paymaster_and_data op;
          Ok {| prep_operation := V0_7 op; prep_sender := sender; prep_nonce := nonce;
                prep_init_code := init_code; prep_call_data := call_data;
                prep_account_gas_limits := packed_uint128 verification_gas_limit call_gas_limit;
                prep_pre_verification_gas := pre_verification_gas;
                prep_gas_fees := packed_uint128 max_priority_fee_per_gas max_fee_per_gas;
                prep_paymaster_and_data := paymaster_and_data |}
  end.

Definition prepare (op : UserOperation) : result string PreparedUserOperation :=
  match op with
  | V0_7 op => from_v0_7 op
  | V0_6 _ => Err "the configured EntryPoint requires an unpacked v0.7 UserOperation"
  end.

Definition prepared_user_operation_hash (p : PreparedUserOperation) (entry_point : list byte)
    (chain_id : Z) : string :=
  let packed := (adm_address_word (prep_sender p) ++ prep_nonce p ++
                 keccak256 (prep_init_code p) ++ keccak256 (prep_call_data p) ++
                 prep_account_gas_limits p ++ prep_pre_verification_gas p ++
                 prep_gas_fees p ++ keccak256 (prep_paymaster_and_data p))%list in
  let envelope := (keccak256 packed ++ adm_address_word entry_point ++
                   uint256_from_u64 chain_id)%list in
  "0x" +:+ hex_encode (keccak256 envelope).

Definition sender_hex (p : PreparedUserOperation) : string := "0x" +:+ hex_encode (prep_sender p).

(** ** Fingerprints *)

Record AdmissionFingerprint : Type := {
  fp_sender : list byte; fp_nonce : list byte; fp_init_code : list byte; fp_call_data : list byte;
  fp_account_gas_limits : list byte; fp_pre_verification_gas : list byte; fp_gas_fees : list byte;
  fp_paymaster_and_data : list byte; fp_fee_token : option (list byte) }.

#[export] Instance AdmissionFingerprint_eq_dec : EqDecision AdmissionFingerprint.
Proof. solve_decision. Defined.

Definition admission_fingerprint (op : UserOperation) : option AdmissionFingerprint :=
  match op with
  | V0_6 _ => None
  | V0_7 op =>
      prepared ← ok (prepare (V0_7 op));
      fee_token ← match fee_token op with
                  | Some fee_token => Some <$> ok (parse_address_field fee_token "feeToken")
                  | None => Some None
                  end;
      Some {| fp_sender := prep_sender prepared; fp_nonce := prep_nonce prepared;
              fp_init_code := prep_init_code prepared; fp_call_data := prep_call_data prepared;
              fp_account_gas_limits := prep_account_gas_limits prepared;
              fp_pre_verification_gas := prep_pre_verification_gas prepared;
              fp_gas_fees := prep_gas_fees prepared;
              fp_paymaster_and_data := prep_paymaster_and_data prepared;
              fp_fee_token := fee_token |}
  end.

Inductive ExistingAdmissionAction : Type := AlreadyAdmitted | RetryAppend | Conflict.

#[export] Instance ExistingAdmissionAction_eq_dec : EqDecision ExistingAdmissionAction.
Proof. solve_decision. Defined.

Definition existing_admission_action (existing : StoredUserOperation) (chain : Z)
    (entry_point_ : string) (op : UserOperation) : ExistingAdmissionAction :=
  let operation_matches :=
    match admission_fingerprint (user_operation existing), admission_fingerprint op with
    | Some existing, Some submitted => bool_decide (existing = submitted)
    | _, _ => false
    end in
  let matches := bool_decide (chain_id existing = chain) &&
                 eq_ignore_ascii_case (entry_point existing) entry_point_ && operation_matches in
  match matches, admitted existing with
  | true, true => AlreadyAdmitted
  | true, false => RetryAppend
  | false, _ => Conflict
  end.

End Prepared.

(** ** The two packings of an operation

    The admission packs an operation by its own parsers, the executor by
    [Abi.pack_v0_7].  The lemmas relate the parsers field by field. *)
Section Agreement.
Context `{HA : Alloy} {HK : Keccak}.

Lemma abi_parse_bytes_field v field bs :
  bytes_field v field = Ok bs ↔ abi_parse_bytes v = Ok bs.
Proof.
  unfold bytes_field, abi_parse_bytes, parse_hex_bytes.
  destruct (str_strip_prefix "0x" v) as [d|]; simpl; [|done].
  destruct (Nat.even _); simpl; [|done]. destruct (hex_decode d); simpl; naive_solver.
Qed.

Lemma abi_parse_adm_quantity v field z :
  adm_quantity v field = Ok z ↔ abi_parse_u128 v = Ok z.
Proof.
  unfold adm_quantity, abi_parse_u128.
  destruct (str_strip_prefix "0x" v) as [d|]; simpl; [|done].
  case_decide; [done|]. destruct (from_str_radix16 128 d); simpl; naive_solver.
Qed.

Lemma parse_raw_address_value v bs :
  parse_raw_address v = Ok bs → length bs = 20%nat ∧ abi_parse_address v = Ok (be_value bs).
Proof.
  unfold parse_raw_address, abi_parse_address. intros Hp. inv_checked.
  rename select (str_strip_prefix _ _ = _) into Hv. apply str_strip_prefix_Some in Hv as ->.
  case_match; [done|]. inv_checked. case_decide as Hl; [|done]. inv_checked. split; [done|].
  rename select (parse_hex_bytes _ = _) into Hh. unfold parse_hex_bytes in Hh.
  rewrite str_strip_prefix_app in Hh. simpl in Hh. case_match; [done|].
  by rewrite (address_from_str_hex _ _ Hh Hl).
Qed.

Lemma address_field_value v field bs :
  parse_address_field v field = Ok bs → length bs = 20%nat ∧ abi_parse_address v = Ok (be_value bs).
Proof. unfold parse_address_field. intros Hp. inv_checked. by apply parse_raw_address_value. Qed.

Lemma address_word_value (bs : list byte) :
  length bs = 20%nat → be_bytes 32 (be_value bs) = adm_address_word bs.
Proof. intros Hl. unfold adm_address_word. by rewrite <-(be_bytes_be_value_pad 12 bs), Hl. Qed.

Lemma uint256_of_u64 chain : fits 64 chain → uint256_from_u64 chain = be_bytes 32 chain.
Proof.
  intros Hc. unfold uint256_from_u64.
  pose proof (be_bytes_be_value_pad 24 (be_bytes 8 chain)) as Hpad.
  rewrite be_bytes_length, be_value_be_bytes_small in Hpad by exact Hc. done.
Qed.

(** A 256-bit quantity: the admission's word is the executor's value. *)
Lemma uint256_value v field w :
  uint256 v field = Ok w → ∃ z, abi_parse_u256 v = Ok z ∧ be_bytes 32 z = w.
Proof.
  unfold uint256, abi_parse_u256. intros Hu. inv_checked.
  rename select (str_strip_prefix _ _ = _) into Hv. rewrite Hv. simpl.
  case_decide as Hn; [done|]. inv_checked.
  rename select (parse_hex_bytes _ = _) into Hh. unfold parse_hex_bytes in Hh.
  rewrite str_strip_prefix_app in Hh. simpl in Hh. case_match; [done|].
  match type of Hh with hex_decode ?d = Some ?bs => set (d' := d) in *; rename bs into bytes end.
  assert (Hval : hex_value 0 d' = hex_value 0 x).
  { unfold d'. by destruct (Nat.even (String.length x)). }
  assert (Hlen : (String.length d' ≤ 64)%nat).
  { unfold d'. destruct (Nat.even (String.length x)) eqn:Ee; [lia|]. rewrite str_app_length. simpl.
    assert (String.length x ≠ 64)%nat by (intros Hx; rewrite Hx in Ee; done). lia. }
  clearbody d'. pose proof (hex_decode_length _ _ Hh) as Hbl.
  pose proof (hex_decode_value _ _ Hh) as Hbv. rewrite Hval in Hbv.
  exists (be_value bytes). split.
  - rewrite (u256_from_str_radix16_digits x (be_value bytes)); [done| |done|].
    + intros ->. by destruct Hn; left.
    + apply fits_mono with (v := 8 * Z.of_nat (length bytes)); [lia|].
      pose proof (be_value_range bytes) as Hr. unfold fits. rewrite Z.pow_mul_r by lia. exact Hr.
  - unfold right_aligned. rewrite <-be_bytes_be_value_pad. by rewrite Nat.sub_add by lia.
Qed.

Lemma nonzero_uint128_value v field z :
  nonzero_uint128 v field = Ok z → abi_parse_u128 v = Ok z.
Proof.
  unfold nonzero_uint128. intros Hn. apply result_bind_Ok in Hn as (z' & Hz & Hn).
  case_decide; [done|]. injection Hn as <-. by apply abi_parse_adm_quantity in Hz.
Qed.

Lemma nonzero_uint256_value v field w :
  nonzero_uint256 v field = Ok w → ∃ z, abi_parse_u256 v = Ok z ∧ be_bytes 32 z = w.
Proof.
  unfold nonzero_uint256. intros Hn. apply result_bind_Ok in Hn as (w' & Hw & Hn).
  case_match; [|done]. injection Hn as <-. by apply uint256_value in Hw.
Qed.

Lemma optional_bytes_field o field bs :
  bytes_field (default "0x" o) field = Ok bs →
  match o with Some d => abi_parse_bytes d | None => Ok [] end = Ok bs.
Proof.
  intros Hb. destruct o as [d|]; [by apply abi_parse_bytes_field in Hb|].
  unfold bytes_field, parse_hex_bytes in Hb. simpl in Hb.
  rewrite hex_decode_empty in Hb. exact Hb.
Qed.

Lemma init_code_agrees op ic :
  prepare_init_code op = Ok ic →
  ∀ ic', pack_init_code op = Ok ic' ↔ (factory op = None → factory_data op = None) ∧ ic' = ic.
Proof.
  unfold prepare_init_code, pack_init_code. intros Hp ic'.
  destruct (factory op) as [f|].
  - inv_checked. rename select (parse_address_field _ _ = _) into Ha.
    rename select (bytes_field _ _ = _) into Hb.
    apply address_field_value in Ha as [Hl ->]. cbn [mbind result_mbind].
    apply optional_bytes_field in Hb. destruct (factory_data op) as [d|].
    + rewrite Hb. cbn [mbind result_mbind]. rewrite be_bytes_value by done.
      split; [intros [= <-]; split; [discriminate|done]|intros [_ ->]; done].
    + injection Hb as <-. rewrite be_bytes_value by done. rewrite app_nil_r. split; [intros [= <-]; split; [discriminate|done]|intros [_ ->]; done].
  - destruct (factory_data op); simpl in *; naive_solver.
Qed.

Lemma paymaster_and_data_agrees op pd :
  paymaster_and_data op = Ok pd →
  ∀ pd', pack_paymaster_and_data op = Ok pd' ↔
    (paymaster op = None → paymaster_data op = None) ∧
    (paymaster op ≠ None → paymaster_post_op_gas_limit op ≠ None) ∧ pd' = pd.
Proof.
  unfold paymaster_and_data, pack_paymaster_and_data. intros Hp pd'.
  destruct (paymaster op) as [pm|].
  - destruct (paymaster_verification_gas_limit op) as [vg|]; cbn [ok_or mbind result_mbind] in *; [|done].
    apply result_bind_Ok in Hp as (v & Hv & Hp). apply result_bind_Ok in Hp as (po & Hpo & Hp).
    inv_checked. rename select (parse_address_field _ _ = _) into Ha.
    rename select (bytes_field _ _ = _) into Hb.
    apply address_field_value in Ha as [Hl ->]. cbn [mbind result_mbind].
    apply abi_parse_adm_quantity in Hv as ->. cbn [mbind result_mbind].
    destruct (paymaster_post_op_gas_limit op) as [pg|]; cbn [ok_or mbind result_mbind] in *;
      [|split; [done|intros (_ & Hne & _); by destruct Hne]].
    apply abi_parse_adm_quantity in Hpo as ->. cbn [mbind result_mbind ok_or].
    apply optional_bytes_field in Hb as ->. cbn [mbind result_mbind]. rewrite be_bytes_value by done.
    split; [intros [= <-]; split_and!; done|intros (_ & _ & ->); done].
  - destruct (paymaster_verification_gas_limit op), (paymaster_post_op_gas_limit op); try done.
    destruct (paymaster_data op); simpl in *; naive_solver.
Qed.

(** The executor's packing of parsed fields, the record [pack_v0_7] builds. *)
Definition executor_packing (se no : Z) (ic cd : list byte) (vg cg mp mf : Z) (pd : list byte)
    (pg : Z) (si : list byte) (ft : option Z) (auth : option Eip7702Authorization) : PackedOperation :=
  {| packed := {|
       p_sender := se; p_nonce := no; p_initCode := ic; p_callData := cd;
       p_accountGasLimits := (be_bytes 16 vg ++ be_bytes 16 cg)%list;
       p_preVerificationGas := pg;
       p_gasFees := (be_bytes 16 mp ++ be_bytes 16 mf)%list;
       p_paymasterAndData := pd; p_signature := si |};
     po_sender := se; po_call_data := cd;
     has_eip7702_authorization := match auth with Some _ => true | None => false end;
     po_fee_token := ft |}.

(** What the executor's packing asks beyond admission's validation. *)
Definition executor_packable (op : UserOperationV0_7) : Prop :=
  (factory op = None → factory_data op = None) ∧
  (paymaster op = None → paymaster_data op = None) ∧
  (paymaster op ≠ None → paymaster_post_op_gas_limit op ≠ None) ∧
  (∀ t, fee_token op = Some t → address_from_str t ≠ None).

(** C34: Admission and the executor name an operation by the same hash.
    Whenever an operation passes admission's validation, whatever the
    executor packs from its text has the same sender and calldata, and
    [user_operation_hash] of the two packings agree on every EntryPoint and
    chain, although the two modules parse and pack with separate code; and
    the executor's packing succeeds exactly on the admitted operations that
    give no factory data without a factory, no paymaster data without a
    paymaster, a postOp limit with a paymaster, and a readable fee token. *)
Theorem admission_hash_is_executor_hash op p entry_point chain :
  from_v0_7 op = Ok p → length entry_point = 20%nat → fits 64 chain →
  (∀ po, pack_v0_7 op = Ok po →
     po_sender po = be_value (prep_sender p) ∧ po_call_data po = prep_call_data p ∧
     prepared_user_operation_hash p entry_point chain =
       "0x" +:+ hex_encode (user_operation_hash po (be_value entry_point) chain)) ∧
  ((∃ po, pack_v0_7 op = Ok po) ↔ executor_packable op).
Proof.
  intros Hp Hep Hchain. unfold from_v0_7 in Hp. destruct (eip7702_auth op) eqn:Hauth; [done|].
  apply result_bind_Ok in Hp as (se & Hse & Hp). apply result_bind_Ok in Hp as (no & Hno & Hp).
  apply result_bind_Ok in Hp as (cd & Hcd & Hp). apply result_bind_Ok in Hp as (si & Hsi & Hp).
  case_decide; [done|]. apply result_bind_Ok in Hp as (ic & Hic & Hp).
  apply result_bind_Ok in Hp as (cg & Hcg & Hp). apply result_bind_Ok in Hp as (vg & Hvg & Hp).
  apply result_bind_Ok in Hp as (pg & Hpg & Hp). apply result_bind_Ok in Hp as (mf & Hmf & Hp).
  apply result_bind_Ok in Hp as (mp & Hmp & Hp). case_decide; [done|].
  apply result_bind_Ok in Hp as (pd & Hpd & Hp). injection Hp as <-.
  apply address_field_value in Hse as [Hsl Hse].
  apply uint256_value in Hno as (no' & Hno' & <-).
  apply abi_parse_bytes_field in Hcd, Hsi.
  apply nonzero_uint128_value in Hcg, Hvg. apply nonzero_uint256_value in Hpg as (pg' & Hpg & <-).
  apply abi_parse_adm_quantity in Hmf, Hmp.
  pose proof (init_code_agrees op ic Hic) as Hic'.
  pose proof (paymaster_and_data_agrees op pd Hpd) as Hpd'.
  set (fee := match fee_token op with
              | Some t => a ← abi_parse_address t; Ok (Some a) | None => Ok None end).
  assert (Hpack : ∀ po, pack_v0_7 op = Ok po ↔
    pack_init_code op = Ok ic ∧ pack_paymaster_and_data op = Ok pd ∧ ∃ ft, fee = Ok ft ∧
    po = executor_packing (be_value se) no' ic cd vg cg mp mf pd pg' si ft None).
  { intros po. unfold pack_v0_7. fold fee. rewrite Hauth.
    destruct (pack_init_code op) as [ic'|] eqn:E1;
      [destruct (proj1 (Hic' ic') eq_refl) as [_ ->]|].
    all: destruct (pack_paymaster_and_data op) as [pd'|] eqn:E2;
      [destruct (proj1 (Hpd' pd') eq_refl) as (_ & _ & ->)|].
    all: rewrite Hse, Hcd, Hvg, Hcg, Hmp, Hmf, Hno', Hpg, Hsi.
    all: destruct fee as [ft|]; cbn [mbind result_mbind].
    all: split; [intros [= <-]; eauto|]; intros (? & ? & ft' & ? & ->); by simplify_eq. }
  split.
  - intros po Hpo. apply Hpack in Hpo as (_ & _ & ft & _ & ->). split; [done|]. split; [done|].
    unfold prepared_user_operation_hash, user_operation_hash, executor_packing.
    rewrite !abi_encode_words_concat.
    cbn -[be_bytes adm_address_word uint256_from_u64 keccak256 hex_encode app].
    rewrite (address_word_value entry_point), (address_word_value se) by done.
    rewrite uint256_of_u64 by done. rewrite !List.app_nil_r. unfold packed_uint128.
    by rewrite <-!app_assoc.
  - unfold executor_packable. setoid_rewrite Hpack. setoid_rewrite Hic'. setoid_rewrite Hpd'. split.
    + intros (_ & [? _] & (? & ? & _) & ft & Hft & _). split_and!; [done..|].
      intros t Ht. unfold fee in Hft. rewrite Ht in Hft. unfold abi_parse_address in Hft.
      by destruct (address_from_str t).
    + intros (? & ? & ? & Hft).
      assert (∃ ft, fee = Ok ft) as [ft Hfee].
      { unfold fee, abi_parse_address. destruct (fee_token op) as [t|]; [|by eexists].
        specialize (Hft t eq_refl). destruct (address_from_str t); [by eexists|done]. }
      eexists. split_and!; eauto.
Qed.

End Agreement.

Definition sample_v0_7 : UserOperationV0_7 :=
  {| sender := "0x2222222222222222222222222222222222222222"; nonce := "0x1";
     factory := Some "0x3333333333333333333333333333333333333333"; factory_data := Some "0xabcd";
     call_data := "0x8dd7712f"; call_gas_limit := "0x186a0"; verification_gas_limit := "0x30d40";
     pre_verification_gas := "0xc350"; max_fee_per_gas := "0x0"; max_priority_fee_per_gas := "0x0";
     paymaster := None; paymaster_verification_gas_limit := None;
     paymaster_post_op_gas_limit := None; paymaster_data := None;
     signature := "0x01"; eip7702_auth := None; fee_token := None |}.

Definition sample_prepared : option PreparedUserOperation :=
  ok (@from_v0_7 ref_hex sample_v0_7).
Definition sample_packed : option PackedOperation :=
  ok (@pack_v0_7 ref_hex ref_alloy sample_v0_7).

Lemma admission_hash_is_executor_hash_witness :
  match sample_prepared, sample_packed with
  | Some p, Some po =>
      @prepared_user_operation_hash ref_hex ref_keccak p (replicate 20 x01) 8453 =
        "0x" +:+ @hex_encode ref_hex
          (@user_operation_hash ref_hex ref_alloy ref_keccak po (be_value (replicate 20 x01)) 8453)
  | _, _ => False
  end.
Proof.
  destruct sample_prepared as [p|] eqn:Hp; [|vm_compute in Hp; discriminate].
  destruct sample_packed as [po|] eqn:Hpo; [|vm_compute in Hpo; discriminate].
  unfold sample_prepared, sample_packed in *.
  apply (@admission_hash_is_executor_hash ref_hex ref_alloy ref_keccak sample_v0_7 p).
  - destruct (from_v0_7 sample_v0_7); simpl in Hp; congruence.
  - reflexivity.
  - split; vm_compute; congruence.
  - destruct (pack_v0_7 sample_v0_7); simpl in Hpo; congruence.
Defined.
