(* ===== verification/Lifecycle.v ===== *)
(** * Lifecycle: what a record and a nonce slot may become
    ([vela-relay-core/src/lifecycle.rs] and [nonce_slot.rs]) *)

From S2P Require Export Task.
From stdpp Require Export relations.
#[local] Open Scope string_scope.
#[local] Open Scope Z_scope.

(** * Lifecycle: the single status transition table
    ([vela-relay-core/src/lifecycle.rs]) *)

Definition transition_is_allowed (current next : UserOperationStatus) : bool :=
  bool_decide (current = next) ||
  match current, next with
  | Queued, (NotSubmitted | Submitted | Rejected | Failed) => true
  | NotSubmitted, (Submitted | Rejected | Failed) => true
  | Submitted, (Included | Rejected | Failed) => true
  | _, _ => false
  end.

Inductive PatchDecision : Type := Apply | RefuseIllegalTransition.

Definition decide_patch (current : UserOperationStatus)
    (requested : option UserOperationStatus) : PatchDecision :=
  match requested with
  | Some next => if transition_is_allowed current next then Apply else RefuseIllegalTransition
  | None => Apply
  end.

Inductive BundleSubmissionDecision : Type := Transition | IndexOnly | Skip.

Definition LEGACY_CHAIN_ID_EXACT_LIMIT : Z := 100000000000000.

Definition decide_bundle_submission (status : UserOperationStatus)
    (record_transaction_hash : option string) (record_chain_id : Z)
    (record_chain_id_text : string) (bundle_chain_id : Z)
    (bundle_transaction_hash : string) : BundleSubmissionDecision :=
  let same_chain :=
    match record_chain_id_text with
    | EmptyString =>
        bool_decide (record_chain_id = bundle_chain_id) &&
        bool_decide (record_chain_id < LEGACY_CHAIN_ID_EXACT_LIMIT)
    | _ => String.eqb record_chain_id_text (dec bundle_chain_id)
    end in
  if negb same_chain then Skip
  else match status with
       | Queued | NotSubmitted => Transition
       | Submitted =>
           if decide (record_transaction_hash = Some bundle_transaction_hash)
           then IndexOnly else Skip
       | _ => Skip
       end.

Definition gave_up_reason (last_error : option string) : string :=
  match last_error with
  | Some (String _ _ as last) =>
      "the relay stopped retrying this operation without sending it; last error: " +:+ last
  | _ => "the relay stopped retrying this operation without sending it"
  end.

Definition dead_letter_patch (record : StoredUserOperation) (now_ms : Z) : option Value :=
  match status record with
  | Queued | NotSubmitted =>
      Some (VObject
        [("status", VString "rejected");
         ("lastExecutorStage", VString DEAD_LETTER_STAGE);
         ("lastExecutorError",
            VString (truncate_diagnostic (gave_up_reason (last_executor_error record)) 512));
         ("lastExecutorAttemptAtMs", VNumber now_ms);
         ("rejectionReason", VString (as_reason_str RelayGaveUp))])
  | _ => None
  end.

(** ** The table as a relation

    One legal status write, and the lifecycles made of them. *)
Definition status_step (a b : UserOperationStatus) : Prop := transition_is_allowed a b = true.

(** How far along its lifecycle a status is; every legal change of status
    moves up, so a lifecycle has at most three changes. *)
Definition status_rank (s : UserOperationStatus) : nat :=
  match s with
  | NotFound | Queued => 0 | NotSubmitted => 1 | Submitted => 2
  | Rejected | Included | Failed => 3
  end.

Lemma status_step_refl s : status_step s s.
Proof. unfold status_step, transition_is_allowed. by rewrite bool_decide_eq_true_2. Qed.

Lemma status_step_rank a b : status_step a b → a = b ∨ (status_rank a < status_rank b)%nat.
Proof.
  unfold status_step.
  destruct a, b; vm_compute; intros; try discriminate; auto; right; lia.
Qed.

Lemma terminal_step a b : is_terminal a = true → status_step a b → b = a.
Proof. unfold status_step. destruct a, b; vm_compute; congruence. Qed.

Lemma terminal_stays a b : is_terminal a = true → rtc status_step a b → b = a.
Proof.
  intros Ht. induction 1 as [|a b c Hab _ IH]; [done|].
  assert (b = a) as -> by (by apply terminal_step). auto.
Qed.

Lemma rtc_status_rank a b : rtc status_step a b → a = b ∨ (status_rank a < status_rank b)%nat.
Proof.
  induction 1 as [|a b c Hab _ IH]; [auto|]. apply status_step_rank in Hab.
  destruct Hab as [->|]; destruct IH as [->|]; auto; right; lia.
Qed.

(** The only way in to [Included] is [Submitted]. *)
Lemma included_from_submitted a : status_step a Included → a = Included ∨ a = Submitted.
Proof. unfold status_step. destruct a; vm_compute; intros; try discriminate; auto. Qed.

Lemma decide_patch_apply current requested :
  decide_patch current requested = Apply ↔
  ∀ next, requested = Some next → status_step current next.
Proof.
  unfold decide_patch, status_step. destruct requested as [next|]; [|split; done].
  destruct (transition_is_allowed current next) eqn:E; split.
  - intros _ next' [= <-]. done.
  - done.
  - discriminate.
  - intros H. specialize (H next eq_refl). congruence.
Qed.

Lemma dead_letter_patch_Some record now_ms p :
  dead_letter_patch record now_ms = Some p →
  status_step (status record) Rejected ∧ get "status" p = Some (VString (status_name Rejected)).
Proof.
  unfold dead_letter_patch. intros H.
  destruct (status record); try discriminate H; injection H as <-; split; reflexivity.
Qed.

(** * NonceSlot: one live operation per account nonce
    ([vela-relay-core/src/nonce_slot.rs]) *)

Definition ADMISSION_GRACE_MS : Z := 120000.
Definition SLOT_TTL_MS : Z := 2 * 3600 * 1000.
Definition TAKEOVER_ATTEMPTS : nat := 3.

Definition NONCE_IN_FLIGHT_MESSAGE : string :=
  "Already have a pending UserOperation from this sender".

Definition nonce_in_flight_message (existing_user_operation_hash : string) : string :=
  NONCE_IN_FLIGHT_MESSAGE +:+ " [existingHash:" +:+ existing_user_operation_hash +:+ "]".

Record NonceSlot : Type := {
  slot_chain_id : Z; slot_entry_point : string; slot_sender : string; slot_nonce : string }.

#[export] Instance NonceSlot_eq_dec : EqDecision NonceSlot.
Proof. solve_decision. Defined.

Definition slot_new `{Hex} (chain_id : Z) (entry_point sender nonce : list byte) : NonceSlot :=
  {| slot_chain_id := chain_id;
     slot_entry_point := "0x" +:+ hex_encode entry_point;
     slot_sender := "0x" +:+ hex_encode sender;
     slot_nonce := "0x" +:+ hex_encode nonce |}.

Definition slot_key (s : NonceSlot) : string :=
  dec (slot_chain_id s) +:+ ":" +:+ slot_entry_point s +:+ ":" +:+
  slot_sender s +:+ ":" +:+ slot_nonce s.

Definition nonce_quantity (s : NonceSlot) : string :=
  let digits := trim_start_char "0" (trim_start_0x (slot_nonce s)) in
  match digits with EmptyString => "0x0" | _ => "0x" +:+ digits end.

Record NonceHolder : Type := { nh_user_operation_hash : string; nh_claimed_at_ms : Z }.

#[export] Instance NonceHolder_eq_dec : EqDecision NonceHolder.
Proof. solve_decision. Defined.

Inductive NonceClaim : Type :=
  | Claimed (fresh : bool)
  | Held (holder : NonceHolder).

Record SlotStep : Type := { step_write : option NonceHolder; step_reply : NonceClaim }.

Definition same_hash (holder claimant : NonceHolder) : bool :=
  eq_ignore_ascii_case (nh_user_operation_hash holder) (nh_user_operation_hash claimant).

Definition claim (current : option NonceHolder) (claimant : NonceHolder) : SlotStep :=
  match current with
  | None => {| step_write := Some claimant; step_reply := Claimed true |}
  | Some holder =>
      if same_hash holder claimant
      then {| step_write := None; step_reply := Claimed false |}
      else {| step_write := None; step_reply := Held holder |}
  end.

Definition take_over (current : option NonceHolder) (judged_user_operation_hash : string)
    (claimant : NonceHolder) : SlotStep :=
  match current with
  | Some holder =>
      if same_hash holder claimant
      then {| step_write := None; step_reply := Claimed false |}
      else if negb (eq_ignore_ascii_case (nh_user_operation_hash holder)
                                         judged_user_operation_hash)
      then {| step_write := None; step_reply := Held holder |}
      else {| step_write := Some claimant; step_reply := Claimed true |}
  | None => {| step_write := Some claimant; step_reply := Claimed true |}
  end.

Definition release (current : option NonceHolder) (user_operation_hash : string) : bool :=
  match current with
  | Some holder => eq_ignore_ascii_case (nh_user_operation_hash holder) user_operation_hash
  | None => false
  end.

Inductive HolderState : Type := Live | Final | Abandoned.

#[export] Instance HolderState_eq_dec : EqDecision HolderState.
Proof. solve_decision. Defined.

Definition holder_state (record : option StoredUserOperation) (holder : NonceHolder)
    (now_ms : Z) : HolderState :=
  let within_grace :=
    bool_decide (saturating_sub now_ms (nh_claimed_at_ms holder) < ADMISSION_GRACE_MS) in
  match record with
  | None => if within_grace then Live else Abandoned
  | Some record =>
      if is_terminal (status record) then Final
      else
        let reached_the_executor :=
          negb (bool_decide (status record = Queued)) ||
          match last_executor_attempt_at_ms record with Some _ => true | None => false end in
        if admitted record || reached_the_executor || within_grace then Live else Abandoned
  end.

(** ** The slot as an atomic cell

    The store applies a step to the slot it holds. *)
Definition apply_step (current : option NonceHolder) (step : SlotStep) : option NonceHolder :=
  match step_write step with Some h => Some h | None => current end.

(** The slot names this operation. *)
Definition names (current : option NonceHolder) (hash : string) : Prop :=
  ∃ h, current = Some h ∧ eq_ignore_ascii_case (nh_user_operation_hash h) hash = true.

(** A reply is truthful: [Claimed] exactly when the slot now names the
    claimant, [Held] with the different operation it names. *)
Lemma claim_reply current claimant :
  let step := claim current claimant in
  match step_reply step with
  | Claimed fresh =>
      names (apply_step current step) (nh_user_operation_hash claimant) ∧
      fresh = bool_decide (current = None)
  | Held h => current = Some h ∧ apply_step current step = Some h ∧ same_hash h claimant = false
  end.
Proof.
  unfold claim, names, apply_step. destruct current as [h|]; simpl.
  - destruct (same_hash h claimant) eqn:E; simpl; eauto.
  - split; [|done]. eexists. split; [done|]. apply eq_ignore_ascii_case_refl.
Qed.

Lemma take_over_reply current judged claimant :
  let step := take_over current judged claimant in
  match step_reply step with
  | Claimed _ => names (apply_step current step) (nh_user_operation_hash claimant)
  | Held h => current = Some h ∧ apply_step current step = Some h ∧
              same_hash h claimant = false ∧ ¬ names current judged
  end.
Proof.
  unfold take_over, names, apply_step. destruct current as [h|]; simpl.
  - destruct (same_hash h claimant) eqn:E; simpl; [eauto|].
    destruct (eq_ignore_ascii_case _ judged) eqn:E'; simpl.
    + eexists. split; [done|]. apply eq_ignore_ascii_case_refl.
    + split_and!; try done. intros (h' & [= <-] & ?). congruence.
  - eexists. split; [done|]. apply eq_ignore_ascii_case_refl.
Qed.

(** A takeover replaces nobody but the holder it judged. *)
Lemma take_over_preserves_unjudged current judged claimant h :
  current = Some h → eq_ignore_ascii_case (nh_user_operation_hash h) judged = false →
  apply_step current (take_over current judged claimant) = current.
Proof.
  intros -> E. unfold take_over, apply_step.
  destruct (same_hash h claimant); simpl; [done|]. by rewrite E.
Qed.
