(* ===== verification/Vault.v ===== *)
(** * Vault: key derivation and relayer routing
    ([vela-relay-core/src/vault.rs])

    HKDF and the curve are the class [Curve]; what the module owns is the
    shape of the secret, the labels it derives keys under and the route from
    a sender to a relayer of the pool. *)

From S2P Require Export Bytes.
#[local] Open Scope string_scope.
#[local] Open Scope Z_scope.

(** The [hkdf] and [k256] crates. *)
Class Curve := {
  SecretKey : Type;
  (** [Hkdf::<Sha256>::new(Some(salt), ikm)] then [expand] into 32 bytes *)
  hkdf_sha256 : list byte → list byte → list byte → list byte;
  (** [SecretKey::from_slice] *)
  from_slice : list byte → option SecretKey;
  (** the uncompressed SEC1 point: 65 bytes *)
  public_point : SecretKey → list byte;
}.

Definition DERIVATION_SALT : list byte := str_bytes "vela-bundler-dedicated-eoa-v1".
Definition TREASURY_INFO : string := "treasury".
Definition RELAYER_POOL_SIZE : Z := 100.
Definition RELAYER_ROUTING_WIDTH : Z := 10.

Inductive VaultError : Type :=
  | EmptySecret | InvalidHex | InvalidLength | InvalidPoolIndex (index : Z) | NoValidPrivateKey.

(** [strip_prefix("0x").unwrap_or(value)] *)
Definition strip_0x (value : string) : string := default value (str_strip_prefix "0x" value).

Section Vault.
Context `{HX : Hex} `{HK : Keccak} `{HC : Curve}.

Definition parse_operator_secret (value : string) : result VaultError (list byte) :=
  if decide (value = EmptyString) then Err EmptySecret
  else
    let value := strip_0x value in
    if negb (Nat.even (String.length value)) then Err InvalidLength
    else
      decoded ← ok_or (hex_decode value) InvalidHex;
      if decide (length decoded < 32)%nat then Err InvalidLength else Ok decoded.

Definition derivation_info (base_info : string) (counter : nat) : string :=
  match counter with
  | O => base_info
  | S _ => base_info +:+ "|counter=" +:+ dec (Z.of_nat counter)
  end.

(** The loop [for counter in 0..256]: [untried] counters are still to be tried. *)
Fixpoint derive_loop (untried : nat) (ikm : list byte) (base_info : string) : result VaultError SecretKey :=
  match untried with
  | O => Err NoValidPrivateKey
  | S untried =>
      let counter := (256 - S untried)%nat in
      match from_slice (hkdf_sha256 DERIVATION_SALT ikm (str_bytes (derivation_info base_info counter))) with
      | Some private_key => Ok private_key
      | None => derive_loop untried ikm base_info
      end
  end.

Definition derive_private_key (ikm : list byte) (base_info : string) : result VaultError SecretKey :=
  derive_loop 256 ikm base_info.

Definition ethereum_address (private_key : SecretKey) : string :=
  let digest := keccak256 (drop 1 (public_point private_key)) in
  "0x" +:+ hex_encode (drop 12 digest).

Definition derive_treasury_secret_key (operator_secret : string) : result VaultError SecretKey :=
  ikm ← parse_operator_secret operator_secret; derive_private_key ikm TREASURY_INFO.

Definition derive_address (operator_secret : string) : result VaultError string :=
  private_key ← derive_treasury_secret_key operator_secret; Ok (ethereum_address private_key).

Definition relayer_info (index : Z) : string := "relayer-#" +:+ dec index.

Definition derive_pool_relayer_secret_key (operator_secret : string) (index : Z) :
    result VaultError SecretKey :=
  if decide (RELAYER_POOL_SIZE ≤ index) then Err (InvalidPoolIndex index)
  else
    ikm ← parse_operator_secret operator_secret;
    derive_private_key ikm (relayer_info index).

Definition derive_pool_relayer_address (operator_secret : string) (index : Z) : result VaultError string :=
  private_key ← derive_pool_relayer_secret_key operator_secret index; Ok (ethereum_address private_key).

End Vault.

(** [char_indices().rev().nth(7)]: from the eighth character from the end. *)
Definition last_eight (clean : string) : string :=
  match reverse (char_indices clean) !! 7%nat with
  | Some (index, _) => str_drop index clean
  | None => clean
  end.

Definition relayer_index_for_sender (sender : string) (width : Z) : Z :=
  let width := if decide (width = 0) then RELAYER_ROUTING_WIDTH else width in
  let clean := default sender
    match str_strip_prefix "0x" sender with
    | Some clean => Some clean
    | None => str_strip_prefix "0X" sender
    end in
  match from_str_radix16 32 (last_eight clean) with
  | Some value => value mod width
  | None => 0
  end.

(** ** Lemmas *)

Lemma relayer_index_in_pool sender width :
  0 ≤ width → 0 ≤ relayer_index_for_sender sender width <
    (if decide (width = 0) then RELAYER_ROUTING_WIDTH else width).
Proof.
  intros Hw. unfold relayer_index_for_sender.
  set (w := if decide (width = 0) then _ else _).
  assert (0 < w) by (unfold w, RELAYER_ROUTING_WIDTH; case_decide; lia).
  destruct (from_str_radix16 32 _) as [v|]; [|lia]. apply Z.mod_pos_bound. lia.
Qed.

(** Every byte of [s] opens a character of its own. *)
Definition is_ascii (s : string) : bool := all_chars (λ a, bool_decide (byte_of a < 128)) s.

Lemma char_indices_ascii n s :
  is_ascii s = true → char_spans_from n 0 s = map (λ i, (n + i, 1))%nat (seq 0 (String.length s)).
Proof.
  revert n. induction s as [|a s IH]; intros n; [done|]. unfold is_ascii. cbn [all_chars].
  intros [Ha%bool_decide_eq_true Hs]%andb_true_iff. cbn [char_spans_from String.length].
  unfold len_utf8. rewrite decide_True by done. simpl. rewrite (IH (S n) Hs).
  f_equal; [f_equal; lia|]. rewrite <-seq_shift, map_map. apply map_ext. intros i. f_equal. lia.
Qed.

Lemma last_eight_ascii s :
  is_ascii s = true → last_eight s = str_drop (String.length s - 8) s.
Proof.
  intros Hs. unfold last_eight, char_indices. rewrite (char_indices_ascii 0 s Hs).
  destruct (decide (7 < String.length s)%nat) as [Hl|Hl].
  - rewrite reverse_lookup by (by rewrite length_map, length_seq).
    rewrite length_map, length_seq, list_lookup_fmap, lookup_seq_lt by lia. simpl. f_equal; lia.
  - rewrite lookup_ge_None_2 by (rewrite length_reverse, length_map, length_seq; lia).
    by replace (String.length s - 8)%nat with 0%nat by lia.
Qed.

Lemma hex_digits_ascii acc s v : hex_value acc s = Some v → is_ascii s = true.
Proof.
  unfold is_ascii. revert acc. induction s as [|a s IH]; intros acc; [done|]. cbn [hex_value all_chars].
  intros (d & Hd & Hv)%bind_Some. apply andb_true_iff. split; [|by eapply IH].
  apply bool_decide_eq_true. unfold hex_digit_value in Hd. repeat case_decide; simplify_eq; lia.
Qed.

Lemma hex_value_split s t v :
  hex_value 0 (s +:+ t) = Some v →
  ∃ x y, hex_value 0 s = Some x ∧ hex_value 0 t = Some y ∧ v = x * 16 ^ Z.of_nat (String.length t) + y.
Proof.
  assert (Hgen : ∀ acc, hex_value acc (s +:+ t) = (x ← hex_value acc s; hex_value x t)).
  { induction s as [|a s IH]; intros acc; [done|]. rewrite str_app_cons. simpl.
    destruct (hex_digit_value a); simpl; [apply IH|done]. }
  rewrite Hgen. intros (x & Hx & Ht)%bind_Some.
  destruct (hex_value 0 t) as [y|] eqn:Hy; [|by rewrite (hex_value_None _ _ _ Hy) in Ht].
  rewrite (hex_value_acc _ _ _ Hy) in Ht. exists x, y. split; [done|]. split; [done|congruence].
Qed.

Lemma from_str_radix16_hex w s v :
  s ≠ EmptyString → hex_value 0 s = Some v → fits w v → from_str_radix16 w s = Some v.
Proof.
  intros Hs Hv Hf. rewrite <-(radix16_digits_value w 0 s v) by (done || lia).
  destruct s as [|a s]; [done|]. unfold from_str_radix16.
  destruct a as [[] [] [] [] [] [] [] []]; try reflexivity. discriminate Hv.
Qed.

Lemma last_eight_value s v :
  hex_value 0 s = Some v → String.length s = 40%nat →
  from_str_radix16 32 (last_eight s) = Some (v mod 2 ^ 32).
Proof.
  intros Hv Hl. rewrite last_eight_ascii by (by eapply hex_digits_ascii). rewrite Hl.
  rewrite <-(str_take_drop 32 s) in Hv. apply hex_value_split in Hv as (x & y & Hx & Hy & ->).
  assert (Hlen : String.length (str_drop 32 s) = 8%nat) by (rewrite str_drop_length; lia).
  pose proof (hex_value_bound _ _ Hy) as Hb. rewrite Hlen in *.
  change (16 ^ Z.of_nat 8) with (2 ^ 32) in *.
  rewrite Z.add_comm, Z.mod_add, Z.mod_small by lia.
  apply from_str_radix16_hex; [|done|done]. change (40 - 8)%nat with 32%nat. by intros E; rewrite E in Hlen.
Qed.

(** ** Claims *)

(** Routing depends on the account alone.  Every spelling of a 20-byte
    address, in either case and with or without its prefix, is routed to the
    same relayer, its low 32 bits modulo the width, and every sender whatever
    is routed inside the pool. *)
Theorem senders_route_by_their_address `{Hex} s bytes width :
  hex_decode s = Some bytes → length bytes = 20%nat → 0 ≤ width →
  let w := if decide (width = 0) then RELAYER_ROUTING_WIDTH else width in
  let lane := (be_value bytes mod 2 ^ 32) mod w in
  relayer_index_for_sender s width = lane ∧
  relayer_index_for_sender ("0x" +:+ s) width = lane ∧
  relayer_index_for_sender ("0X" +:+ s) width = lane ∧
  ∀ sender, 0 ≤ relayer_index_for_sender sender width < w.
Proof.
  intros Hd Hl Hw w lane. pose proof (hex_decode_value _ _ Hd) as Hv.
  pose proof (hex_decode_length _ _ Hd) as Hlen. rewrite Hl in Hlen.
  pose proof (last_eight_value s _ Hv Hlen) as H8.
  assert (Hx : ∀ p, (p = "0x" ∨ p = "0X") → str_strip_prefix p s = None).
  { intros p Hp. destruct (str_strip_prefix p s) as [r|] eqn:E; [|done].
    apply str_strip_prefix_Some in E as ->. exfalso. by destruct Hp as [-> | ->]. }
  unfold relayer_index_for_sender. fold w.
  split; [rewrite !Hx by tauto; simpl; by rewrite H8|].
  split; [rewrite str_strip_prefix_app; simpl; by rewrite H8|].
  split; [|intros sender; by apply (relayer_index_in_pool sender)].
  rewrite str_strip_prefix_app. destruct (str_strip_prefix "0x" ("0X" +:+ s)) eqn:E; [discriminate E|].
  simpl. by rewrite H8.
Qed.

Lemma senders_route_by_their_address_witness :
  relayer_index_for_sender "0x222222222222222222222222222222222222222b" 10 = 5.
Proof.
  destruct (@senders_route_by_their_address ref_hex "222222222222222222222222222222222222222b"
    (be_bytes 20 0x222222222222222222222222222222222222222b) 10) as (_ & H & _);
    [vm_compute; reflexivity|done|lia|].
  etransitivity; [exact H|]. vm_compute. reflexivity.
Defined.

(** A secret is refused exactly when it is empty, not hexadecimal pairs, or
    shorter than 32 bytes. *)
Lemma parse_operator_secret_Ok `{Hex} value secret :
  parse_operator_secret value = Ok secret ↔
  value ≠ EmptyString ∧ hex_decode (strip_0x value) = Some secret ∧ (32 ≤ length secret)%nat.
Proof.
  unfold parse_operator_secret. case_decide; [by split; [|intros (? & _)]|]. split.
  - intros Hp. destruct (negb _); [done|]. inv_checked. case_decide; [done|]. inv_checked.
    split; [done|]. split; [done|lia].
  - intros (_ & Hd & Hl). rewrite (hex_decode_length _ _ Hd). rewrite Nat.even_mul. simpl.
    rewrite Hd. simpl. rewrite decide_False by lia. done.
Qed.
