(* ===== verification/Signing.v ===== *)
(** * Signing: the outer transactions ([vela-relay-core/src/signing.rs])

    Tempo's [0x76] envelope is encoded by the module's own RLP; EIP-1559
    envelopes are [alloy]'s.  The reference is RLP itself: the tree of an
    envelope and a decoder of the wire format. *)

From S2P Require Export Vault Broadcast.
#[local] Open Scope string_scope.
#[local] Open Scope list_scope.
#[local] Open Scope Z_scope.

(** ** RLP as the module writes it *)

Fixpoint trimmed_be_bytes (value : list byte) : list byte :=
  match value with
  | [] => []
  | b :: value' => if decide (b = x00) then trimmed_be_bytes value' else value
  end.

Definition length_be (l : list byte) : list byte := trimmed_be_bytes (be_bytes 8 (Z.of_nat (length l))).

Definition rlp_bytes (value : list byte) : list byte :=
  match value with
  | [] => [x80]
  | _ =>
      if decide (length value = 1%nat ∧ byteZ (hd x00 value) < 0x80) then value
      else if decide (length value < 56)%nat then Zbyte (0x80 + Z.of_nat (length value)) :: value
      else
        let len := length_be value in
        Zbyte (0xb7 + Z.of_nat (length len)) :: len ++ value
  end.

Definition rlp_list (items : list (list byte)) : list byte :=
  let payload := concat items in
  if decide (length payload < 56)%nat then Zbyte (0xc0 + Z.of_nat (length payload)) :: payload
  else
    let len := length_be payload in
    Zbyte (0xf7 + Z.of_nat (length len)) :: len ++ payload.

Definition rlp_u64 (value : Z) : list byte := rlp_bytes (trimmed_be_bytes (be_bytes 8 value)).
Definition rlp_u128 (value : Z) : list byte := rlp_bytes (trimmed_be_bytes (be_bytes 16 value)).

(** ** Tempo's envelope *)

Record TempoTransactionPlan : Type := {
  tp_chain_id : Z; tp_nonce : Z; tp_gas_limit : Z;
  tp_max_fee_per_gas : Z; tp_max_priority_fee_per_gas : Z;
  tp_fee_token : Z; tp_to : Z; tp_input : list byte }.

Record Signature : Type := { sig_r : Z; sig_s : Z; sig_v : byte }.

Definition signature_bytes (s : Signature) : list byte :=
  be_bytes 32 (sig_r s) ++ be_bytes 32 (sig_s s) ++ [sig_v s].

Definition encode_tempo_transaction (plan : TempoTransactionPlan) (signature : option Signature) :
    list byte :=
  let call := rlp_list [rlp_bytes (be_bytes 20 (tp_to plan)); rlp_bytes []; rlp_bytes (tp_input plan)] in
  let calls := rlp_list [call] in
  let access_list := rlp_list [] in
  let authorization_list := rlp_list [] in
  let fields :=
    [rlp_u64 (tp_chain_id plan); rlp_u128 (tp_max_priority_fee_per_gas plan);
     rlp_u128 (tp_max_fee_per_gas plan); rlp_u64 (tp_gas_limit plan); calls; access_list;
     rlp_bytes []; rlp_u64 (tp_nonce plan); rlp_bytes []; rlp_bytes [];
     rlp_bytes (be_bytes 20 (tp_fee_token plan)); rlp_bytes []; authorization_list] in
  let fields := fields ++ match signature with Some s => [rlp_bytes (signature_bytes s)] | None => [] end in
  x76 :: rlp_list fields.

(** ** Signing *)

Record TransactionPlan : Type := {
  pl_chain_id : Z; pl_nonce : Z; pl_gas_limit : Z;
  pl_max_fee_per_gas : Z; pl_max_priority_fee_per_gas : Z;
  pl_to : Z; pl_value : Z; pl_input : list byte }.

Record SignedTransaction : Type := {
  st_transaction_hash : string; st_raw_transaction : list byte; st_nonce : Z }.

(** [alloy]'s local signer and its EIP-1559 envelope. *)
Class LocalSigner `{Curve} := {
  sign_hash : SecretKey → list byte → option Signature;
  (** the hash text and the EIP-2718 bytes of the signed envelope *)
  seal_eip1559 : SecretKey → TransactionPlan → option (string * list byte);
}.

Section Signing.
Context `{HT : HashText} `{HK : Keccak} `{LS : LocalSigner}.

Definition sign_eip1559 (secret_key : SecretKey) (plan : TransactionPlan) : result () SignedTransaction :=
  '(hash, raw) ← ok_or (seal_eip1559 secret_key plan) tt;
  Ok {| st_transaction_hash := hash; st_raw_transaction := raw; st_nonce := pl_nonce plan |}.

Definition sign_tempo (secret_key : SecretKey) (plan : TempoTransactionPlan) :
    result () SignedTransaction :=
  let unsigned := encode_tempo_transaction plan None in
  signature ← ok_or (sign_hash secret_key (keccak256 unsigned)) tt;
  let raw_transaction := encode_tempo_transaction plan (Some signature) in
  Ok {| st_transaction_hash := b256_to_string (keccak256 raw_transaction);
        st_raw_transaction := raw_transaction; st_nonce := tp_nonce plan |}.

End Signing.

(** ** RLP, the reference *)

Inductive rlp : Type :=
  | Bytes (b : list byte)
  | List (l : list rlp).

Fixpoint rlp_encode (x : rlp) : list byte :=
  match x with
  | Bytes b => rlp_bytes b
  | List l => rlp_list (map rlp_encode l)
  end.

(** The kind of the item a leading byte opens, the length of its payload and
    what follows the header. *)
Definition rlp_header (b : byte) (rest : list byte) : option (bool * nat * list byte) :=
  let z := byteZ b in
  let long kind base :=
    let n := Z.to_nat (z - base) in
    if decide (n ≤ length rest)%nat
    then Some (kind, Z.to_nat (be_value (take n rest)), drop n rest) else None in
  if decide (z < 0xb8) then Some (false, Z.to_nat (z - 0x80), rest)
  else if decide (z < 0xc0) then long false 0xb7
  else if decide (z < 0xf8) then Some (true, Z.to_nat (z - 0xc0), rest)
  else long true 0xf7.

Fixpoint rlp_decode (fuel : nat) (input : list byte) : option (list rlp) :=
  match fuel, input with
  | O, _ => None
  | S _, [] => Some []
  | S fuel, b :: rest =>
      if decide (byteZ b < 0x80) then items ← rlp_decode fuel rest; Some (Bytes [b] :: items)
      else
        '(is_list, len, rest) ← rlp_header b rest;
        if decide (len ≤ length rest)%nat then
          item ← (if is_list : bool then List <$> rlp_decode fuel (take len rest)
                  else Some (Bytes (take len rest)));
          items ← rlp_decode fuel (drop len rest);
          Some (item :: items)
        else None
  end.

(** Every length fits the eight bytes the module writes it in. *)
Fixpoint rlp_sized (x : rlp) : Prop :=
  match x with
  | Bytes b => fits 64 (Z.of_nat (length b))
  | List l => fits 64 (Z.of_nat (length (concat (map rlp_encode l)))) ∧ foldr (λ y P, rlp_sized y ∧ P) True l
  end.

(** ** The wire format is read back *)

Lemma trimmed_value l : be_value (trimmed_be_bytes l) = be_value l.
Proof.
  induction l as [|b l IH]; [done|]. simpl. case_decide as Hb; [|done].
  subst b. rewrite IH. symmetry. exact (be_value_zeros 1 l).
Qed.

Lemma trimmed_length l : (length (trimmed_be_bytes l) ≤ length l)%nat.
Proof. induction l as [|b l IH]; simpl; [done|]. case_decide; simpl; lia. Qed.

Lemma trimmed_length_pos l : be_value l ≠ 0 → (0 < length (trimmed_be_bytes l))%nat.
Proof. rewrite <-trimmed_value. destruct (trimmed_be_bytes l); [done|simpl; lia]. Qed.

Lemma length_be_spec l :
  fits 64 (Z.of_nat (length l)) → (56 ≤ length l)%nat →
  be_value (length_be l) = Z.of_nat (length l) ∧ (1 ≤ length (length_be l) ≤ 8)%nat.
Proof.
  intros Hf Hl. unfold length_be.
  assert (Hv : be_value (be_bytes 8 (Z.of_nat (length l))) = Z.of_nat (length l))
    by (apply be_value_be_bytes_small; exact Hf).
  rewrite trimmed_value. split; [done|]. split.
  - apply trimmed_length_pos. lia.
  - etransitivity; [apply trimmed_length|]. by rewrite be_bytes_length.
Qed.

Lemma byteZ_small z : 0 ≤ z < 256 → byteZ (Zbyte z) = z.
Proof. intros Hz. by rewrite byteZ_Zbyte, Z.mod_small. Qed.

(** The header the module writes for a payload is read back, whatever
    follows. *)
Lemma header_short (kind : bool) base payload rest :
  base = (if kind then 0xc0 else 0x80) → (length payload < 56)%nat →
  let b := Zbyte (base + Z.of_nat (length payload)) in
  0x80 ≤ byteZ b ∧ rlp_header b (payload ++ rest) = Some (kind, length payload, payload ++ rest).
Proof.
  intros -> Hl. cbn zeta. unfold rlp_header. rewrite byteZ_small by (destruct kind; lia).
  destruct kind; repeat case_decide; try lia; split; try lia; do 3 f_equal; lia.
Qed.

Lemma header_long (kind : bool) base payload rest :
  base = (if kind then 0xf7 else 0xb7) → (56 ≤ length payload)%nat → fits 64 (Z.of_nat (length payload)) →
  let b := Zbyte (base + Z.of_nat (length (length_be payload))) in
  0x80 ≤ byteZ b ∧
  rlp_header b (length_be payload ++ payload ++ rest) = Some (kind, length payload, payload ++ rest).
Proof.
  intros -> Hl Hf. cbn zeta. destruct (length_be_spec payload Hf Hl) as [Hv Hn].
  unfold rlp_header. rewrite byteZ_small by (destruct kind; lia). cbv zeta.
  set (n := Z.of_nat (length (length_be payload))).
  assert (Hz : ∀ base, Z.to_nat (base + n - base) = length (length_be payload)) by lia.
  destruct kind; repeat case_decide; try lia; rewrite ?Hz in *; (split; [lia|]);
    rewrite ?length_app in *; try lia; by rewrite take_app_length, drop_app_length, Hv, Nat2Z.id.
Qed.

(** How an item is written: a byte that stands for itself, or a header and
    the payload. *)
Definition framed (x : rlp) : Prop :=
  ∃ b header kind payload,
    rlp_encode x = b :: header ++ payload ∧ 0x80 ≤ byteZ b ∧
    (∀ rest, rlp_header b (header ++ payload ++ rest) = Some (kind, length payload, payload ++ rest)) ∧
    match x with
    | Bytes v => kind = false ∧ payload = v
    | List l => kind = true ∧ payload = concat (map rlp_encode l)
    end.

Lemma framed_or_self x :
  rlp_sized x → (∃ c, x = Bytes [c] ∧ byteZ c < 0x80 ∧ rlp_encode x = [c]) ∨ framed x.
Proof.
  unfold framed. destruct x as [v|l]; cbn [rlp_encode rlp_sized].
  - intros Hs. unfold rlp_bytes. destruct v as [|c v].
    { right. exists x80, [], false, []. split; [done|]. split; [done|].
      split; [|done]. intros rest. by destruct (header_short false _ [] rest eq_refl ltac:(simpl; lia)). }
    case_decide as H1.
    { left. destruct H1 as [Hl Hc]. destruct v; [|discriminate Hl]. exists c. split; [done|]. split; [exact Hc|done]. }
    right. case_decide as H2.
    + exists (Zbyte (0x80 + Z.of_nat (length (c :: v)))), [], false, (c :: v).
      split; [done|]. split; [by apply (header_short false _ _ [] eq_refl)|].
      split; [|done]. intros rest. by apply (header_short false _ _ rest eq_refl).
    + exists (Zbyte (0xb7 + Z.of_nat (length (length_be (c :: v))))), (length_be (c :: v)), false, (c :: v).
      split; [done|]. apply not_lt in H2. unfold ge in H2.
      split; [by apply (header_long false _ _ [] eq_refl)|].
      split; [|done]. intros rest. by apply (header_long false _ _ rest eq_refl).
  - intros [Hs _]. right. unfold rlp_list. set (payload := concat _) in *. case_decide as H2.
    + exists (Zbyte (0xc0 + Z.of_nat (length payload))), [], true, payload.
      split; [done|]. split; [by apply (header_short true _ _ [] eq_refl)|].
      split; [|done]. intros rest. by apply (header_short true _ _ rest eq_refl).
    + exists (Zbyte (0xf7 + Z.of_nat (length (length_be payload)))), (length_be payload), true, payload.
      split; [done|]. apply not_lt in H2. unfold ge in H2.
      split; [by apply (header_long true _ _ [] eq_refl)|].
      split; [|done]. intros rest. by apply (header_long true _ _ rest eq_refl).
Qed.

Lemma rlp_sized_items l : rlp_sized (List l) → Forall rlp_sized l.
Proof. intros [_ Hl]. induction l as [|x l IH]; simpl in Hl; constructor; tauto. Qed.

Lemma rlp_decode_encode fuel items :
  Forall rlp_sized items → (length (concat (map rlp_encode items)) < fuel)%nat →
  rlp_decode fuel (concat (map rlp_encode items)) = Some items.
Proof.
  revert items. induction fuel as [|fuel IH]; intros items Hs Hf; [lia|].
  destruct Hs as [|x items Hx Hs]; [done|]. cbn [map concat] in *. rewrite length_app in Hf.
  destruct (framed_or_self x Hx) as [(c & -> & Hc & Henc)|(b & header & kind & payload & Henc & Hb & Hh & Hk)].
  - rewrite Henc in *. cbn [app length] in *. cbn [rlp_decode]. rewrite decide_True by done.
    by rewrite IH by (done || lia).
  - rewrite Henc in *. cbn [app length rlp_decode] in *. rewrite length_app in Hf.
    rewrite decide_False by lia. rewrite <-app_assoc, Hh. simpl.
    rewrite decide_True by (rewrite length_app; lia). rewrite take_app_length, drop_app_length.
    rewrite (IH items) by (done || lia).
    destruct x as [v|l]; destruct Hk as [-> ->]; [done|].
    rewrite IH by (by apply rlp_sized_items || lia). done.
Qed.

(** ** The envelope's tree *)

Definition tree_u (n : nat) (z : Z) : rlp := Bytes (trimmed_be_bytes (be_bytes n z)).

Definition tempo_tree (plan : TempoTransactionPlan) (signature : option Signature) : list rlp :=
  [tree_u 8 (tp_chain_id plan); tree_u 16 (tp_max_priority_fee_per_gas plan);
   tree_u 16 (tp_max_fee_per_gas plan); tree_u 8 (tp_gas_limit plan);
   List [List [Bytes (be_bytes 20 (tp_to plan)); Bytes []; Bytes (tp_input plan)]]; List [];
   Bytes []; tree_u 8 (tp_nonce plan); Bytes []; Bytes [];
   Bytes (be_bytes 20 (tp_fee_token plan)); Bytes []; List []] ++
  match signature with Some s => [Bytes (signature_bytes s)] | None => [] end.

Lemma tempo_tree_encodes plan signature :
  encode_tempo_transaction plan signature = x76 :: rlp_encode (List (tempo_tree plan signature)).
Proof.
  unfold encode_tempo_transaction, tempo_tree, rlp_u64, rlp_u128, tree_u. cbv zeta.
  destruct signature; cbn [map app rlp_encode]; exact eq_refl.
Qed.

(** What a node reads out of an envelope: type byte, one list, its fields. *)
Definition read_signature (fields : list rlp) : option (option Signature) :=
  match fields with
  | [] => Some None
  | [Bytes s] =>
      v ← s !! 64%nat;
      Some (Some {| sig_r := be_value (take 32 s); sig_s := be_value (take 32 (drop 32 s)); sig_v := v |})
  | _ => None
  end.

Definition read_fields (fields : list rlp) : option (TempoTransactionPlan * option Signature) :=
  match fields with
  | Bytes chain :: Bytes tip :: Bytes fee :: Bytes gas :: List [List [Bytes to; Bytes []; Bytes input]] ::
    List [] :: Bytes [] :: Bytes nonce :: Bytes [] :: Bytes [] :: Bytes token :: Bytes [] :: List [] ::
    signature =>
      s ← read_signature signature;
      Some ({| tp_chain_id := be_value chain; tp_nonce := be_value nonce; tp_gas_limit := be_value gas;
               tp_max_fee_per_gas := be_value fee; tp_max_priority_fee_per_gas := be_value tip;
               tp_fee_token := be_value token; tp_to := be_value to; tp_input := input |}, s)
  | _ => None
  end.

Definition decode_tempo_transaction (raw : list byte) : option (TempoTransactionPlan * option Signature) :=
  match raw with
  | x76 :: raw =>
      match rlp_decode (S (length raw)) raw with
      | Some [List fields] => read_fields fields
      | _ => None
      end
  | _ => None
  end.

Lemma decode_envelope raw fields :
  rlp_decode (S (length raw)) raw = Some [List fields] →
  decode_tempo_transaction (x76 :: raw) = read_fields fields.
Proof. intros Hd. cbn [decode_tempo_transaction]. by rewrite Hd. Qed.

(** The fields of the Rust types. *)
Definition plan_typed (plan : TempoTransactionPlan) : Prop :=
  fits 64 (tp_chain_id plan) ∧ fits 64 (tp_nonce plan) ∧ fits 64 (tp_gas_limit plan) ∧
  fits 128 (tp_max_fee_per_gas plan) ∧ fits 128 (tp_max_priority_fee_per_gas plan) ∧
  fits 160 (tp_fee_token plan) ∧ fits 160 (tp_to plan) ∧
  Z.of_nat (length (tp_input plan)) < 2 ^ 63.
Definition signature_typed (s : Signature) : Prop := fits 256 (sig_r s) ∧ fits 256 (sig_s s).

Lemma be_value_trimmed_be_bytes n z :
  0 ≤ z < 256 ^ Z.of_nat n → be_value (trimmed_be_bytes (be_bytes n z)) = z.
Proof. intros Hz. rewrite trimmed_value. by apply be_value_be_bytes_small. Qed.

Lemma read_signature_bytes s :
  signature_typed s → read_signature [Bytes (signature_bytes s)] = Some (Some s).
Proof.
  intros [Hr Hs]. cbn [read_signature]. unfold signature_bytes.
  assert (Hl : ∀ z, length (be_bytes 32 z) = 32%nat) by (intros; apply be_bytes_length).
  rewrite (take_app_length' _ _ 32 (eq_sym (Hl (sig_r s)))), (drop_app_length' _ _ 32 (eq_sym (Hl (sig_r s)))).
  rewrite (take_app_length' _ _ 32 (eq_sym (Hl (sig_s s)))).
  rewrite lookup_app_r by (rewrite Hl; lia). rewrite lookup_app_r by (rewrite !Hl; lia).
  rewrite !Hl. change (64 - 32 - 32)%nat with 0%nat. cbn [lookup list_lookup mbind option_bind].
  rewrite !be_value_be_bytes_small by done. by destruct s.
Qed.

Lemma read_fields_tree plan signature :
  plan_typed plan → (∀ s, signature = Some s → signature_typed s) →
  read_fields (tempo_tree plan signature) = Some (plan, signature).
Proof.
  intros (Hch & Hno & Hga & Hfe & Hti & Hto & Hta & _) Hs.
  assert (Hsig : read_signature match signature with Some s => [Bytes (signature_bytes s)] | None => [] end =
    Some signature) by (destruct signature as [s|]; [by apply read_signature_bytes, Hs|done]).
  unfold tempo_tree, tree_u. cbn [read_fields app]. rewrite Hsig. cbn [mbind option_bind].
  rewrite !be_value_trimmed_be_bytes, !be_value_be_bytes_small by done. by destruct plan.
Qed.

Lemma rlp_bytes_length v : (length (rlp_bytes v) ≤ 9 + length v)%nat.
Proof.
  unfold rlp_bytes. destruct v as [|b v]; [simpl; lia|]. repeat case_decide; cbn [length]; try lia.
  rewrite length_app. pose proof (trimmed_length (be_bytes 8 (Z.of_nat (length (b :: v))))) as Ht.
  rewrite be_bytes_length in Ht. unfold length_be. simpl in *. lia.
Qed.

Lemma rlp_list_length l : (length (rlp_list l) ≤ 9 + length (concat l))%nat.
Proof.
  unfold rlp_list. case_decide; cbn [length]; [lia|]. rewrite length_app.
  pose proof (trimmed_length (be_bytes 8 (Z.of_nat (length (concat l))))) as Ht.
  rewrite be_bytes_length in Ht. unfold length_be. lia.
Qed.

(** A bound on an item's encoding: nine bytes of header per item. *)
Fixpoint budget (x : rlp) : nat :=
  match x with
  | Bytes b => 9 + length b
  | List l => 9 + foldr (λ y n, budget y + n) 0 l
  end%nat.

Lemma budget_bounds : ∀ x,
  (length (rlp_encode x) ≤ budget x)%nat ∧ (Z.of_nat (budget x) < 2 ^ 64 → rlp_sized x).
Proof.
  fix IH 1. intros [b|l].
  - cbn [rlp_encode budget rlp_sized]. split; [apply rlp_bytes_length|]. unfold fits. lia.
  - assert (Hl : (length (concat (map rlp_encode l)) ≤ foldr (λ y n, budget y + n) 0 l)%nat ∧
      (Z.of_nat (foldr (λ y n, budget y + n)%nat 0%nat l) < 2 ^ 64 → foldr (λ y P, rlp_sized y ∧ P) True l)).
    { induction l as [|y l IHl]; [simpl; split; [lia|done]|]. destruct (IH y) as [Hy Hsy].
      destruct IHl as [IHl IHs]. cbn [map concat foldr]. rewrite length_app. split; [lia|].
      intros Hb. split; [apply Hsy; lia|apply IHs; lia]. }
    destruct Hl as [Hl Hs]. cbn [rlp_encode budget rlp_sized]. split.
    + etransitivity; [apply rlp_list_length|]. lia.
    + intros Hb. split; [unfold fits; lia|apply Hs; lia].
Qed.

(** The envelope of a typed plan is far below the lengths RLP can write. *)
Lemma tempo_tree_sized plan signature :
  plan_typed plan → rlp_sized (List (tempo_tree plan signature)).
Proof.
  intros (_ & _ & _ & _ & _ & _ & _ & Hl). apply budget_bounds.
  assert (Ht : ∀ n z, (length (trimmed_be_bytes (be_bytes n z)) ≤ n)%nat).
  { intros n z. etransitivity; [apply trimmed_length|]. by rewrite be_bytes_length. }
  unfold tempo_tree, tree_u, signature_bytes.
  pose proof (Ht 8%nat (tp_chain_id plan)). pose proof (Ht 16%nat (tp_max_priority_fee_per_gas plan)).
  pose proof (Ht 16%nat (tp_max_fee_per_gas plan)). pose proof (Ht 8%nat (tp_gas_limit plan)).
  pose proof (Ht 8%nat (tp_nonce plan)).
  destruct signature; cbn [budget foldr app]; rewrite ?length_app, !be_bytes_length; cbn [length]; lia.
Qed.

(** ** Claims *)

(** C35: A Tempo envelope says what its plan says.  For every plan within the
    types, signed or not, a reader of the RLP wire format gets back exactly
    the plan and the signature; so the bytes the relay signs commit to every
    field, and two plans with the same signing bytes are one plan. *)
Theorem tempo_envelope_round_trip plan signature :
  plan_typed plan → (∀ s, signature = Some s → signature_typed s) →
  decode_tempo_transaction (encode_tempo_transaction plan signature) = Some (plan, signature) ∧
  ∀ plan', plan_typed plan' →
    encode_tempo_transaction plan None = encode_tempo_transaction plan' None → plan = plan'.
Proof.
  intros Hp Hs.
  assert (Hround : ∀ plan signature, plan_typed plan → (∀ s, signature = Some s → signature_typed s) →
    decode_tempo_transaction (encode_tempo_transaction plan signature) = Some (plan, signature)).
  { clear. intros plan signature Hp Hs. rewrite tempo_tree_encodes.
    pose proof (tempo_tree_sized plan signature Hp) as Hsize.
    pose proof (read_fields_tree plan signature Hp Hs) as Hread.
    rewrite <-Hread. apply decode_envelope. generalize dependent (tempo_tree plan signature). clear.
    intros fields Hsize _.
    pose proof (rlp_decode_encode (S (length (rlp_encode (List fields)))) [List fields]) as Hd.
    cbn [map concat] in Hd. rewrite app_nil_r in Hd. apply Hd; [by constructor|lia]. }
  split; [by apply Hround|]. intros plan' Hp' Heq.
  pose proof (Hround plan None Hp ltac:(done)) as H1. pose proof (Hround plan' None Hp' ltac:(done)) as H2.
  rewrite Heq, H2 in H1. congruence.
Qed.

Definition sample_plan : TempoTransactionPlan :=
  {| tp_chain_id := 42431; tp_nonce := 7; tp_gas_limit := 300000; tp_max_fee_per_gas := 30000000000;
     tp_max_priority_fee_per_gas := 0; tp_fee_token := 0x20c0000000000000000000000000000000000000;
     tp_to := 0x71727De22E5E9d8BAf0edAc6f37da032; tp_input := replicate 60 x01 |}.

Lemma tempo_envelope_round_trip_witness :
  decode_tempo_transaction (encode_tempo_transaction sample_plan None) = Some (sample_plan, None) ∧
  hd x00 (encode_tempo_transaction sample_plan None) = x76.
Proof.
  split; [|reflexivity].
  apply (tempo_envelope_round_trip sample_plan None); [|done].
  repeat split; vm_compute; congruence.
Defined.
