(* ===== verification/Simulation.v ===== *)
(** * Simulation: what a node's simulation proves
    ([vela-relay-core/src/simulation.rs]) *)

From S2P Require Export Cost Broadcast.
#[local] Open Scope string_scope.
#[local] Open Scope list_scope.
#[local] Open Scope Z_scope.

(** [o.and_then(f)] *)
#[local] Notation "o ?> f" := (@mbind option _ _ _ f o) (at level 61, left associativity).

Definition SIMULATE_V1 : string := "eth_simulateV1".

Definition chain_lacks_simulate_v1 (chain_id : Z) : bool :=
  bool_decide (chain_id = 43114 ∨ chain_id = 43113).

Inductive SimulateV1Turn : Type := First | Last.

Definition simulate_v1_turn (chain_id : Z) (remembered_missing : bool) : SimulateV1Turn :=
  if decide (settlement_gas_rule chain_id = Measured) then First
  else if remembered_missing || chain_lacks_simulate_v1 chain_id then Last else First.

Definition DETERMINISTIC_DEPLOYER : Z := 0x4e59b44847b379578588920ca78fbf26c0b4956c.
Definition PIMLICO_SIMULATIONS_INIT_CODE_HASH : list byte :=
  be_bytes 32 0x6d2eb1ee903947960a7faf13c49dc4b9deb468b3c7a6d19863c4d9b2bffd78d1.
Definition ENTRY_POINT_SIMULATIONS_V07_INIT_CODE_HASH : list byte :=
  be_bytes 32 0x5ec5a546872ae8196c7627fe2a5c89e0a23614070cbd474dbce5e97b82d40c94.

Record PimlicoSimulationContracts : Type := { pimlico : Z; entry_point_v07 : Z }.

Record SimulatedLog : Type := { sl_address : Z; sl_topics : list (list byte); sl_data : list byte }.

Record SimulatedUserOperation : Type := {
  su_user_operation_hash : list byte; su_success : bool; su_actual_gas_used : Z }.

Record SimulationResult : Type := {
  sr_gas_used : Z; sr_events : list SimulatedUserOperation; sr_logs : list SimulatedLog;
  sr_full_execution : bool }.

Inductive SimulationVerdict (T : Type) : Type :=
  | VSuccess (t : T) | VNonceMismatch | VRejected (reason : string) | VPending (reason : string)
  | VTransient (reason : string).
Arguments VSuccess {_} _.
Arguments VNonceMismatch {_}.
Arguments VRejected {_} _.
Arguments VPending {_} _.
Arguments VTransient {_} _.

(** ** Reverts *)

(** [bytes.windows(n).any(|w| w.eq_ignore_ascii_case(needle))] *)
Fixpoint windows_any (needle : string) (bytes : string) : bool :=
  eq_ignore_ascii_case (str_take (String.length needle) bytes) needle ||
  match bytes with EmptyString => false | String _ bytes => windows_any needle bytes end.

Definition bytes_text (l : list byte) : string :=
  String.string_of_list_ascii (map ascii_of_byte l).

Definition names_nonce_mismatch (message : string) : bool :=
  let message := to_ascii_lowercase message in
  contains "aa25" message || contains "invalid account nonce" message.

Definition revert_reports_nonce_mismatch `{Hex} (message : string) (data : option string) : bool :=
  if names_nonce_mismatch message then true
  else
    match data ?> str_strip_prefix "0x" with
    | None => false
    | Some data =>
        match hex_decode data with
        | None => false
        | Some bytes =>
            windows_any "aa25" (bytes_text bytes) || windows_any "invalid account nonce" (bytes_text bytes)
        end
    end.

Section Simulation.
Context `{HA : Alloy} `{HT : !HashText} `{HK : Keccak}.

(** ** The simulation contracts *)

Definition create2_address (deployer : Z) (salt init_code_hash : list byte) : Z :=
  let preimage := xff :: be_bytes 20 deployer ++ salt ++ init_code_hash in
  be_value (drop 12 (keccak256 preimage)).

Definition pimlico_contracts_for_treasury (treasury : Z) : PimlicoSimulationContracts :=
  let salt := keccak256 (be_bytes 20 treasury) in
  {| pimlico := create2_address DETERMINISTIC_DEPLOYER salt PIMLICO_SIMULATIONS_INIT_CODE_HASH;
     entry_point_v07 :=
       create2_address DETERMINISTIC_DEPLOYER salt ENTRY_POINT_SIMULATIONS_V07_INIT_CODE_HASH |}.

(** ** Requests *)

Definition call_object (from entry_point : Z) (calldata : list byte) : Value :=
  VObject [("from", VString (address_to_string from)); ("to", VString (address_to_string entry_point));
           ("data", VString ("0x" +:+ hex_encode calldata))].

Definition simulate_params (from entry_point : Z) (calldata : list byte) : Value :=
  VArray [VObject [("blockStateCalls",
                    VArray [VObject [("calls", VArray [call_object from entry_point calldata])]]);
                   ("validation", VBool false); ("traceTransfers", VBool false)];
          VString "latest"].

Definition debug_trace_params (from entry_point : Z) (calldata : list byte) : Value :=
  VArray [call_object from entry_point calldata; VString "latest";
          VObject [("tracer", VString "callTracer");
                   ("tracerConfig", VObject [("withLog", VBool true)])]].

(** ** Answers *)

(** [parse_u256] *)
Definition sim_parse_u256 (value : string) : option Z :=
  digits ← str_strip_prefix "0x" value; u256_from_str_radix16 digits.

(** [parse_bytes] *)
Definition sim_parse_bytes (value : string) : option (list byte) :=
  value ← str_strip_prefix "0x" value;
  if negb (Nat.even (String.length value)) then None else hex_decode value.

Definition parse_log (value : Value) : option SimulatedLog :=
  address ← get "address" value ?> as_str ?> address_from_str;
  topics ← get "topics" value ?> as_array;
  topics ← mapM (λ topic, as_str topic ?> b256_from_str) topics;
  data ← get "data" value ?> as_str ?> sim_parse_bytes;
  Some {| sl_address := address; sl_topics := topics; sl_data := data |}.

Definition parse_user_operation_event (log : SimulatedLog) : option SimulatedUserOperation :=
  user_operation_hash ← sl_topics log !! 1%nat;
  if decide (length (sl_data log) < 4 * 32)%nat then None
  else
    success ← parse_word (sl_data log) 1;
    if decide (1 < success) then None
    else
      _ ← parse_word (sl_data log) 2;
      gas ← parse_word (sl_data log) 3;
      Some {| su_user_operation_hash := user_operation_hash; su_success := bool_decide (success = 1);
              su_actual_gas_used := gas |}.

Definition is_user_operation_event (entry_point : Z) (log : SimulatedLog) : bool :=
  bool_decide (sl_address log = entry_point) &&
  bool_decide (head (sl_topics log) = Some event_signature).

Definition simulation_from_logs (gas_used : Z) (logs : list SimulatedLog) (entry_point : Z)
    (expected_hashes : list (list byte)) : SimulationVerdict SimulationResult :=
  match mapM parse_user_operation_event
          (List.filter (is_user_operation_event entry_point) logs) with
  | None => VTransient "simulation returned malformed UserOperationEvent"
  | Some events =>
      if negb (bool_decide (length events = length expected_hashes)) ||
         existsb (λ '(event, expected), negb (bool_decide (su_user_operation_hash event = expected)))
           (zip events expected_hashes)
      then VRejected "simulation did not emit the expected UserOperationEvent"
      else if existsb (λ event, negb (su_success event)) events
      then VRejected "UserOperation execution reverted during simulation"
      else VSuccess {| sr_gas_used := gas_used; sr_events := events; sr_logs := logs;
                       sr_full_execution := true |}
  end.

Definition call_reports_nonce_mismatch (call : Value) : bool :=
  names_nonce_mismatch (default EmptyString (get "error" call ?> get "message" ?> as_str)).

Definition parse_simulation (value : Value) (entry_point : Z) (expected_hashes : list (list byte)) :
    SimulationVerdict SimulationResult :=
  match as_array value ?> head ?> get "calls" ?> as_array ?> head with
  | None => VTransient "simulation response has no call result"
  | Some call =>
      let after_status :=
        match get "gasUsed" call ?> as_str ?> sim_parse_u256 with
        | None => VTransient "simulation response has no gasUsed"
        | Some gas_used =>
            match get "logs" call ?> as_array with
            | None => VTransient "simulation response has no logs"
            | Some raw_logs =>
                match mapM parse_log raw_logs with
                | None => VTransient "simulation returned malformed logs"
                | Some logs => simulation_from_logs gas_used logs entry_point expected_hashes
                end
            end
        end in
      match get "status" call ?> as_str ?> sim_parse_u256 with
      | Some status =>
          if decide (status = 1) then after_status
          else if decide (status = 0) then
            if call_reports_nonce_mismatch call then VNonceMismatch
            else VRejected "handleOps reverted during simulation"
          else VTransient "simulation returned an invalid call status"
      | None => VTransient "simulation returned an invalid call status"
      end
  end.

(** ** Traces *)

Definition nonempty_text (field : string) (trace : Value) : bool :=
  match get field trace ?> as_str with
  | Some text => negb (bool_decide (text = EmptyString))
  | None => false
  end.

Definition trace_reports_failure (trace : Value) : bool :=
  nonempty_text "error" trace || nonempty_text "revertReason" trace.

Definition trace_reports_nonce_mismatch (trace : Value) : bool :=
  existsb names_nonce_mismatch
    (omap (λ field, get field trace ?> as_str) ["error"; "revertReason"]).

(** The logs of a call and, after them, those of the calls it made. *)
Fixpoint trace_logs (trace : Value) : option (list SimulatedLog) :=
  own_logs ← match get "logs" trace with
             | Some logs => logs ← as_array logs; mapM parse_log logs
             | None => Some []
             end;
  child_logs ←
    match trace with
    | VObject fields =>
        (fix find (fields : obj) :=
           match fields with
           | [] => Some []
           | (field, calls) :: fields =>
               if String.eqb "calls" field then
                 match calls with
                 | VArray calls =>
                     (fix all (calls : list Value) :=
                        match calls with
                        | [] => Some []
                        | call :: calls => logs ← trace_logs call; rest ← all calls; Some (logs ++ rest)
                        end) calls
                 | _ => None
                 end
               else find fields
           end) fields
    | _ => Some []
    end;
  Some (own_logs ++ child_logs).

Definition parse_trace_simulation (value : Value) (entry_point : Z) (expected_hashes : list (list byte)) :
    SimulationVerdict SimulationResult :=
  if trace_reports_failure value then
    if trace_reports_nonce_mismatch value then VNonceMismatch
    else VRejected "handleOps reverted during debug trace simulation"
  else
    match get "gasUsed" value ?> as_str ?> sim_parse_u256 with
    | None => VTransient "debug trace response has no gasUsed"
    | Some gas_used =>
        match trace_logs value with
        | None => VTransient "debug trace returned malformed logs"
        | Some logs => simulation_from_logs gas_used logs entry_point expected_hashes
        end
    end.

(** ** Lemmas *)

Lemma hashes_match events hashes :
  existsb (λ '(event, expected), negb (bool_decide (su_user_operation_hash event = expected)))
    (zip events hashes) = false → length events = length hashes →
  map su_user_operation_hash events = hashes.
Proof.
  revert hashes. induction events as [|e events IH]; intros [|h hashes] He Hl; try done.
  cbn [zip zip_with existsb map] in *. apply orb_false_iff in He as [He1 He2].
  apply negb_false_iff, bool_decide_eq_true in He1. f_equal; [done|]. apply IH; [done|simpl in Hl; lia].
Qed.

Lemma hashes_matched events hashes :
  map su_user_operation_hash events = hashes →
  length events = length hashes ∧
  existsb (λ '(event, expected), negb (bool_decide (su_user_operation_hash event = expected)))
    (zip events hashes) = false.
Proof.
  intros <-. rewrite length_map. split; [done|]. induction events as [|e events IH]; [done|].
  cbn [zip zip_with existsb map] in *. rewrite bool_decide_eq_true_2 by done. exact IH.
Qed.

(** What a successful reading stands on. *)
Definition proves_bundle (entry_point : Z) (hashes : list (list byte)) (r : SimulationResult) : Prop :=
  mapM parse_user_operation_event (List.filter (is_user_operation_event entry_point) (sr_logs r)) =
    Some (sr_events r) ∧
  map su_user_operation_hash (sr_events r) = hashes ∧
  Forall (λ event, su_success event = true) (sr_events r) ∧ sr_full_execution r = true.

Lemma simulation_from_logs_success gas_used logs entry_point hashes r :
  simulation_from_logs gas_used logs entry_point hashes = VSuccess r ↔
  sr_gas_used r = gas_used ∧ sr_logs r = logs ∧ proves_bundle entry_point hashes r.
Proof.
  unfold simulation_from_logs, proves_bundle. split.
  - destruct (mapM _ _) as [events|] eqn:Hm; [|done].
    destruct (negb _ || _) eqn:Hh; [done|]. destruct (existsb _ events) eqn:Hs; [done|].
    apply orb_false_iff in Hh as [Hl Hh]. apply negb_false_iff, bool_decide_eq_true in Hl.
    intros [= <-]. cbn [sr_gas_used sr_logs sr_events sr_full_execution].
    split; [done|]. split; [done|]. split; [done|]. split; [by apply hashes_match|]. split; [|done].
    apply Forall_forall. intros e He. destruct (su_success e) eqn:E; [done|].
    apply not_true_iff_false in Hs. exfalso. apply Hs, existsb_exists.
    exists e. split; [by apply list_elem_of_In|by rewrite E].
  - intros (<- & <- & Hm & Hh & Hs & Hf). rewrite Hm. apply hashes_matched in Hh as [-> ->].
    rewrite bool_decide_eq_true_2 by done. simpl.
    replace (existsb _ (sr_events r)) with false; [by destruct r; simpl in *; subst|].
    clear -Hs. symmetry. induction Hs as [|e l He Hs IH]; [done|]. cbn [existsb]. by rewrite He, IH.
Qed.

(** A simulation counts only when every operation proved itself.  Both
    readings, of [eth_simulateV1] and of a call trace, succeed only on a full
    execution whose EntryPoint events are, in order, exactly those of the
    expected operations and no other, each of them successful; so a bundle in
    which one operation reverts inside a successful [handleOps] is never taken
    for a success. *)
Theorem simulation_needs_every_event value entry_point hashes r :
  parse_simulation value entry_point hashes = VSuccess r ∨
  parse_trace_simulation value entry_point hashes = VSuccess r →
  proves_bundle entry_point hashes r.
Proof.
  intros [Hp|Hp].
  - unfold parse_simulation in Hp. destruct (_ ?> head) as [call|]; [|done]. cbv zeta in Hp.
    destruct (_ ?> sim_parse_u256) as [status|]; [|done]. case_decide.
    + destruct (_ ?> sim_parse_u256); [|done]. destruct (_ ?> as_array); [|done].
      destruct (mapM parse_log _); [|done]. by apply simulation_from_logs_success in Hp as (_ & _ & ?).
    + case_decide; [|done]. by destruct (call_reports_nonce_mismatch _).
  - unfold parse_trace_simulation in Hp. destruct (trace_reports_failure value).
    { by destruct (trace_reports_nonce_mismatch value). }
    destruct (_ ?> sim_parse_u256); [|done]. destruct (trace_logs value); [|done].
    by apply simulation_from_logs_success in Hp as (_ & _ & ?).
Qed.

End Simulation.

(** ** A concrete answer *)

Definition sample_event_data (success : Z) : list byte :=
  be_bytes 32 1 ++ be_bytes 32 success ++ be_bytes 32 10 ++ be_bytes 32 150000.

(** The answer of [eth_simulateV1] to a bundle of one operation. *)
Definition sample_answer (success : Z) : Value :=
  VArray [VObject [("calls", VArray [VObject
    [("status", VString "0x1"); ("gasUsed", VString "0x30d40");
     ("logs", VArray [VObject
        [("address", VString ("0x" +:+ ref_hex_encode (replicate 20 x01)));
         ("topics", VArray [VString ("0x" +:+ ref_hex_encode (@event_signature ref_keccak));
                            VString ("0x" +:+ ref_hex_encode (replicate 32 x02))]);
         ("data", VString ("0x" +:+ ref_hex_encode (sample_event_data success)))]])]])]].

Definition sample_reading (success : Z) : SimulationVerdict SimulationResult :=
  @parse_simulation ref_hex ref_alloy ref_hash_text ref_keccak (sample_answer success) (be_value (replicate 20 x01))
    [replicate 32 x02].

Lemma simulation_needs_every_event_witness :
  match sample_reading 1, sample_reading 0 with
  | VSuccess r, VRejected _ => @proves_bundle ref_keccak (be_value (replicate 20 x01)) [replicate 32 x02] r
  | _, _ => False
  end.
Proof.
  assert (Hb : match sample_reading 1, sample_reading 0 with
               | VSuccess _, VRejected _ => true | _, _ => false end = true) by (vm_compute; reflexivity).
  destruct (sample_reading 1) as [r| | | |] eqn:E, (sample_reading 0); try discriminate Hb. unfold sample_reading in E.
  apply (@simulation_needs_every_event ref_hex ref_alloy ref_hash_text ref_keccak (sample_answer 1)).
  left. exact E.
Defined.
