(* ===== verification/Execution.v ===== *)
(** * Execution: the vocabulary of the lane-batch program
    ([vela-relay-core/src/execution.rs], data and pure decisions)

    The operations the program asks of its shell, the answers, and the
    decisions that ask nothing.  The program itself is in the files
    [ExecutionTriage], [ExecutionBundle] and [ExecutionPipeline]. *)

From S2P Require Export Program Task Vault Simulation SettlementDecision Hold.
#[local] Open Scope string_scope.
#[local] Open Scope list_scope.
#[local] Open Scope Z_scope.

(** ** Inputs *)

Record ExecutionPolicy : Type := {
  pool_width : Z; max_bundle_operations : nat;
  gas_buffer_bps : Z; fixed_gas_buffer : Z;
  settlement_inclusion_floor_bps : Z; settlement_hold_max_attempts : Z;
  top_up_max_wei : Z; is_tempo : bool; treasury : Z; relayer : Z;
  relayer_float_cost_multiplier : Z; relayer_float_target_wei : Z; relayer_float_min_wei : Z;
  treasury_floor_wei : Z }.

(** [task::RoutedUserOperation] *)
Record RoutedUserOperation : Type := {
  r_schema_version : Z; r_user_operation_hash : string; r_chain_id : Z; r_entry_point : string;
  r_user_operation : Value; r_sender : string; r_lane : Z; r_stream : string;
  r_partition_id : Z; r_offset : Z; r_submission_tier : option SubmissionTier }.

Record StartBatch : Type := {
  operations : list RoutedUserOperation; policy : ExecutionPolicy; lease_token : string }.

Inductive ItemResolution : Type := Durable | ItemFailed (reason : string).

Record ResolvedChainAssets : Type := { assets : ChainAssetConfig; native_symbol : string }.

(** ** Simulation verdicts *)

Record BundleSimulationData : Type := {
  gas_used : Z; operation_gas_used : list Z; logs : list SettlementLog; full_execution : bool }.

Inductive OperationSimVerdict : Type :=
  | OpSuccess | OpExecuted (simulation : BundleSimulationData) | OpNonceMismatch
  | OpRejected (reason : string) | OpPending (reason : string) | OpTransient (reason : string).

Inductive BundleSimVerdict : Type :=
  | BundleSuccess (simulation : BundleSimulationData) | BundleNonceMismatch
  | BundleRejected (reason : string) | BundlePending (reason : string)
  | BundleTransient (reason : string).

Definition bundle_simulation_data (simulation : SimulationResult) : BundleSimulationData :=
  {| gas_used := sr_gas_used simulation;
     operation_gas_used := map su_actual_gas_used (sr_events simulation);
     logs := map (λ log, {| log_address := sl_address log; log_topics := sl_topics log;
                            log_data := sl_data log |}) (sr_logs simulation);
     full_execution := sr_full_execution simulation |}.

Definition operation_sim_verdict (verdict : SimulationVerdict SimulationResult) : OperationSimVerdict :=
  match verdict with
  | VSuccess simulation =>
      if sr_full_execution simulation then OpExecuted (bundle_simulation_data simulation) else OpSuccess
  | VNonceMismatch => OpNonceMismatch
  | VRejected reason => OpRejected reason
  | VPending reason => OpPending reason
  | VTransient reason => OpTransient reason
  end.

Definition bundle_sim_verdict (verdict : SimulationVerdict SimulationResult) : BundleSimVerdict :=
  match verdict with
  | VSuccess simulation => BundleSuccess (bundle_simulation_data simulation)
  | VNonceMismatch => BundleNonceMismatch
  | VRejected reason => BundleRejected reason
  | VPending reason => BundlePending reason
  | VTransient reason => BundleTransient reason
  end.

(** ** Transactions *)

Record TransactionContext : Type := {
  estimated_gas : Z; tc_base_fee_per_gas : Z; tc_max_fee_per_gas : Z; tc_max_priority_fee_per_gas : Z;
  tc_nonce : Z; relayer_balance : Z; tip_window : option TipWindow }.

Record SignedBundle : Type := {
  raw_transaction_hex : string; sb_transaction_hash : string; sb_nonce : Z }.

Record TreasurySignRequest : Type := {
  ts_nonce : Z; ts_gas_limit : Z; ts_amount : Z; ts_max_fee_per_gas : Z;
  ts_max_priority_fee_per_gas : Z }.

Record TempoTreasurySignRequest : Type := {
  tts_nonce : Z; tts_gas_limit : Z; tts_max_fee_per_gas : Z; tts_amount : Z }.

Record TempoSignRequest : Type := {
  tsr_nonce : Z; tsr_gas_limit : Z; tsr_max_fee_per_gas : Z; tsr_entry_point : Z;
  tsr_calldata : list byte }.

Record BundleSignRequest : Type := {
  bs_nonce : Z; bs_gas_limit : Z; bs_max_fee_per_gas : Z; bs_max_priority_fee_per_gas : Z;
  bs_entry_point : Z; bs_calldata : list byte }.

(** ** Operations and their answers *)

Inductive RejectionCause : Type :=
  | InvalidQueuedPayload (reason : string)
  | SimulationRejected (reason : string)
  | StaleNonce (user_nonce onchain_nonce : Z)
  | UnsupportedTempoFeeToken (fee_token : option Z).

(** [RejectionCause::code] *)
Definition cause_code (cause : RejectionCause) : RejectionReason :=
  match cause with
  | InvalidQueuedPayload _ => InvalidOperation
  | SimulationRejected _ => SimulationFailed
  | StaleNonce _ _ => NonceUsed
  | UnsupportedTempoFeeToken _ => UnsupportedFeeToken
  end.

(** [RejectionCause::diagnostic] *)
Definition cause_diagnostic `{Alloy} (cause : RejectionCause) : string * string :=
  match cause with
  | InvalidQueuedPayload reason => ("queue", reason)
  | SimulationRejected reason => ("simulation", "the operation fails when simulated: " +:+ reason)
  | StaleNonce user_nonce onchain_nonce =>
      ("nonce", "the account nonce " +:+ dec user_nonce +:+ " is already used on-chain (now " +:+
                dec onchain_nonce +:+ ")")
  | UnsupportedTempoFeeToken fee_token =>
      ("tempo_fee_token", "Tempo fees are paid in pathUSD; the operation named " +:+
                          match fee_token with Some token => address_to_string token | None => "none" end)
  end.

Inductive DeferCause : Type :=
  | AffordableMarketHold
  | FutureNonce (user_nonce onchain_nonce : Z).

Inductive ExecutionDiagnostic : Type :=
  | SimulationDeploymentWait (hash reason : string)
  | SimulationUnavailable (hash reason : string)
  | BundleSimulationRejected (reason : string)
  | BundleSimulationNonceMismatch
  | BundleSimulationDeploymentWait (reason : string)
  | DiagFloorUnfundable (quoted_fee affordable floor base_fee : Z)
  | Repriced (quoted_fee repriced_fee base_fee tip : Z)
  | SubmissionTierCap (tier : SubmissionTier) (quoted_fee cap base_fee tip market_tip : Z)
  | HoldBudgetExhausted (hash : string) (attempt paid required : Z)
  | SettlementRejected (hash : string) (payment_asset : option Z) (paid required : Z)
      (stable_logs_valid : bool)
  | TempoSettlementRejected (hash : string) (paid required : Z) (stable_logs_valid : bool)
  | TopUpCapUsd (native_units : Z)
  | TopUpCapUnconvertible
  | ExecutionDeferred (reason : string).

Inductive BroadcastReply : Type :=
  | ReplyAccepted (transaction_hash : string)
  | ReplyAmbiguous (reason : string)
  | ReplyRejected (reason : string).

Inductive ExecutionOperation : Type :=
  | CheckChainSupported
  | LoadChainAssets
  | LoadRecords (hashes : list string)
  | DeadLetterRouted (index : nat) (reason : string)
  | RestoreQueued (index : nat) (queued : QueuedUserOperation)
  | ReloadRecord (hash : string)
  | MarkAdmitted (hash : string)
  | MarkRejected (hash : string) (cause : RejectionCause)
  | MarkRejectedWithReason (hash stage reason : string) (code : RejectionReason)
  | DeferOperation (index : nat) (cause : DeferCause)
  | RecordDeferred (hash stage reason : string)
  | NotifyIssue (hash stage reason : string)
  | EmitDiagnostic (diagnostic : ExecutionDiagnostic)
  | AcquireLaneLease
  | EnsureLaneLease
  | LoadPreparedBundle
  | ResumeBundleIntent (intent : PreparedBundleIntent)
  | SimulateIndividually (entry_point : Z) (operations : list (list byte * PackedOperation))
  | FetchAccountNonces (entry_point : Z) (probes : list (Z * Z))
  | SimulateBundle (entry_point : Z) (operations : list (list byte * PackedOperation))
  | FetchTransactionContext (entry_point : Z) (calldata : list byte)
  | FetchMarketPrice
  | AcquireTreasuryLease
  | EnsureTreasuryLease
  | ReleaseTreasuryLease
  | LoadPreparedFunding
  | SaveFundingIntent (intent : PreparedFundingIntent)
  | ClearFundingIntent (transaction_hash : string)
  | FetchTreasuryContext
  | FetchTempoTreasuryContext (transfer_amount : Z)
  | SignTreasuryTransfer (request : TreasurySignRequest)
  | SignTreasuryPathUsd (request : TempoTreasurySignRequest)
  | AcquireReceiptProbe (transaction_hash : string)
  | FetchTransactionReceipt (transaction_hash : string)
  | Pause (ms : Z)
  | RecordTreasuryShortfall (treasury_balance required_treasury requested minimum top_up_gas_cost : Z)
  | RecordTempoTreasuryShortfall (treasury_balance required_treasury top_up top_up_gas_limit
                                  top_up_gas_cost : Z)
  | RecordPartialTopUp (requested submitted minimum : Z)
  | RecordFundingSubmitted (amount : Z) (transaction_hash : string) (tempo : bool)
  | RecordUnprovenFunding (transaction_hash : string) (ambiguous : bool) (reason : string)
  | NoteFundingReceipt (intent : PreparedFundingIntent) (success : bool)
  | SignBundle (request : BundleSignRequest)
  | SavePreparedBundle (intent : PreparedBundleIntent)
  | CheckBroadcastSeen (transaction_hash : string)
  | BroadcastRaw (raw_transaction : list byte) (transaction_hash : string)
  | RememberBroadcast (transaction_hash : string)
  | ForgetBroadcast (transaction_hash : string)
  | ProbeTransactionKnown (transaction_hash : string)
  | ProbeStaleNonce (intent : PreparedBundleIntent)
  | ClearStaleIntent (intent : PreparedBundleIntent) (reason : string)
  | RecordUnprovenBroadcast (transaction_hash : string) (ambiguous : bool) (reason : string)
  | MarkBundleSubmitted (intent : PreparedBundleIntent) (gas_limit : Z)
  | FetchTempoContext
  | SignTempoBundle (request : TempoSignRequest).

Inductive ExecutionOutcome : Type :=
  | Supported (supported : bool)
  | OutAssets (resolved : ResolvedChainAssets)
  | AssetsUnavailable (reason : string)
  | Records (records : list (option StoredUserOperation))
  | OutRecord (record : option StoredUserOperation)
  | Persisted (persisted : bool)
  | Marked (marked : bool)
  | Deferred (attempt : Z)
  | Done
  | LeaseAcquired (acquired : bool)
  | LeaseHeld (held : bool)
  | OutIntent (intent : option PreparedBundleIntent)
  | Resumed (known_outcome : bool)
  | OperationVerdicts (verdicts : list OperationSimVerdict)
  | AccountNonces (nonces : list (option Z))
  | BundleVerdict (verdict : BundleSimVerdict)
  | OutContext (context : TransactionContext)
  | Price (price : Z)
  | FundingIntent (intent : option PreparedFundingIntent)
  | OutTreasuryContext (nonce balance : Z) (raw_gas_estimate : option Z)
  | TempoTreasuryContext (nonce balance raw_gas_estimate : Z)
  | Receipt (receipt : option Value)
  | Signed (signed : SignedBundle)
  | Saved (saved : bool)
  | Seen (seen : bool)
  | Sent (reply : BroadcastReply)
  | Known (known : bool)
  | Stale (stale : bool)
  | Indexed (indexed : nat)
  | TempoContext (base_fee_atto nonce relayer_path_usd_balance : Z)
  | OutFailed (message : string)
  | Interrupted (reason : string).

Notation ExecutionTrace := (trace ExecutionOperation ExecutionOutcome).

(** A simulation's answer accounts for the gas of every operation simulated.
    Both shells' answers do: [LaneSimulate.lane_reports_gas] and
    [Deployer.server_reports_gas]. *)
Definition reports_gas (x : ExecutionOperation * ExecutionOutcome) : Prop :=
  match x with
  | (SimulateBundle _ operations, BundleVerdict (BundleSuccess simulation)) =>
      length (operation_gas_used simulation) = length operations
  | (SimulateIndividually _ _, OperationVerdicts verdicts) =>
      Forall (λ verdict, match verdict with
                         | OpExecuted simulation => length (operation_gas_used simulation) = 1%nat
                         | _ => True
                         end) verdicts
  | _ => True
  end.

(** ** Asking the shell *)

Notation Flow := (flow ExecutionOperation ExecutionOutcome string).

Definition request (operation : ExecutionOperation) : Flow ExecutionOutcome :=
  outcome ← ask operation;
  match outcome with
  | Interrupted reason => settle reason
  | outcome => mret outcome
  end.

Definition request_unfenced (operation : ExecutionOperation) : Flow ExecutionOutcome := ask operation.

Definition UNEXPECTED : string := "unexpected shell response".

(** The matches on an answer that read one variant, fail with the message of
    a [Failed] and call anything else unexpected. *)
Definition expect {A} (read : ExecutionOutcome → option A) (operation : ExecutionOperation) : Flow A :=
  outcome ← request operation;
  match read outcome with
  | Some a => mret a
  | None => settle (match outcome with OutFailed message => message | _ => UNEXPECTED end)
  end.

(** The same without the arm for a [Failed]. *)
Definition expect_only {A} (read : ExecutionOutcome → option A) (operation : ExecutionOperation) : Flow A :=
  outcome ← request operation;
  match read outcome with
  | Some a => mret a
  | None => settle UNEXPECTED
  end.

(** [if let Failed { message } = request(..).await? { return Err(message) }] *)
Definition unless_failed (operation : ExecutionOperation) : Flow () :=
  outcome ← request operation;
  match outcome with OutFailed message => settle message | _ => mret tt end.

(** An operation whose answer is not looked at. *)
Definition note (operation : ExecutionOperation) : Flow () := _ ← request operation; mret tt.
Definition note_unfenced (operation : ExecutionOperation) : Flow () :=
  _ ← request_unfenced operation; mret tt.

Definition emit_diagnostic (diagnostic : ExecutionDiagnostic) : Flow () :=
  note_unfenced (EmitDiagnostic diagnostic).

Definition read_acquired o := match o with LeaseAcquired acquired => Some acquired | _ => None end.
Definition read_held o := match o with LeaseHeld held => Some held | _ => None end.
Definition read_intent o := match o with OutIntent intent => Some intent | _ => None end.
Definition read_resumed o := match o with Resumed known => Some known | _ => None end.
Definition read_verdicts o := match o with OperationVerdicts verdicts => Some verdicts | _ => None end.
Definition read_bundle_verdict o := match o with BundleVerdict verdict => Some verdict | _ => None end.
Definition read_context o := match o with OutContext context => Some context | _ => None end.
Definition read_funding o := match o with FundingIntent intent => Some intent | _ => None end.
Definition read_receipt o := match o with Receipt receipt => Some receipt | _ => None end.
Definition read_signed o := match o with Signed signed => Some signed | _ => None end.
Definition read_saved o := match o with Saved saved => Some saved | _ => None end.
Definition read_seen o := match o with Seen seen => Some seen | _ => None end.
Definition read_sent o := match o with Sent reply => Some reply | _ => None end.
Definition read_known o := match o with Known known => Some known | _ => None end.
Definition read_stale o := match o with Stale stale => Some stale | _ => None end.
Definition read_indexed o := match o with Indexed indexed => Some indexed | _ => None end.
Definition read_treasury o :=
  match o with OutTreasuryContext nonce balance raw => Some (nonce, balance, raw) | _ => None end.
Definition read_tempo_treasury o :=
  match o with TempoTreasuryContext nonce balance raw => Some (nonce, balance, raw) | _ => None end.
Definition read_tempo_context o :=
  match o with TempoContext base nonce balance => Some (base, nonce, balance) | _ => None end.

(** ** Deferral diagnostics *)

Definition should_notify_executor_deferred (stage : string) : bool :=
  existsb (String.eqb stage)
    ["rpc"; "assets"; "simulation"; "bundle_simulation"; "broadcast"; "execution"].

Definition record_deferred (hash stage reason : string) : Flow () :=
  _ ← note_unfenced (RecordDeferred hash stage reason);
  if should_notify_executor_deferred stage
  then note_unfenced (NotifyIssue hash stage reason) else mret tt.

(** ** Results *)

Notation Results := (list (option ItemResolution)).

Definition new_results (len : nat) : Results := replicate len None.
Definition durable (index : nat) (results : Results) : Results := <[index := Some Durable]> results.
Definition failed (index : nat) (reason : string) (results : Results) : Results :=
  <[index := Some (ItemFailed reason)]> results.
Definition is_settled (results : Results) (index : nat) : bool :=
  match results !! index with Some (Some _) => true | _ => false end.
Definition finish (results : Results) (default_reason : string) : list ItemResolution :=
  map (default (ItemFailed default_reason)) results.
Definition all_failed (len : nat) (reason : string) : list ItemResolution :=
  replicate len (ItemFailed reason).

Definition DEFERRED_FINISH : string := "UserOperation execution was deferred".
Definition FUNDING_WAIT_FINISH : string := "UserOperation is waiting for its relayer's top-up".
Definition TOP_UP_SIGNED_AGAIN : string := "it will be signed again".
Definition NO_OUTCOME_FINISH : string := "no durable executor outcome".
Definition UNMEASURED_SIMULATION : string :=
  "final handleOps simulation measured no gas on a chain billed on measured gas".
