(* ===== verification/ExecutionTriage.v ===== *)
(** * ExecutionTriage: the batch before and beside the bundle
    ([vela-relay-core/src/execution.rs])

    The triage of a batch's operations, and the funding of its relayer. *)

From S2P Require Export Execution.
#[local] Open Scope string_scope.
#[local] Open Scope list_scope.
#[local] Open Scope Z_scope.

(** * ExecutionTriage: what the executor admits to a bundle
    ([vela-relay-core/src/execution.rs], validation of routed envelopes and
    records) *)

Record Candidate : Type := {
  result_index : nat; cand_hash : list byte; hash_string : string; cand_entry_point : Z;
  cand_packed : PackedOperation; submission_tier : option SubmissionTier }.

Section Triage.
Context `{HA : Alloy} `{HT : !HashText} `{HK : Keccak}.

(** [parse_address], [parse_hash] *)
Definition route_address (value error : string) : result string Z := ok_or (address_from_str value) error.
Definition route_hash (value error : string) : result string (list byte) := ok_or (b256_from_str value) error.

(** [result.then]: an [Err] unless the condition holds. *)
Definition ensure (condition : bool) (error : string) : result string () :=
  if condition then Ok tt else Err error.

Definition queued_operation_from_routed (routed : RoutedUserOperation) (pool_width : Z) :
    result string QueuedUserOperation :=
  operation ← ok_or (de_user_operation (r_user_operation routed))
                "queue UserOperation payload is not canonical v0.7 JSON";
  _ ← ensure (value_eqb (ser_user_operation operation) (r_user_operation routed))
        "queue UserOperation payload is not canonical JSON";
  entry_point ← route_address (r_entry_point routed) "queue EntryPoint address is invalid";
  hash ← route_hash (r_user_operation_hash routed) "queue UserOperation hash is invalid";
  packed ← map_err (λ _, "could not pack queue UserOperation") (pack operation);
  _ ← ensure (negb (has_eip7702_authorization packed))
        "EIP-7702 UserOperations are not enabled in the executor";
  _ ← ensure (eq_ignore_ascii_case (address_to_string (po_sender packed)) (r_sender routed))
        "queue sender does not match UserOperation sender";
  _ ← ensure (bool_decide (relayer_index_for_sender (r_sender routed) pool_width = r_lane routed))
        "sender route does not match relayer lane";
  _ ← ensure (bool_decide (user_operation_hash packed entry_point (r_chain_id routed) = hash))
        "queue UserOperation hash does not match immutable payload";
  Ok {| q_user_operation_hash := to_ascii_lowercase (r_user_operation_hash routed);
        q_chain_id := r_chain_id routed; q_entry_point := r_entry_point routed;
        q_user_operation := operation |}.

Definition candidate_from_record (index : nat) (routed : RoutedUserOperation)
    (record : StoredUserOperation) (pool_width : Z) : result string Candidate :=
  hash ← route_hash (r_user_operation_hash routed) "queue UserOperation hash is invalid";
  entry_point ← route_address (r_entry_point routed) "queue EntryPoint address is invalid";
  _ ← ensure (bool_decide (relayer_index_for_sender (r_sender routed) pool_width = r_lane routed))
        "sender route does not match relayer lane";
  packed ← map_err (λ _, "could not pack queued UserOperation") (pack (user_operation record));
  _ ← ensure (negb (has_eip7702_authorization packed))
        "EIP-7702 UserOperations are not enabled in the executor";
  _ ← ensure (eq_ignore_ascii_case (address_to_string (po_sender packed)) (r_sender routed))
        "queue sender does not match UserOperation sender";
  _ ← ensure (bool_decide (user_operation_hash packed entry_point (r_chain_id routed) = hash))
        "queue UserOperation hash does not match immutable payload";
  Ok {| result_index := index; cand_hash := hash;
        hash_string := to_ascii_lowercase (r_user_operation_hash routed);
        cand_entry_point := entry_point; cand_packed := packed;
        submission_tier := r_submission_tier routed |}.

(** The fastest of the speeds named, an unnamed one counting as [Standard];
    the derived [Ord::max]. *)
Definition faster (a b : SubmissionTier) : SubmissionTier :=
  if decide (tier_index a ≤ tier_index b) then b else a.

Definition bundle_submission_tier (candidates : list Candidate) : option SubmissionTier :=
  if existsb (λ c, match submission_tier c with Some _ => true | None => false end) candidates
  then
    match map (λ c, default Standard (submission_tier c)) candidates with
    | [] => Some Standard
    | tier :: tiers => Some (foldl faster tier tiers)
    end
  else None.

Definition queue_record_matches (routed : RoutedUserOperation) (record : StoredUserOperation) : bool :=
  bool_decide (chain_id record = r_chain_id routed) &&
  eq_ignore_ascii_case (entry_point record) (r_entry_point routed) &&
  value_eqb (ser_user_operation (user_operation record)) (r_user_operation routed).

Inductive AdmissionAction : Type := Execute | Recover | DeadLetter.

Definition admission_action (admitted envelope_matches : bool) : AdmissionAction :=
  match admitted, envelope_matches with
  | _, false => DeadLetter
  | false, true => Recover
  | true, true => Execute
  end.

(** ** Replaying a prepared bundle *)

Record BundleReplayAudit : Type := {
  active : nat; awaiting_submission : nat; terminal : nat; expired : nat }.

(** One member: how it counts, or why the outbox is refused. *)
Definition audit_member (intent : PreparedBundleIntent) (audit : BundleReplayAudit)
    (hash : string) (record : option StoredUserOperation) : result string BundleReplayAudit :=
  match record with
  | None => Ok {| active := active audit; awaiting_submission := awaiting_submission audit;
                  terminal := terminal audit; expired := S (expired audit) |}
  | Some record =>
      if negb (bool_decide (chain_id record = bi_chain_id intent)) ||
         negb (eq_ignore_ascii_case (entry_point record) (bi_entry_point intent))
      then Err ("prepared bundle member " +:+ hash +:+ " no longer matches its chain and EntryPoint")
      else
        match status record with
        | Queued | NotSubmitted =>
            if negb (admitted record)
            then Err ("prepared bundle member " +:+ hash +:+ " is no longer admitted")
            else Ok {| active := S (active audit); awaiting_submission := S (awaiting_submission audit);
                       terminal := terminal audit; expired := expired audit |}
        | Submitted =>
            if match transaction_hash record with
               | Some transaction_hash => eq_ignore_ascii_case transaction_hash (bi_transaction_hash intent)
               | None => false
               end
            then Ok {| active := S (active audit); awaiting_submission := awaiting_submission audit;
                       terminal := terminal audit; expired := expired audit |}
            else Err ("prepared bundle member " +:+ hash +:+ " belongs to another transaction")
        | Rejected | Included | Failed =>
            Ok {| active := active audit; awaiting_submission := awaiting_submission audit;
                  terminal := S (terminal audit); expired := expired audit |}
        | NotFound => Err ("prepared bundle member " +:+ hash +:+ " has an invalid stored status")
        end
  end.

Fixpoint audit_members (intent : PreparedBundleIntent) (audit : BundleReplayAudit)
    (members : list (string * option StoredUserOperation)) : result string BundleReplayAudit :=
  match members with
  | [] => Ok audit
  | (hash, record) :: members =>
      audit ← audit_member intent audit hash record; audit_members intent audit members
  end.

Definition audit_bundle_replay (intent : PreparedBundleIntent)
    (records : list (option StoredUserOperation)) : result string BundleReplayAudit :=
  if negb (bool_decide (length records = length (bi_user_operation_hashes intent)))
  then Err "Redis returned incomplete prepared bundle membership"
  else audit_members intent {| active := 0; awaiting_submission := 0; terminal := 0; expired := 0 |}
         (zip (bi_user_operation_hashes intent) records).

End Triage.

(** * ExecutionFunding: the relayer's top-up inside a batch
    ([vela-relay-core/src/execution.rs], the treasury funding programs) *)

Section Funding.
Context `{HA : Alloy} `{HT : !HashText} `{HK : Keccak}.

Definition ensure_treasury_lease : Flow () :=
  held ← expect read_held EnsureTreasuryLease;
  if held : bool then mret tt else settle "executor lease was lost".

(** ** Giving a top-up up *)

Definition discard_funding (intent : PreparedFundingIntent) (why : string) : Flow () :=
  _ ← unless_failed (ClearFundingIntent (fi_transaction_hash intent));
  settle why.

Definition discard_refused_funding (intent : PreparedFundingIntent) (reason : string) : Flow () :=
  discard_funding intent
    ("the chain refused the treasury relayer top-up " +:+ fi_transaction_hash intent +:+ "; " +:+
     TOP_UP_SIGNED_AGAIN +:+ ": " +:+ reason).

Definition await_or_discard_unseen_funding (intent : PreparedFundingIntent) : Flow () :=
  known ← expect_only read_known (ProbeTransactionKnown (fi_transaction_hash intent));
  if known : bool then mret tt
  else discard_funding intent
         ("no node has the treasury relayer top-up " +:+ fi_transaction_hash intent +:+ "; " +:+
          TOP_UP_SIGNED_AGAIN).

Definition forget_funding_broadcast (intent : PreparedFundingIntent) : Flow () :=
  note_unfenced (ForgetBroadcast (fi_transaction_hash intent)).

(** ** The broadcast *)

Definition funding_reply (intent : PreparedFundingIntent) (reply : BroadcastReply) : Flow () :=
  match reply with
  | ReplyAccepted transaction_hash =>
      if eq_ignore_ascii_case transaction_hash (fi_transaction_hash intent)
      then note_unfenced (RememberBroadcast (fi_transaction_hash intent))
      else _ ← forget_funding_broadcast intent;
           settle "RPC returned a different funding transaction hash"
  | ReplyAmbiguous reason =>
      _ ← forget_funding_broadcast intent;
      note (RecordUnprovenFunding (fi_transaction_hash intent) true reason)
  | ReplyRejected reason =>
      _ ← forget_funding_broadcast intent;
      known ← expect_only read_known (ProbeTransactionKnown (fi_transaction_hash intent));
      if known : bool then note_unfenced (RememberBroadcast (fi_transaction_hash intent))
      else if is_definitive_broadcast_rejection reason then discard_refused_funding intent reason
      else note (RecordUnprovenFunding (fi_transaction_hash intent) false reason)
  end.

Definition broadcast_funding (intent : PreparedFundingIntent) : Flow () :=
  _ ← lift_result (map_err raw_transaction_error_text
        (validate_raw_transaction (fi_raw_transaction intent) (fi_transaction_hash intent)));
  seen ← expect_only read_seen (CheckBroadcastSeen (fi_transaction_hash intent));
  if seen : bool then mret tt
  else
    let raw := default [] (parse_hex_bytes (fi_raw_transaction intent)) in
    outcome ← request (BroadcastRaw raw (fi_transaction_hash intent));
    match outcome with
    | Sent reply => funding_reply intent reply
    | OutFailed message => _ ← forget_funding_broadcast intent; settle message
    | _ => settle UNEXPECTED
    end.

(** ** The receipt *)

Definition settle_funding_receipt (intent : PreparedFundingIntent) (receipt : Value) : Flow () :=
  match receipt_succeeded receipt with
  | None => settle "funding transaction receipt has invalid status"
  | Some success =>
      _ ← unless_failed (ClearFundingIntent (fi_transaction_hash intent));
      _ ← forget_funding_broadcast intent;
      _ ← note (NoteFundingReceipt intent success);
      if success : bool then mret tt
      else settle ("treasury relayer top-up transaction reverted: " +:+ fi_transaction_hash intent)
  end.

Definition resume_funding (intent : PreparedFundingIntent) : Flow () :=
  _ ← broadcast_funding intent;
  acquired ← expect read_acquired (AcquireReceiptProbe (fi_transaction_hash intent));
  if acquired : bool then
    receipt ← expect read_receipt (FetchTransactionReceipt (fi_transaction_hash intent));
    match receipt with
    | None => await_or_discard_unseen_funding intent
    | Some receipt => settle_funding_receipt intent receipt
    end
  else mret tt.

(** The loop [for _ in 0..wait.polls]. *)
Fixpoint await_loop (polls : nat) (pause_ms : Z) (intent : PreparedFundingIntent) : Flow bool :=
  match polls with
  | O => mret false
  | S polls =>
      _ ← note (Pause pause_ms);
      outcome ← request (FetchTransactionReceipt (fi_transaction_hash intent));
      match outcome with
      | Receipt (Some receipt) => _ ← settle_funding_receipt intent receipt; mret true
      | Receipt None | OutFailed _ => await_loop polls pause_ms intent
      | _ => settle UNEXPECTED
      end
  end.

Definition await_fresh_top_up (chain_id : Z) (intent : PreparedFundingIntent) : Flow bool :=
  let wait := top_up_receipt_wait chain_id in
  await_loop (Z.to_nat (polls wait)) (pause_ms wait) intent.

(** ** Saving a signed top-up *)

Definition funding_intent (policy : ExecutionPolicy) (chain_id amount : Z) (signed : SignedBundle) :
    PreparedFundingIntent :=
  {| fi_chain_id := chain_id; fi_relayer := address_to_string (relayer policy); fi_amount_wei := amount;
     fi_raw_transaction := raw_transaction_hex signed; fi_transaction_hash := sb_transaction_hash signed;
     fi_nonce := sb_nonce signed |}.

(** The tail both currencies share once the transfer is signed: under the
    lease, save the intent or resume the one that is there; broadcast it,
    note it and wait for it. *)
Definition save_and_send (intent : PreparedFundingIntent) (amount chain_id : Z) (tempo : bool)
    (pending : string) : Flow bool :=
  _ ← ensure_treasury_lease;
  saved ← expect read_saved (SaveFundingIntent intent);
  if saved : bool then
    _ ← broadcast_funding intent;
    _ ← note (RecordFundingSubmitted amount (fi_transaction_hash intent) tempo);
    await_fresh_top_up chain_id intent
  else
    existing ← expect read_funding LoadPreparedFunding;
    match existing with
    | Some existing => _ ← resume_funding existing; mret false
    | None => settle pending
    end.

(** ** The native coin *)

Definition native_funding_locked (policy : ExecutionPolicy) (chain_id relayer_balance required_prefund
    max_fee_per_gas max_priority_fee_per_gas top_up_max : Z) : Flow bool :=
  prepared ← expect read_funding LoadPreparedFunding;
  match prepared with
  | Some intent => _ ← resume_funding intent; mret false
  | None =>
      plan ← lift_result (map_err funding_plan_error_text
               (plan_native_top_up relayer_balance required_prefund
                  (relayer_float_cost_multiplier policy) (relayer_float_target_wei policy)
                  (relayer_float_min_wei policy) top_up_max));
      '(nonce, treasury_balance, raw_gas_estimate) ← expect read_treasury FetchTreasuryContext;
      let gas_limit := native_top_up_gas_limit raw_gas_estimate in
      protected_treasury ← lift_result (map_err funding_plan_error_text
        (native_top_up_reserve gas_limit max_fee_per_gas (treasury_floor_wei policy)));
      let top_up_gas_cost := protected_treasury - treasury_floor_wei policy in
      match treasury_affordable_top_up (amount_capped plan) (deficit plan) treasury_balance
              protected_treasury with
      | None =>
          required_treasury ← lift_result (ok_or (checked 256 (deficit plan + protected_treasury))
                                             "treasury balance requirement overflow");
          _ ← note (RecordTreasuryShortfall treasury_balance required_treasury (amount_capped plan)
                      (deficit plan) top_up_gas_cost);
          settle "treasury balance cannot cover the current UserOperation prefund, top-up gas, and reserve floor"
      | Some amount =>
          _ ← (if decide (amount < amount_capped plan)
               then note (RecordPartialTopUp (amount_capped plan) amount (deficit plan)) else mret tt);
          amount_u128 ← lift_result (ok_or (checked 128 amount) "top-up amount exceeds uint128");
          _ ← ensure_treasury_lease;
          signed ← expect read_signed
            (SignTreasuryTransfer {| ts_nonce := nonce; ts_gas_limit := gas_limit; ts_amount := amount;
                                     ts_max_fee_per_gas := max_fee_per_gas;
                                     ts_max_priority_fee_per_gas := max_priority_fee_per_gas |});
          save_and_send (funding_intent policy chain_id amount_u128 signed) amount chain_id false
            "another treasury relayer top-up is pending"
      end
  end.

(** [let result = locked().await; release; result] under the lease. *)
Definition under_treasury_lease (locked : Flow bool) : Flow bool :=
  outcome ← request AcquireTreasuryLease;
  match outcome with
  | LeaseAcquired true =>
      prog_bind (λ result, prog_bind (λ _, Ret result) (request_unfenced ReleaseTreasuryLease)) locked
  | OutFailed message => settle message
  | _ => mret false
  end.

Definition ensure_native_funding (policy : ExecutionPolicy) (chain_id relayer_balance required_prefund
    max_fee_per_gas max_priority_fee_per_gas top_up_max : Z) : Flow bool :=
  under_treasury_lease
    (native_funding_locked policy chain_id relayer_balance required_prefund max_fee_per_gas
       max_priority_fee_per_gas top_up_max).

(** ** pathUSD *)

Definition tempo_funding_locked (policy : ExecutionPolicy) (chain_id relayer_path_usd_balance
    required_prefund outer_max_fee : Z) : Flow bool :=
  prepared ← expect read_funding LoadPreparedFunding;
  match prepared with
  | Some intent => _ ← resume_funding intent; mret false
  | None =>
      plan ← lift_result (map_err (λ _, "Tempo relayer funding amount underflow")
               (plan_tempo_top_up relayer_path_usd_balance required_prefund));
      match plan with
      | None => mret true
      | Some amount =>
          amount_u128 ← lift_result (ok_or (checked 128 amount) "Tempo relayer top-up exceeds uint128");
          '(nonce, treasury_balance, raw_gas_estimate) ←
            expect read_tempo_treasury (FetchTempoTreasuryContext amount);
          top_up_gas_limit ← lift_result (ok_or (buffered_top_up_gas_limit raw_gas_estimate)
                                            "Tempo pathUSD top-up gas buffer overflow");
          top_up_gas_cost ← lift_result (ok_or (tempo_cost_in_path_usd top_up_gas_limit outer_max_fee)
                                           "Tempo pathUSD cost overflow");
          required_treasury ← lift_result
            (ok_or (value ← checked 256 (amount + top_up_gas_cost); checked 256 (value + TEMPO_TREASURY_FLOOR))
               "Tempo treasury balance requirement overflow");
          if decide (treasury_balance < required_treasury) then
            _ ← note (RecordTempoTreasuryShortfall treasury_balance required_treasury amount
                        top_up_gas_limit top_up_gas_cost);
            settle "Tempo treasury pathUSD is below top-up amount, gas, and reserve floor"
          else
            _ ← ensure_treasury_lease;
            signed ← expect read_signed
              (SignTreasuryPathUsd {| tts_nonce := nonce; tts_gas_limit := top_up_gas_limit;
                                      tts_max_fee_per_gas := outer_max_fee; tts_amount := amount |});
            save_and_send (funding_intent policy chain_id amount_u128 signed) amount chain_id true
              "another Tempo treasury relayer top-up is pending"
      end
  end.

Definition ensure_tempo_funding (policy : ExecutionPolicy) (chain_id relayer_path_usd_balance
    required_prefund outer_max_fee : Z) : Flow bool :=
  under_treasury_lease
    (tempo_funding_locked policy chain_id relayer_path_usd_balance required_prefund outer_max_fee).

End Funding.
