(* ===== verification/Tempo.v ===== *)
(** * Tempo: the outer [0x76] transaction's gas
    ([vela-relay-core/src/tempo.rs]) *)

From S2P Require Export Abi.
#[local] Open Scope string_scope.
#[local] Open Scope Z_scope.

(** The sum of what the operations declare. *)
Definition tempo_declared_step (total : option Z) (operation : PackedOperation) : option Z :=
  let limits := p_accountGasLimits (packed operation) in
  let verification := be_value (take 16 limits) in
  let call := be_value (drop 16 limits) in
  total ← total;
  total ← checked 256 (total + verification);
  total ← checked 256 (total + call);
  checked 256 (total + p_preVerificationGas (packed operation)).

Definition tempo_handle_ops_gas_limit (operations : list PackedOperation) : result string Z :=
  declared ← ok_or (foldl tempo_declared_step (Some 0) operations) "Tempo declared gas overflow";
  gas ← ok_or
    (value ← checked 256 (declared * 64);
     let value := value / 63 in
     extra ← checked 256 (Z.of_nat (length operations) * 50000);
     value ← checked 256 (value + extra);
     checked 256 (value + 60000)) "Tempo outer gas limit overflow";
  ok_or (checked 64 gas) "Tempo outer gas limit exceeds uint64".

(** The limit covers what the operations declare even after EIP-150 has kept
    a 64th of it back. *)
Lemma tempo_gas_limit_covers operations limit :
  tempo_handle_ops_gas_limit operations = Ok limit →
  ∃ declared, foldl tempo_declared_step (Some 0) operations = Some declared ∧
    64 * declared ≤ 63 * limit ∧ fits 64 limit.
Proof.
  unfold tempo_handle_ops_gas_limit. intros H. inv_checked. eexists. split; [done|].
  split; [|done].
  pose proof (Zle_0_nat (length operations)). Z.to_euclidean_division_equations. lia.
Qed.
