(* ===== verification/ExecutionBundle.v ===== *)
(** * ExecutionBundle: the bundle, from its simulation to the outbox
    ([vela-relay-core/src/execution.rs]) *)

From S2P Require Export ExecutionTriage Tempo.
#[local] Open Scope string_scope.
#[local] Open Scope list_scope.
#[local] Open Scope Z_scope.

(** * ExecutionBundle: one bundle under the lane lease
    ([vela-relay-core/src/execution.rs], [execute_with_lane_lease] and what it
    calls) *)

(** A function of the leased pipeline that takes [&mut Results]. *)
Notation Batch := (sflow ExecutionOperation ExecutionOutcome Results string).

Definition set_durable (index : nat) : Batch () := modify (durable index).
Definition set_failed (index : nat) (reason : string) : Batch () := modify (failed index reason).

(** A [for] loop. *)
Fixpoint for_each {A} (body : A → Batch ()) (l : list A) : Batch () :=
  match l with
  | [] => mret tt
  | x :: l => _ ← body x; for_each body l
  end.

(** [Vec::truncate(1)] of both vectors, and the pairs a bundle is made of. *)
Definition bundle_operations (candidates : list Candidate) : list (list byte * PackedOperation) :=
  map (λ c, (cand_hash c, cand_packed c)) candidates.

Section Bundle.
Context `{HA : Alloy} `{HT : !HashText} `{HK : Keccak} `{HS : SolCalls} `{W : TargetWidth}.

Definition ensure_lane_lease : Flow () :=
  held ← expect read_held EnsureLaneLease;
  if held : bool then mret tt else settle "executor lease was lost".

(** ** The broadcast *)

Definition remember_broadcast (intent : PreparedBundleIntent) : Flow () :=
  note_unfenced (RememberBroadcast (bi_transaction_hash intent)).
Definition forget_broadcast (intent : PreparedBundleIntent) : Flow () :=
  note_unfenced (ForgetBroadcast (bi_transaction_hash intent)).
Definition note_unproven (intent : PreparedBundleIntent) (ambiguous : bool) (reason : string) : Flow () :=
  note_unfenced (RecordUnprovenBroadcast (bi_transaction_hash intent) ambiguous reason).

Definition unproven_broadcast (intent : PreparedBundleIntent) (ambiguous : bool) (reason : string) :
    Flow bool :=
  _ ← forget_broadcast intent;
  known ← expect_only read_known (ProbeTransactionKnown (bi_transaction_hash intent));
  match resolve_unproven_broadcast reason known with
  | Confirmed => _ ← remember_broadcast intent; mret true
  | CheckStaleNonce =>
      stale ← expect_only read_stale (ProbeStaleNonce intent);
      if stale : bool then _ ← unless_failed (ClearStaleIntent intent reason); mret false
      else _ ← note_unproven intent ambiguous reason; mret false
  | RetainOutbox => _ ← note_unproven intent ambiguous reason; mret false
  end.

Definition broadcast_bundle (intent : PreparedBundleIntent) : Flow bool :=
  _ ← lift_result (map_err raw_transaction_error_text
        (validate_raw_transaction (bi_raw_transaction intent) (bi_transaction_hash intent)));
  seen ← expect_only read_seen (CheckBroadcastSeen (bi_transaction_hash intent));
  if seen : bool then mret true
  else
    let raw := default [] (parse_hex_bytes (bi_raw_transaction intent)) in
    outcome ← request (BroadcastRaw raw (bi_transaction_hash intent));
    match outcome with
    | Sent (ReplyAccepted transaction_hash) =>
        if eq_ignore_ascii_case transaction_hash (bi_transaction_hash intent)
        then _ ← remember_broadcast intent; mret true
        else _ ← forget_broadcast intent;
             settle "RPC returned a transaction hash different from the signed bytes"
    | Sent (ReplyAmbiguous reason) => unproven_broadcast intent true reason
    | Sent (ReplyRejected reason) => unproven_broadcast intent false reason
    | OutFailed message => _ ← forget_broadcast intent; settle message
    | _ => settle UNEXPECTED
    end.

(** ** Deferrals *)

Definition record_candidates_deferred (candidates : list Candidate) (stage reason : string) : Flow () :=
  foldr (λ c rest, _ ← record_deferred (hash_string c) stage reason; rest) (mret tt) candidates.

(** ** Save, broadcast, mark *)

(** The texts in which the EIP-1559 and the Tempo tails differ. *)
Record TailTexts : Type := { raced : string; unconfirmed : string; unmarked : string }.

Definition native_texts : TailTexts :=
  {| raced := "prepared bundle raced and disappeared";
     unconfirmed := "signed handleOps transaction awaits broadcast confirmation";
     unmarked := "not every signed UserOperation entered submitted state" |}.
Definition tempo_texts : TailTexts :=
  {| raced := "prepared Tempo bundle raced and disappeared";
     unconfirmed := "signed Tempo handleOps transaction awaits broadcast confirmation";
     unmarked := "not every signed Tempo UserOperation entered submitted state" |}.

(** From the signed transaction to the operations' submitted state, the tail
    both bundles share. *)
Definition submit_bundle (texts : TailTexts) (intent : PreparedBundleIntent) (gas_limit : Z)
    (survivors : list Candidate) : Batch () :=
  _ ← lift_flow ensure_lane_lease;
  saved ← lift_flow (expect read_saved (SavePreparedBundle intent));
  if negb saved then
    existing ← lift_flow (expect read_intent LoadPreparedBundle);
    match existing with
    | None => lift_flow (settle (raced texts))
    | Some existing => _ ← lift_flow (expect read_resumed (ResumeBundleIntent existing)); mret tt
    end
  else
    confirmed ← lift_flow (broadcast_bundle intent);
    if negb confirmed then
      lift_flow (record_candidates_deferred survivors "broadcast" (unconfirmed texts))
    else
      indexed ← lift_flow (expect read_indexed (MarkBundleSubmitted intent gas_limit));
      if negb (bool_decide (indexed = length (bi_user_operation_hashes intent)))
      then lift_flow (settle (unmarked texts))
      else for_each (λ c, set_durable (result_index c)) survivors.

Definition bundle_intent (start : StartBatch) (entry_point : Z) (signed : SignedBundle)
    (survivors : list Candidate) (billed_gas billed_fee_per_gas : option string) :
    PreparedBundleIntent :=
  {| bi_chain_id := match operations start with op :: _ => r_chain_id op | [] => 0 end;
     bi_lane := match operations start with op :: _ => r_lane op | [] => 0 end;
     bi_entry_point := address_to_string entry_point;
     bi_raw_transaction := raw_transaction_hex signed;
     bi_transaction_hash := sb_transaction_hash signed; bi_nonce := sb_nonce signed;
     bi_user_operation_hashes := map hash_string survivors;
     bi_billed_gas := billed_gas; bi_billed_fee_per_gas := billed_fee_per_gas |}.

(** ** Nonce mismatches *)

Definition LOOKUP_UNAVAILABLE : string := "account nonce lookup is temporarily unavailable".

Definition resolve_nonce_mismatch (mismatch : Candidate * option Z) : Batch () :=
  let '(candidate, onchain_nonce) := mismatch in
  match onchain_nonce with
  | None => set_failed (result_index candidate) LOOKUP_UNAVAILABLE
  | Some onchain_nonce =>
      let user_nonce := p_nonce (packed (cand_packed candidate)) in
      if decide (onchain_nonce < user_nonce) then
        outcome ← lift_flow (request (DeferOperation (result_index candidate)
                                        (FutureNonce user_nonce onchain_nonce)));
        match outcome with
        | Deferred _ => set_durable (result_index candidate)
        | _ => set_failed (result_index candidate) "could not persist future UserOperation"
        end
      else
        outcome ← lift_flow (request (MarkRejected (hash_string candidate)
                                        (StaleNonce user_nonce onchain_nonce)));
        match outcome with
        | OutFailed _ => set_failed (result_index candidate) "could not persist stale nonce rejection"
        | _ => set_durable (result_index candidate)
        end
  end.

Definition resolve_nonce_mismatches (entry_point : Z) (mismatches : list Candidate) : Batch () :=
  outcome ← lift_flow (request (FetchAccountNonces entry_point
    (map (λ c, (po_sender (cand_packed c), p_nonce (packed (cand_packed c)))) mismatches)));
  let unavailable := for_each (λ c, set_failed (result_index c) LOOKUP_UNAVAILABLE) mismatches in
  match outcome with
  | AccountNonces nonces =>
      if decide (length nonces = length mismatches)
      then for_each resolve_nonce_mismatch (zip mismatches nonces) else unavailable
  | _ => unavailable
  end.

(** ** Simulation *)

Definition simulate_bundle (entry_point : Z) (survivors : list Candidate) : Flow BundleSimVerdict :=
  expect read_bundle_verdict (SimulateBundle entry_point (bundle_operations survivors)).

Definition simulate_bundle_unless_executed (entry_point : Z) (survivors : list Candidate)
    (executions : list (option BundleSimulationData)) : Flow BundleSimVerdict :=
  match survivors, executions with
  | [_], [Some execution] => mret (BundleSuccess execution)
  | _, _ => simulate_bundle entry_point survivors
  end.

(** What the individual simulations leave: the survivors, each with its own
    full execution if it had one, and the nonce mismatches. *)
Record Triage : Type := {
  survivors : list Candidate; executions : list (option BundleSimulationData);
  nonce_mismatches : list Candidate }.

Definition add_survivor (c : Candidate) (execution : option BundleSimulationData) (t : Triage) : Triage :=
  {| survivors := c :: survivors t; executions := execution :: executions t;
     nonce_mismatches := nonce_mismatches t |}.
Definition add_mismatch (c : Candidate) (t : Triage) : Triage :=
  {| survivors := survivors t; executions := executions t; nonce_mismatches := c :: nonce_mismatches t |}.

Fixpoint sort_verdicts (l : list (Candidate * OperationSimVerdict)) : Batch Triage :=
  match l with
  | [] => mret {| survivors := []; executions := []; nonce_mismatches := [] |}
  | (candidate, verdict) :: l =>
      match verdict with
      | OpSuccess => t ← sort_verdicts l; mret (add_survivor candidate None t)
      | OpExecuted simulation => t ← sort_verdicts l; mret (add_survivor candidate (Some simulation) t)
      | OpNonceMismatch => t ← sort_verdicts l; mret (add_mismatch candidate t)
      | OpRejected reason =>
          _ ← lift_flow (unless_failed (MarkRejected (hash_string candidate) (SimulationRejected reason)));
          _ ← lift_flow (note_unfenced (NotifyIssue (hash_string candidate) "simulation" reason));
          _ ← set_durable (result_index candidate);
          sort_verdicts l
      | OpPending reason =>
          _ ← lift_flow (record_deferred (hash_string candidate) "simulation_deployment" reason);
          _ ← lift_flow (emit_diagnostic (SimulationDeploymentWait (hash_string candidate) reason));
          sort_verdicts l
      | OpTransient reason =>
          _ ← lift_flow (record_deferred (hash_string candidate) "simulation" reason);
          _ ← lift_flow (emit_diagnostic (SimulationUnavailable (hash_string candidate) reason));
          sort_verdicts l
      end
  end.

(** The bundle's verdict, the bundle shrunk to its first operation when
    several reject together. *)
Definition simulate_survivors (entry_point : Z) (t : Triage) :
    Flow (BundleSimVerdict * list Candidate) :=
  verdict ← simulate_bundle_unless_executed entry_point (survivors t) (executions t);
  let fails := match verdict with BundleRejected _ | BundleNonceMismatch => true | _ => false end in
  if fails && bool_decide (1 < length (survivors t))%nat then
    let first := take 1 (survivors t) in
    verdict ← simulate_bundle_unless_executed entry_point first (take 1 (executions t));
    mret (verdict, first)
  else mret (verdict, survivors t).

(** [Some] of the simulation when the bundle goes on; [None] when it is
    deferred. *)
Definition bundle_success (survivors : list Candidate) (verdict : BundleSimVerdict) :
    Flow (option BundleSimulationData) :=
  match verdict with
  | BundleSuccess simulation => mret (Some simulation)
  | BundleRejected reason =>
      _ ← record_candidates_deferred survivors "bundle_simulation" reason;
      _ ← emit_diagnostic (BundleSimulationRejected reason);
      mret None
  | BundleNonceMismatch =>
      _ ← record_candidates_deferred survivors "bundle_simulation"
            "final handleOps simulation reported an account nonce mismatch";
      _ ← emit_diagnostic BundleSimulationNonceMismatch;
      mret None
  | BundlePending reason =>
      _ ← record_candidates_deferred survivors "simulation_deployment" reason;
      _ ← emit_diagnostic (BundleSimulationDeploymentWait reason);
      mret None
  | BundleTransient reason => settle reason
  end.

End Bundle.

(** * ExecutionTail: pricing, settling, funding and signing a bundle
    ([vela-relay-core/src/execution.rs], the EIP-1559 tail of
    [execute_with_lane_lease], [execute_tempo_bundle], and the pipeline) *)

Section Tail.
Context `{HA : Alloy} `{HT : !HashText} `{HK : Keccak} `{HS : SolCalls} `{W : TargetWidth}.

Definition batch_chain (start : StartBatch) : Z :=
  match operations start with op :: _ => r_chain_id op | [] => 0 end.

Definition bundle_calldata (start : StartBatch) (survivors : list Candidate) : list byte :=
  handle_ops_calldata (map (λ c, packed (cand_packed c)) survivors) (treasury (policy start)).

Definition call_datas_of (survivors : list Candidate) : list (list byte) :=
  map (λ c, po_call_data (cand_packed c)) survivors.

(** ** Gas *)

(** The limit of each operation and what each is billed for. *)
Definition gas_allocations (start : StartBatch) (survivors : list Candidate)
    (simulation : BundleSimulationData) (estimated : Z) : option (list Z * list Z) :=
  let packed_operations := map cand_packed survivors in
  let simulated_gas :=
    credible_simulated_gas (gas_used simulation) estimated (declared_bundle_gas packed_operations) in
  limit_allocations ←
    allocate_bundle_gas simulated_gas estimated (operation_gas_used simulation)
      (gas_buffer_bps (policy start)) (fixed_gas_buffer (policy start));
  allocations ←
    settlement_gas_allocations (settlement_gas_rule (batch_chain start))
      (if full_execution simulation then Some simulated_gas else None) limit_allocations
      (operation_gas_used simulation) (declared_limits packed_operations)
      (gas_buffer_bps (policy start)) (fixed_gas_buffer (policy start));
  Some (limit_allocations, allocations).

(** ** Prices and fees *)

(** One price read per attempt; a pegged coin never consults the market. *)
Definition read_market_price (chain_id : Z) : Flow (result string Z) :=
  match pegged_native_usd_price chain_id with
  | Some price => mret (Ok price)
  | None =>
      outcome ← request FetchMarketPrice;
      mret match outcome with
           | Price price => Ok price
           | OutFailed message => Err message
           | _ => Err UNEXPECTED
           end
  end.

Definition usable_price (start : StartBatch) (chain_assets : ChainAssetConfig)
    (call_datas : list (list byte)) (market_price : result string Z) : result string (option Z) :=
  match market_price with
  | Ok price => Ok (Some price)
  | Err message =>
      if has_stablecoin_payment (treasury (policy start)) chain_assets call_datas
      then Err message else Ok None
  end.

Definition NO_TIPS : TierTips := {| tip_slow := 0; tip_standard := 0; tip_fast := 0; tip_floor := 0 |}.

Definition fee_context (start : StartBatch) (survivors : list Candidate) (context : TransactionContext) :
    FeeContext :=
  {| quoted_fee_per_gas := tc_max_fee_per_gas context;
     fc_base_fee_per_gas := tc_base_fee_per_gas context;
     fc_max_priority_fee_per_gas := tc_max_priority_fee_per_gas context;
     inclusion_floor_bps := settlement_inclusion_floor_bps (policy start);
     requested_tier := bundle_submission_tier survivors;
     fc_tier_tips :=
       default NO_TIPS (resolve (tip_window context) (tc_max_priority_fee_per_gas context)) |}.

Definition with_outer_fee (fees : FeeContext) (outer : OuterFee) : FeeContext :=
  {| quoted_fee_per_gas := outer_max_fee outer; fc_base_fee_per_gas := fc_base_fee_per_gas fees;
     fc_max_priority_fee_per_gas := outer_max_priority_fee outer;
     inclusion_floor_bps := inclusion_floor_bps fees; requested_tier := requested_tier fees;
     fc_tier_tips := fc_tier_tips fees |}.

(** The fees at the speed the bundle names, if it names one. *)
Definition speed_fees (start : StartBatch) (chain_assets : ChainAssetConfig)
    (call_datas : list (list byte)) (allocations : list Z) (price : option Z) (fees : FeeContext) :
    Flow FeeContext :=
  match requested_tier fees with
  | None => mret fees
  | Some tier =>
      outer ← lift_result (map_err settlement_decision_error_text
        (decide_submission_fees (treasury (policy start)) chain_assets call_datas allocations price fees));
      match outer with
      | None => mret fees
      | Some outer =>
          _ ← emit_diagnostic
                (SubmissionTierCap tier (quoted_fee_per_gas fees) (outer_max_fee outer)
                   (fc_base_fee_per_gas fees) (outer_max_priority_fee outer)
                   (fc_max_priority_fee_per_gas fees));
          mret (with_outer_fee fees outer)
      end
  end.

(** The settlement and the cap it is judged at. *)
Definition settle_fees (start : StartBatch) (chain_assets : ChainAssetConfig)
    (call_datas : list (list byte)) (allocations : list Z) (price : option Z) (fees : FeeContext) :
    Flow (Z * list SettlementEvaluation) :=
  decision ← lift_result (map_err settlement_decision_error_text
    (decide_settlement (treasury (policy start)) chain_assets call_datas allocations price fees));
  match decision with
  | KeepQuote evaluation => mret (quoted_fee_per_gas fees, evaluation)
  | FloorUnfundable evaluation affordable floor =>
      _ ← emit_diagnostic (DiagFloorUnfundable (quoted_fee_per_gas fees) affordable floor
                             (fc_base_fee_per_gas fees));
      mret (quoted_fee_per_gas fees, evaluation)
  | Reprice fee_per_gas evaluation =>
      _ ← emit_diagnostic (Repriced (quoted_fee_per_gas fees) fee_per_gas (fc_base_fee_per_gas fees)
                             (fc_max_priority_fee_per_gas fees));
      mret (fee_per_gas, evaluation)
  end.

(** ** The settlement gate *)

(** A short payment is parked while its budget lasts: [true] when it was. *)
Definition hold_operation (start : StartBatch) (c : Candidate) (evaluation : SettlementEvaluation) :
    Batch bool :=
  outcome ← lift_flow (request (DeferOperation (result_index c) AffordableMarketHold));
  match outcome with
  | Deferred attempt =>
      match decide_hold attempt (settlement_hold_max_attempts (policy start)) (paid_amount evaluation)
              (required_amount evaluation) with
      | Hold reason =>
          _ ← lift_flow (record_deferred (hash_string c) "in_band_settlement_hold" reason);
          _ ← set_durable (result_index c);
          mret true
      | RejectBudgetExhausted =>
          _ ← lift_flow (emit_diagnostic (HoldBudgetExhausted (hash_string c) attempt
                                            (paid_amount evaluation) (required_amount evaluation)));
          mret false
      end
  | _ => mret false
  end.

Definition reject_payment (c : Candidate) (reason : string) (code : RejectionReason)
    (diagnostic : ExecutionDiagnostic) : Batch () :=
  _ ← lift_flow (unless_failed (MarkRejectedWithReason (hash_string c) "in_band_settlement" reason code));
  _ ← set_durable (result_index c);
  _ ← lift_flow (emit_diagnostic diagnostic);
  lift_flow (note_unfenced (NotifyIssue (hash_string c) "in_band_settlement" reason)).

(** One operation of the gate: [true] when it is not to be signed now. *)
Definition gate_operation (start : StartBatch) (simulated_logs : list SettlementLog)
    (c : Candidate) (evaluation : SettlementEvaluation) : Batch bool :=
  let stable_logs_valid :=
    verify_stable_transfer_logs (ev_reimbursement evaluation) (po_sender (cand_packed c))
      (treasury (policy start)) simulated_logs in
  if accepted evaluation && stable_logs_valid then mret false
  else
    held ← (if is_shortfall evaluation && stable_logs_valid
            then hold_operation start c evaluation else mret false);
    if held : bool then mret true
    else
      _ ← reject_payment c
            (settlement_rejection_reason (paid_amount evaluation) (required_amount evaluation)
               stable_logs_valid)
            (settlement_rejection_code evaluation stable_logs_valid)
            (SettlementRejected (hash_string c) (payment_asset evaluation) (paid_amount evaluation)
               (required_amount evaluation) stable_logs_valid);
      mret true.

Fixpoint settlement_gate (start : StartBatch) (simulated_logs : list SettlementLog)
    (l : list (Candidate * SettlementEvaluation)) : Batch bool :=
  match l with
  | [] => mret false
  | (c, evaluation) :: l =>
      stopped ← gate_operation start simulated_logs c evaluation;
      rest ← settlement_gate start simulated_logs l;
      mret (stopped || rest)
  end.

(** ** Funding *)

Definition top_up_cap (start : StartBatch) (chain_assets : ChainAssetConfig)
    (market_price : result string Z) : Flow Z :=
  match market_price with
  | Err _ => mret (top_up_max_wei (policy start))
  | Ok price =>
      match native_amount_for_usd_cap (native_decimals chain_assets) price NATIVE_TOP_UP_USD_CAP with
      | Some cap => _ ← emit_diagnostic (TopUpCapUsd cap); mret cap
      | None => _ ← emit_diagnostic TopUpCapUnconvertible; mret (top_up_max_wei (policy start))
      end
  end.

Definition bundle_gas_limit (limit_allocations : list Z) : result string Z :=
  gas_limit ← ok_or (checked_sum 256 limit_allocations) "bundle gas limit overflow";
  ok_or (checked 64 gas_limit) "bundle gas limit exceeds uint64".

(** ** The EIP-1559 tail *)

Definition fund_native (start : StartBatch) (context : TransactionContext) (cap tip prefund top_up_max : Z) :
    Flow bool :=
  if decide (relayer_balance context < prefund)
  then ensure_native_funding (policy start) (batch_chain start) (relayer_balance context) prefund
         cap tip top_up_max
  else mret true.

Definition sign_native (start : StartBatch) (entry_point : Z) (survivors : list Candidate)
    (context : TransactionContext) (cap tip gas_limit : Z) (allocations : list Z) : Batch () :=
  let outer_fee := {| outer_max_fee := cap; outer_max_priority_fee := tip |} in
  if negb (delivers_full_tip_at outer_fee (tc_base_fee_per_gas context))
  then lift_flow (settle ("outer fee cap " +:+ dec cap +:+ " cannot carry the " +:+ dec tip +:+
                          " tip at base fee " +:+ dec (tc_base_fee_per_gas context)))
  else
    signed ← lift_flow (expect read_signed (SignBundle
      {| bs_nonce := tc_nonce context; bs_gas_limit := gas_limit; bs_max_fee_per_gas := cap;
         bs_max_priority_fee_per_gas := tip; bs_entry_point := entry_point;
         bs_calldata := bundle_calldata start survivors |}));
    submit_bundle native_texts
      (bundle_intent start entry_point signed survivors
         (gas ← checked_sum 256 allocations; Some ("0x" +:+ lower_hex gas))
         (Some ("0x" +:+ lower_hex cap)))
      gas_limit survivors.

(** After the gate: what the transaction needs, the relayer's float, the
    signature. *)
Definition fund_and_sign (start : StartBatch) (chain_assets : ChainAssetConfig) (entry_point : Z)
    (survivors : list Candidate) (context : TransactionContext) (market_price : result string Z)
    (cap tip : Z) (limit_allocations allocations : list Z) : Batch () :=
  gas_limit ← lift_flow (lift_result (bundle_gas_limit limit_allocations));
  prefund ← lift_flow (lift_result (ok_or (checked 256 (gas_limit * cap)) "bundle prefund overflow"));
  top_up_max ← lift_flow (top_up_cap start chain_assets market_price);
  funded ← lift_flow (fund_native start context cap tip prefund top_up_max);
  if negb funded then
    _ ← lift_flow (record_candidates_deferred survivors "funding"
          "waiting for relayer funding transaction confirmation");
    for_each (λ c, set_failed (result_index c) FUNDING_WAIT_FINISH) survivors
  else
    _ ← lift_flow ensure_lane_lease;
    sign_native start entry_point survivors context cap tip gas_limit allocations.

Definition execute_native_bundle (start : StartBatch) (chain_assets : ChainAssetConfig)
    (entry_point : Z) (survivors : list Candidate) (simulation : BundleSimulationData) : Batch () :=
  context ← lift_flow (expect read_context
    (FetchTransactionContext entry_point (bundle_calldata start survivors)));
  '(limit_allocations, allocations) ← lift_flow (lift_result
    (ok_or (gas_allocations start survivors simulation (estimated_gas context))
       "bundle gas allocation overflow"));
  let call_datas := call_datas_of survivors in
  market_price ← lift_flow (read_market_price (batch_chain start));
  price ← lift_flow (lift_result (usable_price start chain_assets call_datas market_price));
  fees ← lift_flow (speed_fees start chain_assets call_datas allocations price
                      (fee_context start survivors context));
  '(cap, evaluations) ← lift_flow (settle_fees start chain_assets call_datas allocations price fees);
  stopped ← settlement_gate start (logs simulation) (zip survivors evaluations);
  if stopped : bool then mret tt
  else fund_and_sign start chain_assets entry_point survivors context market_price cap
         (fc_max_priority_fee_per_gas fees) limit_allocations allocations.

End Tail.
