(* ===== verification/ExecutionPipeline.v ===== *)
(** * ExecutionPipeline: the Tempo tail, the leased pipeline and the batch
    ([vela-relay-core/src/execution.rs], [execute_tempo_bundle],
    [execute_with_lane_lease], [drive_batch]) *)

From S2P Require Export ExecutionBundle.
#[local] Open Scope string_scope.
#[local] Open Scope list_scope.
#[local] Open Scope Z_scope.

Section Pipeline.
Context `{HA : Alloy} `{HT : !HashText} `{HK : Keccak} `{HS : SolCalls} `{W : TargetWidth}.

(** ** Tempo *)

(** What a survivor pays in pathUSD, and whether its logs prove it. *)
Definition tempo_payment (start : StartBatch) (simulation : BundleSimulationData) (c : Candidate) :
    Z * bool :=
  match parse_reimbursement (po_call_data (cand_packed c)) (treasury (policy start)) {[PATH_USD]} with
  | Ok reimbursement =>
      (default 0 (stablecoins reimbursement !! PATH_USD),
       verify_stable_transfer_logs reimbursement (po_sender (cand_packed c)) (treasury (policy start))
         (logs simulation))
  | Err _ => (0, false)
  end.

Definition tempo_rejection_code (paid : Z) (stable_logs_valid : bool) : RejectionReason :=
  if negb stable_logs_valid || bool_decide (paid = 0) then FeePaymentInvalid
  else if decide (paid < 10 ^ (PATH_USD_DECIMALS - 2)) then FeeBelowMinimum
  else FeeBelowMarket.

Definition tempo_gate_operation (start : StartBatch) (chain_assets : ChainAssetConfig)
    (simulation : BundleSimulationData) (c : Candidate) (cost : Z) : Batch bool :=
  let '(paid, stable_logs_valid) := tempo_payment start simulation c in
  required ← lift_flow (lift_result (ok_or (marked_tempo_cost cost (settlement_markup_bps chain_assets))
                                       "Tempo settlement markup overflow"));
  if bool_decide (paid < required) || negb stable_logs_valid then
    _ ← reject_payment c (settlement_rejection_reason paid required stable_logs_valid)
          (tempo_rejection_code paid stable_logs_valid)
          (TempoSettlementRejected (hash_string c) paid required stable_logs_valid);
    mret true
  else mret false.

Fixpoint tempo_gate (start : StartBatch) (chain_assets : ChainAssetConfig)
    (simulation : BundleSimulationData) (l : list (Candidate * Z)) : Batch bool :=
  match l with
  | [] => mret false
  | (c, cost) :: l =>
      stopped ← tempo_gate_operation start chain_assets simulation c cost;
      rest ← tempo_gate start chain_assets simulation l;
      mret (stopped || rest)
  end.

(** The costs of a Tempo bundle's operations. *)
Definition tempo_costs (simulation : BundleSimulationData) (base_fee_atto : Z) : result string (list Z) :=
  allocations ← ok_or
    (allocate_bundle_gas (gas_used simulation) (gas_used simulation) (operation_gas_used simulation) 0
       TEMPO_COST_BUFFER_GAS) "Tempo bundle gas allocation overflow";
  ok_or (mapM (λ gas, tempo_cost_in_path_usd gas base_fee_atto) allocations)
    "Tempo pathUSD cost overflow".

Definition fund_tempo (start : StartBatch) (balance required_prefund outer_max_fee : Z) : Flow bool :=
  if decide (balance < Z.max required_prefund TEMPO_FLOAT_MIN)
  then ensure_tempo_funding (policy start) (batch_chain start) balance required_prefund outer_max_fee
  else mret true.

Definition sign_tempo_bundle (start : StartBatch) (entry_point : Z) (survivors : list Candidate)
    (nonce gas_limit outer_max_fee : Z) : Batch () :=
  signed ← lift_flow (expect read_signed (SignTempoBundle
    {| tsr_nonce := nonce; tsr_gas_limit := gas_limit; tsr_max_fee_per_gas := outer_max_fee;
       tsr_entry_point := entry_point; tsr_calldata := bundle_calldata start survivors |}));
  submit_bundle tempo_texts (bundle_intent start entry_point signed survivors None None) gas_limit survivors.

Definition settle_tempo (start : StartBatch) (chain_assets : ChainAssetConfig) (entry_point : Z)
    (survivors : list Candidate) (simulation : BundleSimulationData) : Batch () :=
  '(base_fee_atto, nonce, balance) ← lift_flow (expect read_tempo_context FetchTempoContext);
  costs ← lift_flow (lift_result (tempo_costs simulation base_fee_atto));
  stopped ← tempo_gate start chain_assets simulation (zip survivors costs);
  if stopped : bool then mret tt
  else
    gas_limit ← lift_flow (lift_result (tempo_handle_ops_gas_limit (map cand_packed survivors)));
    outer_max_fee ← lift_flow (lift_result (tempo_outer_max_fee base_fee_atto));
    required_prefund ← lift_flow (lift_result
      (ok_or (tempo_cost_in_path_usd gas_limit outer_max_fee) "Tempo pathUSD cost overflow"));
    funded ← lift_flow (fund_tempo start balance required_prefund outer_max_fee);
    if negb funded then
      lift_flow (record_candidates_deferred survivors "funding"
        "waiting for relayer pathUSD funding transaction confirmation")
    else
      _ ← lift_flow ensure_lane_lease;
      sign_tempo_bundle start entry_point survivors nonce gas_limit outer_max_fee.

Definition other_fee_token (c : Candidate) : bool :=
  match po_fee_token (cand_packed c) with
  | Some fee_token => negb (bool_decide (fee_token = PATH_USD))
  | None => false
  end.

Definition execute_tempo_bundle (start : StartBatch) (chain_assets : ChainAssetConfig)
    (entry_point : Z) (survivors : list Candidate) (simulation : BundleSimulationData) : Batch () :=
  match List.find other_fee_token survivors with
  | Some c =>
      _ ← lift_flow (unless_failed (MarkRejected (hash_string c)
            (UnsupportedTempoFeeToken (po_fee_token (cand_packed c)))));
      set_durable (result_index c)
  | None => settle_tempo start chain_assets entry_point survivors simulation
  end.

(** ** The leased pipeline *)

(** A chain billed on measured gas waits for a simulation that measured. *)
Definition unmeasured (start : StartBatch) (simulation : BundleSimulationData) : bool :=
  negb (full_execution simulation) &&
  bool_decide (settlement_gas_rule (batch_chain start) = Measured).

Definition execute_bundle (start : StartBatch) (chain_assets : ChainAssetConfig) (entry_point : Z)
    (t : Triage) : Batch () :=
  '(verdict, survivors) ← lift_flow (simulate_survivors entry_point t);
  simulation ← lift_flow (bundle_success survivors verdict);
  match simulation with
  | None => mret tt
  | Some simulation =>
      if unmeasured start simulation then lift_flow (settle UNMEASURED_SIMULATION)
      else
        _ ← lift_flow ensure_lane_lease;
        if is_tempo (policy start)
        then execute_tempo_bundle start chain_assets entry_point survivors simulation
        else execute_native_bundle start chain_assets entry_point survivors simulation
  end.

Definition execute_candidates (start : StartBatch) (chain_assets : ChainAssetConfig)
    (entry_point : Z) (candidates : list Candidate) : Batch () :=
  if existsb (λ c, negb (bool_decide (cand_entry_point c = entry_point))) candidates
  then lift_flow (settle "one lane batch contains multiple EntryPoints")
  else
    verdicts ← lift_flow (expect read_verdicts
      (SimulateIndividually entry_point (bundle_operations candidates)));
    if negb (bool_decide (length verdicts = length candidates))
    then lift_flow (settle "simulation verdicts do not match candidates")
    else
      t ← sort_verdicts (zip candidates verdicts);
      _ ← (if decide (nonce_mismatches t = []) then mret tt
           else resolve_nonce_mismatches entry_point (nonce_mismatches t));
      if decide (survivors t = []) then mret tt
      else
        _ ← lift_flow ensure_lane_lease;
        execute_bundle start chain_assets entry_point t.

Definition settle_resumed (intent : PreparedBundleIntent) (c : Candidate) : Batch () :=
  if existsb (λ hash, eq_ignore_ascii_case hash (hash_string c)) (bi_user_operation_hashes intent)
  then set_durable (result_index c) else mret tt.

(** [execute_with_lane_lease]; [None] is the panic of [candidates[0]] when the
    bundle holds no candidate. *)
Definition execute_with_lane_lease (start : StartBatch) (chain_assets : ChainAssetConfig)
    (candidates : list Candidate) : Batch (option ()) :=
  intent ← lift_flow (expect read_intent LoadPreparedBundle);
  match intent with
  | Some intent =>
      known ← lift_flow (expect read_resumed (ResumeBundleIntent intent));
      _ ← (if known : bool then for_each (settle_resumed intent) candidates else mret tt);
      mret (Some tt)
  | None =>
      match candidates with
      | [] => mret None
      | first :: _ =>
          _ ← execute_candidates start chain_assets (cand_entry_point first) candidates;
          mret (Some tt)
      end
  end.

(** ** Triage *)

Notation Triaged := (flow ExecutionOperation ExecutionOutcome Results).

(** The tail of a match on an answer that settles an item: [continue] with
    the item's result set. *)
Definition item_failed {A} (index : nat) (reason : string) (results : Results) : Triaged A :=
  settle (failed index reason results).
Definition item_durable {A} (index : nat) (results : Results) : Triaged A := settle (durable index results).

Definition dead_letter_item {A} (index : nat) (reason unpersisted : string) (results : Results) : Triaged A :=
  outcome ← ask (DeadLetterRouted index reason);
  match outcome with
  | Persisted true => item_durable index results
  | _ => item_failed index unpersisted results
  end.

(** A record that is gone is rebuilt from its envelope. *)
Definition restore_record (index : nat) (routed : RoutedUserOperation) (pool_width : Z) (results : Results) :
    Triaged StoredUserOperation :=
  match queued_operation_from_routed routed pool_width with
  | Err reason => dead_letter_item index reason "could not persist invalid queue message" results
  | Ok queued =>
      outcome ← ask (RestoreQueued index queued);
      match outcome with
      | Done =>
          outcome ← ask (ReloadRecord (r_user_operation_hash routed));
          match outcome with
          | OutRecord (Some record) => mret record
          | OutRecord None =>
              item_failed index "rebuilt UserOperation status disappeared before execution" results
          | OutFailed message => item_failed index message results
          | _ => item_failed index UNEXPECTED results
          end
      | OutFailed message => item_failed index message results
      | _ => item_failed index UNEXPECTED results
      end
  end.

Definition set_admitted (record : StoredUserOperation) : StoredUserOperation :=
  {| status := status record; transaction_hash := transaction_hash record; chain_id := chain_id record;
     chain_id_text := chain_id_text record; entry_point := entry_point record;
     user_operation := user_operation record; admitted := true;
     next_receipt_check_at_ms := next_receipt_check_at_ms record; block_hash := block_hash record;
     block_number := block_number record; receipt := receipt record; event := event record;
     last_executor_stage := last_executor_stage record; last_executor_error := last_executor_error record;
     last_executor_attempt_at_ms := last_executor_attempt_at_ms record;
     rejection_reason := rejection_reason record |}.

Definition admit_item (index : nat) (routed : RoutedUserOperation) (record : StoredUserOperation)
    (results : Results) : Triaged StoredUserOperation :=
  match admission_action (admitted record) (queue_record_matches routed record) with
  | DeadLetter =>
      dead_letter_item index "Iggy envelope does not match Redis admission"
        "could not persist mismatched queue message" results
  | Recover =>
      outcome ← ask (MarkAdmitted (r_user_operation_hash routed));
      match outcome with
      | Marked true => mret (set_admitted record)
      | Marked false => item_failed index "could not recover expired UserOperation admission" results
      | OutFailed message => item_failed index message results
      | _ => item_failed index UNEXPECTED results
      end
  | Execute => mret record
  end.

(** One item: the candidate it gives, or the results it settles. *)
Definition triage_item (index : nat) (routed : RoutedUserOperation) (record : option StoredUserOperation)
    (pool_width : Z) (results : Results) : Triaged Candidate :=
  record ← (match record with
            | Some record => mret record
            | None => restore_record index routed pool_width results
            end : Triaged StoredUserOperation);
  if is_durable (status record) then item_durable index results
  else
    record ← admit_item index routed record results;
    match candidate_from_record index routed record pool_width with
    | Ok candidate => mret candidate
    | Err reason =>
        outcome ← ask (MarkRejected (r_user_operation_hash routed) (InvalidQueuedPayload reason));
        match outcome with
        | OutFailed message => item_failed index message results
        | _ => item_durable index results
        end
    end.

Fixpoint triage (index : nat) (items : list (RoutedUserOperation * option StoredUserOperation))
    (pool_width : Z) (results : Results) :
    prog ExecutionOperation ExecutionOutcome (Results * list Candidate) :=
  match items with
  | [] => Ret (results, [])
  | (routed, record) :: items =>
      prog_bind (λ settled,
        match settled with
        | Ok candidate =>
            prog_bind (λ '(results, candidates), Ret (results, candidate :: candidates))
              (triage (S index) items pool_width results)
        | Err results => triage (S index) items pool_width results
        end) (triage_item index routed record pool_width results)
  end.

(** [retain(|x| seen.insert(key(x)))]: the first of each key. *)
Fixpoint retain_first {A B} `{EqDecision B} (key : A → B) (seen : list B) (l : list A) : list A :=
  match l with
  | [] => []
  | x :: l =>
      if decide (key x ∈ seen) then retain_first key seen l
      else x :: retain_first key (key x :: seen) l
  end.

(** At most one operation of a sender, and no operation twice. *)
Definition bundle_candidates (start : StartBatch) (candidates : list Candidate) : list Candidate :=
  let candidates := retain_first cand_hash [] candidates in
  let candidates := List.filter (λ c, bool_decide (result_index c < length (operations start))%nat)
                      (retain_first (λ c, po_sender (cand_packed c)) [] candidates) in
  take (max_bundle_operations (policy start)) candidates.

(** ** The batch *)

Notation Driven := (flow ExecutionOperation ExecutionOutcome (list ItemResolution)).

(** The deferral diagnostics of every operation still unsettled. *)
Fixpoint record_routed_deferred {E} (index : nat) (operations : list RoutedUserOperation)
    (results : option Results) (stage reason : string) : flow ExecutionOperation ExecutionOutcome E () :=
  match operations with
  | [] => mret tt
  | operation :: operations =>
      _ ← (if match results with Some results => is_settled results index | None => false end
           then mret tt
           else
             _ ← ask (RecordDeferred (r_user_operation_hash operation) stage reason);
             if should_notify_executor_deferred stage
             then _ ← ask (NotifyIssue (r_user_operation_hash operation) stage reason); mret tt
             else mret tt);
      record_routed_deferred (S index) operations results stage reason
  end.

Definition check_supported (start : StartBatch) : Driven () :=
  outcome ← ask CheckChainSupported;
  match outcome with
  | Supported true => mret tt
  | _ =>
      let reason := "chain has no trusted executor RPC" in
      _ ← record_routed_deferred 0 (operations start) None "rpc" reason;
      settle (all_failed (length (operations start)) reason)
  end.

Definition load_chain_assets (start : StartBatch) : Driven ResolvedChainAssets :=
  outcome ← ask LoadChainAssets;
  match outcome with
  | OutAssets resolved => mret resolved
  | AssetsUnavailable reason | OutFailed reason =>
      _ ← record_routed_deferred 0 (operations start) None "assets" reason;
      settle (all_failed (length (operations start)) reason)
  | _ => settle (all_failed (length (operations start)) UNEXPECTED)
  end.

Definition load_records (start : StartBatch) : Driven (list (option StoredUserOperation)) :=
  outcome ← ask (LoadRecords (map r_user_operation_hash (operations start)));
  match outcome with
  | Records records => mret records
  | OutFailed message => settle (all_failed (length (operations start)) message)
  | _ => settle (all_failed (length (operations start)) UNEXPECTED)
  end.

(** [reason.ends_with(..) || reason.contains(..)] *)
Definition is_funding_wait (reason : string) : bool :=
  starts_with (str_rev TOP_UP_SIGNED_AGAIN) (str_rev reason) ||
  contains (TOP_UP_SIGNED_AGAIN +:+ ":") reason.

Definition run_leased (start : StartBatch) (chain_assets : ResolvedChainAssets)
    (candidates : list Candidate) (results : Results) : Driven (option (list ItemResolution)) :=
  prog_bind (λ '(results, outcome),
    match outcome with
    | Ok (Some _) => Ret (Ok (Some (finish results DEFERRED_FINISH)))
    | Ok None => Ret (Ok None)
    | Err reason =>
        _ ← record_routed_deferred 0 (operations start) (Some results) "execution" reason;
        _ ← ask (EmitDiagnostic (ExecutionDeferred reason));
        mret (Some (finish results (if is_funding_wait reason then FUNDING_WAIT_FINISH else DEFERRED_FINISH)))
    end) (execute_with_lane_lease start (assets chain_assets) candidates results).

Definition mixed_batch (operations : list RoutedUserOperation) : bool :=
  match operations with
  | [] => false
  | first :: _ =>
      existsb (λ op, negb (bool_decide (r_chain_id op = r_chain_id first)) ||
                     negb (bool_decide (r_lane op = r_lane first))) operations
  end.

Definition drive_flow (start : StartBatch) : Driven (option (list ItemResolution)) :=
  if decide (operations start = []) then mret (Some [])
  else if mixed_batch (operations start)
  then mret (Some (all_failed (length (operations start)) "consumer returned a mixed chain/lane batch"))
  else
    _ ← check_supported start;
    chain_assets ← load_chain_assets start;
    records ← load_records start;
    '(results, candidates) ←
      (prog_bind (λ triaged, Ret (Ok triaged))
         (triage 0 (zip (operations start) records) (pool_width (policy start))
            (new_results (length (operations start)))) : Driven _);
    if decide (candidates = []) then mret (Some (finish results NO_OUTCOME_FINISH))
    else
      outcome ← ask AcquireLaneLease;
      match outcome with
      | LeaseAcquired true => run_leased start chain_assets (bundle_candidates start candidates) results
      | _ =>
          _ ← record_routed_deferred 0 (operations start) (Some results) "lease"
                "relayer lane is currently owned by another worker";
          mret (Some (finish results "relayer lane is owned by another worker"))
      end.

(** The early returns are resolutions too; [None] is a panic. *)
Definition drive_batch (start : StartBatch) :
    prog ExecutionOperation ExecutionOutcome (option (list ItemResolution)) :=
  prog_bind (λ r, match r with
                  | Ok resolutions => Ret resolutions
                  | Err resolutions => Ret (Some resolutions)
                  end) (drive_flow start).

End Pipeline.
