(* ===== verification/ExecutionSafety.v ===== *)
(** * ExecutionSafety: what every run of a batch respects

    The rules a request must obey where it is made ([allowed]), the evidence a
    durable result stands on ([settled_by]), and the triples in which every
    function of the program is proved to keep them. *)

From S2P Require Export ExecutionPipeline.
#[local] Open Scope string_scope.
#[local] Open Scope list_scope.
#[local] Open Scope Z_scope.

(** ** Leased requests *)

(** The requests of the leased pipeline, made only while the lane is held.
    The others are triage, bookkeeping and diagnostics. *)
Definition leased (op : ExecutionOperation) : bool :=
  match op with
  | CheckChainSupported | LoadChainAssets | LoadRecords _ | DeadLetterRouted _ _ | RestoreQueued _ _
  | ReloadRecord _ | MarkAdmitted _ | MarkRejected _ (InvalidQueuedPayload _)
  | RecordDeferred _ _ _ | NotifyIssue _ _ _ | EmitDiagnostic _ | AcquireLaneLease
  | ReleaseTreasuryLease | RememberBroadcast _ | ForgetBroadcast _ | RecordUnprovenBroadcast _ _ _ => false
  | _ => true
  end.

(** No leased request has been answered with an interrupt. *)
Definition live (h : ExecutionTrace) : Prop :=
  ∀ op reason, (op, Interrupted reason) ∈ h → leased op = false.

Definition is_interrupt (o : ExecutionOutcome) : bool :=
  match o with Interrupted _ => true | _ => false end.

Lemma live_snoc h op r : live h → is_interrupt r = false → live (h ++ [(op, r)]).
Proof.
  intros Hl Hr op' reason [Hin|Hin]%elem_of_app; [by eapply Hl|].
  apply list_elem_of_singleton in Hin. by simplify_eq.
Qed.

Lemma live_snoc_unfenced h op r : live h → leased op = false → live (h ++ [(op, r)]).
Proof.
  intros Hl Hop op' reason [Hin|Hin]%elem_of_app; [by eapply Hl|].
  apply list_elem_of_singleton in Hin. by simplify_eq.
Qed.

(** ** The rules *)

Section Rules.
Context `{HA : Alloy} `{HT : !HashText} `{HK : Keccak} `{HS : SolCalls} `{W : TargetWidth}.

(** The last request and its answer. *)
Definition just (h : ExecutionTrace) (op : ExecutionOperation) (r : ExecutionOutcome) : Prop :=
  ∃ h0, h = h0 ++ [(op, r)].

(** The bytes of a transaction whose text and hash are stored. *)
Definition stored (h : ExecutionTrace) (raw : list byte) (hash : string) : Prop :=
  ∃ text, validate_raw_transaction text hash = Ok raw ∧
    ((∃ i, (SavePreparedBundle i, Saved true) ∈ h ∧ bi_raw_transaction i = text ∧
           bi_transaction_hash i = hash) ∨
     (∃ i, ((SaveFundingIntent i, Saved true) ∈ h ∨ (LoadPreparedFunding, FundingIntent (Some i)) ∈ h) ∧
           fi_raw_transaction i = text ∧ fi_transaction_hash i = hash)).

(** Something said that a node has the transaction. *)
Definition observed (h : ExecutionTrace) (hash : string) : Prop :=
  (CheckBroadcastSeen hash, Seen true) ∈ h ∨
  (∃ raw hash', (BroadcastRaw raw hash, Sent (ReplyAccepted hash')) ∈ h ∧
                eq_ignore_ascii_case hash' hash = true) ∨
  (ProbeTransactionKnown hash, Known true) ∈ h.

(** The signature a stored transaction carries was asked for in this run. *)
Definition signed_bundle (h : ExecutionTrace) (i : PreparedBundleIntent) : Prop :=
  ∃ op signed, (op, Signed signed) ∈ h ∧
    match op with SignBundle _ | SignTempoBundle _ => True | _ => False end ∧
    bi_raw_transaction i = raw_transaction_hex signed ∧ bi_transaction_hash i = sb_transaction_hash signed ∧
    bi_nonce i = sb_nonce signed.
Definition signed_funding (h : ExecutionTrace) (i : PreparedFundingIntent) : Prop :=
  ∃ op signed, (op, Signed signed) ∈ h ∧
    match op with
    | SignTreasuryTransfer rq => fi_amount_wei i = ts_amount rq
    | SignTreasuryPathUsd rq => fi_amount_wei i = tts_amount rq
    | _ => False
    end ∧
    fi_raw_transaction i = raw_transaction_hex signed ∧ fi_transaction_hash i = sb_transaction_hash signed ∧
    fi_nonce i = sb_nonce signed.

(** What the signature of a bundle is owed is a parameter here: the payments
    are judged where the bundle is settled. *)
Variable Pay : ExecutionTrace → ExecutionOperation → Prop.

Definition rule (h : ExecutionTrace) (op : ExecutionOperation) : Prop :=
  match op with
  | SignBundle _ | SignTempoBundle _ =>
      just h EnsureLaneLease (LeaseHeld true) ∧ (LoadPreparedBundle, OutIntent None) ∈ h ∧ Pay h op
  | SavePreparedBundle i => just h EnsureLaneLease (LeaseHeld true) ∧ signed_bundle h i
  | BroadcastRaw raw hash => stored h raw hash
  | MarkBundleSubmitted i _ =>
      (SavePreparedBundle i, Saved true) ∈ h ∧ observed h (bi_transaction_hash i)
  | ClearStaleIntent i _ =>
      (SavePreparedBundle i, Saved true) ∈ h ∧
      (ProbeTransactionKnown (bi_transaction_hash i), Known false) ∈ h ∧ (ProbeStaleNonce i, Stale true) ∈ h
  | SignTreasuryTransfer _ | SignTreasuryPathUsd _ =>
      just h EnsureTreasuryLease (LeaseHeld true) ∧ (LoadPreparedFunding, FundingIntent None) ∈ h
  | SaveFundingIntent i => just h EnsureTreasuryLease (LeaseHeld true) ∧ signed_funding h i
  | ResumeBundleIntent i => (LoadPreparedBundle, OutIntent (Some i)) ∈ h
  | ClearFundingIntent hash =>
      (ProbeTransactionKnown hash, Known false) ∈ h ∨
      ∃ receipt, (FetchTransactionReceipt hash, Receipt (Some receipt)) ∈ h
  | _ => True
  end.

Definition allowed (h : ExecutionTrace) (op : ExecutionOperation) : Prop :=
  (leased op = true → live h) ∧ rule h op.

(** ** Triples of programs that keep the rules *)

Definition safe {A} (m : Flow A) (h : ExecutionTrace) (Q : ExecutionTrace → A → Prop) : Prop :=
  fwp allowed m h (λ h' a, h `prefix_of` h' ∧ live h' ∧ Q h' a) (λ h' _, h `prefix_of` h').

Lemma safe_mret {A} (a : A) h (Q : ExecutionTrace → A → Prop) : live h → Q h a → safe (mret a) h Q.
Proof. intros. split; [done|]. done. Qed.
Lemma safe_settle {A} e h (Q : ExecutionTrace → A → Prop) : safe (settle e) h Q.
Proof. exact (reflexivity h). Qed.
Lemma safe_lift {A} (r : result string A) h (Q : ExecutionTrace → A → Prop) :
  live h → (∀ a, r = Ok a → Q h a) → safe (lift_result r) h Q.
Proof. intros Hl HQ. unfold safe. rewrite fwp_lift. destruct r; [|done]. split; [done|]. auto. Qed.

Lemma safe_bind {A B} (m : Flow A) (f : A → Flow B) h (Q : ExecutionTrace → A → Prop) Q' :
  safe m h Q → (∀ h' a, h `prefix_of` h' → live h' → Q h' a → safe (f a) h' Q') → safe (m ≫= f) h Q'.
Proof.
  intros Hm Hf. unfold safe. rewrite fwp_bind. eapply fwp_mono; [| |exact Hm].
  - cbn beta. intros t a (Hp & Hl & HQ). eapply fwp_mono; [| |exact (Hf _ a Hp Hl HQ)]; cbn beta.
    + intros t' b (Hp' & Hl' & HQ'). split; [by etransitivity|done].
    + intros t' e Hp'. by etransitivity.
  - done.
Qed.

Lemma safe_mono {A} (m : Flow A) h (Q Q' : ExecutionTrace → A → Prop) :
  safe m h Q → (∀ h' a, h `prefix_of` h' → live h' → Q h' a → Q' h' a) → safe m h Q'.
Proof.
  intros Hm HQ. eapply fwp_mono; [| |exact Hm]; cbn beta; [|done].
  intros t a (Hp & Hl & Ha). eauto.
Qed.

Definition is_failed (o : ExecutionOutcome) : bool :=
  match o with OutFailed _ => true | _ => false end.

(** The requests, each with all that is known after it. *)
Lemma safe_request op h :
  live h → rule h op →
  safe (request op) h (λ h' r, h' = h ++ [(op, r)] ∧ is_interrupt r = false).
Proof.
  intros Hl Hr. unfold safe, request. rewrite fwp_bind, fwp_ask. split; [by split|].
  intros r. assert (Hp : h `prefix_of` h ++ [(op, r)]) by by eexists.
  destruct r; try (split; [exact Hp|]; split; [by apply live_snoc|done]). exact Hp.
Qed.

Lemma safe_expect {A} (read : ExecutionOutcome → option A) op h :
  live h → rule h op →
  safe (expect read op) h (λ h' a, ∃ r, h' = h ++ [(op, r)] ∧ read r = Some a).
Proof.
  intros Hl Hr. unfold expect. eapply safe_bind; [by apply safe_request|].
  cbn beta. intros h' r _ Hl' [-> _]. destruct (read r) as [a|] eqn:E; [|apply safe_settle].
  apply safe_mret; [done|]. eauto.
Qed.

Lemma safe_expect_only {A} (read : ExecutionOutcome → option A) op h :
  live h → rule h op →
  safe (expect_only read op) h (λ h' a, ∃ r, h' = h ++ [(op, r)] ∧ read r = Some a).
Proof.
  intros Hl Hr. unfold expect_only. eapply safe_bind; [by apply safe_request|].
  cbn beta. intros h' r _ Hl' [-> _]. destruct (read r) as [a|] eqn:E; [|apply safe_settle].
  apply safe_mret; [done|]. eauto.
Qed.

Lemma safe_unless_failed op h :
  live h → rule h op →
  safe (unless_failed op) h (λ h' _, ∃ r, h' = h ++ [(op, r)] ∧ is_failed r = false).
Proof.
  intros Hl Hr. unfold unless_failed. eapply safe_bind; [by apply safe_request|].
  cbn beta. intros h' r _ Hl' [-> _].
  destruct r; try (apply safe_mret; [done|by eexists]). apply safe_settle.
Qed.

Lemma safe_note op h : live h → rule h op → safe (note op) h (λ _ _, True).
Proof.
  intros Hl Hr. unfold note. eapply safe_bind; [by apply safe_request|]. intros. by apply safe_mret.
Qed.

Lemma safe_note_unfenced op h :
  live h → leased op = false → rule h op → safe (note_unfenced op) h (λ _ _, True).
Proof.
  intros Hl Hop Hr. unfold safe, note_unfenced, request_unfenced. rewrite fwp_bind, fwp_ask.
  split; [by split; [rewrite Hop|]|]. intros r. split; [by eexists|].
  split; [by apply live_snoc_unfenced|done].
Qed.

End Rules.

Arguments safe : simpl never.

(** A fact about an earlier answer stands later. *)
Lemma elem_of_later {A} (h h' : list A) x : h `prefix_of` h' → x ∈ h → x ∈ h'.
Proof. intros [t ->]. rewrite elem_of_app. by left. Qed.

Lemma elem_of_snoc {A} (h : list A) x : x ∈ h ++ [x].
Proof. apply elem_of_app. right. by apply list_elem_of_singleton. Qed.

(** Split a reading of an answer into the answer. *)
Ltac read_answer :=
  match goal with
  | H : ?read ?r = Some ?a |- _ => destruct r; try discriminate H; injection H as H; subst
  end.

(** ** The treasury's programs *)

Section Treasury.
Context `{HA : Alloy} `{HT : !HashText} `{HK : Keccak} `{HS : SolCalls} `{W : TargetWidth}.
Variable Pay : ExecutionTrace → ExecutionOperation → Prop.

Notation safe := (safe Pay).

Lemma safe_ensure_treasury h :
  live h → safe ensure_treasury_lease h (λ h' _, just h' EnsureTreasuryLease (LeaseHeld true)).
Proof.
  intros Hl. unfold ensure_treasury_lease. eapply safe_bind; [by apply safe_expect|].
  intros h' held _ Hl' (r & -> & Hr). destruct held; [|apply safe_settle].
  apply safe_mret; [done|]. read_answer. by eexists.
Qed.

Lemma safe_discard_funding intent why h :
  live h → (ProbeTransactionKnown (fi_transaction_hash intent), Known false) ∈ h →
  safe (discard_funding intent why) h (λ _ _, True).
Proof.
  intros Hl Hk. unfold discard_funding. eapply safe_bind; [|intros; apply safe_settle].
  apply safe_unless_failed; [done|]. by left.
Qed.

Lemma safe_await_or_discard intent h :
  live h → safe (await_or_discard_unseen_funding intent) h (λ _ _, True).
Proof.
  intros Hl. unfold await_or_discard_unseen_funding. eapply safe_bind; [by apply safe_expect_only|].
  intros h' known _ Hl' (r & -> & Hr). destruct known; [by apply safe_mret|].
  read_answer. apply safe_discard_funding; [done|apply elem_of_snoc].
Qed.

Lemma safe_forget_funding intent h : live h → safe (forget_funding_broadcast intent) h (λ _ _, True).
Proof. intros. by apply safe_note_unfenced. Qed.

Lemma safe_funding_reply intent reply h : live h → safe (funding_reply intent reply) h (λ _ _, True).
Proof.
  intros Hl. destruct reply; cbn [funding_reply].
  - destruct (eq_ignore_ascii_case _ _); [by apply safe_note_unfenced|].
    eapply safe_bind; [by apply safe_forget_funding|]. intros. apply safe_settle.
  - eapply safe_bind; [by apply safe_forget_funding|]. intros. by apply safe_note.
  - eapply safe_bind; [by apply safe_forget_funding|]. intros h1 _ _ Hl1 _.
    eapply safe_bind; [by apply safe_expect_only|]. intros h2 known _ Hl2 (r & -> & Hr).
    destruct known; [by apply safe_note_unfenced|]. read_answer.
    destruct (is_definitive_broadcast_rejection reason); [|by apply safe_note].
    apply safe_discard_funding; [done|apply elem_of_snoc].
Qed.

(** The bytes a broadcast sends are the ones it validated. *)
Lemma validated_bytes text hash raw :
  validate_raw_transaction text hash = Ok raw → default [] (parse_hex_bytes text) = raw.
Proof.
  unfold validate_raw_transaction. intros Hv. apply result_bind_Ok in Hv as (x & Hx & Hv).
  destruct (parse_hex_bytes text) as [y|]; [|discriminate Hx]. simpl in Hx |- *.
  case_decide; [discriminate Hx|]. injection Hx as ->.
  destruct (negb _); [done|]. apply result_bind_Ok in Hv as (e & _ & Hv). case_decide; congruence.
Qed.

Definition kept_funding (h : ExecutionTrace) (i : PreparedFundingIntent) : Prop :=
  (SaveFundingIntent i, Saved true) ∈ h ∨ (LoadPreparedFunding, FundingIntent (Some i)) ∈ h.

Lemma kept_funding_later h h' i : h `prefix_of` h' → kept_funding h i → kept_funding h' i.
Proof. intros Hp [?|?]; [left|right]; by eapply elem_of_later. Qed.

Lemma safe_broadcast_funding intent h :
  live h → kept_funding h intent → safe (broadcast_funding intent) h (λ _ _, True).
Proof.
  intros Hl Hk. unfold broadcast_funding.
  eapply safe_bind.
  { apply (safe_lift _ _ _ (λ h' _, h' = h ∧
      ∃ raw, validate_raw_transaction (fi_raw_transaction intent) (fi_transaction_hash intent) = Ok raw));
      [done|]. intros raw Hr. apply map_err_Ok in Hr. eauto. }
  cbn beta. intros h' _ _ _ [-> [raw Hraw]].
  eapply safe_bind; [by apply safe_expect_only|]. intros h1 seen Hp1 Hl1 (r & -> & Hr).
  destruct seen; [by apply safe_mret|]. cbv zeta. rewrite (validated_bytes _ _ _ Hraw).
  eapply safe_bind.
  { apply safe_request; [done|]. exists (fi_raw_transaction intent). split; [done|]. right.
    exists intent. split; [|done]. eapply kept_funding_later in Hk; [exact Hk|done]. }
  cbn beta. intros h2 o Hp2 Hl2 [-> Ho]. destruct o; try apply safe_settle.
  - by apply safe_funding_reply.
  - eapply safe_bind; [by apply safe_forget_funding|]. intros. apply safe_settle.
Qed.

Lemma safe_settle_funding_receipt intent receipt h :
  live h → (FetchTransactionReceipt (fi_transaction_hash intent), Receipt (Some receipt)) ∈ h →
  safe (settle_funding_receipt intent receipt) h (λ _ _, True).
Proof.
  intros Hl Hr. unfold settle_funding_receipt. destruct (receipt_succeeded receipt) as [success|];
    [|apply safe_settle].
  eapply safe_bind; [apply safe_unless_failed; [done|]; right; by exists receipt|]. intros h1 _ _ Hl1 _.
  eapply safe_bind; [by apply safe_forget_funding|]. intros h2 _ _ Hl2 _.
  eapply safe_bind; [by apply safe_note|]. intros h3 _ _ Hl3 _.
  destruct success; [by apply safe_mret|apply safe_settle].
Qed.

Lemma safe_resume_funding intent h :
  live h → kept_funding h intent → safe (resume_funding intent) h (λ _ _, True).
Proof.
  intros Hl Hk. unfold resume_funding.
  eapply safe_bind; [by apply safe_broadcast_funding|]. intros h1 _ _ Hl1 _.
  eapply safe_bind; [by apply safe_expect|]. intros h2 acquired _ Hl2 _.
  destruct acquired; [|by apply safe_mret].
  eapply safe_bind; [by apply safe_expect|]. intros h3 receipt _ Hl3 (r & -> & Hr).
  destruct receipt as [receipt|]; [|by apply safe_await_or_discard].
  read_answer. apply safe_settle_funding_receipt; [done|apply elem_of_snoc].
Qed.

Lemma safe_await_loop polls pause intent h :
  live h → safe (await_loop polls pause intent) h (λ _ _, True).
Proof.
  revert h. induction polls as [|polls IH]; intros h Hl; cbn [await_loop]; [by apply safe_mret|].
  eapply safe_bind; [by apply safe_note|]. intros h1 _ _ Hl1 _.
  eapply safe_bind; [by apply safe_request|]. intros h2 o _ Hl2 [-> _].
  destruct o as [| | | | | | | | | | | | | | | | | | | | |[receipt|]| | | | | | | | | |];
    try apply safe_settle; try by apply IH.
  eapply safe_bind; [apply safe_settle_funding_receipt; [done|apply elem_of_snoc]|].
  intros. by apply safe_mret.
Qed.

Lemma safe_save_and_send intent amount chain_id tempo pending h :
  live h → signed_funding h intent →
  safe (save_and_send intent amount chain_id tempo pending) h (λ _ _, True).
Proof.
  intros Hl Hs. unfold save_and_send.
  eapply safe_bind; [by apply safe_ensure_treasury|]. intros h1 ? Hp1 Hl1 Hj.
  eapply safe_bind.
  { apply safe_expect; [done|]. split; [done|].
    destruct Hs as (op & signed & Hin & Hrest). exists op, signed. split; [by eapply elem_of_later|done]. }
  intros h2 saved Hp2 Hl2 (r & -> & Hr). destruct saved.
  - read_answer. eapply safe_bind; [apply safe_broadcast_funding; [done|]; left; apply elem_of_snoc|].
    intros h3 _ _ Hl3 _. eapply safe_bind; [by apply safe_note|]. intros h4 _ _ Hl4 _.
    by apply safe_await_loop.
  - eapply safe_bind; [by apply safe_expect|]. intros h3 existing _ Hl3 (r' & -> & Hr').
    destruct existing as [existing|]; [|apply safe_settle]. read_answer.
    eapply safe_bind; [apply safe_resume_funding; [done|]; right; apply elem_of_snoc|].
    intros. by apply safe_mret.
Qed.
End Treasury.

Section TreasuryPrograms.
Context `{HA : Alloy} `{HT : !HashText} `{HK : Keccak} `{HS : SolCalls} `{W : TargetWidth}.
Variable Pay : ExecutionTrace → ExecutionOperation → Prop.

Notation safe := (safe Pay).

(** Signing a top-up, from the lease check on. *)
Lemma safe_sign_funding op policy chain_id amount tempo pending h :
  live h → (LoadPreparedFunding, FundingIntent None) ∈ h →
  match op with
  | SignTreasuryTransfer rq => ts_amount rq = amount
  | SignTreasuryPathUsd rq => tts_amount rq = amount
  | _ => False
  end →
  safe (_ ← ensure_treasury_lease; signed ← expect read_signed op;
        save_and_send (funding_intent policy chain_id amount signed) amount chain_id tempo pending) h
    (λ _ _, True).
Proof.
  intros Hl Hn Hop. eapply safe_bind; [by apply safe_ensure_treasury|]. intros h1 ? Hp1 Hl1 Hj.
  eapply safe_bind.
  { apply safe_expect; [done|]. destruct op; try done; (split; [done|by eapply elem_of_later]). }
  intros h2 signed _ Hl2 (r & -> & Hr). read_answer. apply safe_save_and_send; [done|].
  exists op, signed. split; [apply elem_of_snoc|]. by destruct op.
Qed.

Lemma safe_native_funding_locked policy chain_id balance prefund fee tip cap h :
  live h → safe (native_funding_locked policy chain_id balance prefund fee tip cap) h (λ _ _, True).
Proof.
  intros Hl. unfold native_funding_locked.
  eapply safe_bind; [by apply safe_expect|]. intros h1 prepared _ Hl1 (r & -> & Hr).
  destruct prepared as [intent|]; read_answer.
  { eapply safe_bind; [apply safe_resume_funding; [done|]; right; apply elem_of_snoc|].
    intros. by apply safe_mret. }
  set (h1 := h ++ _) in *. assert (Hn : (LoadPreparedFunding, FundingIntent None) ∈ h1) by apply elem_of_snoc.
  eapply safe_bind; [by apply (safe_lift _ _ _ (λ h' _, h' = h1))|]. intros ? plan _ _ ->.
  eapply safe_bind; [by apply safe_expect|]. intros h2 [[nonce treasury_balance] raw] Hp2 Hl2 _.
  cbv zeta. eapply safe_bind; [by apply (safe_lift _ _ _ (λ h' _, h' = h2))|]. intros ? protected _ _ ->.
  destruct (treasury_affordable_top_up _ _ _ _) as [amount|].
  - eapply safe_bind; [instantiate (1 := λ _ _, True); case_decide; [by apply safe_note|by apply safe_mret]|].
    intros h3 ? Hp3 Hl3 _.
    eapply safe_bind; [apply (safe_lift _ _ _ (λ h' a, h' = h3 ∧ a = amount)); [done|]|].
    { intros a' Ha'. inv_checked. done. }
    intros ? ? _ _ [-> ->]. eapply safe_sign_funding; [done| |done].
    eapply elem_of_later; [|exact Hn]. by etransitivity.
  - eapply safe_bind; [by apply (safe_lift _ _ _ (λ h' _, h' = h2))|]. intros ? required _ _ ->.
    eapply safe_bind; [by apply safe_note|]. intros. apply safe_settle.
Qed.

Lemma safe_tempo_funding_locked policy chain_id balance prefund fee h :
  live h → safe (tempo_funding_locked policy chain_id balance prefund fee) h (λ _ _, True).
Proof.
  intros Hl. unfold tempo_funding_locked.
  eapply safe_bind; [by apply safe_expect|]. intros h1 prepared _ Hl1 (r & -> & Hr).
  destruct prepared as [intent|]; read_answer.
  { eapply safe_bind; [apply safe_resume_funding; [done|]; right; apply elem_of_snoc|].
    intros. by apply safe_mret. }
  set (h1 := h ++ _) in *. assert (Hn : (LoadPreparedFunding, FundingIntent None) ∈ h1) by apply elem_of_snoc.
  eapply safe_bind; [by apply (safe_lift _ _ _ (λ h' _, h' = h1))|]. intros ? plan _ _ ->.
  destruct plan as [amount|]; [|by apply safe_mret].
  eapply safe_bind; [apply (safe_lift _ _ _ (λ h' a, h' = h1 ∧ a = amount)); [done|]|].
  { intros a' Ha'. by inv_checked. }
  intros ? ? _ _ [-> ->].
  eapply safe_bind; [by apply safe_expect|]. intros h2 [[nonce treasury_balance] raw] Hp2 Hl2 _.
  do 3 (eapply safe_bind; [by apply (safe_lift _ _ _ (λ h' _, h' = h2))|]; intros ? ? _ _ ->).
  case_decide.
  - eapply safe_bind; [by apply safe_note|]. intros. apply safe_settle.
  - eapply safe_sign_funding; [done|by eapply elem_of_later|done].
Qed.

Lemma safe_under_treasury_lease locked h :
  live h → (∀ h', live h' → h `prefix_of` h' → safe locked h' (λ _ _, True)) →
  safe (under_treasury_lease locked) h (λ _ _, True).
Proof.
  intros Hl Hlocked. unfold under_treasury_lease.
  eapply safe_bind; [by apply safe_request|]. intros h1 o Hp1 Hl1 [-> _].
  destruct o as [| | | | | | | | |[]| | | | | | | | | | | | | | | | | | | | | |];
    try apply safe_settle; try by apply safe_mret.
  specialize (Hlocked _ Hl1 Hp1). unfold safe, fwp in *. rewrite wp_bind.
  eapply wp_mono; [|exact Hlocked]. cbn beta. intros t [ready|e] Hr.
  - destruct Hr as (Hp & Hl' & _). split; [by split|]. intros r. cbn.
    split; [etransitivity; [exact Hp|by eexists]|]. split; [by apply live_snoc_unfenced|done].
  - split; [by split|]. intros r. cbn. etransitivity; [exact Hr|by eexists].
Qed.
End TreasuryPrograms.

Section Ensure.
Context `{HA : Alloy} `{HT : !HashText} `{HK : Keccak} `{HS : SolCalls} `{W : TargetWidth}.
Variable Pay : ExecutionTrace → ExecutionOperation → Prop.

Lemma safe_ensure_native_funding policy chain_id balance prefund fee tip cap h :
  live h → safe Pay (ensure_native_funding policy chain_id balance prefund fee tip cap) h (λ _ _, True).
Proof. intros Hl. apply safe_under_treasury_lease; [done|]. intros. by apply safe_native_funding_locked. Qed.

Lemma safe_ensure_tempo_funding policy chain_id balance prefund fee h :
  live h → safe Pay (ensure_tempo_funding policy chain_id balance prefund fee) h (λ _ _, True).
Proof. intros Hl. apply safe_under_treasury_lease; [done|]. intros. by apply safe_tempo_funding_locked. Qed.
End Ensure.
