(* ===== verification/ExecutionBatchSafety.v ===== *)
(** * ExecutionBatchSafety: the evidence a batch's results stand on

    The triples of [ExecutionSafety] for the functions that also write the
    batch's results, and the proof that the whole leased pipeline keeps both
    the rules and the evidence of every result it calls durable. *)

From S2P Require Export ExecutionSafety.
#[local] Open Scope string_scope.
#[local] Open Scope list_scope.
#[local] Open Scope Z_scope.

(** ** Evidence *)

Section Evidence.
Context `{HA : Alloy} `{HT : !HashText} `{HK : Keccak} `{HS : SolCalls} `{W : TargetWidth}.
Variable start : StartBatch.

(** What makes an operation's outcome durable: a record that was already
    settled, or an answered request that stored its outcome. *)
Inductive settled_by (h : ExecutionTrace) (i : nat) (hash : string) : Prop :=
  | settled_record hashes records record :
      (LoadRecords hashes, Records records) ∈ h → records !! i = Some (Some record) →
      is_durable (status record) = true → settled_by h i hash
  | settled_reloaded record :
      (ReloadRecord hash, OutRecord (Some record)) ∈ h → is_durable (status record) = true →
      settled_by h i hash
  | settled_dead_letter reason : (DeadLetterRouted i reason, Persisted true) ∈ h → settled_by h i hash
  | settled_rejected hash' cause r :
      (MarkRejected hash' cause, r) ∈ h → is_failed r = false →
      eq_ignore_ascii_case hash' hash = true → settled_by h i hash
  | settled_underpaid hash' stage reason code r :
      (MarkRejectedWithReason hash' stage reason code, r) ∈ h → is_failed r = false →
      eq_ignore_ascii_case hash' hash = true → settled_by h i hash
  | settled_deferred cause attempt : (DeferOperation i cause, Deferred attempt) ∈ h → settled_by h i hash
  | settled_resumed intent hash' :
      (ResumeBundleIntent intent, Resumed true) ∈ h → hash' ∈ bi_user_operation_hashes intent →
      eq_ignore_ascii_case hash' hash = true → settled_by h i hash
  | settled_submitted intent gas_limit hash' :
      (MarkBundleSubmitted intent gas_limit, Indexed (length (bi_user_operation_hashes intent))) ∈ h →
      hash' ∈ bi_user_operation_hashes intent → eq_ignore_ascii_case hash' hash = true →
      settled_by h i hash.

Lemma settled_later h h' i hash : h `prefix_of` h' → settled_by h i hash → settled_by h' i hash.
Proof.
  intros Hp [| | | | | | |]; (econstructor; [by eapply elem_of_later|done..]).
Qed.

(** Every result that is called durable has its evidence. *)
Definition sound (h : ExecutionTrace) (s : Results) : Prop :=
  length s = length (operations start) ∧
  ∀ i, s !! i = Some (Some Durable) →
    ∃ routed, operations start !! i = Some routed ∧ settled_by h i (r_user_operation_hash routed).

Lemma sound_later h h' s : h `prefix_of` h' → sound h s → sound h' s.
Proof.
  intros Hp [Hlen Hs]. split; [done|]. intros i Hi. destruct (Hs i Hi) as (routed & ? & ?).
  exists routed. split; [done|by eapply settled_later].
Qed.

Lemma sound_failed h s i reason : sound h s → sound h (failed i reason s).
Proof.
  intros [Hlen Hs]. unfold failed. split; [by rewrite length_insert|]. intros j Hj.
  apply list_lookup_insert_Some in Hj as [(? & ? & ?)|[_ Hj]]; [done|by apply Hs].
Qed.

Lemma sound_durable h s i routed :
  sound h s → operations start !! i = Some routed → settled_by h i (r_user_operation_hash routed) →
  sound h (durable i s).
Proof.
  intros [Hlen Hs] Hi He. unfold durable. split; [by rewrite length_insert|]. intros j Hj.
  apply list_lookup_insert_Some in Hj as [(-> & ? & ?)|[_ Hj]]; [by exists routed|by apply Hs].
Qed.

Lemma sound_new h : sound h (new_results (length (operations start))).
Proof. unfold new_results. split; [by rewrite length_replicate|]. by intros i [? _]%lookup_replicate_1. Qed.

(** A candidate is an operation of the batch. *)
Definition candidate_of (c : Candidate) : Prop :=
  ∃ routed, operations start !! result_index c = Some routed ∧
    hash_string c = to_ascii_lowercase (r_user_operation_hash routed).

(** ** Triples over the results *)

Variable Pay : ExecutionTrace → ExecutionOperation → Prop.

Definition bsafe {A} (m : Batch A) (s : Results) (h : ExecutionTrace)
    (Q : ExecutionTrace → Results → A → Prop) : Prop :=
  swp (allowed Pay) m s h (λ h' s' a, h `prefix_of` h' ∧ live h' ∧ sound h' s' ∧ Q h' s' a)
    (λ h' s' _, h `prefix_of` h' ∧ sound h' s').

Lemma bsafe_mret {A} (a : A) s h (Q : ExecutionTrace → Results → A → Prop) :
  live h → sound h s → Q h s a → bsafe (mret a) s h Q.
Proof. intros. by split. Qed.

Lemma bsafe_bind {A B} (m : Batch A) (f : A → Batch B) s h (Q : ExecutionTrace → Results → A → Prop) Q' :
  bsafe m s h Q →
  (∀ h' s' a, h `prefix_of` h' → live h' → sound h' s' → Q h' s' a → bsafe (f a) s' h' Q') →
  bsafe (m ≫= f) s h Q'.
Proof.
  intros Hm Hf. unfold bsafe. rewrite swp_bind. eapply swp_mono; [| |exact Hm]; cbn beta; [|done].
  intros t s' a (Hp & Hl & Hs & HQ). eapply swp_mono; [| |exact (Hf _ _ a Hp Hl Hs HQ)]; cbn beta.
  - intros t' s'' b (Hp' & ?). split; [by etransitivity|done].
  - intros t' s'' e (Hp' & ?). split; [by etransitivity|done].
Qed.

Lemma bsafe_lift {A} (m : Flow A) s h (Q : ExecutionTrace → A → Prop) :
  sound h s → safe Pay m h Q → bsafe (lift_flow m) s h (λ h' s' a, s' = s ∧ Q h' a).
Proof.
  intros Hs Hm. unfold bsafe. rewrite swp_lift. eapply fwp_mono; [| |exact Hm]; cbn beta.
  - intros t a (Hp & Hl & HQ). split; [done|]. split; [done|]. split; [by eapply sound_later|done].
  - intros t e Hp. split; [done|by eapply sound_later].
Qed.

Lemma bsafe_settle {A} e s h (Q : ExecutionTrace → Results → A → Prop) :
  sound h s → bsafe (lift_flow (settle e)) s h Q.
Proof. intros Hs. by split. Qed.

Lemma bsafe_mono {A} (m : Batch A) s h (Q Q' : ExecutionTrace → Results → A → Prop) :
  bsafe m s h Q →
  (∀ h' s' a, h `prefix_of` h' → live h' → sound h' s' → Q h' s' a → Q' h' s' a) → bsafe m s h Q'.
Proof.
  intros Hm HQ. eapply swp_mono; [| |exact Hm]; cbn beta; [|done].
  intros t s' a (Hp & Hl & Hs & Ha). eauto.
Qed.

Lemma bsafe_set_failed i reason s h :
  live h → sound h s → bsafe (set_failed i reason) s h (λ _ _ _, True).
Proof. intros Hl Hs. split; [done|]. split; [done|]. split; [by apply sound_failed|done]. Qed.

(** A candidate is set durable on evidence of its own hash. *)
Lemma bsafe_set_durable c s h :
  live h → sound h s → candidate_of c →
  (∀ hash, eq_ignore_ascii_case (hash_string c) hash = true → settled_by h (result_index c) hash) →
  bsafe (set_durable (result_index c)) s h (λ _ _ _, True).
Proof.
  intros Hl Hs (routed & Hi & Hh) He. split; [done|]. split; [done|]. split; [|done].
  eapply sound_durable; [done..|]. apply He. rewrite Hh. apply eq_ignore_ascii_case_true.
  apply to_ascii_lowercase_idem.
Qed.

Lemma bsafe_for_each {X} (body : X → Batch ()) (l : list X) s h :
  live h → sound h s →
  (∀ x s' h', x ∈ l → h `prefix_of` h' → live h' → sound h' s' → bsafe (body x) s' h' (λ _ _ _, True)) →
  bsafe (for_each body l) s h (λ _ _ _, True).
Proof.
  revert s h. induction l as [|x l IH]; intros s h Hl Hs Hb; cbn [for_each]; [by apply bsafe_mret|].
  eapply bsafe_bind; [apply Hb; [by left|done..]|].
  intros h' s' ? Hp Hl' Hs' _. apply IH; [done..|]. intros. apply Hb; [by right|by etransitivity|done..].
Qed.
End Evidence.

(** ** The bundle's programs *)

Section BundleSafety.
Context `{HA : Alloy} `{HT : !HashText} `{HK : Keccak} `{HS : SolCalls} `{W : TargetWidth}.
Variable Pay : ExecutionTrace → ExecutionOperation → Prop.

Notation safe := (safe Pay).

Lemma safe_ensure_lane h :
  live h → safe ensure_lane_lease h (λ h' _, just h' EnsureLaneLease (LeaseHeld true)).
Proof.
  intros Hl. unfold ensure_lane_lease. eapply safe_bind; [by apply safe_expect|].
  intros h' held _ Hl' (r & -> & Hr). destruct held; [|apply safe_settle].
  apply safe_mret; [done|]. read_answer. by eexists.
Qed.

Lemma safe_record_deferred hash stage reason h :
  live h → safe (record_deferred hash stage reason) h (λ _ _, True).
Proof.
  intros Hl. unfold record_deferred. eapply safe_bind; [by apply safe_note_unfenced|].
  intros h1 _ _ Hl1 _. destruct (should_notify_executor_deferred stage);
    [by apply safe_note_unfenced|by apply safe_mret].
Qed.

Lemma safe_record_candidates candidates stage reason h :
  live h → safe (record_candidates_deferred candidates stage reason) h (λ _ _, True).
Proof.
  revert h. induction candidates as [|c l IH]; intros h Hl; [by apply safe_mret|].
  eapply safe_bind; [by apply safe_record_deferred|]. intros h1 _ _ Hl1 _. by apply IH.
Qed.

Lemma safe_emit diagnostic h : live h → safe (emit_diagnostic diagnostic) h (λ _ _, True).
Proof. intros. by apply safe_note_unfenced. Qed.

(** Confirmed means that a node has it. *)
Definition confirmed_by (i : PreparedBundleIntent) (h : ExecutionTrace) (confirmed : bool) : Prop :=
  confirmed = true → observed h (bi_transaction_hash i).

Lemma observed_later h h' hash : h `prefix_of` h' → observed h hash → observed h' hash.
Proof.
  intros Hp [?|[(raw & hash' & ? & ?)|?]]; [left|right; left|right; right].
  - by eapply elem_of_later.
  - exists raw, hash'. split; [by eapply elem_of_later|done].
  - by eapply elem_of_later.
Qed.

Lemma safe_remembered i h :
  live h → observed h (bi_transaction_hash i) →
  safe (_ ← remember_broadcast i; mret true) h (confirmed_by i).
Proof.
  intros Hl Ho. eapply safe_bind; [by apply safe_note_unfenced|]. intros h1 _ Hp Hl1 _.
  apply safe_mret; [done|]. intros _. by eapply observed_later.
Qed.

Lemma safe_unproven i ambiguous reason h :
  live h → (SavePreparedBundle i, Saved true) ∈ h →
  safe (unproven_broadcast i ambiguous reason) h (confirmed_by i).
Proof.
  intros Hl Hsaved. unfold unproven_broadcast. eapply safe_bind; [by apply safe_note_unfenced|].
  intros h1 _ Hp1 Hl1 _. eapply safe_bind; [by apply safe_expect_only|].
  intros h2 known Hp2 Hl2 (r & -> & Hr). read_answer.
  set (h2 := h1 ++ _) in *.
  assert (Hk : (ProbeTransactionKnown (bi_transaction_hash i), Known known) ∈ h2) by apply elem_of_snoc.
  unfold resolve_unproven_broadcast. destruct known.
  - apply safe_remembered; [done|]. by right; right.
  - destruct (nonce_too_low reason).
    + eapply safe_bind; [by apply safe_expect_only|]. intros h3 stale Hp3 Hl3 (r' & -> & Hr').
      destruct stale; (eapply safe_bind; [|intros; by apply safe_mret]).
      * read_answer. apply safe_unless_failed; [done|].
        split; [eapply elem_of_later; [exact Hp3|]; eapply elem_of_later; [exact Hp2|]; by eapply elem_of_later|].
        split; [by eapply elem_of_later|apply elem_of_snoc].
      * by apply safe_note_unfenced.
    + eapply safe_bind; [by apply safe_note_unfenced|]. intros. by apply safe_mret.
Qed.

Lemma safe_broadcast_bundle i h :
  live h → (SavePreparedBundle i, Saved true) ∈ h → safe (broadcast_bundle i) h (confirmed_by i).
Proof.
  intros Hl Hk. unfold broadcast_bundle.
  eapply safe_bind.
  { apply (safe_lift _ _ _ (λ h' _, h' = h ∧
      ∃ raw, validate_raw_transaction (bi_raw_transaction i) (bi_transaction_hash i) = Ok raw));
      [done|]. intros raw Hr. apply map_err_Ok in Hr. eauto. }
  cbn beta. intros h' _ _ _ [-> [raw Hraw]].
  eapply safe_bind; [by apply safe_expect_only|]. intros h1 seen Hp1 Hl1 (r & -> & Hr).
  destruct seen.
  { apply safe_mret; [done|]. intros _. left. read_answer. apply elem_of_snoc. }
  cbv zeta. rewrite (validated_bytes _ _ _ Hraw).
  eapply safe_bind.
  { apply safe_request; [done|]. exists (bi_raw_transaction i). split; [done|]. left.
    exists i. split; [|done]. by eapply elem_of_later. }
  cbn beta. intros h2 o Hp2 Hl2 [-> Ho]. destruct o; try apply safe_settle.
  - destruct reply.
    + destruct (eq_ignore_ascii_case _ _) eqn:E.
      * apply safe_remembered; [done|]. right. left. eexists _, _. split; [apply elem_of_snoc|done].
      * eapply safe_bind; [by apply safe_note_unfenced|]. intros. apply safe_settle.
    + apply safe_unproven; [done|]. eapply elem_of_later; [exact Hp2|]. by eapply elem_of_later.
    + apply safe_unproven; [done|]. eapply elem_of_later; [exact Hp2|]. by eapply elem_of_later.
  - eapply safe_bind; [by apply safe_note_unfenced|]. intros. apply safe_settle.
Qed.
End BundleSafety.

(** ** The leased pipeline *)

Section LeasedSafety.
Context `{HA : Alloy} `{HT : !HashText} `{HK : Keccak} `{HS : SolCalls} `{W : TargetWidth}.
Variable Pay : ExecutionTrace → ExecutionOperation → Prop.
Variable start : StartBatch.

Notation safe := (safe Pay).
Notation bsafe := (bsafe start Pay).
Notation candidate_of := (candidate_of start).

(** A candidate's own hash among those of an intent it is part of. *)
Lemma submit_members survivors c h intent gas_limit n :
  (MarkBundleSubmitted intent gas_limit, Indexed n) ∈ h →
  n = length (bi_user_operation_hashes intent) →
  bi_user_operation_hashes intent = map hash_string survivors → c ∈ survivors →
  ∀ hash, eq_ignore_ascii_case (hash_string c) hash = true → settled_by h (result_index c) hash.
Proof.
  intros Hin -> Hh Hc hash He. eapply settled_submitted; [exact Hin| |exact He].
  rewrite Hh. by apply list_elem_of_fmap_2.
Qed.

Lemma bsafe_submit_bundle texts intent gas_limit survivors s h :
  live h → sound start h s → signed_bundle h intent →
  bi_user_operation_hashes intent = map hash_string survivors →
  Forall candidate_of survivors →
  bsafe (submit_bundle texts intent gas_limit survivors) s h (λ _ _ _, True).
Proof.
  intros Hl Hs Hsig Hh Hc. unfold submit_bundle.
  eapply bsafe_bind; [apply bsafe_lift; [done|by apply safe_ensure_lane]|].
  intros h1 ? ? Hp1 Hl1 Hs1 [-> Hj].
  eapply bsafe_bind.
  { apply bsafe_lift; [done|]. apply safe_expect; [done|]. split; [exact Hj|].
    destruct Hsig as (op & signed & Hin & Hrest). exists op, signed. split; [by eapply elem_of_later|done]. }
  intros h2 ? saved Hp2 Hl2 Hs2 [-> (r & -> & Hr)]. destruct saved; cbn [negb]; read_answer.
  - eapply bsafe_bind; [apply bsafe_lift; [done|]; apply safe_broadcast_bundle; [done|apply elem_of_snoc]|].
    intros h3 ? confirmed Hp3 Hl3 Hs3 [-> Hconf]. destruct confirmed; cbn [negb].
    + eapply bsafe_bind.
      { apply bsafe_lift; [done|]. apply safe_expect; [done|]. split; [|by apply Hconf].
        eapply elem_of_later; [exact Hp3|apply elem_of_snoc]. }
      intros h4 ? indexed Hp4 Hl4 Hs4 [-> (r & -> & Hr)]. read_answer.
      case_bool_decide as Hn; cbn [negb]; [|by apply bsafe_settle].
      apply bsafe_for_each; [done..|]. intros c s' h' Hin Hp' Hl' Hs'.
      rewrite Forall_forall in Hc. apply bsafe_set_durable; [done..|by apply Hc|].
      eapply submit_members; [|exact Hn|exact Hh|exact Hin]. eapply elem_of_later; [exact Hp'|apply elem_of_snoc].
    + eapply bsafe_mono; [apply bsafe_lift; [done|]; by apply safe_record_candidates|done].
  - eapply bsafe_bind; [apply bsafe_lift; [done|]; by apply safe_expect|].
    intros h3 ? existing _ Hl3 Hs3 [-> (r & -> & Hr')]. destruct existing; [|by apply bsafe_settle].
    read_answer. eapply bsafe_bind; [|intros; by apply bsafe_mret].
    apply bsafe_lift; [done|]. apply safe_expect; [done|apply elem_of_snoc].
Qed.

Lemma bsafe_nonce_mismatch c onchain s h :
  live h → sound start h s → candidate_of c →
  bsafe (resolve_nonce_mismatch (c, onchain)) s h (λ _ _ _, True).
Proof.
  intros Hl Hs Hc. unfold resolve_nonce_mismatch. destruct onchain as [onchain|];
    [|by apply bsafe_set_failed]. cbv zeta.
  case_decide; (eapply bsafe_bind; [apply bsafe_lift; [done|by apply safe_request]|]);
    intros h1 ? o _ Hl1 Hs1 [-> [-> _]]; destruct o; try (by apply bsafe_set_failed);
    (apply bsafe_set_durable; [done..|]; intros hash He).
  1: eapply settled_deferred, elem_of_snoc.
  all: eapply settled_rejected; [apply elem_of_snoc|done|exact He].
Qed.

Lemma bsafe_nonce_mismatches entry_point mismatches s h :
  live h → sound start h s → Forall candidate_of mismatches →
  bsafe (resolve_nonce_mismatches entry_point mismatches) s h (λ _ _ _, True).
Proof.
  intros Hl Hs Hc. unfold resolve_nonce_mismatches.
  eapply bsafe_bind; [apply bsafe_lift; [done|by apply safe_request]|].
  intros h1 ? o _ Hl1 Hs1 [-> [-> _]]. cbv zeta.
  assert (Hu : bsafe (for_each (λ c, set_failed (result_index c) LOOKUP_UNAVAILABLE) mismatches) s
    (h ++ [(FetchAccountNonces entry_point
              (map (λ c, (po_sender (cand_packed c), p_nonce (packed (cand_packed c)))) mismatches), o)])
    (λ _ _ _, True)).
  { apply bsafe_for_each; [done..|]. intros. by apply bsafe_set_failed. }
  destruct o as [| | | | | | | | | | | | | |nonces| | | | | | | | | | | | | | | | |]; try exact Hu.
  case_decide; [|exact Hu]. apply bsafe_for_each; [done..|].
  intros [c onchain] s' h' Hin _ Hl' Hs'. rewrite Forall_forall in Hc.
  apply bsafe_nonce_mismatch; [done..|]. apply Hc. by eapply elem_of_zip_l.
Qed.

(** ** Where the logs come from *)

(** The operation's own simulation executed, alone. *)
Definition executed_alone (h : ExecutionTrace) (entry_point : Z) (c : Candidate)
    (simulation : BundleSimulationData) : Prop :=
  ∃ operations verdicts i,
    (SimulateIndividually entry_point operations, OperationVerdicts verdicts) ∈ h ∧
    operations !! i = Some (cand_hash c, cand_packed c) ∧ verdicts !! i = Some (OpExecuted simulation).

(** The simulation is one of exactly these operations. *)
Definition simulated (h : ExecutionTrace) (entry_point : Z) (l : list Candidate)
    (simulation : BundleSimulationData) : Prop :=
  (SimulateBundle entry_point (bundle_operations l), BundleVerdict (BundleSuccess simulation)) ∈ h ∨
  ∃ c, l = [c] ∧ executed_alone h entry_point c simulation.

Lemma executed_alone_later h h' entry_point c simulation :
  h `prefix_of` h' → executed_alone h entry_point c simulation → executed_alone h' entry_point c simulation.
Proof.
  intros Hp (ops & verdicts & i & ? & ?). exists ops, verdicts, i. split; [by eapply elem_of_later|done].
Qed.

Lemma simulated_later h h' entry_point l simulation :
  h `prefix_of` h' → simulated h entry_point l simulation → simulated h' entry_point l simulation.
Proof.
  intros Hp [?|(c & ? & ?)]; [left; by eapply elem_of_later|right].
  exists c. split; [done|by eapply executed_alone_later].
Qed.

(** The executions kept beside the survivors are their own. *)
Definition own_executions (h : ExecutionTrace) (entry_point : Z) (l : list Candidate)
    (executions : list (option BundleSimulationData)) : Prop :=
  Forall2 (λ c execution, ∀ simulation, execution = Some simulation →
             executed_alone h entry_point c simulation) l executions.

Lemma own_executions_later h h' entry_point l executions :
  h `prefix_of` h' → own_executions h entry_point l executions → own_executions h' entry_point l executions.
Proof.
  intros Hp HF. eapply Forall2_impl; [exact HF|]. cbn. intros c ex Hex simulation ->.
  by eapply executed_alone_later, Hex.
Qed.

Definition triaged (h : ExecutionTrace) (entry_point : Z) (t : Triage) : Prop :=
  Forall candidate_of (survivors t) ∧ Forall candidate_of (nonce_mismatches t) ∧
  own_executions h entry_point (survivors t) (executions t).

Lemma triaged_later h h' entry_point t :
  h `prefix_of` h' → triaged h entry_point t → triaged h' entry_point t.
Proof. intros Hp (? & ? & ?). split; [done|]. split; [done|]. by eapply own_executions_later. Qed.

Lemma triaged_survivor h entry_point c ex t :
  candidate_of c → (∀ simulation, ex = Some simulation → executed_alone h entry_point c simulation) →
  triaged h entry_point t → triaged h entry_point (add_survivor c ex t).
Proof.
  intros Hc Hex (? & ? & ?). unfold triaged, own_executions, add_survivor. cbn [survivors executions nonce_mismatches].
  split; [by constructor|]. split; [done|]. by constructor.
Qed.

Lemma triaged_mismatch h entry_point c t :
  candidate_of c → triaged h entry_point t → triaged h entry_point (add_mismatch c t).
Proof.
  intros Hc (? & ? & ?). unfold triaged, add_mismatch. cbn [survivors executions nonce_mismatches].
  split; [done|]. split; [by constructor|done].
Qed.

Lemma bsafe_sort_verdicts entry_point l s h :
  live h → sound start h s →
  Forall (λ '(c, verdict), candidate_of c ∧
            ∀ simulation, verdict = OpExecuted simulation → executed_alone h entry_point c simulation) l →
  bsafe (sort_verdicts l) s h (λ h' _ t, triaged h' entry_point t).
Proof.
  revert s h. induction l as [|[c verdict] l IH]; intros s h Hl Hs HF; cbn [sort_verdicts].
  { apply bsafe_mret; [done..|]. repeat split; constructor. }
  apply Forall_cons in HF as [[Hc Hv] HF].
  assert (Hnext : ∀ s' h', h `prefix_of` h' → live h' → sound start h' s' →
    bsafe (sort_verdicts l) s' h' (λ h'' _ t, triaged h'' entry_point t)).
  { intros s' h' Hp Hl' Hs'. apply IH; [done..|]. eapply Forall_impl; [exact HF|].
    intros [c' v'] [? Hex]. split; [done|]. intros sim ->. by eapply executed_alone_later, Hex. }
  destruct verdict as [|simulation| |reason|reason|reason].
  - eapply bsafe_bind; [by apply Hnext|]. intros h' s' t Hp Hl' Hs' Ht. apply bsafe_mret; [done..|].
    by apply triaged_survivor.
  - eapply bsafe_bind; [by apply Hnext|]. intros h' s' t Hp Hl' Hs' Ht. apply bsafe_mret; [done..|].
    apply triaged_survivor; [done| |done]. intros ? [= <-]. by eapply executed_alone_later, Hv.
  - eapply bsafe_bind; [by apply Hnext|]. intros h' s' t Hp Hl' Hs' Ht. apply bsafe_mret; [done..|].
    by apply triaged_mismatch.
  - eapply bsafe_bind; [apply bsafe_lift; [done|]; by apply safe_unless_failed|].
    intros h1 ? ? Hp1 Hl1 Hs1 [-> (r & -> & Hr)].
    eapply bsafe_bind; [apply bsafe_lift; [done|]; by apply safe_note_unfenced|].
    intros h2 ? ? Hp2 Hl2 Hs2 [-> _]. eapply bsafe_bind.
    { apply bsafe_set_durable; [done..|]. intros hash He.
      eapply settled_rejected; [eapply elem_of_later; [exact Hp2|apply elem_of_snoc]|done|exact He]. }
    intros h3 s3 ? Hp3 Hl3 Hs3 _. apply Hnext; [|done..]. etransitivity; [exact Hp1|by etransitivity].
  - eapply bsafe_bind; [apply bsafe_lift; [done|]; by apply safe_record_deferred|].
    intros h1 ? ? Hp1 Hl1 Hs1 [-> _].
    eapply bsafe_bind; [apply bsafe_lift; [done|]; by apply safe_emit|].
    intros h2 ? ? Hp2 Hl2 Hs2 [-> _]. apply Hnext; [by etransitivity|done..].
  - eapply bsafe_bind; [apply bsafe_lift; [done|]; by apply safe_record_deferred|].
    intros h1 ? ? Hp1 Hl1 Hs1 [-> _].
    eapply bsafe_bind; [apply bsafe_lift; [done|]; by apply safe_emit|].
    intros h2 ? ? Hp2 Hl2 Hs2 [-> _]. apply Hnext; [by etransitivity|done..].
Qed.

(** A verdict read for the bundle [l]. *)
Definition verdict_of (h : ExecutionTrace) (entry_point : Z) (l : list Candidate) (verdict : BundleSimVerdict) :
    Prop :=
  ∀ simulation, verdict = BundleSuccess simulation → simulated h entry_point l simulation.

Lemma safe_simulate_unless entry_point l executions h :
  live h → own_executions h entry_point l executions →
  safe (simulate_bundle_unless_executed entry_point l executions) h
    (λ h' verdict, verdict_of h' entry_point l verdict).
Proof.
  intros Hl HF.
  assert (Hsim : safe (simulate_bundle entry_point l) h (λ h' verdict, verdict_of h' entry_point l verdict)).
  { eapply safe_mono; [by apply safe_expect|]. cbn. intros h' verdict _ _ (r & -> & Hr) simulation ->.
    read_answer. left. apply elem_of_snoc. }
  destruct HF as [|c ex l executions Hex HF]; [exact Hsim|]. simpl.
  destruct l; [|exact Hsim]. destruct ex as [execution|]; [|by inversion HF; subst].
  inversion HF; subst. apply safe_mret; [done|]. intros simulation [= <-]. right. exists c.
  split; [done|by apply Hex].
Qed.

Lemma safe_simulate_survivors entry_point t h :
  live h → triaged h entry_point t →
  safe (simulate_survivors entry_point t) h
    (λ h' '(verdict, l), Forall candidate_of l ∧ verdict_of h' entry_point l verdict).
Proof.
  intros Hl (Hc & _ & HF). unfold simulate_survivors.
  eapply safe_bind; [by apply safe_simulate_unless|]. cbn beta. intros h1 verdict Hp Hl1 Hv. cbv zeta.
  destruct (_ && _); [|by apply safe_mret].
  eapply safe_bind.
  { apply safe_simulate_unless; [done|]. apply Forall2_take. by eapply own_executions_later. }
  cbn beta. intros h2 verdict' _ Hl2 Hv'. apply safe_mret; [done|]. split; [by apply Forall_take|done].
Qed.

Lemma safe_bundle_success entry_point l verdict h :
  live h → verdict_of h entry_point l verdict →
  safe (bundle_success l verdict) h
    (λ h' simulation, ∀ s, simulation = Some s → simulated h' entry_point l s).
Proof.
  intros Hl Hv. destruct verdict as [simulation| |reason|reason|reason]; cbn [bundle_success].
  - apply safe_mret; [done|]. intros s [= <-]. by apply Hv.
  - eapply safe_bind; [by apply safe_record_candidates|]. intros h1 _ _ Hl1 _.
    eapply safe_bind; [by apply safe_emit|]. intros. by apply safe_mret.
  - eapply safe_bind; [by apply safe_record_candidates|]. intros h1 _ _ Hl1 _.
    eapply safe_bind; [by apply safe_emit|]. intros. by apply safe_mret.
  - eapply safe_bind; [by apply safe_record_candidates|]. intros h1 _ _ Hl1 _.
    eapply safe_bind; [by apply safe_emit|]. intros. by apply safe_mret.
  - apply safe_settle.
Qed.
End LeasedSafety.
