(* ===== verification/ExecutionPayment.v ===== *)
(** * ExecutionPayment: what a bundle is signed for

    The terms a signature request stands on ([paid_bundle]): whose payments,
    proved by which simulation, priced by which answers.  Both tails of the
    leased pipeline reach their signature only on these terms. *)

From S2P Require Export ExecutionBatchSafety.
#[local] Open Scope string_scope.
#[local] Open Scope list_scope.
#[local] Open Scope Z_scope.

(** ** Lengths *)

Lemma allocate_bundle_gas_length simulated estimated per bps fixed l :
  allocate_bundle_gas simulated estimated per bps fixed = Some l → length l = length per.
Proof.
  destruct per as [|g per]; [by intros [= <-]|]. unfold allocate_bundle_gas. intros H. inv_checked.
  rename select (mapM _ _ = _) into Hm. apply length_mapM in Hm. rewrite <-Hm.
  rewrite length_zip_with_l_eq, length_seq; [done|]. by rewrite length_seq.
Qed.

Lemma split_by_weight_length total per l : split_by_weight total per = Some l → length l = length per.
Proof.
  unfold split_by_weight. intros H. inv_checked. rewrite distribute_length.
  rename select (mapM _ _ = _) into Hm. by apply length_mapM in Hm.
Qed.

Lemma settlement_gas_allocations_length rule measured lim per declared bps fixed l :
  length lim = length per →
  settlement_gas_allocations rule measured lim per declared bps fixed = Some l → length l = length per.
Proof.
  intros Hl H. unfold settlement_gas_allocations in H.
  assert (Hs : ∀ m, (if negb (bool_decide (length lim = length per)) then None
     else match lim with [] => Some [] | _ =>
       limit ← checked_sum 256 lim; billed ← billed_gas m declared bps fixed;
       total ← (if decide (rule = MeasuredAtLeastHalfTheLimit)
                then half ← ceil_div limit 2; Some (Z.max (Z.min billed limit) half)
                else Some (Z.min billed limit));
       split_by_weight total per end) = Some l → length l = length per).
  { intros m Hm. rewrite bool_decide_eq_true_2 in Hm by done. destruct lim; simpl negb in Hm; cbv iota in Hm.
    - by injection Hm as <-.
    - inv_checked. by eapply split_by_weight_length. }
  destruct rule, measured; try (injection H as <-; exact Hl); by eapply Hs.
Qed.

Section Payment.
Context `{HA : Alloy} `{HT : !HashText} `{HK : Keccak} `{HS : SolCalls} `{W : TargetWidth}.
Variable start : StartBatch.

Lemma gas_allocations_length survivors simulation estimated limits allocations :
  gas_allocations start survivors simulation estimated = Some (limits, allocations) →
  length allocations = length (operation_gas_used simulation).
Proof.
  unfold gas_allocations. intros Hg. apply bind_Some in Hg as (lim & Hlim & Hg).
  apply bind_Some in Hg as (al & Hal & Hg). injection Hg as -> ->.
  apply allocate_bundle_gas_length in Hlim. by eapply settlement_gas_allocations_length.
Qed.

(** ** The terms *)

(** Where the native coin's price came from; none is used only when no
    operation pays in a stablecoin. *)
Definition price_known (h : ExecutionTrace) (ca : ChainAssetConfig) (call_datas : list (list byte))
    (price : option Z) : Prop :=
  match price with
  | Some p => pegged_native_usd_price (batch_chain start) = Some p ∨ (FetchMarketPrice, Price p) ∈ h
  | None => has_stablecoin_payment (treasury (policy start)) ca call_datas = false
  end.

(** One operation's own payment: read from its calldata, proved by the logs
    if it is a token's, and no less than the marked-up cost of its gas. *)
Definition operation_pays (ca : ChainAssetConfig) (price : option Z) (proof : list SettlementLog)
    (cap : Z) (c : Candidate) (gas : Z) : Prop :=
  ∃ r, parse_reimbursement (po_call_data (cand_packed c)) (treasury (policy start)) (allowlist_of ca) = Ok r ∧
    verify_stable_transfer_logs r (po_sender (cand_packed c)) (treasury (policy start)) proof = true ∧
    (config_typed ca → price_typed price → covers_cost ca price (gas * cap) r).

(** One survivor's payment on Tempo, in pathUSD. *)
Definition operation_pays_path_usd (ca : ChainAssetConfig) (simulation : BundleSimulationData)
    (c : Candidate) (cost : Z) : Prop :=
  ∃ required, marked_tempo_cost cost (settlement_markup_bps ca) = Some required ∧
    required ≤ (tempo_payment start simulation c).1 ∧ (tempo_payment start simulation c).2 = true.

Record bundle_terms (h : ExecutionTrace) (ca : ChainAssetConfig) (entry_point : Z) (l : list Candidate)
    (simulation : BundleSimulationData) : Prop := {
  terms_assets : ∃ resolved, (LoadChainAssets, OutAssets resolved) ∈ h ∧ assets resolved = ca;
  terms_members : Forall (candidate_of start) l;
  terms_simulated : simulated h entry_point l simulation }.

Definition paid_bundle (h : ExecutionTrace) (op : ExecutionOperation) : Prop :=
  match op with
  | SignBundle rq =>
      ∃ ca l simulation context limits allocations price,
        bundle_terms h ca (bs_entry_point rq) l simulation ∧
        bs_calldata rq = bundle_calldata start l ∧
        (FetchTransactionContext (bs_entry_point rq) (bundle_calldata start l), OutContext context) ∈ h ∧
        bs_nonce rq = tc_nonce context ∧
        gas_allocations start l simulation (estimated_gas context) = Some (limits, allocations) ∧
        bundle_gas_limit limits = Ok (bs_gas_limit rq) ∧
        price_known h ca (call_datas_of l) price ∧
        delivers_full_tip_at {| outer_max_fee := bs_max_fee_per_gas rq;
                                outer_max_priority_fee := bs_max_priority_fee_per_gas rq |}
          (tc_base_fee_per_gas context) = true ∧
        (∀ i c, l !! i = Some c →
           Forall reports_gas h ∨ (i < length (operation_gas_used simulation))%nat →
           ∃ gas, allocations !! i = Some gas ∧
             operation_pays ca price (logs simulation) (bs_max_fee_per_gas rq) c gas)
  | SignTempoBundle rq =>
      ∃ ca l simulation base_fee nonce balance costs,
        bundle_terms h ca (tsr_entry_point rq) l simulation ∧
        tsr_calldata rq = bundle_calldata start l ∧
        (FetchTempoContext, TempoContext base_fee nonce balance) ∈ h ∧ tsr_nonce rq = nonce ∧
        tempo_costs simulation base_fee = Ok costs ∧
        tempo_handle_ops_gas_limit (map cand_packed l) = Ok (tsr_gas_limit rq) ∧
        tempo_outer_max_fee base_fee = Ok (tsr_max_fee_per_gas rq) ∧
        Forall (λ c, other_fee_token c = false) l ∧
        (∀ i c, l !! i = Some c →
           Forall reports_gas h ∨ (i < length (operation_gas_used simulation))%nat →
           ∃ cost, costs !! i = Some cost ∧ operation_pays_path_usd ca simulation c cost)
  | _ => True
  end.

(** Where every simulation of the run accounts for its operations, so does
    the bundle's. *)
Lemma simulated_reports h entry_point l simulation :
  simulated h entry_point l simulation → Forall reports_gas h →
  length (operation_gas_used simulation) = length l.
Proof.
  intros Hs Hr. rewrite Forall_forall in Hr.
  destruct Hs as [Hin|(c & -> & ops & verdicts & i & Hin & _ & Hv)]; apply Hr in Hin; cbn in Hin.
  - rewrite Hin. apply length_map.
  - exact (Forall_lookup_1 _ _ _ _ Hin Hv).
Qed.

Lemma accounted h ca entry_point l simulation i c :
  bundle_terms h ca entry_point l simulation → l !! i = Some c →
  Forall reports_gas h ∨ (i < length (operation_gas_used simulation))%nat →
  (i < length (operation_gas_used simulation))%nat.
Proof.
  intros [_ _ Hs] Hi [Hr|?]; [|done]. rewrite (simulated_reports _ _ _ _ Hs Hr). by eapply lookup_lt_Some.
Qed.

Lemma bundle_terms_later h h' ca entry_point l simulation :
  h `prefix_of` h' → bundle_terms h ca entry_point l simulation →
  bundle_terms h' ca entry_point l simulation.
Proof.
  intros Hp [(resolved & ? & ?) ? ?]. split; [|done|by eapply simulated_later].
  exists resolved. split; [by eapply elem_of_later|done].
Qed.

Lemma price_known_later h h' ca call_datas price :
  h `prefix_of` h' → price_known h ca call_datas price → price_known h' ca call_datas price.
Proof. intros Hp. destruct price; [|done]. intros [?|?]; [by left|right; by eapply elem_of_later]. Qed.

(** ** The settlement gate *)

Notation safe := (safe paid_bundle).
Notation bsafe := (bsafe start paid_bundle).
Notation candidate_of := (candidate_of start).

Lemma bsafe_hold c evaluation s h :
  live h → sound start h s → candidate_of c →
  bsafe (hold_operation start c evaluation) s h (λ _ _ _, True).
Proof.
  intros Hl Hs Hc. unfold hold_operation.
  eapply bsafe_bind; [apply bsafe_lift; [done|by apply safe_request]|].
  intros h1 ? o _ Hl1 Hs1 [-> [-> _]]. destruct o as [| | | | | | |attempt| | | | | | | | | | | | | | | | | | | | | | | |];
    try by apply bsafe_mret.
  destruct (decide_hold _ _ _ _) as [reason|].
  - eapply bsafe_bind; [apply bsafe_lift; [done|]; by apply safe_record_deferred|].
    intros h2 ? ? Hp2 Hl2 Hs2 [-> _]. eapply bsafe_bind; [apply bsafe_set_durable; [done..|]|].
    { intros hash _. eapply settled_deferred, elem_of_later; [exact Hp2|apply elem_of_snoc]. }
    intros. by apply bsafe_mret.
  - eapply bsafe_bind; [apply bsafe_lift; [done|]; by apply safe_emit|]. intros. by apply bsafe_mret.
Qed.

Lemma bsafe_reject_payment c reason code diagnostic s h :
  live h → sound start h s → candidate_of c →
  bsafe (reject_payment c reason code diagnostic) s h (λ _ _ _, True).
Proof.
  intros Hl Hs Hc. unfold reject_payment.
  eapply bsafe_bind; [apply bsafe_lift; [done|by apply safe_unless_failed]|].
  intros h1 ? ? _ Hl1 Hs1 [-> (r & -> & Hr)].
  eapply bsafe_bind; [apply bsafe_set_durable; [done..|]|].
  { intros hash He. eapply settled_underpaid; [apply elem_of_snoc|done|exact He]. }
  intros h2 s2 ? _ Hl2 Hs2 _.
  eapply bsafe_bind; [apply bsafe_lift; [done|]; by apply safe_emit|]. intros h3 ? ? _ Hl3 Hs3 [-> _].
  eapply bsafe_mono; [apply bsafe_lift; [done|]; by apply safe_note_unfenced|done].
Qed.

(** What the gate lets through. *)
Definition gate_passes (proof : list SettlementLog) (x : Candidate * SettlementEvaluation) : Prop :=
  accepted x.2 = true ∧
  verify_stable_transfer_logs (ev_reimbursement x.2) (po_sender (cand_packed x.1))
    (treasury (policy start)) proof = true.

Lemma bsafe_gate_operation proof c evaluation s h :
  live h → sound start h s → candidate_of c →
  bsafe (gate_operation start proof c evaluation) s h
    (λ _ _ stopped, stopped = false → gate_passes proof (c, evaluation)).
Proof.
  intros Hl Hs Hc. unfold gate_operation. cbv zeta.
  destruct (accepted evaluation && _) eqn:E.
  { apply bsafe_mret; [done..|]. intros _. by apply andb_true_iff in E. }
  eapply bsafe_bind.
  { instantiate (1 := λ _ _ _, True).
    destruct (is_shortfall evaluation && _); [by apply bsafe_hold|by apply bsafe_mret]. }
  intros h1 s1 held _ Hl1 Hs1 _. destruct held; [by apply bsafe_mret|].
  eapply bsafe_bind; [by apply bsafe_reject_payment|]. intros. by apply bsafe_mret.
Qed.

Lemma bsafe_gate proof l s h :
  live h → sound start h s → Forall (λ x, candidate_of x.1) l →
  bsafe (settlement_gate start proof l) s h (λ _ _ stopped, stopped = false → Forall (gate_passes proof) l).
Proof.
  intros Hl Hs HF. revert s h Hl Hs. induction HF as [|[c e] l Hc HF IH]; intros s h Hl Hs;
    cbn [settlement_gate]; [by apply bsafe_mret|].
  eapply bsafe_bind; [by apply bsafe_gate_operation|]. intros h1 s1 stopped _ Hl1 Hs1 H1.
  eapply bsafe_bind; [by apply IH|]. intros h2 s2 rest _ Hl2 Hs2 H2. apply bsafe_mret; [done..|].
  intros [-> ->]%orb_false_iff. constructor; auto.
Qed.

Lemma bsafe_tempo_gate_operation ca simulation c cost s h :
  live h → sound start h s → candidate_of c →
  bsafe (tempo_gate_operation start ca simulation c cost) s h
    (λ _ _ stopped, stopped = false → operation_pays_path_usd ca simulation c cost).
Proof.
  intros Hl Hs Hc. unfold tempo_gate_operation, operation_pays_path_usd.
  destruct (tempo_payment start simulation c) as [paid valid] eqn:E.
  eapply bsafe_bind.
  { apply bsafe_lift; [done|]. apply (safe_lift _ _ _ (λ h' required, h' = h ∧
      marked_tempo_cost cost (settlement_markup_bps ca) = Some required)); [done|].
    intros required Hr. by apply ok_or_Ok in Hr. }
  intros ? ? required _ _ _ [-> [-> Hm]]. destruct (_ || _) eqn:Eo.
  - eapply bsafe_bind; [by apply bsafe_reject_payment|]. intros. by apply bsafe_mret.
  - apply bsafe_mret; [done..|]. intros _. apply orb_false_iff in Eo as [Hp Hv].
    apply bool_decide_eq_false in Hp. apply negb_false_iff in Hv. exists required. simpl.
    split; [done|]. split; [lia|done].
Qed.

Lemma bsafe_tempo_gate ca simulation l s h :
  live h → sound start h s → Forall (λ x, candidate_of x.1) l →
  bsafe (tempo_gate start ca simulation l) s h
    (λ _ _ stopped, stopped = false → Forall (λ x, operation_pays_path_usd ca simulation x.1 x.2) l).
Proof.
  intros Hl Hs HF. revert s h Hl Hs. induction HF as [|[c cost] l Hc HF IH]; intros s h Hl Hs;
    cbn [tempo_gate]; [by apply bsafe_mret|].
  eapply bsafe_bind; [by apply bsafe_tempo_gate_operation|]. intros h1 s1 stopped _ Hl1 Hs1 H1.
  eapply bsafe_bind; [by apply IH|]. intros h2 s2 rest _ Hl2 Hs2 H2. apply bsafe_mret; [done..|].
  intros [-> ->]%orb_false_iff. constructor; auto.
Qed.

(** ** The EIP-1559 tail *)

(** No prepared bundle waits in the outbox. *)
Notation no_intent h := ((LoadPreparedBundle, OutIntent None) ∈ h).

Lemma safe_read_market_price h :
  live h →
  safe (read_market_price (batch_chain start)) h
    (λ h' price, ∀ p, price = Ok p →
       pegged_native_usd_price (batch_chain start) = Some p ∨ (FetchMarketPrice, Price p) ∈ h').
Proof.
  intros Hl. unfold read_market_price. destruct (pegged_native_usd_price _) as [p|].
  { apply safe_mret; [done|]. intros ? [= <-]. by left. }
  eapply safe_bind; [by apply safe_request|]. intros h1 o _ Hl1 [-> _]. apply safe_mret; [done|].
  intros p. destruct o; try done. intros [= ->]. right. apply elem_of_snoc.
Qed.

Lemma usable_price_known h ca call_datas market_price price :
  (∀ p, market_price = Ok p →
     pegged_native_usd_price (batch_chain start) = Some p ∨ (FetchMarketPrice, Price p) ∈ h) →
  usable_price start ca call_datas market_price = Ok price → price_known h ca call_datas price.
Proof.
  unfold usable_price. intros Hm. destruct market_price as [p|message].
  - intros [= <-]. by apply Hm.
  - destruct (has_stablecoin_payment _ _ _) eqn:E; [done|]. by intros [= <-].
Qed.

Lemma safe_speed_fees ca call_datas allocations price fees h :
  live h → safe (speed_fees start ca call_datas allocations price fees) h
    (λ _ fees', fc_base_fee_per_gas fees' = fc_base_fee_per_gas fees).
Proof.
  intros Hl. unfold speed_fees. destruct (requested_tier fees) as [tier|]; [|by apply safe_mret].
  eapply safe_bind; [by apply (safe_lift _ _ _ (λ _ _, True))|]. intros h1 outer _ Hl1 _.
  destruct outer as [outer|]; [|by apply safe_mret].
  eapply safe_bind; [by apply safe_emit|]. intros. by apply safe_mret.
Qed.

Definition verdict_terms (ca : ChainAssetConfig) (call_datas : list (list byte)) (allocations : list Z)
    (price : option Z) (cap : Z) (evaluations : list SettlementEvaluation) : Prop :=
  ∃ fees decision,
    decide_settlement (treasury (policy start)) ca call_datas allocations price fees = Ok decision ∧
    evaluations = evaluation_of decision ∧ cap = signed_fee (quoted_fee_per_gas fees) decision.

Lemma safe_settle_fees ca call_datas allocations price fees h :
  live h → safe (settle_fees start ca call_datas allocations price fees) h
    (λ _ '(cap, evaluations), verdict_terms ca call_datas allocations price cap evaluations).
Proof.
  intros Hl. unfold settle_fees.
  eapply safe_bind.
  { apply (safe_lift _ _ _ (λ _ d,
      decide_settlement (treasury (policy start)) ca call_datas allocations price fees = Ok d)); [done|].
    intros d Hd. by apply map_err_Ok in Hd. }
  intros h1 d _ Hl1 Hd.
  destruct d as [evaluation|evaluation affordable floor|fee evaluation].
  - apply safe_mret; [done|]. by exists fees, (KeepQuote evaluation).
  - eapply safe_bind; [by apply safe_emit|]. intros h2 ? _ Hl2 _. apply safe_mret; [done|].
    by exists fees, (FloorUnfundable evaluation affordable floor).
  - eapply safe_bind; [by apply safe_emit|]. intros h2 ? _ Hl2 _. apply safe_mret; [done|].
    by exists fees, (Reprice fee evaluation).
Qed.

(** A bundle that passes its gate pays for every operation at the cap of its
    verdict. *)
Lemma gate_pays ca l allocations price cap evaluations proof :
  verdict_terms ca (call_datas_of l) allocations price cap evaluations →
  Forall (gate_passes proof) (zip l evaluations) →
  ∀ i c gas, l !! i = Some c → allocations !! i = Some gas → operation_pays ca price proof cap c gas.
Proof.
  intros (fees & d & Hd & -> & ->) HF i c gas Hc Hg.
  assert (Hcd : call_datas_of l !! i = Some (po_call_data (cand_packed c)))
    by (unfold call_datas_of; by rewrite list_lookup_fmap, Hc).
  pose proof (decide_settlement_evaluates _ _ _ _ _ _ _ Hd) as (costs & Hcosts & Hev).
  apply costs_at_Ok in Hcosts as [-> Hfit].
  apply evaluate_at_Ok, evaluate_batch_Ok in Hev as (_ & floor & _ & HF2).
  pose proof (inputs_at_lookup _ _ (signed_fee (quoted_fee_per_gas fees) d) _ _ _ Hcd Hg) as Hin.
  destruct (Forall2_lookup_l _ _ _ _ _ HF2 Hin) as (e & He & Hone).
  assert (Hgate : gate_passes proof (c, e)).
  { eapply Forall_lookup_1; [exact HF|]. apply lookup_zip_Some. by split. }
  destruct Hgate as [Hacc Hlogs]. exists (ev_reimbursement e).
  split; [exact (accepted_reimbursement _ _ _ _ _ _ Hone Hacc)|]. split; [exact Hlogs|].
  intros Hct Hpt. by eapply accepted_at_cap.
Qed.

(** The terms of the EIP-1559 tail, before its cap is carried to a signature. *)
Record native_terms (h : ExecutionTrace) (ca : ChainAssetConfig) (entry_point : Z) (l : list Candidate)
    (simulation : BundleSimulationData) (context : TransactionContext) (limits allocations : list Z)
    (price : option Z) (cap : Z) : Prop := {
  nt_bundle : bundle_terms h ca entry_point l simulation;
  nt_no_intent : no_intent h;
  nt_context : (FetchTransactionContext entry_point (bundle_calldata start l), OutContext context) ∈ h;
  nt_gas : gas_allocations start l simulation (estimated_gas context) = Some (limits, allocations);
  nt_price : price_known h ca (call_datas_of l) price;
  nt_pays : ∀ i c gas, l !! i = Some c → allocations !! i = Some gas →
    operation_pays ca price (logs simulation) cap c gas }.

Lemma native_terms_later h h' ca entry_point l simulation context limits allocations price cap :
  h `prefix_of` h' →
  native_terms h ca entry_point l simulation context limits allocations price cap →
  native_terms h' ca entry_point l simulation context limits allocations price cap.
Proof.
  intros Hp [? ? ? ? ? ?]. split; try done.
  - by eapply bundle_terms_later.
  - by eapply elem_of_later.
  - by eapply elem_of_later.
  - by eapply price_known_later.
Qed.

Lemma bsafe_sign_native ca entry_point l simulation context limits allocations price cap tip gas_limit s h :
  live h → sound start h s → just h EnsureLaneLease (LeaseHeld true) →
  native_terms h ca entry_point l simulation context limits allocations price cap →
  bundle_gas_limit limits = Ok gas_limit →
  bsafe (sign_native start entry_point l context cap tip gas_limit allocations) s h (λ _ _ _, True).
Proof.
  intros Hl Hs Hj Hn Hgas. unfold sign_native. cbv zeta.
  destruct (delivers_full_tip_at _ _) eqn:Etip; cbn [negb]; [|by apply bsafe_settle].
  eapply bsafe_bind.
  { apply bsafe_lift; [done|]. apply safe_expect; [done|]. destruct Hn as [Hb Hni Hc Hg Hp Hpay].
    split; [done|]. split; [done|]. exists ca, l, simulation, context, limits, allocations, price.
    cbn [bs_entry_point bs_calldata bs_nonce bs_gas_limit bs_max_fee_per_gas bs_max_priority_fee_per_gas].
    do 8 (split; [done|]). intros i c Hi Hlen. apply (accounted _ _ _ _ _ _ _ Hb Hi) in Hlen.
    rewrite <-(gas_allocations_length _ _ _ _ _ Hg) in Hlen.
    apply lookup_lt_is_Some_2 in Hlen as [gas Hgi]. exists gas. split; [done|]. by eapply Hpay. }
  intros h1 ? signed Hp1 Hl1 Hs1 [-> (r & -> & Hr)]. read_answer.
  apply bsafe_submit_bundle; [done..| |done|by destruct (nt_bundle _ _ _ _ _ _ _ _ _ _ Hn)].
  eexists _, signed. split; [apply elem_of_snoc|done].
Qed.

Lemma safe_top_up_cap ca market_price h : live h → safe (top_up_cap start ca market_price) h (λ _ _, True).
Proof.
  intros Hl. unfold top_up_cap. destruct market_price as [price|]; [|by apply safe_mret].
  destruct (native_amount_for_usd_cap _ _ _);
    (eapply safe_bind; [by apply safe_emit|]; intros; by apply safe_mret).
Qed.

Lemma safe_fund_native context cap tip prefund top_up_max h :
  live h → safe (fund_native start context cap tip prefund top_up_max) h (λ _ _, True).
Proof.
  intros Hl. unfold fund_native. case_decide; [by apply safe_ensure_native_funding|by apply safe_mret].
Qed.

Lemma bsafe_fund_and_sign ca entry_point l simulation context market_price limits allocations price cap tip s h :
  live h → sound start h s →
  native_terms h ca entry_point l simulation context limits allocations price cap →
  bsafe (fund_and_sign start ca entry_point l context market_price cap tip limits allocations) s h
    (λ _ _ _, True).
Proof.
  intros Hl Hs Hn. unfold fund_and_sign.
  eapply bsafe_bind.
  { apply bsafe_lift; [done|]. apply (safe_lift _ _ _ (λ h' g, h' = h ∧ bundle_gas_limit limits = Ok g)); done. }
  intros ? ? gas_limit _ _ _ [-> [-> Hgas]].
  eapply bsafe_bind; [apply bsafe_lift; [done|]; by apply (safe_lift _ _ _ (λ h' _, h' = h))|].
  intros ? ? prefund _ _ _ [-> ->].
  eapply bsafe_bind; [apply bsafe_lift; [done|]; by apply safe_top_up_cap|].
  intros h1 ? top_up_max Hp1 Hl1 Hs1 [-> _].
  eapply bsafe_bind; [apply bsafe_lift; [done|]; by apply safe_fund_native|].
  intros h2 ? funded Hp2 Hl2 Hs2 [-> _]. destruct funded; cbn [negb].
  - eapply bsafe_bind; [apply bsafe_lift; [done|]; by apply safe_ensure_lane|].
    intros h3 ? ? Hp3 Hl3 Hs3 [-> Hj]. eapply bsafe_sign_native; [done..| |done].
    eapply native_terms_later; [|exact Hn]. etransitivity; [exact Hp1|by etransitivity].
  - eapply bsafe_bind; [apply bsafe_lift; [done|]; by apply safe_record_candidates|].
    intros h3 ? ? _ Hl3 Hs3 [-> _]. apply bsafe_for_each; [done..|]. intros. by apply bsafe_set_failed.
Qed.

Lemma Forall_zip_fst {A B} (P : A → Prop) (l : list A) (k : list B) :
  Forall P l → Forall (λ x, P x.1) (zip l k).
Proof. intros HF. revert k. induction HF; intros [|? k]; constructor; auto. Qed.

Lemma bsafe_native ca entry_point l simulation s h :
  live h → sound start h s → bundle_terms h ca entry_point l simulation → no_intent h →
  bsafe (execute_native_bundle start ca entry_point l simulation) s h (λ _ _ _, True).
Proof.
  intros Hl Hs Hb Hni. unfold execute_native_bundle.
  eapply bsafe_bind; [apply bsafe_lift; [done|]; by apply safe_expect|].
  intros h1 ? context Hp1 Hl1 Hs1 [-> (r & -> & Hr)]. read_answer.
  match type of Hl1 with live ?x => set (h1 := x) in * end.
  assert (Hc : (FetchTransactionContext entry_point (bundle_calldata start l), OutContext context) ∈ h1)
    by apply elem_of_snoc. clearbody h1.
  eapply bsafe_bind.
  { apply bsafe_lift; [done|]. apply (safe_lift _ _ _ (λ h' '(limits, allocations), h' = h1 ∧
      gas_allocations start l simulation (estimated_gas context) = Some (limits, allocations))); [done|].
    intros [limits allocations] Hg. by apply ok_or_Ok in Hg. }
  intros ? ? [limits allocations] _ _ _ [-> [-> Hg]]. cbv zeta.
  eapply bsafe_bind; [apply bsafe_lift; [done|]; by apply safe_read_market_price|].
  intros h2 ? market_price Hp2 Hl2 Hs2 [-> Hm].
  eapply bsafe_bind.
  { apply bsafe_lift; [done|]. apply (safe_lift _ _ _ (λ h' price, h' = h2 ∧
      price_known h2 ca (call_datas_of l) price)); [done|]. intros price Hp. split; [done|].
    by eapply usable_price_known. }
  intros ? ? price _ _ _ [-> [-> Hp]].
  eapply bsafe_bind; [apply bsafe_lift; [done|]; by apply safe_speed_fees|].
  intros h3 ? fees Hp3 Hl3 Hs3 [-> _].
  eapply bsafe_bind; [apply bsafe_lift; [done|]; by apply safe_settle_fees|].
  intros h4 ? [cap evaluations] Hp4 Hl4 Hs4 [-> Hv].
  eapply bsafe_bind; [apply bsafe_gate; [done..|]; apply Forall_zip_fst; by destruct Hb|].
  intros h5 s5 stopped Hp5 Hl5 Hs5 Hgate. destruct stopped; [by apply bsafe_mret|].
  assert (H25 : h2 `prefix_of` h5) by (etransitivity; [exact Hp3|by etransitivity]).
  assert (H15 : h1 `prefix_of` h5) by by etransitivity.
  eapply bsafe_fund_and_sign; [done..|]. split.
  - eapply bundle_terms_later; [|exact Hb]. by etransitivity.
  - eapply elem_of_later; [|exact Hni]. by etransitivity.
  - by eapply elem_of_later.
  - exact Hg.
  - eapply price_known_later; [exact H25|exact Hp].
  - eapply gate_pays; [exact Hv|by apply Hgate].
Qed.

(** ** The Tempo tail *)

Lemma safe_fund_tempo balance prefund fee h :
  live h → safe (fund_tempo start balance prefund fee) h (λ _ _, True).
Proof.
  intros Hl. unfold fund_tempo. case_decide; [by apply safe_ensure_tempo_funding|by apply safe_mret].
Qed.

Lemma tempo_costs_length simulation base_fee costs :
  tempo_costs simulation base_fee = Ok costs → length costs = length (operation_gas_used simulation).
Proof.
  unfold tempo_costs. intros Ht. inv_checked.
  rename select (mapM _ _ = _) into Hm. apply length_mapM in Hm. rewrite <-Hm.
  by eapply allocate_bundle_gas_length.
Qed.

Lemma bsafe_settle_tempo ca entry_point l simulation s h :
  live h → sound start h s → bundle_terms h ca entry_point l simulation → no_intent h →
  Forall (λ c, other_fee_token c = false) l →
  bsafe (settle_tempo start ca entry_point l simulation) s h (λ _ _ _, True).
Proof.
  intros Hl Hs Hb Hni Htok. unfold settle_tempo.
  eapply bsafe_bind; [apply bsafe_lift; [done|]; by apply safe_expect|].
  intros h1 ? [[base_fee nonce] balance] Hp1 Hl1 Hs1 [-> (r & -> & Hr)]. read_answer.
  match type of Hl1 with live ?x => set (h1 := x) in * end.
  assert (Hc : (FetchTempoContext, TempoContext base_fee nonce balance) ∈ h1) by apply elem_of_snoc.
  clearbody h1.
  eapply bsafe_bind.
  { apply bsafe_lift; [done|].
    by apply (safe_lift _ _ _ (λ h' costs, h' = h1 ∧ tempo_costs simulation base_fee = Ok costs)). }
  intros ? ? costs _ _ _ [-> [-> Hcosts]].
  eapply bsafe_bind; [apply bsafe_tempo_gate; [done..|]; apply Forall_zip_fst; by destruct Hb|].
  intros h2 s2 stopped Hp2 Hl2 Hs2 Hgate. destruct stopped; [by apply bsafe_mret|]. specialize (Hgate eq_refl).
  eapply bsafe_bind.
  { apply bsafe_lift; [done|]. by apply (safe_lift _ _ _ (λ h' g, h' = h2 ∧
      tempo_handle_ops_gas_limit (map cand_packed l) = Ok g)). }
  intros ? ? gas_limit _ _ _ [-> [-> Hgas]].
  eapply bsafe_bind.
  { apply bsafe_lift; [done|].
    by apply (safe_lift _ _ _ (λ h' fee, h' = h2 ∧ tempo_outer_max_fee base_fee = Ok fee)). }
  intros ? ? fee _ _ _ [-> [-> Hfee]].
  eapply bsafe_bind; [apply bsafe_lift; [done|]; by apply (safe_lift _ _ _ (λ h' _, h' = h2))|].
  intros ? ? prefund _ _ _ [-> ->].
  eapply bsafe_bind; [apply bsafe_lift; [done|]; by apply safe_fund_tempo|].
  intros h3 ? funded Hp3 Hl3 Hs3 [-> _]. destruct funded; cbn [negb].
  2: { eapply bsafe_mono; [apply bsafe_lift; [done|]; by apply safe_record_candidates|done]. }
  eapply bsafe_bind; [apply bsafe_lift; [done|]; by apply safe_ensure_lane|].
  intros h4 ? ? Hp4 Hl4 Hs4 [-> Hj].
  assert (H14 : h1 `prefix_of` h4) by (etransitivity; [exact Hp2|by etransitivity]).
  assert (H04 : h `prefix_of` h4) by by etransitivity.
  unfold sign_tempo_bundle. eapply bsafe_bind.
  { apply bsafe_lift; [done|]. apply safe_expect; [done|].
    split; [done|]. split; [exact (elem_of_later _ _ _ H04 Hni)|]. exists ca, l, simulation, base_fee, nonce, balance, costs.
    cbn [tsr_entry_point tsr_calldata tsr_nonce tsr_gas_limit tsr_max_fee_per_gas].
    split; [exact (bundle_terms_later _ _ _ _ _ _ H04 Hb)|]. split; [done|].
    split; [exact (elem_of_later _ _ _ H14 Hc)|].
    do 5 (split; [done|]). intros i c Hi Hlen.
    apply (accounted _ _ _ _ _ _ _ (bundle_terms_later _ _ _ _ _ _ H04 Hb) Hi) in Hlen. rewrite <-(tempo_costs_length _ _ _ Hcosts) in Hlen.
    apply lookup_lt_is_Some_2 in Hlen as [cost Hcost]. exists cost. split; [done|].
    apply (Forall_lookup_1 _ _ i (c, cost) Hgate). apply lookup_zip_Some. by split. }
  intros h5 ? signed Hp5 Hl5 Hs5 [-> (r & -> & Hr)]. read_answer.
  apply bsafe_submit_bundle; [done..| |done|by destruct Hb].
  eexists _, signed. split; [apply elem_of_snoc|done].
Qed.

Lemma find_none_Forall {A} (f : A → bool) l : List.find f l = None → Forall (λ x, f x = false) l.
Proof.
  intros Hf. apply Forall_forall. intros x Hx. apply (List.find_none _ _ Hf). by apply list_elem_of_In.
Qed.

Lemma bsafe_tempo ca entry_point l simulation s h :
  live h → sound start h s → bundle_terms h ca entry_point l simulation → no_intent h →
  bsafe (execute_tempo_bundle start ca entry_point l simulation) s h (λ _ _ _, True).
Proof.
  intros Hl Hs Hb Hni. unfold execute_tempo_bundle. destruct (List.find _ _) as [c|] eqn:Ef.
  - apply List.find_some in Ef as [Hin%list_elem_of_In _].
    eapply bsafe_bind; [apply bsafe_lift; [done|]; by apply safe_unless_failed|].
    intros h1 ? ? _ Hl1 Hs1 [-> (r & -> & Hr)].
    apply bsafe_set_durable; [done..| |].
    + destruct Hb as [_ Hm _]. rewrite Forall_forall in Hm. by apply Hm.
    + intros hash He. eapply settled_rejected; [apply elem_of_snoc|done|exact He].
  - apply bsafe_settle_tempo; [done..|]. by apply find_none_Forall.
Qed.
End Payment.
