(* ===== verification/ExecutionRun.v ===== *)
(** * ExecutionRun: what holds of every run of a batch

    The leased pipeline, triage and the batch around them, composed; then the
    properties of [drive_batch] over every answer its shell can give. *)

From S2P Require Export ExecutionPayment.
#[local] Open Scope string_scope.
#[local] Open Scope list_scope.
#[local] Open Scope Z_scope.

Section Pipeline.
Context `{HA : Alloy} `{HT : !HashText} `{HK : Keccak} `{HS : SolCalls} `{W : TargetWidth}.
Variable start : StartBatch.

Notation safe := (safe (paid_bundle start)).
Notation bsafe := (bsafe start (paid_bundle start)).
Notation candidate_of := (candidate_of start).
Notation no_intent h := ((LoadPreparedBundle, OutIntent None) ∈ h).

(** The assets the batch was given. *)
Definition assets_given (h : ExecutionTrace) (ca : ChainAssetConfig) : Prop :=
  ∃ resolved, (LoadChainAssets, OutAssets resolved) ∈ h ∧ assets resolved = ca.

Lemma assets_given_later h h' ca : h `prefix_of` h' → assets_given h ca → assets_given h' ca.
Proof. intros Hp (resolved & ? & ?). exists resolved. split; [by eapply elem_of_later|done]. Qed.

Lemma bsafe_bundle ca entry_point t s h :
  live h → sound start h s → assets_given h ca → no_intent h → triaged start h entry_point t →
  bsafe (execute_bundle start ca entry_point t) s h (λ _ _ _, True).
Proof.
  intros Hl Hs Ha Hni Ht. unfold execute_bundle.
  eapply bsafe_bind; [apply bsafe_lift; [done|]; by apply safe_simulate_survivors|].
  intros h1 ? [verdict l] Hp1 Hl1 Hs1 [-> [Hc Hv]].
  eapply bsafe_bind; [apply bsafe_lift; [done|]; by apply safe_bundle_success|].
  intros h2 ? [simulation|] Hp2 Hl2 Hs2 [-> Hsim]; [|by apply bsafe_mret].
  specialize (Hsim _ eq_refl). destruct (unmeasured _ _); [by apply bsafe_settle|].
  eapply bsafe_bind; [apply bsafe_lift; [done|]; by apply safe_ensure_lane|].
  intros h3 ? ? Hp3 Hl3 Hs3 [-> _].
  assert (H03 : h `prefix_of` h3) by (etransitivity; [exact Hp1|by etransitivity]).
  assert (Hb : bundle_terms start h3 ca entry_point l simulation).
  { split; [exact (assets_given_later _ _ _ H03 Ha)|done|exact (simulated_later _ _ _ _ _ Hp3 Hsim)]. }
  pose proof (elem_of_later _ _ _ H03 Hni).
  destruct (is_tempo (policy start)); [by apply bsafe_tempo|by apply bsafe_native].
Qed.

(** The verdicts of the candidates simulated alone. *)
Lemma zipped_verdicts h entry_point candidates verdicts :
  (SimulateIndividually entry_point (bundle_operations candidates), OperationVerdicts verdicts) ∈ h →
  Forall candidate_of candidates →
  Forall (λ '(c, verdict), candidate_of c ∧
            ∀ simulation, verdict = OpExecuted simulation → executed_alone h entry_point c simulation)
    (zip candidates verdicts).
Proof.
  intros Hin Hc. apply Forall_lookup. intros i [c verdict] [Hi Hv]%lookup_zip_Some.
  split; [by eapply Forall_lookup_1|]. intros simulation ->. exists (bundle_operations candidates), verdicts, i.
  split; [done|]. split; [|done]. unfold bundle_operations. by rewrite list_lookup_fmap, Hi.
Qed.

Lemma bsafe_candidates ca entry_point candidates s h :
  live h → sound start h s → assets_given h ca → no_intent h → Forall candidate_of candidates →
  bsafe (execute_candidates start ca entry_point candidates) s h (λ _ _ _, True).
Proof.
  intros Hl Hs Ha Hni Hc. unfold execute_candidates.
  destruct (existsb _ _); [by apply bsafe_settle|].
  eapply bsafe_bind; [apply bsafe_lift; [done|]; by apply safe_expect|].
  intros h1 ? verdicts Hp1 Hl1 Hs1 [-> (r & -> & Hr)]. read_answer.
  destruct (negb _); [by apply bsafe_settle|].
  eapply bsafe_bind.
  { apply (bsafe_sort_verdicts _ _ entry_point); [done..|]. apply zipped_verdicts; [apply elem_of_snoc|done]. }
  intros h2 s2 t Hp2 Hl2 Hs2 Ht.
  eapply bsafe_bind.
  { instantiate (1 := λ _ _ _, True). case_decide; [by apply bsafe_mret|].
    apply bsafe_nonce_mismatches; [done..|]. by destruct Ht as (_ & ? & _). }
  intros h3 s3 ? Hp3 Hl3 Hs3 _. case_decide; [by apply bsafe_mret|].
  eapply bsafe_bind; [apply bsafe_lift; [done|]; by apply safe_ensure_lane|].
  intros h4 ? ? Hp4 Hl4 Hs4 [-> _].
  assert (H24 : h2 `prefix_of` h4) by by etransitivity.
  assert (H04 : h `prefix_of` h4) by (etransitivity; [exact Hp1|by etransitivity]).
  apply bsafe_bundle; [done..| | |].
  - exact (assets_given_later _ _ _ H04 Ha).
  - exact (elem_of_later _ _ _ H04 Hni).
  - exact (triaged_later _ _ _ _ _ H24 Ht).
Qed.

Lemma bsafe_resumed intent c s h :
  live h → sound start h s → candidate_of c → (ResumeBundleIntent intent, Resumed true) ∈ h →
  bsafe (settle_resumed intent c) s h (λ _ _ _, True).
Proof.
  intros Hl Hs Hc Hin. unfold settle_resumed. destruct (existsb _ _) eqn:E; [|by apply bsafe_mret].
  apply existsb_exists in E as (hash' & Hh%list_elem_of_In & He).
  apply bsafe_set_durable; [done..|]. intros hash Hhash. eapply settled_resumed; [exact Hin|exact Hh|].
  apply eq_ignore_ascii_case_true in He, Hhash. apply eq_ignore_ascii_case_true. congruence.
Qed.

Lemma bsafe_leased ca candidates s h :
  live h → sound start h s → assets_given h ca → Forall candidate_of candidates →
  bsafe (execute_with_lane_lease start ca candidates) s h
    (λ _ _ o, match o with Some _ => True | None => candidates = [] end).
Proof.
  intros Hl Hs Ha Hc. unfold execute_with_lane_lease.
  eapply bsafe_bind; [apply bsafe_lift; [done|]; by apply safe_expect|].
  intros h1 ? intent Hp1 Hl1 Hs1 [-> (r & -> & Hr)]. read_answer. destruct intent as [intent|].
  - eapply bsafe_bind; [apply bsafe_lift; [done|]; apply safe_expect; [done|apply elem_of_snoc]|].
    intros h2 ? known _ Hl2 Hs2 [-> (r & -> & Hr)]. read_answer.
    eapply (bsafe_bind _ _ _ _ _ _ (λ _ _ _, True)); [|by intros; apply bsafe_mret].
    destruct known; [|by apply bsafe_mret]. apply bsafe_for_each; [done..|]. intros c s' h' Hin Hp' Hl' Hs'. rewrite Forall_forall in Hc.
    apply bsafe_resumed; [done..|by apply Hc|]. eapply elem_of_later; [exact Hp'|apply elem_of_snoc].
  - destruct candidates as [|c l]; [by apply bsafe_mret|].
    eapply (bsafe_bind _ _ _ _ _ _ (λ _ _ _, True)); [|by intros; apply bsafe_mret].
    apply bsafe_candidates; [done..| | |done]; [by eapply assets_given_later|apply elem_of_snoc].
Qed.
End Pipeline.

(** ** Triage *)

Section TriageSafety.
Context `{HA : Alloy} `{HT : !HashText} `{HK : Keccak} `{HS : SolCalls} `{W : TargetWidth}.
Variable start : StartBatch.

Notation sound := (sound start).
Notation candidate_of := (candidate_of start).

(** A request outside the leased pipeline is always allowed. *)
Lemma unfenced_allowed h op :
  leased op = false → rule (paid_bundle start) h op → allowed (paid_bundle start) h op.
Proof. intros Ho Hr. split; [by rewrite Ho|done]. Qed.

(** Programs outside the pipeline that may settle early on [F]. *)
Definition esafe {E A} (F : ExecutionTrace → E → Prop) (m : flow ExecutionOperation ExecutionOutcome E A)
    (h : ExecutionTrace) (Q : ExecutionTrace → A → Prop) : Prop :=
  fwp (allowed (paid_bundle start)) m h (λ h' a, h `prefix_of` h' ∧ live h' ∧ Q h' a)
    (λ h' e, h `prefix_of` h' ∧ F h' e).

Lemma esafe_mret {E A} (F : ExecutionTrace → E → Prop) (a : A) h (Q : ExecutionTrace → A → Prop) :
  live h → Q h a → esafe F (mret a) h Q.
Proof. intros. split; [done|]. by split. Qed.

Lemma esafe_settle {E A} (F : ExecutionTrace → E → Prop) e h (Q : ExecutionTrace → A → Prop) :
  F h e → esafe F (settle e) h Q.
Proof. intros. by split. Qed.

Lemma esafe_bind {E A B} F (m : flow _ _ E A) (f : A → flow _ _ E B) h Q Q' :
  esafe F m h Q →
  (∀ h' a, h `prefix_of` h' → live h' → Q h' a → esafe F (f a) h' Q') → esafe F (m ≫= f) h Q'.
Proof.
  intros Hm Hf. unfold esafe. rewrite fwp_bind. eapply fwp_mono; [| |exact Hm]; cbn beta; [|done].
  intros t a (Hp & Hl & HQ). eapply fwp_mono; [| |exact (Hf _ a Hp Hl HQ)]; cbn beta.
  - intros t' b (Hp' & ?). split; [by etransitivity|done].
  - intros t' e (Hp' & ?). split; [by etransitivity|done].
Qed.

Lemma esafe_ask {E} (F : ExecutionTrace → E → Prop) op h :
  live h → leased op = false → rule (paid_bundle start) h op →
  esafe F (ask op) h (λ h' r, h' = h ++ [(op, r)]).
Proof.
  intros Hl Ho Hr. unfold esafe. rewrite fwp_ask. split; [by apply unfenced_allowed|].
  intros r. split; [by eexists|]. split; [by apply live_snoc_unfenced|done].
Qed.

(** What an item's triage settles. *)
Definition item_settled (h : ExecutionTrace) (s : Results) : Prop := live h ∧ sound h s.

Lemma esafe_item_failed {A} i reason s h (Q : ExecutionTrace → A → Prop) :
  live h → sound h s → esafe item_settled (item_failed i reason s) h Q.
Proof. intros Hl Hs. apply esafe_settle. split; [done|by apply sound_failed]. Qed.

Lemma esafe_item_durable {A} i routed s h (Q : ExecutionTrace → A → Prop) :
  live h → sound h s → operations start !! i = Some routed →
  settled_by h i (r_user_operation_hash routed) → esafe item_settled (item_durable i s) h Q.
Proof. intros Hl Hs Hi He. apply esafe_settle. split; [done|by eapply sound_durable]. Qed.

(** Ask, with what is known before still known. *)
Lemma esafe_ask_item {A} op s h (f : ExecutionOutcome → flow _ _ Results A) Q :
  live h → sound h s → leased op = false → rule (paid_bundle start) h op →
  (∀ r, h `prefix_of` h ++ [(op, r)] → live (h ++ [(op, r)]) → sound (h ++ [(op, r)]) s →
     esafe item_settled (f r) (h ++ [(op, r)]) Q) →
  esafe item_settled (ask op ≫= f) h Q.
Proof.
  intros Hl Hs Ho Hr Hf. eapply esafe_bind; [by apply esafe_ask|]. cbn beta.
  intros h' r Hp Hl' ->. apply Hf; [done..|]. by eapply sound_later.
Qed.

Lemma esafe_dead_letter {A} i routed reason unpersisted s h (Q : ExecutionTrace → A → Prop) :
  live h → sound h s → operations start !! i = Some routed →
  esafe item_settled (dead_letter_item i reason unpersisted s) h Q.
Proof.
  intros Hl Hs Hi. unfold dead_letter_item. apply (esafe_ask_item _ s); [done..|]. intros r _ Hl' Hs'.
  destruct r as [| | | | |[|]| | | | | | | | | | | | | | | | | | | | | | | | | |]; try by apply esafe_item_failed.
  eapply esafe_item_durable; [done..|]. eapply settled_dead_letter, elem_of_snoc.
Qed.

(** A record read for the operation. *)
Definition record_read (h : ExecutionTrace) (i : nat) (hash : string) (record : StoredUserOperation) : Prop :=
  (∃ hashes records, (LoadRecords hashes, Records records) ∈ h ∧ records !! i = Some (Some record)) ∨
  (ReloadRecord hash, OutRecord (Some record)) ∈ h.

Lemma record_read_settled h i hash record :
  record_read h i hash record → is_durable (status record) = true → settled_by h i hash.
Proof.
  intros [(hashes & records & Hin & Hi)|Hin] Hd; [by eapply settled_record|by eapply settled_reloaded].
Qed.

Lemma record_read_later h h' i hash record :
  h `prefix_of` h' → record_read h i hash record → record_read h' i hash record.
Proof.
  intros Hp [(hashes & records & Hin & Hi)|Hin]; [left|right; by eapply elem_of_later].
  exists hashes, records. split; [by eapply elem_of_later|done].
Qed.

Lemma esafe_restore i routed width s h :
  live h → sound h s → operations start !! i = Some routed →
  esafe item_settled (restore_record i routed width s) h
    (λ h' record, sound h' s ∧ record_read h' i (r_user_operation_hash routed) record).
Proof.
  intros Hl Hs Hi. unfold restore_record.
  destruct (queued_operation_from_routed routed width) as [queued|reason]; [|by eapply esafe_dead_letter].
  apply (esafe_ask_item _ s); [done..|]. intros r _ Hl1 Hs1.
  destruct r; try by apply esafe_item_failed.
  apply (esafe_ask_item _ s); [done..|]. intros r _ Hl2 Hs2.
  destruct r as [| | | |[record|]| | | | | | | | | | | | | | | | | | | | | | | | | | |];
    try by apply esafe_item_failed.
  apply esafe_mret; [done|]. split; [done|]. right. apply elem_of_snoc.
Qed.

Lemma esafe_admit i routed record s h :
  live h → sound h s → operations start !! i = Some routed →
  esafe item_settled (admit_item i routed record s) h (λ h' _, sound h' s).
Proof.
  intros Hl Hs Hi. unfold admit_item. destruct (admission_action _ _).
  - by apply esafe_mret.
  - apply (esafe_ask_item _ s); [done..|]. intros r _ Hl1 Hs1.
    destruct r as [| | | | | |[|]| | | | | | | | | | | | | | | | | | | | | | | | |];
      try by apply esafe_item_failed. by apply esafe_mret.
  - by eapply esafe_dead_letter.
Qed.

Lemma candidate_from_record_of i routed record width c :
  operations start !! i = Some routed → candidate_from_record i routed record width = Ok c → candidate_of c.
Proof.
  intros Hi Hc. unfold candidate_from_record in Hc. inv_checked. by exists routed.
Qed.

Lemma esafe_item i routed record width s h :
  live h → sound h s → operations start !! i = Some routed →
  (∀ rec, record = Some rec → record_read h i (r_user_operation_hash routed) rec) →
  esafe item_settled (triage_item i routed record width s) h (λ h' c, sound h' s ∧ candidate_of c).
Proof.
  intros Hl Hs Hi Hread. unfold triage_item.
  eapply (esafe_bind _ _ _ _ (λ h' rec, sound h' s ∧ record_read h' i (r_user_operation_hash routed) rec)).
  { destruct record as [rec|]; [apply esafe_mret; [done|]; split; [done|by apply Hread]|by apply esafe_restore]. }
  intros h1 rec _ Hl1 [Hs1 Hr1]. destruct (is_durable (status rec)) eqn:Ed.
  { eapply esafe_item_durable; [done..|]. by eapply record_read_settled. }
  eapply esafe_bind; [by apply esafe_admit|]. intros h2 rec2 _ Hl2 Hs2.
  destruct (candidate_from_record _ _ _ _) as [c|reason] eqn:Ec.
  { apply esafe_mret; [done|]. split; [done|by eapply candidate_from_record_of]. }
  apply (esafe_ask_item _ s); [done..|]. intros r _ Hl3 Hs3.
  destruct r; try (by apply esafe_item_failed);
    (eapply esafe_item_durable; [done..|];
     eapply settled_rejected; [apply elem_of_snoc|done|apply eq_ignore_ascii_case_refl]).
Qed.

Lemma triage_safe items i width s h :
  live h → sound h s →
  (∀ j routed record, items !! j = Some (routed, record) →
     operations start !! (i + j)%nat = Some routed ∧
     ∀ rec, record = Some rec → record_read h (i + j) (r_user_operation_hash routed) rec) →
  wp (allowed (paid_bundle start)) (triage i items width s) h
    (λ h' '(s', candidates), h `prefix_of` h' ∧ live h' ∧ sound h' s' ∧ Forall candidate_of candidates).
Proof.
  revert i s h. induction items as [|[routed record] items IH]; intros i s h Hl Hs Hitems; cbn [triage wp].
  { split; [done|]. repeat split; [done|by destruct Hs|by destruct Hs|constructor]. }
  rewrite wp_bind. destruct (Hitems 0%nat routed record eq_refl) as [Hi Hrec]. rewrite Nat.add_0_r in Hi, Hrec.
  eapply wp_mono; [|exact (esafe_item i routed record width s h Hl Hs Hi Hrec)]. cbn beta.
  assert (Hnext : ∀ h' s', h `prefix_of` h' → live h' → sound h' s' →
    wp (allowed (paid_bundle start)) (triage (S i) items width s') h'
      (λ h'' '(s'', candidates), h' `prefix_of` h'' ∧ live h'' ∧ sound h'' s'' ∧ Forall candidate_of candidates)).
  { intros h' s' Hp Hl' Hs'. apply IH; [done..|]. intros j routed' record' Hj.
    destruct (Hitems (S j) routed' record' Hj) as [Hij Hr]. rewrite <-Nat.add_succ_comm in Hij, Hr.
    split; [exact Hij|]. intros rec Hrec'. eapply record_read_later; [exact Hp|by apply Hr]. }
  intros t [c|s'].
  - intros (Hp & Hl' & Hs' & Hc). rewrite wp_bind. eapply wp_mono; [|by apply Hnext]. cbn beta.
    intros t' [s'' candidates] (Hp' & Hl'' & Hs'' & Hcs). cbn [wp]. split; [by etransitivity|].
    split; [done|]. split; [done|by constructor].
  - intros (Hp & Hl' & Hs'). eapply wp_mono; [|by apply Hnext]. cbn beta.
    intros t' [s'' candidates] (Hp' & ?). split; [by etransitivity|done].
Qed.
End TriageSafety.

(** ** The batch *)

Section Drive.
Context `{HA : Alloy} `{HT : !HashText} `{HK : Keccak} `{HS : SolCalls} `{W : TargetWidth}.
Variable start : StartBatch.

Notation allowed := (allowed (paid_bundle start)).

(** One resolution per operation, each durable one with its evidence. *)
Definition well_resolved (h : ExecutionTrace) (resolutions : list ItemResolution) : Prop :=
  length resolutions = length (operations start) ∧
  ∀ i, resolutions !! i = Some Durable →
    ∃ routed, operations start !! i = Some routed ∧ settled_by h i (r_user_operation_hash routed).

Lemma resolved_all_failed h reason : well_resolved h (all_failed (length (operations start)) reason).
Proof. unfold all_failed. split; [by rewrite length_replicate|]. by intros i [? _]%lookup_replicate_1. Qed.

Lemma resolved_finish h s reason : sound start h s → well_resolved h (finish s reason).
Proof.
  intros [Hlen Hs]. unfold finish. split; [by rewrite length_map|]. intros i Hi.
  rewrite list_lookup_fmap in Hi. destruct (s !! i) as [[r|]|] eqn:E; [|done..].
  injection Hi as ->. by apply Hs.
Qed.

Lemma resolved_later h h' resolutions : h `prefix_of` h' → well_resolved h resolutions → well_resolved h' resolutions.
Proof.
  intros Hp [Hlen Hr]. split; [done|]. intros i Hi. destruct (Hr i Hi) as (routed & ? & ?).
  exists routed. split; [done|by eapply settled_later].
Qed.

(** How a batch ends: resolved, or in the panic of a bundle that may hold no
    operation. *)
Definition batch_ends (h : ExecutionTrace) (r : option (list ItemResolution)) : Prop :=
  match r with
  | Some resolutions => well_resolved h resolutions
  | None => max_bundle_operations (policy start) = 0%nat
  end.

(** The bookkeeping of deferrals is allowed whatever happened before it. *)
Lemma deferrals_allowed {E} i ops results stage reason h :
  fwp allowed (record_routed_deferred (E := E) i ops results stage reason) h
    (λ h' _, h `prefix_of` h') (λ _ _, False).
Proof.
  revert i h. induction ops as [|op ops IH]; intros i h; cbn [record_routed_deferred]; [exact (reflexivity h)|].
  rewrite fwp_bind. assert (Hnext : ∀ h', h `prefix_of` h' →
    fwp allowed (record_routed_deferred (E := E) (S i) ops results stage reason) h'
      (λ h'' _, h `prefix_of` h'') (λ _ _, False)).
  { intros h' Hp. eapply fwp_mono; [| |apply IH]; cbn beta; [|done]. intros t [] Hp'. by etransitivity. }
  destruct (match results with Some s => is_settled s i | None => false end); [by apply Hnext|].
  rewrite fwp_bind, fwp_ask. split; [by apply unfenced_allowed|]. intros r.
  destruct (should_notify_executor_deferred stage); [|apply Hnext; by eexists].
  rewrite fwp_bind, fwp_ask. split; [by apply unfenced_allowed|]. intros r'. apply Hnext.
  rewrite <-app_assoc. by eexists.
Qed.

(** Record the deferrals, then end. *)
Lemma defer_then {A E} i ops results stage reason h (rest : flow _ _ E A) Q QE :
  (∀ h', h `prefix_of` h' → fwp allowed rest h' Q QE) →
  fwp allowed (_ ← record_routed_deferred (E := E) i ops results stage reason; rest) h Q QE.
Proof.
  intros Hf. rewrite fwp_bind. eapply fwp_mono; [| |apply deferrals_allowed]; cbn beta; [|done].
  intros t [] Hp. by apply Hf.
Qed.

Notation esafe := (esafe start well_resolved).

Lemma esafe_supported h : live h → esafe (check_supported start) h (λ _ _, True).
Proof.
  intros Hl. unfold check_supported. eapply esafe_bind; [by apply esafe_ask|]. cbn beta.
  intros h1 r _ Hl1 ->. cbv zeta. destruct r; try destruct supported;
    first [by apply esafe_mret|apply defer_then; intros h' Hp; split; [done|apply resolved_all_failed]].
Qed.

Lemma esafe_assets h :
  live h → esafe (load_chain_assets start) h (λ h' ca, assets_given h' (assets ca)).
Proof.
  intros Hl. unfold load_chain_assets. eapply esafe_bind; [by apply esafe_ask|]. cbn beta.
  intros h1 r _ Hl1 ->. destruct r; try (apply esafe_settle, resolved_all_failed);
    try (apply defer_then; intros h' Hp; split; [done|apply resolved_all_failed]).
  apply esafe_mret; [done|]. exists resolved. split; [apply elem_of_snoc|done].
Qed.

Lemma esafe_records h :
  live h → esafe (load_records start) h
    (λ h' records, ∃ hashes, (LoadRecords hashes, Records records) ∈ h').
Proof.
  intros Hl. unfold load_records. eapply esafe_bind; [by apply esafe_ask|]. cbn beta.
  intros h1 r _ Hl1 ->. destruct r; try (apply esafe_settle, resolved_all_failed).
  apply esafe_mret; [done|]. eexists. apply elem_of_snoc.
Qed.

Lemma esafe_triage records h :
  live h → (∃ hashes, (LoadRecords hashes, Records records) ∈ h) →
  esafe (prog_bind (λ triaged, Ret (Ok triaged))
           (triage 0 (zip (operations start) records) (pool_width (policy start))
              (new_results (length (operations start))))) h
    (λ h' '(s, candidates), sound start h' s ∧ Forall (candidate_of start) candidates).
Proof.
  intros Hl [hashes Hin]. unfold ExecutionRun.esafe, fwp. rewrite wp_bind.
  eapply wp_mono; [|apply triage_safe; [done|apply sound_new|]].
  - cbn. intros t [s candidates] (Hp & Hl' & Hs & Hc). done.
  - intros j routed record [Hj Hr]%lookup_zip_Some. simpl. split; [done|].
    intros rec ->. left. by exists hashes, records.
Qed.

Lemma run_leased_safe ca candidates s h :
  live h → sound start h s → assets_given h (assets ca) → Forall (candidate_of start) candidates →
  (candidates = [] → max_bundle_operations (policy start) = 0%nat) →
  fwp allowed (run_leased start ca candidates s) h batch_ends well_resolved.
Proof.
  intros Hl Hs Ha Hc Hnone. unfold run_leased, fwp. rewrite wp_bind.
  eapply wp_mono; [|exact (bsafe_leased start (assets ca) candidates s h Hl Hs Ha Hc)]. cbn beta.
  intros t [s' [[[]|]|reason]].
  - intros (Hp & Hl' & Hs' & _). by apply resolved_finish.
  - intros (Hp & Hl' & Hs' & Hno). by apply Hnone.
  - intros (Hp & Hs'). apply (defer_then (A := option (list ItemResolution)) (E := list ItemResolution)).
    intros h' Hp'. rewrite fwp_bind, fwp_ask. split; [by apply unfenced_allowed|]. intros r.
    apply fwp_mret, resolved_finish. eapply sound_later; [|exact Hs']. etransitivity; [exact Hp'|by eexists].
Qed.

Lemma retain_first_elem {B} `{EqDecision B} (key : Candidate → B) seen l c :
  c ∈ retain_first key seen l → c ∈ l ∧ key c ∉ seen.
Proof.
  revert seen. induction l as [|x l IH]; intros seen; simpl; [by intros ?%elem_of_nil|].
  case_decide as Hk.
  - intros [? ?]%IH. split; [by right|done].
  - intros [->|[Hin Hs]%IH]%elem_of_cons; [by split; [left|]|]. split; [by right|].
    intros Hc. apply Hs. by right.
Qed.

Lemma bundle_candidates_elem c candidates : c ∈ bundle_candidates start candidates → c ∈ candidates.
Proof.
  unfold bundle_candidates. intros (i & Hc%list_elem_of_lookup_2 & _)%elem_of_take.
  apply list_elem_of_In, List.filter_In in Hc as [Hc _].
  apply list_elem_of_In, retain_first_elem in Hc as [Hc _]. by apply retain_first_elem in Hc as [Hc _].
Qed.

Lemma bundle_candidates_of candidates :
  Forall (candidate_of start) candidates → Forall (candidate_of start) (bundle_candidates start candidates).
Proof. rewrite !Forall_forall. intros HF c Hc. by apply HF, bundle_candidates_elem. Qed.

(** A bundle that may hold an operation holds one when there is one. *)
Lemma bundle_candidates_none candidates :
  Forall (candidate_of start) candidates → candidates ≠ [] →
  bundle_candidates start candidates = [] → max_bundle_operations (policy start) = 0%nat.
Proof.
  intros HF Hne. unfold bundle_candidates.
  destruct HF as [|c l (routed & Hi & _) _]; [done|].
  apply lookup_lt_Some in Hi. cbn [retain_first]. rewrite decide_False by apply not_elem_of_nil.
  cbn [retain_first]. rewrite decide_False by apply not_elem_of_nil. cbn [List.filter].
  rewrite bool_decide_eq_true_2 by done. by destruct (max_bundle_operations _).
Qed.

Lemma drive_flow_safe : fwp allowed (drive_flow start) [] batch_ends well_resolved.
Proof.
  assert (Hnil : live []) by (intros op reason Hin; by apply elem_of_nil in Hin).
  unfold drive_flow. case_decide as Hops.
  { apply fwp_mret. split; [by rewrite Hops|]. intros i Hi. by rewrite lookup_nil in Hi. }
  destruct (mixed_batch _); [apply fwp_mret, resolved_all_failed|].
  rewrite fwp_bind. eapply fwp_mono; [| |by apply esafe_supported]; cbn beta; [|by intros t e [_ ?]].
  intros t1 [] (_ & Hl1 & _). rewrite fwp_bind.
  eapply fwp_mono; [| |by apply esafe_assets]; cbn beta; [|by intros t e [_ ?]].
  intros t2 ca (_ & Hl2 & Ha). rewrite fwp_bind.
  eapply fwp_mono; [| |by apply esafe_records]; cbn beta; [|by intros t e [_ ?]].
  intros t3 records (Hp3 & Hl3 & Hrec). rewrite fwp_bind.
  eapply fwp_mono; [| |by apply esafe_triage]; cbn beta; [|by intros t e [_ ?]].
  intros t4 [s candidates] (Hp4 & Hl4 & Hs & Hc).
  case_decide as Hne; [by apply fwp_mret, resolved_finish|].
  rewrite fwp_bind, fwp_ask. split; [by apply unfenced_allowed|]. intros r.
  match goal with |- context [?h ++ [(AcquireLaneLease, r)]] => assert (Hp : h `prefix_of` h ++ [(AcquireLaneLease, r)]) by by eexists end.
  destruct r as [| | | | | | | | |[]| | | | | | | | | | | | | | | | | | | | | |]; 
    try (apply defer_then; intros h' Hp'; apply fwp_mret, resolved_finish;
         eapply sound_later; [|exact Hs]; by etransitivity).
  apply run_leased_safe; [by apply live_snoc_unfenced|by eapply sound_later| |by apply bundle_candidates_of|
    by apply bundle_candidates_none].
  eapply assets_given_later; [|exact Ha]. etransitivity; [exact Hp3|by etransitivity].
Qed.

(** Every run of a batch keeps the rules, and ends resolved or in the panic. *)
Lemma drive_safe : wp allowed (drive_batch start) [] batch_ends.
Proof.
  unfold drive_batch. rewrite wp_bind. eapply wp_mono; [|exact drive_flow_safe]. by intros t [|].
Qed.

Lemma run_allowed t resolutions before op r after :
  runs (drive_batch start) t resolutions → t = before ++ (op, r) :: after → allowed before op.
Proof. intros Hr Heq. exact (proj2 (wp_runs _ _ [] _ _ _ drive_safe Hr) before op r after Heq). Qed.
End Drive.
