(* ===== verification/ExecutionProperties.v ===== *)
(** * ExecutionProperties: the properties of the executor's batch

    Each is about every run of [drive_batch] against every answer a shell can
    give; the last section runs one batch from its envelope to its submission
    and applies each property to it. *)

From S2P Require Export ExecutionRun.
#[local] Open Scope string_scope.
#[local] Open Scope list_scope.
#[local] Open Scope Z_scope.

Section Properties.
Context `{HA : Alloy} `{HT : !HashText} `{HK : Keccak} `{HS : SolCalls} `{W : TargetWidth}.

(** C5: No operation is acknowledged without a durable outcome.  Every run of
    a batch either settles each routed operation with exactly one resolution,
    or panics, and it panics only under a policy whose bundles may hold no
    operation at all ([max_bundle_operations] is 0).  And a resolution is [Durable] only when the run itself
    holds the evidence: the store answered with a record already past
    execution, persisted the dead letter, accepted the rejection or the
    deferral, reported the prepared bundle's outcome as known for a bundle that
    names the operation, or indexed every member of a submitted bundle that
    names it. *)
Theorem every_resolution_has_evidence start t r :
  runs (drive_batch start) t r →
  match r with
  | None => max_bundle_operations (policy start) = 0%nat
  | Some resolutions =>
      length resolutions = length (operations start) ∧
      ∀ i routed, operations start !! i = Some routed → resolutions !! i = Some Durable →
        settled_by t i (r_user_operation_hash routed)
  end.
Proof.
  intros Hr. destruct (wp_runs _ _ [] _ _ _ (drive_safe start) Hr) as [He _].
  destruct r as [resolutions|]; [|exact He]. destruct He as [Hlen Hs]. split; [done|].
  intros i routed Hi Hd. destruct (Hs i Hd) as (routed' & Hi' & Hev). by simplify_eq.
Qed.

(** C11: Nothing is broadcast that was not stored first, and nothing is marked
    that was not seen.  At each request of every run: a bundle is saved only
    right after the lane lease was confirmed, and only with the bytes, hash
    and nonce the signer returned in this run; bytes are broadcast only when
    they are the checked decoding of a stored transaction of that hash;
    operations are marked submitted only for a saved bundle whose transaction
    a node has; and a bundle is given up only when this run saved it, no node
    has it and its nonce is spent. *)
Theorem outbox_before_broadcast start t resolutions before op r after :
  runs (drive_batch start) t resolutions → t = before ++ (op, r) :: after →
  match op with
  | SavePreparedBundle i => just before EnsureLaneLease (LeaseHeld true) ∧ signed_bundle before i
  | BroadcastRaw raw hash => stored before raw hash
  | MarkBundleSubmitted i _ =>
      (SavePreparedBundle i, Saved true) ∈ before ∧ observed before (bi_transaction_hash i)
  | ClearStaleIntent i _ =>
      (SavePreparedBundle i, Saved true) ∈ before ∧
      (ProbeTransactionKnown (bi_transaction_hash i), Known false) ∈ before ∧
      (ProbeStaleNonce i, Stale true) ∈ before
  | _ => True
  end.
Proof. intros Hr Heq. destruct (run_allowed _ _ _ _ _ _ _ Hr Heq) as [_ Hrule]. by destruct op. Qed.

(** A fenced executor stops.  Once the shell has answered a request of
    the leased pipeline with an interrupt, the run makes no further request of
    that pipeline: only deferral records, diagnostics, broadcast markers and
    the release of the treasury's lease can follow. *)
Theorem interrupt_stops_the_pipeline start t resolutions before op reason middle op' r after :
  runs (drive_batch start) t resolutions →
  t = before ++ (op, Interrupted reason) :: middle ++ (op', r) :: after →
  leased op = true → leased op' = false.
Proof.
  intros Hr Heq Hop. destruct (leased op') eqn:E; [|done].
  destruct (run_allowed _ _ _ (before ++ (op, Interrupted reason) :: middle) op' r after Hr) as [Hl _].
  { rewrite Heq, <-app_assoc. done. }
  rewrite (Hl E op reason) in Hop; [done|]. apply elem_of_app. right. by left.
Qed.

(** C33: The treasury is spent under its lease, once at a time.  In every run a
    top-up is signed only right after the treasury's lease was confirmed and
    with no earlier top-up pending; it is saved only right after the lease was
    confirmed again and with exactly the signed bytes and amount; and a
    pending top-up is dropped only with its receipt in hand or when no node
    has it. *)
Theorem treasury_spends_under_its_lease start t resolutions before op r after :
  runs (drive_batch start) t resolutions → t = before ++ (op, r) :: after →
  match op with
  | SignTreasuryTransfer _ | SignTreasuryPathUsd _ =>
      just before EnsureTreasuryLease (LeaseHeld true) ∧ (LoadPreparedFunding, FundingIntent None) ∈ before
  | SaveFundingIntent i => just before EnsureTreasuryLease (LeaseHeld true) ∧ signed_funding before i
  | ClearFundingIntent hash =>
      (ProbeTransactionKnown hash, Known false) ∈ before ∨
      ∃ receipt, (FetchTransactionReceipt hash, Receipt (Some receipt)) ∈ before
  | _ => True
  end.
Proof. intros Hr Heq. destruct (run_allowed _ _ _ _ _ _ _ Hr Heq) as [_ Hrule]. by destruct op. Qed.


(** ** What one bundle may hold *)

Lemma retain_first_sublist {B} `{EqDecision B} (key : Candidate → B) seen l :
  retain_first key seen l `sublist_of` l.
Proof.
  revert seen. induction l as [|x l IH]; intros seen; simpl; [constructor|].
  case_decide; by constructor.
Qed.

Lemma retain_first_NoDup {B} `{EqDecision B} (key : Candidate → B) seen l :
  NoDup (map key (retain_first key seen l)).
Proof.
  revert seen. induction l as [|x l IH]; intros seen; simpl; [constructor|].
  case_decide; [done|]. simpl. constructor; [|done]. intros (c & Hk & Hc)%list_elem_of_fmap.
  apply retain_first_elem in Hc as [_ Hc]. apply Hc. rewrite <-Hk. by left.
Qed.

Lemma filter_sublist {A} (f : A → bool) l : List.filter f l `sublist_of` l.
Proof. induction l as [|x l IH]; simpl; [constructor|]. destruct (f x); by constructor. Qed.

Lemma sublist_map_NoDup {A B} (f : A → B) l k : l `sublist_of` k → NoDup (map f k) → NoDup (map f l).
Proof.
  intros Hs Hk. apply (sublist_NoDup _ _ Hk). induction Hs; simpl in *; [constructor|..];
    apply NoDup_cons in Hk as [_ Hk]; constructor; auto.
Qed.

(** A bundle is bounded, fair, and never competes with itself.  The
    candidates kept for one bundle are in stream order, at most as many as the
    policy allows, no two of one sender (whose nonces would race in one
    simulation) and no operation twice; and with a positive bound the oldest
    candidate is always among them, so no later one can starve it. *)
Theorem bundle_keeps_the_oldest start candidates :
  Forall (candidate_of start) candidates → (1 ≤ max_bundle_operations (policy start))%nat →
  bundle_candidates start candidates `sublist_of` candidates ∧
  (length (bundle_candidates start candidates) ≤ max_bundle_operations (policy start))%nat ∧
  NoDup (map (λ c, po_sender (cand_packed c)) (bundle_candidates start candidates)) ∧
  NoDup (map cand_hash (bundle_candidates start candidates)) ∧
  head (bundle_candidates start candidates) = head candidates.
Proof.
  intros HF Hmax. set (by_hash := retain_first cand_hash [] candidates).
  set (by_sender := retain_first (λ c, po_sender (cand_packed c)) [] by_hash).
  assert (Hb : bundle_candidates start candidates `sublist_of` by_sender).
  { unfold bundle_candidates. etransitivity; [apply sublist_take|apply filter_sublist]. }
  assert (Hs : by_sender `sublist_of` by_hash) by apply retain_first_sublist.
  split; [etransitivity; [exact Hb|]; etransitivity; [exact Hs|apply retain_first_sublist]|].
  split; [unfold bundle_candidates; rewrite length_take; lia|].
  split; [eapply sublist_map_NoDup; [exact Hb|apply retain_first_NoDup]|].
  split; [eapply sublist_map_NoDup; [by etransitivity|apply retain_first_NoDup]|].
  unfold bundle_candidates. destruct HF as [|c l (routed & Hi & _) _]; [by destruct (max_bundle_operations _)|].
  apply lookup_lt_Some in Hi. cbn [retain_first]. rewrite decide_False by apply not_elem_of_nil.
  cbn [retain_first]. rewrite decide_False by apply not_elem_of_nil. cbn [List.filter].
  rewrite bool_decide_eq_true_2 by done. destruct (max_bundle_operations _); [lia|done].
Qed.

(** A short payment is held only if the store says so: when the deferral is
    answered with anything but [Deferred], a failed store included, the
    operation is rejected there and then, on its first attempt. *)
Lemma unstored_hold_is_rejected start proof c evaluation s answer marked :
  is_shortfall evaluation = true →
  verify_stable_transfer_logs (ev_reimbursement evaluation) (po_sender (cand_packed c))
    (treasury (policy start)) proof = true →
  (∀ attempt, answer ≠ Deferred attempt) → is_interrupt answer = false →
  is_failed marked = false → is_interrupt marked = false →
  ∃ diagnostic notice,
    runs (gate_operation start proof c evaluation s)
      [(DeferOperation (result_index c) AffordableMarketHold, answer);
       (MarkRejectedWithReason (hash_string c) "in_band_settlement"
          (settlement_rejection_reason (paid_amount evaluation) (required_amount evaluation) true)
          (settlement_rejection_code evaluation true), marked);
       (EmitDiagnostic diagnostic, Done); (notice, Done)]
      (durable (result_index c) s, Ok true).
Proof.
  intros Hsh Hlogs Hno Hint Hm Hmi. eexists _, _. unfold gate_operation.
  assert (accepted evaluation = false) as ->.
  { unfold is_shortfall in Hsh. unfold accepted. by destruct (rejection evaluation). }
  rewrite Hlogs, Hsh. cbn. apply runs_ask.
  destruct answer; try discriminate Hint; try (by edestruct Hno); cbn; apply runs_ask;
    destruct marked; try discriminate; cbn; repeat constructor.
Qed.

End Properties.

(** ** One batch, from its envelope to its submission *)

Definition ref_calls : SolCalls :=
  {| encode_handle_ops ops beneficiary := concat (map p_callData ops) ++ be_bytes 20 beneficiary;
     encode_simulate_handle_op _ _ op := p_callData op |}.

Definition batch_operation : UserOperationV0_7 :=
  {| sender := "0x2222222222222222222222222222222222222222"; nonce := "0x1"; factory := None;
     factory_data := None; call_data := "0x" +:+ ref_hex_encode native_call;
     call_gas_limit := "0x186a0"; verification_gas_limit := "0x30d40"; pre_verification_gas := "0xc350";
     max_fee_per_gas := "0x0"; max_priority_fee_per_gas := "0x0"; paymaster := None;
     paymaster_verification_gas_limit := None; paymaster_post_op_gas_limit := None;
     paymaster_data := None; signature := "0x01"; eip7702_auth := None; fee_token := None |}.

Definition batch_entry_point : string := "0x" +:+ ref_hex_encode (replicate 20 x01).

Definition batch_hash : string :=
  match @pack ref_hex ref_alloy (V0_7 batch_operation) with
  | Ok po => "0x" +:+ ref_hex_encode (@user_operation_hash ref_hex ref_alloy ref_keccak po
                                        (be_value (replicate 20 x01)) 1)
  | Err _ => ""
  end.

Definition batch_routed : RoutedUserOperation :=
  {| r_schema_version := 1; r_user_operation_hash := batch_hash; r_chain_id := 1;
     r_entry_point := batch_entry_point; r_user_operation := ser_v0_7 batch_operation;
     r_sender := sender batch_operation;
     r_lane := relayer_index_for_sender (sender batch_operation) 8; r_stream := "ops";
     r_partition_id := 0; r_offset := 0; r_submission_tier := None |}.

Definition batch_record : StoredUserOperation :=
  {| status := Queued; transaction_hash := None; chain_id := 1; chain_id_text := "1";
     entry_point := batch_entry_point; user_operation := V0_7 batch_operation; admitted := true;
     next_receipt_check_at_ms := 0; block_hash := None; block_number := None; receipt := None;
     event := None; last_executor_stage := None; last_executor_error := None;
     last_executor_attempt_at_ms := None; rejection_reason := None |}.

Definition batch_start : StartBatch :=
  {| operations := [batch_routed];
     policy := {| pool_width := 8; max_bundle_operations := 4; gas_buffer_bps := 1500;
                  fixed_gas_buffer := 30000; settlement_inclusion_floor_bps := 12500;
                  settlement_hold_max_attempts := 12; top_up_max_wei := 10 ^ 18; is_tempo := false;
                  treasury := sample_recipient; relayer := 7; relayer_float_cost_multiplier := 3;
                  relayer_float_target_wei := 10 ^ 17; relayer_float_min_wei := 10 ^ 16;
                  treasury_floor_wei := 10 ^ 16 |};
     lease_token := "token" |}.

(** 150,000 gas used at a base fee of 20 mwei: the 2 × 10^13 wei paid covers it. *)
Definition batch_raw : string := "0x02".
Definition batch_transaction : string := "0x" +:+ ref_hex_encode (@keccak256 ref_keccak [x02]).

(** A shell of fixed answers: the relayer's balance, and what the signer says. *)
Definition batch_shell (balance : Z) (fenced : bool) (op : ExecutionOperation) : ExecutionOutcome :=
  match op with
  | CheckChainSupported => Supported true
  | LoadChainAssets => OutAssets {| assets := sample_config; native_symbol := "ETH" |}
  | LoadRecords _ => Records [Some batch_record]
  | AcquireLaneLease | AcquireTreasuryLease => LeaseAcquired true
  | EnsureLaneLease | EnsureTreasuryLease => LeaseHeld true
  | LoadPreparedBundle => OutIntent None
  | LoadPreparedFunding => FundingIntent None
  | SimulateIndividually _ _ =>
      OperationVerdicts [OpExecuted {| gas_used := 150000; operation_gas_used := [150000]; logs := [];
                                       full_execution := true |}]
  | FetchTransactionContext _ _ =>
      OutContext {| estimated_gas := 160000; tc_base_fee_per_gas := 20000000;
                    tc_max_fee_per_gas := 41000000; tc_max_priority_fee_per_gas := 1000000; tc_nonce := 5;
                    relayer_balance := balance; tip_window := None |}
  | FetchMarketPrice => Price 250000000000
  | FetchTreasuryContext => OutTreasuryContext 9 (10 ^ 18) (Some 21000)
  | SignTreasuryTransfer rq => Signed {| raw_transaction_hex := batch_raw;
                                         sb_transaction_hash := batch_transaction; sb_nonce := ts_nonce rq |}
  | SignBundle rq =>
      if fenced then Interrupted "executor lease was lost"
      else Signed {| raw_transaction_hex := batch_raw; sb_transaction_hash := batch_transaction;
                     sb_nonce := bs_nonce rq |}
  | SavePreparedBundle _ | SaveFundingIntent _ => Saved true
  | CheckBroadcastSeen _ => Seen false
  | BroadcastRaw _ hash => Sent (ReplyAccepted hash)
  | FetchTransactionReceipt _ => Receipt (Some (VObject [("status", VString "0x1")]))
  | MarkBundleSubmitted i _ => Indexed (length (bi_user_operation_hashes i))
  | _ => Done
  end.

Definition batch_program : prog ExecutionOperation ExecutionOutcome (option (list ItemResolution)) :=
  @drive_batch ref_hex ref_alloy ref_hash_text ref_keccak ref_calls x86_64 batch_start.
Definition batch_execution (balance : Z) (fenced : bool) : ExecutionTrace * option (list ItemResolution) :=
  (execute (λ (s : ()) op, (s, batch_shell balance fenced op)) tt batch_program).2.

Lemma batch_runs balance fenced :
  runs batch_program (batch_execution balance fenced).1 (batch_execution balance fenced).2.
Proof. apply (execute_runs (λ (s : ()) op, (s, batch_shell balance fenced op)) tt batch_program). Qed.

(** The first request of a kind, with what comes before and after it. *)
Fixpoint find_request (f : ExecutionOperation → bool) (t : ExecutionTrace) :
    option (ExecutionTrace * ExecutionOperation * ExecutionOutcome * ExecutionTrace) :=
  match t with
  | [] => None
  | (op, r) :: t =>
      if f op then Some ([], op, r, t)
      else '(before, op', r', after) ← find_request f t; Some ((op, r) :: before, op', r', after)
  end.

Lemma find_request_eq f t before op r after :
  find_request f t = Some (before, op, r, after) → t = before ++ (op, r) :: after ∧ f op = true.
Proof.
  revert before. induction t as [|[op' r'] t IH]; intros before Hf; [done|]. simpl in Hf.
  destruct (f op') eqn:E; [by injection Hf as <- <- <- <-|].
  apply bind_Some in Hf as ([[[before' ?] ?] ?] & Hf & [= <- -> -> ->]).
  destruct (IH _ Hf) as [-> ?]. done.
Qed.

Definition is_broadcast (op : ExecutionOperation) : bool :=
  match op with BroadcastRaw _ _ => true | _ => false end.
Definition is_bundle_signature (op : ExecutionOperation) : bool :=
  match op with SignBundle _ => true | _ => false end.
Definition is_treasury_signature (op : ExecutionOperation) : bool :=
  match op with SignTreasuryTransfer _ => true | _ => false end.

Lemma every_resolution_has_evidence_witness :
  (batch_execution (10 ^ 18) false).2 = Some [Durable] ∧
  settled_by (batch_execution (10 ^ 18) false).1 0 batch_hash.
Proof.
  assert (Hd : (batch_execution (10 ^ 18) false).2 = Some [Durable]) by (vm_compute; reflexivity).
  split; [exact Hd|].
  pose proof (@every_resolution_has_evidence ref_hex ref_alloy ref_hash_text ref_keccak ref_calls x86_64
    batch_start _ _ (batch_runs (10 ^ 18) false)) as Hr. rewrite Hd in Hr. destruct Hr as [_ Hr].
  exact (Hr 0%nat batch_routed eq_refl eq_refl).
Defined.

Lemma outbox_before_broadcast_witness :
  match find_request is_broadcast (batch_execution (10 ^ 18) false).1 with
  | Some (before, BroadcastRaw raw hash, _, _) => @stored ref_hex ref_hash_text ref_keccak before raw hash
  | _ => False
  end.
Proof.
  assert (Hb : match find_request is_broadcast (batch_execution (10 ^ 18) false).1 with
               | Some _ => true | None => false end = true) by (vm_compute; reflexivity).
  destruct (find_request _ _) as [[[[before op] r] after]|] eqn:E; [|discriminate Hb].
  apply find_request_eq in E as [E Hop]. destruct op; try discriminate Hop.
  exact (@outbox_before_broadcast ref_hex ref_alloy ref_hash_text ref_keccak ref_calls x86_64
    batch_start _ _ _ _ _ _ (batch_runs (10 ^ 18) false) E).
Defined.

Lemma interrupt_stops_the_pipeline_witness :
  match find_request is_bundle_signature (batch_execution (10 ^ 18) true).1 with
  | Some (before, _, _, (op', _) :: _) => leased op' = false
  | _ => False
  end.
Proof.
  assert (Hb : match find_request is_bundle_signature (batch_execution (10 ^ 18) true).1 with
               | Some (_, op, Interrupted _, _ :: _) => leased op | _ => false end = true)
    by (vm_compute; reflexivity).
  destruct (find_request _ _) as [[[[before op] r] [|[op' r'] after]]|] eqn:E;
    [destruct r; discriminate Hb| |discriminate Hb].
  apply find_request_eq in E as [E _]. destruct r; try discriminate Hb.
  exact (@interrupt_stops_the_pipeline ref_hex ref_alloy ref_hash_text ref_keccak ref_calls x86_64
    batch_start _ _ before op reason [] op' r' after (batch_runs (10 ^ 18) true) E Hb).
Defined.

Lemma treasury_spends_under_its_lease_witness :
  match find_request is_treasury_signature (batch_execution 0 false).1 with
  | Some (before, SignTreasuryTransfer rq, _, _) =>
      ts_amount rq = 8 * 10 ^ 15 ∧ just before EnsureTreasuryLease (LeaseHeld true)
  | _ => False
  end.
Proof.
  assert (Hb : match find_request is_treasury_signature (batch_execution 0 false).1 with
               | Some (_, SignTreasuryTransfer rq, _, _) => bool_decide (ts_amount rq = 8 * 10 ^ 15)
               | _ => false end = true) by (vm_compute; reflexivity).
  destruct (find_request _ _) as [[[[before op] r] after]|] eqn:E; [|discriminate Hb].
  apply find_request_eq in E as [E Hop]. destruct op; try discriminate Hop.
  apply bool_decide_eq_true in Hb. split; [exact Hb|].
  exact (proj1 (@treasury_spends_under_its_lease ref_hex ref_alloy ref_hash_text ref_keccak ref_calls x86_64
    batch_start _ _ _ _ _ _ (batch_runs 0 false) E)).
Defined.


(** The candidate of the batch above. *)
Definition batch_candidates : list Candidate :=
  from_option (λ c, [c]) []
    (ok (@candidate_from_record ref_hex ref_alloy ref_hash_text ref_keccak 0 batch_routed batch_record 8)).

Lemma batch_candidates_of : Forall (candidate_of batch_start) batch_candidates.
Proof.
  unfold batch_candidates. destruct (candidate_from_record _ _ _ _) as [c|] eqn:E; [|constructor].
  constructor; [|constructor]. exact (candidate_from_record_of batch_start 0 batch_routed _ _ c eq_refl E).
Qed.

Lemma bundle_keeps_the_oldest_witness :
  (length batch_candidates = 1)%nat ∧
  head (bundle_candidates batch_start batch_candidates) = head batch_candidates.
Proof.
  split; [vm_compute; reflexivity|].
  destruct (bundle_keeps_the_oldest batch_start batch_candidates batch_candidates_of ltac:(simpl; lia))
    as (_ & _ & _ & _ & Hh). exact Hh.
Defined.
