(* ===== verification/ExecutionOutbox.v ===== *)
(** * ExecutionOutbox: the outbox discipline as an abstract machine

    What the executor promises the chain and the store, as an executable
    monitor that watches only the requests and the answers: it remembers
    whether the executor was fenced off, whether the lane was just confirmed,
    which transactions are stored and which a node has.  The theorem is the
    refinement: whatever its shell answers, [drive_batch] never makes a
    request the machine does not permit. *)

From S2P Require Export ExecutionProperties.
#[local] Open Scope string_scope.
#[local] Open Scope list_scope.
#[local] Open Scope Z_scope.

#[export] Instance PreparedBundleIntent_eq_dec : EqDecision PreparedBundleIntent.
Proof. solve_decision. Defined.

(** ** The machine *)

Record Outbox : Type := {
  fenced : bool;                          (* a leased request was interrupted *)
  confirmed : bool;                       (* the lane lease was just confirmed *)
  empty : bool;                           (* the outbox was read empty *)
  stored_txs : list (string * string);    (* the transactions stored: text and hash *)
  saved_intents : list PreparedBundleIntent;
  seen_txs : list string }.               (* the hashes a node has *)

Definition initial_outbox : Outbox :=
  {| fenced := false; confirmed := false; empty := false; stored_txs := []; saved_intents := [];
     seen_txs := [] |}.

Definition stores (op : ExecutionOperation) (r : ExecutionOutcome) : list (string * string) :=
  match op, r with
  | SavePreparedBundle i, Saved true => [(bi_raw_transaction i, bi_transaction_hash i)]
  | SaveFundingIntent i, Saved true | LoadPreparedFunding, FundingIntent (Some i) =>
      [(fi_raw_transaction i, fi_transaction_hash i)]
  | _, _ => []
  end.

Definition saves (op : ExecutionOperation) (r : ExecutionOutcome) : list PreparedBundleIntent :=
  match op, r with SavePreparedBundle i, Saved true => [i] | _, _ => [] end.

Definition sees (op : ExecutionOperation) (r : ExecutionOutcome) : list string :=
  match op, r with
  | CheckBroadcastSeen hash, Seen true | ProbeTransactionKnown hash, Known true => [hash]
  | BroadcastRaw _ hash, Sent (ReplyAccepted hash') =>
      if eq_ignore_ascii_case hash' hash then [hash] else []
  | _, _ => []
  end.

(** One request and its answer. *)
Definition observe (o : Outbox) (event : ExecutionOperation * ExecutionOutcome) : Outbox :=
  let '(op, r) := event in
  {| fenced := fenced o || (leased op && is_interrupt r);
     confirmed := match op, r with EnsureLaneLease, LeaseHeld true => true | _, _ => false end;
     empty := match op, r with LoadPreparedBundle, OutIntent None => true | _, _ => empty o end;
     stored_txs := stores op r ++ stored_txs o; saved_intents := saves op r ++ saved_intents o;
     seen_txs := sees op r ++ seen_txs o |}.

Section Machine.
Context `{HT : HashText} `{HK : Keccak}.

Definition carries (raw : list byte) (hash : string) (tx : string * string) : bool :=
  bool_decide (tx.2 = hash) &&
  match validate_raw_transaction tx.1 tx.2 with Ok raw' => bool_decide (raw' = raw) | Err _ => false end.

(** What the machine permits next. *)
Definition permits (o : Outbox) (op : ExecutionOperation) : bool :=
  negb (leased op && fenced o) &&
  match op with
  | SignBundle _ | SignTempoBundle _ => confirmed o && empty o
  | SavePreparedBundle _ => confirmed o
  | BroadcastRaw raw hash => existsb (carries raw hash) (stored_txs o)
  | MarkBundleSubmitted i _ =>
      bool_decide (i ∈ saved_intents o) && bool_decide (bi_transaction_hash i ∈ seen_txs o)
  | _ => true
  end.

Fixpoint accepts (o : Outbox) (t : ExecutionTrace) : bool :=
  match t with
  | [] => true
  | (op, r) :: t => permits o op && accepts (observe o (op, r)) t
  end.

(** ** What the machine remembers of a history *)

Definition after (h : ExecutionTrace) : Outbox := foldl observe initial_outbox h.

Lemma after_snoc h event : after (h ++ [event]) = observe (after h) event.
Proof. unfold after. by rewrite foldl_app. Qed.

Lemma after_saved h i : (SavePreparedBundle i, Saved true) ∈ h → i ∈ saved_intents (after h).
Proof.
  induction h as [|[op r] h IH] using rev_ind; [by intros ?%elem_of_nil|].
  rewrite after_snoc. cbn. intros [Hin|Hin]%elem_of_app; apply elem_of_app.
  - right. by apply IH.
  - apply list_elem_of_singleton in Hin as [= <- <-]. left. by left.
Qed.

Lemma after_stored h i :
  (SavePreparedBundle i, Saved true) ∈ h → (bi_raw_transaction i, bi_transaction_hash i) ∈ stored_txs (after h).
Proof.
  induction h as [|[op r] h IH] using rev_ind; [by intros ?%elem_of_nil|].
  rewrite after_snoc. cbn. intros [Hin|Hin]%elem_of_app; apply elem_of_app.
  - right. by apply IH.
  - apply list_elem_of_singleton in Hin as [= <- <-]. left. by left.
Qed.

Lemma after_funding h i :
  (SaveFundingIntent i, Saved true) ∈ h ∨ (LoadPreparedFunding, FundingIntent (Some i)) ∈ h →
  (fi_raw_transaction i, fi_transaction_hash i) ∈ stored_txs (after h).
Proof.
  induction h as [|[op r] h IH] using rev_ind; [by intros [?%elem_of_nil|?%elem_of_nil]|].
  rewrite after_snoc. cbn. rewrite !elem_of_app, !list_elem_of_singleton.
  intros [[Hin|[= <- <-]]|[Hin|[= <- <-]]]; [right; by apply IH; left|left; by left|right; by apply IH; right|left; by left].
Qed.

Lemma after_observed h hash : observed h hash → hash ∈ seen_txs (after h).
Proof.
  unfold observed. induction h as [|[op r] h IH] using rev_ind.
  { intros [?%elem_of_nil|[(? & ? & ?%elem_of_nil & _)|?%elem_of_nil]]; done. }
  rewrite after_snoc. cbn. setoid_rewrite elem_of_app. setoid_rewrite list_elem_of_singleton.
  intros [[Hin|[= <- <-]]|[(raw & hash' & [Hin|[= <- <-]] & He)|[Hin|[= <- <-]]]].
  - right. apply IH. by left.
  - left. by left.
  - right. apply IH. right. left. by exists raw, hash'.
  - left. cbn. rewrite He. by left.
  - right. apply IH. by right; right.
  - left. by left.
Qed.

Lemma after_empty h : (LoadPreparedBundle, OutIntent None) ∈ h → empty (after h) = true.
Proof.
  induction h as [|[op r] h IH] using rev_ind; [by intros ?%elem_of_nil|].
  rewrite after_snoc. cbn. intros [Hin|Hin]%elem_of_app.
  - rewrite (IH Hin). by destruct op, r as [| | | | | | | | | | |[]| | | | | | | | | | | | | | | | | | | |].
  - by apply list_elem_of_singleton in Hin as [= <- <-].
Qed.

Lemma after_confirmed h : just h EnsureLaneLease (LeaseHeld true) → confirmed (after h) = true.
Proof. intros [h0 ->]. by rewrite after_snoc. Qed.

Lemma after_live h : live h → fenced (after h) = false.
Proof.
  induction h as [|[op r] h IH] using rev_ind; [done|]. intros Hl. rewrite after_snoc. cbn.
  rewrite IH by (intros op' reason Hin; apply (Hl op' reason), elem_of_app; by left).
  destruct r; cbn; try by rewrite andb_false_r. rewrite andb_true_r.
  apply (Hl op reason), elem_of_app. right. by left.
Qed.

Lemma carries_stored o raw hash text :
  validate_raw_transaction text hash = Ok raw → (text, hash) ∈ stored_txs o →
  existsb (carries raw hash) (stored_txs o) = true.
Proof.
  intros Hv Hin. apply existsb_exists. exists (text, hash). split; [by apply list_elem_of_In|].
  unfold carries. cbn. by rewrite Hv, !bool_decide_eq_true_2.
Qed.
End Machine.

Section Refinement.
Context `{HA : Alloy} `{HT : !HashText} `{HK : Keccak} `{HS : SolCalls} `{W : TargetWidth}.
Variable Pay : ExecutionTrace → ExecutionOperation → Prop.

(** The rules of the program imply the machine's permissions. *)
Lemma allowed_permits h op : allowed Pay h op → permits (after h) op = true.
Proof.
  intros [Hl Hr]. unfold permits. apply andb_true_iff. split.
  - destruct (leased op) eqn:E; [|done]. by rewrite (after_live h (Hl eq_refl)).
  - destruct op; try done; cbn in Hr |- *.
    + destruct Hr as (Hj & He & _). by rewrite (after_confirmed h Hj), (after_empty h He).
    + destruct Hr as [Hj _]. by apply after_confirmed.
    + destruct Hr as (text & Hv & [(i & Hin & <- & <-)|(i & Hin & <- & <-)]);
        (eapply carries_stored; [exact Hv|]); [by apply after_stored|by apply after_funding].
    + destruct Hr as [Hin Ho]. rewrite !bool_decide_eq_true_2; [done|by apply after_observed|by apply after_saved].
    + destruct Hr as (Hj & He & _). by rewrite (after_confirmed h Hj), (after_empty h He).
Qed.

Lemma accepts_runs {A} (p : prog ExecutionOperation ExecutionOutcome A) h Q t a :
  wp (allowed Pay) p h Q → runs p t a → accepts (after h) t = true.
Proof.
  intros Hw Hr. revert h Hw. induction Hr as [a|op k r t a Hr IH]; intros h Hw; [done|].
  destruct Hw as [HI Hk]. cbn [accepts]. rewrite (allowed_permits _ _ HI), <-after_snoc. apply IH, Hk.
Qed.
End Refinement.

Section OutboxClaim.
Context `{HA : Alloy} `{HT : !HashText} `{HK : Keccak} `{HS : SolCalls} `{W : TargetWidth}.

(** C12: The batch refines the outbox machine.  Every run of [drive_batch],
    against every answer a shell can give, is accepted by the abstract
    machine: no leased request after a fence, a signature only over a
    confirmed lane and an outbox read empty, a bundle stored only over a
    confirmed lane, bytes broadcast only when a stored transaction carries
    them, and operations marked submitted only for a stored bundle a node
    has. *)
Theorem batch_refines_outbox start t resolutions :
  runs (drive_batch start) t resolutions → accepts initial_outbox t = true.
Proof. intros Hr. exact (accepts_runs _ _ [] _ _ _ (drive_safe start) Hr). Qed.
End OutboxClaim.

(** The run of [ExecutionProperties]; the machine refuses it reversed. *)
Lemma batch_refines_outbox_witness :
  @accepts ref_hex ref_hash_text ref_keccak initial_outbox (batch_execution (10 ^ 18) false).1 = true ∧
  @accepts ref_hex ref_hash_text ref_keccak initial_outbox
    (rev (batch_execution (10 ^ 18) false).1) = false.
Proof.
  split; [|vm_compute; reflexivity].
  exact (@batch_refines_outbox ref_hex ref_alloy ref_hash_text ref_keccak ref_calls x86_64
    batch_start _ _ (batch_runs (10 ^ 18) false)).
Defined.
