(* ===== verification/TreasuryDo.v ===== *)
(** * TreasuryDo: the cross-lane treasury lock and top-up outbox of a chain
    ([vela-relay-cf/src/treasury_do.rs], [vela-relay-cf/src/proto.rs])

    One object per chain.  A request may carry a renewal, applied before its
    command; a storage read that fails reads as an absent value, so a request
    comes with whether the read of its renewal and the read of its command
    succeed.  The top-up is stored as its JSON text and read back through the
    parser, which recovers what was written ([de_ser_funding]).  Storage writes
    succeed.  Requests reach the object one at a time, whatever executors sent
    them: [serves] is the history of one object. *)

From S2P Require Export Task.
#[local] Open Scope string_scope.
#[local] Open Scope list_scope.
#[local] Open Scope Z_scope.

(** ** Messages *)

Record LeaseIdentity : Type := { li_token : string; li_ttl_ms : Z }.

Inductive TreasuryCommand : Type :=
  | AcquireLease (lease : LeaseIdentity)
  | EnsureLease (lease : LeaseIdentity)
  | ReleaseLease (token : string)
  | LoadFunding
  | SaveFunding (intent : PreparedFundingIntent)
  | ClearFunding (transaction_hash : string)
  | AcquireProbe (transaction_hash : string) (ttl_ms : Z)
  | ClaimAlert (fingerprint token : string) (ttl_ms : Z)
  | ReleaseAlert (fingerprint token : string).

Record TreasuryRequest : Type := { renew : option LeaseIdentity; command : TreasuryCommand }.

Inductive TreasuryReply : Type :=
  | Acquired (acquired : bool)
  | Held (held : bool)
  | LeaseReleased
  | Funding (intent : option PreparedFundingIntent)
  | FundingSaved (saved : bool)
  | Cleared (cleared : bool).

(** ** The stored intent *)

Definition ser_funding (i : PreparedFundingIntent) : Value :=
  VObject [("chainId", VNumber (fi_chain_id i)); ("relayer", VString (fi_relayer i));
           ("amountWei", VNumber (fi_amount_wei i)); ("rawTransaction", VString (fi_raw_transaction i));
           ("transactionHash", VString (fi_transaction_hash i)); ("nonce", VNumber (fi_nonce i))].

Definition de_funding (v : Value) : option PreparedFundingIntent :=
  o ← as_object v;
  ci ← req (as_uint 64) "chainId" o; re ← req as_str "relayer" o;
  am ← req (as_uint 128) "amountWei" o; ra ← req as_str "rawTransaction" o;
  th ← req as_str "transactionHash" o; no ← req (as_uint 64) "nonce" o;
  Some {| fi_chain_id := ci; fi_relayer := re; fi_amount_wei := am; fi_raw_transaction := ra;
          fi_transaction_hash := th; fi_nonce := no |}.

Definition funding_typed (i : PreparedFundingIntent) : Prop :=
  fits 64 (fi_chain_id i) ∧ fits 128 (fi_amount_wei i) ∧ fits 64 (fi_nonce i).

Lemma de_ser_funding i : funding_typed i → de_funding (ser_funding i) = Some i.
Proof.
  intros (Hc & Ha & Hn). unfold de_funding, ser_funding, req. cbn.
  rewrite (checked_fits _ _ Hc), (checked_fits _ _ Ha), (checked_fits _ _ Hn). by destruct i.
Qed.

(** ** The object *)

Record LeaseState : Type := { l_token : string; l_deadline_ms : Z }.

Record TreasuryDo : Type := {
  lease : option LeaseState;
  funding : option Value;
  probes : gmap string Z;
  alerts : gmap string LeaseState }.

Definition put_lease (s : TreasuryDo) (l : option LeaseState) : TreasuryDo :=
  {| lease := l; funding := funding s; probes := probes s; alerts := alerts s |}.
Definition put_funding (s : TreasuryDo) (i : option Value) : TreasuryDo :=
  {| lease := lease s; funding := i; probes := probes s; alerts := alerts s |}.
Definition put_probes (s : TreasuryDo) (p : gmap string Z) : TreasuryDo :=
  {| lease := lease s; funding := funding s; probes := p; alerts := alerts s |}.
Definition put_alerts (s : TreasuryDo) (a : gmap string LeaseState) : TreasuryDo :=
  {| lease := lease s; funding := funding s; probes := probes s; alerts := a |}.

(** [storage.get(..).await.ok().flatten()] *)
Definition read {A} (reads_ok : bool) (value : option A) : option A := if reads_ok then value else None.

Definition read_funding (reads_ok : bool) (s : TreasuryDo) : option PreparedFundingIntent :=
  read reads_ok (funding s) ≫= de_funding.

Definition held_until (identity : LeaseIdentity) (now : Z) : LeaseState :=
  {| l_token := li_token identity; l_deadline_ms := wrapping 64 (now + li_ttl_ms identity) |}.

Definition acquire_lease (reads_ok : bool) (now : Z) (s : TreasuryDo) (identity : LeaseIdentity) :
    TreasuryDo * bool :=
  if match read reads_ok (lease s) with
     | Some held => bool_decide (now < l_deadline_ms held)
     | None => false
     end
  then (s, false)
  else (put_lease s (Some (held_until identity now)), true).

Definition renew_lease (reads_ok : bool) (now : Z) (s : TreasuryDo) (identity : LeaseIdentity) :
    TreasuryDo * bool :=
  match read reads_ok (lease s) with
  | Some held =>
      if bool_decide (l_token held = li_token identity) && bool_decide (now < l_deadline_ms held)
      then (put_lease s (Some (held_until identity now)), true)
      else (s, false)
  | None => (s, false)
  end.

Definition run_command (reads_ok : bool) (now : Z) (s : TreasuryDo) (c : TreasuryCommand) :
    TreasuryDo * TreasuryReply :=
  match c with
  | AcquireLease identity => prod_map id Acquired (acquire_lease reads_ok now s identity)
  | EnsureLease identity => prod_map id Held (renew_lease reads_ok now s identity)
  | ReleaseLease token =>
      match read reads_ok (lease s) with
      | Some held =>
          if decide (l_token held = token) then (put_lease s None, LeaseReleased) else (s, LeaseReleased)
      | None => (s, LeaseReleased)
      end
  | LoadFunding => (s, Funding (read_funding reads_ok s))
  | SaveFunding intent =>
      match read_funding reads_ok s with
      | Some _ => (s, FundingSaved false)
      | None => (put_funding s (Some (ser_funding intent)), FundingSaved true)
      end
  | ClearFunding hash =>
      match read_funding reads_ok s with
      | Some intent =>
          if decide (fi_transaction_hash intent = hash)
          then (put_probes (put_funding s None) (delete hash (probes s)), Cleared true)
          else (s, Cleared false)
      | None => (s, Cleared false)
      end
  | AcquireProbe hash ttl_ms =>
      let acquired := match read reads_ok (probes s !! hash) with
                      | Some deadline => bool_decide (deadline ≤ now) | None => true end in
      if acquired then (put_probes s (<[hash := wrapping 64 (now + ttl_ms)]> (probes s)), Acquired true)
      else (s, Acquired false)
  | ClaimAlert fingerprint token ttl_ms =>
      let acquired := match read reads_ok (alerts s !! fingerprint) with
                      | Some held => bool_decide (l_deadline_ms held ≤ now) | None => true end in
      if acquired
      then (put_alerts s (<[fingerprint := held_until {| li_token := token; li_ttl_ms := ttl_ms |} now]>
                            (alerts s)), Acquired true)
      else (s, Acquired false)
  | ReleaseAlert fingerprint token =>
      match read reads_ok (alerts s !! fingerprint) with
      | Some held =>
          if decide (l_token held = token) then (put_alerts s (delete fingerprint (alerts s)), LeaseReleased)
          else (s, LeaseReleased)
      | None => (s, LeaseReleased)
      end
  end.

(** [TreasuryDo::fetch] at the object's clock [now]. *)
Definition fetch (renew_reads command_reads : bool) (now : Z) (s : TreasuryDo) (rq : TreasuryRequest) :
    TreasuryDo * TreasuryReply :=
  let s := match renew rq with
           | Some identity => (renew_lease renew_reads now s identity).1
           | None => s end in
  run_command command_reads now s (command rq).

(** ** Histories *)

Record Visit : Type := {
  at_ms : Z; renew_reads : bool; command_reads : bool; request : TreasuryRequest }.

Definition serve (s : TreasuryDo) (v : Visit) : TreasuryDo * TreasuryReply :=
  fetch (renew_reads v) (command_reads v) (at_ms v) s (request v).

(** A run of the object: the visits with the answer each one got. *)
Inductive serves : TreasuryDo → list (Visit * TreasuryReply) → TreasuryDo → Prop :=
  | serves_nil s : serves s [] s
  | serves_cons s v h s' :
      serves (serve s v).1 h s' → serves s ((v, (serve s v).2) :: h) s'.

(** The answer gives the lease to [token], until [deadline]. *)
Definition grants (token : string) (deadline : Z) (x : Visit * TreasuryReply) : Prop :=
  match command (request x.1), x.2 with
  | AcquireLease identity, Acquired true | EnsureLease identity, Held true =>
      li_token identity = token ∧ l_deadline_ms (held_until identity (at_ms x.1)) = deadline
  | _, _ => False
  end.

(** The lease was given away by a visit that failed to read it. *)
Definition grants_blindly (x : Visit * TreasuryReply) : Prop :=
  command_reads x.1 = false ∧ ∃ token deadline, grants token deadline x.

Definition saves (i : PreparedFundingIntent) (x : Visit * TreasuryReply) : Prop :=
  command (request x.1) = SaveFunding i ∧ x.2 = FundingSaved true.

(** A transfer was accepted by a visit that failed to read the stored one. *)
Definition saves_blindly (x : Visit * TreasuryReply) : Prop :=
  command_reads x.1 = false ∧ ∃ i, saves i x.

Definition clears (hash : string) (x : Visit * TreasuryReply) : Prop :=
  command (request x.1) = ClearFunding hash ∧ x.2 = Cleared true.

Lemma serves_cons_inv s x h s' :
  serves s (x :: h) s' → x.2 = (serve s x.1).2 ∧ serves (serve s x.1).1 h s'.
Proof. intros Hx. inversion Hx; subst. by split. Qed.

Lemma Exists_impl_in {A} (P Q : A → Prop) (l : list A) :
  Exists P l → (∀ x, x ∈ l → P x → Q x) → Exists Q l.
Proof. intros (x & Hx & Hp)%Exists_exists H. apply Exists_exists. eauto. Qed.

(** ** The lease *)

(** [token] holds the lease at least until [deadline]. *)
Definition holds (token : string) (deadline : Z) (s : TreasuryDo) : Prop :=
  ∃ held, lease s = Some held ∧ l_token held = token ∧ deadline ≤ l_deadline_ms held.

Lemma holds_lease token deadline s s' : lease s' = lease s → holds token deadline s → holds token deadline s'.
Proof. unfold holds. by intros ->. Qed.

(** The leases a visit names. *)
Definition identities (v : Visit) : list LeaseIdentity :=
  (match renew (request v) with Some identity => [identity] | None => [] end) ++
  match command (request v) with
  | AcquireLease identity | EnsureLease identity => [identity]
  | _ => []
  end.

(** The visit names [token] for a term that ends before [deadline]. *)
Definition shortens (token : string) (deadline : Z) (x : Visit * TreasuryReply) : Prop :=
  Exists (λ identity, li_token identity = token ∧
    l_deadline_ms (held_until identity (at_ms x.1)) < deadline) (identities x.1).

#[export] Instance shortens_dec token deadline x : Decision (shortens token deadline x).
Proof. unfold shortens. apply Exists_dec. intros identity. apply _. Defined.

Definition lease_command (c : TreasuryCommand) : bool :=
  match c with AcquireLease _ | EnsureLease _ | ReleaseLease _ => true | _ => false end.

Lemma run_command_lease reads_ok now s c :
  lease_command c = false → lease (run_command reads_ok now s c).1 = lease s.
Proof. destruct c; intros Hc; try discriminate Hc; cbn; repeat (case_match || case_decide); done. Qed.

Section Holding.
Context (token : string) (deadline : Z).

(** What ends a lease before its deadline: its release, the holder asking for
    a shorter one, or a grant by a visit that failed to read it. *)
Definition ends_early (x : Visit * TreasuryReply) : Prop :=
  command (request x.1) = ReleaseLease token ∨ shortens token deadline x ∨ grants_blindly x.

Lemma renew_holds reads_ok s now identity :
  holds token deadline s → now < deadline →
  (li_token identity = token → deadline ≤ l_deadline_ms (held_until identity now)) →
  holds token deadline (renew_lease reads_ok now s identity).1 ∧
  ((renew_lease reads_ok now s identity).2 = true → li_token identity = token).
Proof.
  intros Hh H1 Hl. unfold renew_lease, read. destruct reads_ok; [|by split].
  destruct Hh as (held & Eh & Et & Ed). rewrite Eh.
  destruct (bool_decide (l_token held = li_token identity)) eqn:Eb; cbn -[held_until].
  - apply bool_decide_eq_true in Eb. rewrite bool_decide_eq_true_2 by lia. cbn -[held_until].
    split; [|congruence]. eexists. split; [done|]. split; [cbn; congruence|]. apply Hl. congruence.
  - split; [by exists held|done].
Qed.

Lemma acquire_refused s now identity :
  holds token deadline s → now < deadline → acquire_lease true now s identity = (s, false).
Proof.
  intros (held & Eh & Et & Ed) H1. unfold acquire_lease, read. rewrite Eh.
  by rewrite bool_decide_eq_true_2 by lia.
Qed.

(** A lease that has not run out survives every visit that does not end it
    early, and no such visit grants it to another token. *)
Lemma serve_holds s v :
  holds token deadline s → at_ms v < deadline →
  ends_early (v, (serve s v).2) ∨
  holds token deadline (serve s v).1 ∧
  ∀ other until, grants other until (v, (serve s v).2) → other = token.
Proof.
  intros Hh H1. destruct (decide (shortens token deadline (v, (serve s v).2))) as [Hs|Hs];
    [by left; right; left|].
  assert (∀ i, i ∈ identities v → li_token i = token →
            deadline ≤ l_deadline_ms (held_until i (at_ms v))) as Hl.
  { intros i Hi Ei. destruct (Z_lt_le_dec (l_deadline_ms (held_until i (at_ms v))) deadline); [|done].
    destruct Hs. apply Exists_exists. by exists i. }
  clear Hs. unfold ends_early, serve, fetch in *. unfold identities in Hl.
  set (m := match renew (request v) with Some _ => _ | None => s end) in *.
  assert (holds token deadline m) as Hm.
  { subst m. destruct (renew (request v)); [|done]. apply renew_holds; [done..|]. apply Hl. by left. }
  clearbody m. unfold grants_blindly, grants. cbn -[held_until].
  destruct (command (request v)) as [i|i|tok| |i|h|h k|f tok k|f tok] eqn:Ecm.
  4-9: right; split; [apply (holds_lease _ _ m); [by apply run_command_lease|done]|done].
  - cbn -[held_until] in *. destruct (command_reads v) eqn:Er.
    + right. by rewrite (acquire_refused m).
    + left. right. right. split; [done|]. by eexists _, _.
  - right. destruct (renew_holds (command_reads v) m (at_ms v) i) as [Ha Hb];
      [done..|apply Hl; apply elem_of_app; right; by left|].
    cbn -[held_until] in *. destruct (renew_lease _ (at_ms v) m i) as [m' ok].
    cbn -[held_until] in *. split; [done|].
    intros other until. destruct ok; [|done]. intros [<- _]. by apply Hb.
  - destruct (decide (tok = token)) as [->|Ht]; [by left; left|right].
    split; [|done]. destruct Hm as (held & Eh & Et & Ed). cbn. unfold read.
    destruct (command_reads v); [|by exists held]. rewrite Eh.
    destruct (decide (l_token held = tok)); [congruence|]. by exists held.
Qed.

(** A granted lease is held for its whole term. *)
Lemma grant_holds s v :
  grants token deadline (v, (serve s v).2) → holds token deadline (serve s v).1.
Proof.
  unfold serve, fetch, grants. cbn -[held_until].
  set (m := match renew (request v) with Some _ => _ | None => s end). clearbody m. unfold holds.
  destruct (command (request v)) as [i|i|tok| |i|h|h k|f tok k|f tok] eqn:Ecm; try done; cbn -[held_until].
  - unfold acquire_lease. destruct (match read _ _ with Some _ => _ | None => _ end); [done|].
    cbn -[held_until]. intros [Et Ed]. eexists. split; [done|]. split; [done|lia].
  - unfold renew_lease. destruct (read _ (lease m)) as [held|]; [|done].
    destruct (_ && _); [|done]. cbn -[held_until]. intros [Et Ed]. eexists. split; [done|]. split; [done|lia].
Qed.

(** Until its end, nobody else is granted a lease that is not ended early. *)
Lemma held_lease_excludes other until s between last s' :
  holds token deadline s →
  serves s (between ++ [last]) s' → grants other until last → other ≠ token →
  Exists (λ x, deadline ≤ at_ms x.1 ∨ ends_early x) (between ++ [last]).
Proof.
  revert s. induction between as [|x between IH]; intros s Hh Hs Hg Ho;
    apply serves_cons_inv in Hs as [Ex Hs].
  - apply Exists_cons. left. destruct last as [v r]. cbn in *. subst r.
    destruct (Z_lt_le_dec (at_ms v) deadline); [|by left].
    destruct (serve_holds s v Hh) as [He|[_ Hg']]; [done|by right|]. destruct Ho. by eapply Hg'.
  - apply Exists_cons. destruct x as [v r]. cbn in *. subst r.
    destruct (Z_lt_le_dec (at_ms v) deadline); [|by left; left].
    destruct (serve_holds s v Hh) as [He|[Hh' _]]; [done|by left; right|right]. by eapply IH.
Qed.
End Holding.

(** C19: The treasury lease is exclusive: once an answer gives it to [token]
    until a deadline, no later answer gives it to another token unless, since
    then, a visit came at or after the deadline on the object's clock, the
    holder asked for its release, the holder itself asked for a lease ending
    before the deadline, or a visit that failed to read the stored lease gave
    it away — whatever executors' requests arrive, renewals included, with
    any clock and any storage reads. *)
Theorem lease_is_exclusive s first between last s' token deadline other until :
  serves s (first :: between ++ [last]) s' →
  grants token deadline first → grants other until last → other ≠ token →
  Exists (λ x, deadline ≤ at_ms x.1 ∨
     command (request x.1) = ReleaseLease token ∨
     shortens token deadline x ∨
     (command_reads x.1 = false ∧ ∃ winner term, grants winner term x)) (between ++ [last]).
Proof.
  intros Hs Hf Hg Ho. apply serves_cons_inv in Hs as [Ex Hs].
  destruct first as [v r]. cbn in *. subst r.
  eapply held_lease_excludes; [|exact Hs|exact Hg|exact Ho]. by apply grant_holds.
Qed.

Definition lease_visit (now : Z) (c : TreasuryCommand) : Visit :=
  {| at_ms := now; renew_reads := true; command_reads := true;
     request := {| renew := None; command := c |} |}.
Definition empty_treasury : TreasuryDo := {| lease := None; funding := None; probes := ∅; alerts := ∅ |}.
Definition lease_of (token : string) : LeaseIdentity := {| li_token := token; li_ttl_ms := 30 |}.

Lemma lease_is_exclusive_witness :
  let first := (lease_visit 0 (AcquireLease (lease_of "a")), Acquired true) in
  let renewal := (lease_visit 20 (EnsureLease (lease_of "a")), Held true) in
  let refused := (lease_visit 25 (AcquireLease (lease_of "b")), Acquired false) in
  let last := (lease_visit 60 (AcquireLease (lease_of "b")), Acquired true) in
  Exists (λ x : Visit * TreasuryReply, 30 ≤ at_ms x.1) [renewal; refused; last].
Proof.
  intros first renewal refused last.
  assert (∀ x, x ∈ [renewal; refused; last] →
    command (request x.1) ≠ ReleaseLease "a" ∧ ¬ shortens "a" 30 x ∧ command_reads x.1 = true) as Hq.
  { intros x Hx. repeat (apply elem_of_cons in Hx as [->|Hx]); [..|by apply elem_of_nil in Hx].
    all: split_and!; [discriminate| |reflexivity].
    all: intros Hs; apply Exists_exists in Hs as (i & Hi & Ei & Hd).
    all: apply list_elem_of_singleton in Hi as ->; revert Ei Hd; vm_compute; congruence. }
  eapply Exists_impl_in.
  - apply (lease_is_exclusive empty_treasury first [renewal; refused] last
           {| lease := Some {| l_token := "b"; l_deadline_ms := 90 |}; funding := None;
              probes := ∅; alerts := ∅ |} "a" 30 "b" 90).
    + repeat apply serves_cons. apply serves_nil.
    + by split.
    + by split.
    + discriminate.
  - intros x Hx Hp. destruct (Hq x Hx) as (H1 & H2 & H3).
    destruct Hp as [Hp|[Hp|[Hp|[Hp _]]]]; [exact Hp|by destruct H1|by destruct H2|congruence].
Defined.

(** ** The top-up *)

(** A top-up with this hash is stored. *)
Definition pending (hash : string) (s : TreasuryDo) : Prop :=
  ∃ i, funding s = Some (ser_funding i) ∧ funding_typed i ∧ fi_transaction_hash i = hash.

Lemma renewed_funding reads_ok now s r :
  funding (match r with Some identity => (renew_lease reads_ok now s identity).1 | None => s end) = funding s.
Proof. destruct r; [|done]. unfold renew_lease. by repeat case_match. Qed.

Lemma pending_read hash s :
  pending hash s → ∃ i, read_funding true s = Some i ∧ fi_transaction_hash i = hash.
Proof.
  intros (i & Ef & Ht & Eh). exists i. unfold read_funding, read. rewrite Ef. cbv [mbind option_bind].
  split; [by apply de_ser_funding|done].
Qed.

(** A stored top-up survives every visit but the clear of its own hash and
    the save of a visit that failed to read it, and no other visit stores
    another one. *)
Lemma serve_pending hash s v :
  pending hash s →
  (pending hash (serve s v).1 ∧ ∀ i, ¬ saves i (v, (serve s v).2)) ∨
  clears hash (v, (serve s v).2) ∨ saves_blindly (v, (serve s v).2).
Proof.
  intros Hp. unfold serve, fetch, saves_blindly, saves, clears. cbn.
  set (m := match renew (request v) with Some _ => _ | None => s end).
  assert (pending hash m) as Hm by (unfold pending in *; subst m; by rewrite renewed_funding).
  clearbody m. destruct (pending_read _ _ Hm) as (i & Er & Eh). unfold pending in *.
  destruct (command_reads v) eqn:Ec.
  - destruct (command (request v)) eqn:Ecm; cbn -[read_funding];
      rewrite ?Er; unfold acquire_lease, renew_lease;
      repeat (case_match || case_decide); cbn; try (left; split; [done|naive_solver]).
    right. left. by subst.
  - destruct (command (request v)) eqn:Ecm; cbn; unfold acquire_lease, renew_lease;
      repeat (case_match || case_decide); cbn; try (left; split; [done|naive_solver]).
    right. right. split; [done|]. by eexists.
Qed.

Lemma save_pending i v s :
  saves i (v, (serve s v).2) → funding_typed i → pending (fi_transaction_hash i) (serve s v).1.
Proof.
  unfold saves, serve, fetch. cbn. set (m := match renew (request v) with Some _ => _ | None => s end).
  intros [Ec Hs] Ht. rewrite Ec in *. cbn in *. destruct (read_funding (command_reads v) m); [done|].
  by exists i.
Qed.

(** C20: The top-up outbox holds one transfer: after an answer has accepted a
    transfer, no other is accepted unless, since then, the object has cleared
    the first one by its hash, or a visit that failed to read the stored
    transfer accepted another over it — whatever requests arrive in between
    and whichever storage reads fail. *)
Theorem one_pending_top_up s first between last s' i i' :
  serves s (first :: between ++ [last]) s' →
  funding_typed i → saves i first → saves i' last →
  Exists (clears (fi_transaction_hash i)) between ∨
  Exists (λ x, command_reads x.1 = false ∧ ∃ j, saves j x) (between ++ [last]).
Proof.
  intros Hs Ht Hf Hl. apply serves_cons_inv in Hs as [Ex Hs].
  assert (pending (fi_transaction_hash i) (serve s first.1).1) as Hp.
  { destruct first as [v r]. cbn in *. subst r. by apply save_pending. }
  clear Hf Ex. revert Hp Hs. generalize (serve s first.1).1 as m.
  induction between as [|x between IH]; intros m Hp Hs; apply serves_cons_inv in Hs as [Ex Hs].
  - destruct last as [v r]. cbn in *. subst r.
    destruct (serve_pending _ _ v Hp) as [[_ Hn]|[[Hc _]|Hb]]; [by destruct (Hn i')| |].
    + destruct Hl as [Hl _]. cbn in Hl, Hc. congruence.
    + right. by apply Exists_cons; left.
  - destruct x as [v r]. cbn in *. subst r. rewrite !Exists_cons.
    destruct (serve_pending _ _ v Hp) as [[Hp' _]|[Hc|Hb]]; [|by left; left|by right; left].
    destruct (IH _ Hp' Hs) as [?|?]; [by left; right|by right; right].
Qed.

Definition sample_top_up (hash : string) : PreparedFundingIntent :=
  {| fi_chain_id := 1; fi_relayer := "0x01"; fi_amount_wei := 5; fi_raw_transaction := "0x02";
     fi_transaction_hash := hash; fi_nonce := 7 |}.

Lemma one_pending_top_up_witness :
  let first := (lease_visit 0 (SaveFunding (sample_top_up "0xa")), FundingSaved true) in
  let refused := (lease_visit 1 (SaveFunding (sample_top_up "0xb")), FundingSaved false) in
  let cleared := (lease_visit 2 (ClearFunding "0xa"), Cleared true) in
  Exists (clears "0xa") [refused; cleared].
Proof.
  intros first refused cleared.
  set (last := (lease_visit 3 (SaveFunding (sample_top_up "0xb")), FundingSaved true)).
  assert (¬ Exists (λ x : Visit * TreasuryReply, command_reads x.1 = false ∧ ∃ j, saves j x)
            ([refused; cleared] ++ [last])) as Hq.
  { intros Hx. apply Exists_exists in Hx as (x & Hx & Hr & _).
    repeat (apply elem_of_cons in Hx as [->|Hx]; [discriminate Hr|]). by apply elem_of_nil in Hx. }
  refine (match _ with or_introl Hc => Hc | or_intror Hb => False_ind _ (Hq Hb) end).
  apply (one_pending_top_up empty_treasury first [refused; cleared] last
           {| lease := None; funding := Some (ser_funding (sample_top_up "0xb"));
              probes := ∅; alerts := ∅ |} (sample_top_up "0xa") (sample_top_up "0xb")).
  - refine (serves_cons empty_treasury (lease_visit 0 (SaveFunding (sample_top_up "0xa"))) _ _ _).
    refine (serves_cons _ (lease_visit 1 (SaveFunding (sample_top_up "0xb"))) _ _ _).
    refine (serves_cons _ (lease_visit 2 (ClearFunding "0xa")) _ _ _).
    refine (serves_cons _ (lease_visit 3 (SaveFunding (sample_top_up "0xb"))) _ _ _).
    apply serves_nil.
  - repeat split; discriminate.
  - by split.
  - by split.
Defined.

(** A storage read that fails reads as an empty slot: the lease is given away
    while another executor holds it, and a stored top-up is replaced. *)
Lemma failed_read_breaks_the_lock :
  let blind c := {| at_ms := 1; renew_reads := true; command_reads := false;
                    request := {| renew := None; command := c |} |} in
  let s := {| lease := Some (held_until (lease_of "a") 0);
              funding := Some (ser_funding (sample_top_up "0xa")); probes := ∅; alerts := ∅ |} in
  (serve s (blind (AcquireLease (lease_of "b")))).2 = Acquired true ∧
  (serve s (blind (SaveFunding (sample_top_up "0xb")))).2 = FundingSaved true.
Proof. by vm_compute. Qed.
