(* ===== verification/Admission.v ===== *)
(** * Admission: the two-phase admission program
    ([vela-relay-core/src/admission.rs])

    One [eth_sendUserOperation] request as a program over the shell's
    operations: validation, the nonce slot, the durable record, the queue
    append, the admitted mark.  [flow]'s error is the [Flow] early-settlement
    channel.  The theorems hold for every sequence of shell answers. *)

From S2P Require Export Program Prepared Task Lifecycle SettlementDecision.
#[local] Open Scope string_scope.
#[local] Open Scope list_scope.
#[local] Open Scope Z_scope.

Definition CONFLICT_MESSAGE : string :=
  "this UserOperation hash is already queued with a different operation payload; resubmit the original operation fields or wait for the existing record to reach a durable outcome".

Inductive AdmissionOperation : Type :=
  | LoadSettlementAssets
  | FetchTokenDecimals (token : string)
  | ClaimNonce (slot : NonceSlot) (holder : NonceHolder)
  | TakeOverNonce (slot : NonceSlot) (judged_user_operation_hash : string) (holder : NonceHolder)
  | ReleaseNonce (slot : NonceSlot) (user_operation_hash : string)
  | CreateQueued (operation : QueuedUserOperation)
  | LoadExisting (hash : string)
  | Enqueue (envelope : Value) (retry : bool)
  | MarkAdmitted (hash : string).

Inductive AdmissionResult : Type :=
  | Assets (native_decimals : Z) (stablecoins : list string)
  | AssetsUnavailable
  | Decimals (decimals : Z)
  | DecimalsUnavailable
  | ResNonceClaim (claim : NonceClaim)
  | NonceReleased
  | Created (created : bool)
  | ResRecord (record : option StoredUserOperation)
  | Enqueued
  | ResQueueUnavailable
  | Marked (marked : bool)
  | StoreFailed.

Inductive AdmissionOutcome : Type :=
  | Accepted (user_operation_hash sender_hex entry_point : string)
  | AlreadyQueued (user_operation_hash : string)
  | OutConflict (user_operation_hash : string) (existing_chain_id : Z) (existing_entry_point : string)
  | NonceInFlight (existing_user_operation_hash sender_hex nonce : string)
  | Invalid (message : string)
  | OutRejected (message : string)
  | EstimationUnavailable
  | BackendUnavailable
  | StoreUnavailable
  | QueueUnavailable.

Record SubmitRequest : Type := {
  sub_chain_id : Z;
  sub_entry_point : string;
  sub_user_operation : UserOperation;
  settlement_recipient : option string;
  submission_tier : option SubmissionTier;
  now_ms : Z }.

Notation Flow := (flow AdmissionOperation AdmissionResult AdmissionOutcome).

(** ** Reimbursement as the RPC layer reads it *)

(** The string keys are the fixed-width lowercase hex of the addresses, so
    the [BTreeMap<String, u128>] has the order of the address map. *)
Record StringReimbursement : Type := {
  sr_native : Z; sr_stablecoins : list (string * Z) }.

Section Admission.
Context `{HX : Hex} `{HK : Keccak} `{W : TargetWidth}.

Definition address_text (address : Z) : string := "0x" +:+ hex_encode (be_bytes 20 address).

Definition string_reimbursement (call_data recipient : string) (stablecoin_allowlist : list string) :
    StringReimbursement :=
  let empty := {| sr_native := 0; sr_stablecoins := [] |} in
  match parse_raw_address recipient with
  | Err _ => empty
  | Ok recipient =>
      let allowlist : gset Z :=
        list_to_set (omap (λ address, be_value <$> ok (parse_raw_address address)) stablecoin_allowlist) in
      match parse_hex_bytes call_data with
      | None => empty
      | Some call_data =>
          match parse_reimbursement call_data (be_value recipient) allowlist with
          | Ok reimbursement =>
              {| sr_native := Z.min (native reimbursement) (umax 128);
                 sr_stablecoins :=
                   map (λ '(token, amount), (address_text token, Z.min amount (umax 128)))
                     (btree_entries (stablecoins reimbursement)) |}
          | Err _ => empty
          end
      end
  end.

(** [BTreeMap::get] on the string view. *)
Definition sr_get (token : string) (l : list (string * Z)) : option Z :=
  snd <$> List.find (λ kv, String.eqb kv.1 token) l.

(** ** In-band validation *)

Definition invalid {A} (message : string) : Flow A := settle (Invalid message).

Definition path_usd : string := address_text PATH_USD.

(** The floor of an asset as the [u128] it is compared with. *)
Definition minimum_u128 (decimals fraction_decimals : Z) : result AdmissionOutcome Z :=
  ok_or (m ← ok (minimum_amount decimals fraction_decimals); checked 128 m) EstimationUnavailable.

(** The loop over the stablecoins paid: each token's decimals are fetched, and
    the first one paid enough settles it. *)
Fixpoint any_stablecoin_pays (paid : list (string * Z)) : Flow bool :=
  match paid with
  | [] => mret false
  | (token, amount) :: paid =>
      reply ← ask (FetchTokenDecimals token);
      match reply with
      | Decimals decimals =>
          minimum ← lift_result (minimum_u128 decimals MIN_STABLE_FRACTION_DECIMALS);
          if decide (minimum ≤ amount) then mret true else any_stablecoin_pays paid
      | _ => settle EstimationUnavailable
      end
  end.

Definition validate_tempo_payment (call_data recipient : string) (fee_token : option string) : Flow () :=
  if match fee_token with
     | Some token => negb (eq_ignore_ascii_case token path_usd)
     | None => false
     end
  then invalid "Tempo currently accepts pathUSD as the feeToken"
  else
    let reimbursement := string_reimbursement call_data recipient [path_usd] in
    let paid := default 0 (sr_get path_usd (sr_stablecoins reimbursement)) in
    let minimum := 10 ^ (PATH_USD_DECIMALS - 2) in
    if decide (minimum ≤ paid) then mret tt
    else settle (OutRejected "Tempo UserOperation must reimburse the settlement recipient with at least 0.01 pathUSD").

Definition validate_market_payment (call_data recipient : string) : Flow () :=
  reply ← ask LoadSettlementAssets;
  match reply with
  | Assets native_decimals stablecoins =>
      let reimbursement := string_reimbursement call_data recipient stablecoins in
      native_minimum ← lift_result (minimum_u128 native_decimals MIN_NATIVE_FRACTION_DECIMALS);
      if decide (native_minimum ≤ sr_native reimbursement) then mret tt
      else
        paid ← any_stablecoin_pays (sr_stablecoins reimbursement);
        if paid : bool then mret tt
        else settle (OutRejected "in-band UserOperation must reimburse the settlement recipient with at least 0.000001 native coin or 0.01 of an allowlisted stablecoin")
  | _ => settle EstimationUnavailable
  end.

Definition validate_in_band_submission (chain_id : Z) (settlement_recipient : option string)
    (user_operation : UserOperation) : Flow () :=
  match user_operation with
  | V0_6 _ => invalid "the configured EntryPoint requires an unpacked v0.7 UserOperation"
  | V0_7 op =>
      max_fee ← lift_result (map_err Invalid (adm_quantity (max_fee_per_gas op) "maxFeePerGas"));
      fees_are_zero ←
        (if decide (max_fee ≠ ZERO_GAS_FEE) then mret false
         else
           tip ← lift_result (map_err Invalid
                   (adm_quantity (max_priority_fee_per_gas op) "maxPriorityFeePerGas"));
           mret (bool_decide (tip = ZERO_GAS_FEE)));
      if negb fees_are_zero
      then invalid "in-band UserOperations must set maxFeePerGas and maxPriorityFeePerGas to 0x0"
      else
        match settlement_recipient with
        | None => settle BackendUnavailable
        | Some recipient =>
            if is_tempo_chain chain_id
            then validate_tempo_payment (Task.call_data op) recipient (fee_token op)
            else validate_market_payment (Task.call_data op) recipient
        end
  end.

(** ** The nonce slot *)

(** The loop of [hold_nonce_slot]; the attempt is the last one when no
    attempts are left after it. *)
Fixpoint hold_attempts (attempts : nat) (slot : NonceSlot) (claimant : NonceHolder) (now_ms : Z)
    (reply : AdmissionResult) : Flow bool :=
  match attempts with
  | O => settle StoreUnavailable
  | S later =>
      match reply with
      | ResNonceClaim (Claimed fresh) => mret fresh
      | ResNonceClaim (Held holder) =>
          let refusal := NonceInFlight (nh_user_operation_hash holder) (slot_sender slot)
                           (nonce_quantity slot) in
          if decide (later = O) then settle refusal
          else
            record ← ask (LoadExisting (nh_user_operation_hash holder));
            match record with
            | ResRecord record =>
                match holder_state record holder now_ms with
                | Live => settle refusal
                | Final | Abandoned =>
                    reply ← ask (TakeOverNonce slot (nh_user_operation_hash holder) claimant);
                    hold_attempts later slot claimant now_ms reply
                end
            | _ => settle StoreUnavailable
            end
      | _ => settle StoreUnavailable
      end
  end.

Definition hold_nonce_slot (slot : NonceSlot) (claimant : NonceHolder) (now_ms : Z) : Flow bool :=
  reply ← ask (ClaimNonce slot claimant);
  hold_attempts TAKEOVER_ATTEMPTS slot claimant now_ms reply.

Definition release_fresh_claim (fresh_claim : bool) (slot : NonceSlot) (hash : string) : Flow () :=
  if fresh_claim then _ ← ask (ReleaseNonce slot hash); mret tt else mret tt.

(** ** The program *)

(** The record of the operation: created, or refused with the slot given
    back. *)
Definition create_queued (fresh_claim : bool) (slot : NonceSlot) (hash : string) (chain_id : Z)
    (entry_point : string) (operation : UserOperation) : Flow bool :=
  reply ← ask (CreateQueued {| q_user_operation_hash := hash; q_chain_id := chain_id;
                               q_entry_point := entry_point; q_user_operation := operation |});
  match reply with
  | Created created => mret created
  | ResQueueUnavailable => _ ← release_fresh_claim fresh_claim slot hash; settle QueueUnavailable
  | _ => _ ← release_fresh_claim fresh_claim slot hash; settle StoreUnavailable
  end.

(** A record that already existed: only an unadmitted record of this very
    operation is appended again. *)
Definition recover_existing (hash : string) (chain : Z) (entry_point_ : string)
    (operation : UserOperation) : Flow bool :=
  reply ← ask (LoadExisting hash);
  match reply with
  | ResRecord (Some existing) =>
      match existing_admission_action existing chain entry_point_ operation with
      | Conflict => settle (OutConflict hash (chain_id existing) (entry_point existing))
      | AlreadyAdmitted => settle (AlreadyQueued hash)
      | RetryAppend => mret true
      end
  | _ => settle StoreUnavailable
  end.

Definition queue_envelope (hash : string) (chain_id : Z) (entry_point : string)
    (operation : UserOperation) (tier : option SubmissionTier) : Value :=
  let envelope := [("schemaVersion", VNumber 1); ("userOperationHash", VString hash);
                   ("chainId", VNumber chain_id); ("entryPoint", VString entry_point);
                   ("userOperation", ser_user_operation operation)] in
  VObject match tier with
          | Some tier => obj_insert "submissionTier" (VString (tier_as_str tier)) envelope
          | None => envelope
          end.

Definition enqueue_and_mark (hash sender entry_point : string) (envelope : Value) (retry : bool) :
    Flow AdmissionOutcome :=
  reply ← ask (Enqueue envelope retry);
  match reply with
  | Enqueued =>
      reply ← ask (MarkAdmitted hash);
      match reply with
      | Marked true => mret (Accepted hash sender entry_point)
      | _ => settle StoreUnavailable
      end
  | _ => settle QueueUnavailable
  end.

(** What follows validation: the slot, the record, the queue. *)
Definition admit_prepared (prepared : PreparedUserOperation) (chain_id : Z) (entry_point : string)
    (entry_point_address : list byte) (tier : option SubmissionTier) (now_ms : Z) :
    Flow AdmissionOutcome :=
  let hash := prepared_user_operation_hash prepared entry_point_address chain_id in
  let slot := slot_new chain_id entry_point_address (prep_sender prepared) (prep_nonce prepared) in
  let claimant := {| nh_user_operation_hash := hash; nh_claimed_at_ms := now_ms |} in
  fresh_claim ← hold_nonce_slot slot claimant now_ms;
  created ← create_queued fresh_claim slot hash chain_id entry_point (prep_operation prepared);
  retry ← (if created : bool then mret false
           else recover_existing hash chain_id entry_point (prep_operation prepared));
  enqueue_and_mark hash (sender_hex prepared) entry_point
    (queue_envelope hash chain_id entry_point (prep_operation prepared) tier) retry.

Definition drive_admission (submit : SubmitRequest) : Flow AdmissionOutcome :=
  if negb (entry_point_is_supported (sub_entry_point submit)) then invalid "unsupported EntryPoint"
  else
    prepared ← lift_result (map_err Invalid (prepare (sub_user_operation submit)));
    _ ← validate_in_band_submission (sub_chain_id submit) (settlement_recipient submit)
          (prep_operation prepared);
    entry_point_address ←
      lift_result (map_err Invalid (parse_address_field (sub_entry_point submit) "entryPoint"));
    admit_prepared prepared (sub_chain_id submit) (sub_entry_point submit) entry_point_address
      (submission_tier submit) (now_ms submit).

(** [Ok(outcome) | Err(outcome) => outcome] *)
Definition admission_outcome (r : result AdmissionOutcome AdmissionOutcome) : AdmissionOutcome :=
  match r with Ok outcome | Err outcome => outcome end.

Definition admission_of (submit : SubmitRequest) :
    prog AdmissionOperation AdmissionResult AdmissionOutcome :=
  prog_bind (λ r, Ret (admission_outcome r)) (drive_admission submit).

(** ** The dialogue of an admission with its store *)

Notation Trace := (trace AdmissionOperation AdmissionResult).

(** What a program asks of the chain directory and of token contracts. *)
Definition asks_market (op : AdmissionOperation) : bool :=
  match op with LoadSettlementAssets | FetchTokenDecimals _ => true | _ => false end.

Definition enqueue_dialogue (hash sender entry_point : string) (envelope : Value) (retry : bool)
    (t : Trace) (r : result AdmissionOutcome AdmissionOutcome) : Prop :=
  ∃ a t', t = (Enqueue envelope retry, a) :: t' ∧
    match a with
    | Enqueued => ∃ b, t' = [(MarkAdmitted hash, b)] ∧
        r = match b with
            | Marked true => Ok (Accepted hash sender entry_point)
            | _ => Err StoreUnavailable
            end
    | _ => t' = [] ∧ r = Err QueueUnavailable
    end.

Lemma enqueue_and_mark_runs hash sender entry_point envelope retry t r :
  runs (enqueue_and_mark hash sender entry_point envelope retry) t r →
  enqueue_dialogue hash sender entry_point envelope retry t r.
Proof.
  unfold enqueue_and_mark, enqueue_dialogue. intros Hr.
  apply runs_ask_bind in Hr as (a & t' & -> & Hr). exists a, t'. split; [done|].
  destruct a; try by apply runs_settle in Hr.
  apply runs_ask_bind in Hr as (b & t'' & -> & Hr). exists b.
  destruct b as [| | | | | | | | | |[]|]; first [apply runs_settle in Hr as [-> ->] | apply runs_mret in Hr as [-> ->]]; done.
Qed.

Lemma release_runs fresh slot hash t r :
  runs (release_fresh_claim fresh slot hash) t r →
  r = Ok tt ∧ if fresh then ∃ a, t = [(ReleaseNonce slot hash, a)] else t = [].
Proof.
  unfold release_fresh_claim. destruct fresh; intros Hr.
  - apply runs_ask_bind in Hr as (a & t' & -> & Hr). apply runs_mret in Hr as [-> ->]. eauto.
  - by apply runs_mret in Hr as [-> ->].
Qed.

(** A failed creation: the claim is given back if this admission made it. *)
Definition gives_back (fresh : bool) (slot : NonceSlot) (hash : string) (t : Trace) : Prop :=
  if fresh then ∃ a, t = [(ReleaseNonce slot hash, a)] else t = [].

Lemma create_queued_runs fresh slot hash chain entry_point operation t r :
  runs (create_queued fresh slot hash chain entry_point operation) t r →
  ∃ a t', t = (CreateQueued {| q_user_operation_hash := hash; q_chain_id := chain;
                               q_entry_point := entry_point; q_user_operation := operation |}, a) :: t' ∧
    match a with
    | Created created => t' = [] ∧ r = Ok created
    | ResQueueUnavailable => gives_back fresh slot hash t' ∧ r = Err QueueUnavailable
    | _ => gives_back fresh slot hash t' ∧ r = Err StoreUnavailable
    end.
Proof.
  unfold create_queued. intros Hr. apply runs_ask_bind in Hr as (a & t' & -> & Hr).
  exists a, t'. split; [done|].
  assert (Hback : ∀ o, runs (_ ← release_fresh_claim fresh slot hash; settle o) t' r →
                       gives_back fresh slot hash t' ∧ r = Err o).
  { intros o Hb. apply runs_bind in Hb as [(e & Hb & _)|(t1 & [] & t2 & -> & H1 & H2)].
    - by apply release_runs in Hb as [? _].
    - apply release_runs in H1 as [_ H1]. apply runs_settle in H2 as [-> ->].
      by rewrite app_nil_r. }
  destruct a; try by apply Hback. by apply runs_mret in Hr.
Qed.

Lemma recover_existing_runs hash chain entry_point_ operation t r :
  runs (recover_existing hash chain entry_point_ operation) t r →
  ∃ a, t = [(LoadExisting hash, a)] ∧
    r = match a with
        | ResRecord (Some existing) =>
            match existing_admission_action existing chain entry_point_ operation with
            | Conflict => Err (OutConflict hash (chain_id existing) (entry_point existing))
            | AlreadyAdmitted => Err (AlreadyQueued hash)
            | RetryAppend => Ok true
            end
        | _ => Err StoreUnavailable
        end.
Proof.
  unfold recover_existing. intros Hr. apply runs_ask_bind in Hr as (a & t' & -> & Hr).
  exists a. destruct a as [| | | | | | |[existing|]| | | |]; try (by apply runs_settle in Hr as [-> ->]).
  destruct (existing_admission_action _ _ _ _);
    first [apply runs_settle in Hr as [-> ->] | apply runs_mret in Hr as [-> ->]]; done.
Qed.

(** ** Holding the slot *)

Section Hold.
Variables (slot : NonceSlot) (claimant : NonceHolder) (now_ms : Z).

Definition refusal (holder : NonceHolder) : AdmissionOutcome :=
  NonceInFlight (nh_user_operation_hash holder) (slot_sender slot) (nonce_quantity slot).

(** The rules of the dialogue, from the store's last answer on the slot. *)
Inductive hold_dialogue : AdmissionResult → Trace → result AdmissionOutcome bool → Prop :=
  | hold_won fresh : hold_dialogue (ResNonceClaim (Claimed fresh)) [] (Ok fresh)
  | hold_no_answer reply : hold_dialogue reply [] (Err StoreUnavailable)
  | hold_contested holder : hold_dialogue (ResNonceClaim (Held holder)) [] (Err (refusal holder))
  | hold_no_record holder a :
      hold_dialogue (ResNonceClaim (Held holder)) [(LoadExisting (nh_user_operation_hash holder), a)]
        (Err StoreUnavailable)
  | hold_live holder record :
      holder_state record holder now_ms = Live →
      hold_dialogue (ResNonceClaim (Held holder))
        [(LoadExisting (nh_user_operation_hash holder), ResRecord record)] (Err (refusal holder))
  | hold_take_over holder record a t r :
      holder_state record holder now_ms ≠ Live →
      hold_dialogue a t r →
      hold_dialogue (ResNonceClaim (Held holder))
        ((LoadExisting (nh_user_operation_hash holder), ResRecord record)
           :: (TakeOverNonce slot (nh_user_operation_hash holder) claimant, a) :: t) r.

Lemma hold_attempts_runs n reply t r :
  runs (hold_attempts n slot claimant now_ms reply) t r →
  hold_dialogue reply t r ∧ (length t ≤ 2 * (n - 1))%nat.
Proof.
  revert reply t. induction n as [|n IH]; intros reply t Hr; cbn [hold_attempts] in Hr.
  { apply runs_settle in Hr as [-> ->]. split; [constructor|done]. }
  destruct reply as [| | | |[fresh|holder]| | | | | | |];
    try (apply runs_settle in Hr as [-> ->]; split; [constructor|simpl; lia]).
  { apply runs_mret in Hr as [-> ->]. split; [constructor|simpl; lia]. }
  case_decide as Hn.
  { apply runs_settle in Hr as [-> ->]. split; [constructor|simpl; lia]. }
  apply runs_ask_bind in Hr as (a & t' & -> & Hr).
  destruct a as [| | | | | | |record| | | |];
    try (apply runs_settle in Hr as [-> ->]; split; [constructor|simpl; lia]).
  destruct (holder_state record holder now_ms) eqn:Hs.
  { apply runs_settle in Hr as [-> ->]. split; [by constructor|simpl; lia]. }
  all: apply runs_ask_bind in Hr as (b & t'' & -> & Hr); apply IH in Hr as [Hd Hl];
    (split; [constructor; congruence|simpl; lia]).
Qed.

Definition last_answer (reply : AdmissionResult) (t : Trace) : AdmissionResult :=
  List.last (map snd t) reply.

Lemma last_answer_cons2 reply x y t : last_answer reply (x :: y :: t) = last_answer y.2 t.
Proof.
  unfold last_answer. cbn [map]. rewrite (last_shift x.2). apply last_shift.
Qed.

(** The dialogue ends won exactly on an answer that the slot names the
    claimant. *)
Lemma hold_dialogue_won reply t fresh :
  hold_dialogue reply t (Ok fresh) → last_answer reply t = ResNonceClaim (Claimed fresh).
Proof.
  intros Hd. remember (Ok fresh) as r eqn:Hr. induction Hd; simplify_eq; [done|].
  rewrite last_answer_cons2. auto.
Qed.

(** The request the slot was won with: a claim or a takeover of this very
    slot, for this very claimant. *)
Definition claims_slot (op : AdmissionOperation) : Prop :=
  op = ClaimNonce slot claimant ∨ ∃ judged, op = TakeOverNonce slot judged claimant.

Lemma hold_dialogue_won_by reply t fresh ask :
  hold_dialogue reply t (Ok fresh) → claims_slot ask →
  ∃ last_ask, last ((ask, reply) :: t) = Some (last_ask, ResNonceClaim (Claimed fresh)) ∧
    claims_slot last_ask.
Proof.
  intros Hd. remember (Ok fresh) as r eqn:Hr. revert ask.
  induction Hd as [| | | | |holder record a t r Hs Hd IH]; intros ask Hask; simplify_eq.
  - by exists ask.
  - rewrite 2!last_cons_cons. apply IH; [done|]. right. by eexists.
Qed.

(** Every takeover names the holder the store answered last, loaded and
    judged not live. *)
Definition judged_before (reply : AdmissionResult) (pre : Trace) (judged : string) : Prop :=
  ∃ front holder record, pre = (front ++ [(LoadExisting judged, ResRecord record)])%list ∧
    last_answer reply front = ResNonceClaim (Held holder) ∧
    nh_user_operation_hash holder = judged ∧ holder_state record holder now_ms ≠ Live.

Lemma hold_dialogue_takeovers reply t r :
  hold_dialogue reply t r →
  ∀ pre slot' judged by_ a post, t = (pre ++ (TakeOverNonce slot' judged by_, a) :: post)%list →
    slot' = slot ∧ by_ = claimant ∧ judged_before reply pre judged.
Proof.
  induction 1 as [| | | | |holder record b t r Hs Hd IH]; intros pre slot' judged by_ a' post Ht.
  1-5: destruct pre as [|? [|? pre]]; simplify_eq/=.
  destruct pre as [|x [|y pre]]; simplify_eq/=.
  - split; [done|]. split; [done|]. exists [], holder, record. done.
  - destruct (IH pre slot' judged by_ a' post eq_refl) as (-> & -> & front & h & rec & -> & Hl & Hh & Hj).
    split; [done|]. split; [done|]. eexists (_ :: _ :: front), h, rec.
    split; [done|]. by rewrite last_answer_cons2.
Qed.

Definition hold_request (op : AdmissionOperation) : Prop :=
  match op with
  | TakeOverNonce s _ h => s = slot ∧ h = claimant
  | LoadExisting _ => True
  | _ => False
  end.

Lemma hold_dialogue_requests reply t r :
  hold_dialogue reply t r → Forall (λ x, hold_request x.1) t.
Proof. induction 1; repeat constructor; done. Qed.

(** A refusal names the holder the store answered last, and is given when
    that holder is live or when the slot changed hands under every attempt. *)
Lemma hold_dialogue_refused reply t e :
  hold_dialogue reply t (Err e) →
  e = StoreUnavailable ∨ ∃ holder, e = refusal holder ∧
    (last_answer reply t = ResNonceClaim (Held holder) ∨
     ∃ front record, t = (front ++ [(LoadExisting (nh_user_operation_hash holder), ResRecord record)])%list ∧
       last_answer reply front = ResNonceClaim (Held holder) ∧
       holder_state record holder now_ms = Live).
Proof.
  intros Hd. remember (Err e) as r eqn:Hr.
  induction Hd as [| | | |holder record Hs|holder record b t r Hs Hd IH]; simplify_eq; eauto.
  - right. exists holder. split; [done|]. right. exists [], record. done.
  - destruct (IH eq_refl) as [->|(h & -> & [Hl|(front & rec & -> & Hl & Hs')])]; [by left| |].
    + right. exists h. split; [done|]. left. by rewrite last_answer_cons2.
    + right. exists h. split; [done|]. right. eexists (_ :: _ :: front), rec.
      split; [done|]. by rewrite last_answer_cons2.
Qed.

End Hold.

Lemma hold_nonce_slot_runs slot claimant now_ms t r :
  runs (hold_nonce_slot slot claimant now_ms) t r →
  ∃ reply t', t = (ClaimNonce slot claimant, reply) :: t' ∧
    hold_dialogue slot claimant now_ms reply t' r ∧ (length t' ≤ 4)%nat.
Proof.
  unfold hold_nonce_slot. intros Hr. apply runs_ask_bind in Hr as (reply & t' & -> & Hr).
  apply hold_attempts_runs in Hr as [Hd Hl]. eauto.
Qed.

(** ** The record and the queue *)

Section AfterClaim.
Variables (hash sender : string) (slot : NonceSlot) (chain : Z) (entry_point_ : string)
  (operation : UserOperation) (tier : option SubmissionTier).

Definition queued : QueuedUserOperation :=
  {| q_user_operation_hash := hash; q_chain_id := chain; q_entry_point := entry_point_;
     q_user_operation := operation |}.
Definition envelope : Value := queue_envelope hash chain entry_point_ operation tier.

Definition recovered (a : AdmissionResult) : result AdmissionOutcome bool :=
  match a with
  | ResRecord (Some existing) =>
      match existing_admission_action existing chain entry_point_ operation with
      | Conflict => Err (OutConflict hash (chain_id existing) (entry_point existing))
      | AlreadyAdmitted => Err (AlreadyQueued hash)
      | RetryAppend => Ok true
      end
  | _ => Err StoreUnavailable
  end.

(** The dialogue once the slot is held. *)
Definition record_dialogue (fresh : bool) (t : Trace)
    (r : result AdmissionOutcome AdmissionOutcome) : Prop :=
  ∃ a t', t = (CreateQueued queued, a) :: t' ∧
    match a with
    | Created true => enqueue_dialogue hash sender entry_point_ envelope false t' r
    | Created false => ∃ b t'', t' = (LoadExisting hash, b) :: t'' ∧
        match recovered b with
        | Ok retry => enqueue_dialogue hash sender entry_point_ envelope retry t'' r
        | Err e => t'' = [] ∧ r = Err e
        end
    | ResQueueUnavailable => gives_back fresh slot hash t' ∧ r = Err QueueUnavailable
    | _ => gives_back fresh slot hash t' ∧ r = Err StoreUnavailable
    end.

Lemma after_claim_runs fresh t r :
  runs (created ← create_queued fresh slot hash chain entry_point_ operation;
        retry ← (if created : bool then mret false
                 else recover_existing hash chain entry_point_ operation);
        enqueue_and_mark hash sender entry_point_ envelope retry) t r →
  record_dialogue fresh t r.
Proof.
  intros Hr. apply runs_bind in Hr as [(e & Hc & ->)|(t1 & created & t2 & -> & Hc & Hr)];
    apply create_queued_runs in Hc as (a & t' & -> & Ha); fold queued.
  - exists a, t'. split; [done|]. destruct a; simpl in *; naive_solver.
  - assert (a = Created created ∧ t' = []) as [-> ->] by (destruct a; naive_solver).
    clear Ha. exists (Created created), t2. split; [done|].
    apply runs_bind in Hr as [(e & Hc & ->)|(t1 & retry & t3 & -> & Hc & Hr)]; destruct created.
    + by apply runs_mret in Hc as [_ ?].
    + apply recover_existing_runs in Hc as (b & -> & Hb). exists b, []. split; [done|].
      fold (recovered b) in Hb. by rewrite <-Hb.
    + apply runs_mret in Hc as [-> [= ->]]. by apply enqueue_and_mark_runs in Hr.
    + apply recover_existing_runs in Hc as (b & -> & Hb). exists b, t3. split; [done|].
      fold (recovered b) in Hb. rewrite <-Hb. by apply enqueue_and_mark_runs in Hr.
Qed.

End AfterClaim.

(** ** The whole program *)

Lemma any_stablecoin_pays_market paid t r :
  runs (any_stablecoin_pays paid) t r → Forall (λ x, asks_market x.1 = true) t.
Proof.
  revert t r. induction paid as [|[token amount] paid IH]; intros t r Hr; cbn [any_stablecoin_pays] in Hr.
  { apply runs_mret in Hr as [-> _]. constructor. }
  apply runs_ask_bind in Hr as (a & t' & -> & Hr). constructor; [done|].
  destruct a; try (apply runs_settle in Hr as [-> _]; constructor).
  apply runs_bind in Hr as [(e & Hm & ->)|(t1 & m & t2 & -> & Hm & Hr)];
    apply runs_lift in Hm as [-> _]; [constructor|]. simpl.
  case_decide; [apply runs_mret in Hr as [-> _]; constructor|]. by eapply IH.
Qed.

(** ** Payment

    What an operation's calldata pays the settlement recipient, in the terms
    of [Reimbursement.parse_reimbursement_exact]. *)

Definition allowed_tokens (stablecoins : list string) : gset Z :=
  list_to_set (omap (λ address, be_value <$> ok (parse_raw_address address)) stablecoins).

Definition paid_by (call_data recipient : string) (stablecoins : list string) : option Reimbursement :=
  recipient ← ok (parse_raw_address recipient);
  call_data ← parse_hex_bytes call_data;
  ok (parse_reimbursement call_data (be_value recipient) (allowed_tokens stablecoins)).

Lemma string_reimbursement_eq call_data recipient l :
  string_reimbursement call_data recipient l =
  match paid_by call_data recipient l with
  | Some r => {| sr_native := Z.min (native r) (umax 128);
                 sr_stablecoins := map (λ '(token, amount), (address_text token, Z.min amount (umax 128)))
                                     (btree_entries (stablecoins r)) |}
  | None => {| sr_native := 0; sr_stablecoins := [] |}
  end.
Proof.
  unfold string_reimbursement, paid_by. destruct (parse_raw_address recipient); simpl; [|done].
  destruct (parse_hex_bytes call_data); simpl; [|done].
  by destruct (parse_reimbursement _ _ _).
Qed.

Lemma btree_entries_elem (m : gmap Z Z) token amount : (token, amount) ∈ btree_entries m ↔ m !! token = Some amount.
Proof. unfold btree_entries. rewrite merge_sort_Permutation. apply elem_of_map_to_list. Qed.

Lemma minimum_u128_Ok decimals fraction m :
  minimum_u128 decimals fraction = Ok m →
  fraction ≤ decimals ∧ m = 10 ^ (decimals - fraction) ∧ fits 128 m.
Proof.
  unfold minimum_u128. intros Hm. inv_checked.
  destruct (minimum_amount _ _) as [m'|] eqn:E; simpl in *; simplify_eq.
  by apply minimum_amount_Ok in E as (? & -> & _).
Qed.

(** The fetched decimals of the tokens looked at show one of them paid its
    floor, or none of all of them did. *)
Definition decimals_answered (t : Trace) (token : string) (decimals : Z) : Prop :=
  (FetchTokenDecimals token, Decimals decimals) ∈ t.

Lemma any_stablecoin_pays_runs paid t r :
  runs (any_stablecoin_pays paid) t r →
  match r with
  | Ok true => ∃ token amount decimals, (token, amount) ∈ paid ∧ decimals_answered t token decimals ∧
                 MIN_STABLE_FRACTION_DECIMALS ≤ decimals ∧
                 10 ^ (decimals - MIN_STABLE_FRACTION_DECIMALS) ≤ amount
  | Ok false => ∀ token amount, (token, amount) ∈ paid → ∃ decimals,
                 decimals_answered t token decimals ∧ MIN_STABLE_FRACTION_DECIMALS ≤ decimals ∧
                 amount < 10 ^ (decimals - MIN_STABLE_FRACTION_DECIMALS) ≤ umax 128
  | Err e => e = EstimationUnavailable
  end.
Proof.
  revert t r. induction paid as [|[token amount] paid IH]; intros t r Hr; cbn [any_stablecoin_pays] in Hr.
  { apply runs_mret in Hr as [-> ->]. set_solver. }
  apply runs_ask_bind in Hr as (a & t' & -> & Hr).
  destruct a; try by apply runs_settle in Hr as [-> ->].
  apply runs_bind in Hr as [(e & Hm & ->)|(t1 & m & t2 & -> & Hm & Hr)];
    apply runs_lift in Hm as [-> Hm].
  { symmetry in Hm. unfold minimum_u128 in Hm. by apply ok_or_Err in Hm as [_ ->]. }
  symmetry in Hm. apply minimum_u128_Ok in Hm as (Hd & -> & Hf). simpl.
  case_decide as Hle.
  - apply runs_mret in Hr as [-> ->]. exists token, amount, decimals.
    unfold decimals_answered. set_solver.
  - specialize (IH _ _ Hr). unfold decimals_answered in *. destruct r as [[]|]; [| |done].
    + destruct IH as (tok & am & d & ? & ? & ?). exists tok, am, d. set_solver.
    + intros tok am [[= -> ->]|Hin]%elem_of_cons.
      * exists decimals. split; [set_solver|]. unfold fits, umax in *. lia.
      * destruct (IH tok am Hin) as (d & ? & ?). exists d. set_solver.
Qed.

Definition pays_floor (chain : Z) (call_data recipient : string) (t : Trace) : Prop :=
  if is_tempo_chain chain then
    ∃ r, paid_by call_data recipient [path_usd] = Some r ∧ 10 ^ 4 ≤ stable_of r PATH_USD
  else ∃ native_decimals l r,
    (LoadSettlementAssets, Assets native_decimals l) ∈ t ∧ paid_by call_data recipient l = Some r ∧
    ((6 ≤ native_decimals ∧ 10 ^ (native_decimals - 6) ≤ native r) ∨
     ∃ token amount decimals, token ∈ allowed_tokens l ∧ stablecoins r !! token = Some amount ∧
       decimals_answered t (address_text token) decimals ∧ 2 ≤ decimals ∧
       10 ^ (decimals - 2) ≤ amount).

Definition underpays (chain : Z) (call_data recipient : string) (t : Trace) : Prop :=
  if is_tempo_chain chain then
    ∀ r, paid_by call_data recipient [path_usd] = Some r → stable_of r PATH_USD < 10 ^ 4
  else ∃ native_decimals l,
    (LoadSettlementAssets, Assets native_decimals l) ∈ t ∧ 6 ≤ native_decimals ∧
    ∀ r, paid_by call_data recipient l = Some r →
      native r < 10 ^ (native_decimals - 6) ∧
      ∀ token amount, stablecoins r !! token = Some amount → ∃ decimals,
        decimals_answered t (address_text token) decimals ∧ amount < 10 ^ (decimals - 2).

Lemma parse_raw_address_text (bs : list byte) :
  length bs = 20%nat → parse_raw_address ("0x" +:+ hex_encode bs) = Ok bs.
Proof.
  intros Hl. unfold parse_raw_address. rewrite str_strip_prefix_app. cbn [ok_or mbind result_mbind].
  rewrite hex_encode_length, Hl. cbn [negb bool_decide]. rewrite bool_decide_eq_true_2 by done.
  rewrite parse_hex_bytes_encode. cbn. by rewrite decide_True.
Qed.

Lemma allowed_path_usd : allowed_tokens [path_usd] = {[ PATH_USD ]}.
Proof.
  unfold allowed_tokens, path_usd, address_text. cbn [omap list_omap].
  rewrite parse_raw_address_text by done. cbn [ok fmap option_fmap option_map].
  rewrite (be_value_bytes_fits 20) by (vm_compute; intuition congruence). set_solver.
Qed.

Lemma sr_get_path_usd r :
  allowlisted {[ PATH_USD ]} r →
  default 0 (sr_get path_usd (map (λ '(token, amount), (address_text token, Z.min amount (umax 128)))
                                (btree_entries (stablecoins r)))) =
  Z.min (stable_of r PATH_USD) (umax 128).
Proof.
  intros Ha. unfold sr_get, stable_of.
  destruct (List.find _ _) as [[key v]|] eqn:Hf; simpl.
  - apply find_some in Hf as [Hin _]. apply list_elem_of_In, list_elem_of_fmap in Hin as ([tok am] & [= -> ->] & Hin).
    apply btree_entries_elem in Hin. assert (tok = PATH_USD) as -> by (apply (elem_of_singleton (C := gset Z)), Ha; eauto).
    by rewrite Hin.
  - destruct (stablecoins r !! PATH_USD) as [am|] eqn:Hl; simpl; [|done].
    pose proof (find_none _ _ Hf (path_usd, Z.min am (umax 128))) as Hn. cbn [fst] in Hn.
    rewrite String.eqb_refl in Hn. discriminate Hn.
    apply list_elem_of_In, list_elem_of_fmap. exists (PATH_USD, am). split; [done|].
    by apply btree_entries_elem.
Qed.

Lemma paid_by_allowlisted call_data recipient l r :
  paid_by call_data recipient l = Some r → allowlisted (allowed_tokens l) r.
Proof.
  unfold paid_by. intros Hp. inv_checked.
  destruct (parse_reimbursement _ _ _) eqn:E; simpl in *; simplify_eq.
  by eapply parse_reimbursement_allowlisted.
Qed.

(** The refusals validation settles with. *)
Definition refused_early (e : AdmissionOutcome) : bool :=
  match e with
  | Invalid _ | OutRejected _ | EstimationUnavailable | BackendUnavailable => true
  | _ => false
  end.

Lemma validate_tempo_runs chain call_data recipient fee_token t r :
  is_tempo_chain chain = true →
  runs (validate_tempo_payment call_data recipient fee_token) t r →
  t = [] ∧ (∀ e, r = Err e → refused_early e = true) ∧
  (r = Ok tt → pays_floor chain call_data recipient t) ∧
  (∀ m, r = Err (OutRejected m) → underpays chain call_data recipient t).
Proof.
  intros Hc. unfold validate_tempo_payment, pays_floor, underpays. rewrite Hc.
  destruct (match fee_token with Some _ => _ | None => _ end).
  { intros Hr. apply runs_settle in Hr as [-> ->]. split_and!; [done|by intros e [= <-]|done|done]. }
  rewrite string_reimbursement_eq.
  destruct (paid_by call_data recipient [path_usd]) as [rb|] eqn:Hp; cbn [sr_stablecoins].
  - apply paid_by_allowlisted in Hp as Ha. rewrite allowed_path_usd in Ha.
    rewrite sr_get_path_usd by done. change (10 ^ (PATH_USD_DECIMALS - 2)) with (10 ^ 4).
    case_decide as Hd; intros Hr; [apply runs_mret in Hr as [-> ->]|apply runs_settle in Hr as [-> ->]].
    + split; [done|]. split; [done|]. split; [|done]. intros _. exists rb. split; [done|]. lia.
    + split; [done|]. split; [by intros e [= <-]|]. split; [done|]. intros m _ r' [= <-]. change (umax 128) with (2 ^ 128 - 1) in Hd. lia.
  - cbn [sr_get List.find fmap option_fmap option_map default].
    rewrite decide_False by (vm_compute; intuition congruence). intros Hr.
    apply runs_settle in Hr as [-> ->]. split_and!; [done|by intros e [= <-]|done|done].
Qed.

Lemma paid_entries call_data recipient l r token_text amount :
  paid_by call_data recipient l = Some r →
  (token_text, amount) ∈ map (λ '(token, amount), (address_text token, Z.min amount (umax 128)))
                           (btree_entries (stablecoins r)) ↔
  ∃ token full, token_text = address_text token ∧ amount = Z.min full (umax 128) ∧
    token ∈ allowed_tokens l ∧ stablecoins r !! token = Some full.
Proof.
  intros Hp%paid_by_allowlisted. rewrite list_elem_of_fmap. split.
  - intros ([token full] & [= -> ->] & Hin%btree_entries_elem).
    exists token, full. split_and!; [done|done|apply Hp; eauto|done].
  - intros (token & full & -> & -> & _ & Hl). exists (token, full). split; [done|].
    by apply btree_entries_elem.
Qed.

Lemma validate_market_runs chain call_data recipient t r :
  is_tempo_chain chain = false →
  runs (validate_market_payment call_data recipient) t r →
  Forall (λ x, asks_market x.1 = true) t ∧ (∀ e, r = Err e → refused_early e = true) ∧
  (r = Ok tt → pays_floor chain call_data recipient t) ∧
  (∀ m, r = Err (OutRejected m) → underpays chain call_data recipient t).
Proof.
  intros Hc. unfold validate_market_payment, pays_floor, underpays. rewrite Hc. intros Hr.
  apply runs_ask_bind in Hr as (a & t' & -> & Hr).
  destruct a as [nd l| | | | | | | | | | |];
    try (apply runs_settle in Hr as [-> ->]; split_and!; [by repeat constructor|by intros e [= <-]|done|done]).
  apply runs_bind in Hr as [(e & Hm & ->)|(t1 & m & t2 & -> & Hm & Hr)];
    apply runs_lift in Hm as [-> Hm]; symmetry in Hm.
  { unfold minimum_u128 in Hm. apply ok_or_Err in Hm as [_ ->].
    split_and!; [by repeat constructor|by intros e [= <-]|done|done]. }
  apply minimum_u128_Ok in Hm as (Hd & -> & Hf). simpl in Hr |- *.
  change MIN_NATIVE_FRACTION_DECIMALS with 6 in *.
  assert (Hmax : 10 ^ (nd - 6) ≤ umax 128) by (unfold fits, umax in *; lia).
  rewrite string_reimbursement_eq in Hr. set (p := paid_by call_data recipient l) in *.
  case_decide as Hn.
  { apply runs_mret in Hr as [-> ->]. split; [by repeat constructor|]. split; [done|]. split; [|done]. intros _.
    destruct p as [rb|] eqn:Hp; simpl in Hn.
    - exists nd, l, rb. split; [by left|]. split; [done|]. left. lia.
    - pose proof (Z.pow_pos_nonneg 10 (nd - 6)). lia. }
  apply runs_bind in Hr as [(e & Hs & ->)|(t3 & paid & t4 & -> & Hs & Hr)].
  { apply any_stablecoin_pays_market in Hs as Hk. apply any_stablecoin_pays_runs in Hs as ->.
    split_and!; [by constructor|by intros e [= <-]|done|done]. }
  apply any_stablecoin_pays_market in Hs as Hk. apply any_stablecoin_pays_runs in Hs.
  change MIN_STABLE_FRACTION_DECIMALS with 2 in *. unfold decimals_answered in *.
  destruct paid.
  - apply runs_mret in Hr as [-> ->]. rewrite app_nil_r. split; [by constructor|].
    split; [done|]. split; [|done]. intros _. destruct Hs as (tok & am & d & Hin & ? & ? & ?).
    destruct p as [rb|] eqn:Hp; simpl in Hin; [|by apply elem_of_nil in Hin].
    apply (paid_entries _ _ _ _ _ _ Hp) in Hin as (token & full & -> & -> & Hal & Hl).
    exists nd, l, rb. split; [by left|]. split; [done|]. right. exists token, full, d.
    split_and!; [done|done|by right|done|lia].
  - apply runs_settle in Hr as [-> ->]. rewrite app_nil_r. split; [by constructor|].
    split; [by intros e [= <-]|]. split; [done|]. intros m' _. exists nd, l. split; [by left|]. split; [done|].
    intros rb Hp. fold p in Hp. rewrite Hp in Hn, Hs. simpl in Hn. split; [lia|].
    intros token full Hl.
    destruct (Hs (address_text token) (Z.min full (umax 128))) as (d & ? & ? & ?).
    { apply (paid_entries _ _ _ _ _ _ Hp). exists token, full.
      split_and!; [done|done|by eapply paid_by_allowlisted; eauto|done]. }
    exists d. split; [by right|]. lia.
Qed.

(** Validation asks the market only; it passes an operation that names a
    recipient to pay and pays it, and rejects one that underpays. *)
Definition validated (chain : Z) (recipient : option string) (operation : UserOperation) (t : Trace)
    (r : result AdmissionOutcome ()) : Prop :=
  Forall (λ x, asks_market x.1 = true) t ∧ (∀ e, r = Err e → refused_early e = true) ∧
  (r = Ok tt → ∃ op to, operation = V0_7 op ∧ recipient = Some to ∧
                 pays_floor chain (Task.call_data op) to t) ∧
  (∀ m, r = Err (OutRejected m) → ∃ op to, operation = V0_7 op ∧ recipient = Some to ∧
                 underpays chain (Task.call_data op) to t).

Lemma validated_err chain recipient operation e :
  refused_early e = true → (∀ m, e ≠ OutRejected m) → validated chain recipient operation [] (Err e).
Proof. intros He Hm. split_and!; [constructor|by intros e' [= <-]|done|]. intros m [= ->]. by destruct (Hm m). Qed.

Lemma validate_runs chain recipient operation t r :
  runs (validate_in_band_submission chain recipient operation) t r →
  validated chain recipient operation t r.
Proof.
  unfold validate_in_band_submission. destruct operation as [op|op]; intros Hr;
    [|apply runs_settle in Hr as [-> ->]; by apply validated_err].
  assert (Hinv : ∀ (x : result string Z) err, map_err Invalid x = Err err → ∃ s, err = Invalid s)
    by (intros [] err; simpl; naive_solver).
  apply runs_bind in Hr as [(e & Hm & ->)|(t1 & m & t2 & -> & Hm & Hr)];
    apply runs_lift in Hm as [-> Hm]; symmetry in Hm.
  { apply Hinv in Hm as [s ->]. by apply validated_err. }
  apply runs_bind in Hr as [(e & Hz & ->)|(t3 & zero & t4 & -> & Hz & Hr)].
  { case_decide; [by apply runs_mret in Hz as [_ ?]|].
    apply runs_bind in Hz as [(e' & Hz & [= <-])|(t5 & m' & t6 & -> & Hz & Hy)].
    - apply runs_lift in Hz as [-> Hz]. symmetry in Hz. apply Hinv in Hz as [s ->]. by apply validated_err.
    - by apply runs_mret in Hy as [_ ?]. }
  assert (t3 = []) as ->.
  { case_decide; [by apply runs_mret in Hz as [-> _]|].
    apply runs_bind in Hz as [(e' & _ & ?)|(t5 & m' & t6 & -> & Hz & Hy)]; [done|].
    apply runs_lift in Hz as [-> _]. by apply runs_mret in Hy as [-> _]. }
  destruct zero; cbn [negb] in Hr; [|apply runs_settle in Hr as [-> ->]; by apply validated_err].
  destruct recipient as [to|]; [|apply runs_settle in Hr as [-> ->]; by apply validated_err].
  unfold validated. destruct (is_tempo_chain chain) eqn:Hc.
  - apply (validate_tempo_runs _ _ _ _ _ _ Hc) in Hr as (-> & ? & Ho & Hj). naive_solver.
  - apply (validate_market_runs _ _ _ _ _ Hc) in Hr as (? & ? & Ho & Hj). naive_solver.
Qed.

Lemma prepare_operation o p : prepare o = Ok p → prep_operation p = o ∧ ∃ op, o = V0_7 op.
Proof.
  destruct o as [op|op]; simpl; [|done]. intros Hp. split; [|eauto].
  unfold from_v0_7 in Hp. destruct (eip7702_auth op); [done|].
  apply result_bind_Ok in Hp as (? & _ & Hp). apply result_bind_Ok in Hp as (? & _ & Hp).
  apply result_bind_Ok in Hp as (? & _ & Hp). apply result_bind_Ok in Hp as (? & _ & Hp).
  case_decide; [done|]. apply result_bind_Ok in Hp as (? & _ & Hp).
  apply result_bind_Ok in Hp as (? & _ & Hp). apply result_bind_Ok in Hp as (? & _ & Hp).
  apply result_bind_Ok in Hp as (? & _ & Hp). apply result_bind_Ok in Hp as (? & _ & Hp).
  apply result_bind_Ok in Hp as (? & _ & Hp). case_decide; [done|].
  by apply result_bind_Ok in Hp as (? & _ & [= <-]).
Qed.

Lemma pays_floor_mono chain call_data to t t' :
  pays_floor chain call_data to t → t ⊆ t' → pays_floor chain call_data to t'.
Proof.
  unfold pays_floor, decimals_answered. destruct (is_tempo_chain chain); [done|].
  intros (nd & l & r & Ha & Hp & Hor) Hsub. exists nd, l, r. split; [auto|]. split; [done|].
  destruct Hor as [?|(token & amount & d & ? & ? & ? & ?)]; [by left|]. right.
  exists token, amount, d. eauto.
Qed.

(** The program is its validation, then the dialogue about the slot, then the
    one about the record and the queue. *)
Definition hash_of (prepared : PreparedUserOperation) (epa : list byte) (submit : SubmitRequest) : string :=
  prepared_user_operation_hash prepared epa (sub_chain_id submit).
Definition slot_of (prepared : PreparedUserOperation) (epa : list byte) (submit : SubmitRequest) : NonceSlot :=
  slot_new (sub_chain_id submit) epa (prep_sender prepared) (prep_nonce prepared).
Definition claimant_of (prepared : PreparedUserOperation) (epa : list byte) (submit : SubmitRequest) :
    NonceHolder :=
  {| nh_user_operation_hash := hash_of prepared epa submit; nh_claimed_at_ms := now_ms submit |}.
Definition after_hold (prepared : PreparedUserOperation) (epa : list byte) (submit : SubmitRequest) :
    bool → Trace → result AdmissionOutcome AdmissionOutcome → Prop :=
  record_dialogue (hash_of prepared epa submit) (sender_hex prepared) (slot_of prepared epa submit)
    (sub_chain_id submit) (sub_entry_point submit) (prep_operation prepared) (submission_tier submit).

Lemma drive_admission_runs submit t r :
  runs (drive_admission submit) t r →
  (Forall (λ x, asks_market x.1 = true) t ∧ ∃ e, r = Err e ∧ refused_early e = true ∧
     (∀ m, e = OutRejected m → ∃ op to, sub_user_operation submit = V0_7 op ∧
        settlement_recipient submit = Some to ∧
        underpays (sub_chain_id submit) (Task.call_data op) to t)) ∨
  ∃ prepared epa op to tv reply th rh tr,
    prepare (sub_user_operation submit) = Ok prepared ∧
    parse_address_field (sub_entry_point submit) "entryPoint" = Ok epa ∧
    sub_user_operation submit = V0_7 op ∧ settlement_recipient submit = Some to ∧
    t = tv ++ (ClaimNonce (slot_of prepared epa submit) (claimant_of prepared epa submit), reply) :: th ++ tr ∧
    Forall (λ x, asks_market x.1 = true) tv ∧
    pays_floor (sub_chain_id submit) (Task.call_data op) to tv ∧
    hold_dialogue (slot_of prepared epa submit) (claimant_of prepared epa submit) (now_ms submit) reply th rh ∧
    (length th ≤ 4)%nat ∧
    match rh with
    | Err e => tr = [] ∧ r = Err e
    | Ok fresh => after_hold prepared epa submit fresh tr r
    end.
Proof.
  unfold drive_admission. intros Hr.
  assert (Hinv : ∀ A (x : result string A) err, map_err Invalid x = Err err → ∃ s, err = Invalid s)
    by (intros A [] err; simpl; naive_solver).
  destruct (entry_point_is_supported _); cbn [negb] in Hr; [|apply runs_settle in Hr as [-> ->]; left; split; [constructor|by eexists]].
  apply runs_bind in Hr as [(e & Hp & ->)|(t1 & prepared & t2 & -> & Hp & Hr)];
    apply runs_lift in Hp as [-> Hp]; symmetry in Hp.
  { apply Hinv in Hp as [s ->]. left. split; [constructor|by eexists]. }
  apply map_err_Ok in Hp. apply prepare_operation in Hp as Hpo. destruct Hpo as [Hpo _].
  apply runs_bind in Hr as [(e & Hv & ->)|(tv & [] & t3 & -> & Hv & Hr)];
    apply validate_runs in Hv as (Hk & Hearly & Hok & Hrej); rewrite Hpo in Hok, Hrej.
  { left. split; [done|]. exists e. split; [done|]. split; [auto|]. intros m ->. by apply (Hrej m). }
  apply runs_bind in Hr as [(e & He & ->)|(t4 & epa & t5 & -> & He & Hr)];
    apply runs_lift in He as [-> He]; symmetry in He.
  { apply Hinv in He as [s ->]. left. rewrite app_nil_r. split; [done|by eexists]. }
  apply map_err_Ok in He. destruct (Hok eq_refl) as (op & to & Hop & Hto & Hpay). right.
  unfold admit_prepared in Hr.
  apply runs_bind in Hr as [(e & Hh & ->)|(t6 & fresh & t7 & -> & Hh & Hr)];
    apply hold_nonce_slot_runs in Hh as (reply & th & -> & Hd & Hl).
  - exists prepared, epa, op, to, tv, reply, th, (Err e), []. rewrite app_nil_r. split_and!; done.
  - apply after_claim_runs in Hr. rewrite Hpo in Hr.
    exists prepared, epa, op, to, tv, reply, th, (Ok fresh), t7. unfold after_hold. rewrite Hpo.
    split_and!; done.
Qed.

(** ** Claims *)

Lemma admit_runs submit t o :
  runs (admission_of submit) t o → ∃ r, runs (drive_admission submit) t r ∧ o = admission_outcome r.
Proof.
  unfold admission_of. intros (t1 & r & t2 & -> & Hd & Ho)%runs_prog_bind.
  apply runs_Ret in Ho as [-> ->]. rewrite app_nil_r. eauto.
Qed.

(** The kinds of requests of the three parts. *)
Inductive part : Type := MarketPart | SlotPart | RecordPart.
Definition part_of (op : AdmissionOperation) (p : part) : bool :=
  match op, p with
  | (LoadSettlementAssets | FetchTokenDecimals _), MarketPart => true
  | (ClaimNonce _ _ | TakeOverNonce _ _ _ | LoadExisting _), SlotPart => true
  | (CreateQueued _ | LoadExisting _ | Enqueue _ _ | MarkAdmitted _ | ReleaseNonce _ _), RecordPart => true
  | _, _ => false
  end.
Definition all_of (p : part) (t : Trace) : Prop := Forall (λ x, part_of x.1 p = true) t.

Lemma market_part t : Forall (λ x : AdmissionOperation * AdmissionResult, asks_market x.1 = true) t → all_of MarketPart t.
Proof. intros Hm. eapply Forall_impl; [exact Hm|]. by intros [[] ?]. Qed.

Lemma hold_part slot claimant now reply t r : hold_dialogue slot claimant now reply t r → all_of SlotPart t.
Proof.
  intros Hd%hold_dialogue_requests. eapply Forall_impl; [exact Hd|]. by intros [[] ?].
Qed.

Lemma enqueue_part hash sender ep env retry t r :
  enqueue_dialogue hash sender ep env retry t r → all_of RecordPart t.
Proof.
  intros (a & t' & -> & Ha). constructor; [done|].
  destruct a; try (by destruct Ha as [-> _]; constructor). destruct Ha as (b & -> & _). by repeat constructor.
Qed.

Lemma gives_back_part fresh slot hash t : gives_back fresh slot hash t → all_of RecordPart t.
Proof. destruct fresh; simpl; [intros [a ->]|intros ->]; by repeat constructor. Qed.

Lemma record_part hash sender slot chain ep op tier fresh t r :
  record_dialogue hash sender slot chain ep op tier fresh t r → all_of RecordPart t.
Proof.
  intros (a & t' & -> & Ha). constructor; [done|].
  destruct a as [| | | | | |[]| | | | |]; try (by destruct Ha as [Ha%gives_back_part _]).
  - by eapply enqueue_part.
  - destruct Ha as (b & t'' & -> & Hb). constructor; [done|].
    destruct (recovered _ _ _ _ b); [by eapply enqueue_part|]. by destruct Hb as [-> _]; constructor.
Qed.

Lemma enqueue_accepted hash sender ep env retry t r h s e :
  enqueue_dialogue hash sender ep env retry t r → admission_outcome r = Accepted h s e →
  h = hash ∧ e = ep ∧ t = [(Enqueue env retry, Enqueued); (MarkAdmitted hash, Marked true)].
Proof.
  intros (a & t' & -> & Ha) Ho. destruct a; try by destruct Ha as [_ ->].
  destruct Ha as (b & -> & ->). destruct b as [| | | | | | | | | |[]|]; by simplify_eq/=.
Qed.

Lemma record_accepted hash sender slot chain ep op tier fresh t r h s e :
  record_dialogue hash sender slot chain ep op tier fresh t r → admission_outcome r = Accepted h s e →
  h = hash ∧ e = ep ∧ ∃ created mid retry,
    t = (CreateQueued (queued hash chain ep op), Created created) :: mid ++
        [(Enqueue (envelope hash chain ep op tier) retry, Enqueued); (MarkAdmitted hash, Marked true)] ∧
    if created : bool then mid = [] ∧ retry = false
    else retry = true ∧ ∃ existing, mid = [(LoadExisting hash, ResRecord (Some existing))] ∧
           existing_admission_action existing chain ep op = RetryAppend.
Proof.
  intros (a & t' & -> & Ha) Ho.
  destruct a as [| | | | | |[]| | | | |]; try by destruct Ha as [_ ->].
  - destruct (enqueue_accepted _ _ _ _ _ _ _ _ _ _ Ha Ho) as (-> & -> & ->).
    split_and!; [done|done|]. by exists true, [], false.
  - destruct Ha as (b & t'' & -> & Hb). unfold recovered in Hb.
    destruct b as [| | | | | | |[existing|]| | | |]; try (by destruct Hb as [_ ->]).
    destruct (existing_admission_action _ _ _ _) eqn:Hx; try (by destruct Hb as [_ ->]).
    destruct (enqueue_accepted _ _ _ _ _ _ _ _ _ _ Hb Ho) as (-> & -> & ->).
    split_and!; [done|done|]. exists false, [(LoadExisting hash, ResRecord (Some existing))], true.
    split; [done|]. eauto.
Qed.

(** The last answer of a non-empty dialogue. *)
Lemma last_answer_last reply op (t : Trace) : last ((op, reply) :: t).*2 = Some (last_answer reply t).
Proof.
  unfold last_answer. rewrite fmap_cons. cbn [snd]. generalize reply.
  induction t as [|[o a] t IH]; intros x; [done|]. cbn [fmap list_fmap map snd].
  rewrite last_shift. rewrite <-IH. done.
Qed.

(** What happens before the record is asked for. *)
Definition before_record (t : Trace) : Prop :=
  Forall (λ x, part_of x.1 MarketPart || part_of x.1 SlotPart) t.

(** The market questions, then the dialogue about the slot. *)
Definition held_by (slot : NonceSlot) (claimant : NonceHolder) (now : Z) (before : Trace)
    (r : result AdmissionOutcome bool) : Prop :=
  ∃ tv reply th, before = tv ++ (ClaimNonce slot claimant, reply) :: th ∧ all_of MarketPart tv ∧
    hold_dialogue slot claimant now reply th r ∧ (length th ≤ 4)%nat.

Lemma held_before slot claimant now before r : held_by slot claimant now before r → before_record before.
Proof.
  intros (tv & reply & th & -> & Hk & Hd & _). apply hold_part in Hd.
  apply Forall_app. split; [|constructor; [done|]].
  - eapply Forall_impl; [exact Hk|]. by intros x ->.
  - eapply Forall_impl; [exact Hd|]. intros x ->. by rewrite orb_true_r.
Qed.

Lemma held_won slot claimant now before fresh :
  held_by slot claimant now before (Ok fresh) → last before.*2 = Some (ResNonceClaim (Claimed fresh)).
Proof.
  intros (tv & reply & th & -> & _ & Hd & _). rewrite fmap_app, last_app, last_answer_last. f_equal.
  by eapply hold_dialogue_won.
Qed.

Lemma held_won_by slot claimant now before fresh :
  held_by slot claimant now before (Ok fresh) →
  ∃ ask, last before = Some (ask, ResNonceClaim (Claimed fresh)) ∧ claims_slot slot claimant ask.
Proof.
  intros (tv & reply & th & -> & _ & Hd & _).
  destruct (hold_dialogue_won_by _ _ _ _ _ _ (ClaimNonce slot claimant) Hd) as (ask & Hl & Hc); [by left|].
  exists ask. split; [|done]. by rewrite last_app, Hl.
Qed.

(** An admission that reaches the slot. *)
Record admitting (submit : SubmitRequest) (prepared : PreparedUserOperation) (epa : list byte)
    (op : UserOperationV0_7) (to : string) : Prop := {
  adm_prepared : prepare (sub_user_operation submit) = Ok prepared;
  adm_entry_point : parse_address_field (sub_entry_point submit) "entryPoint" = Ok epa;
  adm_operation : sub_user_operation submit = V0_7 op;
  adm_recipient : settlement_recipient submit = Some to }.

Definition enters_queue (submit : SubmitRequest) (prepared : PreparedUserOperation) (epa : list byte)
    (op : UserOperationV0_7) : bool → Trace → result AdmissionOutcome AdmissionOutcome → Prop :=
  record_dialogue (hash_of prepared epa submit) (sender_hex prepared) (slot_of prepared epa submit)
    (sub_chain_id submit) (sub_entry_point submit) (V0_7 op) (submission_tier submit).

Lemma admit_decomposes submit t o :
  runs (admission_of submit) t o →
  (all_of MarketPart t ∧ refused_early o = true ∧
   ∀ m, o = OutRejected m → ∃ op to, sub_user_operation submit = V0_7 op ∧
     settlement_recipient submit = Some to ∧ underpays (sub_chain_id submit) (Task.call_data op) to t) ∨
  ∃ prepared epa op to before rh tr, admitting submit prepared epa op to ∧ t = before ++ tr ∧
    pays_floor (sub_chain_id submit) (Task.call_data op) to before ∧
    held_by (slot_of prepared epa submit) (claimant_of prepared epa submit) (now_ms submit) before rh ∧
    match rh with
    | Err e => tr = [] ∧ o = e
    | Ok fresh => ∃ r, enters_queue submit prepared epa op fresh tr r ∧ o = admission_outcome r
    end.
Proof.
  intros Hr. apply admit_runs in Hr as (r & Hr & Ho).
  destruct (drive_admission_runs _ _ _ Hr) as
    [(Hk & e & -> & He & Hrej)|(prepared & epa & op & to & tv & reply & th & rh & tr &
       Hp & Hepa & Hop & Hto & -> & Hk & Hpay & Hd & Hl & Hrest)]; [left|right].
  { simpl in Ho. subst o. apply market_part in Hk. done. }
  exists prepared, epa, op, to,
    (tv ++ (ClaimNonce (slot_of prepared epa submit) (claimant_of prepared epa submit), reply) :: th), rh, tr.
  split; [done|]. split; [by rewrite <-app_assoc|].
  split; [eapply pays_floor_mono; [exact Hpay|]; set_solver|].
  split. { exists tv, reply, th. split_and!; [done|by apply market_part|done|done]. }
  destruct rh as [fresh|e]; [|by destruct Hrest as [-> ->]].
  apply prepare_operation in Hp as Hpo. destruct Hpo as [Hpo _].
  unfold after_hold in Hrest. rewrite Hpo, Hop in Hrest. by exists r.
Qed.

Lemma accepted_located submit t hash sender ep :
  runs (admission_of submit) t (Accepted hash sender ep) →
  ∃ prepared epa op to before mid retry created fresh,
    admitting submit prepared epa op to ∧ hash = hash_of prepared epa submit ∧
    ep = sub_entry_point submit ∧
    pays_floor (sub_chain_id submit) (Task.call_data op) to before ∧
    before_record before ∧
    (let slot := slot_of prepared epa submit in
     let claimant := claimant_of prepared epa submit in
     held_by slot claimant (now_ms submit) before (Ok fresh) ∧
     ∃ ask, last before = Some (ask, ResNonceClaim (Claimed fresh)) ∧
       (ask = ClaimNonce slot claimant ∨ ∃ judged, ask = TakeOverNonce slot judged claimant)) ∧
    t = before ++ (CreateQueued (queued hash (sub_chain_id submit) ep (V0_7 op)), Created created) :: mid ++
        [(Enqueue (envelope hash (sub_chain_id submit) ep (V0_7 op) (submission_tier submit)) retry, Enqueued);
         (MarkAdmitted hash, Marked true)] ∧
    if created : bool then mid = [] ∧ retry = false
    else retry = true ∧ ∃ existing, mid = [(LoadExisting hash, ResRecord (Some existing))] ∧
           existing_admission_action existing (sub_chain_id submit) ep (V0_7 op) = RetryAppend.
Proof.
  intros Hr. destruct (admit_decomposes _ _ _ Hr) as
    [(_ & He & _)|(prepared & epa & op & to & before & rh & tr & Hadm & -> & Hpay & Hheld & Hrest)]; [done|].
  destruct rh as [fresh|e].
  - destruct Hrest as (r & Hrec & Ho). symmetry in Ho.
    destruct (record_accepted _ _ _ _ _ _ _ _ _ _ _ _ _ Hrec Ho) as (-> & -> & created & mid & retry & -> & Hc).
    exists prepared, epa, op, to, before, mid, retry, created, fresh.
    apply held_won_by in Hheld as Hw. apply held_before in Hheld as Hb. done.
  - destruct Hrest as [_ <-]. destruct Hheld as (? & ? & ? & _ & _ & Hd & _).
    by apply hold_dialogue_refused in Hd as [?|(? & ? & _)].
Qed.

(** C32: An accepted operation was paid for, held, recorded, queued and
    marked, in that order.  For every sequence of shell answers: when an
    admission settles [Accepted], its calldata pays the settlement recipient
    the floor of some asset; the last request before the record was a claim or
    a takeover of this operation's own slot (its chain, entry point, sender
    and nonce) for this operation's own hash and time, answered [Claimed],
    at the end of the dialogue about that slot; then the record was created or
    found unadmitted and of this very operation; then exactly its envelope was
    appended, as a retry exactly when the record already existed; then the
    record was marked admitted; and nothing else was asked. *)
Theorem accepted_is_recorded_then_queued submit t hash sender ep :
  runs (admission_of submit) t (Accepted hash sender ep) →
  ∃ prepared epa op to before mid retry created fresh,
    admitting submit prepared epa op to ∧ hash = hash_of prepared epa submit ∧
    ep = sub_entry_point submit ∧
    pays_floor (sub_chain_id submit) (Task.call_data op) to before ∧
    before_record before ∧
    (let slot := slot_of prepared epa submit in
     let claimant := claimant_of prepared epa submit in
     held_by slot claimant (now_ms submit) before (Ok fresh) ∧
     ∃ ask, last before = Some (ask, ResNonceClaim (Claimed fresh)) ∧
       (ask = ClaimNonce slot claimant ∨ ∃ judged, ask = TakeOverNonce slot judged claimant)) ∧
    t = before ++ (CreateQueued (queued hash (sub_chain_id submit) ep (V0_7 op)), Created created) :: mid ++
        [(Enqueue (envelope hash (sub_chain_id submit) ep (V0_7 op) (submission_tier submit)) retry, Enqueued);
         (MarkAdmitted hash, Marked true)] ∧
    if created : bool then mid = [] ∧ retry = false
    else retry = true ∧ ∃ existing, mid = [(LoadExisting hash, ResRecord (Some existing))] ∧
           existing_admission_action existing (sub_chain_id submit) ep (V0_7 op) = RetryAppend.
Proof. apply accepted_located. Qed.

(** What the queue's answer [a] leaves to do, and the outcome. *)
Definition after_enqueue (hash sender ep : string) (a : AdmissionResult) (post : Trace)
    (o : AdmissionOutcome) : Prop :=
  match a with
  | Enqueued => ∃ b, post = [(MarkAdmitted hash, b)] ∧
      o = match b with Marked true => Accepted hash sender ep | _ => StoreUnavailable end
  | _ => post = [] ∧ o = QueueUnavailable
  end.

Lemma enqueue_located hash sender ep env retry t r pre env' retry' a post :
  enqueue_dialogue hash sender ep env retry t r → t = pre ++ (Enqueue env' retry', a) :: post →
  pre = [] ∧ env' = env ∧ after_enqueue hash sender ep a post (admission_outcome r).
Proof.
  intros (a' & t' & -> & Ha) Ht. destruct pre as [|x pre]; injection Ht as Hx Ht.
  - simplify_eq. split_and!; [done|done|]. unfold after_enqueue.
    destruct a; try (destruct Ha as [-> ->]; done). destruct Ha as (b & -> & ->). exists b.
    destruct b as [| | | | | | | | | |[]|]; done.
  - exfalso. destruct a'; try (destruct Ha as [-> _]; by destruct pre).
    destruct Ha as (b & -> & _). by destruct pre as [|? []].
Qed.

Definition no_enqueue_no_release (t : Trace) : Prop :=
  Forall (λ x, match x.1 with Enqueue _ _ | ReleaseNonce _ _ => False | _ => True end) t.

Lemma gives_back_no_enqueue fresh slot hash t pre env retry a post :
  gives_back fresh slot hash t → t ≠ pre ++ (Enqueue env retry, a) :: post.
Proof.
  destruct fresh; simpl; [intros [b ->]|intros ->]; [destruct pre as [|? []]|destruct pre]; done.
Qed.

Lemma after_enqueue_clean hash sender ep a post o :
  after_enqueue hash sender ep a post o → no_enqueue_no_release post.
Proof.
  destruct a; simpl; try (intros [-> _]; constructor). intros (b & -> & _). by repeat constructor.
Qed.

Lemma record_enqueue_located hash sender slot chain ep op tier fresh t r pre env retry a post :
  record_dialogue hash sender slot chain ep op tier fresh t r → t = pre ++ (Enqueue env retry, a) :: post →
  env = envelope hash chain ep op tier ∧
  (∃ created, (CreateQueued (queued hash chain ep op), Created created) ∈ pre) ∧
  no_enqueue_no_release pre ∧ no_enqueue_no_release post ∧
  after_enqueue hash sender ep a post (admission_outcome r).
Proof.
  intros (a' & t' & -> & Ha) Ht. destruct pre as [|x pre]; [done|]. injection Ht as <- Ht.
  destruct a' as [| | | | | |[]| | | | |];
    try (destruct Ha as [Ha _]; by destruct (gives_back_no_enqueue _ _ _ _ _ _ _ _ _ Ha Ht)).
  - destruct (enqueue_located _ _ _ _ _ _ _ _ _ _ _ _ Ha Ht) as (-> & -> & Hp).
    apply after_enqueue_clean in Hp as Hc. split_and!; [done|exists true; by left|by repeat constructor|done|done].
  - destruct Ha as (b & t'' & -> & Hb). destruct pre as [|x pre]; [done|]. injection Ht as <- Ht.
    destruct (recovered _ _ _ _ b); [|destruct Hb as [-> _]; by destruct pre].
    destruct (enqueue_located _ _ _ _ _ _ _ _ _ _ _ _ Hb Ht) as (-> & -> & Hp).
    apply after_enqueue_clean in Hp as Hc. split_and!; [done|exists false; by left|by repeat constructor|done|done].
Qed.

Lemma located_after_hold before tr pre op (a : AdmissionResult) post :
  before_record before → part_of op MarketPart || part_of op SlotPart = false →
  before ++ tr = pre ++ (op, a) :: post → ∃ pre', pre = before ++ pre' ∧ tr = pre' ++ (op, a) :: post.
Proof.
  intros Hb Hop Ht. eapply split_after; [exact Hb| |exact Ht]. cbn [fst]. rewrite Hop. intros [].
Qed.

Lemma before_record_clean t : before_record t → no_enqueue_no_release t.
Proof. intros Hb. eapply Forall_impl; [exact Hb|]. intros [[] ?]; simpl; tauto. Qed.

(** Only recorded operations are queued, once, and what was queued is
    never taken back. *)
Theorem only_recorded_is_queued submit t o pre env retry a post :
  runs (admission_of submit) t o → t = pre ++ (Enqueue env retry, a) :: post →
  ∃ prepared epa op to created, admitting submit prepared epa op to ∧
    let hash := hash_of prepared epa submit in
    let ep := sub_entry_point submit in
    env = envelope hash (sub_chain_id submit) ep (V0_7 op) (submission_tier submit) ∧
    (CreateQueued (queued hash (sub_chain_id submit) ep (V0_7 op)), Created created) ∈ pre ∧
    no_enqueue_no_release pre ∧ no_enqueue_no_release post ∧
    after_enqueue hash (sender_hex prepared) ep a post o.
Proof.
  intros Hr ->. destruct (admit_decomposes _ _ _ Hr) as
    [(Hk & _)|(prepared & epa & op & to & before & rh & tr & Hadm & Ht & _ & Hheld & Hrest)].
  { by apply Forall_app in Hk as [_ [? _]%Forall_cons]. }
  apply held_before in Hheld as Hb. symmetry in Ht.
  destruct (located_after_hold _ _ _ (Enqueue env retry) _ _ Hb eq_refl Ht) as (pre' & -> & ->).
  destruct rh as [fresh|e]; [|destruct Hrest as [? _]; by destruct pre'].
  destruct Hrest as (r & Hrec & ->).
  destruct (record_enqueue_located _ _ _ _ _ _ _ _ _ _ _ _ _ _ _ Hrec eq_refl)
    as (-> & [created Hc] & Hp & Hq & Ha).
  exists prepared, epa, op, to, created. split; [done|]. split; [done|]. split; [set_solver|].
  split; [|done]. apply Forall_app. split; [by apply before_record_clean|done].
Qed.

Lemma enqueue_never_releases hash sender ep env retry t r pre s h a post :
  enqueue_dialogue hash sender ep env retry t r → t ≠ pre ++ (ReleaseNonce s h, a) :: post.
Proof.
  intros (a' & t' & -> & Ha) Ht. destruct pre as [|x pre]; [done|]. injection Ht as <- Ht.
  destruct a'; try (destruct Ha as [-> _]; by destruct pre).
  destruct Ha as (b & -> & _). by destruct pre as [|? []].
Qed.

Lemma gives_back_located fresh slot hash t pre s h a post :
  gives_back fresh slot hash t → t = pre ++ (ReleaseNonce s h, a) :: post →
  fresh = true ∧ pre = [] ∧ post = [] ∧ s = slot ∧ h = hash.
Proof.
  destruct fresh; simpl; [intros [b ->] Ht|by intros -> ?; destruct pre].
  destruct pre as [|? []]; by simplify_eq/=.
Qed.

(** The answer to a creation that leaves no record. *)
Definition creation_failed (a : AdmissionResult) : bool :=
  match a with Created _ => false | _ => true end.

Definition no_create (t : Trace) : Prop :=
  Forall (λ x, match x.1 with CreateQueued _ => False | _ => True end) t.

Lemma record_creates_once hash sender slot chain ep op tier fresh a t' r :
  record_dialogue hash sender slot chain ep op tier fresh ((CreateQueued (queued hash chain ep op), a) :: t') r →
  no_create t'.
Proof.
  assert (He : ∀ env retry t, enqueue_dialogue hash sender ep env retry t r → no_create t).
  { intros env retry t (b & t1 & -> & Hb). constructor; [done|].
    destruct b; try (destruct Hb as [-> _]; constructor). destruct Hb as (c & -> & _). by repeat constructor. }
  assert (Hg : ∀ t, gives_back fresh slot hash t → no_create t)
    by (intros t; destruct fresh; simpl; [intros [b ->]|intros ->]; by repeat constructor).
  intros (a' & t & Heq & Ha). injection Heq as <- <-.
  destruct a as [| | | | | |[]| | | | |]; try (destruct Ha as [Ha _]; by apply Hg); [by eapply He|].
  destruct Ha as (b & t'' & -> & Hb). constructor; [done|].
  destruct (recovered _ _ _ _ b); [by eapply He|]. destruct Hb as [-> _]. constructor.
Qed.

Lemma record_failed hash sender slot chain ep op tier fresh t r :
  record_dialogue hash sender slot chain ep op tier fresh t r →
  ∃ a t', t = (CreateQueued (queued hash chain ep op), a) :: t' ∧
    if creation_failed a
    then gives_back fresh slot hash t' ∧ (admission_outcome r = QueueUnavailable ∨ admission_outcome r = StoreUnavailable)
    else ∀ pre s h b post, t' ≠ pre ++ (ReleaseNonce s h, b) :: post.
Proof.
  intros (a & t' & -> & Ha). exists a, t'. split; [done|].
  destruct a as [| | | | | |[]| | | | |]; simpl; try (destruct Ha as [? ->]; by auto).
  - intros pre s h b post. by eapply enqueue_never_releases.
  - destruct Ha as (b & t'' & -> & Hb). intros pre s h c post Ht.
    destruct pre as [|x pre]; [done|]. injection Ht as <- Ht.
    destruct (recovered _ _ _ _ b); [by eapply enqueue_never_releases in Ht|].
    destruct Hb as [-> _]. by destruct pre.
Qed.

(** A slot is given back exactly by the admission that claimed it and
    then got no record. *)
Theorem slot_given_back_only_unused submit t o :
  runs (admission_of submit) t o →
  (∀ pre s h a post, t = pre ++ (ReleaseNonce s h, a) :: post →
    ∃ prepared epa op to front q reply, admitting submit prepared epa op to ∧
      s = slot_of prepared epa submit ∧ h = hash_of prepared epa submit ∧
      pre = front ++ [(CreateQueued q, reply)] ∧ post = [] ∧ creation_failed reply = true ∧
      last front.*2 = Some (ResNonceClaim (Claimed true)) ∧
      (o = QueueUnavailable ∨ o = StoreUnavailable)) ∧
  (∀ front q reply post, t = front ++ (CreateQueued q, reply) :: post →
    creation_failed reply = true → last front.*2 = Some (ResNonceClaim (Claimed true)) →
    ∃ prepared epa op to a, admitting submit prepared epa op to ∧
      post = [(ReleaseNonce (slot_of prepared epa submit) (hash_of prepared epa submit), a)]).
Proof.
  intros Hr. destruct (admit_decomposes _ _ _ Hr) as
    [(Hk & _)|(prepared & epa & op & to & before & rh & tr & Hadm & Ht & _ & Hheld & Hrest)].
  { split; intros; subst t; apply Forall_app in Hk as [_ [? _]%Forall_cons]; done. }
  apply held_before in Hheld as Hb.
  destruct rh as [fresh|e]; last first.
  { destruct Hrest as [-> _]. rewrite app_nil_r in Ht. subst t.
    split; intros; subst before; apply Forall_app in Hb as [_ [? _]%Forall_cons]; done. }
  destruct Hrest as (r & Hrec & ->). apply held_won in Hheld as Hw.
  destruct (record_failed _ _ _ _ _ _ _ _ _ _ Hrec) as (a & t' & Htr & Ha). subst tr t.
  apply record_creates_once in Hrec as Honce.
  split.
  - intros pre s h b post Heq.
    destruct (located_after_hold _ _ _ (ReleaseNonce s h) _ _ Hb eq_refl Heq) as (pre' & -> & Heq').
    destruct pre' as [|x pre']; [done|]. injection Heq' as <- Heq'.
    destruct (creation_failed a) eqn:Hc; [|by destruct (Ha _ _ _ _ _ Heq')].
    destruct Ha as [Ha Ho].
    destruct (gives_back_located _ _ _ _ _ _ _ _ _ Ha Heq') as (-> & -> & -> & -> & ->).
    exists prepared, epa, op, to, before, (queued (hash_of prepared epa submit) (sub_chain_id submit)
      (sub_entry_point submit) (V0_7 op)), a. done.
  - intros front q reply post Heq Hc Hfront.
    destruct (located_after_hold _ _ _ (CreateQueued q) _ _ Hb eq_refl Heq) as (pre' & -> & Heq').
    destruct pre' as [|x pre'].
    + injection Heq' as <- <- <-. rewrite Hc in Ha. destruct Ha as [Ha _].
      rewrite app_nil_r, Hw in Hfront. injection Hfront as ->. destruct Ha as [b ->].
      exists prepared, epa, op, to, b. done.
    + injection Heq' as <- ->. by apply Forall_app in Honce as [_ [? _]%Forall_cons].
Qed.

(** The dialogue takes the slot over at most as often as it may ask. *)
Definition takeovers (t : Trace) : nat :=
  length (List.filter (λ x, match x.1 with TakeOverNonce _ _ _ => true | _ => false end) t).

Lemma takeovers_app t t' : takeovers (t ++ t') = (takeovers t + takeovers t')%nat.
Proof. unfold takeovers. by rewrite List.filter_app, length_app. Qed.

Lemma hold_dialogue_count slot claimant now reply t r :
  hold_dialogue slot claimant now reply t r → (2 * takeovers t ≤ length t)%nat.
Proof. induction 1; cbn; unfold takeovers in *; lia. Qed.

Lemma part_no_takeover p t : all_of p t → p ≠ SlotPart → takeovers t = O.
Proof.
  intros Ht Hp. induction Ht as [|[op a] t Ho Ht IH]; [done|].
  destruct op, p; simpl in Ho; try discriminate; (exact IH || congruence).
Qed.

Lemma located_in_hold (tv th tr pre post : Trace) sl cl a0 op a :
  all_of MarketPart tv → all_of RecordPart tr →
  part_of op MarketPart = false → part_of op RecordPart = false → (∀ s c, op ≠ ClaimNonce s c) →
  (tv ++ (ClaimNonce sl cl, a0) :: th) ++ tr = pre ++ (op, a) :: post →
  ∃ pre' post', pre = tv ++ (ClaimNonce sl cl, a0) :: pre' ∧ th = pre' ++ (op, a) :: post'.
Proof.
  intros Hk Htr Hm Hrp Hx Heq.
  destruct (split_before (λ x : AdmissionOperation * AdmissionResult, part_of x.1 RecordPart = true)
              _ _ pre (op, a) post Htr ltac:(simpl; congruence) Heq) as (post' & -> & Hin).
  destruct (split_after (λ x : AdmissionOperation * AdmissionResult, part_of x.1 MarketPart = true)
              _ _ pre (op, a) post' Hk ltac:(simpl; congruence) Hin) as (pre' & -> & Hin').
  destruct pre' as [|x pre']; injection Hin' as Hx0 Hin'; [by destruct (Hx sl cl)|]. subst x. by exists pre', post'.
Qed.

(** The outcomes the record part settles with. *)
Lemma record_outcome hash sender slot chain ep op tier fresh t r :
  record_dialogue hash sender slot chain ep op tier fresh t r →
  match admission_outcome r with
  | Accepted _ _ _ | AlreadyQueued _ | OutConflict _ _ _ | StoreUnavailable | QueueUnavailable => True
  | _ => False
  end.
Proof.
  assert (He : ∀ env retry t, enqueue_dialogue hash sender ep env retry t r →
    match admission_outcome r with Accepted _ _ _ | StoreUnavailable | QueueUnavailable => True | _ => False end).
  { intros env retry t' (b & t1 & -> & Hb). destruct b; try by destruct Hb as [_ ->].
    destruct Hb as (c & _ & ->). by destruct c as [| | | | | | | | | |[]|]. }
  intros (a & t' & -> & Ha). destruct a as [| | | | | |[]| | | | |]; try by destruct Ha as [_ ->].
  - apply He in Ha. by destruct (admission_outcome r).
  - destruct Ha as (b & t'' & -> & Hb). unfold recovered in Hb.
    destruct b as [| | | | | | |[existing|]| | | |]; try by destruct Hb as [_ ->].
    destruct (existing_admission_action _ _ _ _); try by destruct Hb as [_ ->].
    apply He in Hb. by destruct (admission_outcome r).
Qed.

Lemma takeover_located submit t o pre s judged by_ a post :
  runs (admission_of submit) t o → t = pre ++ (TakeOverNonce s judged by_, a) :: post →
  ∃ prepared epa op to front holder record, admitting submit prepared epa op to ∧
    s = slot_of prepared epa submit ∧ by_ = claimant_of prepared epa submit ∧
    pre = front ++ [(LoadExisting judged, ResRecord record)] ∧
    last front.*2 = Some (ResNonceClaim (Held holder)) ∧
    nh_user_operation_hash holder = judged ∧ holder_state record holder (now_ms submit) ≠ Live ∧
    (takeovers t ≤ TAKEOVER_ATTEMPTS - 1)%nat.
Proof.
  intros Hr Heq. destruct (admit_decomposes _ _ _ Hr) as
    [(Hk & _)|(prepared & epa & op & to & before & rh & tr & Hadm & Ht & _ & Hheld & Hrest)].
  { subst t. by apply Forall_app in Hk as [_ [? _]%Forall_cons]. }
  assert (Htr : all_of RecordPart tr).
  { destruct rh; [|by destruct Hrest as [-> _]; constructor].
    destruct Hrest as (r & Hrec & _). by eapply record_part. }
  destruct Hheld as (tv & reply & th & -> & Hk & Hd & Hl).
  assert (Hcount : (takeovers t ≤ 2)%nat).
  { rewrite Ht, !takeovers_app, (part_no_takeover _ _ Htr), (part_no_takeover _ _ Hk) by done.
    pose proof (hold_dialogue_count _ _ _ _ _ _ Hd) as Hc. cbn. unfold takeovers in *. lia. }
  rewrite Heq in Ht. symmetry in Ht.
  destruct (located_in_hold _ _ _ _ _ _ _ _ (TakeOverNonce s judged by_) _ Hk Htr eq_refl eq_refl ltac:(done) Ht)
    as (pre' & post' & -> & Hin').
  destruct (hold_dialogue_takeovers _ _ _ _ _ _ Hd _ _ _ _ _ _ Hin')
    as (-> & -> & front & holder & record & -> & Hlast & Hh & Hj).
  exists prepared, epa, op, to, (tv ++ (ClaimNonce (slot_of prepared epa submit) (claimant_of prepared epa submit), reply) :: front),
    holder, record.
  split_and!; try done.
  - by rewrite <-app_assoc.
  - rewrite fmap_app, last_app, last_answer_last. by rewrite Hlast.
Qed.

(** A slot is taken over only from the holder the store named last, whose
    record was then loaded and judged final or abandoned, and at most twice. *)
Theorem takeover_only_of_settled_holders submit t o pre s judged by_ a post :
  runs (admission_of submit) t o → t = pre ++ (TakeOverNonce s judged by_, a) :: post →
  ∃ prepared epa op to front holder record, admitting submit prepared epa op to ∧
    s = slot_of prepared epa submit ∧ by_ = claimant_of prepared epa submit ∧
    pre = front ++ [(LoadExisting judged, ResRecord record)] ∧
    last front.*2 = Some (ResNonceClaim (Held holder)) ∧
    nh_user_operation_hash holder = judged ∧ holder_state record holder (now_ms submit) ≠ Live ∧
    (takeovers t ≤ TAKEOVER_ATTEMPTS - 1)%nat.
Proof. apply takeover_located. Qed.

(** Which hash and slot a submission is about, and that it asks for no other. *)
Definition identity (submit : SubmitRequest) : option (string * NonceSlot) :=
  prepared ← ok (prepare (sub_user_operation submit));
  epa ← ok (parse_address_field (sub_entry_point submit) "entryPoint");
  Some (hash_of prepared epa submit, slot_of prepared epa submit).

Definition claimant (submit : SubmitRequest) (hash : string) : NonceHolder :=
  {| nh_user_operation_hash := hash; nh_claimed_at_ms := now_ms submit |}.

Definition own_request (submit : SubmitRequest) (op : AdmissionOperation) : Prop :=
  match op with
  | ClaimNonce slot holder | TakeOverNonce slot _ holder =>
      ∃ hash, identity submit = Some (hash, slot) ∧ holder = claimant submit hash
  | ReleaseNonce slot hash => identity submit = Some (hash, slot)
  | CreateQueued q => ∃ slot, identity submit = Some (q_user_operation_hash q, slot)
  | MarkAdmitted hash => ∃ slot, identity submit = Some (hash, slot)
  | _ => True
  end.

Lemma admitting_identity submit prepared epa op to :
  admitting submit prepared epa op to →
  identity submit = Some (hash_of prepared epa submit, slot_of prepared epa submit).
Proof. intros [Hp He _ _]. unfold identity. by rewrite Hp, He. Qed.

Lemma hash_of_lower prepared epa submit :
  to_ascii_lowercase (hash_of prepared epa submit) = hash_of prepared epa submit.
Proof.
  unfold hash_of, prepared_user_operation_hash. rewrite to_ascii_lowercase_app.
  by rewrite hex_encode_lower.
Qed.

Lemma hash_of_length prepared epa submit : String.length (hash_of prepared epa submit) = 66%nat.
Proof.
  unfold hash_of, prepared_user_operation_hash.
  rewrite str_app_length, hex_encode_length, keccak256_length. done.
Qed.

Lemma identity_hash submit hash slot :
  identity submit = Some (hash, slot) →
  to_ascii_lowercase hash = hash ∧ String.length hash = 66%nat ∧ slot_chain_id slot = sub_chain_id submit.
Proof.
  unfold identity. intros Hi. apply bind_Some in Hi as (prepared & _ & Hi).
  apply bind_Some in Hi as (epa & _ & [= <- <-]).
  split; [apply hash_of_lower|]. split; [apply hash_of_length|done].
Qed.

Lemma record_requests hash sender slot chain ep op tier fresh t r :
  record_dialogue hash sender slot chain ep op tier fresh t r →
  Forall (λ x, match x.1 with
               | CreateQueued q => q_user_operation_hash q = hash
               | ReleaseNonce s h => s = slot ∧ h = hash
               | MarkAdmitted h => h = hash
               | LoadExisting _ | Enqueue _ _ => True
               | _ => False
               end) t.
Proof.
  set (P := λ _, _).
  assert (He : ∀ env retry t, enqueue_dialogue hash sender ep env retry t r → Forall P t).
  { intros env retry t' (b & t1 & -> & Hb). constructor; [done|].
    destruct b; try (destruct Hb as [-> _]; constructor). destruct Hb as (c & -> & _). by repeat constructor. }
  assert (Hg : ∀ t, gives_back fresh slot hash t → Forall P t)
    by (intros t'; destruct fresh; simpl; [intros [b ->]|intros ->]; by repeat constructor).
  intros (a & t' & -> & Ha). constructor; [done|].
  destruct a as [| | | | | |[]| | | | |]; try (destruct Ha as [Ha _]; by apply Hg); [by eapply He|].
  destruct Ha as (b & t'' & -> & Hb). constructor; [done|].
  destruct (recovered _ _ _ _ b); [by eapply He|]. destruct Hb as [-> _]. constructor.
Qed.

Lemma requests_are_own submit t o :
  runs (admission_of submit) t o → Forall (λ x, own_request submit x.1) t.
Proof.
  intros Hr. destruct (admit_decomposes _ _ _ Hr) as
    [(Hk & _)|(prepared & epa & op & to & before & rh & tr & Hadm & -> & _ & Hheld & Hrest)].
  { eapply Forall_impl; [exact Hk|]. by intros [[] ?]. }
  apply admitting_identity in Hadm as Hid. apply Forall_app. split.
  - destruct Hheld as (tv & reply & th & -> & Hk & Hd & _). apply Forall_app. split.
    { eapply Forall_impl; [exact Hk|]. by intros [[] ?]. }
    constructor; [by eexists|]. apply hold_dialogue_requests in Hd.
    eapply Forall_impl; [exact Hd|]. intros [[] ?]; simpl; try done.
    intros [-> ->]. by eexists.
  - destruct rh as [fresh|e]; [|by destruct Hrest as [-> _]; constructor].
    destruct Hrest as (r & Hrec & _). apply record_requests in Hrec.
    eapply Forall_impl; [exact Hrec|]. intros [[] ?]; simpl; try done.
    + by intros [-> ->].
    + intros ->. by eexists.
    + intros ->. by eexists.
Qed.

Lemma record_marked hash sender slot chain ep op tier fresh t r h :
  record_dialogue hash sender slot chain ep op tier fresh t r → (MarkAdmitted h, Marked true) ∈ t →
  h = hash ∧ admission_outcome r = Accepted hash sender ep.
Proof.
  assert (He : ∀ env retry t, enqueue_dialogue hash sender ep env retry t r → (MarkAdmitted h, Marked true) ∈ t →
    h = hash ∧ admission_outcome r = Accepted hash sender ep).
  { intros env retry t' (b & t1 & -> & Hb) [?|Hin]%elem_of_cons; [done|].
    destruct b; try (destruct Hb as [-> _]; by apply elem_of_nil in Hin).
    destruct Hb as (c & -> & ->). apply list_elem_of_singleton in Hin as [= <- <-]. done. }
  assert (Hg : ∀ t, gives_back fresh slot hash t → (MarkAdmitted h, Marked true) ∉ t)
    by (intros t'; destruct fresh; simpl; [intros [b ->]|intros ->]; set_solver).
  intros (a & t' & -> & Ha) [?|Hin]%elem_of_cons; [done|].
  destruct a as [| | | | | |[]| | | | |]; try (destruct Ha as [Ha _]; by destruct (Hg _ Ha)); [by eapply He|].
  destruct Ha as (b & t'' & -> & Hb). apply elem_of_cons in Hin as [?|Hin]; [done|].
  destruct (recovered _ _ _ _ b); [by eapply He|]. destruct Hb as [-> _]. by apply elem_of_nil in Hin.
Qed.

Lemma envelope_names_hash hash chain ep op tier :
  get "userOperationHash" (envelope hash chain ep op tier) = Some (VString hash).
Proof. by destruct tier. Qed.

(** Where a record was marked, the slot had been won, the queue had taken the
    envelope, and nothing was given back. *)
Lemma marked_is_accepted submit t o hash :
  runs (admission_of submit) t o → (MarkAdmitted hash, Marked true) ∈ t →
  (∃ op fresh, (op, ResNonceClaim (Claimed fresh)) ∈ t) ∧
  (∀ s h a, (ReleaseNonce s h, a) ∉ t) ∧
  (∃ env retry, (Enqueue env retry, Enqueued) ∈ t ∧ get "userOperationHash" env = Some (VString hash)) ∧
  ∃ front, t = front ++ [(MarkAdmitted hash, Marked true)] ∧ (MarkAdmitted hash, Marked true) ∉ front.
Proof.
  intros Hr Hin. destruct (admit_decomposes _ _ _ Hr) as
    [(Hk & _)|(prepared & epa & op & to & before & rh & tr & Hadm & -> & _ & Hheld & Hrest)].
  { by apply (proj1 (Forall_forall _ _) Hk) in Hin. }
  apply held_before in Hheld as Hb. apply elem_of_app in Hin as [Hin|Hin].
  { by apply (proj1 (Forall_forall _ _) Hb) in Hin. }
  destruct rh as [fresh|e]; [|destruct Hrest as [-> _]; by apply elem_of_nil in Hin].
  destruct Hrest as (r & Hrec & ->).
  destruct (record_marked _ _ _ _ _ _ _ _ _ _ _ Hrec Hin) as [-> Ho].
  destruct (record_accepted _ _ _ _ _ _ _ _ _ _ _ _ _ Hrec Ho) as (_ & _ & created & mid & retry & -> & Hmid).
  split; [|split; [|split]].
  - apply held_won in Hheld. apply last_Some in Hheld as [l Hl].
    assert (ResNonceClaim (Claimed fresh) ∈ before.*2) as Hel by (rewrite Hl; set_solver).
    apply list_elem_of_fmap in Hel as ([op' a] & Ha & Hel). simpl in Ha. subst a. set_solver.
  - intros s h a Hrel. apply before_record_clean in Hb.
    apply elem_of_app in Hrel as [Hrel|Hrel].
    + by apply (proj1 (Forall_forall _ _) Hb) in Hrel.
    + destruct created; [destruct Hmid as [-> _]|destruct Hmid as [_ (ex & -> & _)]];
        repeat (apply elem_of_cons in Hrel as [?|Hrel]; [done|]); by apply elem_of_nil in Hrel.
  - exists (envelope (hash_of prepared epa submit) (sub_chain_id submit) (sub_entry_point submit) (V0_7 op)
              (submission_tier submit)), retry.
    split; [|apply envelope_names_hash]. set_solver.
  - eexists (before ++ _ :: mid ++ [_]). split; [by rewrite <-!app_assoc; simpl; rewrite <-app_assoc|].
    intros [Hin'|Hin']%elem_of_app; [by apply (proj1 (Forall_forall _ _) Hb) in Hin'|].
    destruct created; [destruct Hmid as [-> _]|destruct Hmid as [_ (ex & -> & _)]];
      repeat (apply elem_of_cons in Hin' as [?|Hin']; [done|]); by apply elem_of_nil in Hin'.
Qed.

(** An operation is refused for its nonce only in favour of another that
    the slot names, and one that is live or arrived meanwhile; nothing was
    recorded or queued for it. *)
Theorem nonce_refusal_names_the_holder submit t hash sender nonce :
  runs (admission_of submit) t (NonceInFlight hash sender nonce) →
  ∃ prepared epa op to holder, admitting submit prepared epa op to ∧
    before_record t ∧ hash = nh_user_operation_hash holder ∧
    sender = slot_sender (slot_of prepared epa submit) ∧
    nonce = nonce_quantity (slot_of prepared epa submit) ∧
    (last t.*2 = Some (ResNonceClaim (Held holder)) ∨
     ∃ front record, t = front ++ [(LoadExisting hash, ResRecord record)] ∧
       last front.*2 = Some (ResNonceClaim (Held holder)) ∧
       holder_state record holder (now_ms submit) = Live).
Proof.
  intros Hr. destruct (admit_decomposes _ _ _ Hr) as
    [(_ & ? & _)|(prepared & epa & op & to & before & rh & tr & Hadm & Ht & _ & Hheld & Hrest)]; [done|].
  apply held_before in Hheld as Hb. destruct rh as [fresh|e].
  { destruct Hrest as (r & Hrec & Ho). apply record_outcome in Hrec. by rewrite <-Ho in Hrec. }
  destruct Hrest as [-> <-]. rewrite app_nil_r in Ht. subst t.
  destruct Hheld as (tv & reply & th & -> & Hk & Hd & _).
  apply hold_dialogue_refused in Hd as [?|(holder & [= -> -> ->] & Hor)]; [done|].
  exists prepared, epa, op, to, holder. split_and!; try done.
  destruct Hor as [Hl|(front & record & -> & Hl & Hs)]; [left|right].
  - by rewrite fmap_app, last_app, last_answer_last, Hl.
  - exists (tv ++ (ClaimNonce (slot_of prepared epa submit) (claimant_of prepared epa submit), reply) :: front), record.
    split_and!; [by rewrite <-app_assoc| |done].
    by rewrite fmap_app, last_app, last_answer_last, Hl.
Qed.

(** Who pays too little is refused before anything is asked of the store,
    and only who pays too little is refused for it. *)
Theorem rejected_pays_too_little submit t message :
  runs (admission_of submit) t (OutRejected message) →
  all_of MarketPart t ∧ ∃ op to, sub_user_operation submit = V0_7 op ∧
    settlement_recipient submit = Some to ∧ underpays (sub_chain_id submit) (Task.call_data op) to t.
Proof.
  intros Hr. destruct (admit_decomposes _ _ _ Hr) as
    [(Hk & _ & Hrej)|(prepared & epa & op & to & before & rh & tr & Hadm & Ht & _ & Hheld & Hrest)];
    [split; [done|by eapply Hrej]|].
  destruct rh as [fresh|e].
  - destruct Hrest as (r & Hrec & Ho). apply record_outcome in Hrec. by rewrite <-Ho in Hrec.
  - destruct Hrest as [_ <-]. destruct Hheld as (? & ? & ? & _ & _ & Hd & _).
    by apply hold_dialogue_refused in Hd as [?|(? & ? & _)].
Qed.

End Admission.

(** ** Witnesses: one submission, driven through its outcomes *)

Definition sample_submit : SubmitRequest :=
  {| sub_chain_id := 8453;
     sub_entry_point := "0x0000000071727De22E5E9d8BAf0edAc6f37da032";
     sub_user_operation := V0_7
       {| sender := "0x2222222222222222222222222222222222222222"; nonce := "0x1";
          factory := None; factory_data := None;
          Task.call_data := "0x" +:+ @hex_encode ref_hex sample_call;
          call_gas_limit := "0x186a0"; verification_gas_limit := "0x30d40";
          pre_verification_gas := "0xc350"; max_fee_per_gas := "0x0"; max_priority_fee_per_gas := "0x0";
          paymaster := None; paymaster_verification_gas_limit := None;
          paymaster_post_op_gas_limit := None; paymaster_data := None;
          signature := "0x01"; eip7702_auth := None; fee_token := None |};
     settlement_recipient := Some "0xfee0000000000000000000000000000000000001";
     submission_tier := Some Fast; now_ms := 500000 |}.

Definition sample_admit : prog AdmissionOperation AdmissionResult AdmissionOutcome :=
  @admission_of ref_hex ref_keccak x86_64 sample_submit.

(** The run a list of shell answers determines. *)
Definition sample_run (answers : list AdmissionResult) :
    trace AdmissionOperation AdmissionResult * AdmissionOutcome :=
  default ([], StoreUnavailable) (replay sample_admit answers).

Lemma sample_run_runs answers :
  is_Some (replay sample_admit answers) →
  runs sample_admit (sample_run answers).1 (sample_run answers).2.
Proof.
  intros [[t o] Hr]. unfold sample_run. rewrite Hr. by eapply replay_runs.
Qed.

Ltac sample_runs answers :=
  let Hr := fresh "Hr" in
  assert (Hr : is_Some (replay sample_admit answers)) by (eexists; vm_compute; reflexivity);
  apply sample_run_runs in Hr.

(** The kind of an outcome, to pick the branch a witness is about. *)
Definition outcome_kind (o : AdmissionOutcome) : nat :=
  match o with
  | Accepted _ _ _ => 0 | AlreadyQueued _ => 1 | OutConflict _ _ _ => 2 | NonceInFlight _ _ _ => 3
  | Invalid _ => 4 | OutRejected _ => 5 | _ => 6
  end%nat.

Ltac sample_outcome answers kind o :=
  let Hk := fresh "Hk" in
  assert (Hk : outcome_kind (sample_run answers).2 = kind) by (vm_compute; reflexivity);
  destruct (sample_run answers).2 eqn:o; try discriminate Hk; clear Hk.

Definition accepting : list AdmissionResult :=
  [Assets 6 []; ResNonceClaim (Claimed true); Created true; Enqueued; Marked true].

Lemma accepted_is_recorded_then_queued_witness :
  match (sample_run accepting).2 with
  | Accepted hash sender ep => ∃ prepared epa op to,
      @admitting ref_hex sample_submit prepared epa op to ∧
      hash = @hash_of ref_hex ref_keccak prepared epa sample_submit
  | _ => False
  end.
Proof.
  sample_runs accepting.
  sample_outcome accepting 0%nat E.
  destruct (@accepted_is_recorded_then_queued ref_hex ref_keccak x86_64 _ _ _ _ _ Hr)
    as (prepared & epa & op & to & before & mid & retry & created & fresh & Hadm & Hhash & _).
  exists prepared, epa, op, to. split; [exact Hadm|exact Hhash].
Defined.

Definition append_lost : list AdmissionResult :=
  [Assets 6 []; ResNonceClaim (Claimed true); Created true; ResQueueUnavailable].

Lemma only_recorded_is_queued_witness :
  ∃ pre env retry a post, (sample_run append_lost).1 = pre ++ (Enqueue env retry, a) :: post ∧
    post = [] ∧ (sample_run append_lost).2 = QueueUnavailable.
Proof.
  sample_runs append_lost.
  assert (Ht : ∃ env retry, (sample_run append_lost).1 =
    take 3 (sample_run append_lost).1 ++ (Enqueue env retry, ResQueueUnavailable) :: [])
    by (eexists _, _; vm_compute; reflexivity).
  destruct Ht as (env & retry & Ht). eexists _, env, retry, _, _. split; [exact Ht|].
  destruct (@only_recorded_is_queued ref_hex ref_keccak x86_64 _ _ _ _ _ _ _ _ Hr Ht)
    as (prepared & epa & op & to & created & _ & _ & _ & _ & _ & Hafter). exact Hafter.
Defined.

Definition store_failing : list AdmissionResult :=
  [Assets 6 []; ResNonceClaim (Claimed true); StoreFailed; NonceReleased].

Lemma slot_given_back_only_unused_witness :
  ∃ s h a, last (sample_run store_failing).1 = Some (ReleaseNonce s h, a) ∧
    ∃ prepared epa, s = @slot_of ref_hex prepared epa sample_submit ∧
      h = @hash_of ref_hex ref_keccak prepared epa sample_submit.
Proof.
  sample_runs store_failing.
  assert (Ht : ∃ s h, (sample_run store_failing).1 =
    take 3 (sample_run store_failing).1 ++ (ReleaseNonce s h, NonceReleased) :: [])
    by (eexists _, _; vm_compute; reflexivity).
  destruct Ht as (s & h & Ht). exists s, h, NonceReleased. split; [rewrite Ht; apply last_snoc|].
  destruct (proj1 (@slot_given_back_only_unused ref_hex ref_keccak x86_64 _ _ _ Hr) _ _ _ _ _ Ht)
    as (prepared & epa & op & to & front & q & reply & _ & Hs & Hh & _).
  exists prepared, epa. split; [exact Hs|exact Hh].
Defined.

Definition crashed_holder : NonceHolder :=
  {| nh_user_operation_hash := "0xabandoned"; nh_claimed_at_ms := 0 |}.

Definition taking_over : list AdmissionResult :=
  [Assets 6 []; ResNonceClaim (Held crashed_holder); ResRecord None;
   ResNonceClaim (Claimed true); Created true; Enqueued; Marked true].

Lemma takeover_only_of_settled_holders_witness :
  ∃ s judged by_ a, (sample_run taking_over).1 !! 3%nat = Some (TakeOverNonce s judged by_, a) ∧
    judged = nh_user_operation_hash crashed_holder.
Proof.
  sample_runs taking_over.
  assert (Ht : ∃ s judged by_, (sample_run taking_over).1 =
    take 3 (sample_run taking_over).1 ++
    (TakeOverNonce s judged by_, ResNonceClaim (Claimed true)) :: drop 4 (sample_run taking_over).1)
    by (eexists _, _, _; vm_compute; reflexivity).
  destruct Ht as (s & judged & by_ & Ht). eexists s, judged, by_, _.
  split; [rewrite Ht; vm_compute; reflexivity|].
  destruct (@takeover_only_of_settled_holders ref_hex ref_keccak x86_64 _ _ _ _ _ _ _ _ _ Hr Ht)
    as (prepared & epa & op & to & front & holder & record & _ & _ & _ & Hf & Hl & <- & _).
  assert (Hfront : front.*2 = [Assets 6 []; ResNonceClaim (Held crashed_holder)]).
  { assert (E : (take 3 (sample_run taking_over).1).*2 =
                [Assets 6 []; ResNonceClaim (Held crashed_holder); ResRecord None]) by (vm_compute; reflexivity).
    rewrite Hf, fmap_app in E. change ([?a; ?b; ?c]) with ([a; b] ++ [c]) in E.
    by apply app_inj_tail in E as [-> _]. }
  rewrite Hfront in Hl. by injection Hl as <-.
Defined.

Definition live_holder : NonceHolder :=
  {| nh_user_operation_hash := "0xlive"; nh_claimed_at_ms := 450000 |}.

Definition refusing : list AdmissionResult :=
  [Assets 6 []; ResNonceClaim (Held live_holder); ResRecord None].

Lemma nonce_refusal_names_the_holder_witness :
  match (sample_run refusing).2 with
  | NonceInFlight hash sender nonce => ∃ holder, hash = nh_user_operation_hash holder
  | _ => False
  end.
Proof.
  sample_runs refusing.
  sample_outcome refusing 3%nat E.
  destruct (@nonce_refusal_names_the_holder ref_hex ref_keccak x86_64 _ _ _ _ _ Hr)
    as (prepared & epa & op & to & holder & _ & _ & Hh & _). exists holder. exact Hh.
Defined.

Definition underpaying : list AdmissionResult := [Assets 18 []].

Lemma rejected_pays_too_little_witness :
  match (sample_run underpaying).2 with
  | OutRejected _ => ∃ op to, @underpays ref_hex x86_64 8453 (Task.call_data op) to (sample_run underpaying).1
  | _ => False
  end.
Proof.
  sample_runs underpaying.
  sample_outcome underpaying 5%nat E.
  destruct (@rejected_pays_too_little ref_hex ref_keccak x86_64 _ _ _ Hr) as (_ & op & to & _ & _ & Hu).
  exists op, to. exact Hu.
Defined.
