(* ===== verification/RecordDo.v ===== *)
(** * RecordDo: the durable home of one operation's record, and of one nonce
    slot ([vela-relay-cf/src/record_do.rs])

    The Durable Object is single-threaded: one command runs to its end before
    the next, so the object is a state and [fetch] and [alarm] functions on
    it.  [reads_ok] says whether the storage reads of this invocation succeed:
    a failed read of the record or of its expiry is read as an absent one.
    Storage writes succeed. *)

From S2P Require Export Lifecycle.
#[local] Open Scope string_scope.
#[local] Open Scope Z_scope.

Definition RECORD_TTL_MS : Z := 3600 * 1000.

Record RecordDo : Type := {
  do_record : option StoredUserOperation;
  do_nonce_holder : option NonceHolder;
  do_expires_at_ms : option Z;
  do_alarm_at_ms : option Z }.

Inductive RecordCommand : Type :=
  | CreateQueued (operation : QueuedUserOperation)
  | RestoreQueued (operation : QueuedUserOperation)
  | Get
  | MarkAdmitted
  | Patch (patch : Value)
  | MarkBundleMemberSubmitted (bundle_chain_id : Z) (transaction_hash : string)
  | GiveUp (now_ms : Z)
  | ClaimNonce (holder : NonceHolder)
  | TakeOverNonce (judged_user_operation_hash : string) (holder : NonceHolder)
  | ReleaseNonce (user_operation_hash : string).

Inductive RecordReply : Type :=
  | Created (created : bool)
  | RecordRead (record : option StoredUserOperation)
  | Marked (marked : bool)
  | Patched (patched : bool)
  | Indexed (indexed : bool)
  | Nonce (claim : NonceClaim)
  | Released (released : bool).

(** [self.record()]: a failed read is read as no record. *)
Definition read_record (reads_ok : bool) (s : RecordDo) : option StoredUserOperation :=
  if reads_ok then do_record s else None.

Definition put_record (s : RecordDo) (r : StoredUserOperation) : RecordDo :=
  {| do_record := Some r; do_nonce_holder := do_nonce_holder s;
     do_expires_at_ms := do_expires_at_ms s; do_alarm_at_ms := do_alarm_at_ms s |}.

(** [storage.put(EXPIRES_KEY, expires)] and [set_alarm(ttl)] at [now]. *)
Definition put_expiry (s : RecordDo) (now expires ttl : Z) : RecordDo :=
  {| do_record := do_record s; do_nonce_holder := do_nonce_holder s;
     do_expires_at_ms := Some expires; do_alarm_at_ms := Some (wrapping 64 (now + ttl)) |}.

Definition create (reads_ok : bool) (now : Z) (s : RecordDo)
    (operation : QueuedUserOperation) (admitted : bool) : RecordDo * result unit RecordReply :=
  match read_record reads_ok s with
  | Some _ => (s, Ok (Created false))
  | None =>
      let s' := put_record s (queued_record operation admitted) in
      (put_expiry s' now (wrapping 64 (now + RECORD_TTL_MS)) RECORD_TTL_MS, Ok (Created true))
  end.

(** The field merge: the patch's fields over the record's. *)
Definition merge_patch (patch record : obj) : obj :=
  foldr (λ kv o, obj_insert kv.1 kv.2 o) record patch.

Definition apply_patch (reads_ok : bool) (s : RecordDo) (patch : Value) :
    RecordDo * result unit bool :=
  match read_record reads_ok s with
  | None => (s, Ok false)
  | Some record =>
      let requested :=
        match get "status" patch with
        | None => Some None
        | Some v => st ← de_status v; Some (Some st)
        end in
      match requested with
      | None => (s, Ok false)
      | Some requested =>
          match decide_patch (status record) requested with
          | RefuseIllegalTransition => (s, Ok false)
          | Apply =>
              match as_object patch with
              | None => (s, Ok false)
              | Some patch_object =>
                  match de_record_fields (merge_patch patch_object (record_fields record)) with
                  | None => (s, Err tt)
                  | Some merged => (put_record s merged, Ok true)
                  end
              end
          end
      end
  end.

Definition give_up_record (reads_ok : bool) (now : Z) (s : RecordDo) (now_ms : Z) :
    RecordDo * result unit bool :=
  match read_record reads_ok s with
  | None => (s, Ok false)
  | Some record =>
      match dead_letter_patch record now_ms with
      | None => (s, Ok false)
      | Some patch =>
          match apply_patch reads_ok s patch with
          | (s', Ok true) =>
              (put_expiry s' now (wrapping 64 (now_ms + RECORD_TTL_MS)) RECORD_TTL_MS, Ok true)
          | out => out
          end
      end
  end.

Definition apply_bundle_submission (reads_ok : bool) (s : RecordDo) (bundle_chain_id : Z)
    (hash : string) : RecordDo * bool :=
  match read_record reads_ok s with
  | None => (s, false)
  | Some r =>
      match decide_bundle_submission (status r) (transaction_hash r) (chain_id r)
              (chain_id_text r) bundle_chain_id hash with
      | Transition =>
          (put_record s
             {| status := Submitted; transaction_hash := Some hash; chain_id := chain_id r;
                chain_id_text := chain_id_text r; entry_point := entry_point r;
                user_operation := user_operation r; admitted := true;
                next_receipt_check_at_ms := next_receipt_check_at_ms r;
                block_hash := block_hash r; block_number := block_number r;
                receipt := receipt r; event := event r;
                last_executor_stage := last_executor_stage r;
                last_executor_error := last_executor_error r;
                last_executor_attempt_at_ms := last_executor_attempt_at_ms r;
                rejection_reason := rejection_reason r |}, true)
      | IndexOnly => (s, true)
      | Skip => (s, false)
      end
  end.

Definition set_admitted (r : StoredUserOperation) : StoredUserOperation :=
  {| status := status r; transaction_hash := transaction_hash r; chain_id := chain_id r;
     chain_id_text := chain_id_text r; entry_point := entry_point r;
     user_operation := user_operation r; admitted := true;
     next_receipt_check_at_ms := next_receipt_check_at_ms r;
     block_hash := block_hash r; block_number := block_number r;
     receipt := receipt r; event := event r;
     last_executor_stage := last_executor_stage r;
     last_executor_error := last_executor_error r;
     last_executor_attempt_at_ms := last_executor_attempt_at_ms r;
     rejection_reason := rejection_reason r |}.

Definition write_nonce_holder (now : Z) (s : RecordDo) (holder : option NonceHolder) : RecordDo :=
  match holder with
  | None => s
  | Some h =>
      put_expiry {| do_record := do_record s; do_nonce_holder := Some h;
                    do_expires_at_ms := do_expires_at_ms s;
                    do_alarm_at_ms := do_alarm_at_ms s |}
        now (wrapping 64 (now + SLOT_TTL_MS)) SLOT_TTL_MS
  end.

Definition delete_nonce_holder (s : RecordDo) : RecordDo :=
  {| do_record := do_record s; do_nonce_holder := None;
     do_expires_at_ms := do_expires_at_ms s; do_alarm_at_ms := do_alarm_at_ms s |}.

(** [DurableObject::fetch]: one command at the object's clock [now]. *)
Definition fetch (reads_ok : bool) (now : Z) (s : RecordDo) (command : RecordCommand) :
    RecordDo * result unit RecordReply :=
  match command with
  | CreateQueued operation => create reads_ok now s operation false
  | RestoreQueued operation => create reads_ok now s operation true
  | Get => (s, Ok (RecordRead (read_record reads_ok s)))
  | MarkAdmitted =>
      match read_record reads_ok s with
      | None => (s, Ok (Marked false))
      | Some r => (put_record s (set_admitted r), Ok (Marked true))
      end
  | Patch patch => prod_map id (fmap Patched) (apply_patch reads_ok s patch)
  | GiveUp now_ms => prod_map id (fmap Patched) (give_up_record reads_ok now s now_ms)
  | MarkBundleMemberSubmitted c h =>
      prod_map id (λ b, Ok (Indexed b)) (apply_bundle_submission reads_ok s c h)
  | ClaimNonce holder =>
      if reads_ok then
        let step := claim (do_nonce_holder s) holder in
        (write_nonce_holder now s (step_write step), Ok (Nonce (step_reply step)))
      else (s, Err tt)
  | TakeOverNonce judged holder =>
      if reads_ok then
        let step := take_over (do_nonce_holder s) judged holder in
        (write_nonce_holder now s (step_write step), Ok (Nonce (step_reply step)))
      else (s, Err tt)
  | ReleaseNonce hash =>
      if reads_ok then
        let released := release (do_nonce_holder s) hash in
        ((if released then delete_nonce_holder s else s), Ok (Released released))
      else (s, Err tt)
  end.

(** [DurableObject::alarm]: re-arm before the deadline, drop everything after.
    An expiry that cannot be read counts as none. *)
Definition alarm (reads_ok : bool) (now : Z) (s : RecordDo) : RecordDo :=
  match (if reads_ok then do_expires_at_ms s else None) with
  | Some expires_at =>
      if decide (now < expires_at)
      then {| do_record := do_record s; do_nonce_holder := do_nonce_holder s;
              do_expires_at_ms := do_expires_at_ms s;
              do_alarm_at_ms := Some (now + (expires_at - now)) |}
      else {| do_record := None; do_nonce_holder := None;
              do_expires_at_ms := None; do_alarm_at_ms := None |}
  | None => {| do_record := None; do_nonce_holder := None;
               do_expires_at_ms := None; do_alarm_at_ms := None |}
  end.

(** What happens to an object: a command or its alarm, at a clock reading,
    with readable storage or not. *)
Inductive RecordEvent : Type :=
  | Command (reads_ok : bool) (now : Z) (command : RecordCommand)
  | AlarmFires (reads_ok : bool) (now : Z).

Definition do_event (s : RecordDo) (event : RecordEvent) : RecordDo :=
  match event with
  | Command reads_ok now command => (fetch reads_ok now s command).1
  | AlarmFires reads_ok now => alarm reads_ok now s
  end.

Definition run_events (s : RecordDo) (events : list RecordEvent) : RecordDo := foldl do_event s events.

(** One command with readable storage, and the histories made of them. *)
Definition do_step (s s' : RecordDo) : Prop :=
  ∃ now command, s' = (fetch true now s command).1.

(** ** Lemmas *)

Lemma obj_get_merge k patch record :
  obj_get k (merge_patch patch record) =
  match obj_get k patch with Some v => Some v | None => obj_get k record end.
Proof.
  induction patch as [|[k' v'] patch IH]; [done|]. simpl.
  rewrite obj_get_insert, IH.
  destruct (String.eqb_spec k k'); case_decide; congruence.
Qed.

(** Reading a record looks at its fields only through [obj_get]. *)
Lemma de_record_fields_ext o o' :
  (∀ k, obj_get k o = obj_get k o') → de_record_fields o = de_record_fields o'.
Proof. intros H. unfold de_record_fields, req, opt, defaulted. by rewrite !H. Qed.

Lemma de_record_fields_status o r :
  de_record_fields o = Some r → req de_status "status" o = Some (status r).
Proof.
  unfold de_record_fields. intros H. apply bind_Some in H as (st & Hst & H).
  rewrite Hst. f_equal. repeat (apply bind_Some in H as (? & _ & H)).
  injection H as <-. reflexivity.
Qed.

Lemma merged_status r patch r' :
  de_record_fields (merge_patch patch (record_fields r)) = Some r' →
  match obj_get "status" patch with
  | Some v => de_status v = Some (status r')
  | None => status r' = status r
  end.
Proof.
  intros H%de_record_fields_status. unfold req in H. rewrite obj_get_merge in H.
  destruct (obj_get "status" patch) as [v|]; [done|].
  change (obj_get "status" (record_fields r)) with (Some (VString (status_name (status r)))) in H.
  cbn [mbind option_bind] in H. rewrite de_status_name in H. congruence.
Qed.

Lemma apply_patch_true s patch s' :
  apply_patch true s patch = (s', Ok true) →
  ∃ r r', do_record s = Some r ∧ s' = put_record s r' ∧ status_step (status r) (status r').
Proof.
  unfold apply_patch. simpl. intros H.
  destruct (do_record s) as [r|]; [|done].
  destruct (match get "status" patch with None => _ | Some _ => _ end) as [req|] eqn:Ereq; [|done].
  destruct (decide_patch (status r) req) eqn:Edec; [|done].
  destruct (as_object patch) as [o|] eqn:Eo; [|done].
  destruct (de_record_fields _) as [r'|] eqn:Em; [|done]. injection H as <-.
  exists r, r'. split_and!; [done..|].
  destruct patch as [| | | | |o']; try discriminate Eo. injection Eo as ->.
  apply merged_status in Em. simpl in Ereq.
  destruct (obj_get "status" o) as [v|].
  - rewrite Em in Ereq. injection Ereq as <-. by eapply decide_patch_apply.
  - rewrite Em. apply status_step_refl.
Qed.

Lemma apply_patch_merged s r o v st r' :
  do_record s = Some r → obj_get "status" o = Some v → de_status v = Some st →
  status_step (status r) st → de_record_fields (merge_patch o (record_fields r)) = Some r' →
  apply_patch true s (VObject o) = (put_record s r', Ok true).
Proof.
  intros Hr Hv Hst Hstep Hm. unfold apply_patch. simpl. rewrite Hr, Hv. simpl. rewrite Hst. simpl.
  assert (decide_patch (status r) (Some st) = Apply) as E
    by (apply decide_patch_apply; intros ? [= <-]; done).
  simpl in E. by rewrite E, Hm.
Qed.

Lemma apply_patch_not_true s patch s' out :
  apply_patch true s patch = (s', out) → out ≠ Ok true → s' = s.
Proof. unfold apply_patch. intros H Hn. repeat case_match; simplify_eq; done. Qed.

Lemma apply_patch_step s patch r :
  do_record s = Some r →
  ∃ r', do_record (apply_patch true s patch).1 = Some r' ∧ status_step (status r) (status r').
Proof.
  intros Hr. destruct (apply_patch true s patch) as [s' out] eqn:E. simpl.
  destruct (decide (out = Ok true)) as [->|Hn].
  - apply apply_patch_true in E as (r0 & r' & Hr0 & -> & Hs). simplify_eq/=. eauto.
  - rewrite (apply_patch_not_true _ _ _ _ E Hn). eauto using status_step_refl.
Qed.

Lemma give_up_step now s now_ms r :
  do_record s = Some r →
  ∃ r', do_record (give_up_record true now s now_ms).1 = Some r' ∧ status_step (status r) (status r').
Proof.
  intros Hr. unfold give_up_record. simpl. rewrite Hr.
  destruct (dead_letter_patch r now_ms) as [p|]; [|eauto using status_step_refl].
  destruct (apply_patch_step s p r Hr) as (r' & Hr' & Hs).
  destruct (apply_patch true s p) as [s' [[]|]]; simpl in *; eauto.
Qed.

Lemma bundle_decision_transition st h c ct bc bh :
  decide_bundle_submission st h c ct bc bh = Transition → status_step st Submitted.
Proof. unfold decide_bundle_submission. intros H. repeat case_match; simplify_eq; reflexivity. Qed.

Lemma write_nonce_holder_record now s h : do_record (write_nonce_holder now s h) = do_record s.
Proof. by destruct h. Qed.

(** A command with readable storage keeps the record and moves its status by
    at most one legal transition. *)
Lemma fetch_status_step now s command r :
  do_record s = Some r →
  ∃ r', do_record (fetch true now s command).1 = Some r' ∧ status_step (status r) (status r').
Proof.
  intros Hr. assert (Hid : ∃ r', do_record s = Some r' ∧ status_step (status r) (status r'))
    by eauto using status_step_refl.
  destruct command; simpl; unfold create; simpl; rewrite ?write_nonce_holder_record; try done.
  - by rewrite Hr.
  - by rewrite Hr.
  - rewrite Hr. simpl. eauto using status_step_refl.
  - destruct (apply_patch_step s patch r Hr) as (r' & ? & ?).
    destruct (apply_patch true s patch); simpl in *; eauto.
  - unfold apply_bundle_submission. simpl. rewrite Hr.
    destruct (decide_bundle_submission _ _ _ _ _ _) eqn:E; simpl; [|done..].
    eexists. split; [done|]. by eapply bundle_decision_transition.
  - destruct (give_up_step now s now_ms r Hr) as (r' & ? & ?).
    destruct (give_up_record true now s now_ms); simpl in *; eauto.
  - by destruct (release (do_nonce_holder s) user_operation_hash).
Qed.

(** With unreadable storage a command other than a creation leaves the record. *)
Definition creates (command : RecordCommand) : bool :=
  match command with CreateQueued _ | RestoreQueued _ => true | _ => false end.

Lemma fetch_unread now s command :
  creates command = false → do_record (fetch false now s command).1 = do_record s.
Proof. by destruct command. Qed.

(** What ends the life of a stored record: its expiry, an alarm that could
    not read the expiry, and a creation that could not read the record. *)
Definition forgets (s : RecordDo) (event : RecordEvent) : Prop :=
  match event with
  | Command reads_ok _ command => reads_ok = false ∧ creates command = true
  | AlarmFires reads_ok now =>
      reads_ok = false ∨ ∀ expires_at, do_expires_at_ms s = Some expires_at → expires_at ≤ now
  end.

Lemma event_step s event r :
  do_record s = Some r →
  forgets s event ∨
  ∃ r', do_record (do_event s event) = Some r' ∧ status_step (status r) (status r').
Proof.
  intros Hr. destruct event as [[] now command|[] now]; cbn [do_event].
  - right. by apply fetch_status_step.
  - destruct (creates command) eqn:Hc; [by left|right]. rewrite fetch_unread by done.
    eauto using status_step_refl.
  - unfold alarm. destruct (do_expires_at_ms s) as [e|] eqn:He.
    + destruct (decide (now < e)); [right; eauto using status_step_refl|left].
      right. intros e' He'. simplify_eq. lia.
    + left. right. congruence.
  - left. by left.
Qed.

(** Along any history the record follows the table, up to the event, if any,
    that forgets it. *)
Lemma events_status s events r :
  do_record s = Some r →
  (∃ r', do_record (run_events s events) = Some r' ∧ rtc status_step (status r) (status r')) ∨
  ∃ before event after rm, events = (before ++ event :: after)%list ∧
    do_record (run_events s before) = Some rm ∧ rtc status_step (status r) (status rm) ∧
    forgets (run_events s before) event.
Proof.
  revert s r. induction events as [|event events IH]; intros s r Hr.
  - left. eauto using rtc_refl.
  - destruct (event_step s event r Hr) as [Hf|(r1 & Hr1 & Hs)].
    { right. exists [], event, events, r. split_and!; [done|done|apply rtc_refl|done]. }
    destruct (IH _ _ Hr1) as [(r' & Hr' & Hs')|(before & e & after & rm & -> & Hm & Hs' & Hf)].
    + left. exists r'. split; [exact Hr'|by eapply rtc_l].
    + right. exists (event :: before), e, after, rm. split; [done|]. split; [exact Hm|].
      split; [by eapply rtc_l|exact Hf].
Qed.

(** A patch that does not un-admit: it sets [admitted], or leaves it alone. *)
Definition admits (patch : Value) : bool :=
  match get "admitted" patch with None | Some (VBool true) => true | Some _ => false end.

Lemma merged_admitted r patch r' :
  de_record_fields (merge_patch patch (record_fields r)) = Some r' →
  match obj_get "admitted" patch with
  | Some v => as_bool v = Some (admitted r')
  | None => admitted r' = admitted r
  end.
Proof.
  intros H. assert (req as_bool "admitted" (merge_patch patch (record_fields r)) = Some (admitted r')) as Ha.
  { unfold de_record_fields in H. do 6 apply bind_Some in H as (? & _ & H).
    apply bind_Some in H as (ad & Had & H). rewrite Had. f_equal.
    repeat (apply bind_Some in H as (? & _ & H)). injection H as <-. reflexivity. }
  unfold req in Ha. rewrite obj_get_merge in Ha. destruct (obj_get "admitted" patch) as [v|]; [done|].
  change (obj_get "admitted" (record_fields r)) with (Some (VBool (admitted r))) in Ha.
  cbn in Ha. congruence.
Qed.

Lemma apply_patch_admitted reads_ok s patch r :
  admits patch = true → do_record s = Some r → admitted r = true →
  ∃ r', do_record (apply_patch reads_ok s patch).1 = Some r' ∧ admitted r' = true.
Proof.
  intros Hp Hr Ha. unfold apply_patch, read_record. destruct reads_ok; [|eauto]. rewrite Hr.
  destruct (match get "status" patch with None => _ | Some _ => _ end) as [requested|]; [|eauto].
  destruct (decide_patch _ _); [|eauto]. destruct (as_object patch) as [fields|] eqn:Eo; [|eauto].
  destruct (de_record_fields _) as [r'|] eqn:Em; [|eauto]. exists r'. split; [done|].
  apply merged_admitted in Em. destruct patch as [| | | | |o']; try discriminate Eo. injection Eo as ->.
  unfold admits in Hp. cbn in Hp. destruct (obj_get "admitted" fields) as [v|]; [|congruence].
  destruct v as [|[]| | | |]; try discriminate Hp. cbn in Em. congruence.
Qed.

Lemma dead_letter_admits r now patch : dead_letter_patch r now = Some patch → admits patch = true.
Proof. unfold dead_letter_patch. destruct (status r); simplify_eq; intros [= <-]; reflexivity. Qed.

(** What the executor asks of a record: it never un-admits one, and restores
    a record only where it can see there is none. *)
Definition executor_command (reads_ok : bool) (command : RecordCommand) : bool :=
  match command with
  | Patch patch => admits patch
  | GiveUp _ | MarkBundleMemberSubmitted _ _ | Get | MarkAdmitted => true
  | RestoreQueued _ => reads_ok
  | _ => false
  end.

Lemma executor_keeps_admission reads_ok now s command r :
  executor_command reads_ok command = true → do_record s = Some r → admitted r = true →
  ∃ r', do_record (fetch reads_ok now s command).1 = Some r' ∧ admitted r' = true.
Proof.
  intros Hc Hr Ha. destruct command; try discriminate Hc; cbn [fetch].
  - cbn in Hc. subst reads_ok. unfold create, read_record. rewrite Hr. eauto.
  - eauto.
  - unfold read_record. destruct reads_ok; [rewrite Hr|]; eauto.
  - pose proof (apply_patch_admitted reads_ok s patch r Hc Hr Ha) as Hp.
    by destruct (apply_patch reads_ok s patch).
  - unfold apply_bundle_submission, read_record. destruct reads_ok; [rewrite Hr|eauto].
    destruct (decide_bundle_submission _ _ _ _ _ _); cbn; eauto.
  - unfold give_up_record. destruct (read_record reads_ok s) as [r0|] eqn:E; [|eauto].
    destruct (dead_letter_patch r0 now_ms) as [patch|] eqn:Ed; [|eauto].
    pose proof (apply_patch_admitted reads_ok s patch r (dead_letter_admits _ _ _ Ed) Hr Ha) as Hp.
    by destruct (apply_patch reads_ok s patch) as [s' [[]|]].
Qed.

Lemma executor_status_step reads_ok now s command r :
  executor_command reads_ok command = true → do_record s = Some r →
  ∃ r', do_record (fetch reads_ok now s command).1 = Some r' ∧ status_step (status r) (status r').
Proof.
  intros Hc Hr. destruct reads_ok; [by apply fetch_status_step|].
  rewrite fetch_unread; [eauto using status_step_refl|]. by destruct command.
Qed.

(** The executor's commands leave the slots alone. *)
Lemma patch_holder reads_ok s patch :
  do_nonce_holder (apply_patch reads_ok s patch).1 = do_nonce_holder s.
Proof. unfold apply_patch. by repeat case_match. Qed.

Lemma executor_holder reads_ok now s command :
  executor_command reads_ok command = true →
  do_nonce_holder (fetch reads_ok now s command).1 = do_nonce_holder s.
Proof.
  destruct command; simpl; try done; intros _.
  - unfold create. by destruct (read_record reads_ok s).
  - by destruct (read_record reads_ok s).
  - pose proof (patch_holder reads_ok s patch) as Hp. by destruct (apply_patch _ _ _).
  - unfold apply_bundle_submission. by repeat case_match; simplify_eq/=.
  - unfold give_up_record. destruct (read_record reads_ok s); [|done].
    destruct (dead_letter_patch _ _) as [patch|]; [|done].
    pose proof (patch_holder reads_ok s patch) as Hp. destruct (apply_patch _ _ _) as [s' [[]|]]; done.
Qed.

(** A patch that changes only the dead-letter fields reads back as the record
    with those fields set. *)
Definition gave_up_record (r : StoredUserOperation) (now_ms : Z) : StoredUserOperation :=
  {| status := Rejected; transaction_hash := transaction_hash r; chain_id := chain_id r;
     chain_id_text := chain_id_text r; entry_point := entry_point r;
     user_operation := user_operation r; admitted := admitted r;
     next_receipt_check_at_ms := next_receipt_check_at_ms r;
     block_hash := block_hash r; block_number := block_number r;
     receipt := receipt r; event := event r;
     last_executor_stage := Some DEAD_LETTER_STAGE;
     last_executor_error :=
       Some (truncate_diagnostic (gave_up_reason (last_executor_error r)) 512);
     last_executor_attempt_at_ms := Some now_ms;
     rejection_reason := Some (as_reason_str RelayGaveUp) |}.

Lemma gave_up_merge r now_ms o :
  record_wf r → fits 64 now_ms → dead_letter_patch r now_ms = Some (VObject o) →
  de_record_fields (merge_patch o (record_fields r)) = Some (gave_up_record r now_ms).
Proof.
  intros (Hc & Hn & _ & Hr) Hnow Hp.
  rewrite <-(de_record_fields_ser (gave_up_record r now_ms)).
  2:{ split_and!; [done..| |done]. intros t [= <-]. done. }
  apply de_record_fields_ext. intros k. rewrite obj_get_merge.
  unfold dead_letter_patch in Hp. destruct (status r); simplify_eq Hp; intros <-.
  all: cbn -[truncate_diagnostic gave_up_reason]; destruct (rejection_reason r); simpl.
  all: repeat match goal with
       | |- context [String.eqb ?x ?f] => destruct (String.eqb_spec x f) as [->|]; [reflexivity|]
       end; reflexivity.
Qed.

(** From nothing, a command leaves nothing or a fresh [queued] record. *)
Lemma fetch_from_empty now s command :
  do_record s = None →
  do_record (fetch true now s command).1 = None ∨
  ∃ r, do_record (fetch true now s command).1 = Some r ∧ status r = Queued.
Proof.
  intros Hr. destruct command; simpl; rewrite ?write_nonce_holder_record;
    unfold create, apply_patch, give_up_record, apply_bundle_submission; simpl; rewrite ?Hr; simpl; eauto.
  destruct (release (do_nonce_holder s) user_operation_hash); simpl; rewrite ?Hr; eauto.
Qed.

Lemma history_into_included s s' r' :
  rtc do_step s s' → (∀ r, do_record s = Some r → status r ≠ Included) →
  do_record s' = Some r' → status r' = Included →
  ∃ m rm, rtc do_step s m ∧ rtc do_step m s' ∧ do_record m = Some rm ∧ status rm = Submitted.
Proof.
  induction 1 as [s|s s1 s' Hstep Hrest IH]; intros Hs Hr' Hinc; [naive_solver|].
  destruct Hstep as (now & cmd & Hs1).
  destruct (do_record s) as [r|] eqn:Hr.
  - destruct (fetch_status_step now s cmd r Hr) as (r1 & Hr1 & Hstep). rewrite <-Hs1 in Hr1.
    destruct (decide (status r1 = Included)) as [E|E].
    + rewrite E in Hstep. apply included_from_submitted in Hstep as [?|Hsub]; [naive_solver|].
      exists s, r. split_and!; [apply rtc_refl|eapply rtc_l; [by exists now, cmd|done]|done..].
    + destruct IH as (m & rm & ? & ? & ? & ?); [naive_solver|done..|].
      exists m, rm. split_and!; [eapply rtc_l; [by exists now, cmd|done]|done..].
  - assert (∀ r, do_record s1 = Some r → status r ≠ Included) as Hn.
    { intros r Hr1. subst s1. destruct (fetch_from_empty now s cmd Hr) as [E|(r1 & E & Hq)];
        rewrite Hr1 in E; simplify_eq. by rewrite Hq. }
    destruct (IH Hn Hr' Hinc) as (m & rm & ? & ? & ? & ?).
    exists m, rm. split_and!; [eapply rtc_l; [by exists now, cmd|done]|done..].
Qed.

(** ** Examples *)

Definition example_op : UserOperationV0_7 :=
  {| sender := "0x1111111111111111111111111111111111111111"; nonce := "0x0";
     factory := None; factory_data := None; call_data := "0x";
     call_gas_limit := "0x1"; verification_gas_limit := "0x1"; pre_verification_gas := "0x1";
     max_fee_per_gas := "0x0"; max_priority_fee_per_gas := "0x0"; paymaster := None;
     paymaster_verification_gas_limit := None; paymaster_post_op_gas_limit := None;
     paymaster_data := None; signature := "0x1234"; eip7702_auth := None; fee_token := None |}.
Definition example_queued : QueuedUserOperation :=
  {| q_user_operation_hash := "0xaa"; q_chain_id := 42161;
     q_entry_point := "0x0000000071727De22E5E9d8BAf0edAc6f37da032";
     q_user_operation := V0_7 example_op |}.
Definition empty_do : RecordDo :=
  {| do_record := None; do_nonce_holder := None; do_expires_at_ms := None; do_alarm_at_ms := None |}.
(** Run a list of commands at one clock reading. *)
Definition run_commands (s : RecordDo) (l : list RecordCommand) : RecordDo :=
  foldl (λ s c, (fetch true 0 s c).1) s l.

Lemma run_commands_history s l : rtc do_step s (run_commands s l).
Proof.
  unfold run_commands. revert s. induction l as [|c l IH]; intros s; simpl; [apply rtc_refl|].
  eapply rtc_l; [by exists 0, c|]. apply IH.
Qed.

Definition included_history : list RecordCommand :=
  [CreateQueued example_queued; MarkAdmitted; MarkBundleMemberSubmitted 42161 "0xbundle";
   Patch (VObject [("status", VString "included")])].
Definition queued_do : RecordDo := run_commands empty_do [CreateQueued example_queued].

(** A record whose read fails is overwritten by the next create. *)
Lemma create_after_failed_read_overwrites :
  do_record (run_commands empty_do included_history) ≠ None ∧
  status <$> do_record (fetch false 0 (run_commands empty_do included_history)
    (CreateQueued example_queued)).1 = Some Queued.
Proof. split; vm_compute; congruence. Qed.

(** ** The stored record's type *)

(** What the object stores reads back. *)
Definition typed_do (s : RecordDo) : Prop := ∀ r, do_record s = Some r → record_wf r.

(** The integers of a command's operation. *)
Definition typed_command (command : RecordCommand) : Prop :=
  match command with
  | CreateQueued operation | RestoreQueued operation => fits 64 (q_chain_id operation)
  | _ => True
  end.

Lemma typed_put s r : record_wf r → typed_do (put_record s r).
Proof. by intros Hr r' [= <-]. Qed.

Lemma typed_create reads_ok now s operation admitted :
  fits 64 (q_chain_id operation) → typed_do s → typed_do (create reads_ok now s operation admitted).1.
Proof.
  intros Hf Hs. unfold create. destruct (read_record _ _); [done|].
  intros r [= <-]. split; [exact Hf|]. by repeat split.
Qed.

Lemma typed_read reads_ok s r : typed_do s → read_record reads_ok s = Some r → record_wf r.
Proof. intros Hs. destruct reads_ok; [apply Hs|done]. Qed.

Lemma typed_patch reads_ok s patch : typed_do s → typed_do (apply_patch reads_ok s patch).1.
Proof.
  intros Hs. unfold apply_patch. destruct (read_record _ _) as [r|]; [|done].
  destruct (match get "status" patch with None => _ | Some _ => _ end) as [requested|]; [|done].
  destruct (decide_patch _ _); [|done]. destruct (as_object patch) as [o|]; [|done].
  destruct (de_record_fields _) as [merged|] eqn:E; [|done]. by eapply typed_put, de_record_fields_wf.
Qed.

Lemma typed_give_up reads_ok now s now_ms : typed_do s → typed_do (give_up_record reads_ok now s now_ms).1.
Proof.
  intros Hs. unfold give_up_record. destruct (read_record _ _); [|done].
  destruct (dead_letter_patch _ _) as [patch|]; [|done].
  pose proof (typed_patch reads_ok s patch Hs) as Hp.
  by destruct (apply_patch _ _ _) as [s' [[]|]].
Qed.

Lemma typed_submission reads_ok s c h : typed_do s → typed_do (apply_bundle_submission reads_ok s c h).1.
Proof.
  intros Hs. unfold apply_bundle_submission. destruct (read_record _ _) as [r|] eqn:E; [|done].
  destruct (decide_bundle_submission _ _ _ _ _ _); try done. apply typed_put.
  by destruct (typed_read _ _ _ Hs E) as (? & ? & ? & ?).
Qed.

(** ** Properties *)

(** C25: whatever commands and alarms a record's object serves, in whatever
    order, at whatever times and with whichever storage reads failing, the
    record's status only ever moves along the lifecycle table, never twice
    through the same rank, and once [rejected], [included] or [failed] it
    never changes again — until, if ever, the record is forgotten: dropped by
    an alarm at or after its expiry, dropped by an alarm that could not read
    the expiry, or overwritten by a creation that could not read the record. *)
Theorem record_history_follows_lifecycle s events r :
  do_record s = Some r →
  let lawful st := rtc status_step (status r) st ∧
    (st = status r ∨ (status_rank (status r) < status_rank st)%nat) ∧
    (is_terminal (status r) = true → st = status r) in
  (∃ r', do_record (run_events s events) = Some r' ∧ lawful (status r')) ∨
  ∃ before event after rm, events = (before ++ event :: after)%list ∧
    do_record (run_events s before) = Some rm ∧ lawful (status rm) ∧
    match event with
    | Command reads_ok _ (CreateQueued _ | RestoreQueued _) => reads_ok = false
    | Command _ _ _ => False
    | AlarmFires reads_ok now =>
        reads_ok = false ∨
        ∀ expires_at, do_expires_at_ms (run_events s before) = Some expires_at → expires_at ≤ now
    end.
Proof.
  intros Hr lawful. assert (∀ st, rtc status_step (status r) st → lawful st) as Hl.
  { intros st Hs. split_and!; [done| |by intros; eapply terminal_stays].
    destruct (rtc_status_rank _ _ Hs); auto. }
  destruct (events_status s events r Hr) as [(r' & Hr' & Hs)|(before & e & after & rm & -> & Hm & Hs & Hf)].
  - left. eauto.
  - right. exists before, e, after, rm. split_and!; [done|done|by apply Hl|].
    destruct e as [reads_ok now command|reads_ok now]; [|exact Hf].
    destruct Hf as [-> Hc]. by destruct command.
Qed.

Definition given_up_history : list RecordEvent :=
  [Command true 5 MarkAdmitted; Command false 6 (Patch (VObject [])); AlarmFires true 6;
   Command true 7 (GiveUp 7); Command true 8 (MarkBundleMemberSubmitted 42161 "0xb")].

Lemma record_history_follows_lifecycle_witness :
  ∃ r', do_record (run_events queued_do given_up_history) = Some r' ∧
    rtc status_step Queued (status r') ∧ status r' = Rejected.
Proof.
  assert (do_record queued_do = Some (queued_record example_queued false)) as Hq by reflexivity.
  destruct (record_history_follows_lifecycle queued_do given_up_history _ Hq)
    as [(r' & Hr' & Hs & _)|(before & event & after & rm & Hb & _ & _ & Hf)].
  - exists r'. split; [exact Hr'|]. split; [exact Hs|].
    vm_compute in Hr'. injection Hr' as <-. reflexivity.
  - exfalso. unfold given_up_history in Hb.
    do 5 try (destruct before as [|? before]; [injection Hb as <- _; cbn in Hf|injection Hb as <- Hb]).
    all: try exact Hf.
    + destruct Hf as [Hf|Hf]; [discriminate Hf|].
      pose proof (Hf _ eq_refl) as Hbad. vm_compute in Hbad. by apply Hbad.
    + by destruct before.
Defined.

(** No command history shows an operation [included] without having
    recorded it [submitted] first. *)
Theorem included_only_after_submitted s s' r' :
  rtc do_step s s' → (∀ r, do_record s = Some r → status r ≠ Included) →
  do_record s' = Some r' → status r' = Included →
  ∃ m rm, rtc do_step s m ∧ rtc do_step m s' ∧ do_record m = Some rm ∧ status rm = Submitted.
Proof. apply history_into_included. Qed.

Lemma included_only_after_submitted_witness :
  ∃ m rm, rtc do_step empty_do m ∧ rtc do_step m (run_commands empty_do included_history) ∧
    do_record m = Some rm ∧ status rm = Submitted.
Proof.
  destruct (do_record (run_commands empty_do included_history)) as [r'|] eqn:E;
    [|vm_compute in E; discriminate E].
  apply (included_only_after_submitted empty_do _ r').
  - apply run_commands_history.
  - intros r Hr. discriminate Hr.
  - exact E.
  - vm_compute in E. injection E as <-. reflexivity.
Defined.

(** A record joins a bundle's index exactly when it ends up [submitted]
    under that bundle's transaction on that bundle's chain; in every other
    case (another chain, a settled record, one submitted under a different
    transaction) the object is left untouched. *)
Theorem bundle_membership_exact now s c h s' b :
  fetch true now s (MarkBundleMemberSubmitted c h) = (s', Ok (Indexed b)) →
  if b then ∃ r', do_record s' = Some r' ∧ status r' = Submitted ∧
                  transaction_hash r' = Some h ∧
                  (chain_id_text r' = dec c ∨ chain_id_text r' = "" ∧ chain_id r' = c)
  else s' = s.
Proof.
  simpl. unfold apply_bundle_submission, decide_bundle_submission. simpl. intros H.
  destruct (do_record s) as [r|] eqn:Hr; [|by simplify_eq/=].
  set (same := match chain_id_text r with EmptyString => _ | _ => _ end) in H.
  assert (Hsame : same = true →
    chain_id_text r = dec c ∨ chain_id_text r = "" ∧ chain_id r = c).
  { unfold same. destruct (chain_id_text r).
    - intros [E _]%andb_true_iff. apply bool_decide_eq_true in E. auto.
    - intros E%String.eqb_eq. auto. }
  destruct same; simpl in H; [|by simplify_eq/=]. specialize (Hsame eq_refl).
  destruct (status r) eqn:Est; try case_decide; simplify_eq/=; eauto 10.
Qed.

Lemma bundle_membership_exact_witness :
  ∃ r', do_record (run_commands queued_do [MarkBundleMemberSubmitted 42161 "0xb"]) = Some r' ∧
    status r' = Submitted ∧ transaction_hash r' = Some "0xb".
Proof.
  destruct (bundle_membership_exact 0 queued_do 42161 "0xb"
    (run_commands queued_do [MarkBundleMemberSubmitted 42161 "0xb"]) true)
    as (r' & ? & ? & ? & _); [vm_compute; reflexivity | eauto].
Defined.

(** A dead-lettered operation that never left the relay becomes
    [rejected], with the reason a wallet can read ([relay_gave_up]), a
    diagnostic of at most 512 bytes, every other field intact, and one more
    hour to be read; any other record is left exactly as it is. *)
Theorem give_up_rejects_only_unsent now s now_ms r :
  do_record s = Some r → record_wf r → fits 64 now_ms →
  match status r with
  | Queued | NotSubmitted =>
      ∃ s', fetch true now s (GiveUp now_ms) = (s', Ok (Patched true)) ∧
        do_record s' = Some (gave_up_record r now_ms) ∧
        of_record (gave_up_record r now_ms) = Some RelayGaveUp ∧
        do_expires_at_ms s' = Some (wrapping 64 (now_ms + RECORD_TTL_MS)) ∧
        (∀ e, last_executor_error (gave_up_record r now_ms) = Some e →
           (String.length e ≤ 512)%nat)
  | _ => fetch true now s (GiveUp now_ms) = (s, Ok (Patched false))
  end.
Proof.
  intros Hr Hwf Hnow. pose proof (gave_up_merge r now_ms) as Hm.
  assert (Hlen : ∀ e, last_executor_error (gave_up_record r now_ms) = Some e →
    (String.length e ≤ 512)%nat).
  { intros e [= <-]. apply truncate_diagnostic_length. }
  simpl. unfold give_up_record. simpl. rewrite Hr.
  unfold dead_letter_patch in *. destruct (status r) eqn:Est; try reflexivity.
  all: specialize (Hm _ Hwf Hnow eq_refl).
  all: erewrite apply_patch_merged; [|eassumption|reflexivity|reflexivity|by rewrite Est|exact Hm].
  all: eexists; split_and!; [reflexivity|reflexivity|reflexivity|reflexivity|exact Hlen].
Qed.

Lemma give_up_rejects_only_unsent_witness :
  ∃ s', fetch true 5 queued_do (GiveUp 7) = (s', Ok (Patched true)) ∧
    do_record s' = Some (gave_up_record (queued_record example_queued false) 7).
Proof.
  destruct (give_up_rejects_only_unsent 5 queued_do 7 (queued_record example_queued false))
    as (s' & H1 & H2 & _).
  - vm_compute. reflexivity.
  - split; [vm_compute; split; congruence|]. split; [vm_compute; split; congruence|].
    split; [intros t Ht; discriminate Ht | discriminate].
  - vm_compute. split; congruence.
  - exists s'. split; [exact H1 | exact H2].
Defined.

(** C37: What is stored reads back.  Whatever command an object executes and
    whatever its alarm does, with readable storage or not, the record it stores
    keeps its type: its integers are [u64]s and its receipt is no bare [null].
    So the JSON written for it always reads back as the same record, and no
    stored operation is lost to a value its own writer produced. *)
Theorem stored_record_reads_back reads_ok now s command s' :
  typed_do s → typed_command command →
  s' = (fetch reads_ok now s command).1 ∨ s' = alarm reads_ok now s →
  typed_do s' ∧ ∀ r, do_record s' = Some r → de_record_fields (record_fields r) = Some r.
Proof.
  intros Hs Hc Hstep. assert (Ht : typed_do s').
  { destruct Hstep as [->| ->].
    - destruct command; cbn [fetch]; try done.
      + by apply typed_create.
      + by apply typed_create.
      + destruct (read_record _ _) as [r|] eqn:E; [|done]. apply typed_put.
        by destruct (typed_read _ _ _ Hs E) as (? & ? & ? & ?).
      + by apply typed_patch.
      + by apply typed_submission.
      + by apply typed_give_up.
      + destruct reads_ok; [|done]. cbn. by destruct (step_write _).
      + destruct reads_ok; [|done]. cbn. by destruct (step_write _).
      + destruct reads_ok; [|done]. cbn. by destruct (release _ _).
    - unfold alarm. destruct (if reads_ok then _ else None); [case_decide|]; done. }
  split; [done|]. intros r Hr. by apply de_record_fields_ser, Ht.
Qed.

Lemma stored_record_reads_back_witness :
  ∃ r, do_record (fetch true 5 (run_commands empty_do included_history)
                    (Patch (VObject [("blockNumber", VString "0x10")]))).1 = Some r ∧
    de_record_fields (record_fields r) = Some r.
Proof.
  assert (Hs : typed_do (run_commands empty_do included_history)).
  { intros r Hr. vm_compute in Hr. injection Hr as <-. split; [done|]. split; [done|]. by split. }
  destruct (stored_record_reads_back true 5 (run_commands empty_do included_history)
    (Patch (VObject [("blockNumber", VString "0x10")])) _ Hs I (or_introl eq_refl)) as [_ Hr].
  destruct (do_record _) as [r|] eqn:E; [|vm_compute in E; discriminate E].
  exists r. split; [reflexivity|]. by apply Hr.
Defined.
