(* ===== verification/AdmissionShell.v ===== *)
(** * AdmissionShell: the Cloudflare arms of the admission program
    ([vela-relay-cf/src/admission.rs])

    The store is a family of [RecordDo] objects, addressed by name; a queue
    holds the messages that were appended.  What the platform decides (does a
    request reach the object, does its answer come back, does the queue take
    a message) is the [Weather] of one operation, so that every failure the
    arms fold into a result is a case of [execute_operation]. *)

From S2P Require Export Admission.
From S2P Require RecordDo.
#[local] Open Scope string_scope.
#[local] Open Scope list_scope.
#[local] Open Scope Z_scope.

(** ** Durable objects *)

Notation Objects := (gmap string RecordDo.RecordDo).

Definition new_object : RecordDo.RecordDo :=
  {| RecordDo.do_record := None; RecordDo.do_nonce_holder := None;
     RecordDo.do_expires_at_ms := None; RecordDo.do_alarm_at_ms := None |}.

Definition object (objects : Objects) (name : string) : RecordDo.RecordDo :=
  default new_object (objects !! name).

Record Weather : Type := {
  reaches : bool;                  (* the request reaches the object *)
  answers : bool;                  (* and its answer comes back *)
  queue_bound : bool;              (* [env.queue(QUEUE_BINDING)] *)
  queue_appends : bool;            (* the queue takes the message *)
  queue_confirms : bool;           (* and says so *)
  settlement_assets : option (Z * list string);
  erc20_decimals : option Z }.

Record World : Type := { objects : Objects; queue : list Value }.

Definition record_name (chain_id : Z) (hash : string) : string := dec chain_id +:+ ":" +:+ hash.
Definition slot_name (slot : NonceSlot) : string := "nonce:" +:+ slot_key slot.

(** One command to the object of that name, at its clock. *)
Definition record_instance_command (now : Z) (weather : Weather) (world : World) (name : string)
    (command : RecordDo.RecordCommand) : World * result () RecordDo.RecordReply :=
  if reaches weather then
    let '(state, reply) := RecordDo.fetch true now (object (objects world) name) command in
    ({| objects := <[name := state]> (objects world); queue := queue world |},
     if answers weather then reply else Err tt)
  else (world, Err tt).

Definition record_command (now : Z) (weather : Weather) (world : World) (chain_id : Z) (hash : string)
    (command : RecordDo.RecordCommand) :=
  record_instance_command now weather world (record_name chain_id hash) command.

Definition nonce_slot_command (now : Z) (weather : Weather) (world : World) (slot : NonceSlot)
    (command : RecordDo.RecordCommand) :=
  record_instance_command now weather world (slot_name slot) command.

(** [execute]: one operation, every failure folded into a result. *)
Definition execute_operation (chain_id : Z) (now : Z) (weather : Weather) (world : World)
    (operation : AdmissionOperation) : World * AdmissionResult :=
  match operation with
  | LoadSettlementAssets =>
      (world, match settlement_assets weather with
              | Some (native_decimals, stablecoins) => Assets native_decimals stablecoins
              | None => AssetsUnavailable
              end)
  | FetchTokenDecimals _ =>
      (world, match erc20_decimals weather with
              | Some decimals => Decimals decimals
              | None => DecimalsUnavailable
              end)
  | ClaimNonce slot holder =>
      let '(world, reply) := nonce_slot_command now weather world slot (RecordDo.ClaimNonce holder) in
      (world, match reply with Ok (RecordDo.Nonce claim) => ResNonceClaim claim | _ => StoreFailed end)
  | TakeOverNonce slot judged holder =>
      let '(world, reply) :=
        nonce_slot_command now weather world slot (RecordDo.TakeOverNonce judged holder) in
      (world, match reply with Ok (RecordDo.Nonce claim) => ResNonceClaim claim | _ => StoreFailed end)
  | ReleaseNonce slot hash =>
      let '(world, _) := nonce_slot_command now weather world slot (RecordDo.ReleaseNonce hash) in
      (world, NonceReleased)
  | CreateQueued operation =>
      if queue_bound weather then
        let '(world, reply) :=
          record_command now weather world chain_id (q_user_operation_hash operation)
            (RecordDo.CreateQueued operation) in
        (world, match reply with Ok (RecordDo.Created created) => Created created | _ => StoreFailed end)
      else (world, ResQueueUnavailable)
  | LoadExisting hash =>
      let '(world, reply) := record_command now weather world chain_id hash RecordDo.Get in
      (world, match reply with Ok (RecordDo.RecordRead record) => ResRecord record | _ => StoreFailed end)
  | Enqueue envelope _ =>
      if queue_bound weather then
        ({| objects := objects world;
            queue := if queue_appends weather then queue world ++ [envelope] else queue world |},
         if queue_appends weather && queue_confirms weather then Enqueued else ResQueueUnavailable)
      else (world, ResQueueUnavailable)
  | MarkAdmitted hash =>
      let '(world, reply) := record_command now weather world chain_id hash RecordDo.MarkAdmitted in
      (world, match reply with Ok (RecordDo.Marked marked) => Marked marked | _ => StoreFailed end)
  end.

(** A platform where everything works. *)
Definition fair : Weather :=
  {| reaches := true; answers := true; queue_bound := true; queue_appends := true;
     queue_confirms := true; settlement_assets := Some (6, []); erc20_decimals := None |}.
