(* ===== verification/AdmissionRace.v ===== *)
(** * AdmissionRace: concurrent admissions over one store

    Any number of admissions, each the program of [Admission] driven by the
    arms of [AdmissionShell], interleaved request by request over the same
    durable objects and queue, together with the executor's commands and the
    clock.  An admission runs within [ADMISSION_GRACE_MS] of its start, the
    time [nonce_slot.rs] says covers one; one that is slower is dropped. *)

From S2P Require Export AdmissionShell.
#[local] Open Scope string_scope.
#[local] Open Scope list_scope.
#[local] Open Scope Z_scope.

Section Race.
Context `{HX : Hex} `{HK : Keccak} `{TW : TargetWidth}.

Notation Trace := (trace AdmissionOperation AdmissionResult).
Notation Prog := (prog AdmissionOperation AdmissionResult AdmissionOutcome).

Record Admission : Type := { ad_submit : SubmitRequest; ad_trace : Trace; ad_rest : Prog }.

Record System : Type := { clock : Z; world : World; admissions : list Admission }.

Definition begin (submit : SubmitRequest) : Admission :=
  {| ad_submit := submit; ad_trace := []; ad_rest := admission_of submit |}.

Definition initial (now : Z) (submits : list SubmitRequest) : System :=
  {| clock := now; world := {| objects := ∅; queue := [] |}; admissions := map begin submits |}.

(** The [i]-th admission makes its next request. *)
Definition advance (weather : Weather) (s : System) (i : nat) : option System :=
  a ← admissions s !! i;
  match ad_rest a with
  | Ret _ => None
  | Ask op k =>
      if decide (now_ms (ad_submit a) ≤ clock s < now_ms (ad_submit a) + ADMISSION_GRACE_MS) then
        let '(world', reply) :=
          execute_operation (sub_chain_id (ad_submit a)) (clock s) weather (world s) op in
        Some {| clock := clock s; world := world';
                admissions := <[i := {| ad_submit := ad_submit a; ad_trace := ad_trace a ++ [(op, reply)];
                                        ad_rest := k reply |}]> (admissions s) |}
      else None
  end.

(** The executor sends a record one of its commands
    ([RecordDo.executor_command]: any but the creations of an admission, and no
    patch that un-admits; [LaneDo.receipt_patch_admits] and
    [LaneArms.record_patches_admit] are its own patches). *)
Inductive step : System → System → Prop :=
  | step_clock s now : clock s ≤ now →
      step s {| clock := now; world := world s; admissions := admissions s |}
  | step_admission weather s i s' : advance weather s i = Some s' → step s s'
  | step_executor reads_ok s name cmd state reply :
      RecordDo.executor_command reads_ok cmd = true →
      RecordDo.fetch reads_ok (clock s) (object (objects (world s)) name) cmd = (state, reply) →
      step s {| clock := clock s;
                world := {| objects := <[name := state]> (objects (world s)); queue := queue (world s) |};
                admissions := admissions s |}.

(** ** What one request does to the objects *)

Definition record_at (w : World) (name : string) : option StoredUserOperation :=
  RecordDo.do_record (object (objects w) name).
Definition holder_at (w : World) (name : string) : option NonceHolder :=
  RecordDo.do_nonce_holder (object (objects w) name).

Lemma object_insert objs name state name' :
  object (<[name := state]> objs) name' = if decide (name = name') then state else object objs name'.
Proof.
  unfold object. destruct (decide (name = name')) as [->|Hne].
  - by rewrite lookup_insert_eq.
  - by rewrite lookup_insert_ne.
Qed.

(** The command an operation sends, and the object it goes to. *)
Definition command_of (chain : Z) (op : AdmissionOperation) : option (string * RecordDo.RecordCommand) :=
  match op with
  | ClaimNonce slot holder => Some (slot_name slot, RecordDo.ClaimNonce holder)
  | TakeOverNonce slot judged holder => Some (slot_name slot, RecordDo.TakeOverNonce judged holder)
  | ReleaseNonce slot hash => Some (slot_name slot, RecordDo.ReleaseNonce hash)
  | CreateQueued q => Some (record_name chain (q_user_operation_hash q), RecordDo.CreateQueued q)
  | LoadExisting hash => Some (record_name chain hash, RecordDo.Get)
  | MarkAdmitted hash => Some (record_name chain hash, RecordDo.MarkAdmitted)
  | LoadSettlementAssets | FetchTokenDecimals _ | Enqueue _ _ => None
  end.

(** Either the objects are as they were, or the command ran on its object. *)
Lemma execute_objects chain now weather w op :
  let w' := (execute_operation chain now weather w op).1 in
  objects w' = objects w ∨
  ∃ name cmd, command_of chain op = Some (name, cmd) ∧
    objects w' = <[name := (RecordDo.fetch true now (object (objects w) name) cmd).1]> (objects w).
Proof.
  assert (Hrun : ∀ name cmd, let w' := (record_instance_command now weather w name cmd).1 in
    objects w' = objects w ∨
    objects w' = <[name := (RecordDo.fetch true now (object (objects w) name) cmd).1]> (objects w)).
  { intros name cmd. unfold record_instance_command. destruct (reaches weather); [|by left].
    destruct (RecordDo.fetch _ _ _ _) as [state reply]. by right. }
  assert (Hsent : ∀ name cmd (f : result () RecordDo.RecordReply → AdmissionResult),
    command_of chain op = Some (name, cmd) →
    let w' := (let '(w1, r) := record_instance_command now weather w name cmd in (w1, f r)).1 in
    objects w' = objects w ∨ ∃ name cmd, command_of chain op = Some (name, cmd) ∧
    objects w' = <[name := (RecordDo.fetch true now (object (objects w) name) cmd).1]> (objects w)).
  { intros name cmd f Hc. specialize (Hrun name cmd).
    destruct (record_instance_command now weather w name cmd) as [w1 r].
    destruct Hrun as [?|Hr]; [by left|]. right. eauto. }
  destruct op; cbn [execute_operation]; try (by left);
    try (destruct (queue_bound weather); [|by left]);
    first [by left | by apply Hsent].
Qed.

(** ** What an answer proves *)

Lemma sent_answer now weather w name cmd reply :
  (record_instance_command now weather w name cmd).2 = Ok reply →
  (RecordDo.fetch true now (object (objects w) name) cmd).2 = Ok reply ∧
  objects (record_instance_command now weather w name cmd).1 =
    <[name := (RecordDo.fetch true now (object (objects w) name) cmd).1]> (objects w).
Proof.
  unfold record_instance_command. destruct (reaches weather); [|done].
  destruct (RecordDo.fetch _ _ _ _) as [state r]. by destruct (answers weather).
Qed.

(** A slot step as its object runs it. *)
Lemma slot_step_holder now state stp :
  RecordDo.do_nonce_holder (RecordDo.write_nonce_holder now state (step_write stp)) =
  apply_step (RecordDo.do_nonce_holder state) stp.
Proof. unfold apply_step. by destruct (step_write stp). Qed.

Lemma slot_answer now weather w slot cmd stp claim :
  RecordDo.fetch true now (object (objects w) (slot_name slot)) cmd =
    (RecordDo.write_nonce_holder now (object (objects w) (slot_name slot)) (step_write stp),
     Ok (RecordDo.Nonce (step_reply stp))) →
  match (nonce_slot_command now weather w slot cmd).2 with
  | Ok (RecordDo.Nonce claim') => ResNonceClaim claim' | _ => StoreFailed end = ResNonceClaim claim →
  claim = step_reply stp ∧
  holder_at (nonce_slot_command now weather w slot cmd).1 (slot_name slot) =
    apply_step (holder_at w (slot_name slot)) stp.
Proof.
  intros Hf Hm. unfold nonce_slot_command in *.
  destruct (_.2) as [[]|] eqn:E in Hm; simplify_eq.
  apply sent_answer in E as [E Eo]. rewrite Hf in E, Eo. injection E as ->. split; [done|].
  unfold holder_at. rewrite Eo, object_insert, decide_True by done. apply slot_step_holder.
Qed.

Lemma claim_answer chain now weather w op claim :
  (execute_operation chain now weather w op).2 = ResNonceClaim claim →
  ∃ slot by_, (op = ClaimNonce slot by_ ∨ ∃ judged, op = TakeOverNonce slot judged by_) ∧
    match claim with
    | Held h => holder_at w (slot_name slot) = Some h
    | Claimed _ => names (holder_at (execute_operation chain now weather w op).1 (slot_name slot))
                         (nh_user_operation_hash by_)
    end.
Proof.
  destruct op as [| |slot holder|slot judged holder| | | | |]; cbn [execute_operation]; intros Ha.
  3: { destruct (nonce_slot_command now weather w slot _) as [w1 r] eqn:E. cbn [fst snd] in *.
       pose proof (slot_answer now weather w slot (RecordDo.ClaimNonce holder)
         (Lifecycle.claim (holder_at w (slot_name slot)) holder) claim eq_refl) as Hs.
       rewrite E in Hs. destruct (Hs Ha) as [-> Hh]. cbn [fst] in Hh.
       exists slot, holder. split; [by left|].
       pose proof (claim_reply (holder_at w (slot_name slot)) holder) as Hrep. cbn zeta in Hrep.
       destruct (step_reply _); rewrite ?Hh; tauto. }
  3: { destruct (nonce_slot_command now weather w slot _) as [w1 r] eqn:E. cbn [fst snd] in *.
       pose proof (slot_answer now weather w slot (RecordDo.TakeOverNonce judged holder)
         (take_over (holder_at w (slot_name slot)) judged holder) claim eq_refl) as Hs.
       rewrite E in Hs. destruct (Hs Ha) as [-> Hh]. cbn [fst] in Hh.
       exists slot, holder. split; [right; by exists judged|].
       pose proof (take_over_reply (holder_at w (slot_name slot)) judged holder) as Hrep. cbn zeta in Hrep.
       destruct (step_reply _); rewrite ?Hh; tauto. }
  all: repeat case_match; simplify_eq/=; done.
Qed.

(** A loaded record is the one stored. *)
Lemma load_answer chain now weather w hash record :
  (execute_operation chain now weather w (LoadExisting hash)).2 = ResRecord record →
  record = record_at w (record_name chain hash).
Proof.
  cbn [execute_operation]. unfold record_command.
  destruct (record_instance_command _ _ _ _ _) as [w1 r] eqn:E. cbn [snd]. intros Ha.
  destruct r as [[]|]; simplify_eq/=.
  pose proof (sent_answer now weather w (record_name chain hash) RecordDo.Get) as Hs. rewrite E in Hs.
  destruct (Hs _ eq_refl) as [Hf _]. by injection Hf as <-.
Qed.

Lemma mark_answer chain now weather w hash :
  (execute_operation chain now weather w (MarkAdmitted hash)).2 = Marked true →
  ∃ r, record_at (execute_operation chain now weather w (MarkAdmitted hash)).1 (record_name chain hash) = Some r ∧
       admitted r = true.
Proof.
  cbn [execute_operation]. unfold record_command.
  destruct (record_instance_command _ _ _ _ _) as [w1 r] eqn:E. cbn [fst snd]. intros Ha.
  destruct r as [[| |marked| | | |]|]; simplify_eq/=.
  pose proof (sent_answer now weather w (record_name chain hash) RecordDo.MarkAdmitted) as Hs.
  rewrite E in Hs. destruct (Hs _ eq_refl) as [Hf Ho]. cbn [fst] in Ho. unfold record_at.
  rewrite Ho, object_insert, decide_True by done. simpl in Hf |- *.
  destruct (RecordDo.do_record _) as [r|]; [|done]. by eexists.
Qed.

Lemma execute_queue chain now weather w op :
  queue w ⊆ queue (execute_operation chain now weather w op).1.
Proof.
  assert (Hq : ∀ name cmd, queue (record_instance_command now weather w name cmd).1 = queue w).
  { intros name cmd. unfold record_instance_command. destruct (reaches weather); [|done].
    by destruct (RecordDo.fetch _ _ _ _). }
  destruct op; cbn [execute_operation]; unfold nonce_slot_command, record_command;
    try match goal with |- context [record_instance_command now weather w ?n ?c] =>
      specialize (Hq n c); destruct (record_instance_command now weather w n c) end;
    try destruct (queue_bound weather); try destruct (queue_appends weather); cbn [fst objects queue] in *;
    try rewrite Hq; intros x Hx; first [exact Hx | apply elem_of_app; by left].
Qed.

Lemma enqueue_answer chain now weather w env retry :
  (execute_operation chain now weather w (Enqueue env retry)).2 = Enqueued →
  env ∈ queue (execute_operation chain now weather w (Enqueue env retry)).1.
Proof.
  cbn [execute_operation]. destruct (queue_bound weather); [|done].
  destruct (queue_appends weather); [|done]. intros _. simpl.
  apply elem_of_app. right. by left.
Qed.

(** ** What a request leaves of the records and slots *)

Lemma execute_record chain now weather w op name r :
  record_at w name = Some r →
  ∃ r', record_at (execute_operation chain now weather w op).1 name = Some r' ∧
    Lifecycle.status_step (status r) (status r') ∧ (admitted r = true → admitted r' = true).
Proof.
  intros Hr. assert (Hsame : ∃ r', record_at w name = Some r' ∧
    Lifecycle.status_step (status r) (status r') ∧ (admitted r = true → admitted r' = true))
    by (exists r; split; [done|]; split; [apply Lifecycle.status_step_refl|done]).
  destruct (execute_objects chain now weather w op) as [Ho|(name' & cmd & Hc & Ho)];
    unfold record_at in *; rewrite Ho; [done|].
  rewrite object_insert. case_decide; [subst name'|done].
  destruct (RecordDo.fetch_status_step now _ cmd r Hr) as (r' & Hr' & Hs).
  exists r'. split; [done|]. split; [done|]. intros Ha. clear Hsame Ho.
  destruct op; cbn [command_of] in Hc; try discriminate Hc; injection Hc as <- <-; simpl in Hr'.
  - rewrite RecordDo.write_nonce_holder_record, Hr in Hr'. congruence.
  - rewrite RecordDo.write_nonce_holder_record, Hr in Hr'. congruence.
  - destruct (release _ _); simpl in Hr'; rewrite Hr in Hr'; congruence.
  - unfold RecordDo.create in Hr'. simpl in Hr'. rewrite Hr in Hr'. simpl in Hr'. congruence.
  - rewrite Hr in Hr'. congruence.
  - rewrite Hr in Hr'. simpl in Hr'. injection Hr' as <-. done.
Qed.

(** The ways a slot's holder changes. *)
Inductive holder_change (name : string) (op : AdmissionOperation) :
    option NonceHolder → option NonceHolder → Prop :=
  | unchanged h : holder_change name op h h
  | claimed slot by_ :
      op = ClaimNonce slot by_ → name = slot_name slot → holder_change name op None (Some by_)
  | taken slot judged by_ h :
      op = TakeOverNonce slot judged by_ → name = slot_name slot →
      (∀ h', h = Some h' → eq_ignore_ascii_case (nh_user_operation_hash h') judged = true) →
      holder_change name op h (Some by_)
  | released slot hash h :
      op = ReleaseNonce slot hash → name = slot_name slot →
      eq_ignore_ascii_case (nh_user_operation_hash h) hash = true →
      holder_change name op (Some h) None.

Lemma execute_holder chain now weather w op name :
  holder_change name op (holder_at w name) (holder_at (execute_operation chain now weather w op).1 name).
Proof.
  destruct (execute_objects chain now weather w op) as [Ho|(name' & cmd & Hc & Ho)];
    unfold holder_at in *; rewrite Ho; [constructor|].
  rewrite object_insert. case_decide; [subst name'|constructor].
  destruct op; cbn [command_of] in Hc; simplify_eq/=; try constructor.
  - rewrite slot_step_holder. unfold claim, apply_step. destruct (RecordDo.do_nonce_holder _) as [h|].
    + destruct (same_hash h holder); simpl; constructor.
    + simpl. by eapply claimed.
  - rewrite slot_step_holder. unfold take_over, apply_step. destruct (RecordDo.do_nonce_holder _) as [h|].
    + destruct (same_hash h holder); simpl; [constructor|].
      destruct (eq_ignore_ascii_case _ judged_user_operation_hash) eqn:E; simpl; [|constructor].
      eapply taken; [done..|]. by intros h' [= <-].
    + simpl. by eapply taken.
  - unfold release. destruct (RecordDo.do_nonce_holder _) as [h|] eqn:Hh; [|rewrite Hh; constructor].
    destruct (eq_ignore_ascii_case _ _) eqn:E; [|rewrite Hh; constructor]. simpl. by eapply released.
  - unfold RecordDo.create. simpl. destruct (RecordDo.do_record _); constructor.
  - destruct (RecordDo.do_record _); constructor.
Qed.

(** ** Programs part of the way *)

Lemma advance_trace submit t rest :
  follows (admission_of submit) t rest → ∃ t' o, runs (admission_of submit) (t ++ t') o.
Proof. intros Hf. eapply follows_extends; [exact StoreFailed|exact Hf]. Qed.

Lemma partial_own submit t rest :
  follows (admission_of submit) t rest → Forall (λ x, own_request submit x.1) t.
Proof.
  intros (t' & o & Hr%requests_are_own)%advance_trace. by apply Forall_app in Hr as [? _].
Qed.

(** A marked record is the end of its admission. *)
Lemma partial_marked submit t rest hash :
  follows (admission_of submit) t rest → (MarkAdmitted hash, Marked true) ∈ t →
  (∃ op fresh, (op, ResNonceClaim (Claimed fresh)) ∈ t) ∧ (∀ s h a, (ReleaseNonce s h, a) ∉ t) ∧
  ∃ env retry, (Enqueue env retry, Enqueued) ∈ t ∧ get "userOperationHash" env = Some (VString hash).
Proof.
  intros (t' & o & Hr)%advance_trace Hin.
  destruct (marked_is_accepted _ _ _ hash Hr ltac:(set_solver)) as (Hw & Hg & Hq & front & Hf & Hnot).
  assert (t' = []) as ->; [|by rewrite app_nil_r in *].
  destruct t' as [|x t' _] using rev_ind; [done|]. rewrite app_assoc in Hf.
  apply app_inj_tail in Hf as [<- ->]. set_solver.
Qed.

(** ** The invariant *)

Section Invariant.
Variable subs : list SubmitRequest.

(** The holder is the claim of one of the submissions. *)
Definition claims (h : NonceHolder) : Prop :=
  ∃ i sub hash slot, subs !! i = Some sub ∧ identity sub = Some (hash, slot) ∧ h = claimant sub hash.

Definition distinct : Prop := ∀ i j si sj hash li lj,
  subs !! i = Some si → subs !! j = Some sj →
  identity si = Some (hash, li) → identity sj = Some (hash, lj) → i = j.

Definition typed : Prop := Forall (λ sub, 0 ≤ sub_chain_id sub) subs.

Definition finished (w : World) (name : string) : Prop :=
  ∃ r, record_at w name = Some r ∧ is_terminal (status r) = true.

Definition won (t : Trace) : Prop := ∃ op fresh, (op, ResNonceClaim (Claimed fresh)) ∈ t.
Definition gave_back (t : Trace) : Prop := ∃ s h a, (ReleaseNonce s h, a) ∈ t.
Definition marked (hash : string) (t : Trace) : Prop := (MarkAdmitted hash, Marked true) ∈ t.

(** What a winner's slot looks like. *)
Definition holds (w : World) (now : Z) (a : Admission) (hash : string) (slot : NonceSlot) : Prop :=
  holder_at w (slot_name slot) = Some (claimant (ad_submit a) hash) ∨
  finished w (record_name (sub_chain_id (ad_submit a)) hash) ∨
  now_ms (ad_submit a) + ADMISSION_GRACE_MS ≤ now ∧ ¬ marked hash (ad_trace a).

Record invariant (s : System) : Prop := {
  inv_submits : map ad_submit (admissions s) = subs;
  inv_follows : ∀ i a, admissions s !! i = Some a → follows (admission_of (ad_submit a)) (ad_trace a) (ad_rest a);
  inv_started : ∀ i a, admissions s !! i = Some a → ad_trace a ≠ [] → now_ms (ad_submit a) ≤ clock s;
  inv_holders : ∀ name h, holder_at (world s) name = Some h → claims h;
  inv_answers : ∀ i a op h, admissions s !! i = Some a →
    (op, ResNonceClaim (Held h)) ∈ ad_trace a → claims h;
  inv_final : ∀ i a hash r, admissions s !! i = Some a →
    (LoadExisting hash, ResRecord (Some r)) ∈ ad_trace a → is_terminal (status r) = true →
    finished (world s) (record_name (sub_chain_id (ad_submit a)) hash);
  inv_abandoned : ∀ i a j b hash ro, admissions s !! i = Some a → admissions s !! j = Some b →
    (LoadExisting hash, ResRecord ro) ∈ ad_trace b → marked hash (ad_trace a) →
    sub_chain_id (ad_submit a) = sub_chain_id (ad_submit b) →
    now_ms (ad_submit a) + ADMISSION_GRACE_MS ≤ now_ms (ad_submit b) →
    ∃ r, ro = Some r ∧ admitted r = true;
  inv_marked : ∀ i a hash, admissions s !! i = Some a → marked hash (ad_trace a) →
    ∃ r, record_at (world s) (record_name (sub_chain_id (ad_submit a)) hash) = Some r ∧ admitted r = true;
  inv_queued : ∀ i a env retry, admissions s !! i = Some a →
    (Enqueue env retry, Enqueued) ∈ ad_trace a → env ∈ queue (world s);
  inv_held : ∀ i a hash slot, admissions s !! i = Some a → identity (ad_submit a) = Some (hash, slot) →
    won (ad_trace a) → ¬ gave_back (ad_trace a) → holds (world s) (clock s) a hash slot }.

(** Later states keep what a record has reached. *)
Definition evolves (w w' : World) : Prop :=
  (∀ name r, record_at w name = Some r → ∃ r', record_at w' name = Some r' ∧
     Lifecycle.status_step (status r) (status r') ∧ (admitted r = true → admitted r' = true)) ∧
  queue w ⊆ queue w'.

Lemma evolves_finished w w' name : evolves w w' → finished w name → finished w' name.
Proof.
  intros [He _] (r & Hr & Ht). destruct (He _ _ Hr) as (r' & Hr' & Hs & _).
  exists r'. split; [done|]. by rewrite (Lifecycle.terminal_step _ _ Ht Hs).
Qed.

Lemma execute_evolves chain now weather w op :
  evolves w (execute_operation chain now weather w op).1.
Proof. split; [intros name r; apply execute_record|apply execute_queue]. Qed.

Lemma invariant_initial now : invariant (initial now subs).
Proof.
  assert (Hadm : ∀ i a, admissions (initial now subs) !! i = Some a →
    follows (admission_of (ad_submit a)) (ad_trace a) (ad_rest a) ∧ ad_trace a = []).
  { intros i a Ha. simpl in Ha. apply list_lookup_fmap_Some in Ha as (sub & -> & _).
    split; [constructor|done]. }
  assert (Hno : ∀ i a x, admissions (initial now subs) !! i = Some a → x ∉ ad_trace a).
  { intros i a x [_ ->]%Hadm. apply not_elem_of_nil. }
  split.
  - simpl. rewrite map_map. apply map_id.
  - by intros i a [? _]%Hadm.
  - by intros i a [_ ->]%Hadm.
  - intros name h Hh. unfold holder_at, object in Hh. simpl in Hh. by rewrite lookup_empty in Hh.
  - intros i a op h Ha Hin. by destruct (Hno i a _ Ha Hin).
  - intros i a hash r Ha Hin. by destruct (Hno i a _ Ha Hin).
  - intros i a j b hash ro Ha Hb Hin. by destruct (Hno j b _ Hb Hin).
  - intros i a hash Ha Hin. by destruct (Hno i a _ Ha Hin).
  - intros i a env retry Ha Hin. by destruct (Hno i a _ Ha Hin).
  - intros i a hash slot Ha _ (op & fresh & Hin). by destruct (Hno i a _ Ha Hin).
Qed.

Lemma claims_unique h h' :
  distinct → claims h → claims h' →
  eq_ignore_ascii_case (nh_user_operation_hash h) (nh_user_operation_hash h') = true → h = h'.
Proof.
  intros Hd (i & si & hash & li & Hi & Hidi & ->) (j & sj & hash' & lj & Hj & Hidj & ->) Heq.
  apply eq_ignore_ascii_case_true in Heq. simpl in Heq.
  destruct (identity_hash _ _ _ Hidi) as [Hlow _]. destruct (identity_hash _ _ _ Hidj) as [Hlow' _].
  rewrite Hlow, Hlow' in Heq. subst hash'.
  assert (i = j) as <- by eauto. by simplify_eq.
Qed.

Lemma claims_own i sub hash slot :
  subs !! i = Some sub → identity sub = Some (hash, slot) → claims (claimant sub hash).
Proof. intros Hi Hid. by exists i, sub, hash, slot. Qed.

(** The chain of a slot's name. *)
Lemma slot_name_chain a b : 0 ≤ slot_chain_id a → 0 ≤ slot_chain_id b →
  slot_name a = slot_name b → slot_chain_id a = slot_chain_id b.
Proof.
  unfold slot_name, slot_key. intros Ha Hb Heq.
  assert (Hp : ∀ x y, "nonce:" +:+ x = "nonce:" +:+ y → x = y) by (intros x y [=]; done).
  apply Hp in Heq. by apply (dec_prefix_inj _ _ ":"%char) in Heq as [? _].
Qed.

Lemma invariant_sub s j b : invariant s → admissions s !! j = Some b → subs !! j = Some (ad_submit b).
Proof.
  intros Hinv Hb. rewrite <-(inv_submits _ Hinv). by rewrite list_lookup_fmap, Hb.
Qed.

(** ** One request of one admission *)

Section Request.
Variables (s : System) (i : nat) (a : Admission) (op : AdmissionOperation)
  (k : AdmissionResult → Prog) (weather : Weather).
Hypotheses (Hinv : invariant s) (Ha : admissions s !! i = Some a) (Hrest : ad_rest a = Ask op k)
  (Hnow : now_ms (ad_submit a) ≤ clock s < now_ms (ad_submit a) + ADMISSION_GRACE_MS).

Let chain := sub_chain_id (ad_submit a).
Let out := execute_operation chain (clock s) weather (world s) op.
Let w' := out.1.
Let reply := out.2.
Let a' := {| ad_submit := ad_submit a; ad_trace := ad_trace a ++ [(op, reply)]; ad_rest := k reply |}.
Let s' := {| clock := clock s; world := w'; admissions := <[i := a']> (admissions s) |}.

Lemma request_lookup j b :
  admissions s' !! j = Some b →
  ∃ b0, admissions s !! j = Some b0 ∧ ad_submit b = ad_submit b0 ∧
    (j ≠ i ∧ b = b0 ∨ j = i ∧ b0 = a ∧ b = a').
Proof using All.
  simpl. rewrite list_lookup_insert_Some. intros [(<- & <- & _)|[Hne Hb]].
  - exists a. auto 10.
  - exists b. auto 10.
Qed.

(** What an admission has heard after the request was heard before, or is its
    answer. *)
Lemma request_elem j b x :
  admissions s' !! j = Some b → x ∈ ad_trace b →
  ∃ b0, admissions s !! j = Some b0 ∧ ad_submit b = ad_submit b0 ∧
    (x ∈ ad_trace b0 ∨ j = i ∧ b0 = a ∧ x = (op, reply)).
Proof using All.
  intros (b0 & Hb0 & Hsub & Hor)%request_lookup Hx. exists b0. split; [done|]. split; [done|].
  destruct Hor as [[_ ->]|(-> & -> & ->)]; [by left|].
  simpl in Hx. apply elem_of_app in Hx as [?|Hx%list_elem_of_singleton]; auto.
Qed.

Lemma request_evolves : evolves (world s) w'.
Proof using All. apply execute_evolves. Qed.

Lemma request_follows : follows (admission_of (ad_submit a)) (ad_trace a') (k reply).
Proof using All.
  apply follows_snoc. rewrite <-Hrest. by apply (inv_follows _ Hinv i a).
Qed.

Lemma request_own : own_request (ad_submit a) op.
Proof using All.
  pose proof (partial_own _ _ _ request_follows) as Ho. simpl in Ho.
  apply Forall_app in Ho as [_ Ho]. by apply Forall_cons in Ho as [Ho _].
Qed.

Lemma request_sub j b : admissions s !! j = Some b → subs !! j = Some (ad_submit b).
Proof using All. apply invariant_sub, Hinv. Qed.

Lemma request_claims hash slot :
  identity (ad_submit a) = Some (hash, slot) → claims (claimant (ad_submit a) hash).
Proof using All. intros Hid. eapply claims_own; [by apply request_sub|done]. Qed.

Lemma request_holders name h : holder_at w' name = Some h → claims h.
Proof using All.
  intros Hh. pose proof (execute_holder chain (clock s) weather (world s) op name) as Hc.
  fold out w' in Hc. rewrite Hh in Hc. pose proof request_own as Ho.
  remember (holder_at (world s) name) as before eqn:Hb. remember (Some h) as after eqn:He.
  destruct Hc as [h0|slot by_ Hop _|slot judged by_ h0 Hop _ _|]; [|injection He as ->..|discriminate He].
  - eapply (inv_holders _ Hinv). by rewrite <-Hb, <-He.
  - rewrite Hop in Ho. destruct Ho as (hash & Hid & ->). by eapply request_claims.
  - rewrite Hop in Ho. destruct Ho as (hash & Hid & ->). by eapply request_claims.
Qed.

Lemma request_answers j b op' h :
  admissions s' !! j = Some b → (op', ResNonceClaim (Held h)) ∈ ad_trace b → claims h.
Proof using All.
  intros Hb Hin. destruct (request_elem j b _ Hb Hin) as (b0 & Hb0 & _ & [Hold|(-> & -> & Heq)]).
  - by eapply (inv_answers _ Hinv j b0).
  - injection Heq as -> Hr. symmetry in Hr. apply claim_answer in Hr as (slot & by_ & _ & Hh).
    by eapply (inv_holders _ Hinv).
Qed.

Lemma request_final j b hash r :
  admissions s' !! j = Some b → (LoadExisting hash, ResRecord (Some r)) ∈ ad_trace b →
  is_terminal (status r) = true → finished w' (record_name (sub_chain_id (ad_submit b)) hash).
Proof using All.
  intros Hb Hin Ht. apply (evolves_finished _ _ _ request_evolves).
  destruct (request_elem j b _ Hb Hin) as (b0 & Hb0 & -> & [Hold|(-> & -> & Heq)]).
  - by eapply (inv_final _ Hinv).
  - injection Heq as Hop Hr. symmetry in Hr. unfold reply, out in Hr. rewrite <-Hop in Hr.
    apply load_answer in Hr. exists r. split; [by rewrite Hr|done].
Qed.

Lemma request_marked j b hash :
  admissions s' !! j = Some b → marked hash (ad_trace b) →
  ∃ r, record_at w' (record_name (sub_chain_id (ad_submit b)) hash) = Some r ∧ admitted r = true.
Proof using All.
  intros Hb Hin. destruct (request_elem j b _ Hb Hin) as (b0 & Hb0 & -> & [Hold|(-> & -> & Heq)]).
  - destruct (inv_marked _ Hinv _ _ _ Hb0 Hold) as (r & Hr & Hadm).
    destruct (proj1 request_evolves _ _ Hr) as (r' & Hr' & _ & Hadm'). eauto.
  - injection Heq as Hop Hr. symmetry in Hr. unfold w', reply, out in *. rewrite <-Hop in *.
    by apply mark_answer.
Qed.

Lemma request_queued j b env retry :
  admissions s' !! j = Some b → (Enqueue env retry, Enqueued) ∈ ad_trace b → env ∈ queue w'.
Proof using All.
  intros Hb Hin. destruct (request_elem j b _ Hb Hin) as (b0 & Hb0 & _ & [Hold|(-> & -> & Heq)]).
  - apply (proj2 request_evolves). by eapply (inv_queued _ Hinv).
  - injection Heq as Hop Hr. symmetry in Hr. unfold w', reply, out in *. rewrite <-Hop in *.
    by eapply enqueue_answer.
Qed.

Lemma request_abandoned j b l c hash ro :
  admissions s' !! j = Some b → admissions s' !! l = Some c →
  (LoadExisting hash, ResRecord ro) ∈ ad_trace c → marked hash (ad_trace b) →
  sub_chain_id (ad_submit b) = sub_chain_id (ad_submit c) →
  now_ms (ad_submit b) + ADMISSION_GRACE_MS ≤ now_ms (ad_submit c) →
  ∃ r, ro = Some r ∧ admitted r = true.
Proof using All.
  intros Hb Hc Hload Hmark Hchain Hlate.
  destruct (request_elem j b _ Hb Hmark) as (b0 & Hb0 & Hsb & Hm).
  destruct (request_elem l c _ Hc Hload) as (c0 & Hc0 & Hsc & Hl). rewrite Hsb, Hsc in *.
  destruct Hl as [Hl|(-> & -> & Heq)].
  - destruct Hm as [Hm|(-> & -> & Heq)]; [by eapply (inv_abandoned _ Hinv j b0 l c0)|].
    pose proof (inv_started _ Hinv _ _ Hc0 ltac:(by intros Hn; rewrite Hn in Hl; apply elem_of_nil in Hl)).
    lia.
  - injection Heq as Hop Hr. symmetry in Hr. unfold reply, out in Hr. rewrite <-Hop in Hr.
    apply load_answer in Hr. destruct Hm as [Hm|(_ & _ & Heq)]; [|by rewrite <-Hop in Heq].
    destruct (inv_marked _ Hinv _ _ _ Hb0 Hm) as (r & Hrec & Hadm).
    exists r. split; [|done]. rewrite Hr. unfold chain. by rewrite <-Hchain.
Qed.

(** Whoever is taken over was judged settled: its record is final, or its
    time to be admitted is over. *)
Lemma request_takeover slot judged by_ j b hash slot_j :
  distinct → typed → op = TakeOverNonce slot judged by_ → admissions s !! j = Some b →
  identity (ad_submit b) = Some (hash, slot_j) → slot_name slot = slot_name slot_j →
  eq_ignore_ascii_case hash judged = true →
  finished (world s) (record_name (sub_chain_id (ad_submit b)) hash) ∨
  now_ms (ad_submit b) + ADMISSION_GRACE_MS ≤ clock s ∧ ¬ marked hash (ad_trace b).
Proof using All.
  intros Hdist Htyped Hop Hb Hid Hname Hjudged.
  pose proof request_follows as Hf. unfold a' in Hf. simpl in Hf.
  apply advance_trace in Hf as (t' & o & Hr).
  assert (Heq : (ad_trace a ++ [(op, reply)]) ++ t' =
                ad_trace a ++ (TakeOverNonce slot judged by_, reply) :: t')
    by (rewrite Hop, <-app_assoc; done).
  destruct (takeover_located _ _ _ _ _ _ _ _ _ Hr Heq)
    as (prepared & epa & opn & to & front & holder & record & Hadm & Hslot & _ & Htr & Hlast & Hjud & Hstate & _).
  (* the holder judged is the claim of [b] *)
  assert (Hclaim : claims holder).
  { apply last_Some in Hlast as [l Hl].
    assert (Hin : ResNonceClaim (Held holder) ∈ front.*2) by (rewrite Hl; set_solver).
    apply list_elem_of_fmap in Hin as ([op' r'] & Hr' & Hin). simpl in Hr'. subst r'.
    eapply (inv_answers _ Hinv i a op' holder Ha). rewrite Htr. set_solver. }
  assert (holder = claimant (ad_submit b) hash) as ->.
  { apply (claims_unique _ _ Hdist Hclaim); [eapply claims_own; [by apply request_sub|done]|].
    simpl. by rewrite eq_ignore_ascii_case_sym, Hjud. }
  simpl in Hjud. subst judged. clear Hclaim.
  (* on the same chain *)
  assert (Hch : sub_chain_id (ad_submit b) = sub_chain_id (ad_submit a)).
  { destruct (identity_hash _ _ _ Hid) as (_ & _ & <-).
    destruct (identity_hash _ _ _ (admitting_identity _ _ _ _ _ Hadm)) as (_ & _ & <-).
    rewrite <-Hslot. symmetry. apply slot_name_chain; [| |done].
    - rewrite Hslot. simpl. by apply (proj1 (Forall_lookup _ _) Htyped _ _ (request_sub _ _ Ha)).
    - destruct (identity_hash _ _ _ Hid) as (_ & _ & ->).
      by apply (proj1 (Forall_lookup _ _) Htyped _ _ (request_sub _ _ Hb)). }
  assert (Hin : (LoadExisting hash, ResRecord record) ∈ ad_trace a) by (rewrite Htr; set_solver).
  unfold holder_state in Hstate. simpl in Hstate.
  assert (Hgrace : bool_decide (saturating_sub (now_ms (ad_submit a)) (now_ms (ad_submit b)) < ADMISSION_GRACE_MS) = false →
    now_ms (ad_submit b) + ADMISSION_GRACE_MS ≤ now_ms (ad_submit a)).
  { rewrite bool_decide_eq_false. unfold saturating_sub, ADMISSION_GRACE_MS. lia. }
  assert (Hlate : bool_decide (saturating_sub (now_ms (ad_submit a)) (now_ms (ad_submit b)) < ADMISSION_GRACE_MS) = false →
    (∀ r, record = Some r → admitted r = false) →
    now_ms (ad_submit b) + ADMISSION_GRACE_MS ≤ clock s ∧ ¬ marked hash (ad_trace b)).
  { intros Hg Hun. split; [pose proof (Hgrace Hg); lia|]. intros Hm.
    destruct (inv_abandoned _ Hinv j b i a hash record Hb Ha Hin Hm Hch (Hgrace Hg)) as (r & Hrec & Hadmr).
    specialize (Hun r Hrec). congruence. }
  destruct record as [r|].
  - destruct (is_terminal (status r)) eqn:Ht.
    + left. rewrite Hch. by eapply (inv_final _ Hinv i a).
    + right. destruct (admitted r) eqn:Hr'; simpl in Hstate; [done|].
      apply Hlate; [|by intros r0 [= <-]].
      destruct (bool_decide (saturating_sub _ _ < _)); [|done]. by rewrite orb_true_r in Hstate.
  - right. apply Hlate; [|done]. by destruct (bool_decide _).
Qed.

(** What happens to the slot of a winner [b] that was not the one asking. *)
Lemma request_others_slot j b hash slot :
  distinct → typed → j ≠ i → admissions s !! j = Some b → identity (ad_submit b) = Some (hash, slot) →
  holder_at (world s) (slot_name slot) = Some (claimant (ad_submit b) hash) →
  holds w' (clock s) b hash slot.
Proof using All.
  intros Hdist Htyped Hne Hb Hid Hh.
  pose proof (execute_holder chain (clock s) weather (world s) op (slot_name slot)) as Hc.
  fold out w' in Hc. rewrite Hh in Hc. unfold holds.
  remember (Some (claimant (ad_submit b) hash)) as before eqn:Hbefore.
  remember (holder_at w' (slot_name slot)) as after eqn:Hafter.
  destruct Hc as [h0|slot' by_ _ _|slot' judged by_ h0 Hop Hn Hj|slot' hash' h0 Hop Hn Hj].
  - by left.
  - discriminate Hbefore.
  - right. subst h0. specialize (Hj _ eq_refl).
    destruct (request_takeover slot' judged by_ j b hash slot Hdist Htyped Hop Hb Hid (eq_sym Hn) Hj)
      as [Hfin|Hlate]; [left|by right]. by eapply evolves_finished; [apply request_evolves|].
  - exfalso. injection Hbefore as ->. pose proof request_own as Ho. rewrite Hop in Ho. simpl in Ho, Hj.
    assert (Heq : claimant (ad_submit b) hash = claimant (ad_submit a) hash').
    { apply claims_unique; [done|eapply claims_own; [by apply request_sub|done]|by eapply request_claims|done]. }
    injection Heq as -> _. apply Hne. eapply Hdist; [by apply request_sub..|done|done].
Qed.

Lemma request_held j b hash slot :
  distinct → typed →
  admissions s' !! j = Some b → identity (ad_submit b) = Some (hash, slot) →
  won (ad_trace b) → ¬ gave_back (ad_trace b) → holds w' (clock s) b hash slot.
Proof using All.
  intros Hdist Htyped Hb Hid Hwon Hback.
  destruct (request_lookup j b Hb) as (b0 & Hb0 & Hsub & [[Hne ->]|(-> & -> & ->)]).
  - destruct (inv_held _ Hinv j b0 hash slot Hb0 Hid Hwon Hback) as [Hh|[Hfin|Hlate]].
    + by eapply request_others_slot.
    + right; left. by eapply evolves_finished; [apply request_evolves|].
    + right; right. done.
  - simpl in Hid. destruct Hwon as (op' & fresh & Hin). simpl in Hin.
    apply elem_of_app in Hin as [Hold|Hnew%list_elem_of_singleton].
    + destruct (inv_held _ Hinv i a hash slot Ha Hid) as [Hh|[Hfin|Hlate]].
      * by exists op', fresh.
      * intros (s0 & h0 & a0 & Hr). apply Hback. exists s0, h0, a0. simpl. set_solver.
      * left. pose proof (execute_holder chain (clock s) weather (world s) op (slot_name slot)) as Hc.
        fold out w' in Hc. rewrite Hh in Hc. simpl.
        remember (Some (claimant (ad_submit a) hash)) as before eqn:Hbefore.
        remember (holder_at w' (slot_name slot)) as after eqn:Hafter. pose proof request_own as Ho.
        destruct Hc as [h0|slot' by_ _ _|slot' judged by_ h0 Hop Hn Hj|slot' hash' h0 Hop Hn Hj].
        -- done.
        -- discriminate Hbefore.
        -- rewrite Hop in Ho. destruct Ho as (hash0 & Hid0 & ->). rewrite Hid in Hid0. by injection Hid0 as <- _.
        -- exfalso. apply Hback. exists slot', hash', reply. simpl. rewrite Hop. set_solver.
      * right; left. simpl. by eapply evolves_finished; [apply request_evolves|].
      * lia.
    + left. simpl. injection Hnew as Hop Hr. symmetry in Hr.
      apply claim_answer in Hr as (slot' & by_ & Hkind & Hnames). fold chain out w' in Hnames.
      pose proof request_own as Ho.
      assert (Hown : ∃ hash0, identity (ad_submit a) = Some (hash0, slot') ∧ by_ = claimant (ad_submit a) hash0).
      { destruct Hkind as [Hk|[judged Hk]]; rewrite Hk in Ho; exact Ho. }
      destruct Hown as (hash0 & Hid0 & ->). rewrite Hid in Hid0. injection Hid0 as <- <-.
      destruct Hnames as (h & Hh & Heq). rewrite Hh. f_equal.
      apply claims_unique; [done|by eapply request_holders|by eapply request_claims|done].
Qed.

Lemma request_invariant : distinct → typed → invariant s'.
Proof using All.
  intros Hdist Htyped. split.
  - rewrite <-(inv_submits _ Hinv). simpl. rewrite list_fmap_insert. simpl.
    apply list_insert_id. by rewrite list_lookup_fmap, Ha.
  - intros j b Hb. destruct (request_lookup j b Hb) as (b0 & Hb0 & _ & [[_ ->]|(-> & -> & ->)]).
    + by apply (inv_follows _ Hinv j).
    + apply request_follows.
  - intros j b Hb Hne. simpl. destruct (request_lookup j b Hb) as (b0 & Hb0 & _ & [[_ ->]|(-> & -> & ->)]).
    + by apply (inv_started _ Hinv j).
    + simpl. lia.
  - apply request_holders.
  - apply request_answers.
  - apply request_final.
  - apply request_abandoned.
  - apply request_marked.
  - apply request_queued.
  - intros j b hash slot Hb Hid Hw Hg. exact (request_held j b hash slot Hdist Htyped Hb Hid Hw Hg).
Qed.

End Request.

Lemma advance_invariant weather s i s' :
  distinct → typed → invariant s → advance weather s i = Some s' → invariant s'.
Proof.
  unfold advance. intros Hdist Htyped Hinv Hadv. apply bind_Some in Hadv as (a & Ha & Hadv).
  destruct (ad_rest a) as [|op k] eqn:Hrest; [done|]. case_decide as Hnow; [|done].
  pose proof (request_invariant s i a op k weather Hinv Ha Hrest Hnow Hdist Htyped) as Hreq.
  destruct (execute_operation _ _ _ _ _) as [w1 r]. by injection Hadv as <-.
Qed.

Lemma executor_evolves reads_ok s name cmd state reply :
  RecordDo.executor_command reads_ok cmd = true →
  RecordDo.fetch reads_ok (clock s) (object (objects (world s)) name) cmd = (state, reply) →
  evolves (world s) {| objects := <[name := state]> (objects (world s)); queue := queue (world s) |}.
Proof.
  intros Hc Hf. split; [|done]. intros name' r Hr. unfold record_at in *. simpl. rewrite object_insert.
  case_decide; [subst name'|by exists r; split; [done|]; split; [apply Lifecycle.status_step_refl|]].
  destruct (RecordDo.executor_status_step _ (clock s) _ cmd r Hc Hr) as (r' & Hr' & Hs).
  rewrite Hf in Hr'. exists r'. split; [done|]. split; [done|]. intros Ha.
  destruct (RecordDo.executor_keeps_admission _ (clock s) _ cmd r Hc Hr Ha) as (r2 & Hr2 & ?).
  rewrite Hf in Hr2. simpl in *. congruence.
Qed.

Lemma evolves_invariant s now w' :
  invariant s → clock s ≤ now → evolves (world s) w' →
  (∀ name, holder_at w' name = holder_at (world s) name) →
  invariant {| clock := now; world := w'; admissions := admissions s |}.
Proof.
  intros Hinv Hnow He Hh. destruct Hinv as [I1 I2 I3 I4 I5 I6 I7 I8 I9 I10].
  split; simpl; [exact I1|exact I2| | |exact I5| |exact I7| | | ].
  - intros i a Ha Hne. specialize (I3 i a Ha Hne). lia.
  - intros name h. rewrite Hh. apply I4.
  - intros i a hash r Ha Hin Ht. eapply evolves_finished; [done|]. by eapply I6.
  - intros i a hash Ha Hm. destruct (I8 i a hash Ha Hm) as (r & Hr & Hadm).
    destruct (proj1 He _ _ Hr) as (r' & Hr' & _ & Hadm'). eauto.
  - intros i a env retry Ha Hin. apply (proj2 He). by eapply I9.
  - intros i a hash slot Ha Hid Hw Hg. destruct (I10 i a hash slot Ha Hid Hw Hg) as [?|[?|[? ?]]].
    + left. by rewrite Hh.
    + right; left. by eapply evolves_finished.
    + right; right. split; [lia|done].
Qed.

Lemma step_invariant s s' : distinct → typed → invariant s → step s s' → invariant s'.
Proof.
  intros Hdist Htyped Hinv. destruct 1 as [s now Hnow|weather s i s' Hadv|reads_ok s name cmd state reply Hc Hf].
  - apply evolves_invariant; try done. split; [|done]. intros name r Hr.
    exists r. split; [done|]. split; [apply Lifecycle.status_step_refl|done].
  - by eapply advance_invariant.
  - apply evolves_invariant; [done|lia|by eapply executor_evolves|].
    intros name'. unfold holder_at. simpl. rewrite object_insert. case_decide; [subst name'|done].
    pose proof (RecordDo.executor_holder _ (clock s) (object (objects (world s)) name) cmd Hc) as He.
    rewrite Hf in He. exact He.
Qed.

Lemma reachable_invariant now s :
  distinct → typed → rtc step (initial now subs) s → invariant s.
Proof.
  intros Hdist Htyped Hr. pose proof (invariant_initial now) as Hinv.
  induction Hr as [|s1 s2 s3 Hs _ IH]; [done|]. apply IH. by eapply step_invariant.
Qed.

End Invariant.

(** ** Histories without the grace period

    Durability needs less: the clock may go anywhere, an admission may take
    as long as it likes, and one operation may be submitted any number of
    times. *)

(** The [i]-th admission makes its next request, however late. *)
Definition advance_anytime (weather : Weather) (s : System) (i : nat) : option System :=
  a ← admissions s !! i;
  match ad_rest a with
  | Ret _ => None
  | Ask op k =>
      let '(world', reply) :=
        execute_operation (sub_chain_id (ad_submit a)) (clock s) weather (world s) op in
      Some {| clock := clock s; world := world';
              admissions := <[i := {| ad_submit := ad_submit a; ad_trace := ad_trace a ++ [(op, reply)];
                                      ad_rest := k reply |}]> (admissions s) |}
  end.

Inductive free_step : System → System → Prop :=
  | free_clock s now :
      free_step s {| clock := now; world := world s; admissions := admissions s |}
  | free_admission weather s i s' : advance_anytime weather s i = Some s' → free_step s s'
  | free_executor reads_ok s name cmd state reply :
      RecordDo.executor_command reads_ok cmd = true →
      RecordDo.fetch reads_ok (clock s) (object (objects (world s)) name) cmd = (state, reply) →
      free_step s {| clock := clock s;
                     world := {| objects := <[name := state]> (objects (world s)); queue := queue (world s) |};
                     admissions := admissions s |}.

Lemma step_free s s' : step s s' → free_step s s'.
Proof.
  destruct 1 as [s now _|weather s i s' Hadv|reads_ok s name cmd state reply Hc Hf].
  - constructor.
  - apply (free_admission weather s i). unfold advance in Hadv. unfold advance_anytime.
    destruct (admissions s !! i) as [a|]; [|done]. cbn in *. destruct (ad_rest a); [done|].
    by case_decide.
  - by eapply free_executor.
Qed.

Lemma steps_free s s' : rtc step s s' → rtc free_step s s'.
Proof. induction 1; [done|]. eapply rtc_l; [by apply step_free|done]. Qed.

(** What an admission has done stays done. *)
Record kept (s : System) : Prop := {
  kept_follows : ∀ i a, admissions s !! i = Some a →
    follows (admission_of (ad_submit a)) (ad_trace a) (ad_rest a);
  kept_marked : ∀ i a hash, admissions s !! i = Some a → marked hash (ad_trace a) →
    ∃ r, record_at (world s) (record_name (sub_chain_id (ad_submit a)) hash) = Some r ∧ admitted r = true;
  kept_queued : ∀ i a env retry, admissions s !! i = Some a →
    (Enqueue env retry, Enqueued) ∈ ad_trace a → env ∈ queue (world s) }.

Lemma kept_evolves now s w' :
  kept s → evolves (world s) w' → kept {| clock := now; world := w'; admissions := admissions s |}.
Proof.
  intros [K1 K2 K3] He. split; simpl; [exact K1| |].
  - intros i a hash Ha Hm. destruct (K2 i a hash Ha Hm) as (r & Hr & Hadm).
    destruct (proj1 He _ _ Hr) as (r' & Hr' & _ & Hadm'). eauto.
  - intros i a env retry Ha Hin. apply (proj2 He). by eapply K3.
Qed.

Lemma kept_advance weather s i s' : kept s → advance_anytime weather s i = Some s' → kept s'.
Proof.
  intros Hk Hadv. unfold advance_anytime in Hadv. apply bind_Some in Hadv as (a & Ha & Hadv).
  destruct (ad_rest a) as [|op k] eqn:Hrest; [done|].
  pose proof (execute_evolves (sub_chain_id (ad_submit a)) (clock s) weather (world s) op) as He.
  pose proof (mark_answer (sub_chain_id (ad_submit a)) (clock s) weather (world s)) as Hmark.
  pose proof (enqueue_answer (sub_chain_id (ad_submit a)) (clock s) weather (world s)) as Henq.
  destruct (execute_operation _ _ weather _ op) as [w' reply] eqn:E. injection Hadv as <-. simpl in He.
  destruct (kept_evolves (clock s) s w' Hk He) as [K1 K2 K3]. cbn [world admissions clock] in *.
  split; simpl.
  - intros j b. rewrite list_lookup_insert_Some. intros [(<- & <- & _)|[Hne Hb]]; [|by eapply K1]. simpl.
    apply follows_snoc. rewrite <-Hrest. by eapply K1.
  - intros j b hash. rewrite list_lookup_insert_Some.
    intros [(<- & <- & _)|[Hne Hb]] Hm; [|by eapply K2]. cbn [ad_trace ad_submit] in *.
    apply elem_of_app in Hm as [Hm|Hm%list_elem_of_singleton]; [by eapply K2|].
    injection Hm as Hop Hr. specialize (Hmark hash). subst op reply. rewrite E in Hmark. by apply Hmark.
  - intros j b env retry. rewrite list_lookup_insert_Some.
    intros [(<- & <- & _)|[Hne Hb]] Hin; [|by eapply K3]. cbn [ad_trace ad_submit] in *.
    apply elem_of_app in Hin as [Hin|Hin%list_elem_of_singleton]; [by eapply K3|].
    injection Hin as Hop Hr. specialize (Henq env retry). subst op reply. rewrite E in Henq. by apply Henq.
Qed.

Lemma free_step_kept s s' : kept s → free_step s s' → kept s'.
Proof.
  intros Hk. destruct 1 as [s now|weather s i s' Hadv|reads_ok s name cmd state reply Hc Hf].
  - apply kept_evolves; [done|]. split; [|done]. intros name r Hr.
    exists r. split; [done|]. split; [apply Lifecycle.status_step_refl|done].
  - by eapply kept_advance.
  - apply kept_evolves; [done|]. by eapply executor_evolves.
Qed.

Lemma reachable_kept now subs s : rtc free_step (initial now subs) s → kept s.
Proof.
  intros Hr. assert (kept (initial now subs)) as Hk.
  { destruct (invariant_initial subs now) as [_ K1 _ _ _ _ _ K2 K3 _]. by split. }
  induction Hr as [|s1 s2 s3 Hs _ IH]; [done|]. apply IH. by eapply free_step_kept.
Qed.

(** ** Schedules *)

Inductive Event : Type :=
  | Until (now : Z)
  | Request (i : nat) (weather : Weather)
  | Executor (name : string) (cmd : RecordDo.RecordCommand).

Definition run_event (s : System) (e : Event) : option System :=
  match e with
  | Until now =>
      if decide (clock s ≤ now)
      then Some {| clock := now; world := world s; admissions := admissions s |} else None
  | Request i weather => advance weather s i
  | Executor name cmd =>
      let '(state, _) := RecordDo.fetch true (clock s) (object (objects (world s)) name) cmd in
      if RecordDo.executor_command true cmd
      then Some {| clock := clock s;
                   world := {| objects := <[name := state]> (objects (world s)); queue := queue (world s) |};
                   admissions := admissions s |}
      else None
  end.

Fixpoint run_events (s : System) (events : list Event) : option System :=
  match events with
  | [] => Some s
  | e :: events => s' ← run_event s e; run_events s' events
  end.

Lemma run_events_reachable s events s' : run_events s events = Some s' → rtc step s s'.
Proof.
  revert s. induction events as [|e events IH]; intros s Hr; cbn [run_events] in Hr.
  { injection Hr as ->. constructor. }
  apply bind_Some in Hr as (s1 & He & Hr). eapply rtc_l; [|by apply IH].
  destruct e as [now|i weather|name cmd]; cbn [run_event] in He.
  - case_decide; [|done]. injection He as <-. by constructor.
  - by eapply step_admission.
  - destruct (RecordDo.fetch _ _ _ _) as [state reply] eqn:Hf.
    destruct (RecordDo.executor_command true cmd) eqn:Hc; [|done].
    injection He as <-. by eapply step_executor.
Qed.

(** ** Claims *)

Definition accepted_as (a : Admission) (hash : string) (slot : NonceSlot) : Prop :=
  (∃ sender ep, ad_rest a = Ret (Accepted hash sender ep)) ∧ identity (ad_submit a) = Some (hash, slot).

Lemma accepted_marked a hash sender ep :
  follows (admission_of (ad_submit a)) (ad_trace a) (ad_rest a) → ad_rest a = Ret (Accepted hash sender ep) →
  marked hash (ad_trace a).
Proof.
  intros Hf Hr. rewrite Hr in Hf.
  pose proof (follows_runs _ _ _ [] _ Hf (runs_ret _)) as Hrun. rewrite app_nil_r in Hrun.
  apply accepted_located in Hrun as (prepared & epa & op & to & before & mid & retry & created & fresh &
    _ & _ & _ & _ & _ & _ & Ht & _). unfold marked. rewrite Ht. set_solver.
Qed.

(** C3: Two operations racing for one nonce never both stay in flight.
    Assume that no operation is submitted twice ([distinct]: no two
    submissions share a hash), that every admission makes its requests within
    the grace period of its start, that the clock does not go back, that no
    record or slot expires meanwhile, that the objects can read their storage
    for an admission and for the restoring of a record, and that the executor
    sends records its own commands only.  Then whatever the interleaving of any number of concurrent
    admissions with each other, with the executor and with the clock, and
    whatever requests or answers are lost: of two accepted operations of one
    nonce slot one has reached its end.  Without the first assumption it fails
    ([resubmission_breaks_exclusion], [duplicate_release_breaks_exclusion]). *)
Theorem one_live_operation_per_nonce subs now s i j a b hash_a hash_b slot :
  distinct subs → typed subs → rtc step (initial now subs) s →
  admissions s !! i = Some a → admissions s !! j = Some b → i ≠ j →
  accepted_as a hash_a slot → accepted_as b hash_b slot →
  finished (world s) (record_name (sub_chain_id (ad_submit a)) hash_a) ∨
  finished (world s) (record_name (sub_chain_id (ad_submit b)) hash_b).
Proof.
  intros Hdist Htyped Hreach Ha Hb Hij [(sa & ea & Hra) Hida] [(sb & eb & Hrb) Hidb].
  pose proof (reachable_invariant subs now s Hdist Htyped Hreach) as Hinv.
  assert (Hheld : ∀ l c hash se e, admissions s !! l = Some c → ad_rest c = Ret (Accepted hash se e) →
    identity (ad_submit c) = Some (hash, slot) →
    holder_at (world s) (slot_name slot) = Some (claimant (ad_submit c) hash) ∨
    finished (world s) (record_name (sub_chain_id (ad_submit c)) hash)).
  { intros l c hash se e Hc Hrc Hidc. pose proof (inv_follows _ _ Hinv l c Hc) as Hf.
    pose proof (accepted_marked _ _ _ _ Hf Hrc) as Hm.
    destruct (partial_marked _ _ _ _ Hf Hm) as (Hw & Hg & _).
    destruct (inv_held _ _ Hinv l c hash slot Hc Hidc Hw) as [?|[?|[_ ?]]]; [|by left|by right|done].
    intros (s0 & h0 & a0 & Hin). by eapply Hg. }
  destruct (Hheld i a _ _ _ Ha Hra Hida) as [Hha|?]; [|by left].
  destruct (Hheld j b _ _ _ Hb Hrb Hidb) as [Hhb|?]; [|by right].
  exfalso. rewrite Hha in Hhb. injection Hhb as Hhash _. subst hash_b.
  apply Hij. eapply Hdist; [by eapply invariant_sub|by eapply invariant_sub|done|done].
Qed.

(** C13: What is accepted is durable.  Whatever is interleaved or lost, however
    late a request is made, whatever the clock does and however often an
    operation is submitted, once an admission has settled [Accepted] its
    record is stored and marked admitted, and the queue has been given an
    envelope that names it — as long as the record has not expired (an
    object's alarm is no step here), the objects can read their storage for an
    admission and for the restoring of a record, and the executor sends records
    its own commands only. *)
Theorem accepted_operation_is_durable subs now s i a hash slot :
  rtc free_step (initial now subs) s →
  admissions s !! i = Some a → accepted_as a hash slot →
  (∃ r, record_at (world s) (record_name (sub_chain_id (ad_submit a)) hash) = Some r ∧ admitted r = true) ∧
  ∃ env, env ∈ queue (world s) ∧ get "userOperationHash" env = Some (VString hash).
Proof.
  intros Hreach Ha [(sa & ea & Hra) _].
  destruct (reachable_kept now subs s Hreach) as [K1 K2 K3].
  pose proof (K1 i a Ha) as Hf. pose proof (accepted_marked _ _ _ _ Hf Hra) as Hm.
  split; [by eapply K2|].
  destruct (partial_marked _ _ _ _ Hf Hm) as (_ & _ & env & retry & Hin & Henv).
  exists env. split; [by eapply K3|done].
Qed.

End Race.

(** ** Witnesses and counterexamples *)

(** Two operations of one sender at one nonce. *)
Definition rival (now : Z) : SubmitRequest :=
  {| sub_chain_id := sub_chain_id sample_submit; sub_entry_point := sub_entry_point sample_submit;
     sub_user_operation :=
       match sub_user_operation sample_submit with
       | V0_7 op => V0_7
           {| sender := sender op; nonce := nonce op; factory := factory op; factory_data := factory_data op;
              Task.call_data := Task.call_data op; call_gas_limit := "0x186a1";
              verification_gas_limit := verification_gas_limit op;
              pre_verification_gas := pre_verification_gas op;
              max_fee_per_gas := max_fee_per_gas op; max_priority_fee_per_gas := max_priority_fee_per_gas op;
              paymaster := None; paymaster_verification_gas_limit := None;
              paymaster_post_op_gas_limit := None; paymaster_data := None;
              signature := signature op; eip7702_auth := None; fee_token := None |}
       | op => op
       end;
     settlement_recipient := settlement_recipient sample_submit;
     submission_tier := None; now_ms := now |}.

Definition original (now : Z) : SubmitRequest :=
  {| sub_chain_id := sub_chain_id sample_submit; sub_entry_point := sub_entry_point sample_submit;
     sub_user_operation := sub_user_operation sample_submit;
     settlement_recipient := settlement_recipient sample_submit;
     submission_tier := None; now_ms := now |}.

Definition ref_identity (sub : SubmitRequest) : option (string * NonceSlot) := @identity ref_hex ref_keccak sub.
Definition ref_hash (sub : SubmitRequest) : string := default EmptyString (fst <$> ref_identity sub).
Definition ref_slot (sub : SubmitRequest) : option NonceSlot := snd <$> ref_identity sub.
Definition ref_record (sub : SubmitRequest) : string := record_name (sub_chain_id sub) (ref_hash sub).

Definition asks (i n : nat) : list Event := replicate n (Request i fair).

Definition outcome_of (a : Admission) : option AdmissionOutcome :=
  match ad_rest a with Ret o => Some o | _ => None end.

(** What a schedule leads to. *)
Definition ref_run (subs : list SubmitRequest) (events : list Event) : option System :=
  run_events (@initial ref_hex ref_keccak x86_64 0 subs) events.

Definition is_live (s : System) (name : string) : bool :=
  match record_at (world s) name with Some r => negb (is_terminal (status r)) | None => true end.

Definition accepted_at (s : System) (i : nat) (hash : string) : bool :=
  match admissions s !! i with
  | Some a => match ad_rest a with Ret (Accepted h _ _) => String.eqb h hash | _ => false end
  | None => false
  end.

Lemma accepted_at_as s i hash slot :
  accepted_at s i hash = true →
  (∀ a, admissions s !! i = Some a → ref_identity (ad_submit a) = Some (hash, slot)) →
  ∃ a, admissions s !! i = Some a ∧ @accepted_as ref_hex ref_keccak a hash slot.
Proof.
  unfold accepted_at. intros Hacc Hid. destruct (admissions s !! i) as [a|] eqn:Ha; [|done].
  exists a. split; [done|]. split; [|by apply Hid].
  destruct (ad_rest a) as [[]|] eqn:Hr; try done. apply String.eqb_eq in Hacc as ->. eauto.
Qed.

Definition original_hash : string := Eval vm_compute in ref_hash (original 0).
Definition rival_hash : string := Eval vm_compute in ref_hash (rival 0).
Definition shared_slot : NonceSlot := Eval vm_compute in
  default {| slot_chain_id := 0; slot_entry_point := ""; slot_sender := ""; slot_nonce := "" |}
    (ref_slot (original 0)).

Lemma original_identity now : ref_identity (original now) = Some (original_hash, shared_slot).
Proof. vm_compute. reflexivity. Qed.
Lemma rival_identity now : ref_identity (rival now) = Some (rival_hash, shared_slot).
Proof. vm_compute. reflexivity. Qed.

Lemma hashes_differ : original_hash ≠ rival_hash.
Proof. unfold original_hash, rival_hash. discriminate. Qed.

Lemma rivals_distinct t t' : @distinct ref_hex ref_keccak [original t; rival t'].
Proof.
  intros i j si sj hash li lj Hi Hj Hhi Hhj.
  change (ref_identity si = Some (hash, li)) in Hhi. change (ref_identity sj = Some (hash, lj)) in Hhj.
  pose proof hashes_differ as Hne.
  destruct i as [|[|i]]; [| |discriminate Hi]; (destruct j as [|[|j]]; [| |discriminate Hj]);
    try reflexivity; exfalso; injection Hi as <-; injection Hj as <-.
  - rewrite original_identity in Hhi. rewrite rival_identity in Hhj. congruence.
  - rewrite rival_identity in Hhi. rewrite original_identity in Hhj. congruence.
Qed.

(** The first operation is accepted, the executor gives it up, and the rival
    takes the slot over. *)
Definition in_turn : list Event :=
  asks 0 5 ++ [Executor (record_name 8453 original_hash) (RecordDo.GiveUp 1000); Until 1000] ++ asks 1 7.
Definition turn_subs : list SubmitRequest := [original 0; rival 1000].
Definition turn_end : option System := ref_run turn_subs in_turn.

Definition both_accepted (s : System) : bool :=
  accepted_at s 0 original_hash && accepted_at s 1 rival_hash.

Lemma turn_check :
  match turn_end with Some s => both_accepted s | None => false end = true.
Proof. vm_compute. reflexivity. Qed.

Lemma turn_typed : @typed turn_subs.
Proof. repeat constructor; vm_compute; congruence. Qed.

(** The accepted rivals of a reachable system. *)
Lemma rivals_accepted t t' s :
  rtc step (@initial ref_hex ref_keccak x86_64 0 [original t; rival t']) s →
  both_accepted s = true →
  ∃ a b, admissions s !! 0%nat = Some a ∧ admissions s !! 1%nat = Some b ∧
    sub_chain_id (ad_submit a) = 8453 ∧ sub_chain_id (ad_submit b) = 8453 ∧
    @accepted_as ref_hex ref_keccak a original_hash shared_slot ∧
    @accepted_as ref_hex ref_keccak b rival_hash shared_slot.
Proof.
  intros Hreach Hacc. apply andb_true_iff in Hacc as [Ha Hb].
  assert (Hinv : @invariant ref_hex ref_keccak x86_64 [original t; rival t'] s).
  { eapply (@reachable_invariant ref_hex ref_keccak x86_64); [apply rivals_distinct| |exact Hreach].
    repeat constructor; vm_compute; congruence. }
  assert (Hsub0 : ∀ a, admissions s !! 0%nat = Some a → ad_submit a = original t).
  { intros a Hi. pose proof (invariant_sub _ _ _ _ Hinv Hi) as Hs. by injection Hs. }
  assert (Hsub1 : ∀ b, admissions s !! 1%nat = Some b → ad_submit b = rival t').
  { intros b Hi. pose proof (invariant_sub _ _ _ _ Hinv Hi) as Hs. by injection Hs. }
  destruct (accepted_at_as s 0 original_hash shared_slot Ha) as (a & Hia & Haa).
  { intros a Hi. rewrite (Hsub0 a Hi). apply original_identity. }
  destruct (accepted_at_as s 1 rival_hash shared_slot Hb) as (b & Hib & Hbb).
  { intros b Hi. rewrite (Hsub1 b Hi). apply rival_identity. }
  exists a, b. rewrite (Hsub0 a Hia), (Hsub1 b Hib). done.
Qed.

Lemma one_live_operation_per_nonce_witness :
  match turn_end with
  | Some s => finished (world s) (record_name 8453 original_hash) ∨
              finished (world s) (record_name 8453 rival_hash)
  | None => False
  end.
Proof.
  pose proof turn_check as Hacc. destruct turn_end as [s|] eqn:He; [|discriminate Hacc].
  apply run_events_reachable in He as Hreach.
  destruct (rivals_accepted _ _ _ Hreach Hacc) as (a & b & Ha & Hb & Hca & Hcb & Haa & Hbb).
  rewrite <-Hca at 1. rewrite <-Hcb.
  exact (@one_live_operation_per_nonce ref_hex ref_keccak x86_64 turn_subs 0 s 0 1 a b _ _ shared_slot
    (rivals_distinct _ _) turn_typed Hreach Ha Hb ltac:(discriminate) Haa Hbb).
Defined.

Lemma accepted_operation_is_durable_witness :
  match turn_end with
  | Some s => ∃ r, record_at (world s) (record_name 8453 rival_hash) = Some r ∧ admitted r = true
  | None => False
  end.
Proof.
  pose proof turn_check as Hacc. destruct turn_end as [s|] eqn:He; [|discriminate Hacc].
  apply run_events_reachable in He as Hreach.
  destruct (rivals_accepted _ _ _ Hreach Hacc) as (a & b & Ha & Hb & Hca & Hcb & Haa & Hbb).
  destruct (@accepted_operation_is_durable ref_hex ref_keccak x86_64 turn_subs 0 s 1 b _ shared_slot
    (steps_free _ _ Hreach) Hb Hbb) as [Hr _].
  rewrite Hcb in Hr. exact Hr.
Defined.

(** Without the first hypothesis the exclusion fails.  The first operation is
    claimed and recorded, its admission dies there, and long after it is
    submitted again: the second claim is answered [Claimed] and does not
    renew [claimed_at_ms], so a rival that meets the slot reads an abandoned
    holder and takes it over while the resubmission is re-queueing it. *)
Definition resubmitted : list SubmitRequest := [original 0; original 200000; rival 200000].
Definition resubmission : list Event :=
  asks 0 3 ++ [Until 200000] ++ asks 1 2 ++ asks 2 4 ++ asks 1 4 ++ asks 2 3.

(** And without the second admission seeing its own claim refused: the first
    admission's [CreateQueued] is lost, so it gives the slot back, while a
    duplicate of it that was answered [Claimed] goes on. *)
Definition lost : Weather :=
  {| reaches := false; answers := false; queue_bound := true; queue_appends := true;
     queue_confirms := true; settlement_assets := None; erc20_decimals := None |}.
Definition duplicated : list SubmitRequest := [original 0; original 0; rival 0].
Definition duplication : list Event :=
  asks 0 2 ++ asks 1 5 ++ [Request 0 lost; Request 0 fair] ++ asks 2 5.

Definition both_live (s : System) (i j : nat) : bool :=
  accepted_at s i original_hash && accepted_at s j rival_hash &&
  is_live s (record_name 8453 original_hash) && is_live s (record_name 8453 rival_hash).

Lemma resubmission_breaks_exclusion :
  match ref_run resubmitted resubmission with Some s => both_live s 1 2 | None => false end = true.
Proof. vm_compute. reflexivity. Qed.

Lemma duplicate_release_breaks_exclusion :
  match ref_run duplicated duplication with Some s => both_live s 1 2 | None => false end = true.
Proof. vm_compute. reflexivity. Qed.
