(* ===== verification/Directory.v ===== *)
(** * Directory: where the relay reads a chain and which endpoints it calls
    ([vela-relay-core/src/chain_directory.rs], [rpc_host.rs])

    The base URL and the metadata URLs built on it, the verdict on one
    metadata fetch, what the Worker reads of a chain's metadata
    ([vela-relay-cf/src/arms/market.rs]), and the host rule that keeps the
    relay from calling into its own network.  [IpAddr::from_str] is the Standard Library's parser,
    modelled reader by reader; whether a text is a JSON object is the
    argument [is_json_object], serde_json's answer. *)

From S2P Require Export Alert Json.
#[local] Open Scope string_scope.
#[local] Open Scope Z_scope.

(** ** The chain directory *)

Definition DEFAULT_CHAIN_DIRECTORY_URL : string := "https://ethereum-data.getvela.app".

Record ChainDirectory : Type := { base_url : string }.

Definition default_directory : ChainDirectory := {| base_url := DEFAULT_CHAIN_DIRECTORY_URL |}.

Definition strip_scheme (value : string) : option string :=
  match str_strip_prefix "https://" value with
  | Some rest => Some rest
  | None => str_strip_prefix "http://" value
  end.

Definition opens_query (a : ascii) : bool := bool_decide (a = "?"%char) || bool_decide (a = "#"%char).

Definition parse_directory (value : string) : result string ChainDirectory :=
  let value := trim value in
  let refused reason := Err ("chain directory URL `" +:+ value +:+ reason) in
  match strip_scheme value with
  | None => refused "` must start with https:// or http://"
  | Some rest =>
      if bool_decide (default "" (head (str_split "/" rest)) = "") then refused "` has no host"
      else if existsb (λ c, is_whitespace_char c || is_control_char c) (utf8_chars value)
      then refused "` contains whitespace"
      else if negb (all_chars (λ a, negb (opens_query a)) value)
      then refused "` cannot carry a query string or fragment"
      else Ok {| base_url := trim_end_char "/" value |}
  end.

Definition directory_from_setting (value : option string) : result string ChainDirectory :=
  match value with Some value => parse_directory value | None => Ok default_directory end.

Definition metadata_url (d : ChainDirectory) (chain_id : Z) : string :=
  base_url d +:+ "/chains/eip155-" +:+ dec chain_id +:+ ".json".

Inductive Listing : Type := Listed | NotListed | Unavailable.

#[export] Instance Listing_eq_dec : EqDecision Listing.
Proof. solve_decision. Defined.

Definition listing_of {Body} (is_json_object : Body → bool) (status : Z) (body : Body) : Listing :=
  if decide (200 ≤ status ≤ 299) then (if is_json_object body then Listed else NotListed)
  else if decide (status = 404 ∨ status = 410) then NotListed
  else Unavailable.

(** ** A chain's metadata *)

Record StablecoinMetadata : Type := {
  sm_symbol : string; sm_contract : string; sm_decimals : option Z }.
Record NativeCurrencyMetadata : Type := { nm_symbol : string; nm_decimals : Z }.
Record ChainMetadata : Type := {
  cm_rpc : list string; cm_stables : list StablecoinMetadata;
  cm_native_currency : option NativeCurrencyMetadata }.

(** [Option<u32>] and [u32] of the derives. *)
Definition de_stablecoin (v : Value) : option StablecoinMetadata :=
  o ← struct_fields ["symbol"; "contract"; "decimals"] 2 v;
  if negb (fields_once ["symbol"; "contract"; "decimals"] o) then None else
  symbol ← defaulted "" as_str "symbol" o; contract ← req as_str "contract" o;
  decimals ← opt (as_uint 32) "decimals" o;
  Some {| sm_symbol := symbol; sm_contract := contract; sm_decimals := decimals |}.

Definition de_native_currency (v : Value) : option NativeCurrencyMetadata :=
  o ← struct_fields ["symbol"; "decimals"] 2 v;
  if negb (fields_once ["symbol"; "decimals"] o) then None else
  symbol ← defaulted "" as_str "symbol" o; decimals ← req (as_uint 32) "decimals" o;
  Some {| nm_symbol := symbol; nm_decimals := decimals |}.

Definition de_list {A} (f : Value → option A) (v : Value) : option (list A) :=
  l ← as_array v; mapM f l.

Definition de_chain_metadata (v : Value) : option ChainMetadata :=
  o ← struct_fields ["rpc"; "stables"; "nativeCurrency"] 3 v;
  if negb (fields_once ["rpc"; "stables"; "nativeCurrency"] o) then None else
  rpc ← defaulted [] (de_list as_str) "rpc" o;
  stables ← defaulted [] (de_list de_stablecoin) "stables" o;
  native ← opt de_native_currency "nativeCurrency" o;
  Some {| cm_rpc := rpc; cm_stables := stables; cm_native_currency := native |}.

(** ** The host rule *)

Inductive RpcHostPolicy : Type := PublicHttpsOnly | AllowPrivate.

Definition host_policy_from_setting (allow_private : bool) : RpcHostPolicy :=
  if allow_private then AllowPrivate else PublicHttpsOnly.

(** *** [IpAddr::from_str] *)

(** [char::to_digit] *)
Definition to_digit (radix : Z) (a : ascii) : option Z :=
  d ← hex_digit_value a; if decide (d < radix) then Some d else None.

(** The digits of [read_number]: its value (a [u32] that no number of at most
    four digits saturates), how many there were, and what is left. *)
Fixpoint read_digits (radix : Z) (max_digits : nat) (acc : Z) (count : nat) (s : string) :
    option (Z * nat * string) :=
  match s with
  | EmptyString => Some (acc, count, s)
  | String a s' =>
      match to_digit radix a with
      | Some d =>
          if decide (max_digits < S count)%nat then None
          else read_digits radix max_digits (acc * radix + d) (S count) s'
      | None => Some (acc, count, s)
      end
  end.

Definition read_number (radix : Z) (max_digits : nat) (allow_zero_prefix : bool) (w : Z) (s : string) :
    option (Z * string) :=
  '(value, count, rest) ← read_digits radix max_digits 0 0 s;
  if decide (count = 0)%nat then None
  else if negb allow_zero_prefix && starts_with "0" s && bool_decide (1 < count)%nat then None
  else value ← checked w value; Some (value, rest).

Definition read_given_char (c : ascii) (s : string) : option string :=
  match s with String a s' => if decide (a = c) then Some s' else None | EmptyString => None end.

Definition read_separator {A} (sep : ascii) (index : nat) (inner : string → option (A * string))
    (s : string) : option (A * string) :=
  match index with O => inner s | S _ => s ← read_given_char sep s; inner s end.

Record Ipv4Addr : Type := { oct1 : Z; oct2 : Z; oct3 : Z; oct4 : Z }.

Definition read_octet (index : nat) : string → option (Z * string) :=
  read_separator "." index (read_number 10 3 false 8).

Definition read_ipv4_addr (s : string) : option (Ipv4Addr * string) :=
  '(a, s) ← read_octet 0 s; '(b, s) ← read_octet 1 s;
  '(c, s) ← read_octet 2 s; '(d, s) ← read_octet 3 s;
  Some ({| oct1 := a; oct2 := b; oct3 := c; oct4 := d |}, s).

(** The groups from [i] to [limit], [fuel] of them, and whether they end in
    an IPv4 address. *)
Fixpoint read_groups (fuel limit i : nat) (s : string) : list Z * bool * string :=
  match fuel with
  | O => ([], false, s)
  | S fuel =>
      match (if decide (i < limit - 1)%nat then read_separator ":" i read_ipv4_addr s else None) with
      | Some (v4, rest) => ([oct1 v4 * 256 + oct2 v4; oct3 v4 * 256 + oct4 v4], true, rest)
      | None =>
          match read_separator ":" i (read_number 16 4 true 16) s with
          | Some (group, rest) =>
              let '(groups, ends_v4, rest) := read_groups fuel limit (S i) rest in
              (group :: groups, ends_v4, rest)
          | None => ([], false, s)
          end
      end
  end.

Definition read_ipv6_addr (s : string) : option (list Z * string) :=
  let '(front, front_v4, s) := read_groups 8 8 0 s in
  if decide (length front = 8%nat) then Some (front, s)
  else if front_v4 : bool then None
  else
    s ← read_given_char ":" s;
    s ← read_given_char ":" s;
    let limit := (8 - (length front + 1))%nat in
    let '(back, _, s) := read_groups limit limit 0 s in
    Some (front ++ replicate (8 - length front - length back) 0 ++ back, s)%list.

Inductive IpAddr : Type := IpV4 (address : Ipv4Addr) | IpV6 (segments : list Z).

Definition parse_ip (s : string) : option IpAddr :=
  let ended {A} (f : A → IpAddr) (read : A * string) :=
    match read.2 with EmptyString => Some (f read.1) | _ => None end in
  match read_ipv4_addr s with
  | Some read => ended IpV4 read
  | None => read ← read_ipv6_addr s; ended IpV6 read
  end.

(** *** Private hosts *)

(** [is_loopback], [is_private], [is_link_local], [is_unspecified] and the
    carrier-grade range. *)
Definition is_private_v4 (address : Ipv4Addr) : bool :=
  let '{| oct1 := a; oct2 := b; oct3 := c; oct4 := d |} := address in
  bool_decide (a = 127) ||
  (bool_decide (a = 10) || (bool_decide (a = 172) && bool_decide (16 ≤ b ≤ 31)) ||
   (bool_decide (a = 192) && bool_decide (b = 168))) ||
  (bool_decide (a = 169) && bool_decide (b = 254)) ||
  bool_decide (a = 0 ∧ b = 0 ∧ c = 0 ∧ d = 0) ||
  (bool_decide (a = 100) && bool_decide (Z.land b 0xc0 = 64)).

Definition to_ipv4_mapped (segments : list Z) : option Ipv4Addr :=
  match segments with
  | [0; 0; 0; 0; 0; 0xffff; ab; cd] =>
      Some {| oct1 := ab / 256; oct2 := ab mod 256; oct3 := cd / 256; oct4 := cd mod 256 |}
  | _ => None
  end.

Definition is_private_v6 (segments : list Z) : bool :=
  let first := default 0 (head segments) in
  bool_decide (segments = [0; 0; 0; 0; 0; 0; 0; 1]) ||
  bool_decide (segments = [0; 0; 0; 0; 0; 0; 0; 0]) ||
  bool_decide (Z.land first 0xfe00 = 0xfc00) ||
  bool_decide (Z.land first 0xffc0 = 0xfe80) ||
  match to_ipv4_mapped segments with Some v4 => is_private_v4 v4 | None => false end.

Fixpoint ends_with (suffix s : string) : bool :=
  String.eqb s suffix ||
  match s with EmptyString => false | String _ s => ends_with suffix s end.

(** [strip_suffix] of one character. *)
Fixpoint strip_last (c : ascii) (s : string) : option string :=
  match s with
  | EmptyString => None
  | String a EmptyString => if decide (a = c) then Some EmptyString else None
  | String a s => rest ← strip_last c s; Some (String a rest)
  end.

Definition is_private_host (host : string) : bool :=
  let host := to_ascii_lowercase (trim_end_char "." host) in
  if bool_decide (host = "localhost") || ends_with ".localhost" host then true
  else
    let literal := default host (rest ← str_strip_prefix "[" host; strip_last "]" rest) in
    match parse_ip literal with
    | Some (IpV4 address) => is_private_v4 address
    | Some (IpV6 segments) => is_private_v6 segments
    | None => false
    end.

Definition allows (policy : RpcHostPolicy) (scheme host : string) : bool :=
  if bool_decide (host = "") then false
  else match policy with
  | PublicHttpsOnly => bool_decide (scheme = "https") && negb (is_private_host host)
  | AllowPrivate => bool_decide (scheme = "https") || bool_decide (scheme = "http")
  end.

(** ** Reading an address back *)

Fixpoint digits_value (radix acc : Z) (s : string) : option Z :=
  match s with
  | EmptyString => Some acc
  | String a s => d ← to_digit radix a; digits_value radix (acc * radix + d) s
  end.

(** The text ends, or goes on with no digit. *)
Definition ends_number (radix : Z) (rest : string) : bool :=
  match rest with
  | EmptyString => true
  | String a _ => match to_digit radix a with Some _ => false | None => true end
  end.

Lemma read_digits_app radix max acc count s rest v :
  digits_value radix acc s = Some v → ends_number radix rest = true →
  (count + String.length s ≤ max)%nat →
  read_digits radix max acc count (s +:+ rest) = Some (v, (count + String.length s)%nat, rest).
Proof.
  intros Hv Hrest. revert acc count Hv. induction s as [|a s IH]; intros acc count Hv Hlen.
  - injection Hv as <-. rewrite str_app_nil. cbn [String.length]. rewrite Nat.add_0_r.
    destruct rest as [|a rest]; [done|]. cbn in *. by destruct (to_digit radix a).
  - rewrite str_app_cons. cbn [digits_value String.length read_digits] in *.
    apply bind_Some in Hv as (d & Hd & Hv). rewrite Hd. rewrite decide_False by lia.
    rewrite IH by (done || lia). f_equal. f_equal. f_equal. lia.
Qed.

(** A number's own text: short, without leading zeros. *)
Definition octet_text_ok (z : Z) : bool :=
  bool_decide (digits_value 10 0 (dec z) = Some z) &&
  bool_decide (1 ≤ String.length (dec z) ≤ 3)%nat &&
  negb (starts_with "0" (dec z) && bool_decide (1 < String.length (dec z))%nat).
Lemma below_all (P : Z → bool) n z :
  forallb P (seqZ 0 n) = true → 0 ≤ z < n → P z = true.
Proof. rewrite forallb_forall. intros H Hz. apply H, list_elem_of_In, elem_of_seqZ. lia. Qed.

Lemma octet_text z : 0 ≤ z < 256 → octet_text_ok z = true.
Proof. apply below_all. vm_compute. reflexivity. Qed.

Lemma digits_value_hex acc s : digits_value 16 acc s = hex_value acc s.
Proof.
  revert acc. induction s as [|a s IH]; intros acc; cbn [digits_value hex_value]; [done|].
  unfold to_digit. destruct (hex_digit_value a) as [d|] eqn:E; [|done]. cbn [mbind option_bind].
  rewrite decide_True by (eapply hex_digit_value_range; eauto). apply IH.
Qed.

Lemma lower_hex_onto_length fuel z acc k :
  0 ≤ z < 16 ^ Z.of_nat (S k) →
  (String.length (lower_hex_onto fuel z acc) ≤ S k + String.length acc)%nat.
Proof.
  revert z acc k. induction fuel as [|fuel IH]; intros z acc k Hz; cbn [lower_hex_onto]; [lia|].
  case_decide as Hlt; [cbn; lia|].
  destruct k as [|k]; [change (16 ^ Z.of_nat 1) with 16 in Hz; lia|].
  rewrite Nat2Z.inj_succ, Z.pow_succ_r in Hz by lia.
  specialize (IH (z / 16) (String (hex_char (z mod 16)) acc) k). cbn [String.length] in IH.
  assert (0 ≤ z / 16 < 16 ^ Z.of_nat (S k)); [|lia].
  split; [apply Z.div_pos; lia|]. apply Z.div_lt_upper_bound; lia.
Qed.

Lemma lower_hex_onto_chars P fuel z acc :
  (∀ d, 0 ≤ d < 16 → P (hex_char d) = true) → all_chars P acc = true →
  all_chars P (lower_hex_onto fuel z acc) = true.
Proof.
  intros HP. revert z acc. induction fuel as [|fuel IH]; intros z acc Hacc; cbn [lower_hex_onto]; [done|].
  assert (all_chars P (String (hex_char (z mod 16)) acc) = true).
  { cbn. rewrite HP, Hacc; [done|]. apply Z.mod_pos_bound. lia. }
  case_decide; auto.
Qed.

Lemma lower_hex_chars P z :
  (∀ d, 0 ≤ d < 16 → P (hex_char d) = true) → all_chars P (lower_hex z) = true.
Proof. intros HP. by apply lower_hex_onto_chars. Qed.

Definition is_hex_char (a : ascii) : bool := is_ascii_digit a || bool_decide (97 ≤ byte_of a ≤ 102).

Lemma hex_char_is_hex d : 0 ≤ d < 16 → is_hex_char (hex_char d) = true.
Proof. apply (below_all (λ d, is_hex_char (hex_char d))). vm_compute. reflexivity. Qed.

Lemma lower_hex_is_hex z : all_chars is_hex_char (lower_hex z) = true.
Proof. apply lower_hex_chars, hex_char_is_hex. Qed.

Lemma lower_hex_onto_nonempty fuel z acc : acc ≠ "" → lower_hex_onto fuel z acc ≠ "".
Proof.
  revert z acc. induction fuel as [|fuel IH]; intros z acc Hacc; cbn [lower_hex_onto]; [done|].
  case_decide; [done|]. by apply IH.
Qed.

Lemma lower_hex_nonempty z : lower_hex z ≠ "".
Proof. unfold lower_hex. cbn [lower_hex_onto]. case_decide; [done|]. by apply lower_hex_onto_nonempty. Qed.

Lemma starts_with_app p s r : s ≠ "" → String.length p = 1%nat →
  starts_with p (s +:+ r) = starts_with p s.
Proof.
  intros Hs Hp. destruct s as [|a s]; [done|]. destruct p as [|c [|]]; try done.
  rewrite str_app_cons. unfold starts_with. cbn. case_decide; [|done]. reflexivity.
Qed.

Lemma read_octet_text z rest :
  0 ≤ z < 256 → ends_number 10 rest = true →
  read_number 10 3 false 8 (dec z +:+ rest) = Some (z, rest).
Proof.
  intros Hz Hrest. pose proof (octet_text z Hz) as Hok. unfold octet_text_ok in Hok.
  apply andb_true_iff in Hok as [[Hv Hl]%andb_true_iff Hzero].
  apply bool_decide_eq_true in Hv, Hl. unfold read_number.
  rewrite (read_digits_app 10 3 0 0 (dec z) rest z Hv Hrest) by lia. cbn [mbind option_bind negb].
  rewrite decide_False by lia. rewrite starts_with_app by (done || (intros E; rewrite E in Hl; cbn in Hl; lia)).
  rewrite Nat.add_0_l. apply negb_true_iff in Hzero. cbn [andb]. rewrite Hzero.
  by rewrite checked_fits by (unfold fits; lia).
Qed.

Lemma read_segment_text z rest :
  0 ≤ z < 65536 → ends_number 16 rest = true →
  read_number 16 4 true 16 (lower_hex z +:+ rest) = Some (z, rest).
Proof.
  intros Hz Hrest. unfold read_number.
  assert (Hl : (String.length (lower_hex z) ≤ 4)%nat).
  { pose proof (lower_hex_onto_length (S (Z.to_nat (Z.log2 z))) z "" 3) as H.
    cbn [String.length] in H. apply H. change (16 ^ Z.of_nat 4) with 65536. lia. }
  rewrite (read_digits_app 16 4 0 0 (lower_hex z) rest z) by
    (done || lia || (rewrite digits_value_hex; apply lower_hex_value; lia)).
  cbn [mbind option_bind negb andb]. rewrite decide_False.
  2:{ pose proof (lower_hex_nonempty z). destruct (lower_hex z); [done|]. cbn. lia. }
  by rewrite checked_fits by (unfold fits; lia).
Qed.

Definition octets (v : Ipv4Addr) : Prop :=
  0 ≤ oct1 v < 256 ∧ 0 ≤ oct2 v < 256 ∧ 0 ≤ oct3 v < 256 ∧ 0 ≤ oct4 v < 256.

(** [Display for Ipv4Addr]. *)
Definition dotted (v : Ipv4Addr) : string :=
  dec (oct1 v) +:+ "." +:+ dec (oct2 v) +:+ "." +:+ dec (oct3 v) +:+ "." +:+ dec (oct4 v).

Lemma read_octet_next i z rest :
  0 ≤ z < 256 → ends_number 10 rest = true →
  read_octet (S i) ("." +:+ dec z +:+ rest) = Some (z, rest).
Proof. exact (read_octet_text z rest). Qed.

Lemma read_ipv4_dotted v rest :
  octets v → ends_number 10 rest = true → read_ipv4_addr (dotted v +:+ rest) = Some (v, rest).
Proof.
  intros (H1 & H2 & H3 & H4) Hrest. unfold dotted. rewrite !str_app_assoc.
  unfold read_ipv4_addr. change (read_octet 0) with (read_number 10 3 false 8).
  rewrite read_octet_text by done. cbn [mbind option_bind].
  do 3 (rewrite read_octet_next by done; cbn [mbind option_bind]). by destruct v.
Qed.

Definition no_dot : string → bool := all_chars (λ a, negb (bool_decide (a = "."%char))).

Lemma read_digits_no_dot radix max acc count s v n rest :
  no_dot s = true → read_digits radix max acc count s = Some (v, n, rest) → no_dot rest = true.
Proof.
  revert acc count. induction s as [|a s IH]; intros acc count Hs; cbn [read_digits].
  - intros [= <- <- <-]. done.
  - destruct (to_digit radix a).
    + case_decide; [done|]. apply IH. cbn in Hs. by apply andb_true_iff in Hs as [_ Hs].
    + intros [= <- <- <-]. done.
Qed.

Lemma read_ipv4_no_dot s : no_dot s = true → read_ipv4_addr s = None.
Proof.
  intros Hs. unfold read_ipv4_addr, read_octet. cbn [read_separator].
  destruct (read_number 10 3 false 8 s) as [[v rest]|] eqn:E; [|done]. cbn.
  enough (no_dot rest = true) as Hrest.
  { destruct rest as [|a rest]; [done|]. cbn in *. apply andb_true_iff in Hrest as [Ha _].
    apply negb_true_iff, bool_decide_eq_false in Ha. by rewrite decide_False. }
  unfold read_number in E. apply bind_Some in E as ([[v' n] r] & Hd & E). split_match.
  apply bind_Some in E as (? & _ & E). injection E as _ <-. by eapply read_digits_no_dot.
Qed.

Lemma hex_no_dot z : no_dot (lower_hex z) = true.
Proof.
  eapply all_chars_impl; [|apply lower_hex_is_hex]. intros a Ha.
  apply negb_true_iff, bool_decide_eq_false. intros ->. by vm_compute in Ha.
Qed.

(** ** The two spellings of an IPv4-mapped address *)

Definition mapped_segments (v : Ipv4Addr) : list Z :=
  [0; 0; 0; 0; 0; 0xffff; oct1 v * 256 + oct2 v; oct3 v * 256 + oct4 v].
Definition mapped_dotted (v : Ipv4Addr) : string := "::ffff:" +:+ dotted v.
Definition mapped_hex (v : Ipv4Addr) : string :=
  "::ffff:" +:+ lower_hex (oct1 v * 256 + oct2 v) +:+ ":" +:+ lower_hex (oct3 v * 256 + oct4 v).

Lemma parse_ip_dotted v : octets v → parse_ip (dotted v) = Some (IpV4 v).
Proof.
  intros Hv. unfold parse_ip. pose proof (read_ipv4_dotted v "" Hv eq_refl) as H.
  rewrite str_app_empty in H. by rewrite H.
Qed.

(** What follows [::ffff:]. *)
Lemma read_groups_next fuel limit i t :
  (i < limit - 1)%nat → (0 < i)%nat →
  read_groups (S fuel) limit i (String ":" t) =
    match read_ipv4_addr t with
    | Some (v4, rest) => ([oct1 v4 * 256 + oct2 v4; oct3 v4 * 256 + oct4 v4], true, rest)
    | None =>
        match read_number 16 4 true 16 t with
        | Some (group, rest) =>
            let '(groups, ends_v4, rest) := read_groups fuel limit (S i) rest in
            (group :: groups, ends_v4, rest)
        | None => ([], false, String ":" t)
        end
    end.
Proof. intros Hi H0. cbn [read_groups]. rewrite decide_True by done. by destruct i; [lia|]. Qed.

Lemma read_ipv6_mapped t ab cd :
  (∃ v4, read_groups 6 7 1 (String ":" t) = ([ab; cd], v4, "")) →
  parse_ip ("::ffff:" +:+ t) = Some (IpV6 [0; 0; 0; 0; 0; 0xffff; ab; cd]).
Proof.
  intros [v4 Ht].
  assert (Hfront : read_groups 8 8 0 ("::ffff:" +:+ t) = ([], false, "::ffff:" +:+ t)) by reflexivity.
  assert (Hback : read_groups 7 7 0 ("ffff:" +:+ t) =
    let '(groups, ends_v4, rest) := read_groups 6 7 1 (String ":" t) in
    (0xffff :: groups, ends_v4, rest)) by reflexivity.
  unfold parse_ip. change (read_ipv4_addr ("::ffff:" +:+ t)) with (@None (Ipv4Addr * string)).
  unfold read_ipv6_addr. rewrite Hfront. rewrite decide_False by done.
  change (read_given_char ":" ("::ffff:" +:+ t)) with (Some (":ffff:" +:+ t)). cbn [mbind option_bind].
  change (read_given_char ":" (":ffff:" +:+ t)) with (Some ("ffff:" +:+ t)). cbn [mbind option_bind].
  change (8 - (length (@nil Z) + 1))%nat with 7%nat. rewrite Hback, Ht. reflexivity.
Qed.

Lemma parse_ip_mapped_dotted v : octets v → parse_ip (mapped_dotted v) = Some (IpV6 (mapped_segments v)).
Proof.
  intros Hv. apply read_ipv6_mapped. rewrite read_groups_next by lia.
  pose proof (read_ipv4_dotted v "" Hv eq_refl) as H. rewrite str_app_empty in H. rewrite H. by eexists.
Qed.

Lemma parse_ip_mapped_hex v : octets v → parse_ip (mapped_hex v) = Some (IpV6 (mapped_segments v)).
Proof.
  intros (H1 & H2 & H3 & H4). apply read_ipv6_mapped.
  set (ab := oct1 v * 256 + oct2 v). set (cd := oct3 v * 256 + oct4 v).
  rewrite read_groups_next by lia. rewrite read_ipv4_no_dot.
  2:{ unfold no_dot. rewrite !all_chars_app. fold no_dot. by rewrite !hex_no_dot. }
  rewrite read_segment_text by (done || unfold ab; lia).
  rewrite str_app_cons, str_app_nil, read_groups_next by lia.
  rewrite read_ipv4_no_dot by apply hex_no_dot.
  pose proof (read_segment_text cd "" ltac:(unfold cd; lia) eq_refl) as Hc. rewrite str_app_empty in Hc.
  rewrite Hc. by eexists.
Qed.

(** ** The private ranges, as CIDR blocks *)

Definition private_blocks : list (Z * Z) :=
  [(0x00000000, 32); (0x0a000000, 8); (0x64400000, 10); (0x7f000000, 8);
   (0xa9fe0000, 16); (0xac100000, 12); (0xc0a80000, 16)].

Definition address_value (v : Ipv4Addr) : Z :=
  ((oct1 v * 256 + oct2 v) * 256 + oct3 v) * 256 + oct4 v.
Definition in_block (address : Z) (block : Z * Z) : bool :=
  bool_decide (address / 2 ^ (32 - block.2) = block.1 / 2 ^ (32 - block.2)).
Definition reserved (v : Ipv4Addr) : bool := existsb (in_block (address_value v)) private_blocks.

Lemma carrier_grade b : 0 ≤ b < 256 → bool_decide (Z.land b 0xc0 = 64) = bool_decide (64 ≤ b < 128).
Proof.
  intros Hb. apply Bool.eqb_prop.
  apply (below_all (λ b, Bool.eqb (bool_decide (Z.land b 0xc0 = 64)) (bool_decide (64 ≤ b < 128))) 256 b); [|done].
  vm_compute. reflexivity.
Qed.

(** The leading bits of an address. *)
Lemma address_prefix a b c d :
  0 ≤ b < 256 → 0 ≤ c < 256 → 0 ≤ d < 256 →
  let address := ((a * 256 + b) * 256 + c) * 256 + d in
  address / 16777216 = a ∧ address / 65536 = a * 256 + b ∧
  address / 4194304 = a * 4 + b / 64 ∧ address / 1048576 = a * 16 + b / 16.
Proof. intros Hb Hc Hd. cbn zeta. split_and!; Z.to_euclidean_division_equations; lia. Qed.

Lemma two_bytes a b m n : 0 ≤ b < 256 → 0 ≤ n < 256 → a * 256 + b = m * 256 + n ↔ a = m ∧ b = n.
Proof. lia. Qed.

Lemma is_private_v4_reserved v : octets v → is_private_v4 v = reserved v.
Proof.
  destruct v as [a b c d]. intros (Ha & Hb & Hc & Hd). cbn in Ha, Hb, Hc, Hd.
  unfold reserved, is_private_v4, private_blocks, in_block, address_value.
  cbn [existsb fst snd oct1 oct2 oct3 oct4]. rewrite carrier_grade by done.
  apply Bool.eq_true_iff_eq. rewrite !orb_true_iff, !andb_true_iff, !bool_decide_eq_true.
  change (2 ^ (32 - 32)) with 1. change (2 ^ (32 - 8)) with 16777216. change (2 ^ (32 - 10)) with 4194304.
  change (2 ^ (32 - 16)) with 65536. change (2 ^ (32 - 12)) with 1048576.
  destruct (address_prefix a b c d Hb Hc Hd) as (-> & -> & -> & ->).
  rewrite !Z.div_1_r.
  replace (167772160 / 16777216) with 10 by (vm_compute; reflexivity). replace (1681915904 / 4194304) with 401 by (vm_compute; reflexivity).
  replace (2130706432 / 16777216) with 127 by (vm_compute; reflexivity). replace (2851995648 / 65536) with (169 * 256 + 254) by (vm_compute; reflexivity).
  replace (2886729728 / 1048576) with 2753 by (vm_compute; reflexivity). replace (3232235520 / 65536) with (192 * 256 + 168) by (vm_compute; reflexivity).
  assert (E1 : ((a * 256 + b) * 256 + c) * 256 + d = 0 ↔ a = 0 ∧ b = 0 ∧ c = 0 ∧ d = 0) by lia.
  assert (E2 : a * 4 + b / 64 = 401 ↔ a = 100 ∧ 64 ≤ b < 128)
    by (split; intros; Z.to_euclidean_division_equations; lia).
  pose proof (two_bytes a b 169 254 Hb ltac:(lia)) as E3.
  assert (E4 : a * 16 + b / 16 = 2753 ↔ a = 172 ∧ 16 ≤ b ≤ 31)
    by (split; intros; Z.to_euclidean_division_equations; lia).
  pose proof (two_bytes a b 192 168 Hb ltac:(lia)) as E5.
  assert (E6 : false = true ↔ False) by done.
  rewrite E1, E2, E3, E4, E5, E6. clear. tauto.
Qed.

(** ** The host as a URL parser reports it *)

Fixpoint last_char (s : string) : option ascii :=
  match s with
  | EmptyString => None
  | String a EmptyString => Some a
  | String _ s => last_char s
  end.
Fixpoint dots (n : nat) : string := match n with O => "" | S n => String "." (dots n) end.

Lemma trim_end_dots s n : trim_end_char "." (s +:+ dots n) = trim_end_char "." s.
Proof.
  induction s as [|a s IH]; rewrite ?str_app_nil, ?str_app_cons.
  - induction n as [|n IH]; [done|]. cbn [dots trim_end_char] in *. by rewrite IH.
  - cbn [trim_end_char]. by rewrite IH.
Qed.

Lemma trim_end_char_last c s : last_char s ≠ Some c → trim_end_char c s = s.
Proof.
  induction s as [|a s IH]; [done|]. intros H. cbn [trim_end_char].
  destruct s as [|b s].
  - cbn. rewrite decide_False; [done|]. by intros ->.
  - by rewrite (IH H).
Qed.

Lemma last_char_all P s a : all_chars P s = true → last_char s = Some a → P a = true.
Proof.
  induction s as [|b s IH]; [done|]. cbn [all_chars last_char]. rewrite andb_true_iff. intros [Hb Hs].
  destruct s; [by intros [= <-]|]. by apply IH.
Qed.

Lemma last_char_cons a s : s ≠ "" → last_char (String a s) = last_char s.
Proof. by destruct s. Qed.

Lemma last_char_app p s : s ≠ "" → last_char (p +:+ s) = last_char s.
Proof.
  intros Hs. induction p as [|a p IH]; rewrite ?str_app_nil, ?str_app_cons; [done|].
  rewrite last_char_cons; [done|]. destruct p; [by rewrite str_app_nil|done].
Qed.

Lemma last_char_lower s : last_char (to_ascii_lowercase s) = ascii_lower <$> last_char s.
Proof. induction s as [|a s IH]; [done|]. destruct s as [|b s]; [done|]. exact IH. Qed.

Lemma ends_with_last suffix s :
  suffix ≠ "" → ends_with suffix s = true → last_char s = last_char suffix.
Proof.
  intros Hne. induction s as [|a s IH]; cbn [ends_with]; rewrite orb_true_iff, String.eqb_eq.
  - by intros [->|?].
  - intros [->|H]; [done|]. rewrite <-(IH H). apply last_char_cons. intros ->. cbn in H.
    rewrite orb_false_r in H. by destruct suffix.
Qed.

Lemma ends_with_app p s : ends_with s (p +:+ s) = true.
Proof.
  induction p as [|a p IH]; rewrite ?str_app_nil, ?str_app_cons.
  - destruct s as [|b s]; [done|]. cbn [ends_with]. by rewrite String.eqb_refl.
  - cbn [ends_with]. rewrite IH. apply orb_true_r.
Qed.

Lemma strip_last_app c s : strip_last c (s +:+ String c "") = Some s.
Proof.
  induction s as [|a s IH]; rewrite ?str_app_nil, ?str_app_cons; cbn [strip_last].
  - by rewrite decide_True.
  - rewrite IH. by destruct s.
Qed.

(** The characters of a literal: none of them is an upper-case letter. *)
Definition host_char (a : ascii) : bool :=
  is_hex_char a || bool_decide (a ∈ ["."; ":"; "["; "]"]%char).

Lemma host_char_lower s : all_chars host_char s = true → to_ascii_lowercase s = s.
Proof.
  induction s as [|a s IH]; [done|]. cbn. rewrite andb_true_iff. intros [Ha Hs].
  rewrite (IH Hs). f_equal. destruct a as [[] [] [] [] [] [] [] []]; vm_compute in Ha |- *; done.
Qed.

Lemma host_char_no_name s :
  all_chars host_char s = true →
  bool_decide (s = "localhost") || ends_with ".localhost" s = false.
Proof.
  intros Hs. apply orb_false_iff. split.
  - apply bool_decide_eq_false. intros ->. done.
  - destruct (ends_with ".localhost" s) eqn:E; [|done].
    apply ends_with_last in E; [|done]. by apply (last_char_all host_char) in E.
Qed.

Lemma dec_host_chars z : all_chars host_char (dec z) = true.
Proof.
  eapply all_chars_impl; [|apply dec_digits]. intros a Ha. unfold host_char, is_hex_char. by rewrite Ha.
Qed.
Lemma dec_last z : 0 ≤ z < 256 → last_char (dec z) ≠ Some "."%char.
Proof. intros _ H. by pose proof (last_char_all _ _ _ (dec_digits z) H). Qed.
Lemma dec_nonempty z : 0 ≤ z < 256 → dec z ≠ "".
Proof. intros Hz E. pose proof (octet_text z Hz) as Hok. unfold octet_text_ok in Hok.
  rewrite E, andb_false_r in Hok. done. Qed.
Lemma dotted_host_chars v : all_chars host_char (dotted v) = true.
Proof. unfold dotted. rewrite !all_chars_app, !dec_host_chars. reflexivity. Qed.
Lemma hex_host_chars z : all_chars host_char (lower_hex z) = true.
Proof.
  eapply all_chars_impl; [|apply lower_hex_is_hex]. intros a Ha. unfold host_char. by rewrite Ha.
Qed.

Lemma is_private_v6_mapped v : octets v → is_private_v6 (mapped_segments v) = is_private_v4 v.
Proof.
  destruct v as [a b c d]. intros (Ha & Hb & Hc & Hd). cbn in Ha, Hb, Hc, Hd.
  unfold is_private_v6, mapped_segments, to_ipv4_mapped. cbn [head oct1 oct2 oct3 oct4].
  do 2 (rewrite bool_decide_eq_false_2 by done). cbn [orb default].
  change (Z.land (default 0 (Some 0)) 0xfe00) with 0. change (Z.land (default 0 (Some 0)) 0xffc0) with 0.
  do 2 (rewrite bool_decide_eq_false_2 by done). cbn [orb].
  assert (H : ∀ m n, 0 ≤ n < 256 → (m * 256 + n) / 256 = m ∧ (m * 256 + n) mod 256 = n)
    by (intros; Z.to_euclidean_division_equations; lia).
  destruct (H a b Hb) as [-> ->]. destruct (H c d Hd) as [-> ->]. done.
Qed.

(** How a URL names an IPv4 host. *)
Definition spellings (v : Ipv4Addr) : list string :=
  [dotted v; "[" +:+ mapped_dotted v +:+ "]"; "[" +:+ mapped_hex v +:+ "]"].

Lemma spelled_private v host :
  octets v → host ∈ spellings v →
  all_chars host_char host = true ∧ last_char host ≠ Some "."%char ∧ host ≠ "" ∧
  match parse_ip (default host (rest ← str_strip_prefix "[" host; strip_last "]" rest)) with
  | Some (IpV4 address) => is_private_v4 address
  | Some (IpV6 segments) => is_private_v6 segments
  | None => false
  end = reserved v.
Proof.
  intros Hv Hh. rewrite <-(is_private_v4_reserved v Hv). unfold spellings in Hh.
  repeat (apply elem_of_cons in Hh as [->|Hh]); [| | |by apply elem_of_nil in Hh].
  - split_and!; [apply dotted_host_chars| | |].
    { unfold dotted. destruct Hv as (_ & _ & _ & H4). rewrite <-!str_app_assoc, last_char_app
        by (by apply dec_nonempty). by apply dec_last. }
    { unfold dotted. pose proof (dec_nonempty (oct1 v) (proj1 Hv)). by destruct (dec (oct1 v)). }
    assert (str_strip_prefix "[" (dotted v) = None) as ->.
    { pose proof (dec_digits (oct1 v)) as Hd. pose proof (dec_nonempty (oct1 v) (proj1 Hv)) as Hok.
      unfold dotted. destruct (dec (oct1 v)) as [|a s] eqn:E; [done|].
      rewrite str_app_cons. cbn. case_decide as Heq; [|done]. by subst. }
    cbn [mbind option_bind default id]. by rewrite parse_ip_dotted.
  - split_and!; [unfold mapped_dotted; by rewrite !all_chars_app, dotted_host_chars
                |by rewrite <-str_app_assoc, last_char_app by done|done|].
    rewrite str_strip_prefix_app. cbn [mbind option_bind]. rewrite strip_last_app. cbn [default id].
    rewrite parse_ip_mapped_dotted by done. by apply is_private_v6_mapped.
  - split_and!; [unfold mapped_hex; by rewrite !all_chars_app, !hex_host_chars
                |by rewrite <-str_app_assoc, last_char_app by done|done|].
    rewrite str_strip_prefix_app. cbn [mbind option_bind]. rewrite strip_last_app. cbn [default id].
    rewrite parse_ip_mapped_hex by done. by apply is_private_v6_mapped.
Qed.

(** The names of the machine itself. *)
Definition local_name (name parent : string) : Prop :=
  to_ascii_lowercase name = "localhost" ∨ to_ascii_lowercase name = parent +:+ ".localhost".

Lemma named_private name parent :
  local_name name parent →
  bool_decide (to_ascii_lowercase name = "localhost") || ends_with ".localhost" (to_ascii_lowercase name) = true.
Proof. intros [->| ->]; [done|]. rewrite ends_with_app. apply orb_true_r. Qed.

Lemma named_last name parent : local_name name parent → last_char name ≠ Some "."%char.
Proof.
  intros Hn E. pose proof (last_char_lower name) as Hl. rewrite E in Hl.
  destruct Hn as [Hn|Hn]; rewrite Hn in Hl; [done|]. by rewrite last_char_app in Hl.
Qed.

(** The host is text that the Standard Library reads as this IPv4 address, or
    in brackets as the IPv6 address it is mapped to. *)
Definition names_v4 (host : string) (v : Ipv4Addr) : Prop :=
  let host := to_ascii_lowercase (trim_end_char "." host) in
  match parse_ip (default host (rest ← str_strip_prefix "[" host; strip_last "]" rest)) with
  | Some (IpV4 address) => address = v
  | Some (IpV6 segments) => segments = mapped_segments v
  | None => False
  end.

(** C29: the default host rule keeps the relay out of its own network.  An
    IPv4 host in dotted decimal, or as an IPv4-mapped IPv6 literal in the dotted
    ([[::ffff:a.b.c.d]]) or the hexadecimal ([[::ffff:x:y]]) spelling, with any
    trailing dots, is called exactly when the scheme is https and the address
    lies in none of the reserved blocks (unspecified, loopback, RFC 1918,
    link-local with the cloud metadata address, shared carrier space); no text
    at all that the Standard Library reads as a reserved address, or as the
    IPv6 address it is mapped to, is called; and neither is [localhost] or any
    name below it, in any case.  Texts it does not read as an address, such as
    [127.1], are names to this rule, which judges the host as the caller's URL
    type writes it. *)
Theorem only_public_hosts_are_called scheme n :
  (∀ v host, octets v → host ∈ spellings v →
     allows PublicHttpsOnly scheme (host +:+ dots n) =
       bool_decide (scheme = "https") && negb (reserved v)) ∧
  (∀ v host, octets v → names_v4 host v → reserved v = true →
     allows PublicHttpsOnly scheme (host +:+ dots n) = false) ∧
  (∀ name parent, local_name name parent →
     allows PublicHttpsOnly scheme (name +:+ dots n) = false).
Proof.
  split.
  - intros v host Hv Hh. destruct (spelled_private v host Hv Hh) as (Hc & Hl & Hne & Hp).
    unfold allows, is_private_host. rewrite trim_end_dots, trim_end_char_last by done.
    rewrite host_char_lower, host_char_no_name by done. rewrite Hp.
    rewrite bool_decide_eq_false_2; [done|]. by destruct host.
  - split.
    { intros v host Hv Hn Hr. unfold allows, is_private_host. rewrite trim_end_dots. unfold names_v4 in Hn.
      rewrite <-(is_private_v4_reserved v Hv) in Hr. cbv zeta in Hn |- *.
      set (text := to_ascii_lowercase _) in *. clearbody text.
      case_bool_decide; [done|]. apply andb_false_intro2, negb_false_iff.
      destruct (bool_decide (text = "localhost") || ends_with ".localhost" text); [done|].
      destruct (parse_ip _) as [[address|segments]|]; [by subst| |done]. subst. by rewrite is_private_v6_mapped. }
    intros name parent Hn. unfold allows, is_private_host. rewrite trim_end_dots.
    rewrite trim_end_char_last; [|by eapply named_last].
    rewrite (named_private _ _ Hn). case_bool_decide; [done|]. apply andb_false_r.
Qed.

Lemma only_public_hosts_are_called_witness :
  allows PublicHttpsOnly "https" "[::ffff:a9fe:a9fe]." = false ∧
  allows PublicHttpsOnly "https" "172.32.0.1" = true ∧
  allows PublicHttpsOnly "https" "[0:0:0:0:0:FFFF:7F00:0001]" = false ∧
  allows PublicHttpsOnly "https" "Node.LOCALHOST" = false.
Proof.
  split_and!.
  - refine (eq_trans (proj1 (only_public_hosts_are_called "https" 1)
      {| oct1 := 169; oct2 := 254; oct3 := 169; oct4 := 254 |} "[::ffff:a9fe:a9fe]" _ _) _).
    + unfold octets. cbn. lia.
    + vm_compute. repeat constructor.
    + reflexivity.
  - refine (eq_trans (proj1 (only_public_hosts_are_called "https" 0)
      {| oct1 := 172; oct2 := 32; oct3 := 0; oct4 := 1 |} "172.32.0.1" _ _) _).
    + unfold octets. cbn. lia.
    + vm_compute. repeat constructor.
    + reflexivity.
  - apply (proj1 (proj2 (only_public_hosts_are_called "https" 0))
      {| oct1 := 127; oct2 := 0; oct3 := 0; oct4 := 1 |} "[0:0:0:0:0:FFFF:7F00:0001]").
    + unfold octets. cbn. lia.
    + vm_compute. reflexivity.
    + vm_compute. reflexivity.
  - apply (proj2 (proj2 (only_public_hosts_are_called "https" 0)) "Node.LOCALHOST" "node"). by right.
Defined.

(** ** Metadata URLs *)

Lemma str_app_inj_l (p x y : string) : p +:+ x = p +:+ y → x = y.
Proof. induction p as [|a p IH]; rewrite ?str_app_nil, ?str_app_cons; [done|]. intros [= H]. auto. Qed.

(** Two chains never share a metadata URL. *)
Lemma metadata_url_inj d a b : 0 ≤ a → 0 ≤ b → metadata_url d a = metadata_url d b → a = b.
Proof.
  intros Ha Hb H. unfold metadata_url in H. apply str_app_inj_l, str_app_inj_l in H.
  by destruct (dec_prefix_inj a b "." "json" "json" eq_refl Ha Hb H).
Qed.
