(* ===== verification/Config.v ===== *)
(** * Config: the Worker's configuration
    ([vela-relay-cf/src/config.rs])

    Environment variables and secrets, parsed into the values the core is given
    as data, with the message of every refusal.  The URL parser is the [url]
    crate's: the class [UrlParser]. *)

From S2P Require Export Alert Directory Tempo Hold ExecutionPipeline.
#[local] Open Scope string_scope.
#[local] Open Scope list_scope.
#[local] Open Scope Z_scope.

Class UrlParser := {
  (** the scheme and the host of a URL, or the parser's message *)
  url_parse : string → result string (string * option string) }.

Record Env : Type := { env_var : string → option string; env_secret : string → option string }.

Record CfConfig : Type := {
  cc_settlement_recipient : option string;
  cc_relayer_count : Z;
  cc_executor_enabled : bool;
  execution_chains : list Z;
  cc_alchemy_api_key : option string;
  operator_secret : option string;
  cc_trusted_rpc_urls : gmap Z (list string);
  cc_rpc_host_policy : RpcHostPolicy;
  cc_rpc_timeout_ms : Z;
  lease_ttl_ms : Z;
  receipt_poll_ms : Z;
  attempt_ttl_ms : Z;
  telegram_bot_token : option string;
  telegram_chat_id : option string;
  telegram_cooldown_ms : Z;
  cc_max_bundle_operations : nat;
  cc_gas_buffer_bps : Z;
  cc_fixed_gas_buffer : Z;
  cc_settlement_markup_bps : Z;
  cc_settlement_inclusion_floor_bps : Z;
  cc_settlement_hold_max_attempts : Z;
  cc_relayer_float_cost_multiplier : Z;
  cc_relayer_float_target_wei : Z;
  cc_relayer_float_min_wei : Z;
  cc_top_up_max_wei : Z;
  cc_treasury_floor_wei : Z }.

Definition billing_terms (config : CfConfig) : BillingTerms :=
  {| bt_settlement_markup_bps := cc_settlement_markup_bps config;
     bt_gas_buffer_bps := cc_gas_buffer_bps config;
     bt_fixed_gas_buffer := cc_fixed_gas_buffer config |}.

(** [Display for VaultError] *)
Definition vault_error_text (error : VaultError) : string :=
  match error with
  | EmptySecret => "OPERATOR_SECRET is required"
  | InvalidHex => "OPERATOR_SECRET must be hexadecimal"
  | InvalidLength => "OPERATOR_SECRET must contain an even number of hexadecimal characters and be at least 32 bytes"
  | InvalidPoolIndex index =>
      "pool relayer index must be in [0, " +:+ dec (RELAYER_POOL_SIZE - 1) +:+ "], got " +:+ dec index
  | NoValidPrivateKey => "could not derive a valid secp256k1 private key"
  end.
Section Policy.
Context `{HA : Alloy} `{HK : Keccak} `{HC : Curve}.

Definition execution_policy (config : CfConfig) (chain_id lane : Z) : result string ExecutionPolicy :=
  secret ← ok_or (operator_secret config) "OPERATOR_SECRET is required for execution";
  treasury ← map_err (λ error, "invalid OPERATOR_SECRET: " +:+ vault_error_text error) (derive_address secret);
  treasury ← ok_or (address_from_str treasury) "derived treasury address is invalid";
  relayer ← map_err (λ error, "invalid OPERATOR_SECRET: " +:+ vault_error_text error)
              (derive_pool_relayer_address secret lane);
  relayer ← ok_or (address_from_str relayer) "derived relayer address is invalid";
  Ok {| pool_width := cc_relayer_count config; max_bundle_operations := cc_max_bundle_operations config;
        gas_buffer_bps := cc_gas_buffer_bps config; fixed_gas_buffer := cc_fixed_gas_buffer config;
        settlement_inclusion_floor_bps := cc_settlement_inclusion_floor_bps config;
        settlement_hold_max_attempts := cc_settlement_hold_max_attempts config;
        top_up_max_wei := cc_top_up_max_wei config; is_tempo := is_tempo_chain chain_id;
        treasury := treasury; relayer := relayer;
        relayer_float_cost_multiplier := cc_relayer_float_cost_multiplier config;
        relayer_float_target_wei := cc_relayer_float_target_wei config;
        relayer_float_min_wei := cc_relayer_float_min_wei config;
        treasury_floor_wei := cc_treasury_floor_wei config |}.
End Policy.

(** ** The parser *)

Definition invalid (name details : string) : string := "invalid " +:+ name +:+ ": " +:+ details.

(** [u64_var], [u32_var], [u128_var] and [usize_var] *)
Definition uint_var (w : Z) (env : Env) (name : string) (otherwise : Z) : result string Z :=
  match env_var env name with
  | None => Ok otherwise
  | Some value => map_err (λ e, invalid name (parse_int_error_text e)) (parse_uint w value)
  end.

Definition parse_bool (name value : string) : result string bool :=
  let value := to_ascii_lowercase value in
  if decide (value ∈ ["true"; "1"; "yes"; "on"]) then Ok true
  else if decide (value ∈ ["false"; "0"; "no"; "off"]) then Ok false
  else Err ("invalid " +:+ name +:+ "; expected true or false").

Definition bool_var (env : Env) (name : string) (otherwise : bool) : result string bool :=
  match env_var env name with None => Ok otherwise | Some value => parse_bool name value end.

Definition ALLOW_PRIVATE_RPC_SETTING : string := "VELA_RELAY_ALLOW_PRIVATE_RPC".
Definition rpc_host_policy (env : Env) : result string RpcHostPolicy :=
  allow_private ← bool_var env ALLOW_PRIVATE_RPC_SETTING false;
  Ok (host_policy_from_setting allow_private).

Definition chain_directory (env : Env) : result string ChainDirectory :=
  map_err (invalid "VELA_RELAY_CHAIN_DIRECTORY_URL")
    (directory_from_setting (env_var env "VELA_RELAY_CHAIN_DIRECTORY_URL")).

(** [.filter(|value| !value.trim().is_empty())] *)
Definition not_blank (value : option string) : option string :=
  value ← value; if String.eqb (trim value) "" then None else Some value.

(** [iter().map(f).collect::<Result<Vec<_>, _>>()] *)
Fixpoint collect {E A B} (f : A → result E B) (l : list A) : result E (list B) :=
  match l with
  | [] => Ok []
  | a :: l => b ← f a; bs ← collect f l; Ok (b :: bs)
  end.

Definition parse_execution_chains (value : option string) : result string (list Z) :=
  match value with
  | None => Ok []
  | Some value =>
      if String.eqb (trim value) "" then Ok []
      else collect (λ chain, map_err (λ e, invalid "VELA_RELAY_EXECUTION_CHAINS" (parse_int_error_text e))
                               (parse_uint 64 (trim chain))) (str_split "," value)
  end.

Section Urls.
Context `{SJ : SerdeJson} `{UP : UrlParser}.

Definition URLS_OR_ARRAYS : string := "VELA_RELAY_EXECUTOR_RPC_URLS values must be URLs or URL arrays".

Definition listed_urls (urls : Value) : result string (list string) :=
  match urls with
  | VString url => Ok [url]
  | VArray urls => collect (λ url, ok_or (as_str url) URLS_OR_ARRAYS) urls
  | _ => Err URLS_OR_ARRAYS
  end.

Definition check_trusted_url (chain_id : Z) (url : string) : result string () :=
  '(scheme, _) ← map_err (λ e, "invalid RPC URL for chain " +:+ dec chain_id
                               +:+ " in VELA_RELAY_EXECUTOR_RPC_URLS: " +:+ e) (url_parse url);
  if String.eqb scheme "http" || String.eqb scheme "https" then Ok ()
  else Err ("RPC URL for chain " +:+ dec chain_id +:+ " must use http or https").

Definition trusted_entry (chain_id : string) (urls : Value) : result string (Z * list string) :=
  chain_id ← map_err (λ e, "invalid chain ID in VELA_RELAY_EXECUTOR_RPC_URLS: " +:+ parse_int_error_text e)
               (parse_uint 64 chain_id);
  urls ← listed_urls urls;
  if decide (urls = []) then Err ("VELA_RELAY_EXECUTOR_RPC_URLS chain " +:+ dec chain_id +:+ " has no URL")
  else _ ← collect (check_trusted_url chain_id) urls; Ok (chain_id, urls).

Definition parse_trusted_rpc_urls (value : string) : result string (gmap Z (list string)) :=
  document ← map_err (invalid "VELA_RELAY_EXECUTOR_RPC_URLS") (json_from_slice (str_bytes value));
  values ← ok_or (de_btree (λ v, Some (de_value v)) document)
             (invalid "VELA_RELAY_EXECUTOR_RPC_URLS" (derive_error "BTreeMap<String, Value>" document));
  entries ← collect (λ entry, trusted_entry entry.1 entry.2) values;
  Ok (foldl (λ result entry, <[entry.1 := entry.2]> result) ∅ entries).
End Urls.

(** [.saturating_mul(1_000)] *)
Definition secs_var (env : Env) (name : string) (otherwise : Z) : result string Z :=
  secs ← uint_var 64 env name otherwise; Ok (saturating_mul 64 secs 1000).

Definition telegram_of (env : Env) : result string (option string * option string) :=
  let bot_token := not_blank (env_secret env "TELEGRAM_BOT_TOKEN") in
  let chat_id := not_blank (match env_var env "TELEGRAM_CHAT_ID" with
                            | Some id => Some id | None => env_secret env "TELEGRAM_CHAT_ID" end) in
  if bool_decide (is_Some bot_token ↔ is_Some chat_id) then Ok (bot_token, chat_id)
  else Err "TELEGRAM_BOT_TOKEN and TELEGRAM_CHAT_ID must be configured together".

Section FromEnv.
Context `{HX : Hex} `{HK : Keccak} `{HC : Curve} `{SJ : SerdeJson} `{UP : UrlParser} `{W : TargetWidth}.

Definition relayer_count_of (env : Env) : result string Z :=
  relayer_count ← uint_var usize_bits env "VELA_RELAY_RELAYER_COUNT" RELAYER_ROUTING_WIDTH;
  if decide (relayer_count = 0 ∨ RELAYER_POOL_SIZE < relayer_count)
  then Err ("VELA_RELAY_RELAYER_COUNT must be 1..=" +:+ dec RELAYER_POOL_SIZE)
  else Ok relayer_count.

Definition settlement_recipient_of (env : Env) (operator_secret : option string) :
    result string (option string) :=
  let configured := env_var env "VELA_RELAY_SETTLEMENT_RECIPIENT" in
  match operator_secret with
  | Some secret =>
      derived ← map_err (λ e, "invalid OPERATOR_SECRET: " +:+ vault_error_text e) (derive_address secret);
      match configured with
      | Some configured =>
          if eq_ignore_ascii_case configured derived then Ok (Some derived)
          else Err "VELA_RELAY_SETTLEMENT_RECIPIENT does not match the address derived from OPERATOR_SECRET"
      | None => Ok (Some derived)
      end
  | None => Ok configured
  end.

(** The values that are checked before the configuration is put together. *)
Definition markup_of (env : Env) : result string Z :=
  bps ← uint_var 64 env "VELA_RELAY_EXECUTOR_SETTLEMENT_MARKUP_BPS" DEFAULT_SETTLEMENT_MARKUP_BPS;
  if decide (bps < 10000) then Err "VELA_RELAY_EXECUTOR_SETTLEMENT_MARKUP_BPS cannot be below 10000"
  else Ok bps.
Definition inclusion_floor_of (env : Env) : result string Z :=
  bps ← uint_var 64 env "VELA_RELAY_EXECUTOR_SETTLEMENT_INCLUSION_FLOOR_BPS"
          DEFAULT_SETTLEMENT_INCLUSION_FLOOR_BPS;
  if decide (bps ≤ 10000) then Err "VELA_RELAY_EXECUTOR_SETTLEMENT_INCLUSION_FLOOR_BPS must be above 10000"
  else Ok bps.
Definition float_of (env : Env) : result string (Z * Z) :=
  min ← uint_var 128 env "VELA_RELAY_EXECUTOR_FLOAT_MIN_WEI" 500000000000000;
  target ← uint_var 128 env "VELA_RELAY_EXECUTOR_FLOAT_TARGET_WEI" 2000000000000000;
  if decide (target < min)
  then Err "VELA_RELAY_EXECUTOR_FLOAT_TARGET_WEI cannot be below VELA_RELAY_EXECUTOR_FLOAT_MIN_WEI"
  else Ok (min, target).

Definition config_from_env (env : Env) : result string CfConfig :=
  relayer_count ← relayer_count_of env;
  executor_enabled ← bool_var env "VELA_RELAY_EXECUTOR_ENABLED" true;
  _ ← chain_directory env;
  let operator_secret := env_secret env "OPERATOR_SECRET" in
  if executor_enabled && bool_decide (operator_secret = None)
  then Err "OPERATOR_SECRET is required when the UserOperation consumer is enabled"
  else
    settlement_recipient ← settlement_recipient_of env operator_secret;
    execution_chains ← parse_execution_chains (env_var env "VELA_RELAY_EXECUTION_CHAINS");
    '(bot_token, chat_id) ← telegram_of env;
    settlement_markup_bps ← markup_of env;
    settlement_inclusion_floor_bps ← inclusion_floor_of env;
    '(float_min, float_target) ← float_of env;
    trusted_rpc_urls ← match env_var env "VELA_RELAY_EXECUTOR_RPC_URLS" with
                       | Some value => parse_trusted_rpc_urls value
                       | None => Ok ∅
                       end;
    rpc_host_policy ← rpc_host_policy env;
    rpc_timeout_ms ← secs_var env "VELA_RELAY_EXECUTOR_RPC_TIMEOUT_SECS" 5;
    lease_ttl ← secs_var env "VELA_RELAY_EXECUTOR_LEASE_TTL_SECS" 30;
    receipt_poll ← secs_var env "VELA_RELAY_EXECUTOR_RECEIPT_POLL_SECS" 3;
    attempt_ttl ← secs_var env "VELA_RELAY_EXECUTOR_ATTEMPT_TTL_SECS" (48 * 60 * 60);
    telegram_cooldown ← secs_var env "VELA_RELAY_TELEGRAM_ALERT_COOLDOWN_SECS" (30 * 60);
    max_bundle_operations ← uint_var usize_bits env "VELA_RELAY_MAX_BUNDLE_OPERATIONS" 10;
    gas_buffer_bps ← uint_var 64 env "VELA_RELAY_EXECUTOR_GAS_BUFFER_BPS" DEFAULT_GAS_BUFFER_BPS;
    fixed_gas_buffer ← uint_var 64 env "VELA_RELAY_EXECUTOR_FIXED_GAS_BUFFER" DEFAULT_FIXED_GAS_BUFFER;
    hold_max_attempts ← uint_var 32 env "VELA_RELAY_EXECUTOR_SETTLEMENT_HOLD_MAX_ATTEMPTS" 12;
    float_cost_multiplier ← uint_var 64 env "VELA_RELAY_EXECUTOR_FLOAT_COST_MULTIPLIER" 5;
    top_up_max ← uint_var 128 env "VELA_RELAY_EXECUTOR_TOP_UP_MAX_WEI" 10000000000000000000;
    treasury_floor ← uint_var 128 env "VELA_RELAY_EXECUTOR_TREASURY_FLOOR_WEI" 100000000000000;
    Ok {| cc_settlement_recipient := settlement_recipient; cc_relayer_count := relayer_count;
          cc_executor_enabled := executor_enabled; execution_chains := execution_chains;
          cc_alchemy_api_key := not_blank (env_secret env "ALCHEMY_API_KEY");
          operator_secret := operator_secret; cc_trusted_rpc_urls := trusted_rpc_urls;
          cc_rpc_host_policy := rpc_host_policy; cc_rpc_timeout_ms := rpc_timeout_ms;
          lease_ttl_ms := lease_ttl; receipt_poll_ms := receipt_poll; attempt_ttl_ms := attempt_ttl;
          telegram_bot_token := bot_token; telegram_chat_id := chat_id;
          telegram_cooldown_ms := telegram_cooldown;
          cc_max_bundle_operations := Z.to_nat max_bundle_operations;
          cc_gas_buffer_bps := gas_buffer_bps; cc_fixed_gas_buffer := fixed_gas_buffer;
          cc_settlement_markup_bps := settlement_markup_bps;
          cc_settlement_inclusion_floor_bps := settlement_inclusion_floor_bps;
          cc_settlement_hold_max_attempts := hold_max_attempts;
          cc_relayer_float_cost_multiplier := float_cost_multiplier;
          cc_relayer_float_target_wei := float_target; cc_relayer_float_min_wei := float_min;
          cc_top_up_max_wei := top_up_max; cc_treasury_floor_wei := treasury_floor |}.
End FromEnv.
