(* ===== verification/LaneDo.v ===== *)
(** * LaneDo: the durable object of one lane
    ([vela-relay-cf/src/lane_do.rs])

    The object keeps the lane's prepared bundle, the broadcasts it has seen,
    the member lists of its submitted bundles and the inbox of delayed
    operations, and calls the record objects, the chain's treasury object, the
    trusted endpoints and the market.  Each of those is an effect with its
    answer; a storage read answers [None] when it fails ([.ok().flatten()]) and
    a storage write or delete answers whether it succeeded.  Console lines have
    no answer and are left out. *)

From S2P Require Export Config Io Trusted Alert Tempo ExecutionPipeline.
From S2P Require RecordDo TreasuryDo.
#[local] Open Scope string_scope.
#[local] Open Scope list_scope.
#[local] Open Scope Z_scope.

Definition BROADCAST_RETRY_INTERVAL_MS : Z := 30000.
Definition BINANCE_PRICE_TTL_MS : Z := 60000.
Definition ERC20_DECIMALS_SELECTOR : list byte := [x31; x3c; xe5; x67].
Definition DELAYED_REDRIVE_BATCH : nat := 100.
Definition QUEUE_RETENTION_MS : Z := 14 * 24 * 60 * 60 * 1000.

(** [Display for TransactionSignError] *)
Definition TRANSACTION_SIGN_ERROR : string := "could not sign EIP-1559 transaction".

Section Lane.
Context `{HA : Alloy} `{HK : Keccak} `{HC : Curve}.

(** [relayer_address_for_lane] *)
Definition relayer_address_for_lane (config : CfConfig) (lane : Z) : option Z :=
  secret ← operator_secret config;
  address ← ok (derive_pool_relayer_address secret lane);
  address_from_str address.
End Lane.

(** ** Storage and effects *)

Record DelayedEntry : Type := {
  routed : RoutedUserOperation; attempts : Z; due_ms : Z; created_ms : Z; updated_ms : Z }.

Inductive LaneCall : Type → Type :=
  | Millis : LaneCall Z
  | NextToken : LaneCall Z
  (* the object's storage *)
  | GetIntent : LaneCall (option PreparedBundleIntent)
  | PutIntent (intent : PreparedBundleIntent) : LaneCall bool
  | DeleteIntent : LaneCall bool
  | GetSeen (hash : string) : LaneCall (option Z)
  | PutSeen (hash : string) (at_ms : Z) : LaneCall bool
  | DeleteSeen (hash : string) : LaneCall bool
  | GetMembers (hash : string) : LaneCall (option (list string))
  | PutMembers (hash : string) (members : list string) : LaneCall bool
  | DeleteMembers (hash : string) : LaneCall bool
  | GetDelayed (hash : string) : LaneCall (option DelayedEntry)
  | PutDelayed (hash : string) (entry : DelayedEntry) : LaneCall bool
  | DeleteDelayed (hash : string) : LaneCall bool
  | GetDelayedIndex : LaneCall (option (list string))
  | PutDelayedIndex (hashes : list string) : LaneCall bool
  | GetReconcileDue : LaneCall (option Z)
  | PutReconcileDue (due : Z) : LaneCall bool
  | DeleteReconcileDue : LaneCall bool
  | SetAlarm (delay_ms : Z) : LaneCall bool
  (* other objects *)
  | RecordCall (chain_id : Z) (hash : string) (command : RecordDo.RecordCommand) :
      LaneCall (result () RecordDo.RecordReply)
  | TreasuryCall (chain_id : Z) (request : TreasuryDo.TreasuryRequest) :
      LaneCall (result () TreasuryDo.TreasuryReply)
  (* the trusted endpoints *)
  | SupportsChain (chain_id : Z) : LaneCall bool
  | RpcCall (chain_id : Z) (method : string) (params : Value) : LaneCall (result RpcError Value)
  | RpcCallWalk (chain_id : Z) (method : string) (params : Value) :
      LaneCall (result RpcError Value * list MethodAnswer)
  | RpcSimulate (chain_id : Z) (method : string) (params : Value) : LaneCall (result RpcError Value)
  | RpcBatch (chain_id : Z) (calls : list RpcBatchCall) :
      LaneCall (result RpcError (list (result RpcError Value)))
  | RpcBatchWalk (chain_id : Z) (calls : list RpcBatchCall) :
      LaneCall (result RpcError (list (result RpcError Value)) * list MethodAnswer)
  | RpcBroadcast (chain_id : Z) (raw : list byte) : LaneCall (result RpcError BroadcastOutcome)
  | RpcLacksMethod (chain_id : Z) (method : string) : LaneCall bool
  | RpcNoteWalk (chain_id : Z) (method : string) (answers : list MethodAnswer) : LaneCall ()
  (* the platform *)
  | PaymentMetadata (chain_id : Z) : LaneCall (option ChainMetadata)
  | CachedPrice (symbol : string) : LaneCall (option (Z * Z))
  | CachePrice (symbol : string) (expires_at price : Z) : LaneCall ()
  | BinanceUsdtPrice (symbol : string) : LaneCall (option string)
  | DeadLetter (payload : Value) : LaneCall bool
  | SendMessage (bot_token chat_id text : string) : LaneCall bool
  | Delay (ms : Z) : LaneCall ().

Abbreviation lane := (io LaneCall).

Inductive BundleBroadcastDisposition : Type := BroadcastConfirmed | BroadcastUnknown.
Inductive BundleResumeDisposition : Type := ResumeCleared | ResumeConfirmed | ResumeUnknown.

(** ** Storage helpers *)

Definition clear_intent_if_matches (transaction_hash : string) : lane (result () bool) :=
  stored ← perform GetIntent;
  match stored with
  | Some intent =>
      if eq_ignore_ascii_case (bi_transaction_hash intent) transaction_hash
      then deleted ← perform DeleteIntent; mret (if deleted : bool then Ok true else Err tt)
      else mret (Ok false)
  | None => mret (Ok false)
  end.

Definition remember_broadcast (transaction_hash : string) : lane () :=
  now ← perform Millis; _ ← perform (PutSeen transaction_hash now); mret tt.

Definition forget_broadcast (transaction_hash : string) : lane () :=
  _ ← perform (DeleteSeen transaction_hash); mret tt.

Definition broadcast_seen (transaction_hash : string) : lane bool :=
  seen_at ← perform (GetSeen transaction_hash);
  match seen_at with
  | Some seen_at =>
      now ← perform Millis;
      mret (bool_decide (saturating_sub now seen_at < BROADCAST_RETRY_INTERVAL_MS))
  | None => mret false
  end.

Definition delayed_index : lane (list string) :=
  hashes ← perform GetDelayedIndex; mret (default [] hashes).

Definition remove_delayed_entry (hash : string) : lane () :=
  _ ← perform (DeleteDelayed hash);
  hashes ← delayed_index;
  _ ← perform (PutDelayedIndex (List.filter (λ entry, negb (String.eqb entry hash)) hashes));
  mret tt.

Definition earliest_due (due : option Z) (other : Z) : option Z :=
  Some (match due with Some due => Z.min due other | None => other end).

(** The alarm: the earliest of the delayed entries' dues and, while an intent
    is stored, of the reconcile deadline. *)
Definition schedule_lane_alarm : lane (result () ()) :=
  hashes ← delayed_index;
  io_for (λ hash earliest,
    entry ← perform (GetDelayed hash);
    mret (inl match entry with Some entry => earliest_due earliest (due_ms entry) | None => earliest end))
    hashes None (λ earliest,
  stored ← perform GetIntent;
  earliest ←
    match stored with
    | Some _ =>
        due ← perform GetReconcileDue;
        mret match due with Some due => earliest_due earliest due | None => earliest end
    | None => mret earliest
    end;
  match earliest with
  | Some due_ms =>
      now ← perform Millis;
      set ← perform (SetAlarm (Z.max (saturating_sub due_ms now) 1));
      mret (if set : bool then Ok tt else Err tt)
  | None => mret (Ok tt)
  end).

Definition arm_reconcile (within_ms : Z) : lane () :=
  now ← perform Millis;
  let due := wrapping 64 (now + within_ms) in
  stored ← perform GetReconcileDue;
  let due := match stored with
             | Some existing => if decide (existing ≤ due) then existing else due
             | None => due
             end in
  _ ← perform (PutReconcileDue due);
  _ ← schedule_lane_alarm;
  mret tt.

(** ** The chain's view of a transaction *)

Definition transaction_is_known (chain_id : Z) (expected_hash : string) : lane bool :=
  answer ← perform (RpcCall chain_id "eth_getTransactionByHash" (VArray [VString expected_hash]));
  mret match answer with Ok answer => holds_transaction answer expected_hash | Err _ => false end.

Section Recovery.
Context `{HA : Alloy} `{HT : !HashText} `{HK : Keccak} `{HC : Curve}.
Variable config : CfConfig.

Definition latest_nonce (answer : result RpcError Value) : option Z :=
  v ← ok answer; s ← as_str v; nonce ← trusted_parse_quantity s; checked 64 nonce.

Definition bundle_nonce_is_stale (intent : PreparedBundleIntent) : lane bool :=
  match relayer_address_for_lane config (bi_lane intent) with
  | None => mret false
  | Some relayer =>
      answer ← perform (RpcCall (bi_chain_id intent) "eth_getTransactionCount"
                          (VArray [VString (address_to_string relayer); VString "latest"]));
      mret match latest_nonce answer with
           | Some latest => bool_decide (bi_nonce intent < latest)
           | None => false
           end
  end.

Definition clear_stale_bundle_intent (intent : PreparedBundleIntent) : lane (result string ()) :=
  cleared ← clear_intent_if_matches (bi_transaction_hash intent);
  match cleared with
  | Err _ => mret (Err "could not clear stale prepared bundle intent")
  | Ok false => mret (Ok tt)
  | Ok true => _ ← forget_broadcast (bi_transaction_hash intent); mret (Ok tt)
  end.

(** ** Recovery of a prepared intent *)

(** What an unproven broadcast leads to: the transaction is known after all,
    or its nonce is spent and the intent is dropped, or the outbox is kept. *)
Definition unproven_intent (intent : PreparedBundleIntent) (reason : string) :
    lane (result string BundleBroadcastDisposition) :=
  _ ← forget_broadcast (bi_transaction_hash intent);
  known ← transaction_is_known (bi_chain_id intent) (bi_transaction_hash intent);
  if known : bool
  then _ ← remember_broadcast (bi_transaction_hash intent); mret (Ok BroadcastConfirmed)
  else if nonce_too_low reason then
    stale ← bundle_nonce_is_stale intent;
    if stale : bool
    then _ ←? clear_stale_bundle_intent intent; mret (Ok BroadcastUnknown)
    else mret (Ok BroadcastUnknown)
  else mret (Ok BroadcastUnknown).

Definition broadcast_bundle_intent (intent : PreparedBundleIntent) :
    lane (result string BundleBroadcastDisposition) :=
  match validate_raw_transaction (bi_raw_transaction intent) (bi_transaction_hash intent) with
  | Err error => mret (Err (raw_transaction_error_text error))
  | Ok raw =>
      seen ← broadcast_seen (bi_transaction_hash intent);
      if seen : bool then mret (Ok BroadcastConfirmed)
      else
        outcome ← perform (RpcBroadcast (bi_chain_id intent) raw);
        match outcome with
        | Err error => _ ← forget_broadcast (bi_transaction_hash intent); mret (Err (rpc_error_text error))
        | Ok (BroadcastAccepted hash) =>
            if eq_ignore_ascii_case hash (bi_transaction_hash intent)
            then _ ← remember_broadcast (bi_transaction_hash intent); mret (Ok BroadcastConfirmed)
            else _ ← forget_broadcast (bi_transaction_hash intent);
                 mret (Err "RPC returned a transaction hash different from the signed bytes")
        | Ok (BroadcastAmbiguous reason) | Ok (BroadcastRejected reason) => unproven_intent intent reason
        end
  end.

(** The records of the hashes, in order; an unread one ends the loop. *)
Definition load_records (chain_id : Z) (hashes : list string) (message : string) :
    lane (result string (list (option StoredUserOperation))) :=
  io_each (λ hash records,
    reply ← perform (RecordCall chain_id hash RecordDo.Get);
    mret match reply with
         | Ok (RecordDo.RecordRead record) => Ok (records ++ [record])
         | _ => Err message
         end) hashes [].

Definition audit_bundle_intent (intent : PreparedBundleIntent) : lane (result string BundleReplayAudit) :=
  records ←? load_records (bi_chain_id intent) (bi_user_operation_hashes intent)
              "could not read UserOperation records";
  mret (audit_bundle_replay intent records).

Definition clear_obsolete_bundle_intent (intent : PreparedBundleIntent) (audit : BundleReplayAudit) :
    lane (result string ()) :=
  if decide (terminal audit = 0%nat) then mret (Err "refusing to clear an unproven prepared bundle")
  else
    cleared ← clear_intent_if_matches (bi_transaction_hash intent);
    match cleared with
    | Err _ => mret (Err "could not clear prepared bundle intent")
    | Ok _ => _ ← forget_broadcast (bi_transaction_hash intent); mret (Ok tt)
    end.

(** The members' guarded transitions, then the bundle's index. *)
Definition submit_bundle_members (chain_id : Z) (intent : PreparedBundleIntent) : lane (result string nat) :=
  members ←? io_each (λ hash members,
    reply ← perform (RecordCall chain_id hash
              (RecordDo.MarkBundleMemberSubmitted (bi_chain_id intent) (bi_transaction_hash intent)));
    mret match reply with
         | Ok (RecordDo.Indexed true) => Ok (members ++ [hash])
         | Ok _ => Ok members
         | Err _ => Err "could not mark bundle members submitted"
         end) (bi_user_operation_hashes intent) [];
  _ ← perform (PutMembers (bi_transaction_hash intent) members);
  mret (Ok (length members)).

Definition resume_bundle_intent (intent : PreparedBundleIntent) : lane (result string BundleResumeDisposition) :=
  audit ←? audit_bundle_intent intent;
  if decide (active audit = 0%nat ∧ terminal audit ≠ 0%nat)
  then _ ←? clear_obsolete_bundle_intent intent audit; mret (Ok ResumeCleared)
  else
    broadcast ←? broadcast_bundle_intent intent;
    match broadcast with
    | BroadcastUnknown => mret (Ok ResumeUnknown)
    | BroadcastConfirmed =>
        if decide (active audit = 0%nat) then mret (Ok ResumeConfirmed)
        else
          indexed ←? submit_bundle_members (bi_chain_id intent) intent;
          if decide (indexed = active audit) then mret (Ok ResumeConfirmed)
          else
            after ←? audit_bundle_intent intent;
            if decide (active after = 0%nat) then
              if decide (terminal after ≠ 0%nat)
              then _ ←? clear_obsolete_bundle_intent intent after; mret (Ok ResumeCleared)
              else mret (Ok ResumeConfirmed)
            else if decide (awaiting_submission after ≠ 0%nat)
            then mret (Err "prepared bundle has live members that could not enter submitted state")
            else mret (Ok ResumeConfirmed)
    end.

(** ** Receipts *)

Definition or_null (v : option Value) : Value := default VNull v.

Definition receipt_patch (status transaction_hash : string) (receipt : Value)
    (event : option UserOperationEvent) : Value :=
  VObject ([("status", VString status); ("transactionHash", VString transaction_hash);
            ("admitted", VBool true); ("receipt", receipt);
            ("blockHash", or_null (get "blockHash" receipt));
            ("blockNumber", or_null (get "blockNumber" receipt))] ++
           match event with Some event => [("event", ser_event event)] | None => [] end).

Lemma receipt_patch_admits status transaction_hash receipt event :
  RecordDo.admits (receipt_patch status transaction_hash receipt event) = true.
Proof. by destruct event. Qed.

(** The status a successful bundle's receipt gives a member. *)
Definition member_event (events : list UserOperationEvent) (hash : string) : option UserOperationEvent :=
  List.find (λ event, String.eqb (ev_user_operation_hash event) hash) events.
Definition member_status (event : option UserOperationEvent) : string :=
  match event with
  | Some event => if ev_success event then "included" else "rejected"
  | None => "rejected"
  end.

(** The patches of the members, in order; a failed one ends the loop. *)
Definition patch_members (chain_id : Z) (patch : string → Value) (members : list string) : lane (result () ()) :=
  io_each (λ hash _,
    reply ← perform (RecordCall chain_id hash (RecordDo.Patch (patch hash)));
    mret (_ ← reply; Ok tt)) members tt.

Definition check_bundle_receipt (intent : PreparedBundleIntent) : lane () :=
  let hash := bi_transaction_hash intent in
  answer ← perform (RpcCall (bi_chain_id intent) "eth_getTransactionReceipt" (VArray [VString hash]));
  match answer with
  | Err _ | Ok VNull => mret tt
  | Ok receipt =>
      members ← perform (GetMembers hash);
      let members := default [] members in
      patched ←
        match receipt_succeeded receipt with
        | None => mret (Err tt)
        | Some false =>
            patch_members (bi_chain_id intent) (λ _, receipt_patch "failed" hash receipt None) members
        | Some true =>
            match address_from_str (bi_entry_point intent) with
            | None => mret (Err tt)
            | Some entry_point =>
                let events := user_operation_events receipt entry_point members in
                patch_members (bi_chain_id intent) (λ member,
                  let event := member_event events member in
                  receipt_patch (member_status event) hash receipt event) members
            end
        end;
      match patched with
      | Err _ => mret tt
      | Ok _ =>
          _ ← clear_intent_if_matches hash;
          _ ← forget_broadcast hash;
          _ ← perform (DeleteMembers hash);
          mret tt
      end
  end.
End Recovery.

(** ** The delayed inbox *)

Definition set_attempts (entry : option DelayedEntry) : Z :=
  wrapping 32 (match entry with Some entry => attempts entry | None => 0 end + 1).

Definition park (operation : RoutedUserOperation) (attempt now : Z) : DelayedEntry :=
  {| routed := operation; attempts := attempt; due_ms := wrapping 64 (now + retry_delay_ms attempt);
     created_ms := now; updated_ms := now |}.

Definition DEFER_FAILED : ExecutionOutcome := OutFailed "could not persist deferred UserOperation".

Definition defer_operation (batch : list RoutedUserOperation) (index : nat) : lane ExecutionOutcome :=
  match batch !! index with
  | None => mret DEFER_FAILED
  | Some operation =>
      let hash := r_user_operation_hash operation in
      existing ← perform (GetDelayed hash);
      let attempt := set_attempts existing in
      now ← perform Millis;
      put ← perform (PutDelayed hash (park operation attempt now));
      if put : bool then
        hashes ← delayed_index;
        _ ← (if existsb (String.eqb hash) hashes then mret true
             else perform (PutDelayedIndex (hashes ++ [hash])));
        _ ← schedule_lane_alarm;
        mret (Deferred attempt)
      else mret DEFER_FAILED
  end.

Definition dead_letter (batch : list RoutedUserOperation) (index : nat) (reason : string) :
    lane ExecutionOutcome :=
  let failed := OutFailed "could not dead-letter queue message" in
  match batch !! index with
  | None => mret failed
  | Some operation =>
      sent ← perform (DeadLetter (VObject [
        ("reason", VString reason); ("chainId", VNumber (r_chain_id operation));
        ("userOperationHash", VString (r_user_operation_hash operation));
        ("envelope", r_user_operation operation)]));
      mret (if sent : bool then Persisted true else failed)
  end.

(** The entry a failed re-drive leaves behind. *)
Definition retry_entry (entry : DelayedEntry) (now1 now2 : Z) : DelayedEntry :=
  let attempt := wrapping 32 (attempts entry + 1) in
  {| routed := routed entry; attempts := attempt;
     due_ms := wrapping 64 (now1 + retry_delay_ms attempt);
     created_ms := created_ms entry; updated_ms := now2 |}.

(** The entries that are due; those gone or past their retention leave the
    index. *)
Definition collect_due (now retention_ms : Z) : lane (list (string * DelayedEntry)) :=
  hashes ← delayed_index;
  io_for (λ hash due,
    entry ← perform (GetDelayed hash);
    match entry with
    | None => _ ← remove_delayed_entry hash; mret (inl due)
    | Some entry =>
        let touched := Z.max (updated_ms entry) (created_ms entry) in
        if decide (retention_ms < saturating_sub now touched)
        then _ ← remove_delayed_entry hash; mret (inl due)
        else mret (inl (if bool_decide (due_ms entry ≤ now) && bool_decide (length due < DELAYED_REDRIVE_BATCH)%nat
                        then due ++ [(hash, entry)] else due))
    end) hashes [] (λ due, mret due).

(** One re-driven entry and its resolution: the entry goes when the outcome is
    durable and nothing re-parked it, and climbs the ladder when it failed. *)
Definition settle_redriven (hash : string) (snapshot : DelayedEntry) (resolution : ItemResolution) : lane () :=
  entry ← perform (GetDelayed hash);
  match entry with
  | None => mret tt
  | Some entry =>
      if negb (bool_decide (attempts entry = attempts snapshot)) ||
         negb (bool_decide (due_ms entry = due_ms snapshot)) then mret tt
      else
        match resolution with
        | Durable => remove_delayed_entry hash
        | ItemFailed _ =>
            now1 ← perform Millis;
            now2 ← perform Millis;
            _ ← perform (PutDelayed hash (retry_entry entry now1 now2));
            mret tt
        end
  end.

Section Inbox.
Variable env_config : result string CfConfig.
Variable execute_batch : list RoutedUserOperation → lane (option (list ItemResolution)).

(** [None] where the batch panics. *)
Definition redrive_due_delayed (now : Z) : lane (option ()) :=
  let retention_ms := Z.max (match env_config with Ok config => attempt_ttl_ms config | Err _ => 0 end)
                            QUEUE_RETENTION_MS in
  due ← collect_due now retention_ms;
  if decide (due = []) then mret (Some tt)
  else
    resolutions ← execute_batch (map (λ x, routed x.2) due);
    match resolutions with
    | None => mret None
    | Some resolutions =>
        io_for (λ '(hash, entry, resolution) (_ : ()),
          _ ← settle_redriven hash entry resolution; mret (inl tt))
          (zip due resolutions) tt (λ _, mret (Some tt))
    end.
End Inbox.
