(* ===== verification/LaneSimulate.v ===== *)
(** * LaneSimulate: the order in which a lane's operations are simulated
    ([vela-relay-cf/src/arms/simulate.rs])

    [eth_simulateV1], the deployed simulation contracts through [eth_call], and
    [debug_traceCall]; a chain that lacks the first is asked for it last, and
    only for what the other two left open.  Every reading of an answer is the
    core's ([Simulation]). *)

From S2P Require Export LaneDo.
#[local] Open Scope string_scope.
#[local] Open Scope list_scope.
#[local] Open Scope Z_scope.

Abbreviation Verdict := (SimulationVerdict SimulationResult).

Inductive PimlicoContractAvailability : Type :=
  | Ready (contracts : PimlicoSimulationContracts)
  | Missing
  | PimlicoUnavailable.

Definition is_transient (verdict : Verdict) : bool :=
  match verdict with VTransient _ => true | _ => false end.

Definition transient_indexes (verdicts : list Verdict) : list nat :=
  List.filter (λ i, match verdicts !! i with Some v => is_transient v | None => false end)
    (seq 0 (length verdicts)).

(** A simulation that proves execution and nothing else: no logs, no gas. *)
Definition bare_success (gas_used : Z) (hashes : list (list byte)) : Verdict :=
  VSuccess {| sr_gas_used := gas_used;
              sr_events := map (λ hash, {| su_user_operation_hash := hash; su_success := true;
                                           su_actual_gas_used := 0 |}) hashes;
              sr_logs := []; sr_full_execution := false |}.

Definition METHOD_UNAVAILABLE : Verdict := VTransient "individual simulation method unavailable".
Definition RPC_UNAVAILABLE : Verdict := VTransient "individual simulation RPC unavailable".
Definition NO_METHOD : Verdict :=
  VTransient "no trusted executor RPC supports eth_simulateV1, deployed Pimlico eth_call, or debug_traceCall".

Section Simulate.
Context `{HA : Alloy} `{HT : !HashText} `{HK : Keccak} `{HS : SolCalls}.
Variables (chain_id entry_point relayer beneficiary : Z).

(** *** The [eth_simulateV1] tier *)

Definition individual_calldata (operation : PackedOperation) : list byte :=
  handle_ops_calldata [packed operation] beneficiary.

Definition v1_verdict (response : result RpcError Value) (hash : list byte) : Verdict :=
  match response with
  | Ok value => parse_simulation value entry_point [hash]
  | Err (Reverted _ _) => METHOD_UNAVAILABLE
  | Err _ => RPC_UNAVAILABLE
  end.

Definition simulate_v1_individually (operations : list (list byte * PackedOperation)) : lane (list Verdict) :=
  let calls := map (λ x, {| bc_method := SIMULATE_V1;
                            bc_params := simulate_params relayer entry_point (individual_calldata x.2) |})
                 operations in
  '(responses, answers) ← perform (RpcBatchWalk chain_id calls);
  _ ← perform (RpcNoteWalk chain_id SIMULATE_V1 answers);
  mret match responses with
       | Ok responses => map (λ '(response, x), v1_verdict response x.1) (zip responses operations)
       | Err _ => map (λ _, RPC_UNAVAILABLE) operations
       end.

(** *** The deployed simulation contracts *)

Definition get_code (address : Z) : RpcBatchCall :=
  {| bc_method := "eth_getCode"; bc_params := VArray [VString (address_to_string address); VString "latest"] |}.

Definition pimlico_contracts : lane PimlicoContractAvailability :=
  let contracts := pimlico_contracts_for_treasury beneficiary in
  responses ← perform (RpcBatch chain_id [get_code (pimlico contracts); get_code (entry_point_v07 contracts)]);
  mret match responses with
       | Err _ => PimlicoUnavailable
       | Ok responses =>
           match mapM (λ response : result RpcError Value, v ← ok response; as_str v) responses with
           | None => PimlicoUnavailable
           | Some codes =>
               if forallb (λ code, negb (String.eqb code "0x")) codes then Ready contracts else Missing
           end
       end.

Definition ready_contracts (availability : PimlicoContractAvailability) : option PimlicoSimulationContracts :=
  match availability with Ready contracts => Some contracts | _ => None end.

Definition pimlico_verdict (answer : result RpcError Value) (hash : list byte) : Verdict :=
  match answer with
  | Ok _ => bare_success 0 [hash]
  | Err (Reverted message data) =>
      if revert_reports_nonce_mismatch message data then VNonceMismatch
      else VRejected "Pimlico eth_call simulation reverted during EntryPoint validation or execution"
  | Err _ => VTransient "Pimlico eth_call simulation is unavailable on trusted executor RPCs"
  end.

Definition simulate_with_pimlico (operation : PackedOperation) (hash : list byte)
    (contracts : option PimlicoSimulationContracts) : lane Verdict :=
  match contracts with
  | None =>
      mret (VTransient "no trusted executor RPC supports eth_simulateV1, debug_traceCall, or deployed Pimlico simulations")
  | Some contracts =>
      let data := encode_simulate_handle_op (entry_point_v07 contracts) entry_point (packed operation) in
      answer ← perform (RpcSimulate chain_id "eth_call" (VArray [
        VObject [("to", VString (address_to_string (pimlico contracts)));
                 ("data", VString ("0x" +:+ hex_encode data))]; VString "latest"]));
      mret (pimlico_verdict answer hash)
  end.

(** *** Individually *)

Definition trace_verdict (response : option (result RpcError Value)) (hash : list byte) : Verdict :=
  match response with
  | Some (Ok value) => parse_trace_simulation value entry_point [hash]
  | _ => NO_METHOD
  end.

(** The candidates the trace tier is left with, and the verdicts so far. *)
Definition pimlico_tier (operations : list (list byte * PackedOperation))
    (contracts : option PimlicoSimulationContracts) (indexes : list nat) (verdicts : list Verdict) :
    lane (list nat * list Verdict) :=
  io_for (λ (index : nat) '(open, verdicts),
    match operations !! index with
    | None => mret (inl (open, verdicts))
    | Some (hash, operation) =>
        verdict ← simulate_with_pimlico operation hash contracts;
        mret (inl (if is_transient verdict then (open ++ [index], verdicts)
                   else (open, <[index := verdict]> verdicts)))
    end) indexes ([], verdicts) (λ s, mret s).

Definition trace_tier (operations : list (list byte * PackedOperation)) (indexes : list nat)
    (verdicts : list Verdict) : lane (list Verdict) :=
  let traced := omap (λ index : nat, x ← operations !! index; Some (index, x)) indexes in
  responses ← perform (RpcBatch chain_id (map (λ '(_, (_, operation)),
    {| bc_method := "debug_traceCall";
       bc_params := debug_trace_params relayer entry_point (individual_calldata operation) |}) traced));
  let responses := match responses with Ok responses => responses | Err _ => [] end in
  mret (foldl (λ verdicts '(position, (index, (hash, _))),
          <[index := trace_verdict (responses !! position) hash]> verdicts)
        verdicts (zip (seq 0 (length traced)) traced)).

Definition simulate_individually_without_v1 (operations : list (list byte * PackedOperation))
    (verdicts : list Verdict) : lane (list Verdict) :=
  let fallback := transient_indexes verdicts in
  if decide (fallback = []) then mret verdicts
  else
    availability ← pimlico_contracts;
    '(open, verdicts) ← pimlico_tier operations (ready_contracts availability) fallback verdicts;
    if decide (open = []) then mret verdicts else trace_tier operations open verdicts.

(** The last turn's verdicts, where they decide. *)
Definition take_decided (verdicts : list Verdict) (last : list (nat * Verdict)) : list Verdict :=
  foldl (λ verdicts '(index, verdict),
    if is_transient verdict then verdicts else <[index := verdict]> verdicts) verdicts last.

Definition simulate_individually (operations : list (list byte * PackedOperation)) : lane (list Verdict) :=
  lacking ← perform (RpcLacksMethod chain_id SIMULATE_V1);
  let turn := simulate_v1_turn chain_id lacking in
  verdicts ← match turn with
             | First => simulate_v1_individually operations
             | Last => mret (map (λ _, METHOD_UNAVAILABLE) operations)
             end;
  verdicts ← simulate_individually_without_v1 operations verdicts;
  match turn with
  | First => mret verdicts
  | Last =>
      let undecided := transient_indexes verdicts in
      if decide (undecided = []) then mret verdicts
      else
        last ← simulate_v1_individually (omap (λ index : nat, operations !! index) undecided);
        mret (take_decided verdicts (zip undecided last))
  end.

(** *** As a bundle *)

Definition simulate_v1_bundle (calldata : list byte) (hashes : list (list byte)) : lane (option Verdict) :=
  '(response, answers) ← perform (RpcCallWalk chain_id SIMULATE_V1 (simulate_params relayer entry_point calldata));
  _ ← perform (RpcNoteWalk chain_id SIMULATE_V1 answers);
  mret ((λ value, parse_simulation value entry_point hashes) <$> ok response).

Definition eth_call_verdict (answer : result RpcError Value) (hashes : list (list byte)) : Verdict :=
  match answer with
  | Ok value =>
      match s ← as_str value; sim_parse_u256 s with
      | Some gas_used => bare_success gas_used hashes
      | None => VTransient "Pimlico eth_call fallback returned an invalid eth_estimateGas quantity"
      end
  | Err (Reverted _ _) => VRejected "final handleOps bundle reverted during eth_estimateGas fallback"
  | Err _ => VTransient "Pimlico eth_call fallback could not estimate the final handleOps bundle"
  end.

Definition simulate_bundle_with_eth_call (calldata : list byte) (hashes : list (list byte)) : lane Verdict :=
  answer ← perform (RpcSimulate chain_id "eth_estimateGas"
                      (VArray [call_object relayer entry_point calldata; VString "latest"]));
  mret (eth_call_verdict answer hashes).

Definition simulate_bundle_without_v1 (calldata : list byte) (hashes : list (list byte)) : lane Verdict :=
  availability ← pimlico_contracts;
  decided ←
    match ready_contracts availability with
    | Some _ =>
        verdict ← simulate_bundle_with_eth_call calldata hashes;
        mret (if is_transient verdict then None else Some verdict)
    | None => mret None
    end;
  match decided with
  | Some verdict => mret verdict
  | None =>
      answer ← perform (RpcCall chain_id "debug_traceCall" (debug_trace_params relayer entry_point calldata));
      mret match answer with
           | Ok value => parse_trace_simulation value entry_point hashes
           | Err _ => NO_METHOD
           end
  end.

Definition bundle_or_last (calldata : list byte) (hashes : list (list byte)) (turn : SimulateV1Turn) :
    lane Verdict :=
  verdict ← simulate_bundle_without_v1 calldata hashes;
  match turn with
  | Last =>
      if is_transient verdict then
        last ← simulate_v1_bundle calldata hashes;
        mret match last with
             | Some last => if is_transient last then verdict else last
             | None => verdict
             end
      else mret verdict
  | First => mret verdict
  end.

Definition simulate_bundle (operations : list (list byte * PackedOperation)) : lane Verdict :=
  let calldata := handle_ops_calldata (map (λ x, packed x.2) operations) beneficiary in
  let hashes := map fst operations in
  lacking ← perform (RpcLacksMethod chain_id SIMULATE_V1);
  let turn := simulate_v1_turn chain_id lacking in
  match turn with
  | First =>
      verdict ← simulate_v1_bundle calldata hashes;
      match verdict with
      | Some verdict => mret verdict
      | None => bundle_or_last calldata hashes turn
      end
  | Last => bundle_or_last calldata hashes turn
  end.
End Simulate.

(** ** Every operation is accounted for *)

Section Counts.
Context `{HA : Alloy} `{HT : !HashText} `{HK : Keccak} `{HS : SolCalls}.

(** A success has one event for each of [n] operations. *)
Definition counts (n : nat) (verdict : Verdict) : Prop :=
  match verdict with VSuccess simulation => length (sr_events simulation) = n | _ => True end.

Lemma bare_success_counts gas_used hashes : counts (length hashes) (bare_success gas_used hashes).
Proof. apply length_map. Qed.

Lemma reading_counts value entry_point hashes :
  counts (length hashes) (parse_simulation value entry_point hashes) ∧
  counts (length hashes) (parse_trace_simulation value entry_point hashes).
Proof.
  assert (∀ v, (∀ r, v = VSuccess r → proves_bundle entry_point hashes r) → counts (length hashes) v) as Hv.
  { intros v Hproves. destruct v as [r| | | |]; try exact I. destruct (Hproves r eq_refl) as (_ & <- & _). cbn.
    by rewrite length_map. }
  split; apply Hv; intros r Hr; eapply simulation_needs_every_event; [by left|by right].
Qed.

Lemma v1_verdict_counts entry_point response hash : counts 1 (v1_verdict entry_point response hash).
Proof. destruct response as [value|[]]; [apply (reading_counts value entry_point [hash])|done..]. Qed.

Lemma pimlico_verdict_counts answer hash : counts 1 (pimlico_verdict answer hash).
Proof.
  destruct answer as [|[]]; cbn [pimlico_verdict]; [apply (bare_success_counts 0 [hash])|..];
    try exact I. by case_match.
Qed.

Lemma trace_verdict_counts entry_point response hash : counts 1 (trace_verdict entry_point response hash).
Proof. destruct response as [[value|]|]; [apply (reading_counts value entry_point [hash])|done..]. Qed.

Lemma eth_call_verdict_counts answer hashes : counts (length hashes) (eth_call_verdict answer hashes).
Proof.
  destruct answer as [value|[]]; cbn [eth_call_verdict]; try exact I.
  destruct (s ← as_str value; sim_parse_u256 s); [apply bare_success_counts|exact I].
Qed.

Abbreviation each_counts := (Forall (counts 1)).

Lemma v1_verdicts_count entry_point (responses : list (result RpcError Value))
    (operations : list (list byte * PackedOperation)) :
  each_counts (map (λ '(response, x), v1_verdict entry_point response x.1) (zip responses operations)).
Proof. apply Forall_map, Forall_forall. intros [response x] _. apply v1_verdict_counts. Qed.

Lemma constant_counts {A} verdict (l : list A) : counts 1 verdict → each_counts (map (λ _, verdict) l).
Proof. intros Hv. by apply Forall_map, Forall_forall. Qed.

Lemma take_decided_counts verdicts last :
  each_counts verdicts → Forall (λ x, counts 1 x.2) last → each_counts (take_decided verdicts last).
Proof.
  intros Hv Hl. unfold take_decided. revert verdicts Hv.
  induction Hl as [|[i v] l Hx Hl IH]; intros verdicts Hv; [done|]. cbn [foldl]. apply IH.
  destruct (is_transient v); [done|]. by apply Forall_insert.
Qed.

Lemma zip_counts (l : list nat) (k : list Verdict) : each_counts k → Forall (λ x, counts 1 x.2) (zip l k).
Proof.
  intros Hk. revert l. induction Hk as [|v k Hv Hk IH]; intros [|i l]; cbn; constructor; [done|apply IH].
Qed.

(** The outcomes made of such verdicts. *)
Lemma verdicts_report entry_point operations verdicts :
  each_counts verdicts →
  reports_gas (SimulateIndividually entry_point operations, OperationVerdicts (map operation_sim_verdict verdicts)).
Proof.
  intros Hv. cbn. apply Forall_map. eapply Forall_impl; [exact Hv|]. intros [r| | | |] Hr; try exact I.
  cbn in *. destruct (sr_full_execution r); [|exact I]. cbn. by rewrite length_map.
Qed.

Lemma bundle_verdict_reports entry_point operations verdict :
  counts (length operations) verdict →
  reports_gas (SimulateBundle entry_point operations, BundleVerdict (bundle_sim_verdict verdict)).
Proof. destruct verdict as [r| | | |]; intros Hr; try exact I. cbn in *. by rewrite length_map. Qed.

Variables (chain_id entry_point relayer beneficiary : Z).

Lemma lane_v1_counts operations :
  returns (simulate_v1_individually chain_id entry_point relayer beneficiary operations) each_counts.
Proof.
  unfold simulate_v1_individually. apply returns_bind. intros [responses answers].
  apply returns_bind. intros _. apply yields_pure.
  destruct responses; [apply v1_verdicts_count|by apply constant_counts].
Qed.

Lemma lane_trace_counts operations indexes verdicts :
  each_counts verdicts →
  returns (trace_tier chain_id entry_point relayer beneficiary operations indexes verdicts) each_counts.
Proof.
  intros Hv. unfold trace_tier. apply returns_bind. intros responses. apply yields_pure.
  generalize (zip (seq 0 (length (omap (λ index : nat, x ← operations !! index; Some (index, x)) indexes)))
    (omap (λ index : nat, x ← operations !! index; Some (index, x)) indexes)) as l.
  intros l. revert verdicts Hv. induction l as [|[position [index [hash op]]] l IH]; intros verdicts Hv; [done|].
  cbn [foldl]. apply IH, Forall_insert; [done|apply trace_verdict_counts].
Qed.

Lemma lane_individual_counts operations :
  returns (simulate_individually chain_id entry_point relayer beneficiary operations) each_counts.
Proof.
  unfold simulate_individually. apply returns_bind. intros lacking. cbv zeta.
  eapply (returns_then _ _ each_counts).
  { destruct (simulate_v1_turn _ _); [apply lane_v1_counts|]. apply yields_pure. by apply constant_counts. }
  intros verdicts Hv. eapply (returns_then _ _ each_counts).
  { unfold simulate_individually_without_v1. case_decide; [by apply yields_pure|].
    apply returns_bind. intros availability. eapply (returns_then _ _ (λ s, each_counts s.2)).
    - unfold pimlico_tier. apply (yields_for _ _ _ _ _ (λ s, each_counts s.2)); [done| |by intros].
      intros index [open vs] _ Hvs. destruct (operations !! index) as [[hash op]|]; [|exact Hvs].
      apply (returns_then _ _ (counts 1)).
      + unfold simulate_with_pimlico. destruct (ready_contracts availability); [|exact I].
        apply returns_bind. intros answer. apply yields_pure, pimlico_verdict_counts.
      + intros verdict Hverdict. apply yields_pure. destruct (is_transient verdict); [exact Hvs|].
        by apply Forall_insert.
    - intros [open vs] Hvs. case_decide; [by apply yields_pure|by apply lane_trace_counts]. }
  clear verdicts Hv. intros verdicts Hv. destruct (simulate_v1_turn _ _); [by apply yields_pure|].
  case_decide; [by apply yields_pure|]. eapply returns_then; [apply lane_v1_counts|].
  intros last Hlast. apply yields_pure, take_decided_counts; [done|by apply zip_counts].
Qed.

Lemma lane_v1_bundle_counts calldata hashes :
  returns (simulate_v1_bundle chain_id entry_point relayer calldata hashes)
    (λ v, match v with Some v => counts (length hashes) v | None => True end).
Proof.
  unfold simulate_v1_bundle. apply returns_bind. intros [response answers]. apply returns_bind. intros _.
  apply yields_pure. destruct response as [value|e]; [apply (reading_counts value)|exact I].
Qed.

Lemma lane_bundle_counts operations :
  returns (simulate_bundle chain_id entry_point relayer beneficiary operations) (counts (length operations)).
Proof.
  unfold simulate_bundle. cbv zeta. rewrite <-(length_map fst operations). set (hashes := map fst operations).
  set (calldata := handle_ops_calldata _ _). clearbody calldata hashes.
  assert (∀ turn, returns (bundle_or_last chain_id entry_point relayer beneficiary calldata hashes turn)
    (counts (length hashes))) as Hlast.
  { intros turn. unfold bundle_or_last. eapply (returns_then _ _ (counts (length hashes))).
    - unfold simulate_bundle_without_v1. apply returns_bind. intros availability.
      eapply (returns_then _ _ (λ v, match v with Some v => counts (length hashes) v | None => True end)).
      + destruct (ready_contracts availability); [|exact I].
        apply (returns_then _ _ (counts (length hashes))).
        * unfold simulate_bundle_with_eth_call. apply returns_bind. intros answer.
          apply yields_pure, eth_call_verdict_counts.
        * intros v Hv. apply yields_pure. by destruct (is_transient v).
      + intros [v|] Hv; [by apply yields_pure|]. apply returns_bind. intros answer. apply yields_pure.
        destruct answer as [value|]; [apply (reading_counts value)|exact I].
    - intros v Hv. destruct turn; [by apply yields_pure|]. destruct (is_transient v); [|by apply yields_pure].
      eapply returns_then; [apply lane_v1_bundle_counts|]. intros [last|] Hl; apply yields_pure; [|done].
      by destruct (is_transient last). }
  apply returns_bind. intros lacking. destruct (simulate_v1_turn _ _); [|apply Hlast].
  eapply returns_then; [apply lane_v1_bundle_counts|]. intros [v|] Hv; [by apply yields_pure|apply Hlast].
Qed.

(** The Worker's simulations account for every operation. *)
Lemma lane_reports_gas simulated operations :
  returns (verdicts ← simulate_individually chain_id entry_point relayer beneficiary operations;
           mret (OperationVerdicts (map operation_sim_verdict verdicts)))
    (λ r, reports_gas (SimulateIndividually simulated operations, r)) ∧
  returns (verdict ← simulate_bundle chain_id entry_point relayer beneficiary operations;
           mret (BundleVerdict (bundle_sim_verdict verdict)))
    (λ r, reports_gas (SimulateBundle simulated operations, r)).
Proof.
  split.
  - eapply returns_then; [apply lane_individual_counts|]. intros vs Hv. by apply yields_pure, verdicts_report.
  - eapply returns_then; [apply lane_bundle_counts|]. intros v Hv. by apply yields_pure, bundle_verdict_reports.
Qed.
End Counts.
