(* ===== verification/LaneArms.v ===== *)
(** * LaneArms: how a lane answers the batch program, and its entry points
    ([vela-relay-cf/src/lane_do.rs])

    [execute] is one arm per operation of the core; [execute_batch] drives the
    core's program with it; [alarm] is the lane's clock.  The symbol that
    [LoadChainAssets] resolves for [FetchMarketPrice] is the batch's own state.
    The reader of a fee history ([gas_math::tip_window]) meets floats, which
    [Value] does not have, and is an argument. *)

From S2P Require Import Signing.
From S2P Require Export LaneSimulate.
From S2P Require RecordDo TreasuryDo.
#[local] Open Scope string_scope.
#[local] Open Scope list_scope.
#[local] Open Scope Z_scope.

Definition TREASURY_UNAVAILABLE : ExecutionOutcome :=
  OutFailed "chain treasury coordinator is unavailable".

Definition broadcast_reply (outcome : BroadcastOutcome) : BroadcastReply :=
  match outcome with
  | BroadcastAccepted hash => ReplyAccepted hash
  | BroadcastAmbiguous reason => ReplyAmbiguous reason
  | BroadcastRejected reason => ReplyRejected reason
  end.

(** [Err] becomes the batch-fatal answer. *)
Definition or_failed {A} (f : A → ExecutionOutcome) (r : result string A) : ExecutionOutcome :=
  match r with Ok a => f a | Err message => OutFailed message end.

Definition rpc_call (method : string) (params : list Value) : RpcBatchCall :=
  {| bc_method := method; bc_params := VArray params |}.

Section Arms.
Context `{HA : Alloy} `{HT : !HashText} `{HK : Keccak} `{HC : Curve} `{HL : !LocalSigner}
  `{HS : SolCalls} `{TC : TokenCalls} `{LC : LowerCase} `{W : TargetWidth}.
Variable tip_window_of : Value → option TipWindow.
Variables (config : CfConfig) (policy : ExecutionPolicy) (chain_id lane_index : Z) (treasury_token : string).

Definition address_value (a : Z) : Value := VString (address_to_string a).
Definition hex_value_of (l : list byte) : Value := VString ("0x" +:+ hex_encode l).

(** ** Chain assets and the market *)

Definition tempo_chain_assets : ResolvedChainAssets :=
  {| assets := {| native_decimals := PATH_USD_DECIMALS;
                  settlement_markup_bps := cc_settlement_markup_bps config;
                  config_stablecoins :=
                    {[PATH_USD := {| coin_symbol := PATH_USD_SYMBOL; coin_decimals := PATH_USD_DECIMALS |}]} |};
     native_symbol := PATH_USD_SYMBOL |}.

Definition ASSETS_UNAVAILABLE : ExecutionOutcome :=
  AssetsUnavailable "could not load payment assets from chain directory".

(** The directory's stablecoins with a readable contract. *)
Definition readable_stables (stables : list StablecoinMetadata) : list (Z * string * option Z) :=
  omap (λ stable, address ← address_from_str (sm_contract stable);
                  Some (address, sm_symbol stable, sm_decimals stable)) stables.

Definition missing_decimals (stables : list (Z * string * option Z)) : list (nat * Z) :=
  omap (λ '(index, (address, _, decimals)),
          match decimals with None => Some (index, address) | Some _ => None end)
       (zip (seq 0 (length stables)) stables).

Definition read_decimals (responses : list (result RpcError Value)) (index : nat) : option Z :=
  value ← ok (response_abi_u256 responses index "ERC-20 decimals");
  decimals ← checked 32 value;
  if decide (decimals ≤ 38) then Some decimals else None.

Definition fill_decimals (responses : list (result RpcError Value)) (missing : list (nat * Z))
    (stables : list (Z * string * option Z)) : list (Z * string * option Z) :=
  foldl (λ stables '(response_index, (stable_index, _)),
    alter (λ '(address, symbol, _), (address, symbol, read_decimals responses response_index))
      stable_index stables) stables (zip (seq 0 (length missing)) missing).

(** The map a later entry of one address overrides. *)
Definition stable_map (stables : list (Z * string * option Z)) : gmap Z StablecoinConfig :=
  foldl (λ m '(address, symbol, decimals),
    match decimals with
    | Some decimals => <[address := {| coin_symbol := symbol; coin_decimals := decimals |}]> m
    | None => m
    end) ∅ stables.

Definition resolved_assets (native : NativeCurrencyMetadata) (stables : list (Z * string * option Z)) :
    ResolvedChainAssets :=
  {| assets := {| native_decimals := nm_decimals native;
                  settlement_markup_bps := cc_settlement_markup_bps config;
                  config_stablecoins := stable_map stables |};
     native_symbol := nm_symbol native |}.

(** The answer, and the symbol the batch remembers. *)
Definition load_chain_assets (symbol : option string) : lane (option string * ExecutionOutcome) :=
  if is_tempo_chain chain_id
  then mret (Some (native_symbol tempo_chain_assets), OutAssets tempo_chain_assets)
  else
    metadata ← perform (PaymentMetadata chain_id);
    match m ← metadata; native ← cm_native_currency m; Some (m, native) with
    | None => mret (symbol, ASSETS_UNAVAILABLE)
    | Some (metadata, native) =>
        let stables := readable_stables (cm_stables metadata) in
        let missing := missing_decimals stables in
        let resolved stables :=
          (Some (nm_symbol native), OutAssets (resolved_assets native stables)) in
        if decide (missing = []) then mret (resolved stables)
        else
          responses ← perform (RpcBatch chain_id (map (λ '(_, address),
            rpc_call "eth_call" [VObject [("to", address_value address);
                                          ("data", hex_value_of ERC20_DECIMALS_SELECTOR)];
                                 VString "latest"]) missing));
          match responses with
          | Err error => mret (symbol, AssetsUnavailable (rpc_error_text error))
          | Ok responses => mret (resolved (fill_decimals responses missing stables))
          end
    end.

Definition chain_supported : lane bool :=
  if negb (bool_decide (execution_chains config = [])) &&
     negb (bool_decide (chain_id ∈ execution_chains config)) then mret false
  else perform (SupportsChain chain_id).

Definition fetch_price (symbol : string) (now : Z) : lane (result string Z) :=
  raw_price ← perform (BinanceUsdtPrice symbol);
  match raw_price with
  | None => mret (Err "Binance native USD price request failed")
  | Some raw_price =>
      match parse_market_usd_price raw_price with
      | None => mret (Err "Binance native USD price is invalid")
      | Some price =>
          _ ← perform (CachePrice symbol (wrapping 64 (now + BINANCE_PRICE_TTL_MS)) price); mret (Ok price)
      end
  end.

Definition market_usd_price (symbol : string) : lane (result string Z) :=
  let symbol := to_ascii_uppercase (trim symbol) in
  if bool_decide (symbol = "") || negb (all_chars is_ascii_alphanumeric symbol)
  then mret (Err "native currency symbol is invalid")
  else
    now ← perform Millis;
    cached ← perform (CachedPrice symbol);
    match cached with
    | Some (expires_at, price) =>
        if decide (now < expires_at) then mret (Ok price)
        else fetch_price symbol now
    | None => fetch_price symbol now
    end.

(** ** Contexts read from the chain *)

Definition pending_count (address : Z) : RpcBatchCall :=
  rpc_call "eth_getTransactionCount" [address_value address; VString "pending"].
Definition pending_balance (address : Z) : RpcBatchCall :=
  rpc_call "eth_getBalance" [address_value address; VString "pending"].
Definition path_usd_balance (address : Z) : RpcBatchCall :=
  rpc_call "eth_call" [VObject [("to", address_value PATH_USD);
                                ("data", hex_value_of (encode_balance_of address))]; VString "latest"].

Definition as_nonce (message : string) (r : result string Z) : result string Z :=
  nonce ← r; ok_or (checked 64 nonce) message.

Definition batch_or_text (calls : list RpcBatchCall) : lane (result string (list (result RpcError Value))) :=
  responses ← perform (RpcBatch chain_id calls);
  mret (map_err rpc_error_text responses).

Definition context_calls (entry_point : Z) (calldata : list byte) : list RpcBatchCall :=
  [rpc_call "eth_estimateGas" [call_object (relayer policy) entry_point calldata];
   rpc_call "eth_getBlockByNumber" [VString "latest"; VBool false];
   rpc_call "eth_maxPriorityFeePerGas" [];
   pending_count (relayer policy); pending_balance (relayer policy);
   {| bc_method := "eth_feeHistory"; bc_params := tip_history_params chain_id |}].

(** [eth_gasPrice], asked only when the node named no tip. *)
Definition legacy_gas_price (tip : option Z) : lane (result string (option Z)) :=
  match tip with
  | Some _ => mret (Ok None)
  | None =>
      answer ← perform (RpcCall chain_id "eth_gasPrice" (VArray []));
      mret (value ← map_err rpc_error_text answer;
            price ← ok_or (s ← as_str value; trusted_parse_quantity s)
                      "eth_gasPrice returned an invalid quantity";
            Ok (Some price))
  end.

Definition block_base_fee (block : Value) : option Z :=
  v ← get "baseFeePerGas" block; s ← as_str v; trusted_parse_quantity s.

(** The rest of the context, once the tip and the legacy price are known. *)
Definition build_context (responses : list (result RpcError Value)) (estimated_gas base_fee : Z)
    (tip legacy : option Z) : result string TransactionContext :=
  tip ← ok_or (market_tip tip legacy base_fee) "gas price is below the latest base fee";
  base_fee ← ok_or (checked 128 base_fee) "base fee exceeds uint128";
  tip ← ok_or (checked 128 tip) "priority fee exceeds uint128";
  max_fee_per_gas ← ok_or (quoted_outer_fee base_fee tip) "EIP-1559 fee overflow";
  nonce ← as_nonce "relayer nonce exceeds uint64" (response_quantity responses 3 "eth_getTransactionCount");
  balance ← response_quantity responses 4 "eth_getBalance";
  Ok {| estimated_gas := estimated_gas; tc_base_fee_per_gas := base_fee;
        tc_max_fee_per_gas := max_fee_per_gas; tc_max_priority_fee_per_gas := tip; tc_nonce := nonce;
        relayer_balance := balance;
        tip_window := match responses !! 5%nat with Some (Ok v) => tip_window_of v | _ => None end |}.

Definition transaction_context (entry_point : Z) (calldata : list byte) :
    lane (result string TransactionContext) :=
  responses ←? batch_or_text (context_calls entry_point calldata);
  '(estimated_gas, base_fee) ←? mret (
    estimated_gas ← response_quantity responses 0 "eth_estimateGas";
    block ← response_value responses 1 "eth_getBlockByNumber";
    base_fee ← ok_or (block_base_fee block) "latest block has no EIP-1559 base fee";
    Ok (estimated_gas, base_fee));
  let tip := response_quantity_optional responses 2 in
  legacy ←? legacy_gas_price tip;
  mret (build_context responses estimated_gas base_fee tip legacy).

Definition treasury_context : lane (result string ExecutionOutcome) :=
  responses ←? batch_or_text
    [pending_count (treasury policy); pending_balance (treasury policy);
     rpc_call "eth_estimateGas" [VObject [("from", address_value (treasury policy));
       ("to", address_value (relayer policy)); ("value", VString "0x1")]]];
  mret (nonce ← as_nonce "treasury nonce exceeds uint64"
                  (response_quantity responses 0 "treasury eth_getTransactionCount");
        balance ← response_quantity responses 1 "treasury eth_getBalance";
        Ok (OutTreasuryContext nonce balance
              (gas ← ok (response_quantity responses 2 "treasury top-up eth_estimateGas"); checked 64 gas))).

Definition tempo_transaction_context : lane (result string ExecutionOutcome) :=
  responses ←? batch_or_text
    [rpc_call "eth_getBlockByNumber" [VString "latest"; VBool false]; rpc_call "eth_gasPrice" [];
     pending_count (relayer policy); path_usd_balance (relayer policy)];
  mret (block ← response_value responses 0 "Tempo latest block";
        let base_fee := match block_base_fee block with
                        | Some fee => fee
                        | None => default TEMPO_BASE_FEE_ATTO (response_quantity_optional responses 1)
                        end in
        nonce ← as_nonce "Tempo relayer nonce exceeds uint64"
                  (response_quantity responses 2 "Tempo relayer nonce");
        balance ← response_abi_u256 responses 3 "Tempo pathUSD balance";
        Ok (TempoContext base_fee nonce balance)).

Definition tempo_treasury_context (transfer_amount : Z) : lane (result string ExecutionOutcome) :=
  responses ←? batch_or_text
    [pending_count (treasury policy); path_usd_balance (treasury policy);
     rpc_call "eth_estimateGas" [VObject [("from", address_value (treasury policy));
       ("to", address_value PATH_USD); ("data", hex_value_of (encode_transfer (relayer policy) transfer_amount));
       ("feeToken", address_value PATH_USD)]; VString "latest"]];
  mret (nonce ← as_nonce "Tempo treasury nonce exceeds uint64"
                  (response_quantity responses 0 "Tempo treasury nonce");
        balance ← response_abi_u256 responses 1 "Tempo treasury pathUSD balance";
        gas ← as_nonce "Tempo pathUSD top-up gas estimate exceeds uint64"
                (response_quantity responses 2 "Tempo pathUSD top-up eth_estimateGas");
        Ok (TempoTreasuryContext nonce balance gas)).

(** ** Signatures *)

Definition signed_outcome (r : result () SignedTransaction) : ExecutionOutcome :=
  match r with
  | Ok s => Signed {| raw_transaction_hex := "0x" +:+ hex_encode (st_raw_transaction s);
                      sb_transaction_hash := st_transaction_hash s; sb_nonce := st_nonce s |}
  | Err _ => OutFailed TRANSACTION_SIGN_ERROR
  end.

Definition with_key (derive : string → result VaultError SecretKey) (sign : SecretKey → result () SignedTransaction) :
    ExecutionOutcome :=
  match operator_secret config with
  | None => OutFailed "OPERATOR_SECRET is required for execution"
  | Some secret =>
      match derive secret with
      | Ok key => signed_outcome (sign key)
      | Err error => OutFailed (vault_error_text error)
      end
  end.

Definition relayer_key (secret : string) : result VaultError SecretKey :=
  derive_pool_relayer_secret_key secret lane_index.

Definition bundle_plan (request : BundleSignRequest) : TransactionPlan :=
  {| pl_chain_id := chain_id; pl_nonce := bs_nonce request; pl_gas_limit := bs_gas_limit request;
     pl_max_fee_per_gas := bs_max_fee_per_gas request;
     pl_max_priority_fee_per_gas := bs_max_priority_fee_per_gas request;
     pl_to := bs_entry_point request; pl_value := 0; pl_input := bs_calldata request |}.
Definition sign_bundle (request : BundleSignRequest) : ExecutionOutcome :=
  with_key relayer_key (λ key, sign_eip1559 key (bundle_plan request)).

Definition tempo_plan (request : TempoSignRequest) : TempoTransactionPlan :=
  {| tp_chain_id := chain_id; tp_nonce := tsr_nonce request; tp_gas_limit := tsr_gas_limit request;
     tp_max_fee_per_gas := tsr_max_fee_per_gas request; tp_max_priority_fee_per_gas := 0;
     tp_fee_token := PATH_USD; tp_to := tsr_entry_point request; tp_input := tsr_calldata request |}.
Definition sign_tempo_lane_bundle (request : TempoSignRequest) : ExecutionOutcome :=
  with_key relayer_key (λ key, sign_tempo key (tempo_plan request)).

Definition transfer_plan (request : TreasurySignRequest) : TransactionPlan :=
  {| pl_chain_id := chain_id; pl_nonce := ts_nonce request; pl_gas_limit := ts_gas_limit request;
     pl_max_fee_per_gas := ts_max_fee_per_gas request;
     pl_max_priority_fee_per_gas := ts_max_priority_fee_per_gas request;
     pl_to := relayer policy; pl_value := ts_amount request; pl_input := [] |}.
Definition sign_treasury_transfer (request : TreasurySignRequest) : ExecutionOutcome :=
  with_key derive_treasury_secret_key (λ key, sign_eip1559 key (transfer_plan request)).

Definition path_usd_plan (request : TempoTreasurySignRequest) : TempoTransactionPlan :=
  {| tp_chain_id := chain_id; tp_nonce := tts_nonce request; tp_gas_limit := tts_gas_limit request;
     tp_max_fee_per_gas := tts_max_fee_per_gas request; tp_max_priority_fee_per_gas := 0;
     tp_fee_token := PATH_USD; tp_to := PATH_USD;
     tp_input := encode_transfer (relayer policy) (tts_amount request) |}.
Definition sign_treasury_path_usd (request : TempoTreasurySignRequest) : ExecutionOutcome :=
  with_key derive_treasury_secret_key (λ key, sign_tempo key (path_usd_plan request)).

(** ** Records *)

Definition record (hash : string) (command : RecordDo.RecordCommand) : lane (result () RecordDo.RecordReply) :=
  perform (RecordCall chain_id hash command).

Definition executor_note (stage reason : string) (now : Z) : obj :=
  [("lastExecutorStage", VString (truncate_diagnostic stage 64));
   ("lastExecutorError", VString (truncate_diagnostic reason 512));
   ("lastExecutorAttemptAtMs", VNumber now)].

Definition rejection_patch (stage reason : string) (code : RejectionReason) (now : Z) : Value :=
  VObject ([("status", VString "rejected"); ("admitted", VBool true)] ++ executor_note stage reason now ++
           [("rejectionReason", VString (as_reason_str code))]).

(** Neither patch un-admits the record. *)
Lemma record_patches_admit stage reason code now :
  RecordDo.admits (rejection_patch stage reason code now) = true ∧
  RecordDo.admits (VObject (executor_note stage reason now)) = true.
Proof. done. Qed.

Definition mark_rejected (hash stage reason : string) (code : RejectionReason) : lane ExecutionOutcome :=
  now ← perform Millis;
  reply ← record hash (RecordDo.Patch (rejection_patch stage reason code now));
  mret match reply with
       | Ok (RecordDo.Patched _) => Done
       | _ => OutFailed "could not persist UserOperation rejection"
       end.

Definition note_deferred (hash stage reason : string) : lane ExecutionOutcome :=
  now ← perform Millis;
  _ ← record hash (RecordDo.Patch (VObject (executor_note stage reason now)));
  mret Done.

Definition reload_record (hash : string) : lane ExecutionOutcome :=
  reply ← record hash RecordDo.Get;
  mret match reply with
       | Ok (RecordDo.RecordRead record) => OutRecord record
       | _ => OutFailed "could not read UserOperation record"
       end.

Definition restore_queued (queued : QueuedUserOperation) : lane ExecutionOutcome :=
  reply ← record (q_user_operation_hash queued) (RecordDo.RestoreQueued queued);
  mret match reply with
       | Ok (RecordDo.Created _) => Done
       | _ => OutFailed "could not restore queued UserOperation"
       end.

Definition mark_admitted (hash : string) : lane ExecutionOutcome :=
  reply ← record hash RecordDo.MarkAdmitted;
  mret match reply with
       | Ok (RecordDo.Marked marked) => Marked marked
       | _ => OutFailed "could not recover UserOperation admission"
       end.

(** ** The prepared bundle *)

Definition save_prepared_bundle (intent : PreparedBundleIntent) : lane ExecutionOutcome :=
  stored ← perform GetIntent;
  match stored with
  | Some _ => mret (Saved false)
  | None =>
      put ← perform (PutIntent intent);
      if put : bool
      then _ ← arm_reconcile (receipt_poll_ms config); mret (Saved true)
      else mret (OutFailed "could not persist prepared bundle intent")
  end.

Definition mark_bundle_submitted (intent : PreparedBundleIntent) : lane ExecutionOutcome :=
  indexed ← submit_bundle_members chain_id intent;
  match indexed with
  | Ok indexed => _ ← arm_reconcile (receipt_pace_ms chain_id (receipt_poll_ms config)); mret (Indexed indexed)
  | Err message => mret (OutFailed message)
  end.

Definition resume_prepared (intent : PreparedBundleIntent) : lane ExecutionOutcome :=
  disposition ← resume_bundle_intent config intent;
  mret (or_failed (λ disposition, Resumed match disposition with ResumeUnknown => false | _ => true end)
          disposition).

Definition clear_stale (intent : PreparedBundleIntent) : lane ExecutionOutcome :=
  cleared ← clear_stale_bundle_intent intent; mret (or_failed (λ _, Done) cleared).

(** ** The chain *)

Definition fetch_account_nonces (entry_point : Z) (probes : list (Z * Z)) : lane ExecutionOutcome :=
  responses ← perform (RpcBatch chain_id (map (λ '(sender, nonce),
    rpc_call "eth_call" [VObject [("to", address_value entry_point);
                                  ("data", hex_value_of (get_nonce_calldata get_nonce_selector sender nonce))];
                         VString "latest"]) probes));
  mret match responses with
       | Ok responses =>
           AccountNonces (map (λ index, ok (response_abi_u256 responses index "EntryPoint getNonce"))
                              (seq 0 (length probes)))
       | Err error => OutFailed (rpc_error_text error)
       end.

Definition broadcast_raw (raw : list byte) : lane ExecutionOutcome :=
  outcome ← perform (RpcBroadcast chain_id raw);
  mret match outcome with
       | Ok outcome => Sent (broadcast_reply outcome)
       | Err error => OutFailed (rpc_error_text error)
       end.

Definition fetch_receipt (hash : string) : lane ExecutionOutcome :=
  answer ← perform (RpcCall chain_id "eth_getTransactionReceipt" (VArray [VString hash]));
  mret match answer with
       | Ok VNull => Receipt None
       | Ok receipt => Receipt (Some receipt)
       | Err error => OutFailed (rpc_error_text error)
       end.

(** ** The treasury *)

Definition treasury_lease : TreasuryDo.LeaseIdentity :=
  {| TreasuryDo.li_token := treasury_token; TreasuryDo.li_ttl_ms := lease_ttl_ms config |}.

Definition ask_treasury (renew : option TreasuryDo.LeaseIdentity) (command : TreasuryDo.TreasuryCommand) :
    lane (result () TreasuryDo.TreasuryReply) :=
  perform (TreasuryCall chain_id {| TreasuryDo.renew := renew; TreasuryDo.command := command |}).

(** The answer of a command sent with the batch's lease. *)
Definition with_treasury (renew : option TreasuryDo.LeaseIdentity) (command : TreasuryDo.TreasuryCommand)
    (read : TreasuryDo.TreasuryReply → option ExecutionOutcome) : lane ExecutionOutcome :=
  reply ← ask_treasury renew command;
  mret (default TREASURY_UNAVAILABLE (ok reply ≫= read)).

Definition acquired_answer (reply : TreasuryDo.TreasuryReply) : option ExecutionOutcome :=
  match reply with TreasuryDo.Acquired acquired => Some (LeaseAcquired acquired) | _ => None end.

Definition unique_token (prefix : string) (lane_number : Z) : lane string :=
  counter ← perform NextToken;
  now ← perform Millis;
  mret (prefix +:+ ":" +:+ dec chain_id +:+ ":" +:+ dec lane_number +:+ ":" +:+ dec now +:+ ":" +:+ dec counter).

Definition notify_executor_issue (stage hash reason : string) : lane () :=
  match telegram_bot_token config, telegram_chat_id config with
  | Some bot_token, Some chat_id =>
      let fingerprint := alert_fingerprint chain_id stage reason in
      claim_token ← unique_token "telegram" 0;
      reply ← ask_treasury None (TreasuryDo.ClaimAlert fingerprint claim_token (telegram_cooldown_ms config));
      match reply with
      | Ok (TreasuryDo.Acquired true) =>
          sent ← perform (SendMessage bot_token chat_id
                   (executor_alert_text chain_id stage hash reason (telegram_cooldown_ms config / 1000)));
          if sent : bool then mret tt
          else _ ← ask_treasury None (TreasuryDo.ReleaseAlert fingerprint claim_token); mret tt
      | _ => mret tt
      end
  | _, _ => mret tt
  end.

(** ** [execute] *)

(** One arm per operation.  [LoadChainAssets] and [FetchMarketPrice] write and
    read the batch's symbol; every other arm keeps it. *)
Definition execute (batch : list RoutedUserOperation) (symbol : option string) (operation : ExecutionOperation) :
    lane (option string * ExecutionOutcome) :=
  let keep (m : lane ExecutionOutcome) : lane (option string * ExecutionOutcome) :=
    outcome ← m; mret (symbol, outcome) in
  match operation with
  | LoadChainAssets => load_chain_assets symbol
  | FetchMarketPrice => keep match symbol with
      | None => mret (OutFailed "chain assets were not resolved")
      | Some name => price ← market_usd_price name; mret (or_failed Price price)
      end
  | CheckChainSupported => keep (supported ← chain_supported; mret (Supported supported))
  | LoadRecords hashes => keep (
      records ← load_records chain_id hashes "could not read UserOperation records";
      mret (or_failed Records records))
  | ReloadRecord hash => keep (reload_record hash)
  | RestoreQueued _ queued => keep (restore_queued queued)
  | MarkAdmitted hash => keep (mark_admitted hash)
  | MarkRejected hash cause => keep (
      let '(stage, reason) := cause_diagnostic cause in mark_rejected hash stage reason (cause_code cause))
  | MarkRejectedWithReason hash stage reason code => keep (mark_rejected hash stage reason code)
  | RecordDeferred hash stage reason => keep (note_deferred hash stage reason)
  | NotifyIssue hash stage reason => keep (_ ← notify_executor_issue stage hash reason; mret Done)
  | EmitDiagnostic _ => keep (mret Done)
  | DeadLetterRouted index reason => keep (dead_letter batch index reason)
  | AcquireLaneLease => keep (mret (LeaseAcquired true))
  | EnsureLaneLease => keep (mret (LeaseHeld true))
  | LoadPreparedBundle => keep (intent ← perform GetIntent; mret (OutIntent intent))
  | SavePreparedBundle intent => keep (save_prepared_bundle intent)
  | ClearStaleIntent intent _ => keep (clear_stale intent)
  | CheckBroadcastSeen hash => keep (seen ← broadcast_seen hash; mret (Seen seen))
  | RememberBroadcast hash => keep (_ ← remember_broadcast hash; mret Done)
  | ForgetBroadcast hash => keep (_ ← forget_broadcast hash; mret Done)
  | DeferOperation index _ => keep (defer_operation batch index)
  | MarkBundleSubmitted intent _ => keep (mark_bundle_submitted intent)
  | ResumeBundleIntent intent => keep (resume_prepared intent)
  | SimulateIndividually entry_point operations => keep (
      verdicts ← simulate_individually chain_id entry_point (relayer policy) (treasury policy) operations;
      mret (OperationVerdicts (map operation_sim_verdict verdicts)))
  | FetchAccountNonces entry_point probes => keep (fetch_account_nonces entry_point probes)
  | SimulateBundle entry_point operations => keep (
      verdict ← simulate_bundle chain_id entry_point (relayer policy) (treasury policy) operations;
      mret (BundleVerdict (bundle_sim_verdict verdict)))
  | FetchTransactionContext entry_point calldata => keep (
      context ← transaction_context entry_point calldata; mret (or_failed OutContext context))
  | SignBundle request => keep (mret (sign_bundle request))
  | BroadcastRaw raw _ => keep (broadcast_raw raw)
  | ProbeTransactionKnown hash => keep (known ← transaction_is_known chain_id hash; mret (Known known))
  | ProbeStaleNonce intent => keep (stale ← bundle_nonce_is_stale config intent; mret (Stale stale))
  | RecordUnprovenBroadcast _ _ _ => keep (mret Done)
  | AcquireTreasuryLease => keep (with_treasury None (TreasuryDo.AcquireLease treasury_lease) acquired_answer)
  | EnsureTreasuryLease => keep (
      with_treasury None (TreasuryDo.EnsureLease treasury_lease)
        (λ reply, match reply with TreasuryDo.Held held => Some (LeaseHeld held) | _ => None end))
  | ReleaseTreasuryLease => keep (_ ← ask_treasury None (TreasuryDo.ReleaseLease treasury_token); mret Done)
  | LoadPreparedFunding => keep (
      with_treasury (Some treasury_lease) TreasuryDo.LoadFunding
        (λ reply, match reply with TreasuryDo.Funding intent => Some (FundingIntent intent) | _ => None end))
  | SaveFundingIntent intent => keep (
      with_treasury (Some treasury_lease) (TreasuryDo.SaveFunding intent)
        (λ reply, match reply with TreasuryDo.FundingSaved saved => Some (Saved saved) | _ => None end))
  | ClearFundingIntent hash => keep (
      with_treasury (Some treasury_lease) (TreasuryDo.ClearFunding hash)
        (λ reply, match reply with TreasuryDo.Cleared _ => Some Done | _ => None end))
  | FetchTreasuryContext => keep (context ← treasury_context; mret (or_failed id context))
  | SignTreasuryTransfer request => keep (mret (sign_treasury_transfer request))
  | SignTreasuryPathUsd request => keep (mret (sign_treasury_path_usd request))
  | AcquireReceiptProbe hash => keep (
      with_treasury (Some treasury_lease) (TreasuryDo.AcquireProbe hash (receipt_poll_ms config)) acquired_answer)
  | Pause ms => keep (_ ← perform (Delay ms); mret Done)
  | FetchTransactionReceipt hash => keep (fetch_receipt hash)
  | RecordTreasuryShortfall _ _ _ _ _ | RecordPartialTopUp _ _ _ | RecordFundingSubmitted _ _ _
  | RecordUnprovenFunding _ _ _ | NoteFundingReceipt _ _ | RecordTempoTreasuryShortfall _ _ _ _ _ => keep (mret Done)
  | FetchTempoContext => keep (context ← tempo_transaction_context; mret (or_failed id context))
  | SignTempoBundle request => keep (mret (sign_tempo_lane_bundle request))
  | FetchTempoTreasuryContext transfer_amount => keep (
      context ← tempo_treasury_context transfer_amount; mret (or_failed id context))
  end.
End Arms.

(** ** Entry points *)

Section LaneEntry.
Context `{HA : Alloy} `{HT : !HashText} `{HK : Keccak} `{HC : Curve} `{HL : !LocalSigner}
  `{HS : SolCalls} `{TC : TokenCalls} `{LC : LowerCase} `{W : TargetWidth}.
Variable tip_window_of : Value → option TipWindow.
Variable env_config : result string CfConfig.

Definition BAD_CONFIGURATION : string := "executor configuration is invalid".

(** The loop over [process_event] and [resolve]: the core's program against
    the arms; the program settles with one resolution per operation, or panics
    ([None]), which ends the handler. *)
Definition execute_batch (operations : list RoutedUserOperation) : lane (option (list ItemResolution)) :=
  match operations with
  | [] => mret (Some [])
  | first :: _ =>
      let chain_id := r_chain_id first in
      let lane_index := r_lane first in
      let failure := map (λ _, ItemFailed BAD_CONFIGURATION) operations in
      match env_config with
      | Err _ => mret (Some failure)
      | Ok config =>
          match execution_policy config chain_id lane_index with
          | Err _ => mret (Some failure)
          | Ok policy =>
              treasury_token ← unique_token chain_id "treasury" lane_index;
              drive (execute tip_window_of config policy chain_id lane_index treasury_token operations) None
                (drive_batch {| operations := operations; policy := policy;
                                lease_token := "lane:" +:+ dec chain_id +:+ ":" +:+ dec lane_index |})
          end
      end
  end.

(** One reconcile pass for the lane's prepared intent. *)
Definition reconcile_intent : lane () :=
  stored ← perform GetIntent;
  match stored with
  | None => _ ← perform DeleteReconcileDue; mret tt
  | Some intent =>
      match env_config with
      | Err _ => mret tt
      | Ok config =>
          match execution_policy config (bi_chain_id intent) (bi_lane intent) with
          | Err _ => mret tt
          | Ok _ =>
              _ ← unique_token (bi_chain_id intent) "treasury" (bi_lane intent);
              disposition ← resume_bundle_intent config intent;
              _ ← match disposition with
                  | Ok ResumeConfirmed =>
                      still ← perform GetIntent;
                      match still with Some _ => check_bundle_receipt intent | None => mret tt end
                  | _ => mret tt
                  end;
              still ← perform GetIntent;
              match still with
              | Some _ =>
                  now ← perform Millis;
                  _ ← perform (PutReconcileDue
                        (wrapping 64 (now + receipt_pace_ms (bi_chain_id intent) (receipt_poll_ms config))));
                  mret tt
              | None => _ ← perform DeleteReconcileDue; mret tt
              end
          end
      end
  end.

(** [DurableObject::alarm]; [None] is a panic of the re-driven batch. *)
Definition alarm : lane (option (result () ())) :=
  now ← perform Millis;
  due ← perform GetReconcileDue;
  _ ← match due with
      | Some due => if decide (due ≤ now) then reconcile_intent else mret tt
      | None => mret tt
      end;
  redriven ← redrive_due_delayed env_config execute_batch now;
  match redriven with
  | None => mret None
  | Some _ => scheduled ← schedule_lane_alarm; mret (Some scheduled)
  end.

(** [DurableObject::fetch] *)
Definition lane_fetch (operations : list RoutedUserOperation) : lane (option (list ItemResolution)) :=
  execute_batch operations.
End LaneEntry.
