(* ===== verification/LaneSafety.v ===== *)
(** * LaneSafety: when a lane lets go of its prepared bundle

    Every program of the lane — a batch driven through all its arms, the
    alarm's reconcile pass, its re-drive — stores a bundle only right after
    reading an empty slot, and deletes the stored one only right after reading
    it and with evidence gathered in its own run that the transaction it
    carries is settled, spent or superseded. *)

From S2P Require Import Signing.
From S2P Require Export ExecutionProperties LaneArms.
From S2P Require RecordDo TreasuryDo.
#[local] Open Scope string_scope.
#[local] Open Scope list_scope.
#[local] Open Scope Z_scope.

(** ** What a program has learnt *)

Inductive Fact : Type :=
  | RecordShown (chain_id : Z) (hash : string) (record : option StoredUserOperation)
  | RpcAnswered (chain_id : Z) (method : string) (params : Value) (answer : result RpcError Value)
  (* the bundle was in the slot; the top-up was in the treasury's *)
  | Held (intent : PreparedBundleIntent)
  | FundingHeld (intent : PreparedFundingIntent).

(** The facts so far, and the slot when it was the last thing read. *)
Record Ghost : Type := { last_read : option (option PreparedBundleIntent); facts : list Fact }.

Definition ghost0 : Ghost := {| last_read := None; facts := [] |}.

Definition learn (g : Ghost) (new : list Fact) : Ghost := {| last_read := None; facts := new ++ facts g |}.

Definition observe (g : Ghost) (R : Type) (e : LaneCall R) : R → Ghost :=
  match e in LaneCall R return R → Ghost with
  | GetIntent => λ intent,
      {| last_read := Some intent;
         facts := match intent with Some i => [Held i] | None => [] end ++ facts g |}
  | PutIntent intent => λ put, learn g (if put : bool then [Held intent] else [])
  | RecordCall chain_id hash command => λ reply,
      learn g match command, reply with
              | RecordDo.Get, Ok (RecordDo.RecordRead record) => [RecordShown chain_id hash record]
              | _, _ => []
              end
  | RpcCall chain_id method params => λ answer, learn g [RpcAnswered chain_id method params answer]
  | TreasuryCall _ request => λ reply,
      learn g match TreasuryDo.command request, reply with
              | TreasuryDo.SaveFunding intent, Ok (TreasuryDo.FundingSaved true)
              | TreasuryDo.LoadFunding, Ok (TreasuryDo.Funding (Some intent)) => [FundingHeld intent]
              | _, _ => []
              end
  | _ => λ _, learn g []
  end.

(** ** Evidence that a stored bundle may be dropped *)

Section Evidence.
Context `{HA : Alloy} `{HT : !HashText} `{HK : Keccak} `{HC : Curve}.
Variable config : CfConfig.

(** Every member's record was read, none is active and some are terminal. *)
Definition superseded (F : list Fact) (i : PreparedBundleIntent) : Prop :=
  ∃ records audit,
    Forall2 (λ hash record, RecordShown (bi_chain_id i) hash record ∈ F) (bi_user_operation_hashes i) records ∧
    audit_bundle_replay i records = Ok audit ∧ active audit = 0%nat ∧ terminal audit ≠ 0%nat.

(** No endpoint showed the transaction. *)
Definition unknown_to (F : list Fact) (hash : string) : Prop :=
  ∃ chain_id answer,
    RpcAnswered chain_id "eth_getTransactionByHash" (VArray [VString hash]) answer ∈ F ∧
    ∀ v, answer = Ok v → holds_transaction v hash = false.

(** The lane's relayer has a mined nonce past the bundle's. *)
Definition nonce_spent (F : list Fact) (i : PreparedBundleIntent) : Prop :=
  ∃ relayer answer latest,
    relayer_address_for_lane config (bi_lane i) = Some relayer ∧
    RpcAnswered (bi_chain_id i) "eth_getTransactionCount"
      (VArray [VString (address_to_string relayer); VString "latest"]) answer ∈ F ∧
    latest_nonce answer = Some latest ∧ bi_nonce i < latest.

(** The transaction has a receipt with a readable status. *)
Definition mined (F : list Fact) (i : PreparedBundleIntent) : Prop :=
  ∃ receipt succeeded,
    RpcAnswered (bi_chain_id i) "eth_getTransactionReceipt" (VArray [VString (bi_transaction_hash i)]) (Ok receipt) ∈ F ∧
    receipt_succeeded receipt = Some succeeded.

Definition released (F : list Fact) (i : PreparedBundleIntent) : Prop :=
  superseded F i ∨ (unknown_to F (bi_transaction_hash i) ∧ nonce_spent F i) ∨ mined F i.

(** The bytes are those of a bundle or a top-up that was stored. *)
Definition outboxed (F : list Fact) (raw : list byte) : Prop :=
  (∃ i, Held i ∈ F ∧ validate_raw_transaction (bi_raw_transaction i) (bi_transaction_hash i) = Ok raw) ∨
  (∃ i, FundingHeld i ∈ F ∧ validate_raw_transaction (fi_raw_transaction i) (fi_transaction_hash i) = Ok raw).

Definition permits (g : Ghost) (R : Type) (e : LaneCall R) : Prop :=
  match e with
  | RpcBroadcast _ raw => outboxed (facts g) raw
  | PutIntent _ => last_read g = Some None
  | DeleteIntent =>
      ∃ stored i, last_read g = Some (Some stored) ∧
        eq_ignore_ascii_case (bi_transaction_hash stored) (bi_transaction_hash i) = true ∧
        Held i ∈ facts g ∧ released (facts g) i
  | _ => True
  end.

Abbreviation guarded := (ensures permits observe).

Lemma released_mono F F' i : F ⊆ F' → released F i → released F' i.
Proof.
  intros HF [(records & audit & Hr & Ha)|[[Hu Hn]|Hm]].
  - left. exists records, audit. split; [|done]. eapply Forall2_impl; [exact Hr|]. intros. by apply HF.
  - right. left. split.
    + destruct Hu as (c & answer & Hin & Hv). exists c, answer. auto.
    + destruct Hn as (relayer & answer & latest & ? & Hin & ?). exists relayer, answer, latest. auto.
  - right. right. destruct Hm as (receipt & succeeded & Hin & ?). exists receipt, succeeded. auto.
Qed.

Lemma observe_facts g R (e : LaneCall R) r : facts g ⊆ facts (observe g R e r).
Proof. destruct e; cbn; try done; intros x Hx; first [by right|apply elem_of_app; by right]. Qed.

Lemma observe_read g i : Held i ∈ facts (observe g _ GetIntent (Some i)).
Proof. by left. Qed.

(** ** Programs that leave the prepared bundle alone and broadcast nothing *)

Definition untouched (R : Type) (e : LaneCall R) : Prop :=
  match e with PutIntent _ | DeleteIntent | RpcBroadcast _ _ => False | _ => True end.

Definition quiet {A} (p : lane A) : Prop :=
  ensures (λ (_ : ()) R e, untouched R e) (λ _ _ _ _, tt) p tt (λ _ _, True).

Lemma quiet_guarded {A} (p : lane A) g Q :
  quiet p → (∀ g' a, facts g ⊆ facts g' → Q g' a) → guarded p g Q.
Proof.
  unfold quiet. revert g. induction p as [a|R e k IH]; intros g Hq HQ; cbn in *.
  - by apply HQ.
  - destruct Hq as [Hu Hk]. split; [by destruct e|]. intros r. apply IH; [by apply Hk|].
    intros g' a Hg. apply HQ. etransitivity; [apply (observe_facts g R e r)|done].
Qed.

Lemma quiet_bind {A B} (m : lane A) (f : A → lane B) : quiet m → (∀ a, quiet (f a)) → quiet (m ≫= f).
Proof. intros Hm Hf. apply ensures_bind. eapply ensures_mono; [exact Hm|]. intros [] a _. apply Hf. Qed.
Lemma quiet_try {X A B} (m : lane (result X A)) (f : A → lane (result X B)) :
  quiet m → (∀ a, quiet (f a)) → quiet (io_try f m).
Proof. intros Hm Hf. apply ensures_try. eapply ensures_mono; [exact Hm|]. intros [] [a|e] _; [apply Hf|done]. Qed.
Lemma quiet_pure {A} (a : A) : quiet (mret a).
Proof. done. Qed.
Lemma quiet_perform {R} (e : LaneCall R) : untouched R e → quiet (perform e).
Proof. done. Qed.
Lemma quiet_for {S A X} (body : X → S → lane (S + A)) items s finish :
  (∀ x s, quiet (body x s)) → (∀ s, quiet (finish s)) → quiet (io_for body items s finish).
Proof.
  intros Hb Hf. apply ensures_for with (J := λ _ _ _, True); [done| |].
  - intros x rest [] s' _. eapply ensures_mono; [apply Hb|]. by intros [] [|].
  - intros [] s' _. apply Hf.
Qed.
Lemma quiet_each {X S A} (body : A → S → lane (result X S)) items s :
  (∀ a s, quiet (body a s)) → quiet (io_each body items s).
Proof.
  intros Hb. apply ensures_each with (J := λ _ _ _, True); [done| |done].
  intros a rest [] s' _. eapply ensures_mono; [apply Hb|]. by intros [] [|].
Qed.
End Evidence.

Create HintDb quiet.

(** Walk through a program that has no effect on the bundle's slot. *)
Ltac quiet :=
  repeat first
    [ apply quiet_pure
    | apply quiet_perform; exact I
    | solve [eauto 2 with quiet nocore]
    | apply quiet_for; intros
    | apply quiet_each; intros
    | apply quiet_try; [|intros]
    | apply quiet_bind; [|intros]
    | progress cbv zeta
    | case_match
    | case_decide ].

(** ** The lane's programs *)

Section Quiet.
Context `{HA : Alloy} `{HT : !HashText} `{HK : Keccak} `{HC : Curve} `{HL : !LocalSigner}
  `{HS : SolCalls} `{TC : TokenCalls} `{LC : LowerCase} `{W : TargetWidth}.
Variable tip_window_of : Value → option TipWindow.
Variables (config : CfConfig) (policy : ExecutionPolicy) (chain_id lane_index : Z) (treasury_token : string).

Lemma quiet_delayed_index : quiet delayed_index.
Proof. unfold delayed_index. quiet. Qed.
#[local] Hint Resolve quiet_delayed_index : quiet.
Lemma quiet_schedule : quiet schedule_lane_alarm.
Proof. unfold schedule_lane_alarm. quiet. Qed.
#[local] Hint Resolve quiet_schedule : quiet.
Lemma quiet_arm within_ms : quiet (arm_reconcile within_ms).
Proof. unfold arm_reconcile. quiet. Qed.
Lemma quiet_remember hash : quiet (remember_broadcast hash).
Proof. unfold remember_broadcast. quiet. Qed.
Lemma quiet_forget hash : quiet (forget_broadcast hash).
Proof. unfold forget_broadcast. quiet. Qed.
Lemma quiet_seen hash : quiet (broadcast_seen hash).
Proof. unfold broadcast_seen. quiet. Qed.
Lemma quiet_remove hash : quiet (remove_delayed_entry hash).
Proof. unfold remove_delayed_entry. quiet. Qed.
#[local] Hint Resolve quiet_arm quiet_remember quiet_forget quiet_seen quiet_remove : quiet.
Lemma quiet_known c hash : quiet (transaction_is_known c hash).
Proof. unfold transaction_is_known. quiet. Qed.
Lemma quiet_stale i : quiet (bundle_nonce_is_stale config i).
Proof. unfold bundle_nonce_is_stale. quiet. Qed.
Lemma quiet_load_records c hashes message : quiet (load_records c hashes message).
Proof. unfold load_records. quiet. Qed.
Lemma quiet_submit c i : quiet (submit_bundle_members c i).
Proof. unfold submit_bundle_members. quiet. Qed.
Lemma quiet_patch c patch members : quiet (patch_members c patch members).
Proof. unfold patch_members. quiet. Qed.
Lemma quiet_defer batch index : quiet (defer_operation batch index).
Proof. unfold defer_operation. quiet. Qed.
Lemma quiet_dead_letter batch index reason : quiet (dead_letter batch index reason).
Proof. unfold dead_letter. quiet. Qed.
Lemma quiet_collect now retention : quiet (collect_due now retention).
Proof. unfold collect_due. quiet. Qed.
Lemma quiet_settle hash entry resolution : quiet (settle_redriven hash entry resolution).
Proof. unfold settle_redriven. quiet. Qed.
#[local] Hint Resolve quiet_known quiet_stale quiet_load_records quiet_submit quiet_patch quiet_defer
  quiet_dead_letter quiet_collect quiet_settle : quiet.

(** *** Simulation *)

Lemma quiet_v1_individually c e r b ops : quiet (simulate_v1_individually c e r b ops).
Proof. unfold simulate_v1_individually. quiet. Qed.
Lemma quiet_contracts c b : quiet (pimlico_contracts c b).
Proof. unfold pimlico_contracts. quiet. Qed.
Lemma quiet_pimlico c e op hash contracts : quiet (simulate_with_pimlico c e op hash contracts).
Proof. unfold simulate_with_pimlico. quiet. Qed.
#[local] Hint Resolve quiet_v1_individually quiet_contracts quiet_pimlico : quiet.
Lemma quiet_pimlico_tier c e ops contracts indexes verdicts : quiet (pimlico_tier c e ops contracts indexes verdicts).
Proof. unfold pimlico_tier. quiet. Qed.
Lemma quiet_trace_tier c e r b ops indexes verdicts : quiet (trace_tier c e r b ops indexes verdicts).
Proof. unfold trace_tier. quiet. Qed.
#[local] Hint Resolve quiet_pimlico_tier quiet_trace_tier : quiet.
Lemma quiet_without_v1 c e r b ops verdicts : quiet (simulate_individually_without_v1 c e r b ops verdicts).
Proof. unfold simulate_individually_without_v1. quiet. Qed.
#[local] Hint Resolve quiet_without_v1 : quiet.
Lemma quiet_individually c e r b ops : quiet (simulate_individually c e r b ops).
Proof. unfold simulate_individually. quiet. Qed.
Lemma quiet_v1_bundle c e r calldata hashes : quiet (simulate_v1_bundle c e r calldata hashes).
Proof. unfold simulate_v1_bundle. quiet. Qed.
Lemma quiet_eth_call c e r calldata hashes : quiet (simulate_bundle_with_eth_call c e r calldata hashes).
Proof. unfold simulate_bundle_with_eth_call. quiet. Qed.
#[local] Hint Resolve quiet_v1_bundle quiet_eth_call : quiet.
Lemma quiet_bundle_without c e r b calldata hashes : quiet (simulate_bundle_without_v1 c e r b calldata hashes).
Proof. unfold simulate_bundle_without_v1. quiet. Qed.
#[local] Hint Resolve quiet_bundle_without : quiet.
Lemma quiet_bundle_or_last c e r b calldata hashes turn : quiet (bundle_or_last c e r b calldata hashes turn).
Proof. unfold bundle_or_last. quiet. Qed.
#[local] Hint Resolve quiet_bundle_or_last : quiet.
Lemma quiet_bundle c e r b ops : quiet (simulate_bundle c e r b ops).
Proof. unfold simulate_bundle. quiet. Qed.
End Quiet.
#[export] Hint Resolve quiet_delayed_index quiet_schedule quiet_arm quiet_remember quiet_forget quiet_seen
  quiet_remove quiet_known quiet_stale quiet_load_records quiet_submit quiet_patch quiet_defer
  quiet_dead_letter quiet_collect quiet_settle quiet_individually quiet_bundle : quiet.

(** ** The programs that may drop the bundle *)

Section Guarded.
Context `{HA : Alloy} `{HT : !HashText} `{HK : Keccak} `{HC : Curve}.
Variable config : CfConfig.

Abbreviation guarded := (ensures (permits config) observe).
Abbreviation released := (released config).

(** The answer does not matter: only facts were added. *)
Definition adds {B} (g : Ghost) : Ghost → B → Prop := λ g' _, facts g ⊆ facts g'.

Lemma quiet_adds {A} (p : lane A) g : quiet p → guarded p g (adds g).
Proof. intros Hq. by apply quiet_guarded. Qed.

Lemma guarded_then {A B} (m : lane A) (f : A → lane B) g :
  guarded m g (adds g) → (∀ g' a, facts g ⊆ facts g' → guarded (f a) g' (adds g')) →
  guarded (m ≫= f) g (adds g).
Proof.
  intros Hm Hf. apply ensures_bind. eapply ensures_mono; [exact Hm|]. intros g' a Hg.
  eapply ensures_mono; [by apply Hf|]. unfold adds. intros. by etransitivity.
Qed.

Lemma guarded_then_try {X A B} (m : lane (result X A)) (f : A → lane (result X B)) g :
  guarded m g (adds g) → (∀ g' a, facts g ⊆ facts g' → guarded (f a) g' (adds g')) →
  guarded (io_try f m) g (adds g).
Proof.
  intros Hm Hf. apply guarded_then; [done|]. intros g' [a|e] Hg; [by apply Hf|]. exact (reflexivity _).
Qed.

Lemma guarded_pure {A} (a : A) g : guarded (mret a) g (adds g).
Proof. exact (reflexivity _). Qed.

Lemma clear_intent_guarded g i :
  Held i ∈ facts g → released (facts g) i →
  guarded (clear_intent_if_matches (bi_transaction_hash i)) g (adds g).
Proof.
  intros Hi Hr. unfold clear_intent_if_matches. apply ensures_bind, ensures_perform. split; [done|].
  intros stored. pose proof (observe_facts g _ GetIntent stored) as Hg.
  destruct stored as [stored|]; [|exact Hg].
  destruct (eq_ignore_ascii_case _ _) eqn:E; [|exact Hg].
  apply ensures_bind, ensures_perform. split; [|intros deleted; exact Hg].
  exists stored, i. split; [done|]. split; [done|]. split; [by apply Hg|by eapply released_mono].
Qed.

Lemma clear_stale_guarded g i :
  Held i ∈ facts g → released (facts g) i → guarded (clear_stale_bundle_intent i) g (adds g).
Proof.
  intros Hi Hr. unfold clear_stale_bundle_intent. apply guarded_then; [by apply clear_intent_guarded|].
  intros g' [[|]|e] Hg; [|apply guarded_pure..]. apply quiet_adds. quiet.
Qed.

Lemma known_guarded c hash g Q :
  (∀ g' known, facts g ⊆ facts g' → (known = false → unknown_to (facts g') hash) → Q g' known) →
  guarded (transaction_is_known c hash) g Q.
Proof.
  intros HQ. unfold transaction_is_known. apply ensures_bind, ensures_perform. split; [done|]. intros answer.
  apply HQ; [exact (observe_facts _ _ _ _)|]. intros Hk. exists c, answer. split; [by left|].
  intros v ->. exact Hk.
Qed.

Lemma stale_guarded i g Q :
  (∀ g' stale, facts g ⊆ facts g' → (stale = true → nonce_spent config (facts g') i) → Q g' stale) →
  guarded (bundle_nonce_is_stale config i) g Q.
Proof.
  intros HQ. unfold bundle_nonce_is_stale. destruct (relayer_address_for_lane _ _) as [relayer|] eqn:Er; [|by apply HQ].
  apply ensures_bind, ensures_perform. split; [done|]. intros answer.
  apply HQ; [exact (observe_facts _ _ _ _)|].
  destruct (latest_nonce answer) as [latest|] eqn:El; [|done]. intros Hs%bool_decide_eq_true.
  exists relayer, answer, latest. split; [done|]. split; [by left|done].
Qed.

Lemma unproven_guarded i reason g :
  Held i ∈ facts g → guarded (unproven_intent config i reason) g (adds g).
Proof.
  intros Hi. unfold unproven_intent. apply guarded_then; [apply quiet_adds; quiet|]. intros g1 _ H1.
  apply ensures_bind, known_guarded. intros g2 [|] H2 Hu.
  { eapply ensures_mono; [apply quiet_adds; quiet|]. unfold adds. intros. by etransitivity. }
  destruct (nonce_too_low reason); [|exact H2].
  apply ensures_bind, stale_guarded. intros g3 [|] H3 Hs; [|exact (transitivity H2 H3)].
  eapply ensures_mono; [apply guarded_then_try; [apply clear_stale_guarded|intros; apply guarded_pure]|].
  - by apply H3, H2, H1.
  - right. left. split; [|by apply Hs]. destruct (Hu eq_refl) as (c & answer & Hin & Hv). exists c, answer. auto.
  - unfold adds. intros. etransitivity; [exact H2|]. by etransitivity.
Qed.

Lemma broadcast_guarded i g : Held i ∈ facts g → guarded (broadcast_bundle_intent config i) g (adds g).
Proof.
  intros Hi. unfold broadcast_bundle_intent. destruct (validate_raw_transaction _ _) as [raw|e] eqn:Hv; [|apply guarded_pure].
  apply guarded_then; [apply quiet_adds; quiet|]. intros g1 [|] H1; [apply guarded_pure|].
  apply ensures_bind, ensures_perform. split; [left; exists i; auto|].
  intros outcome. change (adds g1) with (adds (B := result string BundleBroadcastDisposition) (learn g1 [])).
  change (observe _ _ _ _) with (learn g1 []).
  destruct outcome as [[hash|reason|reason]|e]; [|by apply unproven_guarded, H1..|]; apply quiet_adds; quiet.
Qed.

Lemma load_records_guarded c hashes message g :
  guarded (load_records c hashes message) g (λ g' r, facts g ⊆ facts g' ∧
    ∀ records, r = Ok records → Forall2 (λ hash record, RecordShown c hash record ∈ facts g') hashes records).
Proof.
  unfold load_records.
  apply ensures_each with (J := λ items g1 records, facts g ⊆ facts g1 ∧
    ∃ seen, hashes = seen ++ items ∧ Forall2 (λ hash record, RecordShown c hash record ∈ facts g1) seen records).
  - split; [done|]. by exists [].
  - intros hash items g1 records [H1 (seen & Eh & Hs)]. apply ensures_bind, ensures_perform. split; [done|].
    intros reply.
    assert (facts g ⊆ facts (observe g1 _ (RecordCall c hash RecordDo.Get) reply)) as H2
      by (etransitivity; [exact H1|apply (observe_facts g1)]).
    destruct reply as [[]|]; cbn [ensures mret io_mret]; try (split; [exact H2|done]).
    split; [exact H2|]. exists (seen ++ [hash]). split; [by rewrite Eh, <-app_assoc|].
    apply Forall2_app; [|constructor; [by left|constructor]].
    eapply Forall2_impl; [exact Hs|]. intros. by right.
  - intros g1 records [H1 (seen & Eh & Hs)]. rewrite app_nil_r in Eh. subst. split; [done|]. by intros r [= <-].
Qed.

Lemma audit_guarded i g (Q : Ghost → result string BundleReplayAudit → Prop) :
  (∀ g' r, facts g ⊆ facts g' →
     (∀ audit, r = Ok audit → active audit = 0%nat → terminal audit ≠ 0%nat → released (facts g') i) → Q g' r) →
  guarded (audit_bundle_intent i) g Q.
Proof.
  intros HQ. unfold audit_bundle_intent. apply ensures_try. eapply ensures_mono; [apply load_records_guarded|].
  intros g' [records|e] [Hg Hr]; [|by apply HQ]. apply HQ; [done|].
  intros audit Ha H0 Ht. left. exists records, audit. auto.
Qed.

Lemma clear_obsolete_guarded i audit g :
  Held i ∈ facts g → (terminal audit ≠ 0%nat → released (facts g) i) →
  guarded (clear_obsolete_bundle_intent i audit) g (adds g).
Proof.
  intros Hi Hr. unfold clear_obsolete_bundle_intent. case_decide as Hd; [apply guarded_pure|].
  apply guarded_then; [apply clear_intent_guarded; auto|]. intros g1 [r|e] _; [|apply guarded_pure].
  apply quiet_adds. quiet.
Qed.

Lemma resume_guarded i g : Held i ∈ facts g → guarded (resume_bundle_intent config i) g (adds g).
Proof.
  intros Hi. unfold resume_bundle_intent. apply ensures_try, audit_guarded. intros g1 [audit|e] H1 Ha; [|done].
  eapply ensures_mono with (Q := adds g1); [|unfold adds; intros; by etransitivity].
  case_decide as Hd.
  { apply guarded_then_try; [|intros; apply guarded_pure]. apply clear_obsolete_guarded; [by apply H1|]. intros _.
    destruct Hd. by eapply Ha. }
  apply guarded_then_try; [by apply broadcast_guarded, H1|]. intros g2 [|] H2; [|apply guarded_pure].
  case_decide as Hd1; [apply guarded_pure|].
  apply guarded_then_try; [apply quiet_adds; quiet|]. intros g3 indexed H3. case_decide as Hd2; [apply guarded_pure|].
  apply ensures_try, audit_guarded. intros g4 [after|e] H4 Hb; [|done].
  eapply ensures_mono with (Q := adds g4); [|unfold adds; intros; by etransitivity].
  case_decide; [|case_decide; apply guarded_pure]. case_decide; [|apply guarded_pure].
  apply guarded_then_try; [|intros; apply guarded_pure].
  apply clear_obsolete_guarded; [by apply H4, H3, H2, H1|]. intros Ht. by eapply Hb.
Qed.

Lemma check_receipt_guarded i g : Held i ∈ facts g → guarded (check_bundle_receipt i) g (adds g).
Proof.
  intros Hi. unfold check_bundle_receipt. apply ensures_bind, ensures_perform. split; [done|]. intros answer.
  set (g1 := observe _ _ _ _). assert (facts g ⊆ facts g1) as H1 by apply (observe_facts g).
  eapply ensures_mono with (Q := adds g1); [|unfold adds; intros; by etransitivity].
  apply H1 in Hi.
  assert (∀ receipt b, answer = Ok receipt → receipt_succeeded receipt = Some b → released (facts g1) i) as Hm.
  { intros receipt b -> Hb. right. right. exists receipt, b. split; [by left|done]. }
  clearbody g1. destruct answer as [receipt|e]; [|apply guarded_pure].
  destruct receipt as [|b|n|s|l|o] eqn:Er; [apply guarded_pure|..]; rewrite <-Er in *; clear Er;
  (apply guarded_then; [apply quiet_adds; quiet|]; intros g2 members H2;
   destruct (receipt_succeeded receipt) as [succeeded|] eqn:Es;
     [|exact (reflexivity _)];
   apply guarded_then; [apply quiet_adds; quiet|]; intros g3 [[]|e] H3; [|apply guarded_pure];
   apply guarded_then;
     [apply clear_intent_guarded; [by apply H3, H2|eapply released_mono; [|by eapply Hm]; by etransitivity]|];
   intros g4 r H4; apply quiet_adds; quiet).
Qed.
End Guarded.

(** ** The arms *)

Section Arms.
Context `{HA : Alloy} `{HT : !HashText} `{HK : Keccak} `{HC : Curve} `{HL : !LocalSigner}
  `{HS : SolCalls} `{TC : TokenCalls} `{LC : LowerCase} `{W : TargetWidth}.
Variable tip_window_of : Value → option TipWindow.
Variables (config : CfConfig) (policy : ExecutionPolicy) (chain_id lane_index : Z) (treasury_token : string).

Abbreviation guarded := (ensures (permits config) observe).

Lemma quiet_assets symbol : quiet (load_chain_assets config chain_id symbol).
Proof. unfold load_chain_assets. quiet. Qed.
Lemma quiet_fetch_price symbol now : quiet (fetch_price symbol now).
Proof. unfold fetch_price. quiet. Qed.
#[local] Hint Resolve quiet_fetch_price : quiet.
Lemma quiet_market symbol : quiet (market_usd_price symbol).
Proof. unfold market_usd_price. quiet. Qed.
Lemma quiet_supported : quiet (chain_supported config chain_id).
Proof. unfold chain_supported. quiet. Qed.
Lemma quiet_ask_treasury renew command : quiet (ask_treasury chain_id renew command).
Proof. unfold ask_treasury. quiet. Qed.
Lemma quiet_token prefix number : quiet (unique_token chain_id prefix number).
Proof. unfold unique_token. quiet. Qed.
#[local] Hint Resolve quiet_assets quiet_market quiet_supported quiet_ask_treasury quiet_token : quiet.
Lemma quiet_with_treasury renew command read : quiet (with_treasury chain_id renew command read).
Proof. unfold with_treasury. quiet. Qed.
Lemma quiet_notify stage hash reason : quiet (notify_executor_issue config chain_id stage hash reason).
Proof. unfold notify_executor_issue. quiet. Qed.
Lemma quiet_mark_rejected hash stage reason code : quiet (mark_rejected chain_id hash stage reason code).
Proof. unfold mark_rejected, record. quiet. Qed.
Lemma quiet_nonces entry_point probes : quiet (fetch_account_nonces chain_id entry_point probes).
Proof. unfold fetch_account_nonces. quiet. Qed.
Lemma quiet_batch_or_text calls : quiet (batch_or_text chain_id calls).
Proof. unfold batch_or_text. quiet. Qed.
#[local] Hint Resolve quiet_with_treasury quiet_notify quiet_mark_rejected quiet_nonces quiet_batch_or_text : quiet.
Lemma quiet_context entry_point calldata : quiet (transaction_context tip_window_of policy chain_id entry_point calldata).
Proof. unfold transaction_context, legacy_gas_price. quiet. Qed.
Lemma quiet_treasury_context : quiet (treasury_context policy chain_id).
Proof. unfold treasury_context. quiet. Qed.
Lemma quiet_tempo_context : quiet (tempo_transaction_context policy chain_id).
Proof. unfold tempo_transaction_context. quiet. Qed.
Lemma quiet_tempo_treasury amount : quiet (tempo_treasury_context policy chain_id amount).
Proof. unfold tempo_treasury_context. quiet. Qed.
#[local] Hint Resolve quiet_context quiet_treasury_context quiet_tempo_context quiet_tempo_treasury : quiet.

(** What an answer of an arm says of the facts. *)
Definition learnt (F : list Fact) (op : ExecutionOperation) (r : ExecutionOutcome) : Prop :=
  match op, r with
  | ProbeTransactionKnown hash, Known false => unknown_to F hash
  | ProbeStaleNonce i, Stale true => nonce_spent config F i
  | LoadPreparedBundle, OutIntent (Some i) | SavePreparedBundle i, Saved true => Held i ∈ F
  | LoadPreparedFunding, FundingIntent (Some i) | SaveFundingIntent i, Saved true => FundingHeld i ∈ F
  | _, _ => True
  end.

Definition evidence (op : ExecutionOperation) : bool :=
  match op with
  | ProbeTransactionKnown _ | ProbeStaleNonce _ | LoadPreparedBundle | SavePreparedBundle _
  | LoadPreparedFunding | SaveFundingIntent _ => true
  | _ => false
  end.

Definition probed (h : ExecutionTrace) (g : Ghost) : Prop :=
  ∀ op r, (op, r) ∈ h → learnt (facts g) op r.

Lemma learnt_mono F F' op r : F ⊆ F' → learnt F op r → learnt F' op r.
Proof.
  intros HF. destruct op; try done; destruct r; cbn [learnt]; try done; try case_match; try done; try apply HF.
  - intros (c & answer & ? & ?). exists c, answer. auto.
  - intros (relayer & answer & latest & ? & ? & ?). exists relayer, answer, latest. auto.
Qed.

Lemma probed_snoc h g g' op r :
  facts g ⊆ facts g' → probed h g → learnt (facts g') op r → probed (h ++ [(op, r)]) g'.
Proof.
  intros HF Hp Hl op' r' [Hin|Hin]%elem_of_app.
  - eapply learnt_mono; [exact HF|by apply Hp].
  - by apply list_elem_of_singleton in Hin as [= -> ->].
Qed.

(** An arm whose answers tell nothing only has to add facts. *)
Lemma arm_adds {L} h g op (m : lane (L * ExecutionOutcome)) :
  evidence op = false → probed h g → guarded m g (adds g) →
  guarded m g (λ g' lr, probed (h ++ [(op, lr.2)]) g').
Proof.
  intros Hop Hp Hm. eapply ensures_mono; [exact Hm|]. intros g' lr Hg.
  apply probed_snoc with g; [done..|]. by destruct op.
Qed.

(** An arm that only reports has to learn what its answer says. *)
Lemma arm_learns {L} h g op (l : L) (m : lane ExecutionOutcome) :
  probed h g → guarded m g (λ g' r, facts g ⊆ facts g' ∧ learnt (facts g') op r) →
  guarded (outcome ← m; mret (l, outcome)) g (λ g' lr, probed (h ++ [(op, lr.2)]) g').
Proof.
  intros Hp Hm. apply ensures_bind. eapply ensures_mono; [exact Hm|]. intros g' r [Hg Hl].
  by apply probed_snoc with g.
Qed.

Lemma save_learns intent g :
  guarded (save_prepared_bundle config intent) g
    (λ g' r, facts g ⊆ facts g' ∧ learnt (facts g') (SavePreparedBundle intent) r).
Proof.
  unfold save_prepared_bundle. apply ensures_bind, ensures_perform. split; [done|].
  intros [stored|]; [split; [exact (observe_facts g _ GetIntent (Some stored))|done]|].
  apply ensures_bind, ensures_perform. split; [done|]. intros [|]; [|done].
  apply ensures_bind. eapply ensures_mono; [apply (quiet_adds config); quiet|]. intros g' [] Hg.
  split; [intros x Hx; apply Hg; by right|apply Hg; by left].
Qed.

Lemma load_learns g :
  guarded (intent ← perform GetIntent; mret (OutIntent intent)) g
    (λ g' r, facts g ⊆ facts g' ∧ learnt (facts g') LoadPreparedBundle r).
Proof.
  apply ensures_bind, ensures_perform. split; [done|]. intros stored.
  split; [exact (observe_facts g _ GetIntent stored)|]. destruct stored; [by left|done].
Qed.

Lemma known_learns c hash g :
  guarded (known ← transaction_is_known c hash; mret (Known known)) g
    (λ g' r, facts g ⊆ facts g' ∧ learnt (facts g') (ProbeTransactionKnown hash) r).
Proof. apply ensures_bind, known_guarded. intros g' [|] Hg Hu; (split; [done|]); [done|by apply Hu]. Qed.

Lemma stale_learns i g :
  guarded (stale ← bundle_nonce_is_stale config i; mret (Stale stale)) g
    (λ g' r, facts g ⊆ facts g' ∧ learnt (facts g') (ProbeStaleNonce i) r).
Proof. apply ensures_bind, stale_guarded. intros g' [|] Hg Hs; (split; [done|]); [by apply Hs|done]. Qed.

(** The treasury's answer to a save or a load is a fact. *)
Lemma treasury_learns renew command read op g :
  (∀ reply outcome, read reply = Some outcome →
     learnt (facts (observe g _ (TreasuryCall chain_id {| TreasuryDo.renew := renew; TreasuryDo.command := command |})
                      (Ok reply))) op outcome) →
  (∀ F, learnt F op TREASURY_UNAVAILABLE) →
  guarded (with_treasury chain_id renew command read) g (λ g' r, facts g ⊆ facts g' ∧ learnt (facts g') op r).
Proof.
  intros Hread Hnone. unfold with_treasury, ask_treasury. apply ensures_bind, ensures_perform. split; [done|].
  intros reply. split; [exact (observe_facts g _ (TreasuryCall chain_id _) reply)|].
  destruct reply as [reply|]; [|apply Hnone]. cbn [ok mbind option_bind].
  destruct (read reply) as [outcome|] eqn:E; [by apply Hread|apply Hnone].
Qed.

Lemma resume_prepared_guarded i g : Held i ∈ facts g → guarded (resume_prepared config i) g (adds g).
Proof.
  intros Hi. unfold resume_prepared. apply guarded_then; [by apply resume_guarded|]. intros. apply guarded_pure.
Qed.

Lemma broadcast_raw_guarded raw g : outboxed (facts g) raw → guarded (broadcast_raw chain_id raw) g (adds g).
Proof.
  intros Ho. unfold broadcast_raw. apply ensures_bind, ensures_perform. split; [done|].
  intros outcome. exact (observe_facts g _ (RpcBroadcast chain_id raw) outcome).
Qed.

Lemma stored_outboxed h g raw hash : probed h g → stored h raw hash → outboxed (facts g) raw.
Proof.
  intros Hp (text & Hv & [(i & Hi & <- & <-)|(i & Hi & <- & <-)]).
  - left. exists i. split; [exact (Hp _ _ Hi)|done].
  - right. exists i. split; [|done]. destruct Hi as [Hi|Hi]; exact (Hp _ _ Hi).
Qed.

Lemma clear_stale_arm_guarded i g :
  Held i ∈ facts g → released config (facts g) i → guarded (clear_stale i) g (adds g).
Proof.
  intros Hi Hr. unfold clear_stale. apply guarded_then; [by apply clear_stale_guarded|]. intros. apply guarded_pure.
Qed.

Lemma mark_submitted_guarded i g : guarded (mark_bundle_submitted config chain_id i) g (adds g).
Proof. apply quiet_adds. unfold mark_bundle_submitted. quiet. Qed.

(** Every arm keeps the guard when the core keeps its rule for it. *)
Lemma execute_guarded batch symbol Pay h g op :
  probed h g → allowed Pay h op →
  guarded (execute tip_window_of config policy chain_id lane_index treasury_token batch symbol op) g
    (λ g' lr, probed (h ++ [(op, lr.2)]) g').
Proof.
  intros Hp [_ Hrule]. destruct op; cbn [execute];
    try solve [apply arm_learns; [done|];
      first [apply known_learns | apply stale_learns | apply load_learns | apply save_learns]];
    try (apply arm_adds; [done|done|]; try (apply guarded_then; [|intros; apply guarded_pure]));
    try solve [apply mark_submitted_guarded].
  all: try solve [apply quiet_adds; unfold mark_admitted, restore_queued, reload_record, note_deferred, record,
    broadcast_raw, fetch_receipt; quiet].
  - apply resume_prepared_guarded, (Hp _ _ Hrule).
  - apply arm_learns; [done|]. apply treasury_learns; [|done]. intros [] outcome; try discriminate.
    intros [= <-]. destruct intent; [by left|done].
  - apply arm_learns; [done|]. apply treasury_learns; [|done]. intros [] outcome; try discriminate.
    intros [= <-]. destruct saved; [by left|done].
  - apply broadcast_raw_guarded. by eapply stored_outboxed.
  - destruct Hrule as (Hs & Hk & Hn). apply clear_stale_arm_guarded; [exact (Hp _ _ Hs)|]. right. left.
    split; [exact (Hp _ _ Hk)|exact (Hp _ _ Hn)].
Qed.
End Arms.

(** ** The entry points *)

Section Entry.
Context `{HA : Alloy} `{HT : !HashText} `{HK : Keccak} `{HC : Curve} `{HL : !LocalSigner}
  `{HS : SolCalls} `{TC : TokenCalls} `{LC : LowerCase} `{W : TargetWidth}.
Variable tip_window_of : Value → option TipWindow.
Variable config : CfConfig.

Abbreviation guarded := (ensures (permits config) observe).

Lemma execute_batch_guarded operations g :
  guarded (execute_batch tip_window_of (Ok config) operations) g (λ _ _, True).
Proof.
  destruct operations as [|first operations]; [done|]. unfold execute_batch. cbv zeta.
  destruct (execution_policy _ _ _) as [policy|e]; [|done].
  apply ensures_bind. eapply ensures_mono; [apply (quiet_adds config), quiet_token|]. intros g1 token _.
  eapply ensures_mono; [|by intros].
  eapply ensures_drive with (Rel := probed config) (h := []); [apply drive_safe| |].
  - intros op r Hin. by apply elem_of_nil in Hin.
  - intros l h g' op Hp Ha. by eapply execute_guarded.
Qed.

(** The batch's resolutions are all that a re-drive needs of it. *)
Lemma redrive_guarded now g :
  guarded (redrive_due_delayed (Ok config) (execute_batch tip_window_of (Ok config)) now) g (λ _ _, True).
Proof.
  unfold redrive_due_delayed. cbv zeta. apply ensures_bind.
  eapply ensures_mono; [apply (quiet_adds config), quiet_collect|]. intros g1 due _.
  case_decide; [done|]. apply ensures_bind. eapply ensures_mono; [apply execute_batch_guarded|].
  intros g2 [resolutions|] _; [|done]. eapply ensures_mono; [|by intros]. apply (quiet_adds config). quiet.
Qed.

Lemma reconcile_guarded g : guarded (reconcile_intent (Ok config)) g (λ _ _, True).
Proof.
  unfold reconcile_intent. apply ensures_bind, ensures_perform. split; [done|]. intros [i|]; [|done].
  pose proof (observe_read g i) as Hi. set (g0 := observe g _ GetIntent (Some i)) in *. clearbody g0.
  destruct (execution_policy _ _ _); [|done].
  eapply ensures_mono; [|by intros]. apply guarded_then; [apply quiet_adds, quiet_token|]. intros g1 token H1.
  apply guarded_then; [by apply resume_guarded, H1|]. intros g2 disposition H3.
  apply guarded_then; [|intros; apply quiet_adds; quiet].
  destruct disposition as [[]|]; try apply guarded_pure.
  apply ensures_bind, ensures_perform. split; [done|]. intros still.
  pose proof (observe_facts g2 _ GetIntent still) as H2. destruct still as [j|]; [|exact H2].
  eapply ensures_mono; [by apply check_receipt_guarded, H2, H3, H1|]. unfold adds. intros. by etransitivity.
Qed.

Lemma alarm_guarded g : guarded (alarm tip_window_of (Ok config)) g (λ _ _, True).
Proof.
  unfold alarm. apply ensures_bind, ensures_perform. split; [done|]. intros now.
  apply ensures_bind, ensures_perform. split; [done|]. intros due.
  set (g1 := observe _ _ _ _). clearbody g1.
  apply ensures_bind. apply ensures_mono with (Q := λ _ _, True).
  - destruct due; [|done]. case_decide; [apply reconcile_guarded|done].
  - intros g2 _ _. apply ensures_bind. eapply ensures_mono; [apply redrive_guarded|]. intros g3 [[]|] _; [|done].
    apply ensures_bind. eapply ensures_mono; [apply (quiet_adds config), quiet_schedule|done].
Qed.
End Entry.
