(* ===== verification/LaneRace.v ===== *)
(** * LaneRace: the programs of one lane, interleaved

    The lane object serves a batch or an alarm while earlier ones still wait
    for the network: any number of its programs run at once over one slot.
    The platform's input gate is what orders them: while one of them waits for
    the object's storage, nothing else is delivered.  Here only the slot's own
    requests hold the gate, so there are more interleavings than the platform
    has; every other answer is arbitrary, a read of the slot may fail and then
    looks empty, a write may fail, and the object may be evicted at any time
    with its programs. *)

From S2P Require Import Signing.
From S2P Require Export LaneSafety.
From S2P Require RecordDo TreasuryDo.
#[local] Open Scope string_scope.
#[local] Open Scope list_scope.
#[local] Open Scope Z_scope.

(** [misled]: its last request was a read of the slot that failed. *)
Record Thread : Type := { ghost : Ghost; misled : bool; rest : lane () }.

Record Lane : Type := {
  slot : option PreparedBundleIntent;
  once_stored : list PreparedBundleIntent;   (* every bundle the slot has held *)
  threads : nat → option Thread }.

(** The program's next request is one of the slot's. *)
Definition at_slot (p : lane ()) : bool :=
  match p with
  | Vis GetIntent _ | Vis (PutIntent _) _ | Vis DeleteIntent _ => true
  | _ => false
  end.

Definition put (k : nat) (th : Thread) (threads : nat → option Thread) : nat → option Thread :=
  λ k', if decide (k' = k) then Some th else threads k'.

(** No program other than the [k]-th waits for the slot. *)
Definition gate_open (threads : nat → option Thread) (k : nat) : Prop :=
  ∀ k' th, threads k' = Some th → k' ≠ k → at_slot (rest th) = false.

(** A read of the slot tells what it holds, or fails and says nothing is there
    ([.ok().flatten()]); a write happens or fails. *)
Definition slot_says (s : option PreparedBundleIntent) {R} (e : LaneCall R) : R → Prop :=
  match e in LaneCall R return R → Prop with
  | GetIntent => λ r, r = s ∨ r = None
  | _ => λ _, True
  end.
Definition misleads (s : option PreparedBundleIntent) {R} (e : LaneCall R) : R → bool :=
  match e in LaneCall R return R → bool with
  | GetIntent => λ r, match s, r with Some _, None => true | _, _ => false end
  | _ => λ _, false
  end.
Definition slot_after (s : option PreparedBundleIntent) {R} (e : LaneCall R) : R → option PreparedBundleIntent :=
  match e in LaneCall R return R → option PreparedBundleIntent with
  | PutIntent i => λ put, if put : bool then Some i else s
  | DeleteIntent => λ deleted, if deleted : bool then None else s
  | _ => λ _, s
  end.
Definition newly_stored {R} (e : LaneCall R) : R → list PreparedBundleIntent :=
  match e in LaneCall R return R → list PreparedBundleIntent with
  | PutIntent i => λ put, if put : bool then [i] else []
  | _ => λ _, []
  end.

Section Race.
Context `{HA : Alloy} `{HT : !HashText} `{HK : Keccak} `{HC : Curve} `{HL : !LocalSigner}
  `{HS : SolCalls} `{TC : TokenCalls} `{LC : LowerCase} `{W : TargetWidth}.
Variable tip_window_of : Value → option TipWindow.
Variable config : CfConfig.

(** What the platform delivers. *)
Inductive delivered : lane () → Prop :=
  | delivered_batch operations :
      delivered (_ ← lane_fetch tip_window_of (Ok config) operations; mret tt)
  | delivered_alarm : delivered (_ ← alarm tip_window_of (Ok config); mret tt).

Definition started (p : lane ()) : Thread := {| ghost := ghost0; misled := false; rest := p |}.

Inductive lane_step : Lane → Lane → Prop :=
  | step_deliver s k p :
      delivered p → threads s k = None → gate_open (threads s) k →
      lane_step s {| slot := slot s; once_stored := once_stored s; threads := put k (started p) (threads s) |}
  | step_answer s k g m R (e : LaneCall R) c r :
      threads s k = Some {| ghost := g; misled := m; rest := Vis e c |} → gate_open (threads s) k →
      slot_says (slot s) e r →
      lane_step s {| slot := slot_after (slot s) e r; once_stored := newly_stored e r ++ once_stored s;
                     threads := put k {| ghost := observe g R e r; misled := misleads (slot s) e r; rest := c r |}
                                  (threads s) |}
  | step_evict s : lane_step s {| slot := slot s; once_stored := once_stored s; threads := λ _, None |}.

(** The object as it wakes up with what its storage holds. *)
Definition woken (stored : option PreparedBundleIntent) : Lane :=
  {| slot := stored; once_stored := option_list stored; threads := λ _, None |}.

Inductive lane_reaches (stored : option PreparedBundleIntent) : Lane → Prop :=
  | reaches_woken : lane_reaches stored (woken stored)
  | reaches_step s s' : lane_reaches stored s → lane_step s s' → lane_reaches stored s'.

(** ** The invariant *)

Record sane (s : Lane) : Prop := {
  sane_guarded k th : threads s k = Some th →
    ensures (permits config) observe (rest th) (ghost th) (λ _ _, True);
  sane_gate k k' th th' : threads s k = Some th → threads s k' = Some th' →
    at_slot (rest th) = true → at_slot (rest th') = true → k = k';
  sane_read k th v : threads s k = Some th → at_slot (rest th) = true →
    last_read (ghost th) = Some v → v = slot s ∨ v = None ∧ misled th = true;
  sane_held k th i : threads s k = Some th → Held i ∈ facts (ghost th) → i ∈ once_stored s;
  sane_slot i : slot s = Some i → i ∈ once_stored s }.

Lemma delivered_guarded p : delivered p → ensures (permits config) observe p ghost0 (λ _ _, True).
Proof.
  intros [operations|]; apply ensures_bind; (eapply ensures_mono; [|by intros]);
    [apply execute_batch_guarded|apply alarm_guarded].
Qed.

Lemma sane_woken stored : sane (woken stored).
Proof. split; try done. cbn. intros i ->. by left. Qed.

(** What a thread holds after an answer was in the slot. *)
Lemma observe_held g s R (e : LaneCall R) r i :
  slot_says s e r → Held i ∈ facts (observe g R e r) →
  Held i ∈ facts g ∨ i ∈ newly_stored e r ∨ s = Some i.
Proof.
  destruct e; cbn; try (intros _ Hin; by left).
  - intros Hr Hin. destruct r as [j|]; [|by left]. destruct Hr as [<-|Hr]; [|done]. cbn in Hin.
    apply elem_of_cons in Hin as [[= ->]|Hin]; [by right; right|by left].
  - intros _ Hin. destruct r; [|by left]. cbn in Hin.
    apply elem_of_cons in Hin as [[= ->]|Hin]; [right; left; by left|by left].
  - intros _ Hin%elem_of_app. destruct Hin as [Hin|]; [|by left]. exfalso. revert Hin.
    repeat case_match; intros Hin; by rewrite ?elem_of_cons, ?elem_of_nil in Hin; naive_solver.
  - intros _ Hin%elem_of_app. destruct Hin as [Hin|]; [|by left]. exfalso. revert Hin.
    repeat case_match; intros Hin; by rewrite ?elem_of_cons, ?elem_of_nil in Hin; naive_solver.
  - intros _ Hin. apply elem_of_cons in Hin as [|]; [done|by left].
Qed.

Lemma slot_after_stored s R (e : LaneCall R) r i :
  slot_after s e r = Some i → s = Some i ∨ i ∈ newly_stored e r.
Proof. destruct e; cbn; auto; destruct r; auto; intros [= ->]; right; by left. Qed.

Lemma put_Some {k th ts k' th'} :
  put k th ts k' = Some th' → k' = k ∧ th' = th ∨ k' ≠ k ∧ ts k' = Some th'.
Proof. unfold put. case_decide; [intros [= <-]; by left|by right]. Qed.

(** Changing one thread behind an open gate. *)
Lemma sane_put s k th s' stored :
  gate_open (threads s) k → sane s →
  ensures (permits config) observe (rest th) (ghost th) (λ _ _, True) →
  (∀ v, at_slot (rest th) = true → last_read (ghost th) = Some v → v = s' ∨ v = None ∧ misled th = true) →
  (∀ i, Held i ∈ facts (ghost th) → i ∈ stored) →
  (∀ i, i ∈ once_stored s → i ∈ stored) → (∀ i, s' = Some i → i ∈ stored) →
  sane {| slot := s'; once_stored := stored; threads := put k th (threads s) |}.
Proof.
  intros Hgate [Hg _ _ Hh Hs] Hth Hread Hheld Hmono Hslot. split; cbn [threads slot once_stored].
  - intros k' th' [[-> ->]|[_ Hk]]%put_Some; [done|by eapply Hg].
  - intros k1 k2 th1 th2 [[-> _]|[Hn1 H1]]%put_Some [[-> _]|[Hn2 H2]]%put_Some Ha1 Ha2; try done;
      first [by rewrite (Hgate _ _ H2) in Ha2|by rewrite (Hgate _ _ H1) in Ha1].
  - intros k' th' v [[-> ->]|[Hn Hk]]%put_Some Ha; [auto|by rewrite (Hgate _ _ Hk) in Ha].
  - intros k' th' i [[-> ->]|[_ Hk]]%put_Some Hin; [auto|]. by eapply Hmono, Hh.
  - done.
Qed.

Lemma sane_step s s' : lane_step s s' → sane s → sane s'.
Proof.
  intros Hstep Hsane. destruct Hstep as [s k p Hp _ Hgate|s k g m R e c r Hk Hgate Hsay|s].
  - apply sane_put; [done|done|by apply delivered_guarded|done| |done|apply Hsane].
    intros i Hin. by apply elem_of_nil in Hin.
  - apply sane_put; [done|done| | | | |].
    + destruct (sane_guarded s Hsane k _ Hk) as [_ Hc]. apply Hc.
    + intros v Ha. destruct e; try done. cbn in Hsay |- *. intros [= <-].
      destruct Hsay as [->| ->]; [by left|]. destruct (slot s); [by right|by left].
    + intros i Hin. apply elem_of_app.
      destruct (observe_held _ _ _ _ _ _ Hsay Hin) as [Hin'|[Hin'|Hin']]; [right|by left|right].
      * by eapply (sane_held s Hsane k _ _ Hk).
      * by apply (sane_slot s Hsane).
    + intros i Hin. apply elem_of_app. by right.
    + intros i [Hi|Hi]%slot_after_stored; apply elem_of_app; [right; by apply (sane_slot s Hsane)|by left].
  - split; try done. apply Hsane.
Qed.

Lemma sane_reaches stored s : lane_reaches stored s → sane s.
Proof. induction 1; [apply sane_woken|by eapply sane_step]. Qed.

(** The step answers the [k]-th program's request. *)
Definition answers_of (s s' : Lane) (k : nat) (th : Thread) {R} (e : LaneCall R) (r : R) : Prop :=
  ∃ g m c, th = {| ghost := g; misled := m; rest := Vis e c |} ∧ threads s k = Some th ∧
    s' = {| slot := slot_after (slot s) e r; once_stored := newly_stored e r ++ once_stored s;
            threads := put k {| ghost := observe g R e r; misled := misleads (slot s) e r; rest := c r |}
                         (threads s) |}.

(** C1: A lane never drops its prepared bundle without evidence.  Over every
    interleaving of batches and alarms on one lane, whatever the network, the
    other objects and the market answer, whichever of the slot's reads and
    writes fail and whenever the object is evicted: a step keeps a stored
    bundle, or is the answer to one of two requests.  A deletion, by a program
    that has just read that very bundle, and that in its own run read or stored
    a bundle the slot has held with that transaction and gathered evidence that
    it is over: its members all settled, or no endpoint knows it and the
    relayer's nonce is past it, or it has a receipt.  Or the write of another
    bundle, by a program whose own read of the slot, the request before, failed:
    the code takes that for an empty slot. *)
Theorem prepared_bundle_is_never_lost stored s s' i :
  lane_reaches stored s → lane_step s s' → slot s = Some i →
  slot s' = Some i ∨
  (∃ k th j, answers_of s s' k th DeleteIntent true ∧ slot s' = None ∧
     last_read (ghost th) = Some (Some i) ∧
     Held j ∈ facts (ghost th) ∧ j ∈ once_stored s ∧ released config (facts (ghost th)) j ∧
     eq_ignore_ascii_case (bi_transaction_hash i) (bi_transaction_hash j) = true) ∨
  (∃ k th i', answers_of s s' k th (PutIntent i') true ∧ slot s' = Some i' ∧
     last_read (ghost th) = Some None ∧ misled th = true).
Proof.
  intros Hsane%sane_reaches Hstep Hi. destruct Hstep as [|s k g m R e c r Hk Hgate Hsay|]; [by left| |by left].
  destruct (sane_guarded s Hsane k _ Hk) as [Hp _]. cbn [rest ghost] in Hp.
  pose proof (λ v, sane_read s Hsane k _ v Hk) as Hread. cbn [slot].
  destruct e; try (by left); cbn in Hp, Hread, r |- *; (destruct r; [right|by left]).
  - right. exists k, {| ghost := g; misled := m; rest := Vis (PutIntent intent) c |}, intent.
    split; [by exists g, m, c|]. split; [done|]. split; [done|].
    destruct (Hread _ eq_refl Hp) as [Hv|[_ Hm]]; [congruence|done].
  - left. destruct Hp as (j & j' & Hl & He & Hheld & Hrel).
    destruct (Hread _ eq_refl Hl) as [Hv|[? _]]; [|done]. rewrite Hi in Hv. injection Hv as ->.
    exists k, {| ghost := g; misled := m; rest := Vis DeleteIntent c |}, j'.
    split; [by exists g, m, c|]. split; [done|]. split; [done|]. split; [done|].
    split; [exact (sane_held s Hsane k _ j' Hk Hheld)|]. by split.
Qed.

(** C6: A lane broadcasts only what is in an outbox.  Over every
    interleaving, the bytes a lane sends to the endpoints are the ones a
    bundle carries that the lane's slot has held, or a top-up the treasury's
    object answered for: nothing is signed and sent without being stored
    first, and the hash stored with it is the one of the bytes. *)
Theorem lane_broadcasts_only_stored stored s k g m chain_id raw c :
  lane_reaches stored s → threads s k = Some {| ghost := g; misled := m; rest := Vis (RpcBroadcast chain_id raw) c |} →
  (∃ i, i ∈ once_stored s ∧
    validate_raw_transaction (bi_raw_transaction i) (bi_transaction_hash i) = Ok raw) ∨
  (∃ i, FundingHeld i ∈ facts g ∧
    validate_raw_transaction (fi_raw_transaction i) (fi_transaction_hash i) = Ok raw).
Proof.
  intros Hsane%sane_reaches Hk. destruct (sane_guarded s Hsane k _ Hk) as [[(i & Hi & Hv)|Hf] _]; [|by right].
  left. exists i. split; [|done]. exact (sane_held s Hsane k _ i Hk Hi).
Qed.
End Race.

(** A read that fails looks like an empty slot, and what the slot held is then
    overwritten: the second way to lose a bundle is the code's. *)
Lemma failed_read_overwrites (config : CfConfig) intent :
  ∃ k k', save_prepared_bundle config intent = Vis GetIntent k ∧ k None = Vis (PutIntent intent) k'.
Proof. by do 2 eexists. Qed.

(** A bundle whose member list was lost — its write is not checked, a failed
    read is empty — settles no operation: its receipt clears the bundle, and
    the members stay submitted. *)
Lemma lost_members_are_left_submitted `{HA : Alloy} `{HT : !HashText} `{HK : Keccak} i receipt :
  receipt_succeeded receipt = Some false →
  ∃ k k', check_bundle_receipt i =
      Vis (RpcCall (bi_chain_id i) "eth_getTransactionReceipt" (VArray [VString (bi_transaction_hash i)])) k ∧
    k (Ok receipt) = Vis (GetMembers (bi_transaction_hash i)) k' ∧
    k' None = (_ ← clear_intent_if_matches (bi_transaction_hash i);
               _ ← forget_broadcast (bi_transaction_hash i);
               _ ← perform (DeleteMembers (bi_transaction_hash i)); mret tt).
Proof.
  intros Hs. do 2 eexists. split; [reflexivity|]. destruct receipt; try discriminate Hs;
    (split; [reflexivity|]); cbn -[receipt_succeeded]; by rewrite Hs.
Qed.

(** ** One alarm over a stored bundle *)

Section Alone.
Variable answer : ∀ R, LaneCall R → R.

(** What the lane's world answers: the slot's reads are the slot's. *)
Definition reply (s : option PreparedBundleIntent) {R} (e : LaneCall R) : R :=
  match e in LaneCall R return R → R with GetIntent => λ _, s | _ => λ r, r end (answer R e).

Lemma reply_says s {R} (e : LaneCall R) : slot_says s e (reply s e).
Proof. destruct e; try done. by left. Qed.

(** The next answer of the only program. *)
Definition turn (s : Lane) : Lane :=
  match threads s 0%nat with
  | Some {| ghost := g; misled := _; rest := Vis e c |} =>
      let r := reply (slot s) e in
      {| slot := slot_after (slot s) e r; once_stored := newly_stored e r ++ once_stored s;
         threads := put 0 {| ghost := observe g _ e r; misled := misleads (slot s) e r; rest := c r |} (threads s) |}
  | _ => s
  end.

Fixpoint turns (n : nat) (s : Lane) : Lane := match n with O => s | S n => turn (turns n s) end.

Definition alone (s : Lane) : Prop := ∀ k, k ≠ 0%nat → threads s k = None.

Lemma alone_open s : alone s → gate_open (threads s) 0.
Proof. intros Ha k th Hk Hn. by rewrite Ha in Hk. Qed.
End Alone.

Section AloneReaches.
Context `{HA : Alloy} `{HT : !HashText} `{HK : Keccak} `{HC : Curve} `{HL : !LocalSigner}
  `{HS : SolCalls} `{TC : TokenCalls} `{LC : LowerCase} `{W : TargetWidth}.
Variable tip_window_of : Value → option TipWindow.
Variable config : CfConfig.
Variable answer : ∀ R, LaneCall R → R.

Abbreviation step := (lane_step tip_window_of config).
Abbreviation reaches := (lane_reaches tip_window_of config).

Lemma turn_step s : alone s → turn answer s = s ∨ step s (turn answer s).
Proof.
  intros Ha. unfold turn. destruct (threads s 0%nat) as [[g m [a|R e c]]|] eqn:E; [by left| |by left].
  right. apply (step_answer _ _ s 0%nat g m R e c); [exact E|by apply alone_open|apply reply_says].
Qed.

Lemma turn_alone s : alone s → alone (turn answer s).
Proof.
  intros Ha k Hk. unfold turn. destruct (threads s 0%nat) as [[g m [a|R e c]]|]; [by apply Ha| |by apply Ha].
  cbn [threads]. unfold put. rewrite decide_False by done. by apply Ha.
Qed.

(** An alarm delivered to the lane as it wakes, and [n] answers. *)
Definition alarmed (stored : option PreparedBundleIntent) (n : nat) : Lane :=
  turns answer n
    {| slot := stored; once_stored := option_list stored;
       threads := put 0 (started (_ ← alarm tip_window_of (Ok config); mret tt)) (λ _, None) |}.

Lemma alarmed_reaches stored n : reaches stored (alarmed stored n) ∧ alone (alarmed stored n).
Proof.
  induction n as [|n [Hr Ha]]; unfold alarmed; cbn [turns].
  - split.
    + eapply reaches_step; [apply reaches_woken|]. apply (step_deliver _ _ (woken stored) 0); [constructor|done|done].
    + intros k Hk. cbn. unfold put. by rewrite decide_False.
  - split; [|by apply turn_alone]. destruct (turn_step _ Ha) as [Heq|Hs].
    + change (reaches stored (turn answer (alarmed stored n))). by rewrite Heq.
    + eapply reaches_step; [exact Hr|exact Hs].
Qed.
End AloneReaches.

#[local] Instance race_curve : Curve :=
  {| SecretKey := list byte; hkdf_sha256 _ _ _ := repeat x01 32; from_slice := Some;
     public_point _ := repeat x02 65 |}.
#[local] Instance race_signer : LocalSigner := {| sign_hash _ _ := None; seal_eip1559 _ _ := None |}.
#[local] Instance race_tokens : TokenCalls :=
  {| encode_balance_of _ := []; encode_transfer _ _ := []; get_nonce_selector := [] |}.
#[local] Instance race_lower : LowerCase := {| char_to_lowercase c := [c] |}.

Definition race_config : CfConfig :=
  {| cc_settlement_recipient := None; cc_executor_enabled := true; cc_alchemy_api_key := None;
     cc_trusted_rpc_urls := ∅; cc_rpc_host_policy := PublicHttpsOnly; cc_rpc_timeout_ms := 5000;
     execution_chains := []; operator_secret := Some (String.concat "" (repeat "01" 32)); cc_relayer_count := 8;
     lease_ttl_ms := 30000; receipt_poll_ms := 3000; attempt_ttl_ms := 86400000;
     telegram_bot_token := None; telegram_chat_id := None; telegram_cooldown_ms := 0;
     cc_max_bundle_operations := 4; cc_gas_buffer_bps := 1500; cc_fixed_gas_buffer := 30000;
     cc_settlement_markup_bps := 0; cc_settlement_inclusion_floor_bps := 12500;
     cc_settlement_hold_max_attempts := 12; cc_relayer_float_cost_multiplier := 3;
     cc_relayer_float_target_wei := 10 ^ 17; cc_relayer_float_min_wei := 10 ^ 16;
     cc_top_up_max_wei := 10 ^ 18; cc_treasury_floor_wei := 10 ^ 16 |}.

Definition race_bundle : PreparedBundleIntent :=
  {| bi_chain_id := 1; bi_lane := 0; bi_entry_point := batch_entry_point; bi_raw_transaction := batch_raw;
     bi_transaction_hash := batch_transaction; bi_nonce := 5; bi_user_operation_hashes := [batch_hash];
     bi_billed_gas := None; bi_billed_fee_per_gas := None |}.

Definition race_record (s : UserOperationStatus) : StoredUserOperation :=
  {| status := s; transaction_hash := None; chain_id := 1; chain_id_text := "1";
     entry_point := batch_entry_point; user_operation := V0_7 batch_operation; admitted := true;
     next_receipt_check_at_ms := 0; block_hash := None; block_number := None; receipt := None;
     event := None; last_executor_stage := None; last_executor_error := None;
     last_executor_attempt_at_ms := None; rejection_reason := None |}.

(** A world in which the bundle's member has this status. *)
Definition race_answer (status : UserOperationStatus) R (e : LaneCall R) : R :=
  match e in LaneCall R return R with
  | Millis => 1000
  | NextToken => 1
  | GetIntent => None
  | PutIntent _ => true
  | DeleteIntent => true
  | GetSeen _ => None
  | PutSeen _ _ => true
  | DeleteSeen _ => true
  | GetMembers _ => None
  | PutMembers _ _ => true
  | DeleteMembers _ => true
  | GetDelayed _ => None
  | PutDelayed _ _ => true
  | DeleteDelayed _ => true
  | GetDelayedIndex => None
  | PutDelayedIndex _ => true
  | GetReconcileDue => Some 900
  | PutReconcileDue _ => true
  | DeleteReconcileDue => true
  | SetAlarm _ => true
  | RecordCall _ _ _ => Ok (RecordDo.RecordRead (Some (race_record status)))
  | TreasuryCall _ _ => Err tt
  | SupportsChain _ => true
  | RpcCall _ _ _ => Ok VNull
  | RpcCallWalk _ _ _ => (Ok VNull, [])
  | RpcSimulate _ _ _ => Ok VNull
  | RpcBatch _ _ => Ok []
  | RpcBatchWalk _ _ => (Ok [], [])
  | RpcBroadcast _ _ => Ok (BroadcastAmbiguous "timeout")
  | RpcLacksMethod _ _ => false
  | RpcNoteWalk _ _ _ => tt
  | PaymentMetadata _ => None
  | CachedPrice _ => None
  | CachePrice _ _ _ => tt
  | BinanceUsdtPrice _ => None
  | DeadLetter _ => true
  | SendMessage _ _ _ => true
  | Delay _ => tt
  end.

Definition race_lane (status : UserOperationStatus) (n : nat) : Lane :=
  @alarmed ref_hex ref_alloy ref_hash_text ref_keccak race_curve race_signer ref_calls race_tokens race_lower
    x86_64 (λ _, None) race_config (race_answer status) (Some race_bundle) n.


Lemma race_reaches status n :
  @lane_reaches ref_hex ref_alloy ref_hash_text ref_keccak race_curve race_signer ref_calls race_tokens race_lower
    x86_64 (λ _, None) race_config (Some race_bundle) (race_lane status n).
Proof. exact (proj1 (@alarmed_reaches ref_hex ref_alloy ref_hash_text ref_keccak race_curve race_signer ref_calls
  race_tokens race_lower x86_64 (λ _, None) race_config (race_answer status) (Some race_bundle) n)). Qed.

Lemma race_step status n :
  slot (race_lane status (S n)) ≠ slot (race_lane status n) →
  @lane_step ref_hex ref_alloy ref_hash_text ref_keccak race_curve race_signer ref_calls race_tokens race_lower
    x86_64 (λ _, None) race_config (race_lane status n) (race_lane status (S n)).
Proof.
  intros Hn. destruct (@turn_step ref_hex ref_alloy ref_hash_text ref_keccak race_curve race_signer ref_calls
    race_tokens race_lower x86_64 (λ _, None) race_config (race_answer status) (race_lane status n)) as [He|Hs].
  - exact (proj2 (@alarmed_reaches ref_hex ref_alloy ref_hash_text ref_keccak race_curve race_signer ref_calls
      race_tokens race_lower x86_64 (λ _, None) race_config (race_answer status) (Some race_bundle) n)).
  - exfalso. apply Hn. exact (f_equal slot He).
  - exact Hs.
Qed.

(** The member is included: the alarm's eighth answer drops the bundle. *)
Lemma prepared_bundle_is_never_lost_witness :
  slot (race_lane Included 7) = Some race_bundle ∧ slot (race_lane Included 8) = None ∧
  ∃ k th j, answers_of (race_lane Included 7) (race_lane Included 8) k th DeleteIntent true ∧
    last_read (ghost th) = Some (Some race_bundle) ∧ Held j ∈ facts (ghost th) ∧
    @released ref_hex ref_alloy ref_keccak race_curve race_config (facts (ghost th)) j ∧
    eq_ignore_ascii_case (bi_transaction_hash race_bundle) (bi_transaction_hash j) = true.
Proof.
  assert (Hi : slot (race_lane Included 7) = Some race_bundle) by (vm_compute; reflexivity).
  assert (Hn : slot (race_lane Included 8) = None) by (vm_compute; reflexivity).
  split; [exact Hi|]. split; [exact Hn|].
  destruct (@prepared_bundle_is_never_lost ref_hex ref_alloy ref_hash_text ref_keccak race_curve race_signer
    ref_calls race_tokens race_lower x86_64 (λ _, None) race_config (Some race_bundle) _ (race_lane Included 8) race_bundle
    (race_reaches Included 7) (race_step Included 7 ltac:(rewrite Hi, Hn; discriminate)) Hi) as [Hs|[(k & th & j & Ha & _ & Hl & Hj & _ & Hr & He)|(k & th & i' & _ & Hs & _)]].
  - rewrite Hn in Hs. discriminate Hs.
  - exists k, th, j. split; [exact Ha|]. split; [exact Hl|]. split; [exact Hj|]. split; [exact Hr|exact He].
  - rewrite Hn in Hs. discriminate Hs.
Defined.

Definition asks_to_broadcast (s : Lane) : option (Z * list byte) :=
  match threads s 0%nat with
  | Some {| ghost := _; misled := _; rest := Vis (RpcBroadcast chain_id raw) _ |} => Some (chain_id, raw)
  | _ => None
  end.

Lemma asks_to_broadcast_eq s chain_id raw :
  asks_to_broadcast s = Some (chain_id, raw) →
  ∃ g m c, threads s 0%nat = Some {| ghost := g; misled := m; rest := Vis (RpcBroadcast chain_id raw) c |}.
Proof.
  unfold asks_to_broadcast. destruct (threads s 0%nat) as [[g m [a|R e c']]|]; try done.
  destruct e; try done. intros [= <- <-]. by exists g, m, c'.
Qed.

(** The member still waits: the alarm broadcasts the stored bundle's bytes. *)
Lemma lane_broadcasts_only_stored_witness :
  ∃ g m c, threads (race_lane Queued 7) 0%nat = Some {| ghost := g; misled := m; rest := Vis (RpcBroadcast 1 [x02]) c |} ∧
  ((∃ i, i ∈ once_stored (race_lane Queued 7) ∧
     @validate_raw_transaction ref_hex ref_hash_text ref_keccak (bi_raw_transaction i) (bi_transaction_hash i)
       = Ok [x02]) ∨
   (∃ i, FundingHeld i ∈ facts g ∧
     @validate_raw_transaction ref_hex ref_hash_text ref_keccak (fi_raw_transaction i) (fi_transaction_hash i)
       = Ok [x02])).
Proof.
  assert (Hb : asks_to_broadcast (race_lane Queued 7) = Some (1, [x02])) by (vm_compute; reflexivity).
  apply asks_to_broadcast_eq in Hb as (g & m & c & E). exists g, m, c. split; [exact E|].
  exact (@lane_broadcasts_only_stored ref_hex ref_alloy ref_hash_text ref_keccak race_curve race_signer
    ref_calls race_tokens race_lower x86_64 (λ _, None) race_config (Some race_bundle) _ _ _ _ _ _ _
    (race_reaches Queued 7) E).
Defined.
