(* ===== verification/JsonRpc.v ===== *)
(** * JsonRpc: the JSON-RPC vocabulary both shells speak
    ([vela-relay-core/src/wire.rs])

    Requests are read by the serde derives' rules ([Json.struct_fields],
    [req], [opt]); their error texts, and the JSON text of a body, are
    serde_json's: the class [SerdeJson].  Responses are the JSON the derives
    write. *)

From S2P Require Export Task GasMath Cost Lifecycle.
#[local] Open Scope string_scope.
#[local] Open Scope list_scope.
#[local] Open Scope Z_scope.

(** ** Errors and responses *)

Record RpcError : Type := { re_code : Z; re_message : string; re_data : option Value }.

Record RpcRequest : Type := { rq_jsonrpc : string; rq_id : Value; rq_method : string; rq_params : Value }.

Record RpcResponse (T : Type) : Type := {
  rs_jsonrpc : string; rs_id : Value; rs_result : option T; rs_error : option RpcError }.
Arguments rs_jsonrpc {_} _. Arguments rs_id {_} _.
Arguments rs_result {_} _. Arguments rs_error {_} _.

Definition response_result {T} (id : Value) (result : T) : RpcResponse T :=
  {| rs_jsonrpc := "2.0"; rs_id := id; rs_result := Some result; rs_error := None |}.
Definition response_error {T} (id : Value) (error : RpcError) : RpcResponse T :=
  {| rs_jsonrpc := "2.0"; rs_id := id; rs_result := None; rs_error := Some error |}.

Definition error_new (code : Z) (message : string) (data : option Value) : RpcError :=
  {| re_code := code; re_message := message; re_data := data |}.

Definition parse_error (details : string) : RpcError :=
  error_new (-32700) "parse error" (Some (VString details)).
Definition invalid_request (details : string) : RpcError :=
  error_new (-32600) "invalid request" (Some (VString details)).
Definition method_not_found (method : string) : RpcError :=
  error_new (-32601) "method not found" (Some (VString method)).
Definition invalid_params (details : string) : RpcError :=
  error_new (-32602) "invalid params" (Some (VString details)).
Definition backend_unavailable : RpcError :=
  error_new (-32000) "bundler backend is not configured" None.
Definition gas_price_unavailable : RpcError :=
  error_new (-32000) "all gas price RPC sources failed" None.
Definition gas_price_timeout : RpcError :=
  error_new (-32000) "gas price RPC request timed out" None.
Definition in_band_gas_quote_unavailable : RpcError :=
  error_new (-32000) "in-band gas quote is temporarily unavailable" None.
Definition user_operation_queue_unavailable : RpcError :=
  error_new (-32000) "UserOperation queue is temporarily unavailable" None.
Definition user_operation_status_store_unavailable : RpcError :=
  error_new (-32000) "UserOperation status store is temporarily unavailable" None.
Definition user_operation_rejected (details : string) : RpcError :=
  error_new (-32500) "UserOperation simulation failed" (Some (VString details)).
Definition NONCE_IN_FLIGHT_REASON : string := as_reason_str NonceInFlight.
Definition nonce_in_flight (existing_user_operation_hash sender nonce : string) : RpcError :=
  error_new (-32602) (nonce_in_flight_message existing_user_operation_hash)
    (Some (VObject [("reason", VString NONCE_IN_FLIGHT_REASON);
                    ("existingHash", VString existing_user_operation_hash);
                    ("sender", VString sender); ("nonce", VString nonce)])).
Definition estimation_unavailable : RpcError :=
  error_new (-32000) "UserOperation simulation is temporarily unavailable" None.
Definition mempool_full : RpcError := error_new (-32000) "bundler mempool is full" None.

(** The derives' [Serialize]. *)
Definition ser_error (e : RpcError) : Value :=
  VObject ([("code", VNumber (re_code e)); ("message", VString (re_message e))]
           ++ ser_skip "data" id (re_data e)).
Definition ser_response (r : RpcResponse Value) : Value :=
  VObject ([("jsonrpc", VString (rs_jsonrpc r)); ("id", rs_id r)]
           ++ ser_skip "result" id (rs_result r) ++ ser_skip "error" ser_error (rs_error r)).

(** ** The request envelope *)

Definition quoted (s : string) : string := String "034" s +:+ String "034" EmptyString.

Definition empty_params : Value := VArray [].

Definition request_fields : list string := ["jsonrpc"; "id"; "method"; "params"].

Definition de_request (v : Value) : option RpcRequest :=
  o ← struct_fields request_fields 3 v;
  if negb (fields_once request_fields o) then None else
  jsonrpc ← req as_str "jsonrpc" o;
  id ← defaulted VNull (λ v, Some (de_value v)) "id" o;
  method ← req as_str "method" o;
  params ← defaulted empty_params (λ v, Some (de_value v)) "params" o;
  Some {| rq_jsonrpc := jsonrpc; rq_id := id; rq_method := method; rq_params := params |}.

(** ** Methods and their parameters *)

Inductive RpcMethod : Type :=
  | SendUserOperation | EstimateUserOperationGas | GetUserOperationReceipt
  | GetUserOperationByHash | SupportedEntryPoints | GetUserOperationGasPrice
  | GetUserOperationStatus | GetInBandGasQuote.

#[export] Instance RpcMethod_eq_dec : EqDecision RpcMethod.
Proof. solve_decision. Defined.

Definition method_as_str (m : RpcMethod) : string :=
  match m with
  | SendUserOperation => "eth_sendUserOperation"
  | EstimateUserOperationGas => "eth_estimateUserOperationGas"
  | GetUserOperationReceipt => "eth_getUserOperationReceipt"
  | GetUserOperationByHash => "eth_getUserOperationByHash"
  | SupportedEntryPoints => "eth_supportedEntryPoints"
  | GetUserOperationGasPrice => "pimlico_getUserOperationGasPrice"
  | GetUserOperationStatus => "pimlico_getUserOperationStatus"
  | GetInBandGasQuote => "vela_getInBandGasQuote"
  end.

Definition parse_method (value : string) : result RpcError RpcMethod :=
  if String.eqb value "eth_sendUserOperation" then Ok SendUserOperation
  else if String.eqb value "eth_estimateUserOperationGas" then Ok EstimateUserOperationGas
  else if String.eqb value "eth_getUserOperationReceipt" then Ok GetUserOperationReceipt
  else if String.eqb value "eth_getUserOperationByHash" then Ok GetUserOperationByHash
  else if String.eqb value "eth_supportedEntryPoints" then Ok SupportedEntryPoints
  else if String.eqb value "pimlico_getUserOperationGasPrice" then Ok GetUserOperationGasPrice
  else if String.eqb value "pimlico_getUserOperationStatus" then Ok GetUserOperationStatus
  else if String.eqb value "vela_getInBandGasQuote" then Ok GetInBandGasQuote
  else Err (method_not_found value).

(** A unit variant of a derived enum: its name, or an object with that name and
    [null]. *)
Definition unit_variant (v : Value) : option string :=
  match v with
  | VString s | VObject [(s, VNull)] => Some s
  | _ => None
  end.

Definition de_submission_tier (v : Value) : option SubmissionTier :=
  s ← unit_variant v; List.find (λ tier, String.eqb (tier_as_str tier) s) [Slow; Standard; Fast].

(** A tuple struct's [min] to [max] elements; a missing one is [null]. *)
Definition tuple (min max : nat) (v : Value) : option (list Value) :=
  l ← as_array v;
  if decide (min ≤ length l ≤ max)%nat then Some l else None.
Definition nullable {A} (f : Value → option A) (v : option Value) : option (option A) :=
  match v with None | Some VNull => Some None | Some v => a ← f v; Some (Some a) end.

Record SendUserOperationParams : Type := {
  sp_user_operation : UserOperation; sp_entry_point : string; sp_tier : option SubmissionTier }.

Definition de_send_params (v : Value) : option SendUserOperationParams :=
  l ← tuple 2 3 v;
  op ← (v ← l !! 0%nat; de_user_operation v);
  entry_point ← (v ← l !! 1%nat; as_str v);
  tier ← nullable de_submission_tier (l !! 2%nat);
  Some {| sp_user_operation := op; sp_entry_point := entry_point; sp_tier := tier |}.

Record EstimatableUserOperationV0_7 : Type := {
  ev_sender : string; ev_nonce : string;
  ev_factory : option string; ev_factory_data : option string;
  ev_call_data : string;
  ev_call_gas_limit : option string; ev_verification_gas_limit : option string;
  ev_pre_verification_gas : option string;
  ev_max_fee_per_gas : option string; ev_max_priority_fee_per_gas : option string;
  ev_paymaster : option string;
  ev_paymaster_verification_gas_limit : option string;
  ev_paymaster_post_op_gas_limit : option string;
  ev_paymaster_data : option string;
  ev_signature : option string;
  ev_eip7702_auth : option Eip7702Authorization;
  ev_fee_token : option string }.

Definition de_estimatable_v0_7 (v : Value) : option EstimatableUserOperationV0_7 :=
  o ← struct_fields v0_7_fields 16 v;
  if only_fields v0_7_fields o then
    se ← req as_str "sender" o; no ← req as_str "nonce" o;
    fa ← opt as_str "factory" o; fd ← opt as_str "factoryData" o;
    cd ← req as_str "callData" o; cg ← opt as_str "callGasLimit" o;
    vg ← opt as_str "verificationGasLimit" o; pg ← opt as_str "preVerificationGas" o;
    mf ← opt as_str "maxFeePerGas" o; mp ← opt as_str "maxPriorityFeePerGas" o;
    pm ← opt as_str "paymaster" o;
    pv ← opt as_str "paymasterVerificationGasLimit" o;
    pp ← opt as_str "paymasterPostOpGasLimit" o;
    pd ← opt as_str "paymasterData" o;
    si ← opt as_str "signature" o; au ← opt de_auth "eip7702Auth" o;
    ft ← opt as_str "feeToken" o;
    Some {| ev_sender := se; ev_nonce := no; ev_factory := fa; ev_factory_data := fd;
            ev_call_data := cd; ev_call_gas_limit := cg; ev_verification_gas_limit := vg;
            ev_pre_verification_gas := pg; ev_max_fee_per_gas := mf;
            ev_max_priority_fee_per_gas := mp; ev_paymaster := pm;
            ev_paymaster_verification_gas_limit := pv; ev_paymaster_post_op_gas_limit := pp;
            ev_paymaster_data := pd; ev_signature := si; ev_eip7702_auth := au;
            ev_fee_token := ft |}
  else None.

Record EstimatableUserOperationV0_6 : Type := {
  ew_sender : string; ew_nonce : string; ew_init_code : string; ew_call_data : string;
  ew_call_gas_limit : option string; ew_verification_gas_limit : option string;
  ew_pre_verification_gas : option string;
  ew_max_fee_per_gas : option string; ew_max_priority_fee_per_gas : option string;
  ew_paymaster_and_data : option string; ew_signature : option string }.

Definition de_estimatable_v0_6 (v : Value) : option EstimatableUserOperationV0_6 :=
  o ← struct_fields v0_6_fields 11 v;
  if only_fields v0_6_fields o then
    se ← req as_str "sender" o; no ← req as_str "nonce" o; ic ← req as_str "initCode" o;
    cd ← req as_str "callData" o; cg ← opt as_str "callGasLimit" o;
    vg ← opt as_str "verificationGasLimit" o; pg ← opt as_str "preVerificationGas" o;
    mf ← opt as_str "maxFeePerGas" o; mp ← opt as_str "maxPriorityFeePerGas" o;
    pd ← opt as_str "paymasterAndData" o; si ← opt as_str "signature" o;
    Some {| ew_sender := se; ew_nonce := no; ew_init_code := ic; ew_call_data := cd;
            ew_call_gas_limit := cg; ew_verification_gas_limit := vg;
            ew_pre_verification_gas := pg; ew_max_fee_per_gas := mf;
            ew_max_priority_fee_per_gas := mp; ew_paymaster_and_data := pd;
            ew_signature := si |}
  else None.

Inductive EstimatableUserOperation : Type :=
  | Estimatable_V0_7 (op : EstimatableUserOperationV0_7)
  | Estimatable_V0_6 (op : EstimatableUserOperationV0_6).

(** [#[serde(untagged)]] *)
Definition de_estimatable (v : Value) : option EstimatableUserOperation :=
  match de_estimatable_v0_7 v with
  | Some op => Some (Estimatable_V0_7 op)
  | None => op ← de_estimatable_v0_6 v; Some (Estimatable_V0_6 op)
  end.

Record StateOverride : Type := {
  so_balance : option string; so_nonce : option string; so_code : option string;
  so_state : option (list (string * string)); so_state_diff : option (list (string * string)) }.

Definition StateOverrideSet : Type := list (string * StateOverride).

Definition state_override_fields : list string := ["balance"; "nonce"; "code"; "state"; "stateDiff"].

Definition de_state_override (v : Value) : option StateOverride :=
  o ← struct_fields state_override_fields 5 v;
  if only_fields state_override_fields o then
    balance ← opt as_str "balance" o; nonce ← opt as_str "nonce" o; code ← opt as_str "code" o;
    state ← opt (de_btree as_str) "state" o; diff ← opt (de_btree as_str) "stateDiff" o;
    Some {| so_balance := balance; so_nonce := nonce; so_code := code;
            so_state := state; so_state_diff := diff |}
  else None.

Definition de_state_override_set : Value → option StateOverrideSet := de_btree de_state_override.

Definition ser_slots (m : list (string * string)) : Value :=
  VObject (map (λ kv, (kv.1, VString kv.2)) m).
Definition ser_state_override (s : StateOverride) : Value :=
  VObject [("balance", ser_opt VString (so_balance s)); ("nonce", ser_opt VString (so_nonce s));
           ("code", ser_opt VString (so_code s)); ("state", ser_opt ser_slots (so_state s));
           ("stateDiff", ser_opt ser_slots (so_state_diff s))].

Record EstimateUserOperationGasParams : Type := {
  ep_user_operation : EstimatableUserOperation; ep_entry_point : string;
  ep_state_overrides : option StateOverrideSet }.

Definition de_estimate_params (v : Value) : option EstimateUserOperationGasParams :=
  l ← tuple 2 3 v;
  op ← (v ← l !! 0%nat; de_estimatable v);
  entry_point ← (v ← l !! 1%nat; as_str v);
  overrides ← nullable de_state_override_set (l !! 2%nat);
  Some {| ep_user_operation := op; ep_entry_point := entry_point; ep_state_overrides := overrides |}.

(** [[UserOperationHash; 1]], the parameters of the three lookups: a newtype
    struct is its array. *)
Definition de_hash_params (v : Value) : option string :=
  l ← tuple 1 1 v; v ← l !! 0%nat; as_str v.

Record InBandGasQuoteRequest : Type := { safe_address : string }.

Definition de_quote_request (v : Value) : option InBandGasQuoteRequest :=
  o ← struct_fields ["safeAddress"] 1 v;
  if only_fields ["safeAddress"] o
  then a ← req as_str "safeAddress" o; Some {| safe_address := a |} else None.

Definition de_quote_params (v : Value) : option InBandGasQuoteRequest :=
  l ← tuple 1 1 v; v ← l !! 0%nat; de_quote_request v.

Section Calls.
Context `{SJ : SerdeJson}.

Definition parse_envelope (body : list byte) : result (RpcResponse Value) RpcRequest :=
  match json_from_slice body with
  | Err message => Err (response_error VNull (parse_error message))
  | Ok document =>
      match de_request document with
      | None => Err (response_error VNull (parse_error (derive_error "RpcRequest" document)))
      | Some request =>
          if String.eqb (rq_jsonrpc request) "2.0" then Ok request
          else Err (response_error (rq_id request)
                      (invalid_request ("`jsonrpc` must be " +:+ quoted "2.0")))
      end
  end.

Definition parse_params {A} (name : string) (de : Value → option A) (params : Value) :
    result RpcError () :=
  match de params with
  | Some _ => Ok ()
  | None => Err (invalid_params (derive_error name params))
  end.

Definition validate_empty_params (params : Value) : result RpcError () :=
  match params with
  | VArray [] => Ok ()
  | _ => Err (invalid_params "expected an empty parameter list")
  end.

Definition validate_call (method : string) (params : Value) : result RpcError RpcMethod :=
  method ← parse_method method;
  _ ← match method with
      | SendUserOperation => parse_params "SendUserOperationParams" de_send_params params
      | EstimateUserOperationGas =>
          parse_params "EstimateUserOperationGasParams" de_estimate_params params
      | GetUserOperationReceipt => parse_params "GetUserOperationReceiptParams" de_hash_params params
      | GetUserOperationByHash => parse_params "GetUserOperationByHashParams" de_hash_params params
      | SupportedEntryPoints | GetUserOperationGasPrice => validate_empty_params params
      | GetUserOperationStatus => parse_params "GetUserOperationStatusParams" de_hash_params params
      | GetInBandGasQuote => parse_params "GetInBandGasQuoteParams" de_quote_params params
      end;
  Ok method.
End Calls.

(** ** The gas price quote *)

Record GasPriceTier : Type := {
  gt_max_fee_per_gas : string; gt_max_priority_fee_per_gas : string;
  gt_network_fee_per_gas : string; gt_relayer_fee_per_gas : string;
  gt_in_band_fee_per_gas : option string }.

Record UserOperationGasPrice : Type := {
  ugp_slow : GasPriceTier; ugp_standard : GasPriceTier; ugp_fast : GasPriceTier }.

Definition hex_quantity (z : Z) : string := "0x" +:+ lower_hex z.

Definition gas_price_tier (measured : bool) (terms : BillingTerms) (price : GasPrice) : GasPriceTier :=
  {| gt_max_fee_per_gas := hex_quantity (gp_max_fee_per_gas price);
     gt_max_priority_fee_per_gas := hex_quantity (gp_max_priority_fee_per_gas price);
     gt_network_fee_per_gas := hex_quantity (gp_network_fee_per_gas price);
     gt_relayer_fee_per_gas := hex_quantity (gp_relayer_fee_per_gas price);
     gt_in_band_fee_per_gas :=
       if measured
       then hex_quantity <$> in_band_fee_per_gas (gp_max_fee_per_gas price) (bt_settlement_markup_bps terms)
       else None |}.

Definition gas_price_tiers (tiers : GasPriceTiers) (chain_id : Z) (terms : BillingTerms) :
    UserOperationGasPrice :=
  let measured := bool_decide (settlement_gas_rule chain_id = Measured) in
  let tier := gas_price_tier measured terms in
  {| ugp_slow := tier (price_slow tiers); ugp_standard := tier (price_standard tiers);
     ugp_fast := tier (price_fast tiers) |}.

Definition ser_gas_price_tier (t : GasPriceTier) : Value :=
  VObject ([("maxFeePerGas", VString (gt_max_fee_per_gas t));
            ("maxPriorityFeePerGas", VString (gt_max_priority_fee_per_gas t));
            ("networkFeePerGas", VString (gt_network_fee_per_gas t));
            ("relayerFeePerGas", VString (gt_relayer_fee_per_gas t))]
           ++ ser_skip "inBandFeePerGas" VString (gt_in_band_fee_per_gas t)).
Definition ser_gas_price (p : UserOperationGasPrice) : Value :=
  VObject [("slow", ser_gas_price_tier (ugp_slow p)); ("standard", ser_gas_price_tier (ugp_standard p));
           ("fast", ser_gas_price_tier (ugp_fast p))].

(** ** Estimates and quotes *)

Record UserOperationGasEstimate : Type := {
  ge_pre_verification_gas : string; ge_verification_gas_limit : string; ge_call_gas_limit : string;
  ge_paymaster_verification_gas_limit : string; ge_paymaster_post_op_gas_limit : string;
  ge_settlement_gas : option string }.

Definition ser_gas_estimate (e : UserOperationGasEstimate) : Value :=
  VObject ([("preVerificationGas", VString (ge_pre_verification_gas e));
            ("verificationGasLimit", VString (ge_verification_gas_limit e));
            ("callGasLimit", VString (ge_call_gas_limit e));
            ("paymasterVerificationGasLimit", VString (ge_paymaster_verification_gas_limit e));
            ("paymasterPostOpGasLimit", VString (ge_paymaster_post_op_gas_limit e))]
           ++ ser_skip "settlementGas" VString (ge_settlement_gas e)).

Inductive InBandGasQuoteAsset : Type := AssetNative | AssetErc20.

#[export] Instance InBandGasQuoteAsset_eq_dec : EqDecision InBandGasQuoteAsset.
Proof. solve_decision. Defined.

Definition asset_name (a : InBandGasQuoteAsset) : string :=
  match a with AssetNative => "native" | AssetErc20 => "erc20" end.

Record InBandGasQuote : Type := {
  iq_recipient : string; iq_asset : InBandGasQuoteAsset; iq_fee_token : option string;
  iq_decimals : Z; iq_symbol : string; iq_balance : string;
  iq_usd_price : option string; iq_usd_balance : option string; iq_minimum_amount : string }.

Definition ser_quote (q : InBandGasQuote) : Value :=
  VObject [("recipient", VString (iq_recipient q)); ("asset", VString (asset_name (iq_asset q)));
           ("feeToken", ser_opt VString (iq_fee_token q)); ("decimals", VNumber (iq_decimals q));
           ("symbol", VString (iq_symbol q)); ("balance", VString (iq_balance q));
           ("usdPrice", ser_opt VString (iq_usd_price q));
           ("usdBalance", ser_opt VString (iq_usd_balance q));
           ("minimumAmount", VString (iq_minimum_amount q))].

(** ** Read models over a stored record *)

(** [wire::UserOperationStatus]; its [status] is [Task.UserOperationStatus]. *)
Record RpcStatus : Type := {
  st_status : UserOperationStatus; st_transaction_hash : option string;
  st_last_executor_stage : option string; st_last_executor_error : option string;
  st_last_executor_attempt_at_ms : option Z; st_rejection_reason : option RejectionReason }.

Definition rpc_status (record : StoredUserOperation) : RpcStatus :=
  let exposes_executor_diagnostic :=
    match status record with Queued | NotSubmitted | Rejected => true | _ => false end in
  let exposed {A} (field : option A) := if exposes_executor_diagnostic then field else None in
  {| st_status := status record;
     st_transaction_hash := transaction_hash record;
     st_last_executor_stage := exposed (last_executor_stage record);
     st_last_executor_error := exposed (last_executor_error record);
     st_last_executor_attempt_at_ms := exposed (last_executor_attempt_at_ms record);
     st_rejection_reason := of_record record |}.

Definition not_found_status : RpcStatus :=
  {| st_status := NotFound; st_transaction_hash := None; st_last_executor_stage := None;
     st_last_executor_error := None; st_last_executor_attempt_at_ms := None;
     st_rejection_reason := None |}.

Definition ser_status (s : RpcStatus) : Value :=
  VObject ([("status", VString (status_name (st_status s)));
            ("transactionHash", ser_opt VString (st_transaction_hash s))]
           ++ ser_skip "lastExecutorStage" VString (st_last_executor_stage s)
           ++ ser_skip "lastExecutorError" VString (st_last_executor_error s)
           ++ ser_skip "lastExecutorAttemptAtMs" VNumber (st_last_executor_attempt_at_ms s)
           ++ ser_skip "rejectionReason" (λ r, VString (as_reason_str r)) (st_rejection_reason s)).

Record UserOperationByHash : Type := {
  bh_user_operation : UserOperation; bh_entry_point : string; bh_block_number : option string;
  bh_block_hash : option string; bh_transaction_hash : option string }.

Definition ser_by_hash (r : UserOperationByHash) : Value :=
  VObject [("userOperation", ser_user_operation (bh_user_operation r));
           ("entryPoint", VString (bh_entry_point r));
           ("blockNumber", ser_opt VString (bh_block_number r));
           ("blockHash", ser_opt VString (bh_block_hash r));
           ("transactionHash", ser_opt VString (bh_transaction_hash r))].

(** The one panic of this module: a slice that ends inside a character. *)
Inductive Panic : Type := SliceInsideCharacter.

Definition paymaster_from_v06 (paymaster_and_data : string) : result Panic (option string) :=
  match str_strip_prefix "0x" paymaster_and_data with
  | None => Ok None
  | Some value =>
      if decide (40 ≤ String.length value)%nat then
        if is_char_boundary value 40 then Ok (Some ("0x" +:+ str_take 40 value))
        else Err SliceInsideCharacter
      else Ok None
  end.

Definition receipt_identity (op : UserOperation) : result Panic (string * string * option string) :=
  match op with
  | V0_7 op => Ok (sender op, nonce op, paymaster op)
  | V0_6 op =>
      paymaster ← paymaster_from_v06 (paymaster_and_data_06 op);
      Ok (sender_06 op, nonce_06 op, paymaster)
  end.

Definition settled_event (record : StoredUserOperation) : option (UserOperationEvent * Value) :=
  event ← event record;
  receipt ← receipt record;
  match status record with
  | Included => Some (event, receipt)
  | Rejected => if ev_success event then None else Some (event, receipt)
  | _ => None
  end.

Definition receipt_response (user_operation_hash : string) (record : StoredUserOperation) :
    result Panic (option Value) :=
  match settled_event record with
  | None => Ok None
  | Some (event, receipt) =>
    '(sender, nonce, paymaster) ← receipt_identity (user_operation record);
    let logs := default [] (logs ← get "logs" receipt; as_array logs) in
    Ok (Some (VObject [("userOpHash", VString user_operation_hash);
                   ("entryPoint", VString (entry_point record));
                   ("sender", VString sender); ("nonce", VString nonce);
                   ("paymaster", ser_opt VString paymaster);
                   ("actualGasCost", VString (ev_actual_gas_cost event));
                   ("actualGasUsed", VString (ev_actual_gas_used event));
                   ("success", VBool (ev_success event)); ("reason", VString "0x");
                   ("logs", VArray logs); ("receipt", receipt)]))
  end.
