(* ===== verification/Multicall.v ===== *)
(** * Multicall: the Multicall3 call a quote is read with
    ([vela-relay-core/src/quote.rs], the codec)

    [encode_aggregate3] and [decode_aggregate3], the ABI words they are made
    of, and the hex texts.  A [[u8; 20]] is a byte list; [usize] is
    [TargetWidth] bits wide.  The decoder asks [Vec::with_capacity] for as
    many results as the answer claims, which panics when that is more memory
    than can be addressed: the one outcome beside an answer and a refusal. *)

From S2P Require Export Reimbursement JsonRpc.
#[local] Open Scope string_scope.
#[local] Open Scope list_scope.
#[local] Open Scope Z_scope.

Record MulticallCall : Type := { mc_target : list byte; mc_call_data : list byte }.
Record MulticallResult : Type := { mr_success : bool; mr_return_data : list byte }.

(** ** Words *)

Definition usize_word (value : Z) : list byte := replicate 24 x00 ++ be_bytes 8 value.
Definition quote_address_word (value : list byte) : list byte := replicate 12 x00 ++ value.
Definition bool_word (value : bool) : list byte := replicate 31 x00 ++ [if value then x01 else x00].

Definition dynamic_bytes (value : list byte) : list byte :=
  usize_word (Z.of_nat (length value)) ++ value
  ++ replicate ((32 - length value mod 32) mod 32)%nat x00.

Definition nonzero (b : byte) : bool := negb (bool_decide (b = x00)).

(** ** The call *)

Definition AGGREGATE3_SELECTOR : list byte := [x82; xad; x56; xcb].

Definition encode_aggregate3_call (call : MulticallCall) : list byte :=
  quote_address_word (mc_target call) ++ bool_word true ++ usize_word 96
  ++ dynamic_bytes (mc_call_data call).

(** The offset of each part, from [offset] on. *)
Fixpoint part_offsets (offset : Z) (parts : list (list byte)) : list byte :=
  match parts with
  | [] => []
  | part :: parts => usize_word offset ++ part_offsets (offset + Z.of_nat (length part)) parts
  end.

Definition encode_aggregate3 (calls : list MulticallCall) : list byte :=
  let encoded_calls := map encode_aggregate3_call calls in
  AGGREGATE3_SELECTOR ++ usize_word 32 ++ usize_word (Z.of_nat (length calls))
  ++ part_offsets (Z.of_nat (length calls) * 32) encoded_calls ++ concat encoded_calls.

(** ** Texts *)

Section Texts.
Context `{HX : Hex}.

Definition quote_address (value : string) : option (list byte) :=
  value ← str_strip_prefix "0x" value;
  if decide (String.length value = 40%nat) then
    bytes ← hex_decode value;
    if decide (length bytes = 20%nat) then Some bytes else None
  else None.

Definition bytes_to_hex (bytes : list byte) : string := "0x" +:+ hex_encode bytes.

Definition decode_hex (value : string) : option (list byte) :=
  hex_decode (default value (str_strip_prefix "0x" value)).

Definition bytes32_quantity (bytes : list byte) : option string :=
  if decide (length bytes = 32%nat) then
    let digits := trim_start_char "0" (hex_encode bytes) in
    Some (if bool_decide (digits = "") then "0x0" else "0x" +:+ digits)
  else None.

Definition bytes32_u32 (bytes : list byte) : option Z :=
  value ← bytes32_quantity bytes; from_str_radix16 32 (str_drop 2 value).
End Texts.

(** ** The answer *)

Inductive DecodePanic : Type := CapacityOverflow.

Section Decode.
Context `{W : TargetWidth}.

Definition word_at (bytes : list byte) (offset : Z) : option (list byte) :=
  stop ← checked usize_bits (offset + 32); slice bytes offset stop.

Definition quote_usize_word (bytes : list byte) (offset : Z) : option Z :=
  word ← word_at bytes offset;
  if existsb nonzero (take 24 word) then None else checked usize_bits (be_value (drop 24 word)).

Definition read_bool_word (bytes : list byte) (offset : Z) : option bool :=
  word ← word_at bytes offset;
  if existsb nonzero (take 31 word) then None
  else match drop 31 word with [x00] => Some false | [x01] => Some true | _ => None end.

Definition usize_add (a b : Z) : option Z := checked usize_bits (a + b).

Definition decode_entry (bytes : list byte) (offsets_start index : Z) : option MulticallResult :=
  step ← checked usize_bits (index * 32);
  offset_position ← usize_add offsets_start step;
  offset ← quote_usize_word bytes offset_position;
  tuple_start ← usize_add offsets_start offset;
  success ← read_bool_word bytes tuple_start;
  data_position ← usize_add tuple_start 32;
  data_offset ← quote_usize_word bytes data_position;
  data_start ← usize_add tuple_start data_offset;
  length ← quote_usize_word bytes data_start;
  return_data_start ← usize_add data_start 32;
  return_data_stop ← usize_add return_data_start length;
  return_data ← slice bytes return_data_start return_data_stop;
  Some {| mr_success := success; mr_return_data := return_data |}.

(** [for index in 0..length]: an index whose offset word would lie past the
    answer fails, so one turn per byte of the answer is enough fuel
    ([decode_entries_fuel]). *)
Fixpoint decode_entries (fuel : nat) (bytes : list byte) (offsets_start index length : Z) :
    option (list MulticallResult) :=
  if decide (index < length) then
    match fuel with
    | O => None
    | S fuel =>
        result ← decode_entry bytes offsets_start index;
        results ← decode_entries fuel bytes offsets_start (index + 1) length;
        Some (result :: results)
    end
  else Some [].

(** A [MulticallResult] is four machine words; an allocation holds at most
    [isize::MAX] bytes. *)
Definition capacity_overflows (length : Z) : bool :=
  bool_decide (2 ^ (usize_bits - 1) - 1 < length * (4 * (usize_bits / 8))).

Definition decode_aggregate3 `{Hex} (value : string) :
    result DecodePanic (option (list MulticallResult)) :=
  match
    bytes ← decode_hex value;
    array_start ← quote_usize_word bytes 0;
    length ← quote_usize_word bytes array_start;
    offsets_start ← usize_add array_start 32;
    Some (bytes, length, offsets_start)
  with
  | None => Ok None
  | Some (bytes, length, offsets_start) =>
      if capacity_overflows length then Err CapacityOverflow
      else Ok (decode_entries (S (List.length bytes)) bytes offsets_start 0 length)
  end.
End Decode.

(** ** The words read back *)

Definition machine_width `{TargetWidth} : Prop := usize_bits = 32 ∨ usize_bits = 64.

Lemma nonzero_replicate n : existsb nonzero (replicate n x00) = false.
Proof. induction n as [|n IH]; [done|exact IH]. Qed.

Lemma usize_word_length v : length (usize_word v) = 32%nat.
Proof. unfold usize_word. by rewrite length_app, length_replicate, be_bytes_length. Qed.

Lemma bool_word_length b : length (bool_word b) = 32%nat.
Proof. reflexivity. Qed.

Section Roundtrip.
Context `{W : TargetWidth}.

Lemma word_at_slice bytes offset :
  addressable bytes → word_at bytes offset = slice bytes offset (offset + 32).
Proof. apply checked_slice. Qed.

Lemma usize_word_read bytes offset v :
  machine_width → addressable bytes → 0 ≤ v ≤ umax usize_bits →
  slice bytes offset (offset + 32) = Some (usize_word v) → quote_usize_word bytes offset = Some v.
Proof.
  intros Hw Ha Hv Hs. unfold quote_usize_word. rewrite word_at_slice, Hs by done. cbn [mbind option_bind].
  unfold usize_word. rewrite take_app_length', drop_app_length' by done.
  rewrite nonzero_replicate. unfold umax in Hv.
  assert (2 ^ usize_bits ≤ 2 ^ 64) by (apply Z.pow_le_mono_r; destruct Hw; lia).
  rewrite be_value_be_bytes_small by (change (256 ^ Z.of_nat 8) with (2 ^ 64); lia).
  apply checked_fits. unfold fits. lia.
Qed.

Lemma bool_word_read bytes offset b :
  addressable bytes → slice bytes offset (offset + 32) = Some (bool_word b) →
  read_bool_word bytes offset = Some b.
Proof.
  intros Ha Hs. unfold read_bool_word. rewrite word_at_slice, Hs by done. by destruct b.
Qed.

Lemma usize_add_fits bytes a b :
  addressable bytes → 0 ≤ a + b ≤ Z.of_nat (length bytes) → usize_add a b = Some (a + b).
Proof.
  intros Ha H. apply checked_fits. unfold addressable, umax in Ha. unfold fits. lia.
Qed.

(** What the Multicall3 contract answers: [abi.encode(Result[])]. *)
Definition encode_result (r : MulticallResult) : list byte :=
  bool_word (mr_success r) ++ usize_word 64 ++ dynamic_bytes (mr_return_data r).
Definition encode_results (results : list MulticallResult) : list byte :=
  let parts := map encode_result results in
  usize_word 32 ++ usize_word (Z.of_nat (length results))
  ++ part_offsets (Z.of_nat (length results) * 32) parts ++ concat parts.

Lemma part_offsets_length o parts : length (part_offsets o parts) = (32 * length parts)%nat.
Proof.
  revert o. induction parts as [|p parts IH]; intros o; cbn [part_offsets length]; [done|].
  rewrite length_app, usize_word_length, IH. lia.
Qed.

(** One entry, from the two places it is written in. *)
Lemma decode_entry_encoded bytes start index o r stop :
  machine_width → addressable bytes → 0 ≤ start → 0 ≤ index → 0 ≤ o →
  slice bytes (start + index * 32) (start + index * 32 + 32) = Some (usize_word o) →
  slice bytes (start + o) stop = Some (encode_result r) →
  decode_entry bytes start index = Some r.
Proof.
  intros Hw Ha Hs Hi Ho Hoff Hpart.
  pose proof (slice_length _ _ _ _ Hoff) as (_ & _ & Hoff_in).
  pose proof (slice_length _ _ _ _ Hpart) as (Hlen & _ & Hstop).
  unfold encode_result, dynamic_bytes in Hlen. rewrite !length_app, bool_word_length, !usize_word_length in Hlen.
  pose proof Ha as Ha'. unfold addressable, umax in Ha'.
  apply slice_split in Hpart as [Hb Hpart]. rewrite bool_word_length in *. change (Z.of_nat 32) with 32 in *.
  apply slice_split in Hpart as [Hd Hpart]. rewrite usize_word_length in *. change (Z.of_nat 32) with 32 in *.
  unfold dynamic_bytes in Hpart.
  apply slice_split in Hpart as [Hl Hpart]. rewrite usize_word_length in *. change (Z.of_nat 32) with 32 in *.
  apply slice_split in Hpart as [Hdata _].
  unfold decode_entry. rewrite checked_fits by (unfold fits; lia). cbn [mbind option_bind].
  rewrite (usize_add_fits bytes start (index * 32)) by (done || lia). cbn [mbind option_bind].
  rewrite (usize_word_read bytes _ o) by (done || unfold umax; lia). cbn [mbind option_bind].
  rewrite (usize_add_fits bytes start o) by (done || lia). cbn [mbind option_bind].
  rewrite (bool_word_read bytes _ (mr_success r)) by done. cbn [mbind option_bind].
  rewrite (usize_add_fits bytes (start + o) 32) by (done || lia). cbn [mbind option_bind].
  rewrite (usize_word_read bytes _ 64) by (done || unfold umax; lia). cbn [mbind option_bind].
  rewrite (usize_add_fits bytes (start + o) 64) by (done || lia). cbn [mbind option_bind].
  replace (start + o + 64) with (start + o + 32 + 32) by lia.
  rewrite (usize_word_read bytes _ (Z.of_nat (length (mr_return_data r)))) by (done || unfold umax; lia).
  cbn [mbind option_bind].
  rewrite (usize_add_fits bytes (start + o + 32 + 32) 32) by (done || lia). cbn [mbind option_bind].
  rewrite (usize_add_fits bytes (start + o + 32 + 32 + 32)) by (done || lia). cbn [mbind option_bind].
  rewrite Hdata. cbn [mbind option_bind]. by destruct r.
Qed.

Lemma decode_entries_encoded bytes start rs : ∀ fuel index o stop,
  machine_width → addressable bytes → 0 ≤ start → 0 ≤ index → 0 ≤ o → (length rs ≤ fuel)%nat →
  slice bytes (start + index * 32) (start + (index + Z.of_nat (length rs)) * 32)
    = Some (part_offsets o (map encode_result rs)) →
  slice bytes (start + o) stop = Some (concat (map encode_result rs)) →
  decode_entries fuel bytes start index (index + Z.of_nat (length rs)) = Some rs.
Proof.
  induction rs as [|r rs IH]; intros fuel index o stop Hw Ha Hs Hi Ho Hf Hoff Hparts.
  - destruct fuel; cbn [decode_entries length]; by rewrite decide_False by lia.
  - destruct fuel as [|fuel]; cbn [length] in *; [lia|]. cbn [decode_entries].
    rewrite decide_True by lia. cbn [map part_offsets concat] in Hoff, Hparts.
    apply slice_split in Hoff as [Hoff Hrest]. rewrite usize_word_length in *. change (Z.of_nat 32) with 32 in *.
    pose proof (slice_length _ _ _ _ Hparts) as (Hplen & _ & _).
    rewrite length_app in Hplen. apply slice_split in Hparts as [Hpart Hparts].
    rewrite (decode_entry_encoded bytes start index o r _ Hw Ha Hs Hi Ho Hoff Hpart). cbn [mbind option_bind].
    replace (index + Z.of_nat (S (length rs))) with (index + 1 + Z.of_nat (length rs)) in * by lia.
    erewrite (IH fuel (index + 1) (o + Z.of_nat (length (encode_result r))) stop); try done; try lia.
    + rewrite <-Hrest. f_equal; lia.
    + rewrite <-Hparts. f_equal; lia.
Qed.

Lemma encode_result_length r : (96 ≤ length (encode_result r))%nat.
Proof.
  unfold encode_result, dynamic_bytes. rewrite !length_app, bool_word_length, !usize_word_length. lia.
Qed.

Lemma concat_results_length rs :
  (96 * length rs ≤ length (concat (map encode_result rs)))%nat.
Proof.
  induction rs as [|r rs IH]; cbn [map concat length]; [done|].
  rewrite length_app. pose proof (encode_result_length r). lia.
Qed.

Lemma encode_results_length rs : (64 + 128 * length rs ≤ length (encode_results rs))%nat.
Proof.
  unfold encode_results. rewrite !length_app, !usize_word_length, part_offsets_length, length_map.
  pose proof (concat_results_length rs). lia.
Qed.

(** An answer that fits in memory never overflows the capacity. *)
Lemma results_fit rs :
  machine_width → addressable (encode_results rs) → capacity_overflows (Z.of_nat (length rs)) = false.
Proof.
  intros Hw Ha. pose proof (encode_results_length rs). unfold addressable, umax in Ha.
  unfold capacity_overflows. apply bool_decide_eq_false.
  destruct Hw as [Hw|Hw]; rewrite Hw in *.
  - change (2 ^ (32 - 1)) with 2147483648. change (2 ^ 32) with 4294967296 in *.
    change (32 / 8) with 4. lia.
  - change (2 ^ (64 - 1)) with 9223372036854775808. change (2 ^ 64) with 18446744073709551616 in *.
    change (64 / 8) with 8. lia.
Qed.

Lemma decode_results rs :
  machine_width → addressable (encode_results rs) →
  decode_entries (S (length (encode_results rs))) (encode_results rs) 64 0 (Z.of_nat (length rs)) = Some rs.
Proof.
  intros Hw Ha. pose proof (encode_results_length rs) as Hlen.
  pose proof (slice_all (encode_results rs)) as Hall. unfold encode_results in Hall at 3.
  apply slice_split in Hall as [_ Hall]. rewrite usize_word_length in Hall.
  apply slice_split in Hall as [_ Hall]. rewrite usize_word_length in Hall.
  apply slice_split in Hall as [Hoff Hparts]. rewrite part_offsets_length, length_map in *.
  pose proof (decode_entries_encoded (encode_results rs) 64 rs (S (length (encode_results rs))) 0
    (Z.of_nat (length rs) * 32) (Z.of_nat (length (encode_results rs)))) as Hd.
  rewrite Z.add_0_l in Hd. apply Hd; try done; try lia.
  - rewrite <-Hoff. f_equal; lia.
  - rewrite <-Hparts. f_equal; lia.
Qed.

(** ** Enough fuel *)

Lemma decode_entry_range bytes start index r :
  0 ≤ start → 0 ≤ index → decode_entry bytes start index = Some r →
  index < Z.of_nat (length bytes).
Proof.
  intros Hs Hi H. unfold decode_entry, quote_usize_word, word_at, usize_add in H. inv_checked.
  repeat match goal with H : slice _ _ _ = Some _ |- _ => apply slice_length in H end. lia.
Qed.

(** More turns than the answer has bytes change nothing. *)
Lemma decode_entries_fuel bytes start fuel : ∀ fuel' index length,
  0 ≤ start → 0 ≤ index →
  Z.of_nat (List.length bytes) < index + Z.of_nat fuel →
  Z.of_nat (List.length bytes) < index + Z.of_nat fuel' →
  decode_entries fuel bytes start index length = decode_entries fuel' bytes start index length.
Proof.
  induction fuel as [|fuel IH]; intros fuel' index length Hs Hi Hf Hf'.
  - destruct fuel' as [|fuel']; [done|]. cbn [decode_entries]. case_decide; [|done].
    destruct (decode_entry bytes start index) eqn:E; [|done]. apply decode_entry_range in E; lia.
  - destruct fuel' as [|fuel']; cbn [decode_entries]; (case_decide; [|done]);
      (destruct (decode_entry bytes start index) eqn:E; [|done]).
    + apply decode_entry_range in E; lia.
    + cbn [mbind option_bind]. by rewrite (IH fuel') by lia.
Qed.
End Roundtrip.

Section Claims.
Context `{HX : Hex} `{W : TargetWidth}.

(** C40: what the Multicall3 contract answers is read back exactly.  Every
    list of results, ABI-encoded as [Result[]] and small enough to be in
    memory, decodes to itself, in order, with or without the [0x] prefix: the
    capacity asked for never overflows, no offset goes astray, and data of any
    length, empty and unaligned included, comes back to the byte. *)
Theorem aggregate3_roundtrip (results : list MulticallResult) (prefix : bool) :
  machine_width → addressable (encode_results results) →
  (prefix = false → str_strip_prefix "0x" (hex_encode (encode_results results)) = None) →
  decode_aggregate3 ((if prefix then "0x" else "") +:+ hex_encode (encode_results results)) =
    Ok (Some results).
Proof.
  intros Hw Ha Hp. unfold decode_aggregate3.
  assert (Hhex : decode_hex ((if prefix then "0x" else "") +:+ hex_encode (encode_results results)) =
            Some (encode_results results)).
  { unfold decode_hex. destruct prefix.
    - rewrite str_strip_prefix_app. apply hex_decode_encode.
    - rewrite str_app_nil, Hp by done. apply hex_decode_encode. }
  rewrite Hhex. cbn [mbind option_bind]. pose proof (encode_results_length results) as Hlen.
  pose proof Ha as Hu. unfold addressable, umax in Hu.
  pose proof (slice_all (encode_results results)) as Hall. unfold encode_results in Hall at 3.
  apply slice_split in Hall as [Hstart Hall]. rewrite usize_word_length in *.
  apply slice_split in Hall as [Hcount _]. rewrite usize_word_length in *.
  rewrite (usize_word_read _ 0 32) by (done || unfold umax; lia). cbn [mbind option_bind].
  rewrite (usize_word_read _ 32 (Z.of_nat (length results))) by (done || unfold umax; lia).
  cbn [mbind option_bind]. rewrite (usize_add_fits (encode_results results)) by (done || lia).
  cbn [mbind option_bind]. rewrite results_fit by done. by rewrite decode_results.
Qed.
End Claims.

Lemma aggregate3_roundtrip_witness :
  let results := [{| mr_success := true; mr_return_data := [x01; x02; x03] |};
                  {| mr_success := false; mr_return_data := [] |}] in
  @decode_aggregate3 x86_64 ref_hex ("0x" +:+ @hex_encode ref_hex (encode_results results)) =
    Ok (Some results).
Proof.
  exact (@aggregate3_roundtrip ref_hex x86_64
    [{| mr_success := true; mr_return_data := [x01; x02; x03] |};
     {| mr_success := false; mr_return_data := [] |}] true
    (or_intror eq_refl) ltac:(vm_compute; discriminate) ltac:(discriminate)).
Defined.

(** An answer of two words is enough to ask for more memory than there can
    be: the decoder trusts the count before it has read one entry. *)
Lemma hostile_count_panics `{HX : Hex} :
  @decode_aggregate3 x86_64 HX ("0x" +:+ hex_encode (usize_word 32 ++ usize_word (2 ^ 60))) =
    Err CapacityOverflow.
Proof.
  unfold decode_aggregate3, decode_hex. rewrite str_strip_prefix_app. cbn [default id].
  rewrite hex_decode_encode. vm_compute. reflexivity.
Qed.
