(* ===== verification/Quote.v ===== *)
(** * Quote: the in-band gas quote
    ([vela-relay-core/src/quote.rs], the quote itself)

    The calls a quote asks, the rows assembled from their answers, and the
    exact-decimal ordering by USD balance.  [num-bigint]'s text parser and
    printer are the class [BigUintText]. *)

From S2P Require Export Multicall Settlement Directory.
#[local] Open Scope string_scope.
#[local] Open Scope list_scope.
#[local] Open Scope Z_scope.

Class BigUintText := {
  (** [BigUint::parse_bytes(_, radix)] *)
  biguint_parse : Z → string → option Z;
  (** [BigUint::to_str_radix(10)] *)
  biguint_to_decimal : Z → string;
  biguint_parse_nonneg radix s n : biguint_parse radix s = Some n → 0 ≤ n;
  biguint_parse_decimal s :
    s ≠ EmptyString → all_chars is_ascii_digit s = true → biguint_parse 10 s = Some (dec_value 0 s);
  biguint_parse_hex s v :
    s ≠ EmptyString → hex_value 0 s = Some v → biguint_parse 16 s = Some v;
  biguint_to_decimal_dec n : 0 ≤ n → biguint_to_decimal n = dec n;
}.

(** A reference instance: digits only. *)
Definition ref_biguint : BigUintText.
Proof.
  refine {| biguint_parse radix s :=
      if bool_decide (s = "") then None
      else if decide (radix = 10) then
        (if all_chars is_ascii_digit s then Some (dec_value 0 s) else None)
      else hex_value 0 s;
    biguint_to_decimal := dec |}.
  - intros radix s n H. repeat case_match; simplify_eq; try done.
    + by apply dec_value_range.
    + by eapply hex_value_ge.
  - intros s Hs Hd. rewrite bool_decide_eq_false_2 by done. by rewrite decide_True, Hd by done.
  - intros s v Hs Hv. by rewrite bool_decide_eq_false_2 by done.
  - done.
Defined.

(** ** Symbols and prices *)

Fixpoint filter_chars (P : ascii → bool) (s : string) : string :=
  match s with
  | EmptyString => EmptyString
  | String a s => if P a then String a (filter_chars P s) else filter_chars P s
  end.

Definition is_usd_stablecoin (symbol : string) : bool :=
  let symbol := to_ascii_uppercase (filter_chars is_ascii_alphanumeric symbol) in
  starts_with "USD" symbol || starts_with (str_rev "USD") (str_rev symbol) ||
  bool_decide (symbol ∈ ["DAI"; "FRAX"; "GHO"; "LUSD"; "MIM"; "DOLA"; "CRVUSD"; "USDE"; "USDS"]).

Fixpoint any_char (P : ascii → bool) (s : string) : bool :=
  match s with EmptyString => false | String a s => P a || any_char P s end.
Fixpoint count_char (c : ascii) (s : string) : nat :=
  match s with
  | EmptyString => O
  | String a s => if decide (a = c) then S (count_char c s) else count_char c s
  end.

Definition normalize_usd_price (value : string) : option string :=
  let value := trim value in
  if negb (bool_decide (value = "")) &&
     all_chars (λ a, is_ascii_digit a || bool_decide (a = "."%char)) value &&
     bool_decide (count_char "." value ≤ 1)%nat &&
     any_char (λ a, is_ascii_digit a && negb (bool_decide (a = "0"%char))) value
  then Some value else None.

(** ** Exact USD balances *)

(** [str::split_once] *)
Fixpoint split_once (c : ascii) (s : string) : option (string * string) :=
  match s with
  | EmptyString => None
  | String a s =>
      if decide (a = c) then Some (EmptyString, s)
      else '(before, after) ← split_once c s; Some (String a before, after)
  end.

Record UsdBalance : Type := { ub_numerator : Z; ub_scale : Z }.

Definition power_of_ten (exponent : Z) : Z := 10 ^ exponent.

Definition usd_cmp (self other : UsdBalance) : comparison :=
  match ub_scale self ?= ub_scale other with
  | Eq => ub_numerator self ?= ub_numerator other
  | Gt => ub_numerator self ?= ub_numerator other * power_of_ten (ub_scale self - ub_scale other)
  | Lt => ub_numerator self * power_of_ten (ub_scale other - ub_scale self) ?= ub_numerator other
  end.

Fixpoint repeated (c : ascii) (n : nat) : string :=
  match n with O => EmptyString | S n => String c (repeated c n) end.
Definition zeros : nat → string := repeated "0".

Section Usd.
Context `{BU : BigUintText}.

Definition to_decimal_string (b : UsdBalance) : string :=
  let digits := biguint_to_decimal (ub_numerator b) in
  if decide (ub_scale b = 0) then digits
  else
    let scale := Z.to_nat (ub_scale b) in
    let digits := if decide (String.length digits ≤ scale)%nat
                  then zeros (scale + 1 - String.length digits) +:+ digits else digits in
    let decimal_position := (String.length digits - scale)%nat in
    trim_end_char "." (trim_end_char "0"
      (str_take decimal_position digits +:+ String "." (str_drop decimal_position digits))).

Definition decimal_price (value : string) : option UsdBalance :=
  let '(whole, fraction) := default (value, EmptyString) (split_once "." value) in
  price ← biguint_parse 10 (whole +:+ fraction);
  scale ← checked 32 (Z.of_nat (String.length fraction));
  Some {| ub_numerator := price; ub_scale := scale |}.

Definition usd_balance_from_values (balance : string) (decimals : Z) (usd_price : option string) :
    option string :=
  digits ← str_strip_prefix "0x" balance;
  balance ← biguint_parse 16 digits;
  price ← usd_price;
  price ← decimal_price price;
  scale ← checked 32 (decimals + ub_scale price);
  Some (to_decimal_string {| ub_numerator := balance * ub_numerator price; ub_scale := scale |}).

Definition usd_balance_key (quote : InBandGasQuote) : option UsdBalance :=
  usd_balance ← iq_usd_balance quote; decimal_price usd_balance.

Definition quote_key (quote : InBandGasQuote) : string * string :=
  (iq_symbol quote, default EmptyString (iq_fee_token quote)).

Definition then_with (first second : comparison) : comparison :=
  match first with Eq => second | _ => first end.
Definition compare_keys (left right : string * string) : comparison :=
  then_with (String.compare left.1 right.1) (String.compare left.2 right.2).

Definition compare_usd_balance_descending (left right : InBandGasQuote) : comparison :=
  match usd_balance_key left, usd_balance_key right with
  | Some left_usd, Some right_usd =>
      then_with (usd_cmp right_usd left_usd) (compare_keys (quote_key left) (quote_key right))
  | Some _, None => Lt
  | None, Some _ => Gt
  | None, None => compare_keys (quote_key left) (quote_key right)
  end.
End Usd.

(** [slice::sort_by], which is stable. *)
Fixpoint sort_insert {A} (cmp : A → A → comparison) (x : A) (l : list A) : list A :=
  match l with
  | [] => [x]
  | y :: l' => match cmp x y with Gt => y :: sort_insert cmp x l' | _ => x :: l end
  end.
Definition sort_by {A} (cmp : A → A → comparison) (l : list A) : list A := foldr (sort_insert cmp) [] l.

(** ** The quote *)

Definition MULTICALL3_ADDRESS : string := "0xcA11bde05977b3631167028862bE2a173976CA11".
Definition GET_ETH_BALANCE_SELECTOR : list byte := [x4d; x23; x01; xcc].
Definition ERC20_BALANCE_OF_SELECTOR : list byte := [x70; xa0; x82; x31].
Definition ERC20_DECIMALS_SELECTOR : list byte := [x31; x3c; xe5; x67].

Record QuoteStable : Type := { qs_symbol : string; qs_contract : string }.

Definition minimum_native_amount (native_decimals : Z) : option Z :=
  value ← ok (minimum_amount native_decimals MIN_NATIVE_FRACTION_DECIMALS); checked 128 value.
Definition minimum_stablecoin_amount (token_decimals : Z) : option Z :=
  value ← ok (minimum_amount token_decimals MIN_STABLE_FRACTION_DECIMALS); checked 128 value.

Section Quote.
Context `{HX : Hex} `{BU : BigUintText}.

Definition stable_requests (safe_address : list byte) (stablecoin : QuoteStable) : list MulticallCall :=
  match quote_address (qs_contract stablecoin) with
  | None => []
  | Some target =>
      [{| mc_target := target; mc_call_data := ERC20_DECIMALS_SELECTOR |};
       {| mc_target := target;
          mc_call_data := ERC20_BALANCE_OF_SELECTOR ++ quote_address_word safe_address |}]
  end.

(** [None] is the panic of the [expect]. *)
Definition multicall_requests (safe_address : list byte) (stablecoins : list QuoteStable) :
    option (list MulticallCall) :=
  multicall3 ← quote_address MULTICALL3_ADDRESS;
  Some ({| mc_target := multicall3;
           mc_call_data := GET_ETH_BALANCE_SELECTOR ++ quote_address_word safe_address |}
        :: concat (map (stable_requests safe_address) stablecoins)).

Definition answered {A} (read : list byte → option A) (value : option MulticallResult) : option A :=
  r ← value; if mr_success r then read (mr_return_data r) else None.

Definition stable_quote (recipient : string) (values : list MulticallResult) (index : nat)
    (stablecoin : QuoteStable) : option InBandGasQuote :=
  decimals ← answered bytes32_u32 (values !! (1 + index * 2)%nat);
  balance ← answered bytes32_quantity (values !! (2 + index * 2)%nat);
  stable_minimum ← minimum_stablecoin_amount decimals;
  Some {| iq_recipient := recipient; iq_asset := AssetErc20;
          iq_fee_token := Some (qs_contract stablecoin); iq_decimals := decimals;
          iq_symbol := qs_symbol stablecoin; iq_balance := balance; iq_usd_price := Some "1";
          iq_usd_balance := usd_balance_from_values balance decimals (Some "1");
          iq_minimum_amount := hex_quantity stable_minimum |}.

Definition native_quote (native_decimals : Z) (native_symbol recipient : string)
    (native_price : option string) (values : list MulticallResult) : option InBandGasQuote :=
  native ← answered bytes32_quantity (head values);
  _ ← minimum_native_amount native_decimals;
  native_minimum ← ok (published_native_minimum native_decimals
                         (price ← native_price; parse_market_usd_price price));
  Some {| iq_recipient := recipient; iq_asset := AssetNative; iq_fee_token := None;
          iq_decimals := native_decimals; iq_symbol := native_symbol; iq_balance := native;
          iq_usd_price := native_price;
          iq_usd_balance := usd_balance_from_values native native_decimals native_price;
          iq_minimum_amount := hex_quantity native_minimum |}.

Definition stable_quotes (recipient : string) (stablecoins : list QuoteStable)
    (values : list MulticallResult) : list InBandGasQuote :=
  omap id (imap (stable_quote recipient values) stablecoins).

Definition quotes_from_multicall (native_decimals : Z) (native_symbol recipient : string)
    (native_price : option string) (stablecoins : list QuoteStable) (values : list MulticallResult) :
    result () (list InBandGasQuote) :=
  native ← ok_or (native_quote native_decimals native_symbol recipient native_price values) ();
  Ok (sort_by compare_usd_balance_descending (native :: stable_quotes recipient stablecoins values)).

(** [path_usd] is [PATH_USD]'s text. *)
Definition tempo_quote (path_usd recipient balance : string) : InBandGasQuote :=
  {| iq_recipient := recipient; iq_asset := AssetErc20; iq_fee_token := Some path_usd;
     iq_decimals := PATH_USD_DECIMALS; iq_symbol := PATH_USD_SYMBOL; iq_balance := balance;
     iq_usd_price := Some "1";
     iq_usd_balance := usd_balance_from_values balance PATH_USD_DECIMALS (Some "1");
     iq_minimum_amount := hex_quantity (10 ^ (PATH_USD_DECIMALS - MIN_STABLE_FRACTION_DECIMALS)) |}.
End Quote.

(** ** Decimal strings read back *)

Lemma zeros_length n : String.length (zeros n) = n.
Proof. unfold zeros. induction n; cbn; auto. Qed.

Lemma zeros_digits n : all_chars is_ascii_digit (zeros n) = true.
Proof. unfold zeros. induction n; [done|]. cbn [repeated all_chars]. by rewrite IHn. Qed.

Lemma dec_value_zeros n s : dec_value 0 (zeros n +:+ s) = dec_value 0 s.
Proof.
  rewrite dec_value_app. assert (dec_value 0 (zeros n) = 0) as ->; [|lia].
  apply dec_value_zero; [apply zeros_digits|].
  unfold zeros. induction n; [done|]. cbn [repeated all_chars]. by rewrite IHn.
Qed.

Lemma trim_end_char_split c s : ∃ k, s = trim_end_char c s +:+ repeated c k.
Proof.
  induction s as [|a s [k IH]]; [by exists 0%nat|]. cbn [trim_end_char].
  destruct (trim_end_char c s) as [|b t] eqn:E.
  - rewrite str_app_nil in IH. case_decide as Ha.
    + subst a. exists (S k). rewrite str_app_nil. cbn [repeated]. by rewrite <-IH.
    + exists k. by rewrite str_app_cons, str_app_nil, <-IH.
  - exists k. by rewrite str_app_cons, <-IH.
Qed.

Lemma trim_end_char_app c p s :
  trim_end_char c s ≠ EmptyString → trim_end_char c (p +:+ s) = p +:+ trim_end_char c s.
Proof.
  intros Hs. induction p as [|a p IH]; rewrite ?str_app_nil, ?str_app_cons; [done|].
  cbn [trim_end_char]. rewrite IH. destruct (p +:+ trim_end_char c s) eqn:E; [|done].
  destruct p; [|done]. by rewrite str_app_nil in E.
Qed.

(** The last character a trim leaves is another one. *)
Lemma trim_end_char_idem c s : trim_end_char c (trim_end_char c s) = trim_end_char c s.
Proof.
  induction s as [|a s IH]; [done|]. cbn [trim_end_char].
  destruct (trim_end_char c s) as [|b t] eqn:E.
  - case_decide as Ha; [done|]. cbn. by rewrite decide_False.
  - change (trim_end_char c (String a (String b t))) with
      (match trim_end_char c (String b t) with
       | EmptyString => if decide (a = c) then EmptyString else String a EmptyString
       | kept => String a kept end). by rewrite IH.
Qed.

Lemma trim_end_digits c s :
  is_ascii_digit c = false → all_chars is_ascii_digit s = true → trim_end_char c s = s.
Proof.
  intros Hc. induction s as [|a s IH]; [done|]. cbn [all_chars trim_end_char]. rewrite andb_true_iff.
  intros [Ha Hs]. rewrite (IH Hs). destruct s; [|done]. rewrite decide_False; [done|]. intros ->. congruence.
Qed.

Lemma all_chars_trim P c s : all_chars P s = true → all_chars P (trim_end_char c s) = true.
Proof.
  intros H. destruct (trim_end_char_split c s) as [k Hk]. rewrite Hk, all_chars_app in H.
  by apply andb_true_iff in H as [H _].
Qed.

Lemma split_once_digits s : all_chars is_ascii_digit s = true → split_once "." s = None.
Proof.
  induction s as [|a s IH]; [done|]. cbn [all_chars split_once]. rewrite andb_true_iff. intros [Ha Hs].
  rewrite decide_False by (intros ->; done). by rewrite (IH Hs).
Qed.

Lemma split_once_point w f :
  all_chars is_ascii_digit w = true → split_once "." (w +:+ String "." f) = Some (w, f).
Proof.
  induction w as [|a w IH]; rewrite ?str_app_nil, ?str_app_cons; cbn [all_chars split_once].
  - by rewrite decide_True.
  - rewrite andb_true_iff. intros [Ha Hw]. rewrite decide_False by (intros ->; done). by rewrite (IH Hw).
Qed.

Lemma dec_value_go x s :
  dec_value 0 (pretty_N_go x s) = Z.of_N x * 10 ^ Z.of_nat (String.length s) + dec_value 0 s.
Proof.
  revert s. induction (N.lt_wf_0 x) as [x _ IH]; intros s.
  destruct (decide (x = 0%N)) as [->|Hx]; [rewrite pretty_N_go_0; lia|].
  rewrite pretty_N_go_step by lia. rewrite IH by (apply N.div_lt; lia).
  cbn [dec_value String.length]. rewrite (dec_value_acc (0 * 10 + _)), Nat2Z.inj_succ, Z.pow_succ_r by lia.
  assert (Hd : byte_of (pretty_N_char (x `mod` 10)) - 48 = Z.of_N (x `mod` 10)).
  { pose proof (N.mod_lt x 10 ltac:(lia)) as Hm. revert Hm. generalize (x `mod` 10)%N. intros d Hm.
    destruct d as [|d]; [done|]. do 4 (destruct d as [d|d|]; try reflexivity; try lia). }
  rewrite Hd. pose proof (N.div_mod x 10 ltac:(lia)). nia.
Qed.

Lemma dec_value_dec z : 0 ≤ z → dec_value 0 (dec z) = z.
Proof.
  intros Hz. unfold dec, pretty, pretty_N. case_decide as E.
  - change (dec_value 0 "0") with 0. lia.
  - rewrite dec_value_go. change (10 ^ _) with 1. change (dec_value 0 "") with 0. lia.
Qed.

Lemma dec_not_empty z : dec z ≠ EmptyString.
Proof.
  unfold dec, pretty, pretty_N. case_decide as E; [done|].
  assert (H : ∀ x s, s ≠ EmptyString → pretty_N_go x s ≠ EmptyString).
  { intros x. induction (N.lt_wf_0 x) as [x _ IH]. intros s Hs.
    destruct (decide (x = 0%N)) as [->|Hx]; [by rewrite pretty_N_go_0|].
    rewrite pretty_N_go_step by lia. apply IH; [apply N.div_lt; lia|done]. }
  rewrite pretty_N_go_step by lia. by apply H.
Qed.

(** Two decimals that denote one number. *)
Definition same_value (a b : UsdBalance) : Prop :=
  ub_numerator a * 10 ^ ub_scale b = ub_numerator b * 10 ^ ub_scale a.

Section UsdLemmas.
Context `{BU : BigUintText}.

(** A point in a string of digits, with the zeros and the point trimmed. *)
Lemma decimal_price_point w f :
  w ≠ EmptyString → all_chars is_ascii_digit w = true → all_chars is_ascii_digit f = true →
  Z.of_nat (String.length f) < 2 ^ 32 →
  ∃ p, decimal_price (trim_end_char "." (trim_end_char "0" (w +:+ String "." f))) = Some p ∧
    same_value p {| ub_numerator := dec_value 0 (w +:+ f); ub_scale := Z.of_nat (String.length f) |} ∧
    0 ≤ ub_numerator p ∧ 0 ≤ ub_scale p.
Proof.
  intros Hne Hw Hf Hlen. set (f' := trim_end_char "0" f).
  assert (Hf' : all_chars is_ascii_digit f' = true) by (by apply all_chars_trim).
  destruct (trim_end_char_split "0" f) as [k Hk]. fold f' in Hk. fold (zeros k) in Hk.
  assert (Hpoint : trim_end_char "0" (String "." f) = String "." f').
  { cbn [trim_end_char]. fold f'. by destruct f'. }
  rewrite trim_end_char_app, Hpoint by (rewrite Hpoint; done).
  assert (Hval : dec_value 0 (w +:+ f) = dec_value 0 (w +:+ f') * 10 ^ Z.of_nat k).
  { rewrite Hk, <-str_app_assoc, dec_value_app, zeros_length.
    assert (dec_value 0 (zeros k) = 0) as ->; [|lia].
    rewrite <-(str_app_empty (zeros k)). by rewrite dec_value_zeros. }
  assert (Hlk : String.length f = (String.length f' + k)%nat) by (rewrite Hk at 1; by rewrite str_app_length, zeros_length).
  assert (Hwf : all_chars is_ascii_digit (w +:+ f') = true) by (by rewrite all_chars_app, Hw).
  pose proof (dec_value_range _ Hwf) as Hr.
  assert (Hwfne : w +:+ f' ≠ EmptyString) by (by destruct w).
  unfold same_value. cbn [ub_numerator ub_scale].
  destruct f' as [|b t] eqn:Ef.
  - assert (trim_end_char "." (w +:+ String "." EmptyString) = w) as ->.
    { change (String "." EmptyString) with (dots 1). rewrite trim_end_dots. by apply trim_end_digits. }
    unfold decimal_price. rewrite split_once_digits by done. cbn [default].
    rewrite biguint_parse_decimal by done. cbn [mbind option_bind String.length]. rewrite checked_fits by done.
    rewrite str_app_empty in *. eexists. split; [done|]. cbn [ub_numerator ub_scale].
    rewrite Hval, Hlk. cbn [String.length Nat.add]. change (10 ^ Z.of_nat 0) with 1. split_and!; lia.
  - assert (Hne' : f' ≠ EmptyString) by (by rewrite Ef). rewrite <-Ef in *. clear Ef b t.
    assert (trim_end_char "." (w +:+ String "." f') = w +:+ String "." f') as Ht.
    { assert (E : trim_end_char "." (String "." f') = String "." f').
      { cbn [trim_end_char]. rewrite trim_end_digits by done. by destruct f'. }
      rewrite trim_end_char_app; rewrite E; done. }
    rewrite Ht. unfold decimal_price. rewrite split_once_point by done. cbn [default id].
    rewrite biguint_parse_decimal by done. cbn [mbind option_bind].
    rewrite checked_fits by (unfold fits; lia). eexists. split; [done|]. cbn [ub_numerator ub_scale].
    rewrite Hval, Hlk, Nat2Z.inj_add, Z.pow_add_r by lia. split_and!; lia.
Qed.

(** Printing a balance and reading it back keeps its exact value. *)
Lemma to_decimal_string_value b :
  0 ≤ ub_numerator b → fits 32 (ub_scale b) →
  ∃ p, decimal_price (to_decimal_string b) = Some p ∧ same_value p b ∧
    0 ≤ ub_numerator p ∧ 0 ≤ ub_scale p.
Proof.
  destruct b as [n s]. cbn [ub_numerator ub_scale]. intros Hn Hs. unfold to_decimal_string. cbn [ub_numerator ub_scale].
  rewrite biguint_to_decimal_dec by done. pose proof (dec_value_dec n Hn) as Hv.
  case_decide as Hzero.
  - subst s. unfold decimal_price. rewrite split_once_digits by apply dec_digits. cbn [default].
    rewrite str_app_empty, biguint_parse_decimal by (apply dec_digits || apply dec_not_empty).
    cbn [mbind option_bind String.length]. eexists. split; [done|]. unfold same_value. cbn. lia.
  - set (digits := if decide _ then _ else _).
    assert (Hdig : all_chars is_ascii_digit digits = true ∧ dec_value 0 digits = n ∧
                   (Z.to_nat s < String.length digits)%nat).
    { unfold digits. case_decide.
      - rewrite all_chars_app, zeros_digits, dec_digits, dec_value_zeros, str_app_length, zeros_length.
        split_and!; [done|done|lia].
      - split_and!; [apply dec_digits|done|lia]. }
    clearbody digits. destruct Hdig as (Hd & Hdv & Hl).
    set (pos := (String.length digits - Z.to_nat s)%nat).
    pose proof (str_take_drop pos digits) as Htd. rewrite <-Htd, all_chars_app in Hd.
    apply andb_true_iff in Hd as [Hw Hf].
    assert (Hfl : Z.of_nat (String.length (str_drop pos digits)) = s).
    { rewrite str_drop_length. unfold pos, fits in *. lia. }
    destruct (decimal_price_point (str_take pos digits) (str_drop pos digits)) as (p & Hp & Hsame & Hpos); try done.
    + intros E. apply (f_equal String.length) in E. rewrite str_take_length in E. cbn in E. unfold pos in E. lia.
    + rewrite Hfl. apply Hs.
    + rewrite Htd, Hdv, Hfl in Hsame. by exists p.
Qed.
End UsdLemmas.

(** ** Sorting *)

Lemma sort_insert_perm {A} (cmp : A → A → comparison) x l : sort_insert cmp x l ≡ₚ x :: l.
Proof.
  induction l as [|y l IH]; [done|]. cbn [sort_insert]. destruct (cmp x y); try done.
  rewrite IH. apply Permutation_swap.
Qed.

Lemma sort_by_perm {A} (cmp : A → A → comparison) l : sort_by cmp l ≡ₚ l.
Proof. induction l as [|x l IH]; [done|]. cbn. by rewrite sort_insert_perm, IH. Qed.

Section Sorting.
Context {A : Type} (cmp : A → A → comparison) (R : relation A) `{!Transitive R}.
Hypothesis cmp_after : ∀ x y, cmp x y = Gt → R y x.
Hypothesis cmp_before : ∀ x y, cmp x y ≠ Gt → R x y.

Lemma sort_insert_sorted x l : StronglySorted R l → StronglySorted R (sort_insert cmp x l).
Proof using All.
  induction 1 as [|y l Hl IH Hy]; cbn [sort_insert]; [repeat constructor|].
  assert (Hkeep : cmp x y ≠ Gt → StronglySorted R (x :: y :: l)).
  { intros Hxy%cmp_before. repeat constructor; [done..|]. eapply Forall_impl; [exact Hy|].
    intros z Hz. by transitivity y. }
  destruct (cmp x y) eqn:E; try (apply Hkeep; congruence).
  constructor; [done|]. rewrite sort_insert_perm. constructor; [by apply cmp_after|done].
Qed.

Lemma sort_by_sorted l : StronglySorted R (sort_by cmp l).
Proof using All. induction l as [|x l IH]; [constructor|]. by apply sort_insert_sorted. Qed.
End Sorting.

(** ** The ranking *)

Definition value_le (a b : UsdBalance) : Prop :=
  ub_numerator a * 10 ^ ub_scale b ≤ ub_numerator b * 10 ^ ub_scale a.

Lemma pow10_pos s : 0 ≤ s → 0 < 10 ^ s.
Proof. intros. apply Z.pow_pos_nonneg; lia. Qed.

(** The comparison at one scale is the comparison of the values. *)
Lemma usd_cmp_value a b :
  0 ≤ ub_scale a → 0 ≤ ub_scale b →
  usd_cmp a b = (ub_numerator a * 10 ^ ub_scale b ?= ub_numerator b * 10 ^ ub_scale a).
Proof.
  destruct a as [n s], b as [m t]. unfold usd_cmp, power_of_ten. cbn [ub_numerator ub_scale]. intros Hs Ht.
  assert (Hscale : ∀ x y k, 0 ≤ k → (x ?= y) = (x * 10 ^ k ?= y * 10 ^ k)).
  { intros x y k Hk. pose proof (pow10_pos k Hk).
    destruct (Z.compare_spec x y), (Z.compare_spec (x * 10 ^ k) (y * 10 ^ k)); try done; nia. }
  destruct (Z.compare_spec s t) as [->|Hlt|Hlt].
  - by apply Hscale.
  - rewrite (Hscale _ _ s Hs). f_equal. rewrite <-Z.mul_assoc, <-Z.pow_add_r by lia. do 2 f_equal. lia.
  - rewrite (Hscale _ _ t Ht). f_equal. rewrite <-Z.mul_assoc, <-Z.pow_add_r by lia. do 2 f_equal. lia.
Qed.

Lemma value_le_trans a b c :
  0 ≤ ub_scale a → 0 ≤ ub_scale b → 0 ≤ ub_scale c → value_le a b → value_le b c → value_le a c.
Proof.
  unfold value_le. intros Ha Hb Hc H1 H2.
  pose proof (pow10_pos _ Ha). pose proof (pow10_pos _ Hb). pose proof (pow10_pos _ Hc).
  apply (Z.mul_le_mono_pos_r _ _ (10 ^ ub_scale b)); [done|].
  transitivity (ub_numerator b * 10 ^ ub_scale a * 10 ^ ub_scale c).
  - replace (ub_numerator a * 10 ^ ub_scale c * 10 ^ ub_scale b)
      with (ub_numerator a * 10 ^ ub_scale b * 10 ^ ub_scale c) by lia.
    apply Z.mul_le_mono_nonneg_r; [lia|done].
  - replace (ub_numerator b * 10 ^ ub_scale a * 10 ^ ub_scale c)
      with (ub_numerator b * 10 ^ ub_scale c * 10 ^ ub_scale a) by lia.
    replace (ub_numerator c * 10 ^ ub_scale a * 10 ^ ub_scale b)
      with (ub_numerator c * 10 ^ ub_scale b * 10 ^ ub_scale a) by lia.
    apply Z.mul_le_mono_nonneg_r; [lia|done].
Qed.

Section Ranking.
Context `{HX : Hex} `{BU : BigUintText}.

(** [q] may stand before [r]: it is worth as much, or [r] has no price. *)
Definition ranks_before (q r : InBandGasQuote) : Prop :=
  match usd_balance_key q, usd_balance_key r with
  | Some a, Some b => value_le b a
  | None, Some _ => False
  | _, None => True
  end.

Lemma decimal_price_nonneg s p : decimal_price s = Some p → 0 ≤ ub_numerator p ∧ fits 32 (ub_scale p).
Proof.
  unfold decimal_price. destruct (default _ _) as [w f]. intros H. inv_checked. cbn.
  split; [by eapply biguint_parse_nonneg|done].
Qed.

Lemma usd_balance_key_scale q k : usd_balance_key q = Some k → 0 ≤ ub_scale k.
Proof.
  unfold usd_balance_key. intros (s & _ & H)%bind_Some. by apply decimal_price_nonneg in H as [_ [H _]].
Qed.

#[local] Instance ranks_before_trans : Transitive ranks_before.
Proof.
  intros q r s. unfold ranks_before.
  destruct (usd_balance_key q) as [a|] eqn:Ha, (usd_balance_key r) as [b|] eqn:Hb,
    (usd_balance_key s) as [c|] eqn:Hc; try done.
  apply usd_balance_key_scale in Ha, Hb, Hc. intros H1 H2. exact (value_le_trans c b a Hc Hb Ha H2 H1).
Qed.

Lemma usd_order q r :
  (compare_usd_balance_descending q r = Gt → ranks_before r q) ∧
  (compare_usd_balance_descending q r ≠ Gt → ranks_before q r).
Proof.
  unfold compare_usd_balance_descending, ranks_before, then_with.
  destruct (usd_balance_key q) as [a|] eqn:Ha, (usd_balance_key r) as [b|] eqn:Hb; try done.
  apply usd_balance_key_scale in Ha, Hb. rewrite usd_cmp_value by done. unfold value_le.
  destruct (Z.compare_spec (ub_numerator b * 10 ^ ub_scale a) (ub_numerator a * 10 ^ ub_scale b));
    split; intros; try done; lia.
Qed.

(** ** The rows *)

(** An RPC quantity's value. *)
Definition quantity_value (s : string) : option Z :=
  digits ← str_strip_prefix "0x" s;
  if bool_decide (digits = "") then None else hex_value 0 digits.

(** A row's USD balance is its balance at its price, exactly. *)
Definition exactly_worth (q : InBandGasQuote) : Prop :=
  ∀ balance price p, quantity_value (iq_balance q) = Some balance → iq_usd_price q = Some price →
    decimal_price price = Some p → fits 32 (iq_decimals q + ub_scale p) →
    ∃ usd, usd_balance_key q = Some usd ∧
      same_value usd {| ub_numerator := balance * ub_numerator p; ub_scale := iq_decimals q + ub_scale p |}.

Lemma usd_balance_exact q :
  iq_usd_balance q = usd_balance_from_values (iq_balance q) (iq_decimals q) (iq_usd_price q) →
  exactly_worth q.
Proof.
  intros Hq balance price p Hb Hp Hd Hfit. unfold usd_balance_key. rewrite Hq, Hp.
  unfold quantity_value in Hb. apply bind_Some in Hb as (digits & Hs & Hb).
  destruct (bool_decide (digits = "")) eqn:Hne; [done|]. apply bool_decide_eq_false in Hne.
  unfold usd_balance_from_values. rewrite Hs. cbn [mbind option_bind].
  rewrite (biguint_parse_hex digits balance) by done. cbn [mbind option_bind]. rewrite Hd. cbn [mbind option_bind].
  rewrite checked_fits by done. cbn [mbind option_bind].
  apply decimal_price_nonneg in Hd as [Hn _]. pose proof (hex_value_ge 0 digits balance ltac:(lia) Hb).
  destruct (to_decimal_string_value {| ub_numerator := balance * ub_numerator p;
    ub_scale := iq_decimals q + ub_scale p |}) as (usd & Hu & Hsame & _); cbn; [nia|done|].
  by exists usd.
Qed.

Lemma stable_quotes_row recipient stables values q :
  q ∈ stable_quotes recipient stables values →
  ∃ i stable, stables !! i = Some stable ∧ stable_quote recipient values i stable = Some q.
Proof.
  unfold stable_quotes. intros Hq. apply list_elem_of_omap in Hq as (o & Ho & Hq). cbn in Hq. subst o.
  apply elem_of_lookup_imap in Ho as (i & stable & Heq & Hl). eauto.
Qed.
End Ranking.

Section Claims.
Context `{HX : Hex} `{BU : BigUintText}.

Lemma quotes_exact native_decimals native_symbol recipient native_price stables values native q :
  native_quote native_decimals native_symbol recipient native_price values = Some native →
  q ∈ native :: stable_quotes recipient stables values → exactly_worth q.
Proof.
  intros Hn Hq. apply usd_balance_exact. apply elem_of_cons in Hq as [->|Hq].
  - unfold native_quote in Hn. inv_checked. done.
  - apply stable_quotes_row in Hq as (i & stable & _ & Hrow). unfold stable_quote in Hrow. by inv_checked.
Qed.

(** Row [index]'s two answers are those of its own two calls, when every
    listed contract is an address. *)
Lemma requests_aligned safe_address stables calls index stable :
  multicall_requests safe_address stables = Some calls →
  Forall (λ s, is_Some (quote_address (qs_contract s))) stables →
  stables !! index = Some stable →
  ∃ target, quote_address (qs_contract stable) = Some target ∧
    calls !! (1 + index * 2)%nat = Some {| mc_target := target; mc_call_data := ERC20_DECIMALS_SELECTOR |} ∧
    calls !! (2 + index * 2)%nat = Some {| mc_target := target;
      mc_call_data := ERC20_BALANCE_OF_SELECTOR ++ quote_address_word safe_address |}.
Proof.
  unfold multicall_requests. intros (m & _ & [= <-])%bind_Some Hall. cbn [lookup list_lookup Nat.add].
  revert index. induction Hall as [|s stables [t Ht] Hall IH]; intros index Hl; [done|].
  cbn [map concat]. unfold stable_requests at 1 3. rewrite Ht. destruct index as [|index].
  - injection Hl as ->. exists t. done.
  - destruct (IH index Hl) as (t' & ? & ? & ?). exists t'. done.
Qed.

(** A quote lists exactly the assets that answered, the Safe's richest
    first.  The rows are the native row and one row per stablecoin whose
    decimals and balance were both read; each row's USD balance denotes its
    balance times its price exactly, whatever the size of the balance; and a
    row stands before another only if it is worth at least as much or the
    other has no price.  When every listed contract is an address, the answers
    a row is read from are those of its own two calls. *)
Theorem quotes_rank_by_exact_value native_decimals native_symbol recipient native_price stables values quotes :
  quotes_from_multicall native_decimals native_symbol recipient native_price stables values = Ok quotes →
  (∃ native, native_quote native_decimals native_symbol recipient native_price values = Some native ∧
     quotes ≡ₚ native :: stable_quotes recipient stables values) ∧
  StronglySorted ranks_before quotes ∧
  Forall exactly_worth quotes ∧
  (∀ safe_address calls index stable,
     multicall_requests safe_address stables = Some calls →
     Forall (λ s, is_Some (quote_address (qs_contract s))) stables → stables !! index = Some stable →
     ∃ target, quote_address (qs_contract stable) = Some target ∧
       (mc_target <$> calls !! (1 + index * 2)%nat) = Some target ∧
       (mc_target <$> calls !! (2 + index * 2)%nat) = Some target).
Proof.
  unfold quotes_from_multicall. intros (native & Hn%ok_or_Ok & H)%result_bind_Ok.
  set (rows := native :: _) in H.
  assert (quotes = sort_by compare_usd_balance_descending rows) as -> by (by injection H). clear H.
  split_and!.
  - exists native. split; [done|]. apply sort_by_perm.
  - apply sort_by_sorted; [apply ranks_before_trans| |]; intros x y;
      [apply (proj1 (usd_order x y))|apply (proj2 (usd_order x y))].
  - apply Forall_forall. intros q Hq. eapply quotes_exact; [done|].
    rewrite sort_by_perm in Hq. exact Hq.
  - intros safe_address calls index stable Hc Hall Hi.
    destruct (requests_aligned _ _ _ _ _ Hc Hall Hi) as (t & Ht & -> & ->). by exists t.
Qed.
End Claims.

(** Ten cents of native coin, a thousand dollars of a stablecoin and a contract
    that did not answer. *)
Definition sample_stables : list QuoteStable :=
  [{| qs_symbol := "USDC"; qs_contract := "0xaf88d065e77c8cc2239327c5edb3a432268e5831" |};
   {| qs_symbol := "BAD"; qs_contract := "0x0000000000000000000000000000000000000bad" |}].
Definition sample_values : list MulticallResult :=
  [{| mr_success := true; mr_return_data := be_bytes 32 (10 ^ 14) |};
   {| mr_success := true; mr_return_data := be_bytes 32 6 |};
   {| mr_success := true; mr_return_data := be_bytes 32 1000000000 |};
   {| mr_success := false; mr_return_data := [] |};
   {| mr_success := true; mr_return_data := be_bytes 32 1 |}].
Definition sample_quotes : list InBandGasQuote :=
  default [] (ok (@quotes_from_multicall ref_hex ref_biguint 18 "ETH" "0x01" (Some "1000.50")
                    sample_stables sample_values)).

Lemma quotes_rank_by_exact_value_witness :
  map iq_usd_balance sample_quotes = [Some "1000"; Some "0.10005"] ∧
  StronglySorted (@ranks_before ref_biguint) sample_quotes.
Proof.
  split; [vm_compute; reflexivity|].
  refine (proj1 (proj2 (@quotes_rank_by_exact_value ref_hex ref_biguint 18 "ETH" "0x01" (Some "1000.50")
    sample_stables sample_values sample_quotes _))).
  vm_compute. reflexivity.
Defined.

