(* ===== verification/Treasury.v ===== *)
(** * Treasury: can this relay pay gas here, and where is an account
    ([vela-relay-core/src/treasury.rs] and [account.rs])

    The treasury probe - which balance is read, what the answer means, the
    floor a person is warned about, and why there is no answer - and the public
    view of one account.  Balances are compared as texts, so no width bounds
    them. *)

From S2P Require Export Quote Directory Abi Hold.
#[local] Open Scope string_scope.
#[local] Open Scope list_scope.
#[local] Open Scope Z_scope.

(** ** Definitions *)

Definition NATIVE_TREASURY_FLOOR : string := "0x5af3107a4000".
Definition PATH_USD_TOP_UP_GAS_HEADROOM : Z := 50000.
Definition PATH_USD_TREASURY_FLOOR_MICRO : Z :=
  TEMPO_TREASURY_FLOOR + TEMPO_FLOAT_TARGET + PATH_USD_TOP_UP_GAS_HEADROOM.
Definition PATH_USD_TREASURY_FLOOR : string := "0x86470".

Inductive TreasuryAsset : Type := TreasuryNative | TreasuryPathUsd.

#[export] Instance TreasuryAsset_eq_dec : EqDecision TreasuryAsset.
Proof. solve_decision. Defined.

Definition asset_for_chain (chain_id : Z) : TreasuryAsset :=
  if is_tempo_chain chain_id then TreasuryPathUsd else TreasuryNative.
Definition asset_as_str (a : TreasuryAsset) : string :=
  match a with TreasuryNative => "native" | TreasuryPathUsd => "pathUSD" end.
Definition asset_floor (a : TreasuryAsset) : string :=
  match a with
  | TreasuryNative => NATIVE_TREASURY_FLOOR
  | TreasuryPathUsd => PATH_USD_TREASURY_FLOOR
  end.

Inductive ProbeFailure : Type :=
  | RpcUnavailable | InvalidBalance | InvalidAddress | ProbeNotListed | NoRpc.

#[export] Instance ProbeFailure_eq_dec : EqDecision ProbeFailure.
Proof. solve_decision. Defined.

Definition probe_message (f : ProbeFailure) : string :=
  match f with
  | RpcUnavailable => "treasury RPC is unavailable"
  | InvalidBalance => "treasury RPC returned an invalid balance"
  | InvalidAddress => "settlement recipient is not a valid address"
  | ProbeNotListed => "this relay's chain directory does not list the chain"
  | NoRpc => "this relay has no RPC it can use for the chain"
  end.
Definition http_status (f : ProbeFailure) : Z :=
  match f with ProbeNotListed | NoRpc => 404 | _ => 503 end.
Definition probe_reason (f : ProbeFailure) : option string :=
  match f with
  | ProbeNotListed => Some "not_listed"
  | NoRpc => Some "no_rpc"
  | _ => None
  end.
Definition probe_body (f : ProbeFailure) : Value :=
  match probe_reason f with
  | Some reason => VObject [("error", VString (probe_message f)); ("reason", VString reason)]
  | None => VObject [("error", VString (probe_message f))]
  end.

Inductive ClientRpc : Type := ClientAbsent | ClientUsed | ClientRefused.

Definition unreadable (listing : Listing) (client_rpc : ClientRpc) (tried : bool) : ProbeFailure :=
  match tried, listing, client_rpc with
  | false, Unavailable, _ => RpcUnavailable
  | false, _, _ => NoRpc
  | true, _, ClientRefused => NoRpc
  | true, _, _ => RpcUnavailable
  end.

Record BalanceRead : Type := { br_method : string; br_params : Value }.

Record TreasuryStatus : Type := {
  ts_chain_id : Z; ts_address : string; ts_asset : TreasuryAsset; ts_balance : string;
  ts_floor : string; ts_bootstrap_needed : bool }.

Definition ser_treasury_status (s : TreasuryStatus) : Value :=
  VObject [("chainId", VNumber (ts_chain_id s)); ("address", VString (ts_address s));
           ("asset", VString (asset_as_str (ts_asset s))); ("balance", VString (ts_balance s));
           ("floor", VString (ts_floor s)); ("bootstrapNeeded", VBool (ts_bootstrap_needed s))].

(** [u8::is_ascii_hexdigit] *)
Definition is_ascii_hexdigit (a : ascii) : bool := bool_decide (is_Some (hex_digit_value a)).

Definition treasury_parse_quantity (value : string) : result () string :=
  digits ← ok_or (str_strip_prefix "0x" value) ();
  if negb (bool_decide (digits = "")) && all_chars is_ascii_hexdigit digits
  then Ok ("0x" +:+ to_ascii_lowercase digits) else Err ().

(** [str]'s order is its bytes'. *)
Definition str_lt (a b : string) : bool :=
  match String.compare a b with Lt => true | _ => false end.

Definition significant_digits (value : string) : string := trim_start_char "0" (trim_start_0x value).

Definition quantity_is_below (value floor : string) : bool :=
  let value := significant_digits value in
  let floor := significant_digits floor in
  bool_decide (String.length value < String.length floor)%nat ||
  (bool_decide (String.length value = String.length floor) && str_lt value floor).

Section Probe.
Context `{HA : Alloy} `{TC : TokenCalls}.

Definition balance_read (chain_id : Z) (treasury : string) : result ProbeFailure BalanceRead :=
  match asset_for_chain chain_id with
  | TreasuryNative =>
      Ok {| br_method := "eth_getBalance"; br_params := VArray [VString treasury; VString "latest"] |}
  | TreasuryPathUsd =>
      treasury ← ok_or (quote_address treasury) InvalidAddress;
      let calldata := encode_balance_of (be_value treasury) in
      Ok {| br_method := "eth_call";
            br_params := VArray [VObject [("to", VString (address_to_string PATH_USD));
                                          ("data", VString (bytes_to_hex calldata))];
                                 VString "latest"] |}
  end.

Definition parse_abi_uint256 (value : string) : result () string :=
  digits ← ok_or (str_strip_prefix "0x" value) ();
  word ← ok_or (hex_decode digits) ();
  ok_or (bytes32_quantity word) ().

Definition treasury_status (chain_id : Z) (treasury : string) (result : Value) :
    Prelude.result ProbeFailure TreasuryStatus :=
  let asset := asset_for_chain chain_id in
  result ← ok_or (as_str result) InvalidBalance;
  balance ← map_err (λ _, InvalidBalance)
    (match asset with
     | TreasuryNative => treasury_parse_quantity result
     | TreasuryPathUsd => parse_abi_uint256 result
     end);
  let floor := asset_floor asset in
  Ok {| ts_chain_id := chain_id; ts_address := treasury; ts_asset := asset;
        ts_bootstrap_needed := quantity_is_below balance floor;
        ts_balance := balance; ts_floor := floor |}.
End Probe.

(** *** The account view *)

Definition ENTRY_POINT_NONCE_SELECTOR : string := "35567e1a".

Inductive AccountStatus : Type := Active | InsufficientBalance | LockedPendingUnknown.

Definition account_status_as_str (s : AccountStatus) : string :=
  match s with
  | Active => "ACTIVE"
  | InsufficientBalance => "INSUFFICIENT_BALANCE"
  | LockedPendingUnknown => "LOCKED_PENDING_UNKNOWN"
  end.

Definition normalize_address (value : string) : option string :=
  if bool_decide (String.length value = 42%nat) && starts_with "0x" value &&
     all_chars is_ascii_hexdigit (str_drop 2 value)
  then Some (to_ascii_lowercase value) else None.

Definition parse_nonce (quantity : string) : result () Z :=
  quantity ← treasury_parse_quantity quantity;
  ok_or (from_str_radix16 64 (str_drop 2 quantity)) ().

(** [{:0>64}] *)
Definition pad_64 (s : string) : string := zeros (64 - String.length s) +:+ s.

Definition entry_point_nonce_calldata (safe_address : string) : option string :=
  address ← str_strip_prefix "0x" safe_address;
  Some ("0x" +:+ ENTRY_POINT_NONCE_SELECTOR +:+ pad_64 address +:+ pad_64 "").

Definition account_status (balance : string) (latest_nonce pending_nonce : Z) : AccountStatus :=
  if decide (latest_nonce < pending_nonce) then LockedPendingUnknown
  else if all_chars (λ a, bool_decide (a = "0"%char)) (trim_start_0x balance) then InsufficientBalance
  else Active.

(** ** Quantities compared as texts *)

Lemma hex_digit_some a : is_ascii_hexdigit a = true ↔ ∃ d, hex_digit_value a = Some d.
Proof. unfold is_ascii_hexdigit. by rewrite bool_decide_eq_true. Qed.

Lemma hex_value_is_Some s acc :
  all_chars is_ascii_hexdigit s = true → ∃ v, hex_value acc s = Some v.
Proof.
  revert acc. induction s as [|a s IH]; intros acc; cbn [all_chars hex_value]; [by eexists|].
  rewrite andb_true_iff, hex_digit_some. intros [[d Hd] Hs]. rewrite Hd. by apply IH.
Qed.

Lemma hex_value_all s acc v : hex_value acc s = Some v → all_chars is_ascii_hexdigit s = true.
Proof.
  revert acc. induction s as [|a s IH]; intros acc; cbn [all_chars hex_value]; [done|].
  intros (d & Hd & H)%bind_Some. rewrite andb_true_iff, hex_digit_some. eauto.
Qed.

Lemma hex_value_lower s acc : hex_value acc (to_ascii_lowercase s) = hex_value acc s.
Proof.
  revert acc. induction s as [|a s IH]; intros acc; [done|]. cbn [to_ascii_lowercase hex_value].
  rewrite hex_digit_value_lower. destruct (hex_digit_value a); [apply IH|done].
Qed.

Lemma trim_start_zero_value s : hex_value 0 (trim_start_char "0" s) = hex_value 0 s.
Proof.
  induction s as [|a s IH]; [done|]. cbn [trim_start_char]. case_decide as Ha; [|done].
  subst a. rewrite IH. reflexivity.
Qed.

(** Canonical digits: lower case, the first one not zero. *)
Definition lower_digits (s : string) : bool := all_chars (λ a, bool_decide (ascii_lower a = a)) s.
Definition no_leading_zero (s : string) : bool :=
  match s with String a _ => negb (bool_decide (a = "0"%char)) | EmptyString => true end.

Lemma trim_start_no_zero s : no_leading_zero (trim_start_char "0" s) = true.
Proof.
  induction s as [|a s IH]; [done|]. cbn [trim_start_char]. case_decide; [done|].
  cbn. by rewrite bool_decide_eq_false_2.
Qed.

Lemma trim_start_all_chars P s : all_chars P s = true → all_chars P (trim_start_char "0" s) = true.
Proof.
  induction s as [|a s IH]; [done|]. intros H. cbn [trim_start_char]. case_decide; [|done].
  apply IH. cbn in H. by apply andb_true_iff in H as [_ H].
Qed.

(** Lower-case digits are ordered as the numbers they denote. *)
Lemma digit_order a b d e :
  ascii_lower a = a → ascii_lower b = b → hex_digit_value a = Some d → hex_digit_value b = Some e →
  Ascii.compare a b = (d ?= e).
Proof.
  intros Ha Hb Hd He. unfold Ascii.compare. rewrite <-N2Z.inj_compare.
  assert (Hl : ∀ c v, ascii_lower c = c → hex_digit_value c = Some v →
    Z.of_N (N_of_ascii c) = if decide (v < 10) then v + 48 else v + 87).
  { intros c v Hc Hv. clear -Hc Hv. revert Hc Hv. destruct c as [[] [] [] [] [] [] [] []]; vm_compute; intros Hc Hv;
      simplify_eq; done. }
  rewrite (Hl a d Ha Hd), (Hl b e Hb He).
  pose proof (hex_digit_value_range _ _ Hd). pose proof (hex_digit_value_range _ _ He).
  destruct (Z.compare_spec d e); repeat case_decide; subst;
    first [exfalso; lia | apply Z.compare_refl | apply Z.compare_lt_iff; lia | apply Z.compare_gt_iff; lia].
Qed.

Lemma equal_length_order s t v w :
  String.length s = String.length t → lower_digits s = true → lower_digits t = true →
  hex_value 0 s = Some v → hex_value 0 t = Some w → String.compare s t = (v ?= w).
Proof.
  revert t v w. induction s as [|a s IH]; intros [|b t] v w Hlen Hs Ht Hv Hw; try done.
  - by simplify_eq/=.
  - injection Hlen as Hlen. cbn [lower_digits all_chars] in Hs, Ht.
    apply andb_true_iff in Hs as [Ha%bool_decide_eq_true Hs], Ht as [Hb%bool_decide_eq_true Ht].
    cbn [hex_value] in Hv, Hw. apply bind_Some in Hv as (d & Hd & Hv), Hw as (e & He & Hw).
    destruct (hex_value_is_Some s 0 (hex_value_all _ _ _ Hv)) as [v' Hv'].
    destruct (hex_value_is_Some t 0 (hex_value_all _ _ _ Hw)) as [w' Hw'].
    rewrite (hex_value_acc _ _ _ Hv') in Hv. rewrite (hex_value_acc _ _ _ Hw') in Hw.
    injection Hv as <-. injection Hw as <-. rewrite Hlen.
    pose proof (hex_value_bound _ _ Hv') as Hvb. pose proof (hex_value_bound _ _ Hw') as Hwb.
    rewrite Hlen in Hvb. cbn [String.compare]. rewrite (digit_order a b d e) by done.
    set (p := 16 ^ Z.of_nat (String.length t)) in *.
    destruct (Z.compare_spec d e) as [->|Hlt|Hlt].
    + rewrite (IH t v' w') by done. destruct (Z.compare_spec v' w'); symmetry;
        [apply Z.compare_eq_iff|apply Z.compare_lt_iff|apply Z.compare_gt_iff]; lia.
    + symmetry. apply Z.compare_lt_iff. nia.
    + symmetry. apply Z.compare_gt_iff. nia.
Qed.

Lemma leading_digit_bound s v :
  s ≠ "" → no_leading_zero s = true → hex_value 0 s = Some v →
  16 ^ (Z.of_nat (String.length s) - 1) ≤ v.
Proof.
  destruct s as [|a s]; [done|]. intros _ Ha Hv. cbn [no_leading_zero] in Ha.
  apply negb_true_iff, bool_decide_eq_false in Ha.
  cbn [hex_value] in Hv. apply bind_Some in Hv as (d & Hd & Hv).
  destruct (hex_value_is_Some s 0 (hex_value_all _ _ _ Hv)) as [v' Hv'].
  rewrite (hex_value_acc _ _ _ Hv') in Hv. injection Hv as <-.
  pose proof (hex_value_bound _ _ Hv'). cbn [String.length].
  replace (Z.of_nat (S (String.length s)) - 1) with (Z.of_nat (String.length s)) by lia.
  assert (d ≠ 0).
  { intros ->. apply Ha. clear -Hd. destruct a as [[] [] [] [] [] [] [] []]; vm_compute in Hd; done. }
  apply hex_digit_value_range in Hd. nia.
Qed.

Lemma significant_below s t v w :
  lower_digits s = true → lower_digits t = true → no_leading_zero s = true → no_leading_zero t = true →
  hex_value 0 s = Some v → hex_value 0 t = Some w →
  bool_decide (String.length s < String.length t)%nat ||
  (bool_decide (String.length s = String.length t) && str_lt s t) = bool_decide (v < w).
Proof.
  intros Hs Ht Hzs Hzt Hv Hw. pose proof (hex_value_bound _ _ Hv) as Hvb.
  pose proof (hex_value_bound _ _ Hw) as Hwb. apply Bool.eq_true_iff_eq.
  rewrite orb_true_iff, andb_true_iff, !bool_decide_eq_true. unfold str_lt.
  destruct (Nat.lt_trichotomy (String.length s) (String.length t)) as [Hlt|[Heq|Hgt]].
  - split; [intros _|by left].
    pose proof (leading_digit_bound t w ltac:(intros ->; cbn in Hlt; lia) Hzt Hw).
    pose proof (Z.pow_le_mono_r 16 (Z.of_nat (String.length s)) (Z.of_nat (String.length t) - 1)). lia.
  - rewrite (equal_length_order s t v w) by done. rewrite <-Z.compare_lt_iff. split.
    + intros [?|[_ H]]; [lia|]. by destruct (v ?= w).
    + intros ->. by right.
  - split; [intros [?|[? _]]; lia|]. intros Hvw.
    pose proof (leading_digit_bound s v ltac:(intros ->; cbn in Hgt; lia) Hzs Hv).
    pose proof (Z.pow_le_mono_r 16 (Z.of_nat (String.length t)) (Z.of_nat (String.length s) - 1)). lia.
Qed.

Lemma trim_start_0x_digits digits v : hex_value 0 digits = Some v → trim_start_0x digits = digits.
Proof.
  intros Hv. destruct digits as [|a [|b s]]; [done|by destruct a as [[] [] [] [] [] [] [] []]|].
  destruct (decide (a = "0"%char ∧ b = "x"%char)) as [[-> ->]|Hab].
  - exfalso. cbn in Hv. done.
  - clear -Hab. destruct a as [[] [] [] [] [] [] [] []]; try done.
    destruct b as [[] [] [] [] [] [] [] []]; try done. by destruct Hab.
Qed.

(** What the probe compares: a prefixed quantity of lower-case digits. *)
Definition canonical (value : string) (v : Z) : Prop :=
  ∃ digits, value = "0x" +:+ digits ∧ digits ≠ "" ∧ lower_digits digits = true ∧
    hex_value 0 digits = Some v.

Lemma canonical_digits value v :
  canonical value v → lower_digits (significant_digits value) = true ∧
  no_leading_zero (significant_digits value) = true ∧ hex_value 0 (significant_digits value) = Some v.
Proof.
  intros (digits & -> & _ & Hl & Hv). unfold significant_digits.
  change (trim_start_0x ("0x" +:+ digits)) with (trim_start_0x digits).
  rewrite (trim_start_0x_digits digits v Hv).
  split_and!; [by apply trim_start_all_chars|apply trim_start_no_zero|by rewrite trim_start_zero_value].
Qed.

Lemma quantity_is_below_value value floor v w :
  canonical value v → canonical floor w → quantity_is_below value floor = bool_decide (v < w).
Proof.
  intros (Hl & Hz & Hv)%canonical_digits (Hl' & Hz' & Hv')%canonical_digits.
  by apply significant_below.
Qed.

(** ** The verdict *)

Section Verdict.
Context `{HA : Alloy} `{TC : TokenCalls}.

(** The balance, in base units, an RPC answer denotes. *)
Definition balance_reads (asset : TreasuryAsset) (text : string) (v : Z) : Prop :=
  match asset with
  | TreasuryNative => quantity_value text = Some v
  | TreasuryPathUsd => ∃ digits word, str_strip_prefix "0x" text = Some digits ∧
      hex_decode digits = Some word ∧ length word = 32%nat ∧ v = be_value word
  end.
Definition floor_units (asset : TreasuryAsset) : Z :=
  match asset with TreasuryNative => 10 ^ 14 | TreasuryPathUsd => PATH_USD_TREASURY_FLOOR_MICRO end.

Lemma floor_canonical asset : canonical (asset_floor asset) (floor_units asset).
Proof.
  destruct asset; [exists "5af3107a4000"|exists "86470"]; (split_and!; [reflexivity|done|reflexivity|]);
    vm_compute; reflexivity.
Qed.

Lemma lower_digits_iff s : lower_digits s = true ↔ to_ascii_lowercase s = s.
Proof.
  induction s as [|a s IH]; [done|]. cbn. rewrite andb_true_iff, bool_decide_eq_true. fold (lower_digits s).
  rewrite IH. split; [intros [-> ->]; done|]. by intros [= -> ->].
Qed.

Lemma parse_quantity_canonical text q v :
  treasury_parse_quantity text = Ok q → quantity_value text = Some v → canonical q v.
Proof.
  unfold treasury_parse_quantity, quantity_value. intros (digits & Hd%ok_or_Ok & Hq)%result_bind_Ok.
  rewrite Hd. cbn [mbind option_bind]. destruct (bool_decide (digits = "")) eqn:E; [done|].
  apply bool_decide_eq_false in E. intros Hv. cbn [negb andb] in Hq.
  destruct (all_chars is_ascii_hexdigit digits); [|done]. injection Hq as <-.
  exists (to_ascii_lowercase digits). split_and!; [done|by destruct digits| |by rewrite hex_value_lower].
  apply lower_digits_iff, to_ascii_lowercase_idem.
Qed.

Lemma parse_quantity_iff text :
  (∃ q, treasury_parse_quantity text = Ok q) ↔ ∃ v, quantity_value text = Some v.
Proof.
  unfold treasury_parse_quantity, quantity_value. destruct (str_strip_prefix "0x" text) as [digits|]; [|naive_solver].
  cbn. destruct (bool_decide (digits = "")); [naive_solver|]. cbn [negb andb].
  destruct (all_chars is_ascii_hexdigit digits) eqn:E.
  - destruct (hex_value_is_Some digits 0 E) as [v ->]. split; by eexists.
  - split; [naive_solver|]. intros [v Hv]. apply hex_value_all in Hv. congruence.
Qed.

Lemma bytes32_quantity_canonical word q :
  bytes32_quantity word = Some q → canonical q (be_value word).
Proof.
  unfold bytes32_quantity. case_decide; [|done]. intros [= <-].
  pose proof (hex_decode_value _ _ (hex_decode_encode word)) as Hv.
  rewrite <-trim_start_zero_value in Hv.
  assert (Hl : lower_digits (trim_start_char "0" (hex_encode word)) = true).
  { apply trim_start_all_chars, lower_digits_iff, hex_encode_lower. }
  case_bool_decide as E.
  - rewrite E in Hv. injection Hv as <-. by exists "0".
  - by exists (trim_start_char "0" (hex_encode word)).
Qed.

(** C39: the treasury's verdict is a comparison of numbers.  For every RPC
    answer: either it denotes a balance - a hexadecimal quantity of any length
    for a native coin, exactly one 32-byte word for pathUSD - and then the
    status reports that balance and asks for a bootstrap exactly when it is
    below the asset's floor; or it denotes none, and the probe fails: an empty
    or malformed answer is never a balance of zero. *)
Theorem treasury_verdict_exact chain_id treasury result :
  let asset := asset_for_chain chain_id in
  match treasury_status chain_id treasury result with
  | Ok status => ∃ text v, as_str result = Some text ∧ balance_reads asset text v ∧
      ts_asset status = asset ∧ canonical (ts_balance status) v ∧
      canonical (ts_floor status) (floor_units asset) ∧
      ts_bootstrap_needed status = bool_decide (v < floor_units asset)
  | Err failure => failure = InvalidBalance ∧
      ∀ text v, as_str result = Some text → ¬ balance_reads asset text v
  end.
Proof.
  cbn zeta. unfold treasury_status. destruct (as_str result) as [text|]; [|done].
  cbn [ok_or mbind result_mbind]. pose proof (floor_canonical (asset_for_chain chain_id)) as Hf.
  assert (Hok : ∀ q v, balance_reads (asset_for_chain chain_id) text v → canonical q v →
    ∃ t w, Some text = Some t ∧ balance_reads (asset_for_chain chain_id) t w ∧
      asset_for_chain chain_id = asset_for_chain chain_id ∧ canonical q w ∧
      canonical (asset_floor (asset_for_chain chain_id)) (floor_units (asset_for_chain chain_id)) ∧
      quantity_is_below q (asset_floor (asset_for_chain chain_id)) =
        bool_decide (w < floor_units (asset_for_chain chain_id))).
  { intros q v Hr Hc. exists text, v. split_and!; try done. by apply quantity_is_below_value. }
  destruct (asset_for_chain chain_id).
  - destruct (treasury_parse_quantity text) as [q|] eqn:E; cbn [map_err mbind result_mbind ts_asset ts_balance ts_floor ts_bootstrap_needed].
    + destruct (proj1 (parse_quantity_iff text) (ex_intro _ q E)) as [v Hv].
      apply (Hok q v); [done|]. by eapply parse_quantity_canonical.
    + split; [done|]. intros t v [= <-] Hr. destruct (proj2 (parse_quantity_iff text) (ex_intro _ v Hr)). congruence.
  - destruct (parse_abi_uint256 text) as [q|] eqn:E; cbn [map_err mbind result_mbind ts_asset ts_balance ts_floor ts_bootstrap_needed]; unfold parse_abi_uint256 in E.
    + inv_checked. rename select (bytes32_quantity _ = _) into Hq. apply (Hok q (be_value x0)).
      * exists x, x0. split_and!; try done. unfold bytes32_quantity in Hq. by case_decide.
      * by apply bytes32_quantity_canonical.
    + split; [done|]. intros t v [= <-] (digits & word & Hd & Hw & Hl & _). rewrite Hd in E.
      cbn [ok_or mbind result_mbind] in E. rewrite Hw in E. cbn [ok_or mbind result_mbind] in E. unfold bytes32_quantity in E. by rewrite decide_True in E.
Qed.

(** The pathUSD floor is enough for the top-up it warns about: an empty relayer
    is filled to its target, the top-up's gas is paid, and the reserve the
    executor insists on is still there. *)
Lemma path_usd_floor_covers_top_up prefund amount estimate limit fee cost :
  0 ≤ prefund ≤ TEMPO_FLOAT_TARGET → 0 ≤ estimate ≤ 600000 →
  plan_tempo_top_up 0 prefund = Ok (Some amount) →
  buffered_top_up_gas_limit estimate = Some limit →
  tempo_outer_max_fee TEMPO_BASE_FEE_ATTO = Ok fee → tempo_cost_in_path_usd limit fee = Some cost →
  amount + cost + TEMPO_TREASURY_FLOOR ≤ PATH_USD_TREASURY_FLOOR_MICRO.
Proof.
  intros Hp He Ha Hl Hf Hc. vm_compute in Hf. injection Hf as <-.
  assert (Hamount : amount = TEMPO_FLOAT_TARGET).
  { unfold plan_tempo_top_up in Ha. inv_checked. case_decide; [done|]. simplify_eq. lia. }
  unfold buffered_top_up_gas_limit, TEMPO_TOP_UP_GAS_BUFFER_BPS in Hl. inv_checked.
  assert (Hlimit : 0 ≤ estimate * 12000 / 10000 ≤ 720000) by (Z.to_euclidean_division_equations; lia).
  unfold tempo_cost_in_path_usd, PATH_USD_DECIMALS in Hc. inv_checked.
  assert (Hcost : ceil_quot (estimate * 12000 / 10000 * 30000000000 * 10 ^ 6) (10 ^ 18) ≤ 21600).
  { apply ceil_quot_le_iff; [done|]. change (10 ^ 6) with 1000000. change (10 ^ 18) with 1000000000000000000. lia. }
  unfold PATH_USD_TREASURY_FLOOR_MICRO, TEMPO_TREASURY_FLOOR, TEMPO_FLOAT_TARGET, PATH_USD_TOP_UP_GAS_HEADROOM in *.
  lia.
Qed.
End Verdict.

(** ** The account view *)

(** A balance is insufficient exactly when it is zero. *)
Lemma account_status_spec digits balance latest pending :
  hex_value 0 digits = Some balance →
  account_status ("0x" +:+ digits) latest pending =
    if decide (latest < pending) then LockedPendingUnknown
    else if decide (balance = 0) then InsufficientBalance else Active.
Proof.
  intros Hv. unfold account_status. case_decide; [done|].
  change (trim_start_0x ("0x" +:+ digits)) with (trim_start_0x digits).
  rewrite (trim_start_0x_digits digits balance Hv).
  rewrite <-trim_start_zero_value in Hv.
  assert (Hall : all_chars (λ a, bool_decide (a = "0"%char)) digits = bool_decide (trim_start_char "0" digits = "")).
  { clear. induction digits as [|a s IH]; [done|]. cbn [all_chars trim_start_char].
    destruct (decide (a = "0"%char)) as [->|Hne]; [exact IH|].
    by rewrite (bool_decide_eq_false_2 (a = _)) by done. }
  rewrite Hall. case_bool_decide as E.
  - rewrite E in Hv. injection Hv as <-. by rewrite decide_True.
  - pose proof (leading_digit_bound _ _ E (trim_start_no_zero digits) Hv).
    rewrite decide_False; [done|]. intros ->.
    pose proof (Z.pow_pos_nonneg 16 (Z.of_nat (String.length (trim_start_char "0" digits)) - 1) ltac:(lia)) as Hpos.
    destruct (trim_start_char "0" digits); [done|]. cbn [String.length] in *. lia.
Qed.
