(* ===== verification/Revert.v ===== *)
(** * Revert: why a simulated operation failed
    ([vela-relay-core/src/estimate.rs], the revert decoding)

    The revert bytes an RPC error carries - in its data, nested in it, or in
    its message - and the reason they encode.  [String::from_utf8] is the
    Standard Library's check, modelled byte by byte. *)

From S2P Require Export Multicall.
#[local] Open Scope string_scope.
#[local] Open Scope list_scope.
#[local] Open Scope Z_scope.

(** ** Definitions *)

Record SimulationRevert : Type := {
  rv_code : option Z; rv_message : string; rv_data : option Value }.

Inductive SimulationCallError : Type :=
  | CallReverted (error : SimulationRevert)
  | CallUnavailable.

(** [String::from_utf8] *)
Definition in_range (lo hi : Z) (b : byte) : bool := bool_decide (lo ≤ byteZ b ≤ hi).
Definition continues (b : byte) : bool := in_range 0x80 0xbf b.
Fixpoint valid_utf8 (l : list byte) : bool :=
  match l with
  | [] => true
  | a :: l1 =>
      if in_range 0 0x7f a then valid_utf8 l1
      else match l1 with
      | [] => false
      | b :: l2 =>
          if in_range 0xc2 0xdf a then continues b && valid_utf8 l2
          else match l2 with
          | [] => false
          | c :: l3 =>
              if (in_range 0xe0 0xe0 a && in_range 0xa0 0xbf b) ||
                 (in_range 0xe1 0xec a && continues b) || (in_range 0xed 0xed a && in_range 0x80 0x9f b) ||
                 (in_range 0xee 0xef a && continues b)
              then continues c && valid_utf8 l3
              else match l3 with
              | [] => false
              | d :: l4 =>
                  ((in_range 0xf0 0xf0 a && in_range 0x90 0xbf b) ||
                   (in_range 0xf1 0xf3 a && continues b) || (in_range 0xf4 0xf4 a && in_range 0x80 0x8f b)) &&
                  continues c && continues d && valid_utf8 l4
              end
          end
      end
  end.
Definition from_utf8 (bytes : list byte) : option string :=
  if valid_utf8 bytes then Some (String.string_of_list_byte bytes) else None.

(** [find_map], and the last of the longest ([max_by_key]). *)
Fixpoint find_map {A B} (f : A → option B) (l : list A) : option B :=
  match l with [] => None | x :: l => match f x with Some b => Some b | None => find_map f l end end.
Definition longest (l : list string) : option string :=
  foldl (λ best s, match best with
                   | Some b => if decide (String.length b ≤ String.length s)%nat then Some s else Some b
                   | None => Some s end) None l.

Definition is_hexdigit (a : ascii) : bool := match hex_digit_value a with Some _ => true | None => false end.

Definition valid_revert_data (value : string) : option string :=
  value ← str_strip_prefix "0x" value;
  if bool_decide (8 ≤ String.length value)%nat && Nat.even (String.length value) &&
     all_chars is_hexdigit value
  then Some ("0x" +:+ value) else None.

(** [depth] up to 4: five [levels]. *)
Fixpoint find_revert_data (levels : nat) (value : Value) : option string :=
  match levels with
  | O => None
  | S levels =>
      match value with
      | VString value => valid_revert_data value
      | VArray values => find_map (find_revert_data levels) values
      | VObject values =>
          find_map (λ key, value ← obj_get key values; find_revert_data levels value)
            ["data"; "revertData"; "originalError"; "error"]
      | _ => None
      end
  end.

(** The hexadecimal text that follows each [0x] of the message. *)
Fixpoint hex_prefix (s : string) : string :=
  match s with
  | String a s => if is_hexdigit a then String a (hex_prefix s) else EmptyString
  | EmptyString => EmptyString
  end.
Fixpoint match_0x (message : string) : list string :=
  match message with
  | EmptyString => []
  | String a rest =>
      if starts_with "0x" message then ("0x" +:+ hex_prefix (str_drop 1 rest)) :: match_0x rest
      else match_0x rest
  end.
Definition find_revert_data_in_message (message : string) : option string :=
  longest (omap valid_revert_data (match_0x message)).

Definition panic_reason (code : Z) : string :=
  let number := "Solidity panic 0x" +:+ lower_hex code in
  let described text := number +:+ ": " +:+ text in
  if decide (code = 0x01) then described "assertion failed"
  else if decide (code = 0x11) then described "arithmetic overflow or underflow"
  else if decide (code = 0x12) then described "division or modulo by zero"
  else if decide (code = 0x21) then described "invalid enum conversion"
  else if decide (code = 0x22) then described "invalid storage byte array"
  else if decide (code = 0x31) then described "empty array pop"
  else if decide (code = 0x32) then described "array index out of bounds"
  else if decide (code = 0x41) then described "memory allocation overflow"
  else if decide (code = 0x51) then described "invalid internal function"
  else number.

Definition ERROR_STRING_SELECTOR : list byte := [x08; xc3; x79; xa0].
Definition PANIC_SELECTOR : list byte := [x4e; x48; x7b; x71].
Definition FAILED_OP_SELECTOR : list byte := [x22; x02; x66; xb6].
Definition FAILED_OP_WITH_REVERT_SELECTOR : list byte := [x65; xc8; xfd; x4d].
Definition CALL_PHASE_REVERTED_SELECTOR : list byte := [x46; x2c; x71; xb2].
Definition SAFE_EXECUTION_FAILED_SELECTOR : list byte := [xac; xfd; xb4; x44].

Section Revert.
Context `{W : TargetWidth}.

Definition read_u128_word (data : list byte) (offset : Z) : option Z :=
  word ← word_at data offset;
  if existsb nonzero (take 16 word) then None else Some (be_value (drop 16 word)).

Definition abi_bytes (bytes : list byte) (arguments_start offset_position : Z) : option (list byte) :=
  offset ← quote_usize_word bytes offset_position;
  start ← usize_add arguments_start offset;
  length ← quote_usize_word bytes start;
  first ← usize_add start 32;
  stop ← usize_add first length;
  slice bytes first stop.

Definition abi_string (bytes : list byte) (arguments_start offset_position : Z) : option string :=
  bytes ← abi_bytes bytes arguments_start offset_position; from_utf8 bytes.

(** What is nested is shorter, so the length of the bytes is enough fuel
    ([decode_revert_fuel]). *)
Fixpoint decode_revert_with (fuel : nat) (bytes : list byte) : option string :=
  match fuel with
  | O => None
  | S fuel =>
      selector ← slice bytes 0 4;
      if bool_decide (selector = ERROR_STRING_SELECTOR) then abi_string bytes 4 4
      else if bool_decide (selector = PANIC_SELECTOR) then panic_reason <$> read_u128_word bytes 4
      else if bool_decide (selector = FAILED_OP_SELECTOR) then
        operation_index ← read_u128_word bytes 4;
        reason ← abi_string bytes 4 36;
        Some ("FailedOp(" +:+ dec operation_index +:+ "): " +:+ reason)
      else if bool_decide (selector = FAILED_OP_WITH_REVERT_SELECTOR) then
        operation_index ← read_u128_word bytes 4;
        reason ← abi_string bytes 4 36;
        let inner := default "inner call reverted"
                       (inner ← abi_bytes bytes 4 68; decode_revert_with fuel inner) in
        Some ("FailedOpWithRevert(" +:+ dec operation_index +:+ "): " +:+ reason +:+ "; " +:+ inner)
      else if bool_decide (selector = CALL_PHASE_REVERTED_SELECTOR) then
        reason ← (inner ← abi_bytes bytes 4 4; decode_revert_with fuel inner);
        Some ("CallPhaseReverted: " +:+ reason)
      else if bool_decide (selector = SAFE_EXECUTION_FAILED_SELECTOR)
      then Some "Safe execution failed: the target call in executeUserOp reverted"
      else None
  end.
Definition decode_revert_bytes (bytes : list byte) : option string :=
  decode_revert_with (S (length bytes)) bytes.

Context `{HX : Hex}.

Definition decode_hex_str (value : string) : option (list byte) :=
  value ← str_strip_prefix "0x" value; hex_decode value.

Definition revert_reason (error : SimulationRevert) : option string :=
  data ← match (data ← rv_data error; find_revert_data 5 data) with
         | Some data => Some data
         | None => find_revert_data_in_message (rv_message error)
         end;
  bytes ← decode_hex_str data;
  match decode_revert_bytes bytes with
  | Some reason => Some reason
  | None =>
      let selector := default "0x" (bytes_to_hex <$> slice bytes 0 4) in
      Some ("Unknown EVM custom error " +:+ selector +:+ " (" +:+ dec (Z.of_nat (length bytes))
            +:+ " bytes of revert data)")
  end.

Definition simulation_revert_error (error : SimulationRevert) : RpcError :=
  let code := match rv_code error with
              | Some code => " (RPC code " +:+ pretty code +:+ ")"
              | None => "" end in
  user_operation_rejected
    (default ("UserOperation validation reverted" +:+ code +:+ ": " +:+ rv_message error)
       (revert_reason error)).

Definition simulation_error (error : SimulationCallError) : RpcError :=
  match error with
  | CallReverted error => simulation_revert_error error
  | CallUnavailable => estimation_unavailable
  end.
End Revert.

Definition revert_is_execution (error : SimulationRevert) : bool :=
  let message := to_ascii_lowercase (rv_message error) in
  bool_decide (rv_code error = Some 3) || contains "execution reverted" message ||
  contains "execution error" message.

(** ** Enough fuel *)

Section RevertLemmas.
Context `{W : TargetWidth}.

Lemma abi_bytes_shorter bytes start position inner :
  abi_bytes bytes start position = Some inner → (length inner < length bytes)%nat.
Proof.
  unfold abi_bytes, quote_usize_word, word_at, usize_add. intros H. inv_checked.
  repeat match goal with H : slice _ _ _ = Some _ |- _ => apply slice_length in H end. lia.
Qed.

Lemma decode_revert_fuel fuel : ∀ fuel' bytes,
  (length bytes < fuel)%nat → (length bytes < fuel')%nat →
  decode_revert_with fuel bytes = decode_revert_with fuel' bytes.
Proof.
  induction fuel as [|fuel IH]; intros fuel' bytes Hf Hf'; [lia|].
  destruct fuel' as [|fuel']; [lia|]. cbn [decode_revert_with].
  assert (Hinner : ∀ position, (inner ← abi_bytes bytes 4 position; decode_revert_with fuel inner) =
                    (inner ← abi_bytes bytes 4 position; decode_revert_with fuel' inner)).
  { intros position. destruct (abi_bytes bytes 4 position) as [inner|] eqn:E; [|done].
    apply abi_bytes_shorter in E. apply IH; lia. }
  by rewrite !Hinner.
Qed.

(** ** Encoded reasons *)

Definition uint128_in_word (v : Z) : list byte := replicate 16 x00 ++ be_bytes 16 v.

(** Revert data as the EntryPoint, the Safe and Solidity encode it, with the
    reason it gives. *)
Inductive Encodes : list byte → string → Prop :=
  | EncodesError text :
      valid_utf8 text = true →
      Encodes (ERROR_STRING_SELECTOR ++ usize_word 32 ++ dynamic_bytes text) (String.string_of_list_byte text)
  | EncodesPanic code :
      fits 128 code → Encodes (PANIC_SELECTOR ++ uint128_in_word code) (panic_reason code)
  | EncodesFailedOp index text :
      fits 128 index → valid_utf8 text = true →
      Encodes (FAILED_OP_SELECTOR ++ uint128_in_word index ++ usize_word 64 ++ dynamic_bytes text)
        ("FailedOp(" +:+ dec index +:+ "): " +:+ String.string_of_list_byte text)
  | EncodesFailedOpWithRevert index text inner reason :
      fits 128 index → valid_utf8 text = true → Encodes inner reason →
      Encodes (FAILED_OP_WITH_REVERT_SELECTOR ++ uint128_in_word index ++ usize_word 96
               ++ usize_word (96 + Z.of_nat (length (dynamic_bytes text)))
               ++ dynamic_bytes text ++ dynamic_bytes inner)
        ("FailedOpWithRevert(" +:+ dec index +:+ "): " +:+ String.string_of_list_byte text +:+ "; " +:+ reason)
  | EncodesCallPhase inner reason :
      Encodes inner reason →
      Encodes (CALL_PHASE_REVERTED_SELECTOR ++ usize_word 32 ++ dynamic_bytes inner)
        ("CallPhaseReverted: " +:+ reason)
  | EncodesSafeFailure rest :
      Encodes (SAFE_EXECUTION_FAILED_SELECTOR ++ rest)
        "Safe execution failed: the target call in executeUserOp reverted".

Lemma from_utf8_valid text : valid_utf8 text = true → from_utf8 text = Some (String.string_of_list_byte text).
Proof. intros H. unfold from_utf8. by rewrite H. Qed.

Lemma dynamic_bytes_length data : (32 + length data ≤ length (dynamic_bytes data))%nat.
Proof. unfold dynamic_bytes. rewrite !length_app, usize_word_length. lia. Qed.

(** A dynamic argument, from its offset word and where it is written. *)
Lemma abi_bytes_encoded bytes position o data stop :
  machine_width → addressable bytes → 0 ≤ o →
  slice bytes position (position + 32) = Some (usize_word o) →
  slice bytes (4 + o) stop = Some (dynamic_bytes data) →
  abi_bytes bytes 4 position = Some data.
Proof.
  intros Hw Ha Ho Hoff Hdata. pose proof (dynamic_bytes_length data) as Hdl.
  pose proof (slice_length _ _ _ _ Hdata) as (Hlen & _ & Hstop).
  pose proof Ha as Hu. unfold addressable, umax in Hu.
  unfold dynamic_bytes in Hdata. apply slice_split in Hdata as [Hl Hdata].
  rewrite usize_word_length in *. change (Z.of_nat 32) with 32 in *.
  apply slice_split in Hdata as [Hd _].
  unfold abi_bytes. rewrite (usize_word_read bytes _ o) by (done || unfold umax; lia). cbn [mbind option_bind].
  rewrite (usize_add_fits bytes) by (done || lia). cbn [mbind option_bind].
  rewrite (usize_word_read bytes _ (Z.of_nat (length data))) by (done || unfold umax; lia).
  cbn [mbind option_bind]. rewrite (usize_add_fits bytes) by (done || lia). cbn [mbind option_bind].
  rewrite (usize_add_fits bytes) by (done || lia). exact Hd.
Qed.

Lemma u128_word_read bytes position v :
  addressable bytes → fits 128 v → slice bytes position (position + 32) = Some (uint128_in_word v) →
  read_u128_word bytes position = Some v.
Proof.
  intros Ha Hv Hs. unfold read_u128_word. rewrite word_at_slice, Hs by done. cbn [mbind option_bind].
  unfold uint128_in_word. rewrite take_app_length', drop_app_length' by done. rewrite nonzero_replicate.
  rewrite be_value_be_bytes_small; [done|]. change (256 ^ Z.of_nat 16) with (2 ^ 128). exact Hv.
Qed.

Lemma uint128_in_word_length v : length (uint128_in_word v) = 32%nat.
Proof. unfold uint128_in_word. by rewrite length_app, length_replicate, be_bytes_length. Qed.

(** Cut the parts of a concatenation off its slice, each where the last ends. *)
Ltac cut_slice H :=
  let Hp := fresh "Hp" in
  apply slice_split in H as [Hp H];
  rewrite ?usize_word_length, ?uint128_in_word_length in Hp, H;
  cbn [length] in Hp, H; change (Z.of_nat 4) with 4 in Hp, H; change (Z.of_nat 32) with 32 in Hp, H;
  rewrite ?Z.add_0_l in Hp, H.

(** Name the bytes being decoded and keep what they are made of. *)
Ltac name_bytes :=
  match goal with
  | Ha : addressable ?B, Hf : (length ?B < _)%nat |- context [slice ?B 0 4] =>
      let b := fresh "b" in let Eb := fresh "Eb" in
      assert (∃ b, b = B ∧ slice b 0 (Z.of_nat (length b)) = Some B) as (b & Eb & Hall)
        by (exists B; split; [done|apply slice_all]);
      rewrite <-Eb in Ha, Hf; rewrite <-!Eb; clear Eb;
      unfold ERROR_STRING_SELECTOR, PANIC_SELECTOR, FAILED_OP_SELECTOR, FAILED_OP_WITH_REVERT_SELECTOR,
        CALL_PHASE_REVERTED_SELECTOR, SAFE_EXECUTION_FAILED_SELECTOR in Hall
  end.

Lemma decode_encoded bytes reason :
  machine_width → addressable bytes → Encodes bytes reason → decode_revert_bytes bytes = Some reason.
Proof.
  intros Hw Ha He. unfold decode_revert_bytes. assert (Hf : (length bytes < S (length bytes))%nat) by lia.
  revert Ha Hf. generalize (S (length bytes)) as fuel.
  induction He as [text Ht|code Hc|index text Hi Ht|index text inner reason Hi Ht He IH|inner reason He IH|rest];
    intros fuel Ha Hf; (destruct fuel as [|fuel]; [lia|]); cbn [decode_revert_with]; name_bytes;
    cut_slice Hall; rewrite Hp; cbn [mbind option_bind];
    repeat (rewrite bool_decide_eq_false_2 by done); try rewrite bool_decide_eq_true_2 by done.
  - cut_slice Hall. unfold abi_string. rewrite (abi_bytes_encoded b 4 32 text _ Hw Ha ltac:(lia) Hp0 Hall).
    by apply from_utf8_valid.
  - rewrite <-(app_nil_r (uint128_in_word code)) in Hall. cut_slice Hall.
    by rewrite (u128_word_read b 4 code).
  - cut_slice Hall. cut_slice Hall. rewrite (u128_word_read b 4 index) by done. cbn [mbind option_bind].
    unfold abi_string. rewrite (abi_bytes_encoded b 36 64 text _ Hw Ha ltac:(lia) Hp1 Hall). cbn [mbind option_bind].
    by rewrite from_utf8_valid.
  - do 4 cut_slice Hall. rewrite (u128_word_read b 4 index) by done. cbn [mbind option_bind].
    unfold abi_string. rewrite (abi_bytes_encoded b 36 96 text _ Hw Ha ltac:(lia) Hp1 Hp3). cbn [mbind option_bind].
    rewrite from_utf8_valid by done. cbn [mbind option_bind].
    assert (Hin : abi_bytes b 4 68 = Some inner).
    { apply (abi_bytes_encoded b 68 (96 + Z.of_nat (length (dynamic_bytes text))) inner
        (Z.of_nat (length b))); [done|done|lia|exact Hp2|]. rewrite <-Hall. f_equal. lia. }
    rewrite Hin. cbn [mbind option_bind].
    pose proof (abi_bytes_shorter _ _ _ _ Hin). rewrite IH by (lia || by eapply addressable_le; [done|lia]). done.
  - cut_slice Hall.
    pose proof (abi_bytes_encoded b 4 32 inner _ Hw Ha ltac:(lia) Hp0 Hall) as Hin.
    rewrite Hin. cbn [mbind option_bind]. pose proof (abi_bytes_shorter _ _ _ _ Hin).
    by rewrite IH by (lia || by eapply addressable_le; [done|lia]).
  - done.
Qed.
End RevertLemmas.

Definition sample_revert : list byte :=
  ERROR_STRING_SELECTOR ++ usize_word 32 ++ dynamic_bytes [x47; x53; x30; x31; x33].

(** ** Where a provider puts the data *)

(** Revert data inside at most four objects or arrays. *)
Inductive Carries : nat → Value → string → Prop :=
  | CarriesText levels value data :
      valid_revert_data value = Some data → Carries (S levels) (VString value) data
  | CarriesData levels value fields data :
      obj_get "data" fields = Some value → Carries levels value data →
      Carries (S levels) (VObject fields) data
  | CarriesFirst levels value values data :
      Carries levels value data → Carries (S levels) (VArray (value :: values)) data.

Lemma find_carried levels value data : Carries levels value data → find_revert_data levels value = Some data.
Proof.
  induction 1 as [levels value data Hv|levels value fields data Hg Hc IH|levels value values data Hc IH];
    cbn [find_revert_data find_map]; [done| |by rewrite IH].
  rewrite Hg. cbn [mbind option_bind]. by rewrite IH.
Qed.

(** The reason in a revert survives its encoding.  Whatever the
    EntryPoint, the account or Solidity wraps it in, to any depth - a failed
    operation with its inner revert, a call phase, a panic - decoding the bytes
    gives back the very text, and decoding never stops short; and a provider's
    error whose data carries those bytes, nested in at most four objects or
    arrays, is reported with that text, whatever its code and message say. *)
Theorem revert_reason_roundtrip `{HX : Hex} `{W : TargetWidth} bytes reason :
  machine_width → addressable bytes → Encodes bytes reason →
  decode_revert_bytes bytes = Some reason ∧
  ∀ code message value, Carries 5 value ("0x" +:+ hex_encode bytes) →
    revert_reason {| rv_code := code; rv_message := message; rv_data := Some value |} = Some reason.
Proof.
  intros Hw Ha He. pose proof (decode_encoded bytes reason Hw Ha He) as Hdec. split; [done|].
  intros code message value Hc. unfold revert_reason. cbn [rv_data mbind option_bind].
  rewrite (find_carried _ _ _ Hc). cbn [mbind option_bind]. unfold decode_hex_str.
  rewrite str_strip_prefix_app. cbn [mbind option_bind]. rewrite hex_decode_encode. cbn [mbind option_bind].
  by rewrite Hdec.
Qed.

Lemma revert_reason_roundtrip_witness :
  @revert_reason x86_64 ref_hex
    {| rv_code := Some 3; rv_message := "execution reverted";
       rv_data := Some (VObject [("data", VString ("0x" +:+ @hex_encode ref_hex
         (CALL_PHASE_REVERTED_SELECTOR ++ usize_word 32 ++ dynamic_bytes sample_revert)))]) |} =
    Some "CallPhaseReverted: GS013".
Proof.
  refine (proj2 (@revert_reason_roundtrip ref_hex x86_64
    (CALL_PHASE_REVERTED_SELECTOR ++ usize_word 32 ++ dynamic_bytes sample_revert)
    "CallPhaseReverted: GS013" (or_intror eq_refl) _ _) (Some 3) "execution reverted" _ _).
  - vm_compute. discriminate.
  - apply EncodesCallPhase. exact (EncodesError [x47; x53; x30; x31; x33] eq_refl).
  - eapply CarriesData; [reflexivity|]. apply CarriesText. vm_compute. reflexivity.
Defined.
