(* ===== verification/Estimate.v ===== *)
(** * Estimate: [eth_estimateUserOperationGas]
    ([vela-relay-core/src/estimate.rs], planning and the gas rules)

    The simulation of one operation - its calldata, its state overrides - and
    what the node's answers make of it.  The EntryPoint simulations bytecode
    is a file the build embeds, the argument [simulations_bytecode]. *)

From S2P Require Export Revert Quote Prepared Simulation.
#[local] Open Scope string_scope.
#[local] Open Scope list_scope.
#[local] Open Scope Z_scope.

Definition SIMULATE_VALIDATION_SELECTOR : list byte := [xc3; xbc; xe0; x09].
Definition HANDLE_OPS_SELECTOR : list byte := [x76; x5e; x82; x7f].
Definition SIMULATION_VERIFICATION_GAS_LIMIT : Z := 500000.
Definition TEMPO_SIMULATION_VERIFICATION_GAS_LIMIT : Z := 8000000.
Definition SIMULATION_CALL_GAS_LIMIT : Z := 1000000.
Definition DEFAULT_CALL_GAS_LIMIT : Z := 200000.
Definition MIN_CALL_GAS_LIMIT : Z := 50000.
Definition MIN_VERIFICATION_GAS_LIMIT : Z := 100000.
Definition MIN_PAYMASTER_GAS_LIMIT : Z := 100000.
Definition SIMULATION_SENDER_BALANCE : string := "0x56bc75e2d63100000".
Definition SENDER_CREATOR_V07 : string := "0xefc2c1444ebcc4db75e7613d20c6a62ff67a167c".
Definition TRANSACTION_BASE_GAS : Z := 21000.
Definition ENTRY_POINT_OVERHEAD_GAS : Z := 10000.

(** ** The operation *)

Record SimulationUserOperation : Type := {
  so_sender : list byte; so_nonce_word : list byte; so_init_code : list byte; so_call_data : list byte;
  so_call_gas_limit : option Z; so_verification_gas_limit : Z;
  so_has_paymaster : bool; so_paymaster_and_data : list byte; so_signature : list byte;
  so_has_eip7702_auth : bool }.

Definition est_uint128_word (value : Z) : list byte := be_bytes 16 value.
Definition est_uint256_word (value : Z) : list byte := replicate 16 x00 ++ be_bytes 16 value.

Section Fields.
Context `{HX : Hex} `{W : TargetWidth}.

Definition est_address (value field : string) : result RpcError (list byte) :=
  ok_or (quote_address value) (invalid_params (field +:+ " must be a 20-byte address")).
Definition est_bytes (value field : string) : result RpcError (list byte) :=
  ok_or (decode_hex_str value) (invalid_params (field +:+ " must be 0x-prefixed hex data")).

Definition est_quantity (value field : string) : result RpcError Z :=
  value ← ok_or (str_strip_prefix "0x" value) (invalid_params (field +:+ " must be a 0x-prefixed quantity"));
  if decide (value = EmptyString ∨ 32 < String.length value)%nat
  then Err (invalid_params ("invalid " +:+ field))
  else ok_or (from_str_radix16 128 value) (invalid_params ("invalid " +:+ field)).

Definition optional_quantity (value : option string) (field : string) : result RpcError (option Z) :=
  match value with Some value => v ← est_quantity value field; Ok (Some v) | None => Ok None end.

Definition quantity_word (value field : string) : result RpcError (list byte) :=
  value ← ok_or (str_strip_prefix "0x" value) (invalid_params (field +:+ " must be a 0x-prefixed quantity"));
  if decide (value = EmptyString ∨ 64 < String.length value)%nat
  then Err (invalid_params ("invalid " +:+ field))
  else
    let value := if Nat.even (String.length value) then value else "0" +:+ value in
    bytes ← ok_or (decode_hex_str ("0x" +:+ value)) (invalid_params ("invalid " +:+ field));
    Ok (right_aligned bytes).

Definition estimation_init_code (operation : EstimatableUserOperationV0_7) : result RpcError (list byte) :=
  match ev_factory operation, ev_factory_data operation with
  | Some factory, factory_data =>
      init_code ← est_address factory "factory";
      data ← est_bytes (default "0x" factory_data) "factoryData";
      Ok (init_code ++ data)
  | None, Some factory_data =>
      if String.eqb factory_data "0x" then Ok []
      else Err (invalid_params "factoryData requires factory")
  | None, None => Ok []
  end.

Definition estimation_paymaster (operation : EstimatableUserOperationV0_7) :
    result RpcError (bool * list byte) :=
  match ev_paymaster operation with
  | Some paymaster =>
      value ← est_address paymaster "paymaster";
      verification ← optional_quantity (ev_paymaster_verification_gas_limit operation)
                       "paymasterVerificationGasLimit";
      post_op ← optional_quantity (ev_paymaster_post_op_gas_limit operation) "paymasterPostOpGasLimit";
      data ← est_bytes (default "0x" (ev_paymaster_data operation)) "paymasterData";
      Ok (true, value ++ est_uint128_word (default 0 verification)
                ++ est_uint128_word (default 0 post_op) ++ data)
  | None => Ok (false, [])
  end.

Definition simulation_from_v0_7 (chain_id : Z) (operation : EstimatableUserOperationV0_7) :
    result RpcError SimulationUserOperation :=
  sender ← est_address (ev_sender operation) "sender";
  nonce ← quantity_word (ev_nonce operation) "nonce";
  call_data ← est_bytes (ev_call_data operation) "callData";
  signature ← ok_or (ev_signature operation) (invalid_params "signature is required for estimation");
  signature ← est_bytes signature "signature";
  init_code ← estimation_init_code operation;
  call_gas_limit ← optional_quantity (ev_call_gas_limit operation) "callGasLimit";
  let default_verification_gas :=
    if is_tempo_chain chain_id then TEMPO_SIMULATION_VERIFICATION_GAS_LIMIT
    else SIMULATION_VERIFICATION_GAS_LIMIT in
  verification_gas_limit ← optional_quantity (ev_verification_gas_limit operation) "verificationGasLimit";
  let verification_gas_limit :=
    match verification_gas_limit with
    | Some gas => if decide (0 < gas) then gas else default_verification_gas
    | None => default_verification_gas
    end in
  max_fee ← optional_quantity (ev_max_fee_per_gas operation) "maxFeePerGas";
  max_priority_fee ← optional_quantity (ev_max_priority_fee_per_gas operation) "maxPriorityFeePerGas";
  if negb (bool_decide (default 0 max_fee = 0)) || negb (bool_decide (default 0 max_priority_fee = 0))
  then Err (invalid_params "maxFeePerGas and maxPriorityFeePerGas must both be 0x0")
  else
    '(has_paymaster, paymaster_and_data) ← estimation_paymaster operation;
    Ok {| so_sender := sender; so_nonce_word := nonce; so_init_code := init_code;
          so_call_data := call_data; so_call_gas_limit := call_gas_limit;
          so_verification_gas_limit := verification_gas_limit; so_has_paymaster := has_paymaster;
          so_paymaster_and_data := paymaster_and_data; so_signature := signature;
          so_has_eip7702_auth := match ev_eip7702_auth operation with Some _ => true | None => false end |}.

Definition simulation_operation (chain_id : Z) (operation : EstimatableUserOperation) :
    result RpcError SimulationUserOperation :=
  match operation with
  | Estimatable_V0_7 operation => simulation_from_v0_7 chain_id operation
  | Estimatable_V0_6 _ =>
      Err (invalid_params "the configured EntryPoint requires an unpacked v0.7 UserOperation")
  end.
End Fields.

(** ** Calldata *)

(** Where each dynamic field is written, and all of them. *)
Definition tuple_tail (op : SimulationUserOperation) : list (list byte) :=
  map dynamic_bytes [so_init_code op; so_call_data op; so_paymaster_and_data op; so_signature op].
Definition tail_offset (op : SimulationUserOperation) (field : nat) : Z :=
  9 * 32 + Z.of_nat (length (concat (take field (tuple_tail op)))).

Definition encode_user_operation_tuple (op : SimulationUserOperation) (account_gas_limits : list byte)
    (pre_verification_gas : Z) (gas_fees : list byte) : list byte :=
  quote_address_word (so_sender op) ++ so_nonce_word op
  ++ usize_word (tail_offset op 0) ++ usize_word (tail_offset op 1)
  ++ account_gas_limits ++ est_uint256_word pre_verification_gas ++ gas_fees
  ++ usize_word (tail_offset op 2) ++ usize_word (tail_offset op 3)
  ++ concat (tuple_tail op).

Definition no_gas_fees : list byte := est_uint128_word 0 ++ est_uint128_word 0.

Definition simulate_validation_calldata (op : SimulationUserOperation) : list byte :=
  let call_gas_limit :=
    match so_call_gas_limit op with
    | Some gas => if decide (0 < gas) then gas else SIMULATION_CALL_GAS_LIMIT
    | None => SIMULATION_CALL_GAS_LIMIT
    end in
  let account_gas_limits := est_uint128_word (so_verification_gas_limit op)
                            ++ est_uint128_word call_gas_limit in
  SIMULATE_VALIDATION_SELECTOR ++ usize_word 32
  ++ encode_user_operation_tuple op account_gas_limits 0 no_gas_fees.

Definition est_handle_ops_calldata (op : SimulationUserOperation)
    (verification_gas_limit call_gas_limit pre_verification_gas : Z) : list byte :=
  let account_gas_limits := est_uint128_word verification_gas_limit ++ est_uint128_word call_gas_limit in
  HANDLE_OPS_SELECTOR ++ usize_word 64 ++ quote_address_word (replicate 20 xff)
  ++ usize_word 1 ++ usize_word 32
  ++ encode_user_operation_tuple op account_gas_limits pre_verification_gas no_gas_fees.

(** The sum is far below [u128]: a byte costs at most 16. *)
Definition calldata_gas (bytes : list byte) : Z :=
  foldl (λ total b, total + if bool_decide (b = x00) then 4 else 16) 0 bytes.

Definition est_pre_verification_gas (op : SimulationUserOperation) (simulation_call_data : list byte) : Z :=
  let auth_gas := if so_has_eip7702_auth op then 25000 else 0 in
  let base := 21000 + 50000 + 10000 + 3000 + calldata_gas simulation_call_data + auth_gas in
  base + Z.max (base / 10) 5000.

(** ** State overrides *)

Fixpoint obj_remove (k : string) (o : obj) : obj :=
  match o with
  | [] => []
  | (k', v) :: o => if String.eqb k k' then o else (k', v) :: obj_remove k o
  end.

(** The entry whose key is the address in any case: what it holds, and the
    object without it. *)
Definition take_address_override (object : obj) (address : string) : obj * obj :=
  match List.find (λ kv, eq_ignore_ascii_case kv.1 address) object with
  | Some (key, value) => (default [] (as_object value), obj_remove key object)
  | None => ([], object)
  end.

(** Set one field of the address's override, keeping the others. *)
Definition set_override (object : obj) (address field value : string) : obj :=
  let '(taken, object) := take_address_override object address in
  btree_insert address (VObject (btree_insert field (VString value) taken)) object.

Definition serialized_overrides (overrides : option StateOverrideSet) : obj :=
  map (λ kv, (kv.1, ser_state_override kv.2)) (default [] overrides).

Section Plan.
Context `{HX : Hex} `{W : TargetWidth}.
Variable simulations_bytecode : string.

Definition format_address (address : list byte) : string := "0x" +:+ hex_encode address.

Definition state_overrides_for_execution (user_overrides : option StateOverrideSet)
    (sender : list byte) : obj :=
  set_override (serialized_overrides user_overrides) (format_address sender) "balance"
    SIMULATION_SENDER_BALANCE.

Definition state_overrides_for_simulation (user_overrides : option StateOverrideSet)
    (sender : list byte) (entry_point : string) : obj :=
  set_override (state_overrides_for_execution user_overrides sender) (to_ascii_lowercase entry_point)
    "code" (trim simulations_bytecode).

Record EstimatePlan : Type := {
  pl_chain_id : Z; pl_operation : SimulationUserOperation; pl_simulation_call_data : list byte;
  pl_validation_params : Value; pl_execution_params : option Value;
  pl_deployed_execution_params : option Value }.

Definition execution_call (entry_point : string) (operation : SimulationUserOperation) : Value :=
  VObject [("from", VString entry_point); ("to", VString (format_address (so_sender operation)));
           ("data", VString (bytes_to_hex (so_call_data operation)))].

Definition deployed_params (entry_point : string) (overrides : obj) (operation : SimulationUserOperation) :
    Value :=
  VArray [VObject [
    ("blockStateCalls", VArray [VObject [
       ("stateOverrides", VObject overrides);
       ("calls", VArray [
          VObject [("from", VString SENDER_CREATOR_V07);
                   ("to", VString (bytes_to_hex (take 20 (so_init_code operation))));
                   ("data", VString (bytes_to_hex (drop 20 (so_init_code operation))))];
          execution_call entry_point operation])]]);
    ("validation", VBool false); ("traceTransfers", VBool false)]; VString "latest"].

Definition plan (chain_id : Z) (user_operation : EstimatableUserOperation) (entry_point : string)
    (state_overrides : option StateOverrideSet) : result RpcError EstimatePlan :=
  if negb (entry_point_is_supported entry_point) then Err (invalid_params "unsupported EntryPoint")
  else
    operation ← simulation_operation chain_id user_operation;
    let simulation_call_data := simulate_validation_calldata operation in
    let execution_overrides := state_overrides_for_execution state_overrides (so_sender operation) in
    let has_call := negb (bool_decide (so_call_data operation = [])) in
    Ok {| pl_chain_id := chain_id; pl_operation := operation;
          pl_simulation_call_data := simulation_call_data;
          pl_validation_params :=
            VArray [VObject [("to", VString entry_point); ("data", VString (bytes_to_hex simulation_call_data))];
                    VString "latest";
                    VObject (state_overrides_for_simulation state_overrides (so_sender operation) entry_point)];
          pl_execution_params :=
            if has_call then
              Some (VArray [execution_call entry_point operation; VString "latest"; VObject execution_overrides])
            else None;
          pl_deployed_execution_params :=
            if has_call && bool_decide (20 ≤ length (so_init_code operation))%nat
               && negb (chain_lacks_simulate_v1 chain_id)
            then Some (deployed_params entry_point execution_overrides operation) else None |}.
End Plan.

(** ** The gas rules *)

Inductive CallGasSource : Type :=
  | NotNeeded
  | Estimated (answer : Value)
  | SimulatedCalls (answer : Value)
  | CallGasReverted (error : SimulationRevert)
  | CallGasUnavailable.

Record EstimateOutcome : Type := {
  eo_estimate : UserOperationGasEstimate; eo_fallback_call_gas : option Z }.

(** The five limits, as numbers. *)
Record GasLimits : Type := {
  gl_verification : Z; gl_call : Z; gl_pre_verification : Z;
  gl_paymaster_verification : Z; gl_paymaster_post_op : Z }.

Definition with_percent_buffer (value percentage : Z) : Z :=
  saturating_add 128 (saturating_mul 128 value percentage) 99 / 100.

Section Finish.
Context `{HX : Hex} `{W : TargetWidth}.

Definition parse_validation_pre_op_gas (value : Value) : result RpcError Z :=
  ok_or (encoded ← as_str value;
         encoded ← decode_hex_str encoded;
         tuple ← quote_usize_word encoded 0;
         relative ← quote_usize_word encoded tuple;
         return_info ← usize_add tuple relative;
         read_u128_word encoded return_info)
    estimation_unavailable.

(** [Value::as_i64] *)
Definition as_i64_number (v : Value) : option Z :=
  match v with VNumber n => if decide (- 2 ^ 63 ≤ n < 2 ^ 63) then Some n else None | _ => None end.

Definition call_succeeded (call : Value) : bool :=
  bool_decide ((status ← get "status" call; as_str status) = Some "0x1").

Definition reverted_call (call : Value) : SimulationRevert :=
  let error := get "error" call in
  {| rv_code := code ← (error ← error; get "code" error); as_i64_number code;
     rv_message := default "execution reverted" (message ← (error ← error; get "message" error); as_str message);
     rv_data := match get "returnData" call with
                | Some data => Some data
                | None => error ← error; get "data" error
                end |}.

Definition parse_deployed_execution_gas (value : Value) : result RpcError Z :=
  match (blocks ← as_array value; block ← head blocks; calls ← get "calls" block; as_array calls) with
  | Some [deploy; execute] =>
      if negb (call_succeeded deploy) then Err estimation_unavailable
      else if negb (call_succeeded execute) then Err (simulation_revert_error (reverted_call execute))
      else
        gas ← ok_or (gas ← get "gasUsed" execute; as_str gas) estimation_unavailable;
        map_err (λ _, estimation_unavailable) (est_quantity gas "eth_simulateV1 gasUsed")
  | _ => Err estimation_unavailable
  end.

(** The call gas limit, the gas the execution is measured to use, and the
    fallback that was taken. *)
Definition call_gas_of (plan : EstimatePlan) (call_gas : CallGasSource) :
    result RpcError (Z * option Z * option Z) :=
  let undeployed := negb (bool_decide (so_init_code (pl_operation plan) = [])) in
  let intrinsic := TRANSACTION_BASE_GAS + calldata_gas (so_call_data (pl_operation plan)) in
  let limit gas := Z.max (with_percent_buffer gas 150) MIN_CALL_GAS_LIMIT in
  match call_gas with
  | NotNeeded => Ok (0, Some 0, None)
  | Estimated result =>
      result ← ok_or (as_str result) estimation_unavailable;
      gas ← est_quantity result "eth_estimateGas result";
      Ok (limit gas, if undeployed then None else Some (saturating_sub gas intrinsic), None)
  | SimulatedCalls result =>
      gas ← parse_deployed_execution_gas result;
      Ok (limit gas, Some (saturating_sub gas intrinsic), None)
  | CallGasReverted error => Err (simulation_revert_error error)
  | CallGasUnavailable =>
      let fallback := default DEFAULT_CALL_GAS_LIMIT (so_call_gas_limit (pl_operation plan)) in
      Ok (Z.max fallback MIN_CALL_GAS_LIMIT, None, Some fallback)
  end.

Definition gas_limits (plan : EstimatePlan) (pre_op_gas call_gas_limit : Z) : GasLimits :=
  let verification := Z.max (with_percent_buffer pre_op_gas 150) MIN_VERIFICATION_GAS_LIMIT in
  let has_paymaster := so_has_paymaster (pl_operation plan) in
  {| gl_verification := verification; gl_call := call_gas_limit;
     gl_pre_verification := est_pre_verification_gas (pl_operation plan) (pl_simulation_call_data plan);
     gl_paymaster_verification :=
       if has_paymaster then Z.max (verification / 2) MIN_PAYMASTER_GAS_LIMIT else 0;
     gl_paymaster_post_op := if has_paymaster then MIN_PAYMASTER_GAS_LIMIT else 0 |}.

(** The gas a one-operation [handleOps] is predicted to use. *)
Definition predicted_gas (plan : EstimatePlan) (pre_op_gas execution_gas : Z) (limits : GasLimits) : option Z :=
  let handle_ops := est_handle_ops_calldata (pl_operation plan) (gl_verification limits) (gl_call limits)
                      (gl_pre_verification limits) in
  used ← checked 128 (TRANSACTION_BASE_GAS + calldata_gas handle_ops);
  used ← checked 128 (used + pre_op_gas);
  used ← checked 128 (used + execution_gas);
  checked 128 (used + ENTRY_POINT_OVERHEAD_GAS).

Definition declared_by (limits : GasLimits) : option Z :=
  declared ← checked 128 (gl_verification limits + gl_call limits);
  declared ← checked 128 (declared + gl_pre_verification limits);
  declared ← checked 128 (declared + gl_paymaster_verification limits);
  checked 128 (declared + gl_paymaster_post_op limits).

Definition est_settlement_gas (plan : EstimatePlan) (pre_op_gas execution_gas : Z) (limits : GasLimits)
    (terms : BillingTerms) : option Z :=
  used ← predicted_gas plan pre_op_gas execution_gas limits;
  declared ← declared_by limits;
  billed ← billed_gas used (Some declared) (bt_gas_buffer_bps terms) (bt_fixed_gas_buffer terms);
  checked 128 billed.

Definition finish (plan : EstimatePlan) (validation_value : Value) (call_gas : CallGasSource)
    (terms : BillingTerms) : result RpcError EstimateOutcome :=
  pre_op_gas ← parse_validation_pre_op_gas validation_value;
  '(call_gas_limit, execution_gas, fallback) ← call_gas_of plan call_gas;
  let limits := gas_limits plan pre_op_gas call_gas_limit in
  let settlement :=
    if decide (settlement_gas_rule (pl_chain_id plan) = Measured) then
      execution_gas ← execution_gas; est_settlement_gas plan pre_op_gas execution_gas limits terms
    else None in
  Ok {| eo_estimate := {|
          ge_pre_verification_gas := hex_quantity (gl_pre_verification limits);
          ge_verification_gas_limit := hex_quantity (gl_verification limits);
          ge_call_gas_limit := hex_quantity (gl_call limits);
          ge_paymaster_verification_gas_limit := hex_quantity (gl_paymaster_verification limits);
          ge_paymaster_post_op_gas_limit := hex_quantity (gl_paymaster_post_op limits);
          ge_settlement_gas := hex_quantity <$> settlement |};
        eo_fallback_call_gas := fallback |}.
End Finish.
