(* ===== verification/EstimateGas.v ===== *)
(** * EstimateGas: what an estimate promises

    The gas an estimate publishes is the gas the executor bills, and the price
    the relay publishes for it pays the bill: the two ends of the in-band fee
    contract ([docs/fees.md]) meet in [Cost] and [Settlement]. *)

From S2P Require Export Estimate.
#[local] Open Scope string_scope.
#[local] Open Scope list_scope.
#[local] Open Scope Z_scope.

(** ** Quantities *)

Lemma hex_quantity_value z : 0 ≤ z → quantity_value (hex_quantity z) = Some z.
Proof.
  intros Hz. unfold quantity_value, hex_quantity. rewrite str_strip_prefix_app. cbn [mbind option_bind].
  rewrite bool_decide_eq_false_2 by apply lower_hex_nonempty. by apply lower_hex_value.
Qed.

(** ** Bills *)

Lemma buffered_gas_mono a b bps fixed x y :
  0 ≤ a ≤ b → 0 ≤ bps → buffered_gas a bps fixed = Some x → buffered_gas b bps fixed = Some y → x ≤ y.
Proof.
  intros Hab Hb Hx%buffered_gas_Some Hy%buffered_gas_Some; try lia.
  destruct Hx as [-> _], Hy as [-> _].
  pose proof (ceil_quot_mono (a * bps) (b * bps) 10000 ltac:(lia) ltac:(nia)). lia.
Qed.

Lemma billed_gas_mono a b declared bps fixed x y :
  0 ≤ a ≤ b → 0 ≤ bps →
  billed_gas a (Some declared) bps fixed = Some x → billed_gas b (Some declared) bps fixed = Some y → x ≤ y.
Proof.
  unfold billed_gas. intros Hab Hb (p & Hp & [= <-])%bind_Some (q & Hq & [= <-])%bind_Some.
  pose proof (buffered_gas_mono a b bps fixed p q Hab Hb Hp Hq). lia.
Qed.

Lemma with_percent_buffer_range v p : 0 ≤ v → 0 ≤ p → fits 128 (with_percent_buffer v p).
Proof.
  intros Hv Hp. unfold with_percent_buffer, saturating_add, saturating_mul, umax, fits.
  change (2 ^ 128) with 340282366920938463463374607431768211456.
  split; [apply Z.div_pos; nia|]. apply Z.div_lt_upper_bound; lia.
Qed.

(** Half as much again, whenever that can be written. *)
Lemma with_percent_buffer_covers v :
  0 ≤ v → fits 128 (150 * v + 99) → 3 * v ≤ 2 * with_percent_buffer v 150.
Proof.
  intros Hv [_ Hf]. unfold with_percent_buffer, saturating_add, saturating_mul, umax.
  rewrite (Z.min_l (v * 150)) by lia. rewrite Z.min_l by lia.
  Z.to_euclidean_division_equations. lia.
Qed.

Lemma calldata_gas_from acc bytes : 0 ≤ acc →
  acc + 4 * Z.of_nat (length bytes) ≤ foldl (λ total b, total + if bool_decide (b = x00) then 4 else 16) acc bytes.
Proof.
  revert acc. induction bytes as [|b bytes IH]; intros acc Hacc; cbn [foldl length]; [lia|].
  specialize (IH (acc + if bool_decide (b = x00) then 4 else 16)). case_bool_decide; lia.
Qed.
Lemma calldata_gas_nonneg bytes : 0 ≤ calldata_gas bytes.
Proof. pose proof (calldata_gas_from 0 bytes ltac:(lia)). unfold calldata_gas. lia. Qed.

(** ** The operation the client signs with the estimate *)

Definition op_wf (op : SimulationUserOperation) : Prop :=
  length (so_sender op) = 20%nat ∧ length (so_nonce_word op) = 32%nat ∧
  (∀ gas, so_call_gas_limit op = Some gas → fits 128 gas) ∧
  (if so_has_paymaster op then 52 ≤ length (so_paymaster_and_data op) else length (so_paymaster_and_data op) = 0)%nat.

Definition limits_fit (l : GasLimits) : Prop :=
  fits 128 (gl_verification l) ∧ fits 128 (gl_call l) ∧ fits 128 (gl_pre_verification l) ∧
  fits 128 (gl_paymaster_verification l) ∧ fits 128 (gl_paymaster_post_op l).

Definition signed_paymaster (op : SimulationUserOperation) (l : GasLimits) : list byte :=
  if so_has_paymaster op then
    take 20 (so_paymaster_and_data op) ++ be_bytes 16 (gl_paymaster_verification l)
    ++ be_bytes 16 (gl_paymaster_post_op l) ++ drop 52 (so_paymaster_and_data op)
  else [].

Definition signed_operation (op : SimulationUserOperation) (l : GasLimits) : PackedOperation :=
  {| packed := {|
       p_sender := be_value (so_sender op); p_nonce := be_value (so_nonce_word op);
       p_initCode := so_init_code op; p_callData := so_call_data op;
       p_accountGasLimits := be_bytes 16 (gl_verification l) ++ be_bytes 16 (gl_call l);
       p_preVerificationGas := gl_pre_verification l;
       p_gasFees := no_gas_fees;
       p_paymasterAndData := signed_paymaster op l;
       p_signature := so_signature op |};
     po_sender := be_value (so_sender op); po_call_data := so_call_data op;
     has_eip7702_authorization := so_has_eip7702_auth op; po_fee_token := None |}.

Definition limits_sum (l : GasLimits) : Z :=
  gl_verification l + gl_call l + gl_pre_verification l + gl_paymaster_verification l
  + gl_paymaster_post_op l.

Lemma be_value_16 z : fits 128 z → be_value (be_bytes 16 z) = z.
Proof. intros H. apply be_value_be_bytes_small. change (256 ^ Z.of_nat 16) with (2 ^ 128). exact H. Qed.

(** What the executor reads off that operation is the sum of the limits. *)
Lemma signed_declared_limits op l :
  op_wf op → limits_fit l → (so_has_paymaster op = false → gl_paymaster_verification l = 0 ∧ gl_paymaster_post_op l = 0) →
  fits 256 (limits_sum l) → declared_limits [signed_operation op l] = Some (limits_sum l).
Proof.
  intros (_ & _ & _ & Hpm) (Hv & Hc & Hp & Hpv & Hpp) Hnone [_ Hsum]. unfold limits_sum in *.
  assert (Hpay : (if decide (52 ≤ Z.of_nat (length (signed_paymaster op l)))
                  then (be_value (take 16 (drop 20 (signed_paymaster op l))), be_value (take 16 (drop 36 (signed_paymaster op l))))
                  else (0, 0)) = (gl_paymaster_verification l, gl_paymaster_post_op l)).
  { unfold signed_paymaster. destruct (so_has_paymaster op).
    - assert (H20 : length (take 20 (so_paymaster_and_data op)) = 20%nat) by (rewrite length_take; lia).
      rewrite decide_True by (rewrite !length_app, !be_bytes_length; lia).
      rewrite (drop_app_length' _ _ 20) by done. rewrite take_app_length' by (by rewrite be_bytes_length).
      rewrite (drop_app_ge _ _ 36), H20 by lia. cbn [Nat.sub].
      rewrite (drop_app_length' _ _ 16) by (by rewrite be_bytes_length). rewrite take_app_length' by (by rewrite be_bytes_length).
      by rewrite !be_value_16.
    - cbn [length]. rewrite decide_False by lia. by destruct (Hnone eq_refl) as [-> ->]. }
  unfold declared_limits. cbn [foldl mbind option_bind packed signed_operation p_accountGasLimits p_paymasterAndData p_preVerificationGas].
  rewrite Hpay. rewrite take_app_length', drop_app_length' by (by rewrite be_bytes_length). rewrite !be_value_16 by done.
  unfold fits in *. repeat (rewrite checked_fits by (unfold fits; lia); cbn [mbind option_bind]).
  f_equal. lia.
Qed.

(** ** What a plan and its answers hold *)

Section Facts.
Context `{HX : Hex} `{W : TargetWidth}.

Lemma est_quantity_fits value field z : est_quantity value field = Ok z → fits 128 z.
Proof.
  unfold est_quantity. intros H. inv_checked. case_decide; [done|]. inv_checked.
  eapply from_str_radix16_fits; [|eassumption]. lia.
Qed.

Lemma optional_quantity_fits value field z : optional_quantity value field = Ok (Some z) → fits 128 z.
Proof.
  unfold optional_quantity. destruct value as [value|]; [|done]. intros Hq. inv_checked.
  by eapply est_quantity_fits.
Qed.

Lemma est_address_length value field bytes : est_address value field = Ok bytes → length bytes = 20%nat.
Proof.
  unfold est_address, quote_address. intros Hq. inv_checked. split_match. inv_checked. split_match.
Qed.

Lemma quantity_word_length value field word : quantity_word value field = Ok word → length word = 32%nat.
Proof.
  unfold quantity_word. intros Hq. inv_checked. case_decide as Hd; [done|]. inv_checked.
  rename select (decode_hex_str _ = _) into Hb. unfold decode_hex_str in Hb.
  rewrite str_strip_prefix_app in Hb. cbn [mbind option_bind] in Hb. apply hex_decode_length in Hb.
  unfold right_aligned. rewrite length_app, length_replicate.
  assert (String.length x ≤ 64)%nat by (destruct (decide (64 < String.length x)%nat); [tauto|lia]).
  destruct (Nat.even (String.length x)) eqn:E; [lia|].
  rewrite str_app_length in Hb. cbn [String.length] in Hb.
  assert (String.length x ≠ 64)%nat by (intros Hx; rewrite Hx in E; done). lia.
Qed.

Lemma simulation_operation_wf chain_id user_op op : simulation_operation chain_id user_op = Ok op → op_wf op.
Proof.
  destruct user_op as [user_op|]; [|done]. cbn [simulation_operation]. unfold simulation_from_v0_7.
  intros (sender & Hsender & Hr)%result_bind_Ok.
  apply result_bind_Ok in Hr as (nonce & Hnonce & Hr).
  apply result_bind_Ok in Hr as (? & _ & Hr). apply result_bind_Ok in Hr as (? & _ & Hr).
  apply result_bind_Ok in Hr as (? & _ & Hr). apply result_bind_Ok in Hr as (? & _ & Hr).
  apply result_bind_Ok in Hr as (call_gas & Hcall & Hr).
  apply result_bind_Ok in Hr as (? & _ & Hr). apply result_bind_Ok in Hr as (? & _ & Hr).
  apply result_bind_Ok in Hr as (? & _ & Hr).
  destruct (_ || _); [done|]. apply result_bind_Ok in Hr as ([has pd] & Hpm & Hr).
  injection Hr as <-. unfold op_wf. cbn.
  split_and!; [by eapply est_address_length|by eapply quantity_word_length| |].
  - intros gas ->. by eapply optional_quantity_fits.
  - unfold estimation_paymaster in Hpm. destruct (ev_paymaster user_op).
    + apply result_bind_Ok in Hpm as (pm & Ha%est_address_length & Hpm).
      do 3 (apply result_bind_Ok in Hpm as (? & _ & Hpm)).
      match type of Hpm with Ok (true, ?e) = _ =>
        assert (pd = e) as -> by congruence; assert (has = true) as -> by congruence end.
      unfold est_uint128_word. rewrite !length_app, !be_bytes_length. lia.
    + by injection Hpm as <- <-.
Qed.

Lemma plan_operation bytecode chain_id user_op entry_point overrides pl :
  plan bytecode chain_id user_op entry_point overrides = Ok pl →
  simulation_operation chain_id user_op = Ok (pl_operation pl) ∧ pl_chain_id pl = chain_id.
Proof. unfold plan. destruct (negb _); [done|]. intros (op & Hop & [= <-])%result_bind_Ok. done. Qed.

Lemma read_u128_word_fits data offset z : read_u128_word data offset = Some z → fits 128 z.
Proof.
  unfold read_u128_word, word_at. intros Hz. apply bind_Some in Hz as (word & Hw & Hz).
  apply bind_Some in Hw as (stop & [-> _]%checked_Some & Hw). destruct (existsb _ _); [done|]. injection Hz as <-.
  apply slice_length in Hw as [Hl _]. pose proof (be_value_range (drop 16 word)) as Hr.
  rewrite length_drop in Hr. unfold fits. replace (length word - 16)%nat with 16%nat in Hr by lia. exact Hr.
Qed.

Lemma pre_op_gas_fits value z : parse_validation_pre_op_gas value = Ok z → fits 128 z.
Proof.
  unfold parse_validation_pre_op_gas. intros Hz. apply ok_or_Ok in Hz.
  do 5 (apply bind_Some in Hz as (? & _ & Hz)). by eapply read_u128_word_fits.
Qed.

Lemma deployed_gas_fits value z : parse_deployed_execution_gas value = Ok z → fits 128 z.
Proof.
  unfold parse_deployed_execution_gas. intros Hz. split_match. inv_checked. by eapply est_quantity_fits.
Qed.

Lemma fits_nonneg_max a b : fits 128 a → fits 128 b → fits 128 (Z.max a b).
Proof. unfold fits. lia. Qed.

(** Each source gives a limit that fits, at least the floor unless nothing is
    called, and a measured gas that is not negative. *)
Lemma call_gas_of_range pl call_gas limit execution fallback :
  op_wf (pl_operation pl) → call_gas_of pl call_gas = Ok (limit, execution, fallback) →
  fits 128 limit ∧ (call_gas ≠ NotNeeded → MIN_CALL_GAS_LIMIT ≤ limit) ∧
  (∀ gas, execution = Some gas → 0 ≤ gas).
Proof.
  intros (_ & _ & Hcall & _).
  assert (Hmin : fits 128 MIN_CALL_GAS_LIMIT) by (unfold fits; vm_compute; split; [discriminate|reflexivity]).
  unfold call_gas_of. destruct call_gas; intros Hr; [| | |done|].
  - injection Hr as <- <- <-. split_and!; [unfold fits; vm_compute; split; [discriminate|reflexivity]|done|].
    intros gas [= <-]. lia.
  - apply result_bind_Ok in Hr as (? & _ & Hr). apply result_bind_Ok in Hr as (gas & [Hq _]%est_quantity_fits & Hr).
    injection Hr as <- <- <-. split_and!; [|lia|].
    + apply fits_nonneg_max; [by apply with_percent_buffer_range|done].
    + intros m. destruct (negb _); [done|]. intros [= <-]. unfold saturating_sub. lia.
  - apply result_bind_Ok in Hr as (gas & [Hq _]%deployed_gas_fits & Hr).
    injection Hr as <- <- <-. split_and!; [|lia|].
    + apply fits_nonneg_max; [by apply with_percent_buffer_range|done].
    + intros m [= <-]. unfold saturating_sub. lia.
  - injection Hr as <- <- <-. split_and!; [|lia|done]. apply fits_nonneg_max; [|done].
    destruct (so_call_gas_limit (pl_operation pl)) as [gas|]; [by apply Hcall|].
    unfold fits; vm_compute; split; [discriminate|reflexivity].
Qed.
End Facts.

(** ** The fee contract *)

Definition terms_typed (t : BillingTerms) : Prop :=
  fits 64 (bt_settlement_markup_bps t) ∧ fits 64 (bt_gas_buffer_bps t) ∧ fits 64 (bt_fixed_gas_buffer t).

(** The estimate prints these limits. *)
Definition publishes (e : UserOperationGasEstimate) (l : GasLimits) : Prop :=
  quantity_value (ge_verification_gas_limit e) = Some (gl_verification l) ∧
  quantity_value (ge_call_gas_limit e) = Some (gl_call l) ∧
  quantity_value (ge_pre_verification_gas e) = Some (gl_pre_verification l) ∧
  quantity_value (ge_paymaster_verification_gas_limit e) = Some (gl_paymaster_verification l) ∧
  quantity_value (ge_paymaster_post_op_gas_limit e) = Some (gl_paymaster_post_op l).

Section Contract.
Context `{HX : Hex} `{W : TargetWidth}.

Lemma gas_limits_nonneg pl pre_op limit :
  0 ≤ limit → let l := gas_limits pl pre_op limit in
  0 ≤ gl_verification l ∧ 0 ≤ gl_call l ∧ 0 ≤ gl_pre_verification l ∧
  0 ≤ gl_paymaster_verification l ∧ 0 ≤ gl_paymaster_post_op l.
Proof.
  intros Hl. cbn. pose proof (calldata_gas_nonneg (pl_simulation_call_data pl)).
  unfold est_pre_verification_gas, MIN_VERIFICATION_GAS_LIMIT, MIN_PAYMASTER_GAS_LIMIT.
  split_and!; try lia; repeat case_match; lia.
Qed.

Lemma gas_limits_published pl pre_op limit settlement :
  0 ≤ limit →
  publishes {| ge_pre_verification_gas := hex_quantity (gl_pre_verification (gas_limits pl pre_op limit));
               ge_verification_gas_limit := hex_quantity (gl_verification (gas_limits pl pre_op limit));
               ge_call_gas_limit := hex_quantity (gl_call (gas_limits pl pre_op limit));
               ge_paymaster_verification_gas_limit :=
                 hex_quantity (gl_paymaster_verification (gas_limits pl pre_op limit));
               ge_paymaster_post_op_gas_limit := hex_quantity (gl_paymaster_post_op (gas_limits pl pre_op limit));
               ge_settlement_gas := settlement |} (gas_limits pl pre_op limit).
Proof.
  intros (Hv & Hc & Hp & Hpv & Hpp)%(gas_limits_nonneg pl pre_op). unfold publishes.
  split_and!; by apply hex_quantity_value.
Qed.

Lemma declared_by_sum pl pre_op limit declared :
  0 ≤ limit → declared_by (gas_limits pl pre_op limit) = Some declared →
  declared = limits_sum (gas_limits pl pre_op limit) ∧ fits 128 declared ∧
  limits_fit (gas_limits pl pre_op limit).
Proof.
  intros (Hv & Hc & Hp & Hpv & Hpp)%(gas_limits_nonneg pl pre_op) Hd. unfold declared_by in Hd. inv_checked.
  unfold limits_sum, limits_fit, fits in *. split_and!; lia.
Qed.

(** The gas a one-operation [handleOps] is predicted to use: the transaction,
    its calldata, the simulated validation, the call and the EntryPoint. *)
Definition predicted (pl : EstimatePlan) (limits : GasLimits) (pre_op execution : Z) : Z :=
  21000 + calldata_gas (est_handle_ops_calldata (pl_operation pl) (gl_verification limits) (gl_call limits)
                          (gl_pre_verification limits)) + pre_op + execution + 10000.

Lemma predicted_gas_eq pl pre_op execution limits used :
  predicted_gas pl pre_op execution limits = Some used → used = predicted pl limits pre_op execution.
Proof. unfold predicted_gas, predicted, TRANSACTION_BASE_GAS, ENTRY_POINT_OVERHEAD_GAS. intros H. inv_checked. lia. Qed.

(** What a finished estimate is made of. *)
Lemma finish_Ok pl validation call_gas terms out :
  finish pl validation call_gas terms = Ok out →
  ∃ pre_op limit execution fallback,
    parse_validation_pre_op_gas validation = Ok pre_op ∧
    call_gas_of pl call_gas = Ok (limit, execution, fallback) ∧
    let l := gas_limits pl pre_op limit in
    eo_fallback_call_gas out = fallback ∧
    eo_estimate out =
      {| ge_pre_verification_gas := hex_quantity (gl_pre_verification l);
         ge_verification_gas_limit := hex_quantity (gl_verification l);
         ge_call_gas_limit := hex_quantity (gl_call l);
         ge_paymaster_verification_gas_limit := hex_quantity (gl_paymaster_verification l);
         ge_paymaster_post_op_gas_limit := hex_quantity (gl_paymaster_post_op l);
         ge_settlement_gas := hex_quantity <$>
           (if decide (settlement_gas_rule (pl_chain_id pl) = Measured) then
              gas ← execution; est_settlement_gas pl pre_op gas l terms else None) |}.
Proof.
  unfold finish. intros (pre_op & Hp & Hr)%result_bind_Ok.
  apply result_bind_Ok in Hr as ([[limit execution] fallback] & Hc & [= <-]).
  by exists pre_op, limit, execution, fallback.
Qed.

(** The bill behind a published [settlementGas]. *)
Lemma settlement_bill pl pre_op execution limit terms billed :
  op_wf (pl_operation pl) → terms_typed terms → 0 ≤ pre_op → 0 ≤ execution → 0 ≤ limit →
  est_settlement_gas pl pre_op execution (gas_limits pl pre_op limit) terms = Some billed →
  ∃ used declared, 0 ≤ used ∧
    predicted_gas pl pre_op execution (gas_limits pl pre_op limit) = Some used ∧
    declared_limits [signed_operation (pl_operation pl) (gas_limits pl pre_op limit)] = Some declared ∧
    billed_gas used (Some declared) (bt_gas_buffer_bps terms) (bt_fixed_gas_buffer terms) = Some billed ∧
    used ≤ billed ≤ Z.max declared used.
Proof.
  intros Hwf (_ & [Hb _] & [Hf _]) Hpre Hex Hl Hs. unfold est_settlement_gas in Hs.
  apply bind_Some in Hs as (used & Hused & Hs). apply bind_Some in Hs as (declared & Hd & Hs).
  apply bind_Some in Hs as (b & Hbill & [-> _]%checked_Some).
  destruct (declared_by_sum _ _ _ _ Hl Hd) as (-> & Hfit & Hlf).
  assert (0 ≤ used).
  { unfold predicted_gas, TRANSACTION_BASE_GAS, ENTRY_POINT_OVERHEAD_GAS in Hused. inv_checked.
    pose proof (calldata_gas_nonneg (est_handle_ops_calldata (pl_operation pl)
      (gl_verification (gas_limits pl pre_op limit)) (gl_call (gas_limits pl pre_op limit))
      (gl_pre_verification (gas_limits pl pre_op limit)))). unfold fits in *. lia. }
  destruct (billed_gas_bounds _ _ _ _ _ Hbill) as [Hbb Hmax]; [done..|]. specialize (Hmax _ eq_refl).
  exists used, (limits_sum (gas_limits pl pre_op limit)). split_and!; try done; [|lia..].
  apply signed_declared_limits; [done|done| |].
  - intros Hnone. cbn. by rewrite Hnone.
  - destruct Hfit. split; [lia|]. etransitivity; [eassumption|]. by vm_compute.
Qed.
End Contract.

(** The bill behind a published estimate. *)
Lemma estimate_bill `{HX : Hex} `{W : TargetWidth} bytecode chain_id user_op entry_point overrides pl
    validation call_gas terms out text :
  plan bytecode chain_id user_op entry_point overrides = Ok pl → terms_typed terms →
  finish pl validation call_gas terms = Ok out → ge_settlement_gas (eo_estimate out) = Some text →
  settlement_gas_rule chain_id = Measured ∧
  ∃ limits used declared billed,
    publishes (eo_estimate out) limits ∧ quantity_value text = Some billed ∧
    (∃ pre_op limit execution fallback,
       parse_validation_pre_op_gas validation = Ok pre_op ∧
       call_gas_of pl call_gas = Ok (limit, Some execution, fallback) ∧
       used = predicted pl limits pre_op execution) ∧
    declared_limits [signed_operation (pl_operation pl) limits] = Some declared ∧
    billed_gas used (Some declared) (bt_gas_buffer_bps terms) (bt_fixed_gas_buffer terms) = Some billed ∧
    used ≤ billed ≤ Z.max declared used.
Proof.
  intros [Hop <-]%plan_operation Ht Hf Htext. apply simulation_operation_wf in Hop as Hwf.
  destruct (finish_Ok _ _ _ _ _ Hf) as (pre_op & limit & execution & fallback & Hpre & Hcall & _ & Hout).
  destruct (pre_op_gas_fits _ _ Hpre) as [Hpre' _].
  destruct (call_gas_of_range _ _ _ _ _ Hwf Hcall) as ([Hlimit _] & _ & Hexec).
  rewrite Hout in *. cbn [ge_settlement_gas] in Htext.
  case_decide as Hrule; [|done]. split; [done|].
  destruct execution as [execution|]; [|done]. cbn [mbind option_bind] in Htext.
  destruct (est_settlement_gas _ _ _ _ _) as [billed|] eqn:Hs; [|done]. injection Htext as <-.
  destruct (settlement_bill _ _ _ _ _ _ Hwf Ht Hpre' (Hexec _ eq_refl) Hlimit Hs)
    as (used & declared & Hused & Hpred & Hd & Hbill & Hrange).
  exists (gas_limits pl pre_op limit), used, declared, billed. split_and!; try done; try lia.
  - by apply gas_limits_published.
  - apply hex_quantity_value. lia.
  - exists pre_op, limit, execution, fallback. split_and!; [done..|]. exact (predicted_gas_eq _ _ _ _ _ Hpred).
Qed.

(** What a tier's fee buys: the marked-up cost of any bill up to the gas paid
    for, at any cap up to the tier's. *)
Lemma in_band_fee_covers fee cap markup gas bill bid cost marked :
  in_band_fee_per_gas cap markup = Some fee → fits 128 cap → fits 64 markup →
  0 ≤ bill ≤ gas → 0 ≤ bid ≤ cap → native_cost bill bid = Some cost →
  mul_div_ceil cost markup 10000 = Ok marked → marked ≤ gas * fee.
Proof.
  intros Hfee [Hc0 _] [Hm0 Hm] Hb Hbid Hcost Hmarked. unfold native_cost in Hcost.
  apply checked_Some in Hcost as [-> Hcost].
  rewrite mul_div_ceil_eq in Hmarked by (done || lia || (eapply (fits_mono 64); [lia|by split])).
  apply narrow_u512_Ok in Hmarked as [-> _]. apply in_band_fee_eq in Hfee as ->.
  pose proof (ceil_quot_spec (cap * markup) 10000 ltac:(lia)) as Hr.
  pose proof (ceil_quot_spec (bill * bid * markup) 10000 ltac:(lia)) as Hl.
  set (F := ceil_quot (cap * markup) 10000) in *. set (M := ceil_quot (bill * bid * markup) 10000) in *.
  assert (bill * bid ≤ gas * cap) as Hg by (apply Z.mul_le_mono_nonneg; lia).
  assert (bill * bid * markup ≤ gas * cap * markup) as Hg' by (apply Z.mul_le_mono_nonneg_r; lia).
  assert (gas * (cap * markup) ≤ gas * (10000 * F)) as HF by (apply Z.mul_le_mono_nonneg_l; lia).
  lia.
Qed.

Section Claims.
Context `{HX : Hex} `{W : TargetWidth}.

(** The settlement gas an estimate promises is the executor's bill.  It is
    published only where the executor bills measured gas; it equals the
    executor's own rule - the same buffers, the same cap at the limits - applied
    to the predicted gas (the transaction, the calldata of [handleOps], the
    simulated validation and call, the EntryPoint's own work) and to what the
    executor reads off the operation signed with the limits published beside
    it; and a bundle that uses no more gas than predicted is never billed more. *)
Theorem settlement_gas_is_the_executors_bill bytecode chain_id user_op entry_point overrides pl
    validation call_gas terms out text :
  plan bytecode chain_id user_op entry_point overrides = Ok pl → terms_typed terms →
  finish pl validation call_gas terms = Ok out → ge_settlement_gas (eo_estimate out) = Some text →
  settlement_gas_rule chain_id = Measured ∧
  ∃ limits used declared billed,
    publishes (eo_estimate out) limits ∧ quantity_value text = Some billed ∧
    (∃ pre_op limit execution fallback,
       parse_validation_pre_op_gas validation = Ok pre_op ∧
       call_gas_of pl call_gas = Ok (limit, Some execution, fallback) ∧
       used = predicted pl limits pre_op execution) ∧
    declared_limits [signed_operation (pl_operation pl) limits] = Some declared ∧
    billed_gas used (Some declared) (bt_gas_buffer_bps terms) (bt_fixed_gas_buffer terms) = Some billed ∧
    used ≤ billed ≤ Z.max declared used ∧
    ∀ measured bill, 0 ≤ measured ≤ used →
      billed_gas measured (Some declared) (bt_gas_buffer_bps terms) (bt_fixed_gas_buffer terms) = Some bill →
      bill ≤ billed.
Proof.
  intros Hp Ht Hf Htext.
  destruct (estimate_bill _ _ _ _ _ _ _ _ _ _ _ Hp Ht Hf Htext)
    as (Hrule & limits & used & declared & billed & Hpub & Hq & Hused & Hd & Hbill & Hr).
  split; [done|]. exists limits, used, declared, billed. split_and!; try done; try lia.
  intros measured bill Hm Hbl. destruct Ht as (_ & [Hb _] & _).
  exact (billed_gas_mono measured used declared _ _ bill billed Hm Hb Hbl Hbill).
Qed.

(** C23: the fee contract between the two answers a client reads.  Where an
    estimate publishes a settlement gas and the price quote for the same chain
    and terms publishes a tier's in-band fee, paying their product covers what
    the executor requires - the native cost of its bill, marked up and rounded
    up - for every bundle that uses no more gas than predicted and is sent at
    any cap up to the tier's. *)
Theorem published_fee_covers_the_bill bytecode chain_id user_op entry_point overrides pl
    validation call_gas terms out text tiers tier price fee_text :
  plan bytecode chain_id user_op entry_point overrides = Ok pl → terms_typed terms →
  finish pl validation call_gas terms = Ok out → ge_settlement_gas (eo_estimate out) = Some text →
  (tier, price) ∈ [(ugp_slow (gas_price_tiers tiers chain_id terms), price_slow tiers);
                   (ugp_standard (gas_price_tiers tiers chain_id terms), price_standard tiers);
                   (ugp_fast (gas_price_tiers tiers chain_id terms), price_fast tiers)] →
  fits 128 (gp_max_fee_per_gas price) → gt_in_band_fee_per_gas tier = Some fee_text →
  ∃ limits declared used gas fee,
    publishes (eo_estimate out) limits ∧
    declared_limits [signed_operation (pl_operation pl) limits] = Some declared ∧
    (∃ pre_op limit execution fallback,
       parse_validation_pre_op_gas validation = Ok pre_op ∧
       call_gas_of pl call_gas = Ok (limit, Some execution, fallback) ∧
       used = predicted pl limits pre_op execution) ∧
    quantity_value text = Some gas ∧ quantity_value fee_text = Some fee ∧ used ≤ gas ∧
    ∀ measured bill bid cost marked,
      0 ≤ measured ≤ used → 0 ≤ bid ≤ gp_max_fee_per_gas price →
      billed_gas measured (Some declared) (bt_gas_buffer_bps terms) (bt_fixed_gas_buffer terms) = Some bill →
      native_cost bill bid = Some cost →
      mul_div_ceil cost (bt_settlement_markup_bps terms) 10000 = Ok marked →
      marked ≤ gas * fee.
Proof.
  intros Hp Ht Hf Htext Htier Hcap Hfee.
  destruct (estimate_bill _ _ _ _ _ _ _ _ _ _ _ Hp Ht Hf Htext)
    as (Hrule & limits & used & declared & billed & Hpub & Hq & Hused & Hd & Hbill & Hr).
  assert (tier = gas_price_tier true terms price) as ->.
  { unfold gas_price_tiers in Htier. rewrite bool_decide_eq_true_2 in Htier by done. set_solver. }
  cbn [gas_price_tier gt_in_band_fee_per_gas] in Hfee.
  apply fmap_Some in Hfee as (fee & Hfee & ->).
  assert (0 ≤ fee).
  { unfold in_band_fee_per_gas in Hfee. inv_checked. unfold fits in *. lia. }
  exists limits, declared, used, billed, fee. split_and!; try done; [by apply hex_quantity_value|lia|].
  intros measured bill bid cost marked Hm Hbid Hbl Hcost Hmarked. destruct Ht as (Hmarkup & [Hb Hb'] & [Hx Hx']).
  apply (in_band_fee_covers fee (gp_max_fee_per_gas price) (bt_settlement_markup_bps terms) billed bill bid cost marked);
    try done.
  destruct (billed_gas_bounds measured (Some declared) (bt_gas_buffer_bps terms) (bt_fixed_gas_buffer terms) bill Hbl) as [? _]; try lia.
  split; [lia|]. exact (billed_gas_mono measured used declared _ _ bill billed Hm Hb Hbl Hbill).
Qed.
End Claims.

(** ** A sample *)

Definition sample_estimatable : EstimatableUserOperation := Estimatable_V0_7 {|
  ev_sender := "0x1111111111111111111111111111111111111111"; ev_nonce := "0x1"; ev_factory := None;
  ev_factory_data := None; ev_call_data := "0xdeadbeef"; ev_call_gas_limit := None;
  ev_verification_gas_limit := None; ev_pre_verification_gas := None; ev_max_fee_per_gas := Some "0x0";
  ev_max_priority_fee_per_gas := Some "0x0"; ev_paymaster := None; ev_paymaster_verification_gas_limit := None;
  ev_paymaster_post_op_gas_limit := None; ev_paymaster_data := None; ev_signature := Some "0xff";
  ev_eip7702_auth := None; ev_fee_token := None |}.

Definition sample_terms : BillingTerms :=
  {| bt_settlement_markup_bps := 16000; bt_gas_buffer_bps := 1000; bt_fixed_gas_buffer := 20000 |}.

Definition sample_entry_point : string := "0x0000000071727de22e5e9d8baf0edac6f37da032".
Definition sample_estimate_plan : result RpcError EstimatePlan :=
  @plan ref_hex "0x6080" 100 sample_estimatable sample_entry_point None.

(** [simulateValidation] measures 210000 gas before the call, [eth_estimateGas] 90000. *)
Definition sample_validation : Value :=
  VString (@bytes_to_hex ref_hex (usize_word 32 ++ usize_word 32 ++ usize_word 210000)).

Lemma sample_estimate_facts :
  ∃ pl out, sample_estimate_plan = Ok pl ∧
    @finish ref_hex x86_64 pl sample_validation (Estimated (VString "0x15f90")) sample_terms = Ok out ∧
    ge_settlement_gas (eo_estimate out) = Some "0x5901d".
Proof. eexists _, _. split; [vm_compute; reflexivity|]. split; vm_compute; reflexivity. Qed.

Lemma sample_terms_typed : terms_typed sample_terms.
Proof. repeat split; vm_compute; congruence. Qed.

(** The bill, a little above the predicted gas. *)
Lemma settlement_gas_is_the_executors_bill_witness :
  ∃ pl out limits used declared,
    sample_estimate_plan = Ok pl ∧ publishes (eo_estimate out) limits ∧
    declared_limits [signed_operation (pl_operation pl) limits] = Some declared ∧
    used ≤ 364573 ≤ Z.max declared used.
Proof.
  destruct sample_estimate_facts as (pl & out & Hp & Hf & Ht).
  destruct (@settlement_gas_is_the_executors_bill ref_hex x86_64 "0x6080" 100 sample_estimatable sample_entry_point
              None pl sample_validation _ sample_terms out _ Hp sample_terms_typed Hf Ht)
    as (_ & limits & used & declared & billed & Hpub & Hq & _ & Hd & _ & Hr & _).
  vm_compute in Hq. injection Hq as <-. by exists pl, out, limits, used, declared.
Defined.

Definition sample_price : GasPrice :=
  {| gp_max_fee_per_gas := 45000000007; gp_max_priority_fee_per_gas := 1000000000;
     gp_network_fee_per_gas := 22000000003; gp_relayer_fee_per_gas := 0 |}.
Definition sample_tiers : GasPriceTiers :=
  {| price_slow := sample_price; price_standard := sample_price; price_fast := sample_price |}.

(** Paying 0x5901d * 72000000012 covers the marked-up cost at any cap up to 45000000007. *)
Lemma published_fee_covers_the_bill_witness :
  ∃ pl limits used declared, sample_estimate_plan = Ok pl ∧
    declared_limits [signed_operation (pl_operation pl) limits] = Some declared ∧
    ∀ bill cost marked, 0 ≤ used → billed_gas used (Some declared) 1000 20000 = Some bill →
      native_cost bill 45000000007 = Some cost → mul_div_ceil cost 16000 10000 = Ok marked →
      marked ≤ 364573 * 72000000012.
Proof.
  destruct sample_estimate_facts as (pl & out & Hp & Hf & Ht).
  destruct (@published_fee_covers_the_bill ref_hex x86_64 "0x6080" 100 sample_estimatable sample_entry_point
              None pl sample_validation _ sample_terms out _ sample_tiers
              (gas_price_tier true sample_terms sample_price) sample_price "0x10c388d00c" Hp sample_terms_typed Hf Ht)
    as (limits & declared & used & gas & fee & _ & Hd & _ & Hq & Hfee & _ & Hpay).
  - vm_compute. constructor.
  - split; vm_compute; congruence.
  - by vm_compute.
  - vm_compute in Hq, Hfee. injection Hq as <-. injection Hfee as <-.
    exists pl, limits, used, declared. split_and!; [done..|]. intros bill cost marked Hu Hb Hc Hm.
    apply (Hpay used bill 45000000007 cost marked); try done; unfold sample_price; cbn; lia.
Defined.
