(* ===== verification/Market.v ===== *)
(** * Market: what the Worker fetches, and the endpoints it asks
    ([vela-relay-cf/src/arms/market.rs] and [arms/rpc.rs])

    The platform is the effects of [Cloud]: the key-value cache, HTTP, the
    clock, the durable objects and the queue.  A text that is fetched or cached
    is the value it parses to, or [None] where it is not JSON; a request that
    does not answer in time is an [Err] of its effect.  Console lines have no
    answer and are left out. *)

From S2P Require Export Alchemy Config Io Estimate Treasury.
From S2P Require RecordDo.
#[local] Open Scope string_scope.
#[local] Open Scope list_scope.
#[local] Open Scope Z_scope.

Inductive Cloud : Type → Type :=
  | NowMs : Cloud Z
  | SleepMs (ms : Z) : Cloud ()
  (* which of two joined calls goes on, and whether the response budget holds *)
  | LeftNext : Cloud bool
  | InTime : Cloud bool
  (* [env.kv("CACHE")]: an absent binding, key or answer is [None] *)
  | KvGet (key : string) : Cloud (option (option Value))
  | KvPut (key : string) (value : Value) (ttl_secs : Z) : Cloud ()
  | HttpGet (url : string) (timeout_ms : Z) : Cloud (result string (Z * option Value))
  | HttpPost (url : string) (body : Value) (timeout_ms : Z) : Cloud (result string Value)
  (* one command to the record object of that name *)
  | RecordObject (name : string) (command : RecordDo.RecordCommand) : Cloud (result () RecordDo.RecordReply)
  (* whether a binding of the platform is there *)
  | Bound (binding : string) : Cloud bool
  | QueueSend (envelope : Value) : Cloud bool.

Abbreviation cloud := (io Cloud).

Definition METADATA_REQUEST_ATTEMPTS : nat := 3.
Definition METADATA_CACHE_TTL_SECS : Z := 60 * 60.
Definition METADATA_FETCH_TIMEOUT_MS : Z := 10000.
Definition MARKET_FETCH_TIMEOUT_MS : Z := 2000.
Definition RPC_FETCH_TIMEOUT_MS : Z := 2000.
Definition BINANCE_TICKER_URLS : list string :=
  ["https://api.binance.com/api/v3/ticker/price?symbol=";
   "https://data-api.binance.vision/api/v3/ticker/price?symbol=";
   "https://api.binance.us/api/v3/ticker/price?symbol="].

(** ** Fetching *)

(** The body of a success; an error status has none. *)
Definition fetch_with_status (url : string) (timeout_ms : Z) : cloud (result string (Z * option Value)) :=
  '(status, body) ←? perform (HttpGet url timeout_ms);
  mret (Ok (if decide (400 ≤ status) then (status, None) else (status, body))).

Definition upstream_status (status : Z) : string := "upstream request returned " +:+ dec status.

Definition fetch_json_with_timeout (url : string) (timeout_ms : Z) : cloud (result string (option Value)) :=
  '(status, body) ←? fetch_with_status url timeout_ms;
  mret (if decide (400 ≤ status) then Err (upstream_status status) else Ok body).

Inductive MetadataError : Type := MetadataNotListed | MetadataUnavailable (error : string).

(** [Display for MetadataError] *)
Definition metadata_error_text (error : MetadataError) : string :=
  match error with
  | MetadataNotListed => "the chain directory does not list the chain"
  | MetadataUnavailable error => error
  end.

Definition is_json_object (body : option Value) : bool :=
  match body with Some (VObject _) => true | _ => false end.

Definition metadata_key (chain_id : Z) : string := "chainmeta:" +:+ dec chain_id.

Section Market.
Variable env : Env.

(** One attempt: what ends the loop, or the error so far. *)
Definition metadata_attempt (chain_id : Z) (url : string) (attempt : nat) (last_error : option string) :
    cloud (option string + result MetadataError ChainMetadata) :=
  let again error :=
    if decide (attempt < METADATA_REQUEST_ATTEMPTS)%nat
    then _ ← perform (SleepMs (100 * Z.of_nat attempt)); mret (inl error)
    else mret (inl error) in
  reply ← fetch_with_status url METADATA_FETCH_TIMEOUT_MS;
  match reply with
  | Ok (status, body) =>
      match listing_of is_json_object status body with
      | Listed =>
          match (body ← body; metadata ← de_chain_metadata body; Some (body, metadata)) with
          | Some (body, metadata) =>
              _ ← perform (KvPut (metadata_key chain_id) body METADATA_CACHE_TTL_SECS);
              mret (inr (Ok metadata))
          | None => again (Some "metadata body is not valid chain metadata")
          end
      | NotListed => mret (inr (Err MetadataNotListed))
      | Unavailable => again (Some (upstream_status status))
      end
  | Err error => again (Some error)
  end.

Definition chain_metadata (chain_id : Z) : cloud (result MetadataError ChainMetadata) :=
  cached ← perform (KvGet (metadata_key chain_id));
  match (cached ← cached; cached ← cached; de_chain_metadata cached) with
  | Some metadata => mret (Ok metadata)
  | None =>
      match chain_directory env with
      | Err error => mret (Err (MetadataUnavailable error))
      | Ok directory =>
          io_for (metadata_attempt chain_id (metadata_url directory chain_id))
            (seq 1 METADATA_REQUEST_ATTEMPTS) None
            (λ last_error, mret (Err (MetadataUnavailable
               ("metadata request failed after " +:+ dec (Z.of_nat METADATA_REQUEST_ATTEMPTS)
                +:+ " attempts: " +:+ default "unknown error" last_error))))
      end
  end.

Definition is_hex_address (address : string) : bool :=
  bool_decide (String.length address = 42%nat) && starts_with "0x" address &&
  all_chars is_ascii_hexdigit (str_drop 2 address).

(** The native decimals and the accepted contracts ([SettlementAssets]). *)
Definition settlement_assets (chain_id : Z) : cloud (option (Z * list string)) :=
  metadata ← chain_metadata chain_id;
  mret (metadata ← ok metadata;
        native ← cm_native_currency metadata;
        Some (nm_decimals native,
              List.filter is_hex_address (map sm_contract (cm_stables metadata)))).

Definition payment_metadata (chain_id : Z) : cloud (result string ChainMetadata) :=
  metadata ← chain_metadata chain_id; mret (map_err metadata_error_text metadata).

Definition de_ticker (v : Value) : option string :=
  o ← struct_fields ["price"] 1 v;
  if fields_once ["price"] o then req as_str "price" o else None.

Definition binance_usdt_price (symbol : string) : cloud (option string) :=
  io_for (λ endpoint (_ : ()),
            body ← fetch_json_with_timeout (endpoint +:+ symbol +:+ "USDT") MARKET_FETCH_TIMEOUT_MS;
            mret (match (body ← ok body; body ← body; de_ticker body) with
                  | Some price => inr (Some price)
                  | None => inl ()
                  end))
    BINANCE_TICKER_URLS () (λ _, mret None).

(** ** JSON-RPC *)

Definition rpc_body (method : string) (params : Value) : Value :=
  VObject [("jsonrpc", VString "2.0"); ("id", VNumber 1); ("method", VString method); ("params", params)].

Definition json_rpc_raw (url method : string) (params : Value) : cloud (result string Value) :=
  perform (HttpPost url (rpc_body method params) RPC_FETCH_TIMEOUT_MS).

Definition not_null (v : option Value) : option Value :=
  match v with Some VNull | None => None | Some v => Some v end.

(** A result, or [None] for an error or an envelope without one. *)
Definition rpc_result (reply : Value) : option Value :=
  match not_null (get "error" reply) with Some _ => None | None => not_null (get "result" reply) end.

Definition json_rpc (url method : string) (params : Value) : cloud (result string (option Value)) :=
  reply ←? json_rpc_raw url method params; mret (Ok (rpc_result reply)).

Inductive SimulationReply : Type :=
  | SimulationResultReply (value : Value)
  | SimulationUpstreamError (error : SimulationRevert).

Definition simulation_reply (reply : Value) : result string SimulationReply :=
  match not_null (get "error" reply) with
  | Some error =>
      Ok (SimulationUpstreamError
        {| rv_code := code ← get "code" error; as_i64_number code;
           rv_message := default "upstream JSON-RPC error" (message ← get "message" error; as_str message);
           rv_data := get "data" error |})
  | None =>
      match not_null (get "result" reply) with
      | Some result => Ok (SimulationResultReply result)
      | None => Err "upstream JSON-RPC response has no result"
      end
  end.

Definition json_rpc_simulation (url method : string) (params : Value) : cloud (result string SimulationReply) :=
  reply ←? json_rpc_raw url method params; mret (simulation_reply reply).

(** ** The endpoints *)

Record CallResult : Type := { cr_value : Value; cr_domain : string }.

Section Rpc.
Context `{UP : UrlParser}.
Variable config : CfConfig.

Definition usable_rpc_url (policy : RpcHostPolicy) (url : string) : bool :=
  negb (contains "${" url) &&
  match url_parse url with
  | Ok (scheme, Some host) => allows policy scheme host
  | _ => false
  end.

Definition fallback_rpc_urls (chain_id : Z) (policy : RpcHostPolicy) :
    cloud (result MetadataError (list string)) :=
  metadata ←? chain_metadata chain_id;
  mret (Ok (List.filter (usable_rpc_url policy) (cm_rpc metadata))).

Definition rpc_domain (url : string) : string :=
  default "<unknown>" ('(_, host) ← ok (url_parse url); host).

Definition header_url (user_rpc_url : option string) : option string :=
  url ← trim <$> user_rpc_url;
  if usable_rpc_url (cc_rpc_host_policy config) url then Some url else None.

Definition alchemy_url (chain_id : Z) : option string :=
  api_key ← cc_alchemy_api_key config; rpc_url chain_id api_key.

(** The first of [urls] that gives a result, or [otherwise]. *)
Definition first_result {A} (method : string) (params : Value) (urls : list string)
    (answer : CallResult → A) (otherwise : cloud A) : cloud A :=
  io_for (λ url (_ : ()),
            reply ← json_rpc url method params;
            mret (match reply with
                  | Ok (Some value) => inr (answer {| cr_value := value; cr_domain := rpc_domain url |})
                  | _ => inl ()
                  end))
    urls () (λ _, otherwise).

Definition option_list {A} (o : option A) : list A := match o with Some a => [a] | None => [] end.

Definition rpc_call (chain_id : Z) (user_rpc_url : option string) (method : string) (params : Value) :
    cloud (option CallResult) :=
  first_result method params (option_list (header_url user_rpc_url) ++ option_list (alchemy_url chain_id))
    Some
    (urls ← fallback_rpc_urls chain_id (cc_rpc_host_policy config);
     match urls with
     | Err _ => mret None
     | Ok urls => first_result method params urls Some (mret None)
     end).

Definition treasury_read (chain_id : Z) (user_rpc_url : option string) (method : string) (params : Value) :
    cloud (result ProbeFailure CallResult) :=
  urls ← fallback_rpc_urls chain_id (cc_rpc_host_policy config);
  match urls with
  | Err MetadataNotListed => mret (Err ProbeNotListed)
  | _ =>
      let '(listing, directory_urls) :=
        match urls with Ok urls => (Listed, urls) | Err _ => (Unavailable, []) end in
      let client_rpc :=
        match user_rpc_url, header_url user_rpc_url with
        | None, _ => ClientAbsent
        | Some _, Some _ => ClientUsed
        | Some _, None => ClientRefused
        end in
      let sources := option_list (header_url user_rpc_url) ++ option_list (alchemy_url chain_id)
                     ++ directory_urls in
      first_result method params sources Ok
        (mret (Err (unreadable listing client_rpc (negb (bool_decide (sources = []))))))
  end.

Definition call_simulation (chain_id : Z) (user_rpc_url : option string) (method : string) (params : Value) :
    cloud (result SimulationCallError CallResult) :=
  directory ← fallback_rpc_urls chain_id (cc_rpc_host_policy config);
  let sources := option_list (header_url user_rpc_url) ++ option_list (alchemy_url chain_id)
                 ++ match directory with Ok urls => urls | Err _ => [] end in
  io_for (λ url (_ : ()),
            reply ← json_rpc_simulation url method params;
            mret (match reply with
                  | Ok (SimulationResultReply value) =>
                      inr (Ok {| cr_value := value; cr_domain := rpc_domain url |})
                  | Ok (SimulationUpstreamError revert) =>
                      if revert_is_execution revert then inr (Err (CallReverted revert)) else inl ()
                  | Err _ => inl ()
                  end))
    sources () (λ _, mret (Err CallUnavailable)).

Definition decimals_of (value : Value) : option Z :=
  value ← as_str value; value ← str_strip_prefix "0x" value;
  decimals ← from_str_radix16 32 value;
  if decide (decimals ≤ 38) then Some decimals else None.

Definition erc20_decimals (chain_id : Z) (user_rpc_url : option string) (token : string) : cloud (option Z) :=
  result ← rpc_call chain_id user_rpc_url "eth_call"
             (VArray [VObject [("to", VString token); ("data", VString "0x313ce567")]; VString "latest"]);
  mret (result ← result; decimals_of (cr_value result)).
End Rpc.
End Market.
