(* ===== verification/Arms.v ===== *)
(** * Arms: the Worker's gas price, quote and admission arms
    ([vela-relay-cf/src/arms/gas_price.rs], [arms/quote.rs] and [admission.rs]) *)

From S2P Require Export Market AdmissionShell.
From S2P Require RecordDo.
#[local] Open Scope string_scope.
#[local] Open Scope list_scope.
#[local] Open Scope Z_scope.

(** * GasPriceArm: [pimlico_getUserOperationGasPrice] on the Worker
    ([vela-relay-cf/src/arms/gas_price.rs])

    The fee history beside the node's tip, the legacy price when they give
    none, a five-second cache and the response budget.  The reader of a fee
    history meets floats, which [Value] does not have, and is the argument
    [fee_history_of]. *)

Definition PRICE_CACHE_TTL_MS : Z := 5000.

(** [GasPricePolicy::default().priority_fee_divisor] *)
Definition PRIORITY_FEE_DIVISOR : Z := 200.

Record GasPriceQuote : Type := { gq_tiers : GasPriceTiers; gq_rpc_domain : string }.
Record CachedQuote : Type := { cq_fetched_at_ms : Z; cq_quote : GasPriceQuote }.

(** ** The cached JSON *)

Definition price_fields : list string :=
  ["max_fee_per_gas"; "max_priority_fee_per_gas"; "network_fee_per_gas"; "relayer_fee_per_gas"].
Definition ser_price (p : GasPrice) : Value :=
  VObject [("max_fee_per_gas", VNumber (gp_max_fee_per_gas p));
           ("max_priority_fee_per_gas", VNumber (gp_max_priority_fee_per_gas p));
           ("network_fee_per_gas", VNumber (gp_network_fee_per_gas p));
           ("relayer_fee_per_gas", VNumber (gp_relayer_fee_per_gas p))].
Definition de_price (v : Value) : option GasPrice :=
  o ← struct_fields price_fields 4 v;
  if negb (fields_once price_fields o) then None else
  max_fee ← req (as_uint 128) "max_fee_per_gas" o;
  priority ← req (as_uint 128) "max_priority_fee_per_gas" o;
  network ← req (as_uint 128) "network_fee_per_gas" o;
  relayer ← req (as_uint 128) "relayer_fee_per_gas" o;
  Some {| gp_max_fee_per_gas := max_fee; gp_max_priority_fee_per_gas := priority;
          gp_network_fee_per_gas := network; gp_relayer_fee_per_gas := relayer |}.

Definition ser_tiers (t : GasPriceTiers) : Value :=
  VObject [("slow", ser_price (price_slow t)); ("standard", ser_price (price_standard t));
           ("fast", ser_price (price_fast t))].
Definition de_tiers (v : Value) : option GasPriceTiers :=
  o ← struct_fields ["slow"; "standard"; "fast"] 3 v;
  if negb (fields_once ["slow"; "standard"; "fast"] o) then None else
  slow ← req de_price "slow" o; standard ← req de_price "standard" o; fast ← req de_price "fast" o;
  Some {| price_slow := slow; price_standard := standard; price_fast := fast |}.

Definition ser_price_quote (q : GasPriceQuote) : Value :=
  VObject [("tiers", ser_tiers (gq_tiers q)); ("rpc_domain", VString (gq_rpc_domain q))].
Definition de_price_quote (v : Value) : option GasPriceQuote :=
  o ← struct_fields ["tiers"; "rpc_domain"] 2 v;
  if negb (fields_once ["tiers"; "rpc_domain"] o) then None else
  tiers ← req de_tiers "tiers" o; domain ← req as_str "rpc_domain" o;
  Some {| gq_tiers := tiers; gq_rpc_domain := domain |}.

Definition ser_cached_quote (c : CachedQuote) : Value :=
  VObject [("fetched_at_ms", VNumber (cq_fetched_at_ms c)); ("quote", ser_price_quote (cq_quote c))].
Definition de_cached_quote (v : Value) : option CachedQuote :=
  o ← struct_fields ["fetched_at_ms"; "quote"] 2 v;
  if negb (fields_once ["fetched_at_ms"; "quote"] o) then None else
  at_ms ← req (as_uint 64) "fetched_at_ms" o; quote ← req de_price_quote "quote" o;
  Some {| cq_fetched_at_ms := at_ms; cq_quote := quote |}.

Definition price_key (chain_id : Z) : string := "gasprice:" +:+ dec chain_id.

Section GasPrice.
Context `{UP : UrlParser}.
Variables (fee_history_of : Value → option FeeHistory) (env : Env) (config : CfConfig).
Variables (chain_id : Z) (user_rpc_url : option string).

Definition call_rpc : string → Value → cloud (option CallResult) :=
  rpc_call env config chain_id user_rpc_url.

Definition quantity_read (method : string) : cloud (option Z) :=
  response ← call_rpc method (VArray []);
  mret (response ← response; text ← as_str (cr_value response); ok (parse_quantity text)).

Definition eip1559_price (value : Value) (max_priority_fee_per_gas : option Z) :
    cloud (result GasPriceError NetworkGasPrice) :=
  match fee_history_of value with
  | None => mret (Err InvalidUpstreamResponse)
  | Some fee_history =>
      legacy_gas_price ← match max_priority_fee_per_gas with
                         | Some _ => mret None
                         | None => quantity_read "eth_gasPrice"
                         end;
      mret (tip ← quote_market_tip fee_history max_priority_fee_per_gas legacy_gas_price PRIORITY_FEE_DIVISOR;
            price_from_fee_history fee_history tip)
  end.

Definition legacy_network_price : cloud (result GasPriceError (NetworkGasPrice * string)) :=
  response ← call_rpc "eth_gasPrice" (VArray []);
  mret (response ← ok_or response NoPriceAvailable;
        price ← legacy_price_from_result (cr_value response);
        Ok (price, cr_domain response)).

Definition network_gas_price : cloud (result GasPriceError (NetworkGasPrice * string)) :=
  '(fee_history, max_priority_fee_per_gas) ←
     io_join LeftNext (call_rpc "eth_feeHistory" (tip_history_params chain_id))
       (quantity_read "eth_maxPriorityFeePerGas");
  match fee_history with
  | None => legacy_network_price
  | Some response =>
      price ← eip1559_price (cr_value response) max_priority_fee_per_gas;
      match price with
      | Ok price => mret (Ok (price, cr_domain response))
      | Err _ => legacy_network_price
      end
  end.

Definition fetch_user_operation_gas_prices : cloud (result GasPriceError GasPriceQuote) :=
  network ← network_gas_price;
  mret ('(network_price, domain) ← network;
        tiers ← tiers network_price;
        Ok {| gq_tiers := tiers; gq_rpc_domain := domain |}).

(** A quote from the cache while it is fresh; a wallet with an endpoint of its
    own never reads or writes it. *)
Definition cached_gas_prices : cloud (option GasPriceQuote) :=
  match user_rpc_url with
  | Some _ => mret None
  | None =>
      cached ← perform (KvGet (price_key chain_id));
      match (cached ← cached; cached ← cached; de_cached_quote cached) with
      | None => mret None
      | Some cached =>
          now ← perform NowMs;
          mret (if decide (saturating_sub now (cq_fetched_at_ms cached) < PRICE_CACHE_TTL_MS)
                then Some (cq_quote cached) else None)
      end
  end.

Definition cache_gas_prices (quote : GasPriceQuote) : cloud () :=
  match user_rpc_url with
  | Some _ => mret ()
  | None =>
      now ← perform NowMs;
      perform (KvPut (price_key chain_id)
                 (ser_cached_quote {| cq_fetched_at_ms := now; cq_quote := quote |}) 60)
  end.

Definition user_operation_gas_prices : cloud (result GasPriceError GasPriceQuote) :=
  cached ← cached_gas_prices;
  match cached with
  | Some quote => mret (Ok quote)
  | None =>
      fetched ← io_within InTime fetch_user_operation_gas_prices;
      match fetched with
      | None => mret (Err ResponseDeadlineExceeded)
      | Some (Err error) => mret (Err error)
      | Some (Ok quote) => _ ← cache_gas_prices quote; mret (Ok quote)
      end
  end.
End GasPrice.

(** * QuoteArm: [vela_getInBandGasQuote] on the Worker
    ([vela-relay-cf/src/arms/quote.rs])

    The chain's metadata, the native coin's price through a cache, the
    Multicall of balances, and the rows the core makes of its answer. *)

Definition MARKET_PRICE_TTL_MS : Z := 60000.
Definition MARKET_PRICE_FAILURE_TTL_MS : Z := 3000.

(** Where the code panics: an [expect], an allocation, a slice. *)
Inductive Crash : Type :=
  | ExpectFailed
  | DecodeCrash (panic : DecodePanic)
  | ReceiptCrash (panic : Panic).

Record CachedPrice : Type := { cp_fetched_at_ms : Z; cp_price : option string }.
Definition ser_cached_price (c : CachedPrice) : Value :=
  VObject [("fetched_at_ms", VNumber (cp_fetched_at_ms c)); ("price", ser_opt VString (cp_price c))].
Definition de_cached_price (v : Value) : option CachedPrice :=
  o ← struct_fields ["fetched_at_ms"; "price"] 2 v;
  if negb (fields_once ["fetched_at_ms"; "price"] o) then None else
  at_ms ← req (as_uint 64) "fetched_at_ms" o; price ← opt as_str "price" o;
  Some {| cp_fetched_at_ms := at_ms; cp_price := price |}.

Definition price_is_fresh (now : Z) (cached : CachedPrice) : bool :=
  bool_decide (saturating_sub now (cp_fetched_at_ms cached) <
    match cp_price cached with Some _ => MARKET_PRICE_TTL_MS | None => MARKET_PRICE_FAILURE_TTL_MS end).

Definition usd_price_key (symbol : string) : string := "usdprice:" +:+ symbol.

(** A price from the cache while it is fresh; a failure is remembered too. *)
Definition cached_usd_price (symbol : string) : cloud (option (option string)) :=
  cached ← perform (KvGet (usd_price_key symbol));
  match (cached ← cached; cached ← cached; de_cached_price cached) with
  | None => mret None
  | Some cached =>
      now ← perform NowMs;
      mret (if price_is_fresh now cached then Some (cp_price cached) else None)
  end.

Definition native_usd_price (chain_id : Z) (symbol : string) : cloud (option string) :=
  match pegged_native_usd_price chain_id with
  | Some _ => mret (Some "1")
  | None =>
      let symbol := to_ascii_uppercase (trim symbol) in
      if bool_decide (symbol = "") || negb (all_chars is_ascii_alphanumeric symbol) then mret None
      else
        cached ← cached_usd_price symbol;
        match cached with
        | Some price => mret price
        | None =>
            price ← binance_usdt_price symbol;
            let price := price ← price; normalize_usd_price price in
            now ← perform NowMs;
            _ ← perform (KvPut (usd_price_key symbol)
                  (ser_cached_price {| cp_fetched_at_ms := now; cp_price := price |}) 120);
            mret price
        end
  end.

Definition quoted_stablecoins (stables : list StablecoinMetadata) : list QuoteStable :=
  map (λ s, {| qs_symbol := sm_symbol s; qs_contract := sm_contract s |})
    (List.filter (λ s, is_usd_stablecoin (sm_symbol s))
       (List.filter (λ s, is_hex_address (sm_contract s)) stables)).

Section Quote.
Context `{HA : Alloy} `{TC : TokenCalls} `{BU : BigUintText} `{UP : UrlParser} `{W : TargetWidth}.
Variables (env : Env) (config : CfConfig) (chain_id : Z) (user_rpc_url : option string).

Abbreviation quote_answer := (result Crash (result RpcError (list InBandGasQuote * string))).

Definition refuse (error : RpcError) : cloud quote_answer := mret (Ok (Err error)).
Definition quote_unavailable : cloud quote_answer := refuse in_band_gas_quote_unavailable.

Definition eth_call_params (to data : string) : Value :=
  VArray [VObject [("to", VString to); ("data", VString data)]; VString "latest"].

Definition tempo_quote_arm (safe_address : list byte) (recipient : string) : cloud quote_answer :=
  let path_usd := address_to_string PATH_USD in
  response ← rpc_call env config chain_id user_rpc_url "eth_call"
    (eth_call_params path_usd (bytes_to_hex (encode_balance_of (be_value safe_address))));
  match response with
  | None => quote_unavailable
  | Some response =>
      match (text ← as_str (cr_value response); bytes ← decode_hex text; bytes32_quantity bytes) with
      | None => quote_unavailable
      | Some balance => mret (Ok (Ok ([tempo_quote path_usd recipient balance], cr_domain response)))
      end
  end.

(** The rows of a decoded answer. *)
Definition rows_of (native : NativeCurrencyMetadata) (recipient : string) (native_price : option string)
    (stables : list QuoteStable) (response : CallResult) : quote_answer :=
  match as_str (cr_value response) with
  | None => Ok (Err in_band_gas_quote_unavailable)
  | Some text =>
      values ← map_err DecodeCrash (decode_aggregate3 text);
      Ok (values ← ok_or values in_band_gas_quote_unavailable;
          quotes ← map_err (λ _, in_band_gas_quote_unavailable)
            (quotes_from_multicall (nm_decimals native) (nm_symbol native) recipient native_price stables values);
          Ok (quotes, cr_domain response))
  end.

Definition native_and_stables (metadata : ChainMetadata) (native : NativeCurrencyMetadata)
    (safe_address : list byte) (recipient : string) : cloud quote_answer :=
  native_price ← native_usd_price chain_id (nm_symbol native);
  let stables := match native_price with Some _ => quoted_stablecoins (cm_stables metadata) | None => [] end in
  match multicall_requests safe_address stables with
  | None => mret (Err ExpectFailed)
  | Some calls =>
      response ← rpc_call env config chain_id user_rpc_url "eth_call"
        (eth_call_params MULTICALL3_ADDRESS (bytes_to_hex (encode_aggregate3 calls)));
      match response with
      | None => quote_unavailable
      | Some response => mret (rows_of native recipient native_price stables response)
      end
  end.

Definition quote_handle (safe_address : string) : cloud quote_answer :=
  match quote_address safe_address, cc_settlement_recipient config with
  | None, _ => refuse (invalid_params "safeAddress must be a 20-byte address")
  | Some _, None => refuse backend_unavailable
  | Some safe_address, Some recipient =>
      if is_tempo_chain chain_id then tempo_quote_arm safe_address recipient
      else
        metadata ← payment_metadata env chain_id;
        match metadata with
        | Err _ => quote_unavailable
        | Ok metadata =>
            match cm_native_currency metadata with
            | None => quote_unavailable
            | Some native => native_and_stables metadata native safe_address recipient
            end
        end
  end.
End Quote.

(** * AdmissionArm: [eth_sendUserOperation] on the Worker
    ([vela-relay-cf/src/admission.rs])

    The admission program of the core, answered over the platform's effects,
    and its outcome as a JSON-RPC response.  [AdmissionShell] is the same arms
    over a store; [arms_agree] shows they are the same. *)

Definition QUEUE_BINDING : string := "OPS_QUEUE".

Section Arm.
Context `{HX : Hex} `{HK : Keccak} `{W : TargetWidth} `{UP : UrlParser}.
Variables (env : Env) (config : CfConfig) (chain_id : Z) (user_rpc_url : option string).

Definition ask_record (hash : string) (command : RecordDo.RecordCommand) :
    cloud (result () RecordDo.RecordReply) :=
  perform (RecordObject (record_name chain_id hash) command).
Definition ask_slot (slot : NonceSlot) (command : RecordDo.RecordCommand) :
    cloud (result () RecordDo.RecordReply) :=
  perform (RecordObject (slot_name slot) command).

Definition claim_result (reply : result () RecordDo.RecordReply) : AdmissionResult :=
  match reply with Ok (RecordDo.Nonce claim) => ResNonceClaim claim | _ => StoreFailed end.

(** [execute]: one operation, every failure folded into a result. *)
Definition admission_arm (operation : AdmissionOperation) : cloud AdmissionResult :=
  match operation with
  | LoadSettlementAssets =>
      assets ← Market.settlement_assets env chain_id;
      mret (match assets with
            | Some (native_decimals, stablecoins) => Assets native_decimals stablecoins
            | None => AssetsUnavailable
            end)
  | FetchTokenDecimals token =>
      decimals ← Market.erc20_decimals env config chain_id user_rpc_url token;
      mret (match decimals with Some decimals => Decimals decimals | None => DecimalsUnavailable end)
  | ClaimNonce slot holder =>
      reply ← ask_slot slot (RecordDo.ClaimNonce holder); mret (claim_result reply)
  | TakeOverNonce slot judged holder =>
      reply ← ask_slot slot (RecordDo.TakeOverNonce judged holder); mret (claim_result reply)
  | ReleaseNonce slot hash =>
      _ ← ask_slot slot (RecordDo.ReleaseNonce hash); mret NonceReleased
  | CreateQueued operation =>
      bound ← perform (Bound QUEUE_BINDING);
      if bound : bool then
        reply ← ask_record (q_user_operation_hash operation) (RecordDo.CreateQueued operation);
        mret (match reply with Ok (RecordDo.Created created) => Created created | _ => StoreFailed end)
      else mret ResQueueUnavailable
  | LoadExisting hash =>
      reply ← ask_record hash RecordDo.Get;
      mret (match reply with Ok (RecordDo.RecordRead record) => ResRecord record | _ => StoreFailed end)
  | Enqueue envelope _ =>
      bound ← perform (Bound QUEUE_BINDING);
      if bound : bool then
        sent ← perform (QueueSend envelope);
        mret (if sent : bool then Enqueued else ResQueueUnavailable)
      else mret ResQueueUnavailable
  | MarkAdmitted hash =>
      reply ← ask_record hash RecordDo.MarkAdmitted;
      mret (match reply with Ok (RecordDo.Marked marked) => Marked marked | _ => StoreFailed end)
  end.

Definition render (id : Value) (outcome : AdmissionOutcome) : RpcResponse Value :=
  match outcome with
  | Accepted hash _ _ | AlreadyQueued hash => response_result id (VString hash)
  | OutConflict _ _ _ => response_error id (invalid_params CONFLICT_MESSAGE)
  | NonceInFlight existing sender_hex nonce => response_error id (nonce_in_flight existing sender_hex nonce)
  | Invalid message => response_error id (invalid_params message)
  | OutRejected message => response_error id (user_operation_rejected message)
  | EstimationUnavailable => response_error id estimation_unavailable
  | BackendUnavailable => response_error id backend_unavailable
  | StoreUnavailable => response_error id user_operation_status_store_unavailable
  | QueueUnavailable => response_error id user_operation_queue_unavailable
  end.

Definition submission (params : SendUserOperationParams) (now : Z) : SubmitRequest :=
  {| sub_chain_id := chain_id; sub_entry_point := sp_entry_point params;
     sub_user_operation := sp_user_operation params;
     settlement_recipient := cc_settlement_recipient config;
     submission_tier := sp_tier params; now_ms := now |}.

Definition admission_handle (id : Value) (params : SendUserOperationParams) : cloud (RpcResponse Value) :=
  now ← perform NowMs;
  outcome ← drive (λ (_ : ()) operation, result ← admission_arm operation; mret (tt, result)) tt
              (admission_of (submission params now));
  mret (render id outcome).
End Arm.

(** ** The same arms over a store *)

(** The platform of [AdmissionShell]: durable objects, a queue and a weather. *)
Definition platform (now : Z) (weather : Weather) (world : World) (R : Type) (e : Cloud R) : World * R :=
  match e with
  | NowMs => (world, now)
  | SleepMs _ => (world, tt)
  | LeftNext | InTime => (world, true)
  | KvGet _ => (world, None)
  | KvPut _ _ _ => (world, tt)
  | HttpGet _ _ => (world, Err "offline")
  | HttpPost _ _ _ => (world, Err "offline")
  | RecordObject name command => record_instance_command now weather world name command
  | Bound _ => (world, queue_bound weather)
  | QueueSend envelope =>
      ({| objects := objects world;
          queue := if queue_appends weather then queue world ++ [envelope] else queue world |},
       queue_appends weather && queue_confirms weather)
  end.

(** Reading what the chain's directory and its endpoints say is the weather of
    [AdmissionShell]; every other arm is the same. *)
Definition reads_the_chain (operation : AdmissionOperation) : bool :=
  match operation with LoadSettlementAssets | FetchTokenDecimals _ => true | _ => false end.

Lemma arms_agree `{UP : UrlParser} env config chain_id user_rpc_url now weather world operation :
  reads_the_chain operation = false →
  let '(world', (_, result)) :=
    io_execute (platform now weather) world (admission_arm env config chain_id user_rpc_url operation) in
  (world', result) = execute_operation chain_id now weather world operation.
Proof.
  destruct operation; intros Hr; try discriminate Hr; cbn -[record_instance_command slot_name record_name];
    unfold nonce_slot_command, record_command;
    repeat match goal with
    | |- context [if ?b then _ else _] => destruct b; cbn -[record_instance_command slot_name record_name]
    | |- context [record_instance_command ?a ?b ?c ?d ?e] =>
        destruct (record_instance_command a b c d e) as [w r]; cbn
    end; done.
Qed.
