(* ===== verification/Http.v ===== *)
(** * Http: the Worker's fetch surface
    ([vela-relay-cf/src/http.rs], and [fetch] of [shell.rs])

    The operational routes and the JSON-RPC dispatch, over the effects of
    [Cloud].  The release and the build commit, the simulations bytecode and
    the reader of a fee history are arguments.  A panic of the request is a
    [Crash]; a body the platform cannot read is its error. *)

From S2P Require Export Arms.
From S2P Require RecordDo.
#[local] Open Scope string_scope.
#[local] Open Scope list_scope.
#[local] Open Scope Z_scope.

(** ** Requests and responses *)

Inductive HttpMethod : Type := MethodGet | MethodPost | MethodOptions | MethodOther.

Record HttpRequest : Type := {
  hq_method : HttpMethod; hq_path : string; hq_user_rpc_url : option string;
  hq_body : option (list byte) }.

Inductive HttpBody : Type := NoBody | TextBody (text : string) | JsonBody (value : Value).

Record HttpResponse : Type := { hs_status : Z; hs_body : HttpBody; hs_headers : list (string * string) }.

(** A response, or the platform's error. *)
Abbreviation http_answer := (result Crash (option HttpResponse)).

Definition from_json (value : Value) : HttpResponse :=
  {| hs_status := 200; hs_body := JsonBody value; hs_headers := [] |}.
Definition empty_response : HttpResponse := {| hs_status := 200; hs_body := NoBody; hs_headers := [] |}.
Definition error_response (text : string) (status : Z) : HttpResponse :=
  {| hs_status := status; hs_body := TextBody text; hs_headers := [] |}.
Definition with_status (status : Z) (r : HttpResponse) : HttpResponse :=
  {| hs_status := status; hs_body := hs_body r; hs_headers := hs_headers r |}.
Definition with_header (name value : string) (r : HttpResponse) : HttpResponse :=
  {| hs_status := hs_status r; hs_body := hs_body r; hs_headers := hs_headers r ++ [(name, value)] |}.

Definition json_error (status : Z) (message : string) : HttpResponse :=
  with_status status (from_json (VObject [("error", VString message)])).

Definition respond (r : HttpResponse) : cloud http_answer := mret (Ok (Some r)).

(** [trim_start_matches] of a text that is not empty: the length is enough
    fuel. *)
Fixpoint trim_start_str (fuel : nat) (p s : string) : string :=
  match fuel with
  | O => s
  | S fuel => match str_strip_prefix p s with Some s => trim_start_str fuel p s | None => s end
  end.

Definition parse_chain_path (path : string) : option Z :=
  rest ← str_strip_prefix "/" path; ok (parse_uint 64 rest).

Definition by_hash_of (record : StoredUserOperation) : UserOperationByHash :=
  {| bh_user_operation := user_operation record; bh_entry_point := entry_point record;
     bh_block_number := block_number record; bh_block_hash := block_hash record;
     bh_transaction_hash := transaction_hash record |}.

Definition gas_price_error (error : GasPriceError) : RpcError :=
  match error with ResponseDeadlineExceeded => gas_price_timeout | _ => gas_price_unavailable end.

(** ** JSON-RPC *)

Section Rpc.
Context `{HA : Alloy} `{HK : Keccak} `{TC : TokenCalls} `{BU : BigUintText} `{UP : UrlParser}
  `{SJ : SerdeJson} `{W : TargetWidth}.
Variables (simulations_bytecode : string) (fee_history_of : Value → option FeeHistory).
Variables (env : Env) (config : CfConfig) (chain_id : Z) (user_rpc_url : option string).

(** The response and the endpoint it names. *)
Abbreviation dispatched := (result Crash (RpcResponse Value * option string)).

Definition answer (response : RpcResponse Value) : cloud dispatched := mret (Ok (response, None)).

(** The parameters a method was validated with, read again. *)
Definition with_params {A} (id : Value) (name : string) (de : Value → option A) (params : Value)
    (k : A → cloud dispatched) : cloud dispatched :=
  match de params with
  | Some params => k params
  | None => answer (response_error id (invalid_params (derive_error name params)))
  end.

Definition load_record (hash : string) : cloud (result RpcError (option StoredUserOperation)) :=
  reply ← ask_record chain_id hash RecordDo.Get;
  mret (match reply with
        | Ok (RecordDo.RecordRead record) => Ok record
        | _ => Err user_operation_status_store_unavailable
        end).

(** What a stored record shows of itself, or what stands for no record. *)
Definition answer_record (id : Value) (hash : string) (absent : Value)
    (show : StoredUserOperation → result Crash Value) : cloud dispatched :=
  record ← load_record hash;
  mret (match record with
        | Ok (Some record) => shown ← show record; Ok (response_result id shown, None)
        | Ok None => Ok (response_result id absent, None)
        | Err error => Ok (response_error id error, None)
        end).

Definition receipt_value (hash : string) (record : StoredUserOperation) : result Crash Value :=
  response ← map_err ReceiptCrash (receipt_response hash record); Ok (default VNull response).

Definition simulation_call (method : string) (params : Value) : cloud (result SimulationCallError CallResult) :=
  call_simulation env config chain_id user_rpc_url method params.

(** The gas of the call: simulated with the account deployed, or estimated. *)
Definition call_gas_source (plan : EstimatePlan) : cloud CallGasSource :=
  simulated ← match pl_deployed_execution_params plan with
              | Some params =>
                  r ← simulation_call "eth_simulateV1" params;
                  mret (match r with Ok r => Some (SimulatedCalls (cr_value r)) | Err _ => None end)
              | None => mret None
              end;
  match simulated, pl_execution_params plan with
  | Some simulated, _ => mret simulated
  | None, None => mret NotNeeded
  | None, Some params =>
      r ← simulation_call "eth_estimateGas" params;
      mret (match r with
            | Ok r => Estimated (cr_value r)
            | Err (CallReverted error) => CallGasReverted error
            | Err CallUnavailable => CallGasUnavailable
            end)
  end.

Definition estimate_gas (params : EstimateUserOperationGasParams) :
    cloud (result RpcError (UserOperationGasEstimate * string)) :=
  match plan simulations_bytecode chain_id (ep_user_operation params) (ep_entry_point params)
          (ep_state_overrides params) with
  | Err error => mret (Err error)
  | Ok plan =>
      validation ← simulation_call "eth_call" (pl_validation_params plan);
      match validation with
      | Err error => mret (Err (simulation_error error))
      | Ok validation =>
          call_gas ← call_gas_source plan;
          mret (outcome ← Estimate.finish plan (cr_value validation) call_gas (billing_terms config);
                Ok (eo_estimate outcome, cr_domain validation))
      end
  end.

(** A value and the endpoint it came from, or an error. *)
Definition answer_from {A} (id : Value) (ser : A → Value) (r : result RpcError (A * string)) :
    RpcResponse Value * option string :=
  match r with
  | Ok (value, domain) => (response_result id (ser value), Some domain)
  | Err error => (response_error id error, None)
  end.

Definition dispatch_method (id : Value) (method : RpcMethod) (params : Value) : cloud dispatched :=
  match method with
  | SupportedEntryPoints => answer (response_result id (VArray (map VString SUPPORTED_ENTRY_POINTS)))
  | GetUserOperationStatus =>
      with_params id "GetUserOperationStatusParams" de_hash_params params (λ hash,
        answer_record id hash (ser_status not_found_status) (λ record, Ok (ser_status (rpc_status record))))
  | GetUserOperationByHash =>
      with_params id "GetUserOperationByHashParams" de_hash_params params (λ hash,
        answer_record id hash VNull (λ record, Ok (ser_by_hash (by_hash_of record))))
  | GetUserOperationReceipt =>
      with_params id "GetUserOperationReceiptParams" de_hash_params params (λ hash,
        answer_record id hash VNull (receipt_value hash))
  | SendUserOperation =>
      with_params id "SendUserOperationParams" de_send_params params (λ params,
        response ← admission_handle env config chain_id user_rpc_url id params;
        answer response)
  | GetUserOperationGasPrice =>
      quote ← user_operation_gas_prices fee_history_of env config chain_id user_rpc_url;
      mret (Ok (answer_from id (λ prices, prices)
        (match quote with
         | Ok quote => Ok (ser_gas_price (gas_price_tiers (gq_tiers quote) chain_id (billing_terms config)),
                           gq_rpc_domain quote)
         | Err error => Err (gas_price_error error)
         end)))
  | GetInBandGasQuote =>
      with_params id "GetInBandGasQuoteParams" de_quote_params params (λ request,
        quotes ← quote_handle env config chain_id user_rpc_url (safe_address request);
        mret (quotes ← quotes; Ok (answer_from id (λ quotes, VArray (map ser_quote quotes)) quotes)))
  | EstimateUserOperationGas =>
      with_params id "EstimateUserOperationGasParams" de_estimate_params params (λ params,
        estimate ← estimate_gas params;
        mret (Ok (answer_from id ser_gas_estimate estimate)))
  end.

Definition rpc_dispatch (body : list byte) : cloud dispatched :=
  match parse_envelope body with
  | Err response => answer response
  | Ok request =>
      match validate_call (rq_method request) (rq_params request) with
      | Err error => answer (response_error (rq_id request) error)
      | Ok method => dispatch_method (rq_id request) method (rq_params request)
      end
  end.
End Rpc.

(** ** The routes *)

Section Routes.
Context `{HA : Alloy} `{HK : Keccak} `{HC : Curve} `{TC : TokenCalls} `{BU : BigUintText} `{UP : UrlParser}
  `{SJ : SerdeJson} `{W : TargetWidth}.
Variables (release commit simulations_bytecode : string) (fee_history_of : Value → option FeeHistory).
Variable env : Env.

Definition not_found : HttpResponse := error_response "not found" 404.
Definition bad_configuration : HttpResponse := json_error 500 "configuration error".
Definition no_recipient : HttpResponse := json_error 503 "settlement recipient is not configured".

(** The configuration and its settlement recipient, or a refusal. *)
Definition with_recipient (k : CfConfig → string → cloud http_answer) : cloud http_answer :=
  match config_from_env env with
  | Err _ => respond bad_configuration
  | Ok config =>
      match cc_settlement_recipient config with
      | None => respond no_recipient
      | Some recipient => k config recipient
      end
  end.

Definition treasury_address : cloud http_answer :=
  with_recipient (λ _ address, respond (from_json (VObject [("address", VString address)]))).

Definition probe_failed (failure : ProbeFailure) : HttpResponse :=
  with_status (http_status failure) (from_json (probe_body failure)).

Definition treasury_route (path : string) (user_rpc_url : option string) : cloud http_answer :=
  match (rest ← str_strip_prefix "/v1/treasury/" path; ok (parse_uint 64 rest)) with
  | None => respond not_found
  | Some chain_id =>
      with_recipient (λ config address,
        match balance_read chain_id address with
        | Err failure => respond (json_error 503 (probe_message failure))
        | Ok read =>
            balance ← treasury_read env config chain_id user_rpc_url (br_method read) (br_params read);
            respond (match (balance ← balance; treasury_status chain_id address (cr_value balance)) with
                     | Ok status => from_json (ser_treasury_status status)
                     | Err failure => probe_failed failure
                     end)
        end)
  end.

Definition ACCOUNT_UNAVAILABLE : HttpResponse := json_error 503 "account RPC is unavailable".

Definition account_nonce (config : CfConfig) (chain_id : Z) (user_rpc_url : option string)
    (entry_point nonce_data block_tag : string) : cloud (result HttpResponse Z) :=
  response ← rpc_call env config chain_id user_rpc_url "eth_call"
    (VArray [VObject [("to", VString entry_point); ("data", VString nonce_data)]; VString block_tag]);
  mret (response ← ok_or response ACCOUNT_UNAVAILABLE;
        ok_or (text ← as_str (cr_value response); ok (parse_nonce text))
          (json_error 503 "account RPC returned an invalid nonce")).

Definition account_body (chain_id : Z) (entry_point safe_address recipient balance rpc_used : string)
    (latest_nonce pending_nonce : Z) : Value :=
  VObject [("chainId", VNumber chain_id); ("entryPoint", VString entry_point);
           ("safeAddress", VString safe_address); ("settlementRecipient", VString recipient);
           ("onchainBalance", VString balance); ("spendableBalance", VString balance);
           ("latestNonce", VNumber latest_nonce); ("pendingNonce", VNumber pending_nonce);
           ("status", VString (account_status_as_str (account_status balance latest_nonce pending_nonce)));
           ("rpcUsed", VString rpc_used)].

Definition account_reads (config : CfConfig) (chain_id : Z) (user_rpc_url : option string)
    (safe_address recipient entry_point nonce_data : string) : cloud (result HttpResponse HttpResponse) :=
  balance ← rpc_call env config chain_id user_rpc_url "eth_getBalance"
              (VArray [VString recipient; VString "latest"]);
  match balance with
  | None => mret (Err ACCOUNT_UNAVAILABLE)
  | Some response =>
      match (text ← as_str (cr_value response); ok (treasury_parse_quantity text)) with
      | None => mret (Err (json_error 503 "account RPC returned an invalid balance"))
      | Some balance =>
          latest ←? account_nonce config chain_id user_rpc_url entry_point nonce_data "latest";
          pending ←? account_nonce config chain_id user_rpc_url entry_point nonce_data "pending";
          mret (Ok (from_json (account_body chain_id entry_point safe_address recipient balance
                                 (cr_domain response) latest pending)))
      end
  end.

Definition account_route (path : string) (user_rpc_url : option string) : cloud http_answer :=
  match str_split "/" (trim_start_str (String.length path) "/v1/account/" path) with
  | [chain_id; safe_address] =>
      match ok (parse_uint 64 chain_id) with
      | None => respond not_found
      | Some chain_id =>
          match normalize_address safe_address with
          | None => respond (json_error 400 "invalid safeAddress")
          | Some safe_address =>
              with_recipient (λ config recipient,
                match head SUPPORTED_ENTRY_POINTS, entry_point_nonce_calldata safe_address with
                | None, _ => mret (Err ExpectFailed)
                | Some _, None => respond (json_error 400 "invalid safeAddress")
                | Some entry_point, Some nonce_data =>
                    r ← account_reads config chain_id user_rpc_url safe_address recipient entry_point nonce_data;
                    respond (match r with Ok r => r | Err r => r end)
                end)
          end
      end
  | _ => respond not_found
  end.

(** The bindings are asked for in order, up to the first that is missing. *)
Definition readiness : cloud http_answer :=
  io_for (λ binding (_ : ()),
            bound ← perform (Bound binding);
            mret (if bound : bool then inl () else inr (Ok (Some (error_response "bindings unavailable" 503)))))
    ["RECORDS"; "CACHE"; "OPS_QUEUE"] () (λ _, respond (with_status 204 empty_response)).

Definition build_fields : list (string * Value) :=
  [("version", VString release); ("commit", VString commit)].

Definition get_route (path : string) (user_rpc_url : option string) : cloud http_answer :=
  if String.eqb path "/" then
    respond (from_json (VObject ([("name", VString "vela-relay"); ("status", VString "ok")] ++ build_fields)))
  else if String.eqb path "/health" || String.eqb path "/api/health" then
    respond (with_header "cache-control" "no-cache, no-store, must-revalidate"
      (from_json (VObject [("service", VString "vela-relay"); ("runtime", VString "workerd");
                           ("status", VString "ok")])))
  else if String.eqb path "/healthz" then respond (with_status 204 empty_response)
  else if String.eqb path "/v1/treasury" then treasury_address
  else if String.eqb path "/readyz" then readiness
  else if String.eqb path "/version" then
    respond (from_json (VObject ([("name", VString "vela-relay")] ++ build_fields)))
  else if starts_with "/v1/treasury/" path then treasury_route path user_rpc_url
  else if starts_with "/v1/account/" path then account_route path user_rpc_url
  else respond not_found.

Definition ser_response_text (answered : RpcResponse Value * option string) : HttpResponse :=
  let response := from_json (ser_response (fst answered)) in
  match snd answered with Some domain => with_header "x-vela-rpc-domain" domain response | None => response end.

Definition post_route (request : HttpRequest) : cloud http_answer :=
  match parse_chain_path (hq_path request) with
  | None => respond not_found
  | Some chain_id =>
      match config_from_env env with
      | Err _ => respond (error_response "configuration error" 500)
      | Ok config =>
          match hq_body request with
          | None => mret (Ok None)
          | Some body =>
              response ← rpc_dispatch simulations_bytecode fee_history_of env config chain_id
                           (hq_user_rpc_url request) body;
              mret (response ← response; Ok (Some (ser_response_text response)))
          end
      end
  end.

Definition http_handle (request : HttpRequest) : cloud http_answer :=
  match hq_method request with
  | MethodGet => get_route (hq_path request) (hq_user_rpc_url request)
  | MethodPost => post_route request
  | _ => respond not_found
  end.

Definition with_cors (r : HttpResponse) : HttpResponse :=
  with_header "access-control-max-age" "86400" (with_header "access-control-expose-headers" "*"
    (with_header "access-control-allow-headers" "*"
      (with_header "access-control-allow-methods" "GET, POST, OPTIONS, HEAD, PUT, PATCH, DELETE"
        (with_header "access-control-allow-origin" "*" r)))).

Definition fetch (request : HttpRequest) : cloud http_answer :=
  match hq_method request with
  | MethodOptions => respond (with_cors (with_status 204 empty_response))
  | _ =>
      answered ← http_handle request;
      mret (match answered with Ok (Some response) => Ok (Some (with_cors response)) | _ => answered end)
  end.
End Routes.
