(* ===== verification/HttpSafety.v ===== *)
(** * HttpSafety: what the Worker's fetch surface asks of the network

    Over every request and every answer: which URLs are fetched, which
    endpoints are asked and for what. *)

From S2P Require Export Http.
From S2P Require RecordDo.
#[local] Open Scope string_scope.
#[local] Open Scope list_scope.
#[local] Open Scope Z_scope.

(** The methods that read the chain. *)
Definition READ_METHODS : list string :=
  ["eth_call"; "eth_getBalance"; "eth_gasPrice"; "eth_feeHistory"; "eth_maxPriorityFeePerGas";
   "eth_estimateGas"; "eth_simulateV1"].

(** The commands of a record that admission sends: none of them settles what
    became of an operation. *)
Definition admission_command (command : RecordDo.RecordCommand) : bool :=
  match command with
  | RecordDo.CreateQueued _ | RecordDo.Get | RecordDo.MarkAdmitted
  | RecordDo.ClaimNonce _ | RecordDo.TakeOverNonce _ _ | RecordDo.ReleaseNonce _ => true
  | _ => false
  end.

Section Rule.
Context `{UP : UrlParser}.

(** An endpoint the operator's policy lets the relay call, or Alchemy's under
    the operator's key. *)
Definition allowed_endpoint (config : CfConfig) (url : string) : Prop :=
  usable_rpc_url (cc_rpc_host_policy config) url = true ∨
  ∃ api_key chain_id, cc_alchemy_api_key config = Some api_key ∧ rpc_url chain_id api_key = Some url.

(** The chain directory's listing of a chain, or a ticker of the market. *)
Definition allowed_page (env : Env) (url : string) : Prop :=
  (∃ directory chain_id, chain_directory env = Ok directory ∧ url = metadata_url directory chain_id) ∨
  (∃ endpoint symbol, endpoint ∈ BINANCE_TICKER_URLS ∧ all_chars is_ascii_alphanumeric symbol = true ∧
     url = endpoint +:+ symbol +:+ "USDT").

(** [config] is the configuration, when there is one. *)
Definition allowed_effect (env : Env) (config : result string CfConfig) (R : Type) (e : Cloud R) : Prop :=
  match e with
  | HttpGet url _ => allowed_page env url
  | HttpPost url body _ =>
      ∃ config' method params, config = Ok config' ∧ allowed_endpoint config' url ∧
        method ∈ READ_METHODS ∧ body = rpc_body method params
  | RecordObject _ command => admission_command command = true
  | _ => True
  end.
End Rule.

Abbreviation does P p := (yields P p (λ _, True)).

(** A bind whose first part is only known to keep the rule. *)
Lemma does_bind {E A B} (P : ∀ R, E R → Prop) (f : A → io E B) m (Q : B → Prop) :
  does P m → (∀ a, yields P (f a) Q) → yields P (m ≫= f) Q.
Proof. intros Hm Hf. apply yields_bind. eapply yields_mono; [exact Hm|]. intros a _. apply Hf. Qed.

Lemma does_try {E X A B} (P : ∀ R, E R → Prop) (f : A → io E (result X B)) m :
  does P m → (∀ a, does P (f a)) → does P (io_try f m).
Proof. intros Hm Hf. apply yields_try. eapply yields_mono; [exact Hm|]. intros [a|e] _; [apply Hf|done]. Qed.

Lemma does_for {E S A X} (P : ∀ R, E R → Prop) (body : X → S → io E (S + A)) items s finish :
  (∀ x s, x ∈ items → does P (body x s)) → (∀ s, does P (finish s)) → does P (io_for body items s finish).
Proof.
  intros Hb Hf. apply (yields_for P _ _ _ _ (λ _, True)); [done| |intros; apply Hf].
  intros x s' Hx _. eapply yields_mono; [by apply Hb|]. by intros [].
Qed.

Lemma does_join {E : Type → Type} {A B} (P : ∀ R, E R → Prop) (left_next : E bool) (p : io E A) (q : io E B) :
  P bool left_next → does P p → does P q → does P (io_join left_next p q).
Proof. intros Ht Hp Hq. eapply yields_mono; [by apply yields_join|]. done. Qed.

Lemma does_within {E : Type → Type} {A} (P : ∀ R, E R → Prop) (in_time : E bool) (p : io E A) :
  P bool in_time → does P p → does P (io_within in_time p).
Proof. intros Ht Hp. by apply yields_within. Qed.

Create HintDb walk.
#[export] Hint Resolve does_try does_for does_join does_within : walk.
#[export] Hint Extern 1 (allowed_effect _ _ _ _) => first [exact I|reflexivity] : walk.
#[export] Hint Extern 1 (_ ∈ READ_METHODS) => by apply (bool_decide_unpack _) : walk.

(** Walk a program: its effects are permitted one by one, its calls are known
    to the hints. *)
Ltac walk :=
  repeat lazymatch goal with
  | |- yields _ (mret _) _ => exact I
  | |- yields _ (Pure _) _ => exact I
  | |- yields _ (perform _) _ => apply yields_perform; split; [solve [eauto with walk]|done]
  | |- yields _ (mbind _ _) _ => apply does_bind; [|intros ?]
  | |- yields _ (io_try _ _) _ => apply does_try; [|intros ?]
  | |- yields _ (match ?x with _ => _ end) _ => destruct x eqn:?
  | |- yields _ (let '(_, _) := ?x in _) _ => destruct x
  | |- yields _ _ _ => solve [eauto with walk]
  end.

Section Walk.
Context `{HA : Alloy} `{HK : Keccak} `{HC : Curve} `{TC : TokenCalls} `{BU : BigUintText} `{UP : UrlParser}
  `{SJ : SerdeJson} `{W : TargetWidth}.
Variables (fee_history_of : Value → option FeeHistory) (env : Env) (config : CfConfig).

Abbreviation P := (allowed_effect env (Ok config)).

(** *** The directory and the market *)

Lemma fetch_with_status_walk url timeout_ms :
  allowed_page env url → does P (fetch_with_status url timeout_ms).
Proof. intros Hp. unfold fetch_with_status. walk. Qed.

Lemma metadata_attempt_walk chain_id url attempt last_error :
  allowed_page env url → does P (metadata_attempt chain_id url attempt last_error).
Proof.
  intros Hp. unfold metadata_attempt. apply does_bind; [by apply fetch_with_status_walk|].
  intros [[status body]|error]; walk.
Qed.

Lemma chain_metadata_walk chain_id : does P (chain_metadata env chain_id).
Proof.
  unfold chain_metadata. walk. apply does_for; [|done]. intros attempt last_error _.
  apply metadata_attempt_walk. left. by eexists _, _.
Qed.
#[local] Hint Resolve chain_metadata_walk : walk.

Lemma settlement_assets_walk chain_id : does P (Market.settlement_assets env chain_id).
Proof. unfold Market.settlement_assets. walk. Qed.

Lemma payment_metadata_walk chain_id : does P (payment_metadata env chain_id).
Proof. unfold payment_metadata. walk. Qed.

Lemma binance_walk symbol :
  all_chars is_ascii_alphanumeric symbol = true → does P (binance_usdt_price symbol).
Proof.
  intros Hs. apply does_for; [|done]. intros endpoint s' Hin.
  assert (allowed_page env (endpoint +:+ symbol +:+ "USDT")) as Hp by (right; by eexists _, _).
  unfold fetch_json_with_timeout. walk. by apply fetch_with_status_walk.
Qed.

Lemma native_usd_price_walk chain_id symbol : does P (native_usd_price chain_id symbol).
Proof.
  unfold native_usd_price. destruct (pegged_native_usd_price chain_id); [done|].
  cbn zeta. destruct (_ || _) eqn:Hs; [done|]. apply orb_false_iff in Hs as [_ Hs%negb_false_iff].
  apply does_bind; [unfold cached_usd_price; walk|]. intros [|]; [done|].
  apply does_bind; [by apply binance_walk|]. intros price. walk.
Qed.

(** *** The endpoints *)

Abbreviation good := (allowed_endpoint config).

Lemma header_url_good user_rpc_url url : header_url config user_rpc_url = Some url → good url.
Proof.
  unfold header_url. destruct (trim <$> user_rpc_url) as [u|]; [|done]. cbn.
  destruct (usable_rpc_url _ u) eqn:Hu; intros [= <-]. by left.
Qed.

Lemma alchemy_url_good chain_id url : alchemy_url config chain_id = Some url → good url.
Proof.
  unfold alchemy_url. destruct (cc_alchemy_api_key config) as [key|] eqn:Hk; [|done].
  intros Hu. right. by exists key, chain_id.
Qed.

Lemma preferred_good chain_id user_rpc_url url :
  url ∈ option_list (header_url config user_rpc_url) ++ option_list (alchemy_url config chain_id) → good url.
Proof.
  rewrite elem_of_app. intros [Hin|Hin].
  - destruct (header_url config user_rpc_url) eqn:He; [|by apply elem_of_nil in Hin].
    apply list_elem_of_singleton in Hin as ->. by eapply header_url_good.
  - destruct (alchemy_url config chain_id) eqn:He; [|by apply elem_of_nil in Hin].
    apply list_elem_of_singleton in Hin as ->. by eapply alchemy_url_good.
Qed.

(** The directory's endpoints have passed the policy. *)
Lemma fallback_urls_good chain_id :
  yields P (fallback_rpc_urls env chain_id (cc_rpc_host_policy config))
    (λ urls, ∀ l, urls = Ok l → ∀ url, url ∈ l → good url).
Proof.
  apply yields_try. eapply yields_mono; [apply chain_metadata_walk|].
  intros [metadata|error] _; [|by intros l [=]].
  intros l [= <-] url [_ Hu]%list_elem_of_In%filter_In. by left.
Qed.

Lemma json_rpc_raw_walk url method params :
  good url → method ∈ READ_METHODS → does P (json_rpc_raw url method params).
Proof. intros Hu Hm. split; [|done]. by exists config, method, params. Qed.

Lemma first_result_walk {A} method params urls (answer : CallResult → A) otherwise :
  method ∈ READ_METHODS → (∀ url, url ∈ urls → good url) → does P otherwise →
  does P (first_result method params urls answer otherwise).
Proof.
  intros Hm Hu Ho. apply does_for; [|done]. intros url s' Hin.
  apply does_bind; [|intros; exact I]. apply does_try; [|done]. apply json_rpc_raw_walk; auto.
Qed.

Lemma rpc_call_walk chain_id user_rpc_url method params :
  method ∈ READ_METHODS → does P (rpc_call env config chain_id user_rpc_url method params).
Proof.
  intros Hm. apply first_result_walk; [done|apply preferred_good|].
  apply yields_bind. eapply yields_mono; [apply fallback_urls_good|]. intros [urls|error] Hu; [|done].
  apply first_result_walk; [done|by apply Hu|done].
Qed.

(** The sources of a read: the preferred ones, and the directory's if any. *)
Lemma sources_good chain_id user_rpc_url (listed : list string) url :
  (∀ url, url ∈ listed → good url) →
  url ∈ option_list (header_url config user_rpc_url) ++ option_list (alchemy_url config chain_id) ++ listed →
  good url.
Proof. rewrite app_assoc, elem_of_app. intros Hl [Hin|Hin]; [by eapply preferred_good|by apply Hl]. Qed.

Lemma treasury_read_walk chain_id user_rpc_url method params :
  method ∈ READ_METHODS → does P (treasury_read env config chain_id user_rpc_url method params).
Proof.
  intros Hm. apply yields_bind. eapply yields_mono; [apply fallback_urls_good|].
  intros [urls|[|error]] Hu; [|done|]; (apply first_result_walk; [done| |done]); intros url; apply sources_good.
  - by apply Hu.
  - by intros ? ?%elem_of_nil.
Qed.

Lemma call_simulation_walk chain_id user_rpc_url method params :
  method ∈ READ_METHODS → does P (call_simulation env config chain_id user_rpc_url method params).
Proof.
  intros Hm. apply yields_bind. eapply yields_mono; [apply fallback_urls_good|].
  intros urls Hu. apply does_for; [|done]. intros url s' Hin. apply does_bind; [|intros; exact I].
  apply does_try; [|done]. apply json_rpc_raw_walk; [|done]. revert Hin. apply sources_good.
  destruct urls; [by apply Hu|by intros ? ?%elem_of_nil].
Qed.
#[local] Hint Resolve settlement_assets_walk payment_metadata_walk native_usd_price_walk rpc_call_walk
  treasury_read_walk call_simulation_walk : walk.

(** *** The methods *)

Lemma user_operation_gas_prices_walk chain_id user_rpc_url :
  does P (user_operation_gas_prices fee_history_of env config chain_id user_rpc_url).
Proof.
  apply does_bind; [unfold cached_gas_prices; walk|]. intros [quote|]; [done|].
  apply does_bind; [|intros [[quote|error]|]; [unfold cache_gas_prices; walk|done|done]].
  apply does_within; [done|]. apply does_bind; [|done].
  apply does_bind; [apply does_join; [done| |]; unfold quantity_read, call_rpc; walk|].
  intros [fee_history tip]. unfold legacy_network_price, eip1559_price, quantity_read, call_rpc. walk.
Qed.

Lemma quote_handle_walk chain_id user_rpc_url safe_address :
  does P (quote_handle env config chain_id user_rpc_url safe_address).
Proof.
  unfold quote_handle, tempo_quote_arm, native_and_stables, quote_unavailable, refuse. cbn zeta. walk.
Qed.

Lemma admission_arm_walk chain_id user_rpc_url operation :
  does P (admission_arm env config chain_id user_rpc_url operation).
Proof. destruct operation; unfold admission_arm, ask_slot, ask_record, Market.erc20_decimals; walk. Qed.

Lemma admission_handle_walk chain_id user_rpc_url id params :
  does P (admission_handle env config chain_id user_rpc_url id params).
Proof.
  unfold admission_handle. apply does_bind; [walk|]. intros now. apply does_bind; [|done].
  apply yields_drive. intros l operation. apply does_bind; [apply admission_arm_walk|done].
Qed.

Lemma estimate_gas_walk simulations_bytecode chain_id user_rpc_url params :
  does P (estimate_gas simulations_bytecode env config chain_id user_rpc_url params).
Proof. unfold estimate_gas, call_gas_source, simulation_call. walk. Qed.
#[local] Hint Resolve user_operation_gas_prices_walk quote_handle_walk admission_handle_walk estimate_gas_walk
  : walk.

Lemma rpc_dispatch_walk simulations_bytecode chain_id user_rpc_url body :
  does P (rpc_dispatch simulations_bytecode fee_history_of env config chain_id user_rpc_url body).
Proof.
  unfold rpc_dispatch, dispatch_method, with_params, answer_record, load_record, ask_record, answer. walk.
Qed.
End Walk.

(** ** The routes *)

Section Routes.
Context `{HA : Alloy} `{HK : Keccak} `{HC : Curve} `{TC : TokenCalls} `{BU : BigUintText} `{UP : UrlParser}
  `{SJ : SerdeJson} `{W : TargetWidth}.
Variables (release commit simulations_bytecode : string) (fee_history_of : Value → option FeeHistory) (env : Env).

Abbreviation allowed := (allowed_effect env (config_from_env env)).

Lemma with_recipient_walk k :
  (∀ config address, does (allowed_effect env (Ok config)) (k config address)) → does allowed (with_recipient env k).
Proof.
  intros Hk. unfold with_recipient. destruct (config_from_env env) as [config|error] eqn:Hc; [|done].
  destruct (cc_settlement_recipient config); [apply Hk|done].
Qed.

Lemma treasury_route_walk path user_rpc_url : does allowed (treasury_route env path user_rpc_url).
Proof.
  unfold treasury_route. destruct (_ ← _; _) as [chain_id|]; [|done].
  apply with_recipient_walk. intros config address. destruct (balance_read chain_id address) as [read|] eqn:Hr; [|done].
  apply does_bind; [|done]. apply treasury_read_walk. revert Hr. unfold balance_read.
  destruct (asset_for_chain chain_id); [intros [= <-]; by apply (bool_decide_unpack _)|].
  intros (treasury & _ & [= <-])%result_bind_Ok. by apply (bool_decide_unpack _).
Qed.

Lemma account_route_walk path user_rpc_url : does allowed (account_route env path user_rpc_url).
Proof.
  unfold account_route, respond. walk. apply with_recipient_walk. intros config recipient.
  pose proof (rpc_call_walk env config) as Hcall.
  unfold account_reads, account_nonce, respond. walk.
Qed.

Lemma get_route_walk path user_rpc_url : does allowed (get_route release commit env path user_rpc_url).
Proof.
  unfold get_route, respond. walk; auto using treasury_route_walk, account_route_walk.
  - by apply with_recipient_walk.
  - apply does_for; [|done]. intros binding s' _. walk.
Qed.

Lemma post_route_walk request :
  does allowed (post_route simulations_bytecode fee_history_of env request).
Proof.
  unfold post_route, respond. destruct (parse_chain_path _) as [chain_id|]; [|done].
  destruct (config_from_env env) as [config|error]; [|done].
  destruct (hq_body request) as [body|]; [|done]. apply does_bind; [apply rpc_dispatch_walk|done].
Qed.

Lemma fetch_walk request :
  does allowed (fetch release commit simulations_bytecode fee_history_of env request).
Proof.
  unfold fetch, http_handle, respond.
  destruct (hq_method request); walk; auto using get_route_walk, post_route_walk.
Qed.
End Routes.

(** ** One answer to every call *)

Section Answers.
Context `{HA : Alloy} `{HK : Keccak} `{TC : TokenCalls} `{BU : BigUintText} `{UP : UrlParser}
  `{SJ : SerdeJson} `{W : TargetWidth}.
Variables (simulations_bytecode : string) (fee_history_of : Value → option FeeHistory).
Variables (env : Env) (config : CfConfig) (chain_id : Z) (user_rpc_url : option string).

(** The id of a body that can be read as a request. *)
Definition body_id (body : list byte) : Value :=
  match (document ← ok (json_from_slice body); de_request document) with
  | Some request => rq_id request
  | None => VNull
  end.

(** The error of a body that is refused before a method runs. *)
Definition refusal (body : list byte) : option RpcError :=
  match parse_envelope body with
  | Err response => rs_error response
  | Ok request =>
      match validate_call (rq_method request) (rq_params request) with Err error => Some error | Ok _ => None end
  end.

(** What the wire carries: the version, the id, and a result or an error, which
    never names an endpoint. *)
Definition one_answer (id : Value) (response : RpcResponse Value) (domain : option string) : Prop :=
  (∃ v, ser_response response = VObject [("jsonrpc", VString "2.0"); ("id", id); ("result", v)]) ∨
  (∃ error, ser_response response =
     VObject [("jsonrpc", VString "2.0"); ("id", id); ("error", ser_error error)] ∧ domain = None).

Abbreviation anything := (λ R (_ : Cloud R), True).

(** Why a method's code panicked: a quote whose endpoint returned a Multicall
    answer that claims more results than can be allocated, or a receipt of a
    stored version 0.6 operation whose paymaster data cannot be sliced.  (The
    third is the [expect] on the constant Multicall address.) *)
Definition crash_cause (method : RpcMethod) (crash : Crash) : Prop :=
  match crash with
  | DecodeCrash panic => method = GetInBandGasQuote ∧ ∃ text, decode_aggregate3 text = Err panic
  | ReceiptCrash panic =>
      method = GetUserOperationReceipt ∧ ∃ hash record, receipt_response hash record = Err panic
  | ExpectFailed => method = GetInBandGasQuote ∧ quote_address MULTICALL3_ADDRESS = None
  end.

Definition answered_once (causes : Crash → Prop) (id : Value)
    (r : result Crash (RpcResponse Value * option string)) : Prop :=
  match r with Ok (response, domain) => one_answer id response domain | Err crash => causes crash end.
Abbreviation one_answer_of causes id p := (yields anything p (answered_once causes id)).

Lemma result_one_answer id v domain : one_answer id (response_result id v) domain.
Proof. left. by exists v. Qed.

Lemma error_one_answer id error : one_answer id (response_error id error) None.
Proof. right. by exists error. Qed.
#[local] Hint Resolve result_one_answer error_one_answer : core.

Lemma anything_does {A} (p : cloud A) : does anything p.
Proof. apply returns_any. Qed.

(** Whatever the first part says, the second answers. *)
Lemma one_answer_bind {A} causes id (f : A → cloud (result Crash (RpcResponse Value * option string))) m :
  (∀ a, one_answer_of causes id (f a)) → one_answer_of causes id (m ≫= f).
Proof. apply does_bind, anything_does. Qed.

Lemma answer_from_one {A} causes id (ser : A → Value) r : answered_once causes id (Ok (answer_from id ser r)).
Proof. destruct r as [[value domain]|error]; cbn; auto. Qed.

Lemma with_params_one {A} causes id name (de : Value → option A) params k :
  (∀ a, one_answer_of causes id (k a)) → one_answer_of causes id (with_params id name de params k).
Proof. intros Hk. unfold with_params. destruct (de params); [apply Hk|]. apply error_one_answer. Qed.

Lemma answer_record_one (causes : Crash → Prop) id hash absent show :
  (∀ record crash, show record = Err crash → causes crash) →
  one_answer_of causes id (answer_record chain_id id hash absent show).
Proof.
  intros Hshow. apply one_answer_bind. intros [[record|]|error]; cbn; auto.
  destruct (show record) eqn:E; cbn; [auto|by eapply Hshow].
Qed.

Lemma receipt_value_causes hash record crash :
  receipt_value hash record = Err crash → crash_cause GetUserOperationReceipt crash.
Proof.
  unfold receipt_value. destruct (receipt_response hash record) eqn:E; [done|]. intros [= <-].
  split; [done|]. by eexists _, _.
Qed.

(** A quote's arms panic only on the answer's decoder or on the constant. *)
Abbreviation quoted p := (yields anything p (λ quotes,
  match quotes with Ok _ => True | Err crash => crash_cause GetInBandGasQuote crash end)).

Lemma quoted_bind {A} (f : A → cloud (result Crash (result RpcError (list InBandGasQuote * string)))) m :
  (∀ a, quoted (f a)) → quoted (m ≫= f).
Proof. apply does_bind, anything_does. Qed.

Lemma quote_handle_causes safe_address : quoted (quote_handle env config chain_id user_rpc_url safe_address).
Proof.
  unfold quote_handle. destruct (quote_address safe_address) as [safe|]; [|exact I].
  destruct (cc_settlement_recipient config) as [recipient|]; [|exact I].
  destruct (is_tempo_chain chain_id).
  - unfold tempo_quote_arm. apply quoted_bind. intros [response|]; [|exact I]. by repeat case_match.
  - apply quoted_bind. intros [metadata|e]; [|exact I].
    destruct (cm_native_currency metadata) as [native|]; [|exact I].
    unfold native_and_stables. apply quoted_bind. intros price.
    destruct (multicall_requests _ _) as [calls|] eqn:Ec.
    + apply quoted_bind. intros [response|]; [|exact I]. apply yields_pure. unfold rows_of.
      destruct (as_str (cr_value response)) as [text|]; [|exact I].
      destruct (decode_aggregate3 text) as [values|panic] eqn:Ed; cbn; [done|]. split; [done|]. by exists text.
    + apply yields_pure. split; [done|]. unfold multicall_requests in Ec.
      by destruct (quote_address MULTICALL3_ADDRESS).
Qed.

Lemma render_one id outcome : one_answer id (render id outcome) None.
Proof. destruct outcome; cbn; auto. Qed.

Lemma admission_handle_one id params :
  yields anything (admission_handle env config chain_id user_rpc_url id params)
    (λ response, one_answer id response None).
Proof.
  unfold admission_handle. do 2 (apply does_bind; [apply anything_does|intros ?]). apply render_one.
Qed.

Lemma dispatch_method_one id method params :
  one_answer_of (crash_cause method) id
    (dispatch_method simulations_bytecode fee_history_of env config chain_id user_rpc_url id method params).
Proof.
  destruct method; unfold dispatch_method;
    try (apply with_params_one; intros a); try (by apply answer_record_one).
  - apply yields_bind. eapply yields_mono; [apply admission_handle_one|]. intros response Hr. exact Hr.
  - apply one_answer_bind. intros estimate. apply answer_from_one.
  - apply answer_record_one. apply receipt_value_causes.
  - apply result_one_answer.
  - apply one_answer_bind. intros quote. apply answer_from_one.
  - apply yields_bind. eapply yields_mono; [apply quote_handle_causes|].
    intros [quotes|crash] Hq; [apply answer_from_one|exact Hq].
Qed.

Lemma parse_envelope_one body :
  match parse_envelope body with
  | Ok request => rq_id request = body_id body
  | Err response => ∃ error, response = response_error (body_id body) error
  end.
Proof.
  unfold parse_envelope, body_id. destruct (json_from_slice body) as [document|message]; cbn; [|by eexists].
  destruct (de_request document) as [request|]; cbn; [|by eexists].
  destruct (String.eqb _ _); [done|by eexists].
Qed.

End Answers.

(** ** The claim *)

Section Claim.
Context `{HA : Alloy} `{HK : Keccak} `{HC : Curve} `{TC : TokenCalls} `{BU : BigUintText} `{UP : UrlParser}
  `{SJ : SerdeJson} `{W : TargetWidth}.
Variables (release commit simulations_bytecode : string) (fee_history_of : Value → option FeeHistory) (env : Env).

(** C21: Whatever request reaches the Worker and whatever is answered to it, the
    request makes the relay fetch only the chain directory's listing of a chain
    or a ticker of the market's own endpoints, post only to an endpoint that
    the operator's host policy allows (or to Alchemy under the operator's key),
    post only the methods that read the chain, and send the records only the
    commands of an admission: a caller who names an endpoint of the private
    network, or whose chain lists one, is not relayed to it, and no request can
    broadcast a transaction or settle an operation. *)
Theorem only_allowed_endpoints_are_called request t answered :
  io_runs (fetch release commit simulations_bytecode fee_history_of env request) t answered →
  Forall (λ x, allowed_effect env (config_from_env env) (projT1 x) (projT2 x).1) t.
Proof. intros Hrun. exact (proj1 (yields_runs _ _ _ _ _ (fetch_walk _ _ _ _ _ _) Hrun)). Qed.
End Claim.

(** ** A concrete platform *)

(** A scheme, and the host up to the first slash. *)
#[local] Instance plain_urls : UrlParser :=
  {| url_parse url :=
       match str_split "/" url with
       | scheme :: "" :: host :: _ => Ok (str_take (String.length scheme - 1) scheme, Some host)
       | _ => Err "relative URL without a base"
       end |}.
#[local] Instance fetch_curve : Curve :=
  {| SecretKey := list byte; hkdf_sha256 _ _ _ := repeat x01 32; from_slice := Some;
     public_point _ := repeat x02 65 |}.
#[local] Instance fetch_tokens : TokenCalls :=
  {| encode_balance_of _ := []; encode_transfer _ _ := []; get_nonce_selector := [] |}.

(** Every body is this call, which asks for the wrong parameters. *)
#[local] Instance one_call : SerdeJson :=
  {| json_from_slice _ := Ok (VObject [("jsonrpc", VString "2.0"); ("id", VNumber 7);
                                       ("method", VString "eth_supportedEntryPoints");
                                       ("params", VArray [VNull])]);
     derive_error _ _ := "invalid" |}.

Definition fetch_env : Env :=
  {| env_var name :=
       if String.eqb name "VELA_RELAY_EXECUTOR_ENABLED" then Some "false"
       else if String.eqb name "VELA_RELAY_SETTLEMENT_RECIPIENT"
       then Some "0x1111111111111111111111111111111111111111" else None;
     env_secret _ := None |}.

Definition fetch_config : CfConfig :=
  {| cc_settlement_recipient := None; cc_executor_enabled := false; cc_alchemy_api_key := None;
     cc_trusted_rpc_urls := ∅; cc_rpc_host_policy := PublicHttpsOnly; cc_rpc_timeout_ms := 5000;
     execution_chains := []; operator_secret := None; cc_relayer_count := 8;
     lease_ttl_ms := 30000; receipt_poll_ms := 3000; attempt_ttl_ms := 86400000;
     telegram_bot_token := None; telegram_chat_id := None; telegram_cooldown_ms := 0;
     cc_max_bundle_operations := 4; cc_gas_buffer_bps := 1500; cc_fixed_gas_buffer := 30000;
     cc_settlement_markup_bps := 13000; cc_settlement_inclusion_floor_bps := 12500;
     cc_settlement_hold_max_attempts := 12; cc_relayer_float_cost_multiplier := 3;
     cc_relayer_float_target_wei := 10 ^ 17; cc_relayer_float_min_wei := 10 ^ 16;
     cc_top_up_max_wei := 10 ^ 18; cc_treasury_floor_wei := 10 ^ 16 |}.

(** A chain that lists an endpoint of the private network and a public one;
    only the public one answers. *)
Definition fetch_answer (n : nat) (R : Type) (e : Cloud R) : nat * R :=
  match e in Cloud R return nat * R with
  | NowMs => (n, 1000)
  | SleepMs _ => (n, tt)
  | LeftNext | InTime => (n, true)
  | KvGet _ => (n, None)
  | KvPut _ _ _ => (n, tt)
  | HttpGet _ _ => (n, Ok (200, Some (VObject [("rpc", VArray [VString "http://127.0.0.1/"; VString "https://node.example/rpc"])])))
  | HttpPost url _ _ =>
      (S n, if String.eqb url "https://node.example/rpc"
            then Ok (VObject [("result", VString "0xde0b6b3a7640000")]) else Err "unreachable")
  | RecordObject _ _ => (n, Err tt)
  | Bound _ => (n, false)
  | QueueSend _ => (n, false)
  end.

Definition treasury_request : HttpRequest :=
  {| hq_method := MethodGet; hq_path := "/v1/treasury/100"; hq_user_rpc_url := Some "https://wallet.example/";
     hq_body := None |}.

Definition treasury_run :=
  io_execute fetch_answer 0%nat
    (@fetch ref_hex ref_alloy ref_keccak fetch_curve fetch_tokens ref_biguint plain_urls one_call x86_64
       "1" "c" "0x" (λ _, None) fetch_env treasury_request).

Fixpoint asked_urls (t : list (Answered Cloud)) : list string :=
  match t with
  | [] => []
  | existT _ (e, _) :: t =>
      match e with HttpPost url _ _ | HttpGet url _ => url :: asked_urls t | _ => asked_urls t end
  end.

Lemma treasury_run_asks :
  asked_urls treasury_run.2.1 =
  ["https://ethereum-data.getvela.app/chains/eip155-100.json"; "https://wallet.example/";
   "https://node.example/rpc"].
Proof. vm_compute. reflexivity. Qed.

(** The wallet's endpoint is tried, then the chain's public one; its private one
    is never asked. *)
Lemma only_allowed_endpoints_are_called_witness :
  asked_urls treasury_run.2.1 =
    ["https://ethereum-data.getvela.app/chains/eip155-100.json"; "https://wallet.example/";
     "https://node.example/rpc"] ∧
  Forall (λ x, @allowed_effect plain_urls fetch_env
      (@config_from_env ref_hex ref_keccak fetch_curve one_call plain_urls x86_64 fetch_env)
      (projT1 x) (projT2 x).1) treasury_run.2.1.
Proof.
  split; [exact treasury_run_asks|].
  apply (@only_allowed_endpoints_are_called ref_hex ref_alloy ref_keccak fetch_curve fetch_tokens ref_biguint
    plain_urls one_call x86_64 "1" "c" "0x" (λ _, None) fetch_env treasury_request _ treasury_run.2.2).
  apply io_execute_runs.
Defined.

Definition refused_response : RpcResponse Value := response_error (VNumber 7)
  (invalid_params "expected an empty parameter list").

