(* ===== verification/ConfigSound.v ===== *)
(** * ConfigSound: what a configuration that is accepted guarantees

    The checks of [CfConfig::from_env], and the one that money depends on: the
    address wallets are told to pay is the treasury the lanes spend from. *)

From S2P Require Export Config.
#[local] Open Scope string_scope.
#[local] Open Scope list_scope.
#[local] Open Scope Z_scope.

Lemma uint_var_fits w env name otherwise z :
  0 ≤ w → fits w otherwise → uint_var w env name otherwise = Ok z → fits w z.
Proof.
  intros Hw Ho. unfold uint_var. destruct (env_var env name) as [value|]; [|by intros [= <-]].
  intros Hz%map_err_Ok. by eapply parse_uint_fits.
Qed.

Lemma secs_var_fits env name otherwise z : fits 64 otherwise → secs_var env name otherwise = Ok z → fits 64 z.
Proof.
  intros Ho H. apply result_bind_Ok in H as (secs & Hs & [= <-]). apply uint_var_fits in Hs; [|lia|done].
  unfold saturating_mul, umax, fits in *. lia.
Qed.

(** A list that is collected is the list of its parts. *)
Lemma collect_Forall2 {E A B} (f : A → result E B) l bs :
  collect f l = Ok bs → Forall2 (λ a b, f a = Ok b) l bs.
Proof.
  revert bs. induction l as [|a l IH]; intros bs Hc; [by injection Hc as <-|].
  apply result_bind_Ok in Hc as (b & Hb & Hc). apply result_bind_Ok in Hc as (bs' & Hbs & [= <-]).
  constructor; [done|by apply IH].
Qed.

Section Sound.
Context `{HA : Alloy} `{HK : Keccak} `{HC : Curve} `{SJ : SerdeJson} `{UP : UrlParser} `{W : TargetWidth}.

(** *** The parts *)

Lemma relayer_count_sound env n : 4 ≤ usize_bits → relayer_count_of env = Ok n → 1 ≤ n ≤ RELAYER_POOL_SIZE.
Proof.
  intros Hw Hp. apply result_bind_Ok in Hp as (z & Hz & Hp). case_decide; [done|]. injection Hp as <-.
  apply uint_var_fits in Hz as [Hz _]; [lia|lia|].
  pose proof (Z.pow_le_mono_r 2 4 usize_bits). unfold fits, RELAYER_ROUTING_WIDTH. lia.
Qed.

Lemma telegram_sound env token chat :
  telegram_of env = Ok (token, chat) → (is_Some token ↔ is_Some chat).
Proof. unfold telegram_of. cbn zeta. case_bool_decide as Hb; [|done]. by intros [= <- <-]. Qed.

Lemma markup_sound env bps : markup_of env = Ok bps → 10000 ≤ bps < 2 ^ 64.
Proof.
  intros Hp. apply result_bind_Ok in Hp as (z & Hz & Hp). case_decide; [done|]. injection Hp as <-.
  apply uint_var_fits in Hz as [_ Hz]; [lia|lia|done].
Qed.

Lemma inclusion_floor_sound env bps : inclusion_floor_of env = Ok bps → 10000 < bps < 2 ^ 64.
Proof.
  intros Hp. apply result_bind_Ok in Hp as (z & Hz & Hp). case_decide; [done|]. injection Hp as <-.
  apply uint_var_fits in Hz as [_ Hz]; [lia|lia|done].
Qed.

Lemma float_sound env min target : float_of env = Ok (min, target) → 0 ≤ min ≤ target ∧ target < 2 ^ 128.
Proof.
  intros Hp. apply result_bind_Ok in Hp as (z & Hz & Hp). apply result_bind_Ok in Hp as (z' & Hz' & Hp).
  case_decide; [done|]. injection Hp as <- <-.
  apply uint_var_fits in Hz as [Hz _]; [|lia|done]. apply uint_var_fits in Hz' as [_ Hz']; [|lia|done]. lia.
Qed.

(** With a secret, the recipient is the address derived from it. *)
Lemma recipient_sound env secret recipient :
  settlement_recipient_of env (Some secret) = Ok recipient →
  ∃ derived, derive_address secret = Ok derived ∧ recipient = Some derived.
Proof.
  intros Hp. apply result_bind_Ok in Hp as (derived & Hd%map_err_Ok & Hp). exists derived. split; [done|].
  destruct (env_var _ _); [destruct (eq_ignore_ascii_case _ _); [|done]|]; by injection Hp as <-.
Qed.

(** The endpoints an executor trusts: for every chain at least one, and each
    of them a URL over HTTP. *)
Definition trusted_urls (m : gmap Z (list string)) : Prop :=
  map_Forall (λ chain_id urls, fits 64 chain_id ∧ urls ≠ [] ∧
    Forall (λ url, ∃ scheme host, url_parse url = Ok (scheme, host) ∧ scheme ∈ ["http"; "https"]) urls) m.

Lemma check_trusted_url_sound chain_id url u :
  check_trusted_url chain_id url = Ok u →
  ∃ scheme host, url_parse url = Ok (scheme, host) ∧ scheme ∈ ["http"; "https"].
Proof.
  intros Hp. apply result_bind_Ok in Hp as ([scheme host] & Hu%map_err_Ok & Hp).
  exists scheme, host. split; [done|]. destruct (_ || _) eqn:Hs; [|done].
  apply orb_true_iff in Hs as [->%String.eqb_eq| ->%String.eqb_eq]; set_solver.
Qed.

Lemma trusted_entry_sound name value chain_id urls :
  trusted_entry name value = Ok (chain_id, urls) →
  fits 64 chain_id ∧ urls ≠ [] ∧
  Forall (λ url, ∃ scheme host, url_parse url = Ok (scheme, host) ∧ scheme ∈ ["http"; "https"]) urls.
Proof.
  intros Hp. apply result_bind_Ok in Hp as (c & Hc%map_err_Ok & Hp). apply result_bind_Ok in Hp as (us & Hus & Hp).
  case_decide; [done|]. apply result_bind_Ok in Hp as (checked & Hch & [= <- <-]).
  split; [by eapply parse_uint_fits|]. split; [done|].
  clear -Hch. apply collect_Forall2 in Hch. induction Hch as [|url u urls us Hu _ IH]; constructor; [|done].
  by eapply check_trusted_url_sound.
Qed.

Lemma parse_trusted_sound value m : parse_trusted_rpc_urls value = Ok m → trusted_urls m.
Proof.
  intros Hp. apply result_bind_Ok in Hp as (document & _ & Hp). apply result_bind_Ok in Hp as (values & _ & Hp).
  apply result_bind_Ok in Hp as (entries & He & [= <-]). apply collect_Forall2 in He.
  cut (∀ m, trusted_urls m → trusted_urls (foldl (λ result entry, <[entry.1 := entry.2]> result) m entries)).
  { intros Hm. by apply Hm, map_Forall_empty. }
  induction He as [|[name v] [c urls] values entries Hu _ IH]; intros m Hm; [done|].
  cbn [foldl]. apply IH. apply map_Forall_insert_2; [|done]. by eapply trusted_entry_sound.
Qed.

(** *** The whole *)

Record ConfigSound (env : Env) (config : CfConfig) : Prop := {
  cs_relayers : 1 ≤ cc_relayer_count config ≤ RELAYER_POOL_SIZE;
  cs_secret : cc_executor_enabled config = true → is_Some (operator_secret config);
  cs_recipient : ∀ secret, operator_secret config = Some secret →
    ∃ derived, derive_address secret = Ok derived ∧ cc_settlement_recipient config = Some derived;
  cs_markup : 10000 ≤ cc_settlement_markup_bps config < 2 ^ 64;
  cs_floor : 10000 < cc_settlement_inclusion_floor_bps config < 2 ^ 64;
  cs_float : 0 ≤ cc_relayer_float_min_wei config ≤ cc_relayer_float_target_wei config
             ∧ cc_relayer_float_target_wei config < 2 ^ 128;
  cs_telegram : is_Some (telegram_bot_token config) ↔ is_Some (telegram_chat_id config);
  cs_trusted : trusted_urls (cc_trusted_rpc_urls config);
  cs_clocks : Forall (fits 64)
    [cc_rpc_timeout_ms config; lease_ttl_ms config; receipt_poll_ms config; attempt_ttl_ms config;
     telegram_cooldown_ms config] }.

Lemma executor_needs_secret (enabled : bool) (secret : option string) :
  enabled && bool_decide (secret = None) = false → enabled = true → is_Some secret.
Proof. intros Hb ->. case_bool_decide; [done|]. by apply not_eq_None_Some. Qed.

Lemma config_sound env config : 4 ≤ usize_bits → config_from_env env = Ok config → ConfigSound env config.
Proof.
  intros Hw Hp. unfold config_from_env in Hp.
  repeat match type of Hp with
  | _ ≫= _ = Ok _ => let x := fresh "x" in let Hx := fresh "Hx" in apply result_bind_Ok in Hp as (x & Hx & Hp)
  | (let '(_, _) := ?x in _) = Ok _ => destruct x
  | (let secret := _ in _) = Ok _ => cbv zeta in Hp
  | (if _ then _ else _) = Ok _ => destruct (_ && _) eqn:Hs; [done|]
  end.
  injection Hp as <-. split; cbn.
  - by eapply relayer_count_sound.
  - by eapply executor_needs_secret.
  - intros secret Hse. rewrite Hse in *. by eapply recipient_sound.
  - by eapply markup_sound.
  - by eapply inclusion_floor_sound.
  - by eapply float_sound.
  - by eapply telegram_sound.
  - destruct (env_var env "VELA_RELAY_EXECUTOR_RPC_URLS"); [by eapply parse_trusted_sound|].
    simplify_eq. apply map_Forall_empty.
  - repeat constructor; eapply secs_var_fits; eauto; done.
Qed.
End Sound.

Section Claim.
Context `{HA : Alloy} `{HK : Keccak} `{HC : Curve} `{SJ : SerdeJson} `{UP : UrlParser} `{W : TargetWidth}.

(** C22: A configuration the Worker accepts is sound: between one and a hundred
    relayers, a secret whenever the executor runs, a markup of at least one, an
    inclusion floor above one, a float minimum that does not exceed its target,
    both Telegram values or neither, trusted endpoints only over HTTP and at
    least one for each chain named, and every duration inside 64 bits.  The
    policy a lane derives from it spends from the treasury that wallets are told
    to pay: the settlement recipient, whatever the environment named, parses to
    that treasury, and the policy keeps the configuration's bounds. *)
Theorem accepted_configuration_sound env config :
  4 ≤ usize_bits → config_from_env env = Ok config →
  ConfigSound env config ∧
  ∀ chain_id lane policy, execution_policy config chain_id lane = Ok policy →
    (∃ recipient, cc_settlement_recipient config = Some recipient ∧
       address_from_str recipient = Some (treasury policy)) ∧
    1 ≤ pool_width policy ≤ RELAYER_POOL_SIZE ∧ 10000 < settlement_inclusion_floor_bps policy ∧
    relayer_float_min_wei policy ≤ relayer_float_target_wei policy.
Proof.
  intros Hw Hc. pose proof (config_sound _ _ Hw Hc) as Hs. split; [exact Hs|].
  intros chain_id lane policy Hp.
  apply result_bind_Ok in Hp as (secret & Hse%ok_or_Ok & Hp).
  apply result_bind_Ok in Hp as (derived & Hd%map_err_Ok & Hp).
  apply result_bind_Ok in Hp as (address & Ha%ok_or_Ok & Hp).
  apply result_bind_Ok in Hp as (relayer & _ & Hp). apply result_bind_Ok in Hp as (relayer' & _ & [= <-]).
  cbn. destruct (cs_recipient _ _ Hs secret Hse) as (derived' & Hd' & Hr).
  rewrite Hd in Hd'. injection Hd' as <-. split; [by exists derived|].
  pose proof (cs_relayers _ _ Hs). pose proof (cs_floor _ _ Hs). pose proof (cs_float _ _ Hs). lia.
Qed.
End Claim.

(** ** A concrete environment *)

#[local] Instance sound_curve : Curve :=
  {| SecretKey := list byte; hkdf_sha256 _ _ _ := repeat x01 32; from_slice := Some;
     public_point _ := repeat x02 65 |}.
#[local] Instance sound_json : SerdeJson := {| json_from_slice _ := Ok VNull; derive_error _ _ := "" |}.
#[local] Instance sound_urls : UrlParser := {| url_parse _ := Err "" |}.

Definition sound_env : Env :=
  {| env_var name := if String.eqb name "VELA_RELAY_RELAYER_COUNT" then Some "12" else None;
     env_secret name :=
       if String.eqb name "OPERATOR_SECRET" then Some (String.concat "" (repeat "01" 32)) else None |}.

Definition sound_result : result string CfConfig :=
  @config_from_env ref_hex ref_keccak sound_curve sound_json sound_urls x86_64 sound_env.
Definition sound_policy (config : CfConfig) : result string ExecutionPolicy :=
  @execution_policy ref_hex ref_alloy ref_keccak sound_curve config 1 2.

Lemma sound_values :
  (config ← sound_result; policy ← sound_policy config;
   Ok (cc_relayer_count config, cc_settlement_recipient config, treasury policy)) =
  Ok (12, Some "0x15cf7b2760043715c17beda7d6ab02d7b857a0c0",
      0x15cf7b2760043715c17beda7d6ab02d7b857a0c0).
Proof. vm_compute. reflexivity. Qed.

Lemma accepted_configuration_sound_witness :
  ∃ config policy, sound_result = Ok config ∧ sound_policy config = Ok policy ∧
    cc_settlement_recipient config = Some "0x15cf7b2760043715c17beda7d6ab02d7b857a0c0" ∧
    @address_from_str ref_hex ref_alloy "0x15cf7b2760043715c17beda7d6ab02d7b857a0c0" = Some (treasury policy).
Proof.
  destruct (proj1 (result_bind_Ok _ _ _) sound_values) as (config & Hc & Hv).
  destruct (proj1 (result_bind_Ok _ _ _) Hv) as (policy & Hp & Hvs).
  exists config, policy. split; [exact Hc|]. split; [exact Hp|].
  injection Hvs as _ Hr _. split; [exact Hr|].
  destruct (@accepted_configuration_sound ref_hex ref_alloy ref_keccak sound_curve sound_json sound_urls x86_64
    sound_env config ltac:(unfold usize_bits, x86_64; lia) Hc) as [_ Hall].
  destruct (Hall 1 2 policy Hp) as [(recipient & Hrec & Ha) _].
  rewrite Hr in Hrec. injection Hrec as <-. exact Ha.
Defined.
