(* ===== verification/Queue.v ===== *)
(** * Queue: the Worker's queue consumers
    ([queue] and what it calls in [vela-relay-cf/src/shell.rs])

    A delivered batch is grouped by chain and lane and each group is driven by
    its lane object; the dead-letter queue's batches ask each record to give
    up.  The platform is the effects of [Delivery].  Console lines have no
    answer and are left out. *)

From S2P Require Export Config JsonRpc Execution AdmissionShell Io.
From S2P Require RecordDo.
#[local] Open Scope string_scope.
#[local] Open Scope list_scope.
#[local] Open Scope Z_scope.

Inductive Delivery : Type → Type :=
  | QueueMs : Delivery Z
  (* a batch to the lane object of that name, and its resolutions if it answered *)
  | LaneObject (name : string) (operations : list RoutedUserOperation) : Delivery (option (list ItemResolution))
  | DeliveryRecord (name : string) (command : RecordDo.RecordCommand) : Delivery (result () RecordDo.RecordReply)
  | DeadLetterBound : Delivery bool
  | DeadLetterSend (payload : Value) : Delivery bool
  (* the message at that index of the batch *)
  | AckMessage (index : nat) : Delivery ()
  | RetryMessage (index : nat) (delay_secs : option Z) : Delivery ()
  | RetryEverything : Delivery ().

Abbreviation delivery := (io Delivery).

Record Message : Type := { ms_body : Value; ms_sent_ms : Z }.

(** The messages are [None] where the platform cannot read them. *)
Record MessageBatch : Type := { mb_queue : string; mb_messages : option (list Message) }.

Definition DEAD_LETTER_QUEUE : string := "vela-relay-dlq".

(** ** The envelope *)

Section Parse.
Context `{SJ : SerdeJson}.

Definition missing (field : string) : string := "invalid queue envelope: " +:+ field +:+ " is missing".

(** One level of a text that holds the envelope. *)
Definition unwrapped (payload : Value) : result string Value :=
  match as_str payload with
  | Some raw => map_err (λ e, "invalid queue envelope: " +:+ e) (json ← json_from_slice (str_bytes raw); Ok (de_value json))
  | None => Ok payload
  end.

Definition tier_of (payload : Value) : result string (option SubmissionTier) :=
  match get "submissionTier" payload with
  | Some value =>
      tier ← ok_or (de_submission_tier value)
               ("invalid queue envelope: submissionTier " +:+ derive_error "SubmissionTier" value);
      Ok (Some tier)
  | None => Ok None
  end.

Definition parse_routed (payload : Value) (pool_width : Z) : result string RoutedUserOperation :=
  payload ← unwrapped payload;
  schema_version ← ok_or (v ← get "schemaVersion" payload; as_uint 64 v) (missing "schemaVersion");
  if negb (schema_version =? 1) then Err ("unsupported queue schema version " +:+ dec schema_version)
  else
    user_operation_hash ← ok_or (v ← get "userOperationHash" payload; as_str v) (missing "userOperationHash");
    chain_id ← ok_or (v ← get "chainId" payload; as_uint 64 v) (missing "chainId");
    entry_point ← ok_or (v ← get "entryPoint" payload; as_str v) (missing "entryPoint");
    user_operation ← ok_or (get "userOperation" payload) (missing "userOperation");
    sender ← ok_or (v ← get "sender" user_operation; as_str v) "UserOperation sender is missing";
    submission_tier ← tier_of payload;
    Ok {| r_schema_version := schema_version mod 2 ^ 32; r_user_operation_hash := user_operation_hash;
          r_chain_id := chain_id; r_entry_point := entry_point; r_user_operation := user_operation;
          r_sender := sender; r_lane := relayer_index_for_sender sender pool_width mod 2 ^ 8;
          r_stream := "vela-relay-ops"; r_partition_id := 0; r_offset := 0;
          r_submission_tier := submission_tier |}.
End Parse.

(** ** Effects *)

Definition lane_name (key : Z * Z) : string := dec key.1 +:+ ":" +:+ dec key.2.

Definition lane_execute (key : Z * Z) (operations : list RoutedUserOperation) :
    delivery (option (list ItemResolution)) :=
  perform (LaneObject (lane_name key) operations).

Definition dead_letter (payload : Value) (error : string) : Value :=
  VObject [("reason", VString error);
           ("userOperationHash", VString (default "" (v ← get "userOperationHash" payload; as_str v)));
           ("payload", payload)].

Definition dead_letter_malformed (payload : Value) (error : string) : delivery bool :=
  bound ← perform DeadLetterBound;
  if bound : bool then perform (DeadLetterSend (dead_letter payload error)) else mret false.

Definition redelivery_delay_secs (now sent_ms : Z) (waiting_on_funding : bool) : Z :=
  let delay_s := (redelivery_delay_ms (saturating_sub now sent_ms) waiting_on_funding + 999) / 1000 in
  if decide (fits 32 delay_s) then delay_s else umax 32.

Definition retry_later (index : nat) (message : Message) (waiting_on_funding : bool) : delivery () :=
  now ← perform QueueMs;
  perform (RetryMessage index (Some (redelivery_delay_secs now (ms_sent_ms message) waiting_on_funding))).

(** ** Groups *)

(** [BTreeMap<(u64, u8), (Vec<usize>, Vec<_>)>], in the order of its keys. *)
Abbreviation Groups := (list ((Z * Z) * (list nat * list RoutedUserOperation))).

Definition key_compare (a b : Z * Z) : comparison :=
  match a.1 ?= b.1 with Eq => a.2 ?= b.2 | o => o end.

(** [entry(key).or_default()], and the two pushes. *)
Fixpoint group_push (key : Z * Z) (index : nat) (routed : RoutedUserOperation) (groups : Groups) : Groups :=
  match groups with
  | [] => [(key, ([index], [routed]))]
  | (key', (indexes, operations)) :: rest =>
      match key_compare key key' with
      | Eq => (key', (indexes ++ [index], operations ++ [routed])) :: rest
      | Lt => (key, ([index], [routed])) :: groups
      | Gt => (key', (indexes, operations)) :: group_push key index routed rest
      end
  end.

Definition lane_key (routed : RoutedUserOperation) : Z * Z := (r_chain_id routed, r_lane routed).

(** ** The consumers *)

Section Consume.
Context `{HX : Hex} `{HK : Keccak} `{HC : Curve} `{SJ : SerdeJson} `{UP : UrlParser} `{W : TargetWidth}.

(** One message of the first loop. *)
Definition route_message (relayer_count : Z) (entry : nat * Message) (groups : Groups) :
    delivery (Groups + result () ()) :=
  let '(index, message) := entry in
  match parse_routed (ms_body message) relayer_count with
  | Ok routed => mret (inl (group_push (lane_key routed) index routed groups))
  | Err error =>
      lettered ← dead_letter_malformed (ms_body message) error;
      _ ← perform (if lettered : bool then AckMessage index else RetryMessage index None);
      mret (inl groups)
  end.

(** [messages[index]]; an index is of the batch. *)
Definition message_at (messages : list Message) (index : nat) : Message :=
  default {| ms_body := VNull; ms_sent_ms := 0 |} (messages !! index).

Definition resolve_message {A} (messages : list Message) (item : nat * ItemResolution) (_ : ()) :
    delivery (() + A) :=
  let '(index, resolution) := item in
  _ ← match resolution with
      | Durable => perform (AckMessage index)
      | ItemFailed reason =>
          retry_later index (message_at messages index) (String.eqb reason FUNDING_WAIT_FINISH)
      end;
  mret (inl tt).

Definition redeliver {A} (messages : list Message) (index : nat) (_ : ()) : delivery (() + A) :=
  _ ← retry_later index (message_at messages index) false; mret (inl tt).

Definition redeliver_all (messages : list Message) (indexes : list nat) : delivery (() + result () ()) :=
  io_for (redeliver messages) indexes () (λ _, mret (inl ())).

(** One group of the second loop. *)
Definition execute_group (messages : list Message)
    (group : (Z * Z) * (list nat * list RoutedUserOperation)) (_ : ()) : delivery (() + result () ()) :=
  let '(key, (indexes, operations)) := group in
  resolutions ← lane_execute key operations;
  match resolutions with
  | Some resolutions =>
      if decide (length resolutions = length indexes)
      then io_for (resolve_message messages) (zip indexes resolutions) () (λ _, mret (inl ()))
      else redeliver_all messages indexes
  | None => redeliver_all messages indexes
  end.

Definition indexed (messages : list Message) : list (nat * Message) :=
  zip (seq 0 (length messages)) messages.

Definition consume (relayer_count : Z) (messages : list Message) : delivery (result () ()) :=
  io_for (route_message relayer_count) (indexed messages) []
    (λ groups, io_for (execute_group messages) groups () (λ _, mret (Ok ()))).

(** One message of the dead-letter queue. *)
Definition give_up_message (relayer_count now_ms : Z) (entry : nat * Message) (_ : ()) :
    delivery (() + result () ()) :=
  let '(index, message) := entry in
  match parse_routed (ms_body message) relayer_count with
  | Err _ => _ ← perform (AckMessage index); mret (inl ())
  | Ok routed =>
      reply ← perform (DeliveryRecord (record_name (r_chain_id routed) (r_user_operation_hash routed))
                         (RecordDo.GiveUp now_ms));
      _ ← perform (match reply with Ok (RecordDo.Patched _) => AckMessage index | _ => RetryMessage index None end);
      mret (inl ())
  end.

Definition give_up_dead_letters (relayer_count : Z) (messages : option (list Message)) : delivery (result () ()) :=
  now ← perform QueueMs;
  match messages with
  | None => mret (Err ())
  | Some messages => io_for (give_up_message relayer_count now) (indexed messages) () (λ _, mret (Ok ()))
  end.

Definition retry_batch : delivery (result () ()) := _ ← perform RetryEverything; mret (Ok ()).

(** [queue] *)
Definition queue_consumer (env : Env) (batch : MessageBatch) : delivery (result () ()) :=
  match config_from_env env with
  | Err _ => retry_batch
  | Ok config =>
      if negb (cc_executor_enabled config) then retry_batch
      else if String.eqb (mb_queue batch) DEAD_LETTER_QUEUE
      then give_up_dead_letters (cc_relayer_count config) (mb_messages batch)
      else
        match mb_messages batch with
        | None => mret (Err ())
        | Some messages => consume (cc_relayer_count config) messages
        end
  end.
End Consume.
