(* ===== verification/QueueSafety.v ===== *)
(** * QueueSafety: every message is resolved once, and acknowledged only with
    evidence

    A monitor watches what the consumer asks of the platform and what it was
    answered; the rule says what may come next. *)

From S2P Require Export Queue.
#[local] Open Scope string_scope.
#[local] Open Scope list_scope.
#[local] Open Scope Z_scope.

(** ** Groups *)

Definition key_lt (a b : Z * Z) : Prop := a.1 < b.1 ∨ a.1 = b.1 ∧ a.2 < b.2.

Lemma key_compare_spec a b : CompareSpec (a = b) (key_lt a b) (key_lt b a) (key_compare a b).
Proof.
  unfold key_compare, key_lt. destruct a as [c l], b as [c' l']; cbn.
  destruct (Z.compare_spec c c') as [->|Hc|Hc]; [|constructor; by left|constructor; by left].
  destruct (Z.compare_spec l l') as [->|Hl|Hl]; constructor; [done|by right|by right].
Qed.

Lemma key_lt_neq a b : key_lt a b → a ≠ b.
Proof. unfold key_lt. intros Hl ->. lia. Qed.

Lemma key_lt_trans a b c : key_lt a b → key_lt b c → key_lt a c.
Proof. unfold key_lt. lia. Qed.

Abbreviation Routed := (nat * RoutedUserOperation)%type.

(** The messages of a lane, in the order they were delivered. *)
Definition lane_of (key : Z * Z) (rs : list Routed) : list Routed :=
  filter (λ r : Routed, lane_key r.2 = key) rs.

Lemma lane_of_other key rs (r : Routed) : lane_key r.2 ≠ key → lane_of key (rs ++ [r]) = lane_of key rs.
Proof. intros Hk. unfold lane_of. rewrite filter_app, filter_cons_False, filter_nil by done. apply app_nil_r. Qed.

Lemma lane_of_same rs (r : Routed) : lane_of (lane_key r.2) (rs ++ [r]) = lane_of (lane_key r.2) rs ++ [r].
Proof. unfold lane_of. by rewrite filter_app, filter_cons_True, filter_nil. Qed.

Definition group_indexes (groups : Groups) : list nat := mjoin (map (λ g, g.2.1) groups).

(** A group holds its lane's messages. *)
Definition holds_lane (rs : list Routed) (group : (Z * Z) * (list nat * list RoutedUserOperation)) : Prop :=
  group.2.1 = (lane_of group.1 rs).*1 ∧ group.2.2 = (lane_of group.1 rs).*2 ∧ group.2.1 ≠ [].

Record Grouped (rs : list Routed) (groups : Groups) : Prop := {
  gr_sorted : StronglySorted key_lt groups.*1;
  gr_lanes : Forall (holds_lane rs) groups;
  gr_all : ∀ r, r ∈ rs → lane_key r.2 ∈ groups.*1 }.

Lemma group_push_keys key i r groups k : k ∈ (group_push key i r groups).*1 ↔ k = key ∨ k ∈ groups.*1.
Proof.
  induction groups as [|[key' [xs os]] rest IH]; cbn; [set_solver|].
  destruct (key_compare_spec key key') as [->|Hl|Hl]; cbn; set_solver.
Qed.

Lemma group_push_indexes key i r groups :
  group_indexes (group_push key i r groups) ≡ₚ i :: group_indexes groups.
Proof.
  unfold group_indexes. induction groups as [|[key' [xs os]] rest IH]; cbn; [done|].
  destruct (key_compare key key'); cbn; [|done|].
  - by rewrite <- app_assoc, (Permutation_middle xs).
  - by rewrite IH, Permutation_middle.
Qed.

Lemma group_push_sorted key i r groups :
  StronglySorted key_lt groups.*1 → StronglySorted key_lt (group_push key i r groups).*1.
Proof.
  induction groups as [|[key' [xs os]] rest IH]; cbn; intros Hs; [by repeat constructor|].
  apply StronglySorted_inv in Hs as [Hs Hf].
  destruct (key_compare_spec key key') as [->|Hl|Hl]; cbn; [by constructor| |].
  - constructor; [by constructor|]. constructor; [done|].
    eapply Forall_impl; [exact Hf|]. intros k Hk. by eapply key_lt_trans.
  - constructor; [by apply IH|]. apply Forall_forall. intros k [->|Hk]%group_push_keys; [done|].
    by eapply Forall_forall in Hf.
Qed.

Lemma holds_lane_other rs (r : Routed) group :
  lane_key r.2 ≠ group.1 → holds_lane rs group → holds_lane (rs ++ [r]) group.
Proof. intros Hk Hg. unfold holds_lane. by rewrite lane_of_other. Qed.

Lemma holds_others rs (r : Routed) groups :
  Forall (key_lt (lane_key r.2)) groups.*1 → Forall (holds_lane rs) groups → Forall (holds_lane (rs ++ [r])) groups.
Proof.
  rewrite !Forall_forall. intros Hk Hg group Hin. apply holds_lane_other; [|by apply Hg].
  apply key_lt_neq, Hk. apply list_elem_of_fmap. by exists group.
Qed.

Lemma group_push_lanes rs (r : Routed) groups :
  StronglySorted key_lt groups.*1 → Forall (holds_lane rs) groups →
  (lane_key r.2 ∉ groups.*1 → lane_of (lane_key r.2) rs = []) →
  Forall (holds_lane (rs ++ [r])) (group_push (lane_key r.2) r.1 r.2 groups).
Proof.
  induction groups as [|[key' [xs os]] rest IH]; cbn; intros Hs Hg Hn.
  { constructor; [|done]. unfold holds_lane. cbn. rewrite lane_of_same, Hn by set_solver. done. }
  apply StronglySorted_inv in Hs as [Hs Hf]. apply Forall_cons in Hg as [Hg Hgs].
  destruct (key_compare_spec (lane_key r.2) key') as [<-|Hl|Hl].
  - constructor; [|by apply holds_others]. unfold holds_lane in *. cbn in *. destruct Hg as (-> & -> & Hne).
    rewrite lane_of_same, !fmap_app. split_and!; [done..|]. by intros [_ [=]]%app_nil.
  - assert (Forall (key_lt (lane_key r.2)) (key' :: rest.*1)) as Hlt.
    { constructor; [done|]. eapply Forall_impl; [exact Hf|]. intros k Hk. by eapply key_lt_trans. }
    constructor; [|by apply (holds_others rs r (_ :: rest)); [|constructor]].
    unfold holds_lane. cbn. rewrite lane_of_same, Hn; [done|].
    intros Hin. eapply Forall_forall in Hlt; [|exact Hin]. by apply (key_lt_neq (lane_key r.2) (lane_key r.2)).
  - constructor; [apply holds_lane_other; [|done]; symmetry; by apply key_lt_neq|].
    apply IH; [done|done|]. intros Hni. apply Hn. intros [Heq|Hin]%elem_of_cons; [|done].
    by apply (key_lt_neq key' (lane_key r.2)).
Qed.

Lemma grouped_push rs (r : Routed) groups :
  Grouped rs groups → Grouped (rs ++ [r]) (group_push (lane_key r.2) r.1 r.2 groups).
Proof.
  intros [Hs Hg Ha]. split; [by apply group_push_sorted|apply group_push_lanes; [done..|]|].
  - intros Hni. apply elem_of_nil_inv. intros x [Hk Hx]%list_elem_of_filter. apply Hni. rewrite <- Hk. by apply Ha.
  - intros x [Hx| ->%list_elem_of_singleton]%elem_of_app; apply group_push_keys; [right; by apply Ha|by left].
Qed.

(** ** The monitor *)

(** What has been seen: the messages that are settled, the batches the lanes
    resolved, the payloads the dead-letter queue took and the records that
    answered. *)
Record Seen : Type := {
  sn_disposed : list nat; sn_lanes : list (string * list RoutedUserOperation * list ItemResolution);
  sn_lettered : list Value; sn_given_up : list string }.

Definition nothing_seen : Seen := {| sn_disposed := []; sn_lanes := []; sn_lettered := []; sn_given_up := [] |}.

Section Rule.
Context `{SJ : SerdeJson}.
Variables (relayer_count : Z) (enabled : bool) (dead_letters : bool) (messages : list Message).

Definition dispose (indexes : list nat) (s : Seen) : Seen :=
  {| sn_disposed := sn_disposed s ++ indexes; sn_lanes := sn_lanes s; sn_lettered := sn_lettered s;
     sn_given_up := sn_given_up s |}.

Definition observe (s : Seen) (R : Type) (e : Delivery R) : R → Seen :=
  match e in Delivery R return R → Seen with
  | LaneObject name operations => λ answer,
      match answer with
      | Some resolutions =>
          {| sn_disposed := sn_disposed s; sn_lanes := (name, operations, resolutions) :: sn_lanes s;
             sn_lettered := sn_lettered s; sn_given_up := sn_given_up s |}
      | None => s
      end
  | DeliveryRecord name _ => λ answer,
      match answer with
      | Ok (RecordDo.Patched _) =>
          {| sn_disposed := sn_disposed s; sn_lanes := sn_lanes s; sn_lettered := sn_lettered s;
             sn_given_up := name :: sn_given_up s |}
      | _ => s
      end
  | DeadLetterSend payload => λ sent,
      if sent : bool
      then {| sn_disposed := sn_disposed s; sn_lanes := sn_lanes s; sn_lettered := payload :: sn_lettered s;
              sn_given_up := sn_given_up s |}
      else s
  | AckMessage index | RetryMessage index _ => λ _, dispose [index] s
  | RetryEverything => λ _, dispose (seq 0 (length messages)) s
  | QueueMs => λ _, s
  | DeadLetterBound => λ _, s
  end.

Abbreviation parse m := (parse_routed (ms_body m) relayer_count).

(** The messages that can be read, with their places in the batch. *)
Definition routed_of (entries : list (nat * Message)) : list Routed :=
  omap (λ entry : nat * Message, r ← ok (parse entry.2); Some (entry.1, r)) entries.

Abbreviation lane key := (lane_of key (routed_of (indexed messages))).

Definition object_name (r : RoutedUserOperation) : string := record_name (r_chain_id r) (r_user_operation_hash r).

(** Why a message may be acknowledged. *)
Definition ack_evidence (s : Seen) (index : nat) (m : Message) : Prop :=
  match parse m with
  | Err error =>
      (* there is nowhere further to put it, or the dead-letter queue took it *)
      dead_letters = true ∨ dead_letter (ms_body m) error ∈ sn_lettered s
  | Ok routed =>
      if dead_letters then object_name routed ∈ sn_given_up s
      else
        (* its lane was given all its messages and made this one durable *)
        ∃ resolutions position,
          (lane_name (lane_key routed), (lane (lane_key routed)).*2, resolutions) ∈ sn_lanes s ∧
          length resolutions = length (lane (lane_key routed)) ∧
          lane (lane_key routed) !! position = Some (index, routed) ∧
          resolutions !! position = Some Durable
  end.

Definition permits (s : Seen) (R : Type) (e : Delivery R) : Prop :=
  match e with
  | QueueMs => True
  | LaneObject name operations =>
      enabled = true ∧ dead_letters = false ∧
      ∃ key, name = lane_name key ∧ operations = (lane key).*2 ∧ operations ≠ []
  | DeliveryRecord name command =>
      enabled = true ∧ dead_letters = true ∧ (∃ now, command = RecordDo.GiveUp now) ∧
      ∃ m routed, m ∈ messages ∧ parse m = Ok routed ∧ name = object_name routed
  | DeadLetterBound => enabled = true ∧ dead_letters = false
  | DeadLetterSend payload =>
      enabled = true ∧ dead_letters = false ∧
      ∃ m error, m ∈ messages ∧ parse m = Err error ∧ payload = dead_letter (ms_body m) error
  | AckMessage index =>
      enabled = true ∧ index ∉ sn_disposed s ∧ ∃ m, messages !! index = Some m ∧ ack_evidence s index m
  | RetryMessage index delay_secs =>
      enabled = true ∧ index ∉ sn_disposed s ∧ (index < length messages)%nat ∧
      ∀ d, delay_secs = Some d → 5 ≤ d ≤ 300
  | RetryEverything => enabled = false ∧ sn_disposed s = []
  end.
End Rule.

Lemma redelivery_delay_secs_bounds now sent waiting : 5 ≤ redelivery_delay_secs now sent waiting ≤ 300.
Proof.
  unfold redelivery_delay_secs. pose proof (redelivery_delay_bounds (saturating_sub now sent) waiting) as Hb.
  unfold DELAYED_RETRY_BASE_MS, DELAYED_RETRY_MAX_MS, FUNDING_WAIT_RETRY_MAX_MS in Hb.
  set (d := redelivery_delay_ms _ _) in *. cbv zeta.
  assert (5 ≤ (d + 999) / 1000 ≤ 300) as Hd.
  { split; [apply Z.div_le_lower_bound; lia|]. apply Z.lt_succ_r, Z.div_lt_upper_bound; destruct waiting; lia. }
  rewrite decide_True; [exact Hd|]. unfold fits. lia.
Qed.

(** ** The walk *)

Lemma indexed_fst messages : (indexed messages).*1 = seq 0 (length messages).
Proof. unfold indexed. apply fst_zip. by rewrite length_seq. Qed.

Lemma indexed_lookup messages i m : (i, m) ∈ indexed messages → messages !! i = Some m.
Proof.
  intros [k Hk]%list_elem_of_lookup. unfold indexed in Hk.
  apply lookup_zip_Some in Hk as [Hi Hm]. by apply lookup_seq in Hi as [-> _].
Qed.

Section Walk.
Context `{SJ : SerdeJson}.
Variables (relayer_count : Z) (messages : list Message).

Abbreviation parse m := (parse_routed (ms_body m) relayer_count).
Abbreviation keeps dead_letters p g Q :=
  (ensures (permits relayer_count true dead_letters messages) (observe messages) p g Q).

(** The messages that are settled and those still to be, [rest]. *)
Definition balance (g : Seen) (rest : list nat) : Prop :=
  sn_disposed g ++ rest ≡ₚ seq 0 (length messages).

Lemma balance_next g i rest :
  balance g (i :: rest) → balance (dispose [i] g) rest ∧ i ∉ sn_disposed g ∧ (i < length messages)%nat.
Proof.
  unfold balance. intros Hb. split; [by rewrite <- Hb; cbn; rewrite <- app_assoc|]. split.
  - intros Hin. pose proof (NoDup_seq 0 (length messages)) as Hn. rewrite <- Hb in Hn.
    apply NoDup_app in Hn as (_ & Hd & _). apply (Hd i Hin). by left.
  - assert (i ∈ seq 0 (length messages)) as Hi by (rewrite <- Hb; set_solver). apply elem_of_seq in Hi. lia.
Qed.

#[local] Instance balance_proper g : Proper (Permutation ==> iff) (balance g).
Proof. intros rest rest' Hr. unfold balance. by rewrite Hr. Qed.

Lemma retry_later_keeps dead_letters g i rest m waiting :
  balance g (i :: rest) →
  keeps dead_letters (retry_later i m waiting) g (λ g' _, g' = dispose [i] g).
Proof.
  intros (_ & Hi & Hl)%balance_next. apply ensures_bind, ensures_perform. split; [done|]. intros now.
  apply ensures_perform. split; [|done]. split_and!; [done..|]. intros d [= <-]. apply redelivery_delay_secs_bounds.
Qed.

(** Every index of a list is redelivered. *)
Lemma redeliver_all_keeps {A} dead_letters g indexes rest (Q : Seen → () + A → Prop) :
  balance g (indexes ++ rest) → (∀ g', balance g' rest → Q g' (inl ())) →
  keeps dead_letters (io_for (redeliver messages) indexes () (λ _, mret (inl ()))) g Q.
Proof.
  intros Hb HQ. apply (ensures_for _ _ _ _ _ _ _ (λ items g _, balance g (items ++ rest))); [done| |].
  - intros i items g' [] Hb'. apply ensures_bind. eapply ensures_mono; [by eapply retry_later_keeps|].
    intros g'' [] ->. exact (proj1 (balance_next _ _ _ Hb')).
  - intros g' [] Hb'. by apply HQ.
Qed.
Abbreviation lane key := (lane_of key (routed_of relayer_count (indexed messages))).

Lemma routed_of_elem entries (r : Routed) :
  r ∈ routed_of relayer_count entries → ∃ m, (r.1, m) ∈ entries ∧ parse m = Ok r.2.
Proof.
  intros ([j m] & Hin & Hr)%list_elem_of_omap. cbn in Hr. destruct (parse m) as [routed|] eqn:Hp; [|done].
  injection Hr as <-. by exists m.
Qed.

Lemma lane_elem key (r : Routed) :
  r ∈ lane key → lane_key r.2 = key ∧ ∃ m, messages !! r.1 = Some m ∧ parse m = Ok r.2.
Proof.
  intros [Hk (m & Hm & Hp)%routed_of_elem]%list_elem_of_filter. split; [done|].
  exists m. split; [by apply indexed_lookup|done].
Qed.

(** A durable resolution is the evidence of its message. *)
Lemma durable_evidence g key resolutions p i :
  (lane_name key, (lane key).*2, resolutions) ∈ sn_lanes g → length resolutions = length (lane key) →
  (lane key).*1 !! p = Some i → resolutions !! p = Some Durable →
  ∃ m, messages !! i = Some m ∧ ack_evidence relayer_count false messages g i m.
Proof.
  intros Hg Hl Hi Hd. apply list_lookup_fmap_Some in Hi as ([j routed] & -> & Hr).
  destruct (lane_elem key (j, routed)) as (Hk & m & Hm & Hp); [by eapply list_elem_of_lookup_2|]. cbn in *.
  exists m. split; [done|]. unfold ack_evidence. rewrite Hp. subst key. by exists resolutions, p.
Qed.

(** The messages of a lane that answered, each by its own resolution. *)
Lemma resolve_all_keeps {A} g key resolutions rest (Q : Seen → () + A → Prop) :
  (lane_name key, (lane key).*2, resolutions) ∈ sn_lanes g → length resolutions = length (lane key) →
  balance g ((lane key).*1 ++ rest) → (∀ g', balance g' rest → Q g' (inl ())) →
  keeps false (io_for (resolve_message messages) (zip (lane key).*1 resolutions) () (λ _, mret (inl ()))) g Q.
Proof.
  intros Hg Hl Hb HQ.
  apply (ensures_for _ _ _ _ _ _ _ (λ items g _,
    balance g (items.*1 ++ rest) ∧ (lane_name key, (lane key).*2, resolutions) ∈ sn_lanes g ∧
    ∃ pre, zip (lane key).*1 resolutions = pre ++ items)).
  - rewrite fst_zip by (rewrite length_fmap; lia). split_and!; [done|done|by exists []].
  - intros [i resolution] items g' [] (Hb' & Hg' & pre & Hpre).
    assert (∃ pre, zip (lane key).*1 resolutions = pre ++ items) as Hsuf
      by (exists (pre ++ [(i, resolution)]); by rewrite <- app_assoc).
    assert (zip (lane key).*1 resolutions !! length pre = Some (i, resolution)) as Hz
      by (rewrite Hpre; by apply list_lookup_middle).
    apply lookup_zip_Some in Hz as [Hi Hr]. destruct (balance_next g' i (items.*1 ++ rest) Hb') as (Hn & Hni & _).
    apply ensures_bind. destruct resolution as [|reason].
    + apply ensures_perform. split; [|intros []; by split].
      split_and!; [done..|]. by eapply durable_evidence.
    + eapply ensures_mono; [exact (retry_later_keeps false g' i (items.*1 ++ rest) _ _ Hb')|].
      intros g'' [] ->. by split.
  - intros g' [] (Hb' & _). by apply HQ.
Qed.

Lemma execute_group_keeps g group rest (Q : Seen → () + result () () → Prop) :
  holds_lane (routed_of relayer_count (indexed messages)) group → balance g (group.2.1 ++ rest) →
  (∀ g', balance g' rest → Q g' (inl ())) → keeps false (execute_group messages group ()) g Q.
Proof.
  destruct group as [key [indexes operations]]. intros (Hi & Ho & Hne) Hb HQ. cbn [fst snd] in Hi, Ho, Hne, Hb.
  subst indexes operations. apply ensures_bind, ensures_perform. split.
  { split_and!; [done..|]. exists key. split_and!; [done..|]. intros He. apply Hne.
    by apply fmap_nil_inv in He as ->. }
  intros [resolutions|]; [|by apply redeliver_all_keeps with rest].
  destruct (decide _) as [Hl|Hl]; [|by apply redeliver_all_keeps with rest].
  rewrite length_fmap in Hl. apply resolve_all_keeps with rest; [by left|done|done|done].
Qed.

(** *** The first loop *)

Lemma routed_of_app entries entry :
  routed_of relayer_count (entries ++ [entry]) =
  routed_of relayer_count entries ++
    match parse entry.2 with Ok routed => [(entry.1, routed)] | Err _ => [] end.
Proof. unfold routed_of. rewrite omap_app. cbn. by destruct (parse entry.2). Qed.

Definition routing (items : list (nat * Message)) (g : Seen) (groups : Groups) : Prop :=
  balance g (group_indexes groups ++ items.*1) ∧
  ∃ pre, indexed messages = pre ++ items ∧ Grouped (routed_of relayer_count pre) groups.

Lemma ack_keeps dead_letters g i rest m :
  messages !! i = Some m → balance g (i :: rest) → ack_evidence relayer_count dead_letters messages g i m →
  keeps dead_letters (perform (AckMessage i)) g (λ g' _, balance g' rest).
Proof.
  intros Hm (Hn & Hi & _)%balance_next He. apply ensures_perform. split; [|done]. split_and!; [done..|by exists m].
Qed.

Lemma retry_keeps dead_letters g i rest :
  balance g (i :: rest) → keeps dead_letters (perform (RetryMessage i None)) g (λ g' _, balance g' rest).
Proof. intros (Hn & Hi & Hl)%balance_next. apply ensures_perform. split; [|done]. by split_and!. Qed.

(** A message that cannot be read is put in the dead-letter queue or redelivered. *)
Lemma dead_letter_keeps g i m error rest :
  messages !! i = Some m → parse m = Err error → balance g (i :: rest) →
  keeps false (dead_letter_malformed (ms_body m) error) g
    (λ g' (lettered : bool), balance g' (i :: rest) ∧
       (lettered = true → ack_evidence relayer_count false messages g' i m)).
Proof.
  intros Hm He Hb. apply ensures_bind, ensures_perform. split; [done|]. intros [|]; [|by apply ensures_pure].
  apply ensures_perform. split.
  { split_and!; [done..|]. exists m, error. split_and!; [|done..]. by eapply list_elem_of_lookup_2. }
  intros [|]; [|done]. split; [done|]. intros _. unfold ack_evidence. rewrite He. right. by left.
Qed.

Lemma route_message_keeps entry items g groups :
  routing (entry :: items) g groups →
  keeps false (route_message relayer_count entry groups) g
    (λ g' step, match step with inl groups => routing items g' groups | inr _ => False end).
Proof.
  intros (Hb & pre & Hpre & Hg). destruct entry as [i m]. unfold route_message.
  assert (messages !! i = Some m) as Hm by (apply indexed_lookup; rewrite Hpre; set_solver).
  assert (indexed messages = (pre ++ [(i, m)]) ++ items) as Hpre' by by rewrite <- app_assoc.
  pose proof (routed_of_app pre (i, m)) as Happ. cbn [fst snd] in Happ.
  destruct (parse m) as [routed|error] eqn:Hp.
  - apply ensures_pure. split.
    + rewrite group_push_indexes. cbn in Hb |- *. by rewrite <- Permutation_middle in Hb.
    + eexists. split; [exact Hpre'|]. rewrite Happ. by apply (grouped_push _ (i, routed)).
  - rewrite app_nil_r in Happ. cbn in Hb. rewrite <- Permutation_middle in Hb.
    apply ensures_bind. eapply ensures_mono; [by eapply dead_letter_keeps|]. intros g' lettered [Hb' Hev].
    apply ensures_bind. eapply ensures_mono with (Q := λ g'' _, balance g'' (group_indexes groups ++ items.*1)).
    + destruct lettered; [eapply ack_keeps; eauto|by apply retry_keeps].
    + intros g'' [] Hb''. split; [done|]. exists (pre ++ [(i, m)]). by rewrite Happ.
Qed.

(** *** The consumers *)

Definition all_settled (g : Seen) (r : result () ()) : Prop := r = Ok () ∧ balance g [].

Lemma consume_keeps : keeps false (consume relayer_count messages) nothing_seen all_settled.
Proof.
  apply (ensures_for _ _ _ _ _ _ _ routing).
  - split; [by unfold balance; cbn; rewrite indexed_fst|]. exists []. split; [done|]. split; [constructor|constructor|].
    by intros r ?%elem_of_nil.
  - intros entry items g groups Hr. eapply ensures_mono; [by apply route_message_keeps|]. by intros g' [groups'|].
  - intros g groups (Hb & pre & Hpre & [_ Hg _]). rewrite app_nil_r in Hpre, Hb. rewrite <- Hpre in Hg.
    apply (ensures_for _ _ _ _ _ _ _ (λ items g _,
      balance g (group_indexes items) ∧ Forall (holds_lane (routed_of relayer_count (indexed messages))) items)).
    + done.
    + intros group items g' [] (Hb' & [Hh Hhs]%Forall_cons).
      apply execute_group_keeps with (group_indexes items); [done|exact Hb'|]. intros g'' Hb''. by split.
    + intros g' [] [Hb' _]. by apply ensures_pure.
Qed.

Lemma give_up_message_keeps now entry items g :
  entry ∈ indexed messages → balance g (entry.1 :: items) →
  keeps true (give_up_message relayer_count now entry ()) g (λ g' step, step = inl () ∧ balance g' items).
Proof.
  destruct entry as [i m]. cbn [fst]. intros Hm%indexed_lookup Hb. unfold give_up_message.
  destruct (parse m) as [routed|error] eqn:Hp.
  - apply ensures_bind, ensures_perform. split.
    { split_and!; [done..|by exists now|]. exists m, routed. split_and!; [|done..]. by eapply list_elem_of_lookup_2. }
    intros reply. apply ensures_bind.
    eapply ensures_mono with (Q := λ g' _, balance g' items); [|by intros g' [] ?].
    destruct reply as [[]|]; try by apply retry_keeps.
    eapply ack_keeps; [done|done|]. unfold ack_evidence. rewrite Hp. by left.
  - apply ensures_bind. eapply ensures_mono; [eapply ack_keeps; [done|exact Hb|]|by intros g' [] ?].
    unfold ack_evidence. rewrite Hp. by left.
Qed.

Lemma give_up_dead_letters_keeps :
  keeps true (give_up_dead_letters relayer_count (Some messages)) nothing_seen all_settled.
Proof.
  apply ensures_bind, ensures_perform. split; [done|]. intros now.
  apply (ensures_for _ _ _ _ _ _ _ (λ items g _, balance g items.*1 ∧ ∃ pre, indexed messages = pre ++ items)).
  - split; [by unfold balance; cbn; rewrite indexed_fst|by exists []].
  - intros entry items g [] (Hb & pre & Hpre).
    eapply ensures_mono; [apply give_up_message_keeps; [rewrite Hpre; set_solver|exact Hb]|].
    intros g' step [-> Hb']. split; [done|]. exists (pre ++ [entry]). by rewrite <- app_assoc.
  - intros g [] [Hb _]. by apply ensures_pure.
Qed.
End Walk.

(** ** The claim *)

Section Claim.
Context `{HX : Hex} `{HK : Keccak} `{HC : Curve} `{SJ : SerdeJson} `{UP : UrlParser} `{W : TargetWidth}.

Definition relayers (env : Env) : Z :=
  match config_from_env env with Ok config => cc_relayer_count config | Err _ => 0 end.
Definition consumer_runs (env : Env) : bool :=
  match config_from_env env with Ok config => cc_executor_enabled config | Err _ => false end.
Definition batch_messages (batch : MessageBatch) : list Message := default [] (mb_messages batch).

Definition delivery_rule (env : Env) (batch : MessageBatch) : Seen → ∀ R, Delivery R → Prop :=
  permits (relayers env) (consumer_runs env) (String.eqb (mb_queue batch) DEAD_LETTER_QUEUE) (batch_messages batch).

Definition consumed (batch : MessageBatch) (g : Seen) (r : result () ()) : Prop :=
  match r with
  | Ok _ => sn_disposed g ≡ₚ seq 0 (length (batch_messages batch))
  | Err _ => mb_messages batch = None ∧ sn_disposed g = []
  end.

Lemma all_settled_consumed batch g r : all_settled (batch_messages batch) g r → consumed batch g r.
Proof. intros [-> Hb]. unfold balance in Hb. rewrite app_nil_r in Hb. exact Hb. Qed.

Lemma queue_consumer_keeps env batch :
  ensures (delivery_rule env batch) (observe (batch_messages batch)) (queue_consumer env batch) nothing_seen
    (consumed batch).
Proof.
  unfold delivery_rule, queue_consumer, consumer_runs, relayers.
  destruct (config_from_env env) as [config|error]; [|split; [by split|intros []; exact (reflexivity _)]].
  destruct (cc_executor_enabled config); [|split; [by split|intros []; exact (reflexivity _)]]. cbn [negb].
  pose proof (all_settled_consumed batch) as Hall. revert Hall. unfold batch_messages.
  destruct (String.eqb _ _) eqn:Hq; destruct (mb_messages batch) as [messages|] eqn:Hm; cbn [default id]; intros Hall.
  - eapply ensures_mono; [apply give_up_dead_letters_keeps|]. intros g r. apply Hall.
  - by repeat split.
  - eapply ensures_mono; [apply consume_keeps|]. intros g r. apply Hall.
  - by repeat split.
Qed.

(** C9: A delivered batch, whatever its messages hold and whatever the lanes,
    the records, the dead-letter queue and the clock answer: every message is
    acknowledged or handed back exactly once (or the whole batch is, when the
    configuration is refused or the executor is off, and nothing is when the
    platform cannot read the batch).  A lane is only ever given all the
    messages of its chain and lane, in the order they were delivered, and a
    message is acknowledged only with evidence: its lane answered one
    resolution per message and this message's, at its own place, is durable;
    or the envelope cannot be read and the dead-letter queue took it with the
    reason; or, in the dead-letter queue itself, it cannot be read or its
    record answered.  A message handed back to the lanes' queue returns
    after five seconds to five minutes. *)
Theorem every_message_is_resolved_once env batch t r :
  io_runs (queue_consumer env batch) t r →
  accepted (delivery_rule env batch) (observe (batch_messages batch)) nothing_seen t ∧
  consumed batch (observed_all (observe (batch_messages batch)) nothing_seen t) r.
Proof. intros Hrun. exact (ensures_runs _ _ _ _ _ _ _ (queue_consumer_keeps env batch) Hrun). Qed.
End Claim.

(** ** A concrete delivery *)

#[local] Instance queue_curve : Curve :=
  {| SecretKey := list byte; hkdf_sha256 _ _ _ := repeat x01 32; from_slice := Some;
     public_point _ := repeat x02 65 |}.
#[local] Instance queue_json : SerdeJson := {| json_from_slice _ := Err "not JSON"; derive_error _ _ := "" |}.
#[local] Instance queue_urls : UrlParser := {| url_parse _ := Err "" |}.

Definition queue_env : Env :=
  {| env_var _ := None;
     env_secret name :=
       if String.eqb name "OPERATOR_SECRET" then Some (String.concat "" (repeat "01" 32)) else None |}.

Definition queue_message (sender : string) : Message :=
  {| ms_sent_ms := 0;
     ms_body := VObject [("schemaVersion", VNumber 1); ("userOperationHash", VString "0xaa");
                         ("chainId", VNumber 100); ("entryPoint", VString "0xee");
                         ("userOperation", VObject [("sender", VString sender)])] |}.

(** Two messages of one lane around one that is no envelope. *)
Definition queue_batch : MessageBatch :=
  {| mb_queue := "vela-relay-ops";
     mb_messages := Some [queue_message "0x01"; {| ms_body := VNull; ms_sent_ms := 0 |}; queue_message "0x0b"] |}.

(** The lane makes the first durable and fails the second. *)
Definition queue_answer (s : ()) (R : Type) (e : Delivery R) : () * R :=
  match e in Delivery R return () * R with
  | QueueMs => (s, 60000)
  | LaneObject _ _ => (s, Some [Durable; ItemFailed "settlement hold"])
  | DeliveryRecord _ _ => (s, Err tt)
  | DeadLetterBound => (s, true)
  | DeadLetterSend _ => (s, true)
  | AckMessage _ => (s, tt)
  | RetryMessage _ _ => (s, tt)
  | RetryEverything => (s, tt)
  end.

Definition queue_run :=
  io_execute queue_answer () (@queue_consumer ref_hex ref_keccak queue_curve queue_json queue_urls x86_64
    queue_env queue_batch).

Fixpoint dispositions (t : list (Answered Delivery)) : list (nat * option Z) :=
  match t with
  | [] => []
  | existT _ (e, _) :: t =>
      match e with
      | AckMessage i => (i, None) :: dispositions t
      | RetryMessage i d => (i, d) :: dispositions t
      | _ => dispositions t
      end
  end.

Lemma queue_run_dispositions :
  dispositions queue_run.2.1 = [(1%nat, None); (0%nat, None); (2%nat, Some 30)] ∧ queue_run.2.2 = Ok ().
Proof. vm_compute. by split. Qed.

Lemma queue_run_runs :
  io_runs (@queue_consumer ref_hex ref_keccak queue_curve queue_json queue_urls x86_64 queue_env queue_batch)
    queue_run.2.1 queue_run.2.2.
Proof. exact (io_execute_runs queue_answer () _). Qed.

Lemma every_message_is_resolved_once_witness :
  dispositions queue_run.2.1 = [(1%nat, None); (0%nat, None); (2%nat, Some 30)] ∧
  @accepted _ _ (@delivery_rule ref_hex ref_keccak queue_curve queue_json queue_urls x86_64 queue_env queue_batch)
    (observe (batch_messages queue_batch)) nothing_seen queue_run.2.1.
Proof.
  split; [exact (proj1 queue_run_dispositions)|].
  exact (proj1 (@every_message_is_resolved_once ref_hex ref_keccak queue_curve queue_json queue_urls x86_64
    queue_env queue_batch queue_run.2.1 queue_run.2.2 queue_run_runs)).
Defined.
