(* ===== verification/Redis.v ===== *)
(** * Redis: the commands the server's scripts call

    The keyspace the server keeps its records in, with the commands its Lua
    scripts and queries use as Redis documents them: a value and its expiry
    under each key, one clock, each script run at once.  Keys of different
    kinds have different prefixes and live in different maps.  A stored text is
    [Raw], or [Json] where only the value it parses to matters.  [None] is an
    error reply, which ends a script and keeps what it has written. *)

From S2P Require Export Json.
#[local] Open Scope string_scope.
#[local] Open Scope list_scope.
#[local] Open Scope Z_scope.

#[export] Instance Value_eq_dec : EqDecision Value.
Proof.
  refine (fix go (a b : Value) : {a = b} + {a ≠ b} := _).
  refine (match a, b with
          | VNull, VNull => left eq_refl
          | VBool x, VBool y => cast_if (decide (x = y))
          | VNumber x, VNumber y => cast_if (decide (x = y))
          | VString x, VString y => cast_if (decide (x = y))
          | VArray x, VArray y => cast_if (@list_eq_dec _ go x y)
          | VObject x, VObject y => cast_if (@list_eq_dec _ (@prod_eq_dec _ _ _ go) x y)
          | _, _ => right _
          end); abstract congruence.
Defined.

Inductive Bulk : Type := Raw (text : string) | Json (value : Value).

#[export] Instance Bulk_eq_dec : EqDecision Bulk.
Proof. solve_decision. Defined.

(** ** The keyspace *)

(** A value and when it expires. *)
Definition Expiring (A : Type) : Type := (A * option Z)%type.

Record Keyspace : Type := {
  ks_texts : gmap string (Expiring Bulk);
  ks_hashes : gmap string (Expiring (gmap string Bulk));
  ks_sets : gmap string (Expiring (gset string));
  ks_sorted : gmap string (gmap string Z) }.

Definition empty_keyspace : Keyspace :=
  {| ks_texts := ∅; ks_hashes := ∅; ks_sets := ∅; ks_sorted := ∅ |}.

(** What a key holds at [now]. *)
Definition unexpired {A} (now : Z) (e : Expiring A) : option A :=
  match e.2 with
  | Some deadline => if decide (now < deadline) then Some e.1 else None
  | None => Some e.1
  end.

Definition text_at (now : Z) (ks : Keyspace) (key : string) : option Bulk := ks_texts ks !! key ≫= unexpired now.
Definition hash_at (now : Z) (ks : Keyspace) (key : string) : option (gmap string Bulk) :=
  ks_hashes ks !! key ≫= unexpired now.
Definition set_at (now : Z) (ks : Keyspace) (key : string) : gset string :=
  default ∅ (ks_sets ks !! key ≫= unexpired now).
Definition scores_at (ks : Keyspace) (key : string) : gmap string Z := default ∅ (ks_sorted ks !! key).

Definition with_texts (f : gmap string (Expiring Bulk) → gmap string (Expiring Bulk)) (ks : Keyspace) : Keyspace :=
  {| ks_texts := f (ks_texts ks); ks_hashes := ks_hashes ks; ks_sets := ks_sets ks; ks_sorted := ks_sorted ks |}.
Definition with_hashes (f : gmap string (Expiring (gmap string Bulk)) → gmap string (Expiring (gmap string Bulk)))
    (ks : Keyspace) : Keyspace :=
  {| ks_texts := ks_texts ks; ks_hashes := f (ks_hashes ks); ks_sets := ks_sets ks; ks_sorted := ks_sorted ks |}.
Definition with_sets (f : gmap string (Expiring (gset string)) → gmap string (Expiring (gset string)))
    (ks : Keyspace) : Keyspace :=
  {| ks_texts := ks_texts ks; ks_hashes := ks_hashes ks; ks_sets := f (ks_sets ks); ks_sorted := ks_sorted ks |}.
Definition with_sorted (f : gmap string (gmap string Z) → gmap string (gmap string Z)) (ks : Keyspace) : Keyspace :=
  {| ks_texts := ks_texts ks; ks_hashes := ks_hashes ks; ks_sets := ks_sets ks; ks_sorted := f (ks_sorted ks) |}.

(** The expiry a live key has. *)
Definition deadline_of {A} (now : Z) (e : option (Expiring A)) : option Z :=
  e ← e; _ ← unexpired now e; e.2.

(** ** Scripts *)

Definition redis (A : Type) : Type := Z → Keyspace → Keyspace * option A.

#[export] Instance redis_mret : MRet redis := λ A a now ks, (ks, Some a).
#[export] Instance redis_mbind : MBind redis := λ A B f m now ks,
  match m now ks with
  | (ks, Some a) => f a now ks
  | (ks, None) => (ks, None)
  end.

Definition redis_error {A} : redis A := λ now ks, (ks, None).

(** A reply that the script needs. *)
Definition need {A} (o : option A) : redis A := match o with Some a => mret a | None => redis_error end.

Definition reads {A} (f : Z → Keyspace → A) : redis A := λ now ks, (ks, Some (f now ks)).
Definition writes (f : Z → Keyspace → Keyspace) : redis () := λ now ks, (f now ks, Some ()).

(** [for _, x in ipairs(l) do ... end] *)
Fixpoint redis_for {A S} (body : A → S → redis S) (l : list A) (s : S) : redis S :=
  match l with
  | [] => mret s
  | a :: l => s ← body a s; redis_for body l s
  end.

(** ** Commands *)

Definition GET (key : string) : redis (option Bulk) := reads (λ now ks, text_at now ks key).

Definition MGET (keys : list string) : redis (list (option Bulk)) := reads (λ now ks, map (text_at now ks) keys).

(** [SET key value NX] with [PX ttl] if given: whether it was stored. *)
Definition SET_NX (key : string) (value : Bulk) (ttl : option Z) : redis bool :=
  held ← GET key;
  match held with
  | Some _ => mret false
  | None => _ ← writes (λ now, with_texts (<[key := (value, (λ ttl, now + ttl) <$> ttl)]>)); mret true
  end.

Definition SET_PX (key : string) (value : Bulk) (ttl : Z) : redis () :=
  writes (λ now, with_texts (<[key := (value, Some (now + ttl))]>)).

Definition SET_KEEPTTL (key : string) (value : Bulk) : redis () :=
  writes (λ now ks, with_texts (<[key := (value, deadline_of now (ks_texts ks !! key))]>) ks).

(** [DEL], and whether there was something to delete. *)
Definition DEL_text (key : string) : redis Z :=
  held ← GET key;
  _ ← writes (λ _, with_texts (delete key));
  mret (match held with Some _ => 1 | None => 0 end).

(** [PEXPIRE] of a text, with a positive time to live. *)
Definition PEXPIRE_text (key : string) (ttl : Z) : redis Z :=
  held ← GET key;
  match held with
  | None => mret 0
  | Some value => _ ← SET_PX key value ttl; mret 1
  end.

Definition HGETALL (key : string) : redis (option (gmap string Bulk)) := reads (λ now ks, hash_at now ks key).

Definition HGET (key field : string) : redis (option Bulk) :=
  fields ← HGETALL key; mret (fields ← fields; fields !! field).

Definition HSET (key : string) (fields : list (string * Bulk)) : redis () :=
  writes (λ now ks, with_hashes
    (<[key := (list_to_map fields ∪ default ∅ (hash_at now ks key), deadline_of now (ks_hashes ks !! key))]>) ks).

Definition DEL_hash (key : string) : redis Z :=
  held ← HGETALL key;
  _ ← writes (λ _, with_hashes (delete key));
  mret (match held with Some _ => 1 | None => 0 end).

Definition PEXPIRE_hash (key : string) (ttl : Z) : redis Z :=
  held ← HGETALL key;
  match held with
  | None => mret 0
  | Some fields => _ ← writes (λ now, with_hashes (<[key := (fields, Some (now + ttl))]>)); mret 1
  end.

Definition EXISTS_hash (key : string) : redis Z :=
  held ← HGETALL key; mret (match held with Some _ => 1 | None => 0 end).

(** [HINCRBY key field 1]; what the field holds is a number this script wrote. *)
Definition HINCR (key field : string) : redis Z :=
  held ← HGET key field;
  n ← need (match held with
            | None => Some 0
            | Some (Raw text) => ok (parse_uint 63 text)
            | Some (Json _) => None
            end);
  _ ← HSET key [(field, Raw (dec (n + 1)))];
  mret (n + 1).

Definition SADD (key member : string) : redis () :=
  writes (λ now ks, with_sets
    (<[key := ({[member]} ∪ set_at now ks key, deadline_of now (ks_sets ks !! key))]>) ks).
Definition SREM (key member : string) : redis () :=
  writes (λ now ks, with_sets
    (<[key := (set_at now ks key ∖ {[member]}, deadline_of now (ks_sets ks !! key))]>) ks).
Definition SMEMBERS (key : string) : redis (list string) := reads (λ now ks, elements (set_at now ks key)).
Definition EXPIRE_set (key : string) (ttl : Z) : redis () :=
  writes (λ now ks, with_sets (<[key := (set_at now ks key, Some (now + ttl))]>) ks).

Definition ZADD (key : string) (score : Z) (member : string) : redis () :=
  writes (λ _ ks, with_sorted (<[key := <[member := score]> (scores_at ks key)]>) ks).
Definition ZREM (key member : string) : redis () :=
  writes (λ _ ks, with_sorted (<[key := delete member (scores_at ks key)]>) ks).

(** By score, then by member. *)
Definition zset_le (a b : string * Z) : Prop := a.2 < b.2 ∨ a.2 = b.2 ∧ String.le a.1 b.1.
#[export] Instance zset_le_dec : RelDecision zset_le.
Proof. unfold zset_le. intros a b. apply _. Defined.

Definition ZRANGEBYSCORE (key : string) (max : Z) (limit : nat) : redis (list string) :=
  reads (λ _ ks, take limit
    (map fst (merge_sort zset_le (filter (λ m : string * Z, m.2 ≤ max) (map_to_list (scores_at ks key)))))).

(** [redis_time[1] * 1000 + math.floor(redis_time[2] / 1000)] *)
Definition TIME : redis Z := reads (λ now _, now).

#[local] Set Default Proof Using "Type*".

(** ** How a script moves the keyspace

    A rule that relates what every key holds before a script to what it holds
    after it. *)

Section Moves.
Context {X : Type} (view : Z → Keyspace → string → X) (R : string → X → X → Prop).
Context `{HR : ∀ key, PreOrder (R key)}.

Definition moves {A} (m : redis A) : Prop :=
  ∀ now ks key, R key (view now ks key) (view now (m now ks).1 key).

Lemma moves_mret {A} (a : A) : moves (mret a).
Proof. intros now ks key. reflexivity. Qed.
Lemma moves_error {A} : moves (@redis_error A).
Proof. intros now ks key. reflexivity. Qed.
Lemma moves_need {A} (o : option A) : moves (need o).
Proof. destruct o; intros now ks key; reflexivity. Qed.
Lemma moves_reads {A} (f : Z → Keyspace → A) : moves (reads f).
Proof. intros now ks key. reflexivity. Qed.

Lemma moves_bind {A B} (m : redis A) (f : A → redis B) : moves m → (∀ a, moves (f a)) → moves (m ≫= f).
Proof.
  intros Hm Hf now ks key. specialize (Hm now ks key). unfold mbind, redis_mbind.
  destruct (m now ks) as [ks' [a|]]; [|exact Hm]. etransitivity; [exact Hm|]. apply Hf.
Qed.

Lemma moves_for {A S} (body : A → S → redis S) l s : (∀ a s, moves (body a s)) → moves (redis_for body l s).
Proof. intros Hb. revert s. induction l as [|a l IH]; intros s; [apply moves_mret|]. by apply moves_bind. Qed.
End Moves.

(** A write of a text or a hash moves that key alone; a write of anything else
    moves none. *)
Section Writes.
Context (R : string → option Bulk → option Bulk → Prop) `{HR : ∀ key, PreOrder (R key)}.
Context (RH : string → option (gmap string Bulk) → option (gmap string Bulk) → Prop) `{HRH : ∀ key, PreOrder (RH key)}.

Lemma text_at_insert now ks key e key' :
  text_at now (with_texts (<[key := e]>) ks) key' = if decide (key' = key) then unexpired now e else text_at now ks key'.
Proof. unfold text_at. cbn. case_decide; subst; [by rewrite lookup_insert_eq|by rewrite lookup_insert_ne]. Qed.
Lemma text_at_delete now ks key key' :
  text_at now (with_texts (delete key) ks) key' = if decide (key' = key) then None else text_at now ks key'.
Proof. unfold text_at. cbn. case_decide; subst; [by rewrite lookup_delete_eq|by rewrite lookup_delete_ne]. Qed.
Lemma hash_at_insert now ks key e key' :
  hash_at now (with_hashes (<[key := e]>) ks) key' = if decide (key' = key) then unexpired now e else hash_at now ks key'.
Proof. unfold hash_at. cbn. case_decide; subst; [by rewrite lookup_insert_eq|by rewrite lookup_insert_ne]. Qed.
Lemma hash_at_delete now ks key key' :
  hash_at now (with_hashes (delete key) ks) key' = if decide (key' = key) then None else hash_at now ks key'.
Proof. unfold hash_at. cbn. case_decide; subst; [by rewrite lookup_delete_eq|by rewrite lookup_delete_ne]. Qed.

(** A time to live that is kept keeps what is live alive. *)
Lemma unexpired_kept {A B} now (e : option (Expiring A)) (v : B) :
  is_Some (e ≫= unexpired now) → unexpired now (v, deadline_of now e) = Some v.
Proof.
  destruct e as [[a [deadline|]]|]; cbn; [|done|by intros [? ?]]. unfold deadline_of, unexpired. cbn.
  case_decide; cbn; [|by intros [? ?]]. by rewrite decide_True.
Qed.

Definition free (key : string) : Prop := ∀ a b, R key a b.
Definition free_hash (key : string) : Prop := ∀ a b, RH key a b.

Lemma moves_texts_insert (f : Z → Keyspace → Expiring Bulk) key :
  free key → moves text_at R (writes (λ now ks, with_texts (<[key := f now ks]>) ks)).
Proof. intros Hf now ks key'. cbn. rewrite text_at_insert. case_decide as E; [rewrite E; apply Hf|reflexivity]. Qed.
Lemma moves_texts_delete key : free key → moves text_at R (writes (λ _, with_texts (delete key))).
Proof. intros Hf now ks key'. cbn. rewrite text_at_delete. case_decide as E; [rewrite E; apply Hf|reflexivity]. Qed.
Lemma moves_hashes_insert (f : Z → Keyspace → Expiring (gmap string Bulk)) key :
  free_hash key → moves hash_at RH (writes (λ now ks, with_hashes (<[key := f now ks]>) ks)).
Proof. intros Hf now ks key'. cbn. rewrite hash_at_insert. case_decide as E; [rewrite E; apply Hf|reflexivity]. Qed.
Lemma moves_hashes_delete key : free_hash key → moves hash_at RH (writes (λ _, with_hashes (delete key))).
Proof. intros Hf now ks key'. cbn. rewrite hash_at_delete. case_decide as E; [rewrite E; apply Hf|reflexivity]. Qed.

Lemma moves_texts_hashes f : moves text_at R (writes (λ now ks, with_hashes (f now ks) ks)).
Proof. intros now ks key. cbn. reflexivity. Qed.
Lemma moves_texts_sets f : moves text_at R (writes (λ now ks, with_sets (f now ks) ks)).
Proof. intros now ks key. cbn. reflexivity. Qed.
Lemma moves_texts_sorted f : moves text_at R (writes (λ now ks, with_sorted (f now ks) ks)).
Proof. intros now ks key. cbn. reflexivity. Qed.
Lemma moves_hashes_texts f : moves hash_at RH (writes (λ now ks, with_texts (f now ks) ks)).
Proof. intros now ks key. cbn. reflexivity. Qed.
Lemma moves_hashes_sets f : moves hash_at RH (writes (λ now ks, with_sets (f now ks) ks)).
Proof. intros now ks key. cbn. reflexivity. Qed.
Lemma moves_hashes_sorted f : moves hash_at RH (writes (λ now ks, with_sorted (f now ks) ks)).
Proof. intros now ks key. cbn. reflexivity. Qed.

(** Stored where there is nothing. *)
Lemma moves_SET_NX key v ttl :
  R key None (Some v) → R key None None → moves text_at R (SET_NX key v ttl).
Proof.
  intros Hs Hn now ks key'. unfold SET_NX, GET, mbind, redis_mbind, reads. cbn.
  destruct (text_at now ks key) eqn:E; cbn; [reflexivity|]. rewrite text_at_insert.
  case_decide as Ek; [|reflexivity]. subst key'. rewrite E. unfold unexpired.
  destruct ttl; cbn; [case_decide|]; done.
Qed.
End Writes.

(** What is known of the commands and the keys of a client. *)
Create HintDb moves.

(** Walk a script, command by command. *)
Ltac preorders := intros ?; typeclasses eauto.
Ltac move_one :=
  first
    [ apply moves_mret | apply moves_error | apply moves_need | apply moves_reads
    | apply moves_texts_insert; solve [auto with moves] | apply moves_texts_delete; solve [auto with moves]
    | apply moves_hashes_insert; solve [auto with moves] | apply moves_hashes_delete; solve [auto with moves]
    | apply moves_texts_hashes | apply moves_texts_sets | apply moves_texts_sorted
    | apply moves_hashes_texts | apply moves_hashes_sets | apply moves_hashes_sorted
    | apply moves_SET_NX; solve [auto with moves] ];
  try preorders.
Ltac moves :=
  repeat lazymatch goal with
  | |- moves _ _ (mbind _ _) => apply moves_bind; [preorders| |intros ?]
  | |- moves _ _ (redis_for _ _ _) => apply moves_for; [preorders|intros ? ?]
  | |- moves _ _ (match ?x with _ => _ end) => destruct x
  | |- moves _ _ (let '_ := ?x in _) => destruct x
  | |- moves _ _ _ => first [move_one | progress (unfold GET, MGET, SET_PX, SET_KEEPTTL, DEL_text, PEXPIRE_text, HGET,
      HGETALL, HSET, DEL_hash, PEXPIRE_hash, EXISTS_hash, HINCR, SADD, SREM, SMEMBERS, EXPIRE_set, ZADD, ZREM,
      ZRANGEBYSCORE, TIME)]
  end.
