(* ===== verification/RedisStore.v ===== *)
(** * RedisStore: the server's operation store
    ([src/src/app/user_operation_store.rs])

    Each Lua script is a program over the keyspace of [Redis], run at once; each
    function of the store is a program that awaits one command after another,
    between which anything may happen to the keyspace.  cjson, which a script
    reads and writes a record with, is the class [LuaJson]. *)

From S2P Require Export Redis Lifecycle Hold Io.
From S2P Require RecordDo.
#[local] Open Scope string_scope.
#[local] Open Scope list_scope.
#[local] Open Scope Z_scope.

(** What cjson keeps of a value it decodes and encodes again: an object keeps
    its fields, each by the same rule, and strings and booleans are kept.  (A
    number is a double with fourteen digits, and an empty array becomes an
    object.) *)
Class LuaJson := {
  lua_json : Value → Value;
  lua_object o : ∃ o', lua_json (VObject o) = VObject o' ∧ ∀ k, obj_get k o' = lua_json <$> obj_get k o;
  lua_string s : lua_json (VString s) = VString s;
  lua_bool b : lua_json (VBool b) = VBool b }.

(** ** Keys *)

Definition USER_OPERATION_TTL_SECS : Z := 60 * 60.
Definition STATUS_KEY_PREFIX : string := "vela:relay:user-operation:".
Definition BUNDLE_KEY_PREFIX : string := "vela:relay:user-operation-bundle:".
Definition LEASE_KEY_PREFIX : string := "vela:relay:lease:".
Definition PREPARED_BUNDLE_KEY_PREFIX : string := "vela:relay:prepared-bundle:".
Definition PREPARED_BUNDLE_INDEX_KEY : string := "vela:relay:prepared-bundle-index".
Definition PREPARED_FUNDING_KEY_PREFIX : string := "vela:relay:prepared-funding:".
Definition PREPARED_SIMULATION_DEPLOYMENT_KEY_PREFIX : string := "vela:relay:prepared-simulation-deployment:".
Definition MALFORMED_DEAD_LETTER_KEY_PREFIX : string := "vela:relay:malformed-dead-letter:".
Definition DELAYED_OPERATION_PAYLOAD_KEY_PREFIX : string := "vela:relay:delayed-user-operation-payload:".
Definition DELAYED_OPERATION_KEY_PREFIX : string := "vela:relay:delayed-user-operation:".
Definition DELAYED_OPERATION_CLAIM_KEY_PREFIX : string := "vela:relay:delayed-user-operation-claim:".
Definition EXECUTOR_ALERT_KEY_PREFIX : string := "vela:relay:executor-alert:".
Definition DELAYED_OPERATION_SCHEDULE_KEY : string := "vela:relay:delayed-user-operation-schedule".
Definition NONCE_SLOT_KEY_PREFIX : string := "vela:relay:nonce-slot:".

Definition nonce_slot_key (slot : NonceSlot) : string := NONCE_SLOT_KEY_PREFIX +:+ slot_key slot.
Definition status_key (hash : string) : string := STATUS_KEY_PREFIX +:+ hash.
Definition bundle_key (chain_id : Z) (hash : string) : string :=
  BUNDLE_KEY_PREFIX +:+ dec chain_id +:+ ":" +:+ hash.
Definition lease_key (scope : string) : string := LEASE_KEY_PREFIX +:+ scope.
Definition prepared_bundle_key (chain_id lane : Z) : string :=
  PREPARED_BUNDLE_KEY_PREFIX +:+ dec chain_id +:+ ":" +:+ dec lane.
Definition prepared_funding_key (chain_id : Z) : string := PREPARED_FUNDING_KEY_PREFIX +:+ dec chain_id.
Definition prepared_simulation_deployment_key (chain_id : Z) : string :=
  PREPARED_SIMULATION_DEPLOYMENT_KEY_PREFIX +:+ dec chain_id.
Definition malformed_dead_letter_key (chain_id partition_id offset : Z) : string :=
  MALFORMED_DEAD_LETTER_KEY_PREFIX +:+ dec chain_id +:+ ":" +:+ dec partition_id +:+ ":" +:+ dec offset.
Definition delayed_operation_payload_key (hash : string) : string :=
  DELAYED_OPERATION_PAYLOAD_KEY_PREFIX +:+ to_ascii_lowercase hash.
Definition delayed_operation_key (identifier : string) : string := DELAYED_OPERATION_KEY_PREFIX +:+ identifier.
Definition delayed_operation_claim_key (identifier : string) : string :=
  DELAYED_OPERATION_CLAIM_KEY_PREFIX +:+ identifier.
Definition executor_alert_key (fingerprint : string) : string := EXECUTOR_ALERT_KEY_PREFIX +:+ fingerprint.

(** ** The scripts *)

(** Two texts the scripts compare in lower case. *)
Definition lower_equal (a b : string) : bool := String.eqb (to_ascii_lowercase a) (to_ascii_lowercase b).

Definition raw_text (value : Bulk) : option string := match value with Raw text => Some text | Json _ => None end.

Definition slot_fields (hash : string) (claimed_at_ms : Z) : list (string * Bulk) :=
  [("userOperationHash", Raw hash); ("claimedAtMs", Raw (dec claimed_at_ms))].

(** The slot's [claimedAtMs], or '0'. *)
Definition slot_claimed_at (key : string) : redis string :=
  claimed_at ← HGET key "claimedAtMs"; mret (default "0" (claimed_at ← claimed_at; raw_text claimed_at)).

Definition take_slot (key hash : string) (claimed_at_ms ttl : Z) : redis (Z * string * string) :=
  _ ← HSET key (slot_fields hash claimed_at_ms);
  _ ← PEXPIRE_hash key ttl;
  mret (1, hash, dec claimed_at_ms).

Definition CLAIM_NONCE_SLOT_SCRIPT (key hash : string) (claimed_at_ms ttl : Z) : redis (Z * string * string) :=
  current ← HGET key "userOperationHash";
  match current ≫= raw_text with
  | None => take_slot key hash claimed_at_ms ttl
  | Some current =>
      claimed_at ← slot_claimed_at key;
      mret (if lower_equal current hash then (2, current, claimed_at) else (0, current, claimed_at))
  end.

Definition TAKE_OVER_NONCE_SLOT_SCRIPT (key hash : string) (claimed_at_ms ttl : Z) (judged : string) :
    redis (Z * string * string) :=
  let take := _ ← DEL_hash key; take_slot key hash claimed_at_ms ttl in
  current ← HGET key "userOperationHash";
  match current ≫= raw_text with
  | None => take
  | Some current =>
      claimed_at ← slot_claimed_at key;
      if lower_equal current hash then mret (2, current, claimed_at)
      else if negb (lower_equal current judged) then mret (0, current, claimed_at)
      else take
  end.

Definition RELEASE_NONCE_SLOT_SCRIPT (key hash : string) : redis Z :=
  current ← HGET key "userOperationHash";
  match current ≫= raw_text with
  | Some current =>
      if lower_equal current hash then _ ← DEL_hash key; mret 1 else mret 0
  | None => mret 0
  end.

(** [cjson.decode]: a text that is not JSON ends the script. *)
Definition cjson_decode (raw : Bulk) : redis Value :=
  match raw with Json value => mret value | Raw _ => redis_error end.

(** [record[field]] is this text. *)
Definition lua_field_is (record : Value) (field text : string) : bool :=
  bool_decide (get field record = Some (VString text)).

Section Scripts.
Context `{LJ : LuaJson}.

(** [record[key] = value] for every field of the patch, and [cjson.encode]. *)
Definition lua_merge (patch record : Value) : redis Bulk :=
  record ← need (as_object record); patch ← need (as_object patch);
  mret (Json (lua_json (VObject (RecordDo.merge_patch patch record)))).

Definition PATCH_RECORD_SCRIPT (key : string) (patch : Value) (observed : string) : redis Z :=
  raw ← GET key;
  match raw with
  | None => mret 0
  | Some raw =>
      record ← cjson_decode raw;
      if negb (lua_field_is record "status" observed) then mret (-1)
      else
        merged ← lua_merge patch record;
        _ ← SET_KEEPTTL key merged;
        mret 1
  end.

Inductive MemberKind : Type := KindTransition | KindIndex.

Definition submitted_patch (transaction_hash : string) : Value :=
  VObject [("status", VString "submitted"); ("transactionHash", VString transaction_hash);
           ("admitted", VBool true)].

(** One member of [MARK_BUNDLE_SUBMITTED_SCRIPT]: whether it is indexed. *)
Definition mark_member (transaction_hash key : string) (kind : MemberKind) (observed : string) : redis bool :=
  raw ← GET key;
  match raw with
  | None => mret false
  | Some raw =>
      record ← cjson_decode raw;
      match kind with
      | KindTransition =>
          if lua_field_is record "status" observed then
            merged ← lua_merge (submitted_patch transaction_hash) record;
            _ ← SET_KEEPTTL key merged;
            mret true
          else mret false
      | KindIndex =>
          mret (lua_field_is record "status" observed && lua_field_is record "transactionHash" transaction_hash)
      end
  end.

(** The members are key, kind, observed status and hash. *)
Definition MARK_BUNDLE_SUBMITTED_SCRIPT (index transaction_hash : string) (ttl_secs : Z)
    (members : list (string * MemberKind * string * string)) : redis (list string) :=
  indexed ← redis_for (λ '(key, kind, observed, hash) indexed,
      applied ← mark_member transaction_hash key kind observed;
      if applied : bool then _ ← SADD index hash; mret (indexed ++ [hash]) else mret indexed)
    members [];
  _ ← match indexed with [] => mret () | _ => EXPIRE_set index (ttl_secs * 1000) end;
  mret indexed.
End Scripts.

Definition RENEW_LEASE_SCRIPT (key token : string) (ttl : Z) : redis Z :=
  held ← GET key;
  if negb (bool_decide (held = Some (Raw token))) then mret 0 else PEXPIRE_text key ttl.

(** [RELEASE_LEASE_SCRIPT] and [RELEASE_EXECUTOR_ALERT_SCRIPT] *)
Definition RELEASE_LEASE_SCRIPT (key token : string) : redis Z :=
  held ← GET key;
  if negb (bool_decide (held = Some (Raw token))) then mret 0 else DEL_text key.

Definition SAVE_PREPARED_BUNDLE_SCRIPT (key index : string) (payload : Value) : redis Z :=
  stored ← SET_NX key (Json payload) None;
  if stored : bool then _ ← SADD index key; mret 1 else mret 0.

Definition CLEAR_PREPARED_BUNDLE_SCRIPT (key index transaction_hash : string) : redis Z :=
  raw ← GET key;
  match raw with
  | None => _ ← SREM index key; mret 0
  | Some raw =>
      intent ← cjson_decode raw;
      if negb (lua_field_is intent "transactionHash" transaction_hash) then mret 0
      else
        deleted ← DEL_text key;
        _ ← SREM index key;
        mret deleted
  end.

Definition LIST_PREPARED_BUNDLES_SCRIPT (index : string) : redis (list (string * Bulk)) :=
  members ← SMEMBERS index;
  redis_for (λ key result,
      raw ← GET key;
      match raw with
      | Some raw => mret (result ++ [(key, raw)])
      | None => _ ← SREM index key; mret result
      end)
    members [].

(** [CLEAR_PREPARED_FUNDING_SCRIPT] and [CLEAR_PREPARED_SIMULATION_DEPLOYMENT_SCRIPT] *)
Definition CLEAR_PREPARED_FUNDING_SCRIPT (key transaction_hash : string) : redis Z :=
  raw ← GET key;
  match raw with
  | None => mret 0
  | Some raw =>
      intent ← cjson_decode raw;
      if negb (lua_field_is intent "transactionHash" transaction_hash) then mret 0 else DEL_text key
  end.

(** [SAVE_PREPARED_FUNDING_SCRIPT] and [SAVE_PREPARED_SIMULATION_DEPLOYMENT_SCRIPT] *)
Definition SAVE_PREPARED_FUNDING_SCRIPT (key : string) (payload : Value) : redis Z :=
  saved ← SET_NX key (Json payload) None; mret (if saved : bool then 1 else 0).

(** *** The delayed inbox *)

(** The delay of an attempt in the schedule: ARGV[5 + math.min(attempts, slots)]. *)
Definition scheduled_delay (schedule : list Z) (attempts : Z) : option Z :=
  schedule !! Z.to_nat (Z.min attempts (Z.of_nat (length schedule)) - 1).

(** The next attempt's time, written to the item and the schedule. *)
Definition schedule_attempt (item schedule_key identifier : string) (ttl : Z) (schedule : list Z) : redis Z :=
  attempts ← HINCR item "attempts";
  delay ← need (scheduled_delay schedule attempts);
  now ← TIME;
  let due := now + delay in
  _ ← HSET item [("nextAttemptAtMs", Raw (dec due))];
  _ ← PEXPIRE_hash item ttl;
  _ ← ZADD schedule_key due identifier;
  mret attempts.

(** The canonical payload is stored, or kept for longer. *)
Definition keep_canonical (payload_key : string) (canonical : option Bulk) (payload : Value) (ttl : Z) : redis () :=
  match canonical with
  | None => SET_PX payload_key (Json payload) ttl
  | Some _ => _ ← PEXPIRE_text payload_key ttl; mret ()
  end.

Definition conflicts (held : option Bulk) (payload : Value) : bool :=
  match held with Some held => negb (bool_decide (held = Json payload)) | None => false end.

Definition SAVE_DELAYED_OPERATION_SCRIPT (payload_key item schedule_key claim : string)
    (canonical_payload payload : Value) (identifier : string) (ttl : Z) (schedule : list Z) : redis Z :=
  canonical ← GET payload_key;
  existing ← HGET item "payload";
  if conflicts canonical canonical_payload || conflicts existing payload then mret (-1)
  else
    _ ← keep_canonical payload_key canonical canonical_payload ttl;
    _ ← match existing with
        | None => HSET item [("payload", Json payload); ("attempts", Raw "0")]
        | Some _ => mret ()
        end;
    attempts ← schedule_attempt item schedule_key identifier ttl schedule;
    _ ← DEL_text claim;
    mret attempts.

Definition CLAIM_DELAYED_OPERATIONS_SCRIPT (schedule_key token : string) (limit : nat)
    (item_prefix claim_prefix : string) (claim_ttl : Z) : redis (list (string * Bulk)) :=
  now ← TIME;
  identifiers ← ZRANGEBYSCORE schedule_key now limit;
  redis_for (λ identifier claimed,
      payload ← HGET (item_prefix +:+ identifier) "payload";
      match payload with
      | None => _ ← ZREM schedule_key identifier; mret claimed
      | Some payload =>
          acquired ← SET_NX (claim_prefix +:+ identifier) (Raw token) (Some claim_ttl);
          if acquired : bool then
            _ ← ZADD schedule_key (now + claim_ttl) identifier;
            mret (claimed ++ [(identifier, payload)])
          else mret claimed
      end)
    identifiers [].

Definition COMPLETE_DELAYED_OPERATION_SCRIPT (item schedule_key claim token identifier : string) : redis Z :=
  held ← GET claim;
  if negb (bool_decide (held = Some (Raw token))) then mret 0
  else
    _ ← DEL_text claim;
    _ ← DEL_hash item;
    _ ← ZREM schedule_key identifier;
    mret 1.

Definition RETRY_DELAYED_OPERATION_SCRIPT (item schedule_key claim payload_key token identifier : string)
    (ttl : Z) (canonical_payload : Value) (schedule : list Z) : redis Z :=
  held ← GET claim;
  if negb (bool_decide (held = Some (Raw token))) then mret 0
  else
    exists_item ← EXISTS_hash item;
    if exists_item =? 0 then
      _ ← DEL_text claim;
      _ ← ZREM schedule_key identifier;
      mret (-1)
    else
      canonical ← GET payload_key;
      if conflicts canonical canonical_payload then mret (-2)
      else
        _ ← keep_canonical payload_key canonical canonical_payload ttl;
        attempts ← schedule_attempt item schedule_key identifier ttl schedule;
        _ ← DEL_text claim;
        mret attempts.

(** ** The store's functions *)

Definition StoreError : Type := string.

(** One command to the server, or why there is no reply: [query] may time out
    before or after the command has run. *)
Inductive StoreCall : Type → Type :=
  | Query {R : Type} (command : redis R) : StoreCall (result StoreError R)
  | SystemMs : StoreCall Z.

Abbreviation store A := (io StoreCall (result StoreError A)).

Definition query {R} (command : redis R) : store R := perform (Query command).
Definition refuse_store {A} (message : string) : store A := mret (Err message).
Definition answered_by {A B} (f : A → result StoreError B) (m : store A) : store B := a ←? m; mret (f a).

(** [duration_millis], of a duration in milliseconds. *)
Definition duration_millis (ttl : Z) : result StoreError Z :=
  if decide (2 ^ 63 ≤ ttl) then Err "Redis TTL is too large"
  else if decide (ttl = 0) then Err "Redis TTL must be at least one millisecond"
  else Ok ttl.

Definition with_millis {A} (ttl : Z) (k : Z → store A) : store A :=
  match duration_millis ttl with Ok ttl => k ttl | Err e => mret (Err e) end.

Definition validate_lease_identity (scope token : string) : result StoreError () :=
  if String.eqb scope "" then Err "Redis lease scope must not be empty"
  else if String.eqb token "" then Err "Redis lease token must not be empty"
  else Ok ().

(** *** Records *)

Definition de_record (v : Value) : option StoredUserOperation := o ← as_object v; de_record_fields o.

Definition INVALID_STATUS : string := "stored UserOperation status is invalid".

Definition read_stored (payload : option Bulk) : result StoreError (option StoredUserOperation) :=
  match payload with
  | None => Ok None
  | Some (Json v) => record ← ok_or (de_record v) INVALID_STATUS; Ok (Some record)
  | Some (Raw _) => Err INVALID_STATUS
  end.

Definition create_queued_with_admission (operation : QueuedUserOperation) (admitted : bool) : store bool :=
  query (SET_NX (status_key (q_user_operation_hash operation))
           (Json (VObject (record_fields (queued_record operation admitted))))
           (Some (USER_OPERATION_TTL_SECS * 1000))).
Definition create_queued (operation : QueuedUserOperation) : store bool :=
  create_queued_with_admission operation false.
Definition restore_queued_from_durable_payload (operation : QueuedUserOperation) : store bool :=
  create_queued_with_admission operation true.

Definition get_stored (hash : string) : store (option StoredUserOperation) :=
  answered_by read_stored (query (GET (status_key hash))).

(** [collect::<Result<Vec<_>, _>>()] *)
Fixpoint all_ok {A B} (f : A → result StoreError B) (l : list A) : result StoreError (list B) :=
  match l with
  | [] => Ok []
  | a :: l => b ← f a; bs ← all_ok f l; Ok (b :: bs)
  end.

Definition get_many (hashes : list string) : store (list (option StoredUserOperation)) :=
  match hashes with
  | [] => mret (Ok [])
  | _ => answered_by (all_ok read_stored) (query (MGET (map status_key hashes)))
  end.

Definition LIFECYCLE_GUARD_ATTEMPTS : nat := 4.

Definition parse_stored_status (record : Value) : option (string * UserOperationStatus) :=
  wire ← (v ← get "status" record; as_str v);
  kind ← de_status (VString wire);
  Some (wire, kind).

Section Guarded.
Context `{LJ : LuaJson}.

(** One round of [patch]: what ends the loop, or another round. *)
Definition patch_round (hash : string) (patch : Value) (requested : option UserOperationStatus) (_ : nat) (_ : ()) :
    io StoreCall (() + result StoreError bool) :=
  raw ← query (GET (status_key hash));
  match raw with
  | Err e => mret (inr (Err e))
  | Ok None => mret (inr (Ok false))
  | Ok (Some (Raw _)) => mret (inr (Err "could not parse stored UserOperation record"))
  | Ok (Some (Json record)) =>
      match parse_stored_status record with
      | None =>
          mret (inr (match requested with
                     | Some _ => Ok false
                     | None => Err "could not parse stored UserOperation status"
                     end))
      | Some (current_wire, current) =>
          match decide_patch current requested with
          | RefuseIllegalTransition => mret (inr (Ok false))
          | Apply =>
              updated ← query (PATCH_RECORD_SCRIPT (status_key hash) patch current_wire);
              mret (match updated with
                    | Err e => inr (Err e)
                    | Ok 1 => inr (Ok true)
                    | Ok 0 => inr (Ok false)
                    | Ok _ => inl ()
                    end)
          end
      end
  end.

Definition requested_status (patch : Value) : result StoreError (option UserOperationStatus) :=
  match get "status" patch with
  | None => Ok None
  | Some value => status ← ok_or (de_status value) "could not parse patch status"; Ok (Some status)
  end.

Definition patch_stored (hash : string) (patch : Value) : store bool :=
  match requested_status patch with
  | Err e => mret (Err e)
  | Ok requested =>
      io_for (patch_round hash patch requested) (seq 0 LIFECYCLE_GUARD_ATTEMPTS) ()
        (λ _, refuse_store "UserOperation status kept changing while patching")
  end.

Definition mark_admitted (hash : string) : store bool :=
  patch_stored hash (VObject [("admitted", VBool true)]).

(** A member the core decided to touch: hash, kind and observed status. *)
Definition plan_member (chain_id : Z) (transaction_hash : string) (member : string * option Bulk) :
    result StoreError (list (string * MemberKind * string)) :=
  match member.2 with
  | None => Ok []
  | Some (Raw _) => Err "could not parse stored UserOperation record"
  | Some (Json record) =>
      match parse_stored_status record with
      | None => Ok []
      | Some (observed, status) =>
          Ok match decide_bundle_submission status (v ← get "transactionHash" record; as_str v)
                     (default 0 (v ← get "chainId" record; as_uint 64 v))
                     (default "" (v ← get "chainIdText" record; as_str v)) chain_id transaction_hash with
             | Transition => [(member.1, KindTransition, observed)]
             | IndexOnly => [(member.1, KindIndex, observed)]
             | Skip => []
             end
      end
  end.

Definition plan_members (chain_id : Z) (transaction_hash : string) (hashes : list string) (raws : list (option Bulk)) :
    result StoreError (list (string * MemberKind * string)) :=
  planned ← all_ok (plan_member chain_id transaction_hash) (zip hashes raws);
  Ok (@List.concat (string * MemberKind * string) planned).

Definition apply_members (chain_id : Z) (transaction_hash : string) (planned : list (string * MemberKind * string)) :
    store (list string) :=
  query (MARK_BUNDLE_SUBMITTED_SCRIPT (bundle_key chain_id transaction_hash) transaction_hash USER_OPERATION_TTL_SECS
           (map (λ '(hash, kind, observed), (status_key hash, kind, observed, hash)) planned)).

(** One round: the hashes that remain and how many are indexed. *)
Definition mark_round (chain_id : Z) (transaction_hash : string) (_ : nat) (s : list string * nat) :
    io StoreCall (list string * nat + result StoreError nat) :=
  let '(remaining, indexed_total) := s in
  match remaining with
  | [] => mret (inr (Ok indexed_total))
  | _ =>
      raws ← query (MGET (map status_key remaining));
      match (raws ← raws; plan_members chain_id transaction_hash remaining raws) with
      | Err e => mret (inr (Err e))
      | Ok [] => mret (inr (Ok indexed_total))
      | Ok planned =>
          applied ← apply_members chain_id transaction_hash planned;
          mret (match applied with
                | Err e => inr (Err e)
                | Ok applied =>
                    let indexed_total := (indexed_total + length applied)%nat in
                    if decide (length applied = length planned) then inr (Ok indexed_total)
                    else inl (filter (λ hash, hash ∉ applied) (map (λ p, p.1.1) planned), indexed_total)
                end)
      end
  end.

(** [collect::<BTreeSet<_>>()] *)
Definition sorted_set (l : list string) : list string := map fst (foldl (λ m h, btree_insert h () m) [] l).

Definition mark_bundle_submitted (chain_id : Z) (transaction_hash : string) (hashes : list string) : store nat :=
  match hashes with
  | [] => mret (Ok 0%nat)
  | _ =>
      io_for (mark_round chain_id transaction_hash) (seq 0 LIFECYCLE_GUARD_ATTEMPTS) (sorted_set hashes, 0%nat)
        (λ s, mret (Ok s.2))
  end.

Definition receipt_patch (status : UserOperationStatus) (transaction_hash : string) (receipt : Value)
    (event : option UserOperationEvent) : Value :=
  VObject ([("status", VString (status_name status)); ("transactionHash", VString transaction_hash);
            ("admitted", VBool true); ("receipt", receipt);
            ("blockHash", default VNull (get "blockHash" receipt));
            ("blockNumber", default VNull (get "blockNumber" receipt))]
           ++ match event with Some event => [("event", ser_event event)] | None => [] end).

Definition bundle_hashes (chain_id : Z) (transaction_hash : string) : store (list string) :=
  query (SMEMBERS (bundle_key chain_id transaction_hash)).

(** Every member of a bundle is patched. *)
Definition patch_members (chain_id : Z) (transaction_hash : string) (patch : string → Value) : store () :=
  hashes ←? bundle_hashes chain_id transaction_hash;
  io_each (λ hash _, _ ←? patch_stored hash (patch hash); mret (Ok ())) hashes ().

Definition mark_bundle_failed (chain_id : Z) (transaction_hash : string) (receipt : Value) : store () :=
  patch_members chain_id transaction_hash (λ _, receipt_patch Failed transaction_hash receipt None).

Definition mark_handle_ops_failed (hashes : list string) : store () :=
  io_each (λ hash _, _ ←? patch_stored hash (VObject [("status", VString (status_name Failed)); ("admitted", VBool true)]);
                     mret (Ok ())) hashes ().

(** [partition_bundle_events]: the last event of a member; the events outside
    are only logged. *)
Definition bundle_event (events : list UserOperationEvent) (hash : string) : option UserOperationEvent :=
  List.last (map Some (List.filter (λ e, String.eqb (ev_user_operation_hash e) hash) events)) None.

Definition confirmed_patch (transaction_hash : string) (receipt : Value) (events : list UserOperationEvent)
    (hash : string) : Value :=
  let event := bundle_event events hash in
  let status := if match event with Some event => ev_success event | None => false end then Included else Rejected in
  receipt_patch status transaction_hash receipt event.

Definition mark_bundle_confirmed (chain_id : Z) (transaction_hash : string) (receipt : Value)
    (events : list UserOperationEvent) : store () :=
  patch_members chain_id transaction_hash (confirmed_patch transaction_hash receipt events).

Definition diagnostic_fields (stage reason : string) (attempted_at_ms : Z) : obj :=
  [("lastExecutorStage", VString (truncate_diagnostic stage 64));
   ("lastExecutorError", VString (truncate_diagnostic reason 512));
   ("lastExecutorAttemptAtMs", VNumber attempted_at_ms)].

Definition mark_rejected_with_executor_reason (hash stage reason : string) (code : RejectionReason) : store bool :=
  attempted_at_ms ← perform SystemMs;
  patch_stored hash (VObject ([("status", VString (status_name Rejected)); ("admitted", VBool true)]
    ++ diagnostic_fields stage reason attempted_at_ms ++ [("rejectionReason", VString (as_reason_str code))])).

Definition mark_not_submitted (hash : string) : store bool :=
  patch_stored hash (VObject [("status", VString (status_name NotSubmitted)); ("admitted", VBool true)]).

Definition record_executor_deferred (hash stage reason : string) : store bool :=
  attempted_at_ms ← perform SystemMs;
  patch_stored hash (VObject (diagnostic_fields stage reason attempted_at_ms)).
End Guarded.
