(* ===== verification/RedisInbox.v ===== *)
(** * RedisInbox: leases, outboxes, nonce slots and the delayed inbox of the
    server's store ([src/src/app/user_operation_store.rs]) *)

From S2P Require Export RedisStore JsonRpc Treasury.
From S2P Require TreasuryDo.
#[local] Open Scope string_scope.
#[local] Open Scope list_scope.
#[local] Open Scope Z_scope.

(** Whether a script replied 1. *)
Definition replied_one (m : store Z) : store bool := answered_by (λ reply, Ok (reply =? 1)) m.

Definition validated {A} (r : result StoreError ()) (k : store A) : store A :=
  match r with Ok _ => k | Err e => mret (Err e) end.

(** ** Leases *)

Definition acquire_lease (scope token : string) (ttl : Z) : store bool :=
  validated (validate_lease_identity scope token)
    (with_millis ttl (λ ttl, query (SET_NX (lease_key scope) (Raw token) (Some ttl)))).
Definition renew_lease (scope token : string) (ttl : Z) : store bool :=
  validated (validate_lease_identity scope token)
    (with_millis ttl (λ ttl, replied_one (query (RENEW_LEASE_SCRIPT (lease_key scope) token ttl)))).
Definition release_lease (scope token : string) : store bool :=
  validated (validate_lease_identity scope token)
    (replied_one (query (RELEASE_LEASE_SCRIPT (lease_key scope) token))).

(** ** Outboxes *)

Definition ser_bundle_intent (i : PreparedBundleIntent) : Value :=
  VObject ([("chainId", VNumber (bi_chain_id i)); ("lane", VNumber (bi_lane i));
            ("entryPoint", VString (bi_entry_point i)); ("rawTransaction", VString (bi_raw_transaction i));
            ("transactionHash", VString (bi_transaction_hash i)); ("nonce", VNumber (bi_nonce i));
            ("userOperationHashes", VArray (map VString (bi_user_operation_hashes i)))]
           ++ ser_skip "billedGas" VString (bi_billed_gas i)
           ++ ser_skip "billedFeePerGas" VString (bi_billed_fee_per_gas i)).

Definition de_texts (v : Value) : option (list string) := l ← as_array v; mapM as_str l.

Definition bundle_intent_fields : list string :=
  ["chainId"; "lane"; "entryPoint"; "rawTransaction"; "transactionHash"; "nonce"; "userOperationHashes";
   "billedGas"; "billedFeePerGas"].
Definition de_bundle_intent (v : Value) : option PreparedBundleIntent :=
  o ← struct_fields bundle_intent_fields 7 v;
  chain_id ← req (as_uint 64) "chainId" o; lane ← req (as_uint 8) "lane" o;
  entry_point ← req as_str "entryPoint" o; raw ← req as_str "rawTransaction" o;
  hash ← req as_str "transactionHash" o; nonce ← req (as_uint 64) "nonce" o;
  hashes ← req de_texts "userOperationHashes" o;
  billed_gas ← opt as_str "billedGas" o; billed_fee ← opt as_str "billedFeePerGas" o;
  Some {| bi_chain_id := chain_id; bi_lane := lane; bi_entry_point := entry_point; bi_raw_transaction := raw;
          bi_transaction_hash := hash; bi_nonce := nonce; bi_user_operation_hashes := hashes;
          bi_billed_gas := billed_gas; bi_billed_fee_per_gas := billed_fee |}.

Definition validate_prepared_bundle_intent (i : PreparedBundleIntent) : result StoreError () :=
  if String.eqb (bi_entry_point i) "" || String.eqb (bi_raw_transaction i) "" ||
     String.eqb (bi_transaction_hash i) "" || bool_decide (bi_user_operation_hashes i = [])
  then Err "prepared bundle fields must not be empty" else Ok ().
Definition validate_prepared_funding_intent (i : PreparedFundingIntent) : result StoreError () :=
  if String.eqb (fi_relayer i) "" || (fi_amount_wei i =? 0) || String.eqb (fi_raw_transaction i) "" ||
     String.eqb (fi_transaction_hash i) ""
  then Err "prepared funding fields must not be empty" else Ok ().

Definition save_prepared_bundle_intent (i : PreparedBundleIntent) : store bool :=
  validated (validate_prepared_bundle_intent i)
    (replied_one (query (SAVE_PREPARED_BUNDLE_SCRIPT (prepared_bundle_key (bi_chain_id i) (bi_lane i))
                           PREPARED_BUNDLE_INDEX_KEY (ser_bundle_intent i)))).

(** A stored intent, read and checked against its scope. *)
Definition read_intent {I} (de : Value → option I) (invalid wrong : string) (in_scope : I → result StoreError bool)
    (payload : option Bulk) : result StoreError (option I) :=
  match payload with
  | None => Ok None
  | Some (Raw _) => Err invalid
  | Some (Json v) =>
      intent ← ok_or (de v) invalid;
      good ← in_scope intent;
      if good : bool then Ok (Some intent) else Err wrong
  end.

Definition get_prepared_bundle_intent (chain_id lane : Z) : store (option PreparedBundleIntent) :=
  answered_by (read_intent de_bundle_intent "stored prepared bundle is invalid"
                 "stored prepared bundle has the wrong scope"
                 (λ i, Ok (bool_decide (bi_chain_id i = chain_id ∧ bi_lane i = lane))))
    (query (GET (prepared_bundle_key chain_id lane))).
Definition clear_prepared_bundle_intent (chain_id lane : Z) (transaction_hash : string) : store bool :=
  replied_one (query (CLEAR_PREPARED_BUNDLE_SCRIPT (prepared_bundle_key chain_id lane) PREPARED_BUNDLE_INDEX_KEY
                        transaction_hash)).

Definition indexed_intent (entry : string * Bulk) : result StoreError PreparedBundleIntent :=
  intent ← ok_or (match entry.2 with Json v => de_bundle_intent v | Raw _ => None end)
             "stored prepared bundle is invalid";
  if String.eqb (prepared_bundle_key (bi_chain_id intent) (bi_lane intent)) entry.1 then Ok intent
  else Err "stored prepared bundle has the wrong scope".

Definition intent_le (a b : PreparedBundleIntent) : Prop :=
  bi_chain_id a < bi_chain_id b ∨
  bi_chain_id a = bi_chain_id b ∧ (bi_lane a < bi_lane b ∨ bi_lane a = bi_lane b ∧ bi_nonce a ≤ bi_nonce b).
#[export] Instance intent_le_dec : RelDecision intent_le.
Proof. unfold intent_le. intros a b. apply _. Defined.

Definition list_prepared_bundle_intents : store (list PreparedBundleIntent) :=
  answered_by (λ entries, intents ← all_ok indexed_intent entries; Ok (merge_sort intent_le intents))
    (query (LIST_PREPARED_BUNDLES_SCRIPT PREPARED_BUNDLE_INDEX_KEY)).

Definition save_prepared_funding_intent (i : PreparedFundingIntent) : store bool :=
  validated (validate_prepared_funding_intent i)
    (replied_one (query (SAVE_PREPARED_FUNDING_SCRIPT (prepared_funding_key (fi_chain_id i))
                           (TreasuryDo.ser_funding i)))).
Definition get_prepared_funding_intent (chain_id : Z) : store (option PreparedFundingIntent) :=
  answered_by (read_intent TreasuryDo.de_funding "stored prepared funding is invalid"
                 "stored prepared funding has the wrong chain" (λ i, Ok (bool_decide (fi_chain_id i = chain_id))))
    (query (GET (prepared_funding_key chain_id))).
Definition clear_prepared_funding_intent (chain_id : Z) (transaction_hash : string) : store bool :=
  replied_one (query (CLEAR_PREPARED_FUNDING_SCRIPT (prepared_funding_key chain_id) transaction_hash)).

(** A signed deployment of the simulation contracts. *)
Record PreparedSimulationDeploymentIntent : Type := {
  si_chain_id : Z; si_contract : string; si_contract_address : string; si_raw_transaction : string;
  si_transaction_hash : string; si_nonce : Z }.

Definition deployment_fields : list string :=
  ["chainId"; "contract"; "contractAddress"; "rawTransaction"; "transactionHash"; "nonce"].
Definition ser_deployment (i : PreparedSimulationDeploymentIntent) : Value :=
  VObject [("chainId", VNumber (si_chain_id i)); ("contract", VString (si_contract i));
           ("contractAddress", VString (si_contract_address i)); ("rawTransaction", VString (si_raw_transaction i));
           ("transactionHash", VString (si_transaction_hash i)); ("nonce", VNumber (si_nonce i))].
Definition de_deployment (v : Value) : option PreparedSimulationDeploymentIntent :=
  o ← struct_fields deployment_fields 6 v;
  chain_id ← req (as_uint 64) "chainId" o; contract ← req as_str "contract" o;
  address ← req as_str "contractAddress" o; raw ← req as_str "rawTransaction" o;
  hash ← req as_str "transactionHash" o; nonce ← req (as_uint 64) "nonce" o;
  Some {| si_chain_id := chain_id; si_contract := contract; si_contract_address := address;
          si_raw_transaction := raw; si_transaction_hash := hash; si_nonce := nonce |}.

Definition validate_prepared_simulation_deployment_intent (i : PreparedSimulationDeploymentIntent) :
    result StoreError () :=
  if String.eqb (si_contract i) "" || String.eqb (si_contract_address i) "" ||
     String.eqb (si_raw_transaction i) "" || String.eqb (si_transaction_hash i) ""
  then Err "prepared simulation deployment fields must not be empty" else Ok ().

Definition save_prepared_simulation_deployment_intent (i : PreparedSimulationDeploymentIntent) : store bool :=
  validated (validate_prepared_simulation_deployment_intent i)
    (replied_one (query (SAVE_PREPARED_FUNDING_SCRIPT (prepared_simulation_deployment_key (si_chain_id i))
                           (ser_deployment i)))).
Definition get_prepared_simulation_deployment_intent (chain_id : Z) :
    store (option PreparedSimulationDeploymentIntent) :=
  answered_by (read_intent de_deployment "stored simulation deployment is invalid"
                 "stored simulation deployment has the wrong chain"
                 (λ i, _ ← validate_prepared_simulation_deployment_intent i;
                       Ok (bool_decide (si_chain_id i = chain_id))))
    (query (GET (prepared_simulation_deployment_key chain_id))).
Definition clear_prepared_simulation_deployment_intent (chain_id : Z) (transaction_hash : string) : store bool :=
  replied_one (query (CLEAR_PREPARED_FUNDING_SCRIPT (prepared_simulation_deployment_key chain_id)
                        transaction_hash)).

(** ** Nonce slots *)

Definition nonce_claim_reply (reply : Z * string * string) : result StoreError NonceClaim :=
  let '(code, hash, claimed_at_ms) := reply in
  if code =? 1 then Ok (Claimed true)
  else if code =? 2 then Ok (Claimed false)
  else if code =? 0 then
    Ok (Held {| nh_user_operation_hash := hash; nh_claimed_at_ms := default 0 (ok (parse_uint 64 claimed_at_ms)) |})
  else Err "nonce slot script returned an unknown reply".

Definition claim_nonce_slot (slot : NonceSlot) (holder : NonceHolder) : store NonceClaim :=
  answered_by nonce_claim_reply
    (query (CLAIM_NONCE_SLOT_SCRIPT (nonce_slot_key slot) (nh_user_operation_hash holder)
              (nh_claimed_at_ms holder) SLOT_TTL_MS)).
Definition take_over_nonce_slot (slot : NonceSlot) (judged : string) (holder : NonceHolder) : store NonceClaim :=
  answered_by nonce_claim_reply
    (query (TAKE_OVER_NONCE_SLOT_SCRIPT (nonce_slot_key slot) (nh_user_operation_hash holder)
              (nh_claimed_at_ms holder) SLOT_TTL_MS judged)).
Definition release_nonce_slot (slot : NonceSlot) (hash : string) : store bool :=
  replied_one (query (RELEASE_NONCE_SLOT_SCRIPT (nonce_slot_key slot) hash)).

(** ** Alerts and dead letters *)

Definition claim_executor_alert (fingerprint token : string) (cooldown : Z) : store bool :=
  let ttl_ms := Z.max (if decide (fits 64 cooldown) then cooldown else umax 64) 1 in
  query (SET_NX (executor_alert_key fingerprint) (Raw token) (Some ttl_ms)).
Definition release_executor_alert (fingerprint token : string) : store bool :=
  replied_one (query (RELEASE_LEASE_SCRIPT (executor_alert_key fingerprint) token)).

Definition malformed_dead_letter `{Hex} (chain_id partition_id offset : Z) (payload : list byte) (reason : string)
    (user_operation_hash : option string) : Value :=
  VObject [("chainId", VNumber chain_id); ("partitionId", VNumber partition_id); ("offset", VNumber offset);
           ("payloadHex", VString ("0x" +:+ hex_encode payload)); ("reason", VString reason);
           ("userOperationHash", ser_opt VString user_operation_hash)].

Definition save_malformed_dead_letter `{Hex} (chain_id partition_id offset : Z) (payload : list byte)
    (reason : string) (user_operation_hash : option string) (ttl : Z) : store bool :=
  if String.eqb reason "" then refuse_store "malformed dead-letter reason must not be empty"
  else with_millis ttl (λ ttl,
    query (SET_NX (malformed_dead_letter_key chain_id partition_id offset)
             (Json (malformed_dead_letter chain_id partition_id offset payload reason user_operation_hash))
             (Some ttl))).

(** ** The delayed inbox *)

Record DelayedUserOperation : Type := {
  du_schema_version : Z; du_user_operation_hash : string; du_chain_id : Z; du_entry_point : string;
  du_user_operation : Value; du_sender : string; du_lane : Z; du_stream : string;
  du_partition_id : Z; du_offset : Z; du_submission_tier : option SubmissionTier }.

Definition delayed_fields : list string :=
  ["schemaVersion"; "userOperationHash"; "chainId"; "entryPoint"; "userOperation"; "sender"; "lane"; "stream";
   "partitionId"; "offset"; "submissionTier"].
Definition ser_delayed (d : DelayedUserOperation) : Value :=
  VObject ([("schemaVersion", VNumber (du_schema_version d));
            ("userOperationHash", VString (du_user_operation_hash d)); ("chainId", VNumber (du_chain_id d));
            ("entryPoint", VString (du_entry_point d)); ("userOperation", du_user_operation d);
            ("sender", VString (du_sender d)); ("lane", VNumber (du_lane d)); ("stream", VString (du_stream d));
            ("partitionId", VNumber (du_partition_id d)); ("offset", VNumber (du_offset d))]
           ++ ser_skip "submissionTier" (λ t, VString (tier_as_str t)) (du_submission_tier d)).
Definition de_delayed (v : Value) : option DelayedUserOperation :=
  o ← struct_fields delayed_fields 10 v;
  version ← req (as_uint 32) "schemaVersion" o; hash ← req as_str "userOperationHash" o;
  chain_id ← req (as_uint 64) "chainId" o; entry_point ← req as_str "entryPoint" o;
  user_operation ← req Some "userOperation" o; sender ← req as_str "sender" o;
  lane ← req (as_uint 8) "lane" o; stream ← req as_str "stream" o;
  partition_id ← req (as_uint 32) "partitionId" o; offset ← req (as_uint 64) "offset" o;
  tier ← opt de_submission_tier "submissionTier" o;
  Some {| du_schema_version := version; du_user_operation_hash := hash; du_chain_id := chain_id;
          du_entry_point := entry_point; du_user_operation := user_operation; du_sender := sender;
          du_lane := lane; du_stream := stream; du_partition_id := partition_id; du_offset := offset;
          du_submission_tier := tier |}.

Definition delayed_operation_identifier (d : DelayedUserOperation) : string :=
  dec (du_chain_id d) +:+ ":" +:+ dec (du_partition_id d) +:+ ":" +:+ dec (du_offset d) +:+ ":"
  +:+ to_ascii_lowercase (du_user_operation_hash d).

(** [json!]'s object, in the order of its keys. *)
Definition canonical_delayed_payload (d : DelayedUserOperation) : Value :=
  VObject [("chainId", VNumber (du_chain_id d)); ("entryPoint", VString (to_ascii_lowercase (du_entry_point d)));
           ("lane", VNumber (du_lane d)); ("schemaVersion", VNumber (du_schema_version d));
           ("sender", VString (to_ascii_lowercase (du_sender d))); ("userOperation", du_user_operation d);
           ("userOperationHash", VString (to_ascii_lowercase (du_user_operation_hash d)))].

Definition is_null (v : Value) : bool := match v with VNull => true | _ => false end.

Definition validate_delayed_operation (d : DelayedUserOperation) : result StoreError () :=
  if negb (du_schema_version d =? 1) || String.eqb (du_entry_point d) "" || String.eqb (du_sender d) "" ||
     is_null (du_user_operation d) || negb (String.eqb (du_stream d) ("chain-" +:+ dec (du_chain_id d)))
  then Err "delayed UserOperation envelope is invalid"
  else
    hash ← ok_or (match str_strip_prefix "0x" (du_user_operation_hash d) with
                  | Some hash => Some hash
                  | None => str_strip_prefix "0X" (du_user_operation_hash d)
                  end) "delayed UserOperation hash is invalid";
    if negb (bool_decide (String.length hash = 64%nat)) || negb (all_chars is_ascii_hexdigit hash)
    then Err "delayed UserOperation hash is invalid" else Ok ().

Definition validate_delayed_identifier (identifier : string) : result StoreError () :=
  if String.eqb identifier "" || bool_decide (192 < String.length identifier)%nat ||
     negb (all_chars (λ a, is_ascii_alphanumeric a || Ascii.eqb a ":" || Ascii.eqb a "x") identifier)
  then Err "delayed UserOperation identifier is invalid" else Ok ().

Definition defer_user_operation (d : DelayedUserOperation) (ttl : Z) : store Z :=
  validated (validate_delayed_operation d)
    (let identifier := delayed_operation_identifier d in
     with_millis ttl (λ ttl,
       answered_by
         (λ attempts,
            if decide (attempts < 0) then Err "delayed UserOperation position has a conflicting payload"
            else if decide (fits 32 attempts) then Ok attempts
            else Err "delayed UserOperation retry count overflowed")
         (query (SAVE_DELAYED_OPERATION_SCRIPT
            (delayed_operation_payload_key (du_user_operation_hash d)) (delayed_operation_key identifier)
            DELAYED_OPERATION_SCHEDULE_KEY (delayed_operation_claim_key identifier)
            (canonical_delayed_payload d) (ser_delayed d) identifier ttl retry_delay_schedule_ms)))).

Record ClaimedDelayedUserOperation : Type := { cd_identifier : string; cd_operation : DelayedUserOperation }.

(** One claimed item, read and checked against its identifier. *)
Definition claimed_item (entry : string * Bulk) : result StoreError ClaimedDelayedUserOperation :=
  _ ← validate_delayed_identifier entry.1;
  operation ← ok_or (match entry.2 with Json v => de_delayed v | Raw _ => None end)
                "stored delayed UserOperation is invalid";
  _ ← validate_delayed_operation operation;
  if String.eqb (delayed_operation_identifier operation) entry.1
  then Ok {| cd_identifier := entry.1; cd_operation := operation |}
  else Err "stored delayed UserOperation has the wrong source position".

Definition claim_due_user_operations (token : string) (limit claim_ttl : Z) :
    store (list ClaimedDelayedUserOperation) :=
  validated (validate_lease_identity "delayed-user-operation" token)
    (if decide (limit = 0) then mret (Ok [])
     else if decide (2 ^ 32 ≤ limit) then refuse_store "delayed UserOperation claim limit is too large"
     else with_millis claim_ttl (λ claim_ttl,
       answered_by (all_ok claimed_item)
         (query (CLAIM_DELAYED_OPERATIONS_SCRIPT DELAYED_OPERATION_SCHEDULE_KEY token (Z.to_nat limit)
                   DELAYED_OPERATION_KEY_PREFIX DELAYED_OPERATION_CLAIM_KEY_PREFIX claim_ttl)))).

Definition complete_delayed_user_operation (identifier token : string) : store bool :=
  validated (validate_delayed_identifier identifier)
    (validated (validate_lease_identity "delayed-user-operation" token)
      (replied_one (query (COMPLETE_DELAYED_OPERATION_SCRIPT (delayed_operation_key identifier)
         DELAYED_OPERATION_SCHEDULE_KEY (delayed_operation_claim_key identifier) token identifier)))).

Definition retry_delayed_user_operation (d : DelayedUserOperation) (token : string) (ttl : Z) : store bool :=
  let identifier := delayed_operation_identifier d in
  validated (validate_delayed_operation d)
    (validated (validate_delayed_identifier identifier)
      (validated (validate_lease_identity "delayed-user-operation" token)
        (with_millis ttl (λ ttl,
          answered_by
            (λ retried,
               if decide (retried = -2) then Err "delayed UserOperation hash has a conflicting payload"
               else Ok (bool_decide (0 < retried)))
            (query (RETRY_DELAYED_OPERATION_SCRIPT (delayed_operation_key identifier)
               DELAYED_OPERATION_SCHEDULE_KEY (delayed_operation_claim_key identifier)
               (delayed_operation_payload_key (du_user_operation_hash d)) token identifier ttl
               (canonical_delayed_payload d) retry_delay_schedule_ms)))))).
