(* ===== verification/RedisCommands.v ===== *)
(** * RedisCommands: what may reach the server

    The functions of the store, the commands they may issue after any replies,
    and the world those commands run in: a theorem about the store over all
    time is one case for each command. *)

From S2P Require Export RedisInbox.
#[local] Open Scope string_scope.
#[local] Open Scope list_scope.
#[local] Open Scope Z_scope.

(** ** Commands *)

(** A patch that the table allows from this status. *)
Definition allowed_from (current : UserOperationStatus) (patch : Value) : Prop :=
  match get "status" patch with
  | None => True
  | Some w => ∃ next, de_status w = Some next ∧ status_step current next
  end.

(** A planned member: the transition is from a status it may leave. *)
Definition member_allowed (kind : MemberKind) (observed : string) : Prop :=
  kind = KindTransition → ∃ current, de_status (VString observed) = Some current ∧ status_step current Submitted.


Section Commands.
Context `{LJ : LuaJson}.

(** Every command some function of the store issues, and what that function
    has checked before; [cleared] is the prepared bundle it may delete. *)
Inductive store_command (cleared : option (Z * Z * string)) : ∀ R : Type, redis R → Prop :=
  | c_create operation admitted :
      store_command cleared bool (SET_NX (status_key (q_user_operation_hash operation))
        (Json (VObject (record_fields (queued_record operation admitted)))) (Some (USER_OPERATION_TTL_SECS * 1000)))
  | c_get key : store_command cleared _ (GET key)
  | c_mget keys : store_command cleared _ (MGET keys)
  | c_smembers key : store_command cleared _ (SMEMBERS key)
  | c_patch hash patch observed current :
      de_status (VString observed) = Some current → allowed_from current patch →
      store_command cleared Z (PATCH_RECORD_SCRIPT (status_key hash) patch observed)
  | c_mark index transaction_hash ttl members :
      Forall (λ m : string * MemberKind * string * string, ∃ hash, m.1.1.1 = status_key hash) members →
      Forall (λ m : string * MemberKind * string * string, member_allowed m.1.1.2 m.1.2) members →
      store_command cleared _ (MARK_BUNDLE_SUBMITTED_SCRIPT index transaction_hash ttl members)
  | c_acquire_lease scope token ttl : store_command cleared bool (SET_NX (lease_key scope) (Raw token) ttl)
  | c_renew_lease scope token ttl : store_command cleared Z (RENEW_LEASE_SCRIPT (lease_key scope) token ttl)
  | c_release_lease scope token : store_command cleared Z (RELEASE_LEASE_SCRIPT (lease_key scope) token)
  | c_save_bundle chain_id lane index payload :
      store_command cleared Z (SAVE_PREPARED_BUNDLE_SCRIPT (prepared_bundle_key chain_id lane) index payload)
  | c_clear_bundle chain_id lane index hash :
      cleared = Some (chain_id, lane, hash) →
      store_command cleared Z (CLEAR_PREPARED_BUNDLE_SCRIPT (prepared_bundle_key chain_id lane) index hash)
  | c_list_bundles index : store_command cleared _ (LIST_PREPARED_BUNDLES_SCRIPT index)
  | c_save_funding chain_id payload :
      store_command cleared Z (SAVE_PREPARED_FUNDING_SCRIPT (prepared_funding_key chain_id) payload)
  | c_clear_funding chain_id hash :
      store_command cleared Z (CLEAR_PREPARED_FUNDING_SCRIPT (prepared_funding_key chain_id) hash)
  | c_save_deployment chain_id payload :
      store_command cleared Z (SAVE_PREPARED_FUNDING_SCRIPT (prepared_simulation_deployment_key chain_id) payload)
  | c_clear_deployment chain_id hash :
      store_command cleared Z (CLEAR_PREPARED_FUNDING_SCRIPT (prepared_simulation_deployment_key chain_id) hash)
  | c_dead_letter chain_id partition_id offset payload ttl :
      store_command cleared bool (SET_NX (malformed_dead_letter_key chain_id partition_id offset) payload ttl)
  | c_claim_slot slot hash at_ms ttl : store_command cleared _ (CLAIM_NONCE_SLOT_SCRIPT (nonce_slot_key slot) hash at_ms ttl)
  | c_take_over slot hash at_ms ttl judged :
      store_command cleared _ (TAKE_OVER_NONCE_SLOT_SCRIPT (nonce_slot_key slot) hash at_ms ttl judged)
  | c_release_slot slot hash : store_command cleared Z (RELEASE_NONCE_SLOT_SCRIPT (nonce_slot_key slot) hash)
  | c_claim_alert fingerprint token ttl : store_command cleared bool (SET_NX (executor_alert_key fingerprint) (Raw token) ttl)
  | c_release_alert fingerprint token : store_command cleared Z (RELEASE_LEASE_SCRIPT (executor_alert_key fingerprint) token)
  | c_defer hash identifier canonical payload ttl :
      store_command cleared Z (SAVE_DELAYED_OPERATION_SCRIPT (delayed_operation_payload_key hash)
        (delayed_operation_key identifier) DELAYED_OPERATION_SCHEDULE_KEY (delayed_operation_claim_key identifier)
        canonical payload identifier ttl retry_delay_schedule_ms)
  | c_claim_due token limit claim_ttl :
      store_command cleared _ (CLAIM_DELAYED_OPERATIONS_SCRIPT DELAYED_OPERATION_SCHEDULE_KEY token limit
        DELAYED_OPERATION_KEY_PREFIX DELAYED_OPERATION_CLAIM_KEY_PREFIX claim_ttl)
  | c_complete identifier token :
      store_command cleared Z (COMPLETE_DELAYED_OPERATION_SCRIPT (delayed_operation_key identifier)
        DELAYED_OPERATION_SCHEDULE_KEY (delayed_operation_claim_key identifier) token identifier)
  | c_retry hash identifier token ttl canonical :
      store_command cleared Z (RETRY_DELAYED_OPERATION_SCRIPT (delayed_operation_key identifier)
        DELAYED_OPERATION_SCHEDULE_KEY (delayed_operation_claim_key identifier) (delayed_operation_payload_key hash)
        token identifier ttl canonical retry_delay_schedule_ms).

Section Issues.
Context {cleared : option (Z * Z * string)}.

Definition commanded (R : Type) (e : StoreCall R) : Prop :=
  match e with Query command => store_command cleared _ command | SystemMs => True end.

Abbreviation commands p := (yields commanded p (λ _, True)).

Lemma commands_query {R} (command : redis R) : store_command cleared R command → commands (query command).
Proof. intros Hc. by apply yields_perform. Qed.
Lemma commands_answered {A B} (f : A → result StoreError B) (m : store A) : commands m → commands (answered_by f m).
Proof. intros Hm. apply yields_try. eapply yields_mono; [exact Hm|]. by intros [a|e] _. Qed.
Lemma commands_replied_one (command : redis Z) : store_command cleared Z command → commands (replied_one (query command)).
Proof. intros Hc. by apply commands_answered, commands_query. Qed.
Lemma commands_validated {A} r (k : store A) : commands k → commands (validated r k).
Proof. intros Hk. by destruct r. Qed.
Lemma commands_millis {A} ttl (k : Z → store A) : (∀ ttl, commands (k ttl)) → commands (with_millis ttl k).
Proof. intros Hk. unfold with_millis. by destruct (duration_millis ttl). Qed.

Lemma requested_allowed patch requested current :
  requested_status patch = Ok requested → decide_patch current requested = Apply → allowed_from current patch.
Proof.
  unfold requested_status, allowed_from. destruct (get "status" patch) as [w|]; [|done].
  intros (next & Hn & [= <-])%result_bind_Ok Hd. apply ok_or_Ok in Hn. exists next. split; [done|].
  by apply (proj1 (decide_patch_apply current (Some next))).
Qed.

Lemma commands_patch_stored hash patch : commands (patch_stored hash patch).
Proof.
  unfold patch_stored. destruct (requested_status patch) as [requested|e] eqn:Er; [|done].
  apply (yields_for commanded _ _ _ _ (λ _, True)); [done| |done]. intros n s _ _. unfold patch_round.
  apply yields_bind. apply yields_perform. split; [constructor|].
  intros [[[text|record]|]|e]; [done| |done|done]. destruct (parse_stored_status record) as [[wire current]|] eqn:Ep; [|done].
  destruct (decide_patch current requested) eqn:Ed; [|done].
  apply yields_bind. apply yields_perform. split; [|by intros [reply|e]; [case_match|]; repeat case_match].
  eapply c_patch; [|by eapply requested_allowed].
  unfold parse_stored_status in Ep. apply bind_Some in Ep as (w & Hw & Ep). apply bind_Some in Ep as (k & Hk & [= -> ->]).
  exact Hk.
Qed.

Lemma decide_transition s record_hash record_chain text chain hash :
  decide_bundle_submission s record_hash record_chain text chain hash = Transition → status_step s Submitted.
Proof. unfold decide_bundle_submission. intros H. destruct s; repeat case_match; try done. Qed.

Lemma planned_allowed chain_id transaction_hash hashes raws planned :
  plan_members chain_id transaction_hash hashes raws = Ok planned →
  Forall (λ p : string * MemberKind * string, member_allowed p.1.2 p.2) planned.
Proof.
  unfold plan_members. intros (ls & Hl & [= <-])%result_bind_Ok. revert ls Hl.
  induction (zip hashes raws) as [|[hash raw] members IH]; intros ls Hl; [by injection Hl as <-|]. cbn [all_ok] in Hl.
  apply result_bind_Ok in Hl as (l & Hm & Hl). apply result_bind_Ok in Hl as (ls' & Hl & [= <-]).
  cbn. apply Forall_app. split; [|by apply IH]. unfold plan_member in Hm. cbn in Hm.
  destruct raw as [[text|record]|]; [done| |by injection Hm as <-].
  destruct (parse_stored_status record) as [[observed st]|] eqn:Ep; [|by injection Hm as <-]. injection Hm as <-.
  destruct (decide_bundle_submission _ _ _ _ _ _) eqn:Ed; [..|constructor]; constructor; [|done|done..].
  intros _. exists st. split; [|by eapply decide_transition].
  unfold parse_stored_status in Ep. apply bind_Some in Ep as (w & _ & Ep). by apply bind_Some in Ep as (k & Hk & [= -> ->]).
Qed.

Lemma commands_mark_bundle_submitted chain_id transaction_hash hashes :
  commands (mark_bundle_submitted chain_id transaction_hash hashes).
Proof.
  unfold mark_bundle_submitted. destruct hashes as [|h hs]; [done|].
  apply (yields_for commanded _ _ _ _ (λ _, True)); [done| |done]. intros n [remaining total] _ _. unfold mark_round.
  destruct remaining as [|r rs]; [done|]. apply yields_bind, yields_perform. split; [constructor|]. intros raws.
  destruct (raws ← raws; plan_members _ _ _ raws) as [planned|e] eqn:Ep; [|done].
  apply result_bind_Ok in Ep as (raws' & _ & Hp%planned_allowed).
  destruct planned as [|p ps]; [done|]. apply yields_bind, yields_perform. split.
  - apply c_mark; apply Forall_map; [|by eapply Forall_impl; [exact Hp|]; intros [[hash kind] observed]].
    apply Forall_true. intros [[hash kind] observed]. by exists hash.
  - intros [applied|e]; [|done]. cbn. by case_match.
Qed.

Lemma commands_each {A} (body : A → () → store ()) (l : list A) : (∀ a, commands (body a ())) → commands (io_each body l ()).
Proof.
  intros Hb. induction l as [|a l IH]; [done|]. apply yields_try. eapply yields_mono; [apply Hb|]. by intros [[]|e] _.
Qed.

Lemma commands_patch_each (patch : string → Value) hashes :
  commands (io_each (λ hash _, _ ←? patch_stored hash (patch hash); mret (Ok ())) hashes ()).
Proof.
  apply commands_each. intros hash. apply yields_try. eapply yields_mono; [apply commands_patch_stored|]. by intros [a|e] _.
Qed.

Lemma commands_patch_members chain_id transaction_hash patch : commands (patch_members chain_id transaction_hash patch).
Proof. apply yields_try, yields_perform. split; [constructor|]. intros [hashes|e]; [apply commands_patch_each|done]. Qed.

(** A patch stamped with the time. *)
Lemma commands_stamped hash (patch : Z → Value) : commands (at_ms ← perform SystemMs; patch_stored hash (patch at_ms)).
Proof. apply yields_bind, yields_perform. split; [done|]. intros at_ms. apply commands_patch_stored. Qed.

End Issues.

(** Every public function of the store, at every argument, and the prepared
    bundle it may delete. *)
Inductive store_function (cleared : option (Z * Z * string)) : ∀ A : Type, store A → Prop :=
  | f_create_queued operation : store_function cleared bool (create_queued operation)
  | f_restore operation : store_function cleared bool (restore_queued_from_durable_payload operation)
  | f_get hash : store_function cleared _ (get_stored hash)
  | f_get_many hashes : store_function cleared _ (get_many hashes)
  | f_mark_admitted hash : store_function cleared bool (mark_admitted hash)
  | f_mark_bundle_submitted chain_id transaction_hash hashes :
      store_function cleared nat (mark_bundle_submitted chain_id transaction_hash hashes)
  | f_mark_bundle_failed chain_id transaction_hash receipt :
      store_function cleared () (mark_bundle_failed chain_id transaction_hash receipt)
  | f_mark_handle_ops_failed hashes : store_function cleared () (mark_handle_ops_failed hashes)
  | f_mark_bundle_confirmed chain_id transaction_hash receipt events :
      store_function cleared () (mark_bundle_confirmed chain_id transaction_hash receipt events)
  | f_acquire_lease scope token ttl : store_function cleared bool (acquire_lease scope token ttl)
  | f_renew_lease scope token ttl : store_function cleared bool (renew_lease scope token ttl)
  | f_release_lease scope token : store_function cleared bool (release_lease scope token)
  | f_defer d ttl : store_function cleared Z (defer_user_operation d ttl)
  | f_claim_due token limit ttl : store_function cleared _ (claim_due_user_operations token limit ttl)
  | f_complete identifier token : store_function cleared bool (complete_delayed_user_operation identifier token)
  | f_retry d token ttl : store_function cleared bool (retry_delayed_user_operation d token ttl)
  | f_save_bundle i : store_function cleared bool (save_prepared_bundle_intent i)
  | f_get_bundle chain_id lane : store_function cleared _ (get_prepared_bundle_intent chain_id lane)
  | f_clear_bundle chain_id lane hash :
      cleared = Some (chain_id, lane, hash) → store_function cleared bool (clear_prepared_bundle_intent chain_id lane hash)
  | f_list_bundles : store_function cleared _ list_prepared_bundle_intents
  | f_save_funding i : store_function cleared bool (save_prepared_funding_intent i)
  | f_get_funding chain_id : store_function cleared _ (get_prepared_funding_intent chain_id)
  | f_clear_funding chain_id hash : store_function cleared bool (clear_prepared_funding_intent chain_id hash)
  | f_save_deployment i : store_function cleared bool (save_prepared_simulation_deployment_intent i)
  | f_get_deployment chain_id : store_function cleared _ (get_prepared_simulation_deployment_intent chain_id)
  | f_clear_deployment chain_id hash :
      store_function cleared bool (clear_prepared_simulation_deployment_intent chain_id hash)
  | f_dead_letter `{Hex} chain_id partition_id offset payload reason hash ttl :
      store_function cleared bool (save_malformed_dead_letter chain_id partition_id offset payload reason hash ttl)
  | f_claim_slot slot holder : store_function cleared NonceClaim (claim_nonce_slot slot holder)
  | f_take_over_slot slot judged holder : store_function cleared NonceClaim (take_over_nonce_slot slot judged holder)
  | f_release_slot slot hash : store_function cleared bool (release_nonce_slot slot hash)
  | f_mark_rejected hash stage reason code :
      store_function cleared bool (mark_rejected_with_executor_reason hash stage reason code)
  | f_mark_not_submitted hash : store_function cleared bool (mark_not_submitted hash)
  | f_record_deferred hash stage reason : store_function cleared bool (record_executor_deferred hash stage reason)
  | f_claim_alert fingerprint token cooldown : store_function cleared bool (claim_executor_alert fingerprint token cooldown)
  | f_release_alert fingerprint token : store_function cleared bool (release_executor_alert fingerprint token).

(** The constructor of the command in the goal. *)
Ltac command :=
  lazymatch goal with
  | |- store_command _ _ (SET_NX (status_key _) _ _) => apply c_create
  | |- store_command _ _ (SET_NX (lease_key _) _ _) => apply c_acquire_lease
  | |- store_command _ _ (SET_NX (executor_alert_key _) _ _) => apply c_claim_alert
  | |- store_command _ _ (SET_NX (malformed_dead_letter_key _ _ _) _ _) => apply c_dead_letter
  | |- store_command _ _ (GET _) => apply c_get
  | |- store_command _ _ (MGET _) => apply c_mget
  | |- store_command _ _ (RENEW_LEASE_SCRIPT _ _ _) => apply c_renew_lease
  | |- store_command _ _ (RELEASE_LEASE_SCRIPT (lease_key _) _) => apply c_release_lease
  | |- store_command _ _ (RELEASE_LEASE_SCRIPT (executor_alert_key _) _) => apply c_release_alert
  | |- store_command _ _ (SAVE_PREPARED_BUNDLE_SCRIPT _ _ _) => apply c_save_bundle
  | |- store_command _ _ (CLEAR_PREPARED_BUNDLE_SCRIPT _ _ _) => by apply c_clear_bundle
  | |- store_command _ _ (LIST_PREPARED_BUNDLES_SCRIPT _) => apply c_list_bundles
  | |- store_command _ _ (SAVE_PREPARED_FUNDING_SCRIPT (prepared_funding_key _) _) => apply c_save_funding
  | |- store_command _ _ (CLEAR_PREPARED_FUNDING_SCRIPT (prepared_funding_key _) _) => apply c_clear_funding
  | |- store_command _ _ (SAVE_PREPARED_FUNDING_SCRIPT _ _) => apply c_save_deployment
  | |- store_command _ _ (CLEAR_PREPARED_FUNDING_SCRIPT _ _) => apply c_clear_deployment
  | |- store_command _ _ (CLAIM_NONCE_SLOT_SCRIPT _ _ _ _) => apply c_claim_slot
  | |- store_command _ _ (TAKE_OVER_NONCE_SLOT_SCRIPT _ _ _ _ _) => apply c_take_over
  | |- store_command _ _ (RELEASE_NONCE_SLOT_SCRIPT _ _) => apply c_release_slot
  | |- store_command _ _ (SAVE_DELAYED_OPERATION_SCRIPT _ _ _ _ _ _ _ _ _) => apply c_defer
  | |- store_command _ _ (CLAIM_DELAYED_OPERATIONS_SCRIPT _ _ _ _ _ _) => apply c_claim_due
  | |- store_command _ _ (COMPLETE_DELAYED_OPERATION_SCRIPT _ _ _ _ _) => apply c_complete
  | |- store_command _ _ (RETRY_DELAYED_OPERATION_SCRIPT _ _ _ _ _ _ _ _ _) => apply c_retry
  end.
Ltac commands_function :=
  repeat first
    [ apply commands_validated | apply commands_millis; intros ? | apply commands_answered | apply commands_query
    | apply commands_patch_stored | apply commands_mark_bundle_submitted | apply commands_patch_members
    | apply (commands_patch_each (λ _, _)) | apply (commands_stamped _ (λ at_ms, _)) | done | case_match ].

(** Whatever the replies, a function issues commands of the list. *)
Lemma functions_issue_commands {cleared A} (p : store A) : store_function cleared A p → yields (commanded (cleared := cleared)) p (λ _, True).
Proof.
  destruct 1; unfold get_many, create_queued, restore_queued_from_durable_payload, create_queued_with_admission, get_stored,
    acquire_lease, renew_lease, release_lease, defer_user_operation, claim_due_user_operations,
    complete_delayed_user_operation, retry_delayed_user_operation, save_prepared_bundle_intent,
    get_prepared_bundle_intent, clear_prepared_bundle_intent, list_prepared_bundle_intents,
    save_prepared_funding_intent, get_prepared_funding_intent, clear_prepared_funding_intent,
    save_prepared_simulation_deployment_intent, get_prepared_simulation_deployment_intent,
    clear_prepared_simulation_deployment_intent, save_malformed_dead_letter, claim_nonce_slot, take_over_nonce_slot,
    release_nonce_slot, claim_executor_alert, release_executor_alert;
  commands_function; command.
Qed.
End Commands.

(** The function may perform this effect, after any answers to the earlier ones. *)
Inductive issues {E : Type → Type} {A R : Type} (e : E R) : io E A → Prop :=
  | issues_now k : issues e (Vis e k)
  | issues_later {R'} (e' : E R') k r : issues e (k r) → issues e (Vis e' k).

Lemma yields_issues {E A R} P (e : E R) (p : io E A) Q : yields P p Q → issues e p → P R e.
Proof. intros Hp Hi. induction Hi as [k|R' e' k r Hi IH]; destruct Hp as [He Hk]; [exact He|apply IH, Hk]. Qed.

Section World.
Context `{LJ : LuaJson}.

(** The clock and the keyspace: time passes, or a command that some function
    of some client may issue reaches the server, at any time and any number of
    times, and its reply may be lost. *)
Inductive world_step : Z * Keyspace → Z * Keyspace → Prop :=
  | time_passes now now' ks : now ≤ now' → world_step (now, ks) (now', ks)
  | command_runs {A R} cleared (p : store A) (command : redis R) now ks :
      store_function cleared A p → issues (Query command) p → world_step (now, ks) (now, (command now ks).1).


(** A step of the world is the passing of time or one command of the list. *)
Lemma world_step_cases w w' :
  world_step w w' →
  w.1 ≤ w'.1 ∧ w'.2 = w.2 ∨
  ∃ cleared R (command : redis R), store_command cleared R command ∧ w' = (w.1, (command w.1 w.2).1).
Proof.
  intros [now now' ks Hn|A R cleared p command now ks Hp Hi]; [by left|right]. exists cleared, R, command. split; [|done].
  exact (yields_issues (commanded (cleared := cleared)) _ p _ (functions_issue_commands p Hp) Hi).
Qed.
End World.
