(* ===== verification/RedisRecords.v ===== *)
(** * RedisRecords: what the server's store does to a record

    Whatever functions of the store run, in whatever order their commands reach
    the server, with replies lost or late: a record is created queued where
    there is none, and changes its status only as the lifecycle table allows,
    until it expires. *)

From S2P Require Export RedisCommands.
#[local] Open Scope string_scope.
#[local] Open Scope list_scope.
#[local] Open Scope Z_scope.
#[local] Set Default Proof Using "Type*".

(** The status of what is stored under a key. *)
Definition record_status (stored : option Bulk) : option UserOperationStatus :=
  match stored with
  | Some (Json v) => snd <$> parse_stored_status v
  | _ => None
  end.

(** One change of what is stored under a record's key. *)
Inductive record_step : option Bulk → option Bulk → Prop :=
  | record_created operation admitted :
      record_step None (Some (Json (VObject (record_fields (queued_record operation admitted)))))
  | record_patched v v' a b :
      record_status (Some v) = Some a → record_status (Some v') = Some b → status_step a b →
      record_step (Some v) (Some v').

(** The rule of every key: a record's key makes record steps. *)
Definition record_rule (key : string) (a b : option Bulk) : Prop :=
  ∀ hash, key = status_key hash → rtc record_step a b.

#[export] Instance record_rule_preorder key : PreOrder (record_rule key).
Proof.
  split.
  - intros a hash _. reflexivity.
  - intros a b c Hab Hbc hash E. etransitivity; [by apply (Hab hash)|by apply (Hbc hash)].
Qed.

(** A command that keeps the rule. *)
Abbreviation lawful m := (moves text_at record_rule m).

(** Keys of other kinds have other prefixes. *)
Lemma free_other key : (∀ hash, key ≠ status_key hash) → free record_rule key.
Proof. intros Hk a b hash E. by destruct (Hk hash). Qed.

Ltac other_key := apply free_other; intros ?; discriminate.

Lemma free_bundle chain_id hash : free record_rule (bundle_key chain_id hash).
Proof. other_key. Qed.
Lemma free_lease scope : free record_rule (lease_key scope).
Proof. other_key. Qed.
Lemma free_alert fingerprint : free record_rule (executor_alert_key fingerprint).
Proof. other_key. Qed.
Lemma free_prepared_bundle chain_id lane : free record_rule (prepared_bundle_key chain_id lane).
Proof. other_key. Qed.
Lemma free_prepared_funding chain_id : free record_rule (prepared_funding_key chain_id).
Proof. other_key. Qed.
Lemma free_prepared_deployment chain_id : free record_rule (prepared_simulation_deployment_key chain_id).
Proof. other_key. Qed.
Lemma free_malformed chain_id partition_id offset : free record_rule (malformed_dead_letter_key chain_id partition_id offset).
Proof. other_key. Qed.
Lemma free_payload hash : free record_rule (delayed_operation_payload_key hash).
Proof. other_key. Qed.
Lemma free_claim identifier : free record_rule (delayed_operation_claim_key identifier).
Proof. other_key. Qed.
Lemma free_claim_prefix identifier : free record_rule (DELAYED_OPERATION_CLAIM_KEY_PREFIX +:+ identifier).
Proof. other_key. Qed.
#[export] Hint Resolve free_bundle free_lease free_alert free_prepared_bundle free_prepared_funding
  free_prepared_deployment free_malformed free_payload free_claim free_claim_prefix : moves.

Section Free.
Context (R : string → option Bulk → option Bulk → Prop) `{HR : ∀ key, PreOrder (R key)}.

Lemma moves_free_SET_NX key v ttl : free R key → moves text_at R (SET_NX key v ttl).
Proof. intros Hf. by apply moves_SET_NX. Qed.
Lemma moves_free_DEL key : free R key → moves text_at R (DEL_text key).
Proof. intros Hf. moves. Qed.
Lemma moves_free_PEXPIRE key ttl : free R key → moves text_at R (PEXPIRE_text key ttl).
Proof. intros Hf. moves. Qed.
End Free.
#[export] Hint Resolve moves_free_SET_NX moves_free_DEL moves_free_PEXPIRE : moves.

(** ** The scripts that leave records alone *)

Ltac moves_script := repeat (moves; try (first [apply moves_free_DEL | apply moves_free_SET_NX
  | apply moves_free_PEXPIRE | apply moves_texts_insert]; [preorders|solve [auto with moves]])).

Lemma lawful_save_delayed hash identifier schedule_key canonical payload ident ttl schedule :
  lawful (SAVE_DELAYED_OPERATION_SCRIPT (delayed_operation_payload_key hash) (delayed_operation_key identifier)
    schedule_key (delayed_operation_claim_key identifier) canonical payload ident ttl schedule).
Proof. unfold SAVE_DELAYED_OPERATION_SCRIPT, schedule_attempt, keep_canonical. moves_script. Qed.

Lemma lawful_claim_delayed schedule_key token limit item_prefix claim_ttl :
  lawful (CLAIM_DELAYED_OPERATIONS_SCRIPT schedule_key token limit item_prefix DELAYED_OPERATION_CLAIM_KEY_PREFIX
    claim_ttl).
Proof. unfold CLAIM_DELAYED_OPERATIONS_SCRIPT. moves_script. Qed.

Lemma lawful_complete_delayed item schedule_key identifier token ident :
  lawful (COMPLETE_DELAYED_OPERATION_SCRIPT item schedule_key (delayed_operation_claim_key identifier) token ident).
Proof. unfold COMPLETE_DELAYED_OPERATION_SCRIPT. moves_script. Qed.

Lemma lawful_retry_delayed item schedule_key identifier hash token ident ttl canonical schedule :
  lawful (RETRY_DELAYED_OPERATION_SCRIPT item schedule_key (delayed_operation_claim_key identifier)
    (delayed_operation_payload_key hash) token ident ttl canonical schedule).
Proof. unfold RETRY_DELAYED_OPERATION_SCRIPT, schedule_attempt, keep_canonical. moves_script. Qed.

Lemma lawful_renew_lease scope token ttl : lawful (RENEW_LEASE_SCRIPT (lease_key scope) token ttl).
Proof. unfold RENEW_LEASE_SCRIPT. moves_script. Qed.
Lemma lawful_release key token : free record_rule key → lawful (RELEASE_LEASE_SCRIPT key token).
Proof. intros Hf. unfold RELEASE_LEASE_SCRIPT. moves_script. Qed.
Lemma lawful_save_bundle key index payload :
  free record_rule key → lawful (SAVE_PREPARED_BUNDLE_SCRIPT key index payload).
Proof. intros Hf. unfold SAVE_PREPARED_BUNDLE_SCRIPT. moves_script. Qed.
Lemma lawful_clear_bundle key index hash :
  free record_rule key → lawful (CLEAR_PREPARED_BUNDLE_SCRIPT key index hash).
Proof. intros Hf. unfold CLEAR_PREPARED_BUNDLE_SCRIPT, cjson_decode. moves_script. Qed.
Lemma lawful_list_bundles index : lawful (LIST_PREPARED_BUNDLES_SCRIPT index).
Proof. unfold LIST_PREPARED_BUNDLES_SCRIPT. moves_script. Qed.
Lemma lawful_save_funding key payload : free record_rule key → lawful (SAVE_PREPARED_FUNDING_SCRIPT key payload).
Proof. intros Hf. unfold SAVE_PREPARED_FUNDING_SCRIPT. moves_script. Qed.
Lemma lawful_clear_funding key hash : free record_rule key → lawful (CLEAR_PREPARED_FUNDING_SCRIPT key hash).
Proof. intros Hf. unfold CLEAR_PREPARED_FUNDING_SCRIPT, cjson_decode. moves_script. Qed.
Lemma lawful_claim_slot key hash at_ms ttl : lawful (CLAIM_NONCE_SLOT_SCRIPT key hash at_ms ttl).
Proof. unfold CLAIM_NONCE_SLOT_SCRIPT, slot_claimed_at, take_slot. moves_script. Qed.
Lemma lawful_take_over_slot key hash at_ms ttl judged : lawful (TAKE_OVER_NONCE_SLOT_SCRIPT key hash at_ms ttl judged).
Proof. unfold TAKE_OVER_NONCE_SLOT_SCRIPT, slot_claimed_at, take_slot. moves_script. Qed.
Lemma lawful_release_slot key hash : lawful (RELEASE_NONCE_SLOT_SCRIPT key hash).
Proof. unfold RELEASE_NONCE_SLOT_SCRIPT. moves_script. Qed.
Lemma lawful_GET key : lawful (GET key).
Proof. moves. Qed.
Lemma lawful_MGET keys : lawful (MGET keys).
Proof. moves. Qed.
Lemma lawful_SMEMBERS key : lawful (SMEMBERS key).
Proof. moves. Qed.
Lemma lawful_SET_NX key v ttl : free record_rule key → lawful (SET_NX key v ttl).
Proof. intros Hf. moves_script. Qed.

(** ** The scripts that write a record *)

Lemma rule_created key operation admitted :
  record_rule key None (Some (Json (VObject (record_fields (queued_record operation admitted))))).
Proof. intros hash _. apply rtc_once. constructor. Qed.

Lemma lawful_create key operation admitted ttl :
  lawful (SET_NX key (Json (VObject (record_fields (queued_record operation admitted)))) ttl).
Proof. apply moves_SET_NX; [preorders|apply rule_created|reflexivity]. Qed.

(** Decoding, comparing the status and writing the merge, at once. *)
Section Merge.
Context `{LJ : LuaJson}.

Lemma lua_field_is_get record field text :
  lua_field_is record field text = true → get field record = Some (VString text).
Proof. apply bool_decide_eq_true_1. Qed.

(** What a merged record says its status is. *)
Lemma merged_record_status patch record merged now ks :
  (lua_merge patch record now ks).2 = Some merged →
  (lua_merge patch record now ks).1 = ks ∧
  ∃ v, merged = Json v ∧
    (∀ s, get "status" patch = Some (VString s) → get "status" v = Some (VString s)) ∧
    (∀ s, get "status" patch = None → get "status" record = Some (VString s) → get "status" v = Some (VString s)).
Proof.
  unfold lua_merge. unfold mbind, redis_mbind.
  destruct record as [| | | | |o]; try done. destruct patch as [| | | | |p]; try done. cbn.
  intros [= <-]. split; [done|]. eexists. split; [done|].
  destruct (lua_object (RecordDo.merge_patch p o)) as (o' & -> & Ho). cbn.
  rewrite Ho, RecordDo.obj_get_merge. split.
  - intros s ->. cbn. by rewrite lua_string.
  - intros s -> ->. cbn. by rewrite lua_string.
Qed.

Lemma de_status_text w s : de_status w = Some s → ∃ text, w = VString text.
Proof. unfold de_status. intros H. apply bind_Some in H as (text & Ht & _). destruct w; try done. by eexists. Qed.

Lemma record_status_of v text s :
  get "status" v = Some (VString text) → de_status (VString text) = Some s → record_status (Some (Json v)) = Some s.
Proof. intros Hg Hd. unfold record_status, parse_stored_status. rewrite Hg. cbn [mbind option_bind as_str]. by rewrite Hd. Qed.

(** A merge that the table allows is a record step. *)
Lemma merge_step now ks key patch v observed current {A} (a : A) key' :
  text_at now ks key = Some (Json v) → lua_field_is v "status" observed = true →
  de_status (VString observed) = Some current → allowed_from current patch →
  record_rule key' (text_at now ks key')
    (text_at now ((merged ← lua_merge patch v; _ ← SET_KEEPTTL key merged; mret a) now ks).1 key').
Proof.
  intros Hv Hs%lua_field_is_get Hc Hp. unfold mbind, redis_mbind.
  destruct (lua_merge patch v now ks) as [ks' [merged|]] eqn:E.
  - destruct (merged_record_status patch v merged now ks) as (Hks & w & -> & Hw1 & Hw2); [by rewrite E|].
    rewrite E in Hks. cbn in Hks. subst ks'. cbn. rewrite text_at_insert. case_decide as Ek; [|reflexivity].
    subst key'. rewrite unexpired_kept by (unfold text_at in Hv; by rewrite Hv). rewrite Hv.
    assert (∃ next, record_status (Some (Json w)) = Some next ∧ status_step current next) as (next & Hn & Hstep).
    { unfold allowed_from in Hp. destruct (get "status" patch) as [u|] eqn:Eu.
      - destruct Hp as (next & Hn & Hst). destruct (de_status_text u next Hn) as [text ->]. exists next.
        split; [by eapply record_status_of; [apply Hw1|]|done].
      - exists current. split; [by eapply record_status_of; [apply Hw2|]|apply status_step_refl]. }
    intros hash _. apply rtc_once. econstructor; [by eapply record_status_of|exact Hn|done].
  - unfold lua_merge, mbind, redis_mbind in E. cbn in E. destruct v as [| | | | |o], patch as [| | | | |p]; cbn in E;
      injection E as <-; reflexivity.
Qed.

Lemma lawful_patch key patch observed current :
  de_status (VString observed) = Some current → allowed_from current patch →
  lawful (PATCH_RECORD_SCRIPT key patch observed).
Proof.
  intros Hc Hp now ks key'. unfold PATCH_RECORD_SCRIPT, GET, reads. unfold mbind at 1, redis_mbind at 1.
  destruct (text_at now ks key) as [[text|v]|] eqn:E; [reflexivity| |reflexivity]. cbn [cjson_decode].
  change (mbind ?f (mret v)) with (f v). cbv beta.
  destruct (lua_field_is v "status" observed) eqn:Es; cbn [negb]; [|reflexivity].
  by eapply merge_step.
Qed.

Lemma lawful_mark_member transaction_hash key kind observed current :
  (kind = KindTransition → de_status (VString observed) = Some current ∧ status_step current Submitted) →
  lawful (mark_member transaction_hash key kind observed).
Proof.
  intros Hc now ks key'. unfold mark_member, GET, reads. unfold mbind at 1, redis_mbind at 1.
  destruct (text_at now ks key) as [[text|v]|] eqn:E; [reflexivity| |reflexivity]. cbn [cjson_decode].
  change (mbind ?f (mret v)) with (f v). cbv beta.
  destruct kind; [|reflexivity]. destruct (lua_field_is v "status" observed) eqn:Es; [|reflexivity].
  destruct (Hc eq_refl) as [Hd Hs]. eapply merge_step; [done..|]. by exists Submitted.
Qed.

Lemma lawful_mark index transaction_hash ttl members :
  Forall (λ m : string * MemberKind * string * string, member_allowed m.1.1.2 m.1.2) members →
  lawful (MARK_BUNDLE_SUBMITTED_SCRIPT index transaction_hash ttl members).
Proof.
  intros Hm. unfold MARK_BUNDLE_SUBMITTED_SCRIPT. apply moves_bind; [preorders| |intros indexed; moves].
  match goal with |- moves _ _ (redis_for ?body _ _) => enough (∀ s, lawful (redis_for body members s)) by done end.
  induction Hm as [|[[[key kind] observed] hash] members Hk Hm IH]; intros indexed; [apply moves_mret; preorders|].
  apply moves_bind; [preorders| |apply IH]. apply moves_bind; [preorders| |intros applied; moves].
  destruct kind.
  - destruct (Hk eq_refl) as (current & Hd & Hs). by apply (lawful_mark_member _ _ _ _ current).
  - by apply (lawful_mark_member _ _ _ _ Queued).
Qed.
End Merge.

(** Every command of the store keeps the rule. *)
Lemma commands_lawful `{LJ : LuaJson} {cleared R} (command : redis R) : store_command cleared R command → lawful command.
Proof.
  destruct 1.
  - apply lawful_create.
  - apply lawful_GET.
  - apply lawful_MGET.
  - apply lawful_SMEMBERS.
  - by eapply lawful_patch.
  - by apply lawful_mark.
  - apply lawful_SET_NX; auto with moves.
  - apply lawful_renew_lease.
  - apply lawful_release; auto with moves.
  - apply lawful_save_bundle; auto with moves.
  - apply lawful_clear_bundle; auto with moves.
  - apply lawful_list_bundles.
  - apply lawful_save_funding; auto with moves.
  - apply lawful_clear_funding; auto with moves.
  - apply lawful_save_funding; auto with moves.
  - apply lawful_clear_funding; auto with moves.
  - apply lawful_SET_NX; auto with moves.
  - apply lawful_claim_slot.
  - apply lawful_take_over_slot.
  - apply lawful_release_slot.
  - apply lawful_SET_NX; auto with moves.
  - apply lawful_release; auto with moves.
  - apply lawful_save_delayed.
  - apply lawful_claim_delayed.
  - apply lawful_complete_delayed.
  - apply lawful_retry_delayed.
Qed.

(** ** A record over time *)

Section World.
Context `{LJ : LuaJson}.

Definition stored_at (w : Z * Keyspace) (key : string) : option Bulk := text_at w.1 w.2 key.
Definition status_at (w : Z * Keyspace) (hash : string) : option UserOperationStatus :=
  record_status (stored_at w (status_key hash)).

Lemma record_steps_status a b s :
  rtc record_step (Some a) b → record_status (Some a) = Some s →
  ∃ b' s', b = Some b' ∧ record_status (Some b') = Some s' ∧ rtc status_step s s'.
Proof.
  intros Hr. remember (Some a) as o eqn:Eo. revert a s Eo. induction Hr as [o|o o' b Hs Hr IH]; intros a s -> Ha.
  - exists a, s. split_and!; [done..|reflexivity].
  - inversion Hs as [|v v' s1 s2 H1 H2 H3]; subst. rewrite Ha in H1. injection H1 as <-.
    destruct (IH v' s2 eq_refl H2) as (b' & s' & -> & Hb & Hrt). exists b', s'. split_and!; [done..|].
    by eapply rtc_l.
Qed.

Lemma text_at_later now now' ks key : now ≤ now' → text_at now' ks key = text_at now ks key ∨ text_at now' ks key = None.
Proof.
  intros Hn. unfold text_at. destruct (ks_texts ks !! key) as [[v [deadline|]]|]; cbn; [|by left..].
  unfold unexpired. cbn. repeat case_decide; auto; lia.
Qed.

(** A step of the world follows the table, or the record expires. *)
Lemma world_step_status w w' hash s :
  world_step w w' → status_at w hash = Some s →
  stored_at w' (status_key hash) = None ∨ ∃ s', status_at w' hash = Some s' ∧ rtc status_step s s'.
Proof.
  intros [[Hn Hks]|(cl & R & command & Hc & ->)]%world_step_cases Hs; unfold status_at, stored_at in *;
    destruct w as [now ks]; [destruct w' as [now' ks']|]; cbn in *.
  - subst ks'. destruct (text_at_later now now' ks (status_key hash) Hn) as [->| ->]; [right|by left]. exists s. split; [done|reflexivity].
  - right. pose proof (commands_lawful command Hc now ks (status_key hash) hash eq_refl) as Hl.
    destruct (text_at now ks (status_key hash)) as [a|]; [|done].
    destruct (record_steps_status a _ s Hl Hs) as (b & s' & -> & Hb & Hrt). by exists s'.
Qed.

(** C14: The status of a record in the server's store follows the lifecycle
    table whatever happens: whatever functions of the store run, in whatever
    order their commands reach the server and however much time passes, with
    replies lost and calls retried, a record that has status [s] and later
    status [s'] has moved from [s] to [s'] by transitions of the table, unless
    in between it was gone. *)
Theorem stored_status_follows_the_table w w' hash s s' :
  rtc world_step w w' → status_at w hash = Some s → status_at w' hash = Some s' →
  rtc status_step s s' ∨
  ∃ w1, rtc world_step w w1 ∧ stored_at w1 (status_key hash) = None ∧ rtc world_step w1 w'.
Proof.
  intros Hr. revert s. induction Hr as [w|w w1 w' Hw Hr IH]; intros s Hs Hs'.
  - left. rewrite Hs in Hs'. injection Hs' as <-. reflexivity.
  - destruct (world_step_status w w1 hash s Hw Hs) as [Hn|(s1 & Hs1 & Ht)].
    + right. exists w1. split_and!; [by apply rtc_once|done..].
    + destruct (IH s1 Hs1 Hs') as [H|(w2 & H1 & H2 & H3)]; [left; by etransitivity|].
      right. exists w2. split_and!; [by eapply rtc_l|done..].
Qed.
End World.

(** ** A record in a keyspace of its own *)

Definition exact_json : LuaJson.
Proof.
  refine {| lua_json v := v |}; [|done..].
  abstract (intros o; exists o; split; [done|]; intros k; by destruct (obj_get k o)).
Defined.

Definition queued_example : QueuedUserOperation :=
  {| q_user_operation_hash := "0xaa"; q_chain_id := 8453; q_entry_point := "0xbb";
     q_user_operation := V0_6 {| sender_06 := "0x01"; nonce_06 := "0x0"; init_code_06 := "0x"; call_data_06 := "0x";
       call_gas_limit_06 := "0x1"; verification_gas_limit_06 := "0x1"; pre_verification_gas_06 := "0x1";
       max_fee_per_gas_06 := "0x1"; max_priority_fee_per_gas_06 := "0x1"; paymaster_and_data_06 := "0x";
       signature_06 := "0x" |} |}.

(** The record when it is created, and after it was left unsent. *)
Definition created_example : Bulk := Json (VObject (record_fields (queued_record queued_example false))).
Definition queued_world : Keyspace :=
  (SET_NX (status_key "0xaa") created_example (Some (USER_OPERATION_TTL_SECS * 1000)) 0 empty_keyspace).1.
Definition unsent_patch : Value := VObject [("status", VString "not_submitted"); ("admitted", VBool true)].
Definition unsent_world : Keyspace :=
  (@PATCH_RECORD_SCRIPT exact_json (status_key "0xaa") unsent_patch "queued" 0 queued_world).1.

Lemma unsent_command :
  issues (Query (@PATCH_RECORD_SCRIPT exact_json (status_key "0xaa") unsent_patch "queued"))
    (@mark_not_submitted exact_json "0xaa").
Proof. refine (issues_later _ _ _ (Ok (Some created_example)) _). refine (issues_now _ _). Qed.

Lemma unsent_reached : rtc (@world_step exact_json) (0, queued_world) (1000, unsent_world).
Proof.
  eapply rtc_l; [|apply rtc_once, (time_passes 0 1000); lia].
  exact (command_runs None _ _ 0 queued_world (f_mark_not_submitted None "0xaa") unsent_command).
Qed.

Lemma queued_status : status_at (0, queued_world) "0xaa" = Some Queued.
Proof. vm_compute. reflexivity. Qed.
Lemma unsent_status : status_at (1000, unsent_world) "0xaa" = Some NotSubmitted.
Proof. vm_compute. reflexivity. Qed.

Lemma stored_status_follows_the_table_witness :
  rtc status_step Queued NotSubmitted ∨
  ∃ w1, rtc (@world_step exact_json) (0, queued_world) w1 ∧ stored_at w1 (status_key "0xaa") = None ∧
        rtc (@world_step exact_json) w1 (1000, unsent_world).
Proof.
  exact (@stored_status_follows_the_table exact_json (0, queued_world) (1000, unsent_world) "0xaa" Queued NotSubmitted
           unsent_reached queued_status unsent_status).
Defined.
