(* ===== verification/RedisSlots.v ===== *)
(** * RedisSlots: the server's nonce slots are the core's

    The three scripts on a slot's hash against [claim], [take_over] and
    [release] of [vela-relay-core/src/nonce_slot.rs]. *)

From S2P Require Export RedisRecords.
From S2P Require Quote.
#[local] Open Scope string_scope.
#[local] Open Scope list_scope.
#[local] Open Scope Z_scope.

(** ** Numbers the scripts keep as texts *)

Lemma decimal_digit_digit a : is_ascii_digit a = true → decimal_digit a = Some (byte_of a - 48).
Proof. unfold is_ascii_digit, decimal_digit. intros H%bool_decide_eq_true. by rewrite decide_True. Qed.

Lemma decimal_digits_value w acc s :
  0 ≤ acc → all_chars is_ascii_digit s = true → dec_value acc s < 2 ^ w → decimal_digits w acc s = Ok (dec_value acc s).
Proof.
  revert acc. induction s as [|a s IH]; intros acc Hacc Hs Hv; [done|]. cbn [all_chars] in Hs.
  apply andb_true_iff in Hs as [Ha Hs]. cbn [dec_value] in *. pose proof (decimal_digit_digit a Ha) as Hd.
  unfold is_ascii_digit in Ha. apply bool_decide_eq_true in Ha.
  assert (acc * 10 + (byte_of a - 48) < 2 ^ w).
  { clear IH. rewrite dec_value_acc in Hv. pose proof (dec_value_range s Hs).
    assert (1 ≤ 10 ^ Z.of_nat (String.length s)) by (pose proof (Z.pow_pos_nonneg 10 (Z.of_nat (String.length s))); lia).
    nia. }
  cbn [decimal_digits]. rewrite Hd. cbn [ok_or mbind result_mbind].
  unfold checked. rewrite decide_True by (split; lia). cbn. rewrite decide_True by (split; lia). cbn. apply IH; [lia|done..].
Qed.

Lemma parse_uint_dec w z : 0 ≤ z < 2 ^ w → parse_uint w (dec z) = Ok z.
Proof.
  intros Hz. pose proof (dec_digits z) as Hd. pose proof (Quote.dec_not_empty z) as Hn.
  pose proof (Quote.dec_value_dec z (proj1 Hz)) as Hv.
  assert (parse_uint w (dec z) = decimal_digits w 0 (dec z)) as ->.
  { unfold parse_uint. destruct (dec z) as [|a s]; [done|]. cbn in Hd. apply andb_true_iff in Hd as [Hd _].
    repeat case_match; try done; subst; vm_compute in Hd; discriminate. }
  rewrite decimal_digits_value, Hv; [done|lia|done|]. rewrite Hv. lia.
Qed.

(** ** A function of the store on a keyspace of its own *)

(** Every command is answered by the keyspace. *)
Definition serve (w : Z * Keyspace) (R : Type) (e : StoreCall R) : (Z * Keyspace) * R :=
  match e in StoreCall R return (Z * Keyspace) * R with
  | Query command =>
      let '(ks, reply) := command w.1 w.2 in
      ((w.1, ks), match reply with Some reply => Ok reply | None => Err "Redis query failed" end)
  | SystemMs => (w, w.1)
  end.

Definition run_store {A} (w : Z * Keyspace) (p : store A) : (Z * Keyspace) * result StoreError A :=
  let '(w, (_, a)) := io_execute serve w p in (w, a).

Lemma run_answered {A B} (f : A → result StoreError B) (command : redis A) now ks ks' (a : A) :
  command now ks = (ks', Some a) →
  run_store (now, ks) (answered_by f (query command)) = ((now, ks'), f a).
Proof. intros H. unfold run_store, answered_by. cbn. by rewrite H. Qed.

(** ** What a slot holds *)

Definition read_slot (fields : option (gmap string Bulk)) : option NonceHolder :=
  hash ← (fields ≫= λ fields, fields !! "userOperationHash") ≫= raw_text;
  let claimed_at := default "0" ((fields ≫= λ fields, fields !! "claimedAtMs") ≫= raw_text) in
  Some {| nh_user_operation_hash := hash; nh_claimed_at_ms := default 0 (ok (parse_uint 64 claimed_at)) |}.

Definition slot_at (w : Z * Keyspace) (slot : NonceSlot) : option NonceHolder :=
  read_slot (hash_at w.1 w.2 (nonce_slot_key slot)).

(** The only key that has moved. *)
Definition only_slot (w w' : Z * Keyspace) (slot : NonceSlot) : Prop :=
  w'.1 = w.1 ∧ ks_texts w'.2 = ks_texts w.2 ∧ ks_sets w'.2 = ks_sets w.2 ∧ ks_sorted w'.2 = ks_sorted w.2 ∧
  delete (nonce_slot_key slot) (ks_hashes w'.2) = delete (nonce_slot_key slot) (ks_hashes w.2).

Lemma only_slot_refl w slot : only_slot w w slot.
Proof. by split_and!. Qed.

Lemma lower_equal_ignore a b : lower_equal a b = eq_ignore_ascii_case a b.
Proof.
  unfold lower_equal, eq_ignore_ascii_case. apply eq_true_iff_eq. by rewrite String.eqb_eq, bool_decide_eq_true.
Qed.

Lemma unexpired_deadline {A B} now (e : option (Expiring A)) (v : B) : unexpired now (v, deadline_of now e) = Some v.
Proof.
  destruct e as [[a [deadline|]]|]; [|done..]. unfold deadline_of, unexpired. cbn.
  destruct (decide (now < deadline)) as [Hd|Hd] eqn:E; cbn; [|done]. by rewrite E.
Qed.

Lemma take_slot_runs slot hash at_ms ttl now ks :
  0 < ttl → fits 64 at_ms →
  ∃ ks', take_slot (nonce_slot_key slot) hash at_ms ttl now ks = (ks', Some (1, hash, dec at_ms)) ∧
    slot_at (now, ks') slot = Some {| nh_user_operation_hash := hash; nh_claimed_at_ms := at_ms |} ∧
    only_slot (now, ks) (now, ks') slot.
Proof.
  intros Ht Hf. unfold take_slot, HSET, PEXPIRE_hash, HGETALL, writes, reads, mbind, redis_mbind. cbn.
  rewrite hash_at_insert, decide_True, unexpired_deadline by done. cbn. eexists. split; [reflexivity|]. split.
  - unfold slot_at. cbn [fst snd]. rewrite hash_at_insert, decide_True by done. unfold unexpired. cbn [fst snd].
    rewrite decide_True by lia. unfold read_slot. cbn.
    rewrite <-!insert_union_l, lookup_insert_eq, lookup_insert_ne, lookup_insert_eq by done. cbn.
    rewrite (parse_uint_dec 64 at_ms Hf). done.
  - unfold only_slot. cbn. split_and!; [done..|]. by rewrite !delete_insert_eq.
Qed.

(** ** The core's cell *)

(** A claim and a takeover: the slot takes the step and the reply is the
    step's. *)
Definition takes_step (w w' : Z * Keyspace) (slot : NonceSlot) (step : SlotStep)
    (reply : result StoreError NonceClaim) : Prop :=
  slot_at w' slot = apply_step (slot_at w slot) step ∧ reply = Ok (step_reply step) ∧ only_slot w w' slot.

(** The slot's fields, as the scripts read them. *)
Definition slot_field (now : Z) (ks : Keyspace) (slot : NonceSlot) (field : string) : option string :=
  (hash_at now ks (nonce_slot_key slot) ≫= λ fields, fields !! field) ≫= raw_text.

Lemma slot_at_field now ks slot :
  slot_at (now, ks) slot =
    (hash ← slot_field now ks slot "userOperationHash";
     Some {| nh_user_operation_hash := hash;
             nh_claimed_at_ms :=
               default 0 (ok (parse_uint 64 (default "0" (slot_field now ks slot "claimedAtMs")))) |}).
Proof. reflexivity. Qed.

Lemma HGET_bind {A} key field (F : option Bulk → redis A) now ks :
  (HGET key field ≫= F) now ks = F (hash_at now ks key ≫= λ fields, fields !! field) now ks.
Proof. reflexivity. Qed.

Lemma claimed_at_bind {A} slot (F : string → redis A) now ks :
  (slot_claimed_at (nonce_slot_key slot) ≫= F) now ks = F (default "0" (slot_field now ks slot "claimedAtMs")) now ks.
Proof. reflexivity. Qed.

(** A script that ends with the step's reply and leaves the slot as the step. *)
Definition script_steps (now : Z) (ks0 ks : Keyspace) (slot : NonceSlot) (m : redis (Z * string * string))
    (step : SlotStep) : Prop :=
  ∃ ks' reply, m now ks = (ks', Some reply) ∧ takes_step (now, ks0) (now, ks') slot step (nonce_claim_reply reply).

Lemma script_steps_run now ks slot m step :
  script_steps now ks ks slot m step →
  let '(w, reply) := run_store (now, ks) (answered_by nonce_claim_reply (query m)) in
  takes_step (now, ks) w slot step reply.
Proof. intros (ks' & r & Hm & Hs). by rewrite (run_answered _ _ _ _ _ _ Hm). Qed.

(** The holder the slot names answers, and stays. *)
Lemma held_steps now ks slot step current code :
  slot_field now ks slot "userOperationHash" = Some current → step_write step = None →
  nonce_claim_reply (code, current, default "0" (slot_field now ks slot "claimedAtMs")) = Ok (step_reply step) →
  script_steps now ks ks slot (mret (code, current, default "0" (slot_field now ks slot "claimedAtMs"))) step.
Proof.
  intros Hs Hw Hr. eexists _, _. split; [reflexivity|]. split_and!; [|done|apply only_slot_refl].
  unfold apply_step. by rewrite Hw.
Qed.

(** The slot is taken, from nobody or from the one just deleted. *)
Lemma taken_steps now ks0 ks slot hash at_ms step :
  fits 64 at_ms → only_slot (now, ks0) (now, ks) slot →
  step_write step = Some {| nh_user_operation_hash := hash; nh_claimed_at_ms := at_ms |} →
  step_reply step = Claimed true →
  script_steps now ks0 ks slot (take_slot (nonce_slot_key slot) hash at_ms SLOT_TTL_MS) step.
Proof.
  intros Hf Ho Hw Hr. destruct (take_slot_runs slot hash at_ms SLOT_TTL_MS now ks) as (ks' & Hrun & Hslot & Ho'); [done..|].
  eexists _, _. split; [exact Hrun|]. split_and!.
  - rewrite Hslot. unfold apply_step. by rewrite Hw.
  - by rewrite Hr.
  - destruct Ho as (? & ? & ? & ? & ?), Ho' as (? & ? & ? & ? & ?). unfold only_slot in *. cbn in *. split_and!; congruence.
Qed.

(** The slot of the one who asks. *)
Lemma same_hash_lower current claimed_at hash at_ms :
  same_hash {| nh_user_operation_hash := current; nh_claimed_at_ms := claimed_at |}
            {| nh_user_operation_hash := hash; nh_claimed_at_ms := at_ms |} = lower_equal current hash.
Proof. by rewrite lower_equal_ignore. Qed.

Lemma claim_steps now ks slot hash at_ms :
  fits 64 at_ms →
  script_steps now ks ks slot (CLAIM_NONCE_SLOT_SCRIPT (nonce_slot_key slot) hash at_ms SLOT_TTL_MS)
    (claim (slot_at (now, ks) slot) {| nh_user_operation_hash := hash; nh_claimed_at_ms := at_ms |}).
Proof.
  intros Hf. unfold CLAIM_NONCE_SLOT_SCRIPT, script_steps. rewrite HGET_bind, slot_at_field. fold (slot_field now ks slot "userOperationHash").
  destruct (slot_field now ks slot "userOperationHash") as [current|] eqn:Eh; cbn [mbind option_bind].
  - rewrite claimed_at_bind. unfold claim. rewrite same_hash_lower.
    destruct (lower_equal current hash); by apply held_steps.
  - apply taken_steps; [done|apply only_slot_refl|done..].
Qed.

Lemma take_over_steps now ks slot judged hash at_ms :
  fits 64 at_ms →
  script_steps now ks ks slot (TAKE_OVER_NONCE_SLOT_SCRIPT (nonce_slot_key slot) hash at_ms SLOT_TTL_MS judged)
    (take_over (slot_at (now, ks) slot) judged {| nh_user_operation_hash := hash; nh_claimed_at_ms := at_ms |}).
Proof.
  intros Hf. unfold TAKE_OVER_NONCE_SLOT_SCRIPT, script_steps.
  assert (Hd : ∀ step, step_write step = Some {| nh_user_operation_hash := hash; nh_claimed_at_ms := at_ms |} →
    step_reply step = Claimed true →
    script_steps now ks ks slot
      (_ ← DEL_hash (nonce_slot_key slot); take_slot (nonce_slot_key slot) hash at_ms SLOT_TTL_MS) step).
  { intros step Hw Hr. pose proof (taken_steps now ks (with_hashes (delete (nonce_slot_key slot)) ks) slot hash at_ms step Hf) as H.
    apply H; [|done..]. unfold only_slot. cbn. split_and!; [done..|]. by rewrite delete_delete_eq. }
  rewrite HGET_bind, slot_at_field. fold (slot_field now ks slot "userOperationHash").
  destruct (slot_field now ks slot "userOperationHash") as [current|] eqn:Eh; cbn [mbind option_bind]; [|by apply Hd].
  rewrite claimed_at_bind. unfold take_over. rewrite same_hash_lower, <-lower_equal_ignore.
  destruct (lower_equal current hash); [by apply held_steps|]. cbn [nh_user_operation_hash].
  destruct (lower_equal current judged); cbn [negb]; [by apply Hd|by apply held_steps].
Qed.

(** A release: the slot is free afterwards exactly if the core releases it. *)
Definition takes_release (w w' : Z * Keyspace) (slot : NonceSlot) (released : bool) (reply : result StoreError bool) : Prop :=
  slot_at w' slot = (if released then None else slot_at w slot) ∧ reply = Ok released ∧ only_slot w w' slot.

Lemma release_takes now ks slot hash :
  let '(w, reply) := run_store (now, ks) (release_nonce_slot slot hash) in
  takes_release (now, ks) w slot (release (slot_at (now, ks) slot) hash) reply.
Proof.
  unfold release_nonce_slot, replied_one.
  assert (∃ ks', RELEASE_NONCE_SLOT_SCRIPT (nonce_slot_key slot) hash now ks =
      (ks', Some (if release (slot_at (now, ks) slot) hash then 1 else 0)) ∧
      ks' = if release (slot_at (now, ks) slot) hash then with_hashes (delete (nonce_slot_key slot)) ks else ks)
    as (ks' & Hr & Hks).
  { unfold RELEASE_NONCE_SLOT_SCRIPT. rewrite HGET_bind, slot_at_field. fold (slot_field now ks slot "userOperationHash").
    destruct (slot_field now ks slot "userOperationHash") as [current|]; cbn [mbind option_bind release];
      [|by eexists]. cbn [nh_user_operation_hash]. rewrite <-lower_equal_ignore.
    destruct (lower_equal current hash); by eexists. }
  rewrite (run_answered _ _ _ _ _ _ Hr). subst ks'. destruct (release (slot_at (now, ks) slot) hash).
  - split_and!; [|done|].
    + unfold slot_at. cbn [fst snd]. by rewrite hash_at_delete, decide_True.
    + unfold only_slot. cbn. split_and!; [done..|]. by rewrite delete_delete_eq.
  - split_and!; [done|done|apply only_slot_refl].
Qed.

(** C15: The server's nonce slots are the core's.  Claiming, taking over and
    releasing a slot through the Redis scripts does to what the slot holds, and
    replies, exactly what the core's [claim], [take_over] and [release] say for
    the holder the slot has (letter case and the two-hour expiry included), and
    touches no other key. *)
Theorem redis_nonce_slot_is_the_core now ks slot holder judged hash :
  fits 64 (nh_claimed_at_ms holder) →
  let w := (now, ks) in
  let claimed := run_store w (claim_nonce_slot slot holder) in
  let taken := run_store w (take_over_nonce_slot slot judged holder) in
  let released := run_store w (release_nonce_slot slot hash) in
  takes_step w claimed.1 slot (claim (slot_at w slot) holder) claimed.2 ∧
  takes_step w taken.1 slot (take_over (slot_at w slot) judged holder) taken.2 ∧
  takes_release w released.1 slot (release (slot_at w slot) hash) released.2.
Proof.
  intros Hf. destruct holder as [claimant at_ms]. cbv zeta. split_and!.
  - pose proof (script_steps_run now ks slot _ _ (claim_steps now ks slot claimant at_ms Hf)) as H.
    unfold claim_nonce_slot. cbn [nh_user_operation_hash nh_claimed_at_ms]. by destruct (run_store _ _).
  - pose proof (script_steps_run now ks slot _ _ (take_over_steps now ks slot judged claimant at_ms Hf)) as H.
    unfold take_over_nonce_slot. cbn [nh_user_operation_hash nh_claimed_at_ms]. by destruct (run_store _ _).
  - pose proof (release_takes now ks slot hash) as H. by destruct (run_store _ _).
Qed.

(** A slot another operation has held for a minute. *)
Definition slot_example : NonceSlot :=
  {| slot_chain_id := 8453; slot_entry_point := "0xee"; slot_sender := "0x5e"; slot_nonce := "0x01" |}.
Definition held_world : Keyspace :=
  (CLAIM_NONCE_SLOT_SCRIPT (nonce_slot_key slot_example) "0xAA" 1000 SLOT_TTL_MS 1000 empty_keyspace).1.

Lemma redis_nonce_slot_is_the_core_witness :
  slot_at (61000, held_world) slot_example = Some {| nh_user_operation_hash := "0xAA"; nh_claimed_at_ms := 1000 |} ∧
  let holder := {| nh_user_operation_hash := "0xbb"; nh_claimed_at_ms := 61000 |} in
  let w := (61000, held_world) in
  let claimed := run_store w (claim_nonce_slot slot_example holder) in
  let taken := run_store w (take_over_nonce_slot slot_example "0xaa" holder) in
  let released := run_store w (release_nonce_slot slot_example "0xaa") in
  takes_step w claimed.1 slot_example (claim (slot_at w slot_example) holder) claimed.2 ∧
  takes_step w taken.1 slot_example (take_over (slot_at w slot_example) "0xaa" holder) taken.2 ∧
  takes_release w released.1 slot_example (release (slot_at w slot_example) "0xaa") released.2.
Proof.
  split; [vm_compute; reflexivity|].
  exact (redis_nonce_slot_is_the_core 61000 held_world slot_example
           {| nh_user_operation_hash := "0xbb"; nh_claimed_at_ms := 61000 |} "0xaa" "0xaa"
           (conj (Zle_bool_imp_le 0 61000 eq_refl) eq_refl)).
Defined.
