(* ===== verification/RedisSchedule.v ===== *)
(** * RedisSchedule: nothing parked in the server's inbox is lost

    An item of the delayed inbox is a hash under its identifier and a score in
    the schedule.  Whatever commands of the store run, an item that holds a
    payload keeps a time in the schedule, so that a later claim finds it. *)

From S2P Require Export RedisSlots.
#[local] Open Scope string_scope.
#[local] Open Scope list_scope.
#[local] Open Scope Z_scope.
#[local] Set Default Proof Using "Type*".

(** What the inbox has of an identifier: its payload and its next attempt. *)
Definition payload_at (now : Z) (ks : Keyspace) (identifier : string) : option Bulk :=
  hash_at now ks (delayed_operation_key identifier) ≫= λ fields, fields !! "payload".
Definition due_at (ks : Keyspace) (identifier : string) : option Z :=
  scores_at ks DELAYED_OPERATION_SCHEDULE_KEY !! identifier.
Definition inbox_at (now : Z) (ks : Keyspace) (identifier : string) : option Bulk * option Z :=
  (payload_at now ks identifier, due_at ks identifier).

(** A parked item has a time. *)
Definition kept (item : option Bulk * option Z) : Prop := is_Some item.1 → is_Some item.2.

(** A script keeps the items of [P]. *)
Definition kept_rule (P : string → Prop) (identifier : string) (a b : option Bulk * option Z) : Prop :=
  P identifier → kept a → kept b.

#[export] Instance kept_rule_preorder P key : PreOrder (kept_rule P key).
Proof. split; [by intros a _ Ha|]. intros a b c Hab Hbc HP Ha. by apply Hbc, Hab. Qed.

Abbreviation keeps_of P m := (moves inbox_at (kept_rule P) m).
Abbreviation keeps m := (∀ P, keeps_of P m).

Lemma keeps_same (f : Z → Keyspace → Keyspace) :
  (∀ now ks identifier, inbox_at now (f now ks) identifier = inbox_at now ks identifier) → keeps (writes f).
Proof. intros Hf P now ks identifier. cbn. by rewrite Hf. Qed.

Lemma keeps_texts f : keeps (writes (λ now ks, with_texts (f now ks) ks)).
Proof. by apply keeps_same. Qed.
Lemma keeps_sets f : keeps (writes (λ now ks, with_sets (f now ks) ks)).
Proof. by apply keeps_same. Qed.
Lemma keeps_hash_delete key : keeps (writes (λ _, with_hashes (delete key))).
Proof.
  intros P now ks identifier _ Ha [p Hp]. apply Ha. cbn in *. unfold payload_at in *. rewrite hash_at_delete in Hp.
  case_decide; [done|]. rewrite Hp. by eexists.
Qed.

(** Fields of an item other than its payload. *)
Lemma keeps_fields key fields :
  Forall (λ f, f.1 ≠ "payload") fields → keeps (HSET key fields).
Proof.
  intros Hf. apply keeps_same. intros now ks identifier. unfold inbox_at, payload_at. rewrite hash_at_insert.
  case_decide as E; [|done]. subst key. rewrite unexpired_deadline. cbn. f_equal.
  rewrite lookup_union_r; [by destruct (hash_at now ks _)|].
  apply not_elem_of_list_to_map. rewrite list_elem_of_fmap. intros (f & Hn & Hin).
  rewrite Forall_forall in Hf. by destruct (Hf f Hin).
Qed.

Lemma keeps_PEXPIRE key ttl : keeps (PEXPIRE_hash key ttl).
Proof.
  intros P now ks identifier. unfold PEXPIRE_hash, HGETALL, reads, mbind, redis_mbind. cbn.
  destruct (hash_at now ks key) as [fields|] eqn:E; [|reflexivity]. cbn. intros _ Ha [p Hp]. apply Ha. cbn in *.
  unfold payload_at in *. rewrite hash_at_insert in Hp. case_decide as Ek; [|by eexists]. subst key. rewrite E. cbn.
  unfold unexpired in Hp. cbn in Hp. case_decide; [|done]. cbn in Hp. rewrite Hp. by eexists.
Qed.

Lemma due_at_ZADD now ks score identifier identifier' :
  due_at (ZADD DELAYED_OPERATION_SCHEDULE_KEY score identifier now ks).1 identifier' =
  if decide (identifier' = identifier) then Some score else due_at ks identifier'.
Proof.
  unfold due_at, scores_at. cbn. rewrite lookup_insert_eq. cbn.
  case_decide; subst; [by rewrite lookup_insert_eq|by rewrite lookup_insert_ne].
Qed.
Lemma due_at_ZREM now ks identifier identifier' :
  due_at (ZREM DELAYED_OPERATION_SCHEDULE_KEY identifier now ks).1 identifier' =
  if decide (identifier' = identifier) then None else due_at ks identifier'.
Proof.
  unfold due_at, scores_at. cbn. rewrite lookup_insert_eq. cbn.
  case_decide; subst; [by rewrite lookup_delete_eq|by rewrite lookup_delete_ne].
Qed.

Lemma keeps_ZADD score identifier : keeps (ZADD DELAYED_OPERATION_SCHEDULE_KEY score identifier).
Proof.
  intros P now ks identifier' _ Ha Hp. cbn [inbox_at snd]. unfold inbox_at. cbn [snd]. rewrite due_at_ZADD.
  case_decide; [by eexists|]. by apply Ha.
Qed.

(** Only an identifier without a payload may be dropped. *)
Lemma kept_ZREM P now ks identifier identifier' :
  payload_at now ks identifier = None →
  kept_rule P identifier' (inbox_at now ks identifier')
    (inbox_at now (ZREM DELAYED_OPERATION_SCHEDULE_KEY identifier now ks).1 identifier').
Proof.
  intros Hn _ Ha Hp. unfold inbox_at in *. cbn [snd]. rewrite due_at_ZREM. case_decide as E; [|by apply Ha].
  subst identifier'. cbn in Hp. change (payload_at now (with_sorted _ ks) identifier) with (payload_at now ks identifier) in Hp.
  rewrite Hn in Hp. by destruct Hp.
Qed.

(** ** The commands *)

Ltac keeps :=
  repeat lazymatch goal with
  | |- ∀ _ : string → Prop, _ => intros ?
  | |- keeps_of _ (mbind _ _) => apply moves_bind; [preorders| |intros ?]
  | |- keeps_of _ (redis_for _ _ _) => apply moves_for; [preorders|intros ? ?]
  | |- keeps_of _ (match ?x with _ => _ end) => destruct x
  | |- keeps_of _ (HSET _ _) => apply keeps_fields; repeat constructor; discriminate
  | |- keeps_of _ (PEXPIRE_hash _ _) => apply keeps_PEXPIRE
  | |- keeps_of _ (ZADD _ _ _) => apply keeps_ZADD
  | |- keeps_of _ _ =>
      first
        [ apply moves_mret; preorders | apply moves_error; preorders | apply moves_need; preorders
        | apply moves_reads; preorders | apply keeps_hash_delete
        | apply (keeps_texts (λ now ks, <[_ := _]>)) | apply (keeps_texts (λ now ks, delete _))
        | apply (keeps_sets (λ now ks, <[_ := _]>))
        | progress (unfold GET, MGET, SET_NX, SET_PX, SET_KEEPTTL, DEL_text, PEXPIRE_text, HGET, HGETALL, DEL_hash,
            EXISTS_hash, HINCR, SADD, SREM, SMEMBERS, EXPIRE_set, ZRANGEBYSCORE, TIME) ]
  end.

Lemma keeps_schedule_attempt item identifier ttl schedule :
  keeps (schedule_attempt item DELAYED_OPERATION_SCHEDULE_KEY identifier ttl schedule).
Proof. unfold schedule_attempt. keeps. Qed.
Lemma keeps_canonical payload_key canonical payload ttl : keeps (keep_canonical payload_key canonical payload ttl).
Proof. unfold keep_canonical. keeps. Qed.
Lemma keeps_claim_slot key hash at_ms ttl : keeps (CLAIM_NONCE_SLOT_SCRIPT key hash at_ms ttl).
Proof. unfold CLAIM_NONCE_SLOT_SCRIPT, slot_claimed_at, take_slot, slot_fields. keeps. Qed.
Lemma keeps_take_over_slot key hash at_ms ttl judged : keeps (TAKE_OVER_NONCE_SLOT_SCRIPT key hash at_ms ttl judged).
Proof. unfold TAKE_OVER_NONCE_SLOT_SCRIPT, slot_claimed_at, take_slot, slot_fields. keeps. Qed.
Lemma keeps_release_slot key hash : keeps (RELEASE_NONCE_SLOT_SCRIPT key hash).
Proof. unfold RELEASE_NONCE_SLOT_SCRIPT. keeps. Qed.
Lemma keeps_release key token : keeps (RELEASE_LEASE_SCRIPT key token).
Proof. unfold RELEASE_LEASE_SCRIPT. keeps. Qed.
Lemma keeps_renew key token ttl : keeps (RENEW_LEASE_SCRIPT key token ttl).
Proof. unfold RENEW_LEASE_SCRIPT. keeps. Qed.
Lemma keeps_save_bundle key index payload : keeps (SAVE_PREPARED_BUNDLE_SCRIPT key index payload).
Proof. unfold SAVE_PREPARED_BUNDLE_SCRIPT. keeps. Qed.
Lemma keeps_clear_bundle key index hash : keeps (CLEAR_PREPARED_BUNDLE_SCRIPT key index hash).
Proof. unfold CLEAR_PREPARED_BUNDLE_SCRIPT, cjson_decode. keeps. Qed.
Lemma keeps_list_bundles index : keeps (LIST_PREPARED_BUNDLES_SCRIPT index).
Proof. unfold LIST_PREPARED_BUNDLES_SCRIPT. keeps. Qed.
Lemma keeps_save_funding key payload : keeps (SAVE_PREPARED_FUNDING_SCRIPT key payload).
Proof. unfold SAVE_PREPARED_FUNDING_SCRIPT. keeps. Qed.
Lemma keeps_clear_funding key hash : keeps (CLEAR_PREPARED_FUNDING_SCRIPT key hash).
Proof. unfold CLEAR_PREPARED_FUNDING_SCRIPT, cjson_decode. keeps. Qed.

(** *** Parking, claiming, completing, retrying *)

(** A script that has run to its end goes on. *)
Lemma bind_runs {A B} (m : redis A) (f : A → redis B) now ks ks' a :
  m now ks = (ks', Some a) → (m ≫= f) now ks = f a now ks'.
Proof. intros Hm. unfold mbind, redis_mbind. by rewrite Hm. Qed.

(** The first attempt of an item is scheduled. *)
Lemma first_attempt_scheduled now ks identifier ttl schedule :
  schedule ≠ [] →
  (hash_at now ks (delayed_operation_key identifier) ≫= λ fields, fields !! "attempts") = Some (Raw "0") →
  ∃ ks', schedule_attempt (delayed_operation_key identifier) DELAYED_OPERATION_SCHEDULE_KEY identifier ttl schedule
           now ks = (ks', Some 1) ∧ is_Some (due_at ks' identifier).
Proof.
  intros Hs Ha. unfold schedule_attempt.
  assert (∃ ks1, HINCR (delayed_operation_key identifier) "attempts" now ks = (ks1, Some 1)) as [ks1 H1].
  { unfold HINCR. rewrite HGET_bind, Ha. by eexists. }
  rewrite (bind_runs _ _ _ _ _ _ H1).
  destruct schedule as [|d schedule]; [done|].
  rewrite (bind_runs _ _ now ks1 ks1 d) by (cbn [scheduled_delay]; unfold scheduled_delay;
    rewrite Z.min_l by (cbn [length]; lia); done).
  rewrite (bind_runs _ _ now ks1 ks1 now) by done.
  set (due := now + d).
  assert (∃ ks2, PEXPIRE_hash (delayed_operation_key identifier) ttl now
                   (HSET (delayed_operation_key identifier) [("nextAttemptAtMs", Raw (dec due))] now ks1).1
                 = (ks2, Some 1)) as [ks2 H2].
  { unfold PEXPIRE_hash. rewrite (bind_runs _ _ _ _ _ _ eq_refl). unfold HSET at 1. cbn [fst writes].
    rewrite hash_at_insert, decide_True, unexpired_deadline by done. by eexists. }
  rewrite (bind_runs (HSET _ _) _ _ _ _ () eq_refl), (bind_runs _ _ _ _ _ _ H2).
  rewrite (bind_runs (ZADD _ _ _) _ _ _ _ () eq_refl). eexists. split; [reflexivity|].
  change (is_Some (due_at (ZADD DELAYED_OPERATION_SCHEDULE_KEY due identifier now ks2).1 identifier)).
  rewrite due_at_ZADD, decide_True by done. by eexists.
Qed.

Lemma due_at_DEL key now ks identifier : due_at (DEL_text key now ks).1 identifier = due_at ks identifier.
Proof. reflexivity. Qed.

Lemma GET_bind {A} key (F : option Bulk → redis A) now ks : (GET key ≫= F) now ks = F (text_at now ks key) now ks.
Proof. reflexivity. Qed.

(** The payload of one item does not touch the others. *)
Lemma keeps_new_item P identifier fields :
  ¬ P identifier → keeps_of P (HSET (delayed_operation_key identifier) fields).
Proof.
  intros Hn now ks identifier' HP. unfold inbox_at, payload_at. cbn [HSET writes fst]. rewrite hash_at_insert.
  case_decide as E; [|done]. apply str_app_inj_l in E. by subst identifier'.
Qed.

(** What a script does to one item is decided by a rule about that item. *)
Lemma keeps_at {A} P Q (m : redis A) now ks identifier :
  Q identifier → keeps_of Q m → kept_rule P identifier (inbox_at now ks identifier) (inbox_at now (m now ks).1 identifier).
Proof. intros HQ Hm _. exact (Hm now ks identifier HQ). Qed.

Lemma keep_canonical_runs payload_key held canonical ttl now ks :
  ∃ ks', keep_canonical payload_key held canonical ttl now ks = (ks', Some ()).
Proof.
  unfold keep_canonical. destruct held; [|by eexists]. unfold PEXPIRE_text, mbind, redis_mbind. cbn.
  destruct (text_at now ks payload_key); by eexists.
Qed.

Lemma keeps_save_delayed P payload_key identifier claim canonical payload ttl schedule :
  schedule ≠ [] →
  keeps_of P (SAVE_DELAYED_OPERATION_SCRIPT payload_key (delayed_operation_key identifier) DELAYED_OPERATION_SCHEDULE_KEY
    claim canonical payload identifier ttl schedule).
Proof.
  intros Hs now ks identifier'. unfold SAVE_DELAYED_OPERATION_SCRIPT. rewrite GET_bind, HGET_bind.
  generalize (text_at now ks payload_key). intros held.
  destruct (hash_at now ks _ ≫= _) as [existing|]; (destruct (_ || _); [reflexivity|]).
  - apply (keeps_at _ (λ _, True)); [done|]. keeps; [apply keeps_canonical|apply keeps_schedule_attempt].
  - destruct (decide (identifier' = identifier)) as [->|Hne].
    + intros _ _ _. cbn [inbox_at snd]. destruct (keep_canonical_runs payload_key held canonical ttl now ks) as [ks1 H1].
      rewrite (bind_runs _ _ _ _ _ _ H1), (bind_runs (HSET _ _) _ _ _ _ () eq_refl).
      destruct (first_attempt_scheduled now
        (HSET (delayed_operation_key identifier) [("payload", Json payload); ("attempts", Raw "0")] now ks1).1
        identifier ttl schedule Hs) as (ks2 & H2 & Hd).
      { cbn [HSET writes fst]. rewrite hash_at_insert, decide_True, unexpired_deadline by done. cbn.
        by rewrite <-!insert_union_l, lookup_insert_ne, lookup_insert_eq. }
      rewrite (bind_runs _ _ _ _ _ _ H2). exact Hd.
    + apply (keeps_at _ (λ i, i ≠ identifier)); [done|].
      apply moves_bind; [preorders|apply keeps_canonical|intros _].
      apply moves_bind; [preorders|apply keeps_new_item; by intros []|intros _].
      keeps. apply keeps_schedule_attempt.
Qed.

Lemma keeps_claim_delayed P token limit claim_prefix claim_ttl :
  keeps_of P (CLAIM_DELAYED_OPERATIONS_SCRIPT DELAYED_OPERATION_SCHEDULE_KEY token limit DELAYED_OPERATION_KEY_PREFIX
    claim_prefix claim_ttl).
Proof.
  unfold CLAIM_DELAYED_OPERATIONS_SCRIPT.
  apply moves_bind; [preorders|keeps|intros at_ms]. apply moves_bind; [preorders|keeps|intros identifiers].
  apply moves_for; [preorders|]. intros identifier claimed now ks identifier'. rewrite HGET_bind.
  destruct (hash_at now ks _ ≫= _) as [payload|] eqn:E.
  - apply (keeps_at P (λ _, True)); [done|]. keeps.
  - exact (kept_ZREM P now ks identifier identifier' E).
Qed.

(** Deleting an item, then its time. *)
Lemma payload_at_delete now ks identifier :
  payload_at now (with_hashes (delete (delayed_operation_key identifier)) ks) identifier = None.
Proof. unfold payload_at. by rewrite hash_at_delete, decide_True. Qed.

Lemma keeps_complete_delayed P claim token identifier :
  keeps_of P (COMPLETE_DELAYED_OPERATION_SCRIPT (delayed_operation_key identifier) DELAYED_OPERATION_SCHEDULE_KEY claim
    token identifier).
Proof.
  intros now ks identifier'. unfold COMPLETE_DELAYED_OPERATION_SCRIPT. rewrite GET_bind.
  destruct (negb _); [reflexivity|].
  set (ks1 := (DEL_text claim now ks).1). set (ks2 := (DEL_hash (delayed_operation_key identifier) now ks1).1).
  etransitivity; [|exact (kept_ZREM P now ks2 identifier identifier' (payload_at_delete now ks1 identifier))].
  exact (keeps_hash_delete (delayed_operation_key identifier) P now ks1 identifier').
Qed.

Lemma keeps_retry_delayed P claim payload_key token identifier ttl canonical schedule :
  keeps_of P (RETRY_DELAYED_OPERATION_SCRIPT (delayed_operation_key identifier) DELAYED_OPERATION_SCHEDULE_KEY claim
    payload_key token identifier ttl canonical schedule).
Proof.
  intros now ks identifier'. unfold RETRY_DELAYED_OPERATION_SCRIPT. rewrite GET_bind. destruct (negb _); [reflexivity|].
  unfold EXISTS_hash. rewrite (bind_runs _ _ now ks ks _ eq_refl).
  destruct (hash_at now ks (delayed_operation_key identifier)) as [fields|] eqn:E.
  - apply (keeps_at P (λ _, True)); [done|]. cbn [Z.eqb]. keeps; [apply keeps_canonical|apply keeps_schedule_attempt].
  - refine (kept_ZREM P now (DEL_text claim now ks).1 identifier identifier' _). unfold payload_at.
    change (hash_at now _ _) with (hash_at now ks (delayed_operation_key identifier)). by rewrite E.
Qed.

Section Merge.
Context `{LJ : LuaJson}.

Lemma keeps_patch key patch observed : keeps (PATCH_RECORD_SCRIPT key patch observed).
Proof. unfold PATCH_RECORD_SCRIPT, cjson_decode, lua_merge. keeps. Qed.
Lemma keeps_mark index transaction_hash ttl members : keeps (MARK_BUNDLE_SUBMITTED_SCRIPT index transaction_hash ttl members).
Proof.
  intros P. unfold MARK_BUNDLE_SUBMITTED_SCRIPT, mark_member, cjson_decode, lua_merge.
  apply moves_bind; [preorders| |intros indexed; keeps]. apply moves_for; [preorders|].
  intros [[[member kind] observed] hash] indexed. keeps.
Qed.

(** Every command of the store keeps every parked item. *)
Lemma commands_keep {cleared R} (command : redis R) : store_command cleared R command → keeps command.
Proof.
  destruct 1; intros P.
  - keeps.
  - keeps.
  - keeps.
  - keeps.
  - apply keeps_patch.
  - apply keeps_mark.
  - keeps.
  - apply keeps_renew.
  - apply keeps_release.
  - apply keeps_save_bundle.
  - apply keeps_clear_bundle.
  - apply keeps_list_bundles.
  - apply keeps_save_funding.
  - apply keeps_clear_funding.
  - apply keeps_save_funding.
  - apply keeps_clear_funding.
  - keeps.
  - apply keeps_claim_slot.
  - apply keeps_take_over_slot.
  - apply keeps_release_slot.
  - keeps.
  - apply keeps_release.
  - by apply keeps_save_delayed.
  - apply keeps_claim_delayed.
  - apply keeps_complete_delayed.
  - apply keeps_retry_delayed.
Qed.

Definition all_kept (w : Z * Keyspace) : Prop := ∀ identifier, kept (inbox_at w.1 w.2 identifier).

Lemma payload_at_later now now' ks identifier :
  now ≤ now' → is_Some (payload_at now' ks identifier) → is_Some (payload_at now ks identifier).
Proof.
  intros Hn. unfold payload_at, hash_at. destruct (ks_hashes ks !! _) as [[v [deadline|]]|]; cbn; [|done..].
  unfold unexpired. cbn. destruct (decide (now' < deadline)); [by rewrite decide_True by lia|by intros [? ?]].
Qed.

Lemma world_keeps w w' : rtc world_step w w' → all_kept w → all_kept w'.
Proof.
  induction 1 as [w|w w1 w' Hw _ IH]; [done|]. intros Hk. apply IH. clear IH. intros identifier.
  destruct (world_step_cases w w1 Hw) as [[Hn Hks]|(cl & R & command & Hc & ->)].
  - intros Hp. unfold inbox_at in *. rewrite Hks in *. apply (Hk identifier). by eapply payload_at_later.
  - exact (commands_keep command Hc (λ _, True) w.1 w.2 identifier I (Hk identifier)).
Qed.
End Merge.

(** ** Handing out what is due *)

Section Claim.
Context (token : string) (claim_ttl now : Z) (Httl : 0 < claim_ttl).

Lemma SET_NX_runs key v ttl now' ks :
  SET_NX key v ttl now' ks =
  match text_at now' ks key with
  | Some _ => (ks, Some false)
  | None => (with_texts (<[key := (v, (λ ttl, now' + ttl) <$> ttl)]>) ks, Some true)
  end.
Proof. unfold SET_NX. rewrite GET_bind. by destruct (text_at now' ks key). Qed.

(** The claim of one identifier in [CLAIM_DELAYED_OPERATIONS_SCRIPT]. *)
Definition claim_one (identifier : string) (claimed : list (string * Bulk)) : redis (list (string * Bulk)) :=
  payload ← HGET (delayed_operation_key identifier) "payload";
  match payload with
  | None => _ ← ZREM DELAYED_OPERATION_SCHEDULE_KEY identifier; mret claimed
  | Some payload =>
      acquired ← SET_NX (delayed_operation_claim_key identifier) (Raw token) (Some claim_ttl);
      if acquired : bool then
        _ ← ZADD DELAYED_OPERATION_SCHEDULE_KEY (now + claim_ttl) identifier; mret (claimed ++ [(identifier, payload)])
      else mret claimed
  end.

(** Waiting to be claimed, and claimed. *)
Definition waiting (ks : Keyspace) (identifier : string) (payload : Bulk) : Prop :=
  payload_at now ks identifier = Some payload ∧ text_at now ks (delayed_operation_claim_key identifier) = None.
Definition handed_out (ks : Keyspace) (claimed : list (string * Bulk)) (identifier : string) (payload : Bulk) : Prop :=
  (identifier, payload) ∈ claimed ∧ text_at now ks (delayed_operation_claim_key identifier) = Some (Raw token).

Lemma claim_one_runs ks identifier claimed :
  ∃ ks' claimed', claim_one identifier claimed now ks = (ks', Some claimed') ∧ claimed ⊆ claimed' ∧
    (∀ payload, waiting ks identifier payload → handed_out ks' claimed' identifier payload) ∧
    (∀ other, payload_at now ks' other = payload_at now ks other) ∧
    (∀ other, other ≠ identifier ∨ text_at now ks (delayed_operation_claim_key identifier) ≠ None →
       text_at now ks' (delayed_operation_claim_key other) = text_at now ks (delayed_operation_claim_key other)).
Proof.
  unfold claim_one. rewrite HGET_bind. fold (payload_at now ks identifier). unfold waiting, handed_out.
  destruct (payload_at now ks identifier) as [payload|] eqn:Ep.
  - pose proof (SET_NX_runs (delayed_operation_claim_key identifier) (Raw token) (Some claim_ttl) now ks) as Hr.
    destruct (text_at now ks (delayed_operation_claim_key identifier)) as [held|] eqn:Ec;
      rewrite (bind_runs _ _ _ _ _ _ Hr).
    + eexists _, _. split_and!; [reflexivity|done|by intros p [_ ?]|done|done].
    + eexists _, _. split_and!; [reflexivity|set_solver| |done|].
      * intros p [[= ->] _]. split; [set_solver|]. unfold text_at. cbn. rewrite lookup_insert_eq. cbn.
        unfold unexpired. cbn. by rewrite decide_True by lia.
      * intros other [Hne|Hc]; [|done]. unfold text_at. cbn. rewrite lookup_insert_ne; [done|].
        intros E%str_app_inj_l. by destruct Hne.
  - eexists _, _. split_and!; [reflexivity|done|by intros p [? _]|done|done].
Qed.

Lemma claims_hand_out identifier payload identifiers ks claimed :
  handed_out ks claimed identifier payload ∨ identifier ∈ identifiers ∧ waiting ks identifier payload →
  ∃ ks' claimed', redis_for claim_one identifiers claimed now ks = (ks', Some claimed') ∧
    handed_out ks' claimed' identifier payload.
Proof.
  revert ks claimed. induction identifiers as [|i identifiers IH]; intros ks claimed H.
  - destruct H as [H|[H _]]; [|set_solver]. by eexists _, _.
  - destruct (claim_one_runs ks i claimed) as (ks1 & claimed1 & H1 & Hsub & Hout & Hp & Hc).
    cbn [redis_for]. rewrite (bind_runs _ _ _ _ _ _ H1). apply IH.
    destruct (decide (i = identifier)) as [->|Hne].
    + left. destruct H as [[Hin Ht]|[_ Hw]]; [|by apply Hout]. split; [by apply Hsub|]. rewrite Hc by (right; by rewrite Ht).
      exact Ht.
    + destruct H as [[Hin Ht]|[Hin [Hw Ht]]]; [left|right].
      * split; [by apply Hsub|]. by rewrite Hc by auto.
      * split; [set_solver|]. split; [by rewrite Hp|by rewrite Hc by auto].
Qed.

Lemma due_in_range ks identifier due limit :
  due_at ks identifier = Some due → due ≤ now → (size (scores_at ks DELAYED_OPERATION_SCHEDULE_KEY) ≤ limit)%nat →
  ∃ l, ZRANGEBYSCORE DELAYED_OPERATION_SCHEDULE_KEY now limit now ks = (ks, Some l) ∧ identifier ∈ l.
Proof.
  intros Hd Hn Hl. eexists. split; [reflexivity|]. rewrite take_ge.
  - rewrite list_elem_of_fmap. exists (identifier, due). split; [done|]. rewrite merge_sort_Permutation.
    apply list_elem_of_filter. split; [done|]. by apply elem_of_map_to_list.
  - rewrite length_map, merge_sort_Permutation. etransitivity; [apply length_filter|]. by rewrite length_map_to_list.
Qed.
End Claim.

(** C16: Nothing parked in the server's inbox is lost.  Whatever functions of
    the store have run since the keyspace was empty, in whatever order and with
    whatever replies lost, an identifier that still has a payload has a time in
    the schedule; and once that time has come and nobody's claim is on it, a
    claim with room for the schedule hands that payload out, under the
    claimant's token. *)
Theorem parked_operation_is_handed_out `{LJ : LuaJson} start now ks identifier payload :
  rtc world_step (start, empty_keyspace) (now, ks) → payload_at now ks identifier = Some payload →
  ∃ due, due_at ks identifier = Some due ∧
    ∀ token limit claim_ttl,
      due ≤ now → text_at now ks (delayed_operation_claim_key identifier) = None →
      (size (scores_at ks DELAYED_OPERATION_SCHEDULE_KEY) ≤ limit)%nat → 0 < claim_ttl →
      ∃ ks' claimed,
        CLAIM_DELAYED_OPERATIONS_SCRIPT DELAYED_OPERATION_SCHEDULE_KEY token limit DELAYED_OPERATION_KEY_PREFIX
          DELAYED_OPERATION_CLAIM_KEY_PREFIX claim_ttl now ks = (ks', Some claimed) ∧
        (identifier, payload) ∈ claimed ∧
        text_at now ks' (delayed_operation_claim_key identifier) = Some (Raw token).
Proof.
  intros Hr Hp. assert (kept (inbox_at now ks identifier)) as Hk.
  { apply (world_keeps _ _ Hr). intros i [p Hi]. discriminate Hi. }
  destruct Hk as [due Hd]; [by eexists|]. exists due. split; [exact Hd|].
  intros token limit claim_ttl Hdue Hc Hl Ht. unfold CLAIM_DELAYED_OPERATIONS_SCRIPT.
  rewrite (bind_runs TIME _ now ks ks now eq_refl).
  destruct (due_in_range now ks identifier due limit Hd Hdue Hl) as (l & Hz & Hin).
  rewrite (bind_runs _ _ _ _ _ _ Hz).
  apply (claims_hand_out token claim_ttl now Ht identifier payload l ks []). right. by split.
Qed.

(** An operation parked for an hour, ten minutes ago. *)
Definition parked_hash : string := "0x00000000000000000000000000000000000000000000000000000000000000aa".
Definition parked_example : DelayedUserOperation :=
  {| du_schema_version := 1; du_user_operation_hash := parked_hash; du_chain_id := 8453; du_entry_point := "0xee";
     du_user_operation := VString "op"; du_sender := "0x5e"; du_lane := 1; du_stream := "chain-8453";
     du_partition_id := 2; du_offset := 7; du_submission_tier := None |}.
Definition parked_identifier : string := delayed_operation_identifier parked_example.
Definition parking : redis Z :=
  SAVE_DELAYED_OPERATION_SCRIPT (delayed_operation_payload_key parked_hash) (delayed_operation_key parked_identifier)
    DELAYED_OPERATION_SCHEDULE_KEY (delayed_operation_claim_key parked_identifier)
    (canonical_delayed_payload parked_example) (ser_delayed parked_example) parked_identifier 3600000
    retry_delay_schedule_ms.
Definition parked_world : Keyspace := (parking 0 empty_keyspace).1.

Lemma parking_issued : issues (Query parking) (defer_user_operation parked_example 3600000).
Proof.
  assert (validate_delayed_operation parked_example = Ok ()) as Hv by (vm_compute; reflexivity).
  unfold defer_user_operation. rewrite Hv. cbn [validated]. unfold with_millis, duration_millis.
  rewrite decide_False, decide_False by lia. refine (issues_now _ _).
Qed.

Lemma parked_reached : rtc (@world_step exact_json) (0, empty_keyspace) (600000, parked_world).
Proof.
  eapply rtc_l; [|apply rtc_once, (time_passes 0 600000); lia].
  exact (command_runs None _ _ 0 empty_keyspace (f_defer None parked_example 3600000) parking_issued).
Qed.

Lemma parked_payload : payload_at 600000 parked_world parked_identifier = Some (Json (ser_delayed parked_example)).
Proof. vm_compute. reflexivity. Qed.

Lemma parked_operation_is_handed_out_witness :
  ∃ due, due_at parked_world parked_identifier = Some due ∧
    ∀ token limit claim_ttl,
      due ≤ 600000 → text_at 600000 parked_world (delayed_operation_claim_key parked_identifier) = None →
      (size (scores_at parked_world DELAYED_OPERATION_SCHEDULE_KEY) ≤ limit)%nat → 0 < claim_ttl →
      ∃ ks' claimed,
        CLAIM_DELAYED_OPERATIONS_SCRIPT DELAYED_OPERATION_SCHEDULE_KEY token limit DELAYED_OPERATION_KEY_PREFIX
          DELAYED_OPERATION_CLAIM_KEY_PREFIX claim_ttl 600000 parked_world = (ks', Some claimed) ∧
        (parked_identifier, Json (ser_delayed parked_example)) ∈ claimed ∧
        text_at 600000 ks' (delayed_operation_claim_key parked_identifier) = Some (Raw token).
Proof.
  exact (@parked_operation_is_handed_out exact_json 0 600000 parked_world parked_identifier
           (Json (ser_delayed parked_example)) parked_reached parked_payload).
Defined.
