(* ===== verification/Consumer.v ===== *)
(** * Consumer: the server's Iggy consumer
    ([src/src/worker/consumer.rs], with [is_session_error] of
    [src/src/utils/iggy.rs])

    One dispatcher per chain's stream polls batches, hands the operations to
    ten lanes, records what cannot be routed, and stores the offset up to which
    every message is settled.  The client, the lanes and the handler behind
    them are the effects of [Iggy]; a loop that runs until the process ends is
    given the number of its rounds.  Logs have no answer and are left out. *)

From S2P Require Export Execution JsonRpc Treasury Io.
#[local] Open Scope string_scope.
#[local] Open Scope list_scope.
#[local] Open Scope Z_scope.

(** ** Settings and errors *)

Definition RELAYER_LANE_COUNT : Z := 10.
Definition USER_OPERATION_TOPIC : string := "default".
Definition DEFAULT_CONSUMER_GROUP : string := "vela-relay-user-operations-v1".
(** Durations are milliseconds. *)
Definition DEFAULT_DISCOVERY_INTERVAL : Z := 15000.
Definition DEFAULT_EMPTY_POLL_INTERVAL : Z := 100.
Definition DEFAULT_RETRY_INTERVAL : Z := 1000.
Definition MAX_RECONNECT_BACKOFF : Z := 30000.
Definition DEFAULT_BATCH_SIZE : Z := 100.
Definition MAX_BATCH_SIZE : Z := 10000.

Inductive IggyError : Type :=
  | Unauthenticated | InvalidCredentials | Disconnected | NotConnected | StaleClient | ConnectionClosed
  | ClientNotFound (client : Z) | OtherIggyError (code : Z).

Definition is_session_error (error : IggyError) : bool :=
  match error with
  | Unauthenticated | InvalidCredentials | Disconnected | NotConnected | StaleClient | ConnectionClosed
  | ClientNotFound _ => true
  | OtherIggyError _ => false
  end.

(** What the iggy crate says: an error's text, and whether it takes a name. *)
Class IggyText := { iggy_text : IggyError → string; identifier : string → result IggyError () }.

Record ConsumerError : Type := { ce_message : string; ce_session : bool }.
Definition consumer_error (message : string) : ConsumerError := {| ce_message := message; ce_session := false |}.

Record ConsumerConfig : Type := {
  cc_connection_string : string; cc_consumer_group : string; cc_discovery_interval : Z;
  cc_empty_poll_interval : Z; cc_retry_interval : Z; cc_batch_size : Z }.

Definition consumer_config_new (connection_string : string) : ConsumerConfig :=
  {| cc_connection_string := connection_string; cc_consumer_group := DEFAULT_CONSUMER_GROUP;
     cc_discovery_interval := DEFAULT_DISCOVERY_INTERVAL; cc_empty_poll_interval := DEFAULT_EMPTY_POLL_INTERVAL;
     cc_retry_interval := DEFAULT_RETRY_INTERVAL; cc_batch_size := DEFAULT_BATCH_SIZE |}.

Record ChainStream : Type := { cs_chain_id : Z; cs_name : string }.

Section Errors.
Context `{IT : IggyText}.

Definition iggy_error (action : string) (error : IggyError) : ConsumerError :=
  {| ce_message := action +:+ ": " +:+ iggy_text error; ce_session := is_session_error error |}.

Definition validate_consumer_config (config : ConsumerConfig) : result ConsumerError () :=
  if String.eqb (trim (cc_connection_string config)) "" then
    Err (consumer_error "Iggy consumer connection string is empty")
  else if String.eqb (trim (cc_consumer_group config)) "" then
    Err (consumer_error "Iggy consumer group name is empty")
  else if negb (bool_decide (is_Some (ok (identifier (cc_consumer_group config))))) then
    Err (consumer_error "Iggy consumer group name is invalid")
  else if (cc_discovery_interval config =? 0) || (cc_empty_poll_interval config =? 0) ||
          (cc_retry_interval config =? 0) then
    Err (consumer_error "Iggy consumer intervals must be greater than zero")
  else if (cc_batch_size config =? 0) || (MAX_BATCH_SIZE <? cc_batch_size config) then
    Err (consumer_error "Iggy consumer batch size must be between 1 and 10000")
  else Ok ().
End Errors.

(** ** Routing *)

Record MalformedUserOperation : Type := {
  mo_chain_id : Z; mo_stream : string; mo_partition_id : Z; mo_offset : Z;
  mo_user_operation_hash : option string; mo_payload : list byte; mo_error : string }.

Record QueueEnvelope : Type := {
  qe_schema_version : Z; qe_user_operation_hash : string; qe_chain_id : Z; qe_entry_point : string;
  qe_user_operation : Value; qe_submission_tier : option SubmissionTier }.

Definition envelope_fields : list string :=
  ["schemaVersion"; "userOperationHash"; "chainId"; "entryPoint"; "userOperation"; "submissionTier"].

Definition de_envelope (v : Value) : option QueueEnvelope :=
  o ← struct_fields envelope_fields 5 v;
  if negb (fields_once envelope_fields o) then None else
  version ← req (as_uint 32) "schemaVersion" o; hash ← req as_str "userOperationHash" o;
  chain_id ← req (as_uint 64) "chainId" o; entry_point ← req as_str "entryPoint" o;
  user_operation ← req (λ v, Some (de_value v)) "userOperation" o;
  tier ← opt de_submission_tier "submissionTier" o;
  Some {| qe_schema_version := version; qe_user_operation_hash := hash; qe_chain_id := chain_id;
          qe_entry_point := entry_point; qe_user_operation := user_operation; qe_submission_tier := tier |}.

Definition relayer_lane (sender : string) : result ConsumerError Z :=
  address ← ok_or (str_strip_prefix "0x" sender) (consumer_error "sender must start with 0x");
  if negb (bool_decide (String.length address = 40%nat)) || negb (all_chars is_ascii_hexdigit address)
  then Err (consumer_error "sender must contain exactly 20 hexadecimal bytes")
  else
    low_32_bits ← ok_or (from_str_radix16 32 (str_drop 32 address))
                    (consumer_error "sender suffix is not hexadecimal");
    Ok (low_32_bits mod RELAYER_LANE_COUNT).

Section Parse.
Context `{SJ : SerdeJson}.

Definition parse_routed_operation (stream : ChainStream) (partition_id offset : Z) (payload : list byte) :
    result ConsumerError RoutedUserOperation :=
  envelope ← map_err (λ e, consumer_error ("invalid queue envelope: " +:+ e))
               (document ← json_from_slice payload;
                ok_or (de_envelope document) (derive_error "QueueEnvelope" document));
  if negb (qe_schema_version envelope =? 1) then
    Err (consumer_error ("unsupported queue schema version " +:+ dec (qe_schema_version envelope)))
  else if negb (qe_chain_id envelope =? cs_chain_id stream) then
    Err (consumer_error ("queue chain ID " +:+ dec (qe_chain_id envelope) +:+ " does not match stream chain ID "
                         +:+ dec (cs_chain_id stream)))
  else
    sender ← ok_or (v ← get "sender" (qe_user_operation envelope); as_str v)
               (consumer_error "UserOperation sender is missing");
    lane ← relayer_lane sender;
    Ok {| r_schema_version := qe_schema_version envelope;
          r_user_operation_hash := qe_user_operation_hash envelope; r_chain_id := qe_chain_id envelope;
          r_entry_point := qe_entry_point envelope; r_user_operation := qe_user_operation envelope;
          r_sender := sender; r_lane := lane; r_stream := cs_name stream; r_partition_id := partition_id;
          r_offset := offset; r_submission_tier := qe_submission_tier envelope |}.

Definition malformed_operation (stream : ChainStream) (partition_id offset : Z) (payload : list byte)
    (error : ConsumerError) : MalformedUserOperation :=
  {| mo_chain_id := cs_chain_id stream; mo_stream := cs_name stream; mo_partition_id := partition_id;
     mo_offset := offset;
     mo_user_operation_hash :=
       (document ← ok (json_from_slice payload); v ← get "userOperationHash" (de_value document); as_str v);
     mo_payload := payload; mo_error := ce_message error |}.
End Parse.

(** [chain_id_from_stream_name] and [filter_chain_streams]: a stream's name is
    its chain's, written one way. *)
Definition chain_id_from_stream_name (name : string) : option Z :=
  value ← str_strip_prefix "chain-" name;
  chain_id ← ok (parse_uint 64 value);
  if String.eqb name ("chain-" +:+ dec chain_id) then Some chain_id else None.

Fixpoint chain_insert (chain_id : Z) (name : string) (streams : list ChainStream) : list ChainStream :=
  let stream := {| cs_chain_id := chain_id; cs_name := name |} in
  match streams with
  | [] => [stream]
  | first :: rest =>
      match chain_id ?= cs_chain_id first with
      | Lt => stream :: streams
      | Eq => stream :: rest
      | Gt => first :: chain_insert chain_id name rest
      end
  end.

Definition filter_chain_streams (names : list string) : list ChainStream :=
  foldl (λ streams name, match chain_id_from_stream_name name with
                         | Some chain_id => chain_insert chain_id name streams
                         | None => streams
                         end) [] names.

(** ** Effects *)

Record PolledMessages : Type := { pm_partition_id : Z; pm_messages : list (Z * list byte) }.

Inductive Iggy : Type → Type :=
  (* the client, on this dispatcher's stream *)
  | GetConsumerGroup (stream : string) : Iggy (result IggyError bool)
  | CreateConsumerGroup (stream : string) : Iggy (result IggyError ())
  | JoinConsumerGroup (stream : string) : Iggy (result IggyError ())
  | LeaveConsumerGroup (stream : string) : Iggy (result IggyError ())
  (* the next messages, unless the shutdown comes first *)
  | PollMessages (stream : string) (batch_size : Z) : Iggy (option (result IggyError PolledMessages))
  | StoreConsumerOffset (stream : string) (partition_id offset : Z) : Iggy (result IggyError ())
  (* the lanes: a batch is accepted, its results arrive or the lane has stopped *)
  | StartLanes : Iggy ()
  | SendLane (lane : Z) (operations : list RoutedUserOperation) : Iggy bool
  | LaneResults (lane : Z) (operations : list RoutedUserOperation) : Iggy (option (list (result string ())))
  | StopLanes : Iggy ()
  | HandleMalformed (operation : MalformedUserOperation) : Iggy (result string ())
  (* a pause, unless the shutdown comes first *)
  | ShutdownRequested : Iggy bool
  | Pause (ms : Z) : Iggy bool
  (* discovery, connections and tasks *)
  | DiscoveryTick : Iggy bool
  | GetStreams : Iggy (result IggyError (list string))
  | ConnectClient : Iggy (option (result ConsumerError ()))
  | ShutdownClient : Iggy ()
  | SpawnDispatcher (stream : ChainStream) : Iggy Z
  | CancelDispatcher (task : Z) : Iggy ()
  | TaskFinished (task : Z) : Iggy bool
  | AwaitTask (task : Z) : Iggy ().

Abbreviation consuming := (io Iggy).

(** ** A batch *)

Record BatchResult : Type := {
  br_highest_contiguous_durable_offset : option Z; br_had_failure : bool; br_fatal_lane_failure : bool }.

Definition batch_result (outcomes : list (Z * bool)) (fatal_lane_failure : bool) : BatchResult :=
  {| br_highest_contiguous_durable_offset := last (map fst (take_while snd outcomes));
     br_had_failure := existsb (λ outcome, negb outcome.2) outcomes;
     br_fatal_lane_failure := fatal_lane_failure |}.

(** [outcomes[index].1 = true] *)
Definition mark_durable (outcomes : list (Z * bool)) (index : nat) : list (Z * bool) :=
  alter (λ outcome, (outcome.1, true)) index outcomes.

(** What the first loop sorts the messages into: each lane's operations and the
    malformed ones, with their positions. *)
Record Sorted : Type := {
  so_lanes : list (list (nat * RoutedUserOperation)); so_malformed : list (nat * MalformedUserOperation) }.

Definition no_operations : Sorted :=
  {| so_lanes := replicate (Z.to_nat RELAYER_LANE_COUNT) []; so_malformed := [] |}.

Record LaneBatchCompletion : Type := { lc_lane : Z; lc_operations : list (nat * RoutedUserOperation) }.

Section Batch.
Context `{SJ : SerdeJson} `{IT : IggyText}.

Definition sort_message (stream : ChainStream) (partition_id : Z) (sorted : Sorted) (index : nat)
    (message : Z * list byte) : Sorted :=
  let '(offset, payload) := message in
  match parse_routed_operation stream partition_id offset payload with
  | Ok operation =>
      {| so_lanes := alter (λ operations, operations ++ [(index, operation)]) (Z.to_nat (r_lane operation))
                       (so_lanes sorted);
         so_malformed := so_malformed sorted |}
  | Err error =>
      {| so_lanes := so_lanes sorted;
         so_malformed := so_malformed sorted
           ++ [(index, malformed_operation stream partition_id offset payload error)] |}
  end.

Definition sort_messages (stream : ChainStream) (partition_id : Z) (messages : list (Z * list byte)) : Sorted :=
  foldl (λ sorted entry, sort_message stream partition_id sorted entry.1 entry.2) no_operations
    (imap pair messages).

(** A lane takes its batch, or has stopped. *)
Definition send_lane (entry : nat * list (nat * RoutedUserOperation)) (s : list LaneBatchCompletion * bool) :
    consuming (list LaneBatchCompletion * bool + BatchResult) :=
  let '(lane, indexed_operations) := entry in
  match indexed_operations with
  | [] => mret (inl s)
  | _ =>
      sent ← perform (SendLane (Z.of_nat lane) (map snd indexed_operations));
      mret (inl (if sent : bool
                 then (s.1 ++ [{| lc_lane := Z.of_nat lane; lc_operations := indexed_operations |}], s.2)
                 else (s.1, true)))
  end.

Definition record_malformed (entry : nat * MalformedUserOperation) (outcomes : list (Z * bool)) :
    consuming (list (Z * bool) + BatchResult) :=
  recorded ← perform (HandleMalformed entry.2);
  mret (inl (match recorded with Ok _ => mark_durable outcomes entry.1 | Err _ => outcomes end)).

(** The positions of a completion whose results are [Ok]. *)
Definition settle_positions (outcomes : list (Z * bool)) (operations : list (nat * RoutedUserOperation))
    (results : list (result string ())) : list (Z * bool) :=
  foldl (λ outcomes entry, match entry.2 with Ok _ => mark_durable outcomes entry.1.1 | Err _ => outcomes end)
    outcomes (zip operations results).

Definition complete_lane (completion : LaneBatchCompletion) (s : list (Z * bool) * bool) :
    consuming (list (Z * bool) * bool + BatchResult) :=
  results ← perform (LaneResults (lc_lane completion) (map snd (lc_operations completion)));
  mret (inl (match results with
             | Some results =>
                 if decide (length results = length (lc_operations completion))
                 then (settle_positions s.1 (lc_operations completion) results, s.2)
                 else (s.1, true)
             | None => (s.1, true)
             end)).

Definition process_batch (stream : ChainStream) (partition_id : Z) (messages : list (Z * list byte)) :
    consuming BatchResult :=
  let outcomes := map (λ message, (message.1, false)) messages in
  let sorted := sort_messages stream partition_id messages in
  io_for send_lane (imap pair (so_lanes sorted)) ([], false) (λ '(completions, fatal_lane_failure),
  io_for record_malformed (so_malformed sorted) outcomes (λ outcomes,
  io_for complete_lane completions (outcomes, fatal_lane_failure) (λ '(outcomes, fatal_lane_failure),
  mret (batch_result outcomes fatal_lane_failure)))).

(** ** A session *)

Definition with_action {A} (action : string) (effect : Iggy (result IggyError A)) : consuming (result ConsumerError A) :=
  answer ← perform effect; mret (map_err (iggy_error action) answer).

Definition named (action name : string) : result ConsumerError () := map_err (iggy_error action) (identifier name).

Definition ensure_consumer_group (stream : string) : consuming (result ConsumerError ()) :=
  existed ←? with_action "could not inspect Iggy consumer group" (GetConsumerGroup stream);
  if existed : bool then mret (Ok ())
  else
    created ← perform (CreateConsumerGroup stream);
    match created with
    | Ok _ => mret (Ok ())
    | Err create_error =>
        was_created_concurrently ←? with_action "could not recheck Iggy consumer group" (GetConsumerGroup stream);
        mret (if was_created_concurrently : bool then Ok ()
              else Err (iggy_error "could not create Iggy consumer group" create_error))
    end.

(** A pause that the shutdown ends, and with it the loop. *)
Definition pause_or_stop (ms : Z) : consuming (() + result ConsumerError ()) :=
  slept ← perform (Pause ms); mret (if slept : bool then inl () else inr (Ok ())).

(** One turn of [consume_joined_group]'s loop. *)
Definition consume_round (config : ConsumerConfig) (stream : ChainStream) (_ : nat) (_ : ()) :
    consuming (() + result ConsumerError ()) :=
  polled ← perform (PollMessages (cs_name stream) (cc_batch_size config));
  match polled with
  | None => mret (inr (Ok ()))
  | Some (Err error) => mret (inr (Err (iggy_error "could not poll Iggy UserOperations" error)))
  | Some (Ok polled) =>
      match pm_messages polled with
      | [] => pause_or_stop (cc_empty_poll_interval config)
      | messages =>
          batch ← process_batch stream (pm_partition_id polled) messages;
          stored ← match br_highest_contiguous_durable_offset batch with
                   | Some offset =>
                       with_action "could not store durable Iggy consumer offset"
                         (StoreConsumerOffset (cs_name stream) (pm_partition_id polled) offset)
                   | None => mret (Ok ())
                   end;
          match stored with
          | Err error => mret (inr (Err error))
          | Ok _ =>
              if br_fatal_lane_failure batch then
                mret (inr (Err (consumer_error
                  "a UserOperation relayer lane stopped or violated its result contract")))
              else if br_had_failure batch then pause_or_stop (cc_retry_interval config)
              else mret (inl ())
          end
      end
  end.

Definition consume_joined_group (rounds : nat) (config : ConsumerConfig) (stream : ChainStream) :
    consuming (result ConsumerError ()) :=
  io_for (consume_round config stream) (seq 0 rounds) () (λ _, mret (Ok ())).

Definition consume_stream_session (rounds : nat) (config : ConsumerConfig) (stream : ChainStream) :
    consuming (result ConsumerError ()) :=
  _ ←? mret (named "invalid Iggy chain stream name" (cs_name stream));
  _ ←? mret (named "invalid Iggy UserOperation topic name" USER_OPERATION_TOPIC);
  _ ←? mret (named "invalid Iggy consumer group name" (cc_consumer_group config));
  _ ←? ensure_consumer_group (cs_name stream);
  _ ←? with_action "could not join Iggy consumer group" (JoinConsumerGroup (cs_name stream));
  _ ← perform StartLanes;
  consumed ← consume_joined_group rounds config stream;
  _ ← perform StopLanes;
  _ ← perform (LeaveConsumerGroup (cs_name stream));
  mret consumed.

(** One turn of [run_stream_dispatcher]'s loop. *)
Definition dispatcher_round (rounds : nat) (config : ConsumerConfig) (stream : ChainStream) (_ : nat) (_ : ()) :
    consuming (() + ()) :=
  stopped ← perform ShutdownRequested;
  if stopped : bool then mret (inr ())
  else
    session ← consume_stream_session rounds config stream;
    match session with
    | Ok _ => mret (inr ())
    | Err _ => slept ← perform (Pause (cc_retry_interval config)); mret (if slept : bool then inl () else inr ())
    end.

Definition run_stream_dispatcher (sessions rounds : nat) (config : ConsumerConfig) (stream : ChainStream) : consuming () :=
  io_for (dispatcher_round rounds config stream) (seq 0 sessions) () (λ _, mret ()).

(** ** Discovery *)

Record StreamDispatcher : Type := { sd_stream : string; sd_task : Z }.

(** The dispatchers that run, by chain, and the tasks that are stopping. *)
Record Dispatchers : Type := { ds_active : gmap Z StreamDispatcher; ds_retiring : list Z }.

Definition stop_dispatcher {A} (dispatcher : Z * StreamDispatcher) (ds : Dispatchers) :
    consuming (Dispatchers + A) :=
  _ ← perform (CancelDispatcher (sd_task dispatcher.2));
  mret (inl {| ds_active := delete dispatcher.1 (ds_active ds);
               ds_retiring := ds_retiring ds ++ [sd_task dispatcher.2] |}).

Definition start_dispatcher (stream : ChainStream) (ds : Dispatchers) : consuming (Dispatchers + Dispatchers) :=
  match ds_active ds !! cs_chain_id stream with
  | Some _ => mret (inl ds)
  | None =>
      task ← perform (SpawnDispatcher stream);
      mret (inl {| ds_active :=
                     <[cs_chain_id stream := {| sd_stream := cs_name stream; sd_task := task |}]> (ds_active ds);
                   ds_retiring := ds_retiring ds |})
  end.

Definition reconcile_dispatchers (streams : list ChainStream) (ds : Dispatchers) : consuming Dispatchers :=
  let removed := filter (λ dispatcher : Z * StreamDispatcher, dispatcher.1 ∉ map cs_chain_id streams)
                   (map_to_list (ds_active ds)) in
  io_for stop_dispatcher removed ds (λ ds, io_for start_dispatcher streams ds (λ ds, mret ds)).

Definition reap_active (dispatcher : Z * StreamDispatcher) (ds : Dispatchers) : consuming (Dispatchers + Dispatchers) :=
  finished ← perform (TaskFinished (sd_task dispatcher.2));
  mret (inl (if finished : bool
             then {| ds_active := delete dispatcher.1 (ds_active ds);
                     ds_retiring := ds_retiring ds ++ [sd_task dispatcher.2] |}
             else ds)).

(** [Vec::swap_remove] *)
Definition swap_remove {A} (index : nat) (l : list A) : list A :=
  match last l with
  | Some x => take (length l - 1) (<[index := x]> l)
  | None => l
  end.

Definition reap_retiring (_ : nat) (s : nat * list Z) : consuming (nat * list Z + Dispatchers) :=
  let '(index, retiring) := s in
  match retiring !! index with
  | None => mret (inl s)
  | Some task =>
      finished ← perform (TaskFinished task);
      if finished : bool then _ ← perform (AwaitTask task); mret (inl (index, swap_remove index retiring))
      else mret (inl (S index, retiring))
  end.

Definition reap_finished_dispatchers (ds : Dispatchers) : consuming Dispatchers :=
  io_for reap_active (map_to_list (ds_active ds)) ds (λ ds,
  io_for reap_retiring (seq 0 (length (ds_retiring ds))) (0%nat, ds_retiring ds) (λ s,
  mret {| ds_active := ds_active ds; ds_retiring := s.2 |})).

Definition await_tasks (tasks : list Z) : consuming () :=
  io_for (λ task _, _ ← perform (AwaitTask task); mret (inl ())) tasks () (λ _, mret ()).

(** Every dispatcher is stopped and awaited. *)
Definition stop_all (ds : Dispatchers) : consuming () :=
  io_for stop_dispatcher (map_to_list (ds_active ds)) ds (λ ds, await_tasks (ds_retiring ds)).

(** One connection attempt of [rebuild_connection]. *)
Definition rebuild_round (_ : nat) (backoff : Z) : consuming (Z + bool) :=
  connected ← perform ConnectClient;
  match connected with
  | None => mret (inr false)
  | Some (Ok _) => mret (inr true)
  | Some (Err _) =>
      slept ← perform (Pause backoff);
      mret (if slept : bool then inl (Z.min (backoff * 2) MAX_RECONNECT_BACKOFF) else inr false)
  end.

Definition no_dispatchers : Dispatchers := {| ds_active := ∅; ds_retiring := [] |}.

Definition rebuild_connection (attempts : nat) (config : ConsumerConfig) (ds : Dispatchers) : consuming bool :=
  _ ← stop_all ds;
  _ ← perform ShutdownClient;
  io_for rebuild_round (seq 0 attempts) (cc_retry_interval config) (λ _, mret false).

Definition discover_chain_streams : consuming (result ConsumerError (list ChainStream)) :=
  names ←? with_action "could not list Iggy streams" GetStreams; mret (Ok (filter_chain_streams names)).

(** One discovery tick of the worker's loop, or its shutdown. *)
Definition discovery_round (attempts : nat) (config : ConsumerConfig) (_ : nat) (ds : Dispatchers) :
    consuming (Dispatchers + Dispatchers) :=
  ticked ← perform DiscoveryTick;
  if ticked : bool then
    ds ← reap_finished_dispatchers ds;
    discovered ← discover_chain_streams;
    match discovered with
    | Ok streams => ds ← reconcile_dispatchers streams ds; mret (inl ds)
    | Err error =>
        if ce_session error then
          rebuilt ← rebuild_connection attempts config ds;
          if rebuilt : bool then
            discovered ← discover_chain_streams;
            match discovered with
            | Ok streams => ds ← reconcile_dispatchers streams no_dispatchers; mret (inl ds)
            | Err _ => mret (inl no_dispatchers)
            end
          else mret (inl no_dispatchers)
        else mret (inl ds)
    end
  else mret (inr ds).

Definition run_with_discovered_chain_streams (ticks attempts : nat) (config : ConsumerConfig)
    (streams : list ChainStream) : consuming () :=
  ds ← reconcile_dispatchers streams no_dispatchers;
  ds ← io_for (discovery_round attempts config) (seq 0 ticks) ds (λ ds, mret ds);
  _ ← stop_all ds;
  perform ShutdownClient.
End Batch.
