(* ===== verification/ConsumerSafety.v ===== *)
(** * ConsumerSafety: no message of a stream is passed over

    Any number of dispatchers of one stream, started and killed at any time,
    over a log that grows and an offset each of them may move: every offset the
    group has passed holds a message that the handler has settled. *)

From S2P Require Export Consumer.
#[local] Open Scope string_scope.
#[local] Open Scope list_scope.
#[local] Open Scope Z_scope.
#[local] Set Default Proof Using "Type*".

Section Safety.
Context `{SJ : SerdeJson} `{IT : IggyText}.
Variable stream : ChainStream.

(** ** What the handler has confirmed *)

(** The operations and the malformed messages whose durable outcome the handler
    has reported. *)
Record Confirmed : Type := { co_executed : list RoutedUserOperation; co_recorded : list MalformedUserOperation }.

(** The operations of a batch that were reported [Ok], position by position. *)
Definition confirmed_operations (operations : list RoutedUserOperation) (results : list (result string ())) :
    list RoutedUserOperation :=
  if decide (length results = length operations)
  then map fst (filter (λ entry : RoutedUserOperation * result string (), entry.2 = Ok ()) (zip operations results))
  else [].

Definition confirm_lane (operations : list RoutedUserOperation) (results : option (list (result string ())))
    (c : Confirmed) : Confirmed :=
  match results with
  | Some results =>
      {| co_executed := confirmed_operations operations results ++ co_executed c; co_recorded := co_recorded c |}
  | None => c
  end.
Definition confirm_malformed (operation : MalformedUserOperation) (recorded : result string ()) (c : Confirmed) :
    Confirmed :=
  match recorded with
  | Ok _ => {| co_executed := co_executed c; co_recorded := operation :: co_recorded c |}
  | Err _ => c
  end.

(** A message is settled: the operation it routes to was executed, or what
    cannot be routed was recorded. *)
Definition settled (c : Confirmed) (partition_id : Z) (message : Z * list byte) : Prop :=
  match parse_routed_operation stream partition_id message.1 message.2 with
  | Ok operation => operation ∈ co_executed c
  | Err error => malformed_operation stream partition_id message.1 message.2 error ∈ co_recorded c
  end.

Definition includes (c c' : Confirmed) : Prop :=
  co_executed c ⊆ co_executed c' ∧ co_recorded c ⊆ co_recorded c'.

Lemma includes_refl c : includes c c.
Proof. done. Qed.
Lemma includes_lane operations results c : includes c (confirm_lane operations results c).
Proof. destruct results; split; cbn; set_solver. Qed.
Lemma includes_malformed operation recorded c : includes c (confirm_malformed operation recorded c).
Proof. destruct recorded; split; cbn; set_solver. Qed.

Lemma settled_includes c c' partition_id message :
  includes c c' → settled c partition_id message → settled c' partition_id message.
Proof. intros [He Hr]. unfold settled. destruct (parse_routed_operation _ _ _ _); auto. Qed.

(** ** What a dispatcher knows *)

(** The batch it polled last, and what has been confirmed since. *)
Record Knowledge : Type := { kn_batch : option (Z * list (Z * list byte)); kn_confirmed : Confirmed }.

Definition nothing_confirmed : Confirmed := {| co_executed := []; co_recorded := [] |}.
Definition knows_nothing : Knowledge := {| kn_batch := None; kn_confirmed := nothing_confirmed |}.

Definition learn (k : Knowledge) (R : Type) (e : Iggy R) : R → Knowledge :=
  match e in Iggy R return R → Knowledge with
  | PollMessages _ _ => λ polled,
      match polled with
      | Some (Ok polled) =>
          {| kn_batch := Some (pm_partition_id polled, pm_messages polled); kn_confirmed := nothing_confirmed |}
      | _ => k
      end
  | LaneResults _ operations => λ results,
      {| kn_batch := kn_batch k; kn_confirmed := confirm_lane operations results (kn_confirmed k) |}
  | HandleMalformed operation => λ recorded,
      {| kn_batch := kn_batch k; kn_confirmed := confirm_malformed operation recorded (kn_confirmed k) |}
  | _ => λ _, k
  end.

(** The offset of a message of its batch, up to which it knows every one settled. *)
Definition may_store (k : Knowledge) (partition_id offset : Z) : Prop :=
  ∃ messages j payload, kn_batch k = Some (partition_id, messages) ∧ messages !! j = Some (offset, payload) ∧
    ∀ i message, (i ≤ j)%nat → messages !! i = Some message → settled (kn_confirmed k) partition_id message.

Definition permitted (k : Knowledge) (R : Type) (e : Iggy R) : Prop :=
  match e with
  | StoreConsumerOffset name partition_id offset => name = cs_name stream ∧ may_store k partition_id offset
  | _ => True
  end.

Abbreviation consumes p k Q := (ensures permitted learn p k Q).

(** ** A batch *)

Section Batch.
Variables (partition_id : Z) (messages : list (Z * list byte)).

Definition routed_from (index : nat) (operation : RoutedUserOperation) : Prop :=
  ∃ offset payload, messages !! index = Some (offset, payload) ∧
    parse_routed_operation stream partition_id offset payload = Ok operation.
Definition malformed_from (index : nat) (operation : MalformedUserOperation) : Prop :=
  ∃ offset payload error, messages !! index = Some (offset, payload) ∧
    parse_routed_operation stream partition_id offset payload = Err error ∧
    operation = malformed_operation stream partition_id offset payload error.

Definition sorted_from (sorted : Sorted) : Prop :=
  Forall (Forall (λ entry, routed_from entry.1 entry.2)) (so_lanes sorted) ∧
  Forall (λ entry, malformed_from entry.1 entry.2) (so_malformed sorted).

Lemma sort_message_from sorted index message :
  messages !! index = Some message → sorted_from sorted →
  sorted_from (sort_message stream partition_id sorted index message).
Proof.
  destruct message as [offset payload]. intros Hm [Hl Hf]. unfold sort_message.
  destruct (parse_routed_operation _ _ _ _) as [operation|error] eqn:Hp; split; cbn; [| |done|].
  - apply Forall_alter; [done|]. intros operations _ Ho. apply Forall_app. split; [done|].
    apply Forall_singleton. by exists offset, payload.
  - done.
  - apply Forall_app. split; [done|]. apply Forall_singleton. by exists offset, payload, error.
Qed.

Lemma sort_messages_from : sorted_from (sort_messages stream partition_id messages).
Proof.
  unfold sort_messages.
  assert (Forall (λ entry : nat * (Z * list byte), messages !! entry.1 = Some entry.2) (imap pair messages)) as Hm.
  { apply Forall_lookup. intros i [j message] Hi. rewrite list_lookup_imap in Hi.
    destruct (messages !! i) eqn:E; [|done]. injection Hi as -> ->. exact E. }
  revert Hm. assert (sorted_from no_operations) as Hs.
  { split; [|constructor]. cbn. apply Forall_replicate. constructor. }
  revert Hs. generalize no_operations. induction (imap pair messages) as [|[i message] entries IH]; intros sorted Hs Hm; [done|].
  apply Forall_cons in Hm as [Hi Hm]. cbn. apply IH; [|done]. by apply sort_message_from.
Qed.

(** Marked positions hold settled messages. *)
Definition outcomes_from (c : Confirmed) (outcomes : list (Z * bool)) : Prop :=
  ∀ index offset, outcomes !! index = Some (offset, true) →
    ∃ payload, messages !! index = Some (offset, payload) ∧ settled c partition_id (offset, payload).
Definition aligned (outcomes : list (Z * bool)) : Prop := map fst outcomes = map fst messages.

Lemma aligned_mark outcomes index : aligned outcomes → aligned (mark_durable outcomes index).
Proof.
  unfold aligned. intros <-. apply list_eq. intros i. rewrite !list_lookup_fmap. unfold mark_durable.
  destruct (decide (i = index)) as [->|Hne]; [rewrite list_lookup_alter_eq|by rewrite list_lookup_alter_ne].
  by destruct (outcomes !! index).
Qed.

Lemma outcomes_mark c outcomes index :
  aligned outcomes → outcomes_from c outcomes →
  (∀ message, messages !! index = Some message → settled c partition_id message) →
  outcomes_from c (mark_durable outcomes index).
Proof.
  intros Ha Ho Hs i offset Hi. unfold mark_durable in Hi. destruct (decide (i = index)) as [->|Hne].
  - rewrite list_lookup_alter_eq in Hi. destruct (outcomes !! index) as [[o b]|] eqn:E; [|done]. injection Hi as ->.
    assert (map fst messages !! index = Some offset) as Hm by (rewrite <-Ha, list_lookup_fmap, E; done).
    rewrite list_lookup_fmap in Hm. destruct (messages !! index) as [[o' payload]|] eqn:Em; [|done].
    injection Hm as ->. exists payload. split; [done|]. by apply Hs.
  - rewrite list_lookup_alter_ne in Hi by done. by apply Ho.
Qed.

Lemma outcomes_includes c c' outcomes : includes c c' → outcomes_from c outcomes → outcomes_from c' outcomes.
Proof.
  intros Hc Ho i offset Hi. destruct (Ho i offset Hi) as (payload & Hm & Hs). exists payload. split; [done|].
  by eapply settled_includes.
Qed.

Lemma routed_settled c index operation message :
  routed_from index operation → operation ∈ co_executed c → messages !! index = Some message →
  settled c partition_id message.
Proof. intros (offset & payload & Hm & Hp) Ho Hm'. rewrite Hm in Hm'. injection Hm' as <-. unfold settled. cbn. by rewrite Hp. Qed.
Lemma malformed_settled c index operation message :
  malformed_from index operation → operation ∈ co_recorded c → messages !! index = Some message →
  settled c partition_id message.
Proof.
  intros (offset & payload & error & Hm & Hp & ->) Ho Hm'. rewrite Hm in Hm'. injection Hm' as <-.
  unfold settled. cbn. by rewrite Hp.
Qed.

(** The results of a lane mark what they confirm. *)
Lemma settle_positions_from c outcomes operations results :
  length results = length operations → Forall (λ entry, routed_from entry.1 entry.2) operations →
  aligned outcomes → outcomes_from c outcomes →
  (∀ operation, operation ∈ confirmed_operations (map snd operations) results → operation ∈ co_executed c) →
  aligned (settle_positions outcomes operations results) ∧
  outcomes_from c (settle_positions outcomes operations results).
Proof.
  intros Hlen Hops Ha Ho Hc. unfold confirmed_operations in Hc. rewrite decide_True in Hc by by rewrite length_map.
  unfold settle_positions. revert results outcomes Hlen Ha Ho Hc.
  induction Hops as [|[index operation] operations Hop Hops IH]; intros [|r results] outcomes Hlen Ha Ho Hc; try done.
  cbn [zip zip_with foldl map filter fst snd] in *. injection Hlen as Hlen.
  assert (∀ operation', operation' ∈ map fst (filter (λ entry : RoutedUserOperation * result string (), entry.2 = Ok ())
    (zip (map snd operations) results)) → operation' ∈ co_executed c) as Hc'.
  { intros op Hin. apply Hc. change (op ∈ map fst (filter (λ entry : RoutedUserOperation * result string (), entry.2 = Ok ())
      ((operation, r) :: zip (map snd operations) results))). rewrite filter_cons. case_decide; [by right|done]. }
  destruct r as [[]|e]; [|by apply IH].
  assert (operation ∈ co_executed c) as Hin.
  { apply Hc. change (operation ∈ map fst (filter (λ entry : RoutedUserOperation * result string (), entry.2 = Ok ())
      ((operation, Ok ()) :: zip (map snd operations) results))). rewrite filter_cons, decide_True by done. by left. }
  apply IH; [done|by apply aligned_mark| |done].
  apply outcomes_mark; [done..|]. intros message Hm. by eapply routed_settled.
Qed.

(** The offset a batch's result names. *)
Lemma batch_result_stores k outcomes fatal offset :
  kn_batch k = Some (partition_id, messages) → outcomes_from (kn_confirmed k) outcomes →
  br_highest_contiguous_durable_offset (batch_result outcomes fatal) = Some offset → may_store k partition_id offset.
Proof.
  intros Hb Ho Hl. cbn in Hl.
  assert (∃ j, outcomes !! j = Some (offset, true) ∧ ∀ i, (i ≤ j)%nat → ∃ o, outcomes !! i = Some (o, true)) as (j & Hj & Hi).
  { clear Ho. revert Hl. induction outcomes as [|[o b] outcomes IH]; [done|]. cbn. destruct b; [|done]. cbn.
    rewrite last_cons. destruct (last (map fst (take_while snd outcomes))) as [o'|] eqn:E.
    - intros [= ->]. destruct (IH eq_refl) as (j & Hj & Hi). exists (S j). split; [done|].
      intros [|i] Hle; [by eexists|]. apply Hi. lia.
    - intros [= ->]. exists 0%nat. split; [done|]. intros [|i] Hle; [by eexists|lia]. }
  destruct (Ho j offset Hj) as (payload & Hm & _). exists messages, j, payload. split_and!; [done..|].
  intros i message Hle Hmi. destruct (Hi i Hle) as [o Hoi]. destruct (Ho i o Hoi) as (payload' & Hm' & Hs). congruence.
Qed.

(** A batch ends with an offset its dispatcher may store. *)
Definition in_batch (k : Knowledge) : Prop := kn_batch k = Some (partition_id, messages).

Lemma process_batch_stores k :
  in_batch k →
  consumes (process_batch stream partition_id messages) k (λ k' result,
    in_batch k' ∧ ∀ offset, br_highest_contiguous_durable_offset result = Some offset → may_store k' partition_id offset).
Proof.
  intros Hk. unfold process_batch. destruct (sort_messages_from) as [Hlanes Hmal].
  eapply (ensures_for _ _ send_lane _ _ _ _
    (λ rest k' s, k' = k ∧ Forall (λ entry, Forall (λ entry, routed_from entry.1 entry.2) entry.2) rest ∧
      Forall (λ completion, Forall (λ entry, routed_from entry.1 entry.2) (lc_operations completion)) s.1)).
  - split_and!; [done| |constructor]. apply Forall_lookup. intros i [j ops] Hi. rewrite list_lookup_imap in Hi.
    destruct (so_lanes _ !! i) eqn:E; [|done]. injection Hi as -> ->. cbn. by eapply Forall_lookup_1 in Hlanes.
  - intros [lane ops] rest k' [completions fatal] (-> & Hrest & Hs). apply Forall_cons in Hrest as [Hops Hrest]. cbn in Hops, Hs.
    unfold send_lane. destruct ops as [|op ops]; [by apply ensures_pure|].
    rewrite ensures_bind, ensures_perform. split; [done|]. intros [|]; apply ensures_pure; cbn; [|done].
    split_and!; [done..|]. apply Forall_app. split; [done|]. by apply Forall_singleton.
  - intros k' [completions fatal] (-> & _ & Hcomp). cbn in Hcomp.
    eapply (ensures_for _ _ record_malformed _ _ _ _
      (λ rest k' outcomes, in_batch k' ∧ Forall (λ entry, malformed_from entry.1 entry.2) rest ∧
        aligned outcomes ∧ outcomes_from (kn_confirmed k') outcomes)).
    + split_and!; [done..| |].
      * unfold aligned. rewrite map_map. done.
      * intros i offset Hi. rewrite list_lookup_fmap in Hi. by destruct (messages !! i).
    + intros [index operation] rest k' outcomes (Hb & Hrest & Ha & Ho). apply Forall_cons in Hrest as [Hop Hrest].
      cbn in Hop. unfold record_malformed. rewrite ensures_bind, ensures_perform. split; [done|].
      intros recorded. apply ensures_pure. cbn [fst snd].
      set (k1 := learn k' _ _ recorded). assert (includes (kn_confirmed k') (kn_confirmed k1)) as Hi by apply includes_malformed.
      split_and!; [done..| |].
      * destruct recorded; [by apply aligned_mark|done].
      * destruct recorded as [[]|e]; [|by eapply outcomes_includes].
        apply outcomes_mark; [done|by eapply outcomes_includes|]. intros message Hm.
        eapply malformed_settled; [done| |done]. by left.
    + intros k1 outcomes (Hb & _ & Ha & Ho).
      eapply (ensures_for _ _ complete_lane _ _ _ _
        (λ rest k' s, in_batch k' ∧
          Forall (λ completion, Forall (λ entry, routed_from entry.1 entry.2) (lc_operations completion)) rest ∧
          aligned s.1 ∧ outcomes_from (kn_confirmed k') s.1)); [done| |].
      * intros completion rest k' [outcomes' fatal'] (Hb' & Hrest & Ha' & Ho'). apply Forall_cons in Hrest as [Hop Hrest].
        unfold complete_lane. rewrite ensures_bind, ensures_perform. split; [done|].
        intros results. apply ensures_pure. cbn [fst snd] in *.
        set (k2 := learn k' _ _ results).
        assert (includes (kn_confirmed k') (kn_confirmed k2)) as Hi by apply includes_lane.
        assert (outcomes_from (kn_confirmed k2) outcomes') as Ho2 by by eapply outcomes_includes.
        split_and!; [done..| |]; (destruct results as [results|]; [|done]); (case_decide as Hlen; [|done]).
        -- by eapply (settle_positions_from (kn_confirmed k2)); [..|intros op Hin; cbn; apply elem_of_app; left].
        -- by eapply (settle_positions_from (kn_confirmed k2)); [..|intros op Hin; cbn; apply elem_of_app; left].
      * intros k2 [outcomes' fatal'] (Hb' & _ & Ha' & Ho'). apply ensures_pure. split; [done|].
        intros offset Hoff. by eapply batch_result_stores.
Qed.
End Batch.

(** ** A dispatcher *)

Abbreviation careful p k := (consumes p k (λ _ _, True)).

Lemma careful_action {A} action (e : Iggy (result IggyError A)) k :
  permitted k _ e → careful (with_action action e) k.
Proof. intros He. apply ensures_bind, ensures_perform. split; [done|]. intros r. by apply ensures_pure. Qed.

Lemma careful_try {E A B} (f : A → consuming (result E B)) (m : consuming (result E A)) k :
  careful m k → (∀ a k, careful (f a) k) → careful (io_try f m) k.
Proof. intros Hm Hf. apply ensures_try. eapply ensures_mono; [exact Hm|]. intros k' [a|e] _; [apply Hf|done]. Qed.

Lemma careful_bind {A B} (f : A → consuming B) (m : consuming A) k :
  careful m k → (∀ a k, careful (f a) k) → careful (m ≫= f) k.
Proof. intros Hm Hf. apply ensures_bind. eapply ensures_mono; [exact Hm|]. intros k' a _. apply Hf. Qed.

Lemma careful_perform {R} (e : Iggy R) k : permitted k R e → careful (perform e) k.
Proof. intros He. by apply ensures_perform. Qed.

Lemma careful_rounds {A B} (body : nat → A → consuming (A + B)) rounds s finish k :
  (∀ n s k, careful (body n s) k) → (∀ s k, careful (finish s) k) → careful (io_for body (seq 0 rounds) s finish) k.
Proof.
  intros Hb Hf. apply (ensures_for _ _ _ _ _ _ _ (λ _ _ _, True)); [done| |auto].
  intros n rest k' s' _. eapply ensures_mono; [apply Hb|]. by intros k'' [s''|b] _.
Qed.

Lemma careful_consume_round config n s k : careful (consume_round config stream n s) k.
Proof.
  unfold consume_round. apply ensures_bind, ensures_perform. split; [done|].
  intros [[polled|error]|]; [|by apply ensures_pure..].
  destruct polled as [partition_id messages]. cbn [pm_messages pm_partition_id].
  assert (Hpause : ∀ ms k, careful (pause_or_stop ms) k).
  { intros ms k'. apply ensures_bind, ensures_perform. split; [done|]. intros r. by apply ensures_pure. }
  destruct messages as [|message messages]; [apply Hpause|].
  apply ensures_bind. eapply ensures_mono; [by apply (process_batch_stores partition_id (message :: messages))|].
  intros k' batch [_ Hstore]. apply careful_bind.
  - destruct (br_highest_contiguous_durable_offset batch) as [offset|]; [|by apply ensures_pure].
    apply careful_action. split; [done|]. by apply Hstore.
  - intros [[]|error] k''; [|by apply ensures_pure].
    destruct (br_fatal_lane_failure batch); [by apply ensures_pure|].
    destruct (br_had_failure batch); [apply Hpause|by apply ensures_pure].
Qed.

Lemma careful_session rounds config k : careful (consume_stream_session rounds config stream) k.
Proof.
  unfold consume_stream_session, ensure_consumer_group, consume_joined_group.
  repeat first
    [ apply careful_try; [|intros ? ?] | apply careful_bind; [|intros ? ?]
    | by apply careful_action | by apply careful_perform | by apply ensures_pure
    | apply careful_rounds; [intros ? ? ?; apply careful_consume_round|intros ? ?]
    | case_match ].
Qed.

Lemma careful_dispatcher sessions rounds config k : careful (run_stream_dispatcher sessions rounds config stream) k.
Proof.
  apply careful_rounds; [|by intros; apply ensures_pure]. intros n s k'. unfold dispatcher_round.
  apply careful_bind; [by apply careful_perform|]. intros [|] k''; [by apply ensures_pure|].
  apply careful_bind; [apply careful_session|]. intros [r|e] k3; [by apply ensures_pure|].
  apply careful_bind; [by apply careful_perform|]. intros r k4. by apply ensures_pure.
Qed.

(** ** Any number of dispatchers over one stream *)

(** The stream's partitions, the group's next offset in each, what the handler
    has confirmed, and the dispatchers that run. *)
Record Group : Type := {
  gr_log : Z → list (list byte); gr_next : Z → nat; gr_confirmed : Confirmed;
  gr_dispatchers : nat → option (consuming ()) }.

Definition with_confirmed (c : Confirmed) (w : Group) : Group :=
  {| gr_log := gr_log w; gr_next := gr_next w; gr_confirmed := c; gr_dispatchers := gr_dispatchers w |}.
Definition with_dispatcher (i : nat) (d : option (consuming ())) (w : Group) : Group :=
  {| gr_log := gr_log w; gr_next := gr_next w; gr_confirmed := gr_confirmed w;
     gr_dispatchers := λ j, if decide (j = i) then d else gr_dispatchers w j |}.
Definition with_next (partition_id offset : Z) (w : Group) : Group :=
  {| gr_log := gr_log w;
     gr_next := λ p, if decide (p = partition_id) then S (Z.to_nat offset) else gr_next w p;
     gr_confirmed := gr_confirmed w; gr_dispatchers := gr_dispatchers w |}.
Definition with_message (partition_id : Z) (payload : list byte) (w : Group) : Group :=
  {| gr_log := λ p, if decide (p = partition_id) then gr_log w p ++ [payload] else gr_log w p;
     gr_next := gr_next w; gr_confirmed := gr_confirmed w; gr_dispatchers := gr_dispatchers w |}.

(** The messages from the group's next offset on, as many as the poll gives. *)
Definition polled_from (w : Group) (polled : PolledMessages) : Prop :=
  ∃ n, pm_messages polled =
    imap (λ i payload, (Z.of_nat (gr_next w (pm_partition_id polled) + i), payload))
      (take n (drop (gr_next w (pm_partition_id polled)) (gr_log w (pm_partition_id polled)))).

(** What an answer may be, and what the effect has done when it arrives: a poll
    answers the next messages or fails, a stored offset whose acknowledgement
    fails may have been stored or not, and a confirmation is the handler's. *)
Definition answers (w : Group) (R : Type) (e : Iggy R) : R → Group → Prop :=
  match e in Iggy R return R → Group → Prop with
  | PollMessages _ _ => λ polled w',
      w' = w ∧ match polled with Some (Ok polled) => polled_from w polled | _ => True end
  | StoreConsumerOffset _ partition_id offset => λ stored w',
      w' = with_next partition_id offset w ∨ (∃ error, stored = Err error) ∧ w' = w
  | LaneResults _ operations => λ results w',
      w' = with_confirmed (confirm_lane operations results (gr_confirmed w)) w
  | HandleMalformed operation => λ recorded w',
      w' = with_confirmed (confirm_malformed operation recorded (gr_confirmed w)) w
  | _ => λ _ w', w' = w
  end.

Inductive group_step : Group → Group → Prop :=
  | message_appended w partition_id payload : group_step w (with_message partition_id payload w)
  | dispatcher_started w i sessions rounds config :
      gr_dispatchers w i = None →
      group_step w (with_dispatcher i (Some (run_stream_dispatcher sessions rounds config stream)) w)
  | dispatcher_killed w i : group_step w (with_dispatcher i None w)
  | dispatcher_runs w i R (e : Iggy R) k r w' :
      gr_dispatchers w i = Some (Vis e k) → answers w R e r w' →
      group_step w (with_dispatcher i (Some (k r)) w').

Inductive group_reaches (w : Group) : Group → Prop :=
  | reaches_itself : group_reaches w w
  | reaches_on w' w'' : group_reaches w w' → group_step w' w'' → group_reaches w w''.

(** A stream nobody has consumed. *)
Definition unconsumed (log : Z → list (list byte)) : Group :=
  {| gr_log := log; gr_next := λ _, 0%nat; gr_confirmed := nothing_confirmed; gr_dispatchers := λ _, None |}.

(** An offset that holds a settled message. *)
Definition covered (w : Group) (partition_id : Z) (offset : nat) : Prop :=
  ∃ payload, gr_log w partition_id !! offset = Some payload ∧
    settled (gr_confirmed w) partition_id (Z.of_nat offset, payload).

(** ** The invariant *)

(** Nothing is taken back. *)
Definition grows (w w' : Group) : Prop :=
  (∀ partition_id i payload, gr_log w partition_id !! i = Some payload → gr_log w' partition_id !! i = Some payload) ∧
  includes (gr_confirmed w) (gr_confirmed w').

Lemma covered_grows w w' partition_id offset : grows w w' → covered w partition_id offset → covered w' partition_id offset.
Proof.
  intros [Hl Hc] (payload & Hp & Hs). exists payload. split; [by apply Hl|]. by eapply settled_includes.
Qed.

(** What a dispatcher holds is the log from an offset that everything before is
    settled. *)
Definition knowledge_true (w : Group) (k : Knowledge) : Prop :=
  includes (kn_confirmed k) (gr_confirmed w) ∧
  ∀ partition_id messages, kn_batch k = Some (partition_id, messages) →
    ∃ start, (∀ offset, (offset < start)%nat → covered w partition_id offset) ∧
      ∀ i offset payload, messages !! i = Some (offset, payload) →
        offset = Z.of_nat (start + i) ∧ gr_log w partition_id !! (start + i)%nat = Some payload.

Definition dispatcher_true (w : Group) (p : consuming ()) : Prop := ∃ k, careful p k ∧ knowledge_true w k.

Definition group_true (w : Group) : Prop :=
  (∀ partition_id offset, (offset < gr_next w partition_id)%nat → covered w partition_id offset) ∧
  ∀ i p, gr_dispatchers w i = Some p → dispatcher_true w p.

Lemma includes_trans c1 c2 c3 : includes c1 c2 → includes c2 c3 → includes c1 c3.
Proof. intros [? ?] [? ?]. split; by etransitivity. Qed.

Lemma knowledge_grows w w' k : grows w w' → knowledge_true w k → knowledge_true w' k.
Proof.
  intros Hg [Hc Hb]. split; [by eapply includes_trans; [|apply Hg]|]. intros partition_id messages Hk.
  destruct (Hb partition_id messages Hk) as (start & Hcov & Hlog). exists start. split.
  - intros offset Ho. by eapply covered_grows, Hcov.
  - intros i offset payload Hi. destruct (Hlog i offset payload Hi) as [-> Hp]. split; [done|]. by apply Hg.
Qed.

Lemma dispatcher_grows w w' p : grows w w' → dispatcher_true w p → dispatcher_true w' p.
Proof. intros Hg (k & Hp & Hk). exists k. split; [done|]. by eapply knowledge_grows. Qed.

Lemma answers_grow w R (e : Iggy R) r w' : answers w R e r w' → grows w w'.
Proof.
  destruct e; cbn [answers]; try (intros ->; by split); try (by intros [-> _]).
  - by intros [->|[_ ->]].
  - intros ->. split; [done|apply includes_lane].
  - intros ->. split; [done|apply includes_malformed].
Qed.

(** What a dispatcher may store is covered. *)
Lemma stored_covered w k partition_id offset o :
  knowledge_true w k → may_store k partition_id offset → (o < S (Z.to_nat offset))%nat → covered w partition_id o.
Proof.
  intros [Hc Hb] (messages & j & payload & Hk & Hj & Hs) Ho. destruct (Hb _ _ Hk) as (start & Hcov & Hlog).
  destruct (Hlog _ _ _ Hj) as [-> _]. rewrite Nat2Z.id in Ho.
  destruct (decide (o < start)%nat) as [Hlt|Hge]; [by apply Hcov|].
  destruct (lookup_lt_is_Some_2 messages (o - start)) as [[offset' payload'] Hi].
  { apply lookup_lt_Some in Hj. lia. }
  destruct (Hlog _ _ _ Hi) as [Hoff Hp]. replace (start + (o - start))%nat with o in * by lia.
  exists payload'. split; [done|]. subst offset'. eapply settled_includes; [exact Hc|]. apply (Hs (o - start)%nat); [lia|done].
Qed.

(** What a dispatcher learns is true. *)
Lemma learns_truth w k R (e : Iggy R) r w' :
  group_true w → knowledge_true w k → answers w R e r w' → knowledge_true w' (learn k R e r).
Proof.
  intros [Hnext _] Hk Ha. pose proof (answers_grow w R e r w' Ha) as Hg.
  pose proof (knowledge_grows w w' k Hg Hk) as Hk'. destruct e; cbn [learn]; try exact Hk'.
  - destruct Ha as [-> Hp]. destruct r as [[polled|error]|]; [|exact Hk'..]. split; [split; cbn; set_solver|].
    intros partition_id messages [= <- <-]. destruct Hp as [n Hp]. rewrite Hp.
    exists (gr_next w (pm_partition_id polled)). split; [apply Hnext|].
    intros i offset payload Hi. rewrite list_lookup_imap in Hi.
    destruct (take n _ !! i) as [payload'|] eqn:E; [|done]. injection Hi as <- <-. split; [done|].
    apply lookup_take_Some in E as [E _]. by rewrite lookup_drop in E.
  - cbn in Ha. subst w'. destruct Hk as [Hc Hb], Hk' as [_ Hb']. split; [|exact Hb']. cbn.
    destruct r as [results|]; [|done]. split; cbn; [|apply Hc]. destruct Hc as [Hc _]. set_solver.
  - cbn in Ha. subst w'. destruct Hk as [Hc Hb], Hk' as [_ Hb']. split; [|exact Hb']. cbn.
    destruct r as [[]|error]; [|done]. split; cbn; [apply Hc|]. destruct Hc as [_ Hc]. set_solver.
Qed.

Lemma group_true_grows w w' :
  grows w w' → gr_next w' = gr_next w → gr_dispatchers w' = gr_dispatchers w → group_true w → group_true w'.
Proof.
  intros Hg Hn Hd [Hc Ht]. split.
  - intros partition_id offset Ho. rewrite Hn in Ho. by eapply covered_grows, Hc.
  - rewrite Hd. intros i p Hi. by eapply dispatcher_grows, Ht.
Qed.

Lemma answers_keep w k R (e : Iggy R) r w' :
  group_true w → knowledge_true w k → permitted k R e → answers w R e r w' → group_true w'.
Proof.
  intros Hw Hk Hp Ha. pose proof (answers_grow w R e r w' Ha) as Hg.
  destruct e; cbn [answers] in Ha; try (subst w'; exact Hw); try (by destruct Ha as [-> _]);
    try (by subst w'; apply (group_true_grows w)).
  destruct Ha as [->|[_ ->]]; [|done]. destruct Hw as [Hc Ht]. split; [|intros i d Hi; by eapply dispatcher_grows, Ht].
  intros p o Ho. cbn in Ho. change (covered w p o). case_decide as E; [|by apply Hc]. subst p.
  destruct Hp as [_ Hp]. by eapply stored_covered.
Qed.

Lemma with_dispatcher_true i d w :
  group_true w → (∀ p, d = Some p → dispatcher_true w p) → group_true (with_dispatcher i d w).
Proof.
  intros [Hc Ht] Hd. split; [exact Hc|]. intros j p. cbn. case_decide; [apply Hd|apply Ht].
Qed.

Lemma group_step_keeps w w' : group_step w w' → group_true w → group_true w'.
Proof.
  intros Hs Hw. destruct Hs as [w partition_id payload|w i sessions rounds config _|w i|w i R e k r w' Hi Ha].
  - apply (group_true_grows w); [|done..|exact Hw]. split; [|apply includes_refl]. intros p i x Hx. cbn. case_decide; [|done].
    by apply lookup_app_l_Some.
  - apply with_dispatcher_true; [exact Hw|]. intros p [= <-]. exists knows_nothing. split; [apply careful_dispatcher|].
    split; [split; cbn; set_solver|]. by intros ? ? [=].
  - by apply with_dispatcher_true.
  - destruct (proj2 Hw _ _ Hi) as (kn & [Hp Hk] & Htrue).
    apply with_dispatcher_true; [by apply (answers_keep w kn R e r w')|].
    intros p [= <-]. exists (learn kn R e r). split; [apply Hk|]. by apply (learns_truth w kn R e r w').
Qed.

(** C10: No message of a stream is passed over.  Over a stream nobody has
    consumed, with any number of dispatchers started and killed at any time,
    messages arriving, any answers of the client, the lanes and the handler,
    and acknowledgements lost, every offset the consumer group has passed holds
    a message the handler has settled: the operation that very message routes
    to was reported durable, or the message was recorded as malformed. *)
Theorem passed_messages_are_settled log w :
  group_reaches (unconsumed log) w →
  ∀ partition_id offset, (offset < gr_next w partition_id)%nat →
    ∃ payload, gr_log w partition_id !! offset = Some payload ∧
      settled (gr_confirmed w) partition_id (Z.of_nat offset, payload).
Proof.
  intros Hr. assert (group_true w) as [Hc _]; [|exact Hc].
  induction Hr as [|w w' _ IH Hs]; [|by eapply group_step_keeps].
  split; [intros ? ? Ho; cbn in Ho; lia|done].
Qed.
End Safety.

(** ** A dispatcher that settles one message *)

Definition consumed_sender : string := "0x00000000000000000000000000000000000000aa".
Definition consumed_document : Value :=
  VObject [("schemaVersion", VNumber 1); ("userOperationHash", VString "0xaa"); ("chainId", VNumber 8453);
           ("entryPoint", VString "0xee"); ("userOperation", VObject [("sender", VString consumed_sender)])].
#[local] Instance consumed_json : SerdeJson := {| json_from_slice _ := Ok consumed_document; derive_error _ _ := "" |}.
#[local] Instance consumed_text : IggyText := {| iggy_text _ := ""; identifier _ := Ok () |}.
Definition consumed_stream : ChainStream := {| cs_chain_id := 8453; cs_name := "chain-8453" |}.
Definition consumed_log (partition_id : Z) : list (list byte) := if decide (partition_id = 1) then [str_bytes "{}"] else [].
Definition consumed_start : Group :=
  with_dispatcher 0 (Some (run_stream_dispatcher 1 1 (consumer_config_new "iggy") consumed_stream))
    (unconsumed consumed_log).

(** One more step of the world that has run so far. *)
Lemma reaches_then w w' (P : Group → Prop) :
  group_reaches consumed_stream w w' → (∃ w'', group_step consumed_stream w' w'' ∧
    (group_reaches consumed_stream w w'' → ∃ v, group_reaches consumed_stream w v ∧ P v)) →
  ∃ v, group_reaches consumed_stream w v ∧ P v.
Proof. intros Hr (w'' & Hs & Hk). apply Hk. by eapply reaches_on. Qed.

(** The first dispatcher gets an answer. *)
Ltac answered r :=
  match goal with |- group_reaches _ ?w0 ?w' → _ =>
    let Hr := fresh "Hr" in
    intros Hr; apply (reaches_then w0 w' _ Hr); clear Hr; eexists; split;
    [eapply (dispatcher_runs consumed_stream _ 0%nat _ _ _ r); [reflexivity|]; cbn [answers]|]
  end.

Lemma one_message_consumed :
  ∃ w, group_reaches consumed_stream (unconsumed consumed_log) w ∧ gr_next w 1 = 1%nat.
Proof.
  apply (reaches_then _ _ _ (reaches_itself _ _)). exists consumed_start.
  split; [by apply (dispatcher_started _ _ 0 1 1 (consumer_config_new "iggy"))|].
  answered false; [reflexivity|]. answered (Ok true : result IggyError bool); [reflexivity|].
  answered (Ok () : result IggyError ()); [reflexivity|]. answered tt; [reflexivity|].
  answered (Some (Ok {| pm_partition_id := 1; pm_messages := [(0, str_bytes "{}")] |}) : option (result IggyError PolledMessages)).
  { split; [reflexivity|]. by exists 1%nat. }
  answered true; [reflexivity|].
  answered (Some [Ok ()] : option (list (result string ()))); [reflexivity|].
  answered (Ok () : result IggyError ()); [by left|].
  intros Hr. eexists. split; [exact Hr|]. vm_compute. reflexivity.
Qed.

Lemma passed_messages_are_settled_witness :
  ∃ w, group_reaches consumed_stream (unconsumed consumed_log) w ∧ gr_next w 1 = 1%nat ∧
    ∃ payload, gr_log w 1 !! 0%nat = Some payload ∧ settled consumed_stream (gr_confirmed w) 1 (0, payload).
Proof.
  destruct one_message_consumed as (w & Hr & Hn). exists w. split; [exact Hr|]. split; [exact Hn|].
  apply (passed_messages_are_settled consumed_stream consumed_log w Hr 1 0). rewrite Hn. apply Nat.lt_0_1.
Defined.
