(* ===== verification/IggyQueue.v ===== *)
(** * IggyQueue: the server's admission queue ([src/src/app/queue.rs], over the
    reconnecting client of [src/src/utils/iggy.rs])

    An append is confirmed by Iggy, or its outcome is unknown.  A dead session
    is rebuilt once per append, and a write that fails provisions the chain's
    stream and topic and is tried again. *)

From S2P Require Export Consumer.
#[local] Open Scope string_scope.
#[local] Open Scope list_scope.
#[local] Open Scope Z_scope.
#[local] Set Default Proof Using "Type*".

(** 14 days, in milliseconds. *)
Definition USER_OPERATION_QUEUE_RETENTION : Z := 14 * 24 * 60 * 60 * 1000.

(** ** The shared client ([utils/iggy.rs]) *)

Inductive IggyReconnectError : Type := ReconnectTimeout | ReconnectIggy (error : IggyError).

(** A client is named by a number; a rebuild holds the mutex throughout, so no
    other caller replaces the client in between. *)
Inductive SharedClient : Type → Type :=
  | ReadClient : SharedClient Z
  | FromConnectionString : SharedClient (result IggyError Z)
  (* answered within the connect timeout, or not *)
  | ConnectShared (client : Z) : SharedClient (option (result IggyError ()))
  | ReplaceClient (client : Z) : SharedClient Z
  | ShutdownShared (client : Z) : SharedClient ().

Definition build_client : io SharedClient (result IggyReconnectError Z) :=
  client ← perform FromConnectionString;
  match client with
  | Err error => mret (Err (ReconnectIggy error))
  | Ok client =>
      connected ← perform (ConnectShared client);
      mret (match connected with
            | Some (Ok _) => Ok client
            | Some (Err error) => Err (ReconnectIggy error)
            | None => Err ReconnectTimeout
            end)
  end.

Definition reconnect_if_current (stale : Z) : io SharedClient (result IggyReconnectError ()) :=
  current ← perform ReadClient;
  if negb (current =? stale) then mret (Ok ())
  else
    replacement ←? build_client;
    previous ← perform (ReplaceClient replacement);
    _ ← perform (ShutdownShared previous);
    mret (Ok ()).

(** ** The queue *)

Record QueueError : Type := { qu_message : string; qu_session : bool }.
Definition queue_error (message : string) : QueueError := {| qu_message := message; qu_session := false |}.
Definition queue_iggy_error (message : string) (error : IggyError) : QueueError :=
  {| qu_message := message; qu_session := is_session_error error |}.

(** The producer's client and the provisioner's. *)
Inductive Role : Type := Producer | Provisioner.

Inductive QueueCall : Type → Type :=
  | CurrentClient (role : Role) : QueueCall Z
  | ReconnectIfCurrent (role : Role) (stale : Z) : QueueCall (result () ())
  (* answered within the enqueue's timeout, or not *)
  | SendMessages (client : Z) (stream topic : string) (payload : Value) : QueueCall (option (result IggyError ()))
  | GetStream (client : Z) (stream : string) : QueueCall (result IggyError bool)
  | CreateStream (client : Z) (stream : string) : QueueCall (result IggyError ())
  | GetTopic (client : Z) (stream topic : string) : QueueCall (result IggyError bool)
  | CreateTopic (client : Z) (stream topic : string) (partitions retention_ms : Z) : QueueCall (result IggyError ())
  (* whether the provisioning deadline has not passed *)
  | ProvisioningInTime : QueueCall bool.

Abbreviation queueing A := (io QueueCall (result QueueError A)).

Definition stream_name_for_chain (chain_id : Z) : string := "chain-" +:+ dec chain_id.

Section Queue.
Context `{IT : IggyText}.
(** [IggyMessage::from_str] takes the payload's text. *)
Variable message_fits : Value → bool.
Variable topic : string.

Definition stream_for_chain (chain_id : Z) : result QueueError () :=
  map_err (λ _, queue_error "invalid Iggy stream name for chain") (identifier (stream_name_for_chain chain_id)).

Definition append_with (client : Z) (stream : string) (payload : Value) : queueing () :=
  if negb (message_fits payload) then mret (Err (queue_error "UserOperation queue entry is invalid"))
  else
    sent ← perform (SendMessages client stream topic payload);
    mret (match sent with
          | Some (Ok _) => Ok ()
          | Some (Err error) => Err (queue_iggy_error "Iggy rejected the UserOperation queue entry" error)
          | None => Err (queue_error "Iggy UserOperation queue write timed out")
          end).

(** A call on the current client, made again on a rebuilt one if its session is
    dead. *)
Definition reconnecting {A} (role : Role) (message : string) (call : Z → queueing A) : queueing A :=
  client ← perform (CurrentClient role);
  answer ← call client;
  match answer with
  | Err error =>
      if qu_session error then
        rebuilt ← perform (ReconnectIfCurrent role client);
        match rebuilt with
        | Err _ => mret (Err (queue_error message))
        | Ok _ => client ← perform (CurrentClient role); call client
        end
      else mret (Err error)
  | Ok a => mret (Ok a)
  end.

Definition append (stream : string) (payload : Value) : queueing () :=
  reconnecting Producer "could not reconnect to Iggy" (λ client, append_with client stream payload).

Definition queue_call {A} (message : string) (effect : QueueCall (result IggyError A)) : queueing A :=
  answer ← perform effect; mret (map_err (queue_iggy_error message) answer).

Definition create_stream_if_missing (client : Z) (stream : string) : queueing () :=
  created ← perform (CreateStream client stream);
  match created with
  | Ok _ => mret (Ok ())
  | Err _ =>
      present ←? queue_call "could not inspect Iggy chain stream" (GetStream client stream);
      mret (if present : bool then Ok () else Err (queue_error "could not create Iggy chain stream"))
  end.

Definition create_topic_if_missing (client : Z) (stream : string) : queueing () :=
  created ← perform (CreateTopic client stream topic 1 USER_OPERATION_QUEUE_RETENTION);
  match created with
  | Ok _ => mret (Ok ())
  | Err _ =>
      present ←? queue_call "could not inspect Iggy chain topic" (GetTopic client stream topic);
      mret (if present : bool then Ok () else Err (queue_error "could not create Iggy chain topic"))
  end.

Definition ensure_with_client (stream : string) (client : Z) : queueing bool :=
  stream_present ←? queue_call "could not inspect Iggy chain stream" (GetStream client stream);
  _ ←? (if stream_present : bool then mret (Ok ()) else create_stream_if_missing client stream);
  topic_present ←? queue_call "could not inspect Iggy chain topic" (GetTopic client stream topic);
  _ ←? (if topic_present : bool then mret (Ok ()) else create_topic_if_missing client stream);
  mret (Ok (negb stream_present || negb topic_present)).

Definition ensure_chain_topic (stream : string) : queueing bool :=
  reconnecting Provisioner "could not reconnect to Iggy topology provisioner" (ensure_with_client stream).

Definition enqueue (chain_id : Z) (operation : Value) : queueing () :=
  _ ←? mret (stream_for_chain chain_id);
  let stream := stream_name_for_chain chain_id in
  appended ← append stream operation;
  match appended with
  | Ok _ => mret (Ok ())
  | Err send_error =>
      provisioned ← io_within ProvisioningInTime (ensure_chain_topic stream);
      match provisioned with
      | None => mret (Err (queue_error "Iggy topology provisioning timed out"))
      | Some (Err error) => mret (Err error)
      | Some (Ok false) => mret (Err send_error)
      | Some (Ok true) => append stream operation
      end
  end.

End Queue.

(** ** What a confirmed enqueue means *)

Section Confirmed.
Context `{IT : IggyText}.
Variables (message_fits : Value → bool) (topic : string) (chain_id : Z) (operation : Value).

(** Whether Iggy has confirmed an append, and whether one has gone unconfirmed. *)
Record Sends : Type := { se_confirmed : bool; se_unconfirmed : bool }.
Definition no_sends : Sends := {| se_confirmed := false; se_unconfirmed := false |}.

Definition note_send (s : Sends) (R : Type) (e : QueueCall R) : R → Sends :=
  match e in QueueCall R return R → Sends with
  | SendMessages _ _ _ _ => λ sent,
      match sent with
      | Some (Ok _) => {| se_confirmed := true; se_unconfirmed := se_unconfirmed s |}
      | _ => {| se_confirmed := se_confirmed s; se_unconfirmed := true |}
      end
  | _ => λ _, s
  end.

(** Only this operation is appended, to its chain's stream, and not again once
    it is confirmed; only that stream is provisioned, with one partition that
    keeps a message for 14 days. *)
Definition own_call (s : Sends) (R : Type) (e : QueueCall R) : Prop :=
  match e with
  | SendMessages _ stream topic' payload =>
      stream = stream_name_for_chain chain_id ∧ topic' = topic ∧ payload = operation ∧ se_confirmed s = false
  | CreateStream _ stream => stream = stream_name_for_chain chain_id
  | CreateTopic _ stream topic' partitions retention =>
      stream = stream_name_for_chain chain_id ∧ topic' = topic ∧ partitions = 1 ∧
      retention = USER_OPERATION_QUEUE_RETENTION
  | _ => True
  end.

(** A call that is about the topology. *)
Definition topology_call (R : Type) (e : QueueCall R) : Prop :=
  match e with SendMessages _ _ _ _ => False | _ => own_call no_sends R e end.

Abbreviation sends p s Q := (ensures own_call note_send p s Q).

(** What only calls the topology sends nothing. *)
Lemma topology_sends {A} (p : io QueueCall A) s : yields topology_call p (λ _, True) → sends p s (λ s' _, s' = s).
Proof.
  induction p as [a|R e k IH]; [done|]. intros [He Hk]. split; [by destruct e|].
  intros r. assert (note_send s R e r = s) as -> by by destruct e. apply IH, Hk.
Qed.

Lemma topology_query {A} message (e : QueueCall (result IggyError A)) :
  topology_call _ e → yields topology_call (queue_call message e) (λ _, True).
Proof. intros He. apply yields_bind, yields_perform. split; [done|]. intros r. done. Qed.

Lemma topology_try {A B} (f : A → queueing B) (m : queueing A) :
  yields topology_call m (λ _, True) → (∀ a, yields topology_call (f a) (λ _, True)) →
  yields topology_call (io_try f m) (λ _, True).
Proof. intros Hm Hf. apply yields_try. eapply yields_mono; [exact Hm|]. by intros [a|e] _. Qed.

Lemma topology_reconnecting {A} role message (call : Z → queueing A) :
  (∀ client, yields topology_call (call client) (λ _, True)) →
  yields topology_call (reconnecting role message call) (λ _, True).
Proof.
  intros Hc. apply yields_bind, yields_perform. split; [done|]. intros client.
  apply yields_bind. eapply yields_mono; [apply Hc|]. intros [a|error] _; [done|].
  destruct (qu_session error); [|done]. apply yields_bind, yields_perform. split; [done|].
  intros [[]|]; [|done]. apply yields_bind, yields_perform. split; [done|]. intros client'. apply Hc.
Qed.

Lemma topology_ensured : yields topology_call (ensure_chain_topic topic (stream_name_for_chain chain_id)) (λ _, True).
Proof.
  apply topology_reconnecting. intros client. unfold ensure_with_client, create_stream_if_missing, create_topic_if_missing.
  repeat first
    [ apply topology_try; [|intros ?] | by apply topology_query
    | apply yields_bind, yields_perform; split; [done|intros [[]|?]]; [done|]
    | done | case_match ].
Qed.

(** An append ends [Ok] exactly if it was confirmed. *)
Definition answered_truly (s : Sends) (answer : result QueueError ()) : Prop :=
  se_confirmed s = match answer with Ok _ => true | Err _ => false end.

Lemma append_with_sends client s :
  se_confirmed s = false →
  sends (append_with message_fits topic client (stream_name_for_chain chain_id) operation) s answered_truly.
Proof.
  intros Hs. unfold append_with. destruct (negb _); [by apply ensures_pure|].
  apply ensures_bind, ensures_perform. split; [done|]. intros [[[]|error]|]; apply ensures_pure; done.
Qed.

Lemma append_sends s :
  se_confirmed s = false →
  sends (append message_fits topic (stream_name_for_chain chain_id) operation) s answered_truly.
Proof.
  intros Hs. apply ensures_bind, ensures_perform. split; [done|]. intros client.
  apply ensures_bind. eapply ensures_mono; [by apply append_with_sends|]. intros s1 [[]|error] H1; [by apply ensures_pure|].
  destruct (qu_session error); [|by apply ensures_pure].
  apply ensures_bind, ensures_perform. split; [done|]. intros [[]|]; [|by apply ensures_pure].
  apply ensures_bind, ensures_perform. split; [done|]. intros client'. by apply append_with_sends.
Qed.

Lemma enqueue_sends : sends (enqueue message_fits topic chain_id operation) no_sends answered_truly.
Proof.
  unfold enqueue. apply ensures_try, ensures_pure. destruct (stream_for_chain chain_id) as [[]|error]; [|done].
  apply ensures_bind. eapply ensures_mono; [by apply append_sends|]. intros s1 [[]|error] H1; [by apply ensures_pure|].
  apply ensures_bind. eapply ensures_mono; [apply topology_sends|].
  { apply yields_within; [done..|]. eapply yields_mono; [apply topology_ensured|]. done. }
  intros s2 provisioned ->. destruct provisioned as [[[|]|error']|]; [by apply append_sends|by apply ensures_pure..].
Qed.
End Confirmed.

(** C17: An enqueue that returns success was confirmed, and only then.  In every
    run of [enqueue], whatever the client answers and whichever deadline
    strikes, only this operation is appended, only to its own chain's stream,
    and never again once Iggy has confirmed it; only that stream is provisioned,
    with a single partition; and the result is [Ok] exactly if an append was
    confirmed. *)
Theorem confirmed_enqueue_was_appended `{IT : IggyText} message_fits topic chain_id operation calls answer :
  io_runs (enqueue message_fits topic chain_id operation) calls answer →
  accepted (own_call topic chain_id operation) note_send no_sends calls ∧
  (answer = Ok () ↔ se_confirmed (observed_all note_send no_sends calls) = true).
Proof.
  intros Hr. destruct (ensures_runs _ _ _ _ _ _ _ (enqueue_sends message_fits topic chain_id operation) Hr) as [Ha Ht].
  split; [exact Ha|]. unfold answered_truly in Ht. rewrite Ht. by destruct answer as [[]|error].
Qed.

(** A write to a chain nobody has used: the stream is missing, is created, and
    the second append is confirmed. *)
#[local] Instance queue_text : IggyText := {| iggy_text _ := ""; identifier _ := Ok () |}.
Definition first_write (sent : bool) (R : Type) (e : QueueCall R) : bool * R :=
  match e in QueueCall R return bool * R with
  | CurrentClient _ => (sent, 7)
  | ReconnectIfCurrent _ _ => (sent, Ok ())
  | SendMessages _ _ _ _ => (true, Some (if sent then Ok () else Err (OtherIggyError 1009)))
  | GetStream _ _ => (sent, Ok false)
  | CreateStream _ _ => (sent, Ok ())
  | GetTopic _ _ _ => (sent, Ok false)
  | CreateTopic _ _ _ _ _ => (sent, Ok ())
  | ProvisioningInTime => (sent, true)
  end.
Definition first_enqueue := io_execute first_write false (enqueue (λ _, true) "default" 8453 (VString "operation")).

Lemma first_enqueue_answer : first_enqueue.2.2 = Ok ().
Proof. vm_compute. reflexivity. Qed.
Lemma first_enqueue_runs : io_runs (enqueue (λ _, true) "default" 8453 (VString "operation")) first_enqueue.2.1 (Ok ()).
Proof. rewrite <-first_enqueue_answer. apply io_execute_runs. Qed.

Lemma confirmed_enqueue_was_appended_witness :
  accepted (own_call "default" 8453 (VString "operation")) note_send no_sends first_enqueue.2.1 ∧
  (@Ok QueueError () () = Ok () ↔ se_confirmed (observed_all note_send no_sends first_enqueue.2.1) = true).
Proof.
  exact (confirmed_enqueue_was_appended (λ _, true) "default" 8453 (VString "operation") first_enqueue.2.1 (Ok ())
           first_enqueue_runs).
Defined.
