(* ===== verification/Routing.v ===== *)
(** * Routing: from admission to the lane that executes
    (the envelope of [vela-relay-core/src/admission.rs] as
    [src/src/worker/consumer.rs] and [vela-relay-cf/src/queue.rs] read it)

    The operation that was admitted is the one either deployment executes, on
    the lane of its account. *)

From S2P Require Export Admission Queue Consumer.
#[local] Open Scope string_scope.
#[local] Open Scope list_scope.
#[local] Open Scope Z_scope.

(** ** The account's lane *)

(** The lane of a 20-byte account. *)
Definition account_lane (account : list byte) (width : Z) : Z := (be_value account mod 2 ^ 32) mod width.

Lemma suffix_value digits v :
  hex_value 0 digits = Some v → String.length digits = 40%nat →
  from_str_radix16 32 (str_drop 32 digits) = Some (v mod 2 ^ 32).
Proof.
  intros Hv Hl. pose proof (last_eight_value digits v Hv Hl) as H.
  rewrite last_eight_ascii in H by (by eapply hex_digits_ascii). by rewrite Hl in H.
Qed.

Section Account.
Context `{HX : Hex}.

Lemma parse_raw_address_Ok value bytes :
  parse_raw_address value = Ok bytes →
  ∃ digits, value = "0x" +:+ digits ∧ String.length digits = 40%nat ∧ hex_decode digits = Some bytes ∧
    length bytes = 20%nat.
Proof.
  unfold parse_raw_address. intros H. destruct (str_strip_prefix "0x" value) as [digits|] eqn:Hp; [|done].
  apply str_strip_prefix_Some in Hp as ->. simpl in H.
  destruct (bool_decide (String.length digits = 40%nat)) eqn:Hl; [|done].
  apply bool_decide_eq_true in Hl. simpl in H. unfold parse_hex_bytes in H.
  rewrite str_strip_prefix_app in H. simpl in H. rewrite Hl in H. simpl in H.
  destruct (hex_decode digits) as [b|] eqn:Hd; [|done]. simpl in H. case_decide; [|done].
  exists digits. simplify_eq. done.
Qed.

Lemma relayer_lane_of_account value account :
  parse_raw_address value = Ok account → relayer_lane value = Ok (account_lane account RELAYER_LANE_COUNT).
Proof.
  intros (digits & -> & Hl & Hd & _)%parse_raw_address_Ok. pose proof (hex_decode_value _ _ Hd) as Hv.
  pose proof (suffix_value _ _ Hv Hl) as Hs.
  unfold relayer_lane. rewrite str_strip_prefix_app. simpl in *. rewrite bool_decide_true by done.
  rewrite (hex_value_all _ _ _ Hv). simpl. by rewrite Hs.
Qed.

Lemma relayer_index_of_account value account width :
  0 < width → parse_raw_address value = Ok account →
  relayer_index_for_sender value width = account_lane account width.
Proof.
  intros Hw (digits & -> & Hl & Hd & _)%parse_raw_address_Ok. pose proof (hex_decode_value _ _ Hd) as Hv.
  unfold relayer_index_for_sender. rewrite str_strip_prefix_app. simpl.
  rewrite (last_eight_value _ _ Hv Hl). by rewrite decide_False by lia.
Qed.

Lemma account_lane_bound account width : 0 < width → 0 ≤ account_lane account width < width.
Proof. intros Hw. by apply Z.mod_pos_bound. Qed.
End Account.

(** ** The envelope *)

(** Reading the text of an operation changes nothing: no name is written twice. *)
Lemma de_value_user_operation op : de_value (ser_user_operation op) = ser_user_operation op.
Proof.
  destruct op as [op|op]; [|reflexivity].
  destruct op as [? ? [] [] ? ? ? ? ? ? [] [] [] [] ? [[]|] []]; reflexivity.
Qed.

Lemma de_tier tier : de_submission_tier (VString (tier_as_str tier)) = Some tier.
Proof. by destruct tier. Qed.

Lemma fits_as_uint w n : fits w n → as_uint w (VNumber n) = Some n.
Proof. intros H. simpl. unfold checked. by rewrite decide_True. Qed.

Lemma de_queue_envelope hash chain entry_point op tier :
  fits 64 chain →
  de_envelope (queue_envelope hash chain entry_point op tier) =
  Some {| qe_schema_version := 1; qe_user_operation_hash := hash; qe_chain_id := chain;
          qe_entry_point := entry_point; qe_user_operation := ser_user_operation op;
          qe_submission_tier := tier |}.
Proof.
  intros Hc. pose proof (fits_as_uint 64 chain Hc) as Hu.
  unfold de_envelope, queue_envelope. destruct tier as [tier|]; simpl struct_fields.
  - unfold req, opt. cbn -[de_submission_tier ser_user_operation de_value as_uint].
    rewrite Hu, de_tier, de_value_user_operation. reflexivity.
  - unfold req, opt. cbn -[de_submission_tier ser_user_operation de_value as_uint].
    rewrite Hu, de_value_user_operation. reflexivity.
Qed.

(** What an admitted operation's envelope reads as, up to where it was polled. *)
Definition delivers (op : UserOperation) (hash : string) (chain : Z) (entry_point : string)
    (tier : option SubmissionTier) (lane : Z) (routed : RoutedUserOperation) : Prop :=
  r_user_operation_hash routed = hash ∧ r_chain_id routed = chain ∧ r_entry_point routed = entry_point ∧
  de_user_operation (r_user_operation routed) = Some op ∧ r_submission_tier routed = tier ∧
  r_lane routed = lane ∧ r_schema_version routed = 1.

Section Delivered.
#[local] Set Default Proof Using "Type*".
Context `{SJ : SerdeJson} `{HX : Hex}.
Variables (op : UserOperationV0_7) (hash : string) (chain : Z) (entry_point : string)
  (tier : option SubmissionTier) (account : list byte).
Hypothesis Hchain : fits 64 chain.
Hypothesis Haccount : parse_raw_address (sender op) = Ok account.

Lemma consumer_reads_envelope stream partition offset payload :
  cs_chain_id stream = chain →
  json_from_slice payload = Ok (queue_envelope hash chain entry_point (V0_7 op) tier) →
  ∃ routed, parse_routed_operation stream partition offset payload = Ok routed ∧
    delivers (V0_7 op) hash chain entry_point tier (account_lane account RELAYER_LANE_COUNT) routed.
Proof.
  intros Hs Hj. unfold parse_routed_operation. rewrite Hj. cbn [mbind result_mbind].
  rewrite de_queue_envelope by done. cbn -[relayer_lane ser_user_operation dec de_value].
  rewrite Hs, Z.eqb_refl. cbn -[relayer_lane ser_user_operation dec].
  change (get "sender" (ser_user_operation (V0_7 op))) with (Some (VString (sender op))).
  cbn -[relayer_lane ser_user_operation dec]. rewrite (relayer_lane_of_account _ _ Haccount).
  eexists. split; [reflexivity|]. unfold delivers. cbn -[de_user_operation ser_user_operation].
  rewrite de_ser_user_operation. done.
Qed.

Lemma queue_reads_envelope pool_width :
  0 < pool_width ≤ 256 →
  ∃ routed, parse_routed (queue_envelope hash chain entry_point (V0_7 op) tier) pool_width = Ok routed ∧
    delivers (V0_7 op) hash chain entry_point tier (account_lane account pool_width) routed.
Proof.
  intros Hw. pose proof (fits_as_uint 64 chain Hchain) as Hu.
  pose proof (relayer_index_of_account _ _ pool_width ltac:(lia) Haccount) as Hr.
  pose proof (account_lane_bound account pool_width ltac:(lia)) as Hb.
  unfold parse_routed, tier_of, queue_envelope. destruct tier as [tr|].
  all: cbn -[ser_user_operation as_uint dec relayer_index_for_sender de_submission_tier Z.pow].
  all: rewrite Hu; cbn -[ser_user_operation relayer_index_for_sender de_submission_tier Z.pow].
  all: change (get "sender" (ser_user_operation (V0_7 op))) with (Some (VString (sender op))).
  all: cbn -[ser_user_operation relayer_index_for_sender de_submission_tier Z.pow].
  all: try (rewrite de_tier; cbn -[ser_user_operation relayer_index_for_sender Z.pow]).
  all: eexists; split; [reflexivity|]; unfold delivers.
  all: cbn -[de_user_operation ser_user_operation relayer_index_for_sender Z.pow].
  all: rewrite de_ser_user_operation, Hr, Z.mod_small by (change (2 ^ 8) with 256; lia); done.
Qed.
End Delivered.

Lemma prepare_sender `{HX : Hex} op prepared :
  prepare op = Ok prepared →
  ∃ unpacked, op = V0_7 unpacked ∧ prep_operation prepared = op ∧
    parse_raw_address (sender unpacked) = Ok (prep_sender prepared).
Proof.
  destruct op as [op|op]; [|done]. simpl. unfold from_v0_7. destruct (eip7702_auth op); [done|].
  unfold parse_address_field at 1. destruct (parse_raw_address (sender op)) as [account|] eqn:Ha; [|done].
  simpl. intros H. exists op. inv_checked.
  repeat (case_decide; [done|] || inv_checked). repeat case_decide; inv_checked; simplify_eq; done.
Qed.

(** ** Claim *)

(** C18: the operation that admission prepared is the one either deployment
    executes, on the lane of its account.  The envelope admission enqueues is
    read by the server's consumer, on the stream of its chain and at whatever
    offset, and by the Cloudflare consumer: neither finds it malformed, both
    give back the same operation, hash, chain, entry point and tier, and both
    choose, of ten lanes, the low 32 bits of the account modulo ten. *)
Theorem admitted_operation_reaches_its_lane `{SJ : SerdeJson} `{HX : Hex} op prepared hash chain entry_point
    tier stream partition offset payload :
  prepare op = Ok prepared → fits 64 chain → cs_chain_id stream = chain →
  json_from_slice payload =
    Ok (queue_envelope hash chain entry_point (prep_operation prepared) tier) →
  let lane := account_lane (prep_sender prepared) 10 in
  0 ≤ lane < RELAYER_LANE_COUNT ∧
  (∃ routed, parse_routed_operation stream partition offset payload = Ok routed ∧
     delivers op hash chain entry_point tier lane routed) ∧
  (∃ routed, parse_routed (queue_envelope hash chain entry_point (prep_operation prepared) tier) 10 = Ok routed ∧
     delivers op hash chain entry_point tier lane routed).
Proof.
  intros (unpacked & -> & Ho & Ha)%prepare_sender Hc Hs Hj. rewrite Ho in *.
  split; [by apply account_lane_bound|].
  split; [by eapply consumer_reads_envelope|by apply queue_reads_envelope].
Qed.

(** ** Witness *)

Definition sample_prepared : PreparedUserOperation :=
  match prepare (HX := ref_hex) (sub_user_operation sample_submit) with
  | Ok prepared => prepared
  | Err _ => {| prep_operation := sub_user_operation sample_submit; prep_sender := []; prep_nonce := [];
                prep_init_code := []; prep_call_data := []; prep_account_gas_limits := [];
                prep_pre_verification_gas := []; prep_gas_fees := []; prep_paymaster_and_data := [] |}
  end.

(** A reader that knows the one envelope. *)
Definition sample_json : SerdeJson :=
  {| json_from_slice := λ _, Ok (queue_envelope "0xabc" 8453 "0x0000000071727De22E5E9d8BAf0edAc6f37da032"
                                  (prep_operation sample_prepared) (Some Fast));
     derive_error := λ _ _, "" |}.

Lemma admitted_operation_reaches_its_lane_witness :
  account_lane (prep_sender sample_prepared) 10 = 6 ∧
  ∃ routed, @parse_routed_operation sample_json {| cs_chain_id := 8453; cs_name := "chain-8453" |} 1 7 [] = Ok routed ∧
    r_lane routed = 6.
Proof.
  assert (Hl : account_lane (prep_sender sample_prepared) 10 = 6) by (vm_compute; reflexivity).
  destruct (@admitted_operation_reaches_its_lane sample_json ref_hex (sub_user_operation sample_submit)
    sample_prepared "0xabc" 8453 "0x0000000071727De22E5E9d8BAf0edAc6f37da032" (Some Fast)
    {| cs_chain_id := 8453; cs_name := "chain-8453" |} 1 7 []) as (_ & (routed & Hr & Hd) & _);
    [vm_compute; reflexivity|split; vm_compute; congruence|reflexivity|reflexivity|].
  split; [exact Hl|]. exists routed. split; [exact Hr|]. unfold delivers in Hd. rewrite Hl in Hd. tauto.
Defined.
