(* ===== verification/RedisOutbox.v ===== *)
(** * RedisOutbox: what the server's store does to a prepared bundle

    A prepared bundle is stored without an expiry.  Of all the commands a
    function of the store may issue, only the script that clears a bundle
    removes it, and only when it is asked for the very transaction that is
    stored. *)

From S2P Require Export RedisCommands.
#[local] Open Scope string_scope.
#[local] Open Scope list_scope.
#[local] Open Scope Z_scope.
#[local] Set Default Proof Using "Type*".

(** What a key holds, with its expiry. *)
Definition entry_at (now : Z) (ks : Keyspace) (key : string) : option (Expiring Bulk) := ks_texts ks !! key.

Definition is_bundle_key (key : string) : Prop := ∃ chain_id lane, key = prepared_bundle_key chain_id lane.

(** A bundle's key keeps what it holds without an expiry. *)
Definition outbox_rule (key : string) (a b : option (Expiring Bulk)) : Prop :=
  is_bundle_key key → ∀ v, a = Some (v, None) → b = Some (v, None).

#[export] Instance outbox_rule_preorder key : PreOrder (outbox_rule key).
Proof. split; [by intros a Hk v|]. intros a b c Hab Hbc Hk v Ha. by apply Hbc, Hab. Qed.

Abbreviation keeps_bundles m := (moves entry_at outbox_rule m).

(** Keys of other kinds have other prefixes. *)
Lemma not_status hash : ¬ is_bundle_key (status_key hash).
Proof. by intros (c & l & Ek). Qed.
Lemma not_lease scope : ¬ is_bundle_key (lease_key scope).
Proof. by intros (c & l & Ek). Qed.
Lemma not_alert fingerprint : ¬ is_bundle_key (executor_alert_key fingerprint).
Proof. by intros (c & l & Ek). Qed.
Lemma not_funding chain_id : ¬ is_bundle_key (prepared_funding_key chain_id).
Proof. by intros (c & l & Ek). Qed.
Lemma not_deployment chain_id : ¬ is_bundle_key (prepared_simulation_deployment_key chain_id).
Proof. by intros (c & l & Ek). Qed.
Lemma not_payload hash : ¬ is_bundle_key (delayed_operation_payload_key hash).
Proof. by intros (c & l & Ek). Qed.
Lemma not_claim identifier : ¬ is_bundle_key (delayed_operation_claim_key identifier).
Proof. by intros (c & l & Ek). Qed.
Lemma not_claim_prefix identifier : ¬ is_bundle_key (DELAYED_OPERATION_CLAIM_KEY_PREFIX +:+ identifier).
Proof. by intros (c & l & Ek). Qed.
Create HintDb outbox.
#[export] Hint Resolve not_status not_lease not_alert not_funding not_deployment not_payload not_claim
  not_claim_prefix : outbox.

Lemma outbox_insert (f : Z → Keyspace → Expiring Bulk) key :
  ¬ is_bundle_key key → keeps_bundles (writes (λ now ks, with_texts (<[key := f now ks]>) ks)).
Proof.
  intros Hn now ks key' Hk v Hv. unfold entry_at in *. cbn.
  destruct (decide (key' = key)) as [->|Hne]; [done|]. by rewrite lookup_insert_ne.
Qed.
Lemma outbox_delete key : ¬ is_bundle_key key → keeps_bundles (writes (λ _, with_texts (delete key))).
Proof.
  intros Hn now ks key' Hk v Hv. unfold entry_at in *. cbn.
  destruct (decide (key' = key)) as [->|Hne]; [done|]. by rewrite lookup_delete_ne.
Qed.
Lemma outbox_hashes f : keeps_bundles (writes (λ now ks, with_hashes (f now ks) ks)).
Proof. intros now ks key. reflexivity. Qed.
Lemma outbox_sets f : keeps_bundles (writes (λ now ks, with_sets (f now ks) ks)).
Proof. intros now ks key. reflexivity. Qed.
Lemma outbox_sorted f : keeps_bundles (writes (λ now ks, with_sorted (f now ks) ks)).
Proof. intros now ks key. reflexivity. Qed.

(** [SET NX] leaves what is there. *)
Lemma outbox_SET_NX key v ttl : keeps_bundles (SET_NX key v ttl).
Proof.
  intros now ks key' Hk w Hw. unfold SET_NX, GET, mbind, redis_mbind, reads. cbn.
  destruct (text_at now ks key) eqn:E; cbn; [exact Hw|]. unfold entry_at in *. cbn.
  destruct (decide (key' = key)) as [->|Hne]; [|by rewrite lookup_insert_ne].
  unfold text_at in E. by rewrite Hw in E.
Qed.

Ltac outbox_one :=
  first
    [ apply moves_mret | apply moves_error | apply moves_need | apply moves_reads | apply outbox_SET_NX
    | apply outbox_insert; solve [auto with outbox] | apply outbox_delete; solve [auto with outbox]
    | apply outbox_hashes | apply outbox_sets | apply outbox_sorted ];
  try preorders.
Ltac outbox :=
  repeat lazymatch goal with
  | |- moves _ _ (mbind _ _) => apply moves_bind; [preorders| |intros ?]
  | |- moves _ _ (redis_for _ _ _) => apply moves_for; [preorders|intros ? ?]
  | |- moves _ _ (match ?x with _ => _ end) => destruct x
  | |- moves _ _ (let '_ := ?x in _) => destruct x
  | |- moves _ _ _ => first [outbox_one | progress (unfold GET, MGET, SET_PX, SET_KEEPTTL, DEL_text, PEXPIRE_text, HGET,
      HGETALL, HSET, DEL_hash, PEXPIRE_hash, EXISTS_hash, HINCR, SADD, SREM, SMEMBERS, EXPIRE_set, ZADD, ZREM,
      ZRANGEBYSCORE, TIME)]
  end.

Section Outbox.
Context `{LJ : LuaJson}.

Lemma outbox_patch hash patch observed : keeps_bundles (PATCH_RECORD_SCRIPT (status_key hash) patch observed).
Proof. unfold PATCH_RECORD_SCRIPT, cjson_decode, lua_merge. outbox. Qed.

Lemma outbox_mark index transaction_hash ttl members :
  Forall (λ m : string * MemberKind * string * string, ∃ hash, m.1.1.1 = status_key hash) members →
  keeps_bundles (MARK_BUNDLE_SUBMITTED_SCRIPT index transaction_hash ttl members).
Proof.
  intros Hm. unfold MARK_BUNDLE_SUBMITTED_SCRIPT. apply moves_bind; [preorders| |intros indexed; outbox].
  match goal with |- moves _ _ (redis_for ?body _ _) => enough (∀ s, keeps_bundles (redis_for body members s)) by done end.
  induction Hm as [|[[[key kind] observed] hash] members [h Hk] Hm IH]; intros s; [apply moves_mret; preorders|].
  apply moves_bind; [preorders| |apply IH]. cbn in Hk. subst key. unfold mark_member, cjson_decode, lua_merge. outbox.
Qed.

(** One command, at a key that holds a bundle: the bundle stays, or the
    command has cleared the transaction it carries. *)
Definition after_command (cleared : option (Z * Z * string)) (key : string) (v : Bulk)
    (b : option (Expiring Bulk)) : Prop :=
  b = Some (v, None) ∨
  b = None ∧ ∃ chain_id lane hash payload, cleared = Some (chain_id, lane, hash) ∧
    key = prepared_bundle_key chain_id lane ∧ v = Json payload ∧ lua_field_is payload "transactionHash" hash = true.

Lemma after_clear chain_id lane index hash now ks key v :
  entry_at now ks key = Some (v, None) →
  after_command (Some (chain_id, lane, hash)) key v
    (entry_at now (CLEAR_PREPARED_BUNDLE_SCRIPT (prepared_bundle_key chain_id lane) index hash now ks).1 key).
Proof.
  intros Hv. set (cleared := prepared_bundle_key chain_id lane).
  unfold CLEAR_PREPARED_BUNDLE_SCRIPT, DEL_text, SREM, GET, mbind, redis_mbind, reads, writes. cbn.
  destruct (text_at now ks cleared) as [[text|payload]|] eqn:E; cbn; [by left| |by left].
  destruct (lua_field_is payload "transactionHash" hash) eqn:El; cbn; [|by left]. unfold entry_at in *. cbn.
  destruct (decide (key = cleared)) as [->|Hne]; [|left; by rewrite lookup_delete_ne].
  right. rewrite lookup_delete_eq. split; [done|]. exists chain_id, lane, hash, payload. split; [done|]. split; [done|].
  split; [|done]. unfold text_at in E. rewrite Hv in E. by injection E.
Qed.

Lemma kept_after {R} cleared (command : redis R) now ks key v :
  keeps_bundles command → is_bundle_key key → entry_at now ks key = Some (v, None) →
  after_command cleared key v (entry_at now (command now ks).1 key).
Proof. intros Hc Hk Hv. left. by apply (Hc now ks key Hk). Qed.

Lemma outbox_claim_slot key hash at_ms ttl : keeps_bundles (CLAIM_NONCE_SLOT_SCRIPT key hash at_ms ttl).
Proof. unfold CLAIM_NONCE_SLOT_SCRIPT, slot_claimed_at, take_slot. outbox. Qed.
Lemma outbox_take_over_slot key hash at_ms ttl judged :
  keeps_bundles (TAKE_OVER_NONCE_SLOT_SCRIPT key hash at_ms ttl judged).
Proof. unfold TAKE_OVER_NONCE_SLOT_SCRIPT, slot_claimed_at, take_slot. outbox. Qed.
Lemma outbox_release_slot key hash : keeps_bundles (RELEASE_NONCE_SLOT_SCRIPT key hash).
Proof. unfold RELEASE_NONCE_SLOT_SCRIPT. outbox. Qed.
Lemma outbox_release key token : ¬ is_bundle_key key → keeps_bundles (RELEASE_LEASE_SCRIPT key token).
Proof. intros Hn. unfold RELEASE_LEASE_SCRIPT. outbox. Qed.
Lemma outbox_renew scope token ttl : keeps_bundles (RENEW_LEASE_SCRIPT (lease_key scope) token ttl).
Proof. unfold RENEW_LEASE_SCRIPT. outbox. Qed.
Lemma outbox_save key index payload : keeps_bundles (SAVE_PREPARED_BUNDLE_SCRIPT key index payload).
Proof. unfold SAVE_PREPARED_BUNDLE_SCRIPT. outbox. Qed.
Lemma outbox_list index : keeps_bundles (LIST_PREPARED_BUNDLES_SCRIPT index).
Proof. unfold LIST_PREPARED_BUNDLES_SCRIPT. outbox. Qed.
Lemma outbox_save_funding key payload : keeps_bundles (SAVE_PREPARED_FUNDING_SCRIPT key payload).
Proof. unfold SAVE_PREPARED_FUNDING_SCRIPT. outbox. Qed.
Lemma outbox_clear_funding key hash : ¬ is_bundle_key key → keeps_bundles (CLEAR_PREPARED_FUNDING_SCRIPT key hash).
Proof. intros Hn. unfold CLEAR_PREPARED_FUNDING_SCRIPT, cjson_decode. outbox. Qed.
Lemma outbox_save_delayed hash item schedule_key identifier canonical payload ident ttl schedule :
  keeps_bundles (SAVE_DELAYED_OPERATION_SCRIPT (delayed_operation_payload_key hash) item schedule_key
    (delayed_operation_claim_key identifier) canonical payload ident ttl schedule).
Proof. unfold SAVE_DELAYED_OPERATION_SCRIPT, schedule_attempt, keep_canonical. outbox. Qed.
Lemma outbox_claim_delayed schedule_key token limit item_prefix claim_ttl :
  keeps_bundles (CLAIM_DELAYED_OPERATIONS_SCRIPT schedule_key token limit item_prefix
    DELAYED_OPERATION_CLAIM_KEY_PREFIX claim_ttl).
Proof. unfold CLAIM_DELAYED_OPERATIONS_SCRIPT. outbox. Qed.
Lemma outbox_complete_delayed item schedule_key identifier token ident :
  keeps_bundles (COMPLETE_DELAYED_OPERATION_SCRIPT item schedule_key (delayed_operation_claim_key identifier) token ident).
Proof. unfold COMPLETE_DELAYED_OPERATION_SCRIPT. outbox. Qed.
Lemma outbox_retry_delayed item schedule_key identifier hash token ident ttl canonical schedule :
  keeps_bundles (RETRY_DELAYED_OPERATION_SCRIPT item schedule_key (delayed_operation_claim_key identifier)
    (delayed_operation_payload_key hash) token ident ttl canonical schedule).
Proof. unfold RETRY_DELAYED_OPERATION_SCRIPT, schedule_attempt, keep_canonical. outbox. Qed.

Lemma commands_after {cleared R} (command : redis R) now ks key v :
  store_command cleared R command → is_bundle_key key → entry_at now ks key = Some (v, None) →
  after_command cleared key v (entry_at now (command now ks).1 key).
Proof.
  intros Hc Hk Hv. destruct Hc;
    lazymatch goal with
    | |- context [CLEAR_PREPARED_BUNDLE_SCRIPT] => subst cleared; by apply after_clear
    | |- _ => apply kept_after; [|done..]
    end.
  - outbox.
  - outbox.
  - outbox.
  - outbox.
  - apply outbox_patch.
  - by apply outbox_mark.
  - outbox.
  - apply outbox_renew.
  - apply outbox_release; auto with outbox.
  - apply outbox_save.
  - apply outbox_list.
  - apply outbox_save_funding.
  - apply outbox_clear_funding; auto with outbox.
  - apply outbox_save_funding.
  - apply outbox_clear_funding; auto with outbox.
  - outbox.
  - apply outbox_claim_slot.
  - apply outbox_take_over_slot.
  - apply outbox_release_slot.
  - outbox.
  - apply outbox_release; auto with outbox.
  - apply outbox_save_delayed.
  - apply outbox_claim_delayed.
  - apply outbox_complete_delayed.
  - apply outbox_retry_delayed.
Qed.
End Outbox.
