(* ===== verification/Engine.v ===== *)
(** * Engine: the server's executor engine, and the outbox it recovers
    ([src/src/worker/executor/engine.rs])

    The engine's tasks share the Redis store, the trusted endpoints and four
    maps behind mutexes.  A function of the store is one effect here, and the
    program of commands it stands for is [store_program]; a map is read and
    changed under its lock, so that is one effect, answered by the map before.
    Durations and instants are milliseconds.  Logs have no answer and are left
    out. *)

From S2P Require Export Trusted Alert Tempo ExecutionPipeline Signing RedisInbox Consumer.
From S2P Require Import Config.
From S2P Require LaneDo LaneArms.
#[local] Open Scope string_scope.
#[local] Open Scope list_scope.
#[local] Open Scope Z_scope.

Definition BROADCAST_RETRY_INTERVAL : Z := 30000.
Definition RECEIPT_RECONCILE_FAILURE_DELAY : Z := 1000.
Definition DELAYED_CLAIM_BATCH_SIZE : Z := 100.
Definition DELAYED_CLAIM_TTL_MIN : Z := 2 * 60 * 1000.
Definition BINANCE_PRICE_TTL : Z := 60000.
Definition ERC20_DECIMALS_SELECTOR : list byte := [x31; x3c; xe5; x67].

(** ** The store's functions *)

Inductive StoreFn : Type → Type :=
  | FnGet (hash : string) : StoreFn (option StoredUserOperation)
  | FnGetMany (hashes : list string) : StoreFn (list (option StoredUserOperation))
  | FnRestore (queued : QueuedUserOperation) : StoreFn bool
  | FnMarkAdmitted (hash : string) : StoreFn bool
  | FnMarkRejected (hash stage reason : string) (code : RejectionReason) : StoreFn bool
  | FnRecordDeferred (hash stage reason : string) : StoreFn bool
  | FnMarkSubmitted (chain_id : Z) (transaction_hash : string) (hashes : list string) : StoreFn nat
  | FnMarkFailed (chain_id : Z) (transaction_hash : string) (receipt : Value) : StoreFn ()
  | FnMarkConfirmed (chain_id : Z) (transaction_hash : string) (receipt : Value)
      (events : list UserOperationEvent) : StoreFn ()
  | FnAcquireLease (scope token : string) (ttl : Z) : StoreFn bool
  | FnRenewLease (scope token : string) (ttl : Z) : StoreFn bool
  | FnReleaseLease (scope token : string) : StoreFn bool
  | FnSaveBundle (intent : PreparedBundleIntent) : StoreFn bool
  | FnGetBundle (chain_id lane : Z) : StoreFn (option PreparedBundleIntent)
  | FnClearBundle (chain_id lane : Z) (transaction_hash : string) : StoreFn bool
  | FnListBundles : StoreFn (list PreparedBundleIntent)
  | FnSaveFunding (intent : PreparedFundingIntent) : StoreFn bool
  | FnGetFunding (chain_id : Z) : StoreFn (option PreparedFundingIntent)
  | FnClearFunding (chain_id : Z) (transaction_hash : string) : StoreFn bool
  | FnSaveDeployment (intent : PreparedSimulationDeploymentIntent) : StoreFn bool
  | FnGetDeployment (chain_id : Z) : StoreFn (option PreparedSimulationDeploymentIntent)
  | FnClearDeployment (chain_id : Z) (transaction_hash : string) : StoreFn bool
  | FnDefer (operation : DelayedUserOperation) (ttl : Z) : StoreFn Z
  | FnClaimDue (token : string) (limit ttl : Z) : StoreFn (list ClaimedDelayedUserOperation)
  | FnComplete (identifier token : string) : StoreFn bool
  | FnRetry (operation : DelayedUserOperation) (token : string) (ttl : Z) : StoreFn bool
  | FnDeadLetter (chain_id partition_id offset : Z) (payload : list byte) (reason : string)
      (user_operation_hash : option string) (ttl : Z) : StoreFn bool
  | FnClaimAlert (fingerprint token : string) (cooldown : Z) : StoreFn bool
  | FnReleaseAlert (fingerprint token : string) : StoreFn bool.

(** The commands a function of the store stands for ([RedisStore], [RedisInbox]). *)
Definition store_program `{LuaJson} `{Hex} {A} (f : StoreFn A) : store A :=
  match f with
  | FnGet hash => get_stored hash
  | FnGetMany hashes => get_many hashes
  | FnRestore queued => restore_queued_from_durable_payload queued
  | FnMarkAdmitted hash => mark_admitted hash
  | FnMarkRejected hash stage reason code => mark_rejected_with_executor_reason hash stage reason code
  | FnRecordDeferred hash stage reason => record_executor_deferred hash stage reason
  | FnMarkSubmitted chain_id transaction_hash hashes => mark_bundle_submitted chain_id transaction_hash hashes
  | FnMarkFailed chain_id transaction_hash receipt => mark_bundle_failed chain_id transaction_hash receipt
  | FnMarkConfirmed chain_id transaction_hash receipt events =>
      mark_bundle_confirmed chain_id transaction_hash receipt events
  | FnAcquireLease scope token ttl => acquire_lease scope token ttl
  | FnRenewLease scope token ttl => renew_lease scope token ttl
  | FnReleaseLease scope token => release_lease scope token
  | FnSaveBundle intent => save_prepared_bundle_intent intent
  | FnGetBundle chain_id lane => get_prepared_bundle_intent chain_id lane
  | FnClearBundle chain_id lane transaction_hash => clear_prepared_bundle_intent chain_id lane transaction_hash
  | FnListBundles => list_prepared_bundle_intents
  | FnSaveFunding intent => save_prepared_funding_intent intent
  | FnGetFunding chain_id => get_prepared_funding_intent chain_id
  | FnClearFunding chain_id transaction_hash => clear_prepared_funding_intent chain_id transaction_hash
  | FnSaveDeployment intent => save_prepared_simulation_deployment_intent intent
  | FnGetDeployment chain_id => get_prepared_simulation_deployment_intent chain_id
  | FnClearDeployment chain_id transaction_hash =>
      clear_prepared_simulation_deployment_intent chain_id transaction_hash
  | FnDefer operation ttl => defer_user_operation operation ttl
  | FnClaimDue token limit ttl => claim_due_user_operations token limit ttl
  | FnComplete identifier token => complete_delayed_user_operation identifier token
  | FnRetry operation token ttl => retry_delayed_user_operation operation token ttl
  | FnDeadLetter chain_id partition_id offset payload reason hash ttl =>
      save_malformed_dead_letter chain_id partition_id offset payload reason hash ttl
  | FnClaimAlert fingerprint token cooldown => claim_executor_alert fingerprint token cooldown
  | FnReleaseAlert fingerprint token => release_executor_alert fingerprint token
  end.

(** ** Effects *)

Inductive EngineCall : Type → Type :=
  | Store {A} (f : StoreFn A) : EngineCall (result StoreError A)
  | InstantNow : EngineCall Z
  (* what a token is made of *)
  | ProcessId : EngineCall Z
  | UnixNanos : EngineCall Z
  | NextLeaseToken : EngineCall Z
  | NextAlertToken : EngineCall Z
  (* the maps behind the engine's mutexes *)
  | BroadcastSeen (update : gmap string Z → gmap string Z) : EngineCall (gmap string Z)
  | ReceiptDue (update : gmap string Z → gmap string Z) : EngineCall (gmap string Z)
  | CachedAssets (chain_id : Z) : EngineCall (option ResolvedChainAssets)
  | CacheAssets (chain_id : Z) (assets : ResolvedChainAssets) : EngineCall ()
  | CachedMarketPrice (symbol : string) : EngineCall (option (Z * Z))
  | CacheMarketPrice (symbol : string) (expires_at price : Z) : EngineCall ()
  (* the trusted endpoints *)
  | SupportsChain (chain_id : Z) : EngineCall bool
  | RpcCall (chain_id : Z) (method : string) (params : Value) : EngineCall (result Trusted.RpcError Value)
  | RpcCallWalk (chain_id : Z) (method : string) (params : Value) :
      EngineCall (result Trusted.RpcError Value * list MethodAnswer)
  | RpcSimulate (chain_id : Z) (method : string) (params : Value) : EngineCall (result Trusted.RpcError Value)
  | RpcBatch (chain_id : Z) (calls : list RpcBatchCall) : EngineCall (result Trusted.RpcError (list (result Trusted.RpcError Value)))
  | RpcBatchWalk (chain_id : Z) (calls : list RpcBatchCall) :
      EngineCall (result Trusted.RpcError (list (result Trusted.RpcError Value)) * list MethodAnswer)
  | RpcBroadcast (chain_id : Z) (raw : list byte) : EngineCall (result Trusted.RpcError BroadcastOutcome)
  | RpcLacksMethod (chain_id : Z) (method : string) : EngineCall bool
  | RpcNoteWalk (chain_id : Z) (method : string) (answers : list MethodAnswer) : EngineCall ()
  (* the directory, the market and Telegram *)
  | FetchChainMetadata (chain_id : Z) : EngineCall (option ChainMetadata)
  | FetchTicker (url : string) : EngineCall (option string)
  | SendTelegram (text : string) : EngineCall bool
  (* tasks: a heartbeat and the latch it trips, an alert, a pause *)
  | TripInterrupt (reason : string) : EngineCall ()
  | SpawnHeartbeat (scope token : string) : EngineCall ()
  | AbortHeartbeat (scope : string) : EngineCall ()
  | HeartbeatTick : EngineCall ()
  | SpawnAlert (chain_id : Z) (stage hash reason : string) : EngineCall ()
  | Sleep (ms : Z) : EngineCall ()
  (* one lane's claims, processed by a task of their own *)
  | SpawnDelayedLane (token : string) (claims : list ClaimedDelayedUserOperation) : EngineCall ()
  | JoinNextLane : EngineCall (result string ())
  (* the reconciler's ticks: the shutdown, a bundle tick, a delayed tick *)
  | NextTick : EngineCall (option bool)
  | SleepOrShutdown (ms : Z) : EngineCall bool
  (* an index out of range, or an [expect] *)
  | Panic : EngineCall Empty_set.

Abbreviation engine := (io EngineCall).

(** A loop that visits every item, whatever becomes of it. *)
Fixpoint io_visit {E S X} (body : X → S → io E S) (items : list X) (s : S) : io E S :=
  match items with
  | [] => mret s
  | x :: items => s ← body x s; io_visit body items s
  end.

Definition on_store {A} (f : StoreFn A) : engine (result string A) := perform (Store f).
Definition panic {A} : engine A := nothing ← perform Panic; match (nothing : Empty_set) with end.

Definition unique_token (prefix : string) : engine string :=
  counter ← perform NextLeaseToken;
  timestamp ← perform UnixNanos;
  process ← perform ProcessId;
  mret (prefix +:+ ":" +:+ dec process +:+ ":" +:+ dec timestamp +:+ ":" +:+ dec counter).

(** ** The engine *)

Record ExecutorConfig : Type := {
  xc_operator_secret : string; xc_pool_width : nat; xc_max_bundle_operations : nat;
  xc_lease_ttl : Z; xc_receipt_poll_interval : Z; xc_attempt_ttl : Z;
  xc_gas_buffer_bps : Z; xc_fixed_gas_buffer : Z; xc_settlement_markup_bps : Z;
  xc_settlement_inclusion_floor_bps : Z; xc_settlement_hold_max_attempts : Z;
  xc_relayer_float_min_wei : Z; xc_relayer_float_target_wei : Z; xc_relayer_float_cost_multiplier : Z;
  xc_treasury_floor_wei : Z; xc_top_up_max_wei : Z;
  xc_telegram_bot_token : option string; xc_telegram_chat_id : option string; xc_telegram_cooldown : Z }.

Inductive BundleBroadcastDisposition : Type := BroadcastConfirmed | BroadcastUnknown.
Inductive BundleResumeDisposition : Type := ResumeConfirmed | ResumeUnknown | ResumeCleared.

Section Engine.
Context `{HA : Alloy} `{HK : Keccak} `{HC : Curve}.

Record ExecutorEngine : Type := {
  en_config : ExecutorConfig; en_relayer_keys : list SecretKey; en_relayer_addresses : list Z;
  en_treasury_key : SecretKey; en_treasury_address : Z }.

Definition signer_address (key : SecretKey) : Z := be_value (drop 12 (keccak256 (drop 1 (public_point key)))).

(** [ExecutorEngine::new]; the HTTP clients it also builds are reqwest's. *)
Definition engine_new (config : ExecutorConfig) : result string ExecutorEngine :=
  keys ← all_ok (λ index, map_err vault_error_text
                   (derive_pool_relayer_secret_key (xc_operator_secret config) (Z.of_nat index)))
           (seq 0 (xc_pool_width config));
  treasury ← map_err vault_error_text (derive_treasury_secret_key (xc_operator_secret config));
  Ok {| en_config := config; en_relayer_keys := keys; en_relayer_addresses := map signer_address keys;
        en_treasury_key := treasury; en_treasury_address := signer_address treasury |}.

Definition receipt_pace (config : ExecutorConfig) (chain_id : Z) : Z :=
  receipt_pace_ms chain_id (Z.min (xc_receipt_poll_interval config) (umax 64)).
End Engine.

(** ** The maps *)

Definition arm_receipt_check (transaction_hash : string) (within : Z) : engine () :=
  now ← perform InstantNow;
  let due := now + within in
  _ ← perform (ReceiptDue (λ receipt_due,
        <[transaction_hash := match receipt_due !! transaction_hash with
                              | Some existing => Z.min existing due
                              | None => due
                              end]> receipt_due));
  mret ().

Definition remember_confirmed_broadcast (transaction_hash : string) : engine () :=
  now ← perform InstantNow;
  _ ← perform (BroadcastSeen (λ seen, <[transaction_hash := now]> seen)); mret ().

Definition forget_broadcast (transaction_hash : string) : engine () :=
  _ ← perform (BroadcastSeen (λ seen, delete transaction_hash seen)); mret ().

(** What is younger than [BROADCAST_RETRY_INTERVAL] at [now]. *)
Definition fresh_broadcasts (now : Z) (seen : gmap string Z) : gmap string Z :=
  filter (λ entry : string * Z, Z.max 0 (now - entry.2) < BROADCAST_RETRY_INTERVAL) seen.

Definition recently_confirmed_broadcast (transaction_hash : string) : engine bool :=
  now ← perform InstantNow;
  seen ← perform (BroadcastSeen (fresh_broadcasts now));
  mret (bool_decide (is_Some (fresh_broadcasts now seen !! transaction_hash))).

(** ** The chain's view of a transaction *)

Definition transaction_is_known (chain_id : Z) (expected_hash : string) : engine bool :=
  answer ← perform (RpcCall chain_id "eth_getTransactionByHash" (VArray [VString expected_hash]));
  mret match answer with Ok answer => holds_transaction answer expected_hash | Err _ => false end.

Section Recovery.
Context `{HA : Alloy} `{HT : !HashText} `{HK : Keccak} `{HC : Curve}.
Variable self : ExecutorEngine.

Definition relayer_of_lane (lane : Z) : option Z := en_relayer_addresses self !! Z.to_nat lane.

Definition bundle_nonce_is_stale (intent : PreparedBundleIntent) : engine bool :=
  match relayer_of_lane (bi_lane intent) with
  | None => mret false
  | Some relayer =>
      answer ← perform (RpcCall (bi_chain_id intent) "eth_getTransactionCount"
                          (VArray [VString (address_to_string relayer); VString "latest"]));
      mret match LaneDo.latest_nonce answer with
           | Some latest_nonce => bi_nonce intent <? latest_nonce
           | None => false
           end
  end.

Definition clear_bundle (intent : PreparedBundleIntent) : engine (result string bool) :=
  on_store (FnClearBundle (bi_chain_id intent) (bi_lane intent) (bi_transaction_hash intent)).

Definition clear_stale_bundle_intent (intent : PreparedBundleIntent) : engine (result string ()) :=
  cleared ←? clear_bundle intent;
  if negb cleared then mret (Ok ())
  else
    _ ← forget_broadcast (bi_transaction_hash intent);
    (* the log names the lane's relayer *)
    match relayer_of_lane (bi_lane intent) with Some _ => mret (Ok ()) | None => panic end.

(** ** Recovery of a prepared bundle *)

(** What follows an ambiguous or rejected broadcast. *)
Definition unproven_broadcast_intent (intent : PreparedBundleIntent) (reason : string) :
    engine (result string BundleBroadcastDisposition) :=
  _ ← forget_broadcast (bi_transaction_hash intent);
  known ← transaction_is_known (bi_chain_id intent) (bi_transaction_hash intent);
  if known : bool
  then _ ← remember_confirmed_broadcast (bi_transaction_hash intent); mret (Ok BroadcastConfirmed)
  else if nonce_too_low reason then
    stale ← bundle_nonce_is_stale intent;
    if stale : bool
    then _ ←? clear_stale_bundle_intent intent; mret (Ok BroadcastUnknown)
    else mret (Ok BroadcastUnknown)
  else mret (Ok BroadcastUnknown).

Definition broadcast_bundle_intent (intent : PreparedBundleIntent) :
    engine (result string BundleBroadcastDisposition) :=
  match validate_raw_transaction (bi_raw_transaction intent) (bi_transaction_hash intent) with
  | Err error => mret (Err (raw_transaction_error_text error))
  | Ok raw =>
      seen ← recently_confirmed_broadcast (bi_transaction_hash intent);
      if seen : bool then mret (Ok BroadcastConfirmed)
      else
        outcome ← perform (RpcBroadcast (bi_chain_id intent) raw);
        match outcome with
        | Err error => _ ← forget_broadcast (bi_transaction_hash intent); mret (Err (Trusted.rpc_error_text error))
        | Ok (BroadcastAccepted hash) =>
            if eq_ignore_ascii_case hash (bi_transaction_hash intent)
            then _ ← remember_confirmed_broadcast (bi_transaction_hash intent); mret (Ok BroadcastConfirmed)
            else _ ← forget_broadcast (bi_transaction_hash intent);
                 mret (Err "RPC returned a transaction hash different from the signed bytes")
        | Ok (BroadcastAmbiguous reason) | Ok (BroadcastRejected reason) => unproven_broadcast_intent intent reason
        end
  end.

Definition audit_prepared_bundle (intent : PreparedBundleIntent) : engine (result string BundleReplayAudit) :=
  records ←? on_store (FnGetMany (bi_user_operation_hashes intent));
  mret (audit_bundle_replay intent records).

Definition clear_obsolete_bundle_intent (intent : PreparedBundleIntent) (audit : BundleReplayAudit) :
    engine (result string ()) :=
  if decide (terminal audit = 0%nat) then mret (Err "refusing to clear an unproven prepared bundle")
  else
    _ ←? clear_bundle intent;
    _ ← forget_broadcast (bi_transaction_hash intent);
    mret (Ok ()).

Definition resume_bundle_intent (intent : PreparedBundleIntent) : engine (result string BundleResumeDisposition) :=
  audit ←? audit_prepared_bundle intent;
  if decide (active audit = 0%nat ∧ terminal audit ≠ 0%nat)
  then _ ←? clear_obsolete_bundle_intent intent audit; mret (Ok ResumeCleared)
  else
    broadcast ←? broadcast_bundle_intent intent;
    match broadcast with
    | BroadcastUnknown => mret (Ok ResumeUnknown)
    | BroadcastConfirmed =>
        if decide (active audit = 0%nat) then mret (Ok ResumeConfirmed)
        else
          indexed ←? on_store (FnMarkSubmitted (bi_chain_id intent) (bi_transaction_hash intent)
                               (bi_user_operation_hashes intent));
          if decide (indexed = active audit) then mret (Ok ResumeConfirmed)
          else
            after ←? audit_prepared_bundle intent;
            if decide (active after = 0%nat) then
              if decide (terminal after ≠ 0%nat)
              then _ ←? clear_obsolete_bundle_intent intent after; mret (Ok ResumeCleared)
              else mret (Ok ResumeConfirmed)
            else if decide (awaiting_submission after ≠ 0%nat)
            then mret (Err "prepared bundle has live members that could not enter submitted state")
            else mret (Ok ResumeConfirmed)
    end.

(** ** The reconciler's pass over the prepared bundles *)

(** The deadlines that are passed now, and the map that is left: bundles that
    are gone leave it, and what is due is due again a pace later. *)
Definition due_pass (now : Z) (intents : list PreparedBundleIntent) (receipt_due : gmap string Z) :
    gmap string Z * list PreparedBundleIntent :=
  foldl (λ '(receipt_due, due_now) intent,
    let hash := bi_transaction_hash intent in
    if match receipt_due !! hash with Some due => now <? due | None => false end then (receipt_due, due_now)
    else (<[hash := now + receipt_pace (en_config self) (bi_chain_id intent)]> receipt_due, due_now ++ [intent]))
    (filter (λ entry : string * Z, entry.1 ∈ map bi_transaction_hash intents) receipt_due, []) intents.

(** [BTreeMap::entry(key).or_default().push(item)] *)
Fixpoint push_group {A} (key : Z) (item : A) (groups : list (Z * list A)) : list (Z * list A) :=
  match groups with
  | [] => [(key, [item])]
  | (key', items) :: rest =>
      match key ?= key' with
      | Lt => (key, [item]) :: groups
      | Eq => (key', items ++ [item]) :: rest
      | Gt => (key', items) :: push_group key item rest
      end
  end.

(** One due bundle: it is resumed, and if it is still there and this process
    takes its receipt check, it joins its chain's group. *)
Definition claim_receipt_check (intent : PreparedBundleIntent) (claimed : list (Z * list PreparedBundleIntent)) :
    engine (list (Z * list PreparedBundleIntent)) :=
  disposition ← resume_bundle_intent intent;
  match disposition with
  | Ok ResumeConfirmed =>
      still_exists ← on_store (FnGetBundle (bi_chain_id intent) (bi_lane intent));
      match still_exists with
      | Ok (Some _) =>
          token ← unique_token "receipt";
          acquired ← on_store (FnAcquireLease
            ("receipt:" +:+ dec (bi_chain_id intent) +:+ ":" +:+ bi_transaction_hash intent) token
            (receipt_pace (en_config self) (bi_chain_id intent)));
          mret match acquired with
               | Ok true => push_group (bi_chain_id intent) intent claimed
               | _ => claimed
               end
      | _ => mret claimed
      end
  | _ => mret claimed
  end.

(** A receipt's status for every member; [None] where it cannot be read. *)
Definition persist_receipt (chain_id : Z) (intent : PreparedBundleIntent) (receipt : Value) :
    engine (option (result string ())) :=
  match receipt_succeeded receipt with
  | Some false =>
      persisted ← on_store (FnMarkFailed chain_id (bi_transaction_hash intent) receipt); mret (Some persisted)
  | Some true =>
      match address_from_str (bi_entry_point intent) with
      | None => mret None
      | Some entry_point =>
          let events := user_operation_events receipt entry_point (bi_user_operation_hashes intent) in
          persisted ← on_store (FnMarkConfirmed chain_id (bi_transaction_hash intent) receipt events);
          mret (Some persisted)
      end
  | None => mret None
  end.

Definition reconcile_receipt (chain_id : Z) (entry : PreparedBundleIntent * result Trusted.RpcError Value) (_ : ()) :
    engine () :=
  let '(intent, receipt) := entry in
  match receipt with
  | Err _ | Ok VNull => mret tt
  | Ok receipt =>
      persisted ← persist_receipt chain_id intent receipt;
      match persisted with
      | Some (Ok _) =>
          cleared ← on_store (FnClearBundle chain_id (bi_lane intent) (bi_transaction_hash intent));
          match cleared with
          | Ok _ => _ ← forget_broadcast (bi_transaction_hash intent); mret tt
          | Err _ => mret tt
          end
      | _ => mret tt
      end
  end.

Definition receipt_call (intent : PreparedBundleIntent) : RpcBatchCall :=
  {| bc_method := "eth_getTransactionReceipt"; bc_params := VArray [VString (bi_transaction_hash intent)] |}.

Definition reconcile_chain (group : Z * list PreparedBundleIntent) (_ : ()) : engine () :=
  receipts ← perform (RpcBatch group.1 (map receipt_call group.2));
  match receipts with
  | Err _ => mret tt
  | Ok receipts => io_visit (reconcile_receipt group.1) (zip group.2 receipts) tt
  end.

Definition reconcile_prepared_bundles : engine (result string ()) :=
  intents ←? on_store FnListBundles;
  now ← perform InstantNow;
  before ← perform (ReceiptDue (λ receipt_due, (due_pass now intents receipt_due).1));
  claimed_by_chain ← io_visit claim_receipt_check (due_pass now intents before).2 [];
  _ ← io_visit reconcile_chain claimed_by_chain tt;
  mret (Ok ()).
End Recovery.
