(* ===== verification/Deployer.v ===== *)
(** * Deployer: the server's simulations, and the deployment they may need
    ([src/src/worker/executor/simulation.rs] and [deployment.rs])

    The order of the three tiers is the Worker's ([LaneSimulate], whose
    readings of an answer are the same), but where the simulation contracts are
    missing the server deploys them itself, from the treasury, under the
    treasury's lease and through an outbox of their own. *)

From S2P Require Export Engine.
From S2P Require LaneSimulate LaneArms.
#[local] Open Scope string_scope.
#[local] Open Scope list_scope.
#[local] Open Scope Z_scope.

Definition PIMLICO_ARTIFACT_NAME : string := "PimlicoSimulations".
Definition ENTRY_POINT_V07_ARTIFACT_NAME : string := "EntryPointSimulations07".
Definition DEPLOYMENT_GAS_BUFFER_BPS : Z := 12000.

Inductive SimulationDeploymentState : Type := DeploymentReady | DeploymentPending | DeploymentUnavailable.

Record DeploymentTarget : Type := { dt_name : string; dt_address : Z; dt_data : list byte }.

Inductive PimlicoContractAvailability : Type :=
  | ContractsReady (contracts : PimlicoSimulationContracts)
  | ContractsMissing (contracts : PimlicoSimulationContracts)
  | ContractsUnavailable.

Section Deployer.
Context `{HA : Alloy} `{HT : !HashText} `{HK : Keccak} `{HC : Curve} `{HL : !LocalSigner} `{HS : SolCalls}
  `{SJ : SerdeJson}.
(** The vendored artifacts' texts. *)
Variables PIMLICO_ARTIFACT_JSON ENTRY_POINT_V07_ARTIFACT_JSON : string.
Variable self : ExecutorEngine.
Variable chain_id : Z.

(** ** Reading *)

Definition artifact_init_code (artifact : string) : result string (list byte) :=
  artifact ← map_err (λ _, "artifact JSON is invalid") (json_from_slice (str_bytes artifact));
  bytecode ← ok_or (bytecode ← get "bytecode" (de_value artifact); object ← get "object" bytecode; as_str object)
               "artifact has no bytecode.object";
  ok_or (hex_decode (strip_0x bytecode)) "artifact bytecode is invalid hex".

Definition deployment_targets (treasury : Z) (contracts : PimlicoSimulationContracts) :
    result string (DeploymentTarget * DeploymentTarget) :=
  let salt := keccak256 (be_bytes 20 treasury) in
  pimlico_code ← artifact_init_code PIMLICO_ARTIFACT_JSON;
  entry_point_code ← artifact_init_code ENTRY_POINT_V07_ARTIFACT_JSON;
  Ok ({| dt_name := PIMLICO_ARTIFACT_NAME; dt_address := pimlico contracts; dt_data := salt ++ pimlico_code |},
      {| dt_name := ENTRY_POINT_V07_ARTIFACT_NAME; dt_address := entry_point_v07 contracts;
         dt_data := salt ++ entry_point_code |}).

Definition answer_at (responses : list (result Trusted.RpcError Value)) (index : nat) : option Value :=
  response ← responses !! index; ok response.

Definition deployment_quantity (value : string) : option Z :=
  value ← str_strip_prefix "0x" value;
  if String.eqb value "" || (bool_decide (1 < String.length value)%nat && String.prefix "0" value) then None
  else u256_from_str_radix16 value.

Definition quantity_at (responses : list (result Trusted.RpcError Value)) (index : nat) : option Z :=
  v ← answer_at responses index; s ← as_str v; deployment_quantity s.

Definition parse_raw_transaction (raw_transaction expected_hash : string) : option (list byte) :=
  raw ← (digits ← str_strip_prefix "0x" raw_transaction; hex_decode digits);
  if bool_decide (raw ≠ []) && eq_ignore_ascii_case ("0x" +:+ hex_encode (keccak256 raw)) expected_hash
  then Some raw else None.

(** The texts of every answer. *)
Definition answered_texts (responses : list (result Trusted.RpcError Value)) : option (list string) :=
  mapM (λ response, v ← ok response; as_str v) responses.

(** ** Deployment *)

Definition renew (scope token : string) : engine bool :=
  renewed ← on_store (FnRenewLease scope token (xc_lease_ttl (en_config self)));
  mret match renewed with Ok held => held | Err _ => false end.

Definition broadcast_deployment (intent : PreparedSimulationDeploymentIntent) : engine () :=
  match parse_raw_transaction (si_raw_transaction intent) (si_transaction_hash intent) with
  | None => mret ()
  | Some raw => _ ← perform (RpcBroadcast chain_id raw); mret ()
  end.

Definition resume_deployment (intent : PreparedSimulationDeploymentIntent) : engine SimulationDeploymentState :=
  _ ← broadcast_deployment intent;
  receipt ← perform (RpcCall chain_id "eth_getTransactionReceipt" (VArray [VString (si_transaction_hash intent)]));
  match receipt with
  | Err _ | Ok VNull => mret DeploymentPending
  | Ok receipt =>
      match receipt_succeeded receipt with
      | None => mret DeploymentPending
      | Some false =>
          _ ← on_store (FnClearDeployment chain_id (si_transaction_hash intent)); mret DeploymentUnavailable
      | Some true =>
          match address_from_str (si_contract_address intent) with
          | None => mret DeploymentUnavailable
          | Some address =>
              code ← perform (RpcCall chain_id "eth_getCode"
                       (VArray [VString (address_to_string address); VString "latest"]));
              match code with
              | Err _ => mret DeploymentPending
              | Ok code =>
                  if match as_str code with Some code => String.eqb code "0x" | None => true end
                  then mret DeploymentUnavailable
                  else
                    cleared ← on_store (FnClearDeployment chain_id (si_transaction_hash intent));
                    mret match cleared with Ok _ => DeploymentReady | Err _ => DeploymentPending end
              end
          end
      end
  end.

Definition deployment_calls (target : DeploymentTarget) : list RpcBatchCall :=
  [LaneArms.rpc_call "eth_estimateGas"
     [VObject [("from", LaneArms.address_value (en_treasury_address self));
               ("to", LaneArms.address_value DETERMINISTIC_DEPLOYER);
               ("data", LaneArms.hex_value_of (dt_data target)); ("value", VString "0x0")]];
   LaneArms.rpc_call "eth_getBlockByNumber" [VString "latest"; VBool false];
   LaneArms.rpc_call "eth_maxPriorityFeePerGas" [];
   LaneArms.pending_count (en_treasury_address self); LaneArms.pending_balance (en_treasury_address self)].

(** [eth_gasPrice], asked only when the node named no tip; [None] ends the
    deployment. *)
Definition deployment_gas_price (tip : option Z) : engine (option (option Z)) :=
  match tip with
  | Some _ => mret (Some None)
  | None =>
      answer ← perform (RpcCall chain_id "eth_gasPrice" (VArray []));
      mret (price ← (v ← ok answer; s ← as_str v; deployment_quantity s); Some (Some price))
  end.

(** The transaction the treasury can afford, over its floor. *)
Definition deployment_plan (target : DeploymentTarget) (responses : list (result Trusted.RpcError Value))
    (estimated_gas base_fee : Z) (tip legacy : option Z) : option TransactionPlan :=
  tip ← market_tip tip legacy base_fee;
  estimated_gas ← checked 64 estimated_gas; base_fee ← checked 128 base_fee; tip ← checked 128 tip;
  nonce ← (nonce ← quantity_at responses 3; checked 64 nonce); balance ← quantity_at responses 4;
  buffered ← checked 64 (estimated_gas * DEPLOYMENT_GAS_BUFFER_BPS);
  let gas_limit := buffered / 10000 in
  max_fee_per_gas ← (fee ← checked 128 (base_fee * 2); checked 128 (fee + tip));
  max_cost ← checked 256 (gas_limit * max_fee_per_gas);
  required_treasury ← checked 256 (max_cost + xc_treasury_floor_wei (en_config self));
  if decide (balance < required_treasury) then None
  else Some {| pl_chain_id := chain_id; pl_nonce := nonce; pl_gas_limit := gas_limit;
               pl_max_fee_per_gas := max_fee_per_gas; pl_max_priority_fee_per_gas := tip;
               pl_to := DETERMINISTIC_DEPLOYER; pl_value := 0; pl_input := dt_data target |}.

Definition deployment_intent (target : DeploymentTarget) (signed : SignedTransaction) :
    PreparedSimulationDeploymentIntent :=
  {| si_chain_id := chain_id; si_contract := dt_name target;
     si_contract_address := address_to_string (dt_address target);
     si_raw_transaction := "0x" +:+ hex_encode (Signing.st_raw_transaction signed);
     si_transaction_hash := Signing.st_transaction_hash signed; si_nonce := Signing.st_nonce signed |}.

Definition save_and_broadcast (scope token : string) (target : DeploymentTarget) (plan : TransactionPlan) :
    engine SimulationDeploymentState :=
  held ← renew scope token;
  if negb held then mret DeploymentPending
  else
    match sign_eip1559 (en_treasury_key self) plan with
    | Err _ => mret DeploymentUnavailable
    | Ok signed =>
        let intent := deployment_intent target signed in
        saved ← on_store (FnSaveDeployment intent);
        match saved with
        | Ok true => _ ← broadcast_deployment intent; mret DeploymentPending
        | Ok false => mret DeploymentPending
        | Err _ => mret DeploymentUnavailable
        end
    end.

Definition prepare_and_broadcast (target : DeploymentTarget) (scope token : string) :
    engine SimulationDeploymentState :=
  responses ← perform (RpcBatch chain_id (deployment_calls target));
  match (responses ← ok responses; estimated_gas ← quantity_at responses 0; block ← answer_at responses 1;
         base_fee ← (v ← get "baseFeePerGas" block; s ← as_str v; deployment_quantity s);
         Some (responses, estimated_gas, base_fee)) with
  | None => mret DeploymentUnavailable
  | Some (responses, estimated_gas, base_fee) =>
      let tip := quantity_at responses 2 in
      legacy ← deployment_gas_price tip;
      match (legacy ← legacy; deployment_plan target responses estimated_gas base_fee tip legacy) with
      | None => mret DeploymentUnavailable
      | Some plan => save_and_broadcast scope token target plan
      end
  end.

(** The first of the two contracts that has no code. *)
Definition missing_target (targets : DeploymentTarget * DeploymentTarget) (codes : list string) :
    option DeploymentTarget :=
  fst <$> List.find (λ x : DeploymentTarget * string, String.eqb x.2 "0x") (zip [targets.1; targets.2] (drop 1 codes)).

Definition deploy_missing (contracts : PimlicoSimulationContracts) (scope token : string) :
    engine SimulationDeploymentState :=
  match deployment_targets (en_treasury_address self) contracts with
  | Err _ => mret DeploymentUnavailable
  | Ok targets =>
      responses ← perform (RpcBatch chain_id [LaneSimulate.get_code DETERMINISTIC_DEPLOYER;
                    LaneSimulate.get_code (dt_address targets.1); LaneSimulate.get_code (dt_address targets.2)]);
      match (responses ← ok responses; answered_texts responses) with
      | None => mret DeploymentUnavailable
      | Some codes =>
          match codes with
          | [] => panic
          | deployer :: _ =>
              if String.eqb deployer "0x" then mret DeploymentUnavailable
              else
                match missing_target targets codes with
                | None => mret DeploymentReady
                | Some target =>
                    held ← renew scope token;
                    if negb held then mret DeploymentPending else prepare_and_broadcast target scope token
                end
          end
      end
  end.

Definition ensure_locked (contracts : PimlicoSimulationContracts) (scope token : string) :
    engine SimulationDeploymentState :=
  prepared ← on_store (FnGetDeployment chain_id);
  match prepared with
  | Err _ => mret DeploymentUnavailable
  | Ok None => deploy_missing contracts scope token
  | Ok (Some intent) =>
      state ← resume_deployment intent;
      match state with
      | DeploymentReady => deploy_missing contracts scope token
      | state => mret state
      end
  end.

Definition ensure_contracts (contracts : PimlicoSimulationContracts) : engine SimulationDeploymentState :=
  if is_tempo_chain chain_id then mret DeploymentUnavailable
  else
    let scope := "treasury:" +:+ dec chain_id in
    process ← perform ProcessId;
    nanos ← perform UnixNanos;
    let token := "simulation-deployment:" +:+ dec process +:+ ":" +:+ dec nanos in
    acquired ← on_store (FnAcquireLease scope token (xc_lease_ttl (en_config self)));
    match acquired with
    | Ok true =>
        state ← ensure_locked contracts scope token;
        _ ← on_store (FnReleaseLease scope token);
        mret state
    | _ => mret DeploymentPending
    end.

(** ** Simulation *)

Variables (entry_point relayer beneficiary : Z).

Abbreviation Verdict := (SimulationVerdict SimulationResult).

Definition DEPLOYMENT_PENDING : Verdict := VPending "Pimlico simulation-contract deployment is pending confirmation".

Definition simulate_v1_individually (operations : list (list byte * PackedOperation)) : engine (list Verdict) :=
  let calls := map (λ x, {| bc_method := SIMULATE_V1;
                            bc_params := simulate_params relayer entry_point
                                           (LaneSimulate.individual_calldata beneficiary x.2) |}) operations in
  '(responses, answers) ← perform (RpcBatchWalk chain_id calls);
  _ ← perform (RpcNoteWalk chain_id SIMULATE_V1 answers);
  mret match responses with
       | Ok responses => map (λ '(response, x), LaneSimulate.v1_verdict entry_point response x.1) (zip responses operations)
       | Err _ => map (λ _, LaneSimulate.RPC_UNAVAILABLE) operations
       end.

Definition pimlico_contracts : engine PimlicoContractAvailability :=
  let contracts := pimlico_contracts_for_treasury beneficiary in
  responses ← perform (RpcBatch chain_id [LaneSimulate.get_code (pimlico contracts);
                                          LaneSimulate.get_code (entry_point_v07 contracts)]);
  mret match (responses ← ok responses; answered_texts responses) with
       | None => ContractsUnavailable
       | Some codes =>
           if forallb (λ code, negb (String.eqb code "0x")) codes then ContractsReady contracts
           else ContractsMissing contracts
       end.

Definition simulate_with_pimlico (operation : PackedOperation) (hash : list byte)
    (contracts : option PimlicoSimulationContracts) : engine Verdict :=
  match contracts with
  | None =>
      mret (VTransient "no trusted executor RPC supports eth_simulateV1, debug_traceCall, or deployed Pimlico simulations")
  | Some contracts =>
      let data := encode_simulate_handle_op (entry_point_v07 contracts) entry_point (packed operation) in
      answer ← perform (RpcSimulate chain_id "eth_call" (VArray [
        VObject [("to", VString (address_to_string (pimlico contracts)));
                 ("data", VString ("0x" +:+ hex_encode data))]; VString "latest"]));
      mret (LaneSimulate.pimlico_verdict answer hash)
  end.

(** The candidates the trace tier is left with, and the verdicts so far. *)
Definition pimlico_tier (operations : list (list byte * PackedOperation))
    (contracts : option PimlicoSimulationContracts) (indexes : list nat) (verdicts : list Verdict) :
    engine (list nat * list Verdict) :=
  io_for (λ (index : nat) '(open, verdicts),
    match operations !! index with
    | None => panic
    | Some (hash, operation) =>
        verdict ← simulate_with_pimlico operation hash contracts;
        mret (inl (if LaneSimulate.is_transient verdict then (open ++ [index], verdicts)
                   else (open, <[index := verdict]> verdicts)))
    end) indexes ([], verdicts) (λ s, mret s).

Definition trace_tier (operations : list (list byte * PackedOperation)) (indexes : list nat)
    (verdicts : list Verdict) : engine (list Verdict) :=
  let traced := omap (λ index : nat, x ← operations !! index; Some (index, x)) indexes in
  responses ← perform (RpcBatch chain_id (map (λ '(_, (_, operation)),
    {| bc_method := "debug_traceCall";
       bc_params := debug_trace_params relayer entry_point
                      (LaneSimulate.individual_calldata beneficiary operation) |}) traced));
  let responses := match responses with Ok responses => responses | Err _ => [] end in
  mret (foldl (λ verdicts '(position, (index, (hash, _))),
          <[index := LaneSimulate.trace_verdict entry_point (responses !! position) hash]> verdicts)
        verdicts (zip (seq 0 (length traced)) traced)).

(** What the deployer makes of missing contracts: those to use, or a wait. *)
Definition usable_contracts : engine (option (option PimlicoSimulationContracts)) :=
  availability ← pimlico_contracts;
  match availability with
  | ContractsReady contracts => mret (Some (Some contracts))
  | ContractsMissing contracts =>
      state ← ensure_contracts contracts;
      mret match state with
           | DeploymentReady => Some (Some contracts)
           | DeploymentPending => None
           | DeploymentUnavailable => Some None
           end
  | ContractsUnavailable => mret (Some None)
  end.

Definition simulate_individually_without_v1 (operations : list (list byte * PackedOperation))
    (verdicts : list Verdict) : engine (list Verdict) :=
  let fallback_indexes := LaneSimulate.transient_indexes verdicts in
  if decide (fallback_indexes = []) then mret verdicts
  else
    contracts ← usable_contracts;
    match contracts with
    | None => mret (foldl (λ verdicts index, <[index := DEPLOYMENT_PENDING]> verdicts) verdicts fallback_indexes)
    | Some contracts =>
        '(trace_indexes, verdicts) ← pimlico_tier operations contracts fallback_indexes verdicts;
        if decide (trace_indexes = []) then mret verdicts else trace_tier operations trace_indexes verdicts
    end.

Definition simulate_individually (operations : list (list byte * PackedOperation)) : engine (list Verdict) :=
  lacking ← perform (RpcLacksMethod chain_id SIMULATE_V1);
  let turn := simulate_v1_turn chain_id lacking in
  verdicts ← match turn with
             | First => simulate_v1_individually operations
             | Last => mret (map (λ _, LaneSimulate.METHOD_UNAVAILABLE) operations)
             end;
  verdicts ← simulate_individually_without_v1 operations verdicts;
  match turn with
  | First => mret verdicts
  | Last =>
      let undecided := LaneSimulate.transient_indexes verdicts in
      if decide (undecided = []) then mret verdicts
      else
        last ← simulate_v1_individually (omap (λ index : nat, operations !! index) undecided);
        mret (LaneSimulate.take_decided verdicts (zip undecided last))
  end.

Definition simulate_v1_bundle (calldata : list byte) (hashes : list (list byte)) : engine (option Verdict) :=
  '(response, answers) ← perform (RpcCallWalk chain_id SIMULATE_V1 (simulate_params relayer entry_point calldata));
  _ ← perform (RpcNoteWalk chain_id SIMULATE_V1 answers);
  mret ((λ value, parse_simulation value entry_point hashes) <$> ok response).

Definition simulate_bundle_with_eth_call (calldata : list byte) (hashes : list (list byte)) : engine Verdict :=
  answer ← perform (RpcSimulate chain_id "eth_estimateGas"
                      (VArray [call_object relayer entry_point calldata; VString "latest"]));
  mret (LaneSimulate.eth_call_verdict answer hashes).

Definition trace_bundle (calldata : list byte) (hashes : list (list byte)) : engine Verdict :=
  answer ← perform (RpcCall chain_id "debug_traceCall" (debug_trace_params relayer entry_point calldata));
  mret match answer with
       | Ok value => parse_trace_simulation value entry_point hashes
       | Err _ => LaneSimulate.NO_METHOD
       end.

Definition simulate_bundle_without_v1 (calldata : list byte) (hashes : list (list byte)) : engine Verdict :=
  contracts ← usable_contracts;
  match contracts with
  | None => mret DEPLOYMENT_PENDING
  | Some None => trace_bundle calldata hashes
  | Some (Some _) =>
      verdict ← simulate_bundle_with_eth_call calldata hashes;
      if LaneSimulate.is_transient verdict then trace_bundle calldata hashes else mret verdict
  end.

Definition bundle_or_last (calldata : list byte) (hashes : list (list byte)) (turn : SimulateV1Turn) :
    engine Verdict :=
  verdict ← simulate_bundle_without_v1 calldata hashes;
  match turn with
  | Last =>
      if LaneSimulate.is_transient verdict then
        last ← simulate_v1_bundle calldata hashes;
        mret match last with
             | Some last => if LaneSimulate.is_transient last then verdict else last
             | None => verdict
             end
      else mret verdict
  | First => mret verdict
  end.

Definition simulate_bundle (operations : list (list byte * PackedOperation)) : engine Verdict :=
  let calldata := handle_ops_calldata (map (λ x, packed x.2) operations) beneficiary in
  let hashes := map fst operations in
  lacking ← perform (RpcLacksMethod chain_id SIMULATE_V1);
  let turn := simulate_v1_turn chain_id lacking in
  match turn with
  | First =>
      verdict ← simulate_v1_bundle calldata hashes;
      match verdict with
      | Some verdict => mret verdict
      | None => bundle_or_last calldata hashes turn
      end
  | Last => bundle_or_last calldata hashes turn
  end.
End Deployer.

(** ** Every operation is accounted for *)

Section Counts.
Context `{HA : Alloy} `{HT : !HashText} `{HK : Keccak} `{HC : Curve} `{HL : !LocalSigner} `{HS : SolCalls}
  `{SJ : SerdeJson}.
Variables PIMLICO_ARTIFACT_JSON ENTRY_POINT_V07_ARTIFACT_JSON : string.
Variables (self : ExecutorEngine) (chain_id entry_point relayer beneficiary : Z).

Abbreviation counts := LaneSimulate.counts.
Abbreviation each_counts := (Forall (counts 1)).

Lemma engine_v1_counts operations :
  returns (simulate_v1_individually chain_id entry_point relayer beneficiary operations) each_counts.
Proof.
  unfold simulate_v1_individually. apply returns_bind. intros [responses answers].
  apply returns_bind. intros _. apply yields_pure.
  destruct responses; [apply LaneSimulate.v1_verdicts_count|by apply LaneSimulate.constant_counts].
Qed.

Lemma engine_trace_counts operations indexes verdicts :
  each_counts verdicts →
  returns (trace_tier chain_id entry_point relayer beneficiary operations indexes verdicts) each_counts.
Proof.
  intros Hv. unfold trace_tier. apply returns_bind. intros responses. apply yields_pure.
  generalize (zip (seq 0 (length (omap (λ index : nat, x ← operations !! index; Some (index, x)) indexes)))
    (omap (λ index : nat, x ← operations !! index; Some (index, x)) indexes)) as l.
  intros l. revert verdicts Hv. induction l as [|[position [index [hash op]]] l IH]; intros verdicts Hv; [done|].
  cbn [foldl]. apply IH, Forall_insert; [done|apply LaneSimulate.trace_verdict_counts].
Qed.

Lemma engine_pimlico_counts operations contracts indexes verdicts :
  each_counts verdicts →
  returns (pimlico_tier chain_id entry_point operations contracts indexes verdicts) (λ s, each_counts s.2).
Proof.
  intros Hv. unfold pimlico_tier. apply (yields_for _ _ _ _ _ (λ s, each_counts s.2)); [done| |by intros].
  intros index [open vs] _ Hvs. destruct (operations !! index) as [[hash op]|]; [|by split; [|intros []]].
  apply (returns_then _ _ (counts 1)).
  - unfold simulate_with_pimlico. destruct contracts; [|exact I].
    apply returns_bind. intros answer. apply yields_pure, LaneSimulate.pimlico_verdict_counts.
  - intros verdict Hverdict. apply yields_pure. destruct (LaneSimulate.is_transient verdict); [exact Hvs|].
    by apply Forall_insert.
Qed.

Lemma pending_counts verdicts (indexes : list nat) :
  each_counts verdicts →
  each_counts (foldl (λ verdicts index, <[index := DEPLOYMENT_PENDING]> verdicts) verdicts indexes).
Proof.
  revert verdicts. induction indexes as [|i l IH]; intros verdicts Hv; [done|]. apply IH. by apply Forall_insert.
Qed.

Lemma engine_individual_counts operations :
  returns (simulate_individually PIMLICO_ARTIFACT_JSON ENTRY_POINT_V07_ARTIFACT_JSON self chain_id
             entry_point relayer beneficiary operations) each_counts.
Proof.
  unfold simulate_individually. apply returns_bind. intros lacking. cbv zeta.
  eapply (returns_then _ _ each_counts).
  { destruct (simulate_v1_turn _ _); [apply engine_v1_counts|].
    apply yields_pure. by apply LaneSimulate.constant_counts. }
  intros verdicts Hv. eapply (returns_then _ _ each_counts).
  { unfold simulate_individually_without_v1. case_decide; [by apply yields_pure|].
    apply returns_bind. intros [contracts|]; [|by apply yields_pure, pending_counts].
    eapply returns_then; [by apply engine_pimlico_counts|].
    intros [open vs] Hvs. case_decide; [by apply yields_pure|by apply engine_trace_counts]. }
  clear verdicts Hv. intros verdicts Hv. destruct (simulate_v1_turn _ _); [by apply yields_pure|].
  case_decide; [by apply yields_pure|]. eapply returns_then; [apply engine_v1_counts|].
  intros last Hlast. apply yields_pure, LaneSimulate.take_decided_counts; [done|by apply LaneSimulate.zip_counts].
Qed.

Lemma engine_v1_bundle_counts calldata hashes :
  returns (simulate_v1_bundle chain_id entry_point relayer calldata hashes)
    (λ v, match v with Some v => counts (length hashes) v | None => True end).
Proof.
  unfold simulate_v1_bundle. apply returns_bind. intros [response answers]. apply returns_bind. intros _.
  apply yields_pure. destruct response as [value|e]; [apply (LaneSimulate.reading_counts value)|exact I].
Qed.

Lemma engine_trace_bundle_counts calldata hashes :
  returns (trace_bundle chain_id entry_point relayer calldata hashes) (counts (length hashes)).
Proof.
  unfold trace_bundle. apply returns_bind. intros answer. apply yields_pure.
  destruct answer as [value|]; [apply (LaneSimulate.reading_counts value)|exact I].
Qed.

Lemma engine_bundle_counts operations :
  returns (simulate_bundle PIMLICO_ARTIFACT_JSON ENTRY_POINT_V07_ARTIFACT_JSON self chain_id
             entry_point relayer beneficiary operations) (counts (length operations)).
Proof.
  unfold simulate_bundle. cbv zeta. rewrite <-(length_map fst operations). set (hashes := map fst operations).
  set (calldata := handle_ops_calldata _ _). clearbody calldata hashes.
  assert (∀ turn, returns (bundle_or_last PIMLICO_ARTIFACT_JSON ENTRY_POINT_V07_ARTIFACT_JSON self chain_id
    entry_point relayer beneficiary calldata hashes turn) (counts (length hashes))) as Hlast.
  { intros turn. unfold bundle_or_last. eapply (returns_then _ _ (counts (length hashes))).
    - unfold simulate_bundle_without_v1. apply returns_bind.
      intros [[contracts|]|]; [|apply engine_trace_bundle_counts|exact I].
      apply (returns_then _ _ (counts (length hashes))).
      + unfold simulate_bundle_with_eth_call. apply returns_bind. intros answer.
        apply yields_pure, LaneSimulate.eth_call_verdict_counts.
      + intros v Hv. destruct (LaneSimulate.is_transient v); [apply engine_trace_bundle_counts|done].
    - intros v Hv. destruct turn; [done|]. destruct (LaneSimulate.is_transient v); [|done].
      eapply returns_then; [apply engine_v1_bundle_counts|]. intros [last|] Hl; apply yields_pure; [|done].
      by destruct (LaneSimulate.is_transient last). }
  apply returns_bind. intros lacking. destruct (simulate_v1_turn _ _); [|apply Hlast].
  eapply returns_then; [apply engine_v1_bundle_counts|]. intros [v|] Hv; [by apply yields_pure|apply Hlast].
Qed.

(** The server's simulations account for every operation. *)
Lemma server_reports_gas simulated operations :
  returns (verdicts ← simulate_individually PIMLICO_ARTIFACT_JSON ENTRY_POINT_V07_ARTIFACT_JSON self chain_id
                        entry_point relayer beneficiary operations;
           mret (OperationVerdicts (map operation_sim_verdict verdicts)))
    (λ r, reports_gas (SimulateIndividually simulated operations, r)) ∧
  returns (verdict ← simulate_bundle PIMLICO_ARTIFACT_JSON ENTRY_POINT_V07_ARTIFACT_JSON self chain_id
                       entry_point relayer beneficiary operations;
           mret (BundleVerdict (bundle_sim_verdict verdict)))
    (λ r, reports_gas (SimulateBundle simulated operations, r)).
Proof.
  split.
  - eapply returns_then; [apply engine_individual_counts|]. intros vs Hv.
    by apply yields_pure, LaneSimulate.verdicts_report.
  - eapply returns_then; [apply engine_bundle_counts|]. intros v Hv.
    by apply yields_pure, LaneSimulate.bundle_verdict_reports.
Qed.
End Counts.
