(* ===== verification/EngineArms.v ===== *)
(** * EngineArms: how the server's executor answers the batch program
    ([src/src/worker/executor/engine.rs] and [alert.rs])

    [execute] is one arm per operation of the core, [execute_fenced] the lease
    fence before it, [handle_lane_batch] the loop that drives the core's
    program; then the delayed inbox and the reconciler.  Where an arm reads an
    answer as the Worker's does, the reading is [LaneArms]'s. *)

From S2P Require Import Market IggyQueue.
From S2P Require Export Deployer.
From S2P Require LaneArms.
#[local] Open Scope string_scope.
#[local] Open Scope list_scope.
#[local] Open Scope Z_scope.

(** ** The batch's own state *)

(** [BatchShell]'s fields that change.  A heartbeat is the handle of a task. *)
Record BatchState : Type := {
  bs_assets : option ResolvedChainAssets; bs_heartbeat : bool; bs_lease_acquired : bool;
  bs_treasury_heartbeat : bool; bs_treasury_lease_acquired : bool }.

Definition fresh_state : BatchState :=
  {| bs_assets := None; bs_heartbeat := false; bs_lease_acquired := false;
     bs_treasury_heartbeat := false; bs_treasury_lease_acquired := false |}.

Definition with_assets (s : BatchState) (resolved : ResolvedChainAssets) : BatchState :=
  {| bs_assets := Some resolved; bs_heartbeat := bs_heartbeat s; bs_lease_acquired := bs_lease_acquired s;
     bs_treasury_heartbeat := bs_treasury_heartbeat s; bs_treasury_lease_acquired := bs_treasury_lease_acquired s |}.
Definition with_lane_lease (s : BatchState) : BatchState :=
  {| bs_assets := bs_assets s; bs_heartbeat := true; bs_lease_acquired := true;
     bs_treasury_heartbeat := bs_treasury_heartbeat s; bs_treasury_lease_acquired := bs_treasury_lease_acquired s |}.
Definition with_treasury (s : BatchState) (held : bool) : BatchState :=
  {| bs_assets := bs_assets s; bs_heartbeat := bs_heartbeat s; bs_lease_acquired := bs_lease_acquired s;
     bs_treasury_heartbeat := held; bs_treasury_lease_acquired := held |}.

(** A batch's own effects: those of the engine, and its latch.  An arm has
    no access to the latch. *)
Inductive BatchCall : Type → Type :=
  | Work {R} (e : EngineCall R) : BatchCall R
  | InterruptReason : BatchCall (option string)
  | NotInterrupted : BatchCall bool.

Abbreviation batching := (io BatchCall).

Fixpoint working {A} (p : engine A) : batching A :=
  match p with
  | Pure a => Pure a
  | Vis e k => Vis (Work e) (λ r, working (k r))
  end.

(** What never waits: between two awaits a task cannot be abandoned. *)
Definition awaits (R : Type) (e : EngineCall R) : bool :=
  match e with
  | InstantNow | ProcessId | UnixNanos | NextLeaseToken | NextAlertToken
  | RpcLacksMethod _ _ | RpcNoteWalk _ _ _
  | TripInterrupt _ | SpawnHeartbeat _ _ | AbortHeartbeat _
  | SpawnAlert _ _ _ _ | SpawnDelayedLane _ _ | Engine.Panic => false
  | _ => true
  end.

(** [select!], biased to the latch: a program that may be abandoned before its
    first step and at each of its awaits, whose answer is then lost. *)
Fixpoint until_interrupted {A} (p : engine A) : batching (option A) :=
  match p with
  | Pure a => Pure (Some a)
  | Vis e k =>
      Vis (Work e) (λ r, if awaits _ e
                         then Vis NotInterrupted (λ ok : bool, if ok then until_interrupted (k r) else Pure None)
                         else until_interrupted (k r))
  end.

(** The core's program against the arms, with the state it ends in. *)
Fixpoint drive_batch_state {E : Type → Type} {Op Rep L A} (arm : L → Op → io E (L * Rep)) (l : L)
    (p : prog Op Rep A) : io E (L * A) :=
  match p with
  | Ret a => mret (l, a)
  | Ask op k => lr ← arm l op; drive_batch_state arm lr.1 (k lr.2)
  end.

Definition bookkeeping (operation : ExecutionOperation) : bool :=
  match operation with
  | RecordDeferred _ _ _ | NotifyIssue _ _ _ | EmitDiagnostic _ | ReleaseTreasuryLease
  | RememberBroadcast _ | ForgetBroadcast _ | RecordUnprovenBroadcast _ _ _ => true
  | _ => false
  end.

Definition delayed_operation_from_routed (routed : RoutedUserOperation) : DelayedUserOperation :=
  {| du_schema_version := r_schema_version routed;
     du_user_operation_hash := to_ascii_lowercase (r_user_operation_hash routed); du_chain_id := r_chain_id routed;
     du_entry_point := r_entry_point routed; du_user_operation := r_user_operation routed;
     du_sender := r_sender routed; du_lane := r_lane routed; du_stream := r_stream routed;
     du_partition_id := r_partition_id routed; du_offset := r_offset routed;
     du_submission_tier := r_submission_tier routed |}.

Definition routed_operation_from_delayed (operation : DelayedUserOperation) : RoutedUserOperation :=
  {| r_schema_version := du_schema_version operation; r_user_operation_hash := du_user_operation_hash operation;
     r_chain_id := du_chain_id operation; r_entry_point := du_entry_point operation;
     r_user_operation := du_user_operation operation; r_sender := du_sender operation;
     r_lane := du_lane operation; r_stream := du_stream operation; r_partition_id := du_partition_id operation;
     r_offset := du_offset operation; r_submission_tier := du_submission_tier operation |}.

(** ** The directory and the market *)

Definition parse_address (value : string) : option string :=
  let value := trim value in
  if is_hex_address value then Some (to_ascii_lowercase value) else None.

(** [rpc::payment_assets], without what only quotes read. *)
Definition payment_assets (metadata : ChainMetadata) : option (NativeCurrencyMetadata * list StablecoinMetadata) :=
  native ← cm_native_currency metadata;
  Some (native, omap (λ stable,
    contract ← parse_address (sm_contract stable);
    Some {| sm_symbol := sm_symbol stable; sm_contract := contract;
            sm_decimals := decimals ← sm_decimals stable;
                           if decide (decimals ≤ 38) then Some decimals else None |}) (cm_stables metadata)).

Definition is_price_char (a : ascii) : bool := is_ascii_digit a || Ascii.eqb a "."%char.

Definition valid_positive_decimal (value : string) : bool :=
  let chars := String.list_ascii_of_string (trim value) in
  negb (bool_decide (chars = [])) && forallb is_price_char chars &&
  bool_decide (length (List.filter (λ a, Ascii.eqb a "."%char) chars) ≤ 1)%nat &&
  existsb (λ a, is_ascii_digit a && negb (Ascii.eqb a "0"%char)) chars.

Definition binance_usdt_price (symbol : string) : engine (option string) :=
  io_for (λ endpoint (_ : ()),
            ticker ← perform (FetchTicker (endpoint +:+ symbol +:+ "USDT"));
            mret match ticker with
                 | Some price => if valid_positive_decimal price then inr (Some price) else inl ()
                 | None => inl ()
                 end)
    BINANCE_TICKER_URLS () (λ _, mret None).

Definition fetch_market_price (symbol : string) (now : Z) : engine (result string Z) :=
  raw_price ← binance_usdt_price symbol;
  match raw_price with
  | None => mret (Err "Binance native USD price request failed")
  | Some raw_price =>
      match parse_market_usd_price raw_price with
      | None => mret (Err "Binance native USD price is invalid")
      | Some price => _ ← perform (CacheMarketPrice symbol (now + BINANCE_PRICE_TTL) price); mret (Ok price)
      end
  end.

Definition market_usd_price (symbol : string) : engine (result string Z) :=
  let symbol := to_ascii_uppercase (trim symbol) in
  if bool_decide (symbol = "") || negb (all_chars is_ascii_alphanumeric symbol)
  then mret (Err "native currency symbol is invalid")
  else
    now ← perform InstantNow;
    cached ← perform (CachedMarketPrice symbol);
    match cached with
    | Some (expires_at, price) => if decide (now < expires_at) then mret (Ok price) else fetch_market_price symbol now
    | None => fetch_market_price symbol now
    end.

(** ** An alert's task *)

Definition unique_alert_token : engine string :=
  sequence ← perform NextAlertToken;
  nanos ← perform UnixNanos;
  mret ("telegram:" +:+ dec (nanos / 1000000) +:+ ":" +:+ dec sequence).

(** [TelegramAlertNotifier::notify_executor_issue]; the slot is kept only by
    an alert that was delivered. *)
Definition notify_alert `{Keccak} `{Hex} `{LC : LowerCase} (cooldown chain_id : Z) (stage hash reason : string) : engine () :=
  let fingerprint := alert_fingerprint chain_id stage reason in
  claim_token ← unique_alert_token;
  claimed ← on_store (FnClaimAlert fingerprint claim_token cooldown);
  match claimed with
  | Ok true =>
      delivered ← perform (SendTelegram (executor_alert_text chain_id stage hash reason (cooldown / 1000)));
      if delivered : bool then mret tt
      else _ ← on_store (FnReleaseAlert fingerprint claim_token); mret tt
  | _ => mret tt
  end.

(** [ensure_lease], and the task that repeats it until it fails. *)
Definition ensure_lease (ttl : Z) (scope token : string) : engine (result string ()) :=
  renewed ← on_store (FnRenewLease scope token ttl);
  mret match renewed with
       | Ok true => Ok ()
       | Ok false => Err "executor lease was lost"
       | Err error => Err error
       end.

Fixpoint heartbeat (ttl : Z) (scope token : string) (turns : nat) : engine () :=
  match turns with
  | O => mret tt
  | S turns =>
      _ ← perform HeartbeatTick;
      held ← ensure_lease ttl scope token;
      match held with
      | Ok _ => heartbeat ttl scope token turns
      | Err error => _ ← perform (TripInterrupt error); mret tt
      end
  end.

Section Arms.
Context `{HA : Alloy} `{HT : !HashText} `{HK : Keccak} `{HC : Curve} `{HL : !LocalSigner}
  `{HS : SolCalls} `{TC : TokenCalls} `{LC : LowerCase} `{W : TargetWidth} `{SJ : SerdeJson}.
Variable tip_window_of : Value → option TipWindow.
(** serde_json's writer. *)
Variable json_to_vec : Value → list byte.
Variables PIMLICO_ARTIFACT_JSON ENTRY_POINT_V07_ARTIFACT_JSON : string.
Variable self : ExecutorEngine.

Definition delayed_payload_ttl : Z := Z.max (xc_attempt_ttl (en_config self)) USER_OPERATION_QUEUE_RETENTION.
Definition lease_ttl : Z := xc_lease_ttl (en_config self).

(** ** One batch *)

Section Batch.
Variables (batch : list RoutedUserOperation) (policy : ExecutionPolicy) (chain_id lane : Z)
  (lease_token treasury_token : string).

Definition lease_scope : string := "executor:" +:+ dec chain_id +:+ ":" +:+ dec lane.
Definition treasury_scope : string := "treasury:" +:+ dec chain_id.

(** *** Chain assets *)

Definition chain_assets (native : NativeCurrencyMetadata) (stables : list (Z * string * option Z)) :
    ResolvedChainAssets :=
  {| assets := {| native_decimals := nm_decimals native;
                  settlement_markup_bps := xc_settlement_markup_bps (en_config self);
                  config_stablecoins := LaneArms.stable_map stables |};
     native_symbol := nm_symbol native |}.

Definition tempo_chain_assets : ResolvedChainAssets :=
  {| assets := {| native_decimals := PATH_USD_DECIMALS;
                  settlement_markup_bps := xc_settlement_markup_bps (en_config self);
                  config_stablecoins :=
                    {[PATH_USD := {| coin_symbol := PATH_USD_SYMBOL; coin_decimals := PATH_USD_DECIMALS |}]} |};
     native_symbol := PATH_USD_SYMBOL |}.

Definition decimals_call (missing : nat * Z) : RpcBatchCall :=
  LaneArms.rpc_call "eth_call"
    [VObject [("to", LaneArms.address_value missing.2); ("data", LaneArms.hex_value_of ERC20_DECIMALS_SELECTOR)];
     VString "latest"].

Definition directory_usd_stable_assets : engine (result string ResolvedChainAssets) :=
  metadata ← perform (FetchChainMetadata chain_id);
  match metadata ≫= payment_assets with
  | None => mret (Err "could not load payment assets from chain directory")
  | Some (native, stables) =>
      let stables := LaneArms.readable_stables stables in
      let missing := LaneArms.missing_decimals stables in
      if decide (missing = []) then mret (Ok (chain_assets native stables))
      else
        responses ← perform (RpcBatch chain_id (map decimals_call missing));
        mret match responses with
             | Err error => Err (Trusted.rpc_error_text error)
             | Ok responses => Ok (chain_assets native (LaneArms.fill_decimals responses missing stables))
             end
  end.

Definition chain_assets_for : engine (result string ResolvedChainAssets) :=
  cached ← perform (CachedAssets chain_id);
  match cached with
  | Some resolved => mret (Ok resolved)
  | None =>
      resolved ←? directory_usd_stable_assets;
      _ ← perform (CacheAssets chain_id resolved);
      mret (Ok resolved)
  end.

(** *** What is read from the chain *)

Definition batch_or_text (calls : list RpcBatchCall) :
    engine (result string (list (result Trusted.RpcError Value))) :=
  responses ← perform (RpcBatch chain_id calls); mret (map_err Trusted.rpc_error_text responses).

(** [eth_gasPrice], asked only when the node named no tip. *)
Definition legacy_gas_price (tip : option Z) : engine (result string (option Z)) :=
  match tip with
  | Some _ => mret (Ok None)
  | None =>
      answer ← perform (RpcCall chain_id "eth_gasPrice" (VArray []));
      mret (value ← map_err Trusted.rpc_error_text answer;
            price ← ok_or (s ← as_str value; trusted_parse_quantity s)
                      "eth_gasPrice returned an invalid quantity";
            Ok (Some price))
  end.

Definition transaction_context (entry_point : Z) (calldata : list byte) :
    engine (result string TransactionContext) :=
  responses ←? batch_or_text (LaneArms.context_calls policy chain_id entry_point calldata);
  '(estimated_gas, base_fee) ←? mret (
    estimated_gas ← response_quantity responses 0 "eth_estimateGas";
    block ← response_value responses 1 "eth_getBlockByNumber";
    base_fee ← ok_or (LaneArms.block_base_fee block) "latest block has no EIP-1559 base fee";
    Ok (estimated_gas, base_fee));
  let tip := response_quantity_optional responses 2 in
  legacy ←? legacy_gas_price tip;
  mret (LaneArms.build_context tip_window_of responses estimated_gas base_fee tip legacy).

Definition tempo_transaction_context : engine (result string ExecutionOutcome) :=
  responses ←? batch_or_text
    [LaneArms.rpc_call "eth_getBlockByNumber" [VString "latest"; VBool false];
     LaneArms.rpc_call "eth_gasPrice" [];
     LaneArms.pending_count (relayer policy); LaneArms.path_usd_balance (relayer policy)];
  mret (block ← response_value responses 0 "Tempo latest block";
        let base_fee := match LaneArms.block_base_fee block with
                        | Some fee => fee
                        | None => default TEMPO_BASE_FEE_ATTO (response_quantity_optional responses 1)
                        end in
        nonce ← LaneArms.as_nonce "Tempo relayer nonce exceeds uint64"
                  (response_quantity responses 2 "Tempo relayer nonce");
        balance ← response_abi_u256 responses 3 "Tempo pathUSD balance";
        Ok (TempoContext base_fee nonce balance)).

Definition treasury_context : engine (result string ExecutionOutcome) :=
  responses ←? batch_or_text
    [LaneArms.pending_count (en_treasury_address self); LaneArms.pending_balance (en_treasury_address self);
     LaneArms.rpc_call "eth_estimateGas"
       [VObject [("from", LaneArms.address_value (en_treasury_address self));
                 ("to", LaneArms.address_value (relayer policy)); ("value", VString "0x1")]]];
  mret (nonce ← LaneArms.as_nonce "treasury nonce exceeds uint64"
                  (response_quantity responses 0 "treasury eth_getTransactionCount");
        balance ← response_quantity responses 1 "treasury eth_getBalance";
        Ok (OutTreasuryContext nonce balance
              (gas ← response_quantity_optional responses 2; checked 64 gas))).

Definition tempo_treasury_context (transfer_amount : Z) : engine (result string ExecutionOutcome) :=
  responses ←? batch_or_text
    [LaneArms.pending_count (en_treasury_address self); LaneArms.path_usd_balance (en_treasury_address self);
     LaneArms.rpc_call "eth_estimateGas"
       [VObject [("from", LaneArms.address_value (en_treasury_address self));
                 ("to", LaneArms.address_value PATH_USD);
                 ("data", LaneArms.hex_value_of (encode_transfer (relayer policy) transfer_amount));
                 ("feeToken", LaneArms.address_value PATH_USD)]; VString "latest"]];
  mret (nonce ← LaneArms.as_nonce "Tempo treasury nonce exceeds uint64"
                  (response_quantity responses 0 "Tempo treasury nonce");
        balance ← response_abi_u256 responses 1 "Tempo treasury pathUSD balance";
        gas ← LaneArms.as_nonce "Tempo pathUSD top-up gas estimate exceeds uint64"
                (response_quantity responses 2 "Tempo pathUSD top-up eth_estimateGas");
        Ok (TempoTreasuryContext nonce balance gas)).

Definition nonce_call (entry_point : Z) (probe : Z * Z) : RpcBatchCall :=
  LaneArms.rpc_call "eth_call"
    [VObject [("to", LaneArms.address_value entry_point);
              ("data", LaneArms.hex_value_of (get_nonce_calldata get_nonce_selector probe.1 probe.2))];
     VString "latest"].

Definition fetch_account_nonces (entry_point : Z) (probes : list (Z * Z)) : engine ExecutionOutcome :=
  responses ← batch_or_text (map (nonce_call entry_point) probes);
  mret (LaneArms.or_failed (λ responses,
    AccountNonces (map (λ index, ok (response_abi_u256 responses index "EntryPoint getNonce"))
                       (seq 0 (length probes)))) responses).

Definition fetch_receipt (hash : string) : engine ExecutionOutcome :=
  answer ← perform (RpcCall chain_id "eth_getTransactionReceipt" (VArray [VString hash]));
  mret match answer with
       | Ok VNull => Receipt None
       | Ok receipt => Receipt (Some receipt)
       | Err error => OutFailed (Trusted.rpc_error_text error)
       end.

(** *** The durable writes *)

(** A function of the store, whose failure ends the batch. *)
Definition ask_store {A} (f : StoreFn A) (answer : A → ExecutionOutcome) : engine ExecutionOutcome :=
  r ← on_store f; mret (LaneArms.or_failed answer r).

Definition dead_letter_payload (operation : RoutedUserOperation) : list byte :=
  json_to_vec (VObject [("chainId", VNumber (r_chain_id operation)); ("entryPoint", VString (r_entry_point operation));
                        ("schemaVersion", VNumber (r_schema_version operation));
                        ("userOperation", r_user_operation operation);
                        ("userOperationHash", VString (r_user_operation_hash operation))]).

Definition dead_letter_routed (operation : RoutedUserOperation) (reason : string) : engine (result string ()) :=
  _ ←? on_store (FnDeadLetter (r_chain_id operation) (r_partition_id operation) (r_offset operation)
                   (dead_letter_payload operation) reason (Some (r_user_operation_hash operation))
                   (xc_attempt_ttl (en_config self)));
  mret (Ok ()).

Definition save_prepared_bundle (intent : PreparedBundleIntent) : engine ExecutionOutcome :=
  saved ← on_store (FnSaveBundle intent);
  match saved with
  | Ok true =>
      _ ← arm_receipt_check (bi_transaction_hash intent) (xc_receipt_poll_interval (en_config self));
      mret (Saved true)
  | Ok false => mret (Saved false)
  | Err error => mret (OutFailed error)
  end.

Definition mark_submitted (intent : PreparedBundleIntent) : engine ExecutionOutcome :=
  indexed ← on_store (FnMarkSubmitted chain_id (bi_transaction_hash intent) (bi_user_operation_hashes intent));
  match indexed with
  | Ok indexed =>
      _ ← arm_receipt_check (bi_transaction_hash intent) (receipt_pace (en_config self) chain_id);
      mret (Indexed indexed)
  | Err error => mret (OutFailed error)
  end.

Definition notify_executor_issue (stage hash reason : string) : engine () :=
  match xc_telegram_bot_token (en_config self), xc_telegram_chat_id (en_config self) with
  | Some _, Some _ => perform (SpawnAlert chain_id stage hash reason)
  | _, _ => mret tt
  end.

Definition broadcast_raw (raw : list byte) : engine ExecutionOutcome :=
  outcome ← perform (RpcBroadcast chain_id raw);
  mret match outcome with
       | Ok outcome => Sent (LaneArms.broadcast_reply outcome)
       | Err error => OutFailed (Trusted.rpc_error_text error)
       end.

Definition with_relayer_key (sign : SecretKey → ExecutionOutcome) : engine ExecutionOutcome :=
  match en_relayer_keys self !! Z.to_nat lane with Some key => mret (sign key) | None => panic end.

(** *** The leases *)

Definition acquire_lane_lease (s : BatchState) : engine (BatchState * ExecutionOutcome) :=
  acquired ← on_store (FnAcquireLease lease_scope lease_token lease_ttl);
  match acquired with
  | Ok true =>
      _ ← perform (SpawnHeartbeat lease_scope lease_token); mret (with_lane_lease s, LeaseAcquired true)
  | _ => mret (s, LeaseAcquired false)
  end.

Definition acquire_treasury_lease (s : BatchState) : engine (BatchState * ExecutionOutcome) :=
  acquired ← on_store (FnAcquireLease treasury_scope treasury_token lease_ttl);
  match acquired with
  | Ok true =>
      _ ← perform (SpawnHeartbeat treasury_scope treasury_token);
      mret (with_treasury s true, LeaseAcquired true)
  | Ok false => mret (s, LeaseAcquired false)
  | Err error => mret (s, OutFailed error)
  end.

Definition abort_heartbeat (running : bool) (scope : string) : engine () :=
  if running then perform (AbortHeartbeat scope) else mret tt.

Definition release_treasury_lease (s : BatchState) : engine BatchState :=
  _ ← abort_heartbeat (bs_treasury_heartbeat s) treasury_scope;
  if bs_treasury_lease_acquired s
  then _ ← on_store (FnReleaseLease treasury_scope treasury_token); mret (with_treasury s false)
  else mret (with_treasury s false).

(** [finish]: whatever the program left behind. *)
Definition finish_batch (s : BatchState) : engine () :=
  s ← release_treasury_lease s;
  _ ← abort_heartbeat (bs_heartbeat s) lease_scope;
  if bs_lease_acquired s then _ ← on_store (FnReleaseLease lease_scope lease_token); mret tt else mret tt.

(** *** [execute] *)

Definition keep (s : BatchState) (m : engine ExecutionOutcome) : engine (BatchState * ExecutionOutcome) :=
  outcome ← m; mret (s, outcome).

(** The routed operation an index stands for. *)
Definition with_operation (index : nat) (f : RoutedUserOperation → engine ExecutionOutcome) :
    engine ExecutionOutcome :=
  match batch !! index with Some operation => f operation | None => panic end.

Definition load_assets (s : BatchState) : engine (BatchState * ExecutionOutcome) :=
  resolved ← if is_tempo_chain chain_id then mret (Ok tempo_chain_assets) else chain_assets_for;
  mret match resolved with
       | Ok resolved => (with_assets s resolved, OutAssets resolved)
       | Err reason => (s, AssetsUnavailable reason)
       end.

Definition market_price (s : BatchState) : engine ExecutionOutcome :=
  match bs_assets s with
  | None => mret (OutFailed "chain assets were not resolved")
  | Some resolved =>
      price ← market_usd_price (native_symbol resolved); mret (LaneArms.or_failed Price price)
  end.

Definition execute (s : BatchState) (operation : ExecutionOperation) : engine (BatchState * ExecutionOutcome) :=
  match operation with
  | LoadChainAssets => load_assets s
  | AcquireLaneLease => acquire_lane_lease s
  | AcquireTreasuryLease => acquire_treasury_lease s
  | ReleaseTreasuryLease => s ← release_treasury_lease s; mret (s, Done)
  | FetchMarketPrice => keep s (market_price s)
  | CheckChainSupported => keep s (supported ← perform (SupportsChain chain_id); mret (Supported supported))
  | LoadRecords hashes => keep s (ask_store (FnGetMany hashes) Records)
  | DeadLetterRouted index reason => keep s (with_operation index (λ operation,
      written ← dead_letter_routed operation reason;
      mret (Persisted match written with Ok _ => true | Err _ => false end)))
  | RestoreQueued _ queued => keep s (ask_store (FnRestore queued) (λ _, Done))
  | ReloadRecord hash => keep s (ask_store (FnGet hash) OutRecord)
  | MarkAdmitted hash => keep s (ask_store (FnMarkAdmitted hash) Marked)
  | MarkRejected hash cause => keep s (
      let '(stage, reason) := cause_diagnostic cause in
      ask_store (FnMarkRejected hash stage reason (cause_code cause)) (λ _, Done))
  | MarkRejectedWithReason hash stage reason code => keep s (ask_store (FnMarkRejected hash stage reason code) (λ _, Done))
  | DeferOperation index _ => keep s (with_operation index (λ operation,
      ask_store (FnDefer (delayed_operation_from_routed operation) delayed_payload_ttl) Deferred))
  | RecordDeferred hash stage reason => keep s (_ ← on_store (FnRecordDeferred hash stage reason); mret Done)
  | NotifyIssue hash stage reason => keep s (_ ← notify_executor_issue stage hash reason; mret Done)
  | EmitDiagnostic _ => keep s (mret Done)
  | EnsureLaneLease => keep s (ask_store (FnRenewLease lease_scope lease_token lease_ttl) LeaseHeld)
  | LoadPreparedBundle => keep s (ask_store (FnGetBundle chain_id lane) OutIntent)
  | ResumeBundleIntent intent => keep s (
      disposition ← resume_bundle_intent self intent;
      mret (LaneArms.or_failed
              (λ disposition, Resumed match disposition with ResumeUnknown => false | _ => true end) disposition))
  | SimulateIndividually entry_point operations => keep s (
      verdicts ← simulate_individually PIMLICO_ARTIFACT_JSON ENTRY_POINT_V07_ARTIFACT_JSON self chain_id
                   entry_point (relayer policy) (en_treasury_address self) operations;
      mret (OperationVerdicts (map operation_sim_verdict verdicts)))
  | FetchAccountNonces entry_point probes => keep s (fetch_account_nonces entry_point probes)
  | SimulateBundle entry_point operations => keep s (
      verdict ← Deployer.simulate_bundle PIMLICO_ARTIFACT_JSON ENTRY_POINT_V07_ARTIFACT_JSON self chain_id
                  entry_point (relayer policy) (en_treasury_address self) operations;
      mret (BundleVerdict (bundle_sim_verdict verdict)))
  | FetchTransactionContext entry_point calldata => keep s (
      context ← transaction_context entry_point calldata; mret (LaneArms.or_failed OutContext context))
  | SignBundle request => keep s (with_relayer_key (λ key,
      LaneArms.signed_outcome (sign_eip1559 key (LaneArms.bundle_plan chain_id request))))
  | SavePreparedBundle intent => keep s (save_prepared_bundle intent)
  | CheckBroadcastSeen hash => keep s (seen ← recently_confirmed_broadcast hash; mret (Seen seen))
  | BroadcastRaw raw _ => keep s (broadcast_raw raw)
  | RememberBroadcast hash => keep s (_ ← remember_confirmed_broadcast hash; mret Done)
  | ForgetBroadcast hash => keep s (_ ← forget_broadcast hash; mret Done)
  | ProbeTransactionKnown hash => keep s (known ← transaction_is_known chain_id hash; mret (Known known))
  | ProbeStaleNonce intent => keep s (stale ← bundle_nonce_is_stale self intent; mret (Stale stale))
  | ClearStaleIntent intent _ => keep s (
      cleared ← clear_stale_bundle_intent self intent; mret (LaneArms.or_failed (λ _, Done) cleared))
  | EnsureTreasuryLease => keep s (ask_store (FnRenewLease treasury_scope treasury_token lease_ttl) LeaseHeld)
  | LoadPreparedFunding => keep s (ask_store (FnGetFunding chain_id) FundingIntent)
  | SaveFundingIntent intent => keep s (ask_store (FnSaveFunding intent) Saved)
  | ClearFundingIntent hash => keep s (ask_store (FnClearFunding chain_id hash) (λ _, Done))
  | FetchTreasuryContext => keep s (context ← treasury_context; mret (LaneArms.or_failed id context))
  | FetchTempoTreasuryContext transfer_amount => keep s (
      context ← tempo_treasury_context transfer_amount; mret (LaneArms.or_failed id context))
  | SignTreasuryTransfer request => keep s (mret (LaneArms.signed_outcome
      (sign_eip1559 (en_treasury_key self) (LaneArms.transfer_plan policy chain_id request))))
  | SignTreasuryPathUsd request => keep s (mret (LaneArms.signed_outcome
      (sign_tempo (en_treasury_key self) (LaneArms.path_usd_plan policy chain_id request))))
  | AcquireReceiptProbe hash => keep s (
      token ← unique_token "funding-receipt";
      ask_store (FnAcquireLease ("receipt:" +:+ dec chain_id +:+ ":" +:+ hash) token
                (xc_receipt_poll_interval (en_config self))) LeaseAcquired)
  | FetchTransactionReceipt hash => keep s (fetch_receipt hash)
  | Execution.Pause ms => keep s (_ ← perform (Sleep ms); mret Done)
  | RecordTreasuryShortfall _ _ _ _ _ | RecordTempoTreasuryShortfall _ _ _ _ _ | RecordPartialTopUp _ _ _
  | RecordFundingSubmitted _ _ _ | RecordUnprovenFunding _ _ _ | NoteFundingReceipt _ _
  | RecordUnprovenBroadcast _ _ _ => keep s (mret Done)
  | MarkBundleSubmitted intent _ => keep s (mark_submitted intent)
  | FetchTempoContext => keep s (context ← tempo_transaction_context; mret (LaneArms.or_failed id context))
  | SignTempoBundle request => keep s (with_relayer_key (λ key,
      LaneArms.signed_outcome (sign_tempo key (LaneArms.tempo_plan chain_id request))))
  end.

(** [execute_fenced]: bookkeeping always runs; anything else is answered
    [Interrupted] once the latch has tripped, and abandoned when it trips. *)
Definition execute_fenced (s : BatchState) (operation : ExecutionOperation) :
    batching (BatchState * ExecutionOutcome) :=
  if bookkeeping operation then working (execute s operation)
  else
    reason ← perform InterruptReason;
    match reason with
    | Some reason => mret (s, Interrupted reason)
    | None =>
        ready ← perform NotInterrupted;
        outcome ← (if ready : bool then until_interrupted (execute s operation) else mret None);
        match outcome with
        | Some outcome => mret outcome
        | None =>
            reason ← perform InterruptReason;
            mret (s, Interrupted (default "executor lease was lost" reason))
        end
    end.
End Batch.

(** *** [handle_lane_batch] *)

Definition lane_policy (chain_id relayer : Z) : ExecutionPolicy :=
  let config := en_config self in
  {| pool_width := Z.of_nat (xc_pool_width config); max_bundle_operations := xc_max_bundle_operations config;
     gas_buffer_bps := xc_gas_buffer_bps config; fixed_gas_buffer := xc_fixed_gas_buffer config;
     settlement_inclusion_floor_bps := xc_settlement_inclusion_floor_bps config;
     settlement_hold_max_attempts := xc_settlement_hold_max_attempts config;
     top_up_max_wei := xc_top_up_max_wei config; is_tempo := is_tempo_chain chain_id;
     treasury := en_treasury_address self; relayer := relayer;
     relayer_float_cost_multiplier := xc_relayer_float_cost_multiplier config;
     relayer_float_target_wei := xc_relayer_float_target_wei config;
     relayer_float_min_wei := xc_relayer_float_min_wei config;
     treasury_floor_wei := xc_treasury_floor_wei config |}.

Definition item_outcome (resolution : ItemResolution) : result string () :=
  match resolution with Durable => Ok () | ItemFailed reason => Err reason end.

(** The program of a batch settles with one resolution per operation or
    panics, so the answer of a batch that never does is left out. *)
Definition handle_lane_batch (operations : list RoutedUserOperation) : batching (list (result string ())) :=
  match operations with
  | [] => mret []
  | first :: _ =>
      let chain_id := r_chain_id first in
      let lane := r_lane first in
      match relayer_of_lane self lane with
      | None => working panic
      | Some relayer =>
          let policy := lane_policy chain_id relayer in
          lease_token ← working (unique_token "lane");
          treasury_token ← working (unique_token "treasury");
          '(state, resolutions) ←
            drive_batch_state
              (execute_fenced operations policy chain_id lane lease_token treasury_token) fresh_state
              (drive_batch {| operations := operations; policy := policy; lease_token := lease_token |});
          match resolutions with
          | None => working panic
          | Some resolutions =>
              _ ← working (finish_batch chain_id lane lease_token treasury_token state);
              mret (map item_outcome resolutions)
          end
      end
  end.

Definition handle_malformed (operation : MalformedUserOperation) : engine (result string ()) :=
  _ ←? on_store (FnDeadLetter (mo_chain_id operation) (mo_partition_id operation) (mo_offset operation)
                   (mo_payload operation) (mo_error operation) (mo_user_operation_hash operation)
                   (xc_attempt_ttl (en_config self)));
  mret (Ok ()).

(** ** The delayed inbox *)

Definition finalize_delayed (token : string) (item : ClaimedDelayedUserOperation * result string ())
    (first_error : option string) : engine (option string) :=
  let '(claim, outcome) := item in
  result ← match outcome with
           | Ok _ => on_store (FnComplete (cd_identifier claim) token)
           | Err _ => on_store (FnRetry (cd_operation claim) token delayed_payload_ttl)
           end;
  mret match result with
       | Ok _ => first_error
       | Err error => Some (default error first_error)
       end.

Definition error_or_ok (first_error : option string) : result string () :=
  match first_error with Some error => Err error | None => Ok () end.

(** The task of one lane's claims. *)
Definition process_delayed_lane (token : string) (claims : list ClaimedDelayedUserOperation) :
    batching (result string ()) :=
  outcomes ← handle_lane_batch (map (λ claim, routed_operation_from_delayed (cd_operation claim)) claims);
  if decide (length outcomes = length claims) then
    first_error ← working (io_visit (finalize_delayed token) (zip claims outcomes) None);
    mret (error_or_ok first_error)
  else mret (Err "delayed executor returned a misaligned result vector").

(** [BTreeMap<(u64, u8), _>]: a chain's lanes in order. *)
Definition lane_key (claim : ClaimedDelayedUserOperation) : Z :=
  du_chain_id (cd_operation claim) * 256 + du_lane (cd_operation claim).

Definition by_lane (claims : list ClaimedDelayedUserOperation) : list (Z * list ClaimedDelayedUserOperation) :=
  foldl (λ groups claim, push_group (lane_key claim) claim groups) [] claims.

Definition reconcile_delayed_user_operations : engine (result string ()) :=
  token ← unique_token "delayed";
  claims ←? on_store (FnClaimDue token DELAYED_CLAIM_BATCH_SIZE
                        (Z.max (xc_lease_ttl (en_config self)) DELAYED_CLAIM_TTL_MIN));
  if decide (claims = []) then mret (Ok ())
  else
    _ ← io_visit (λ group (_ : ()), perform (SpawnDelayedLane token group.2)) (by_lane claims) tt;
    first_error ← io_visit (λ (_ : Z * list ClaimedDelayedUserOperation) first_error,
        joined ← perform JoinNextLane;
        mret match joined with Ok _ => first_error | Err error => Some (default error first_error) end)
      (by_lane claims) None;
    mret (error_or_ok first_error).

(** ** The reconciler *)

Fixpoint run_reconciler (turns : nat) : engine () :=
  match turns with
  | O => mret tt
  | S turns =>
      tick ← perform NextTick;
      match tick with
      | None => mret tt
      | Some bundles =>
          reconciled ← if bundles : bool then reconcile_prepared_bundles self
                       else reconcile_delayed_user_operations;
          match reconciled with
          | Ok _ => run_reconciler turns
          | Err _ =>
              shutdown ← perform (SleepOrShutdown RECEIPT_RECONCILE_FAILURE_DELAY);
              if shutdown : bool then mret tt else run_reconciler turns
          end
      end
  end.
End Arms.
