(* ===== verification/EngineSafety.v ===== *)
(** * EngineSafety: the server's executor acts on evidence

    Whatever the store, the endpoints and the other tasks answer, a batch, a
    delayed lane and the reconciler broadcast only bytes that are in an outbox,
    and drop an outbox or settle a record only with evidence gathered in the
    same run.  [guarded] states it of a program, [plain] of one that needs no
    evidence of its own. *)

From S2P Require Export ExecutionProperties EngineArms.
#[local] Open Scope string_scope.
#[local] Open Scope list_scope.
#[local] Open Scope Z_scope.

(** ** What a program has learnt *)

Inductive Fact : Type :=
  | RecordsShown (hashes : list string) (records : list (option StoredUserOperation))
  | RpcAnswered (chain_id : Z) (method : string) (params : Value) (answer : result Trusted.RpcError Value)
  | BroadcastAnswered (outcome : BroadcastOutcome)
  | Remembered (seen : gmap string Z)
  (* what an outbox holds *)
  | BundleHeld (intent : PreparedBundleIntent)
  | FundingHeld (intent : PreparedFundingIntent)
  | DeploymentHeld (intent : PreparedSimulationDeploymentIntent)
  (* a receipt's outcome was stored for every member *)
  | OutcomeStored (chain_id : Z) (transaction_hash : string).

Definition store_facts {A} (f : StoreFn A) : result StoreError A → list Fact :=
  match f in StoreFn A return result StoreError A → list Fact with
  | FnGetMany hashes => λ r, match r with Ok records => [RecordsShown hashes records] | Err _ => [] end
  | FnSaveBundle intent => λ r, match r with Ok true => [BundleHeld intent] | _ => [] end
  | FnGetBundle _ _ => λ r, match r with Ok (Some intent) => [BundleHeld intent] | _ => [] end
  | FnListBundles => λ r, match r with Ok intents => map BundleHeld intents | Err _ => [] end
  | FnSaveFunding intent => λ r, match r with Ok true => [FundingHeld intent] | _ => [] end
  | FnGetFunding _ => λ r, match r with Ok (Some intent) => [FundingHeld intent] | _ => [] end
  | FnSaveDeployment intent => λ r, match r with Ok true => [DeploymentHeld intent] | _ => [] end
  | FnGetDeployment _ => λ r, match r with Ok (Some intent) => [DeploymentHeld intent] | _ => [] end
  | FnMarkFailed chain_id transaction_hash _ | FnMarkConfirmed chain_id transaction_hash _ _ => λ r,
      match r with Ok _ => [OutcomeStored chain_id transaction_hash] | Err _ => [] end
  | _ => λ _, []
  end.

Definition new_facts (R : Type) (e : EngineCall R) : R → list Fact :=
  match e in EngineCall R return R → list Fact with
  | Store f => store_facts f
  | RpcCall chain_id method params => λ answer, [RpcAnswered chain_id method params answer]
  | RpcBatch chain_id calls => λ answers,
      match answers with
      | Ok answers => zip_with (λ call answer, RpcAnswered chain_id (bc_method call) (bc_params call) answer) calls answers
      | Err _ => []
      end
  | RpcBroadcast _ _ => λ outcome, match outcome with Ok outcome => [BroadcastAnswered outcome] | Err _ => [] end
  | BroadcastSeen _ => λ seen, [Remembered seen]
  | _ => λ _, []
  end.

Definition observe (F : list Fact) (R : Type) (e : EngineCall R) (r : R) : list Fact := new_facts R e r ++ F.

(** ** Evidence *)

Section Evidence.
Context `{HA : Alloy} `{HT : !HashText} `{HK : Keccak} `{HC : Curve}.
Variable self : ExecutorEngine.

(** Every member's record was read, none is active and some are terminal. *)
Definition superseded (F : list Fact) (i : PreparedBundleIntent) : Prop :=
  ∃ records audit,
    RecordsShown (bi_user_operation_hashes i) records ∈ F ∧
    audit_bundle_replay i records = Ok audit ∧ active audit = 0%nat ∧ terminal audit ≠ 0%nat.

(** No endpoint showed the transaction. *)
Definition unknown_to (F : list Fact) (hash : string) : Prop :=
  ∃ chain_id answer,
    RpcAnswered chain_id "eth_getTransactionByHash" (VArray [VString hash]) answer ∈ F ∧
    ∀ v, answer = Ok v → holds_transaction v hash = false.

(** The network was seen to have the transaction, now or a moment ago. *)
Definition noticed (F : list Fact) (hash : string) : Prop :=
  (∃ chain_id v, RpcAnswered chain_id "eth_getTransactionByHash" (VArray [VString hash]) (Ok v) ∈ F ∧
                 holds_transaction v hash = true) ∨
  (∃ hash', BroadcastAnswered (BroadcastAccepted hash') ∈ F ∧ eq_ignore_ascii_case hash' hash = true) ∨
  (∃ seen, Remembered seen ∈ F ∧ is_Some (seen !! hash)).

(** The lane's relayer has a mined nonce past the bundle's. *)
Definition nonce_spent (F : list Fact) (i : PreparedBundleIntent) : Prop :=
  ∃ relayer answer latest,
    relayer_of_lane self (bi_lane i) = Some relayer ∧
    RpcAnswered (bi_chain_id i) "eth_getTransactionCount"
      (VArray [VString (address_to_string relayer); VString "latest"]) answer ∈ F ∧
    LaneDo.latest_nonce answer = Some latest ∧ bi_nonce i < latest.

Definition receipt_shown (F : list Fact) (chain_id : Z) (hash : string) (receipt : Value) : Prop :=
  RpcAnswered chain_id "eth_getTransactionReceipt" (VArray [VString hash]) (Ok receipt) ∈ F.

(** The transaction has a readable receipt, whose outcome the members have. *)
Definition settled_on_chain (F : list Fact) (i : PreparedBundleIntent) : Prop :=
  (∃ receipt succeeded, receipt_shown F (bi_chain_id i) (bi_transaction_hash i) receipt ∧
                        receipt_succeeded receipt = Some succeeded) ∧
  OutcomeStored (bi_chain_id i) (bi_transaction_hash i) ∈ F.

Definition released (F : list Fact) (i : PreparedBundleIntent) : Prop :=
  superseded F i ∨ (unknown_to F (bi_transaction_hash i) ∧ nonce_spent F i) ∨ settled_on_chain F i.

(** The deployment reverted, or its contract has code. *)
Definition deployment_done (F : list Fact) (chain_id : Z) (i : PreparedSimulationDeploymentIntent) : Prop :=
  ∃ receipt, receipt_shown F chain_id (si_transaction_hash i) receipt ∧
    (receipt_succeeded receipt = Some false ∨
     (receipt_succeeded receipt = Some true ∧
      ∃ address code text, address_from_str (si_contract_address i) = Some address ∧
        RpcAnswered chain_id "eth_getCode" (VArray [VString (address_to_string address); VString "latest"]) (Ok code) ∈ F ∧
        as_str code = Some text ∧ text ≠ "0x")).

(** The bytes are those of a transaction an outbox holds. *)
Definition outboxed (F : list Fact) (raw : list byte) : Prop :=
  (∃ i, BundleHeld i ∈ F ∧ validate_raw_transaction (bi_raw_transaction i) (bi_transaction_hash i) = Ok raw) ∨
  (∃ i, FundingHeld i ∈ F ∧ validate_raw_transaction (fi_raw_transaction i) (fi_transaction_hash i) = Ok raw) ∨
  (∃ i, DeploymentHeld i ∈ F ∧ parse_raw_transaction (si_raw_transaction i) (si_transaction_hash i) = Some raw).

Definition store_permits (F : list Fact) {A} (f : StoreFn A) : Prop :=
  match f with
  | FnClearBundle chain_id lane hash =>
      ∃ i, BundleHeld i ∈ F ∧ chain_id = bi_chain_id i ∧ lane = bi_lane i ∧ hash = bi_transaction_hash i ∧
        released F i
  | FnMarkSubmitted _ hash _ => noticed F hash
  | FnMarkFailed chain_id hash receipt =>
      receipt_shown F chain_id hash receipt ∧ receipt_succeeded receipt = Some false
  | FnMarkConfirmed chain_id hash receipt _ =>
      receipt_shown F chain_id hash receipt ∧ receipt_succeeded receipt = Some true
  | FnClearFunding _ hash => unknown_to F hash ∨ ∃ chain_id receipt, receipt_shown F chain_id hash receipt
  | FnClearDeployment chain_id hash =>
      ∃ i, DeploymentHeld i ∈ F ∧ hash = si_transaction_hash i ∧ deployment_done F chain_id i
  | _ => True
  end.

Definition permits (F : list Fact) (R : Type) (e : EngineCall R) : Prop :=
  match e with
  | RpcBroadcast _ raw => outboxed F raw
  | Store f => store_permits F f
  | _ => True
  end.

Abbreviation guarded := (ensures permits observe).

Lemma engine_observe_facts F R (e : EngineCall R) r : F ⊆ observe F R e r.
Proof. intros x Hx. apply elem_of_app. by right. Qed.

Lemma unknown_mono F F' hash : F ⊆ F' → unknown_to F hash → unknown_to F' hash.
Proof. intros HF (c & answer & ? & ?). exists c, answer. auto. Qed.
Lemma noticed_mono F F' hash : F ⊆ F' → noticed F hash → noticed F' hash.
Proof.
  intros HF [(c & v & ? & ?)|[(h & ? & ?)|(seen & ? & ?)]]; [left; exists c, v|right; left; exists h|right; right; exists seen]; auto.
Qed.
Lemma nonce_spent_mono F F' i : F ⊆ F' → nonce_spent F i → nonce_spent F' i.
Proof. intros HF (relayer & answer & latest & ? & ? & ?). exists relayer, answer, latest. auto. Qed.
Lemma engine_released_mono F F' i : F ⊆ F' → released F i → released F' i.
Proof.
  intros HF [(records & audit & ? & ?)|[[Hu Hn]|[(receipt & s & Hr & ?) Ho]]].
  - left. exists records, audit. auto.
  - right. left. split; [by eapply unknown_mono|by eapply nonce_spent_mono].
  - right. right. split; [|by apply HF]. exists receipt, s. split; [by apply HF|done].
Qed.

(** The answer does not matter: only facts were added. *)
Definition adds {B} (F : list Fact) : list Fact → B → Prop := λ F' _, F ⊆ F'.
Definition plain {A} (p : engine A) : Prop := ∀ F, guarded p F (adds F).

Lemma engine_guarded_then {A B} (m : engine A) (f : A → engine B) F :
  guarded m F (adds F) → (∀ F' a, F ⊆ F' → guarded (f a) F' (adds F')) → guarded (m ≫= f) F (adds F).
Proof.
  intros Hm Hf. apply ensures_bind. eapply ensures_mono; [exact Hm|]. intros F' a HF.
  eapply ensures_mono; [by apply Hf|]. unfold adds. intros. by etransitivity.
Qed.
Lemma engine_guarded_pure {A} (a : A) F : guarded (mret a) F (adds F).
Proof. exact (reflexivity _). Qed.
Lemma engine_guarded_then_try {X A B} (m : engine (result X A)) (f : A → engine (result X B)) F :
  guarded m F (adds F) → (∀ F' a, F ⊆ F' → guarded (f a) F' (adds F')) → guarded (io_try f m) F (adds F).
Proof. intros Hm Hf. apply engine_guarded_then; [done|]. intros F' [a|e] HF; [by apply Hf|apply engine_guarded_pure]. Qed.
Lemma guarded_effect {R} (e : EngineCall R) F : permits F R e → guarded (perform e) F (adds F).
Proof. intros He. split; [done|]. intros r. apply engine_observe_facts. Qed.

Lemma plain_pure {A} (a : A) : plain (mret a).
Proof. intros F. apply engine_guarded_pure. Qed.
Lemma plain_perform {R} (e : EngineCall R) : (∀ F, permits F R e) → plain (perform e).
Proof. intros He F. by apply guarded_effect. Qed.
Lemma plain_bind {A B} (m : engine A) (f : A → engine B) : plain m → (∀ a, plain (f a)) → plain (m ≫= f).
Proof. intros Hm Hf F. apply engine_guarded_then; [apply Hm|]. intros. apply Hf. Qed.
Lemma plain_try {X A B} (m : engine (result X A)) (f : A → engine (result X B)) :
  plain m → (∀ a, plain (f a)) → plain (io_try f m).
Proof. intros Hm Hf F. apply engine_guarded_then_try; [apply Hm|]. intros. apply Hf. Qed.
Lemma plain_for {S A X} (body : X → S → engine (S + A)) items s finish :
  (∀ x s, plain (body x s)) → (∀ s, plain (finish s)) → plain (io_for body items s finish).
Proof.
  intros Hb Hf F. apply ensures_for with (J := λ _ F' _, F ⊆ F'); [done| |].
  - intros x rest F' s' HF. eapply ensures_mono; [apply Hb|]. unfold adds; intros F'' [|] HF''; by etransitivity.
  - intros F' s' HF. eapply ensures_mono; [apply Hf|]. unfold adds. intros. by etransitivity.
Qed.

(** A loop that visits every item keeps what its body keeps. *)
Lemma guarded_visit {S X} (body : X → S → engine S) items s F (J : list Fact → S → Prop) :
  J F s → (∀ x s F', x ∈ items → F ⊆ F' → J F' s → guarded (body x s) F' (λ F'' s', F' ⊆ F'' ∧ J F'' s')) →
  guarded (io_visit body items s) F (λ F' s', F ⊆ F' ∧ J F' s').
Proof.
  revert s F. induction items as [|x items IH]; intros s F HJ Hb; [by split|].
  apply ensures_bind. eapply ensures_mono; [apply Hb; [left|done|done]|]. intros F' s' [HF HJ'].
  eapply ensures_mono; [apply IH; [done|]|].
  - intros y s'' F'' Hy HF'' HJ''. apply Hb; [by right|by etransitivity|done].
  - intros F'' s'' [HF'' ?]. split; [by etransitivity|done].
Qed.
Lemma plain_visit {S X} (body : X → S → engine S) items s : (∀ x s, plain (body x s)) → plain (io_visit body items s).
Proof.
  intros Hb F. eapply ensures_mono; [apply guarded_visit with (J := λ _ _, True); [done|]|by intros ?? []].
  intros x s' F' _ _ _. eapply ensures_mono; [apply Hb|]. intros F'' s'' HF. by split.
Qed.

(** The same of a batch, whose latch tells nothing. *)
Definition batch_permits (F : list Fact) (R : Type) (e : BatchCall R) : Prop :=
  match e with Work e => permits F _ e | _ => True end.
Definition batch_observe (F : list Fact) (R : Type) (e : BatchCall R) : R → list Fact :=
  match e in BatchCall R return R → list Fact with
  | Work e => λ r, observe F _ e r
  | _ => λ _, F
  end.
Abbreviation batch_guarded := (ensures batch_permits batch_observe).
Definition batch_plain {A} (p : batching A) : Prop := ∀ F, batch_guarded p F (adds F).

Lemma working_guarded {A} (p : engine A) F Q : guarded p F Q → batch_guarded (working p) F Q.
Proof.
  revert F. induction p as [a|T e k IH]; intros F; [done|]. intros [He Hk]. split; [done|]. intros r. by apply IH.
Qed.
Lemma working_plain {A} (p : engine A) : plain p → batch_plain (working p).
Proof. intros Hp F. by apply working_guarded. Qed.
Lemma batch_then {A B} (m : batching A) (f : A → batching B) F :
  batch_guarded m F (adds F) → (∀ F' a, F ⊆ F' → batch_guarded (f a) F' (adds F')) → batch_guarded (m ≫= f) F (adds F).
Proof.
  intros Hm Hf. apply ensures_bind. eapply ensures_mono; [exact Hm|]. intros F' a HF.
  eapply ensures_mono; [by apply Hf|]. unfold adds. intros. by etransitivity.
Qed.

(** Abandoned at an await, a program has only made fewer effects. *)
Lemma until_guarded {A} (p : engine A) F Q (R : list Fact → option A → Prop) :
  guarded p F Q → (∀ F', F ⊆ F' → R F' None) → (∀ F' a, F ⊆ F' → Q F' a → R F' (Some a)) →
  batch_guarded (until_interrupted p) F R.
Proof.
  revert F. induction p as [a|T e k IH]; intros F Hp HN HS; [by apply HS|].
  destruct Hp as [He Hk]. split; [done|]. intros r.
  pose proof (engine_observe_facts F T e r) as HF.
  assert (batch_guarded (until_interrupted (k r)) (observe F T e r) R) as Hgo.
  { apply IH; [apply Hk| |]; intros; [apply HN|apply HS; [|done]]; by etransitivity. }
  cbn [batch_observe]. destruct (awaits T e); [|exact Hgo]. split; [done|]. intros [|]; [exact Hgo|]. by apply HN.
Qed.
End Evidence.

Create HintDb engine.

(** Walk through a program that needs no evidence. *)
Ltac plain :=
  repeat first
    [ apply plain_pure
    | apply plain_perform; intros; exact I
    | solve [eauto 2 with engine nocore]
    | apply plain_for; intros
    | apply plain_visit; intros
    | apply plain_try; [|intros]
    | apply plain_bind; [|intros]
    | progress cbv zeta
    | case_match
    | case_decide ].

(** ** The recovery of a bundle *)

Section Recovery.
Context `{HA : Alloy} `{HT : !HashText} `{HK : Keccak} `{HC : Curve}.
Variable self : ExecutorEngine.

Abbreviation guarded := (ensures (permits self) observe).
Abbreviation plain := (plain self).

Lemma plain_forget hash : plain (forget_broadcast hash).
Proof. unfold forget_broadcast. plain. Qed.
Lemma plain_remember hash : plain (remember_confirmed_broadcast hash).
Proof. unfold remember_confirmed_broadcast. plain. Qed.
Lemma plain_arm hash within : plain (arm_receipt_check hash within).
Proof. unfold arm_receipt_check. plain. Qed.
Lemma plain_token prefix : plain (unique_token prefix).
Proof. unfold unique_token. plain. Qed.
Lemma plain_panic {A} : plain (panic (A := A)).
Proof. unfold panic. plain. Qed.
#[local] Hint Resolve plain_forget plain_remember plain_arm plain_token plain_panic : engine.

Lemma engine_known_guarded c hash F Q :
  (∀ F' known, F ⊆ F' → (if known : bool then noticed F' hash else unknown_to F' hash) → Q F' known) →
  guarded (transaction_is_known c hash) F Q.
Proof.
  intros HQ. unfold transaction_is_known. apply ensures_bind, ensures_perform. split; [exact I|]. intros answer.
  apply HQ; [apply engine_observe_facts|].
  destruct answer as [v|e]; [destruct (holds_transaction v hash) eqn:Ev|].
  - left. exists c, v. split; [by left|done].
  - exists c, (Ok v). split; [by left|]. by intros v' [= <-].
  - exists c, (Err e). split; [by left|done].
Qed.

Lemma seen_guarded hash F Q :
  (∀ F' seen, F ⊆ F' → (seen = true → noticed F' hash) → Q F' seen) →
  guarded (recently_confirmed_broadcast hash) F Q.
Proof.
  intros HQ. unfold recently_confirmed_broadcast. apply ensures_bind, ensures_perform. split; [exact I|]. intros now.
  apply ensures_bind, ensures_perform. split; [exact I|]. intros seen.
  apply HQ; [etransitivity; apply engine_observe_facts|]. intros [at_ Hs]%bool_decide_eq_true.
  right. right. exists seen. split; [by left|]. apply map_lookup_filter_Some in Hs as [-> _]. by exists at_.
Qed.

Lemma engine_stale_guarded i F Q :
  (∀ F' stale, F ⊆ F' → (stale = true → nonce_spent self F' i) → Q F' stale) →
  guarded (bundle_nonce_is_stale self i) F Q.
Proof.
  intros HQ. unfold bundle_nonce_is_stale. destruct (relayer_of_lane _ _) as [relayer|] eqn:Er; [|by apply HQ].
  apply ensures_bind, ensures_perform. split; [exact I|]. intros answer. apply HQ; [apply engine_observe_facts|].
  destruct (LaneDo.latest_nonce answer) as [latest|] eqn:El; [|done]. intros Hs%Z.ltb_lt.
  exists relayer, answer, latest. split; [done|]. split; [by left|done].
Qed.

Lemma clear_bundle_guarded i F : BundleHeld i ∈ F → released self F i → guarded (clear_bundle i) F (adds F).
Proof. intros Hi Hr. apply guarded_effect. by exists i. Qed.

Lemma engine_clear_stale_guarded i F :
  BundleHeld i ∈ F → released self F i → guarded (clear_stale_bundle_intent self i) F (adds F).
Proof.
  intros Hi Hr. unfold clear_stale_bundle_intent. apply engine_guarded_then_try; [by apply clear_bundle_guarded|].
  intros F' cleared _. case_match; [apply engine_guarded_pure|].
  apply engine_guarded_then; [apply plain_forget|]. intros F'' u _. case_match; [apply engine_guarded_pure|apply plain_panic].
Qed.

(** What [Confirmed] means. *)
Definition confirms (F F' : list Fact) (hash : string) (r : result string BundleBroadcastDisposition) : Prop :=
  F ⊆ F' ∧ (r = Ok BroadcastConfirmed → noticed F' hash).

Lemma confirms_none F F' hash r : F ⊆ F' → r ≠ Ok BroadcastConfirmed → confirms F F' hash r.
Proof. intros. by split. Qed.

Lemma engine_unproven_guarded i reason F :
  BundleHeld i ∈ F →
  guarded (unproven_broadcast_intent self i reason) F (λ F' r, confirms F F' (bi_transaction_hash i) r).
Proof.
  intros Hi. unfold unproven_broadcast_intent. apply ensures_bind. eapply ensures_mono; [apply plain_forget|]. intros F1 u H1.
  apply ensures_bind, engine_known_guarded. intros F2 [|] H2 Hk.
  - apply ensures_bind. eapply ensures_mono; [apply plain_remember|]. intros F3 u' H3. split.
    + etransitivity; [exact H1|]. by etransitivity.
    + intros _. by eapply noticed_mono.
  - assert (F ⊆ F2) as H02 by (by etransitivity).
    destruct (nonce_too_low reason); [|by apply confirms_none].
    apply ensures_bind, engine_stale_guarded. intros F3 [|] H3 Hs; [|apply confirms_none; [by etransitivity|done]].
    apply ensures_try. eapply ensures_mono; [apply engine_clear_stale_guarded|].
    + by apply H3, H02.
    + right. left. split; [by eapply unknown_mono|by apply Hs].
    + intros F4 [u'|e] H4; (apply confirms_none; [etransitivity; [exact H02|]; by etransitivity|done]).
Qed.

Lemma engine_broadcast_guarded i F : BundleHeld i ∈ F →
  guarded (broadcast_bundle_intent self i) F (λ F' r, confirms F F' (bi_transaction_hash i) r).
Proof.
  intros Hi. unfold broadcast_bundle_intent.
  destruct (validate_raw_transaction _ _) as [raw|e] eqn:Hv; [|by apply confirms_none].
  apply ensures_bind, seen_guarded. intros F1 [|] H1 Hs; [split; [done|by intros; apply Hs]|].
  apply ensures_bind, ensures_perform. split; [left; exists i; auto|]. intros outcome.
  set (F2 := observe _ _ _ _). assert (F ⊆ F2) as H2 by (etransitivity; [exact H1|apply engine_observe_facts]).
  assert (∀ hash, outcome = Ok (BroadcastAccepted hash) → BroadcastAnswered (BroadcastAccepted hash) ∈ F2) as Ha.
  { intros hash ->. by left. }
  clearbody F2. destruct outcome as [[hash|reason|reason]|e].
  - destruct (eq_ignore_ascii_case _ _) eqn:E; apply ensures_bind; (eapply ensures_mono;
      [first [apply plain_remember|apply plain_forget]|]); intros F3 u H3.
    + split; [by etransitivity|]. intros _. eapply noticed_mono; [exact H3|]. right. left. exists hash. auto.
    + apply confirms_none; [by etransitivity|done].
  - eapply ensures_mono; [by apply engine_unproven_guarded, H2|]. intros F3 r [H3 ?]. split; [by etransitivity|done].
  - eapply ensures_mono; [by apply engine_unproven_guarded, H2|]. intros F3 r [H3 ?]. split; [by etransitivity|done].
  - apply ensures_bind. eapply ensures_mono; [apply plain_forget|]. intros F3 u H3.
    apply confirms_none; [by etransitivity|done].
Qed.

Lemma engine_audit_guarded i F (Q : list Fact → result string BundleReplayAudit → Prop) :
  (∀ F' r, F ⊆ F' →
     (∀ audit, r = Ok audit → active audit = 0%nat → terminal audit ≠ 0%nat → released self F' i) → Q F' r) →
  guarded (audit_prepared_bundle i) F Q.
Proof.
  intros HQ. unfold audit_prepared_bundle. apply ensures_try, ensures_perform. split; [exact I|].
  intros [records|e]; apply HQ; [apply engine_observe_facts| |apply engine_observe_facts|done].
  intros audit Ha H0 Ht. left. exists records, audit. split; [by left|done].
Qed.

Lemma engine_clear_obsolete_guarded i audit F :
  BundleHeld i ∈ F → (terminal audit ≠ 0%nat → released self F i) →
  guarded (clear_obsolete_bundle_intent i audit) F (adds F).
Proof.
  intros Hi Hr. unfold clear_obsolete_bundle_intent. case_decide; [apply engine_guarded_pure|].
  apply engine_guarded_then_try; [apply clear_bundle_guarded; auto|]. intros F1 u _.
  apply engine_guarded_then; [apply plain_forget|]. intros. apply engine_guarded_pure.
Qed.

Lemma engine_resume_guarded i F : BundleHeld i ∈ F → guarded (resume_bundle_intent self i) F (adds F).
Proof.
  intros Hi. unfold resume_bundle_intent. apply ensures_try, engine_audit_guarded. intros F1 [audit|e] H1 Ha; [|done].
  eapply ensures_mono with (Q := adds F1); [|unfold adds; intros; by etransitivity].
  case_decide as Hd.
  { apply engine_guarded_then_try; [|intros; apply engine_guarded_pure].
    apply engine_clear_obsolete_guarded; [by apply H1|]. intros _.
    destruct Hd. by eapply Ha. }
  apply ensures_try. eapply ensures_mono; [by apply engine_broadcast_guarded, H1|]. intros F2 r [H2 Hc].
  destruct r as [[|]|e]; [|done..]. specialize (Hc eq_refl). case_decide as Hd1; [exact H2|].
  apply ensures_try, ensures_perform. split; [exact Hc|]. intros indexed.
  set (F3 := observe _ _ _ _). assert (F1 ⊆ F3) as H3 by (etransitivity; [exact H2|apply engine_observe_facts]).
  clearbody F3. destruct indexed as [indexed|e]; [|exact H3]. case_decide as Hd2; [exact H3|].
  apply ensures_try, engine_audit_guarded. intros F4 [after|e] H4 Hb; [|exact (transitivity H3 H4)].
  eapply ensures_mono with (Q := adds F4); [|unfold adds; intros; etransitivity; [exact H3|]; by etransitivity].
  case_decide; [|case_decide; apply engine_guarded_pure]. case_decide; [|apply engine_guarded_pure].
  apply engine_guarded_then_try; [|intros; apply engine_guarded_pure].
  apply engine_clear_obsolete_guarded; [by apply H4, H3, H1|]. intros Ht. by eapply Hb.
Qed.
End Recovery.
#[export] Hint Resolve plain_forget plain_remember plain_arm plain_token plain_panic : engine.

(** ** The reconciler's pass *)

Section Reconcile.
Context `{HA : Alloy} `{HT : !HashText} `{HK : Keccak} `{HC : Curve}.
Variable self : ExecutorEngine.

Abbreviation guarded := (ensures (permits self) observe).
Abbreviation plain := (plain self).

Lemma due_pass_subset now intents receipt_due i : i ∈ (due_pass self now intents receipt_due).2 → i ∈ intents.
Proof.
  unfold due_pass. generalize (filter (λ entry : string * Z, entry.1 ∈ map bi_transaction_hash intents) receipt_due).
  intros m. assert (∀ items (s : gmap string Z * list PreparedBundleIntent),
    (∀ j, j ∈ s.2 → j ∈ intents) → items ⊆ intents →
    ∀ j, j ∈ (foldl (λ '(receipt_due, due_now) intent,
      let hash := bi_transaction_hash intent in
      if match receipt_due !! hash with Some due => now <? due | None => false end then (receipt_due, due_now)
      else (<[hash := now + receipt_pace (en_config self) (bi_chain_id intent)]> receipt_due, due_now ++ [intent]))
      s items).2 → j ∈ intents) as Hgo.
  { induction items as [|x items IH]; intros [rd dn] Hs Hi j; [apply Hs|]. cbn [foldl].
    apply IH; [|intros y Hy; apply Hi; by right].
    cbv zeta. destruct (match rd !! _ with Some _ => _ | None => _ end); [exact Hs|].
    intros y [Hy|Hy%list_elem_of_singleton]%elem_of_app; [by apply Hs|]. subst y. apply Hi. by left. }
  apply Hgo; [|done]. intros j Hj. by apply elem_of_nil in Hj.
Qed.

(** A chain's group holds bundles of the chain, seen in their outboxes. *)
Definition group_of (F : list Fact) (group : Z * list PreparedBundleIntent) : Prop :=
  Forall (λ i, bi_chain_id i = group.1 ∧ BundleHeld i ∈ F) group.2.
Definition grouped (F : list Fact) (groups : list (Z * list PreparedBundleIntent)) : Prop :=
  Forall (group_of F) groups.

Lemma group_mono F F' group : F ⊆ F' → group_of F group → group_of F' group.
Proof. intros HF Hg. eapply Forall_impl; [exact Hg|]. intros i [Hc Hi]. split; [exact Hc|by apply HF]. Qed.
Lemma grouped_mono F F' groups : F ⊆ F' → grouped F groups → grouped F' groups.
Proof. intros HF Hg. eapply Forall_impl; [exact Hg|]. intros group. by apply group_mono. Qed.

Lemma push_grouped F i groups :
  BundleHeld i ∈ F → grouped F groups → grouped F (push_group (bi_chain_id i) i groups).
Proof.
  intros Hheld Hg. induction Hg as [|[k items] rest Hi Hr IH]; cbn [push_group].
  { constructor; [|constructor]. constructor; [by split|constructor]. }
  unfold grouped in *. destruct (Z.compare_spec (bi_chain_id i) k) as [Hk|Hk|Hk]; constructor; try done.
  - apply Forall_app. split; [exact Hi|]. constructor; [by split|constructor].
  - constructor; [by split|constructor].
  - by constructor.
Qed.

Lemma claim_guarded i claimed F :
  BundleHeld i ∈ F → grouped F claimed →
  guarded (claim_receipt_check self i claimed) F (λ F' claimed', F ⊆ F' ∧ grouped F' claimed').
Proof.
  intros Hi Hg. unfold claim_receipt_check. apply ensures_bind. eapply ensures_mono; [by apply engine_resume_guarded|].
  intros F1 disposition H1.
  assert (∀ F', F ⊆ F' → F ⊆ F' ∧ grouped F' claimed) as Hsame by (intros; split; [done|by eapply grouped_mono]).
  destruct disposition as [[]|e]; try by apply Hsame.
  apply ensures_bind, ensures_perform. split; [exact I|]. intros still.
  assert (F ⊆ observe F1 _ (Store (FnGetBundle (bi_chain_id i) (bi_lane i))) still) as H2
    by (etransitivity; [exact H1|apply engine_observe_facts]).
  set (F2 := observe _ _ _ _) in *. clearbody F2. destruct still as [[still|]|e]; try by apply Hsame.
  apply ensures_bind. eapply ensures_mono; [apply plain_token|]. intros F3 token H3.
  apply ensures_bind, ensures_perform. split; [exact I|]. intros acquired.
  match goal with |- context [observe ?G ?R ?e ?r] => pose proof (engine_observe_facts G R e r) as H4 end.
  set (F4 := observe _ _ _ _) in *. clearbody F4.
  assert (F ⊆ F4) as H5 by (etransitivity; [exact H2|]; by etransitivity).
  destruct acquired as [[|]|e]; [|by apply Hsame..].
  split; [exact H5|]. apply push_grouped; [by apply H5|by eapply grouped_mono].
Qed.

(** Every answer of a batch of receipts is the answer about its bundle. *)
Lemma receipts_shown chain_id intents receipts F entry :
  entry ∈ zip intents receipts →
  RpcAnswered chain_id "eth_getTransactionReceipt" (VArray [VString (bi_transaction_hash entry.1)]) entry.2
    ∈ observe F _ (RpcBatch chain_id (map receipt_call intents)) (Ok receipts).
Proof.
  intros Hin. apply elem_of_app. left. cbn [new_facts]. revert receipts Hin.
  induction intents as [|i intents IH]; intros [|r receipts] Hin; cbn [zip zip_with] in Hin;
    try by apply elem_of_nil in Hin.
  apply elem_of_cons in Hin as [->|Hin]; [by left|]. right. by apply IH.
Qed.

Lemma persist_guarded i receipt F :
  receipt_shown F (bi_chain_id i) (bi_transaction_hash i) receipt →
  guarded (persist_receipt (bi_chain_id i) i receipt) F (λ F' persisted, F ⊆ F' ∧
    (persisted = Some (Ok ()) → settled_on_chain F' i)).
Proof.
  intros Hr. unfold persist_receipt.
  assert (∀ b (f : StoreFn ()), receipt_succeeded receipt = Some b →
    (∀ r, OutcomeStored (bi_chain_id i) (bi_transaction_hash i) ∈ observe F _ (Store f) (Ok r)) →
    store_permits self F f →
    guarded (persisted ← on_store f; mret (Some persisted)) F
      (λ F' persisted, F ⊆ F' ∧ (persisted = Some (Ok ()) → settled_on_chain F' i))) as Hgo.
  { intros b f Hb Hf Hp. apply ensures_bind, ensures_perform. split; [exact Hp|]. intros r.
    split; [apply engine_observe_facts|]. intros [= ->]. split; [|apply Hf].
    exists receipt, b. split; [by apply (engine_observe_facts F)|done]. }
  destruct (receipt_succeeded receipt) as [[|]|] eqn:Es; [|by apply Hgo with false; [|left|]|by split].
  destruct (address_from_str _) as [entry_point|]; [|by split]. by apply Hgo with true; [|left|].
Qed.

Lemma reconcile_receipt_guarded chain_id entry F :
  bi_chain_id entry.1 = chain_id → BundleHeld entry.1 ∈ F →
  RpcAnswered chain_id "eth_getTransactionReceipt" (VArray [VString (bi_transaction_hash entry.1)]) entry.2 ∈ F →
  guarded (reconcile_receipt chain_id entry ()) F (adds F).
Proof.
  destruct entry as [i receipt]. cbn [fst snd]. intros <- Hheld Hr. unfold reconcile_receipt.
  destruct receipt as [receipt|e]; [|apply engine_guarded_pure].
  assert (guarded (persisted ← persist_receipt (bi_chain_id i) i receipt;
    match persisted with
    | Some (Ok _) =>
        cleared ← on_store (FnClearBundle (bi_chain_id i) (bi_lane i) (bi_transaction_hash i));
        match cleared with Ok _ => _ ← forget_broadcast (bi_transaction_hash i); mret () | Err _ => mret () end
    | _ => mret ()
    end) F (adds F)) as Hgo; [|destruct receipt; [apply engine_guarded_pure|exact Hgo..]].
  apply ensures_bind. eapply ensures_mono; [by apply persist_guarded|]. intros F1 persisted [H1 Hs].
  destruct persisted as [[[]|e]|]; [|exact H1..]. specialize (Hs eq_refl).
  eapply ensures_mono with (Q := adds F1); [|unfold adds; intros; by etransitivity].
  apply engine_guarded_then; [apply guarded_effect; exists i; split; [by apply H1|split; [done|split; [done|split; [done|by right; right]]]]|].
  intros F2 [cleared|e] _; [|apply engine_guarded_pure]. apply engine_guarded_then; [apply plain_forget|]. intros. apply engine_guarded_pure.
Qed.

Lemma reconcile_chain_guarded group F :
  group_of F group → guarded (reconcile_chain group ()) F (adds F).
Proof.
  intros Hg. unfold reconcile_chain. apply ensures_bind, ensures_perform. split; [exact I|]. intros receipts.
  pose proof (engine_observe_facts F _ (RpcBatch group.1 (map receipt_call group.2)) receipts) as H1.
  destruct receipts as [receipts|e]; [|exact H1].
  set (F1 := observe _ _ _ _) in *.
  eapply ensures_mono; [apply guarded_visit with (J := λ _ _, True); [done|]|intros F2 u [H2 _]; exact (transitivity H1 H2)].
  intros entry [] F2 Hin H2 _. eapply ensures_mono; [apply reconcile_receipt_guarded|by split].
  - unfold group_of in Hg. rewrite Forall_forall in Hg. apply Hg. destruct entry as [i r]. by eapply elem_of_zip_l.
  - apply H2, H1. unfold group_of in Hg. rewrite Forall_forall in Hg. apply (Hg entry.1).
    destruct entry as [i r]. by eapply elem_of_zip_l.
  - apply H2. by apply receipts_shown.
Qed.

Lemma engine_reconcile_guarded F : guarded (reconcile_prepared_bundles self) F (adds F).
Proof.
  unfold reconcile_prepared_bundles. apply ensures_try, ensures_perform. split; [exact I|]. intros listed.
  pose proof (engine_observe_facts F _ (Store FnListBundles) listed) as H1.
  destruct listed as [intents|e]; [|exact H1].
  assert (∀ i, i ∈ intents → BundleHeld i ∈ observe F _ (Store FnListBundles) (Ok intents)) as Hi.
  { intros i Hi. apply elem_of_app. left. by apply list_elem_of_fmap_2. }
  set (F1 := observe F _ (Store FnListBundles) _) in *. clearbody F1.
  eapply ensures_mono with (Q := adds F1); [|unfold adds; intros; by etransitivity].
  apply engine_guarded_then; [by apply guarded_effect|]. intros F2 now H2.
  apply engine_guarded_then; [by apply guarded_effect|]. intros F3 before H3.
  apply ensures_bind. eapply ensures_mono; [apply guarded_visit with (J := grouped)|].
  - constructor.
  - intros i claimed F4 Hin H4 Hg. apply claim_guarded; [|done].
    apply H4, H3, H2, Hi. by eapply due_pass_subset.
  - intros F4 claimed [H4 Hg]. apply ensures_bind. eapply ensures_mono; [apply guarded_visit with (J := λ _ _, True)|].
    + done.
    + intros group [] F5 Hin H5 _. eapply ensures_mono; [apply reconcile_chain_guarded|by split].
      eapply group_mono; [exact H5|]. unfold grouped in Hg. rewrite Forall_forall in Hg. by apply Hg.
    + intros F5 u [H5 _]. exact (transitivity H4 H5).
Qed.
End Reconcile.

(** ** Simulations and their deployments *)

Section Deployments.
Context `{HA : Alloy} `{HT : !HashText} `{HK : Keccak} `{HC : Curve} `{HL : !LocalSigner} `{HS : SolCalls}
  `{SJ : SerdeJson}.
Variables PIMLICO_ARTIFACT_JSON ENTRY_POINT_V07_ARTIFACT_JSON : string.
Variable self : ExecutorEngine.
Variable chain_id : Z.

Abbreviation guarded := (ensures (permits self) observe).
Abbreviation plain := (plain self).

Lemma deployment_broadcast_guarded i F :
  DeploymentHeld i ∈ F → guarded (broadcast_deployment chain_id i) F (adds F).
Proof.
  intros Hi. unfold broadcast_deployment. destruct (parse_raw_transaction _ _) as [raw|] eqn:E; [|apply engine_guarded_pure].
  apply engine_guarded_then; [|intros; apply engine_guarded_pure]. apply guarded_effect. right. right. by exists i.
Qed.

Lemma clear_deployment_guarded i F :
  DeploymentHeld i ∈ F → deployment_done F chain_id i →
  guarded (on_store (FnClearDeployment chain_id (si_transaction_hash i))) F (adds F).
Proof. intros Hi Hd. apply guarded_effect. by exists i. Qed.

Lemma deployment_resume_guarded i F :
  DeploymentHeld i ∈ F → guarded (resume_deployment chain_id i) F (adds F).
Proof.
  intros Hi. unfold resume_deployment. apply engine_guarded_then; [by apply deployment_broadcast_guarded|]. intros F1 u H1.
  apply ensures_bind, ensures_perform. split; [exact I|]. intros answer.
  set (F2 := observe _ _ _ _). assert (F1 ⊆ F2) as H2 by apply engine_observe_facts.
  assert (∀ receipt, answer = Ok receipt → receipt_shown F2 chain_id (si_transaction_hash i) receipt) as Hs.
  { intros receipt ->. by left. }
  assert (DeploymentHeld i ∈ F2) as Hi2 by auto. clearbody F2.
  eapply ensures_mono with (Q := adds F2); [|unfold adds; intros; by etransitivity].
  destruct answer as [receipt|e]; [|apply engine_guarded_pure]. specialize (Hs receipt eq_refl).
  destruct receipt as [|b|n|s|l|o] eqn:Er; [apply engine_guarded_pure|..]; rewrite <-Er in *; clear Er;
  (destruct (receipt_succeeded receipt) as [[|]|] eqn:Eb;
    [destruct (address_from_str _) as [address|] eqn:Ea; [|apply engine_guarded_pure];
     apply ensures_bind, ensures_perform; (split; [exact I|]); intros code;
     set (F3 := observe _ _ _ _); assert (F2 ⊆ F3) as H3 by apply engine_observe_facts;
     destruct code as [code|e]; [|exact H3]; destruct (as_str code) as [text|] eqn:Et; [|exact H3];
     destruct (String.eqb_spec text "0x"); [exact H3|];
     eapply ensures_mono with (Q := adds F3); [|unfold adds; intros; by etransitivity];
     apply engine_guarded_then; [|intros; case_match; apply engine_guarded_pure];
     apply clear_deployment_guarded; [by apply H3|]; exists receipt; split; [by apply H3|];
     right; split; [done|]; exists address, code, text; split; [done|]; split; [by left|done]
    |apply engine_guarded_then; [|intros; apply engine_guarded_pure];
     apply clear_deployment_guarded; [done|]; exists receipt; split; [done|by left]
    |apply engine_guarded_pure]).
Qed.

Lemma plain_renew scope token : plain (renew self scope token).
Proof. unfold renew. plain. Qed.
Lemma plain_deployment_price tip : plain (deployment_gas_price chain_id tip).
Proof. unfold deployment_gas_price. plain. Qed.
#[local] Hint Resolve plain_renew plain_deployment_price : engine.

Lemma plain_save_deployment scope token target plan : plain (save_and_broadcast self chain_id scope token target plan).
Proof.
  unfold save_and_broadcast. apply plain_bind; [plain|]. intros [|]; cbn [negb]; [|plain].
  destruct (sign_eip1559 _ _) as [signed|e]; [|plain]. cbv zeta. intros F.
  apply ensures_bind, ensures_perform. split; [exact I|]. intros saved.
  set (F1 := observe _ _ _ _). assert (F ⊆ F1) as H1 by apply engine_observe_facts.
  eapply ensures_mono with (Q := adds F1); [|unfold adds; intros; by etransitivity].
  destruct saved as [[|]|e]; [|apply engine_guarded_pure..].
  apply engine_guarded_then; [|intros; apply engine_guarded_pure]. apply deployment_broadcast_guarded. by left.
Qed.
#[local] Hint Resolve plain_save_deployment : engine.
Lemma plain_prepare target scope token : plain (prepare_and_broadcast self chain_id target scope token).
Proof. unfold prepare_and_broadcast. plain. Qed.
#[local] Hint Resolve plain_prepare : engine.
Lemma plain_deploy contracts scope token :
  plain (deploy_missing PIMLICO_ARTIFACT_JSON ENTRY_POINT_V07_ARTIFACT_JSON self chain_id contracts scope token).
Proof. unfold deploy_missing. plain. Qed.
#[local] Hint Resolve plain_deploy : engine.

Lemma plain_ensure_locked contracts scope token :
  plain (ensure_locked PIMLICO_ARTIFACT_JSON ENTRY_POINT_V07_ARTIFACT_JSON self chain_id contracts scope token).
Proof.
  unfold ensure_locked. intros F. apply ensures_bind, ensures_perform. split; [exact I|]. intros prepared.
  set (F1 := observe _ _ _ _). assert (F ⊆ F1) as H1 by apply engine_observe_facts.
  eapply ensures_mono with (Q := adds F1); [|unfold adds; intros; by etransitivity].
  destruct prepared as [[i|]|e]; [|apply plain_deploy|apply engine_guarded_pure].
  apply engine_guarded_then; [apply deployment_resume_guarded; by left|].
  intros F2 [] _; [apply plain_deploy|apply engine_guarded_pure..].
Qed.
#[local] Hint Resolve plain_ensure_locked : engine.

Lemma plain_ensure contracts :
  plain (ensure_contracts PIMLICO_ARTIFACT_JSON ENTRY_POINT_V07_ARTIFACT_JSON self chain_id contracts).
Proof. unfold ensure_contracts. plain. Qed.
#[local] Hint Resolve plain_ensure : engine.

Variables (entry_point relayer beneficiary : Z).

Lemma plain_v1_individually ops : plain (simulate_v1_individually chain_id entry_point relayer beneficiary ops).
Proof. unfold simulate_v1_individually. plain. Qed.
Lemma plain_contracts : plain (pimlico_contracts chain_id beneficiary).
Proof. unfold pimlico_contracts. plain. Qed.
Lemma plain_pimlico op hash contracts : plain (simulate_with_pimlico chain_id entry_point op hash contracts).
Proof. unfold simulate_with_pimlico. plain. Qed.
#[local] Hint Resolve plain_v1_individually plain_contracts plain_pimlico : engine.
Lemma plain_pimlico_tier ops contracts indexes verdicts :
  plain (pimlico_tier chain_id entry_point ops contracts indexes verdicts).
Proof. unfold pimlico_tier. plain. Qed.
Lemma plain_trace_tier ops indexes verdicts :
  plain (trace_tier chain_id entry_point relayer beneficiary ops indexes verdicts).
Proof. unfold trace_tier. plain. Qed.
Lemma plain_usable :
  plain (usable_contracts PIMLICO_ARTIFACT_JSON ENTRY_POINT_V07_ARTIFACT_JSON self chain_id beneficiary).
Proof. unfold usable_contracts. plain. Qed.
#[local] Hint Resolve plain_pimlico_tier plain_trace_tier plain_usable : engine.
Lemma plain_without_v1 ops verdicts :
  plain (simulate_individually_without_v1 PIMLICO_ARTIFACT_JSON ENTRY_POINT_V07_ARTIFACT_JSON self chain_id
           entry_point relayer beneficiary ops verdicts).
Proof. unfold simulate_individually_without_v1. plain. Qed.
#[local] Hint Resolve plain_without_v1 : engine.
Lemma plain_individually ops :
  plain (simulate_individually PIMLICO_ARTIFACT_JSON ENTRY_POINT_V07_ARTIFACT_JSON self chain_id
           entry_point relayer beneficiary ops).
Proof. unfold simulate_individually. plain. Qed.

Lemma plain_v1_bundle calldata hashes : plain (simulate_v1_bundle chain_id entry_point relayer calldata hashes).
Proof. unfold simulate_v1_bundle. plain. Qed.
Lemma plain_eth_call calldata hashes :
  plain (simulate_bundle_with_eth_call chain_id entry_point relayer calldata hashes).
Proof. unfold simulate_bundle_with_eth_call. plain. Qed.
Lemma plain_trace calldata hashes : plain (trace_bundle chain_id entry_point relayer calldata hashes).
Proof. unfold trace_bundle. plain. Qed.
#[local] Hint Resolve plain_v1_bundle plain_eth_call plain_trace : engine.
Lemma plain_bundle_without_v1 calldata hashes :
  plain (simulate_bundle_without_v1 PIMLICO_ARTIFACT_JSON ENTRY_POINT_V07_ARTIFACT_JSON self chain_id
           entry_point relayer beneficiary calldata hashes).
Proof. unfold simulate_bundle_without_v1. plain. Qed.
#[local] Hint Resolve plain_bundle_without_v1 : engine.
Lemma plain_or_last calldata hashes turn :
  plain (bundle_or_last PIMLICO_ARTIFACT_JSON ENTRY_POINT_V07_ARTIFACT_JSON self chain_id
           entry_point relayer beneficiary calldata hashes turn).
Proof. unfold bundle_or_last. plain. Qed.
#[local] Hint Resolve plain_or_last : engine.
Lemma plain_bundle ops :
  plain (Deployer.simulate_bundle PIMLICO_ARTIFACT_JSON ENTRY_POINT_V07_ARTIFACT_JSON self chain_id
           entry_point relayer beneficiary ops).
Proof. unfold Deployer.simulate_bundle. plain. Qed.
End Deployments.
#[export] Hint Resolve plain_individually plain_bundle : engine.

(** ** The arms *)

(** [ensures_drive] for the loop that keeps its state. *)
Lemma ensures_drive_state {E : Type → Type} {G Op Rep L A} (permits : G → ∀ R, E R → Prop)
    (observe : G → ∀ R, E R → R → G) (arm : L → Op → io E (L * Rep))
    (I : trace Op Rep → Op → Prop) (Rel : trace Op Rep → G → Prop) (p : prog Op Rep A) l h g Q :
  wp I p h Q → Rel h g →
  (∀ l h g op, Rel h g → I h op → ensures permits observe (arm l op) g (λ g' lr, Rel (h ++ [(op, lr.2)]) g')) →
  ensures permits observe (drive_batch_state arm l p) g (λ g' la, ∃ h', Rel h' g' ∧ Q h' la.2).
Proof.
  intros Hp HR Harm. revert l h g Hp HR. induction p as [a|op k IH]; intros l h g Hp HR.
  - exists h. done.
  - destruct Hp as [HI Hk]. apply ensures_bind. eapply ensures_mono; [by apply Harm|]. intros g' lr HR'. by eapply IH.
Qed.

Section Arms.
Context `{HA : Alloy} `{HT : !HashText} `{HK : Keccak} `{HC : Curve} `{HL : !LocalSigner}
  `{HS : SolCalls} `{TC : TokenCalls} `{LC : LowerCase} `{W : TargetWidth} `{SJ : SerdeJson}.
Variable tip_window_of : Value → option TipWindow.
Variable json_to_vec : Value → list byte.
Variables PIMLICO_ARTIFACT_JSON ENTRY_POINT_V07_ARTIFACT_JSON : string.
Variable self : ExecutorEngine.

Abbreviation guarded := (ensures (permits self) observe).
Abbreviation plain := (plain self).
Abbreviation batch_guarded := (ensures (batch_permits self) batch_observe).
Abbreviation batch_plain := (batch_plain self).

Section Batch.
Variables (batch : list RoutedUserOperation) (policy : ExecutionPolicy) (chain_id lane : Z)
  (lease_token treasury_token : string).

Lemma plain_stored {A} (f : StoreFn A) answer :
  (∀ F, store_permits self F f) → plain (ask_store f answer).
Proof. intros Hf. unfold ask_store. plain. apply plain_perform. exact Hf. Qed.
Lemma plain_with_operation index f : (∀ operation, plain (f operation)) → plain (with_operation batch index f).
Proof. intros Hf. unfold with_operation. case_match; [apply Hf|apply plain_panic]. Qed.
Lemma plain_market symbol : plain (market_usd_price symbol).
Proof. unfold market_usd_price, fetch_market_price, binance_usdt_price. plain. Qed.
Lemma plain_directory_assets : plain (directory_usd_stable_assets self chain_id).
Proof. unfold directory_usd_stable_assets. plain. Qed.
#[local] Hint Resolve plain_market plain_directory_assets : engine.
Lemma plain_assets : plain (chain_assets_for self chain_id).
Proof. unfold chain_assets_for. plain. Qed.
Lemma plain_batch_or_text calls : plain (batch_or_text chain_id calls).
Proof. unfold batch_or_text. plain. Qed.
#[local] Hint Resolve plain_assets plain_batch_or_text : engine.
Lemma plain_context entry_point calldata :
  plain (transaction_context tip_window_of policy chain_id entry_point calldata).
Proof. unfold transaction_context, legacy_gas_price. plain. Qed.
Lemma plain_contexts amount :
  plain (tempo_transaction_context policy chain_id) ∧ plain (treasury_context self policy chain_id) ∧
  plain (tempo_treasury_context self policy chain_id amount).
Proof. split; [|split]; [unfold tempo_transaction_context|unfold treasury_context|unfold tempo_treasury_context]; plain. Qed.
Lemma plain_nonces entry_point probes : plain (fetch_account_nonces chain_id entry_point probes).
Proof. unfold fetch_account_nonces. plain. Qed.
Lemma plain_dead_letter operation reason : plain (dead_letter_routed json_to_vec self operation reason).
Proof. unfold dead_letter_routed. plain. Qed.
Lemma plain_notify stage hash reason : plain (notify_executor_issue self chain_id stage hash reason).
Proof. unfold notify_executor_issue. plain. Qed.
Lemma plain_with_key sign : plain (with_relayer_key self lane sign).
Proof. unfold with_relayer_key. plain. Qed.
Lemma plain_abort running scope : plain (abort_heartbeat running scope).
Proof. unfold abort_heartbeat. plain. Qed.
#[local] Hint Resolve plain_context plain_nonces plain_dead_letter plain_notify plain_with_key plain_abort : engine.
Lemma plain_release_treasury s : plain (release_treasury_lease chain_id treasury_token s).
Proof. unfold release_treasury_lease. plain. Qed.
#[local] Hint Resolve plain_release_treasury : engine.
Lemma plain_finish s : plain (finish_batch chain_id lane lease_token treasury_token s).
Proof. unfold finish_batch. plain. Qed.

(** What an answer of an arm says of the facts. *)
Definition learnt (F : list Fact) (op : ExecutionOperation) (r : ExecutionOutcome) : Prop :=
  match op, r with
  | ProbeTransactionKnown hash, Known known => if known then noticed F hash else unknown_to F hash
  | ProbeStaleNonce i, Stale true => nonce_spent self F i
  | CheckBroadcastSeen hash, Seen true => noticed F hash
  | BroadcastRaw _ hash, Sent (ReplyAccepted hash') => eq_ignore_ascii_case hash' hash = true → noticed F hash
  | LoadPreparedBundle, OutIntent (Some i) | SavePreparedBundle i, Saved true => BundleHeld i ∈ F
  | LoadPreparedFunding, FundingIntent (Some i) | SaveFundingIntent i, Saved true => FundingHeld i ∈ F
  | FetchTransactionReceipt hash, Receipt (Some receipt) => receipt_shown F chain_id hash receipt
  | _, _ => True
  end.

Definition evidence (op : ExecutionOperation) : bool :=
  match op with
  | ProbeTransactionKnown _ | ProbeStaleNonce _ | CheckBroadcastSeen _ | BroadcastRaw _ _ | LoadPreparedBundle
  | SavePreparedBundle _ | LoadPreparedFunding | SaveFundingIntent _ | FetchTransactionReceipt _ => true
  | _ => false
  end.

Definition probed (h : ExecutionTrace) (F : list Fact) : Prop := ∀ op r, (op, r) ∈ h → learnt F op r.

Lemma engine_learnt_mono F F' op r : F ⊆ F' → learnt F op r → learnt F' op r.
Proof.
  intros HF. destruct op; try done; destruct r; cbn [learnt]; try done; try case_match; try done; try apply HF;
    try (intros Hn ?); try (intros Hn; first [by eapply noticed_mono|by eapply unknown_mono|by eapply nonce_spent_mono]).
  eapply noticed_mono; [exact HF|]. by apply Hn.
Qed.

Lemma engine_probed_snoc h F F' op r : F ⊆ F' → probed h F → learnt F' op r → probed (h ++ [(op, r)]) F'.
Proof.
  intros HF Hp Hl op' r' [Hin|Hin]%elem_of_app.
  - eapply engine_learnt_mono; [exact HF|by apply Hp].
  - by apply list_elem_of_singleton in Hin as [= -> ->].
Qed.

Definition teaches (F : list Fact) (op : ExecutionOperation) (F' : list Fact) (lr : BatchState * ExecutionOutcome) : Prop :=
  F ⊆ F' ∧ learnt F' op lr.2.

(** An arm whose answers tell nothing only has to add facts. *)
Lemma engine_arm_adds F op (m : engine (BatchState * ExecutionOutcome)) :
  evidence op = false → guarded m F (adds F) → guarded m F (teaches F op).
Proof. intros Hop Hm. eapply ensures_mono; [exact Hm|]. intros F' lr HF. split; [exact HF|]. by destruct op. Qed.

Lemma arm_keeps F op s (m : engine ExecutionOutcome) :
  guarded m F (λ F' r, F ⊆ F' ∧ learnt F' op r) → guarded (keep s m) F (teaches F op).
Proof. intros Hm. apply ensures_bind. by eapply ensures_mono; [exact Hm|]. Qed.

Lemma stored_learns {A} (f : StoreFn A) answer F op :
  store_permits self F f → (∀ error, learnt F op (OutFailed error)) →
  (∀ a, learnt (observe F _ (Store f) (Ok a)) op (answer a)) →
  guarded (ask_store f answer) F (λ F' r, F ⊆ F' ∧ learnt F' op r).
Proof.
  intros Hf He Ha. apply ensures_bind, ensures_perform. split; [exact Hf|]. intros [a|error].
  - split; [apply engine_observe_facts|apply Ha].
  - split; [apply engine_observe_facts|]. eapply engine_learnt_mono; [apply engine_observe_facts|apply He].
Qed.

Lemma engine_save_learns i F :
  guarded (save_prepared_bundle self i) F (λ F' r, F ⊆ F' ∧ learnt F' (SavePreparedBundle i) r).
Proof.
  unfold save_prepared_bundle. apply ensures_bind, ensures_perform. split; [exact I|]. intros saved.
  pose proof (engine_observe_facts F _ (Store (FnSaveBundle i)) saved) as H1. destruct saved as [[|]|error]; [|by split..].
  apply ensures_bind. eapply ensures_mono; [apply plain_arm|]. intros F' u H2. split; [by etransitivity|].
  apply H2. by left.
Qed.

Lemma broadcast_learns raw hash F :
  outboxed F raw → guarded (broadcast_raw chain_id raw) F (λ F' r, F ⊆ F' ∧ learnt F' (BroadcastRaw raw hash) r).
Proof.
  intros Ho. apply ensures_bind, ensures_perform. split; [exact Ho|]. intros outcome.
  pose proof (engine_observe_facts F _ (RpcBroadcast chain_id raw) outcome) as H1.
  destruct outcome as [[hash'|reason|reason]|error]; (split; [exact H1|]); try exact I.
  intros Heq. right. left. exists hash'. split; [by left|done].
Qed.

Lemma receipt_learns hash F :
  guarded (fetch_receipt chain_id hash) F (λ F' r, F ⊆ F' ∧ learnt F' (FetchTransactionReceipt hash) r).
Proof.
  apply ensures_bind, ensures_perform. split; [exact I|]. intros answer.
  split; [apply engine_observe_facts|]. destruct answer as [[]|error]; try exact I; by left.
Qed.

Lemma submitted_guarded i F : noticed F (bi_transaction_hash i) → guarded (mark_submitted self chain_id i) F (adds F).
Proof.
  intros Hn. unfold mark_submitted. apply engine_guarded_then; [by apply guarded_effect|]. intros F1 [indexed|error] _; [|apply engine_guarded_pure].
  apply engine_guarded_then; [apply plain_arm|]. intros. apply engine_guarded_pure.
Qed.

Lemma engine_stored_outboxed h F raw hash : probed h F → stored h raw hash → outboxed F raw.
Proof.
  intros Hp (text & Hv & [(i & Hi & <- & <-)|(i & Hi & <- & <-)]).
  - left. exists i. split; [exact (Hp _ _ Hi)|done].
  - right. left. exists i. split; [|done]. destruct Hi as [Hi|Hi]; exact (Hp _ _ Hi).
Qed.

Lemma observed_noticed h F hash : probed h F → observed h hash → noticed F hash.
Proof. intros Hp [Hi|[(raw & hash' & Hi & He)|Hi]]; [exact (Hp _ _ Hi)|exact (Hp _ _ Hi He)|exact (Hp _ _ Hi)]. Qed.

Abbreviation arm := (execute tip_window_of json_to_vec PIMLICO_ARTIFACT_JSON ENTRY_POINT_V07_ARTIFACT_JSON self
  batch policy chain_id lane lease_token treasury_token).

(** Every arm keeps the guard when the core keeps its rule for it. *)
Lemma engine_execute_guarded Pay s h F op :
  probed h F → allowed Pay h op → guarded (arm s op) F (teaches F op).
Proof.
  intros Hp [_ Hrule]. destruct op; cbn [execute];
    try solve [apply engine_arm_adds; [done|]; apply plain_bind; [|intros; apply plain_pure];
               first [solve [plain]|apply plain_stored; intros; exact I
                     |apply plain_with_operation; intros; first [apply plain_stored; intros; exact I|plain]]].
  - (* AcquireLaneLease *) apply engine_arm_adds; [done|]. unfold acquire_lane_lease. apply plain_bind; intros; plain.
  - apply arm_keeps, stored_learns; [exact I|done|]. intros [i|]; [by left|exact I].
  - (* ResumeBundleIntent *) apply engine_arm_adds; [done|]. apply engine_guarded_then; [|intros; apply engine_guarded_pure].
    apply engine_guarded_then; [apply engine_resume_guarded, (Hp _ _ Hrule)|intros; apply engine_guarded_pure].
  - (* FetchMarketPrice *) apply engine_arm_adds; [done|]. apply plain_bind; [|intros; apply plain_pure].
    unfold market_price. case_match; plain.
  - (* AcquireTreasuryLease *) apply engine_arm_adds; [done|]. unfold acquire_treasury_lease. apply plain_bind; intros; plain.
  - apply arm_keeps, stored_learns; [exact I|done|]. intros [i|]; [by left|exact I].
  - apply arm_keeps, stored_learns; [exact I|done|]. intros [|]; [by left|exact I].
  - (* ClearFundingIntent *) apply engine_arm_adds; [done|]. apply engine_guarded_then; [|intros; apply engine_guarded_pure].
    unfold ask_store. apply engine_guarded_then; [|intros; apply engine_guarded_pure]. apply guarded_effect.
    destruct Hrule as [Hk|[receipt Hr]]; [left; exact (Hp _ _ Hk)|right; exists chain_id, receipt; exact (Hp _ _ Hr)].
  - apply arm_keeps, receipt_learns.
  - apply arm_keeps, engine_save_learns.
  - (* CheckBroadcastSeen *) apply arm_keeps, ensures_bind, seen_guarded. intros F' [|] HF Hs; (split; [done|]); [by apply Hs|done].
  - apply arm_keeps, broadcast_learns. by eapply engine_stored_outboxed.
  - apply arm_keeps, ensures_bind, engine_known_guarded. intros F' known HF Hk. by split.
  - apply arm_keeps, ensures_bind, engine_stale_guarded. intros F' [|] HF Hs; (split; [done|]); [by apply Hs|done].
  - (* ClearStaleIntent *) apply engine_arm_adds; [done|]. apply engine_guarded_then; [|intros; apply engine_guarded_pure].
    apply engine_guarded_then; [|intros; apply engine_guarded_pure]. destruct Hrule as (Hs & Hk & Hn).
    apply engine_clear_stale_guarded; [exact (Hp _ _ Hs)|]. right. left. split; [exact (Hp _ _ Hk)|exact (Hp _ _ Hn)].
  - (* MarkBundleSubmitted *) apply engine_arm_adds; [done|]. apply engine_guarded_then; [|intros; apply engine_guarded_pure].
    apply submitted_guarded. destruct Hrule as [_ Ho]. by eapply observed_noticed.
Qed.

(** Neither does the fence need evidence of its own. *)
Lemma fenced_guarded Pay s h F op :
  probed h F → allowed Pay h op →
  batch_guarded (execute_fenced tip_window_of json_to_vec PIMLICO_ARTIFACT_JSON ENTRY_POINT_V07_ARTIFACT_JSON self
             batch policy chain_id lane lease_token treasury_token s op) F
    (teaches F op).
Proof.
  intros Hp Ha. unfold execute_fenced. destruct (bookkeeping op); [by eapply working_guarded, engine_execute_guarded|].
  assert (∀ F' reason, learnt F' op (Interrupted reason)) as Hi by (by destruct op).
  apply ensures_bind, ensures_perform. split; [exact I|]. intros [reason|]; [split; [done|apply Hi]|].
  apply ensures_bind, ensures_perform. split; [exact I|]. intros ready.
  assert (batch_guarded (if ready : bool then until_interrupted (arm s op) else mret None) F
    (λ F' outcome, F ⊆ F' ∧ ∀ lr, outcome = Some lr → teaches F op F' lr)) as Hm.
  { destruct ready; [|by split]. eapply until_guarded; [by eapply engine_execute_guarded|by split|].
    intros F' lr HF Hl. split; [done|]. by intros lr' [= <-]. }
  apply ensures_bind. eapply ensures_mono; [exact Hm|]. intros F' [lr|] [HF Hl]; [by apply Hl|].
  apply ensures_bind, ensures_perform. split; [exact I|]. intros reason. split; [exact HF|apply Hi].
Qed.
End Batch.

(** ** The tasks *)

Abbreviation handle := (handle_lane_batch tip_window_of json_to_vec PIMLICO_ARTIFACT_JSON
  ENTRY_POINT_V07_ARTIFACT_JSON self).

Lemma handle_plain operations : batch_plain (handle operations).
Proof.
  intros F. destruct operations as [|first operations]; [exact (reflexivity _)|]. unfold handle_lane_batch. cbv zeta.
  destruct (relayer_of_lane self (r_lane first)) as [relayer|]; [|apply working_plain, plain_panic].
  apply batch_then; [apply working_plain, plain_token|]. intros F1 lease_token _.
  apply batch_then; [apply working_plain, plain_token|]. intros F2 treasury_token _.
  apply batch_then; [|intros F3 [state [resolutions|]] _;
                      [apply batch_then; [apply working_plain, plain_finish|intros; exact (reflexivity _)]
                      |apply working_plain, plain_panic]].
  eapply ensures_mono; [eapply ensures_drive_state with (h := []) (Rel := λ h F3, F2 ⊆ F3 ∧ probed (r_chain_id first) h F3);
    [apply drive_safe| |]|intros F3 la (h' & [HF _] & _); exact HF].
  - split; [done|]. intros op r Hin. by apply elem_of_nil in Hin.
  - intros s h F3 op [HF Hp] Ha. eapply ensures_mono; [by eapply fenced_guarded|].
    intros F4 lr [HF4 Hl]. split; [by etransitivity|by apply engine_probed_snoc with F3].
Qed.

Lemma malformed_plain operation : plain (handle_malformed self operation).
Proof. unfold handle_malformed. plain. Qed.

Lemma delayed_lane_plain token claims :
  batch_plain (process_delayed_lane tip_window_of json_to_vec PIMLICO_ARTIFACT_JSON ENTRY_POINT_V07_ARTIFACT_JSON self token claims).
Proof.
  unfold process_delayed_lane. intros F. apply batch_then; [apply handle_plain|]. intros F1 outcomes _.
  case_decide; [|exact (reflexivity _)]. apply batch_then; [|intros; exact (reflexivity _)].
  apply working_plain, plain_visit. intros [claim outcome] first_error. unfold finalize_delayed. plain.
Qed.

Lemma delayed_plain : plain (reconcile_delayed_user_operations self).
Proof. unfold reconcile_delayed_user_operations. plain. Qed.

Lemma reconciler_plain turns : plain (run_reconciler self turns).
Proof.
  induction turns as [|turns IH]; cbn [run_reconciler]; [plain|].
  apply plain_bind; [plain|]. intros [bundles|]; [|plain].
  apply plain_bind; [destruct bundles; [intros F; apply engine_reconcile_guarded|apply delayed_plain]|].
  intros [u|e]; [exact IH|]. apply plain_bind; [plain|]. intros [|]; [plain|exact IH].
Qed.
End Arms.

(** ** Every effect of every run *)

(** What a monitor allows holds where the effect is. *)
Lemma accepted_at {E : Type → Type} {G} (permits : G → ∀ R, E R → Prop) (observe : G → ∀ R, E R → R → G) g before
    {R} (e : E R) r after :
  accepted permits observe g (before ++ answered e r :: after) → permits (observed_all observe g before) R e.
Proof.
  revert g. induction before as [|[T [e' r']] before IH]; intros g Ha; [exact (proj1 Ha)|]. exact (IH _ (proj2 Ha)).
Qed.

Section Property.
Context `{HA : Alloy} `{HT : !HashText} `{HK : Keccak} `{HC : Curve} `{HL : !LocalSigner}
  `{HS : SolCalls} `{TC : TokenCalls} `{LC : LowerCase} `{W : TargetWidth} `{SJ : SerdeJson}.
Variable tip_window_of : Value → option TipWindow.
Variable json_to_vec : Value → list byte.
Variables PIMLICO_ARTIFACT_JSON ENTRY_POINT_V07_ARTIFACT_JSON : string.
Variable self : ExecutorEngine.

(** The tasks of the executor: a consumed batch, a message nobody can read, the
    reconciler, and one lane of the delayed inbox. *)
Inductive ExecutorTask : Type :=
  | BatchTask (operations : list RoutedUserOperation)
  | MalformedTask (operation : MalformedUserOperation)
  | ReconcilerTask (turns : nat)
  | DelayedTask (token : string) (claims : list ClaimedDelayedUserOperation).

Definition task_program (task : ExecutorTask) : batching () :=
  match task with
  | BatchTask operations =>
      _ ← handle_lane_batch tip_window_of json_to_vec PIMLICO_ARTIFACT_JSON ENTRY_POINT_V07_ARTIFACT_JSON self operations;
      mret tt
  | MalformedTask operation => _ ← working (handle_malformed self operation); mret tt
  | ReconcilerTask turns => working (run_reconciler self turns)
  | DelayedTask token claims =>
      _ ← process_delayed_lane tip_window_of json_to_vec PIMLICO_ARTIFACT_JSON ENTRY_POINT_V07_ARTIFACT_JSON self
            token claims;
      mret tt
  end.

Lemma task_guarded task : batch_plain self (task_program task).
Proof.
  intros F. destruct task as [operations|operation|turns|token claims]; cbn [task_program].
  - apply batch_then; [apply handle_plain|intros; exact (reflexivity _)].
  - apply batch_then; [apply working_plain, malformed_plain|intros; exact (reflexivity _)].
  - apply working_plain, reconciler_plain.
  - apply batch_then; [apply delayed_lane_plain|intros; exact (reflexivity _)].
Qed.

(** What the effects of a run have told it. *)
Definition facts_of (t : list (Answered BatchCall)) : list Fact := observed_all batch_observe [] t.

(** C7: The server's executor acts on evidence.  In every run of a batch, the
    reconciler, a lane of the delayed inbox or a dead letter, whatever the
    store, the endpoints, the latch and the maps answer, every effect is one its
    own earlier answers support: a broadcast sends the bytes of a bundle, a
    top-up or a deployment that an outbox was seen to hold; members are marked
    submitted only if the network was seen to have the transaction, failed or
    confirmed only with a receipt that says so; and a prepared bundle is cleared
    only if the run itself read it from an outbox or saved it, and that very
    bundle's members are all done, or its nonce is spent and no endpoint knows
    it, or its receipt's outcome was stored. *)
Theorem executor_acts_on_evidence task t before R (e : BatchCall R) r after :
  io_runs (task_program task) t tt → t = before ++ answered e r :: after →
  batch_permits self (facts_of before) R e.
Proof.
  intros Hr ->. destruct (ensures_runs _ _ _ _ _ _ _ (task_guarded task []) Hr) as [Ha _]. by eapply accepted_at.
Qed.

(** ** After the lease is lost *)

(** What a batch knows of its latch; [Torn] if the latch contradicted itself. *)
Inductive Latch : Type := Whole | Tripped | Torn.

Definition latch_says (tripped : bool) (l : Latch) : Latch :=
  match l, tripped with
  | Whole, true => Tripped
  | Tripped, false => Torn
  | l, _ => l
  end.

Definition latch_observe (l : Latch) (R : Type) (e : BatchCall R) : R → Latch :=
  match e in BatchCall R return R → Latch with
  | InterruptReason => λ reason, latch_says (match reason with Some _ => true | None => false end) l
  | NotInterrupted => λ ok, latch_says (negb ok) l
  | Work _ => λ _, l
  end.

(** Diagnostics, alerts, the broadcast memory and the end of the leases. *)
Definition engine_bookkeeping (R : Type) (e : EngineCall R) : Prop :=
  match e with
  | Store (FnRecordDeferred _ _ _) | Store (FnReleaseLease _ _) | SpawnAlert _ _ _ _ | AbortHeartbeat _
  | BroadcastSeen _ | InstantNow => True
  | _ => False
  end.
Definition bookkeeping_call (R : Type) (e : BatchCall R) : Prop :=
  match e with Work e => engine_bookkeeping _ e | InterruptReason => True | NotInterrupted => False end.

(** An effect that is never answered is a panic. *)
Definition latch_permits (l : Latch) (R : Type) (e : BatchCall R) : Prop :=
  l = Tripped → bookkeeping_call R e ∨ (R → False).

Abbreviation fenced := (ensures latch_permits latch_observe).
Abbreviation books := (yields engine_bookkeeping).

Lemma fenced_working {A} (p : engine A) l : l ≠ Tripped → fenced (working p) l (λ l' _, l' = l).
Proof. intros Hl. induction p as [a|T e k IH]; [done|]. split; [by intros Ht; destruct (Hl Ht)|]. intros r. apply IH. Qed.
Lemma fenced_books {A} (p : engine A) l : books p (λ _, True) → fenced (working p) l (λ l' _, l' = l).
Proof.
  induction p as [a|T e k IH]; [done|]. intros [He Hk]. split; [by intros _; left|]. intros r. apply IH, Hk.
Qed.
Lemma fenced_until {A} (p : engine A) l : l ≠ Tripped → fenced (until_interrupted p) l (λ _ _, True).
Proof.
  intros Hl. induction p as [a|T e k IH]; [done|]. split; [by intros Ht; destruct (Hl Ht)|]. intros r. cbn [latch_observe].
  destruct (awaits T e); [|apply IH]. split; [by intros Ht; destruct (Hl Ht)|]. intros [|]; [|done].
  replace (latch_observe l bool NotInterrupted true) with l by (by destruct l). apply IH.
Qed.

Section Fence.
Variables (batch : list RoutedUserOperation) (policy : ExecutionPolicy) (chain_id lane : Z)
  (lease_token treasury_token : string).

Lemma books_abort running scope : books (abort_heartbeat running scope) (λ _, True).
Proof. by destruct running. Qed.
Lemma books_release s : books (release_treasury_lease chain_id treasury_token s) (λ _, True).
Proof.
  unfold release_treasury_lease. apply yields_bind. eapply yields_mono; [apply books_abort|]. intros [] _.
  by destruct (bs_treasury_lease_acquired s).
Qed.
Lemma books_finish s : books (finish_batch chain_id lane lease_token treasury_token s) (λ _, True).
Proof.
  unfold finish_batch. apply yields_bind. eapply yields_mono; [apply books_release|]. intros s' _.
  apply yields_bind. eapply yields_mono; [apply books_abort|]. intros [] _. by destruct (bs_lease_acquired s').
Qed.

Lemma books_execute s op :
  bookkeeping op = true →
  books (execute tip_window_of json_to_vec PIMLICO_ARTIFACT_JSON ENTRY_POINT_V07_ARTIFACT_JSON self
           batch policy chain_id lane lease_token treasury_token s op) (λ _, True).
Proof.
  destruct op; try discriminate; intros _; cbn [execute]; try done.
  - apply yields_bind, yields_bind, yields_mono with (Q := λ _, True); [|done].
    unfold notify_executor_issue. by repeat case_match.
  - apply yields_bind. eapply yields_mono; [apply books_release|done].
Qed.

Lemma execute_fenced_fenced s op l :
  fenced (execute_fenced tip_window_of json_to_vec PIMLICO_ARTIFACT_JSON ENTRY_POINT_V07_ARTIFACT_JSON self
            batch policy chain_id lane lease_token treasury_token s op) l (λ _ _, True).
Proof.
  unfold execute_fenced. destruct (bookkeeping op) eqn:Eb.
  { eapply ensures_mono; [by apply fenced_books, books_execute|done]. }
  apply ensures_bind, ensures_perform. split; [by intros _; left|]. intros [reason|]; [done|].
  assert (latch_observe l _ InterruptReason None ≠ Tripped) as Hl by (by destruct l).
  set (l1 := latch_observe _ _ _ _) in *. clearbody l1.
  apply ensures_bind, ensures_perform. split; [by intros ->|]. intros ready.
  apply ensures_bind. apply ensures_mono with (Q := λ _ _, True).
  - destruct ready; [|done]. apply fenced_until. by destruct l1.
  - intros l2 [outcome|] _; [done|]. apply ensures_bind, ensures_perform. split; [by intros _; left|done].
Qed.
End Fence.

Lemma handle_fenced operations :
  fenced (handle_lane_batch tip_window_of json_to_vec PIMLICO_ARTIFACT_JSON ENTRY_POINT_V07_ARTIFACT_JSON self operations)
    Whole (λ _ _, True).
Proof.
  destruct operations as [|first operations]; [done|]. unfold handle_lane_batch. cbv zeta.
  destruct (relayer_of_lane self (r_lane first)) as [relayer|];
    [|eapply ensures_mono; [by apply fenced_working|done]].
  apply ensures_bind. eapply ensures_mono; [by apply fenced_working|]. intros ? lease_token ->.
  apply ensures_bind. eapply ensures_mono; [by apply fenced_working|]. intros ? treasury_token ->.
  apply ensures_bind. apply ensures_mono with (Q := λ _ _, True).
  - generalize Whole, fresh_state. match goal with |- context [drive_batch ?b] => generalize (drive_batch b) end.
    induction p as [resolutions|op k IH]; intros l s; [done|]. apply ensures_bind.
    eapply ensures_mono; [apply execute_fenced_fenced|]. intros l' lr _. apply IH.
  - intros l [state [resolutions|]] _.
    + apply ensures_bind. eapply ensures_mono; [by apply fenced_books, books_finish|done].
    + split; [by intros _; right; intros []|intros []].
Qed.

(** C8: A batch that lost a lease stops acting.  In every run of a batch, once
    the latch its heartbeats trip was seen tripped, and as long as the latch
    stays so, every further effect is bookkeeping - a retry diagnostic, an
    alert, the broadcast memory, the end of a heartbeat or of a lease: no
    endpoint is asked or sent anything, and nothing is claimed, saved, marked
    or cleared in the store. *)
Theorem lost_lease_stops_the_batch operations t outcomes before R (e : BatchCall R) r after :
  io_runs (handle_lane_batch tip_window_of json_to_vec PIMLICO_ARTIFACT_JSON ENTRY_POINT_V07_ARTIFACT_JSON self
             operations) t outcomes →
  t = before ++ answered e r :: after → observed_all latch_observe Whole before = Tripped →
  bookkeeping_call R e.
Proof.
  intros Hr -> Ht. destruct (ensures_runs _ _ _ _ _ _ _ (handle_fenced operations) Hr) as [Ha _].
  apply accepted_at in Ha. rewrite Ht in Ha. destruct (Ha eq_refl) as [?|Hno]; [done|by destruct (Hno r)].
Qed.
End Property.

(** ** A reconciler over one settled bundle, and a batch whose lease is gone *)

#[local] Instance engine_curve : Curve :=
  {| SecretKey := list byte; hkdf_sha256 _ _ _ := repeat x01 32; from_slice := Some;
     public_point _ := repeat x02 65 |}.
#[local] Instance engine_signer : LocalSigner := {| sign_hash _ _ := None; seal_eip1559 _ _ := None |}.
#[local] Instance engine_tokens : TokenCalls :=
  {| encode_balance_of _ := []; encode_transfer _ _ := []; get_nonce_selector := [] |}.
#[local] Instance engine_json : SerdeJson := {| json_from_slice _ := Err "not JSON"; derive_error _ _ := "" |}.

Definition example_config : ExecutorConfig :=
  {| xc_operator_secret := String.concat "" (repeat "01" 32); xc_pool_width := 8; xc_max_bundle_operations := 4;
     xc_lease_ttl := 30000; xc_receipt_poll_interval := 3000; xc_attempt_ttl := 86400000;
     xc_gas_buffer_bps := 1500; xc_fixed_gas_buffer := 30000; xc_settlement_markup_bps := 0;
     xc_settlement_inclusion_floor_bps := 12500; xc_settlement_hold_max_attempts := 12;
     xc_relayer_float_min_wei := 10 ^ 16; xc_relayer_float_target_wei := 10 ^ 17;
     xc_relayer_float_cost_multiplier := 3; xc_treasury_floor_wei := 10 ^ 16; xc_top_up_max_wei := 10 ^ 18;
     xc_telegram_bot_token := None; xc_telegram_chat_id := None; xc_telegram_cooldown := 0 |}.

Definition example_engine : ExecutorEngine :=
  {| en_config := example_config; en_relayer_keys := replicate 8 (repeat x01 32); en_relayer_addresses := replicate 8 7;
     en_treasury_key := repeat x01 32; en_treasury_address := 9 |}.

Definition example_bundle : PreparedBundleIntent :=
  {| bi_chain_id := 1; bi_lane := 0; bi_entry_point := batch_entry_point; bi_raw_transaction := batch_raw;
     bi_transaction_hash := batch_transaction; bi_nonce := 5; bi_user_operation_hashes := [batch_hash];
     bi_billed_gas := None; bi_billed_fee_per_gas := None |}.

Definition example_record : StoredUserOperation :=
  {| status := Included; transaction_hash := None; chain_id := 1; chain_id_text := "1";
     entry_point := batch_entry_point; user_operation := V0_7 batch_operation; admitted := true;
     next_receipt_check_at_ms := 0; block_hash := None; block_number := None; receipt := None;
     event := None; last_executor_stage := None; last_executor_error := None;
     last_executor_attempt_at_ms := None; rejection_reason := None |}.

(** A store that holds the bundle, whose member is included. *)
Definition example_store {A} (f : StoreFn A) : result StoreError A :=
  match f in StoreFn A return result StoreError A with
  | FnListBundles => Ok [example_bundle]
  | FnGetMany hashes => Ok (map (λ _, Some example_record) hashes)
  | FnClearBundle _ _ _ => Ok true
  | _ => Err "down"
  end.

Definition example_effect {R} (e : EngineCall R) : option R :=
  match e in EngineCall R return option R with
  | Store f => Some (example_store f)
  | InstantNow | ProcessId | UnixNanos | NextLeaseToken | NextAlertToken => Some 1
  | BroadcastSeen _ | ReceiptDue _ => Some ∅
  | CachedAssets _ => Some None
  | CacheAssets _ _ => Some tt
  | CachedMarketPrice _ => Some None
  | CacheMarketPrice _ _ _ => Some tt
  | SupportsChain _ => Some true
  | RpcCall _ _ _ => Some (Ok VNull)
  | RpcCallWalk _ _ _ => Some (Ok VNull, [])
  | RpcSimulate _ _ _ => Some (Ok VNull)
  | RpcBatch _ _ => Some (Ok [])
  | RpcBatchWalk _ _ => Some (Ok [], [])
  | RpcBroadcast _ _ => Some (Ok (BroadcastAmbiguous "timeout"))
  | RpcLacksMethod _ _ => Some false
  | RpcNoteWalk _ _ _ => Some tt
  | FetchChainMetadata _ => Some None
  | FetchTicker _ => Some None
  | SendTelegram _ => Some true
  | TripInterrupt _ | SpawnHeartbeat _ _ | AbortHeartbeat _ | HeartbeatTick | SpawnAlert _ _ _ _ | Sleep _
  | SpawnDelayedLane _ _ => Some tt
  | JoinNextLane => Some (Ok ())
  | NextTick => Some (Some true)
  | SleepOrShutdown _ => Some false
  | Engine.Panic => None
  end.

(** The latch is tripped from the start. *)
Definition example_call {R} (e : BatchCall R) : option R :=
  match e in BatchCall R return option R with
  | Work e => example_effect e
  | InterruptReason => Some (Some "executor lease was lost")
  | NotInterrupted => Some false
  end.

(** A program against answers that may be missing. *)
Fixpoint run_with {E : Type → Type} {A} (answer : ∀ R, E R → option R) (p : io E A) : option (list (Answered E) * A) :=
  match p with
  | Pure a => Some ([], a)
  | Vis e k =>
      match answer _ e with
      | Some r =>
          match run_with answer (k r) with
          | Some (t, a) => Some (answered e r :: t, a)
          | None => None
          end
      | None => None
      end
  end.

Lemma run_with_runs {E : Type → Type} {A} (answer : ∀ R, E R → option R) (p : io E A) t a :
  run_with answer p = Some (t, a) → io_runs p t a.
Proof.
  revert t. induction p as [b|R e k IH]; intros t; cbn [run_with]; [intros [= <- <-]; constructor|].
  destruct (answer R e) as [r|]; [|done]. destruct (run_with answer (k r)) as [[t' a']|] eqn:Et; [|done].
  intros [= <- ->]. constructor. by apply IH.
Qed.

(** Whether every effect had its answer, what was answered, and the result. *)
Definition completes {E : Type → Type} {A} (answer : ∀ R, E R → option R) (p : io E A) : bool :=
  match run_with answer p with Some _ => true | None => false end.
Definition run_trace {E : Type → Type} {A} (answer : ∀ R, E R → option R) (p : io E A) : list (Answered E) :=
  match run_with answer p with Some (t, _) => t | None => [] end.
Definition run_result {E : Type → Type} {A} (answer : ∀ R, E R → option R) (p : io E A) (otherwise : A) : A :=
  match run_with answer p with Some (_, a) => a | None => otherwise end.

Lemma completes_runs {E : Type → Type} {A} (answer : ∀ R, E R → option R) (p : io E A) otherwise :
  completes answer p = true → io_runs p (run_trace answer p) (run_result answer p otherwise).
Proof.
  unfold completes, run_trace, run_result. destruct (run_with answer p) as [[t a]|] eqn:Er; [|done].
  intros _. by apply (run_with_runs answer).
Qed.

Abbreviation example_task := (@task_program ref_hex ref_alloy ref_hash_text ref_keccak engine_curve engine_signer ref_calls
  engine_tokens x86_64 engine_json (λ _, None) (λ _, []) "" "" example_engine (ReconcilerTask 1)).

Definition example_run : list (Answered BatchCall) := run_trace (@example_call) example_task.

Lemma example_task_completes : completes (@example_call) example_task = true.
Proof. vm_compute. reflexivity. Qed.

Lemma example_task_runs : io_runs example_task example_run tt.
Proof. exact (completes_runs (@example_call) example_task tt example_task_completes). Qed.

(** The sixth effect clears the bundle. *)
Lemma executor_acts_on_evidence_witness :
  ∃ before after,
    example_run = before ++ answered (Work (Store (FnClearBundle 1 0 batch_transaction))) (Ok true) :: after ∧
    @store_permits ref_hex ref_alloy engine_curve example_engine (facts_of before) bool
      (FnClearBundle 1 0 batch_transaction).
Proof.
  exists (take 5 example_run), (drop 6 example_run).
  assert (example_run = take 5 example_run ++ answered (Work (Store (FnClearBundle 1 0 batch_transaction))) (Ok true)
    :: drop 6 example_run) as Ht by reflexivity.
  split; [exact Ht|].
  exact (@executor_acts_on_evidence ref_hex ref_alloy ref_hash_text ref_keccak engine_curve engine_signer ref_calls
    engine_tokens x86_64 engine_json (λ _, None) (λ _, []) "" "" example_engine (ReconcilerTask 1)
    example_run (take 5 example_run) _ _ _ _ example_task_runs Ht).
Defined.

Abbreviation example_batch := (@handle_lane_batch ref_hex ref_alloy ref_hash_text ref_keccak engine_curve engine_signer
  ref_calls engine_tokens x86_64 engine_json (λ _, None) (λ _, []) "" "" example_engine [batch_routed]).

Definition example_batch_run : list (Answered BatchCall) := run_trace (@example_call) example_batch.

Lemma example_batch_completes : completes (@example_call) example_batch = true.
Proof. vm_compute. reflexivity. Qed.

Lemma example_batch_runs : io_runs example_batch example_batch_run (run_result (@example_call) example_batch []).
Proof. exact (completes_runs (@example_call) example_batch [] example_batch_completes). Qed.

(** The eighth effect, after the latch was seen tripped, is a diagnostic. *)
Lemma lost_lease_stops_the_batch_witness :
  ∃ before after,
    example_batch_run = before ++ answered (Work (Store (FnRecordDeferred batch_hash "rpc" "chain has no trusted executor RPC"))) (Err "down") :: after ∧
    observed_all latch_observe Whole before = Tripped ∧
    bookkeeping_call (result StoreError bool) (Work (Store (FnRecordDeferred batch_hash "rpc" "chain has no trusted executor RPC"))).
Proof.
  exists (take 7 example_batch_run), (drop 8 example_batch_run).
  assert (example_batch_run = take 7 example_batch_run ++
    answered (Work (Store (FnRecordDeferred batch_hash "rpc" "chain has no trusted executor RPC"))) (Err "down") :: drop 8 example_batch_run) as Ht
    by (vm_compute; reflexivity).
  assert (observed_all latch_observe Whole (take 7 example_batch_run) = Tripped) as Hl by (vm_compute; reflexivity).
  split; [exact Ht|]. split; [exact Hl|].
  exact (@lost_lease_stops_the_batch ref_hex ref_alloy ref_hash_text ref_keccak engine_curve engine_signer ref_calls
    engine_tokens x86_64 engine_json (λ _, None) (λ _, []) "" "" example_engine [batch_routed]
    example_batch_run _ _ _ _ _ _ example_batch_runs Ht Hl).
Defined.
