(* ===== verification/EngineRace.v ===== *)
(** * EngineRace: the executor's tasks over one Redis

    Any number of batches, delayed lanes and reconcilers run at once, in any
    number of processes, each effect of a task interleaved with those of the
    others.  A function of the store is the commands it stands for, one at a
    time; a command runs at once, may be lost, and so may its reply.  Other
    clients issue the commands of any other function of the store.  A task may
    start, or die, at any moment. *)

From S2P Require Export EngineSafety RedisOutbox.
From S2P Require Import RedisRecords RedisSlots.
#[local] Open Scope string_scope.
#[local] Open Scope list_scope.
#[local] Open Scope Z_scope.

(** ** The server *)

(** Between two effects, or amid the commands of a function of the store. *)
Inductive Activity : Type :=
  | Doing (rest : batching ())
  | Asking {A} (f : StoreFn A) (commands : store A) (rest : result StoreError A → batching ()).

Record Worker : Type := { wk_facts : list Fact; wk_activity : Activity }.
Record Server : Type := { sv_clock : Z; sv_keyspace : Keyspace; sv_workers : nat → option Worker }.

Definition put_worker (n : nat) (worker : option Worker) (workers : nat → option Worker) : nat → option Worker :=
  λ m, if Nat.eqb m n then worker else workers m.

Definition with_worker (n : nat) (worker : option Worker) (ks : Keyspace) (s : Server) : Server :=
  {| sv_clock := sv_clock s; sv_keyspace := ks; sv_workers := put_worker n worker (sv_workers s) |}.

Definition doing (F : list Fact) (rest : batching ()) : option Worker := Some {| wk_facts := F; wk_activity := Doing rest |}.
Definition asking {A} (F : list Fact) (f : StoreFn A) commands rest : option Worker :=
  Some {| wk_facts := F; wk_activity := Asking f commands rest |}.

Definition asks_store (R : Type) (e : BatchCall R) : bool := match e with Work (Store _) => true | _ => false end.

(** The prepared bundle that a function of the store may delete. *)
Definition clears {A} (f : StoreFn A) : option (Z * Z * string) :=
  match f with FnClearBundle chain_id lane hash => Some (chain_id, lane, hash) | _ => None end.

(** What a command's reply is to the client, or an error instead of it. *)
Definition replied {R} (answer : option R) (reply : result StoreError R) : Prop :=
  ∀ r, reply = Ok r → answer = Some r.

Section Race.
Context `{HA : Alloy} `{HT : !HashText} `{HK : Keccak} `{HC : Curve} `{HL : !LocalSigner}
  `{HS : SolCalls} `{TC : TokenCalls} `{W : TargetWidth} `{SJ : SerdeJson} `{LJ : LuaJson}.
Variable tip_window_of : Value → option TipWindow.
Variable json_to_vec : Value → list byte.
Variables PIMLICO_ARTIFACT_JSON ENTRY_POINT_V07_ARTIFACT_JSON : string.
Variable self : ExecutorEngine.

Abbreviation program := (task_program tip_window_of json_to_vec PIMLICO_ARTIFACT_JSON ENTRY_POINT_V07_ARTIFACT_JSON self).

Inductive server_step (s : Server) : Server → Prop :=
  | step_time clock : sv_clock s ≤ clock →
      server_step s {| sv_clock := clock; sv_keyspace := sv_keyspace s; sv_workers := sv_workers s |}
  | step_start n task : sv_workers s n = None →
      server_step s (with_worker n (doing [] (program task)) (sv_keyspace s) s)
  | step_die n : server_step s (with_worker n None (sv_keyspace s) s)
  | step_act n F R (e : BatchCall R) k r (Hat : sv_workers s n = doing F (Vis e k)) (Hno : asks_store R e = false) :
      server_step s (with_worker n (doing (batch_observe F R e r) (k r)) (sv_keyspace s) s)
  | step_ask n F A (f : StoreFn A) k (Hat : sv_workers s n = doing F (Vis (Work (Store f)) k)) :
      server_step s (with_worker n (asking F f (store_program f) k) (sv_keyspace s) s)
  | step_read_clock n F A (f : StoreFn A) k rest ms (Hat : sv_workers s n = asking F f (Vis SystemMs k) rest) :
      server_step s (with_worker n (asking F f (k ms) rest) (sv_keyspace s) s)
  | step_command n F A (f : StoreFn A) R (command : redis R) k rest reply
      (Hat : sv_workers s n = asking F f (Vis (Query command) k) rest) :
      replied (command (sv_clock s) (sv_keyspace s)).2 reply →
      server_step s (with_worker n (asking F f (k reply) rest) (command (sv_clock s) (sv_keyspace s)).1 s)
  | step_command_lost n F A (f : StoreFn A) R (command : redis R) k rest error
      (Hat : sv_workers s n = asking F f (Vis (Query command) k) rest) :
      server_step s (with_worker n (asking F f (k (Err error)) rest) (sv_keyspace s) s)
  | step_return n F A (f : StoreFn A) r rest (Hat : sv_workers s n = asking F f (Pure r) rest) :
      server_step s (with_worker n (doing (observe F _ (Store f) r) (rest r)) (sv_keyspace s) s)
  (* a store call cut short by the latch *)
  | step_abandon n F A (f : StoreFn A) commands rest error (Hat : sv_workers s n = asking F f commands rest) :
      server_step s (with_worker n (doing F (rest (Err error))) (sv_keyspace s) s)
  (* another client: any function of the store but the clearing of a bundle *)
  | step_other A R (p : store A) (command : redis R) (Hf : store_function None A p)
      (Hc : issues (Query command) p) :
      server_step s {| sv_clock := sv_clock s; sv_keyspace := (command (sv_clock s) (sv_keyspace s)).1;
                       sv_workers := sv_workers s |}.

Inductive server_goes (s : Server) : Server → Prop :=
  | goes_nowhere : server_goes s s
  | goes_on s' s'' : server_goes s s' → server_step s' s'' → server_goes s s''.

(** No task, over any keyspace. *)
Definition idle_server (now : Z) (ks : Keyspace) : Server :=
  {| sv_clock := now; sv_keyspace := ks; sv_workers := λ _, None |}.

(** ** Every task stays guarded *)

Definition everywhere (_ : list Fact) (_ : ()) : Prop := True.

Definition worker_guarded (w : Worker) : Prop :=
  match wk_activity w with
  | Doing rest => ensures (batch_permits self) batch_observe rest (wk_facts w) everywhere
  | Asking f commands rest =>
      store_permits self (wk_facts w) f ∧ yields (commanded (cleared := clears f)) commands (λ _, True) ∧
      ∀ r, ensures (batch_permits self) batch_observe (rest r) (observe (wk_facts w) _ (Store f) r) everywhere
  end.

Definition all_guarded (s : Server) : Prop := ∀ n w, sv_workers s n = Some w → worker_guarded w.

Lemma program_commands {A} (f : StoreFn A) : yields (commanded (cleared := clears f)) (store_program f) (λ _, True).
Proof.
  apply functions_issue_commands. destruct f; cbn [clears store_program];
  [ apply f_get | apply f_get_many | apply f_restore | apply f_mark_admitted | apply f_mark_rejected
  | apply f_record_deferred | apply f_mark_bundle_submitted | apply f_mark_bundle_failed
  | apply f_mark_bundle_confirmed | apply f_acquire_lease | apply f_renew_lease | apply f_release_lease
  | apply f_save_bundle | apply f_get_bundle | by apply f_clear_bundle | apply f_list_bundles
  | apply f_save_funding | apply f_get_funding | apply f_clear_funding | apply f_save_deployment
  | apply f_get_deployment | apply f_clear_deployment | apply f_defer | apply f_claim_due | apply f_complete
  | apply f_retry | apply f_dead_letter | apply f_claim_alert | apply f_release_alert ].
Qed.

Lemma started_guarded task : worker_guarded {| wk_facts := []; wk_activity := Doing (program task) |}.
Proof. eapply ensures_mono; [apply task_guarded|done]. Qed.

(** An error tells a task nothing. *)
Lemma error_tells_nothing {A} (f : StoreFn A) error : store_facts f (Err error) = [].
Proof. by destruct f. Qed.

Lemma with_worker_guarded n worker ks s :
  all_guarded s → (∀ w, worker = Some w → worker_guarded w) → all_guarded (with_worker n worker ks s).
Proof.
  intros Hs Hw m w. cbn. unfold put_worker. destruct (Nat.eqb m n); [apply Hw|apply Hs].
Qed.

Lemma step_guarded s s' : all_guarded s → server_step s s' → all_guarded s'.
Proof.
  intros Hs Hst. destruct Hst; try exact Hs; (apply with_worker_guarded; [exact Hs|]); intros w [= <-].
  - apply started_guarded.
  - apply Hs in Hat as [_ Hk]. apply Hk.
  - apply Hs in Hat as [He Hk]. split; [exact He|]. split; [apply program_commands|exact Hk].
  - apply Hs in Hat as (Hp & Hc & Hr). split; [exact Hp|]. split; [apply Hc|exact Hr].
  - apply Hs in Hat as (Hp & Hc & Hr). split; [exact Hp|]. split; [apply Hc|exact Hr].
  - apply Hs in Hat as (Hp & Hc & Hr). split; [exact Hp|]. split; [apply Hc|exact Hr].
  - apply Hs in Hat as (Hp & Hc & Hr). apply Hr.
  - apply Hs in Hat as (Hp & Hc & Hr). specialize (Hr (Err error)).
    unfold observe, new_facts in Hr. cbn [wk_facts] in Hr. rewrite error_tells_nothing in Hr. exact Hr.
Qed.

Lemma goes_guarded s s' : all_guarded s → server_goes s s' → all_guarded s'.
Proof. intros Hs Hg. induction Hg as [|s' s'' Hg IH Hst]; [exact Hs|]. by eapply step_guarded. Qed.

Lemma idle_guarded now ks : all_guarded (idle_server now ks).
Proof. intros n w [=]. Qed.

(** ** What happens to a bundle *)

(** The key holds this prepared bundle, without an expiry. *)
Definition bundle_held (i : PreparedBundleIntent) (s : Server) : Prop :=
  entry_at (sv_clock s) (sv_keyspace s) (prepared_bundle_key (bi_chain_id i) (bi_lane i)) = Some (Json (ser_bundle_intent i), None).

(** The outbox of this bundle holds it, as the store writes or reads it. *)
Definition outbox_shows (now : Z) (ks : Keyspace) (i : PreparedBundleIntent) : Prop :=
  ∃ v, text_at now ks (prepared_bundle_key (bi_chain_id i) (bi_lane i)) = Some (Json v) ∧
       (v = ser_bundle_intent i ∨ de_bundle_intent v = Some i).

(** It did so at some moment of the run that led here. *)
Definition was_outboxed (origin s : Server) (i : PreparedBundleIntent) : Prop :=
  ∃ u, server_goes origin u ∧ server_goes u s ∧ outbox_shows (sv_clock u) (sv_keyspace u) i.

(** From [u] to [v] a task's command ran, amid its own clearing of a bundle
    [j]: one with the key and the transaction of [i], that the task itself read
    or saved, that its outbox did hold, and that the task's own answers release. *)
Definition lets_go (origin : Server) (i : PreparedBundleIntent) (u v : Server) : Prop :=
  ∃ n F R (command : redis R) k reply rest j,
    sv_workers u n = asking F (FnClearBundle (bi_chain_id j) (bi_lane j) (bi_transaction_hash j)) (Vis (Query command) k) rest ∧
    v = with_worker n (asking F (FnClearBundle (bi_chain_id j) (bi_lane j) (bi_transaction_hash j)) (k reply) rest)
          (command (sv_clock u) (sv_keyspace u)).1 u ∧
    prepared_bundle_key (bi_chain_id j) (bi_lane j) = prepared_bundle_key (bi_chain_id i) (bi_lane i) ∧
    bi_transaction_hash j = bi_transaction_hash i ∧
    BundleHeld j ∈ F ∧ was_outboxed origin u j ∧ released self F j.

Lemma bundle_hash i hash : lua_field_is (ser_bundle_intent i) "transactionHash" hash = true → hash = bi_transaction_hash i.
Proof. unfold lua_field_is. intros Hf%bool_decide_eq_true. by injection Hf. Qed.

(** One command of a function with this clearing, at a bundle's key. *)
Lemma command_on_bundle {cleared R} (command : redis R) s i :
  store_command cleared R command → bundle_held i s →
  let after := entry_at (sv_clock s) (command (sv_clock s) (sv_keyspace s)).1 (prepared_bundle_key (bi_chain_id i) (bi_lane i)) in
  after = Some (Json (ser_bundle_intent i), None) ∨
  ∃ chain_id lane, cleared = Some (chain_id, lane, bi_transaction_hash i) ∧
    prepared_bundle_key (bi_chain_id i) (bi_lane i) = prepared_bundle_key chain_id lane.
Proof.
  intros Hc Hh. destruct (commands_after command _ _ _ _ Hc (ex_intro _ _ (ex_intro _ _ eq_refl)) Hh)
    as [Ha|(_ & chain_id & lane & hash & payload & Hcl & Hk & [= <-] & Hf)]; [by left|right].
  apply bundle_hash in Hf as ->. by exists chain_id, lane.
Qed.

(** *** What a task was told of an outbox is true *)

(** Whatever the moments its commands run at, if they run, what the function
    tells of prepared bundles was seen, or is what some outbox shows then. *)
Fixpoint honest {A} (f : StoreFn A) (seen : PreparedBundleIntent → Prop) (p : store A) : Prop :=
  match p with
  | Pure r => ∀ j, BundleHeld j ∈ store_facts f r → seen j
  | Vis e k =>
      match e in StoreCall R return (R → store A) → Prop with
      | Query command => λ k, (∀ error, honest f seen (k (Err error))) ∧ ∀ now ks reply, replied (command now ks).2 reply →
          honest f (λ j, seen j ∨ outbox_shows now ks j ∨ outbox_shows now (command now ks).1 j) (k reply)
      | SystemMs => λ k, ∀ ms, honest f seen (k ms)
      end k
  end.

Lemma honest_mono {A} (f : StoreFn A) (seen seen' : PreparedBundleIntent → Prop) p :
  (∀ j, seen j → seen' j) → honest f seen p → honest f seen' p.
Proof.
  revert seen seen'. induction p as [r|R e k IH]; intros seen seen' Hs; cbn; [by auto|]. destruct e.
  - intros [He Hk]. split; [intros error; by eapply IH|]. intros now ks reply Hr.
    eapply IH; [|by apply Hk]. cbn. intros j [?|?]; auto.
  - intros Hk ms. by eapply IH.
Qed.

Lemma honest_silent {A} (f : StoreFn A) seen p : (∀ r j, BundleHeld j ∉ store_facts f r) → honest f seen p.
Proof.
  intros Hf. revert seen. induction p as [r|R e k IH]; intros seen; cbn; [by intros j Hj%Hf|].
  destruct e; [split|]; intros; apply IH.
Qed.

Lemma saved_shows i now ks :
  (SAVE_PREPARED_BUNDLE_SCRIPT (prepared_bundle_key (bi_chain_id i) (bi_lane i)) PREPARED_BUNDLE_INDEX_KEY
     (ser_bundle_intent i) now ks).2 = Some 1 →
  outbox_shows now (SAVE_PREPARED_BUNDLE_SCRIPT (prepared_bundle_key (bi_chain_id i) (bi_lane i))
     PREPARED_BUNDLE_INDEX_KEY (ser_bundle_intent i) now ks).1 i.
Proof.
  unfold SAVE_PREPARED_BUNDLE_SCRIPT, SET_NX, GET, SADD, mbind, redis_mbind, reads, writes. cbn.
  destruct (text_at now ks _); cbn; [done|]. intros _. exists (ser_bundle_intent i). split; [|by left].
  unfold text_at. cbn. by rewrite lookup_insert_eq.
Qed.

Lemma listed_shows index now ks entries entry :
  (LIST_PREPARED_BUNDLES_SCRIPT index now ks).2 = Some entries → entry ∈ entries → text_at now ks entry.1 = Some entry.2.
Proof.
  unfold LIST_PREPARED_BUNDLES_SCRIPT, SMEMBERS, mbind at 1, redis_mbind at 1, reads. cbn beta iota.
  generalize (elements (set_at now ks index)). intros members.
  assert (∀ ks' (found : list (string * Bulk)), ks_texts ks' = ks_texts ks →
    (∀ x, x ∈ found → text_at now ks x.1 = Some x.2) →
    ∀ entries, (redis_for (λ key result,
      raw ← GET key;
      match raw with
      | Some raw => mret (result ++ [(key, raw)])
      | None => _ ← SREM index key; mret result
      end) members found now ks').2 = Some entries → ∀ x, x ∈ entries → text_at now ks x.1 = Some x.2) as Hgo;
    [|intros He Hin; exact (Hgo ks [] eq_refl (λ x Hx, match not_elem_of_nil _ Hx with end) entries He entry Hin)].
  induction members as [|key members IH]; intros ks' found Hks Hf entries'; cbn [redis_for]; [by intros [= <-]|].
  assert (text_at now ks' key = text_at now ks key) as Hat by (unfold text_at; by rewrite Hks).
  unfold mbind at 1, redis_mbind at 1, GET at 1, mbind at 1, redis_mbind at 1, reads. cbn beta iota.
  destruct (text_at now ks' key) as [raw|].
  - apply IH; [done|]. intros x [Hx|Hx%list_elem_of_singleton]%elem_of_app; [by apply Hf|]. by subst x.
  - unfold SREM, mbind at 1, redis_mbind at 1, writes. cbn beta iota. by apply IH.
Qed.

Lemma all_ok_from {A B} (f : A → result StoreError B) l bs :
  all_ok f l = Ok bs → ∀ b, b ∈ bs → ∃ a, a ∈ l ∧ f a = Ok b.
Proof.
  revert bs. induction l as [|a l IH]; intros bs; cbn [all_ok]; [intros [= <-] b Hb; by apply elem_of_nil in Hb|].
  intros (b & Ha & (bs' & Hl & [= <-])%result_bind_Ok)%result_bind_Ok b' [->|Hb]%elem_of_cons.
  - exists a. split; [by left|done].
  - destruct (IH _ Hl _ Hb) as (a' & ? & ?). exists a'. split; [by right|done].
Qed.

Lemma read_shows {I} (de : Value → option I) invalid wrong in_scope payload i :
  read_intent de invalid wrong in_scope payload = Ok (Some i) →
  ∃ v, payload = Some (Json v) ∧ de v = Some i ∧ in_scope i = Ok true.
Proof.
  unfold read_intent. destruct payload as [[text|v]|]; try done.
  intros (j & Hd%ok_or_Ok & (good & Hg & Hj)%result_bind_Ok)%result_bind_Ok. exists v.
  destruct good; [|done]. by injection Hj as ->.
Qed.

(** The three functions that tell of prepared bundles tell the truth. *)
Lemma program_honest {A} (f : StoreFn A) seen : honest f seen (store_program f).
Proof.
  destruct f; try (apply honest_silent; intros r j; destruct r as [x|]; cbn; try destruct x as [x|]; try destruct x;
    rewrite ?list_elem_of_singleton, ?elem_of_nil; by intros Hj).
  - (* FnSaveBundle *) cbn [store_program]. unfold save_prepared_bundle_intent, validated.
    destruct (validate_prepared_bundle_intent intent) as [[]|e]; [|by intros j Hj%elem_of_nil].
    split; [by intros e j Hj%elem_of_nil|]. intros now ks reply Hr. destruct reply as [reply|e]; cbn; [|by intros j Hj%elem_of_nil].
    intros j. destruct (Z.eqb_spec reply 1) as [->|]; [|by intros Hj%elem_of_nil].
    intros [= ->]%list_elem_of_singleton. right. right. by apply saved_shows, Hr.
  - (* FnGetBundle *) cbn [store_program]. unfold get_prepared_bundle_intent.
    split; [by intros e j Hj%elem_of_nil|]. intros now ks reply Hr.
    destruct reply as [payload|e]; cbn; [|by intros j Hj%elem_of_nil]. intros j.
    destruct (read_intent _ _ _ _ _) as [[i|]|e] eqn:Ei; cbn; rewrite ?elem_of_nil; try done.
    intros [= ->]%list_elem_of_singleton. right. left. apply read_shows in Ei as (v & -> & Hd & [= Hs]).
    apply bool_decide_eq_true in Hs as [<- <-]. exists v. split; [|by right]. specialize (Hr _ eq_refl). by injection Hr.
  - (* FnListBundles *) cbn [store_program]. unfold list_prepared_bundle_intents.
    split; [by intros e j Hj%elem_of_nil|]. intros now ks reply Hr.
    destruct reply as [entries|e]; cbn; [|by intros j Hj%elem_of_nil]. intros j.
    destruct (all_ok indexed_intent entries) as [intents|e] eqn:Ei; cbn; [|by intros Hj%elem_of_nil].
    intros (i & [= ->] & Hin)%list_elem_of_fmap. rewrite merge_sort_Permutation in Hin.
    destruct (all_ok_from _ _ _ Ei _ Hin) as (entry & He & Hi).
    pose proof (listed_shows _ _ _ _ _ (Hr _ eq_refl) He) as Ht. right. left.
    unfold indexed_intent in Hi. apply result_bind_Ok in Hi as (i' & Hd%ok_or_Ok & Hi).
    destruct (String.eqb_spec (prepared_bundle_key (bi_chain_id i') (bi_lane i')) entry.1) as [Hk|]; [|done].
    injection Hi as ->. destruct entry as [key [text|v]]; [done|]. cbn in *. subst key. exists v. by split; [|right].
Qed.

(** *** Over a run *)

Lemma goes_trans s s' s'' : server_goes s s' → server_goes s' s'' → server_goes s s''.
Proof. intros H1 H2. induction H2 as [|u v H2 IH Hst]; [exact H1|by eapply goes_on]. Qed.

#[local] Instance bundle_held_dec i s : Decision (bundle_held i s).
Proof. unfold bundle_held. apply _. Defined.

Section Origin.
Variable origin : Server.

Definition worker_truthful (s : Server) (w : Worker) : Prop :=
  (∀ j, BundleHeld j ∈ wk_facts w → was_outboxed origin s j) ∧
  match wk_activity w with
  | Doing _ => True
  | Asking f commands _ => honest f (was_outboxed origin s) commands
  end.
Definition all_truthful (s : Server) : Prop := ∀ n w, sv_workers s n = Some w → worker_truthful s w.

Lemma was_outboxed_step s s' j : server_step s s' → was_outboxed origin s j → was_outboxed origin s' j.
Proof. intros Hst (u & Ho & Hu & Hj). exists u. split; [done|]. split; [by eapply goes_on|done]. Qed.

Lemma truthful_step s s' w : server_step s s' → worker_truthful s w → worker_truthful s' w.
Proof.
  intros Hst [Hf Ha]. split; [intros j Hj; by eapply was_outboxed_step, Hf|].
  destruct (wk_activity w); [done|]. eapply honest_mono; [|exact Ha]. intros j. by apply was_outboxed_step.
Qed.

Lemma with_worker_truthful n worker ks s :
  server_step s (with_worker n worker ks s) → all_truthful s →
  (∀ w, worker = Some w → worker_truthful (with_worker n worker ks s) w) → all_truthful (with_worker n worker ks s).
Proof.
  intros Hst Hs Hw m w. cbn. unfold put_worker. destruct (Nat.eqb m n); [apply Hw|].
  intros Hm. eapply truthful_step; [exact Hst|by eapply Hs].
Qed.

Lemma silent_effect F R (e : BatchCall R) r j :
  asks_store R e = false → BundleHeld j ∈ batch_observe F R e r → BundleHeld j ∈ F.
Proof.
  intros Hno. destruct e as [R e| |]; [|done..]. cbn. intros [Hj|Hj]%elem_of_app; [exfalso|done].
  destruct e; try discriminate Hno; cbn in Hj; try by apply elem_of_nil in Hj.
  all: try by apply list_elem_of_singleton in Hj.
  all: repeat case_match; try by apply elem_of_nil in Hj.
  all: try by apply list_elem_of_singleton in Hj.
  by apply elem_of_lookup_zip_with_1 in Hj as (n & call & answer & [=] & _).
Qed.

Lemma step_truthful s s' : server_goes origin s → all_truthful s → server_step s s' → all_truthful s'.
Proof.
  intros Ho Hs Hst. pose proof Hst as Hst'. destruct Hst; try (intros m w Hw; by eapply truthful_step, Hs);
    (apply with_worker_truthful; [exact Hst'|exact Hs|]); intros w [= <-].
  - split; [|done]. intros j Hj. by apply elem_of_nil in Hj.
  - split; [|done]. intros j Hj%silent_effect; [|done]. eapply was_outboxed_step; [exact Hst'|]. by apply (Hs _ _ Hat).
  - destruct (truthful_step _ _ _ Hst' (Hs _ _ Hat)) as [Hf _]. split; [exact Hf|apply program_honest].
  - destruct (truthful_step _ _ _ Hst' (Hs _ _ Hat)) as [Hf Hk]. split; [exact Hf|apply Hk].
  - destruct (truthful_step _ _ _ Hst' (Hs _ _ Hat)) as [Hf Hk]. split; [exact Hf|].
    eapply honest_mono; [|by apply Hk]. cbn. intros j [Hj|[Hj|Hj]]; [exact Hj| |].
    + eapply was_outboxed_step; [exact Hst'|]. exists s. split; [exact Ho|]. split; [apply goes_nowhere|exact Hj].
    + eexists. split; [eapply goes_on; [exact Ho|exact Hst']|]. split; [apply goes_nowhere|exact Hj].
  - destruct (truthful_step _ _ _ Hst' (Hs _ _ Hat)) as [Hf Hk]. split; [exact Hf|].
    apply Hk.
  - destruct (truthful_step _ _ _ Hst' (Hs _ _ Hat)) as [Hf Hk]. split; [|done].
    intros j [Hj|Hj]%elem_of_app; [by apply Hk|by apply Hf].
  - destruct (truthful_step _ _ _ Hst' (Hs _ _ Hat)) as [Hf Hk]. by split.
Qed.

Lemma goes_truthful s s' : server_goes origin s → all_truthful s → server_goes s s' → all_truthful s'.
Proof.
  intros Ho Hs Hg. induction Hg as [|s' s'' Hg IH Hst]; [exact Hs|].
  eapply step_truthful; [|exact IH|exact Hst]. by eapply goes_trans.
Qed.

(** A step that loses a bundle is the clearing of a task that may let go. *)
Lemma step_on_bundle s s' i :
  all_guarded s → all_truthful s → bundle_held i s → server_step s s' → bundle_held i s' ∨ lets_go origin i s s'.
Proof.
  intros Hs Htr Hh Hst. destruct Hst; try (by left).
  - pose proof (Hs _ _ Hat) as (Hp & Hc & _).
    destruct (command_on_bundle command s i (proj1 Hc) Hh) as [Ha|(chain_id & lane & Hcl & Hk)]; [by left|right].
    destruct f; try discriminate Hcl. injection Hcl as -> -> ->.
    destruct Hp as (j & Hj & -> & -> & Hhash & Hr). cbn [wk_facts] in Hj, Hr. rewrite Hhash in Hat |- *.
    exists n, F, R, command, k, reply, rest, j.
    split; [exact Hat|]. split; [reflexivity|]. split; [done|]. split; [done|]. split; [exact Hj|].
    split; [by apply (Htr _ _ Hat)|exact Hr].
  - pose proof (yields_issues (commanded (cleared := None)) _ p _ (functions_issue_commands p Hf) Hc) as Hst.
    destruct (command_on_bundle command s i Hst Hh) as [Ha|(chain_id & lane & [=] & _)]. by left.
Qed.
End Origin.

Lemma idle_truthful now ks : all_truthful (idle_server now ks) (idle_server now ks).
Proof. intros n w [=]. Qed.

(** C2: The server keeps its prepared bundles.  However the executor's tasks -
    batches, delayed lanes, reconcilers, in any number, starting and dying at
    any moment - and any other clients of the store interleave over one Redis,
    with commands and replies lost at will: a bundle that an outbox holds is
    still there later, unless one step in between lost it, and that step is a
    command of a task in the middle of clearing a bundle of this key and
    transaction which the task itself had read or saved, which the outbox held
    at an earlier moment, and which the task's own earlier answers release: its
    members are all done, or its nonce is spent and no endpoint knows it, or its
    receipt's outcome was stored. *)
Theorem server_keeps_its_bundle now ks s s' i :
  server_goes (idle_server now ks) s → server_goes s s' → bundle_held i s →
  bundle_held i s' ∨
  ∃ u v, server_goes s u ∧ server_step u v ∧ server_goes v s' ∧
    bundle_held i u ∧ ¬ bundle_held i v ∧ lets_go (idle_server now ks) i u v.
Proof.
  intros Hs Hg Hh. induction Hg as [|u v Hg IH Hst]; [by left|].
  destruct IH as [Hu|(w & w' & Hw & Hww & Hwu & Hl)].
  - destruct (decide (bundle_held i v)) as [Hv|Hv]; [by left|right].
    assert (server_goes (idle_server now ks) u) as Ho by (by eapply goes_trans).
    destruct (step_on_bundle (idle_server now ks) u v i) as [?|Hl]; try done.
    + by eapply goes_guarded, Ho; apply idle_guarded.
    + by eapply goes_truthful, Ho; [apply goes_nowhere|apply idle_truthful].
    + exists u, v. split_and!; try done. apply goes_nowhere.
  - right. exists w, w'. split; [done|]. split; [done|]. split; [by eapply goes_on|done].
Qed.
End Race.

(** ** A reconciler that clears a bundle whose members are done *)

Definition outbox_world : Keyspace :=
  let saved := (SAVE_PREPARED_BUNDLE_SCRIPT (prepared_bundle_key 1 0) PREPARED_BUNDLE_INDEX_KEY
                  (ser_bundle_intent example_bundle) 0 empty_keyspace).1 in
  let created := (SET_NX (status_key batch_hash) (Json (VObject (record_fields (queued_record
                    {| q_user_operation_hash := batch_hash; q_chain_id := 1; q_entry_point := batch_entry_point;
                       q_user_operation := V0_7 batch_operation |} true)))) (Some (USER_OPERATION_TTL_SECS * 1000)) 0 saved).1 in
  (@PATCH_RECORD_SCRIPT exact_json (status_key batch_hash) (VObject [("status", VString "included")]) "queued" 0 created).1.

(** One step of the task at work, if it has one. *)
Definition advance_doing (ks : Keyspace) (s : Server) (F : list Fact) (rest : batching ()) : option Server :=
  match rest with
  | Pure _ => None
  | Vis e k =>
      match e in BatchCall R return (R → batching ()) → option Server with
      | Work e =>
          match e in EngineCall R return (R → batching ()) → option Server with
          | Store f => λ k, Some (with_worker 0 (asking F f (@store_program exact_json ref_hex _ f) k) ks s)
          | e => λ k, match example_effect e with
                      | Some r => Some (with_worker 0 (doing (batch_observe F _ (Work e) r) (k r)) ks s)
                      | None => None
                      end
          end
      | e => λ k, match example_call e with
                  | Some r => Some (with_worker 0 (doing (batch_observe F _ e r) (k r)) ks s)
                  | None => None
                  end
      end k
  end.

Definition advance_asking {A} (s : Server) (F : list Fact) (f : StoreFn A) (commands : store A) rest : option Server :=
  let ks := sv_keyspace s in
  match commands with
  | Pure r => Some (with_worker 0 (doing (observe F _ (Store f) r) (rest r)) ks s)
  | Vis e k =>
      match e in StoreCall R return (R → store A) → option Server with
      | Query command => λ k,
          let '(ks', answer) := command (sv_clock s) ks in
          Some (with_worker 0 (asking F f (k (match answer with Some r => Ok r | None => Err "Redis query failed" end)) rest) ks' s)
      | SystemMs => λ k, Some (with_worker 0 (asking F f (k (sv_clock s)) rest) ks s)
      end k
  end.

Definition advance (s : Server) : option Server :=
  match sv_workers s 0%nat with
  | Some {| wk_facts := F; wk_activity := Doing rest |} => advance_doing (sv_keyspace s) s F rest
  | Some {| wk_facts := F; wk_activity := Asking f commands rest |} => advance_asking s F f commands rest
  | None => None
  end.

Fixpoint advance_all (steps : nat) (s : Server) : Server :=
  match steps with
  | O => s
  | S steps => match advance s with Some s => advance_all steps s | None => s end
  end.

Abbreviation example_step := (@server_step ref_hex ref_alloy ref_hash_text ref_keccak engine_curve engine_signer ref_calls
  engine_tokens x86_64 engine_json exact_json (λ _, None) (λ _, []) "" "" example_engine).
Abbreviation example_goes := (@server_goes ref_hex ref_alloy ref_hash_text ref_keccak engine_curve engine_signer ref_calls
  engine_tokens x86_64 engine_json exact_json (λ _, None) (λ _, []) "" "" example_engine).

Lemma advance_steps s s' : advance s = Some s' → example_step s s'.
Proof.
  unfold advance. destruct (sv_workers s 0%nat) as [[F [rest|A f commands rest]]|] eqn:Ew; [| |done].
  - destruct rest as [a|R e k]; [done|]. destruct e as [R e| |].
    + destruct e; cbn [advance_doing];
        lazymatch goal with
        | |- Some _ = Some _ → _ => intros <-%(inj Some); by apply step_ask
        | |- _ => destruct (example_effect _) as [r|]; [|done]; intros <-%(inj Some); by apply step_act
        end.
    + cbn [advance_doing]. intros <-%(inj Some). by apply step_act.
    + cbn [advance_doing]. intros <-%(inj Some). by apply step_act.
  - destruct commands as [r|R e k]; cbn [advance_asking]; [intros <-%(inj Some); by apply step_return|].
    destruct e as [R command|].
    + destruct (command _ _) as [ks' answer] eqn:Ec. intros <-%(inj Some).
      assert (ks' = (command (sv_clock s) (sv_keyspace s)).1) as -> by (by rewrite Ec).
      apply step_command; [exact Ew|]. rewrite Ec. destruct answer; by intros ? [= ->].
    + intros <-%(inj Some). by apply step_read_clock.
Qed.

Lemma advance_goes steps s : example_goes s (advance_all steps s).
Proof.
  enough (∀ s0, example_goes s0 s → example_goes s0 (advance_all steps s)) as Hg by apply Hg, goes_nowhere.
  revert s. induction steps as [|steps IH]; intros s s0 Hs; [exact Hs|]. cbn [advance_all].
  destruct (advance s) as [s'|] eqn:Ea; [|exact Hs]. apply IH. eapply goes_on; [exact Hs|by apply advance_steps].
Qed.

Definition example_idle : Server := idle_server 0 outbox_world.
Definition example_before : Server :=
  with_worker 0 (doing [] (@task_program ref_hex ref_alloy ref_hash_text ref_keccak engine_curve engine_signer ref_calls
    engine_tokens x86_64 engine_json (λ _, None) (λ _, []) "" "" example_engine (ReconcilerTask 1))) outbox_world example_idle.
Definition example_after : Server := advance_all 40 example_before.

Lemma example_held : bundle_held example_bundle example_before.
Proof. vm_compute. reflexivity. Qed.

Lemma example_cleared : entry_at 0 (sv_keyspace example_after) (prepared_bundle_key 1 0) = None.
Proof. vm_compute. reflexivity. Qed.
Lemma example_started : example_goes example_idle example_before.
Proof. eapply goes_on; [apply goes_nowhere|]. by apply (step_start _ _ _ _ _ example_idle 0 (ReconcilerTask 1)). Qed.
Lemma example_worked : example_goes example_before example_after.
Proof. apply advance_goes. Qed.

(** The reconciler cleared the bundle, so it had the evidence. *)
Lemma server_keeps_its_bundle_witness :
  entry_at 0 (sv_keyspace example_after) (prepared_bundle_key 1 0) = None ∧
  (bundle_held example_bundle example_after ∨
   ∃ u v, example_goes example_before u ∧ example_step u v ∧ example_goes v example_after ∧
     bundle_held example_bundle u ∧ ¬ bundle_held example_bundle v ∧
     @lets_go ref_hex ref_alloy ref_hash_text ref_keccak engine_curve engine_signer ref_calls
       engine_tokens x86_64 engine_json exact_json (λ _, None) (λ _, []) "" "" example_engine
       example_idle example_bundle u v).
Proof.
  split; [exact example_cleared|].
  exact (@server_keeps_its_bundle ref_hex ref_alloy ref_hash_text ref_keccak engine_curve engine_signer ref_calls
    engine_tokens x86_64 engine_json exact_json (λ _, None) (λ _, []) "" "" example_engine 0 outbox_world
    example_before example_after example_bundle example_started example_worked example_held).
Defined.
